(* ===== verification/_CoqProject ===== *)
-Q . S2P
Prelude.v
Bytes.v
Ordering.v
Checksum.v
Layout.v
EntryTable.v
Metadata.v
Commit.v
HighWater.v
PoolIdentity.v
Activation.v
ExactIndex.v
ExactIndexPage.v
ExactIndexRun.v
ExactIndexStream.v
RunSet.v
Manifest.v
ManifestInner.v
Effects.v
Storage.v
GenerationLog.v
GenerationLogSafety.v
GenerationAllocator.v
SeqCdc.v
SeqCdcMasks.v
SeqCdcCut.v
SmallFilePolicy.v
MapSum.v
LogicalQuota.v
QuotaReplacement.v
ReductionFilter.v
CpuAdmission.v
CandidateReadGate.v
ExactIndexRead.v
ExactIndexLookup.v
ExactIndexActive.v
ExactIndexBatch.v
BTreeMap.v
Extents.v
SparseData.v
SparseDataOps.v
RangeSet.v
DirtyEpoch.v
DirtyEpochOps.v
FileCapacity.v
ReadPlan.v
ReadPlanOps.v
Allocation.v
VersionedFile.v
VersionedFileOps.v
EpochAudit.v
Flatten.v
FileCommit.v
Fallocate.v
FileRefinement.v
InodeMetadata.v
InodeAttributes.v
FileCatalog.v
RecordLocks.v
RecordLocksOps.v
LockHistory.v
FileHandlers.v
FileClone.v
FileHandlersOps.v
FileRequests.v
NamespaceTree.v
TreeRequests.v
AttributeRequests.v
TreeInvariant.v
TreeSteps.v
TreeNames.v
TreeCreates.v
TreeRename.v
AttributeOps.v
TreeReferences.v
TreeHistory.v
TreeErrors.v
NamespaceMount.v
NamespaceMountOps.v
NamespaceExamples.v
