(* ===== verification/Prelude.v ===== *)
(** * fastdup: a verification development

    fastdup is a deduplicating storage appliance.  Data is cut into chunks,
    chunks are packed into containers, and files are described by metadata
    objects (manifest leaves and inner nodes, namespace shards and roots).  A
    repository commits a new namespace root by appending a fixed-size record to
    a two-slot generation log; container names come from a durable generation
    allocator; the exact index is switched by activation records.  A POSIX layer
    keeps the namespace, charges logical quotas and classifies small files.

    ** Files and the code they model

    - [Prelude]: outcomes of Rust code ([Ok], [Err], panic), machine integers
      and the development's tactics.  [Bytes]: byte buffers, slices,
      little-endian integers.  [Checksum]: the interfaces of the third-party
      [crc32c] and [blake3] crates (classes [Crc32c] and [Blake3], with what the
      code relies on as [Crc32cLaws] and [Blake3Laws], and concrete instances
      for the witnesses), and [crc32c_with_zeroed_u32] of
      crates/fastdup-format/src/lib.rs.  [Layout]: fixed field layouts, the
      shared theory of the record codecs.
    - [Metadata], [Commit], [HighWater], [PoolIdentity], [Activation],
      [Manifest], [ManifestInner]: the codecs of crates/fastdup-format/src
      (metadata.rs, commit.rs, container_generation_high_water.rs,
      pool_identity.rs, exact_index_activation.rs, manifest.rs,
      manifest_inner.rs).  Constructors, encoders and decoders keep the names
      and the order of the checks of the source.
    - [Effects]: state passing with errors and panics.  [Storage]: the trait
      [StorageIo] of crates/fastdup-store/src/lib.rs as a class, its contract
      [StorageLaws] (live and durable contents, what a failed call may leave,
      what a crash keeps), and [Memory], the model of [MemoryStorageIo] of
      crates/fastdup-testkit/src/lib.rs, which satisfies the contract but for
      its injected torn writes.
    - [GenerationLog], [GenerationLogSafety]: generation_log.rs of
      crates/fastdup-store/src, proved over any storage that satisfies
      [StorageLaws].  [GenerationAllocator]: container_generation_allocator.rs,
      likewise.
    - [SeqCdc] is seqcdc.rs of the same crate, vector instructions included;
      [SeqCdcMasks] and [SeqCdcCut] prove it.
    - [SmallFilePolicy], [LogicalQuota]: small_file_policy.rs and
      logical_quota.rs of crates/fastdup-posix/src, the latter with the
      interleavings of the threads that use it.
      [MapSum]: sums over finite maps.  [QuotaReplacement]:
      [replace_logical_quotas] of crates/fastdup-posix/src/lib.rs, the catalog
      walk that charges existing files.
    - [ReductionFilter], [CpuAdmission], [CandidateReadGate]:
      reduction_filter.rs, cpu_admission.rs and candidate_read_gate.rs of
      crates/fastdup-store/src.  [CpuAdmission] runs the threads that hold and
      wait for worker permits as a step relation.
    - [Ordering]: Rust's [Ord] as a class, sorting by key and binary search.
      [EntryTable]: tables of fixed-size entries.  [ExactIndex]: exact_index.rs
      of crates/fastdup-format/src, complete; [ExactIndexPage],
      [ExactIndexRun] and [ExactIndexStream] prove pages, run files and the
      streaming encoder.  [ExactIndexRead]: the audit that opens a run
      (exact_index_read.rs) and the lookup of exact_index_repository.rs in
      crates/fastdup-store/src; [ExactIndexLookup] proves the lookup against
      what the page cache, the leased bounds and the Bloom filter may answer.
    - [RunSet]: exact_index_run_set.rs of crates/fastdup-format/src.
      [ExactIndexActive]: [ActivatedExactIndex] of exact_index_repository.rs,
      the index built from a run set and its readers, its lookups and the
      choice of a reference for ingest.  [ExactIndexBatch]: the batched lookups
      of one run and of the index.
    - The data of files, crates/fastdup-posix/src.  [BTreeMap]: ordered maps
      and their range queries; [Extents]: maps of disjoint extents.
      [SparseData]: the dirty data of lib.rs; [RangeSet], [DirtyEpoch],
      [ReadPlan], [Allocation], [VersionedFile], [EpochAudit], [Flatten] and
      [FileCommit]: the parts of versioned_file.rs, from the hole ranges to the
      commits; [Fallocate]: the data path of [fallocate] in lib.rs, and [posix_size],
      the sizes and errors that fallocate(2) asks for.
      [SparseDataOps], [DirtyEpochOps], [ReadPlanOps] and [VersionedFileOps] hold
      their proofs and [FileRefinement] the theorems.  A file that a layer refers to is a
      record of its methods with an identity; a heap gives the contents of the
      files that exist, and [file_ok] is what their methods must answer.
    - [FileCatalog], [FileCapacity], [FileHandlers], [FileClone]: the requests on
      files of the namespace in crates/fastdup-posix/src/lib.rs (inodes and
      handles, the capacity plans of versioned_file.rs, the handlers that write,
      resize, preallocate, clone and seek).  Quotas and physical admission are
      the class [Admission], the recipes a committed file exports the class
      [CloneRecipes].  [FileHandlersOps] holds the proofs and [FileRequests]
      the theorems.
    - [RecordLocks]: the byte-range locks of the same file; [RecordLocksOps] and
      [LockHistory] hold the proofs and the theorems.
    - [InodeMetadata]: inode_metadata.rs of the same crate; [InodeAttributes]
      holds its proofs and theorems.
    - The namespace of lib.rs.  [NamespaceTree]: the catalog of inodes, entries,
      handles and lookup counts with its checks and allocators; [TreeRequests]
      and [AttributeRequests]: the handlers of [Namespace] on names, on
      attributes and on directories; [NamespaceMount]: the committed snapshot
      and [from_committed_mode].  What other tables say of an inode is given by
      the classes [Domains], [Authorities] and [NamePolicy].  [TreeInvariant] is
      the tree and the counts it asks for, [TreeSteps] the invariant of
      the catalog and the steps that keep it, [TreeNames], [TreeCreates],
      [TreeRename], [AttributeOps] and [NamespaceMountOps] the proofs of the
      handlers, [TreeReferences] what they do to lookup counts, handles, times
      and new inodes, [TreeHistory] and [TreeErrors] the theorems, and [NamespaceExamples] runs a new and a
      mounted namespace.

    ** What the theorems show

    - Codecs: a buffer decodes to a value iff the value is well formed and the
      buffer is its encoding, so that encoding round-trips and there is one
      encoding per value; decoders never panic; an accepted manifest partitions
      the file, an accepted inner node routes every offset to one child.
    - Generation log: on slots that exist durably, an append is atomic under
      every failure that [StorageLaws] allows and a crash at any point; from an
      empty store on, no acknowledged commit is lost in any run of a writer that
      restarts after a failed append, the creation of the slots included.  One
      theorem shows the failure that remains for a writer that goes on instead.
    - Generation allocator: in any run, from an empty store or from slots that
      exist, no generation is issued twice, across failures, crashes and
      restarts; a generation is durable before it is returned.
    - SeqCDC: every scanner equals the scalar one on every input, returns a cut
      within the configured bounds, and cuts depend only on content.
    - Quotas: the removal of an inode is three steps, as in the code: it reads the
      count of the inode, takes it out of the index and releases the count.  When no
      change of that inode comes in between ([Fenced]), no interleaving exceeds a limit or
      fires the accounting assertion; otherwise ([Any]) the assertion can fire,
      which the same theorem shows.  When no replacement of the table comes in between
      either ([Strict]), the count is exact when nothing is in flight.  One theorem
      shows the leak of a removal that races with a replacement.
    - Small-file policy: the compiled table matches exactly the listed suffixes.
    - Quota replacement: the walk always terminates, and a successful one
      charges each quota root exactly the files of its tree and its orphans.
    - Reduction filter: the Bloom filter represents exactly the inserted keys,
      and the location cache returns the last recorded location or nothing.
    - CPU admission: permits are conserved in every interleaving; without
      spurious wake-ups and new threads every run ends with all permits free and
      no thread left waiting; the parallel map keeps the order.
    - Candidate gate: no input makes it fail, and one in 32 rejections of a
      bucket explores.
    - Exact index: a run file decodes iff it is the encoding of a well-formed
      run; the streaming encoder writes the same file; opening a run accepts
      exactly the files that decode completely to the expected run; a lookup
      returns the key's entries and nothing else, up to the limit.
    - Active index: a run set decodes iff it is the encoding of well-formed
      complete families; a lookup returns what a scan of all runs, newest
      family first, returns; a chosen reference is the newest transition of its
      location and active; a batch agrees with single lookups up to the
      candidate limit, which it applies per run.
    - Versioned files: every history of mutations is the history of the POSIX
      file the layers stand for, with its allocation counted exactly and no
      assertion firing; reads, seeks and [fallocate] are exact, their errors
      included; a commit that freezes, is overtaken by mutations and installs
      does not show.  Reads and commits are exact for files of at most
      half of the 64-bit range whose external extents keep their source offsets
      in 64 bits; one theorem shows a sum in the read planner that overflows
      otherwise.
    - File requests: each is the POSIX operation on its inode and leaves the
      others, none fails an assertion, one that is admitted succeeds, and the
      count of dirty payload is exact after every history.  The metadata that
      appends claim is bounded by the size of the file.
    - Record locks: no history gives two owners a conflicting byte, a request is
      refused exactly when it conflicts or exceeds the limit, and the list of an
      inode is a normal form.
    - Inode metadata: the counts and limits of attributes hold after every
      sequence of requests, access control lists stay valid, a mode that is set
      is read back from them, and a new inode inherits what its directory asks.
    - Namespace tree: no request that meets [tree_request_ok] (it names no
      directory that has been removed) fails an assertion; each changes the
      entries, the attributes, the times, the contents, the lookup counts and
      the handles it should and nothing else; the links of
      an inode are its names, the root reaches every directory, and an inode
      without names is held by a lookup or a handle, after every history of such
      requests.  The requests on names fail exactly in the cases listed for
      them, with the error of the first.  A directory read returns a page of the
      listing and counts one lookup for each row when it is asked to.
    - Mount: an accepted snapshot gives a namespace that satisfies the
      invariant, with its entries and inodes, and the walk ends on any input.
      [NamespaceExamples] also shows a link that fails after it was made, a
      removed directory whose listing panics and one that is never dropped.

    ** Bounds and fuel

    Integers are [Z] with the range of their Rust type stated in the
    well-formedness conditions; checked, saturating and panicking arithmetic is
    written out at its width (usize is 64 bits; release builds check overflow).
    [cut_scalar_from] and the vector loops of [SeqCdc] take fuel [cut_fuel], one
    more than the window length: every round advances at least one byte, and
    [seqcdc_cut_in_bounds] shows that the fuel never runs out.
    [walk_fuel] of [QuotaReplacement] is the number of catalog entries plus one
    and is proved sufficient for the walk.
    [visit_page_spans], [search_pages] and [scan_pages] of [ExactIndexRead] take
    the number of pages as fuel; running out is a panic, which the theorems
    exclude.
    [validate_families] of [RunSet] takes the number of runs, and
    [batch_rounds] of [ExactIndexBatch] one round per page and one more; both
    are proved enough.
    The searches of [VersionedFile] halve 64-bit ranges and take fuel 65; its
    scan of a range and that of [Flatten] take the length of the range, and
    [execute_spans] of [ReadPlan] the number of spans.
    [ancestor_loop] of [TreeRequests] climbs at most the number of entries, and
    [reach_loop] of [NamespaceMount] takes one more than the number of inodes;
    running out is a panic, which the theorems exclude.

    ** Not modelled

    Allocation failure ([try_reserve]), poisoned locks, [Display]/[Error]/[From]
    implementations and plain getters.  Of the storage trait, the methods the
    modelled clients do not call; the contract [StorageLaws] leaves out writes
    that a crash tears and stores that make contents durable before a sync, as
    direct_io.rs does with the length of a file.  Of versioned files, externalization.
    Of the namespace, the dispatch of requests, the fence around mutations, the
    cuts of commits, observers, and the tables of shares and authorities.
    Data containers, the repositories of the indexes, recovery, maintenance, the
    appliance, the control plane and the io_uring engine are listed in the
    manifest with the reason. *)
From stdpp Require Export base tactics list option gmap strings.
From stdpp Require Export numbers.

#[global] Open Scope Z_scope.

(** ** Outcomes of Rust code

    A Rust function returning [Result<A, E>] can return [Ok], return [Err], or
    panic (an out-of-range index, a failed [assert!] or [expect]).  The three
    cases are kept apart, so that "never panics" is a statement. *)
Inductive outcome (E A : Type) : Type :=
  | Ok (a : A)
  | Err (e : E)
  | Panic.
Arguments Ok {E A} a.
Arguments Err {E A} e.
Arguments Panic {E A}.

#[global] Instance outcome_eq_dec `{EqDecision E, EqDecision A} : EqDecision (outcome E A).
Proof. solve_decision. Defined.

#[global] Instance outcome_ret E : MRet (outcome E) := λ A a, Ok a.
#[global] Instance outcome_bind E : MBind (outcome E) := λ A B f m,
  match m with Ok a => f a | Err e => Err e | Panic => Panic end.
#[global] Instance outcome_fmap E : FMap (outcome E) := λ A B f m,
  match m with Ok a => Ok (f a) | Err e => Err e | Panic => Panic end.

(** The value did not come from a panic. *)
Definition no_panic {E A} (m : outcome E A) : Prop := m ≠ Panic.

(** [Option::ok_or]. *)
Definition ok_or {E A} (o : option A) (e : E) : outcome E A :=
  match o with Some a => Ok a | None => Err e end.

(** [Option::expect] and [assert!]. *)
Definition expect {E A} (o : option A) : outcome E A :=
  match o with Some a => Ok a | None => Panic end.
Definition assert_true {E} (b : bool) : outcome E () := if b then Ok () else Panic.

(** [Result::map_err], and the conversion that [?] applies to an error. *)
Definition map_err {E F A} (f : E → F) (m : outcome E A) : outcome F A :=
  match m with Ok a => Ok a | Err e => Err (f e) | Panic => Panic end.

(** [if c { return Err(e) }]. *)
Definition reject_if {E} (c : bool) (e : E) : outcome E () :=
  if c then Err e else Ok ().

(** The short-circuit [||] and [&&] of conditions whose operands may panic. *)
Definition or_else {E} (a b : outcome E bool) : outcome E bool :=
  match a with Ok false => b | r => r end.
Definition and_then {E} (a b : outcome E bool) : outcome E bool :=
  match a with Ok true => b | r => r end.

Declare Scope fastdup_scope.
Delimit Scope fastdup_scope with fd.
Notation "a '||?' b" := (or_else a b) (at level 50, left associativity) : fastdup_scope.
Notation "a '&&?' b" := (and_then a b) (at level 40, left associativity) : fastdup_scope.
#[global] Open Scope fastdup_scope.

(** Comparison of a fallible read with a value. *)
Definition differs {E} (m : outcome E Z) (v : Z) : outcome E bool :=
  x ← m; Ok (negb (x =? v)).

(** ** Machine integers

    fastdup compiles only for x86-64 (ADR 0078), so [usize] is 64 bits wide.
    An integer is a [Z] and its width is a predicate; the release profile sets
    [overflow-checks], so an unchecked [+] that overflows panics. *)
Definition u8_max : Z := 2 ^ 8 - 1.
Definition u16_max : Z := 2 ^ 16 - 1.
Definition u32_max : Z := 2 ^ 32 - 1.
Definition u64_max : Z := 2 ^ 64 - 1.
Definition usize_max : Z := u64_max.
Definition in_u (m z : Z) : Prop := 0 ≤ z ≤ m.
Abbreviation is_u8 := (in_u u8_max).
Abbreviation is_u16 := (in_u u16_max).
Abbreviation is_u32 := (in_u u32_max).
Abbreviation is_u64 := (in_u u64_max).
Abbreviation is_usize := (in_u usize_max).

#[global] Instance in_u_dec m z : Decision (in_u m z).
Proof. unfold in_u. apply _. Defined.

Definition checked_add (m a b : Z) : option Z := if a + b <=? m then Some (a + b) else None.
Definition checked_mul (m a b : Z) : option Z := if a * b <=? m then Some (a * b) else None.
Definition checked_sub (a b : Z) : option Z := if b <=? a then Some (a - b) else None.
Definition saturating_add (m a b : Z) : Z := Z.min m (a + b).
Definition saturating_sub (a b : Z) : Z := Z.max 0 (a - b).
Definition saturating_mul (m a b : Z) : Z := Z.min m (a * b).
(** The unchecked [+] under [overflow-checks]. *)
Definition add_or_panic {E} (m a b : Z) : outcome E Z := expect (checked_add m a b).
Definition sub_or_panic {E} (a b : Z) : outcome E Z := expect (checked_sub a b).
(** [T::try_from] for an unsigned target whose largest value is [m]. *)
Definition try_from_u (m z : Z) : option Z := if z <=? m then Some z else None.

(** ** Automation *)

Create HintDb fastdup.

Lemma Ok_inj {E A} (a b : A) : @Ok E A a = Ok b → a = b.
Proof. congruence. Qed.

Lemma bind_Ok {E A B} (m : outcome E A) (f : A → outcome E B) b :
  (m ≫= f) = Ok b ↔ ∃ a, m = Ok a ∧ f a = Ok b.
Proof. destruct m; simpl; naive_solver. Qed.

Lemma ok_or_Ok {E A} (o : option A) (e : E) a : ok_or o e = Ok a ↔ o = Some a.
Proof. destruct o; simpl; naive_solver. Qed.

Lemma expect_Ok {E A} (o : option A) a : @expect E A o = Ok a ↔ o = Some a.
Proof. destruct o; simpl; naive_solver. Qed.

Lemma assert_true_Ok {E} b u : @assert_true E b = Ok u ↔ b = true.
Proof. destruct b, u; simpl; naive_solver. Qed.

Lemma reject_if_Ok {E} c (e : E) u : reject_if c e = Ok u ↔ c = false.
Proof. destruct c, u; simpl; naive_solver. Qed.

Lemma map_err_Ok {E F A} (f : E → F) (m : outcome E A) a : map_err f m = Ok a ↔ m = Ok a.
Proof. destruct m; simpl; naive_solver. Qed.

Lemma or_else_false {E} (a b : outcome E bool) :
  a ||? b = Ok false ↔ a = Ok false ∧ b = Ok false.
Proof. destruct a as [[]| |]; simpl; naive_solver. Qed.

Lemma differs_false {E} (m : outcome E Z) v : differs m v = Ok false ↔ m = Ok v.
Proof.
  destruct m as [z| |]; simpl; [|naive_solver..].
  destruct (Z.eqb_spec z v); simpl; naive_solver.
Qed.

Lemma checked_add_Some m a b c : checked_add m a b = Some c ↔ c = a + b ∧ a + b ≤ m.
Proof. unfold checked_add. case_match; naive_solver lia. Qed.
Lemma checked_mul_Some m a b c : checked_mul m a b = Some c ↔ c = a * b ∧ a * b ≤ m.
Proof. unfold checked_mul. case_match; naive_solver lia. Qed.
Lemma checked_sub_Some a b c : checked_sub a b = Some c ↔ c = a - b ∧ b ≤ a.
Proof. unfold checked_sub. case_match; naive_solver lia. Qed.
Lemma try_from_u_Some m z c : try_from_u m z = Some c ↔ c = z ∧ z ≤ m.
Proof. unfold try_from_u. case_match; naive_solver lia. Qed.

Lemma checked_add_ok m a b : a + b ≤ m → checked_add m a b = Some (a + b).
Proof. intros. apply checked_add_Some. auto. Qed.
Lemma checked_mul_ok m a b : a * b ≤ m → checked_mul m a b = Some (a * b).
Proof. intros. apply checked_mul_Some. auto. Qed.
Lemma add_or_panic_in {E} m a b : a + b ≤ m → @add_or_panic E m a b = Ok (a + b).
Proof. intros. unfold add_or_panic. by rewrite checked_add_ok. Qed.
Lemma sub_or_panic_in {E} a b : b ≤ a → @sub_or_panic E a b = Ok (a - b).
Proof. intros. unfold sub_or_panic, checked_sub. by rewrite (proj2 (Z.leb_le _ _)). Qed.
Lemma try_from_u_ok m z : z ≤ m → try_from_u m z = Some z.
Proof. intros. apply try_from_u_Some. auto. Qed.

(** [inv_ok] takes a successful run of a monadic definition apart: one
    hypothesis per step that succeeded, one equation per check that passed. *)
Ltac inv_ok_step :=
  match goal with
  | H : (_ ≫= _) = Ok _ |- _ => apply bind_Ok in H as (?&?&?)
  | H : ok_or _ _ = Ok _ |- _ => apply ok_or_Ok in H
  | H : expect _ = Ok _ |- _ => apply expect_Ok in H
  | H : assert_true _ = Ok _ |- _ => apply assert_true_Ok in H
  | H : map_err _ _ = Ok _ |- _ => apply map_err_Ok in H
  | H : reject_if _ _ = Ok _ |- _ => apply reject_if_Ok in H
  | H : _ ||? _ = Ok false |- _ => apply or_else_false in H as [? ?]
  | H : differs _ _ = Ok false |- _ => apply differs_false in H
  | H : mret _ = Ok _ |- _ => apply Ok_inj in H
  | H : Ok _ = Ok _ |- _ => apply Ok_inj in H
  | H : Err _ = Ok _ |- _ => discriminate H
  | H : Panic = Ok _ |- _ => discriminate H
  | H : checked_add _ _ _ = Some _ |- _ => apply checked_add_Some in H as [? ?]
  | H : checked_mul _ _ _ = Some _ |- _ => apply checked_mul_Some in H as [? ?]
  | H : checked_sub _ _ = Some _ |- _ => apply checked_sub_Some in H as [? ?]
  | H : try_from_u _ _ = Some _ |- _ => apply try_from_u_Some in H as [? ?]
  end.
Ltac inv_ok := repeat (inv_ok_step; cbv beta in *).

(** Panic-freedom of a composite reduces to its parts. *)
Lemma no_panic_Ok {E A} (a : A) : no_panic (@Ok E A a).
Proof. discriminate. Qed.
Lemma no_panic_Err {E A} (e : E) : no_panic (@Err E A e).
Proof. discriminate. Qed.
Lemma no_panic_bind {E A B} (m : outcome E A) (f : A → outcome E B) :
  no_panic m → (∀ a, m = Ok a → no_panic (f a)) → no_panic (m ≫= f).
Proof. unfold no_panic. destruct m; simpl; naive_solver. Qed.
Lemma no_panic_ok_or {E A} (o : option A) (e : E) : no_panic (ok_or o e).
Proof. by destruct o. Qed.
Lemma no_panic_reject_if {E} c (e : E) : no_panic (reject_if c e).
Proof. by destruct c. Qed.
Lemma no_panic_map_err {E F A} (f : E → F) (m : outcome E A) :
  no_panic m → no_panic (map_err f m).
Proof. by destruct m. Qed.
Lemma no_panic_or_else {E} (a b : outcome E bool) :
  no_panic a → no_panic b → no_panic (a ||? b).
Proof. by destruct a as [[]| |]. Qed.
Lemma no_panic_differs {E} (m : outcome E Z) v : no_panic m → no_panic (differs m v).
Proof. by destruct m. Qed.
Lemma no_panic_if {E A} (c : bool) (a b : outcome E A) :
  no_panic a → no_panic b → no_panic (if c then a else b).
Proof. by destruct c. Qed.
#[export] Hint Resolve no_panic_Ok no_panic_Err no_panic_bind no_panic_ok_or
  no_panic_reject_if no_panic_map_err no_panic_or_else no_panic_differs no_panic_if : fastdup.

(** Case analysis on the boolean integer comparisons in the context. *)
Ltac zbool :=
  repeat match goal with
  | H : (_ && _)%bool = true |- _ => apply andb_true_iff in H as [? ?]
  | H : (_ || _)%bool = false |- _ => apply orb_false_iff in H as [? ?]
  | H : negb _ = true |- _ => apply negb_true_iff in H
  | H : negb _ = false |- _ => apply negb_false_iff in H
  | H : (_ <=? _) = true |- _ => apply Z.leb_le in H
  | H : (_ <=? _) = false |- _ => apply Z.leb_gt in H
  | H : (_ <? _) = true |- _ => apply Z.ltb_lt in H
  | H : (_ <? _) = false |- _ => apply Z.ltb_ge in H
  | H : (_ =? _) = true |- _ => apply Z.eqb_eq in H
  | H : (_ =? _) = false |- _ => apply Z.eqb_neq in H
  | H : bool_decide _ = true |- _ => apply bool_decide_eq_true in H
  | H : bool_decide _ = false |- _ => apply bool_decide_eq_false in H
  end.

(** A successful run, with the decisions its checks took. *)
Ltac inv_run := repeat (progress (inv_ok; zbool; simplify_eq)).

(** Evaluation of the outcome combinators by rewriting, which leaves the
    arguments alone. *)
Lemma Ok_bind {E A B} (a : A) (f : A → outcome E B) : (Ok a ≫= f) = f a.
Proof. done. Qed.
Lemma reject_Err {E A} (b : bool) (e : E) (k : outcome E A) : (reject_if b e;; k) = if b then Err e else k.
Proof. by destruct b. Qed.
Lemma Ok_fmap {E A B} (a : A) (f : A → B) : f <$> (@Ok E A a) = Ok (f a).
Proof. done. Qed.
Lemma Err_bind {E A B} (e : E) (f : A → outcome E B) : (Err e ≫= f) = Err e.
Proof. done. Qed.
Lemma ok_or_Some {E A} (a : A) (e : E) : ok_or (Some a) e = Ok a.
Proof. done. Qed.
Lemma expect_Some {E A} (a : A) : @expect E A (Some a) = Ok a.
Proof. done. Qed.
Lemma reject_if_false {E} (e : E) : reject_if false e = Ok ().
Proof. done. Qed.
Lemma reject_if_true {E} (e : E) : reject_if true e = Err e.
Proof. done. Qed.
Lemma or_else_Ok_false {E} (m : outcome E bool) : Ok false ||? m = m.
Proof. done. Qed.
Lemma differs_Ok {E} a b : differs (@Ok E Z a) b = Ok (negb (a =? b)).
Proof. done. Qed.
Lemma map_err_Ok_eq {E F A} (f : E → F) (a : A) : map_err f (Ok a) = Ok a.
Proof. done. Qed.
Create Rewrite HintDb outcome.
#[export] Hint Rewrite @Ok_bind @Ok_fmap @Err_bind @ok_or_Some @expect_Some @reject_if_false
  @reject_if_true @or_else_Ok_false @differs_Ok @map_err_Ok_eq Z.eqb_refl : outcome.
Ltac osimpl := repeat (progress (autorewrite with outcome; cbn [negb orb andb]; cbv beta)).
