(* ===== verification/Bytes.v ===== *)
(** * Byte buffers

    Rust byte slices as [list byte], with [Z] offsets: checked indexing (an
    out-of-range index panics), in-place overwriting, and the little-endian
    [put_u16]/[get_u16] family every codec of [fastdup-format] repeats.

    The lemmas reduce a codec proof to two facts: reading back a range of an
    overwritten buffer ([sub_splice_eq], [sub_splice_ne]), and extensionality
    along a partition of the buffer ([sub_ext]). *)
From Stdlib Require Export Strings.Byte.
From S2P Require Export Prelude.

Abbreviation bytes := (list byte).

#[global] Instance byte_eq_dec : EqDecision byte := Byte.byte_eq_dec.

Definition Z_of_byte (b : byte) : Z := Z.of_N (Byte.to_N b).
Definition byte_of_Z (z : Z) : byte :=
  match Byte.of_N (Z.to_N (z `mod` 256)) with Some b => b | None => x00 end.

Lemma Z_of_byte_range b : 0 ≤ Z_of_byte b < 256.
Proof. unfold Z_of_byte. pose proof (Byte.to_N_bounded b). lia. Qed.

Lemma byte_of_Z_of_byte b : byte_of_Z (Z_of_byte b) = b.
Proof.
  unfold byte_of_Z. pose proof (Z_of_byte_range b).
  rewrite Z.mod_small by lia. unfold Z_of_byte. by rewrite N2Z.id, Byte.of_to_N.
Qed.

Lemma Z_of_byte_of_Z z : Z_of_byte (byte_of_Z z) = z `mod` 256.
Proof.
  unfold byte_of_Z, Z_of_byte. pose proof (Z.mod_pos_bound z 256).
  destruct (Byte.of_N (Z.to_N (z `mod` 256))) as [b|] eqn:Hb.
  - apply Byte.to_of_N in Hb. rewrite Hb. lia.
  - apply Byte.of_N_None_iff in Hb. lia.
Qed.

Lemma Z_of_byte_inj a b : Z_of_byte a = Z_of_byte b → a = b.
Proof. intros H. rewrite <-(byte_of_Z_of_byte a), H. apply byte_of_Z_of_byte. Qed.

(** ** Lengths, ranges and overwriting *)

(** [slice.len()]. *)
Definition blen {A} (b : list A) : Z := Z.of_nat (length b).
(** [vec![0; n]]. *)
Definition zeros (n : Z) : bytes := replicate (Z.to_nat n) x00.
(** The bytes [o..o + n] of a buffer that has them. *)
Definition sub {A} (b : list A) (o n : Z) : list A :=
  take (Z.to_nat n) (drop (Z.to_nat o) b).
(** The buffer after [b[o..o + v.len()].copy_from_slice(v)]. *)
Definition splice {A} (b : list A) (o : Z) (v : list A) : list A :=
  take (Z.to_nat o) b ++ v ++ drop (Z.to_nat o + length v) b.

(** [&b[lo..hi]], [&b[lo..]] and [b[i]]: out of range panics. *)
Definition index_range {E A} (b : list A) (lo hi : Z) : outcome E (list A) :=
  if (0 <=? lo) && (lo <=? hi) && (hi <=? blen b) then Ok (sub b lo (hi - lo)) else Panic.
Definition index_from {E A} (b : list A) (lo : Z) : outcome E (list A) :=
  index_range b lo (blen b).
Definition index_at {E A} (b : list A) (i : Z) : outcome E A :=
  if 0 <=? i then expect (b !! Z.to_nat i) else Panic.
(** [b[o..o + v.len()].copy_from_slice(v)]. *)
Definition put {E A} (b : list A) (o : Z) (v : list A) : outcome E (list A) :=
  if (0 <=? o) && (o + blen v <=? blen b) then Ok (splice b o v) else Panic.

(** [v[i]] and [v[i] = x] of a [Vec] or an array, at a [usize] *)
Definition vec_at {E A} (v : list A) (i : Z) : outcome E A := expect (v !! Z.to_nat i).
Definition vec_set {E A} (v : list A) (i : Z) (x : A) : outcome E (list A) :=
  if i <? blen v then Ok (<[Z.to_nat i := x]> v) else Panic.
Lemma vec_at_in {E A} (v : list A) i x : v !! Z.to_nat i = Some x → @vec_at E A v i = Ok x.
Proof. intros Hx. unfold vec_at. by rewrite Hx. Qed.
Lemma vec_set_in {E A} (v : list A) i x :
  i < blen v → @vec_set E A v i x = Ok (<[Z.to_nat i := x]> v).
Proof. intros. unfold vec_set. by rewrite (proj2 (Z.ltb_lt _ _)). Qed.
Lemma vec_set_length {E A} (v : list A) i x :
  i < Z.of_nat (length v) → @vec_set E A v i x = Ok (<[Z.to_nat i := x]> v).
Proof. apply vec_set_in. Qed.
Lemma blen_insert {A} (v : list A) i x : blen (<[i := x]> v) = blen v.
Proof. unfold blen. by rewrite length_insert. Qed.
Lemma blen_replicate {A} n (x : A) : 0 ≤ n → blen (replicate (Z.to_nat n) x) = n.
Proof. intros. unfold blen. rewrite length_replicate. lia. Qed.

(** [b.iter().any(|byte| *byte != 0)] *)
Definition any_nonzero (b : bytes) : bool :=
  existsb (λ x, negb (Byte.eqb x x00)) b.

(** ** Little-endian integers *)

Fixpoint le_bytes (n : nat) (z : Z) : bytes :=
  match n with
  | O => []
  | S n => byte_of_Z z :: le_bytes n (z `div` 256)
  end.
Fixpoint le_val (b : bytes) : Z :=
  match b with
  | [] => 0
  | x :: b => Z_of_byte x + 256 * le_val b
  end.

Definition put_u16 {E} (b : bytes) (o v : Z) : outcome E bytes := put b o (le_bytes 2 v).
Definition put_u32 {E} (b : bytes) (o v : Z) : outcome E bytes := put b o (le_bytes 4 v).
Definition put_u64 {E} (b : bytes) (o v : Z) : outcome E bytes := put b o (le_bytes 8 v).
Definition get_u16 {E} (b : bytes) (o : Z) : outcome E Z := le_val <$> index_range b o (o + 2).
Definition get_u32 {E} (b : bytes) (o : Z) : outcome E Z := le_val <$> index_range b o (o + 4).
Definition get_u64 {E} (b : bytes) (o : Z) : outcome E Z := le_val <$> index_range b o (o + 8).

(** The comparison of a range with a constant, and the reserved-bytes check. *)
Definition range_differs {E} (b : bytes) (lo hi : Z) (v : bytes) : outcome E bool :=
  r ← index_range b lo hi; Ok (negb (bool_decide (r = v))).
Definition range_any_nonzero {E} (b : bytes) (lo hi : Z) : outcome E bool :=
  any_nonzero <$> index_range b lo hi.

(** ** Lengths *)

Lemma blen_nonneg {A} (b : list A) : 0 ≤ blen b.
Proof. unfold blen. lia. Qed.
Lemma blen_app {A} (a b : list A) : blen (a ++ b) = blen a + blen b.
Proof. unfold blen. rewrite length_app. lia. Qed.
Lemma blen_nil {A} : blen (@nil A) = 0.
Proof. reflexivity. Qed.
Lemma blen_cons {A} (x : A) b : blen (x :: b) = 1 + blen b.
Proof. unfold blen. simpl. lia. Qed.
Lemma blen_zeros n : 0 ≤ n → blen (zeros n) = n.
Proof. intros. unfold blen, zeros. rewrite length_replicate. lia. Qed.
Lemma blen_sub {A} (b : list A) o n : 0 ≤ o → 0 ≤ n → o + n ≤ blen b → blen (sub b o n) = n.
Proof. intros. unfold blen, sub in *. rewrite length_take, length_drop. lia. Qed.
Lemma blen_sub_le {A} (b : list A) o n : 0 ≤ o → 0 ≤ n → blen (sub b o n) ≤ Z.max 0 (blen b - o).
Proof. intros. unfold blen, sub. rewrite length_take, length_drop. lia. Qed.
Lemma blen_splice {A} (b : list A) o v :
  0 ≤ o → o + blen v ≤ blen b → blen (splice b o v) = blen b.
Proof.
  intros. unfold splice. rewrite !blen_app. unfold blen in *.
  rewrite length_take, length_drop. lia.
Qed.
Lemma length_le_bytes n z : length (le_bytes n z) = n.
Proof. revert z. induction n; intros; simpl; auto. Qed.
Lemma blen_le_bytes n z : blen (le_bytes n z) = Z.of_nat n.
Proof. unfold blen. by rewrite length_le_bytes. Qed.
Lemma blen_0_nil {A} (b : list A) : blen b = 0 → b = [].
Proof. destruct b; [done|]. rewrite blen_cons. pose proof (blen_nonneg b). lia. Qed.

Create Rewrite HintDb blen.
#[export] Hint Rewrite @blen_app @blen_nil @blen_cons blen_le_bytes : blen.
#[export] Hint Rewrite blen_zeros using lia : blen.

(** Computes the length of a buffer expression; closes side conditions. *)
Ltac blia :=
  repeat first
    [ progress autorewrite with blen in *
    | rewrite blen_splice by blia
    | rewrite blen_sub by blia ];
  repeat match goal with |- context [blen ?b] =>
    lazymatch goal with H : 0 ≤ blen b |- _ => fail | _ => pose proof (blen_nonneg b) end end;
  simpl Z.of_nat in *; lia.

(** ** Reading ranges *)

Lemma sub_all {A} (b : list A) n : n = blen b → sub b 0 n = b.
Proof. intros ->. unfold sub, blen. simpl. rewrite drop_0, Nat2Z.id. apply firstn_all. Qed.
Lemma sub_0 {A} (b : list A) o : sub b o 0 = [].
Proof. unfold sub. by rewrite take_0. Qed.
Lemma sub_app_l {A} (a b : list A) o n :
  0 ≤ o → 0 ≤ n → o + n ≤ blen a → sub (a ++ b) o n = sub a o n.
Proof.
  intros. unfold sub, blen in *.
  rewrite drop_app_le by lia. rewrite take_app_le; [done|]. rewrite length_drop. lia.
Qed.
Lemma sub_app_r {A} (a b : list A) o n :
  blen a ≤ o → sub (a ++ b) o n = sub b (o - blen a) n.
Proof.
  intros. unfold sub, blen in *. rewrite drop_app_ge by lia. do 2 f_equal. lia.
Qed.
Lemma sub_split {A} (b : list A) o n m :
  0 ≤ o → 0 ≤ n → 0 ≤ m → sub b o (n + m) = sub b o n ++ sub b (o + n) m.
Proof.
  intros. unfold sub.
  rewrite (Z2Nat.inj_add n m), (Z2Nat.inj_add o n), <-drop_drop by lia.
  by rewrite take_take_drop.
Qed.
Lemma sub_sub {A} (b : list A) o n o' n' :
  0 ≤ o → 0 ≤ o' → 0 ≤ n' → o' + n' ≤ n → sub (sub b o n) o' n' = sub b (o + o') n'.
Proof.
  intros. unfold sub. rewrite skipn_firstn_comm, drop_drop, take_take.
  rewrite Z2Nat.inj_add by lia. f_equal. lia.
Qed.
Lemma sub_zeros o n m : 0 ≤ o → 0 ≤ n → o + n ≤ m → sub (zeros m) o n = zeros n.
Proof.
  intros. unfold sub, zeros. rewrite drop_replicate, take_replicate. f_equal. lia.
Qed.
Lemma sub_splice_eq {A} (b : list A) o v n :
  0 ≤ o → o + blen v ≤ blen b → n = blen v → sub (splice b o v) o n = v.
Proof.
  intros ? ? ->. unfold splice.
  assert (Hl : blen (take (Z.to_nat o) b) = o).
  { unfold blen in *. rewrite length_take. lia. }
  rewrite sub_app_r by lia. rewrite Hl, Z.sub_diag.
  rewrite sub_app_l by blia. by apply sub_all.
Qed.
Lemma sub_splice_ne {A} (b : list A) o v o' n :
  0 ≤ o → o + blen v ≤ blen b → 0 ≤ o' → 0 ≤ n →
  o' + n ≤ o ∨ o + blen v ≤ o' → sub (splice b o v) o' n = sub b o' n.
Proof.
  intros ? ? ? ? Hdisj. unfold splice. pose proof (blen_nonneg v).
  assert (Hl : blen (take (Z.to_nat o) b) = o).
  { unfold blen in *. rewrite length_take. lia. }
  destruct Hdisj as [Hlt|Hge].
  - rewrite sub_app_l by (rewrite ?Hl; lia). unfold sub.
    rewrite skipn_firstn_comm, take_take. f_equal. lia.
  - rewrite sub_app_r by lia. rewrite sub_app_r by lia. unfold sub.
    rewrite drop_drop. do 2 f_equal. unfold blen in *. lia.
Qed.
Lemma splice_sub {A} (b : list A) o n :
  0 ≤ o → 0 ≤ n → o + n ≤ blen b → splice b o (sub b o n) = b.
Proof.
  intros. unfold splice. pose proof (blen_sub b o n) as Hs. unfold blen in *.
  replace (Z.to_nat o + length (sub b o n))%nat with (Z.to_nat n + Z.to_nat o)%nat by lia.
  unfold sub. rewrite Nat.add_comm, <-drop_drop, take_drop, take_drop. done.
Qed.
Lemma splice_splice {A} (b : list A) o v w :
  0 ≤ o → blen v = blen w → o + blen v ≤ blen b → splice (splice b o v) o w = splice b o w.
Proof.
  intros. unfold splice. unfold blen in *.
  rewrite take_app_le, take_take by (rewrite length_take; lia).
  rewrite Nat.min_id. f_equal. f_equal.
  rewrite drop_app_ge by (rewrite length_take; lia).
  rewrite drop_app_ge by (rewrite length_take; lia).
  rewrite drop_drop. f_equal. rewrite length_take. lia.
Qed.

Lemma splice_app_l {A} (a c : list A) o v :
  0 ≤ o → o + blen v ≤ blen a → splice (a ++ c) o v = splice a o v ++ c.
Proof.
  intros. unfold splice, blen in *.
  rewrite take_app_le, drop_app_le by lia. by rewrite <-!app_assoc.
Qed.
Lemma splice_app_r {A} (a c : list A) v :
  blen v ≤ blen c → splice (a ++ c) (blen a) v = a ++ v ++ sub c (blen v) (blen c - blen v).
Proof.
  intros. unfold splice, sub, blen in *.
  rewrite take_app_le by lia. rewrite Nat2Z.id, firstn_all. f_equal. f_equal.
  rewrite drop_app_ge by lia. rewrite Nat2Z.id.
  rewrite firstn_all2 by (rewrite length_drop; lia). f_equal. lia.
Qed.
Lemma splice_app_shift {A} (a c v : list A) o :
  0 ≤ o → splice (a ++ c) (blen a + o) v = a ++ splice c o v.
Proof.
  intros Ho. unfold splice, blen.
  replace (Z.to_nat (Z.of_nat (length a) + o)) with (length a + Z.to_nat o)%nat by lia.
  rewrite take_app_add, <-app_assoc. f_equal. do 2 f_equal. rewrite <-Nat.add_assoc. apply drop_app_add.
Qed.
Lemma zeros_app a b : 0 ≤ a → 0 ≤ b → zeros (a + b) = zeros a ++ zeros b.
Proof. intros. unfold zeros. rewrite <-replicate_add. f_equal. lia. Qed.
Lemma sub_app_eq_l {A} (a b : list A) n : n = blen a → sub (a ++ b) 0 n = a.
Proof. intros ->. rewrite sub_app_l by (pose proof (blen_nonneg a); lia). by apply sub_all. Qed.

(** Two buffers agree when they agree on every part of a partition. *)
Fixpoint parts (o : Z) (ns : list Z) : list (Z * Z) :=
  match ns with
  | [] => []
  | n :: ns => (o, n) :: parts (o + n) ns
  end.
Lemma sub_ext_from {A} (ns : list Z) (a b : list A) o :
  0 ≤ o → Forall (λ n, 0 ≤ n) ns →
  Forall (λ p, sub a p.1 p.2 = sub b p.1 p.2) (parts o ns) →
  sub a o (foldr Z.add 0 ns) = sub b o (foldr Z.add 0 ns).
Proof.
  revert o. induction ns as [|n ns IH]; intros o Ho Hn Hp; simpl.
  { by rewrite !sub_0. }
  apply Forall_cons_1 in Hn as [? Hn]. simpl in Hp. apply Forall_cons_1 in Hp as [Hh Hp].
  assert (0 ≤ foldr Z.add 0 ns). { clear -Hn. induction Hn; simpl; lia. }
  rewrite !(sub_split _ o n) by lia. simpl in Hh. rewrite Hh. f_equal. apply IH; [lia|done..].
Qed.
Lemma sub_ext {A} (ns : list Z) (a b : list A) :
  Forall (λ n, 0 ≤ n) ns →
  foldr Z.add 0 ns = blen a → foldr Z.add 0 ns = blen b →
  Forall (λ p, sub a p.1 p.2 = sub b p.1 p.2) (parts 0 ns) → a = b.
Proof.
  intros Hn Ha Hb Hp. apply sub_ext_from in Hp; [|lia|done].
  rewrite Ha in Hp at 1. rewrite Hb in Hp. by rewrite !sub_all in Hp.
Qed.

(** ** Checked access succeeds exactly in range *)

Lemma index_range_Ok {E A} (b : list A) lo hi r :
  @index_range E A b lo hi = Ok r ↔ 0 ≤ lo ≤ hi ∧ hi ≤ blen b ∧ r = sub b lo (hi - lo).
Proof.
  unfold index_range. split.
  - case_match; [|done]. intros ?. zbool. naive_solver.
  - intros (?&?&->). rewrite !(proj2 (Z.leb_le _ _)) by lia. done.
Qed.
Lemma index_range_in {E A} (b : list A) lo hi :
  0 ≤ lo ≤ hi → hi ≤ blen b → @index_range E A b lo hi = Ok (sub b lo (hi - lo)).
Proof. intros. by apply index_range_Ok. Qed.
Lemma put_in {E A} (b : list A) o v :
  0 ≤ o → o + blen v ≤ blen b → @put E A b o v = Ok (splice b o v).
Proof. intros. unfold put. by rewrite !(proj2 (Z.leb_le _ _)) by lia. Qed.
Lemma get_u16_in {E} b o : 0 ≤ o → o + 2 ≤ blen b → @get_u16 E b o = Ok (le_val (sub b o 2)).
Proof. intros. unfold get_u16. rewrite index_range_in by lia. simpl. do 3 f_equal. lia. Qed.
Lemma get_u32_in {E} b o : 0 ≤ o → o + 4 ≤ blen b → @get_u32 E b o = Ok (le_val (sub b o 4)).
Proof. intros. unfold get_u32. rewrite index_range_in by lia. simpl. do 3 f_equal. lia. Qed.
Lemma get_u64_in {E} b o : 0 ≤ o → o + 8 ≤ blen b → @get_u64 E b o = Ok (le_val (sub b o 8)).
Proof. intros. unfold get_u64. rewrite index_range_in by lia. simpl. do 3 f_equal. lia. Qed.
Lemma range_differs_in {E} b lo hi v :
  0 ≤ lo ≤ hi → hi ≤ blen b →
  @range_differs E b lo hi v = Ok (negb (bool_decide (sub b lo (hi - lo) = v))).
Proof. intros. unfold range_differs. by rewrite index_range_in. Qed.
Lemma range_any_nonzero_in {E} b lo hi :
  0 ≤ lo ≤ hi → hi ≤ blen b →
  @range_any_nonzero E b lo hi = Ok (any_nonzero (sub b lo (hi - lo))).
Proof. intros. unfold range_any_nonzero. by rewrite index_range_in. Qed.

Lemma no_panic_index_range {E A} (b : list A) lo hi :
  0 ≤ lo ≤ hi → hi ≤ blen b → no_panic (@index_range E A b lo hi).
Proof. intros. by rewrite index_range_in. Qed.
Lemma no_panic_get_u16 {E} b o : 0 ≤ o → o + 2 ≤ blen b → no_panic (@get_u16 E b o).
Proof. intros. by rewrite get_u16_in. Qed.
Lemma no_panic_get_u32 {E} b o : 0 ≤ o → o + 4 ≤ blen b → no_panic (@get_u32 E b o).
Proof. intros. by rewrite get_u32_in. Qed.
Lemma no_panic_get_u64 {E} b o : 0 ≤ o → o + 8 ≤ blen b → no_panic (@get_u64 E b o).
Proof. intros. by rewrite get_u64_in. Qed.
Lemma no_panic_range_differs {E} b lo hi v :
  0 ≤ lo ≤ hi → hi ≤ blen b → no_panic (@range_differs E b lo hi v).
Proof. intros. by rewrite range_differs_in. Qed.
Lemma no_panic_range_any_nonzero {E} b lo hi :
  0 ≤ lo ≤ hi → hi ≤ blen b → no_panic (@range_any_nonzero E b lo hi).
Proof. intros. by rewrite range_any_nonzero_in. Qed.

(** ** Little-endian integers *)

Lemma le_val_range b : 0 ≤ le_val b < 256 ^ blen b.
Proof.
  induction b as [|x b IH]; simpl; [by vm_compute|].
  rewrite blen_cons, Z.pow_add_r by (pose proof (blen_nonneg b); lia).
  pose proof (Z_of_byte_range x). lia.
Qed.
Lemma le_bytes_val b n : length b = n → le_bytes n (le_val b) = b.
Proof.
  intros <-. induction b as [|x b IH]; simpl; [done|].
  pose proof (Z_of_byte_range x). f_equal.
  - apply Z_of_byte_inj. rewrite Z_of_byte_of_Z.
    rewrite (Z.mul_comm 256), Z.mod_add, Z.mod_small by lia. done.
  - rewrite (Z.mul_comm 256), Z.div_add, Z.div_small by lia. exact IH.
Qed.
Lemma le_val_bytes_mod n z : le_val (le_bytes n z) = z `mod` 256 ^ Z.of_nat n.
Proof.
  revert z. induction n as [|n IH]; intros z; simpl.
  { by rewrite Z.mod_1_r. }
  rewrite IH, Z_of_byte_of_Z. rewrite Nat2Z.inj_succ, Z.pow_succ_r by lia.
  rewrite (Z.rem_mul_r z 256) by lia. done.
Qed.
Lemma le_val_bytes n z : 0 ≤ z < 256 ^ Z.of_nat n → le_val (le_bytes n z) = z.
Proof. intros. rewrite le_val_bytes_mod. by apply Z.mod_small. Qed.
Lemma le_val_u16 b : blen b = 2 → is_u16 (le_val b).
Proof. intros H. pose proof (le_val_range b) as R. rewrite H in R. unfold in_u, u16_max. lia. Qed.
Lemma le_val_u32 b : blen b = 4 → is_u32 (le_val b).
Proof. intros H. pose proof (le_val_range b) as R. rewrite H in R. unfold in_u, u32_max. lia. Qed.
Lemma le_val_u64 b : blen b = 8 → is_u64 (le_val b).
Proof. intros H. pose proof (le_val_range b) as R. rewrite H in R. unfold in_u, u64_max. lia. Qed.
Lemma le_val_bytes_u16 z : is_u16 z → le_val (le_bytes 2 z) = z.
Proof. unfold in_u, u16_max. intros. apply le_val_bytes. simpl Z.of_nat. lia. Qed.
Lemma le_val_bytes_u32 z : is_u32 z → le_val (le_bytes 4 z) = z.
Proof. unfold in_u, u32_max. intros. apply le_val_bytes. simpl Z.of_nat. lia. Qed.
Lemma le_val_bytes_u64 z : is_u64 z → le_val (le_bytes 8 z) = z.
Proof. unfold in_u, u64_max. intros. apply le_val_bytes. simpl Z.of_nat. lia. Qed.
Lemma le_bytes_val_sub b o (n : nat) :
  0 ≤ o → o + Z.of_nat n ≤ blen b → le_bytes n (le_val (sub b o (Z.of_nat n))) = sub b o (Z.of_nat n).
Proof.
  intros. apply le_bytes_val. apply Nat2Z.inj. change (blen (sub b o (Z.of_nat n)) = Z.of_nat n).
  apply blen_sub; lia.
Qed.
Lemma le_bytes_0 n : le_bytes n 0 = replicate n x00.
Proof. induction n as [|n IH]; [done|]. cbn [le_bytes replicate]. f_equal. exact IH. Qed.

Lemma le_bytes_zeros (n : nat) : le_bytes n 0 = zeros (Z.of_nat n).
Proof. rewrite le_bytes_0. unfold zeros. by rewrite Nat2Z.id. Qed.

Lemma le_val_zeros n : 0 ≤ n → le_val (zeros n) = 0.
Proof.
  intros. rewrite <-(Z2Nat.id n), <-le_bytes_zeros by lia.
  apply le_val_bytes. lia.
Qed.

(** ** Zero checks *)

Lemma any_nonzero_false b : any_nonzero b = false ↔ b = zeros (blen b).
Proof.
  unfold zeros, blen. rewrite Nat2Z.id. unfold any_nonzero.
  induction b as [|x b IH]; simpl; [done|].
  rewrite orb_false_iff, IH, negb_false_iff. split.
  - intros [->%Byte.byte_dec_bl H]. f_equal. exact H.
  - intros [= -> H]. rewrite <-H. split; [by apply Byte.byte_dec_lb|done].
Qed.
Lemma any_nonzero_zeros n : any_nonzero (zeros n) = false.
Proof. apply any_nonzero_false. unfold zeros, blen. by rewrite length_replicate, Nat2Z.id. Qed.

Lemma index_at_Ok {E A} (b : list A) i v :
  @index_at E A b i = Ok v ↔ 0 ≤ i ∧ i + 1 ≤ blen b ∧ sub b i 1 = [v].
Proof.
  unfold index_at, sub, blen. destruct (Z.leb_spec 0 i); [|naive_solver lia].
  rewrite expect_Ok. change (Z.to_nat 1) with 1%nat. split.
  - intros Hv. pose proof (lookup_lt_Some _ _ _ Hv). split_and!; [lia..|].
    by rewrite (drop_S b v) by done.
  - intros (_&_&Hv). replace (Z.to_nat i) with (Z.to_nat i + 0)%nat by lia.
    rewrite <-lookup_drop. by destruct (drop (Z.to_nat i) b); simplify_eq/=.
Qed.
Lemma no_panic_index_at {E A} (b : list A) i :
  0 ≤ i → i + 1 ≤ blen b → no_panic (@index_at E A b i).
Proof.
  intros. unfold index_at, blen in *. destruct (Z.leb_spec 0 i); [|lia].
  destruct (lookup_lt_is_Some_2 b (Z.to_nat i)) as [v Hv]; [lia|]. by rewrite Hv.
Qed.

#[global] Opaque sub splice zeros blen le_bytes le_val.
