(* ===== verification/Ordering.v ===== *)
(** * Orders, sorting and searching

    What the index formats use of Rust's standard library: the derived [Ord] of
    integers, byte arrays and tuples (lexicographic), [sort_unstable_by_key],
    [windows(2)], and the binary search behind [partition_point]. *)
From S2P Require Export Bytes.
From stdpp Require Export sorting.
#[global] Open Scope Z_scope.

(** ** The trait [Ord] *)
Class RustOrd (A : Type) := cmp : A → A → comparison.
Class RustOrdLaws (A : Type) `{RustOrd A} : Prop := {
  cmp_eq (x y : A) : cmp x y = Eq ↔ x = y;
  cmp_opp (x y : A) : cmp y x = CompOpp (cmp x y);
  cmp_trans (x y z : A) : cmp x y = Lt → cmp y z = Lt → cmp x z = Lt;
}.

Definition olt `{RustOrd A} (x y : A) : Prop := cmp x y = Lt.
Definition ole `{RustOrd A} (x y : A) : Prop := cmp x y ≠ Gt.
Infix "<o" := olt (at level 70) : fastdup_scope.
Infix "≤o" := ole (at level 70) : fastdup_scope.
#[global] Instance olt_dec `{RustOrd A} (x y : A) : Decision (x <o y).
Proof. unfold olt. solve_decision. Defined.
#[global] Instance ole_dec `{RustOrd A} (x y : A) : Decision (x ≤o y).
Proof. unfold ole. solve_decision. Defined.

(** Integers, bytes, arrays and tuples *)
#[global] Instance ord_Z : RustOrd Z := Z.compare.
#[global] Instance ord_byte : RustOrd byte := λ x y, Z.compare (Z_of_byte x) (Z_of_byte y).
Fixpoint list_cmp `{RustOrd A} (a b : list A) : comparison :=
  match a, b with
  | [], [] => Eq
  | [], _ :: _ => Lt
  | _ :: _, [] => Gt
  | x :: a, y :: b => match cmp x y with Eq => list_cmp a b | c => c end
  end.
#[global] Instance ord_list `{RustOrd A} : RustOrd (list A) := list_cmp.
#[global] Instance ord_prod `{RustOrd A, RustOrd B} : RustOrd (A * B) := λ p q,
  match cmp p.1 q.1 with Eq => cmp p.2 q.2 | c => c end.

#[global] Instance ord_Z_laws : RustOrdLaws Z.
Proof.
  split; unfold cmp, ord_Z.
  - apply Z.compare_eq_iff.
  - intros x y. apply Z.compare_antisym.
  - intros x y z. rewrite !Z.compare_lt_iff. lia.
Qed.
#[global] Instance ord_byte_laws : RustOrdLaws byte.
Proof.
  split; unfold cmp, ord_byte.
  - intros x y. rewrite Z.compare_eq_iff. split; [apply Z_of_byte_inj|by intros ->].
  - intros x y. apply Z.compare_antisym.
  - intros x y z. rewrite !Z.compare_lt_iff. lia.
Qed.

Lemma cmp_refl `{RustOrdLaws A} (x : A) : cmp x x = Eq.
Proof. by apply cmp_eq. Qed.

#[global] Instance ord_list_laws `{RustOrdLaws A} : RustOrdLaws (list A).
Proof.
  split; unfold cmp, ord_list.
  - induction x as [|x a IH]; intros [|y b]; simpl; try done.
    destruct (cmp x y) eqn:E; [apply cmp_eq in E as ->; rewrite IH; naive_solver| |];
      (split; [done|intros [= -> ->]; by rewrite cmp_refl in E]).
  - induction x as [|x a IH]; intros [|y b]; simpl; try done.
    rewrite (cmp_opp x y). destruct (cmp x y); simpl; auto.
  - induction x as [|x a IH]; intros [|y b] [|z c]; simpl; try done.
    destruct (cmp x y) eqn:E1; [apply cmp_eq in E1 as ->| |done].
    + destruct (cmp y z); eauto.
    + destruct (cmp y z) eqn:E2; [apply cmp_eq in E2 as ->; by rewrite E1| |done].
      by rewrite (cmp_trans x y z E1 E2).
Qed.
#[global] Instance ord_prod_laws `{RustOrdLaws A, RustOrdLaws B} : RustOrdLaws (A * B).
Proof.
  split; unfold cmp, ord_prod.
  - intros [a b] [a' b']; simpl. destruct (cmp a a') eqn:E.
    + apply cmp_eq in E as ->. rewrite cmp_eq. naive_solver.
    + split; [done|intros [= -> ->]; by rewrite cmp_refl in E].
    + split; [done|intros [= -> ->]; by rewrite cmp_refl in E].
  - intros [a b] [a' b']; simpl. rewrite (cmp_opp a a'). destruct (cmp a a'); simpl; [apply cmp_opp|done..].
  - intros [a b] [a' b'] [a'' b'']; simpl. destruct (cmp a a') eqn:E1; [apply cmp_eq in E1 as ->| |done].
    + destruct (cmp a' a''); [apply cmp_trans|done..].
    + destruct (cmp a' a'') eqn:E2; [apply cmp_eq in E2 as ->; by rewrite E1| |done].
      by rewrite (cmp_trans _ _ _ E1 E2).
Qed.

Section Order.
Context `{RustOrdLaws A}.
Implicit Types x y z : A.

Lemma olt_irrefl x : ¬ x <o x.
Proof. unfold olt. by rewrite cmp_refl. Qed.
#[global] Instance olt_trans : Transitive (@olt A _).
Proof. intros x y z. apply cmp_trans. Qed.
Lemma ole_iff x y : x ≤o y ↔ x <o y ∨ x = y.
Proof.
  unfold ole, olt. rewrite <-cmp_eq. destruct (cmp x y); naive_solver.
Qed.
Lemma not_olt x y : ¬ x <o y ↔ y ≤o x.
Proof. unfold olt, ole. rewrite (cmp_opp x y). by destruct (cmp x y). Qed.
Lemma not_ole x y : ¬ x ≤o y ↔ y <o x.
Proof. rewrite <-not_olt. split; [apply dec_stable|tauto]. Qed.
Lemma ole_refl x : x ≤o x.
Proof. apply ole_iff. by right. Qed.
#[global] Instance ole_trans : Transitive (@ole A _).
Proof.
  intros x y z. rewrite !ole_iff. intros [Hxy| ->] [Hyz| ->]; [left; by etrans|by left|by left|by right].
Qed.
#[global] Instance ole_total : Total (@ole A _).
Proof. intros x y. destruct (decide (x ≤o y)) as [|Hn]; [by left|right]. apply ole_iff. left. by apply not_ole. Qed.
Lemma ole_antisymm x y : x ≤o y → y ≤o x → x = y.
Proof. rewrite !ole_iff. intros [Hxy|?] [Hyx|?]; try done. destruct (olt_irrefl x). by etrans. Qed.
Lemma olt_ole_trans x y z : x <o y → y ≤o z → x <o z.
Proof. intros Hxy [Hyz| <-]%ole_iff; [by etrans|done]. Qed.
Lemma ole_olt_trans x y z : x ≤o y → y <o z → x <o z.
Proof. intros [Hxy| ->]%ole_iff Hyz; [by etrans|done]. Qed.
Lemma olt_ole x y : x <o y → x ≤o y.
Proof. rewrite ole_iff. auto. Qed.
End Order.

Lemma olt_pair `{RustOrdLaws A, RustOrdLaws B} (a a' : A) (b b' : B) :
  (a, b) <o (a', b') ↔ a <o a' ∨ a = a' ∧ b <o b'.
Proof.
  unfold olt. rewrite <-cmp_eq. change (cmp (a, b) (a', b')) with (match cmp a a' with Eq => cmp b b' | c => c end).
  destruct (cmp a a') eqn:E; rewrite ?E; intuition congruence.
Qed.
Lemma olt_Z (x y : Z) : x <o y ↔ x < y.
Proof. apply Z.compare_lt_iff. Qed.
Lemma ole_Z (x y : Z) : x ≤o y ↔ x ≤ y.
Proof. apply Z.compare_le_iff. Qed.

(** ** [windows(2)] *)
Fixpoint windows_any {A} (p : A → A → bool) (l : list A) : bool :=
  match l with
  | x :: ((y :: _) as tail) => p x y || windows_any p tail
  | _ => false
  end.
Lemma windows_any_false {A} (p : A → A → bool) l :
  windows_any p l = false ↔ Sorted (λ x y, p x y = false) l.
Proof.
  induction l as [|x l IH]; [split; [constructor|done]|]. destruct l as [|y l].
  { split; [by repeat constructor|done]. }
  change (windows_any p (x :: y :: l)) with (p x y || windows_any p (y :: l)). rewrite orb_false_iff, IH.
  split; [intros [??]; constructor; [done|by constructor]|].
  intros Hs. apply Sorted_inv in Hs as [? Hr]. split; [by inversion Hr|done].
Qed.

Lemma Sorted_imp {A} (R S : A → A → Prop) l : (∀ x y, R x y → S x y) → Sorted R l → Sorted S l.
Proof.
  intros HRS. induction 1 as [|x l _ IH Hr]; constructor; [done|].
  inversion Hr; constructor; auto.
Qed.
Lemma Sorted_app_middle {A} (R : A → A → Prop) l1 l2 :
  Sorted R (l1 ++ l2) ↔ Sorted R l1 ∧ Sorted R l2 ∧ ∀ x y, last l1 = Some x → head l2 = Some y → R x y.
Proof.
  induction l1 as [|x l1 IH]; simpl.
  { split; [intros ?; split_and!; [constructor|done|done]|tauto]. }
  destruct l1 as [|x' l1].
  - simpl. split.
    + intros Hs. apply Sorted_inv in Hs as [? Hr]. split_and!; [by repeat constructor|done|].
      intros ? y [= <-] Hh. destruct l2; simplify_eq/=. by inversion Hr.
    + intros (_&?&Hxy). constructor; [done|]. destruct l2; constructor. by apply Hxy.
  - change (last (x :: x' :: l1)) with (last (x' :: l1)). split.
    + intros Hs. apply Sorted_inv in Hs as [(?&?&?)%IH Hr]. split_and!; [|done|done].
      constructor; [done|]. simpl in Hr. inversion Hr. by constructor.
    + intros (Hs&?&?). apply Sorted_inv in Hs as [? Hr]. constructor; [by apply IH|].
      inversion Hr. simpl. by constructor.
Qed.

(** ** [sort_unstable_by_key]

    An unstable sort may return any sorted permutation; [sort_by_key_unique]
    shows that the choice does not matter when the keys are distinct, which the
    callers check next. *)
Section Sort.
Context {A K} `{RustOrdLaws K} (key : A → K).

Definition sort_by_key (l : list A) : list A := merge_sort (λ x y, key x ≤o key y) l.

#[local] Instance key_total : Total (λ x y, key x ≤o key y).
Proof. intros x y. apply (ole_total (key x) (key y)). Qed.
#[local] Instance key_trans : Transitive (λ x y, key x ≤o key y).
Proof. intros x y z. apply ole_trans. Qed.
#[local] Instance key_olt_trans : Transitive (λ x y, key x <o key y).
Proof. intros x y z. apply olt_trans. Qed.

Lemma sort_by_key_perm l : sort_by_key l ≡ₚ l.
Proof. apply merge_sort_Permutation. Qed.
Lemma sort_by_key_sorted l : StronglySorted (λ x y, key x ≤o key y) (sort_by_key l).
Proof. apply StronglySorted_merge_sort; apply _. Qed.
Lemma strictly_sorted_strong l :
  Sorted (λ x y, key x <o key y) l → StronglySorted (λ x y, key x <o key y) l.
Proof. apply Sorted_StronglySorted; apply _. Qed.
Lemma strictly_sorted_inj l x y :
  StronglySorted (λ x y, key x <o key y) l → x ∈ l → y ∈ l → key x = key y → x = y.
Proof.
  induction 1 as [|z l _ IH Hz]; intros Hx Hy Hk; [by apply elem_of_nil in Hx|].
  rewrite list.Forall_forall in Hz.
  apply elem_of_cons in Hx as [->|Hx], Hy as [->|Hy]; [done|..|by apply IH].
  - specialize (Hz _ Hy). rewrite Hk in Hz. by apply olt_irrefl in Hz.
  - specialize (Hz _ Hx). rewrite Hk in Hz. by apply olt_irrefl in Hz.
Qed.
Lemma strictly_sorted_weak l :
  StronglySorted (λ x y, key x <o key y) l → StronglySorted (λ x y, key x ≤o key y) l.
Proof.
  induction 1 as [|z l _ IH Hz]; constructor; [done|].
  eapply list.Forall_impl; [exact Hz|]. intros. by apply olt_ole.
Qed.
Lemma sort_by_key_unique l1 l2 :
  Sorted (λ x y, key x <o key y) l1 → l1 ≡ₚ l2 → sort_by_key l2 = l1.
Proof.
  intros Hs%strictly_sorted_strong Hp. symmetry.
  apply (StronglySorted_unique_strong (λ x y, key x ≤o key y)).
  - intros x y Hx Hy Hxy Hyx. apply (strictly_sorted_inj l1); [done..| |by apply ole_antisymm].
    by rewrite Hp, <-(sort_by_key_perm l2).
  - by apply strictly_sorted_weak.
  - apply sort_by_key_sorted.
  - by rewrite sort_by_key_perm.
Qed.
Lemma sort_by_key_idemp l : Sorted (λ x y, key x <o key y) l → sort_by_key l = l.
Proof. intros. by apply sort_by_key_unique. Qed.
(** Whether the sorted keys are strictly increasing depends on the elements only. *)
Lemma sort_by_key_strict l1 l2 :
  l1 ≡ₚ l2 → Sorted (λ x y, key x <o key y) (sort_by_key l1) → sort_by_key l2 = sort_by_key l1.
Proof. intros Hp Hs. apply sort_by_key_unique; [done|]. by rewrite sort_by_key_perm. Qed.
End Sort.

(** ** [partition_point]

    The standard library halves [size] elements from [base] until one is left,
    and then tests it. *)
Fixpoint bisect {A} (fuel : nat) (p : A → bool) (l : list A) (base size : nat) : nat :=
  match fuel with
  | O => base
  | S fuel =>
      if (size <=? 1)%nat then base
      else
        let half := (size / 2)%nat in
        let mid := (base + half)%nat in
        let base := match l !! mid with Some x => if p x then mid else base | None => base end in
        bisect fuel p l base (size - half)
  end.
Definition partition_point {A} (p : A → bool) (l : list A) : nat :=
  match l with
  | [] => O
  | _ :: _ =>
      let base := bisect (length l) p l 0 (length l) in
      match l !! base with Some x => if p x then S base else base | None => base end
  end.

(** [p] holds on the first [n] elements and on no other. *)
Definition partitioned {A} (p : A → bool) (l : list A) (n : nat) : Prop :=
  (n ≤ length l)%nat ∧ ∀ i x, l !! i = Some x → (p x = true ↔ (i < n)%nat).

Lemma bisect_spec {A} (p : A → bool) l n fuel base size :
  partitioned p l n → (1 ≤ size ≤ fuel)%nat → (base + size ≤ length l)%nat →
  (base ≤ n ≤ base + size)%nat → (0 < base → base < n)%nat →
  let r := bisect fuel p l base size in (r < length l)%nat ∧ (r ≤ n ≤ S r)%nat.
Proof.
  intros [Hn Hp]. revert base size. induction fuel as [|fuel IH]; intros base size Hs Hl Hb Hpos; cbn [bisect]; cbv zeta; [lia|].
  destruct (Nat.leb_spec size 1); [lia|].
  pose proof (Nat.div_mod size 2 ltac:(lia)). pose proof (Nat.mod_upper_bound size 2 ltac:(lia)).
  set (half := (size / 2)%nat) in *.
  destruct (lookup_lt_is_Some_2 l (base + half)) as [x Hx]; [lia|]. rewrite Hx.
  specialize (Hp _ _ Hx). destruct (p x).
  - apply IH; try lia.
  - assert (¬ (base + half < n)%nat) by naive_solver. apply IH; lia.
Qed.
Lemma partition_point_spec {A} (p : A → bool) l n : partitioned p l n → partition_point p l = n.
Proof.
  intros Hpart. pose proof Hpart as [Hn Hp]. destruct l as [|x l]; [simpl in *; lia|].
  unfold partition_point. set (l' := x :: l) in *.
  destruct (bisect_spec p l' n (length l') 0 (length l') Hpart) as [Hr ?]; [simpl in *; lia..|].
  destruct (lookup_lt_is_Some_2 l' _ Hr) as [y Hy]. rewrite Hy. specialize (Hp _ _ Hy).
  destruct (p y); [assert (bisect (length l') p l' 0 (length l') < n)%nat by tauto; lia|].
  assert (¬ (bisect (length l') p l' 0 (length l') < n)%nat) by naive_solver. lia.
Qed.
Lemma partitioned_app {A} (p : A → bool) l1 l2 :
  Forall (λ x, p x = true) l1 → Forall (λ x, p x = false) l2 → partitioned p (l1 ++ l2) (length l1).
Proof.
  intros H1 H2. split; [rewrite length_app; lia|]. intros i x Hi. split.
  - intros Hp. apply dec_stable. intros Hge. rewrite lookup_app_r in Hi by lia.
    eapply Forall_lookup_1 in H2; [|exact Hi]. simpl in H2. congruence.
  - intros Hlt. rewrite lookup_app_l in Hi by done. by eapply Forall_lookup_1 in H1.
Qed.

Lemma filter_none {A} (P : A → Prop) `{∀ x, Decision (P x)} l : (∀ y, y ∈ l → ¬ P y) → filter P l = [].
Proof.
  induction l as [|x l IH]; intros Hl; [done|]. rewrite filter_cons_False by (apply Hl; by left).
  apply IH. intros y Hy. apply Hl. by right.
Qed.

(** A list sorted by a key splits at a key into the smaller, the equal and the
    greater elements. *)
Section KeySplit.
Context {A K} `{RustOrdLaws K} `{EqDecision K} (key : A → K).

Lemma sorted_key_split l k :
  StronglySorted (λ x y, key x ≤o key y) l →
  l = filter (λ x, key x <o k) l ++ filter (λ x, key x = k) l ++ filter (λ x, k <o key x) l.
Proof.
  induction 1 as [|x l _ IH Hx]; [done|]. rewrite list.Forall_forall in Hx. rewrite !filter_cons.
  destruct (decide (key x <o k)) as [Hlt|Hnlt].
  { rewrite (decide_False (P:=key x = k)) by (intros Heq; rewrite Heq in Hlt; by eapply olt_irrefl).
    rewrite (decide_False (P:=k <o key x)) by (intros ?; eapply olt_irrefl; by eapply olt_trans).
    simpl. by f_equal. }
  assert (Hnone : filter (λ y, key y <o k) l = []).
  { apply filter_none. intros y Hin Hy. apply Hnlt. eapply ole_olt_trans; [|exact Hy]. by apply Hx. }
  rewrite Hnone in *. simpl in *. destruct (decide (key x = k)) as [Heq|Hne].
  { rewrite (decide_False (P:=k <o key x)) by (rewrite Heq; apply olt_irrefl). simpl. by f_equal. }
  assert (Hgt : k <o key x).
  { apply not_olt, ole_iff in Hnlt as [|]; [done|congruence]. }
  rewrite decide_True by done.
  assert (Hnone' : filter (λ y, key y = k) l = []).
  { apply filter_none. intros y Hin Hy. specialize (Hx _ Hin). rewrite Hy in Hx.
    eapply olt_irrefl. by eapply olt_ole_trans. }
  rewrite Hnone' in *. simpl in *. by f_equal.
Qed.

(** The range between two partition points of a sorted slice. *)
Lemma partition_range {E} l k :
  StronglySorted (λ x y, key x ≤o key y) l →
  @index_range E A l (Z.of_nat (partition_point (λ x, bool_decide (key x <o k)) l))
                (Z.of_nat (partition_point (λ x, bool_decide (key x ≤o k)) l)) =
  Ok (filter (λ x, key x = k) l).
Proof.
  intros Hs. pose proof (sorted_key_split l k Hs) as Hl.
  set (l1 := filter (λ x, key x <o k) l) in *. set (l2 := filter (λ x, key x = k) l) in *.
  set (l3 := filter (λ x, k <o key x) l) in *.
  assert (H1 : Forall (λ x, key x <o k) l1) by (apply list.Forall_forall; intros x [? _]%list_elem_of_filter; done).
  assert (H2 : Forall (λ x, key x = k) l2) by (apply list.Forall_forall; intros x [? _]%list_elem_of_filter; done).
  assert (H3 : Forall (λ x, k <o key x) l3) by (apply list.Forall_forall; intros x [? _]%list_elem_of_filter; done).
  clearbody l1 l2 l3. subst l.
  rewrite (partition_point_spec _ _ (length l1)).
  2: { apply partitioned_app; [eapply list.Forall_impl; [exact H1|]; intros; by apply bool_decide_true|].
       apply Forall_app. split; (eapply list.Forall_impl; [eassumption|]); intros x Hx; simpl in *;
         apply bool_decide_false; [rewrite Hx; apply olt_irrefl|intros ?; eapply olt_irrefl; by eapply olt_trans]. }
  rewrite (app_assoc l1), (partition_point_spec _ _ (length (l1 ++ l2))).
  2: { apply partitioned_app; [|eapply list.Forall_impl; [exact H3|]; intros; by apply bool_decide_false, not_ole].
       apply Forall_app. split; (eapply list.Forall_impl; [eassumption|]); intros x Hx; simpl in *;
         apply bool_decide_true; [by apply olt_ole|rewrite Hx; apply ole_refl]. }
  rewrite <-app_assoc. change (Z.of_nat (length ?x)) with (blen x). rewrite blen_app.
  pose proof (blen_nonneg l1). pose proof (blen_nonneg l2). pose proof (blen_nonneg l3).
  rewrite index_range_in by (rewrite ?blen_app; lia). f_equal.
  rewrite sub_app_r by lia. replace (blen l1 - blen l1) with 0 by lia. apply sub_app_eq_l. lia.
Qed.
End KeySplit.
