(* ===== verification/Checksum.v ===== *)
(** * Checksums and content hashes

    [crc32c] and [blake3] are external crates, so they enter as interfaces: a
    class of operations and a class of the documented laws the code relies on.
    [crc32c_with_zeroed_u32] of [fastdup-format/src/lib.rs] is translated and
    shown to be the checksum of the buffer whose field reads zero.

    The instances at the end make the development executable: a bitwise
    CRC-32C, and a 32-byte mixing function in the place of BLAKE3. *)
From S2P Require Export Bytes.

(** ** The [crc32c] crate *)
Class Crc32c := {
  crc32c : bytes → Z;
  crc32c_append : Z → bytes → Z;
}.
Class Crc32cLaws `{Crc32c} : Prop := {
  crc32c_range b : is_u32 (crc32c b);
  crc32c_append_crc32c a b : crc32c_append (crc32c a) b = crc32c (a ++ b);
  crc32c_append_0 b : crc32c_append 0 b = crc32c b;
}.

(** ** The [blake3] crate: one-shot hashing, and the incremental hasher, whose
    digest is that of the concatenation of its updates. *)
Class Blake3 := { blake3_hash : bytes → bytes }.
Class Blake3Laws `{Blake3} : Prop := { blake3_hash_blen b : blen (blake3_hash b) = 32 }.

Module Hasher.
Definition new : bytes := [].
Definition update (h data : bytes) : bytes := h ++ data.
Definition finalize `{Blake3} (h : bytes) : bytes := blake3_hash h.
End Hasher.

(** [fn crc32c_with_zeroed_u32] *)
Definition crc32c_with_zeroed_u32 {E} `{Crc32c} (b : bytes) (field_offset : Z) : outcome E Z :=
  field_end ← expect (checked_add usize_max field_offset 4);
  assert_true (field_end <=? blen b);;
  head ← index_range b 0 field_offset;
  let before := crc32c head in
  let with_zero := crc32c_append before (zeros 4) in
  tail ← index_from b field_end;
  Ok (crc32c_append with_zero tail).

Section ZeroedField.
Context `{Crc32cLaws}.

Lemma crc32c_with_zeroed_u32_in {E} (b : bytes) o :
  0 ≤ o → o + 4 ≤ blen b → o + 4 ≤ usize_max →
  @crc32c_with_zeroed_u32 E _ b o = Ok (crc32c (splice b o (zeros 4))).
Proof.
  intros. unfold crc32c_with_zeroed_u32. rewrite checked_add_ok by done. simpl.
  rewrite (proj2 (Z.leb_le _ _)) by lia. simpl.
  rewrite index_range_in by lia. simpl. unfold index_from.
  rewrite index_range_in by lia. simpl.
  rewrite !crc32c_append_crc32c. do 2 f_equal.
  rewrite <-(sub_all (splice b o (zeros 4)) (o + (4 + (blen b - (o + 4))))) by blia.
  rewrite sub_split by lia. rewrite (sub_split _ (0 + o)) by lia.
  rewrite <-app_assoc. f_equal; [|f_equal].
  - rewrite sub_splice_ne by blia. f_equal. lia.
  - rewrite Z.add_0_l. by rewrite sub_splice_eq by blia.
  - rewrite sub_splice_ne by blia. f_equal; lia.
Qed.

Lemma no_panic_crc32c_with_zeroed_u32 {E} (b : bytes) o :
  0 ≤ o → o + 4 ≤ blen b → o + 4 ≤ usize_max →
  no_panic (@crc32c_with_zeroed_u32 E _ b o).
Proof. intros. by rewrite crc32c_with_zeroed_u32_in. Qed.
End ZeroedField.

(** ** An executable CRC-32C (Castagnoli, reflected polynomial) *)
Module Crc32cBitwise.
Definition poly : Z := 0x82F63B78.
Definition mask : Z := 0xFFFFFFFF.
Definition bit_step (c : Z) : Z :=
  if Z.odd c then Z.lxor (Z.shiftr c 1) poly else Z.shiftr c 1.
Definition byte_step (c : Z) (x : byte) : Z :=
  Nat.iter 8 bit_step (Z.lxor c (Z_of_byte x)).
Definition append (c : Z) (b : bytes) : Z :=
  Z.lxor (foldl byte_step (Z.lxor c mask) b) mask.

Definition is32 (z : Z) : Prop := 0 ≤ z < 2 ^ 32.
Lemma lxor_is32 a b : is32 a → is32 b → is32 (Z.lxor a b).
Proof.
  unfold is32. intros [Ha0 Ha] [Hb0 Hb].
  assert (0 ≤ Z.lxor a b) by (rewrite Z.lxor_nonneg; lia). split; [done|].
  destruct (Z.eq_dec (Z.lxor a b) 0) as [->|Hne]; [lia|].
  apply Z.log2_lt_pow2; [lia|].
  pose proof (Z.log2_lxor a b ltac:(lia) ltac:(lia)).
  assert (Hl : ∀ z, 0 ≤ z < 2 ^ 32 → Z.log2 z < 32).
  { intros z Hz. destruct (Z.eq_dec z 0) as [->|]; [by vm_compute|].
    apply Z.log2_lt_pow2; lia. }
  pose proof (Hl a ltac:(lia)). pose proof (Hl b ltac:(lia)). lia.
Qed.
Lemma shiftr_is32 a : is32 a → is32 (Z.shiftr a 1).
Proof.
  unfold is32. intros. rewrite Z.shiftr_div_pow2 by lia. change (2 ^ 1) with 2.
  split; [apply Z.div_pos; lia | apply Z.div_lt_upper_bound; lia].
Qed.
Lemma bit_step_is32 c : is32 c → is32 (bit_step c).
Proof.
  intros. unfold bit_step. case_match; [apply lxor_is32|]; auto using shiftr_is32.
  by vm_compute.
Qed.
Lemma iter_bit_step_is32 n c : is32 c → is32 (Nat.iter n bit_step c).
Proof. intros. induction n; simpl; auto using bit_step_is32. Qed.
Lemma foldl_is32 b c : is32 c → is32 (foldl byte_step c b).
Proof.
  revert c. induction b as [|x b IH]; intros c Hc; simpl; [done|].
  apply IH. unfold byte_step. apply iter_bit_step_is32, lxor_is32; [done|].
  unfold is32. pose proof (Z_of_byte_range x). lia.
Qed.

#[local] Instance ops : Crc32c := {| crc32c := append 0; crc32c_append := append |}.
#[local] Instance laws : Crc32cLaws.
Proof.
  split.
  - intros b. assert (Hm : is32 mask) by (by vm_compute).
    assert (Hr : is32 (crc32c b)).
    { simpl. unfold append. apply lxor_is32; [apply foldl_is32|]; done. }
    unfold is32 in Hr. unfold in_u, u32_max. lia.
  - intros a b. simpl. unfold append. rewrite foldl_app.
    rewrite (Z.lxor_assoc _ mask mask), Z.lxor_nilpotent, Z.lxor_0_r. done.
  - done.
Qed.

(** The published check value of CRC-32C for the digits 1 to 9. *)
Example check_value :
  crc32c (map byte_of_Z [49; 50; 51; 52; 53; 54; 55; 56; 57]) = 0xE3069283.
Proof. vm_compute. reflexivity. Qed.
End Crc32cBitwise.

(** ** A 32-byte mixing function *)
Module MixHash.
Definition mix (b : bytes) : Z :=
  foldl (λ h x, (h * 257 + Z_of_byte x + 1) `mod` 2 ^ 256) 1 b.
#[local] Instance ops : Blake3 := {| blake3_hash b := le_bytes 32 (mix b) |}.
#[local] Instance laws : Blake3Laws.
Proof. split. intros b. simpl. by rewrite blen_le_bytes. Qed.
End MixHash.

(** ** A digest that is never zero *)
Module TagHash.
#[local] Instance ops : Blake3 := {| blake3_hash b := x01 :: sub (b ++ zeros 31) 0 31 |}.
#[local] Instance laws : Blake3Laws.
Proof.
  split. intros b. simpl. pose proof (blen_nonneg b).
  rewrite blen_cons, blen_sub; rewrite ?blen_app, ?blen_zeros by lia; lia.
Qed.
Lemma tag_hash_nonzero b : blake3_hash b ≠ zeros 32.
Proof. discriminate. Qed.
End TagHash.
