(* ===== verification/Layout.v ===== *)
(** * Fixed layouts

    The codecs write fields at constant offsets into a zeroed buffer and read
    them back at the same offsets.  A layout is the list of those writes; its
    rendering, the reads from it and its checksum seal are proved once here.
    [field_at] computes, so a codec's obligations about offsets are settled by
    evaluation. *)
From S2P Require Export Checksum.

(** A write of [value], [width] bytes wide, at [offset]. *)
Record field := Field { offset : Z; width : Z; value : bytes }.

Definition fits (n : Z) (f : field) : Prop :=
  0 ≤ f.(offset) ∧ f.(offset) + f.(width) ≤ n ∧ blen f.(value) = f.(width).

Definition render_on (b : bytes) (fs : list field) : bytes :=
  foldl (λ b f, splice b f.(offset) f.(value)) b fs.
Definition render (n : Z) (fs : list field) : bytes := render_on (zeros n) fs.

(** The content of [o..o + k] after the writes, the last write first in the
    list; [None] when a write covers the range partially. *)
Fixpoint field_at (fs : list field) (o k : Z) : option bytes :=
  match fs with
  | [] => Some (zeros k)
  | f :: fs =>
      if (f.(offset) =? o) && (f.(width) =? k) then Some f.(value)
      else if (o + k <=? f.(offset)) || (f.(offset) + f.(width) <=? o) then field_at fs o k
      else None
  end.

Lemma blen_render_on n fs b : blen b = n → Forall (fits n) fs → blen (render_on b fs) = n.
Proof.
  intros Hb Hfs. revert b Hb. induction Hfs as [|f fs (?&?&?) _ IH]; intros b Hb; simpl; [done|].
  apply IH. rewrite blen_splice; lia.
Qed.
Lemma blen_render n fs : 0 ≤ n → Forall (fits n) fs → blen (render n fs) = n.
Proof. intros. apply blen_render_on; [by apply blen_zeros|done]. Qed.

Lemma sub_render n fs o k v :
  0 ≤ o → 0 ≤ k → o + k ≤ n → Forall (fits n) fs →
  field_at (rev fs) o k = Some v → sub (render n fs) o k = v.
Proof.
  intros Ho Hk Hn. unfold render, render_on.
  induction fs as [|f fs IH] using rev_ind; intros Hfs Hv; simpl in *.
  { simplify_eq. by apply sub_zeros. }
  apply Forall_app in Hfs as [Hfs (?&?&Hw)%Forall_singleton].
  rewrite rev_app_distr in Hv. simpl in Hv. rewrite foldl_app. simpl.
  pose proof (blen_render_on n fs (zeros n) ltac:(apply blen_zeros; lia) Hfs) as Hl.
  unfold render_on in Hl.
  repeat case_match; zbool; simplify_eq.
  - apply sub_splice_eq; lia.
  - rewrite sub_splice_ne; [by apply IH|lia..].
Qed.

(** Writing the fields one by one through the checked [put]. *)
Fixpoint puts_then {E A} (b : bytes) (fs : list field) (k : bytes → outcome E A) : outcome E A :=
  match fs with
  | [] => k b
  | f :: fs => b ← put b f.(offset) f.(value); puts_then b fs k
  end.
Lemma puts_then_in {E A} n b fs (k : bytes → outcome E A) :
  blen b = n → Forall (fits n) fs → puts_then b fs k = k (render_on b fs).
Proof.
  intros Hb Hfs. revert b Hb. induction Hfs as [|f fs (?&?&?) _ IH]; intros b Hb; simpl; [done|].
  rewrite put_in by lia. simpl. apply IH. rewrite blen_splice; lia.
Qed.

(** Likewise, for an encoder that ends with its last write. *)
Fixpoint puts {E} (b : bytes) (fs : list field) : outcome E bytes :=
  match fs with
  | [] => Ok b
  | [f] => put b f.(offset) f.(value)
  | f :: fs => b ← put b f.(offset) f.(value); puts b fs
  end.
Lemma puts_in {E} n b fs : blen b = n → Forall (fits n) fs → @puts E b fs = Ok (render_on b fs).
Proof.
  intros Hb Hfs. revert b Hb. induction Hfs as [|f fs (?&?&?) _ IH]; intros b Hb; [done|].
  destruct fs as [|g fs]; [cbn [puts]; by rewrite put_in by lia|].
  change (puts b (f :: g :: fs)) with (b' ← @put E _ b f.(offset) f.(value); puts b' (g :: fs)).
  rewrite put_in by lia. osimpl. apply IH. rewrite blen_splice; lia.
Qed.

(** Fields that fit in a prefix leave the rest of the buffer alone. *)
Lemma render_on_app n fs a c :
  blen a = n → Forall (fits n) fs → render_on (a ++ c) fs = render_on a fs ++ c.
Proof.
  intros Ha Hfs. revert a Ha. induction Hfs as [|f fs (?&?&?) _ IH]; intros a Ha; simpl; [done|].
  rewrite splice_app_l by lia. apply IH. rewrite blen_splice; lia.
Qed.
Lemma fits_mono n m fs : n ≤ m → Forall (fits n) fs → Forall (fits m) fs.
Proof. intros ? Hfs. eapply Forall_impl; [|exact Hfs]. unfold fits. intros f (?&?&?). lia. Qed.

(** A buffer that agrees with the layout part by part is its rendering. *)
Lemma render_unique n fs (b : bytes) ns :
  blen b = n → Forall (fits n) fs → forallb (Z.leb 0) ns → foldr Z.add 0 ns = n →
  Forall (λ p, 0 ≤ p.1 ∧ 0 ≤ p.2 ∧ p.1 + p.2 ≤ n ∧
    field_at (rev fs) p.1 p.2 = Some (sub b p.1 p.2)) (parts 0 ns) →
  b = render n fs.
Proof.
  intros Hb Hfits Hpos Hsum Hparts. pose proof (blen_nonneg b).
  pose proof (blen_render n fs ltac:(lia) Hfits).
  apply (sub_ext ns); [|lia..|].
  - apply forallb_True in Hpos. eapply Forall_impl; [|exact Hpos].
    intros k Hk%Is_true_true. by apply Z.leb_le.
  - eapply Forall_impl; [|exact Hparts]. intros [o k] (?&?&?&?). simpl in *.
    symmetry. by apply (sub_render n).
Qed.

Lemma render_prefix_unique n fs (b : bytes) ns :
  0 ≤ n → n ≤ blen b → Forall (fits n) fs → forallb (Z.leb 0) ns → foldr Z.add 0 ns = n →
  Forall (λ p, 0 ≤ p.1 ∧ 0 ≤ p.2 ∧ p.1 + p.2 ≤ n ∧
    field_at (rev fs) p.1 p.2 = Some (sub b p.1 p.2)) (parts 0 ns) →
  sub b 0 n = render n fs.
Proof.
  intros Hn Hb Hfits Hpos Hsum Hparts. apply (render_unique n fs _ ns); try done.
  { rewrite blen_sub; lia. }
  eapply Forall_impl; [|exact Hparts]. intros [o k] (?&?&?&->). simpl in *.
  split_and!; [done..|]. by rewrite sub_sub by lia.
Qed.

(** ** Reads, as facts about ranges *)

Lemma get_u16_Ok {E} b o z :
  @get_u16 E b o = Ok z ↔ 0 ≤ o ∧ o + 2 ≤ blen b ∧ is_u16 z ∧ sub b o 2 = le_bytes 2 z.
Proof.
  split.
  - unfold get_u16. destruct (index_range b o (o + 2)) as [r| |] eqn:Hr; try done.
    apply index_range_Ok in Hr as (?&?&->). replace (o + 2 - o) with 2 by lia.
    intros [= <-]. pose proof (le_val_u16 (sub b o 2) ltac:(apply blen_sub; lia)).
    split_and!; try lia; [done..|]. symmetry. by apply (le_bytes_val_sub b o 2); lia.
  - intros (?&?&?&Hs). rewrite get_u16_in, Hs by lia. by rewrite le_val_bytes_u16.
Qed.
Lemma get_u32_Ok {E} b o z :
  @get_u32 E b o = Ok z ↔ 0 ≤ o ∧ o + 4 ≤ blen b ∧ is_u32 z ∧ sub b o 4 = le_bytes 4 z.
Proof.
  split.
  - unfold get_u32. destruct (index_range b o (o + 4)) as [r| |] eqn:Hr; try done.
    apply index_range_Ok in Hr as (?&?&->). replace (o + 4 - o) with 4 by lia.
    intros [= <-]. pose proof (le_val_u32 (sub b o 4) ltac:(apply blen_sub; lia)).
    split_and!; try lia; [done..|]. symmetry. by apply (le_bytes_val_sub b o 4); lia.
  - intros (?&?&?&Hs). rewrite get_u32_in, Hs by lia. by rewrite le_val_bytes_u32.
Qed.
Lemma get_u64_Ok {E} b o z :
  @get_u64 E b o = Ok z ↔ 0 ≤ o ∧ o + 8 ≤ blen b ∧ is_u64 z ∧ sub b o 8 = le_bytes 8 z.
Proof.
  split.
  - unfold get_u64. destruct (index_range b o (o + 8)) as [r| |] eqn:Hr; try done.
    apply index_range_Ok in Hr as (?&?&->). replace (o + 8 - o) with 8 by lia.
    intros [= <-]. pose proof (le_val_u64 (sub b o 8) ltac:(apply blen_sub; lia)).
    split_and!; try lia; [done..|]. symmetry. by apply (le_bytes_val_sub b o 8); lia.
  - intros (?&?&?&Hs). rewrite get_u64_in, Hs by lia. by rewrite le_val_bytes_u64.
Qed.
Lemma range_differs_false {E} b lo hi v :
  @range_differs E b lo hi v = Ok false ↔ 0 ≤ lo ≤ hi ∧ hi ≤ blen b ∧ sub b lo (hi - lo) = v.
Proof.
  unfold range_differs. split.
  - intros H. inv_ok. apply index_range_Ok in H as (?&?&->). zbool. done.
  - intros (?&?&<-). rewrite index_range_in by lia. simpl. by rewrite bool_decide_true.
Qed.
Lemma range_any_nonzero_false {E} b lo hi :
  @range_any_nonzero E b lo hi = Ok false ↔
  0 ≤ lo ≤ hi ∧ hi ≤ blen b ∧ sub b lo (hi - lo) = zeros (hi - lo).
Proof.
  unfold range_any_nonzero. split.
  - destruct (index_range b lo hi) as [r| |] eqn:Hr; try done.
    apply index_range_Ok in Hr as (?&?&->). simpl. intros [= Hz].
    apply any_nonzero_false in Hz. rewrite blen_sub in Hz by lia. done.
  - intros (?&?&Hz). rewrite index_range_in by lia. simpl. by rewrite Hz, any_nonzero_zeros.
Qed.

(** Turns the successful reads in the context into facts about ranges. *)
Ltac inv_reads :=
  repeat match goal with
  | H : get_u16 _ _ = Ok _ |- _ => apply get_u16_Ok in H as (?&?&?&?)
  | H : get_u32 _ _ = Ok _ |- _ => apply get_u32_Ok in H as (?&?&?&?)
  | H : get_u64 _ _ = Ok _ |- _ => apply get_u64_Ok in H as (?&?&?&?)
  | H : range_differs _ _ _ _ = Ok false |- _ => apply range_differs_false in H as (?&?&?)
  | H : range_any_nonzero _ _ _ = Ok false |- _ => apply range_any_nonzero_false in H as (?&?&?)
  | H : index_range _ _ _ = Ok _ |- _ => apply index_range_Ok in H as (?&?&?)
  end.

(** ** Sealing: a checksum of the rendered fields, stored in a zeroed field *)
Section Seal.
Context `{Crc32cLaws}.

Definition seal (n : Z) (fs : list field) (co : Z) : bytes :=
  splice (render n fs) co (le_bytes 4 (crc32c (render n fs))).

Variables (n : Z) (fs : list field) (co : Z).
Hypotheses (Hco : 0 ≤ co) (Hn : co + 4 ≤ n) (Hmax : n ≤ usize_max).
Hypothesis Hfits : Forall (fits n) fs.
Hypothesis Hgap : field_at (rev fs) co 4 = Some (zeros 4).

Lemma blen_seal : blen (seal n fs co) = n.
Proof. unfold seal. pose proof (blen_render n fs ltac:(lia) Hfits). blia. Qed.

Lemma sub_seal o k v :
  0 ≤ o → 0 ≤ k → o + k ≤ n → o + k ≤ co ∨ co + 4 ≤ o →
  field_at (rev fs) o k = Some v → sub (seal n fs co) o k = v.
Proof.
  intros. unfold seal. pose proof (blen_render n fs ltac:(lia) Hfits).
  rewrite sub_splice_ne by blia. by apply (sub_render n).
Qed.

Lemma sub_seal_checksum : sub (seal n fs co) co 4 = le_bytes 4 (crc32c (render n fs)).
Proof. unfold seal. pose proof (blen_render n fs ltac:(lia) Hfits). apply sub_splice_eq; blia. Qed.

Lemma seal_zeroed : splice (seal n fs co) co (zeros 4) = render n fs.
Proof.
  unfold seal. pose proof (blen_render n fs ltac:(lia) Hfits).
  rewrite splice_splice by blia.
  rewrite <-(sub_render n fs co 4 (zeros 4)) by (done || lia).
  apply splice_sub; lia.
Qed.

(** The reader's check accepts what the writer sealed. *)
Lemma seal_checksum_ok {E} :
  @crc32c_with_zeroed_u32 E _ (seal n fs co) co = Ok (crc32c (render n fs)) ∧
  @get_u32 E (seal n fs co) co = Ok (crc32c (render n fs)).
Proof.
  pose proof blen_seal. split.
  - rewrite crc32c_with_zeroed_u32_in by lia. by rewrite seal_zeroed.
  - apply get_u32_Ok. pose proof (crc32c_range (render n fs)).
    split_and!; [lia..|done|]. apply sub_seal_checksum.
Qed.

(** Writing the fields, then the checksum. *)
Lemma puts_seal {E} :
  puts_then (zeros n) fs (λ b, @put_u32 E b co (crc32c b)) = Ok (seal n fs co).
Proof.
  rewrite (puts_then_in n); [|by apply blen_zeros; lia|done]. fold (render n fs).
  pose proof (blen_render n fs ltac:(lia) Hfits).
  unfold put_u32. by rewrite put_in by blia.
Qed.

(** All a decoder reads of a sealed layout. *)
Lemma seal_facts {E} (b : bytes) :
  b = seal n fs co →
  blen b = n ∧
  @crc32c_with_zeroed_u32 E _ b co = Ok (crc32c (render n fs)) ∧
  @get_u32 E b co = Ok (crc32c (render n fs)) ∧
  ∀ o k v, 0 ≤ o → 0 ≤ k → o + k ≤ n → o + k ≤ co ∨ co + 4 ≤ o →
    field_at (rev fs) o k = Some v → sub b o k = v.
Proof.
  intros ->. destruct (@seal_checksum_ok E). split_and!; [apply blen_seal|done..|apply sub_seal].
Qed.

(** A buffer that passes the check and agrees with the layout part by part is
    the sealed layout. *)
Lemma seal_unique {E} (b : bytes) c ns :
  blen b = n →
  @crc32c_with_zeroed_u32 E _ b co = Ok c → sub b co 4 = le_bytes 4 c →
  forallb (Z.leb 0) ns → foldr Z.add 0 ns = n →
  Forall (λ p, (p.1 = co ∧ p.2 = 4) ∨
    (0 ≤ p.1 ∧ 0 ≤ p.2 ∧ p.1 + p.2 ≤ n ∧ (p.1 + p.2 ≤ co ∨ co + 4 ≤ p.1) ∧
     field_at (rev fs) p.1 p.2 = Some (sub b p.1 p.2))) (parts 0 ns) →
  b = seal n fs co.
Proof.
  intros Hb Hz Hs Hpos Hsum Hparts.
  rewrite crc32c_with_zeroed_u32_in in Hz by lia. apply Ok_inj in Hz as <-.
  assert (Hpos' : Forall (λ k, 0 ≤ k) ns).
  { apply forallb_True in Hpos. eapply Forall_impl; [|exact Hpos].
    intros k Hk%Is_true_true. by apply Z.leb_le. }
  pose proof (blen_render n fs ltac:(lia) Hfits) as Hr.
  assert (Hpre : splice b co (zeros 4) = render n fs).
  { apply (sub_ext ns); [done|blia|lia|]. eapply Forall_impl; [|exact Hparts].
    intros [o k]. simpl. intros [[-> ->]|(?&?&?&?&Hf)].
    - rewrite sub_splice_eq by blia. symmetry. apply (sub_render n); (done || lia).
    - rewrite sub_splice_ne by blia. symmetry. apply (sub_render n); (done || lia). }
  unfold seal. rewrite <-Hpre, <-Hs, splice_splice by blia.
  symmetry. apply splice_sub; lia.
Qed.
End Seal.

(** Discharges [Forall (fits n) fs] for a concrete layout. *)
Ltac solve_fits :=
  repeat apply Forall_cons_2;
  [unfold fits; simpl offset; simpl width; simpl value; split_and!;
   first [assumption | lia | blia | vm_compute; reflexivity] .. | apply Forall_nil_2].

(** Evaluates a decoder on a sealed layout [b]: checked reads by their bounds
    ([Hl : blen b = n]), their content by the layout ([Hsub], an instance of
    [sub_seal]), integers by their ranges. *)
Ltac uint := first [assumption | (unfold in_u; lia) | (vm_compute; split; congruence) | unfold in_u, u16_max, u32_max, u64_max; lia].
Ltac eval_reads b Hl :=
  repeat first
    [ rewrite (get_u16_in b) by (rewrite ?Hl; lia)
    | rewrite (get_u32_in b) by (rewrite ?Hl; lia)
    | rewrite (get_u64_in b) by (rewrite ?Hl; lia)
    | rewrite (range_differs_in b) by (rewrite ?Hl; lia)
    | rewrite (range_any_nonzero_in b) by (rewrite ?Hl; lia)
    | rewrite (index_range_in b) by (rewrite ?Hl; lia) ].
Ltac eval_sub b Hsub :=
  repeat match goal with
  | |- context [sub b ?o ?k] => erewrite (Hsub o k) by first [lia | reflexivity]
  end; simpl value in *.
Ltac eval_ints :=
  repeat first
    [ rewrite le_val_bytes_u16 by uint
    | rewrite le_val_bytes_u32 by uint
    | rewrite le_val_bytes_u64 by uint
    | rewrite le_val_zeros by lia
    | rewrite any_nonzero_zeros
    | rewrite bool_decide_true by reflexivity
    | rewrite Z.eqb_refl ].

(** Settles the parts of [seal_unique] from the facts [inv_reads] leaves. *)
Ltac seal_parts :=
  repeat apply Forall_cons_2; [simpl .. | apply Forall_nil_2];
  first
    [ left; split; reflexivity
    | right; split_and!; [lia | lia | lia | lia |];
      first [ match goal with |- _ = Some (sub ?b ?o ?k) =>
                match goal with H : sub b ?o' ?k' = ?v |- _ =>
                  unify o o'; unify k k'; etransitivity; [|apply f_equal; symmetry; exact H];
                  first [reflexivity | rewrite le_bytes_zeros; reflexivity] end end
            | reflexivity ] ].

(** Settles the parts of [render_unique] likewise. *)
Ltac render_parts :=
  repeat apply Forall_cons_2; [simpl .. | apply Forall_nil_2];
  (split_and!; [lia | lia | lia |];
   first [ match goal with |- _ = Some (sub ?b ?o ?k) =>
             match goal with H : sub b ?o' ?k' = ?v |- _ =>
               unify o o'; unify k k'; etransitivity; [|apply f_equal; symmetry; exact H];
               first [reflexivity | rewrite le_bytes_zeros; reflexivity] end end
         | reflexivity ]).

(** Panic-freedom of a decoder whose length check is in the context. *)
Ltac no_panic_reads :=
  repeat match goal with
  | |- no_panic (_ ≫= _) => apply no_panic_bind; [|intros ? ?]
  | |- no_panic (_ ||? _) => apply no_panic_or_else
  | |- no_panic (differs _ _) => apply no_panic_differs
  | |- no_panic (get_u16 _ _) => apply no_panic_get_u16; lia
  | |- no_panic (get_u32 _ _) => apply no_panic_get_u32; lia
  | |- no_panic (get_u64 _ _) => apply no_panic_get_u64; lia
  | |- no_panic (index_range _ _ _) => apply no_panic_index_range; lia
  | |- no_panic (range_differs _ _ _ _) => apply no_panic_range_differs; lia
  | |- no_panic (range_any_nonzero _ _ _) => apply no_panic_range_any_nonzero; lia
  | |- no_panic (crc32c_with_zeroed_u32 _ _) =>
      apply no_panic_crc32c_with_zeroed_u32; first [lia | by vm_compute]
  | |- no_panic _ => solve [auto with fastdup nocore]
  end.
