(* ===== verification/EntryTable.v ===== *)
(** * Tables of fixed-size entries

    Several formats store a count and then that many entries of one size.  The
    loops that write and read such a table are the same up to the entry codec
    and the way the start of an entry is computed, so they and their theory are
    here; a format supplies its entry codec. *)
From S2P Require Export Layout.

Section Loops.
Context {E X : Type} (width : Z) (start : Z → outcome E Z).

(** [for (ordinal, x) in xs.enumerate() { x.encode(&mut b[start..start + width]) }] *)
Fixpoint encode_entries (enc : bytes → X → outcome E bytes) (b : bytes) (ordinal : Z) (xs : list X)
    : outcome E bytes :=
  match xs with
  | [] => Ok b
  | x :: xs =>
      at_ ← start ordinal;
      entry ← index_range b at_ (at_ + width);
      entry ← enc entry x;
      b ← put b at_ entry;
      encode_entries enc b (ordinal + 1) xs
  end.
(** [for ordinal in ordinal..ordinal + count { xs.push(decode(&b[start..start + width])?) }] *)
Fixpoint decode_entries (dec : bytes → outcome E X) (b : bytes) (ordinal : Z) (count : nat)
    : outcome E (list X) :=
  match count with
  | O => Ok []
  | S count =>
      at_ ← start ordinal;
      entry ← index_range b at_ (at_ + width);
      x ← dec entry;
      xs ← decode_entries dec b (ordinal + 1) count;
      Ok (x :: xs)
  end.
End Loops.

(** [base + ordinal * width] of unchecked operators, as a start. *)
Definition table_start {E} (base width ordinal : Z) : outcome E Z :=
  offset ← expect (checked_mul usize_max ordinal width);
  add_or_panic usize_max base offset.

Section Table.
Context {E X : Type} (base width limit : Z) (start : Z → outcome E Z).
Context (enc : bytes → X → outcome E bytes) (dec : bytes → outcome E X).
Context (ok : X → Prop) (image : X → bytes).
Hypothesis Hwidth : 0 < width.
Hypothesis Hstart : ∀ ordinal, 0 ≤ ordinal < limit → start ordinal = Ok (base + ordinal * width).
Hypothesis Himage : ∀ x, ok x → blen (image x) = width.
Hypothesis Henc : ∀ x, ok x → enc (zeros width) x = Ok (image x).
Hypothesis Hdec : ∀ b x, blen b = width → dec b = Ok x ↔ ok x ∧ b = image x.
Hypothesis Hdec_no_panic : ∀ b, blen b = width → no_panic (dec b).

Definition table_bytes (xs : list X) : bytes := concat (image <$> xs).

Lemma blen_table_bytes xs : Forall ok xs → blen (table_bytes xs) = width * blen xs.
Proof.
  unfold table_bytes. induction 1 as [|x xs Hx _ IH]; [change (0 = width * 0); lia|].
  cbn [fmap list_fmap concat]. rewrite blen_app, blen_cons, Himage by done.
  unfold table_bytes in IH. rewrite IH. lia.
Qed.

Lemma encode_table_render xs pre rest ordinal :
  Forall ok xs → blen pre = base + ordinal * width → 0 ≤ base → 0 ≤ ordinal → ordinal + blen xs ≤ limit →
  encode_entries width start enc (pre ++ zeros (width * blen xs) ++ rest) ordinal xs =
  Ok (pre ++ table_bytes xs ++ rest).
Proof.
  intros Hxs. revert pre ordinal. induction Hxs as [|x xs Hx Hxs IH]; intros pre ordinal Hpre Hb Ho Hle.
  { cbn [encode_entries]. change (blen (@nil X)) with 0. by rewrite Z.mul_0_r. }
  cbn [encode_entries]. pose proof (blen_nonneg xs). pose proof (blen_nonneg rest). rewrite blen_cons in *.
  rewrite Hstart by lia. osimpl.
  replace (width * (1 + blen xs)) with (width + width * blen xs) by lia. rewrite zeros_app by lia.
  rewrite <-(app_assoc (zeros width)). set (tail := zeros (width * blen xs) ++ rest).
  assert (Htail : 0 ≤ blen tail) by apply blen_nonneg.
  rewrite index_range_in by (rewrite ?blen_app, ?blen_zeros by lia; lia). osimpl.
  rewrite sub_app_r by lia. replace (base + ordinal * width - blen pre) with 0 by lia.
  replace (base + ordinal * width + width - (base + ordinal * width)) with width by lia.
  rewrite sub_app_eq_l by (by rewrite blen_zeros by lia).
  rewrite Henc by done. osimpl. pose proof (Himage x Hx) as Hix.
  rewrite put_in by (rewrite ?blen_app, ?blen_zeros, ?Hix by lia; lia). osimpl.
  rewrite <-Hpre, splice_app_r by (rewrite Hix, blen_app, !blen_zeros by lia; lia). rewrite Hix.
  rewrite sub_app_r by (rewrite blen_zeros; lia). rewrite blen_app, !blen_zeros by lia.
  rewrite Z.sub_diag, sub_all by lia.
  unfold tail. rewrite (app_assoc pre), IH; [|rewrite blen_app; lia|lia..].
  unfold table_bytes. cbn [fmap list_fmap concat]. by rewrite <-!app_assoc.
Qed.

Lemma decode_table_iff xs n pre t rest ordinal :
  blen pre = base + ordinal * width → 0 ≤ base → 0 ≤ ordinal → blen t = width * Z.of_nat n →
  ordinal + Z.of_nat n ≤ limit →
  decode_entries width start dec (pre ++ t ++ rest) ordinal n = Ok xs ↔
  length xs = n ∧ Forall ok xs ∧ t = table_bytes xs.
Proof.
  intros Hpre Hb. revert xs pre t ordinal Hpre.
  induction n as [|n IH]; intros xs pre t ordinal Hpre Ho Ht Hle; cbn [decode_entries].
  { rewrite Z.mul_0_r in Ht. apply blen_0_nil in Ht as ->. split; [intros [= <-]; done|].
    intros (?&_). by destruct xs. }
  rewrite Hstart by lia. osimpl. pose proof (blen_nonneg rest).
  rewrite index_range_in by (rewrite ?blen_app; lia). osimpl. rewrite sub_app_r by lia.
  replace (base + ordinal * width - blen pre) with 0 by lia.
  replace (base + ordinal * width + width - (base + ordinal * width)) with width by lia.
  assert (Hsplit : t = sub t 0 width ++ sub t width (width * Z.of_nat n)).
  { rewrite <-(sub_split t 0 width) by lia. symmetry. apply sub_all. lia. }
  assert (He : blen (sub t 0 width) = width) by (apply blen_sub; lia).
  assert (Ht' : blen (sub t width (width * Z.of_nat n)) = width * Z.of_nat n) by (apply blen_sub; lia).
  generalize dependent (sub t width (width * Z.of_nat n)). generalize dependent (sub t 0 width).
  intros e He t' -> Ht'. rewrite <-app_assoc, sub_app_eq_l by done.
  rewrite (app_assoc pre e).
  assert (Hpre' : blen (pre ++ e) = base + (ordinal + 1) * width) by (rewrite blen_app; lia). split.
  - intros Hd. apply bind_Ok in Hd as (x&Hx&Hd). apply bind_Ok in Hd as (ys&Hys&[= <-]).
    apply Hdec in Hx as [Hok ->]; [|done]. apply IH in Hys as (<-&?&->); [|done|lia..].
    split_and!; [done|by constructor|done].
  - intros (Hlen&Hxs&Heq). destruct xs as [|x xs]; [done|]. apply Forall_cons_1 in Hxs as [Hx Hxs].
    unfold table_bytes in Heq. cbn [fmap list_fmap concat] in Heq. pose proof (Himage x Hx) as Hi.
    apply app_inj_1 in Heq as [-> ->];
      [|change (blen e) with (Z.of_nat (length e)) in He;
        change (blen (image x)) with (Z.of_nat (length (image x))) in Hi; lia].
    rewrite (proj2 (Hdec _ _ Hi)) by done. osimpl.
    rewrite (proj2 (IH xs _ _ (ordinal + 1) Hpre' ltac:(lia) Ht' ltac:(lia))); [done|].
    split_and!; [simpl in *; lia|done|done].
Qed.

Lemma decode_entries_no_panic n b ordinal :
  0 ≤ base → 0 ≤ ordinal → ordinal + Z.of_nat n ≤ limit → base + (ordinal + Z.of_nat n) * width ≤ blen b →
  no_panic (decode_entries width start dec b ordinal n).
Proof.
  intros Hb. revert ordinal. induction n as [|n IH]; intros ordinal Ho Hle Hlen; cbn [decode_entries];
    [apply no_panic_Ok|].
  rewrite Hstart by lia. osimpl.
  apply no_panic_bind; [apply no_panic_index_range; nia|]. intros e He. inv_reads. subst e.
  apply no_panic_bind; [apply Hdec_no_panic; rewrite blen_sub; nia|]. intros x _.
  apply no_panic_bind; [apply IH; nia|auto with fastdup nocore].
Qed.
End Table.

Lemma table_start_in {E} base width ordinal :
  0 ≤ ordinal → 0 ≤ width → 0 ≤ base → base + ordinal * width ≤ usize_max →
  @table_start E base width ordinal = Ok (base + ordinal * width).
Proof.
  intros. unfold table_start. rewrite checked_mul_ok by nia. osimpl. rewrite add_or_panic_in by nia. done.
Qed.
