(* ===== verification/Metadata.v ===== *)
(** * The Metadata Object envelope ([fastdup-format/src/metadata.rs])

    Every metadata object (manifest leaf and inner node, namespace root and
    shard, exact-index run set) is a payload in one envelope: a 4096-byte
    checksummed header, the payload, and zero padding to the 4096-byte
    alignment.  The object's identity is the domain-separated BLAKE3 hash of
    its kind, length and payload. *)
From S2P Require Import Layout.

Module Metadata.

Definition METADATA_HEADER_BYTES : Z := 4096.
Definition MAX_METADATA_OBJECT_BYTES : Z := 16 * 1024 * 1024.
(** [b"FDMDOBJ1"] *)
Definition METADATA_MAGIC : bytes := map byte_of_Z [70; 68; 77; 68; 79; 66; 74; 49].
Definition FORMAT_VERSION : Z := 1.
Definition BLAKE3_256_ALGORITHM : Z := 1.
Definition PAYLOAD_CRC_OFFSET : Z := 80.
Definition HEADER_CRC_OFFSET : Z := 84.
Definition OBJECT_ALIGNMENT : Z := 4096.
(** [b"fastdup-metadata-object-v1\0"] *)
Definition OBJECT_ID_DOMAIN : bytes := map byte_of_Z
  [102; 97; 115; 116; 100; 117; 112; 45; 109; 101; 116; 97; 100; 97; 116; 97; 45;
   111; 98; 106; 101; 99; 116; 45; 118; 49; 0].

Definition MANIFEST_LEAF_KIND : Z := 1.
Definition NAMESPACE_ROOT_KIND : Z := 2.
Definition EXACT_INDEX_RUN_SET_KIND : Z := 3.
Definition MANIFEST_INNER_KIND : Z := 4.
Definition NAMESPACE_SHARD_KIND : Z := 5.

Inductive MetadataObjectKind :=
  | ManifestLeaf
  | NamespaceRoot
  | ExactIndexRunSet
  | ManifestInnerNode
  | NamespaceShard
  | Unknown (kind : Z).

Inductive MetadataFormatError :=
  | InvalidObjectLength (n : Z)
  | InvalidMagic
  | HeaderChecksumMismatch
  | PayloadChecksumMismatch
  | ObjectIdMismatch
  | ZeroObjectId
  | UnsupportedOrReservedField
  | NonZeroPadding
  | InvalidPayload
  | InvalidExtent
  | InvalidPartition
  | ArithmeticOverflow.

(** [MetadataObjectId]: 32 bytes, not all zero. *)
Definition MetadataObjectId := bytes.
Definition MetadataObjectId_new (b : bytes) : option MetadataObjectId :=
  if bool_decide (b = zeros 32) then None else Some b.

Record DecodedMetadataObject := {
  object_id : MetadataObjectId;
  object_kind : Z;
  object_payload : bytes;
}.

(** [fn align_up]; [!mask] of a 64-bit mask agrees with [Z.lnot] on a sum that
    [checked_add] let through. *)
Definition align_up (value alignment : Z) : outcome MetadataFormatError Z :=
  mask ← ok_or (checked_sub alignment 1) ArithmeticOverflow;
  candidate ← ok_or (checked_add usize_max value mask) ArithmeticOverflow;
  Ok (Z.land candidate (Z.lnot mask)).

(** [fn calculate_object_id] *)
Definition calculate_object_id `{Blake3} (object_kind payload_length : Z) (payload : bytes)
    : outcome MetadataFormatError MetadataObjectId :=
  let hasher := Hasher.new in
  let hasher := Hasher.update hasher OBJECT_ID_DOMAIN in
  let hasher := Hasher.update hasher (le_bytes 2 object_kind) in
  let hasher := Hasher.update hasher (le_bytes 8 payload_length) in
  let hasher := Hasher.update hasher payload in
  ok_or (MetadataObjectId_new (Hasher.finalize hasher)) ZeroObjectId.

(** [fn encode_metadata_object] *)
Definition encode_metadata_object `{Crc32c, Blake3} (object_kind : Z) (payload : bytes)
    : outcome MetadataFormatError bytes :=
  payload_length ← ok_or (try_from_u u64_max (blen payload)) ArithmeticOverflow;
  unaligned_length ←
    ok_or (checked_add usize_max METADATA_HEADER_BYTES (blen payload)) ArithmeticOverflow;
  file_length ← align_up unaligned_length OBJECT_ALIGNMENT;
  reject_if (MAX_METADATA_OBJECT_BYTES <? file_length) (InvalidObjectLength file_length);;
  object_id ← calculate_object_id object_kind payload_length payload;
  let b := zeros file_length in
  b ← put b 0 METADATA_MAGIC;
  b ← put_u16 b 8 FORMAT_VERSION;
  b ← put_u16 b 10 4096;
  b ← put_u16 b 12 object_kind;
  b ← put_u16 b 14 BLAKE3_256_ALGORITHM;
  b ← put_u64 b 32 payload_length;
  b ← put_u64 b 40 file_length;
  b ← put b 48 object_id;
  b ← put_u32 b PAYLOAD_CRC_OFFSET (crc32c payload);
  header ← index_range b 0 METADATA_HEADER_BYTES;
  header_checksum ← crc32c_with_zeroed_u32 header HEADER_CRC_OFFSET;
  b ← put_u32 b HEADER_CRC_OFFSET header_checksum;
  put b METADATA_HEADER_BYTES payload.

(** [fn decode_metadata_object] *)
Definition decode_metadata_object `{Crc32c, Blake3} (expected_kind : option Z) (b : bytes)
    : outcome MetadataFormatError DecodedMetadataObject :=
  reject_if ((blen b <? METADATA_HEADER_BYTES) || (MAX_METADATA_OBJECT_BYTES <? blen b)
             || negb (blen b `mod` OBJECT_ALIGNMENT =? 0)) (InvalidObjectLength (blen b));;
  header ← index_range b 0 METADATA_HEADER_BYTES;
  bad_magic ← range_differs header 0 8 METADATA_MAGIC;
  reject_if bad_magic InvalidMagic;;
  stored_header_checksum ← get_u32 header HEADER_CRC_OFFSET;
  bad_checksum ← differs (crc32c_with_zeroed_u32 header HEADER_CRC_OFFSET) stored_header_checksum;
  reject_if bad_checksum HeaderChecksumMismatch;;
  object_kind ← get_u16 header 12;
  unsupported ←
    differs (get_u16 header 8) FORMAT_VERSION
    ||? differs (get_u16 header 10) METADATA_HEADER_BYTES
    ||? differs (get_u16 header 14) BLAKE3_256_ALGORITHM
    ||? differs (get_u64 header 16) 0
    ||? differs (get_u64 header 24) 0
    ||? Ok (match expected_kind with Some k => negb (k =? object_kind) | None => false end)
    ||? range_any_nonzero header 88 (blen header);
  reject_if unsupported UnsupportedOrReservedField;;
  payload_length ← get_u64 header 32;
  payload_end ←
    ok_or (checked_add usize_max METADATA_HEADER_BYTES payload_length) ArithmeticOverflow;
  bad_length ←
    Ok (blen b <? payload_end)
    ||? differs (get_u64 header 40) (blen b)
    ||? differs (align_up payload_end OBJECT_ALIGNMENT) (blen b);
  reject_if bad_length (InvalidObjectLength (blen b));;
  bad_padding ← range_any_nonzero b payload_end (blen b);
  reject_if bad_padding NonZeroPadding;;
  payload ← index_range b METADATA_HEADER_BYTES payload_end;
  stored_payload_checksum ← get_u32 header PAYLOAD_CRC_OFFSET;
  reject_if (negb (crc32c payload =? stored_payload_checksum)) PayloadChecksumMismatch;;
  stored_id ← index_range header 48 80;
  stored_id ← ok_or (MetadataObjectId_new stored_id) ZeroObjectId;
  payload_len ← ok_or (try_from_u u64_max (blen payload)) ArithmeticOverflow;
  computed_id ← calculate_object_id object_kind payload_len payload;
  reject_if (negb (bool_decide (stored_id = computed_id))) ObjectIdMismatch;;
  Ok {| object_id := stored_id; object_kind := object_kind; object_payload := payload |}.

(** [fn metadata_object_kind] *)
Definition metadata_object_kind `{Crc32c, Blake3} (b : bytes)
    : outcome MetadataFormatError MetadataObjectKind :=
  object ← decode_metadata_object None b;
  let k := object.(object_kind) in
  Ok (if k =? MANIFEST_LEAF_KIND then ManifestLeaf
      else if k =? NAMESPACE_ROOT_KIND then NamespaceRoot
      else if k =? EXACT_INDEX_RUN_SET_KIND then ExactIndexRunSet
      else if k =? MANIFEST_INNER_KIND then ManifestInnerNode
      else if k =? NAMESPACE_SHARD_KIND then NamespaceShard
      else Unknown k).

(** [MetadataObjectId::from_encoded] *)
Definition from_encoded `{Crc32c, Blake3} (b : bytes) : outcome MetadataFormatError MetadataObjectId :=
  object_id <$> decode_metadata_object None b.

(** The header's writes for a payload in a file of the given length. *)
Definition header_fields `{Crc32c} (kind file_length : Z) (id payload : bytes) : list field := [
  Field 0 8 METADATA_MAGIC;
  Field 8 2 (le_bytes 2 FORMAT_VERSION);
  Field 10 2 (le_bytes 2 4096);
  Field 12 2 (le_bytes 2 kind);
  Field 14 2 (le_bytes 2 BLAKE3_256_ALGORITHM);
  Field 32 8 (le_bytes 8 (blen payload));
  Field 40 8 (le_bytes 8 file_length);
  Field 48 32 id;
  Field 80 4 (le_bytes 4 (crc32c payload)) ].

(** The aligned file length of a payload. *)
Definition file_length_of (payload_length : Z) : Z :=
  (METADATA_HEADER_BYTES + payload_length + 4095) `div` 4096 * 4096.

(** The envelope as one expression: sealed header, payload, padding. *)
Definition envelope `{Crc32c} (kind : Z) (id payload : bytes) : bytes :=
  let n := file_length_of (blen payload) in
  seal METADATA_HEADER_BYTES (header_fields kind n id payload) HEADER_CRC_OFFSET
  ++ payload ++ zeros (n - METADATA_HEADER_BYTES - blen payload).

Lemma align_up_4096 v :
  0 ≤ v → v + 4095 ≤ usize_max → align_up v 4096 = Ok ((v + 4095) `div` 4096 * 4096).
Proof.
  intros. unfold align_up. simpl. rewrite checked_add_ok by done. simpl. f_equal.
  change (Z.land (v + 4095) (Z.lnot (Z.ones 12)) = (v + 4095) `div` 4096 * 4096).
  rewrite <-Z.ldiff_land, Z.ldiff_ones_r by lia.
  rewrite Z.shiftl_mul_pow2, Z.shiftr_div_pow2 by lia. done.
Qed.

Lemma align_up_4096_overflow v :
  usize_max < v + 4095 → align_up v 4096 = Err ArithmeticOverflow.
Proof.
  intros. unfold align_up. simpl. unfold checked_add.
  by rewrite (proj2 (Z.leb_gt _ _)) by lia.
Qed.

Lemma file_length_of_bounds n :
  0 ≤ n → METADATA_HEADER_BYTES + n ≤ file_length_of n < METADATA_HEADER_BYTES + n + 4096 ∧
  file_length_of n `mod` 4096 = 0.
Proof.
  intros. unfold file_length_of, METADATA_HEADER_BYTES.
  pose proof (Z.div_mod (4096 + n + 4095) 4096 ltac:(lia)).
  pose proof (Z.mod_pos_bound (4096 + n + 4095) 4096 ltac:(lia)).
  split; [lia|]. apply Z.mod_mul. lia.
Qed.

Section Facts.
Context `{Crc32cLaws, Blake3Laws}.

Lemma calculate_object_id_Ok kind len p id :
  calculate_object_id kind len p = Ok id → blen id = 32 ∧ id ≠ zeros 32.
Proof.
  unfold calculate_object_id, MetadataObjectId_new. intros. inv_ok.
  case_bool_decide; simplify_eq. split; [apply blake3_hash_blen|done].
Qed.

Lemma header_fits kind n id p :
  blen id = 32 → Forall (fits 4096) (header_fields kind n id p).
Proof. intros. unfold header_fields. solve_fits. Qed.

Lemma blen_envelope kind id p : blen id = 32 → blen (envelope kind id p) = file_length_of (blen p).
Proof.
  intros. unfold envelope. pose proof (blen_nonneg p).
  pose proof (file_length_of_bounds (blen p) ltac:(lia)) as [??].
  unfold METADATA_HEADER_BYTES, HEADER_CRC_OFFSET in *.
  rewrite !blen_app, blen_seal, blen_zeros; try lia; try done. by apply header_fits.
Qed.

Lemma encode_envelope kind p b :
  encode_metadata_object kind p = Ok b ↔
  ∃ id, file_length_of (blen p) ≤ MAX_METADATA_OBJECT_BYTES ∧
    calculate_object_id kind (blen p) p = Ok id ∧ b = envelope kind id p.
Proof.
  pose proof (blen_nonneg p) as Hp.
  pose proof (file_length_of_bounds (blen p) Hp) as [Hfl Hmod].
  assert (Hrun : ∀ id, calculate_object_id kind (blen p) p = Ok id →
    file_length_of (blen p) ≤ MAX_METADATA_OBJECT_BYTES →
    encode_metadata_object kind p = Ok (envelope kind id p)).
  { intros id Hid Hmax. destruct (calculate_object_id_Ok _ _ _ _ Hid) as [Hlen _].
    unfold encode_metadata_object, METADATA_HEADER_BYTES, MAX_METADATA_OBJECT_BYTES in *.
    rewrite try_from_u_ok by (unfold u64_max; lia). osimpl.
    rewrite checked_add_ok by (unfold usize_max, u64_max; lia). osimpl.
    unfold OBJECT_ALIGNMENT. rewrite align_up_4096 by (unfold usize_max, u64_max; lia). osimpl.
    change ((4096 + blen p + 4095) `div` 4096 * 4096) with (file_length_of (blen p)).
    rewrite (proj2 (Z.ltb_ge _ _)) by lia. osimpl. rewrite Hid. osimpl.
    set (n := file_length_of (blen p)) in *.
    pose proof (header_fits kind n id p Hlen) as Hfits.
    match goal with |- ?run = _ =>
      change run with (puts_then (zeros n) (header_fields kind n id p) (λ b,
        header ← index_range b 0 4096;
        header_checksum ← crc32c_with_zeroed_u32 header 84;
        b ← put_u32 b 84 header_checksum;
        put b 4096 p : outcome MetadataFormatError bytes)) end.
    rewrite (puts_then_in n); [|apply blen_zeros; lia|apply (fits_mono 4096); [lia|done]].
    replace (zeros n) with (zeros 4096 ++ zeros (n - 4096)).
    2: { rewrite <-zeros_app by lia. f_equal. lia. }
    rewrite (render_on_app 4096); [|by apply blen_zeros|done].
    fold (render 4096 (header_fields kind n id p)).
    set (pre := render 4096 (header_fields kind n id p)).
    assert (Hpre : blen pre = 4096) by (by apply blen_render).
    cbv beta. rewrite index_range_in by blia. osimpl.
    rewrite Z.sub_0_r, sub_app_eq_l by done.
    rewrite crc32c_with_zeroed_u32_in; [|blia|blia|done]. osimpl.
    replace (splice pre 84 (zeros 4)) with pre.
    2: { rewrite <-(sub_render 4096 (header_fields kind n id p) 84 4 (zeros 4)) by done.
         symmetry. apply splice_sub; lia. }
    unfold put_u32. rewrite put_in by blia. osimpl.
    rewrite splice_app_l by blia.
    change (splice pre 84 (le_bytes 4 (crc32c pre)))
      with (seal 4096 (header_fields kind n id p) 84).
    set (h := seal 4096 (header_fields kind n id p) 84).
    assert (Hh : blen h = 4096) by (by apply blen_seal).
    rewrite put_in by blia.
    replace (splice (h ++ zeros (n - 4096)) 4096 p)
      with (splice (h ++ zeros (n - 4096)) (blen h) p) by (by rewrite Hh).
    rewrite splice_app_r by blia. f_equal. unfold envelope. fold n h. f_equal. f_equal.
    rewrite blen_zeros by lia. rewrite sub_zeros by lia. done. }
  split.
  - intros Henc. pose proof Henc as Henc'. unfold encode_metadata_object in Henc. inv_ok. subst.
    unfold OBJECT_ALIGNMENT in *.
    match goal with Ha : align_up ?v 4096 = Ok _ |- _ =>
      destruct (Z_le_gt_dec (v + 4095) usize_max);
      [rewrite align_up_4096 in Ha by (unfold METADATA_HEADER_BYTES in *; lia)
      |by rewrite align_up_4096_overflow in Ha by lia] end.
    inv_ok. subst. zbool.
    eexists. split_and!; [done..|].
    rewrite (Hrun _ ltac:(eassumption)) in Henc' by done. congruence.
  - intros (id&?&?&->). by apply Hrun.
Qed.

(** A decoded object is the envelope of its own kind and payload. *)
Lemma decode_metadata_inv ek b o :
  decode_metadata_object ek b = Ok o →
  (∀ k, ek = Some k → k = o.(object_kind)) ∧ is_u16 o.(object_kind) ∧
  calculate_object_id o.(object_kind) (blen o.(object_payload)) o.(object_payload)
    = Ok o.(object_id) ∧
  encode_metadata_object o.(object_kind) o.(object_payload) = Ok b.
Proof.
  intros Hd. unfold decode_metadata_object, METADATA_HEADER_BYTES, HEADER_CRC_OFFSET,
    PAYLOAD_CRC_OFFSET, OBJECT_ALIGNMENT, MAX_METADATA_OBJECT_BYTES in Hd.
  unfold MetadataObjectId_new in Hd. inv_run. case_bool_decide; [done|]. inv_run.
  inv_reads. subst.
  remember (sub b 0 (4096 - 0)) as h eqn:Hh.
  assert (Hhl : blen h = 4096) by (subst h; apply blen_sub; lia). rewrite Hhl in *.
  match goal with Hx : 4096 + ?x ≤ blen b |- _ => rename x into pl end.
  replace (4096 + pl - 4096) with pl in * by lia.
  assert (Hpl : blen (sub b 4096 pl) = pl) by (apply blen_sub; lia). rewrite Hpl in *.
  remember (sub b 4096 pl) as p eqn:Hp.
  match goal with Ha : align_up _ _ = Ok _ |- _ =>
    rewrite align_up_4096 in Ha by (unfold usize_max, u64_max; lia); apply Ok_inj in Ha;
    rename Ha into Hfl end.
  change (file_length_of pl = blen b) in Hfl.
  match goal with Hid : calculate_object_id _ _ _ = Ok _ |- _ =>
    pose proof (calculate_object_id_Ok _ _ _ _ Hid) as [Hidl Hid0] end.
  simpl object_kind. simpl object_payload. simpl object_id. rewrite Hpl.
  split_and!; [|done|done|].
  { intros k ->. by zbool. }
  apply encode_envelope. rewrite Hpl. eexists. split_and!; [|done|].
  { unfold MAX_METADATA_OBJECT_BYTES. lia. }
  unfold envelope. rewrite Hpl, Hfl. unfold METADATA_HEADER_BYTES, HEADER_CRC_OFFSET.
  rewrite <-(sub_all b (4096 + (pl + (blen b - 4096 - pl)))) at 1 by lia.
  rewrite !sub_split by lia. f_equal; [|f_equal; [done|]].
  - change (sub b 0 4096) with (sub b 0 (4096 - 0)). rewrite <-Hh.
    eapply (seal_unique 4096 _ 84) with (ns := [8;2;2;2;2;8;8;8;8;32;4;4;4008]).
    all: first [done | by apply header_fits | unfold header_fields; rewrite ?Hpl; seal_parts].
  - replace (0 + 4096 + pl) with (4096 + pl) by lia.
    by replace (blen b - 4096 - pl) with (blen b - (4096 + pl)) by lia.
Qed.

(** Decoding what [encode_metadata_object] wrote. *)
Lemma decode_metadata_encode ek kind p b :
  is_u16 kind → (∀ k, ek = Some k → k = kind) → encode_metadata_object kind p = Ok b →
  ∃ id, calculate_object_id kind (blen p) p = Ok id ∧
    decode_metadata_object ek b =
      Ok {| object_id := id; object_kind := kind; object_payload := p |}.
Proof.
  intros Hk Hek (id&Hmax&Hid&Hb)%encode_envelope. exists id. split; [done|].
  destruct (calculate_object_id_Ok _ _ _ _ Hid) as [Hidl Hid0].
  pose proof (blen_envelope kind id p Hidl) as Hbl. rewrite <-Hb in Hbl.
  pose proof (blen_nonneg p) as Hp.
  destruct (file_length_of_bounds (blen p) Hp) as [Hfl Hmod].
  unfold envelope in Hb.
  set (n := file_length_of (blen p)) in *.
  set (h := seal METADATA_HEADER_BYTES (header_fields kind n id p) HEADER_CRC_OFFSET) in *.
  unfold METADATA_HEADER_BYTES, HEADER_CRC_OFFSET, MAX_METADATA_OBJECT_BYTES in *.
  destruct (seal_facts (E:=MetadataFormatError) 4096 (header_fields kind n id p) 84
    ltac:(lia) ltac:(lia) ltac:(done) (header_fits kind n id p Hidl) ltac:(reflexivity) h eq_refl)
    as (Hl&Hcrc&Hstored&Hsub). clearbody h.
  unfold decode_metadata_object, METADATA_HEADER_BYTES, HEADER_CRC_OFFSET, PAYLOAD_CRC_OFFSET,
    MAX_METADATA_OBJECT_BYTES, OBJECT_ALIGNMENT.
  rewrite Hbl, Hmod, (proj2 (Z.ltb_ge _ _)), (proj2 (Z.ltb_ge _ _)) by lia. osimpl.
  rewrite index_range_in by lia. osimpl.
  replace (sub b 0 (4096 - 0)) with h by (rewrite Hb; by rewrite sub_app_eq_l).
  rewrite Hcrc, Hstored, Hl. osimpl.
  pose proof (crc32c_range p). assert (is_u64 (blen p)) by (unfold in_u, u64_max; lia).
  assert (is_u64 n) by (unfold in_u, u64_max; lia).
  eval_reads h Hl. osimpl. eval_sub h Hsub. eval_ints. osimpl.
  replace (match ek with Some k => negb (k =? kind) | None => false end) with false.
  2: { destruct ek as [k|]; [|done]. rewrite (Hek k eq_refl). by rewrite Z.eqb_refl. }
  osimpl. eval_ints. osimpl. clear Hsub Hcrc Hstored.
  rewrite checked_add_ok by (unfold usize_max, u64_max; lia). osimpl.
  rewrite (proj2 (Z.ltb_ge _ _)) by lia.
  rewrite align_up_4096 by (unfold usize_max, u64_max; lia). osimpl.
  change ((4096 + blen p + 4095) `div` 4096 * 4096) with n. osimpl.
  rewrite range_any_nonzero_in, index_range_in by lia.
  replace (sub b 4096 (4096 + blen p - 4096)) with p.
  2: { rewrite Hb, <-Hl, sub_app_r, Z.sub_diag by lia. rewrite sub_app_eq_l; [done|lia]. }
  replace (sub b (4096 + blen p) (n - (4096 + blen p))) with (zeros (n - 4096 - blen p)).
  2: { rewrite Hb, sub_app_r, sub_app_r by lia.
       replace (4096 + blen p - blen h - blen p) with 0 by lia.
       rewrite sub_all; [done|]. rewrite blen_zeros; lia. }
  rewrite any_nonzero_zeros. osimpl. osimpl.
  unfold MetadataObjectId_new. rewrite bool_decide_false by done. osimpl.
  rewrite try_from_u_ok by (unfold u64_max; lia). osimpl. rewrite Hid. osimpl.
  by rewrite bool_decide_true.
Qed.

Lemma decode_metadata_no_panic ek b : no_panic (decode_metadata_object ek b).
Proof.
  unfold decode_metadata_object, METADATA_HEADER_BYTES, HEADER_CRC_OFFSET, PAYLOAD_CRC_OFFSET.
  apply no_panic_bind; [apply no_panic_reject_if|]. intros ? Hl. inv_run.
  apply no_panic_bind; [apply no_panic_index_range; lia|]. intros h Hh. inv_reads. subst h.
  assert (Hh : blen (sub b 0 (4096 - 0)) = 4096) by (apply blen_sub; lia). rewrite Hh.
  no_panic_reads.
  - unfold align_up. no_panic_reads.
  - inv_run. inv_reads. apply no_panic_range_any_nonzero; unfold in_u in *; lia.
  - inv_run. inv_reads. apply no_panic_index_range; unfold in_u in *; lia.
  - apply no_panic_ok_or.
Qed.
End Facts.

(** ** Properties *)

(** C30: The envelope decoder accepts exactly the encoder's output: bytes decode
    to an object iff the object's kind is 16 bits wide (and the expected one,
    if one is expected), its identity is the domain-separated hash of its kind,
    length and payload, and the bytes are the encoding of that kind and
    payload.  A flipped byte anywhere in header, payload or padding therefore
    decodes to a different object or to none.  Decoding never panics. *)
Theorem metadata_decode_iff `{Crc32cLaws, Blake3Laws} ek (b : bytes) :
  no_panic (decode_metadata_object ek b) ∧
  ∀ o, decode_metadata_object ek b = Ok o ↔
  (∀ k, ek = Some k → k = o.(object_kind)) ∧ is_u16 o.(object_kind) ∧
  calculate_object_id o.(object_kind) (blen o.(object_payload)) o.(object_payload)
    = Ok o.(object_id) ∧
  encode_metadata_object o.(object_kind) o.(object_payload) = Ok b.
Proof.
  split; [apply decode_metadata_no_panic|]. intros o. split; [apply decode_metadata_inv|]. intros (Hek&Hk&Hid&Henc).
  destruct (decode_metadata_encode ek _ _ _ Hk Hek Henc) as (id&Hid'&->).
  rewrite Hid in Hid'. simplify_eq. by destruct o.
Qed.

(** An encoded object is a whole number of 4096-byte blocks, at least one,
    and within the 16 MiB bound; the encoder succeeds exactly when the aligned
    length fits and the content hash is non-zero. *)
Theorem metadata_encode_bounds `{Crc32cLaws, Blake3Laws} kind (p : bytes) :
  (∀ b, encode_metadata_object kind p = Ok b →
     METADATA_HEADER_BYTES + blen p ≤ blen b ≤ MAX_METADATA_OBJECT_BYTES ∧
     blen b `mod` OBJECT_ALIGNMENT = 0 ∧ blen b < METADATA_HEADER_BYTES + blen p + OBJECT_ALIGNMENT) ∧
  ((∃ b, encode_metadata_object kind p = Ok b) ↔
   file_length_of (blen p) ≤ MAX_METADATA_OBJECT_BYTES ∧
   ∃ id, calculate_object_id kind (blen p) p = Ok id).
Proof.
  pose proof (file_length_of_bounds (blen p) (blen_nonneg p)) as [? ?]. split.
  - intros b (id&?&Hid&->)%encode_envelope.
    destruct (calculate_object_id_Ok _ _ _ _ Hid). rewrite blen_envelope by done.
    unfold METADATA_HEADER_BYTES, OBJECT_ALIGNMENT in *. lia.
  - split.
    + intros [b (id&?&?&_)%encode_envelope]. eauto.
    + intros [? [id ?]]. eexists. apply encode_envelope. eauto.
Qed.

Section Witnesses.
#[local] Existing Instances Crc32cBitwise.ops Crc32cBitwise.laws MixHash.ops MixHash.laws.

Lemma metadata_decode_iff_witness :
  ∃ b o, decode_metadata_object (Some NAMESPACE_ROOT_KIND) b = Ok o ∧
    o.(object_payload) = [x01; x02; x03].
Proof.
  destruct (encode_metadata_object NAMESPACE_ROOT_KIND [x01; x02; x03]) as [b| |] eqn:Henc;
    [|exfalso; vm_compute in Henc; discriminate..].
  destruct (calculate_object_id NAMESPACE_ROOT_KIND 3 [x01; x02; x03]) as [id| |] eqn:Hid;
    [|exfalso; vm_compute in Hid; discriminate..].
  exists b, {| object_id := id; object_kind := 2; object_payload := [x01; x02; x03] |}.
  split; [|reflexivity].
  apply metadata_decode_iff. split_and!.
  - intros k [= <-]. reflexivity.
  - vm_compute. intuition discriminate.
  - exact Hid.
  - exact Henc.
Defined.

Lemma metadata_encode_bounds_witness :
  ∃ b, encode_metadata_object NAMESPACE_SHARD_KIND (zeros 10) = Ok b.
Proof.
  apply (metadata_encode_bounds NAMESPACE_SHARD_KIND (zeros 10)). split.
  - vm_compute. discriminate.
  - eexists. vm_compute. reflexivity.
Defined.

(** The model runs: a wrong expected kind is refused, a truncated object too. *)
Example metadata_kind_mismatch :
  (b ← encode_metadata_object NAMESPACE_ROOT_KIND [x07];
   decode_metadata_object (Some MANIFEST_LEAF_KIND) b) = Err UnsupportedOrReservedField.
Proof. vm_compute. reflexivity. Qed.
Example metadata_kind_of :
  (b ← encode_metadata_object MANIFEST_INNER_KIND [x07]; metadata_object_kind b)
  = Ok ManifestInnerNode.
Proof. vm_compute. reflexivity. Qed.
End Witnesses.
End Metadata.
