(* ===== verification/Commit.v ===== *)
(** * Commit Records ([fastdup-format/src/commit.rs])

    One 4096-byte record of the namespace commit chain: its constructor's
    checks, its encoder and its decoder.  The decoder accepts exactly the
    encodings of well-formed records, and never panics. *)
From S2P Require Import Layout Metadata.

Module Commit.

Definition COMMIT_RECORD_BYTES : Z := 4096.
(** [b"FDCMIT01"] *)
Definition COMMIT_MAGIC : bytes := map byte_of_Z [70; 68; 67; 77; 73; 84; 48; 49].
Definition EPOCH_FORMAT_VERSION : Z := 2.
Definition CURRENT_REPOSITORY_FORMAT_EPOCH : Z := 3.
Definition RECORD_TYPE_NAMESPACE : Z := 1.
Definition HEADER_BYTES : Z := 176.
Definition BLAKE3_256_ALGORITHM : Z := 1.
Definition CRC32C_ALGORITHM : Z := 1.
Definition CHECKSUM_OFFSET : Z := 168.

(** The 32-byte identities; [CommitRecordHash] allows zero, [PolicySetId] does not. *)
Definition CommitRecordHash := bytes.
Definition CommitRecordHash_ZERO : CommitRecordHash := zeros 32.
Definition CommitRecordHash_of `{Blake3} (encoded_record : bytes) : CommitRecordHash :=
  blake3_hash encoded_record.
Definition PolicySetId := bytes.
Definition PolicySetId_new (b : bytes) : option PolicySetId :=
  if bool_decide (b = zeros 32) then None else Some b.

Record CommitRecord := {
  generation : Z;
  previous_record_hash : CommitRecordHash;
  namespace_root : Metadata.MetadataObjectId;
  policy_set : PolicySetId;
  namespace_mutation_cutoff : Z;
  inode_reservation_end : Z;
  inode_allocation_cursor : Z;
  format_epoch : Z;
}.
#[export] Instance CommitRecord_eq_dec : EqDecision CommitRecord.
Proof. solve_decision. Defined.

Inductive CommitFormatError :=
  | InvalidLength (n : Z)
  | InvalidMagic
  | ChecksumMismatch
  | UnsupportedOrReservedField
  | InvalidChainStart
  | InvalidNamespaceRoot
  | InvalidPolicySet
  | InvalidInodeReservation
  | InvalidInodeAllocationCursor.

(** [CommitRecord::new_decoded] *)
Definition new_decoded (generation : Z) (previous_record_hash : CommitRecordHash)
    (namespace_root : Metadata.MetadataObjectId) (policy_set : PolicySetId)
    (namespace_mutation_cutoff inode_reservation_end inode_allocation_cursor format_epoch : Z)
    : outcome CommitFormatError CommitRecord :=
  if (generation =? 0) ||
     negb (eqb (generation =? 1) (bool_decide (previous_record_hash = CommitRecordHash_ZERO)))
  then Err InvalidChainStart
  else if inode_reservation_end <? 2 then Err InvalidInodeReservation
  else if (inode_allocation_cursor <? 2) || (inode_reservation_end <? inode_allocation_cursor)
  then Err InvalidInodeAllocationCursor
  else Ok {|
    generation := generation;
    previous_record_hash := previous_record_hash;
    namespace_root := namespace_root;
    policy_set := policy_set;
    namespace_mutation_cutoff := namespace_mutation_cutoff;
    inode_reservation_end := inode_reservation_end;
    inode_allocation_cursor := inode_allocation_cursor;
    format_epoch := format_epoch |}.

(** [CommitRecord::new] *)
Definition new (generation : Z) (previous_record_hash : CommitRecordHash)
    (namespace_root : Metadata.MetadataObjectId) (policy_set : PolicySetId)
    (namespace_mutation_cutoff inode_reservation_end inode_allocation_cursor : Z)
    : outcome CommitFormatError CommitRecord :=
  new_decoded generation previous_record_hash namespace_root policy_set
    namespace_mutation_cutoff inode_reservation_end inode_allocation_cursor
    CURRENT_REPOSITORY_FORMAT_EPOCH.

(** [CommitRecord::encode] *)
Definition encode {E} `{Crc32c} (r : CommitRecord) : outcome E bytes :=
  let b := zeros COMMIT_RECORD_BYTES in
  b ← put b 0 COMMIT_MAGIC;
  b ← put_u16 b 8 EPOCH_FORMAT_VERSION;
  b ← put_u16 b 10 RECORD_TYPE_NAMESPACE;
  b ← put_u16 b 12 HEADER_BYTES;
  b ← put_u16 b 14 BLAKE3_256_ALGORITHM;
  b ← put_u32 b 16 COMMIT_RECORD_BYTES;
  b ← put_u16 b 20 CRC32C_ALGORITHM;
  b ← put_u16 b 22 r.(format_epoch);
  b ← put_u64 b 40 r.(generation);
  b ← put b 48 r.(previous_record_hash);
  b ← put b 80 r.(namespace_root);
  b ← put b 112 r.(policy_set);
  b ← put_u64 b 144 r.(namespace_mutation_cutoff);
  b ← put_u64 b 152 r.(inode_reservation_end);
  b ← put_u64 b 160 r.(inode_allocation_cursor);
  let checksum := crc32c b in
  put_u32 b CHECKSUM_OFFSET checksum.

(** [CommitRecord::decode] *)
Definition decode `{Crc32c} (b : bytes) : outcome CommitFormatError CommitRecord :=
  reject_if (negb (blen b =? COMMIT_RECORD_BYTES)) (InvalidLength (blen b));;
  bad_magic ← range_differs b 0 8 COMMIT_MAGIC;
  reject_if bad_magic InvalidMagic;;
  stored_checksum ← get_u32 b CHECKSUM_OFFSET;
  bad_checksum ← differs (crc32c_with_zeroed_u32 b CHECKSUM_OFFSET) stored_checksum;
  reject_if bad_checksum ChecksumMismatch;;
  format_version ← get_u16 b 8;
  format_epoch ← get_u16 b 22;
  unsupported ←
    Ok (negb (format_version =? EPOCH_FORMAT_VERSION))
    ||? Ok (negb (format_epoch =? CURRENT_REPOSITORY_FORMAT_EPOCH))
    ||? differs (get_u16 b 10) RECORD_TYPE_NAMESPACE
    ||? differs (get_u16 b 12) HEADER_BYTES
    ||? differs (get_u16 b 14) BLAKE3_256_ALGORITHM
    ||? differs (get_u32 b 16) COMMIT_RECORD_BYTES
    ||? differs (get_u16 b 20) CRC32C_ALGORITHM
    ||? differs (get_u64 b 24) 0
    ||? differs (get_u64 b 32) 0
    ||? range_any_nonzero b 172 (blen b);
  reject_if unsupported UnsupportedOrReservedField;;
  previous_hash ← index_range b 48 80;
  namespace_root ← index_range b 80 112;
  namespace_root ← ok_or (Metadata.MetadataObjectId_new namespace_root) InvalidNamespaceRoot;
  policy_set ← index_range b 112 144;
  policy_set ← ok_or (PolicySetId_new policy_set) InvalidPolicySet;
  generation ← get_u64 b 40;
  cutoff ← get_u64 b 144;
  reservation_end ← get_u64 b 152;
  cursor ← get_u64 b 160;
  new_decoded generation previous_hash namespace_root policy_set cutoff
    reservation_end cursor format_epoch.

(** ** The type invariant of a record *)
Record wf (r : CommitRecord) : Prop := {
  wf_generation : 1 ≤ r.(generation) ≤ u64_max;
  wf_hash : blen r.(previous_record_hash) = 32;
  wf_chain_start : r.(generation) = 1 ↔ r.(previous_record_hash) = CommitRecordHash_ZERO;
  wf_root : blen r.(namespace_root) = 32 ∧ r.(namespace_root) ≠ zeros 32;
  wf_policy : blen r.(policy_set) = 32 ∧ r.(policy_set) ≠ zeros 32;
  wf_cutoff : is_u64 r.(namespace_mutation_cutoff);
  wf_cursor : 2 ≤ r.(inode_allocation_cursor) ≤ r.(inode_reservation_end);
  wf_reservation : is_u64 r.(inode_reservation_end);
  wf_epoch : r.(format_epoch) = CURRENT_REPOSITORY_FORMAT_EPOCH;
}.

(** The record's writes; the checksum field stays zero. *)
Definition fields (r : CommitRecord) : list field := [
  Field 0 8 COMMIT_MAGIC;
  Field 8 2 (le_bytes 2 EPOCH_FORMAT_VERSION);
  Field 10 2 (le_bytes 2 RECORD_TYPE_NAMESPACE);
  Field 12 2 (le_bytes 2 HEADER_BYTES);
  Field 14 2 (le_bytes 2 BLAKE3_256_ALGORITHM);
  Field 16 4 (le_bytes 4 COMMIT_RECORD_BYTES);
  Field 20 2 (le_bytes 2 CRC32C_ALGORITHM);
  Field 22 2 (le_bytes 2 r.(format_epoch));
  Field 40 8 (le_bytes 8 r.(generation));
  Field 48 32 r.(previous_record_hash);
  Field 80 32 r.(namespace_root);
  Field 112 32 r.(policy_set);
  Field 144 8 (le_bytes 8 r.(namespace_mutation_cutoff));
  Field 152 8 (le_bytes 8 r.(inode_reservation_end));
  Field 160 8 (le_bytes 8 r.(inode_allocation_cursor)) ].

Section Facts.
Context `{Crc32cLaws}.

Lemma commit_new_decoded_Ok g h root pol c re cur ep r :
  is_u64 g → is_u64 c → is_u64 re → is_u64 cur → blen h = 32 →
  blen root = 32 → root ≠ zeros 32 → blen pol = 32 → pol ≠ zeros 32 →
  ep = CURRENT_REPOSITORY_FORMAT_EPOCH →
  new_decoded g h root pol c re cur ep = Ok r ↔
  wf r ∧ r = {| generation := g; previous_record_hash := h; namespace_root := root;
                policy_set := pol; namespace_mutation_cutoff := c; inode_reservation_end := re;
                inode_allocation_cursor := cur; format_epoch := ep |}.
Proof.
  unfold in_u. intros. unfold new_decoded. split.
  - repeat case_match; intros; inv_ok; zbool; try done. subst. split; [|done].
    split; simpl; unfold in_u; try (done || lia).
    destruct (Z.eqb_spec g 1); case_bool_decide; simpl in *; naive_solver lia.
  - intros [Hwf ->]. destruct Hwf as [Hg _ Hc _ _ _ Hcur _ _]. simpl in *.
    rewrite (proj2 (Z.eqb_neq g 0)) by lia.
    replace (eqb (g =? 1) (bool_decide (h = CommitRecordHash_ZERO))) with true.
    2: { symmetry. apply eqb_true_iff. destruct (Z.eqb_spec g 1); case_bool_decide; tauto. }
    simpl. rewrite (proj2 (Z.ltb_ge re 2)), (proj2 (Z.ltb_ge cur 2)) by lia.
    by rewrite (proj2 (Z.ltb_ge re cur)) by lia.
Qed.

Lemma commit_fits r : wf r → Forall (fits COMMIT_RECORD_BYTES) (fields r).
Proof. intros [_ ? _ [? _] [? _] _ _ _ _]. unfold fields, COMMIT_RECORD_BYTES. solve_fits. Qed.

Lemma commit_encode_seal {E} r :
  wf r → @encode E _ r = Ok (seal COMMIT_RECORD_BYTES (fields r) CHECKSUM_OFFSET).
Proof.
  intros Hwf.
  change (@encode E _ r) with (puts_then (zeros COMMIT_RECORD_BYTES) (fields r)
    (λ b, @put_u32 E b CHECKSUM_OFFSET (crc32c b))).
  apply puts_seal; [done..|by apply commit_fits].
Qed.

(** What the encoder writes, the decoder reads back. *)
Lemma commit_decode_encode r b : wf r → @encode CommitFormatError _ r = Ok b → decode b = Ok r.
Proof.
  intros Hwf Hb. rewrite commit_encode_seal in Hb by done. apply Ok_inj in Hb.
  pose proof (commit_fits r Hwf) as Hfits. unfold COMMIT_RECORD_BYTES, CHECKSUM_OFFSET in *.
  destruct (seal_facts (E:=CommitFormatError) 4096 (fields r) 168 ltac:(lia) ltac:(lia)
    ltac:(done) Hfits ltac:(reflexivity) b (eq_sym Hb)) as (Hl&Hcrc&Hstored&Hsub). clear Hb.
  destruct (Hwf) as [Hg Hh Hc [Hr Hr0] [Hp Hp0] Hcut Hcur Hres Hep]. unfold in_u in *.
  assert (Hep' : is_u16 r.(format_epoch)) by (by rewrite Hep).
  unfold decode. rewrite Hl. unfold CHECKSUM_OFFSET. osimpl. rewrite Hcrc, Hstored. osimpl.
  eval_reads b Hl. osimpl. eval_sub b Hsub. eval_ints. rewrite Hep. osimpl. eval_ints. osimpl.
  unfold Metadata.MetadataObjectId_new, PolicySetId_new. rewrite bool_decide_false by done. osimpl.
  rewrite bool_decide_false by done. osimpl.
  apply commit_new_decoded_Ok; try done; try uint. split; [done|]. destruct r; simpl in *; by subst.
Qed.

(** What the decoder accepts is well formed and is its own encoding. *)
Lemma commit_decode_inv b r : decode b = Ok r → wf r ∧ @encode CommitFormatError _ r = Ok b.
Proof.
  intros Hd. unfold decode, Metadata.MetadataObjectId_new, PolicySetId_new in Hd.
  unfold COMMIT_RECORD_BYTES, CHECKSUM_OFFSET in Hd. inv_ok.
  repeat case_bool_decide; try done. simplify_eq. inv_ok. inv_reads. zbool. subst.
  match goal with Hn : new_decoded _ _ _ _ _ _ _ _ = Ok _ |- _ =>
    apply commit_new_decoded_Ok in Hn as [Hwf Hr] end.
  2-11: first [done | apply blen_sub; lia].
  split; [done|]. rewrite commit_encode_seal by done. f_equal. symmetry.
  unfold COMMIT_RECORD_BYTES, CHECKSUM_OFFSET.
  match goal with Hl : blen b = 4096 |- _ => rewrite Hl in * end.
  eapply (seal_unique 4096 (fields r) 168) with
    (ns := [8;2;2;2;2;4;2;2;8;8;8;32;32;32;8;8;8;4;3924]).
  all: first [done | by apply commit_fits | rewrite Hr; seal_parts].
Qed.

Lemma commit_new_decoded_no_panic g h root pol c re cur ep :
  no_panic (new_decoded g h root pol c re cur ep).
Proof. unfold new_decoded. by repeat case_match. Qed.

Lemma commit_decode_no_panic b : no_panic (decode b).
Proof.
  unfold decode, COMMIT_RECORD_BYTES, CHECKSUM_OFFSET.
  apply no_panic_bind; [apply no_panic_reject_if|]. intros ? Hl. inv_ok. zbool.
  no_panic_reads. apply commit_new_decoded_no_panic.
Qed.

Lemma commit_encode_Ok {E} r : wf r → ∃ b, @encode E _ r = Ok b ∧ blen b = COMMIT_RECORD_BYTES.
Proof.
  intros Hwf. eexists. split; [by apply commit_encode_seal|]. apply blen_seal; try done.
  by apply commit_fits.
Qed.

Lemma commit_encode_inj r r' b :
  wf r → wf r' → @encode CommitFormatError _ r = Ok b → @encode CommitFormatError _ r' = Ok b →
  r = r'.
Proof.
  intros Hr Hr' H1 H2. apply commit_decode_encode in H1; [|done]. apply commit_decode_encode in H2; [|done].
  congruence.
Qed.
End Facts.

(** ** Properties *)

(** The commit-record decoder accepts exactly the encodings of well-formed
    records: a buffer decodes to [r] iff [r] satisfies the constructor's
    invariants and the buffer is byte for byte what [encode] writes for [r].
    So encoding round-trips, and no second buffer (non-zero reserved bytes, a
    different checksum) decodes to the same record.  The decoder never panics,
    whatever the bytes. *)
Theorem commit_decode_iff `{Crc32cLaws} (b : bytes) :
  no_panic (decode b) ∧ ∀ r, decode b = Ok r ↔ wf r ∧ @encode CommitFormatError _ r = Ok b.
Proof.
  split; [apply commit_decode_no_panic|]. intros r.
  split; [apply commit_decode_inv|]. intros [??]. by apply commit_decode_encode.
Qed.

(** A second-generation record. *)
Definition sample : CommitRecord := {|
  generation := 2; previous_record_hash := le_bytes 32 7; namespace_root := le_bytes 32 11;
  policy_set := le_bytes 32 13; namespace_mutation_cutoff := 5;
  inode_reservation_end := 1024; inode_allocation_cursor := 17; format_epoch := 3 |}.
Lemma commit_wf_sample : wf sample.
Proof. split; vm_compute; intuition discriminate. Qed.

Section Witnesses.
#[local] Existing Instances Crc32cBitwise.ops Crc32cBitwise.laws.

Lemma commit_decode_iff_witness : ∃ b, blen b = 4096 ∧ decode b = Ok sample.
Proof.
  destruct (commit_encode_Ok (E:=CommitFormatError) sample commit_wf_sample) as (b&Hb&Hl).
  exists b. split; [exact Hl|].
  apply (commit_decode_iff b). split; [exact commit_wf_sample|exact Hb].
Defined.

(** The model runs: the sample's encoding decodes to the sample. *)
Example commit_decode_sample : (b ← @encode CommitFormatError _ sample; decode b) = Ok sample.
Proof. vm_compute. reflexivity. Qed.
End Witnesses.
End Commit.
