(* ===== verification/HighWater.v ===== *)
(** * Container-generation high-water records
      ([fastdup-format/src/container_generation_high_water.rs])

    The 4096-byte record of one slot of the container generation allocator. *)
From S2P Require Import Layout.

Module HighWater.

Definition CONTAINER_GENERATION_HIGH_WATER_RECORD_BYTES : Z := 4096.
(** [b"FDCGHW01"] *)
Definition MAGIC : bytes := map byte_of_Z [70; 68; 67; 71; 72; 87; 48; 49].
Definition FORMAT_VERSION : Z := 1.
Definition HEADER_BYTES : Z := 128.
Definition RECORD_TYPE : Z := 1.
Definition BLAKE3_256_ALGORITHM : Z := 1.
Definition CRC32C_ALGORITHM : Z := 1.
Definition CHECKSUM_OFFSET : Z := 72.

(** [ContainerGenerationHighWaterHash] *)
Definition Hash := bytes.
Definition Hash_ZERO : Hash := zeros 32.
Definition Hash_of `{Blake3} (b : bytes) : Hash := blake3_hash b.

Record HighWaterRecord := {
  sequence : Z;
  previous_record_hash : Hash;
  reserved_through : Z;
}.
#[export] Instance HighWaterRecord_eq_dec : EqDecision HighWaterRecord.
Proof. solve_decision. Defined.

Inductive HighWaterFormatError :=
  | InvalidLength (n : Z)
  | InvalidMagic
  | ChecksumMismatch
  | UnsupportedOrReservedField
  | InvalidChainStart
  | InvalidHighWater.

(** [ContainerGenerationHighWaterRecord::new] *)
Definition new (sequence : Z) (previous_record_hash : Hash) (reserved_through : Z)
    : outcome HighWaterFormatError HighWaterRecord :=
  if (sequence =? 0) ||
     negb (eqb (sequence =? 1) (bool_decide (previous_record_hash = Hash_ZERO)))
  then Err InvalidChainStart
  else if reserved_through =? 0 then Err InvalidHighWater
  else Ok {| sequence := sequence; previous_record_hash := previous_record_hash;
             reserved_through := reserved_through |}.

(** [ContainerGenerationHighWaterRecord::encode] *)
Definition encode {E} `{Crc32c} (r : HighWaterRecord) : outcome E bytes :=
  let b := zeros CONTAINER_GENERATION_HIGH_WATER_RECORD_BYTES in
  b ← put b 0 MAGIC;
  b ← put_u16 b 8 FORMAT_VERSION;
  b ← put_u16 b 10 HEADER_BYTES;
  b ← put_u16 b 12 RECORD_TYPE;
  b ← put_u16 b 14 BLAKE3_256_ALGORITHM;
  b ← put_u32 b 16 4096;
  b ← put_u16 b 20 CRC32C_ALGORITHM;
  b ← put_u64 b 24 r.(sequence);
  b ← put b 32 r.(previous_record_hash);
  b ← put_u64 b 64 r.(reserved_through);
  let checksum := crc32c b in
  put_u32 b CHECKSUM_OFFSET checksum.

(** [ContainerGenerationHighWaterRecord::decode] *)
Definition decode `{Crc32c} (b : bytes) : outcome HighWaterFormatError HighWaterRecord :=
  reject_if (negb (blen b =? CONTAINER_GENERATION_HIGH_WATER_RECORD_BYTES))
    (InvalidLength (blen b));;
  bad_magic ← range_differs b 0 8 MAGIC;
  reject_if bad_magic InvalidMagic;;
  computed ← crc32c_with_zeroed_u32 b CHECKSUM_OFFSET;
  bad_checksum ← differs (get_u32 b CHECKSUM_OFFSET) computed;
  reject_if bad_checksum ChecksumMismatch;;
  unsupported ←
    differs (get_u16 b 8) FORMAT_VERSION
    ||? differs (get_u16 b 10) HEADER_BYTES
    ||? differs (get_u16 b 12) RECORD_TYPE
    ||? differs (get_u16 b 14) BLAKE3_256_ALGORITHM
    ||? differs (get_u32 b 16) CONTAINER_GENERATION_HIGH_WATER_RECORD_BYTES
    ||? differs (get_u16 b 20) CRC32C_ALGORITHM
    ||? differs (get_u16 b 22) 0
    ||? range_any_nonzero b 76 (blen b);
  reject_if unsupported UnsupportedOrReservedField;;
  previous ← index_range b 32 64;
  sequence ← get_u64 b 24;
  reserved_through ← get_u64 b 64;
  new sequence previous reserved_through.

(** The type invariant, and the record's writes. *)
Record wf (r : HighWaterRecord) : Prop := {
  wf_sequence : 1 ≤ r.(sequence) ≤ u64_max;
  wf_hash : blen r.(previous_record_hash) = 32;
  wf_chain_start : r.(sequence) = 1 ↔ r.(previous_record_hash) = Hash_ZERO;
  wf_reserved : 1 ≤ r.(reserved_through) ≤ u64_max;
}.

Definition fields (r : HighWaterRecord) : list field := [
  Field 0 8 MAGIC;
  Field 8 2 (le_bytes 2 FORMAT_VERSION);
  Field 10 2 (le_bytes 2 HEADER_BYTES);
  Field 12 2 (le_bytes 2 RECORD_TYPE);
  Field 14 2 (le_bytes 2 BLAKE3_256_ALGORITHM);
  Field 16 4 (le_bytes 4 4096);
  Field 20 2 (le_bytes 2 CRC32C_ALGORITHM);
  Field 24 8 (le_bytes 8 r.(sequence));
  Field 32 32 r.(previous_record_hash);
  Field 64 8 (le_bytes 8 r.(reserved_through)) ].

Section Facts.
Context `{Crc32cLaws}.

Lemma high_water_new_Ok s h t r :
  is_u64 s → is_u64 t → blen h = 32 →
  new s h t = Ok r ↔
  wf r ∧ r = {| sequence := s; previous_record_hash := h; reserved_through := t |}.
Proof.
  unfold in_u. intros. unfold new. split.
  - repeat case_match; intros; inv_run. split; [|done]. split; simpl; try (done || lia).
    destruct (Z.eqb_spec s 1); case_bool_decide; simpl in *; naive_solver lia.
  - intros [[? _ Hc ?] ->]. simpl in *.
    rewrite (proj2 (Z.eqb_neq s 0)), (proj2 (Z.eqb_neq t 0)) by lia.
    replace (eqb (s =? 1) (bool_decide (h = Hash_ZERO))) with true; [done|].
    symmetry. apply eqb_true_iff. destruct (Z.eqb_spec s 1); case_bool_decide; tauto.
Qed.

Lemma high_water_fits r : wf r → Forall (fits 4096) (fields r).
Proof. intros [_ ? _ _]. unfold fields. solve_fits. Qed.

Lemma high_water_encode_seal {E} r : wf r → @encode E _ r = Ok (seal 4096 (fields r) 72).
Proof.
  intros Hwf. change (@encode E _ r) with (puts_then (zeros 4096) (fields r)
    (λ b, @put_u32 E b 72 (crc32c b))).
  apply puts_seal; [done..|by apply high_water_fits].
Qed.

Lemma high_water_decode_encode r b :
  wf r → @encode HighWaterFormatError _ r = Ok b → decode b = Ok r.
Proof.
  intros Hwf Hb. rewrite high_water_encode_seal in Hb by done. apply Ok_inj in Hb.
  destruct (seal_facts (E:=HighWaterFormatError) 4096 (fields r) 72 ltac:(lia) ltac:(lia)
    ltac:(done) (high_water_fits r Hwf) ltac:(reflexivity) b (eq_sym Hb))
    as (Hl&Hcrc&Hstored&Hsub). clear Hb.
  destruct (Hwf) as [? ? ? ?].
  unfold decode. rewrite Hl. unfold CHECKSUM_OFFSET, CONTAINER_GENERATION_HIGH_WATER_RECORD_BYTES.
  osimpl. rewrite Hcrc, Hstored. osimpl.
  eval_reads b Hl. osimpl. eval_sub b Hsub. eval_ints. osimpl. eval_ints. osimpl.
  apply high_water_new_Ok; try done; try uint. split; [done|]. by destruct r.
Qed.

Lemma high_water_decode_inv b r :
  decode b = Ok r → wf r ∧ @encode HighWaterFormatError _ r = Ok b.
Proof.
  intros Hd. unfold decode, CONTAINER_GENERATION_HIGH_WATER_RECORD_BYTES, CHECKSUM_OFFSET in Hd.
  inv_run. inv_reads. subst.
  match goal with Hn : new _ _ _ = Ok _ |- _ =>
    apply high_water_new_Ok in Hn as [Hwf Hr]; [|first [done | apply blen_sub; lia]..] end.
  split; [done|]. rewrite high_water_encode_seal by done. f_equal. symmetry.
  match goal with Hl : blen b = 4096 |- _ => rewrite Hl in * end.
  eapply (seal_unique 4096 (fields r) 72) with
    (ns := [8;2;2;2;2;4;2;2;8;32;8;4;4020]).
  all: first [done | by apply high_water_fits | rewrite Hr; seal_parts].
Qed.

Lemma high_water_decode_no_panic b : no_panic (decode b).
Proof.
  unfold decode, CONTAINER_GENERATION_HIGH_WATER_RECORD_BYTES, CHECKSUM_OFFSET.
  apply no_panic_bind; [apply no_panic_reject_if|]. intros ? Hl. inv_run.
  no_panic_reads. unfold new. by repeat case_match.
Qed.

Lemma high_water_encode_Ok {E} r : wf r → ∃ b, @encode E _ r = Ok b ∧ blen b = 4096.
Proof.
  intros Hwf. eexists. split; [by apply high_water_encode_seal|]. apply blen_seal; try done.
  by apply high_water_fits.
Qed.
End Facts.

(** ** Properties *)

(** The high-water decoder accepts exactly the encodings of well-formed
    records and never panics. *)
Theorem high_water_decode_iff `{Crc32cLaws} (b : bytes) :
  no_panic (decode b) ∧
  ∀ r, decode b = Ok r ↔ wf r ∧ @encode HighWaterFormatError _ r = Ok b.
Proof.
  split; [apply high_water_decode_no_panic|]. intros r. split; [apply high_water_decode_inv|].
  intros [? ?]. by apply high_water_decode_encode.
Qed.

Definition sample : HighWaterRecord :=
  {| sequence := 1; previous_record_hash := zeros 32; reserved_through := 1024 |}.
Lemma high_water_wf_sample : wf sample.
Proof. split; vm_compute; intuition discriminate. Qed.

Section Witnesses.
#[local] Existing Instances Crc32cBitwise.ops Crc32cBitwise.laws.
Lemma high_water_decode_iff_witness : ∃ b, blen b = 4096 ∧ decode b = Ok sample.
Proof.
  destruct (high_water_encode_Ok (E:=HighWaterFormatError) sample high_water_wf_sample) as (b&Hb&Hl).
  exists b. split; [exact Hl|]. apply (high_water_decode_iff b).
  split; [exact high_water_wf_sample|exact Hb].
Defined.
End Witnesses.
End HighWater.
