(* ===== verification/PoolIdentity.v ===== *)
(** * Pool identity records ([fastdup-format/src/pool_identity.rs])

    The 4096-byte record that binds one storage pool to its appliance and role. *)
From S2P Require Import Layout.

Module PoolIdentity.

Definition POOL_IDENTITY_RECORD_BYTES : Z := 4096.
(** [b"FDPOOL01"] *)
Definition MAGIC : bytes := map byte_of_Z [70; 68; 80; 79; 79; 76; 48; 49].
Definition FORMAT_VERSION : Z := 1.
Definition HEADER_BYTES : Z := 64.
Definition RECORD_TYPE : Z := 1.
Definition CRC32C_ALGORITHM : Z := 1.
Definition CHECKSUM_OFFSET : Z := 56.

(** 16-byte identities, not all zero. *)
Definition ApplianceId := bytes.
Definition ApplianceId_new (b : bytes) : option ApplianceId :=
  if bool_decide (b = zeros 16) then None else Some b.
Definition PoolId := bytes.
Definition PoolId_new (b : bytes) : option PoolId :=
  if bool_decide (b = zeros 16) then None else Some b.

Inductive PoolIdentityFormatError :=
  | InvalidLength (n : Z)
  | InvalidMagic
  | ChecksumMismatch
  | UnsupportedOrReservedField
  | UnsupportedRole (role : Z)
  | ZeroApplianceId
  | ZeroPoolId.

Inductive PoolRole := RoleMetadata | RoleData.
#[export] Instance PoolRole_eq_dec : EqDecision PoolRole.
Proof. solve_decision. Defined.
(** The [#[repr(u16)]] discriminants. *)
Definition role_as_u16 (r : PoolRole) : Z := match r with RoleMetadata => 1 | RoleData => 2 end.
(** [PoolRole::decode] *)
Definition role_decode (v : Z) : outcome PoolIdentityFormatError PoolRole :=
  if v =? 1 then Ok RoleMetadata else if v =? 2 then Ok RoleData else Err (UnsupportedRole v).

Record PoolIdentityRecord := {
  appliance_id : ApplianceId;
  pool_id : PoolId;
  role : PoolRole;
}.

(** [PoolIdentityRecord::encode] *)
Definition encode {E} `{Crc32c} (r : PoolIdentityRecord) : outcome E bytes :=
  let b := zeros POOL_IDENTITY_RECORD_BYTES in
  b ← put b 0 MAGIC;
  b ← put_u16 b 8 FORMAT_VERSION;
  b ← put_u16 b 10 HEADER_BYTES;
  b ← put_u16 b 12 RECORD_TYPE;
  b ← put_u16 b 14 (role_as_u16 r.(role));
  b ← put_u32 b 16 4096;
  b ← put_u16 b 20 CRC32C_ALGORITHM;
  b ← put b 24 r.(appliance_id);
  b ← put b 40 r.(pool_id);
  let checksum := crc32c b in
  put_u32 b CHECKSUM_OFFSET checksum.

(** [PoolIdentityRecord::decode] *)
Definition decode `{Crc32c} (b : bytes) : outcome PoolIdentityFormatError PoolIdentityRecord :=
  reject_if (negb (blen b =? POOL_IDENTITY_RECORD_BYTES)) (InvalidLength (blen b));;
  bad_magic ← range_differs b 0 8 MAGIC;
  reject_if bad_magic InvalidMagic;;
  computed ← crc32c_with_zeroed_u32 b CHECKSUM_OFFSET;
  bad_checksum ← differs (get_u32 b CHECKSUM_OFFSET) computed;
  reject_if bad_checksum ChecksumMismatch;;
  unsupported ←
    differs (get_u16 b 8) FORMAT_VERSION
    ||? differs (get_u16 b 10) HEADER_BYTES
    ||? differs (get_u16 b 12) RECORD_TYPE
    ||? differs (get_u32 b 16) POOL_IDENTITY_RECORD_BYTES
    ||? differs (get_u16 b 20) CRC32C_ALGORITHM
    ||? differs (get_u16 b 22) 0
    ||? range_any_nonzero b 60 (blen b);
  reject_if unsupported UnsupportedOrReservedField;;
  stored_role ← get_u16 b 14;
  role ← role_decode stored_role;
  appliance_id ← index_range b 24 40;
  appliance_id ← ok_or (ApplianceId_new appliance_id) ZeroApplianceId;
  pool_id ← index_range b 40 56;
  pool_id ← ok_or (PoolId_new pool_id) ZeroPoolId;
  Ok {| appliance_id := appliance_id; pool_id := pool_id; role := role |}.

Record wf (r : PoolIdentityRecord) : Prop := {
  wf_appliance : blen r.(appliance_id) = 16 ∧ r.(appliance_id) ≠ zeros 16;
  wf_pool : blen r.(pool_id) = 16 ∧ r.(pool_id) ≠ zeros 16;
}.

Definition fields (r : PoolIdentityRecord) : list field := [
  Field 0 8 MAGIC;
  Field 8 2 (le_bytes 2 FORMAT_VERSION);
  Field 10 2 (le_bytes 2 HEADER_BYTES);
  Field 12 2 (le_bytes 2 RECORD_TYPE);
  Field 14 2 (le_bytes 2 (role_as_u16 r.(role)));
  Field 16 4 (le_bytes 4 4096);
  Field 20 2 (le_bytes 2 CRC32C_ALGORITHM);
  Field 24 16 r.(appliance_id);
  Field 40 16 r.(pool_id) ].

Section Facts.
Context `{Crc32cLaws}.

Lemma role_decode_as_u16 r : role_decode (role_as_u16 r) = Ok r.
Proof. by destruct r. Qed.
Lemma role_decode_Ok v r : role_decode v = Ok r → v = role_as_u16 r.
Proof. unfold role_decode. repeat case_match; intros; inv_run; done. Qed.

Lemma pool_identity_fits r : wf r → Forall (fits 4096) (fields r).
Proof. intros [[? _] [? _]]. unfold fields. solve_fits. Qed.

Lemma pool_identity_encode_seal {E} r : wf r → @encode E _ r = Ok (seal 4096 (fields r) 56).
Proof.
  intros Hwf. change (@encode E _ r) with (puts_then (zeros 4096) (fields r)
    (λ b, @put_u32 E b 56 (crc32c b))).
  apply puts_seal; [done..|by apply pool_identity_fits].
Qed.

Lemma pool_identity_decode_encode r b :
  wf r → @encode PoolIdentityFormatError _ r = Ok b → decode b = Ok r.
Proof.
  intros Hwf Hb. rewrite pool_identity_encode_seal in Hb by done. apply Ok_inj in Hb.
  destruct (seal_facts (E:=PoolIdentityFormatError) 4096 (fields r) 56 ltac:(lia) ltac:(lia)
    ltac:(done) (pool_identity_fits r Hwf) ltac:(reflexivity) b (eq_sym Hb))
    as (Hl&Hcrc&Hstored&Hsub). clear Hb.
  destruct (Hwf) as [[? ?] [? ?]].
  assert (is_u16 (role_as_u16 r.(role))) by (by destruct r.(role)).
  unfold decode. rewrite Hl. unfold CHECKSUM_OFFSET, POOL_IDENTITY_RECORD_BYTES.
  osimpl. rewrite Hcrc, Hstored. osimpl.
  eval_reads b Hl. osimpl. eval_sub b Hsub. eval_ints. osimpl. eval_ints. osimpl.
  rewrite role_decode_as_u16. osimpl. unfold ApplianceId_new, PoolId_new.
  rewrite bool_decide_false by done. osimpl. rewrite bool_decide_false by done. osimpl.
  by destruct r.
Qed.

Lemma pool_identity_decode_inv b r :
  decode b = Ok r → wf r ∧ @encode PoolIdentityFormatError _ r = Ok b.
Proof.
  intros Hd. unfold decode, POOL_IDENTITY_RECORD_BYTES, CHECKSUM_OFFSET in Hd.
  unfold ApplianceId_new, PoolId_new in Hd.
  inv_run. repeat case_bool_decide; try done. inv_run. inv_reads. subst.
  match goal with Hr : role_decode _ = Ok _ |- _ => apply role_decode_Ok in Hr; subst end.
  match goal with |- wf ?x ∧ _ => assert (Hwf : wf x) end.
  { split; simpl; (split; [apply blen_sub; lia|done]). }
  split; [done|]. rewrite pool_identity_encode_seal by done. f_equal. symmetry.
  match goal with Hl : blen b = 4096 |- _ => rewrite Hl in * end.
  eapply (seal_unique 4096 _ 56) with (ns := [8;2;2;2;2;4;2;2;16;16;4;4036]).
  all: first [done | by apply pool_identity_fits | seal_parts].
Qed.

Lemma pool_identity_decode_no_panic b : no_panic (decode b).
Proof.
  unfold decode, POOL_IDENTITY_RECORD_BYTES, CHECKSUM_OFFSET.
  apply no_panic_bind; [apply no_panic_reject_if|]. intros ? Hl. inv_run.
  no_panic_reads. unfold role_decode. by repeat case_match.
Qed.
End Facts.

(** ** Properties *)

(** The pool-identity decoder accepts exactly the encodings of records with
    non-zero identities (role included), and never panics. *)
Theorem pool_identity_decode_iff `{Crc32cLaws} (b : bytes) :
  no_panic (decode b) ∧
  ∀ r, decode b = Ok r ↔ wf r ∧ @encode PoolIdentityFormatError _ r = Ok b.
Proof.
  split; [apply pool_identity_decode_no_panic|]. intros r.
  split; [apply pool_identity_decode_inv|]. intros [? ?]. by apply pool_identity_decode_encode.
Qed.

Definition sample : PoolIdentityRecord :=
  {| appliance_id := le_bytes 16 9; pool_id := le_bytes 16 10; role := RoleData |}.
Lemma pool_identity_wf_sample : wf sample.
Proof. split; split; vm_compute; (reflexivity || discriminate). Qed.

Section Witnesses.
#[local] Existing Instances Crc32cBitwise.ops Crc32cBitwise.laws.
Lemma pool_identity_decode_iff_witness : ∃ b, decode b = Ok sample.
Proof.
  exists (seal 4096 (fields sample) 56). apply (pool_identity_decode_iff _).
  split; [exact pool_identity_wf_sample|].
  exact (pool_identity_encode_seal sample pool_identity_wf_sample).
Defined.
End Witnesses.
End PoolIdentity.
