(* ===== verification/Activation.v ===== *)
(** * Exact-index activation records ([fastdup-format/src/exact_index_activation.rs])

    The 4096-byte record that activates one exact-index run set, chained by
    generation and predecessor hash. *)
From S2P Require Import Layout Metadata.

Module Activation.

Definition EXACT_INDEX_ACTIVATION_RECORD_BYTES : Z := 4096.
Definition RECORD_BYTES_U32 : Z := 4096.
(** [b"FDXACT01"] *)
Definition MAGIC : bytes := map byte_of_Z [70; 68; 88; 65; 67; 84; 48; 49].
Definition FORMAT_VERSION : Z := 1.
Definition RECORD_TYPE_ACTIVATE_RUN_SET : Z := 1.
Definition HEADER_BYTES : Z := 160.
Definition BLAKE3_256_ALGORITHM : Z := 1.
Definition CRC32C_ALGORITHM : Z := 1.
Definition CHECKSUM_OFFSET : Z := 152.

(** [ExactIndexActivationHash] *)
Definition Hash := bytes.
Definition Hash_ZERO : Hash := zeros 32.
Definition Hash_of `{Blake3} (b : bytes) : Hash := blake3_hash b.
(** [ExactIndexRunSetId::from_bytes] and [ExactIndexProfileId::new]. *)
Definition ExactIndexRunSetId := bytes.
Definition ExactIndexRunSetId_from_bytes (b : bytes) : option ExactIndexRunSetId :=
  Metadata.MetadataObjectId_new b.
Definition ExactIndexProfileId := bytes.
Definition ExactIndexProfileId_new (b : bytes) : option ExactIndexProfileId :=
  if bool_decide (b = zeros 32) then None else Some b.

Record ActivationRecord := {
  generation : Z;
  previous_record_hash : Hash;
  run_set_id : ExactIndexRunSetId;
  profile : ExactIndexProfileId;
  run_set_generation : Z;
}.

Inductive ActivationError :=
  | InvalidLength (n : Z)
  | InvalidMagic
  | ChecksumMismatch
  | UnsupportedOrReservedField
  | InvalidChainStart
  | InvalidRunSetId
  | InvalidProfile
  | InvalidRunSetGeneration.

(** [ExactIndexActivationRecord::new] *)
Definition new (generation : Z) (previous_record_hash : Hash) (run_set_id : ExactIndexRunSetId)
    (profile : ExactIndexProfileId) (run_set_generation : Z)
    : outcome ActivationError ActivationRecord :=
  if (generation =? 0) ||
     negb (eqb (generation =? 1) (bool_decide (previous_record_hash = Hash_ZERO)))
  then Err InvalidChainStart
  else if run_set_generation =? 0 then Err InvalidRunSetGeneration
  else Ok {| generation := generation; previous_record_hash := previous_record_hash;
             run_set_id := run_set_id; profile := profile;
             run_set_generation := run_set_generation |}.

(** [ExactIndexActivationRecord::encode] *)
Definition encode {E} `{Crc32c} (r : ActivationRecord) : outcome E bytes :=
  let b := zeros EXACT_INDEX_ACTIVATION_RECORD_BYTES in
  b ← put b 0 MAGIC;
  b ← put_u16 b 8 FORMAT_VERSION;
  b ← put_u16 b 10 RECORD_TYPE_ACTIVATE_RUN_SET;
  b ← put_u16 b 12 HEADER_BYTES;
  b ← put_u16 b 14 BLAKE3_256_ALGORITHM;
  b ← put_u32 b 16 RECORD_BYTES_U32;
  b ← put_u16 b 20 CRC32C_ALGORITHM;
  b ← put_u64 b 40 r.(generation);
  b ← put b 48 r.(previous_record_hash);
  b ← put b 80 r.(run_set_id);
  b ← put b 112 r.(profile);
  b ← put_u64 b 144 r.(run_set_generation);
  let checksum := crc32c b in
  put_u32 b CHECKSUM_OFFSET checksum.

(** [ExactIndexActivationRecord::decode] *)
Definition decode `{Crc32c} (b : bytes) : outcome ActivationError ActivationRecord :=
  reject_if (negb (blen b =? EXACT_INDEX_ACTIVATION_RECORD_BYTES)) (InvalidLength (blen b));;
  bad_magic ← range_differs b 0 8 MAGIC;
  reject_if bad_magic InvalidMagic;;
  computed ← crc32c_with_zeroed_u32 b CHECKSUM_OFFSET;
  bad_checksum ← differs (get_u32 b CHECKSUM_OFFSET) computed;
  reject_if bad_checksum ChecksumMismatch;;
  unsupported ←
    differs (get_u16 b 8) FORMAT_VERSION
    ||? differs (get_u16 b 10) RECORD_TYPE_ACTIVATE_RUN_SET
    ||? differs (get_u16 b 12) HEADER_BYTES
    ||? differs (get_u16 b 14) BLAKE3_256_ALGORITHM
    ||? differs (get_u32 b 16) RECORD_BYTES_U32
    ||? differs (get_u16 b 20) CRC32C_ALGORITHM
    ||? differs (get_u16 b 22) 0
    ||? differs (get_u64 b 24) 0
    ||? differs (get_u64 b 32) 0
    ||? range_any_nonzero b 156 (blen b);
  reject_if unsupported UnsupportedOrReservedField;;
  previous ← index_range b 48 80;
  run_set_id ← index_range b 80 112;
  run_set_id ← ok_or (ExactIndexRunSetId_from_bytes run_set_id) InvalidRunSetId;
  profile ← index_range b 112 144;
  profile ← ok_or (ExactIndexProfileId_new profile) InvalidProfile;
  generation ← get_u64 b 40;
  run_set_generation ← get_u64 b 144;
  new generation previous run_set_id profile run_set_generation.

Record wf (r : ActivationRecord) : Prop := {
  wf_generation : 1 ≤ r.(generation) ≤ u64_max;
  wf_hash : blen r.(previous_record_hash) = 32;
  wf_chain_start : r.(generation) = 1 ↔ r.(previous_record_hash) = Hash_ZERO;
  wf_run_set : blen r.(run_set_id) = 32 ∧ r.(run_set_id) ≠ zeros 32;
  wf_profile : blen r.(profile) = 32 ∧ r.(profile) ≠ zeros 32;
  wf_run_set_generation : 1 ≤ r.(run_set_generation) ≤ u64_max;
}.

Definition fields (r : ActivationRecord) : list field := [
  Field 0 8 MAGIC;
  Field 8 2 (le_bytes 2 FORMAT_VERSION);
  Field 10 2 (le_bytes 2 RECORD_TYPE_ACTIVATE_RUN_SET);
  Field 12 2 (le_bytes 2 HEADER_BYTES);
  Field 14 2 (le_bytes 2 BLAKE3_256_ALGORITHM);
  Field 16 4 (le_bytes 4 RECORD_BYTES_U32);
  Field 20 2 (le_bytes 2 CRC32C_ALGORITHM);
  Field 40 8 (le_bytes 8 r.(generation));
  Field 48 32 r.(previous_record_hash);
  Field 80 32 r.(run_set_id);
  Field 112 32 r.(profile);
  Field 144 8 (le_bytes 8 r.(run_set_generation)) ].

Section Facts.
Context `{Crc32cLaws}.

Lemma activation_new_Ok g h rs p rg r :
  is_u64 g → is_u64 rg → blen h = 32 → blen rs = 32 → rs ≠ zeros 32 →
  blen p = 32 → p ≠ zeros 32 →
  new g h rs p rg = Ok r ↔
  wf r ∧ r = {| generation := g; previous_record_hash := h; run_set_id := rs; profile := p;
                run_set_generation := rg |}.
Proof.
  unfold in_u. intros. unfold new. split.
  - repeat case_match; intros; inv_run. split; [|done]. split; simpl; try (done || lia).
    destruct (Z.eqb_spec g 1); case_bool_decide; simpl in *; naive_solver lia.
  - intros [[? _ Hc _ _ ?] ->]. simpl in *.
    rewrite (proj2 (Z.eqb_neq g 0)), (proj2 (Z.eqb_neq rg 0)) by lia.
    replace (eqb (g =? 1) (bool_decide (h = Hash_ZERO))) with true; [done|].
    symmetry. apply eqb_true_iff. destruct (Z.eqb_spec g 1); case_bool_decide; tauto.
Qed.

Lemma activation_fits r : wf r → Forall (fits 4096) (fields r).
Proof. intros [_ ? _ [? _] [? _] _]. unfold fields. solve_fits. Qed.

Lemma activation_encode_seal {E} r : wf r → @encode E _ r = Ok (seal 4096 (fields r) 152).
Proof.
  intros Hwf. change (@encode E _ r) with (puts_then (zeros 4096) (fields r)
    (λ b, @put_u32 E b 152 (crc32c b))).
  apply puts_seal; [done..|by apply activation_fits].
Qed.

Lemma activation_decode_encode r b :
  wf r → @encode ActivationError _ r = Ok b → decode b = Ok r.
Proof.
  intros Hwf Hb. rewrite activation_encode_seal in Hb by done. apply Ok_inj in Hb.
  destruct (seal_facts (E:=ActivationError) 4096 (fields r) 152 ltac:(lia) ltac:(lia)
    ltac:(done) (activation_fits r Hwf) ltac:(reflexivity) b (eq_sym Hb))
    as (Hl&Hcrc&Hstored&Hsub). clear Hb.
  destruct (Hwf) as [? ? ? [? ?] [? ?] ?].
  unfold decode. rewrite Hl. unfold CHECKSUM_OFFSET, EXACT_INDEX_ACTIVATION_RECORD_BYTES.
  osimpl. rewrite Hcrc, Hstored. osimpl.
  eval_reads b Hl. osimpl. eval_sub b Hsub. eval_ints. osimpl. eval_ints. osimpl.
  unfold ExactIndexRunSetId_from_bytes, Metadata.MetadataObjectId_new, ExactIndexProfileId_new.
  rewrite bool_decide_false by done. osimpl. rewrite bool_decide_false by done. osimpl.
  apply activation_new_Ok; try done; try uint. split; [done|]. by destruct r.
Qed.

Lemma activation_decode_inv b r :
  decode b = Ok r → wf r ∧ @encode ActivationError _ r = Ok b.
Proof.
  intros Hd. unfold decode, EXACT_INDEX_ACTIVATION_RECORD_BYTES, CHECKSUM_OFFSET in Hd.
  unfold ExactIndexRunSetId_from_bytes, Metadata.MetadataObjectId_new, ExactIndexProfileId_new in Hd.
  inv_run. repeat case_bool_decide; try done. inv_run. inv_reads. subst.
  match goal with Hn : new _ _ _ _ _ = Ok _ |- _ =>
    apply activation_new_Ok in Hn as [Hwf Hr]; [|first [done | apply blen_sub; lia]..] end.
  split; [done|]. rewrite activation_encode_seal by done. f_equal. symmetry.
  match goal with Hl : blen b = 4096 |- _ => rewrite Hl in * end.
  eapply (seal_unique 4096 (fields r) 152) with
    (ns := [8;2;2;2;2;4;2;2;8;8;8;32;32;32;8;4;3940]).
  all: first [done | by apply activation_fits | rewrite Hr; seal_parts].
Qed.

Lemma activation_decode_no_panic b : no_panic (decode b).
Proof.
  unfold decode, EXACT_INDEX_ACTIVATION_RECORD_BYTES, CHECKSUM_OFFSET.
  apply no_panic_bind; [apply no_panic_reject_if|]. intros ? Hl. inv_run.
  no_panic_reads. unfold new. by repeat case_match.
Qed.
End Facts.

(** ** Properties *)

(** The activation-record decoder accepts exactly the encodings of
    well-formed records and never panics. *)
Theorem activation_decode_iff `{Crc32cLaws} (b : bytes) :
  no_panic (decode b) ∧
  ∀ r, decode b = Ok r ↔ wf r ∧ @encode ActivationError _ r = Ok b.
Proof.
  split; [apply activation_decode_no_panic|]. intros r. split; [apply activation_decode_inv|].
  intros [? ?]. by apply activation_decode_encode.
Qed.

Definition sample : ActivationRecord :=
  {| generation := 1; previous_record_hash := zeros 32; run_set_id := le_bytes 32 5;
     profile := le_bytes 32 6; run_set_generation := 4 |}.
Lemma activation_wf_sample : wf sample.
Proof. split; vm_compute; intuition discriminate. Qed.

Section Witnesses.
#[local] Existing Instances Crc32cBitwise.ops Crc32cBitwise.laws.
Lemma activation_decode_iff_witness : ∃ b, decode b = Ok sample.
Proof.
  exists (seal 4096 (fields sample) 152). apply (activation_decode_iff _).
  split; [exact activation_wf_sample|].
  exact (activation_encode_seal sample activation_wf_sample).
Defined.
End Witnesses.
End Activation.
