(* ===== verification/ExactIndex.v ===== *)
(** * Exact index runs ([fastdup-format/src/exact_index.rs])

    An exact index run maps chunk identifiers to the container records that hold
    them.  It is an immutable file: a header, pages of at most 31 entries in
    canonical order, and a footer that repeats the identity fields and adds a
    hash of the file.  This file translates the module; the files
    [ExactIndexPage], [ExactIndexRun] and [ExactIndexStream] prove it. *)
From S2P Require Export EntryTable Ordering.
From S2P Require Import Activation.

Module ExactIndex.
Definition ExactIndexProfileId := Activation.ExactIndexProfileId.
Definition ExactIndexProfileId_new := Activation.ExactIndexProfileId_new.

(** ** Constants, with those of container.rs *)
Definition EXACT_INDEX_HEADER_BYTES : Z := 4096.
Definition EXACT_INDEX_PAGE_BYTES : Z := 4096.
Definition EXACT_INDEX_ENTRY_BYTES : Z := 128.
Definition PAGE_HEADER_BYTES : Z := 128.
Definition ENTRIES_PER_PAGE : Z := 31.
Definition FOOTER_BYTES : Z := 4096.
Definition MAX_RUN_BYTES : Z := 2 ^ 30.
(** [b"FDXIRN01"], [b"FDXPG001"] and [b"FDXFTR01"] *)
Definition HEADER_MAGIC : bytes := map byte_of_Z [70; 68; 88; 73; 82; 78; 48; 49].
Definition PAGE_MAGIC : bytes := map byte_of_Z [70; 68; 88; 80; 71; 48; 48; 49].
Definition FOOTER_MAGIC : bytes := map byte_of_Z [70; 68; 88; 70; 84; 82; 48; 49].
Definition FORMAT_VERSION : Z := 1.
Definition RAW_PAYLOAD_OFFSET_U32 : Z := 192.
Definition RECORD_ALIGNMENT_U32 : Z := 64.
Definition MIN_RAW_RECORD_BYTES_U32 : Z := 256.
Definition HEADER_CRC_OFFSET : Z := 184.
Definition PAGE_CRC_OFFSET : Z := 20.
Definition RUN_HASH_OFFSET : Z := 184.
Definition FOOTER_CRC_OFFSET : Z := 216.
Definition MAX_CONTAINER_BYTES : Z := 64 * 1024 * 1024.
Definition MAX_RECORD_BYTES : Z := 1024 * 1024.
Definition MAX_DECODED_RECORD_BYTES : Z := 512 * 1024.
Definition MAX_LOGICAL_CHUNK_BYTES : Z := 256 * 1024.
Definition RAW_CODEC : Z := 1.
Definition ZSTD_CODEC : Z := 2.
Definition ZSTD_PREFIX_CODEC : Z := 3.
Definition SPARSE_XOR_CODEC : Z := 4.
Definition ZSTD_PREFIX_FLEX_CODEC : Z := 5.

Inductive ExactIndexFormatError :=
  | InvalidGeneration
  | InvalidEntry
  | ChunkLengthConflict
  | NonCanonicalOrder
  | InvalidObjectLength (n : Z)
  | InvalidHeader
  | InvalidPage
  | HeaderFooterMismatch
  | RunHashMismatch
  | ArithmeticOverflow
  | OutOfMemory
  | NonSequentialAudit.
Abbreviation result A := (outcome ExactIndexFormatError A).

(** ** Entries *)
Inductive ExactLocationTransition := Active | Retiring | Quarantined | Removed.
#[global] Instance transition_eq_dec : EqDecision ExactLocationTransition.
Proof. solve_decision. Defined.
Definition transition_encode (t : ExactLocationTransition) : Z :=
  match t with Active => 1 | Retiring => 2 | Quarantined => 3 | Removed => 4 end.
Definition transition_decode (value : Z) : option ExactLocationTransition :=
  match value with
  | 1 => Some Active | 2 => Some Retiring | 3 => Some Quarantined | 4 => Some Removed
  | _ => None
  end.

(** [ContainerId::new] *)
Definition ContainerId_new (b : bytes) : option bytes :=
  if bool_decide (b = zeros 16) then None else Some b.

Record ExactIndexLocation := {
  container_id : bytes;
  container_generation : Z;
  record_offset : Z;
  record_length : Z;
  chunk_ordinal : Z;
  decoded_offset : Z;
  record_crc32c : Z;
  record_decoded_length : Z;
  record_payload_length : Z;
  codec_id : Z;
  dependency_id : bytes;
}.
#[global] Instance location_eq_dec : EqDecision ExactIndexLocation.
Proof. solve_decision. Defined.
Record ExactIndexEntry := {
  chunk_id : bytes;
  logical_length : Z;
  transition : ExactLocationTransition;
  location : ExactIndexLocation;
}.
#[global] Instance entry_eq_dec : EqDecision ExactIndexEntry.
Proof. solve_decision. Defined.

(** [fn valid_raw_location] *)
Definition valid_raw_location (record_offset record_length : Z) : bool :=
  (4096 <=? record_offset)
  && (record_offset `mod` RECORD_ALIGNMENT_U32 =? 0)
  && (MIN_RAW_RECORD_BYTES_U32 <=? record_length)
  && (record_length `mod` RECORD_ALIGNMENT_U32 =? 0)
  && (record_length <=? MAX_RECORD_BYTES)
  && match checked_add u64_max record_offset record_length with
     | Some end_ => end_ <=? MAX_CONTAINER_BYTES
     | None => false
     end.
(** [fn expected_raw_record_length] *)
Definition expected_raw_record_length (logical_length : Z) : option Z :=
  if (logical_length =? 0) || (MAX_LOGICAL_CHUNK_BYTES <? logical_length) then None
  else
    length ← checked_add u32_max logical_length RAW_PAYLOAD_OFFSET_U32;
    length ← checked_add u32_max length (RECORD_ALIGNMENT_U32 - 1);
    Some (length / RECORD_ALIGNMENT_U32 * RECORD_ALIGNMENT_U32).
(** [fn valid_location] *)
Definition valid_location (logical_length : Z) (l : ExactIndexLocation) : bool :=
  if (logical_length =? 0) || (MAX_LOGICAL_CHUNK_BYTES <? logical_length)
     || negb (valid_raw_location (record_offset l) (record_length l))
     || (container_generation l =? 0)
  then false
  else if codec_id l =? RAW_CODEC then
    bool_decide (dependency_id l = zeros 32)
    && (chunk_ordinal l =? 0) && (decoded_offset l =? 0)
    && (record_decoded_length l =? logical_length)
    && (record_payload_length l =? logical_length)
    && bool_decide (expected_raw_record_length logical_length = Some (record_length l))
  else if codec_id l =? ZSTD_CODEC then
    bool_decide (dependency_id l = zeros 32)
    && (0 <? record_decoded_length l)
    && (record_decoded_length l <=? MAX_DECODED_RECORD_BYTES)
    && (0 <? record_payload_length l)
    && (record_payload_length l <? record_length l)
    && match checked_add u32_max (decoded_offset l) logical_length with
       | Some end_ => end_ <=? record_decoded_length l
       | None => false
       end
  else if (codec_id l =? ZSTD_PREFIX_CODEC) || (codec_id l =? ZSTD_PREFIX_FLEX_CODEC)
          || (codec_id l =? SPARSE_XOR_CODEC) then
    negb (bool_decide (dependency_id l = zeros 32))
    && (chunk_ordinal l =? 0) && (decoded_offset l =? 0)
    && (record_decoded_length l =? logical_length)
    && (0 <? record_payload_length l)
    && (record_payload_length l <? record_length l)
  else false.

(** [ExactIndexLocation::raw] *)
Definition location_raw (container_id : bytes) (container_generation record_offset record_length
    record_crc32c : Z) : result ExactIndexLocation :=
  reject_if ((container_generation =? 0) || negb (valid_raw_location record_offset record_length))
    InvalidEntry;;
  Ok {| container_id := container_id; container_generation := container_generation;
        record_offset := record_offset; record_length := record_length; chunk_ordinal := 0;
        decoded_offset := 0; record_crc32c := record_crc32c; record_decoded_length := 0;
        record_payload_length := 0; codec_id := RAW_CODEC; dependency_id := zeros 32 |}.
(** [ExactIndexEntry::active] *)
Definition entry_active (chunk_id : bytes) (logical_length : Z) (l : ExactIndexLocation)
    : result ExactIndexEntry :=
  reject_if (negb (codec_id l =? RAW_CODEC)
    || negb (bool_decide (expected_raw_record_length logical_length = Some (record_length l))))
    InvalidEntry;;
  let location :=
    {| container_id := container_id l; container_generation := container_generation l;
       record_offset := record_offset l; record_length := record_length l;
       chunk_ordinal := chunk_ordinal l; decoded_offset := decoded_offset l;
       record_crc32c := record_crc32c l; record_decoded_length := logical_length;
       record_payload_length := logical_length; codec_id := codec_id l;
       dependency_id := dependency_id l |} in
  Ok {| chunk_id := chunk_id; logical_length := logical_length; transition := Active;
        location := location |}.
(** [ExactIndexEntry::from_verified]: the fields of [VerifiedChunkLocation] are a
    chunk, its length and the fields of a location. *)
Definition from_verified (chunk_id : bytes) (logical_length : Z) (location : ExactIndexLocation)
    : result ExactIndexEntry :=
  reject_if (negb (valid_location logical_length location)) InvalidEntry;;
  Ok {| chunk_id := chunk_id; logical_length := logical_length; transition := Active;
        location := location |}.
(** [ExactIndexEntry::from_verified_raw], with the fields of [VerifiedRawLocation] *)
Definition from_verified_raw (chunk_id : bytes) (logical_length : Z) (container_id : bytes)
    (container_generation record_offset record_length record_crc32c : Z) : result ExactIndexEntry :=
  location ← location_raw container_id container_generation record_offset record_length record_crc32c;
  entry_active chunk_id logical_length location.
Definition with_transition (t : ExactLocationTransition) (e : ExactIndexEntry) : ExactIndexEntry :=
  {| chunk_id := chunk_id e; logical_length := logical_length e; transition := t;
     location := location e |}.
(** [ExactIndexEntry::retiring] *)
Definition entry_retiring (active : ExactIndexEntry) : result ExactIndexEntry :=
  reject_if (negb (bool_decide (transition active = Active))) InvalidEntry;;
  Ok (with_transition Retiring active).
(** [ExactIndexEntry::removed] *)
Definition entry_removed (retiring : ExactIndexEntry) : result ExactIndexEntry :=
  reject_if (negb (bool_decide (transition retiring = Retiring))) InvalidEntry;;
  Ok (with_transition Removed retiring).

(** [ExactIndexEntry::location_key], and the lookup key *)
Definition location_key (e : ExactIndexEntry) : list byte * Z * list byte * Z * Z :=
  (chunk_id e, logical_length e, container_id (location e), record_offset (location e),
   chunk_ordinal (location e)).
Definition entry_key (e : ExactIndexEntry) : list byte * Z := (chunk_id e, logical_length e).

(** [ExactIndexEntry::encode] *)
Definition entry_encode (output : bytes) (e : ExactIndexEntry) : result bytes :=
  let l := location e in
  output ← put output 0 (chunk_id e);
  output ← put_u32 output 32 (logical_length e);
  output ← put_u16 output 36 (transition_encode (transition e));
  output ← put_u16 output 38 (codec_id l);
  output ← put output 40 (container_id l);
  output ← put_u64 output 56 (container_generation l);
  output ← put_u64 output 64 (record_offset l);
  output ← put_u32 output 72 (record_length l);
  output ← put_u32 output 76 (chunk_ordinal l);
  output ← put_u32 output 80 (decoded_offset l);
  output ← put_u32 output 84 (record_crc32c l);
  output ← put_u32 output 88 (record_decoded_length l);
  output ← put_u32 output 92 (record_payload_length l);
  put output 96 (dependency_id l).

(** [x == v] of a read *)
Definition equals {E} (m : outcome E Z) (v : Z) : outcome E bool := x ← m; Ok (x =? v).

(** [ExactIndexEntry::decode] *)
Definition entry_decode (b : bytes) : result ExactIndexEntry :=
  bad ← Ok (negb (blen b =? EXACT_INDEX_ENTRY_BYTES)) ||? equals (get_u32 b 32) 0;
  reject_if bad InvalidEntry;;
  chunk ← index_range b 0 32;
  container ← index_range b 40 56;
  length ← get_u32 b 32;
  t ← get_u16 b 36;
  t ← ok_or (transition_decode t) InvalidEntry;
  container ← ok_or (ContainerId_new container) InvalidEntry;
  container_generation ← get_u64 b 56;
  record_offset ← get_u64 b 64;
  record_length ← get_u32 b 72;
  chunk_ordinal ← get_u32 b 76;
  decoded_offset ← get_u32 b 80;
  record_crc32c ← get_u32 b 84;
  record_decoded_length ← get_u32 b 88;
  record_payload_length ← get_u32 b 92;
  codec_id ← get_u16 b 38;
  dependency ← index_range b 96 128;
  let location :=
    {| container_id := container; container_generation := container_generation;
       record_offset := record_offset; record_length := record_length;
       chunk_ordinal := chunk_ordinal; decoded_offset := decoded_offset;
       record_crc32c := record_crc32c; record_decoded_length := record_decoded_length;
       record_payload_length := record_payload_length; codec_id := codec_id;
       dependency_id := dependency |} in
  let entry :=
    {| chunk_id := chunk; logical_length := length; transition := t; location := location |} in
  reject_if (negb (valid_location length location)) InvalidEntry;;
  Ok entry.

(** ** Order of entries *)

(** [fn validate_entry_pair] *)
Definition validate_entry_pair (previous next : ExactIndexEntry) : result () :=
  reject_if (bool_decide (chunk_id previous = chunk_id next)
    && negb (logical_length previous =? logical_length next)) ChunkLengthConflict;;
  reject_if (bool_decide (location_key next ≤o location_key previous)) NonCanonicalOrder.
(** [fn validate_entries] *)
Fixpoint validate_entries (entries : list ExactIndexEntry) : result () :=
  match entries with
  | a :: ((b :: _) as tail) => validate_entry_pair a b;; validate_entries tail
  | _ => Ok ()
  end.

(** ** Geometry *)

(** [fn page_count] *)
Definition page_count (entry_count : Z) : Z := (entry_count + (ENTRIES_PER_PAGE - 1)) / ENTRIES_PER_PAGE.
(** [fn encoded_length] *)
Definition encoded_length (entry_count : Z) : result Z :=
  pages ← ok_or (checked_mul usize_max (page_count entry_count) EXACT_INDEX_PAGE_BYTES) ArithmeticOverflow;
  length ← ok_or (value ← checked_add usize_max EXACT_INDEX_HEADER_BYTES pages;
                  checked_add usize_max value FOOTER_BYTES) ArithmeticOverflow;
  reject_if (MAX_RUN_BYTES <? length) (InvalidObjectLength length);;
  Ok length.
(** [EXACT_INDEX_HEADER_BYTES.checked_add(page_count.checked_mul(EXACT_INDEX_PAGE_BYTES)?)?] *)
Definition footer_offset_of (page_count : Z) : result Z :=
  pages ← ok_or (checked_mul usize_max page_count EXACT_INDEX_PAGE_BYTES) ArithmeticOverflow;
  ok_or (checked_add usize_max EXACT_INDEX_HEADER_BYTES pages) ArithmeticOverflow.
(** [fn u64_from_usize] *)
Definition u64_from_usize (value : Z) : result Z := ok_or (try_from_u u64_max value) ArithmeticOverflow.
(** [fn key_bounds] *)
Definition key_bounds_of (entries : list ExactIndexEntry) : bytes :=
  match head entries, last entries with
  | Some first, Some last => chunk_id first ++ chunk_id last
  | _, _ => zeros 64
  end.
(** [fn checksum_with_zero] *)
Definition checksum_with_zero `{Crc32c} (b : bytes) (offset : Z) : result Z :=
  head ← index_range b 0 offset;
  let checksum := crc32c_append 0 head in
  let checksum := crc32c_append checksum (zeros 4) in
  tail ← index_from b (offset + 4);
  Ok (crc32c_append checksum tail).

(** ** Pages *)

(** [fn encode_page] *)
Definition encode_page `{Crc32c} (page : bytes) (ordinal : Z) (entries : list ExactIndexEntry)
    : result bytes :=
  page ← put page 0 PAGE_MAGIC;
  page ← put_u16 page 8 FORMAT_VERSION;
  page ← put_u16 page 10 128;
  page ← put_u16 page 12 128;
  count ← ok_or (try_from_u u16_max (blen entries)) ArithmeticOverflow;
  page ← put_u16 page 14 count;
  ordinal32 ← ok_or (try_from_u u32_max ordinal) ArithmeticOverflow;
  page ← put_u32 page 16 ordinal32;
  first_entry_ordinal ← ok_or (value ← checked_mul usize_max ordinal ENTRIES_PER_PAGE;
                               try_from_u u64_max value) ArithmeticOverflow;
  page ← put_u64 page 24 first_entry_ordinal;
  first ← ok_or (head entries) InvalidPage;
  last ← ok_or (last entries) InvalidPage;
  page ← put page 32 (chunk_id first);
  page ← put_u32 page 64 (logical_length first);
  page ← put page 72 (chunk_id last);
  page ← put_u32 page 104 (logical_length last);
  page ← encode_entries EXACT_INDEX_ENTRY_BYTES (table_start PAGE_HEADER_BYTES EXACT_INDEX_ENTRY_BYTES)
           entry_encode page 0 entries;
  crc ← checksum_with_zero page PAGE_CRC_OFFSET;
  put_u32 page PAGE_CRC_OFFSET crc.

(** [fn decode_page]; the result is the contents of [output]. *)
Definition decode_page `{Crc32c} (page : bytes) (ordinal total_entries : Z)
    (output : list ExactIndexEntry) : result (list ExactIndexEntry) :=
  start ← expect (checked_mul usize_max ordinal ENTRIES_PER_PAGE);
  let remaining := saturating_sub total_entries start in
  let expected := Z.min remaining ENTRIES_PER_PAGE in
  bad ←
    Ok (negb (blen page =? EXACT_INDEX_PAGE_BYTES))
    ||? range_differs page 0 8 PAGE_MAGIC
    ||? differs (get_u16 page 8) FORMAT_VERSION
    ||? differs (get_u16 page 10) PAGE_HEADER_BYTES
    ||? differs (get_u16 page 12) EXACT_INDEX_ENTRY_BYTES
    ||? differs (get_u16 page 14) expected
    ||? differs (get_u32 page 16) ordinal
    ||? differs (get_u64 page 24) start
    ||? range_any_nonzero page 108 PAGE_HEADER_BYTES
    ||? (computed ← checksum_with_zero page PAGE_CRC_OFFSET;
         differs (get_u32 page PAGE_CRC_OFFSET) computed);
  reject_if bad InvalidPage;;
  page_entries ←
    decode_entries EXACT_INDEX_ENTRY_BYTES (table_start PAGE_HEADER_BYTES EXACT_INDEX_ENTRY_BYTES)
      entry_decode page 0 (Z.to_nat expected);
  trailing ← range_any_nonzero page (PAGE_HEADER_BYTES + expected * EXACT_INDEX_ENTRY_BYTES) (blen page);
  reject_if trailing InvalidPage;;
  first ← ok_or (head page_entries) InvalidPage;
  last ← ok_or (last page_entries) InvalidPage;
  bad ←
    range_differs page 32 64 (chunk_id first)
    ||? differs (get_u32 page 64) (logical_length first)
    ||? range_any_nonzero page 68 72
    ||? range_differs page 72 104 (chunk_id last)
    ||? differs (get_u32 page 104) (logical_length last);
  reject_if bad InvalidPage;;
  Ok (output ++ page_entries).

(** ** Header and footer *)

(** [fn encode_identity_fields] *)
Definition encode_identity_fields (block magic : bytes) (profile : ExactIndexProfileId)
    (generation entry_count page_count : Z) (key_bounds : bytes) (footer_offset file_length : Z)
    : result bytes :=
  block ← put block 0 magic;
  block ← put_u16 block 8 FORMAT_VERSION;
  block ← put_u16 block 10 4096;
  block ← put_u16 block 12 4096;
  block ← put_u16 block 14 128;
  block ← put_u64 block 32 generation;
  entry_count ← u64_from_usize entry_count;
  block ← put_u64 block 40 entry_count;
  page_count ← u64_from_usize page_count;
  block ← put_u64 block 48 page_count;
  block ← put_u32 block 56 31;
  block ← put_u32 block 60 1;
  block ← put block 64 profile;
  block ← put block 96 key_bounds;
  block ← put_u64 block 160 4096;
  footer_offset ← u64_from_usize footer_offset;
  block ← put_u64 block 168 footer_offset;
  file_length ← u64_from_usize file_length;
  put_u64 block 176 file_length.

(** [fn validate_identity_block] *)
Definition validate_identity_block `{Crc32c} (block magic : bytes) (crc_offset : Z) : result () :=
  bad ←
    Ok (negb (blen block =? EXACT_INDEX_HEADER_BYTES))
    ||? range_differs block 0 8 magic
    ||? differs (get_u16 block 8) FORMAT_VERSION
    ||? differs (get_u16 block 12) EXACT_INDEX_PAGE_BYTES
    ||? differs (get_u16 block 14) EXACT_INDEX_ENTRY_BYTES
    ||? differs (get_u64 block 16) 0
    ||? differs (get_u64 block 24) 0
    ||? differs (get_u32 block 56) ENTRIES_PER_PAGE
    ||? differs (get_u32 block 60) 1
    ||? (computed ← checksum_with_zero block crc_offset;
         differs (get_u32 block crc_offset) computed);
  reject_if bad InvalidHeader;;
  bad ←
    Ok (bool_decide (magic = HEADER_MAGIC))
    &&? (differs (get_u16 block 10) EXACT_INDEX_HEADER_BYTES
         ||? range_any_nonzero block 188 (blen block));
  reject_if bad InvalidHeader.

(** [ExactIndexRunDescriptor] *)
Record ExactIndexRunDescriptor := {
  profile : ExactIndexProfileId;
  generation : Z;
  entry_count : Z;
  descriptor_page_count : Z;
  footer_offset : Z;
  file_length : Z;
  key_bounds : bytes;
  run_hash : bytes;
}.
(** [ExactIndexRunDescriptor::minimum_chunk_id] and [maximum_chunk_id] *)
Definition minimum_chunk_id (d : ExactIndexRunDescriptor) : bytes := sub (key_bounds d) 0 32.
Definition maximum_chunk_id (d : ExactIndexRunDescriptor) : bytes := sub (key_bounds d) 32 32.

(** [ExactIndexRunDescriptor::decode] *)
Definition descriptor_decode `{Crc32c} (header footer : bytes) (physical_length : Z)
    : result ExactIndexRunDescriptor :=
  validate_identity_block header HEADER_MAGIC HEADER_CRC_OFFSET;;
  validate_identity_block footer FOOTER_MAGIC FOOTER_CRC_OFFSET;;
  identity ← index_range header 16 184;
  bad ←
    range_differs footer 16 184 identity
    ||? differs (get_u16 footer 10) FOOTER_BYTES
    ||? range_any_nonzero footer 220 (blen footer);
  reject_if bad HeaderFooterMismatch;;
  entry_count ← get_u64 header 40;
  let page_count := page_count entry_count in
  expected_length ← encoded_length entry_count;
  footer_offset ← footer_offset_of page_count;
  bad ←
    Ok (negb (physical_length =? expected_length))
    ||? (expected ← u64_from_usize page_count; differs (get_u64 header 48) expected)
    ||? differs (get_u64 header 160) 4096
    ||? (expected ← u64_from_usize footer_offset; differs (get_u64 header 168) expected)
    ||? (expected ← u64_from_usize physical_length; differs (get_u64 header 176) expected);
  reject_if bad InvalidHeader;;
  generation ← get_u64 header 32;
  reject_if (generation =? 0) InvalidGeneration;;
  profile ← index_range header 64 96;
  profile ← ok_or (ExactIndexProfileId_new profile) InvalidHeader;
  key_bounds ← index_range header 96 160;
  reject_if ((entry_count =? 0) && negb (bool_decide (key_bounds = zeros 64))) InvalidHeader;;
  run_hash ← index_range footer RUN_HASH_OFFSET (RUN_HASH_OFFSET + 32);
  Ok {| profile := profile; generation := generation; entry_count := entry_count;
        descriptor_page_count := page_count; footer_offset := footer_offset;
        file_length := physical_length; key_bounds := key_bounds; run_hash := run_hash |}.

(** [ExactIndexRunDescriptor::page_offset] *)
Definition page_offset (d : ExactIndexRunDescriptor) (page_ordinal : Z) : option Z :=
  if descriptor_page_count d <=? page_ordinal then None
  else
    pages ← checked_mul usize_max page_ordinal EXACT_INDEX_PAGE_BYTES;
    offset ← checked_add usize_max EXACT_INDEX_HEADER_BYTES pages;
    try_from_u u64_max offset.

(** [ExactIndexPage] *)
Record ExactIndexPage := { page_ordinal : Z; page_entries : list ExactIndexEntry }.

(** [ExactIndexRunDescriptor::decode_page] *)
Definition descriptor_decode_page `{Crc32c} (d : ExactIndexRunDescriptor) (page_ordinal : Z) (b : bytes)
    : result ExactIndexPage :=
  reject_if (descriptor_page_count d <=? page_ordinal) InvalidPage;;
  entries ← decode_page b page_ordinal (entry_count d) [];
  validate_entries entries;;
  first ← expect (head entries);
  last ← expect (last entries);
  next ← add_or_panic usize_max page_ordinal 1;
  reject_if
    (bool_decide (chunk_id first <o minimum_chunk_id d)
     || bool_decide (maximum_chunk_id d <o chunk_id last)
     || ((page_ordinal =? 0) && negb (bool_decide (chunk_id first = minimum_chunk_id d)))
     || ((next =? descriptor_page_count d) && negb (bool_decide (chunk_id last = maximum_chunk_id d))))
    InvalidPage;;
  Ok {| page_ordinal := page_ordinal; page_entries := entries |}.

(** ** Lookup in a page *)
Inductive ExactIndexPagePosition := Before | Within | After.
(** [ExactIndexPage::position] *)
Definition position (page : ExactIndexPage) (chunk : bytes) (length : Z) : result ExactIndexPagePosition :=
  first ← expect (head (page_entries page));
  last ← expect (last (page_entries page));
  Ok (if bool_decide ((chunk, length) <o entry_key first) then Before
      else if bool_decide (entry_key last <o (chunk, length)) then After
      else Within).
(** [ExactIndexPage::candidates] *)
Definition candidates (page : ExactIndexPage) (chunk : bytes) (length : Z)
    : result (list ExactIndexEntry) :=
  let start := partition_point (λ e, bool_decide (entry_key e <o (chunk, length))) (page_entries page) in
  let end_ := partition_point (λ e, bool_decide (entry_key e ≤o (chunk, length))) (page_entries page) in
  index_range (page_entries page) (Z.of_nat start) (Z.of_nat end_).

(** ** Complete runs *)
Record ExactIndexRun := {
  run_profile : ExactIndexProfileId;
  run_generation : Z;
  run_entries : list ExactIndexEntry;
}.

(** [ExactIndexRun::new] *)
Definition run_new (profile : ExactIndexProfileId) (generation : Z) (entries : list ExactIndexEntry)
    : result ExactIndexRun :=
  reject_if (generation =? 0) InvalidGeneration;;
  encoded_length (blen entries);;
  let entries := sort_by_key location_key entries in
  validate_entries entries;;
  Ok {| run_profile := profile; run_generation := generation; run_entries := entries |}.

(** [fn encode_identity_block] *)
Definition encode_identity_block (block magic : bytes) (run : ExactIndexRun)
    (page_count footer_offset file_length : Z) : result bytes :=
  encode_identity_fields block magic (run_profile run) (run_generation run) (blen (run_entries run))
    page_count (key_bounds_of (run_entries run)) footer_offset file_length.

(** [fn calculate_run_hash] *)
Definition calculate_run_hash `{Blake3} (b : bytes) (footer_offset : Z) : result bytes :=
  zero_start ← add_or_panic usize_max footer_offset RUN_HASH_OFFSET;
  zero_end ← add_or_panic usize_max footer_offset (FOOTER_CRC_OFFSET + 4);
  head ← index_range b 0 zero_start;
  let hasher := Hasher.update Hasher.new head in
  let hasher := Hasher.update hasher (zeros 36) in
  tail ← index_from b zero_end;
  let hasher := Hasher.update hasher tail in
  Ok (Hasher.finalize hasher).

(** [slice::chunks] of the entries; every chunk takes at least one element of
    [l], so [length l] rounds are enough. *)
Fixpoint chunks_fuel {A} (fuel n : nat) (l : list A) : list (list A) :=
  match fuel, l with
  | S fuel, _ :: _ => take n l :: chunks_fuel fuel n (drop n l)
  | _, _ => []
  end.
Definition chunks {A} (n : nat) (l : list A) : list (list A) := chunks_fuel (length l) n l.

(** [Iterator::enumerate] *)
Fixpoint enumerate_from {A} (ordinal : Z) (l : list A) : list (Z * A) :=
  match l with
  | [] => []
  | x :: l => (ordinal, x) :: enumerate_from (ordinal + 1) l
  end.
(** The page loop of [ExactIndexRun::encode] *)
Definition encode_pages `{Crc32c} (b : bytes) (entries : list ExactIndexEntry) : result bytes :=
  encode_entries EXACT_INDEX_PAGE_BYTES (table_start EXACT_INDEX_HEADER_BYTES EXACT_INDEX_PAGE_BYTES)
    (λ page '(page_ordinal, entries), encode_page page page_ordinal entries) b 0
    (enumerate_from 0 (chunks (Z.to_nat ENTRIES_PER_PAGE) entries)).

(** [ExactIndexRun::encode] *)
Definition run_encode `{Crc32c, Blake3} (run : ExactIndexRun) : result bytes :=
  validate_entries (run_entries run);;
  file_length ← encoded_length (blen (run_entries run));
  let page_count := page_count (blen (run_entries run)) in
  footer_offset ← footer_offset_of page_count;
  let b := zeros file_length in
  block ← index_range b 0 EXACT_INDEX_HEADER_BYTES;
  block ← encode_identity_block block HEADER_MAGIC run page_count footer_offset file_length;
  b ← put b 0 block;
  block ← index_range b 0 EXACT_INDEX_HEADER_BYTES;
  header_crc ← checksum_with_zero block HEADER_CRC_OFFSET;
  b ← put_u32 b HEADER_CRC_OFFSET header_crc;
  b ← encode_pages b (run_entries run);
  block ← index_from b footer_offset;
  block ← encode_identity_block block FOOTER_MAGIC run page_count footer_offset file_length;
  block ← put_u16 block 10 4096;
  b ← put b footer_offset block;
  run_hash ← calculate_run_hash b footer_offset;
  b ← put b (footer_offset + RUN_HASH_OFFSET) run_hash;
  block ← index_from b footer_offset;
  footer_crc ← checksum_with_zero block FOOTER_CRC_OFFSET;
  put_u32 b (footer_offset + FOOTER_CRC_OFFSET) footer_crc.

(** The page loop of [ExactIndexRun::decode] *)
Fixpoint decode_pages `{Crc32c} (d : ExactIndexRunDescriptor) (b : bytes) (page_ordinal : Z) (count : nat)
    (entries : list ExactIndexEntry) : result (list ExactIndexEntry) :=
  match count with
  | O => Ok entries
  | S count =>
      start ← expect (page_offset d page_ordinal);
      slice ← index_range b start (start + EXACT_INDEX_PAGE_BYTES);
      page ← descriptor_decode_page d page_ordinal slice;
      decode_pages d b (page_ordinal + 1) count (entries ++ page_entries page)
  end.

(** [ExactIndexRun::decode] *)
Definition run_decode `{Crc32c, Blake3} (b : bytes) : result ExactIndexRun :=
  reject_if ((blen b <? EXACT_INDEX_HEADER_BYTES + FOOTER_BYTES) || (MAX_RUN_BYTES <? blen b))
    (InvalidObjectLength (blen b));;
  footer_offset_ ← sub_or_panic (blen b) FOOTER_BYTES;
  header ← index_range b 0 EXACT_INDEX_HEADER_BYTES;
  footer ← index_from b footer_offset_;
  physical_length ← u64_from_usize (blen b);
  descriptor ← descriptor_decode header footer physical_length;
  hash ← calculate_run_hash b (footer_offset descriptor);
  reject_if (negb (bool_decide (hash = run_hash descriptor))) RunHashMismatch;;
  entries ← decode_pages descriptor b 0 (Z.to_nat (descriptor_page_count descriptor)) [];
  validate_entries entries;;
  reject_if (negb (blen entries =? entry_count descriptor)
             || negb (bool_decide (key_bounds_of entries = key_bounds descriptor))) InvalidHeader;;
  Ok {| run_profile := profile descriptor; run_generation := generation descriptor;
        run_entries := entries |}.

(** ** The streaming encoder *)
Record ExactIndexRunStreamEncoder := {
  stream_profile : ExactIndexProfileId;
  stream_generation : Z;
  stream_entry_count : Z;
  stream_page_count : Z;
  stream_footer_offset : Z;
  stream_file_length : Z;
  stream_key_bounds : bytes;
  stream_header : bytes;
  stream_hasher : bytes;
  emitted_entries : Z;
  emitted_pages : Z;
  stream_previous : option ExactIndexEntry;
}.

(** [ExactIndexRunStreamEncoder::new] *)
Definition stream_new `{Crc32c} (profile : ExactIndexProfileId) (generation entry_count : Z)
    (minimum_chunk_id maximum_chunk_id : bytes) : result ExactIndexRunStreamEncoder :=
  reject_if (generation =? 0) InvalidGeneration;;
  reject_if ((entry_count =? 0) || bool_decide (maximum_chunk_id <o minimum_chunk_id)) InvalidEntry;;
  file_length ← encoded_length entry_count;
  let page_count := page_count entry_count in
  footer_offset ← footer_offset_of page_count;
  let key_bounds := minimum_chunk_id ++ maximum_chunk_id in
  header ← encode_identity_fields (zeros EXACT_INDEX_HEADER_BYTES) HEADER_MAGIC profile generation
             entry_count page_count key_bounds footer_offset file_length;
  header_crc ← checksum_with_zero header HEADER_CRC_OFFSET;
  header ← put_u32 header HEADER_CRC_OFFSET header_crc;
  Ok {| stream_profile := profile; stream_generation := generation;
        stream_entry_count := entry_count; stream_page_count := page_count;
        stream_footer_offset := footer_offset; stream_file_length := file_length;
        stream_key_bounds := key_bounds; stream_header := header;
        stream_hasher := Hasher.update Hasher.new header; emitted_entries := 0;
        emitted_pages := 0; stream_previous := None |}.

(** [ExactIndexRunStreamEncoder::encode_next_page]: the encoder after the call and the page *)
Definition encode_next_page `{Crc32c} (s : ExactIndexRunStreamEncoder) (entries : list ExactIndexEntry)
    : result (ExactIndexRunStreamEncoder * bytes) :=
  remaining ← ok_or (checked_sub (stream_entry_count s) (emitted_entries s)) ArithmeticOverflow;
  let expected := Z.min remaining ENTRIES_PER_PAGE in
  reject_if ((stream_page_count s <=? emitted_pages s) || negb (blen entries =? expected)
             || (expected =? 0)) InvalidPage;;
  match stream_previous s with
  | Some previous => first ← vec_at entries 0; validate_entry_pair previous first
  | None => Ok ()
  end;;
  validate_entries entries;;
  let minimum := sub (stream_key_bounds s) 0 32 in
  let maximum := sub (stream_key_bounds s) 32 32 in
  next ← add_or_panic usize_max (emitted_pages s) 1;
  bad_first ← Ok (emitted_pages s =? 0)
              &&? (first ← vec_at entries 0; Ok (negb (bool_decide (chunk_id first = minimum))));
  reject_if
    (bad_first
     || ((next =? stream_page_count s)
         && match last entries with
            | None => true
            | Some entry => negb (bool_decide (chunk_id entry = maximum))
            end)) InvalidPage;;
  page ← encode_page (zeros EXACT_INDEX_PAGE_BYTES) (emitted_pages s) entries;
  emitted ← ok_or (checked_add usize_max (emitted_entries s) (blen entries)) ArithmeticOverflow;
  pages ← ok_or (checked_add usize_max (emitted_pages s) 1) ArithmeticOverflow;
  Ok ({| stream_profile := stream_profile s; stream_generation := stream_generation s;
         stream_entry_count := stream_entry_count s; stream_page_count := stream_page_count s;
         stream_footer_offset := stream_footer_offset s; stream_file_length := stream_file_length s;
         stream_key_bounds := stream_key_bounds s; stream_header := stream_header s;
         stream_hasher := Hasher.update (stream_hasher s) page; emitted_entries := emitted;
         emitted_pages := pages; stream_previous := last entries |}, page).

(** [ExactIndexRunStreamEncoder::finish] *)
Definition stream_finish `{Crc32c, Blake3} (s : ExactIndexRunStreamEncoder)
    : result (bytes * ExactIndexRunDescriptor) :=
  reject_if (negb (emitted_entries s =? stream_entry_count s)
             || negb (emitted_pages s =? stream_page_count s)) NonSequentialAudit;;
  footer ← encode_identity_fields (zeros EXACT_INDEX_PAGE_BYTES) FOOTER_MAGIC (stream_profile s)
             (stream_generation s) (stream_entry_count s) (stream_page_count s) (stream_key_bounds s)
             (stream_footer_offset s) (stream_file_length s);
  footer ← put_u16 footer 10 4096;
  let hasher := Hasher.update (stream_hasher s) footer in
  let run_hash := Hasher.finalize hasher in
  footer ← put footer RUN_HASH_OFFSET run_hash;
  footer_crc ← checksum_with_zero footer FOOTER_CRC_OFFSET;
  footer ← put_u32 footer FOOTER_CRC_OFFSET footer_crc;
  length ← u64_from_usize (stream_file_length s);
  descriptor ← descriptor_decode (stream_header s) footer length;
  Ok (footer, descriptor).

(** ** The sequential audit *)
Record ExactIndexRunHashAudit := {
  audit_descriptor : ExactIndexRunDescriptor;
  audit_hasher : bytes;
  next_offset : Z;
  pages_verified : Z;
  audit_previous : option ExactIndexEntry;
}.
(** [ExactIndexRunDescriptor::begin_hash_audit] *)
Definition begin_hash_audit (d : ExactIndexRunDescriptor) : ExactIndexRunHashAudit :=
  {| audit_descriptor := d; audit_hasher := Hasher.new; next_offset := 0; pages_verified := 0;
     audit_previous := None |}.

(** [ExactIndexRunHashAudit::update] *)
Definition audit_update (a : ExactIndexRunHashAudit) (offset : Z) (b : bytes)
    : result ExactIndexRunHashAudit :=
  reject_if (negb (offset =? next_offset a)) NonSequentialAudit;;
  end_ ← ok_or (checked_add usize_max offset (blen b)) ArithmeticOverflow;
  reject_if (file_length (audit_descriptor a) <? end_) NonSequentialAudit;;
  zero_start ← ok_or (checked_add usize_max (footer_offset (audit_descriptor a)) RUN_HASH_OFFSET)
                 ArithmeticOverflow;
  zero_end ← ok_or (checked_add usize_max (footer_offset (audit_descriptor a)) (FOOTER_CRC_OFFSET + 4))
               ArithmeticOverflow;
  let overlap_start := Z.min (Z.max offset zero_start) end_ in
  let overlap_end := Z.max (Z.min end_ zero_end) offset in
  hasher ←
    (if overlap_start <? overlap_end then
       prefix ← sub_or_panic overlap_start offset;
       suffix ← sub_or_panic overlap_end offset;
       head ← index_range b 0 prefix;
       let hasher := Hasher.update (audit_hasher a) head in
       zero_bytes ← index_range (zeros 36) 0 (overlap_end - overlap_start);
       let hasher := Hasher.update hasher zero_bytes in
       tail ← index_from b suffix;
       Ok (Hasher.update hasher tail)
     else Ok (Hasher.update (audit_hasher a) b));
  Ok {| audit_descriptor := audit_descriptor a; audit_hasher := hasher; next_offset := end_;
        pages_verified := pages_verified a; audit_previous := audit_previous a |}.

(** [ExactIndexRunHashAudit::verify_page] *)
Definition verify_page (a : ExactIndexRunHashAudit) (page : ExactIndexPage)
    : result ExactIndexRunHashAudit :=
  reject_if (negb (page_ordinal page =? pages_verified a)) InvalidPage;;
  first ← expect (head (page_entries page));
  match audit_previous a with
  | Some previous => validate_entry_pair previous first
  | None => Ok ()
  end;;
  verified ← ok_or (checked_add usize_max (pages_verified a) 1) ArithmeticOverflow;
  Ok {| audit_descriptor := audit_descriptor a; audit_hasher := audit_hasher a;
        next_offset := next_offset a; pages_verified := verified;
        audit_previous := last (page_entries page) |}.

(** [ExactIndexRunHashAudit::finish] *)
Definition audit_finish `{Blake3} (a : ExactIndexRunHashAudit) : result () :=
  reject_if (negb (next_offset a =? file_length (audit_descriptor a))
             || negb (pages_verified a =? descriptor_page_count (audit_descriptor a))) NonSequentialAudit;;
  reject_if (negb (bool_decide (Hasher.finalize (audit_hasher a) = run_hash (audit_descriptor a))))
    RunHashMismatch.
End ExactIndex.
