(* ===== verification/ExactIndexPage.v ===== *)
(** * Exact index entries and pages

    The entry codec, the page codec and the lookup in a page: a page decodes to
    the entries it was encoded from and to nothing else, and [candidates] finds
    exactly the entries of a key. *)
From S2P Require Export ExactIndex.

Module ExactIndexPage.
Import ExactIndex.

(** ** Entries *)

(** An entry with fields of their widths and a location the code accepts. *)
Record entry_ok (e : ExactIndexEntry) : Prop := {
  ok_chunk : blen (chunk_id e) = 32;
  ok_length : is_u32 (logical_length e);
  ok_container : blen (container_id (location e)) = 16 ∧ container_id (location e) ≠ zeros 16;
  ok_container_generation : is_u64 (container_generation (location e));
  ok_record_offset : is_u64 (record_offset (location e));
  ok_record_length : is_u32 (record_length (location e));
  ok_chunk_ordinal : is_u32 (chunk_ordinal (location e));
  ok_decoded_offset : is_u32 (decoded_offset (location e));
  ok_crc : is_u32 (record_crc32c (location e));
  ok_decoded_length : is_u32 (record_decoded_length (location e));
  ok_payload_length : is_u32 (record_payload_length (location e));
  ok_codec : is_u16 (codec_id (location e));
  ok_dependency : blen (dependency_id (location e)) = 32;
  ok_valid : valid_location (logical_length e) (location e) = true;
}.
Definition entry_fields (e : ExactIndexEntry) : list field := let l := location e in [
  Field 0 32 (chunk_id e);
  Field 32 4 (le_bytes 4 (logical_length e));
  Field 36 2 (le_bytes 2 (transition_encode (transition e)));
  Field 38 2 (le_bytes 2 (codec_id l));
  Field 40 16 (container_id l);
  Field 56 8 (le_bytes 8 (container_generation l));
  Field 64 8 (le_bytes 8 (record_offset l));
  Field 72 4 (le_bytes 4 (record_length l));
  Field 76 4 (le_bytes 4 (chunk_ordinal l));
  Field 80 4 (le_bytes 4 (decoded_offset l));
  Field 84 4 (le_bytes 4 (record_crc32c l));
  Field 88 4 (le_bytes 4 (record_decoded_length l));
  Field 92 4 (le_bytes 4 (record_payload_length l));
  Field 96 32 (dependency_id l) ].
Definition entry_bytes (e : ExactIndexEntry) : bytes := render 128 (entry_fields e).

Lemma transition_decode_Some v t : transition_decode v = Some t ↔ v = transition_encode t.
Proof.
  unfold transition_decode. split; [repeat case_match; by intros [= <-]|by intros ->; destruct t].
Qed.
Lemma equals_false {E} (m : outcome E Z) v : equals m v = Ok false ↔ ∃ x, m = Ok x ∧ x ≠ v.
Proof.
  unfold equals. destruct m as [z| |]; simpl; [|naive_solver..]. destruct (Z.eqb_spec z v); naive_solver.
Qed.
Lemma ContainerId_new_Some b c : ContainerId_new b = Some c ↔ c = b ∧ b ≠ zeros 16.
Proof. unfold ContainerId_new. case_bool_decide; naive_solver. Qed.
Lemma valid_location_nonzero n l : valid_location n l = true → n ≠ 0.
Proof. unfold valid_location. destruct (Z.eqb_spec n 0); simpl; done. Qed.

Lemma index_entry_fits e : entry_ok e → Forall (fits 128) (entry_fields e).
Proof. intros [? ? [? _] ? ? ? ? ? ? ? ? ? ? _]. unfold entry_fields. cbv zeta. solve_fits. Qed.
Lemma blen_index_entry e : entry_ok e → blen (entry_bytes e) = 128.
Proof. intros. apply blen_render; [lia|]. by apply index_entry_fits. Qed.
Lemma entry_encode_render e : entry_ok e → entry_encode (zeros 128) e = Ok (entry_bytes e).
Proof.
  intros He. change (entry_encode (zeros 128) e) with (@puts ExactIndexFormatError (zeros 128) (entry_fields e)).
  apply (puts_in 128); [by apply blen_zeros|by apply index_entry_fits].
Qed.

Lemma entry_decode_inv b e : blen b = 128 → entry_decode b = Ok e → entry_ok e ∧ b = entry_bytes e.
Proof.
  intros Hb Hd. unfold entry_decode in Hd. inv_run.
  match goal with H : equals _ _ = Ok false |- _ => apply equals_false in H as (?&?&?) end.
  inv_reads.
  match goal with H : ContainerId_new _ = Some _ |- _ => apply ContainerId_new_Some in H as [-> Hid] end.
  match goal with H : transition_decode _ = Some _ |- _ => apply transition_decode_Some in H as -> end.
  subst. match goal with |- entry_ok ?x ∧ _ => set (e := x) end.
  assert (He : entry_ok e).
  { split; simpl; try done; try (rewrite blen_sub; lia). split; [rewrite blen_sub; lia|done]. }
  split; [done|].
  apply (render_unique 128 _ b [32;4;2;2;16;8;8;4;4;4;4;4;4;32]); [done|by apply index_entry_fits|done|done|].
  unfold e. render_parts.
Qed.
Lemma entry_decode_encode e : entry_ok e → entry_decode (entry_bytes e) = Ok e.
Proof.
  intros He. pose proof (index_entry_fits e He) as Hfits. pose proof (blen_index_entry e He) as Hb.
  destruct (He) as [? ? [? ?] ? ? ? ? ? ? ? ? ? ? Hv]. unfold entry_bytes in *.
  set (b := render 128 (entry_fields e)) in *.
  assert (Hsub : ∀ o k v, 0 ≤ o → 0 ≤ k → o + k ≤ 128 →
    field_at (rev (entry_fields e)) o k = Some v → sub b o k = v).
  { intros. by apply (sub_render 128). }
  unfold entry_decode, equals. rewrite Hb. clearbody b. osimpl. eval_reads b Hb. osimpl. eval_sub b Hsub.
  assert (is_u16 (transition_encode (transition e))) by (destruct (transition e); uint).
  eval_ints. rewrite (proj2 (Z.eqb_neq (logical_length e) 0)) by (by eapply valid_location_nonzero).
  osimpl. rewrite (proj2 (transition_decode_Some _ _) eq_refl). osimpl.
  rewrite (proj2 (ContainerId_new_Some _ _)) by done. osimpl.
  destruct e as [c n t []]. simpl in *. rewrite Hv. done.
Qed.
Lemma entry_decode_iff b e : blen b = 128 → entry_decode b = Ok e ↔ entry_ok e ∧ b = entry_bytes e.
Proof. intros Hb. split; [by apply entry_decode_inv|]. intros [? ->]. by apply entry_decode_encode. Qed.
Lemma entry_decode_no_panic b : blen b = 128 → no_panic (entry_decode b).
Proof.
  intros Hb. unfold entry_decode, equals. rewrite Hb. no_panic_reads.
Qed.

(** ** Canonical order *)
Definition pair_ok (a b : ExactIndexEntry) : Prop :=
  (chunk_id a = chunk_id b → logical_length a = logical_length b) ∧ location_key a <o location_key b.

Lemma validate_entry_pair_iff a b : validate_entry_pair a b = Ok () ↔ pair_ok a b.
Proof.
  unfold validate_entry_pair, pair_ok. split.
  - intros Hv. inv_run. split; [|by apply not_ole].
    intros Heq. rewrite (bool_decide_true _ Heq) in *. zbool. simpl in *. zbool. done.
  - intros [Hl Ho]. rewrite (bool_decide_false (_ ≤o _)) by (by apply not_ole).
    destruct (bool_decide_reflect (chunk_id a = chunk_id b)) as [Heq|]; [|done].
    by rewrite (Hl Heq), Z.eqb_refl.
Qed.
Lemma validate_entries_iff es : validate_entries es = Ok () ↔ Sorted pair_ok es.
Proof.
  induction es as [|a es IH]; [split; [constructor|done]|].
  destruct es as [|b es]; [split; [by repeat constructor|done]|].
  change (validate_entries (a :: b :: es)) with (validate_entry_pair a b;; validate_entries (b :: es)).
  rewrite bind_Ok. split.
  - intros ([]&Hp%validate_entry_pair_iff&Hs%IH). by constructor; [|constructor].
  - intros Hs. apply Sorted_inv in Hs as [Hs Hr]. exists (). inversion Hr.
    by rewrite validate_entry_pair_iff, IH.
Qed.
Lemma no_panic_validate_entry_pair a b : no_panic (validate_entry_pair a b).
Proof. unfold validate_entry_pair. auto with fastdup nocore. Qed.
Lemma no_panic_validate_entries es : no_panic (validate_entries es).
Proof.
  induction es as [|a es IH]; [done|]. destruct es as [|b es]; [done|].
  apply no_panic_bind; [apply no_panic_validate_entry_pair|by intros _ _].
Qed.

Lemma location_key_chunk a b : location_key a <o location_key b → chunk_id a ≤o chunk_id b.
Proof.
  unfold location_key. rewrite !olt_pair, ole_iff. naive_solver.
Qed.
#[global] Instance pair_ok_trans : Transitive pair_ok.
Proof.
  intros a b c [Hab1 Hab2] [Hbc1 Hbc2]. split; [|by apply (olt_trans _ (location_key b))].
  intros Hac. pose proof (location_key_chunk _ _ Hab2) as H1. pose proof (location_key_chunk _ _ Hbc2) as H2.
  rewrite <-Hac in H2. pose proof (ole_antisymm _ _ H1 H2) as Heq. rewrite Hab1, Hbc1 by congruence. done.
Qed.
Lemma canonical_strong es : Sorted pair_ok es → StronglySorted pair_ok es.
Proof. apply Sorted_StronglySorted, pair_ok_trans. Qed.
Lemma pair_ok_key a b : pair_ok a b → entry_key a ≤o entry_key b.
Proof.
  intros [Hl Hk]. unfold entry_key, location_key in *. rewrite !olt_pair in Hk. apply ole_iff. rewrite olt_pair.
  destruct Hk as [[[[?|[? ?]]|[[=] ?]]|[[=] ?]]|[[=] ?]]; subst; [by left; left|left; by right|right; congruence..].
Qed.

(** ** Checksums *)
Lemma checksum_with_zero_eq `{Crc32cLaws} (b : bytes) o :
  0 ≤ o → o + 4 ≤ blen b → o + 4 ≤ usize_max →
  checksum_with_zero b o = crc32c_with_zeroed_u32 b o.
Proof.
  intros. unfold checksum_with_zero, crc32c_with_zeroed_u32. rewrite checked_add_ok by done. osimpl.
  rewrite (proj2 (Z.leb_le _ _)) by lia. rewrite index_range_in by lia. cbn [assert_true]. osimpl.
  by rewrite crc32c_append_0.
Qed.

(** A field a layout leaves zero, and the checksum stored in it. *)
Lemma render_zeroed n fs o k :
  0 ≤ o → 0 ≤ k → o + k ≤ n → Forall (fits n) fs → field_at (rev fs) o k = Some (zeros k) →
  splice (render n fs) o (zeros k) = render n fs.
Proof.
  intros Ho Hk Hn Hfits Hz. pose proof (blen_render n fs ltac:(lia) Hfits) as Hl.
  rewrite <-(sub_render n fs o k (zeros k)) by done. apply splice_sub; lia.
Qed.
Lemma checksum_render `{Crc32cLaws} n fs o :
  0 ≤ o → o + 4 ≤ n → n ≤ usize_max → Forall (fits n) fs → field_at (rev fs) o 4 = Some (zeros 4) →
  checksum_with_zero (render n fs) o = Ok (crc32c (render n fs)).
Proof.
  intros. pose proof (blen_render n fs ltac:(lia) ltac:(done)) as Hl.
  rewrite checksum_with_zero_eq, crc32c_with_zeroed_u32_in by lia. by rewrite render_zeroed by (done || lia).
Qed.

(** ** Pages *)
Definition page_head_fields (ordinal : Z) (es : list ExactIndexEntry) (first last : ExactIndexEntry)
    : list field := [
  Field 0 8 PAGE_MAGIC;
  Field 8 2 (le_bytes 2 FORMAT_VERSION);
  Field 10 2 (le_bytes 2 128);
  Field 12 2 (le_bytes 2 128);
  Field 14 2 (le_bytes 2 (blen es));
  Field 16 4 (le_bytes 4 ordinal);
  Field 24 8 (le_bytes 8 (ordinal * 31));
  Field 32 32 (chunk_id first);
  Field 64 4 (le_bytes 4 (logical_length first));
  Field 72 32 (chunk_id last);
  Field 104 4 (le_bytes 4 (logical_length last)) ].
Definition page_body (es : list ExactIndexEntry) : bytes :=
  table_bytes entry_bytes es ++ zeros (3968 - 128 * blen es).
Definition page_fields (ordinal : Z) (es : list ExactIndexEntry) (first last : ExactIndexEntry)
    : list field := page_head_fields ordinal es first last ++ [Field 128 3968 (page_body es)].
Definition page_bytes `{Crc32c} (ordinal : Z) (es : list ExactIndexEntry) : bytes :=
  match head es, last es with
  | Some first, Some last => Layout.seal 4096 (page_fields ordinal es first last) 20
  | _, _ => []
  end.

(** A page of [n] entries at an ordinal the format can write. *)
Record page_ok (ordinal : Z) (es : list ExactIndexEntry) : Prop := {
  ok_ordinal : is_u32 ordinal;
  ok_count : 1 ≤ blen es ≤ 31;
  ok_entries : Forall entry_ok es;
}.

Lemma page_ends {A} (es : list A) : 1 ≤ blen es → ∃ first last_, head es = Some first ∧ last es = Some last_.
Proof.
  intros Hn. destruct es as [|e es]; [rewrite blen_nil in Hn; lia|]. exists e.
  destruct (last (e :: es)) eqn:Hl; [by eexists|]. by apply last_None in Hl.
Qed.
Lemma page_ends_in {A} (es : list A) first last_ :
  head es = Some first → last es = Some last_ → first ∈ es ∧ last_ ∈ es.
Proof.
  intros Hf Hl. split; [destruct es; simplify_eq/=; by left|by apply last_Some_elem_of].
Qed.

Lemma page_head_fits n o es f l :
  128 ≤ n → blen (chunk_id f) = 32 → blen (chunk_id l) = 32 → Forall (fits n) (page_head_fields o es f l).
Proof. intros. unfold page_head_fields. solve_fits. Qed.
Lemma blen_page_body es : Forall entry_ok es → blen es ≤ 31 → blen (page_body es) = 3968.
Proof.
  intros Hes Hn. unfold page_body.
  rewrite blen_app, (blen_table_bytes 128 entry_ok entry_bytes blen_index_entry es Hes), blen_zeros; lia.
Qed.
Lemma page_fits o es f l :
  Forall entry_ok es → blen es ≤ 31 → f ∈ es → l ∈ es → Forall (fits 4096) (page_fields o es f l).
Proof.
  intros Hes Hn Hf Hl. rewrite list.Forall_forall in Hes. apply Forall_app. split.
  - apply page_head_fits; [lia|by apply Hes..].
  - apply Forall_singleton. split_and!; [done|done|]. apply blen_page_body; [by apply list.Forall_forall|done].
Qed.

Lemma splice_app_end {A} (a c v : list A) o : blen a = o → blen v = blen c → splice (a ++ c) o v = a ++ v.
Proof.
  intros <- Hv. rewrite splice_app_r by lia. by rewrite Hv, Z.sub_diag, sub_0, app_nil_r.
Qed.
Lemma render_page o es f l :
  blen (chunk_id f) = 32 → blen (chunk_id l) = 32 → blen (page_body es) = 3968 →
  render 4096 (page_fields o es f l) = render 128 (page_head_fields o es f l) ++ page_body es.
Proof.
  intros Hf Hl Hb. unfold page_fields, render. unfold render_on at 1. rewrite foldl_app.
  change (foldl _ (zeros 4096) (page_head_fields o es f l)) with
    (render_on (zeros (128 + 3968)) (page_head_fields o es f l)).
  rewrite zeros_app by lia. pose proof (page_head_fits 128 o es f l ltac:(lia) Hf Hl) as Hh.
  rewrite (render_on_app 128) by (by apply blen_zeros || done). cbn [foldl offset value].
  pose proof (blen_render_on 128 _ (zeros 128) ltac:(by apply blen_zeros) Hh) as Hr.
  apply splice_app_end; [done|]. rewrite Hb, blen_zeros; lia.
Qed.

Section PageCodec.
Context `{Crc32cLaws}.

Lemma table_start_page {E} ordinal :
  0 ≤ ordinal < 31 → @table_start E PAGE_HEADER_BYTES EXACT_INDEX_ENTRY_BYTES ordinal = Ok (128 + ordinal * 128).
Proof.
  intros. unfold PAGE_HEADER_BYTES, EXACT_INDEX_ENTRY_BYTES.
  apply table_start_in; unfold usize_max, u64_max; lia.
Qed.

Lemma encode_page_seal o es :
  page_ok o es → encode_page (zeros 4096) o es = Ok (page_bytes o es).
Proof.
  intros [Ho Hn Hes]. destruct (page_ends es ltac:(lia)) as (f&l&Hf&Hl).
  destruct (page_ends_in es f l Hf Hl) as [Hfin Hlin]. pose proof (page_fits o es f l Hes ltac:(lia) Hfin Hlin) as Hfits.
  pose proof (blen_page_body es Hes ltac:(lia)) as Hbody.
  assert (blen (chunk_id f) = 32 ∧ blen (chunk_id l) = 32) as [Hcf Hcl].
  { rewrite list.Forall_forall in Hes. split; by apply ok_chunk, Hes. }
  unfold encode_page, page_bytes. rewrite Hf, Hl. unfold in_u, u32_max in Ho.
  rewrite !try_from_u_ok by (unfold u16_max, u32_max; lia).
  unfold ENTRIES_PER_PAGE. rewrite checked_mul_ok by (unfold usize_max, u64_max; lia). cbn [mbind option_bind].
  rewrite try_from_u_ok by (unfold u64_max; lia). cbn [ok_or].
  transitivity (puts_then (zeros 4096) (page_head_fields o es f l) (λ page,
    page ← encode_entries EXACT_INDEX_ENTRY_BYTES (table_start PAGE_HEADER_BYTES EXACT_INDEX_ENTRY_BYTES)
             entry_encode page 0 es;
    crc ← checksum_with_zero page PAGE_CRC_OFFSET; put_u32 page PAGE_CRC_OFFSET crc)); [reflexivity|].
  rewrite (puts_then_in 4096) by (by apply blen_zeros || by apply page_head_fits).
  assert (Hsplit : zeros 4096 = zeros 128 ++ zeros (128 * blen es) ++ zeros (3968 - 128 * blen es)).
  { rewrite <-!zeros_app by lia. f_equal. lia. }
  rewrite Hsplit at 1. rewrite (render_on_app 128) by (by apply blen_zeros || by apply page_head_fits).
  fold (render 128 (page_head_fields o es f l)).
  rewrite (encode_table_render 128 128 31 _ _ entry_ok entry_bytes ltac:(lia) table_start_page
    blen_index_entry entry_encode_render es _ _ 0 Hes); [|rewrite (blen_render 128); [lia|lia|by apply page_head_fits]|lia..].
  osimpl. fold (page_body es). rewrite <-(render_page o es f l) by done.
  pose proof (blen_render 4096 _ ltac:(lia) Hfits) as Hlen. unfold PAGE_CRC_OFFSET.
  rewrite checksum_render by (done || (unfold usize_max, u64_max; lia)). osimpl.
  unfold put_u32. rewrite put_in by (rewrite ?Hlen; blia). reflexivity.
Qed.

(** What a decoder reads of a page that [encode_page] wrote. *)
Lemma page_facts o es f l b :
  page_ok o es → head es = Some f → last es = Some l → b = page_bytes o es →
  blen b = 4096 ∧ checksum_with_zero b 20 = get_u32 b 20 ∧ no_panic (@get_u32 ExactIndexFormatError b 20) ∧
  (∀ p k v, 0 ≤ p → 0 ≤ k → p + k ≤ 4096 → p + k ≤ 20 ∨ 24 ≤ p →
    field_at (rev (page_fields o es f l)) p k = Some v → sub b p k = v) ∧
  b = sub b 0 128 ++ table_bytes entry_bytes es ++ zeros (3968 - 128 * blen es).
Proof.
  intros [Ho Hn Hes] Hf Hl Hb. unfold page_bytes in Hb. rewrite Hf, Hl in Hb.
  destruct (page_ends_in es f l Hf Hl) as [Hfin Hlin]. pose proof (page_fits o es f l Hes ltac:(lia) Hfin Hlin) as Hfits.
  destruct (seal_facts (E:=ExactIndexFormatError) 4096 (page_fields o es f l) 20 ltac:(lia) ltac:(lia)
    ltac:(done) Hfits ltac:(reflexivity) b Hb) as (Hlen&Hcrc&Hstored&Hsub). clear Hb.
  split_and!; [done| |by rewrite Hstored|done|].
  { rewrite checksum_with_zero_eq by (rewrite ?Hlen; unfold usize_max, u64_max; lia). by rewrite Hcrc, Hstored. }
  fold (page_body es). rewrite <-(Hsub 128 3968 (page_body es)) by (lia || reflexivity).
  rewrite <-(sub_split b 0 128) by lia. symmetry. apply sub_all. lia.
Qed.

Lemma decode_page_encode o es total :
  page_ok o es → blen es = Z.min (saturating_sub total (o * 31)) 31 →
  decode_page (page_bytes o es) o total [] = Ok es.
Proof.
  intros Hok Hcount. pose proof Hok as [Ho Hn Hes]. destruct (page_ends es ltac:(lia)) as (f&l&Hf&Hl).
  destruct (page_facts o es f l _ Hok Hf Hl eq_refl) as (Hlen&Hcrc&_&Hsub&Hsplit).
  assert (is_u32 (logical_length f) ∧ is_u32 (logical_length l)) as [Hlf Hll].
  { destruct (page_ends_in es f l Hf Hl) as [Hfin Hlin]. rewrite list.Forall_forall in Hes.
    split; by apply ok_length, Hes. }
  set (b := page_bytes o es) in *. clearbody b.
  unfold decode_page. unfold in_u, u32_max in Ho. unfold ENTRIES_PER_PAGE.
  rewrite checked_mul_ok by (unfold usize_max, u64_max; lia). osimpl. cbv zeta. rewrite <-Hcount.
  rewrite Hlen. unfold EXACT_INDEX_PAGE_BYTES, PAGE_CRC_OFFSET, PAGE_HEADER_BYTES, EXACT_INDEX_ENTRY_BYTES.
  rewrite Hcrc. osimpl. eval_reads b Hlen. osimpl.
  eval_sub b Hsub.
  assert (is_u16 (blen es)) by (unfold in_u, u16_max, u32_max, u64_max; lia). assert (is_u32 o) by (unfold in_u, u16_max, u32_max, u64_max; lia). assert (is_u64 (o * 31)) by (unfold in_u, u16_max, u32_max, u64_max; lia).
  eval_ints. osimpl. eval_ints. osimpl.
  rewrite Hsplit at 1.
  rewrite (proj2 (decode_table_iff 128 128 31 _ entry_decode entry_ok entry_bytes ltac:(lia) table_start_page
    blen_index_entry entry_decode_iff es (Z.to_nat (blen es)) (sub b 0 128) _ _ 0
    ltac:(rewrite blen_sub; lia) ltac:(lia) ltac:(lia)
    ltac:(rewrite (blen_table_bytes 128 entry_ok entry_bytes blen_index_entry es Hes); lia) ltac:(lia))).
  2: { split_and!; [|done|done]. change (blen es) with (Z.of_nat (length es)). lia. }
  pose proof (blen_table_bytes 128 entry_ok entry_bytes blen_index_entry es Hes) as Ht.
  replace (sub b (128 + blen es * 128) _) with (zeros (3968 - 128 * blen es)).
  2: { rewrite Hsplit at 1. assert (H128 : blen (sub b 0 128) = 128) by (apply blen_sub; lia).
       rewrite sub_app_r, sub_app_r by lia. symmetry. rewrite H128, Ht.
       replace (128 + blen es * 128 - 128 - 128 * blen es) with 0 by lia. apply sub_all. rewrite blen_zeros; lia. }
  rewrite any_nonzero_zeros. osimpl. rewrite Hf. osimpl. rewrite Hl. osimpl. eval_reads b Hlen. eval_sub b Hsub. eval_ints. osimpl. done.
Qed.

Lemma decode_page_inv b o total es :
  0 ≤ o → 0 ≤ total → o * 31 ≤ usize_max → decode_page b o total [] = Ok es →
  page_ok o es ∧ blen es = Z.min (saturating_sub total (o * 31)) 31 ∧ b = page_bytes o es.
Proof.
  intros Ho Htot Hmul Hd. unfold decode_page, ENTRIES_PER_PAGE in Hd. rewrite checked_mul_ok in Hd by done.
  cbn [expect] in Hd. rewrite Ok_bind in Hd. cbv zeta in Hd.
  set (n := Z.min (saturating_sub total (o * 31)) 31) in *.
  assert (Hn : 0 ≤ n ≤ 31) by (unfold n, saturating_sub; lia). clearbody n.
  unfold EXACT_INDEX_PAGE_BYTES, PAGE_CRC_OFFSET, PAGE_HEADER_BYTES, EXACT_INDEX_ENTRY_BYTES in Hd.
  inv_run. inv_reads. zbool. 
  match goal with H : decode_entries _ _ _ _ _ _ = Ok ?x |- _ => rename H into Hes; rename x into es' end.
  match goal with H : head es' = Some ?f, H' : last es' = Some ?l |- _ =>
    rename f into first, l into last_, H into Hf, H' into Hl end.
  assert (Hsplit : b = sub b 0 128 ++ sub b 128 (128 * n) ++ sub b (128 + n * 128) (4096 - (128 + n * 128))).
  { replace (128 + n * 128) with (128 + 128 * n) by lia. rewrite <-(sub_split b 128) by lia.
    rewrite <-(sub_split b 0 128) by lia. symmetry. apply sub_all. lia. }
  rewrite Hsplit in Hes.
  apply (decode_table_iff 128 128 31 _ entry_decode entry_ok entry_bytes ltac:(lia) table_start_page
    blen_index_entry entry_decode_iff) in Hes as (Hlen&Hok&Htable); [|rewrite ?blen_sub; lia..].
  assert (Hlen' : blen es' = n) by (change (blen es') with (Z.of_nat (length es')); lia).
  destruct (page_ends_in es' _ _ Hf Hl) as [Hfin Hlin].
  assert (Hpos : 1 ≤ blen es').
  { destruct es'; [by apply elem_of_nil in Hfin|]. rewrite blen_cons. pose proof (blen_nonneg es'). lia. }
  cbn [app]. split_and!; [split; [done|lia|done]|done|]. unfold page_bytes. rewrite Hf, Hl.
  match goal with H : checksum_with_zero b 20 = Ok ?c |- _ =>
    rewrite checksum_with_zero_eq in H by (unfold usize_max, u64_max; lia); rename H into Hcrc, c into crc end.
  assert (Hbody : sub b 128 3968 = page_body es').
  { unfold page_body. rewrite <-Htable, Hlen'. replace 3968 with (128 * n + (3968 - 128 * n)) at 1 by lia.
    rewrite sub_split by lia. f_equal.
    match goal with H : sub b (128 + n * 128) _ = _ |- _ => rename H into Htail end.
    replace (blen b - (128 + n * 128)) with (3968 - 128 * n) in Htail by lia. rewrite <-Htail. f_equal. lia. }
  apply (seal_unique (E:=ExactIndexFormatError) 4096 _ 20 ltac:(lia) ltac:(lia) ltac:(done)
    (page_fits o es' first last_ Hok ltac:(lia) Hfin Hlin) ltac:(reflexivity) b crc
    [8;2;2;2;2;4;4;8;32;4;4;32;4;20;3968]); [done|exact Hcrc|done|done|done|].
  subst n. unfold page_fields, page_head_fields. cbn [app]. seal_parts.
Qed.

Lemma no_panic_checksum_with_zero (b : bytes) o :
  0 ≤ o → o + 4 ≤ blen b → o + 4 ≤ usize_max → no_panic (checksum_with_zero b o).
Proof. intros. rewrite checksum_with_zero_eq by done. by apply no_panic_crc32c_with_zeroed_u32. Qed.

Lemma decode_page_no_panic b o total output :
  0 ≤ o → o * 31 ≤ usize_max → no_panic (decode_page b o total output).
Proof.
  intros Ho Hmul. unfold decode_page, ENTRIES_PER_PAGE. rewrite checked_mul_ok by done. osimpl. cbv zeta.
  set (n := Z.min (saturating_sub total (o * 31)) 31).
  assert (Hn : 0 ≤ n ≤ 31) by (unfold n, saturating_sub; lia). clearbody n.
  unfold EXACT_INDEX_PAGE_BYTES, PAGE_CRC_OFFSET, PAGE_HEADER_BYTES, EXACT_INDEX_ENTRY_BYTES.
  destruct (Z.eqb_spec (blen b) 4096) as [Hb|]; [|done]. rewrite Hb.
  assert (24 ≤ usize_max) by (unfold usize_max, u64_max; lia).
  apply no_panic_bind; [|intros bad _; apply no_panic_bind; [auto with fastdup nocore|intros _ _]].
  { no_panic_reads. apply no_panic_checksum_with_zero; lia. }
  apply no_panic_bind.
  { apply (decode_entries_no_panic 128 128 31 _ entry_decode ltac:(lia) table_start_page
      entry_decode_no_panic); lia. }
  intros es _. no_panic_reads.
Qed.

(** ** A page of a run *)

(** What [ExactIndexRunDescriptor::decode_page] accepts. *)
Record run_page_ok (d : ExactIndexRunDescriptor) (o : Z) (es : list ExactIndexEntry) : Prop := {
  rp_page : page_ok o es;
  rp_ordinal : o < descriptor_page_count d;
  rp_count : blen es = Z.min (saturating_sub (entry_count d) (o * 31)) 31;
  rp_sorted : Sorted pair_ok es;
  rp_lower e : e ∈ es → minimum_chunk_id d ≤o chunk_id e;
  rp_upper e : e ∈ es → chunk_id e ≤o maximum_chunk_id d;
  rp_first e : o = 0 → head es = Some e → chunk_id e = minimum_chunk_id d;
  rp_last e : o + 1 = descriptor_page_count d → last es = Some e → chunk_id e = maximum_chunk_id d;
}.
End PageCodec.

Lemma sorted_ends es f l :
  Sorted pair_ok es → head es = Some f → last es = Some l →
  ∀ e, e ∈ es → chunk_id f ≤o chunk_id e ∧ chunk_id e ≤o chunk_id l.
Proof.
  intros Hs%canonical_strong Hf Hl e He.
  assert (Hpair : ∀ a b, pair_ok a b → chunk_id a ≤o chunk_id b) by (intros ? ? [_ ?]; by apply location_key_chunk).
  split.
  - destruct es as [|x es]; simplify_eq/=. apply StronglySorted_inv in Hs as [_ Hx].
    rewrite list.Forall_forall in Hx. apply elem_of_cons in He as [->|He]; [apply ole_refl|auto].
  - apply last_Some in Hl as [es' ->]. apply elem_of_app in He as [He| ->%list_elem_of_singleton]; [|apply ole_refl].
    apply Hpair. eapply (StronglySorted_app_1_elem_of pair_ok); [exact Hs|done|]. by apply list_elem_of_singleton.
Qed.

Section DescriptorPage.
Context `{Crc32cLaws}.

Lemma descriptor_decode_page_iff d o b page :
  0 ≤ o → 0 ≤ entry_count d → o * 31 ≤ usize_max → o + 1 ≤ usize_max →
  descriptor_decode_page d o b = Ok page ↔
  page_ordinal page = o ∧ run_page_ok d o (page_entries page) ∧ b = page_bytes o (page_entries page).
Proof.
  intros Ho Hec Hmul Hnext. unfold descriptor_decode_page. rewrite add_or_panic_in by done. split.
  - intros Hd. inv_run.
    match goal with H : decode_page _ _ _ _ = Ok ?x |- _ => rename x into es;
      apply decode_page_inv in H as (Hok&Hn&->); [|done..] end.
    match goal with H : validate_entries es = Ok ?u |- _ => destruct u; apply validate_entries_iff in H; rename H into Hs end.
    match goal with H : head es = Some ?f, H' : last es = Some ?l |- _ =>
      rename f into first, l into last_, H into Hf, H' into Hl end.
    simpl. split_and!; [done| |done].
    repeat match goal with H : ¬ _ <o _ |- _ => apply not_olt in H end.
    split; [done|done|done|done|..].
    + intros e [He _]%(sorted_ends es first last_ Hs Hf Hl). by eapply ole_trans.
    + intros e [_ He]%(sorted_ends es first last_ Hs Hf Hl). by eapply ole_trans.
    + intros e -> He. simplify_eq. rewrite Z.eqb_refl in *. cbn [andb] in *. zbool. done.
    + intros e He' He. simplify_eq. rewrite He', Z.eqb_refl in *. cbn [andb] in *. zbool. done.
  - intros (<-&[Hok Hord Hn Hs Hlo Hup Hfst Hlst]&->). destruct page as [o es]. simpl in *.
    destruct (page_ends es (proj1 (ok_count _ _ Hok))) as (f&l&Hf&Hl).
    destruct (page_ends_in es f l Hf Hl) as [Hfin Hlin].
    rewrite (proj2 (Z.leb_gt _ _)) by done. osimpl. rewrite decode_page_encode by done. osimpl.
    rewrite (proj2 (validate_entries_iff es)) by done. osimpl. rewrite Hf, Hl. osimpl.
    rewrite (bool_decide_false (_ <o _)) by (by apply not_olt, Hlo).
    rewrite (bool_decide_false (_ <o _)) by (by apply not_olt, Hup). cbn [orb].
    destruct (Z.eqb_spec o 0) as [Hz|]; [rewrite (bool_decide_true (_ = minimum_chunk_id d)) by auto|];
      (destruct (Z.eqb_spec (o + 1) (descriptor_page_count d)) as [Hz'|];
       [rewrite (bool_decide_true (_ = maximum_chunk_id d)) by auto|]); done.
Qed.
Lemma descriptor_decode_page_no_panic d o b :
  0 ≤ o → o * 31 ≤ usize_max → 0 ≤ entry_count d → no_panic (descriptor_decode_page d o b).
Proof.
  intros Ho Hmul Hec. unfold descriptor_decode_page.
  apply no_panic_bind; [auto with fastdup nocore|intros _ _].
  apply no_panic_bind; [by apply decode_page_no_panic|]. intros es Hes.
  apply decode_page_inv in Hes as (Hok&_&_); [|done..].
  destruct (page_ends es (proj1 (ok_count _ _ Hok))) as (f&l&Hf&Hl).
  apply no_panic_bind; [apply no_panic_validate_entries|intros _ _]. rewrite Hf, Hl. osimpl.
  rewrite add_or_panic_in by (unfold usize_max, u64_max in *; lia). osimpl. auto with fastdup nocore.
Qed.
End DescriptorPage.

(** ** Lookup *)
Lemma canonical_keys es :
  Sorted pair_ok es → StronglySorted (λ x y, entry_key x ≤o entry_key y) es.
Proof.
  intros Hs%canonical_strong. induction Hs as [|x es _ IH Hx]; constructor; [done|].
  eapply list.Forall_impl; [exact Hx|]. apply pair_ok_key.
Qed.
Lemma canonical_lengths es a b :
  Sorted pair_ok es → a ∈ es → b ∈ es → chunk_id a = chunk_id b → logical_length a = logical_length b.
Proof.
  intros Hs%canonical_strong. induction Hs as [|x es _ IH Hx]; intros Ha Hb Hc; [by apply elem_of_nil in Ha|].
  rewrite list.Forall_forall in Hx.
  apply elem_of_cons in Ha as [->|Ha], Hb as [->|Hb]; [done|..|auto].
  - by apply (proj1 (Hx _ Hb)).
  - symmetry. by apply (proj1 (Hx _ Ha)).
Qed.
Lemma candidates_filter page c n :
  Sorted pair_ok (page_entries page) →
  candidates page c n = Ok (filter (λ e, entry_key e = (c, n)) (page_entries page)).
Proof. intros Hs. apply (partition_range entry_key), canonical_keys, Hs. Qed.

Lemma position_spec page c n f l :
  Sorted pair_ok (page_entries page) → head (page_entries page) = Some f → last (page_entries page) = Some l →
  ∃ p, position page c n = Ok p ∧
    (p = Before ↔ ∀ e, e ∈ page_entries page → (c, n) <o entry_key e) ∧
    (p = After ↔ ∀ e, e ∈ page_entries page → entry_key e <o (c, n)).
Proof.
  intros Hs%canonical_keys Hf Hl. destruct (page_ends_in _ f l Hf Hl) as [Hfin Hlin].
  unfold position. rewrite Hf, Hl. osimpl. eexists; split; [done|].
  assert (Hlow : ∀ e, e ∈ page_entries page → entry_key f ≤o entry_key e).
  { destruct (page_entries page) as [|x es]; simplify_eq/=. apply StronglySorted_inv in Hs as [_ Hx].
    rewrite list.Forall_forall in Hx. intros e [->|He]%elem_of_cons; [apply ole_refl|auto]. }
  assert (Hup : ∀ e, e ∈ page_entries page → entry_key e ≤o entry_key l).
  { apply last_Some in Hl as [es' Heq]. rewrite Heq in *. intros e.
    intros [He| ->%list_elem_of_singleton]%elem_of_app; [|apply ole_refl].
    eapply (StronglySorted_app_1_elem_of (λ x y, entry_key x ≤o entry_key y)); [exact Hs|done|]. by apply list_elem_of_singleton. }
  assert (Hfl : entry_key f ≤o entry_key l) by auto.
  destruct (bool_decide_reflect ((c, n) <o entry_key f)) as [Hb|Hb].
  { split; [split; [|done]; intros _ e He; by eapply olt_ole_trans, Hlow|]. split; [done|]. intros Hall.
    exfalso. apply (olt_irrefl (entry_key f)), (olt_trans _ (c, n)); [by apply Hall|done]. }
  destruct (bool_decide_reflect (entry_key l <o (c, n))) as [Ha|Ha].
  { split; [split; [done|]; intros Hall; destruct Hb; auto|]. split; [|done]. intros _ e He.
    by eapply ole_olt_trans; [apply Hup|]. }
  split; (split; [done|]); intros Hall; [destruct Hb|destruct Ha]; auto.
Qed.

(** ** A concrete page *)
Module Sample.
#[local] Existing Instance Crc32cBitwise.ops.
#[local] Existing Instance Crc32cBitwise.laws.
Definition entry (c : Z) : ExactIndexEntry :=
  {| chunk_id := replicate 32 (byte_of_Z c); logical_length := 100; transition := Active;
     location := {| container_id := replicate 16 (byte_of_Z 7); container_generation := 3;
       record_offset := 4096; record_length := 320; chunk_ordinal := 0; decoded_offset := 0;
       record_crc32c := 77; record_decoded_length := 100; record_payload_length := 100;
       codec_id := RAW_CODEC; dependency_id := zeros 32 |} |}.
Definition entries : list ExactIndexEntry := [entry 1; entry 2].
Definition page : ExactIndexPage := {| page_ordinal := 0; page_entries := entries |}.
Definition page_image : bytes :=
  match encode_page (zeros 4096) 0 entries with Ok b => b | _ => [] end.
Definition descriptor : ExactIndexRunDescriptor :=
  {| profile := replicate 32 (byte_of_Z 9); generation := 5; entry_count := 2;
     descriptor_page_count := 1; footer_offset := 8192; file_length := 12288;
     key_bounds := replicate 32 (byte_of_Z 1) ++ replicate 32 (byte_of_Z 2);
     run_hash := zeros 32 |}.
Lemma sample_page_decodes : descriptor_decode_page descriptor 0 page_image = Ok page.
Proof. vm_compute. reflexivity. Qed.
End Sample.

(** ** Properties *)

(** Looking up a key in a page of an exact index run is exact.  A page that
    the decoder accepts holds its entries in canonical order, one length per
    chunk; the binary search of [candidates] returns exactly the entries of the
    key, in order and without panic; and [position] answers that the key lies
    before or after the page iff it is smaller or greater than every entry. *)
Lemma exact_page_lookup `{Crc32cLaws} d o (b : bytes) page c n :
  0 ≤ o → o * 31 ≤ usize_max → is_usize (entry_count d) → descriptor_decode_page d o b = Ok page →
  candidates page c n = Ok (filter (λ e, entry_key e = (c, n)) (page_entries page)) ∧
  (∀ e e', e ∈ page_entries page → e' ∈ page_entries page → chunk_id e = chunk_id e' →
     logical_length e = logical_length e') ∧
  ∃ p, position page c n = Ok p ∧
    (p = Before ↔ ∀ e, e ∈ page_entries page → (c, n) <o entry_key e) ∧
    (p = After ↔ ∀ e, e ∈ page_entries page → entry_key e <o (c, n)).
Proof.
  intros Ho Hmul [Hec _] Hd.
  apply descriptor_decode_page_iff in Hd as (_&Hok&_); [|done..|unfold usize_max, u64_max in *; lia].
  pose proof (rp_sorted _ _ _ Hok) as Hs. destruct (page_ends _ (proj1 (ok_count _ _ (rp_page _ _ _ Hok)))) as (f&l&?&?).
  split_and!; [by apply candidates_filter|by intros; eapply canonical_lengths|by eapply position_spec].
Qed.
End ExactIndexPage.
