(* ===== verification/ExactIndexRun.v ===== *)
(** * Exact index runs: header, footer and the whole file

    A descriptor is what header and footer say about a run; a run file decodes
    to a run iff the run is canonical and the file is its encoding. *)
From S2P Require Export ExactIndexPage.
From S2P Require Import Activation.

Module ExactIndexRun.
Import ExactIndex ExactIndexPage.

(** ** Geometry *)
Lemma page_count_le n : 0 ≤ n → 0 ≤ page_count n ≤ n.
Proof.
  intros. unfold page_count, ENTRIES_PER_PAGE. split; [apply Z.div_pos; lia|].
  apply Z.lt_succ_r, Z.div_lt_upper_bound; lia.
Qed.
Lemma page_count_bounds n : 31 * page_count n - 31 < n ≤ 31 * page_count n.
Proof.
  unfold page_count, ENTRIES_PER_PAGE. change (31 - 1) with 30. pose proof (Z.div_mod (n + 30) 31 ltac:(lia)).
  pose proof (Z.mod_pos_bound (n + 30) 31 ltac:(lia)). lia.
Qed.
Lemma encoded_length_iff n r :
  0 ≤ n → encoded_length n = Ok r ↔ r = 8192 + page_count n * 4096 ∧ r ≤ MAX_RUN_BYTES.
Proof.
  intros Hn. pose proof (page_count_le n Hn). unfold encoded_length, MAX_RUN_BYTES,
    EXACT_INDEX_HEADER_BYTES, EXACT_INDEX_PAGE_BYTES, FOOTER_BYTES. split.
  - intros Hd. inv_run. destruct (checked_add usize_max 4096 _) as [v|] eqn:Hv; [|done].
    simpl in *. inv_ok. subst. lia.
  - intros [-> Hle]. assert (page_count n * 4096 + 8192 ≤ usize_max) by (unfold usize_max, u64_max; lia).
    rewrite checked_mul_ok by lia. osimpl. rewrite checked_add_ok by lia. cbn [mbind option_bind].
    rewrite checked_add_ok by lia. osimpl. rewrite (proj2 (Z.ltb_ge _ _)) by lia. osimpl. f_equal. lia.
Qed.
Lemma footer_offset_of_in n : 0 ≤ n ≤ 2 ^ 32 → footer_offset_of n = Ok (4096 + n * 4096).
Proof.
  intros. unfold footer_offset_of, EXACT_INDEX_HEADER_BYTES, EXACT_INDEX_PAGE_BYTES.
  rewrite checked_mul_ok by (unfold usize_max, u64_max; lia). osimpl.
  by rewrite checked_add_ok by (unfold usize_max, u64_max; lia).
Qed.
Lemma u64_from_usize_in v : v ≤ u64_max → u64_from_usize v = Ok v.
Proof. intros. unfold u64_from_usize. by rewrite try_from_u_ok. Qed.

(** ** Header and footer *)
Definition identity_fields (magic profile : bytes) (generation entry_count page_count : Z) (bounds : bytes)
    (footer_offset file_length : Z) : list field := [
  Field 0 8 magic;
  Field 8 2 (le_bytes 2 FORMAT_VERSION);
  Field 10 2 (le_bytes 2 4096);
  Field 12 2 (le_bytes 2 4096);
  Field 14 2 (le_bytes 2 128);
  Field 32 8 (le_bytes 8 generation);
  Field 40 8 (le_bytes 8 entry_count);
  Field 48 8 (le_bytes 8 page_count);
  Field 56 4 (le_bytes 4 31);
  Field 60 4 (le_bytes 4 1);
  Field 64 32 profile;
  Field 96 64 bounds;
  Field 160 8 (le_bytes 8 4096);
  Field 168 8 (le_bytes 8 footer_offset);
  Field 176 8 (le_bytes 8 file_length) ].
Lemma identity_fits n magic p g ec pc kb fo fl :
  184 ≤ n → blen magic = 8 → blen p = 32 → blen kb = 64 →
  Forall (fits n) (identity_fields magic p g ec pc kb fo fl).
Proof. intros. unfold identity_fields. solve_fits. Qed.

Lemma encode_identity_fields_render magic p g ec pc kb fo fl :
  blen magic = 8 → blen p = 32 → blen kb = 64 →
  ec ≤ u64_max → pc ≤ u64_max → fo ≤ u64_max → fl ≤ u64_max →
  encode_identity_fields (zeros 4096) magic p g ec pc kb fo fl =
  Ok (render 4096 (identity_fields magic p g ec pc kb fo fl)).
Proof.
  intros. unfold encode_identity_fields. rewrite !u64_from_usize_in by done.
  transitivity (@puts ExactIndexFormatError (zeros 4096) (identity_fields magic p g ec pc kb fo fl)).
  { unfold identity_fields. reflexivity. }
  apply (puts_in 4096); [by apply blen_zeros|by apply identity_fits].
Qed.

(** The descriptor of a run that fits the format. *)
Record descriptor_wf (d : ExactIndexRunDescriptor) : Prop := {
  wd_profile : blen (profile d) = 32 ∧ profile d ≠ zeros 32;
  wd_generation : 1 ≤ generation d ≤ u64_max;
  wd_entry_count : 0 ≤ entry_count d;
  wd_page_count : descriptor_page_count d = page_count (entry_count d);
  wd_footer_offset : footer_offset d = 4096 + descriptor_page_count d * 4096;
  wd_file_length : file_length d = footer_offset d + 4096;
  wd_size : file_length d ≤ MAX_RUN_BYTES;
  wd_bounds : blen (key_bounds d) = 64;
  wd_empty : entry_count d = 0 → key_bounds d = zeros 64;
  wd_hash : blen (run_hash d) = 32;
}.
Definition d_fields (magic : bytes) (d : ExactIndexRunDescriptor) : list field :=
  identity_fields magic (profile d) (generation d) (entry_count d) (descriptor_page_count d)
    (key_bounds d) (footer_offset d) (file_length d).
Definition footer_fields (d : ExactIndexRunDescriptor) : list field :=
  d_fields FOOTER_MAGIC d ++ [Field 10 2 (le_bytes 2 4096); Field 184 32 (run_hash d)].
Definition header_bytes `{Crc32c} (d : ExactIndexRunDescriptor) : bytes :=
  Layout.seal 4096 (d_fields HEADER_MAGIC d) 184.
Definition footer_bytes `{Crc32c} (d : ExactIndexRunDescriptor) : bytes :=
  Layout.seal 4096 (footer_fields d) 216.
Definition with_hash (d : ExactIndexRunDescriptor) (hash : bytes) : ExactIndexRunDescriptor :=
  {| profile := profile d; generation := generation d; entry_count := entry_count d;
     descriptor_page_count := descriptor_page_count d; footer_offset := footer_offset d;
     file_length := file_length d; key_bounds := key_bounds d; run_hash := hash |}.
(** The footer before the hash and the checksum are stored. *)
Definition footer_blank (d : ExactIndexRunDescriptor) : bytes :=
  render 4096 (d_fields FOOTER_MAGIC d ++ [Field 10 2 (le_bytes 2 4096)]).

Lemma d_fits n magic d :
  184 ≤ n → blen magic = 8 → descriptor_wf d → Forall (fits n) (d_fields magic d).
Proof. intros ? ? [[? _] _ _ _ _ _ _ ? _ _]. by apply identity_fits. Qed.
Lemma footer_fits d : descriptor_wf d → Forall (fits 4096) (footer_fields d).
Proof.
  intros Hd. apply Forall_app. split; [by apply d_fits|]. pose proof (wd_hash d Hd). solve_fits.
Qed.
Lemma wd_ranges d : descriptor_wf d →
  0 ≤ descriptor_page_count d ≤ 2 ^ 18 ∧ 0 ≤ entry_count d ≤ 2 ^ 23 ∧
  8192 ≤ file_length d ≤ 2 ^ 30 ∧ 4096 ≤ footer_offset d ≤ 2 ^ 30.
Proof.
  intros [_ _ He Hp Hf Hl Hs _ _ _]. unfold MAX_RUN_BYTES in *.
  pose proof (page_count_le _ He). pose proof (page_count_bounds (entry_count d)). lia.
Qed.

Lemma ProfileId_new_Some b p : ExactIndexProfileId_new b = Some p ↔ p = b ∧ b ≠ zeros 32.
Proof.
  unfold ExactIndexProfileId_new, Activation.ExactIndexProfileId_new. case_bool_decide; naive_solver.
Qed.
Lemma and_then_false {E} (a b : outcome E bool) :
  a &&? b = Ok false ↔ a = Ok false ∨ a = Ok true ∧ b = Ok false.
Proof. destruct a as [[]| |]; simpl; naive_solver. Qed.

Section Descriptor.
Context `{Crc32cLaws}.

(** What [validate_identity_block] establishes. *)
Record identity_facts (b magic : bytes) (o : Z) : Prop := {
  if_length : blen b = 4096;
  if_magic : sub b 0 8 = magic;
  if_version : sub b 8 2 = le_bytes 2 FORMAT_VERSION;
  if_page : sub b 12 2 = le_bytes 2 4096;
  if_entry : sub b 14 2 = le_bytes 2 128;
  if_reserved1 : sub b 16 8 = zeros 8;
  if_reserved2 : sub b 24 8 = zeros 8;
  if_per_page : sub b 56 4 = le_bytes 4 31;
  if_one : sub b 60 4 = le_bytes 4 1;
  if_crc : ∃ c, @crc32c_with_zeroed_u32 ExactIndexFormatError _ b o = Ok c ∧ sub b o 4 = le_bytes 4 c;
  if_header : magic = HEADER_MAGIC → sub b 10 2 = le_bytes 2 4096 ∧ sub b 188 3908 = zeros 3908;
}.
Lemma validate_identity_inv b magic o :
  0 ≤ o → o + 4 ≤ 4096 → validate_identity_block b magic o = Ok () → identity_facts b magic o.
Proof.
  intros Ho Ho' Hv. unfold validate_identity_block, EXACT_INDEX_HEADER_BYTES, EXACT_INDEX_PAGE_BYTES,
    EXACT_INDEX_ENTRY_BYTES, ENTRIES_PER_PAGE in Hv. inv_run.
  match goal with H : _ &&? _ = Ok false |- _ => rename H into Hh end.
  match goal with H : checksum_with_zero b o = Ok _ |- _ =>
    rewrite checksum_with_zero_eq in H by (unfold usize_max, u64_max; lia); rename H into Hcrc end.
  inv_reads. split; try done.
  - by eexists.
  - intros ->. rewrite bool_decide_true in Hh by done. apply and_then_false in Hh as [|[_ Hh]]; [done|].
    inv_run. inv_reads. split; [done|]. match goal with H : sub b 188 _ = _ |- _ => rename H into Hz end.
    replace (blen b - 188) with 3908 in Hz by lia. done.
Qed.

Lemma descriptor_decode_inv h f len d :
  descriptor_decode h f len = Ok d →
  descriptor_wf d ∧ len = file_length d ∧ h = header_bytes d ∧ f = footer_bytes d.
Proof.
  unfold descriptor_decode. intros Hd.
  apply bind_Ok in Hd as ([]&Hh&Hd). apply bind_Ok in Hd as ([]&Hf&Hd).
  unfold HEADER_CRC_OFFSET, FOOTER_CRC_OFFSET in *.
  apply validate_identity_inv in Hh; [|lia..]. apply validate_identity_inv in Hf; [|lia..].
  destruct Hh as [Hhl ? ? ? ? ? ? ? ? (hc&?&?) Hhh]. destruct (Hhh eq_refl) as [? ?]. clear Hhh.
  destruct Hf as [Hfl ? ? ? ? ? ? ? ? (fc&?&?) _].
  unfold FOOTER_BYTES, RUN_HASH_OFFSET, u64_from_usize in Hd. inv_run. inv_reads.
  match goal with H : encoded_length ?n = Ok _ |- _ => rename n into ec;
    apply encoded_length_iff in H as [-> Hsize]; [|unfold in_u in *; lia] end.
  assert (Hpc : 0 ≤ page_count ec ≤ 2 ^ 32).
  { unfold in_u, MAX_RUN_BYTES in *. pose proof (page_count_le ec). lia. }
  match goal with H : footer_offset_of _ = Ok _ |- _ => rewrite footer_offset_of_in in H by done; apply Ok_inj in H as <- end.
  match goal with H : ExactIndexProfileId_new _ = Some _ |- _ =>
    apply ProfileId_new_Some in H as [-> Hp] end.
  match goal with H : sub f 16 (184 - 16) = _ |- _ => rename H into Hsame end.
  match goal with H : sub f 220 _ = _ |- _ => rewrite Hfl in H end.
  subst. set (d := {| generation := _ |}).
  assert (Hd : descriptor_wf d).
  { unfold in_u in *. split; simpl; try done; try lia; try (rewrite blen_sub; lia).
    - split; [rewrite blen_sub; lia|done].
    - intros ->. simpl in *. zbool. done. }
  assert (Hfh : ∀ o k, 16 ≤ o → 0 ≤ k → o + k ≤ 184 → sub f o k = sub h o k).
  { intros o k ? ? ?. replace o with (16 + (o - 16)) by lia.
    rewrite <-(sub_sub f 16 (184 - 16)), <-(sub_sub h 16 (184 - 16)), Hsame by lia. done. }
  assert (sub f 32 8 = sub h 32 8 ∧ sub f 40 8 = sub h 40 8 ∧ sub f 48 8 = sub h 48 8 ∧
    sub f 64 32 = sub h 64 32 ∧ sub f 96 64 = sub h 96 64 ∧ sub f 160 8 = sub h 160 8 ∧
    sub f 168 8 = sub h 168 8 ∧ sub f 176 8 = sub h 176 8) as (Hf1&Hf2&Hf3&Hf4&Hf5&Hf6&Hf7&Hf8)
    by (split_and!; apply Hfh; lia).
  split_and!; [done|done| |].
  - apply (seal_unique (E:=ExactIndexFormatError) 4096 _ 184 ltac:(lia) ltac:(lia) ltac:(done)
      (d_fits 4096 HEADER_MAGIC d ltac:(lia) eq_refl Hd) ltac:(reflexivity) h hc
      [8;2;2;2;2;8;8;8;8;8;4;4;32;64;8;8;8;4;3908]); [done..|]. unfold d, d_fields, identity_fields. seal_parts.
  - repeat match goal with Hf : sub f ?o ?k = sub h ?o ?k, Hh : sub h ?o ?k = _ |- _ => rewrite Hh in Hf end.
    apply (seal_unique (E:=ExactIndexFormatError) 4096 _ 216 ltac:(lia) ltac:(lia) ltac:(done)
      (footer_fits d Hd) ltac:(reflexivity) f fc
      [8;2;2;2;2;8;8;8;8;8;4;4;32;64;8;8;8;32;4;3876]); [done..|].
    unfold d, footer_fields, d_fields, identity_fields. cbn [app].
    seal_parts.
Qed.

Lemma validate_identity_ok b magic o :
  0 ≤ o → o + 4 ≤ 4096 → identity_facts b magic o → (magic = HEADER_MAGIC ∨ magic = FOOTER_MAGIC) →
  validate_identity_block b magic o = Ok ().
Proof.
  intros Ho Ho' [Hl ? ? ? ? Hr1 Hr2 ? ? (c&Hc&Hs) Hh] Hm.
  unfold validate_identity_block, EXACT_INDEX_HEADER_BYTES, EXACT_INDEX_PAGE_BYTES, EXACT_INDEX_ENTRY_BYTES, ENTRIES_PER_PAGE.
  assert (is_u32 c).
  { rewrite crc32c_with_zeroed_u32_in in Hc by (unfold usize_max, u64_max in *; lia).
    apply Ok_inj in Hc as <-. apply crc32c_range. }
  rewrite Hl, checksum_with_zero_eq, Hc by (unfold usize_max, u64_max in *; lia). osimpl.
  eval_reads b Hl. osimpl. change (8 - 0) with 8.
  repeat match goal with H : sub b ?p ?k = _ |- context [sub b ?p ?k] => rewrite H end.
  eval_ints. osimpl. destruct Hm as [->| ->];
    [|by change (bool_decide (FOOTER_MAGIC = HEADER_MAGIC)) with false].
  destruct (Hh eq_refl) as [Hh1 Hh2]. rewrite bool_decide_true by done.
  change (4096 - 188) with 3908. rewrite Hh1, Hh2. eval_ints. done.
Qed.

Lemma descriptor_decode_encode d :
  descriptor_wf d → descriptor_decode (header_bytes d) (footer_bytes d) (file_length d) = Ok d.
Proof.
  intros Hd. destruct (wd_ranges d Hd) as (?&?&?&?). destruct (Hd) as [[? ?] ? ? Hpc Hfo Hfl Hsz ? Hempty ?].
  destruct (seal_facts (E:=ExactIndexFormatError) 4096 _ 184 ltac:(lia) ltac:(lia) ltac:(done)
    (d_fits 4096 HEADER_MAGIC d ltac:(lia) eq_refl Hd) ltac:(reflexivity) (header_bytes d) eq_refl) as (Hhl&Hhc&Hhs&Hhsub).
  destruct (seal_facts (E:=ExactIndexFormatError) 4096 _ 216 ltac:(lia) ltac:(lia) ltac:(done)
    (footer_fits d Hd) ltac:(reflexivity) (footer_bytes d) eq_refl) as (Hfl'&Hfc&Hfs&Hfsub).
  set (h := header_bytes d) in *. set (f := footer_bytes d) in *. clearbody h f.
  unfold descriptor_decode, HEADER_CRC_OFFSET, FOOTER_CRC_OFFSET.
  assert (Hih : identity_facts h HEADER_MAGIC 184).
  { split; try (done || (apply Hhsub; [lia..|reflexivity])).
    - apply get_u32_Ok in Hhs as (_&_&_&?). by eexists.
    - intros _. split; apply Hhsub; (lia || reflexivity). }
  assert (Hif : identity_facts f FOOTER_MAGIC 216).
  { split; try (done || (apply Hfsub; [lia..|reflexivity])).
    apply get_u32_Ok in Hfs as (_&_&_&?). by eexists. }
  rewrite (validate_identity_ok h), (validate_identity_ok f) by (done || lia || auto). osimpl.
  assert (Hfh : sub f 16 168 = sub h 16 168).
  { apply (sub_ext [8;8;8;8;8;4;4;32;64;8;8;8]); [by repeat constructor|by rewrite !blen_sub by lia|by rewrite blen_sub by lia|].
    repeat apply Forall_cons_2; try apply Forall_nil_2; simpl; rewrite !sub_sub by lia; simpl;
      erewrite Hhsub by (lia || reflexivity); erewrite Hfsub by (lia || reflexivity); reflexivity. }
  unfold FOOTER_BYTES, RUN_HASH_OFFSET. rewrite Hfl'.
  eval_reads h Hhl. eval_reads f Hfl'. osimpl. eval_reads f Hfl'. osimpl.
  change (184 - 16) with 168. rewrite Hfh, bool_decide_true by done. osimpl.
  assert (is_u64 (generation d) ∧ is_u64 (entry_count d) ∧ is_u64 (descriptor_page_count d) ∧
    is_u64 (footer_offset d) ∧ is_u64 (file_length d)) as (?&?&?&?&?) by (unfold in_u, u64_max in *; lia).
  eval_sub h Hhsub. eval_sub f Hfsub. eval_ints. osimpl.
  rewrite (proj2 (encoded_length_iff (entry_count d) (file_length d) ltac:(lia))) by (split; [lia|done]). osimpl.
  rewrite <-Hpc, footer_offset_of_in, <-Hfo by lia. osimpl.
  rewrite !u64_from_usize_in by (unfold u64_max; lia). osimpl.
  rewrite (proj2 (Z.eqb_neq (generation d) 0)) by lia. osimpl.
  rewrite (proj2 (ProfileId_new_Some _ _)) by done. osimpl.
  destruct (Z.eqb_spec (entry_count d) 0) as [Hz|]; [rewrite (bool_decide_true (key_bounds d = zeros 64)) by auto|];
    osimpl; by destruct d.
Qed.
Lemma descriptor_decode_iff h f len d :
  descriptor_decode h f len = Ok d ↔
  descriptor_wf d ∧ len = file_length d ∧ h = header_bytes d ∧ f = footer_bytes d.
Proof.
  split; [apply descriptor_decode_inv|]. intros (?&->&->&->). by apply descriptor_decode_encode.
Qed.

Lemma validate_identity_no_panic b magic o :
  0 ≤ o → o + 4 ≤ 4096 → no_panic (validate_identity_block b magic o).
Proof.
  intros Ho Ho'. unfold validate_identity_block, EXACT_INDEX_HEADER_BYTES.
  assert (4096 ≤ usize_max) by (unfold usize_max, u64_max; lia).
  destruct (Z.eqb_spec (blen b) 4096) as [Hl|]; [|done]. rewrite Hl.
  apply no_panic_bind; [|intros bad _; apply no_panic_bind; [auto with fastdup nocore|intros _ _]].
  { no_panic_reads. apply no_panic_checksum_with_zero; lia. }
  apply no_panic_bind; [|auto with fastdup nocore]. case_bool_decide; [|done]. cbn [and_then]. no_panic_reads.
Qed.
Lemma descriptor_decode_no_panic h f len : no_panic (descriptor_decode h f len).
Proof.
  unfold descriptor_decode, HEADER_CRC_OFFSET, FOOTER_CRC_OFFSET.
  apply no_panic_bind; [apply validate_identity_no_panic; lia|]. intros [] Hh%validate_identity_inv; [|lia..].
  apply no_panic_bind; [apply validate_identity_no_panic; lia|]. intros [] Hf%validate_identity_inv; [|lia..].
  pose proof (if_length _ _ _ Hh). pose proof (if_length _ _ _ Hf) as Hfl.
  unfold encoded_length, footer_offset_of, u64_from_usize, FOOTER_BYTES, RUN_HASH_OFFSET. rewrite Hfl. no_panic_reads.
Qed.
End Descriptor.

(** ** Chunks of a list *)
Section Chunks.
Context {A : Type} (n : nat).
Hypothesis Hn : (0 < n)%nat.

Lemma chunks_fuel_enough f1 f2 (l : list A) :
  (length l ≤ f1)%nat → (length l ≤ f2)%nat → chunks_fuel f1 n l = chunks_fuel f2 n l.
Proof.
  revert f2 l. induction f1 as [|f1 IH]; intros f2 [|x l] H1 H2;
    [by destruct f2|simpl in *; lia|by destruct f2|].
  destruct f2 as [|f2]; [simpl in *; lia|]. cbn [chunks_fuel]. f_equal.
  apply IH; rewrite length_drop; simpl in *; lia.
Qed.
Lemma chunks_cons (l : list A) : l ≠ [] → chunks n l = take n l :: chunks n (drop n l).
Proof.
  intros Hl. destruct l as [|x l]; [done|]. unfold chunks at 1. cbn [length chunks_fuel]. f_equal.
  apply chunks_fuel_enough; [|done]. rewrite length_drop. simpl. lia.
Qed.
Lemma chunks_app (p l : list A) : length p = n → chunks n (p ++ l) = p :: chunks n l.
Proof.
  intros Hp. rewrite chunks_cons.
  - by rewrite take_app_length', drop_app_length' by done.
  - destruct p; [simpl in *; lia|done].
Qed.
Lemma chunks_short (p : list A) : p ≠ [] → (length p ≤ n)%nat → chunks n p = [p].
Proof. intros Hp Hl. rewrite chunks_cons by done. by rewrite take_ge, drop_ge by done. Qed.
End Chunks.

(** Pages that hold [t] entries: 31 in each but the last. *)
Fixpoint paged {A} (t : Z) (pages : list (list A)) : Prop :=
  match pages with
  | [] => t = 0
  | p :: pages => 1 ≤ blen p ∧ blen p = Z.min t 31 ∧ paged (t - blen p) pages
  end.
Lemma paged_chunks {A} (pages : list (list A)) t :
  paged t pages → pages = chunks 31 (concat pages) ∧ blen (concat pages) = t.
Proof.
  revert t. induction pages as [|p pages IH]; intros t; [by intros ->|]. intros (Hp&Hmin&Hps). cbn [concat].
  destruct (IH _ Hps) as [IHc IHl]. rewrite blen_app, IHl. split; [|lia].
  pose proof (blen_nonneg (concat pages)). destruct (decide (blen p = 31)) as [H31|H31].
  - rewrite chunks_app; [by f_equal|lia|]. change (blen p) with (Z.of_nat (length p)) in H31. lia.
  - assert (Hnil : concat pages = []) by (apply blen_0_nil; lia). rewrite Hnil in *. rewrite app_nil_r, chunks_short.
    + by rewrite IHc.
    + lia.
    + intros ->. rewrite blen_nil in Hp. lia.
    + change (blen p) with (Z.of_nat (length p)) in Hmin. lia.
Qed.
Lemma chunks_paged {A} (l : list A) : paged (blen l) (chunks 31 l) ∧ concat (chunks 31 l) = l.
Proof.
  remember (length l) as k eqn:Hk. revert l Hk. induction (lt_wf k) as [k _ IH]; intros l ->.
  destruct (decide (l = [])) as [->|Hl]; [done|]. rewrite chunks_cons by (done || lia). cbn [paged concat].
  assert (length l ≠ 0%nat) by (by destruct l).
  destruct (IH (length (drop 31 l)) ltac:(rewrite length_drop; lia) (drop 31 l) eq_refl) as [Hp Hc].
  rewrite Hc, take_drop. split; [|done].
  assert (Ht : blen (take 31 l) = Z.min (blen l) 31).
  { change (blen ?x) with (Z.of_nat (length x)). rewrite length_take. lia. }
  assert (Hd : blen (drop 31 l) = blen l - blen (take 31 l)).
  { rewrite Ht. change (blen ?x) with (Z.of_nat (length x)). rewrite length_drop. lia. }
  rewrite <-Hd. split_and!; [|done|done]. rewrite Ht. change (blen l) with (Z.of_nat (length l)). lia.
Qed.
Lemma paged_length {A} (pages : list (list A)) t : 0 ≤ t → paged t pages → Z.of_nat (length pages) = page_count t.
Proof.
  revert t. induction pages as [|p pages IH]; intros t Ht; cbn [paged]; [by intros ->|]. intros (?&Hmin&Hps).
  specialize (IH (t - blen p) ltac:(lia) Hps). cbn [length]. rewrite Nat2Z.inj_succ, IH.
  pose proof (page_count_bounds t). pose proof (page_count_bounds (t - blen p)). lia.
Qed.

(** ** The pages of a run *)
Fixpoint pages_ok (d : ExactIndexRunDescriptor) (o : Z) (pages : list (list ExactIndexEntry)) : Prop :=
  match pages with
  | [] => True
  | p :: pages => run_page_ok d o p ∧ pages_ok d (o + 1) pages
  end.
Definition numbered_page_bytes `{Crc32c} (x : Z * list ExactIndexEntry) : bytes := page_bytes x.1 x.2.
Definition pages_bytes `{Crc32c} (o : Z) (pages : list (list ExactIndexEntry)) : bytes :=
  table_bytes numbered_page_bytes (enumerate_from o pages).

Lemma blen_enumerate_from {A} o (l : list A) : blen (enumerate_from o l) = blen l.
Proof. revert o. induction l as [|x l IH]; intros o; [done|]. cbn [enumerate_from]. by rewrite !blen_cons, IH. Qed.

Section Pages.
Context `{Crc32cLaws}.

Lemma blen_page_bytes o es : page_ok o es → blen (page_bytes o es) = 4096.
Proof.
  intros Hok. destruct (page_ends es (proj1 (ok_count _ _ Hok))) as (f&l&Hf&Hl).
  by destruct (page_facts o es f l _ Hok Hf Hl eq_refl).
Qed.
Lemma pages_ok_enumerate d o pages :
  pages_ok d o pages → Forall (λ x, page_ok x.1 x.2) (enumerate_from o pages).
Proof.
  revert o. induction pages as [|p pages IH]; intros o; cbn [enumerate_from pages_ok]; [constructor|].
  intros [Hp Hps]. constructor; [apply Hp|by apply IH].
Qed.
Lemma blen_pages_bytes d o pages : pages_ok d o pages → blen (pages_bytes o pages) = 4096 * blen pages.
Proof.
  intros Hok%pages_ok_enumerate. unfold pages_bytes.
  rewrite (blen_table_bytes 4096 (λ x, page_ok x.1 x.2)); [|intros; by apply blen_page_bytes|done].
  by rewrite blen_enumerate_from.
Qed.

Lemma page_offset_in d o :
  descriptor_wf d → 0 ≤ o < descriptor_page_count d → page_offset d o = Some (4096 + o * 4096).
Proof.
  intros Hd Ho. destruct (wd_ranges d Hd) as (?&_). unfold page_offset, EXACT_INDEX_PAGE_BYTES, EXACT_INDEX_HEADER_BYTES.
  rewrite (proj2 (Z.leb_gt _ _)) by lia. rewrite checked_mul_ok by (unfold usize_max, u64_max; lia).
  cbn [mbind option_bind]. rewrite checked_add_ok by (unfold usize_max, u64_max; lia). cbn [mbind option_bind].
  by rewrite try_from_u_ok by (unfold u64_max; lia).
Qed.

Lemma decode_pages_iff d n pre t rest o acc es :
  descriptor_wf d → 0 ≤ o → o + Z.of_nat n = descriptor_page_count d →
  blen pre = 4096 + o * 4096 → blen t = 4096 * Z.of_nat n →
  decode_pages d (pre ++ t ++ rest) o n acc = Ok es ↔
  ∃ pages, length pages = n ∧ pages_ok d o pages ∧ t = pages_bytes o pages ∧ es = acc ++ concat pages.
Proof.
  intros Hd. destruct (wd_ranges d Hd) as (?&?&_).
  revert pre t o acc. induction n as [|n IH]; intros pre t o acc Ho Hn Hpre Ht; cbn [decode_pages].
  { apply blen_0_nil in Ht as ->. split.
    - intros [= <-]. exists []. by rewrite app_nil_r.
    - intros ([|p ps]&Hl&_&_&->); [by rewrite app_nil_r|done]. }
  rewrite page_offset_in by (done || lia). osimpl. unfold EXACT_INDEX_PAGE_BYTES. pose proof (blen_nonneg rest).
  rewrite index_range_in by (rewrite ?blen_app; lia). osimpl. rewrite sub_app_r by lia.
  replace (4096 + o * 4096 - blen pre) with 0 by lia.
  replace (4096 + o * 4096 + 4096 - (4096 + o * 4096)) with 4096 by lia.
  assert (Hsplit : t = sub t 0 4096 ++ sub t 4096 (4096 * Z.of_nat n)).
  { rewrite <-(sub_split t 0 4096) by lia. symmetry. apply sub_all. lia. }
  assert (He : blen (sub t 0 4096) = 4096) by (apply blen_sub; lia).
  assert (Ht' : blen (sub t 4096 (4096 * Z.of_nat n)) = 4096 * Z.of_nat n) by (apply blen_sub; lia).
  generalize dependent (sub t 4096 (4096 * Z.of_nat n)). generalize dependent (sub t 0 4096).
  intros e He t' -> Ht'. rewrite <-app_assoc, sub_app_eq_l by done. rewrite (app_assoc pre e).
  assert (Hpre' : blen (pre ++ e) = 4096 + (o + 1) * 4096) by (rewrite blen_app; lia).
  assert (Hiff : ∀ page, descriptor_decode_page d o e = Ok page ↔ page_ordinal page = o ∧
    run_page_ok d o (page_entries page) ∧ e = page_bytes o (page_entries page)).
  { intros page. apply descriptor_decode_page_iff; unfold usize_max, u64_max; lia. }
  rewrite bind_Ok. split.
  - intros (page&(Hord&Hp&->)%Hiff&Hrest). apply IH in Hrest as (pages&<-&Hok&->&->); [|lia|lia|done|done].
    exists (page_entries page :: pages). split_and!; [done|done|done|]. cbn [concat]. by rewrite app_assoc.
  - intros ([|p pages]&Hlen&Hok&Heq&->); [done|]. destruct Hok as [Hp Hok]. unfold pages_bytes, table_bytes in Heq.
    cbn [enumerate_from fmap list_fmap concat] in Heq. unfold numbered_page_bytes at 1 in Heq. cbn [fst snd] in Heq.
    pose proof (blen_page_bytes o p (rp_page _ _ _ Hp)) as Hi.
    apply app_inj_1 in Heq as [-> ->];
      [|change (blen ?x) with (Z.of_nat (length x)) in *; lia].
    exists {| page_ordinal := o; page_entries := p |}. split; [by apply Hiff|].
    apply IH; [lia|lia|done|done|]. exists pages. cbn [concat page_entries]. rewrite app_assoc.
    split_and!; [simpl in *; lia|done..].
Qed.

Lemma decode_pages_no_panic d n b o acc :
  descriptor_wf d → 0 ≤ o → o + Z.of_nat n = descriptor_page_count d →
  4096 + descriptor_page_count d * 4096 ≤ blen b → no_panic (decode_pages d b o n acc).
Proof.
  intros Hd. destruct (wd_ranges d Hd) as (?&?&_). revert o acc.
  induction n as [|n IH]; intros o acc Ho Hn Hb; cbn [decode_pages]; [apply no_panic_Ok|].
  rewrite page_offset_in by (done || lia). osimpl. unfold EXACT_INDEX_PAGE_BYTES.
  apply no_panic_bind; [apply no_panic_index_range; lia|]. intros e _.
  apply no_panic_bind; [apply descriptor_decode_page_no_panic; unfold usize_max, u64_max; lia|].
  intros page _. apply IH; lia.
Qed.
End Pages.

(** The pages that a descriptor with the bounds of the entries accepts are the
    chunks of the entries. *)
Lemma pages_ok_paged d o pages :
  0 ≤ o → 0 ≤ entry_count d → descriptor_page_count d = page_count (entry_count d) →
  o + blen pages = descriptor_page_count d → pages_ok d o pages →
  paged (saturating_sub (entry_count d) (o * 31)) pages.
Proof.
  intros Ho Hec Hpc. revert o Ho. induction pages as [|p pages IH]; intros o Ho Hlen Hok; cbn [paged].
  { rewrite blen_nil in Hlen. pose proof (page_count_bounds (entry_count d)). unfold saturating_sub. lia. }
  destruct Hok as [Hp Hps]. rewrite blen_cons in Hlen. pose proof (rp_count _ _ _ Hp) as Hc.
  pose proof (ok_count _ _ (rp_page _ _ _ Hp)) as [? _]. split_and!; [done|done|].
  specialize (IH (o + 1) ltac:(lia) ltac:(lia) Hps).
  replace (saturating_sub (entry_count d) (o * 31) - blen p) with (saturating_sub (entry_count d) ((o + 1) * 31));
    [done|]. unfold saturating_sub in *. lia.
Qed.
Lemma pages_ok_entries d o pages : pages_ok d o pages → Forall entry_ok (concat pages).
Proof.
  revert o. induction pages as [|p pages IH]; intros o; cbn [concat pages_ok]; [constructor|].
  intros [Hp Hps]. apply Forall_app. split; [apply (rp_page _ _ _ Hp)|by eapply IH].
Qed.
Lemma paged_pages_ok d o pages :
  descriptor_wf d → 0 ≤ o → o + blen pages = descriptor_page_count d →
  paged (saturating_sub (entry_count d) (o * 31)) pages →
  Forall entry_ok (concat pages) → Sorted pair_ok (concat pages) →
  (∀ e, e ∈ concat pages → minimum_chunk_id d ≤o chunk_id e ∧ chunk_id e ≤o maximum_chunk_id d) →
  (∀ e, o = 0 → head (concat pages) = Some e → chunk_id e = minimum_chunk_id d) →
  (∀ e, last (concat pages) = Some e → chunk_id e = maximum_chunk_id d) →
  pages_ok d o pages.
Proof.
  intros Hd. destruct (wd_ranges d Hd) as (?&?&_).
  revert o. induction pages as [|p pages IH]; intros o Ho Hlen Hpaged Hes Hs Hb Hf Hl; [done|].
  cbn [paged concat pages_ok] in *. rewrite blen_cons in Hlen. destruct Hpaged as (Hp1&Hmin&Hpaged).
  pose proof (blen_nonneg pages). apply Forall_app in Hes as [Hesp Hes].
  apply Sorted_app_middle in Hs as (Hsp&Hs&_).
  assert (Hne : p ≠ []) by (intros ->; rewrite blen_nil in Hp1; lia). split.
  - split; [split|..]; try done; try (unfold in_u, u32_max; lia).
    + intros e He. apply Hb, elem_of_app. by left.
    + intros e He. apply Hb, elem_of_app. by left.
    + intros e -> He. apply Hf; [done|]. by destruct p.
    + intros e Hlast He. apply Hl. assert (pages = []) as -> by (apply blen_0_nil; lia). by rewrite app_nil_r.
  - apply IH; try done; try lia.
    + replace (saturating_sub (entry_count d) ((o + 1) * 31)) with
        (saturating_sub (entry_count d) (o * 31) - blen p); [done|]. unfold saturating_sub in *. lia.
    + intros e He. apply Hb, elem_of_app. by right.
    + intros e He. apply Hl. rewrite last_app. by rewrite He.
Qed.

(** ** Runs *)

(** The invariant of a run. *)
Record run_wf (run : ExactIndexRun) : Prop := {
  wf_run_profile : blen (run_profile run) = 32 ∧ run_profile run ≠ zeros 32;
  wf_run_generation : 1 ≤ run_generation run ≤ u64_max;
  wf_run_entries : Forall entry_ok (run_entries run);
  wf_run_sorted : Sorted pair_ok (run_entries run);
  wf_run_size : 8192 + page_count (blen (run_entries run)) * 4096 ≤ MAX_RUN_BYTES;
}.
Definition descriptor_with (run : ExactIndexRun) (hash : bytes) : ExactIndexRunDescriptor :=
  let n := blen (run_entries run) in
  {| profile := run_profile run; generation := run_generation run; entry_count := n;
     descriptor_page_count := page_count n; footer_offset := 4096 + page_count n * 4096;
     file_length := 8192 + page_count n * 4096; key_bounds := key_bounds_of (run_entries run);
     run_hash := hash |}.

Lemma key_bounds_blen es : Forall entry_ok es → blen (key_bounds_of es) = 64.
Proof.
  intros Hes. unfold key_bounds_of. destruct (head es) as [f|] eqn:Hf, (last es) as [l|] eqn:Hl; try by apply blen_zeros.
  destruct (page_ends_in es f l Hf Hl) as [Hfin Hlin]. rewrite list.Forall_forall in Hes.
  rewrite blen_app, !ok_chunk; [done|by apply Hes..].
Qed.
Lemma descriptor_with_wf run hash : run_wf run → blen hash = 32 → descriptor_wf (descriptor_with run hash).
Proof.
  intros [? ? Hes ? ?] Hh. pose proof (blen_nonneg (run_entries run)). split; simpl; try done; try lia.
  - by apply key_bounds_blen.
  - intros Hz%blen_0_nil. by rewrite Hz.
Qed.
Lemma descriptor_bounds run hash f l :
  run_wf run → head (run_entries run) = Some f → last (run_entries run) = Some l →
  minimum_chunk_id (descriptor_with run hash) = chunk_id f ∧ maximum_chunk_id (descriptor_with run hash) = chunk_id l.
Proof.
  intros [_ _ Hes _ _] Hf Hl. destruct (page_ends_in _ f l Hf Hl) as [Hfin Hlin].
  rewrite list.Forall_forall in Hes. pose proof (ok_chunk _ (Hes _ Hfin)) as H1. pose proof (ok_chunk _ (Hes _ Hlin)) as H2.
  unfold minimum_chunk_id, maximum_chunk_id. cbn [key_bounds descriptor_with]. unfold key_bounds_of. rewrite Hf, Hl.
  rewrite sub_app_eq_l by done. split; [done|]. rewrite sub_app_r by lia. rewrite H1. change (32 - 32) with 0.
  by apply sub_all.
Qed.
Lemma run_pages_ok run hash :
  run_wf run → blen hash = 32 → pages_ok (descriptor_with run hash) 0 (chunks 31 (run_entries run)).
Proof.
  intros Hwf Hh. pose proof (descriptor_with_wf run hash Hwf Hh) as Hd. destruct (Hwf) as [_ _ Hes Hs _].
  destruct (chunks_paged (run_entries run)) as [Hp Hc]. pose proof (blen_nonneg (run_entries run)).
  pose proof (paged_length _ _ ltac:(done) Hp) as Hlen.
  apply paged_pages_ok; rewrite ?Hc; try done.
  - cbn [entry_count descriptor_with]. unfold saturating_sub. by rewrite Z.mul_0_l, Z.sub_0_r, Z.max_r by lia.
  - intros e He. destruct (page_ends (run_entries run)) as (f&l&Hf&Hl).
    { destruct (run_entries run); [by apply elem_of_nil in He|]. rewrite blen_cons. pose proof (blen_nonneg l). lia. }
    destruct (descriptor_bounds run hash f l Hwf Hf Hl) as [-> ->]. by apply (sorted_ends (run_entries run)).
  - intros e _ He. destruct (last (run_entries run)) as [l|] eqn:Hl.
    + by destruct (descriptor_bounds run hash e l Hwf He Hl) as [-> _].
    + apply last_None in Hl. by rewrite Hl in He.
  - intros e He. destruct (head (run_entries run)) as [f|] eqn:Hf.
    + by destruct (descriptor_bounds run hash f e Hwf Hf He) as [_ ->].
    + apply head_None in Hf. by rewrite Hf in He.
Qed.

Section RunCodec.
Context `{Crc32cLaws, Blake3Laws}.

Definition hashed_bytes (run : ExactIndexRun) : bytes :=
  header_bytes (descriptor_with run []) ++ pages_bytes 0 (chunks 31 (run_entries run)) ++
  footer_blank (descriptor_with run []).
Definition run_descriptor (run : ExactIndexRun) : ExactIndexRunDescriptor :=
  descriptor_with run (blake3_hash (hashed_bytes run)).
(** The file of a run. *)
Definition run_bytes (run : ExactIndexRun) : bytes :=
  header_bytes (run_descriptor run) ++ pages_bytes 0 (chunks 31 (run_entries run)) ++
  footer_bytes (run_descriptor run).

Lemma calculate_run_hash_in a f fo :
  blen a = fo → fo + 220 ≤ usize_max → blen f = 4096 →
  calculate_run_hash (a ++ f) fo = Ok (blake3_hash (a ++ splice f 184 (zeros 36))).
Proof.
  intros Ha Hfo Hf. pose proof (blen_nonneg a). unfold calculate_run_hash, RUN_HASH_OFFSET, FOOTER_CRC_OFFSET.
  change (216 + 4) with 220. rewrite !add_or_panic_in by lia. osimpl.
  rewrite index_range_in by (rewrite ?blen_app; lia). osimpl. unfold index_from.
  rewrite index_range_in by (rewrite ?blen_app; lia). osimpl. cbv zeta.
  unfold Hasher.finalize, Hasher.update, Hasher.new. do 2 f_equal. cbn [app].
  rewrite Z.sub_0_r, sub_split, sub_app_eq_l by (done || lia). rewrite !sub_app_r by (rewrite ?blen_app; lia).
  rewrite Z.add_0_l, Ha. replace (fo - fo) with 0 by lia. replace (fo + 220 - fo) with 220 by lia.
  rewrite blen_app, Ha, Hf. replace (fo + 4096 - (fo + 220)) with 3876 by lia. rewrite <-!app_assoc. f_equal.
  rewrite <-(sub_all (splice f 184 (zeros 36)) (184 + (36 + 3876))) by blia.
  rewrite (sub_split _ 0 184), (sub_split _ (0 + 184) 36) by blia. f_equal; [|f_equal].
  - by rewrite sub_splice_ne by blia.
  - by rewrite sub_splice_eq by blia.
  - by rewrite sub_splice_ne by blia.
Qed.
Lemma footer_unhashed d :
  descriptor_wf d → splice (footer_bytes d) 184 (zeros 36) = footer_blank d.
Proof.
  intros Hd. destruct (seal_facts (E:=ExactIndexFormatError) 4096 _ 216 ltac:(lia) ltac:(lia) ltac:(done)
    (footer_fits d Hd) ltac:(reflexivity) (footer_bytes d) eq_refl) as (Hl&_&_&Hsub).
  set (f := footer_bytes d) in *. clearbody f.
  apply (render_unique 4096 _ _ [8;2;2;2;2;8;8;8;8;8;4;4;32;64;8;8;8;36;3876]); [blia| |done|done|].
  { apply Forall_app. split; [by apply d_fits|]. solve_fits. }
  repeat apply Forall_cons_2; try apply Forall_nil_2; simpl; (split_and!; [lia..|]);
    first [ rewrite sub_splice_eq by blia; reflexivity
          | rewrite sub_splice_ne by blia; erewrite Hsub by (lia || reflexivity); reflexivity ].
Qed.

Lemma encode_pages_render run rest h :
  run_wf run → blen h = 4096 →
  encode_pages (h ++ zeros (4096 * page_count (blen (run_entries run))) ++ rest) (run_entries run) =
  Ok (h ++ pages_bytes 0 (chunks 31 (run_entries run)) ++ rest).
Proof.
  intros Hwf Hh. pose proof (run_pages_ok run (zeros 32) Hwf ltac:(by apply blen_zeros)) as Hok.
  destruct (chunks_paged (run_entries run)) as [Hp _]. pose proof (blen_nonneg (run_entries run)).
  pose proof (paged_length _ _ ltac:(done) Hp) as Hlen. pose proof (wf_run_size _ Hwf) as Hsz.
  unfold encode_pages. change (Z.to_nat ENTRIES_PER_PAGE) with 31%nat.
  change (Z.of_nat (length ?x)) with (blen x) in Hlen. rewrite <-Hlen, <-(blen_enumerate_from 0).
  rewrite <-(blen_enumerate_from 0) in Hlen.
  apply (encode_table_render 4096 4096 (2 ^ 18) _ _ (λ x, page_ok x.1 x.2) numbered_page_bytes); try lia.
  - intros o Ho. unfold EXACT_INDEX_HEADER_BYTES, EXACT_INDEX_PAGE_BYTES. apply table_start_in; unfold usize_max, u64_max; lia.
  - intros x Hx. by apply blen_page_bytes.
  - intros [o es] Hx. by apply encode_page_seal.
  - by eapply pages_ok_enumerate.
  - unfold MAX_RUN_BYTES in Hsz. lia.
Qed.

Lemma put_app_end {E} (a c v : bytes) o :
  blen a = o → blen v = blen c → @put E byte (a ++ c) o v = Ok (a ++ v).
Proof.
  intros Ha Hv. pose proof (blen_nonneg a). rewrite put_in by (rewrite ?blen_app; lia).
  by rewrite splice_app_end.
Qed.
Lemma put_app_shift {E} (a c v : bytes) fo o :
  blen a = fo → 0 ≤ o → o + blen v ≤ blen c → @put E byte (a ++ c) (fo + o) v = Ok (a ++ splice c o v).
Proof.
  intros <- Ho Hv. pose proof (blen_nonneg a). rewrite put_in by (rewrite ?blen_app; lia).
  by rewrite splice_app_shift.
Qed.
Lemma index_from_app {E} (a c : bytes) fo : blen a = fo → @index_from E byte (a ++ c) fo = Ok c.
Proof.
  intros <-. unfold index_from. pose proof (blen_nonneg a). pose proof (blen_nonneg c).
  rewrite index_range_in by (rewrite ?blen_app; lia). rewrite sub_app_r by lia. rewrite blen_app. f_equal.
  replace (blen a - blen a) with 0 by lia. apply sub_all. lia.
Qed.

Lemma splice_whole (c v : bytes) : blen v = blen c → splice c 0 v = v.
Proof. intros Hv. exact (splice_app_end [] c v 0 eq_refl Hv). Qed.

(** The header and the footer that the encoder writes for a run. *)
Lemma identity_block run magic :
  run_wf run → blen magic = 8 →
  let n := blen (run_entries run) in
  encode_identity_fields (zeros 4096) magic (run_profile run) (run_generation run) n (page_count n)
    (key_bounds_of (run_entries run)) (4096 + page_count n * 4096) (8192 + page_count n * 4096) =
  Ok (render 4096 (d_fields magic (descriptor_with run []))).
Proof.
  intros [[Hprof _] _ Hes _ Hsz] Hm n. pose proof (key_bounds_blen _ Hes).
  pose proof (page_count_bounds n). unfold MAX_RUN_BYTES in Hsz.
  apply encode_identity_fields_render; try done; unfold u64_max; unfold n in *; lia.
Qed.
Lemma header_seal run hash : run_wf run → blen hash = 32 →
  let h := render 4096 (d_fields HEADER_MAGIC (descriptor_with run [])) in
  checksum_with_zero h 184 = Ok (crc32c h) ∧
  splice h 184 (le_bytes 4 (crc32c h)) = header_bytes (descriptor_with run hash) ∧ blen h = 4096.
Proof.
  intros Hwf Hh h. pose proof (descriptor_with_wf run hash Hwf Hh) as Hd.
  pose proof (d_fits 4096 HEADER_MAGIC _ ltac:(lia) eq_refl Hd) as Hf.
  split_and!; [|done|by apply (blen_render 4096)].
  apply checksum_render; [lia|lia|done|exact Hf|reflexivity].
Qed.
Lemma footer_seal d hash : descriptor_wf (with_hash d hash) →
  let f := footer_blank d in
  let g := splice f 184 hash in
  encode_identity_fields (zeros 4096) FOOTER_MAGIC (profile d) (generation d) (entry_count d)
    (descriptor_page_count d) (key_bounds d) (footer_offset d) (file_length d) =
    Ok (render 4096 (d_fields FOOTER_MAGIC d)) ∧
  put (render 4096 (d_fields FOOTER_MAGIC d)) 10 (le_bytes 2 4096) = @Ok ExactIndexFormatError _ f ∧
  blen f = 4096 ∧ splice f 184 (zeros 36) = f ∧ blen g = 4096 ∧ checksum_with_zero g 216 = Ok (crc32c g) ∧
  splice g 216 (le_bytes 4 (crc32c g)) = footer_bytes (with_hash d hash).
Proof.
  intros Hd f g. pose proof (footer_fits _ Hd) as Hf. destruct (wd_ranges _ Hd) as (?&?&?&?).
  pose proof (d_fits 4096 FOOTER_MAGIC _ ltac:(lia) eq_refl Hd : Forall (fits 4096) (d_fields FOOTER_MAGIC d)) as Hi.
  assert (Hblank : Forall (fits 4096) (d_fields FOOTER_MAGIC d ++ [Field 10 2 (le_bytes 2 4096)])).
  { apply Forall_app. split; [done|]. solve_fits. }
  assert (Hg : g = render 4096 (footer_fields (with_hash d hash))).
  { unfold g, f, footer_blank, footer_fields, render, render_on. by rewrite !foldl_app. }
  pose proof (blen_render 4096 _ ltac:(lia) Hi) as Hr. destruct (Hd) as [[? _] _ _ _ _ _ _ ? _ _]. simpl in *.
  rewrite Hg. split_and!; [| |by apply (blen_render 4096)|by apply render_zeroed|by apply (blen_render 4096)| |done].
  - apply encode_identity_fields_render; done || (unfold u64_max; lia).
  - rewrite put_in by (rewrite ?blen_le_bytes; lia). unfold f, footer_blank, render, render_on. by rewrite foldl_app.
  - apply checksum_render; [lia|lia|done|exact Hf|reflexivity].
Qed.

Lemma run_encode_bytes run : run_wf run → run_encode run = Ok (run_bytes run).
Proof.
  intros Hwf. pose proof (blen_nonneg (run_entries run)) as Hn. destruct (page_count_le _ Hn) as [Hpn _].
  pose proof (blake3_hash_blen (hashed_bytes run)) as Hhash.
  pose proof (blen_pages_bytes _ _ _ (run_pages_ok run _ Hwf Hhash)) as Hpl.
  destruct (chunks_paged (run_entries run)) as [Hp _]. pose proof (paged_length _ _ Hn Hp) as Hlen.
  change (Z.of_nat (length ?x)) with (blen x) in Hlen. rewrite Hlen in Hpl.
  pose proof (wf_run_size _ Hwf) as Hsz. unfold MAX_RUN_BYTES in Hsz.
  pose proof (identity_block run) as Hid. cbv zeta in Hid.
  destruct (header_seal run _ Hwf Hhash) as (Hhc&Hhs&Hhl).
  destruct (footer_seal (descriptor_with run []) (blake3_hash (hashed_bytes run)) (descriptor_with_wf run _ Hwf Hhash))
    as (_&Hfp&Hfl&Hfz&Hgl&Hgc&Hgs).
  change (with_hash (descriptor_with run []) _) with (run_descriptor run) in Hgs.
  pose proof (encode_pages_render run (zeros 4096) (header_bytes (run_descriptor run)) Hwf) as Henc.
  assert (Hhb : blen (header_bytes (run_descriptor run)) = 4096).
  { unfold run_descriptor. rewrite <-Hhs. blia. }
  unfold run_bytes. fold (run_descriptor run) in Hhs.
  unfold run_encode, encode_identity_block. rewrite (proj2 (validate_entries_iff _) (wf_run_sorted _ Hwf)). osimpl.
  set (pages := pages_bytes 0 (chunks 31 (run_entries run))) in *. set (pc := page_count (blen (run_entries run))) in *.
  rewrite (proj2 (encoded_length_iff _ (8192 + pc * 4096) Hn)) by (split; [done|unfold MAX_RUN_BYTES; lia]). osimpl.
  cbv zeta. fold pc. rewrite footer_offset_of_in by lia. osimpl.
  unfold EXACT_INDEX_HEADER_BYTES, HEADER_CRC_OFFSET, RUN_HASH_OFFSET, FOOTER_CRC_OFFSET.
  assert (Hz : zeros (8192 + pc * 4096) = zeros 4096 ++ zeros (4096 * pc) ++ zeros 4096).
  { rewrite <-!zeros_app by lia. f_equal. lia. }
  rewrite Hz. rewrite index_range_in by (rewrite ?blen_app, ?blen_zeros by lia; lia). osimpl.
  rewrite sub_app_eq_l by (by rewrite blen_zeros). rewrite Hid by done. osimpl.
  set (h := render 4096 (d_fields HEADER_MAGIC _)) in *.
  rewrite put_in by (rewrite ?blen_app, ?blen_zeros by lia; lia). osimpl.
  rewrite splice_app_l by (rewrite ?blen_zeros; lia).
  rewrite splice_whole by (by rewrite blen_zeros).
  rewrite index_range_in by (rewrite ?blen_app, ?blen_zeros by lia; lia). osimpl.
  rewrite sub_app_eq_l, Hhc by lia. osimpl. unfold put_u32, put_u16.
  rewrite put_in by (rewrite ?blen_app, ?blen_zeros, ?blen_le_bytes by lia; lia). osimpl.
  rewrite splice_app_l, Hhs, Henc by (rewrite ?blen_le_bytes; lia || done). osimpl.
  rewrite (app_assoc _ pages). set (a := _ ++ pages). assert (Ha : blen a = 4096 + pc * 4096) by (unfold a; rewrite blen_app; lia).
  rewrite (index_from_app a) by done. osimpl. rewrite Hid by done. osimpl.
  rewrite Hfp. osimpl. rewrite (put_app_end a) by (done || (by rewrite blen_zeros)). osimpl.
  rewrite calculate_run_hash_in, Hfz by (done || (unfold usize_max, u64_max; lia)). osimpl.
  replace (a ++ footer_blank (descriptor_with run [])) with (hashed_bytes run) at 2
    by (unfold a, hashed_bytes; by rewrite app_assoc).
  rewrite (put_app_shift a) by (done || lia). osimpl. rewrite (index_from_app a) by done. osimpl.
  rewrite Hgc. osimpl. rewrite (put_app_shift a), Hgs by (done || (rewrite ?blen_le_bytes; lia)).
  unfold a. by rewrite <-app_assoc.
Qed.

Lemma descriptor_eta d run :
  descriptor_wf d → profile d = run_profile run → generation d = run_generation run →
  entry_count d = blen (run_entries run) → key_bounds d = key_bounds_of (run_entries run) →
  d = descriptor_with run (run_hash d).
Proof.
  intros [_ _ _ Hpc Hfo Hfl _ _ _ _] Hp Hg He Hk. destruct d. unfold descriptor_with. simpl in *.
  subst. f_equal. lia.
Qed.
Lemma run_bytes_parts run :
  run_wf run → let d := run_descriptor run in
  descriptor_wf d ∧ pages_ok d 0 (chunks 31 (run_entries run)) ∧ blen (header_bytes d) = 4096 ∧
  blen (footer_bytes d) = 4096 ∧
  blen (pages_bytes 0 (chunks 31 (run_entries run))) = 4096 * descriptor_page_count d ∧
  blen (chunks 31 (run_entries run)) = descriptor_page_count d ∧ blen (run_bytes run) = file_length d.
Proof.
  intros Hwf d. pose proof (blake3_hash_blen (hashed_bytes run)) as Hhash.
  pose proof (descriptor_with_wf run _ Hwf Hhash : descriptor_wf d) as Hd.
  pose proof (run_pages_ok run _ Hwf Hhash : pages_ok d _ _) as Hok.
  pose proof (blen_pages_bytes _ _ _ Hok) as Hpl. destruct (chunks_paged (run_entries run)) as [Hp _].
  pose proof (paged_length _ _ (blen_nonneg _) Hp : blen _ = descriptor_page_count d) as Hlen.
  assert (Hh : blen (header_bytes d) = 4096).
  { apply (blen_seal 4096); [lia|lia|]. exact (d_fits 4096 HEADER_MAGIC d ltac:(lia) eq_refl Hd). }
  assert (Hf : blen (footer_bytes d) = 4096) by (apply (blen_seal 4096); [lia|lia|by apply footer_fits]).
  split_and!; try done; [by rewrite Hpl, Hlen|]. unfold run_bytes. fold d. rewrite !blen_app, Hh, Hf, Hpl, Hlen.
  rewrite (wd_file_length d Hd), (wd_footer_offset d Hd). lia.
Qed.

(** What the decoder reads of the file of a run. *)
Lemma run_bytes_reads run :
  run_wf run → let d := run_descriptor run in
  index_range (run_bytes run) 0 4096 = @Ok ExactIndexFormatError _ (header_bytes d) ∧
  index_from (run_bytes run) (file_length d - 4096) = @Ok ExactIndexFormatError _ (footer_bytes d) ∧
  calculate_run_hash (run_bytes run) (footer_offset d) = Ok (run_hash d) ∧
  decode_pages d (run_bytes run) 0 (Z.to_nat (descriptor_page_count d)) [] = Ok (run_entries run).
Proof.
  intros Hwf d. destruct (run_bytes_parts run Hwf) as (Hd&Hok&Hh&Hf&Hpl&Hlen&_). fold d in Hd, Hok, Hh, Hf, Hpl, Hlen.
  destruct (wd_ranges _ Hd) as (Hpc&_&_&Hfo). pose proof (footer_unhashed _ Hd) as Hfu.
  pose proof (wd_footer_offset _ Hd) as Hfo'. pose proof (wd_file_length _ Hd) as Hfl'.
  destruct (chunks_paged (run_entries run)) as [_ Hc]. unfold run_bytes. fold d. split_and!.
  - rewrite index_range_in by (rewrite ?blen_app; lia). by rewrite sub_app_eq_l by lia.
  - rewrite app_assoc. apply index_from_app. rewrite blen_app. lia.
  - rewrite app_assoc, calculate_run_hash_in, Hfu by (rewrite ?blen_app; unfold usize_max, u64_max; lia).
    rewrite <-app_assoc. done.
  - apply decode_pages_iff; [done|lia..|]. exists (chunks 31 (run_entries run)).
    split_and!; [|done|done|by rewrite Hc]. change (blen ?x) with (Z.of_nat (length x)) in Hlen. lia.
Qed.
Lemma run_decode_encode run : run_wf run → run_decode (run_bytes run) = Ok run.
Proof.
  intros Hwf. destruct (run_bytes_parts run Hwf) as (Hd&_&_&_&_&_&Hb).
  destruct (run_bytes_reads run Hwf) as (Hh&Hf&Hhash&Hpages). pose proof (wf_run_sorted _ Hwf) as Hs.
  destruct (wd_ranges _ Hd) as (_&_&Hfl&_). pose proof (descriptor_decode_encode _ Hd) as Hdec.
  unfold run_decode, EXACT_INDEX_HEADER_BYTES, FOOTER_BYTES, MAX_RUN_BYTES. rewrite Hb.
  rewrite (proj2 (Z.ltb_ge _ _)), (proj2 (Z.ltb_ge _ _)) by lia. osimpl.
  rewrite sub_or_panic_in, u64_from_usize_in by (unfold u64_max; lia). osimpl.
  rewrite Hh. osimpl. rewrite Hf. osimpl. rewrite Hdec. osimpl. rewrite Hhash. osimpl.
  rewrite bool_decide_true by done. osimpl. rewrite Hpages. osimpl.
  rewrite (proj2 (validate_entries_iff _) Hs). osimpl.
  change (entry_count (run_descriptor run)) with (blen (run_entries run)).
  rewrite ?Z.eqb_refl, bool_decide_true by done. osimpl. by destruct run.
Qed.

Lemma run_decode_inv b run : run_decode b = Ok run → run_wf run ∧ b = run_bytes run.
Proof.
  unfold run_decode, EXACT_INDEX_HEADER_BYTES, FOOTER_BYTES, u64_from_usize, index_from. intros Hr. inv_run.
  match goal with H : sub_or_panic _ _ = Ok _ |- _ => unfold sub_or_panic in H; inv_run end. inv_reads.
  match goal with H : descriptor_decode _ _ _ = Ok ?x |- _ => rename x into d;
    apply descriptor_decode_iff in H as (Hd&Hfl&Hh&Hf) end.
  match goal with H : validate_entries ?x = Ok ?u |- _ => destruct u; rename x into es;
    apply validate_entries_iff in H; rename H into Hs end.
  match goal with H : calculate_run_hash _ _ = _ |- _ => rename H into Hhash end.
  match goal with H : decode_pages _ _ _ _ _ = _ |- _ => rename H into Hpages end.
  match goal with H : blen es = entry_count d |- _ => rename H into Hec end.
  match goal with H : key_bounds_of es = _ |- _ => rename H into Hkb end. subst.
  destruct (wd_ranges d Hd) as (?&?&?&?). pose proof (wd_footer_offset d Hd) as Hfo. pose proof (wd_file_length d Hd) as Hfl'.
  set (n := descriptor_page_count d) in *.
  assert (Hb : b = header_bytes d ++ sub b 4096 (4096 * n) ++ footer_bytes d).
  { rewrite <-Hh, <-Hf. replace (blen b - (blen b - 4096)) with 4096 by lia. change (4096 - 0) with 4096.
    replace (blen b - 4096) with (4096 + 4096 * n) by lia. rewrite <-(sub_split b 4096) by lia.
    rewrite <-(sub_split b 0 4096) by lia. symmetry. apply sub_all. lia. }
  assert (Hhl : blen (header_bytes d) = 4096) by (rewrite <-Hh; rewrite blen_sub; lia).
  assert (Hfl'' : blen (footer_bytes d) = 4096) by (rewrite <-Hf; rewrite blen_sub; lia).
  assert (Hm : blen (sub b 4096 (4096 * n)) = 4096 * n) by (apply blen_sub; lia).
  rewrite Hb in Hpages, Hhash. clear Hh Hf.
  apply decode_pages_iff in Hpages as (pages&Hpn&Hok&Hpb&->); [|done|lia..]. cbn [app] in *. fold n in Hpn.
  pose proof (pages_ok_paged d 0 pages ltac:(lia) ltac:(lia) (wd_page_count d Hd)
    ltac:(change (blen pages) with (Z.of_nat (length pages)); lia) Hok) as Hpaged.
  apply paged_chunks in Hpaged as [Hch _]. pose proof (pages_ok_entries _ _ _ Hok) as Hes.
  set (run := {| run_generation := _ |}).
  assert (Hwf : run_wf run).
  { destruct (Hd) as [? ? ? Hpc ? ? Hsz ? ? ?]. split; simpl; try done. rewrite Hec, <-Hpc. fold n. lia. }
  assert (Hdr : d = descriptor_with run (run_hash d)) by (apply descriptor_eta; done).
  rewrite app_assoc, calculate_run_hash_in, footer_unhashed in Hhash
    by (done || (rewrite ?blen_app; unfold usize_max, u64_max; lia)). apply Ok_inj in Hhash.
  assert (Hdr' : d = run_descriptor run).
  { rewrite Hdr at 1. unfold run_descriptor. rewrite <-Hhash. do 2 f_equal. unfold hashed_bytes. simpl run_entries.
    rewrite <-Hch, <-app_assoc, Hpb, Hdr. done. }
  split; [done|]. rewrite Hb at 1. unfold run_bytes. rewrite <-Hdr'. simpl run_entries. by rewrite <-Hch, Hpb.
Qed.

Lemma run_decode_no_panic b : no_panic (run_decode b).
Proof.
  unfold run_decode, EXACT_INDEX_HEADER_BYTES, FOOTER_BYTES, u64_from_usize, index_from.
  apply no_panic_bind; [auto with fastdup nocore|]. intros ? Hlen. inv_run.
  rewrite sub_or_panic_in by lia. osimpl.
  apply no_panic_bind; [apply no_panic_index_range; lia|intros header _].
  apply no_panic_bind; [apply no_panic_index_range; lia|intros footer _].
  apply no_panic_bind; [auto with fastdup nocore|]. intros len Hl. inv_run.
  apply no_panic_bind; [apply descriptor_decode_no_panic|]. intros d Hd. apply descriptor_decode_iff in Hd as (Hd&Hfl&_&_).
  destruct (wd_ranges d Hd) as (?&?&?&?). pose proof (wd_footer_offset d Hd). pose proof (wd_file_length d Hd).
  assert (Hhash : no_panic (calculate_run_hash b (footer_offset d))).
  { unfold calculate_run_hash, RUN_HASH_OFFSET, FOOTER_CRC_OFFSET, index_from.
    rewrite !add_or_panic_in by (unfold usize_max, u64_max; lia). osimpl. no_panic_reads. }
  apply no_panic_bind; [done|intros hash _].
  apply no_panic_bind; [auto with fastdup nocore|intros _ _].
  apply no_panic_bind; [apply decode_pages_no_panic; done || lia|intros es _].
  apply no_panic_bind; [apply no_panic_validate_entries|intros _ _]. auto with fastdup nocore.
Qed.
(** The descriptor that readers of the file will decode. *)
Lemma run_bytes_descriptor run :
  run_wf run → let b := run_bytes run in
  descriptor_decode (sub b 0 4096) (sub b (blen b - 4096) 4096) (blen b) = Ok (run_descriptor run).
Proof.
  intros Hwf b. destruct (run_bytes_parts run Hwf) as (Hd&_&_&_&_&_&Hlen). destruct (run_bytes_reads run Hwf) as (Hh&Hf&_&_).
  destruct (wd_ranges _ Hd) as (_&_&?&_). apply index_range_Ok in Hh as (_&_&Hh). unfold index_from in Hf.
  apply index_range_Ok in Hf as (_&_&Hf). fold b in Hlen, Hh, Hf. rewrite <-Hlen in Hf.
  replace (blen b - (blen b - 4096)) with 4096 in Hf by lia. change (4096 - 0) with 4096 in Hh.
  rewrite <-Hh, <-Hf, Hlen. by apply descriptor_decode_encode.
Qed.
Lemma run_decode_iff b run : run_decode b = Ok run ↔ run_wf run ∧ run_encode run = Ok b.
Proof.
  split.
  - intros [Hwf ->]%run_decode_inv. split; [done|by apply run_encode_bytes].
  - intros [Hwf Hb]. rewrite run_encode_bytes in Hb by done. apply Ok_inj in Hb as <-. by apply run_decode_encode.
Qed.
End RunCodec.

(** ** Construction *)
Lemma validate_entry_pair_keys a b a' b' :
  location_key a = location_key a' → location_key b = location_key b' →
  validate_entry_pair a b = validate_entry_pair a' b'.
Proof.
  unfold validate_entry_pair. intros Ha Hb. rewrite Ha, Hb. unfold location_key in Ha, Hb.
  injection Ha as Ha1 Ha2 _ _ _. injection Hb as Hb1 Hb2 _ _ _. by rewrite Ha1, Ha2, Hb1, Hb2.
Qed.
Lemma cons_eq_inv {A} (x y : A) l k : x :: l = y :: k → x = y ∧ l = k.
Proof. intros Heq. by injection Heq. Qed.
Lemma validate_entries_keys l l' :
  location_key <$> l = location_key <$> l' → validate_entries l = validate_entries l'.
Proof.
  revert l'. induction l as [|a l IH]; intros [|a' l']; try done. rewrite !fmap_cons. intros [Ha Hl]%cons_eq_inv.
  specialize (IH _ Hl). destruct l as [|b l], l' as [|b' l']; try done.
  rewrite !fmap_cons in Hl. apply cons_eq_inv in Hl as [Hb _].
  change ((validate_entry_pair a b;; validate_entries (b :: l)) = (validate_entry_pair a' b';; validate_entries (b' :: l'))).
  by rewrite IH, (validate_entry_pair_keys a b a' b').
Qed.
Lemma sort_keys_perm l1 l2 :
  l1 ≡ₚ l2 → location_key <$> sort_by_key location_key l1 = location_key <$> sort_by_key location_key l2.
Proof.
  intros Hp. apply (StronglySorted_unique_strong ole).
  - intros x y _ _. apply ole_antisymm.
  - eapply StronglySorted_fmap; [|apply sort_by_key_sorted]. done.
  - eapply StronglySorted_fmap; [|apply sort_by_key_sorted]. done.
  - by rewrite !sort_by_key_perm, Hp.
Qed.
Lemma canonical_location_keys l :
  Sorted pair_ok l → Sorted (λ x y, location_key x <o location_key y) l.
Proof. apply Sorted_imp. by intros x y [_ ?]. Qed.

Lemma run_new_perm p g l1 l2 : l1 ≡ₚ l2 → run_new p g l1 = run_new p g l2.
Proof.
  intros Hp. unfold run_new. assert (blen l1 = blen l2) as ->.
  { change (blen ?x) with (Z.of_nat (length x)). by rewrite Hp. }
  rewrite (validate_entries_keys _ _ (sort_keys_perm l1 l2 Hp)). f_equal. f_equal.
  destruct (validate_entries _) as [[]| |] eqn:Hv; [|done..]. osimpl. apply validate_entries_iff in Hv.
  by rewrite (sort_by_key_strict location_key l2 l1 (symmetry Hp) (canonical_location_keys _ Hv)).
Qed.

Lemma run_new_wf p g es run :
  blen p = 32 → p ≠ zeros 32 → is_u64 g → Forall entry_ok es → run_new p g es = Ok run →
  run_wf run ∧ run_entries run ≡ₚ es.
Proof.
  intros Hp Hp' Hg Hes Hn. unfold run_new in Hn. inv_run.
  match goal with H : encoded_length _ = Ok _ |- _ => apply encoded_length_iff in H as [-> Hsz]; [|apply blen_nonneg] end.
  match goal with H : validate_entries _ = Ok ?u |- _ => destruct u; apply validate_entries_iff in H end.
  pose proof (sort_by_key_perm location_key es) as Hperm. simpl. split; [|done].
  unfold in_u in Hg. split; simpl; [done|lia|by rewrite Hperm|done|].
  replace (blen (sort_by_key location_key es)) with (blen es); [done|].
  change (blen ?x) with (Z.of_nat (length x)). by rewrite Hperm.
Qed.

(** A small run. *)
Definition sample_run : ExactIndexRun :=
  {| run_profile := replicate 32 (byte_of_Z 9); run_generation := 5; run_entries := Sample.entries |}.
Lemma sample_entries_ok : Forall entry_ok Sample.entries.
Proof. repeat constructor; by vm_compute. Qed.
Lemma sample_run_wf : run_wf sample_run.
Proof.
  split; [by vm_compute|by vm_compute|apply sample_entries_ok| |by vm_compute].
  by apply validate_entries_iff; vm_compute.
Qed.

(** ** Properties *)

(** C26: The run decoder accepts exactly the encodings of well-formed runs: the
    run has a nonzero generation and profile, valid entries in strictly
    increasing order with one length per chunk, and fits one GiB; the file is
    the one [encode] writes, header, pages, footer, checksums and hash included.
    Decoding gives back the encoded run and never panics. *)
Theorem exact_run_decode_iff `{Crc32cLaws, Blake3Laws} (b : bytes) :
  no_panic (run_decode b) ∧ ∀ run, run_decode b = Ok run ↔ run_wf run ∧ run_encode run = Ok b.
Proof. split; [apply run_decode_no_panic|apply run_decode_iff]. Qed.

Lemma exact_run_decode_iff_witness :
  ∃ b, @run_decode Crc32cBitwise.ops MixHash.ops b = Ok sample_run.
Proof.
  pose proof (@run_encode_bytes Crc32cBitwise.ops Crc32cBitwise.laws MixHash.ops MixHash.laws _ sample_run_wf) as Henc.
  exists (@run_bytes Crc32cBitwise.ops MixHash.ops sample_run).
  apply (@exact_run_decode_iff Crc32cBitwise.ops Crc32cBitwise.laws MixHash.ops MixHash.laws).
  split; [apply sample_run_wf|exact Henc].
Defined.

(** A run does not depend on the order in which its entries were collected:
    [new] gives the same run, or the same error, for every permutation of the
    entries, although it sorts with an unstable sort.  What it accepts keeps
    every entry, is well formed, encodes, and reads back as the same run. *)
Lemma exact_run_canonical `{Crc32cLaws, Blake3Laws} (p : bytes) g es :
  blen p = 32 → p ≠ zeros 32 → is_u64 g → Forall entry_ok es →
  (∀ es', es ≡ₚ es' → run_new p g es' = run_new p g es) ∧
  ∀ run, run_new p g es = Ok run →
    run_entries run ≡ₚ es ∧ run_wf run ∧ ∃ b, run_encode run = Ok b ∧ run_decode b = Ok run.
Proof.
  intros Hp Hp' Hg Hes. split; [by intros es' Hes'; apply run_new_perm|]. intros run Hr.
  destruct (run_new_wf p g es run) as [Hwf Hperm]; [done..|]. split_and!; [done|done|].
  pose proof (run_encode_bytes run Hwf) as Henc. exists (run_bytes run). split; [done|].
  by apply run_decode_iff.
Qed.
End ExactIndexRun.
