(* ===== verification/ExactIndexStream.v ===== *)
(** * The streaming encoder of exact index runs

    The merge of runs writes its output page by page without holding it.  The
    encoder accepts a sequence of pages iff they are the pages of a well-formed
    run with the announced geometry, and then writes exactly the file that
    [ExactIndexRun::encode] would. *)
From S2P Require Export ExactIndexRun.

Module ExactIndexStream.
Import ExactIndex ExactIndexPage ExactIndexRun.

(** Feeding the pages one by one, and the whole use of an encoder: the file it
    writes and the descriptor it returns. *)
Fixpoint stream_pages `{Crc32c} (s : ExactIndexRunStreamEncoder) (pages : list (list ExactIndexEntry))
    : result (ExactIndexRunStreamEncoder * bytes) :=
  match pages with
  | [] => Ok (s, [])
  | entries :: pages =>
      '(s, page) ← encode_next_page s entries;
      '(s, body) ← stream_pages s pages;
      Ok (s, page ++ body)
  end.
Definition stream_run `{Crc32c, Blake3} (profile : bytes) (generation entry_count : Z)
    (minimum maximum : bytes) (pages : list (list ExactIndexEntry)) : result (bytes * ExactIndexRunDescriptor) :=
  s ← stream_new profile generation entry_count minimum maximum;
  '(s, body) ← stream_pages s pages;
  '(footer, d) ← stream_finish s;
  Ok (stream_header s ++ body ++ footer, d).

(** ** The state of the encoder after some pages *)
Definition stream_state `{Crc32c} (d : ExactIndexRunDescriptor) (done : list (list ExactIndexEntry))
    : ExactIndexRunStreamEncoder :=
  {| stream_profile := profile d; stream_generation := generation d; stream_entry_count := entry_count d;
     stream_page_count := descriptor_page_count d; stream_footer_offset := footer_offset d;
     stream_file_length := file_length d; stream_key_bounds := key_bounds d;
     stream_header := header_bytes d; stream_hasher := header_bytes d ++ pages_bytes 0 done;
     emitted_entries := blen (concat done); emitted_pages := blen done;
     stream_previous := last (concat done) |}.
Definition stream_descriptor (p : bytes) (g n : Z) (bounds : bytes) (hash : bytes) : ExactIndexRunDescriptor :=
  {| profile := p; generation := g; entry_count := n; descriptor_page_count := page_count n;
     footer_offset := 4096 + page_count n * 4096; file_length := 8192 + page_count n * 4096;
     key_bounds := bounds; run_hash := hash |}.

Lemma enumerate_from_app {A} o (l1 l2 : list A) :
  enumerate_from o (l1 ++ l2) = enumerate_from o l1 ++ enumerate_from (o + blen l1) l2.
Proof.
  revert o. induction l1 as [|x l1 IH]; intros o; [by rewrite blen_nil, Z.add_0_r|].
  cbn [app enumerate_from]. rewrite IH, blen_cons. do 3 f_equal. lia.
Qed.
Lemma pages_bytes_app `{Crc32c} o l1 l2 : pages_bytes o (l1 ++ l2) = pages_bytes o l1 ++ pages_bytes (o + blen l1) l2.
Proof. unfold pages_bytes, table_bytes. by rewrite enumerate_from_app, fmap_app, concat_app. Qed.
Lemma pages_bytes_one `{Crc32c} o p : pages_bytes o [p] = page_bytes o p.
Proof. unfold pages_bytes, table_bytes. cbn. by rewrite app_nil_r. Qed.

(** What [encode_next_page] demands of the next page. *)
Record next_ok (d : ExactIndexRunDescriptor) (done : list (list ExactIndexEntry)) (es : list ExactIndexEntry)
    : Prop := {
  nx_room : blen done < descriptor_page_count d;
  nx_count : blen es = Z.min (entry_count d - blen (concat done)) 31;
  nx_some : 1 ≤ blen es;
  nx_pair x y : last (concat done) = Some x → head es = Some y → pair_ok x y;
  nx_sorted : Sorted pair_ok es;
  nx_first e : blen done = 0 → head es = Some e → chunk_id e = minimum_chunk_id d;
  nx_last e : blen done + 1 = descriptor_page_count d → last es = Some e → chunk_id e = maximum_chunk_id d;
}.

Section Stream.
Context `{Crc32cLaws, Blake3Laws}.

Lemma stream_descriptor_wf p g n bounds hash :
  blen p = 32 → p ≠ zeros 32 → 1 ≤ g ≤ u64_max → 1 ≤ n → 8192 + page_count n * 4096 ≤ MAX_RUN_BYTES →
  blen bounds = 64 → blen hash = 32 → descriptor_wf (stream_descriptor p g n bounds hash).
Proof. intros. split; simpl; done || lia. Qed.

Lemma stream_new_ok p g n mn mx :
  blen p = 32 → p ≠ zeros 32 → 1 ≤ g ≤ u64_max → 1 ≤ n → blen mn = 32 → blen mx = 32 →
  mn ≤o mx → 8192 + page_count n * 4096 ≤ MAX_RUN_BYTES →
  stream_new p g n mn mx = Ok (stream_state (stream_descriptor p g n (mn ++ mx) (zeros 32)) []).
Proof.
  intros Hp Hp' Hg Hn Hmn Hmx Hle Hsz. pose proof (page_count_le n ltac:(lia)). pose proof (page_count_bounds n).
  assert (Hb : blen (mn ++ mx) = 64) by (rewrite blen_app; lia).
  pose proof (stream_descriptor_wf p g n (mn ++ mx) (zeros 32) Hp Hp' Hg Hn Hsz Hb ltac:(by apply blen_zeros)) as Hd.
  pose proof (d_fits 4096 HEADER_MAGIC _ ltac:(lia) eq_refl Hd) as Hf. set (d := stream_descriptor _ _ _ _ _) in *.
  unfold stream_new. rewrite (proj2 (Z.eqb_neq g 0)), (proj2 (Z.eqb_neq n 0)) by lia.
  rewrite (bool_decide_false (mx <o mn)) by (by apply not_olt). osimpl.
  rewrite (proj2 (encoded_length_iff n _ ltac:(lia)) (conj eq_refl Hsz)). osimpl. cbv zeta.
  unfold MAX_RUN_BYTES, EXACT_INDEX_HEADER_BYTES in *. rewrite footer_offset_of_in by lia. osimpl.
  rewrite encode_identity_fields_render by (done || (unfold u64_max; lia)). osimpl.
  change (identity_fields _ _ _ _ _ _ _ _) with (d_fields HEADER_MAGIC d).
  rewrite checksum_render by (done || (unfold usize_max, u64_max; lia)). osimpl.
  pose proof (blen_render 4096 _ ltac:(lia) Hf) as Hl.
  unfold put_u32. rewrite put_in by (unfold HEADER_CRC_OFFSET; rewrite ?blen_le_bytes; lia). osimpl.
  unfold stream_state. by rewrite app_nil_r.
Qed.
Lemma stream_new_inv p g n mn mx s :
  0 ≤ g → 0 ≤ n → stream_new p g n mn mx = Ok s →
  1 ≤ g ∧ 1 ≤ n ∧ mn ≤o mx ∧ 8192 + page_count n * 4096 ≤ MAX_RUN_BYTES.
Proof.
  intros Hg Hn Hs. unfold stream_new in Hs. repeat (progress (inv_ok; zbool)).
  match goal with H : encoded_length _ = Ok _ |- _ => apply encoded_length_iff in H as [-> Hsz]; [|done] end.
  split_and!; [lia|lia|by apply not_olt|done].
Qed.

(** ** One page *)
Lemma encode_next_page_ok d done es :
  descriptor_wf d → Forall entry_ok es → blen (concat done) ≤ entry_count d → next_ok d done es →
  encode_next_page (stream_state d done) es = Ok (stream_state d (done ++ [es]), page_bytes (blen done) es).
Proof.
  intros Hd Hes Hemit [Hroom Hcount Hsome Hpair Hs Hfirst Hlast]. destruct (wd_ranges d Hd) as (?&?&_&_).
  destruct (page_ends es Hsome) as (f&l&Hf&Hl). pose proof (blen_nonneg done). pose proof (blen_nonneg (concat done)).
  assert (Hpage : page_ok (blen done) es) by (split; [unfold in_u, u32_max; lia|lia|done]).
  unfold encode_next_page, ENTRIES_PER_PAGE, EXACT_INDEX_PAGE_BYTES. cbn [stream_entry_count emitted_entries stream_state stream_page_count
    emitted_pages stream_previous stream_key_bounds stream_hasher stream_profile stream_generation stream_footer_offset
    stream_file_length stream_header].
  unfold checked_sub. rewrite (proj2 (Z.leb_le _ _) Hemit). osimpl. cbv zeta.
  rewrite (proj2 (Z.leb_gt _ _) Hroom), <-Hcount, Z.eqb_refl, (proj2 (Z.eqb_neq (blen es) 0)) by lia. osimpl.
  assert (Hzero : @vec_at ExactIndexFormatError _ es 0 = Ok f) by (apply vec_at_in; by destruct es).
  replace (match last (concat done) with Some previous => _ | None => Ok () end) with (@Ok ExactIndexFormatError () ()).
  2: { destruct (last (concat done)) as [x|]; [|done]. rewrite Hzero. osimpl. symmetry.
       apply validate_entry_pair_iff. by apply Hpair. }
  osimpl. rewrite (proj2 (validate_entries_iff es) Hs). osimpl.
  rewrite add_or_panic_in by (unfold usize_max, u64_max; lia). osimpl. rewrite Hzero, Hl. osimpl.
  fold (minimum_chunk_id d) (maximum_chunk_id d).
  replace (Ok (blen done =? 0) &&? _) with (@Ok ExactIndexFormatError _ false).
  2: { destruct (Z.eqb_spec (blen done) 0) as [Hz|]; [|done]. cbn [and_then].
       by rewrite (bool_decide_true (chunk_id f = minimum_chunk_id d)) by auto. }
  osimpl. replace ((blen done + 1 =? descriptor_page_count d) && _) with false.
  2: { destruct (Z.eqb_spec (blen done + 1) (descriptor_page_count d)) as [Hz|]; [|done].
       by rewrite (bool_decide_true (chunk_id l = maximum_chunk_id d)) by auto. }
  osimpl. rewrite encode_page_seal by done. osimpl. rewrite !checked_add_ok by (unfold usize_max, u64_max; lia). osimpl.
  unfold stream_state. rewrite pages_bytes_app, pages_bytes_one, Z.add_0_l, concat_app. cbn [concat]. rewrite app_nil_r.
  assert (last (concat done ++ es) = Some l) as -> by (rewrite last_app; by rewrite Hl).
  rewrite !blen_app. change (blen [es]) with 1.
  unfold Hasher.update. by rewrite app_assoc.
Qed.
Lemma encode_next_page_inv d done es r :
  descriptor_wf d → encode_next_page (stream_state d done) es = Ok r →
  blen (concat done) ≤ entry_count d ∧ next_ok d done es.
Proof.
  intros Hd Hr. unfold encode_next_page, ENTRIES_PER_PAGE in Hr. cbn [stream_entry_count emitted_entries stream_state stream_page_count
    emitted_pages stream_previous stream_key_bounds stream_hasher stream_profile stream_generation stream_footer_offset
    stream_file_length stream_header] in Hr. repeat (progress (inv_ok; zbool)). subst r.
  match goal with H : validate_entries es = Ok ?u |- _ => destruct u; apply validate_entries_iff in H end.
  match goal with H : add_or_panic _ _ _ = Ok _ |- _ => unfold add_or_panic in H; apply expect_Ok, checked_add_Some in H as [-> _] end.
  match goal with H : encode_page _ _ _ = Ok _ |- _ => clear H end. subst. pose proof (blen_nonneg done). split; [done|].
  split; try done; try (pose proof (blen_nonneg es); lia).
  - intros a c Ha Hc. match goal with H : match last (concat done) with _ => _ end = Ok ?u |- _ =>
      rewrite Ha in H; destruct u; rename H into Hpair end.
    assert (Hzero : @vec_at ExactIndexFormatError _ es 0 = Ok c) by (apply vec_at_in; by destruct es).
    rewrite Hzero in Hpair. osimpl. by apply validate_entry_pair_iff.
  - intros e Hz He. match goal with H : _ &&? _ = Ok false |- _ => rename H into Hf end.
    assert (Hzero : @vec_at ExactIndexFormatError _ es 0 = Ok e) by (apply vec_at_in; by destruct es).
    rewrite Hz, Hzero in Hf. cbn in Hf. apply Ok_inj in Hf. zbool. done.
  - intros e Hz He. match goal with H : (_ =? _) && _ = false |- _ => rename H into Hl end.
    rewrite He, Hz, Z.eqb_refl in Hl. cbn [andb] in Hl. zbool. done.
Qed.

(** ** All the pages *)
Fixpoint feed_ok (d : ExactIndexRunDescriptor) (done pages : list (list ExactIndexEntry)) : Prop :=
  match pages with
  | [] => True
  | p :: pages => blen (concat done) ≤ entry_count d ∧ next_ok d done p ∧ feed_ok d (done ++ [p]) pages
  end.
Lemma stream_pages_iff d done pages s out :
  descriptor_wf d → Forall entry_ok (concat pages) →
  stream_pages (stream_state d done) pages = Ok (s, out) ↔
  feed_ok d done pages ∧ s = stream_state d (done ++ pages) ∧ out = pages_bytes (blen done) pages.
Proof.
  intros Hd. revert done s out. induction pages as [|p pages IH]; intros done s out Hes; cbn [stream_pages feed_ok].
  { rewrite app_nil_r. split; [by intros [= <- <-]|]. by intros (_&->&->). }
  cbn [concat] in Hes. apply Forall_app in Hes as [Hp Hes].
  assert (Happ : pages_bytes (blen done) (p :: pages) =
    page_bytes (blen done) p ++ pages_bytes (blen (done ++ [p])) pages).
  { change (p :: pages) with ([p] ++ pages). rewrite pages_bytes_app, pages_bytes_one, blen_app. done. }
  rewrite Happ, (cons_middle p done pages), app_assoc. split.
  - intros Hr. apply bind_Ok in Hr as ([s1 page]&He&Hr). apply bind_Ok in Hr as ([s2 body]&Hrest&[= <- <-]).
    pose proof (encode_next_page_inv _ _ _ _ Hd He) as [Hle Hnext].
    rewrite encode_next_page_ok in He by done. injection He as <- <-.
    apply IH in Hrest as (?&->&->); done.
  - intros ((Hle&Hnext&Hfeed)&->&->). rewrite encode_next_page_ok by done. osimpl.
    rewrite (proj2 (IH (done ++ [p]) _ _ Hes)) by (split_and!; done). done.
Qed.
End Stream.

Lemma concat_head_cons {A} (p : list A) ps : p ≠ [] → head (p ++ ps) = head p.
Proof. by destruct p. Qed.
Lemma paged_last {A} (pages : list (list A)) t p :
  paged t pages → pages ≠ [] → last (p ++ concat pages) = last (concat pages).
Proof.
  intros Hp Hne. rewrite last_app. destruct pages as [|q pages]; [done|]. destruct Hp as (Hq&_).
  destruct (page_ends (concat (q :: pages))) as (f&l&_&Hl).
  { cbn [concat]. rewrite blen_app. pose proof (blen_nonneg (concat pages)). lia. }
  by rewrite Hl.
Qed.

(** What the encoder accepts, page by page, is what a run of these pages is. *)
Lemma feed_ok_iff d done pages :
  descriptor_wf d → blen done + blen pages = descriptor_page_count d →
  blen (concat done) + blen (concat pages) = entry_count d →
  feed_ok d done pages ↔
  paged (entry_count d - blen (concat done)) pages ∧ Sorted pair_ok (concat pages) ∧
  (∀ x y, last (concat done) = Some x → head (concat pages) = Some y → pair_ok x y) ∧
  (∀ e, blen done = 0 → head (concat pages) = Some e → chunk_id e = minimum_chunk_id d) ∧
  (∀ e, last (concat pages) = Some e → chunk_id e = maximum_chunk_id d).
Proof.
  intros Hd. revert done. induction pages as [|p pages IH]; intros done Hn Hc; cbn [feed_ok paged concat] in *.
  { rewrite blen_nil in Hc. split; [|done]. intros _. split_and!; [lia|constructor|done..]. }
  pose proof (blen_nonneg done). pose proof (blen_nonneg pages). pose proof (blen_nonneg p).
  pose proof (blen_nonneg (concat pages)). rewrite blen_cons, blen_app in *.
  assert (Hcat : concat (done ++ [p]) = concat done ++ p) by (rewrite concat_app; cbn [concat]; by rewrite app_nil_r).
  specialize (IH (done ++ [p])). rewrite Hcat, !blen_app in IH. change (blen [p]) with 1 in IH.
  specialize (IH ltac:(lia) ltac:(lia)). replace (entry_count d - (blen (concat done) + blen p)) with
    (entry_count d - blen (concat done) - blen p) in IH by lia. rewrite IH, Sorted_app_middle. clear IH Hcat.
  assert (Hends : 1 ≤ blen p → p ≠ [] ∧ last (concat done ++ p) = last p).
  { intros Hp. destruct (page_ends p Hp) as (f&l&_&Hl). rewrite last_app, Hl. split; [by intros ->|done]. }
  split.
  - intros (Hle&[Hroom Hcount Hsome Hpair Hs Hf Hl]&Hpaged&Hs'&Hpair'&_&Hl').
    destruct (Hends Hsome) as [Hne Heq]. rewrite Heq, concat_head_cons in * by done.
    split_and!; try done. intros e. destruct (decide (pages = [])) as [->|Hpn].
    + cbn [concat]. rewrite app_nil_r. apply Hl. rewrite blen_nil in Hn. lia.
    + rewrite (paged_last _ _ p Hpaged Hpn). apply Hl'.
  - intros ((Hsome&Hcount&Hpaged)&(Hs&Hs'&Hpair')&Hpair&Hf&Hl).
    destruct (Hends Hsome) as [Hne Heq]. rewrite Heq, concat_head_cons in * by done.
    split_and!; [lia| |done|done|done|lia|].
    + split; try done; [lia|]. intros e Hlast He. apply Hl.
      assert (pages = []) as -> by (apply blen_0_nil; lia). cbn [concat]. by rewrite app_nil_r.
    + intros e He. apply Hl. destruct (decide (pages = [])) as [->|Hpn]; [done|].
      by rewrite (paged_last _ _ p Hpaged Hpn).
Qed.

Section StreamRun.
Context `{Crc32cLaws, Blake3Laws}.

(** The descriptor of the finished file. *)
Definition finished (d : ExactIndexRunDescriptor) (pages : list (list ExactIndexEntry)) : ExactIndexRunDescriptor :=
  with_hash d (blake3_hash (header_bytes d ++ pages_bytes 0 pages ++ footer_blank d)).

Lemma stream_finish_iff d pages r :
  descriptor_wf d →
  stream_finish (stream_state d pages) = Ok r ↔
  blen (concat pages) = entry_count d ∧ blen pages = descriptor_page_count d ∧
  r = (footer_bytes (finished d pages), finished d pages).
Proof.
  intros Hd. set (hash := blake3_hash (header_bytes d ++ pages_bytes 0 pages ++ footer_blank d)).
  assert (Hh : blen hash = 32) by apply blake3_hash_blen.
  assert (Hd' : descriptor_wf (with_hash d hash)) by (destruct Hd; by split).
  destruct (footer_seal d hash Hd') as (Hid&Hput&Hfl&_&Hgl&Hcrc&Hseal). destruct (wd_ranges d Hd) as (_&_&?&_).
  pose proof (descriptor_decode_encode _ Hd') as Hdec.
  assert (Hok : blen (concat pages) = entry_count d → blen pages = descriptor_page_count d →
    stream_finish (stream_state d pages) = Ok (footer_bytes (finished d pages), finished d pages)).
  { intros He Hp. unfold stream_finish, EXACT_INDEX_PAGE_BYTES, RUN_HASH_OFFSET, FOOTER_CRC_OFFSET, put_u16, put_u32.
    cbn [stream_entry_count emitted_entries stream_state stream_page_count emitted_pages stream_key_bounds stream_hasher
      stream_profile stream_generation stream_footer_offset stream_file_length stream_header].
    rewrite He, Hp, !Z.eqb_refl. osimpl. rewrite Hid. osimpl. rewrite Hput. osimpl. cbv zeta.
    unfold Hasher.finalize, Hasher.update. rewrite <-app_assoc. fold hash.
    rewrite put_in by lia. osimpl. rewrite Hcrc. osimpl. rewrite put_in by (rewrite ?blen_le_bytes; lia). osimpl.
    rewrite Hseal, u64_from_usize_in by (unfold u64_max; lia). osimpl.
    change (header_bytes d) with (header_bytes (with_hash d hash)). change (file_length d) with (file_length (with_hash d hash)).
    rewrite Hdec. done. }
  split.
  - intros Hr. pose proof Hr as Hr'. unfold stream_finish in Hr'. apply bind_Ok in Hr' as (u&Hu&_).
    apply reject_if_Ok in Hu. zbool. split_and!; [done|done|]. rewrite Hok in Hr by done. by apply Ok_inj in Hr.
  - intros (?&?&->). by apply Hok.
Qed.

Lemma finished_run run :
  finished (descriptor_with run (zeros 32)) (chunks 31 (run_entries run)) = run_descriptor run.
Proof. reflexivity. Qed.
Lemma bounds_split mn mx es f l :
  blen mn = 32 → blen mx = 32 → head es = Some f → last es = Some l →
  blen (chunk_id f) = 32 → blen (chunk_id l) = 32 →
  key_bounds_of es = mn ++ mx ↔ chunk_id f = mn ∧ chunk_id l = mx.
Proof.
  intros Hmn Hmx Hf Hl Hcf Hcl. unfold key_bounds_of. rewrite Hf, Hl. split; [|by intros [-> ->]].
  apply app_inj_1. change (blen ?x) with (Z.of_nat (length x)) in *. lia.
Qed.

(** A file that the encoder finished. *)
Lemma stream_run_inv p g n mn mx pages r :
  blen p = 32 → p ≠ zeros 32 → is_u64 g → 0 ≤ n → blen mn = 32 → blen mx = 32 → Forall entry_ok (concat pages) →
  let run := {| run_profile := p; run_generation := g; run_entries := concat pages |} in
  stream_run p g n mn mx pages = Ok r →
  run_wf run ∧ pages = chunks 31 (concat pages) ∧ n = blen (concat pages) ∧ 1 ≤ n ∧
  key_bounds_of (concat pages) = mn ++ mx ∧ r = (run_bytes run, run_descriptor run).
Proof.
  intros Hp Hp' Hg Hn Hmn Hmx Hes run Hr. unfold stream_run in Hr.
  apply bind_Ok in Hr as (s&Hs&Hr). unfold in_u in Hg.
  pose proof (stream_new_inv _ _ _ _ _ _ (proj1 Hg) Hn Hs) as (Hg1&Hn1&Hle&Hsz).
  rewrite stream_new_ok in Hs by (done || lia). apply Ok_inj in Hs as <-.
  assert (Hb : blen (mn ++ mx) = 64) by (rewrite blen_app; lia).
  set (d := stream_descriptor p g n (mn ++ mx) (zeros 32)) in *.
  assert (Hd : descriptor_wf d) by (apply stream_descriptor_wf; done || lia).
  apply bind_Ok in Hr as ([s body]&Hpages&Hr). apply stream_pages_iff in Hpages as (Hfeed&->&->); [|done..].
  apply bind_Ok in Hr as ([footer d']&Hfin&[= <-]). apply stream_finish_iff in Hfin as (He&Hpc&[= -> ->]); [|done].
  cbn [app] in *. change (blen (@nil (list ExactIndexEntry))) with 0 in *. simpl entry_count in He.
  apply feed_ok_iff in Hfeed as (Hpaged&Hs&_&Hf&Hl); [|done|done|simpl; change (blen (@nil ExactIndexEntry)) with 0; lia].
  cbn [concat] in Hpaged. change (blen (@nil ExactIndexEntry)) with 0 in Hpaged.
  apply paged_chunks in Hpaged as [Hch _].
  destruct (page_ends (concat pages) ltac:(lia)) as (f&l&Hhf&Hhl). destruct (page_ends_in _ f l Hhf Hhl) as [Hfin Hlin].
  pose proof Hes as Hes'. rewrite list.Forall_forall in Hes'.
  assert (Hkb : key_bounds_of (concat pages) = mn ++ mx).
  { apply (bounds_split mn mx (concat pages) f l); try done; try by apply ok_chunk, Hes'.
    rewrite (Hf f), (Hl l) by done. unfold minimum_chunk_id, maximum_chunk_id. cbn [key_bounds d stream_descriptor].
    rewrite sub_app_eq_l by lia. split; [done|]. rewrite sub_app_r by lia. rewrite Hmn. by apply sub_all. }
  assert (Hdr : d = descriptor_with run (zeros 32)).
  { unfold d, stream_descriptor, descriptor_with, run. simpl. by rewrite He, Hkb. }
  split_and!; [|done|lia|done|done|].
  { split; simpl; [done|lia|done|done|by rewrite He]. }
  unfold run_bytes. rewrite <-finished_run, <-Hdr. change (run_entries run) with (concat pages). by rewrite <-Hch.
Qed.

(** The pages of a run are accepted. *)
Lemma stream_run_ok p g mn mx es :
  blen mn = 32 → blen mx = 32 → es ≠ [] → key_bounds_of es = mn ++ mx →
  let run := {| run_profile := p; run_generation := g; run_entries := es |} in
  run_wf run →
  stream_run p g (blen es) mn mx (chunks 31 es) = Ok (run_bytes run, run_descriptor run).
Proof.
  intros Hmn Hmx Hne Hkb run Hwf. destruct (Hwf) as [[Hp Hp'] Hg Hes Hs Hsz]. simpl in Hp, Hp', Hg, Hes, Hs, Hsz.
  destruct (chunks_paged es) as [Hpaged Hc]. pose proof (paged_length _ _ (blen_nonneg es) Hpaged) as Hlen.
  change (Z.of_nat (length ?x)) with (blen x) in Hlen.
  assert (Hone : 1 ≤ blen es).
  { destruct es; [done|]. rewrite blen_cons. pose proof (blen_nonneg es). lia. }
  destruct (page_ends es Hone) as (f&l&Hf&Hl). destruct (page_ends_in _ f l Hf Hl) as [Hfin Hlin].
  pose proof Hes as Hes'. rewrite list.Forall_forall in Hes'.
  apply (bounds_split mn mx es f l) in Hkb as [Hcf Hcl]; try done; try by apply ok_chunk, Hes'.
  pose proof (sorted_ends es f l Hs Hf Hl l Hlin) as [Hle _]. rewrite Hcf, Hcl in Hle.
  unfold stream_run. rewrite stream_new_ok by done. osimpl.
  set (d := stream_descriptor p g (blen es) (mn ++ mx) (zeros 32)).
  assert (Hdr : d = descriptor_with run (zeros 32)).
  { unfold d, stream_descriptor, descriptor_with, run. simpl.
    by rewrite (proj2 (bounds_split mn mx es f l Hmn Hmx Hf Hl (ok_chunk _ (Hes' _ Hfin)) (ok_chunk _ (Hes' _ Hlin)))). }
  assert (Hd : descriptor_wf d) by (rewrite Hdr; apply descriptor_with_wf; [done|by apply blen_zeros]).
  destruct (descriptor_bounds run (zeros 32) f l Hwf Hf Hl) as [Hmin Hmax]. rewrite <-Hdr in Hmin, Hmax.
  rewrite (proj2 (stream_pages_iff d [] (chunks 31 es) (stream_state d (chunks 31 es)) (pages_bytes 0 (chunks 31 es)) Hd
    ltac:(by rewrite Hc))).
  - osimpl. rewrite (proj2 (stream_finish_iff d (chunks 31 es) _ Hd)) by (by rewrite Hc). osimpl.
    rewrite Hdr. reflexivity.
  - split_and!; [|done|done]. apply feed_ok_iff; [done|done|by rewrite Hc|]. rewrite Hc. cbn [concat].
    change (blen (@nil ExactIndexEntry)) with 0. change (entry_count d) with (blen es). rewrite Z.sub_0_r.
    split_and!; [done|done|done| |]; intros; simplify_eq; congruence.
Qed.
End StreamRun.

(** ** Properties *)

(** C25: The streaming encoder writes the file that [ExactIndexRun::encode] writes.
    Fed with pages of valid entries, it finishes iff the pages are, 31 entries
    at a time, the entries of a well-formed nonempty run with the announced
    count and key bounds; the header, the pages and the footer it returned are
    then exactly the encoded run, and its descriptor is the one a reader decodes
    from that file. *)
Theorem exact_stream_equiv `{Crc32cLaws, Blake3Laws} (p : bytes) g n mn mx pages b d :
  blen p = 32 → p ≠ zeros 32 → is_u64 g → is_usize n → blen mn = 32 → blen mx = 32 →
  Forall entry_ok (concat pages) →
  let run := {| run_profile := p; run_generation := g; run_entries := concat pages |} in
  stream_run p g n mn mx pages = Ok (b, d) ↔
  run_wf run ∧ run_encode run = Ok b ∧ pages = chunks 31 (concat pages) ∧ n = blen (concat pages) ∧ 1 ≤ n ∧
  key_bounds_of (concat pages) = mn ++ mx ∧
  descriptor_decode (sub b 0 4096) (sub b (blen b - 4096) 4096) (blen b) = Ok d.
Proof.
  intros Hp Hp' Hg [Hn _] Hmn Hmx Hes run. split.
  - intros Hr. apply stream_run_inv in Hr as (Hwf&Hch&Hcount&Hone&Hkb&[= -> ->]); [|done..].
    split_and!; [done|by apply run_encode_bytes|done..|by apply run_bytes_descriptor].
  - intros (Hwf&Henc&Hch&->&Hone&Hkb&Hdec). rewrite run_encode_bytes in Henc by done. apply Ok_inj in Henc as <-.
    rewrite run_bytes_descriptor in Hdec by done. apply Ok_inj in Hdec as <-.
    assert (Hne : concat pages ≠ []) by (intros Heq; rewrite Heq, blen_nil in Hone; lia).
    pose proof (stream_run_ok p g mn mx (concat pages) Hmn Hmx Hne Hkb Hwf) as Hok. by rewrite <-Hch in Hok.
Qed.
Lemma exact_stream_equiv_witness :
  let p := replicate 32 (byte_of_Z 9) in
  ∃ b d, @stream_run Crc32cBitwise.ops MixHash.ops p 5 2 (replicate 32 (byte_of_Z 1)) (replicate 32 (byte_of_Z 2))
           [Sample.entries] = Ok (b, d).
Proof.
  intros p. set (run := sample_run). pose proof sample_entries_ok as Hes. pose proof sample_run_wf as Hwf.
  pose proof (@run_encode_bytes Crc32cBitwise.ops Crc32cBitwise.laws MixHash.ops MixHash.laws run Hwf) as Henc.
  pose proof (@run_bytes_descriptor Crc32cBitwise.ops Crc32cBitwise.laws MixHash.ops MixHash.laws run Hwf) as Hdec.
  revert Henc Hdec. cbv zeta. generalize (@run_bytes Crc32cBitwise.ops MixHash.ops run) as b.
  generalize (@run_descriptor Crc32cBitwise.ops MixHash.ops run) as d. intros d b Henc Hdec. exists b, d.
  refine (proj2 (@exact_stream_equiv Crc32cBitwise.ops Crc32cBitwise.laws MixHash.ops MixHash.laws p 5 2
    (replicate 32 (byte_of_Z 1)) (replicate 32 (byte_of_Z 2)) [Sample.entries] b d _ _ _ _ _ _ Hes) _).
  - vm_compute. reflexivity.
  - vm_compute. discriminate.
  - vm_compute. split; discriminate.
  - vm_compute. split; discriminate.
  - vm_compute. reflexivity.
  - vm_compute. reflexivity.
  - split; [exact Hwf|]. split; [exact Henc|]. split; [vm_compute; reflexivity|].
    split; [vm_compute; reflexivity|]. split; [vm_compute; discriminate|]. split; [vm_compute; reflexivity|exact Hdec].
Defined.
End ExactIndexStream.
