(* ===== verification/RunSet.v ===== *)
(** * Exact index run sets ([fastdup-format/src/exact_index_run_set.rs])

    A run set pins the immutable runs that an activation makes current.  Runs
    come in families: the partitions of one compaction output, which have
    consecutive generations and disjoint key ranges.  The set is a metadata
    object with one fixed-size entry per run in canonical order. *)
From S2P Require Export ExactIndexRun.
From S2P Require Import Activation Metadata.

Module RunSet.
Import Metadata ExactIndex ExactIndexPage ExactIndexRun.

(** [b"FDXRST01"] *)
Definition PAYLOAD_MAGIC : bytes := map byte_of_Z [70; 68; 88; 82; 83; 84; 48; 49].
Definition RUN_SET_FORMAT_VERSION : Z := 2.
Definition PAYLOAD_HEADER_BYTES : Z := 128.
Definition RUN_ENTRY_BYTES : Z := 160.
Definition MAX_RUN_FILE_BYTES : Z := 2 ^ 30.
Definition MIN_RUN_FILE_BYTES : Z := 8192.

Inductive ExactIndexRunSetError :=
  | SetMetadata (e : MetadataFormatError)
  | SetInvalidGeneration
  | SetInvalidProfile
  | InvalidRunReference
  | InvalidRunFamily
  | OverlappingRunFamily
  | SetInvalidPayload
  | DuplicateRunGeneration
  | SetNonCanonicalOrder
  | SetArithmeticOverflow
  | SetOutOfMemory.
Abbreviation set_result A := (outcome ExactIndexRunSetError A).

Record ExactIndexRunRef := {
  ref_level : Z;
  partition_ordinal : Z;
  partition_count : Z;
  ref_profile : ExactIndexProfileId;
  family_generation : Z;
  ref_generation : Z;
  ref_hash : bytes;
  ref_file_length : Z;
  ref_entry_count : Z;
  ref_minimum : bytes;
  ref_maximum : bytes;
}.

(** [ExactIndexRunRef::new] *)
Definition ref_new (level : Z) (d : ExactIndexRunDescriptor) : set_result ExactIndexRunRef :=
  reject_if (entry_count d =? 0) InvalidRunReference;;
  file_length ← ok_or (try_from_u u64_max (file_length d)) SetArithmeticOverflow;
  entry_count ← ok_or (try_from_u u64_max (entry_count d)) SetArithmeticOverflow;
  Ok {| ref_level := level; partition_ordinal := 0; partition_count := 1; ref_profile := profile d;
        family_generation := generation d; ref_generation := generation d; ref_hash := run_hash d;
        ref_file_length := file_length; ref_entry_count := entry_count;
        ref_minimum := minimum_chunk_id d; ref_maximum := maximum_chunk_id d |}.
(** [ExactIndexRunRef::family_partition] *)
Definition ref_family_partition (level family_generation partition_ordinal partition_count : Z)
    (d : ExactIndexRunDescriptor) : set_result ExactIndexRunRef :=
  reject_if ((entry_count d =? 0) || (family_generation =? 0) || (partition_count =? 0)
    || (partition_count <=? partition_ordinal)
    || negb (bool_decide (checked_add u64_max family_generation partition_ordinal = Some (generation d))))
    InvalidRunFamily;;
  file_length ← ok_or (try_from_u u64_max (file_length d)) SetArithmeticOverflow;
  entry_count ← ok_or (try_from_u u64_max (entry_count d)) SetArithmeticOverflow;
  Ok {| ref_level := level; partition_ordinal := partition_ordinal; partition_count := partition_count;
        ref_profile := profile d; family_generation := family_generation; ref_generation := generation d;
        ref_hash := run_hash d; ref_file_length := file_length; ref_entry_count := entry_count;
        ref_minimum := minimum_chunk_id d; ref_maximum := maximum_chunk_id d |}.
(** [ExactIndexRunRef::canonical_key] *)
Definition canonical_key (r : ExactIndexRunRef) : Z * Z * Z * Z :=
  (ref_level r, family_generation r, partition_ordinal r, ref_generation r).

(** [ExactIndexRunRef::encode] *)
Definition ref_encode (b : bytes) (r : ExactIndexRunRef) : set_result bytes :=
  b ← put_u16 b 0 (ref_level r);
  b ← put_u16 b 2 (partition_ordinal r);
  b ← put_u16 b 4 (partition_count r);
  b ← put_u64 b 8 (ref_generation r);
  b ← put b 16 (ref_hash r);
  b ← put_u64 b 48 (ref_file_length r);
  b ← put_u64 b 56 (ref_entry_count r);
  b ← put b 64 (ref_minimum r);
  b ← put b 96 (ref_maximum r);
  put_u64 b 128 (family_generation r).
(** A condition on a value that is read *)
Definition holds {E} (p : Z → bool) (m : outcome E Z) : outcome E bool := x ← m; Ok (p x).
(** The condition that [ExactIndexRunRef::decode] rejects *)
Definition ref_malformed (b : bytes) : set_result bool :=
  Ok (negb (blen b =? RUN_ENTRY_BYTES))
  ||? range_any_nonzero b 6 8
  ||? range_any_nonzero b 136 (blen b)
  ||? holds (λ v, v =? 0) (get_u64 b 8)
  ||? holds (λ v, v <? MIN_RUN_FILE_BYTES) (get_u64 b 48)
  ||? holds (λ v, MAX_RUN_FILE_BYTES <? v) (get_u64 b 48)
  ||? holds (λ v, negb (v mod 4096 =? 0)) (get_u64 b 48)
  ||? holds (λ v, v =? 0) (get_u64 b 56)
  ||? holds (λ v, v =? 0) (get_u64 b 128)
  ||? holds (λ v, v =? 0) (get_u16 b 4)
  ||? (ordinal ← get_u16 b 2; holds (λ count, count <=? ordinal) (get_u16 b 4))
  ||? (family ← get_u64 b 128; ordinal ← get_u16 b 2;
       holds (λ v, negb (bool_decide (checked_add u64_max family ordinal = Some v))) (get_u64 b 8)).
(** [ExactIndexRunRef::decode] *)
Definition ref_decode (profile : ExactIndexProfileId) (b : bytes) : set_result ExactIndexRunRef :=
  bad ← ref_malformed b;
  reject_if bad InvalidRunFamily;;
  run_hash ← index_range b 16 48;
  minimum ← index_range b 64 96;
  maximum ← index_range b 96 128;
  reject_if (bool_decide (maximum <o minimum)) InvalidRunReference;;
  level ← get_u16 b 0;
  ordinal ← get_u16 b 2;
  count ← get_u16 b 4;
  family ← get_u64 b 128;
  generation ← get_u64 b 8;
  file_length ← get_u64 b 48;
  entry_count ← get_u64 b 56;
  Ok {| ref_level := level; partition_ordinal := ordinal; partition_count := count; ref_profile := profile;
        family_generation := family; ref_generation := generation; ref_hash := run_hash;
        ref_file_length := file_length; ref_entry_count := entry_count;
        ref_minimum := minimum; ref_maximum := maximum |}.

#[global] Strategy expand [ref_decode ref_malformed].

Record ExactIndexRunSet := {
  set_profile : ExactIndexProfileId;
  set_generation : Z;
  runs : list ExactIndexRunRef;
}.

(** [fn payload_length] *)
Definition payload_length (run_count entry_bytes : Z) : set_result Z :=
  entries ← ok_or (checked_mul usize_max run_count entry_bytes) SetArithmeticOverflow;
  length ← ok_or (checked_add usize_max PAYLOAD_HEADER_BYTES entries) SetArithmeticOverflow;
  reject_if (MAX_METADATA_OBJECT_BYTES - 4096 <? length) SetInvalidPayload;;
  Ok length.

(** The checks of [validate_families] on one run of a family, and their loop *)
Definition family_member (first : ExactIndexRunRef) (ordinal : Z) (run : ExactIndexRunRef) : set_result () :=
  bad ←
    Ok (negb (ref_level run =? ref_level first)
      || negb (family_generation run =? family_generation first)
      || negb (partition_count run =? partition_count first)
      || negb (partition_ordinal run =? ordinal))
    ||? (ordinal ← ok_or (try_from_u u64_max ordinal) SetArithmeticOverflow;
         Ok (negb (bool_decide (checked_add u64_max (family_generation first) ordinal = Some (ref_generation run)))));
  reject_if bad InvalidRunFamily.
Fixpoint family_members (first : ExactIndexRunRef) (ordinal : Z) (family : list ExactIndexRunRef) : set_result () :=
  match family with
  | [] => Ok ()
  | run :: family => family_member first ordinal run;; family_members first (ordinal + 1) family
  end.
(** [fn validate_families].  A family has at least one partition, so the number
    of runs is fuel enough; a partition count of zero would loop for ever. *)
Fixpoint validate_families_from (fuel : nat) (runs : list ExactIndexRunRef) (cursor : Z) : set_result () :=
  if cursor <? blen runs then
    match fuel with
    | O => Panic
    | S fuel =>
        first ← vec_at runs cursor;
        end_ ← ok_or (checked_add usize_max cursor (partition_count first)) SetArithmeticOverflow;
        reject_if (blen runs <? end_) InvalidRunFamily;;
        family ← index_range runs cursor end_;
        family_members first 0 family;;
        reject_if (windows_any (λ a b, bool_decide (ref_minimum b ≤o ref_maximum a)) family) OverlappingRunFamily;;
        validate_families_from fuel runs end_
    end
  else Ok ().
Definition validate_families (runs : list ExactIndexRunRef) : set_result () :=
  validate_families_from (length runs) runs 0.
(** [fn validate_runs] *)
Definition validate_runs (profile : ExactIndexProfileId) (runs : list ExactIndexRunRef) : set_result () :=
  reject_if (existsb (λ r, negb (bool_decide (ref_profile r = profile))) runs) SetInvalidProfile;;
  reject_if (windows_any (λ a b, bool_decide (canonical_key b ≤o canonical_key a)) runs) SetNonCanonicalOrder;;
  validate_families runs;;
  let generations := sort_by_key id (ref_generation <$> runs) in
  reject_if (windows_any Z.eqb generations) DuplicateRunGeneration.

(** [ExactIndexRunSet::new] *)
Definition run_set_new (profile : ExactIndexProfileId) (generation : Z) (runs : list ExactIndexRunRef)
    : set_result ExactIndexRunSet :=
  reject_if (generation =? 0) SetInvalidGeneration;;
  payload_length (blen runs) RUN_ENTRY_BYTES;;
  let runs := sort_by_key canonical_key runs in
  validate_runs profile runs;;
  Ok {| set_profile := profile; set_generation := generation; runs := runs |}.
(** [ExactIndexRunSet::family_count] *)
Fixpoint family_count_from (previous : option ExactIndexRunRef) (runs : list ExactIndexRunRef) : Z :=
  match runs with
  | [] => 0
  | r :: runs =>
      (if match previous with
          | None => true
          | Some p => negb (family_generation p =? family_generation r) || negb (ref_level p =? ref_level r)
          end then 1 else 0) + family_count_from (Some r) runs
  end.
Definition family_count (s : ExactIndexRunSet) : Z := family_count_from None (runs s).

(** [ExactIndexRunSet::encode] *)
Definition run_set_encode `{Crc32c, Blake3} (s : ExactIndexRunSet) : set_result bytes :=
  validate_runs (set_profile s) (runs s);;
  length ← payload_length (blen (runs s)) RUN_ENTRY_BYTES;
  let payload := zeros length in
  payload ← put payload 0 PAYLOAD_MAGIC;
  payload ← put_u16 payload 8 RUN_SET_FORMAT_VERSION;
  payload ← put_u16 payload 10 128;
  entry_bytes ← ok_or (try_from_u u16_max RUN_ENTRY_BYTES) SetArithmeticOverflow;
  payload ← put_u16 payload 12 entry_bytes;
  payload ← put_u64 payload 24 (set_generation s);
  payload ← put payload 32 (set_profile s);
  count ← ok_or (try_from_u u32_max (blen (runs s))) SetArithmeticOverflow;
  payload ← put_u32 payload 64 count;
  length32 ← ok_or (try_from_u u32_max length) SetArithmeticOverflow;
  payload ← put_u32 payload 68 length32;
  payload ← encode_entries RUN_ENTRY_BYTES (table_start PAYLOAD_HEADER_BYTES RUN_ENTRY_BYTES) ref_encode payload 0 (runs s);
  map_err SetMetadata (encode_metadata_object EXACT_INDEX_RUN_SET_KIND payload).

(** [fn decode_with_id] *)
Definition decode_with_id `{Crc32c, Blake3} (b : bytes) : set_result (ExactIndexRunSet * MetadataObjectId) :=
  object ← map_err SetMetadata (decode_metadata_object (Some EXACT_INDEX_RUN_SET_KIND) b);
  let payload := object_payload object in
  reject_if (blen payload <? PAYLOAD_HEADER_BYTES) SetInvalidPayload;;
  bad ←
    range_differs payload 0 8 PAYLOAD_MAGIC
    ||? differs (get_u16 payload 8) RUN_SET_FORMAT_VERSION
    ||? differs (get_u16 payload 10) PAYLOAD_HEADER_BYTES
    ||? differs (get_u16 payload 12) RUN_ENTRY_BYTES
    ||? differs (get_u16 payload 14) 0
    ||? differs (get_u64 payload 16) 0
    ||? range_any_nonzero payload 72 PAYLOAD_HEADER_BYTES;
  reject_if bad SetInvalidPayload;;
  generation ← get_u64 payload 24;
  reject_if (generation =? 0) SetInvalidGeneration;;
  run_count ← get_u32 payload 64;
  bad_length ←
    differs (payload_length run_count RUN_ENTRY_BYTES) (blen payload)
    ||? differs (get_u32 payload 68) (blen payload);
  reject_if bad_length SetInvalidPayload;;
  profile ← index_range payload 32 64;
  profile ← ok_or (ExactIndexProfileId_new profile) SetInvalidProfile;
  runs ← decode_entries RUN_ENTRY_BYTES (table_start PAYLOAD_HEADER_BYTES RUN_ENTRY_BYTES) (ref_decode profile)
           payload 0 (Z.to_nat run_count);
  validate_runs profile runs;;
  Ok ({| set_profile := profile; set_generation := generation; runs := runs |}, object_id object).
(** [ExactIndexRunSet::decode], [ExactIndexRunSetId::from_encoded] and [ExactIndexRunSet::id] *)
Definition run_set_decode `{Crc32c, Blake3} (b : bytes) : set_result ExactIndexRunSet :=
  fst <$> decode_with_id b.
Definition run_set_id_from_encoded `{Crc32c, Blake3} (b : bytes) : set_result MetadataObjectId :=
  snd <$> decode_with_id b.
Definition run_set_id `{Crc32c, Blake3} (s : ExactIndexRunSet) : set_result MetadataObjectId :=
  b ← run_set_encode s; run_set_id_from_encoded b.

(** ** Run references *)

(** A reference with fields of their widths and the geometry of its family. *)
Record ref_ok (r : ExactIndexRunRef) : Prop := {
  ok_level : is_u16 (ref_level r);
  ok_count : is_u16 (partition_count r);
  ok_ordinal : 0 ≤ partition_ordinal r < partition_count r;
  ok_family : 1 ≤ family_generation r;
  ok_generation : ref_generation r = family_generation r + partition_ordinal r;
  ok_generation_max : ref_generation r ≤ u64_max;
  ok_ref_hash : blen (ref_hash r) = 32;
  ok_file_length : MIN_RUN_FILE_BYTES ≤ ref_file_length r ≤ MAX_RUN_FILE_BYTES;
  ok_file_pages : ref_file_length r mod 4096 = 0;
  ok_entry_count : 1 ≤ ref_entry_count r ≤ u64_max;
  ok_minimum : blen (ref_minimum r) = 32;
  ok_maximum : blen (ref_maximum r) = 32;
  ok_range : ref_minimum r ≤o ref_maximum r;
}.
Definition ref_fields (r : ExactIndexRunRef) : list field := [
  Field 0 2 (le_bytes 2 (ref_level r));
  Field 2 2 (le_bytes 2 (partition_ordinal r));
  Field 4 2 (le_bytes 2 (partition_count r));
  Field 8 8 (le_bytes 8 (ref_generation r));
  Field 16 32 (ref_hash r);
  Field 48 8 (le_bytes 8 (ref_file_length r));
  Field 56 8 (le_bytes 8 (ref_entry_count r));
  Field 64 32 (ref_minimum r);
  Field 96 32 (ref_maximum r);
  Field 128 8 (le_bytes 8 (family_generation r)) ].
Definition ref_bytes (r : ExactIndexRunRef) : bytes := render 160 (ref_fields r).

Lemma ref_fits r : ref_ok r → Forall (fits 160) (ref_fields r).
Proof. intros [? ? ? ? ? ? ? ? ? ? ? ? ?]. unfold ref_fields. solve_fits. Qed.
Lemma blen_ref_bytes r : ref_ok r → blen (ref_bytes r) = 160.
Proof. intros. apply blen_render; [lia|]. by apply ref_fits. Qed.
Lemma ref_encode_render r : ref_ok r → ref_encode (zeros 160) r = Ok (ref_bytes r).
Proof.
  intros Hr. transitivity (@puts ExactIndexRunSetError (zeros 160) (ref_fields r)); [reflexivity|].
  apply (puts_in 160); [by apply blen_zeros|by apply ref_fits].
Qed.
Lemma holds_false {E} p (m : outcome E Z) : holds p m = Ok false ↔ ∃ x, m = Ok x ∧ p x = false.
Proof.
  unfold holds. split.
  - intros (x&Hx&Hp)%bind_Ok. apply Ok_inj in Hp. by exists x.
  - intros (x&->&Hp). by rewrite Ok_bind, Hp.
Qed.
(** What the chained conditions of [ref_decode] say about the values read. *)
Ltac inv_holds := repeat match goal with
  | H : holds _ _ = Ok false |- _ => apply holds_false in H as (?&?&?)
  | H : (_ ← _; _) = Ok false |- _ => apply bind_Ok in H as (?&?&H)
  end.
Ltac same_reads := repeat match goal with
  | H1 : ?m = Ok ?x, H2 : ?m = Ok ?y |- _ => rewrite H1 in H2; apply Ok_inj in H2; subst y
  end.
Lemma ref_decode_inv p b r :
  blen b = 160 → ref_decode p b = Ok r → (ref_ok r ∧ ref_profile r = p) ∧ b = ref_bytes r.
Proof.
  intros Hb Hd. unfold ref_decode in Hd. inv_run.
  match goal with H : ref_malformed _ = Ok _ |- _ => unfold ref_malformed in H end. inv_run. inv_holds. same_reads. inv_reads. zbool. subst.
  repeat match goal with H : negb _ = false |- _ => apply negb_false_iff in H end. zbool.
  match goal with H : checked_add _ _ _ = Some _ |- _ => apply checked_add_Some in H as [Hgen ?] end.
  match goal with H : ¬ _ <o _ |- _ => apply not_olt in H end.
  match goal with |- (ref_ok ?x ∧ _) ∧ _ => set (r := x); assert (Hr : ref_ok r) end.
  { unfold in_u in *. split; simpl; try done; try lia; rewrite blen_sub; lia. }
  split; [done|].
  match goal with H : sub b 136 _ = _ |- _ => rewrite Hb in H; change (160 - 136) with 24 in H end.
  apply (render_unique 160 _ b [2;2;2;2;8;32;8;8;32;32;8;24]); [done|by apply ref_fits|done|done|].
  unfold r. render_parts.
Qed.
Lemma ref_decode_encode p r : ref_ok r → ref_profile r = p → ref_decode p (ref_bytes r) = Ok r.
Proof.
  intros Hr Hp. pose proof (ref_fits r Hr) as Hfits. pose proof (blen_ref_bytes r Hr) as Hb.
  destruct (Hr) as [? ? ? ? Hgen ? ? ? Hpages ? ? ? Hrange]. unfold ref_bytes in *.
  set (b := render 160 (ref_fields r)) in *.
  assert (Hsub : ∀ o k v, 0 ≤ o → 0 ≤ k → o + k ≤ 160 →
    field_at (rev (ref_fields r)) o k = Some v → sub b o k = v).
  { intros. by apply (sub_render 160). }
  unfold ref_decode, ref_malformed, holds. rewrite Hb. clearbody b. osimpl. eval_reads b Hb. osimpl. eval_sub b Hsub.
  unfold MIN_RUN_FILE_BYTES, MAX_RUN_FILE_BYTES in *.
  assert (is_u16 (partition_ordinal r) ∧ is_u64 (ref_generation r) ∧ is_u64 (ref_file_length r) ∧
    is_u64 (ref_entry_count r) ∧ is_u64 (family_generation r)) as (?&?&?&?&?) by (unfold in_u, u16_max, u64_max in *; lia).
  eval_ints. osimpl.
  rewrite (proj2 (Z.eqb_neq (ref_generation r) 0)), (proj2 (Z.ltb_ge (ref_file_length r) 8192)),
    (proj2 (Z.ltb_ge (2 ^ 30) (ref_file_length r))), Hpages, (proj2 (Z.eqb_neq (ref_entry_count r) 0)),
    (proj2 (Z.eqb_neq (family_generation r) 0)), (proj2 (Z.eqb_neq (partition_count r) 0)),
    (proj2 (Z.leb_gt (partition_count r) (partition_ordinal r))), checked_add_ok, Hgen by lia.
  rewrite (bool_decide_true (Some _ = Some _)) by done. osimpl.
  rewrite bool_decide_false by (by apply not_olt). osimpl. subst p. rewrite <-Hgen. by destruct r.
Qed.
Lemma ref_decode_iff p b r :
  blen b = 160 → ref_decode p b = Ok r ↔ (ref_ok r ∧ ref_profile r = p) ∧ b = ref_bytes r.
Proof. intros Hb. split; [by apply ref_decode_inv|]. intros [[? ?] ->]. by apply ref_decode_encode. Qed.
Lemma ref_decode_no_panic p b : blen b = 160 → no_panic (ref_decode p b).
Proof. intros Hb. unfold ref_decode, ref_malformed, holds. rewrite Hb. no_panic_reads. Qed.

(** ** Families *)

(** The run [r] is partition [o] of the family that starts with [first]. *)
Record member_ok (first : ExactIndexRunRef) (o : Z) (r : ExactIndexRunRef) : Prop := {
  mem_level : ref_level r = ref_level first;
  mem_family : family_generation r = family_generation first;
  mem_count : partition_count r = partition_count first;
  mem_ordinal : partition_ordinal r = o;
  mem_generation : ref_generation r = family_generation first + o;
  mem_max : family_generation first + o ≤ u64_max;
}.
(** A complete family: all its partitions, in order, with increasing key ranges. *)
Record family_ok (first : ExactIndexRunRef) (f : list ExactIndexRunRef) : Prop := {
  fam_head : head f = Some first;
  fam_count : blen f = partition_count first;
  fam_members i r : f !! i = Some r → member_ok first (Z.of_nat i) r;
  fam_ranges : Sorted (λ a b, ref_maximum a <o ref_minimum b) f;
}.
Definition families_ok (runs : list ExactIndexRunRef) (fams : list (list ExactIndexRunRef)) : Prop :=
  runs = concat fams ∧ Forall (λ f, ∃ first, family_ok first f) fams.

Lemma family_member_iff first o r : 0 ≤ o ≤ u64_max → family_member first o r = Ok () ↔ member_ok first o r.
Proof.
  intros Ho. unfold family_member. rewrite try_from_u_ok by lia. osimpl. split.
  - intros Hm. inv_run. zbool.
    by split.
  - intros [-> -> -> -> -> ?]. rewrite !Z.eqb_refl, checked_add_ok, bool_decide_true by done. by osimpl.
Qed.
Lemma family_members_iff first o f :
  0 ≤ o → o + blen f ≤ u64_max →
  family_members first o f = Ok () ↔ ∀ i r, f !! i = Some r → member_ok first (o + Z.of_nat i) r.
Proof.
  revert o. induction f as [|r f IH]; intros o Ho Hle; cbn [family_members]; [by split|].
  rewrite blen_cons in Hle. pose proof (blen_nonneg f). split.
  - intros ([]&Hr&Hf)%bind_Ok. apply family_member_iff in Hr; [|lia]. rewrite IH in Hf by lia.
    intros [|i] r' Hi; cbn [lookup list_lookup] in Hi; [injection Hi as <-; change (Z.of_nat 0) with 0; by rewrite Z.add_0_r|].
    replace (o + Z.of_nat (S i)) with (o + 1 + Z.of_nat i) by lia. by apply Hf.
  - intros Hall. rewrite (proj2 (family_member_iff first o r ltac:(lia))).
    2: { specialize (Hall 0%nat r eq_refl). by replace (o + Z.of_nat 0) with o in Hall by lia. }
    rewrite Ok_bind. apply IH; [lia..|]. intros i r' Hi. specialize (Hall (S i) r' Hi).
    by replace (o + Z.of_nat (S i)) with (o + 1 + Z.of_nat i) in Hall by lia.
Qed.
Lemma windows_ranges f :
  windows_any (λ a b, bool_decide (ref_minimum b ≤o ref_maximum a)) f = false ↔
  Sorted (λ a b, ref_maximum a <o ref_minimum b) f.
Proof.
  rewrite windows_any_false. split; apply Sorted_imp; intros a b.
  - intros Hr%bool_decide_eq_false. by apply not_ole.
  - intros Hr. by apply bool_decide_eq_false, not_ole.
Qed.

(** One round of the loop. *)
Lemma family_round done first rest fuel :
  is_u16 (partition_count first) → blen (done ++ first :: rest) ≤ 2 ^ 32 →
  validate_families_from (S fuel) (done ++ first :: rest) (blen done) =
  if decide (partition_count first ≤ blen (first :: rest)) then
    let f := take (Z.to_nat (partition_count first)) (first :: rest) in
    family_members first 0 f;;
    reject_if (windows_any (λ a b, bool_decide (ref_minimum b ≤o ref_maximum a)) f) OverlappingRunFamily;;
    validate_families_from fuel (done ++ first :: rest) (blen done + partition_count first)
  else Err InvalidRunFamily.
Proof.
  intros [? ?] Hmax. cbn [validate_families_from]. pose proof (blen_nonneg done). pose proof (blen_nonneg rest).
  rewrite blen_app, blen_cons in *. unfold u16_max in *.
  rewrite (proj2 (Z.ltb_lt _ _)) by lia. rewrite (vec_at_in _ _ first).
  2: { rewrite lookup_app_r by (change (blen done) with (Z.of_nat (length done)); lia).
       change (blen done) with (Z.of_nat (length done)). by rewrite Nat2Z.id, Nat.sub_diag. }
  rewrite Ok_bind, checked_add_ok, ok_or_Some, Ok_bind by (unfold usize_max, u64_max; lia).
  destruct (decide _) as [Hc|Hc]; [|by rewrite (proj2 (Z.ltb_lt _ _)), reject_if_true by lia].
  rewrite (proj2 (Z.ltb_ge _ _)), reject_if_false, Ok_bind by lia.
  rewrite index_range_in, Ok_bind by (rewrite ?blen_app, ?blen_cons; lia).
  rewrite sub_app_r by lia. replace (blen done - blen done) with 0 by lia.
  replace (blen done + partition_count first - blen done) with (partition_count first) by lia.
  reflexivity.
Qed.
Lemma family_end fuel done : validate_families_from fuel (done ++ []) (blen done) = Ok ().
Proof. rewrite app_nil_r. destruct fuel; cbn [validate_families_from]; by rewrite Z.ltb_irrefl. Qed.
Lemma families_ok_cons first rest :
  ref_ok first → (∃ fams, families_ok (first :: rest) fams) ↔
  partition_count first ≤ blen (first :: rest) ∧
  family_ok first (take (Z.to_nat (partition_count first)) (first :: rest)) ∧
  ∃ fams, families_ok (drop (Z.to_nat (partition_count first)) (first :: rest)) fams.
Proof.
  intros Hfirst. destruct (ok_ordinal _ Hfirst) as [? Hord]. split.
  - intros ([|f fams]&Heq&Hf); [done|]. apply Forall_cons_1 in Hf as [[first' Hfam] Hf]. cbn [concat] in Heq.
    destruct Hfam as [Hh Hc Hm Hs] eqn:Hfam'. destruct f as [|x f]; [done|]. injection Hh as ->.
    cbn [app] in Heq. injection Heq as <- ->. rewrite (app_comm_cons f _ first).
    rewrite blen_app. pose proof (blen_nonneg (concat fams)). split; [lia|].
    change (blen (first :: f)) with (Z.of_nat (length (first :: f))) in Hc. rewrite <-Hc, Nat2Z.id.
    rewrite take_app_length, drop_app_length. split; [done|]. by exists fams.
  - intros (Hc&Hfam&fams&Heq&Hf). exists (take (Z.to_nat (partition_count first)) (first :: rest) :: fams). split.
    + cbn [concat]. by rewrite <-Heq, take_drop.
    + constructor; [by exists first|done].
Qed.

Lemma validate_families_from_iff fuel done rest :
  Forall ref_ok rest → (length rest ≤ fuel)%nat → blen (done ++ rest) ≤ 2 ^ 32 →
  no_panic (validate_families_from fuel (done ++ rest) (blen done)) ∧
  (validate_families_from fuel (done ++ rest) (blen done) = Ok () ↔ ∃ fams, families_ok rest fams).
Proof.
  revert done rest. induction fuel as [|fuel IH]; intros done [|first rest] Hrefs Hfuel Hmax;
    [|simpl in Hfuel; lia| |].
  1, 2: rewrite family_end; split; [done|]; split; [by exists nil|done].
  pose proof (Forall_inv Hrefs) as Hfirst. destruct (ok_ordinal _ Hfirst) as [? Hord]. pose proof (ok_count _ Hfirst) as Hu.
  rewrite family_round, families_ok_cons by done. destruct (decide _) as [Hc|Hc]; [|split; [done|by split; [|intros [? _]]]].
  cbv zeta. set (k := Z.to_nat (partition_count first)). set (f := take k (first :: rest)).
  assert (Hf : blen f = partition_count first).
  { change (blen f) with (Z.of_nat (length f)). unfold f. rewrite length_take.
    change (blen (first :: rest)) with (Z.of_nat (length (first :: rest))) in Hc. lia. }
  destruct (IH (done ++ f) (drop k (first :: rest))) as [Hnp Hiff].
  { by apply Forall_drop. }
  { rewrite length_drop. simpl in *. lia. }
  { rewrite <-app_assoc. unfold f. by rewrite (take_drop k). }
  assert (Hall : (done ++ f) ++ drop k (first :: rest) = done ++ first :: rest).
  { rewrite <-app_assoc. unfold f. by rewrite (take_drop k). }
  rewrite Hall, blen_app, Hf in Hnp, Hiff.
  assert (Hmem : no_panic (family_members first 0 f) ∧
    (family_members first 0 f = Ok () ↔ ∀ i r, f !! i = Some r → member_ok first (Z.of_nat i) r)).
  { split; [|apply family_members_iff; unfold in_u, u16_max, u64_max in *; lia]. clear. generalize 0.
    induction f as [|r f IH]; intros o; cbn [family_members]; [done|].
    apply no_panic_bind; [|intros _ _; apply IH]. unfold family_member. auto 20 with fastdup nocore. }
  destruct Hmem as [Hmnp Hmem]. split.
  - apply no_panic_bind; [done|intros _ _]. apply no_panic_bind; [auto with fastdup nocore|intros _ _]. done.
  - split.
    + intros ([]&Hm&Hw)%bind_Ok. apply bind_Ok in Hw as ([]&Hw%reject_if_Ok&Hrest). rewrite windows_ranges in Hw.
      split_and!; [done| |by apply Hiff]. split; [|done|by apply Hmem|done].
      unfold f, k. destruct (Z.to_nat (partition_count first)) eqn:?; [lia|done].
    + intros (_&[_ _ Hm Hs]&Hrest). rewrite (proj2 Hmem Hm), Ok_bind, (proj2 (windows_ranges f) Hs).
      rewrite reject_if_false, Ok_bind. by apply Hiff.
Qed.
Lemma validate_families_iff rs :
  Forall ref_ok rs → blen rs ≤ 2 ^ 32 →
  no_panic (validate_families rs) ∧ (validate_families rs = Ok () ↔ ∃ fams, families_ok rs fams).
Proof. intros Hrefs Hmax. exact (validate_families_from_iff (length rs) [] rs Hrefs ltac:(lia) Hmax). Qed.

(** ** Whole sets *)
Lemma NoDup_Permutation_iff {A} (l k : list A) : l ≡ₚ k → NoDup k ↔ NoDup l.
Proof. by intros ->. Qed.
Lemma sorted_distinct (l : list Z) :
  windows_any Z.eqb (sort_by_key id l) = false ↔ NoDup l.
Proof.
  rewrite windows_any_false. pose proof (sort_by_key_perm id l) as Hp. pose proof (sort_by_key_sorted id l) as Hs.
  set (s := sort_by_key id l) in *. clearbody s. rewrite (NoDup_Permutation_iff s l Hp). clear Hp. split.
  - intros Hne. assert (Hlt : StronglySorted Z.lt s); [|].
    { apply Sorted_StronglySorted; [intros ???; lia|]. apply StronglySorted_Sorted in Hs.
      clear -Hs Hne. induction Hs as [|x s Hs IH Hx]; [constructor|]. apply Sorted_inv in Hne as [Hne Hx'].
      constructor; [auto|]. destruct Hx as [|y s Hle]; constructor. apply HdRel_inv in Hx'.
      apply Z.eqb_neq in Hx'. rewrite ole_Z in Hle. cbv [id] in Hle. lia. }
    clear -Hlt. induction Hlt as [|x s _ IH Hx]; constructor; [|done]. intros Hin.
    rewrite list.Forall_forall in Hx. specialize (Hx x Hin). lia.
  - intros Hnd. clear Hs. induction s as [|x s IH]; [constructor|]. apply NoDup_cons in Hnd as [Hx Hnd].
    constructor; [auto|]. destruct s as [|y s]; constructor. apply Z.eqb_neq. intros ->. apply Hx. by left.
Qed.
Lemma validate_runs_iff p rs :
  Forall ref_ok rs → blen rs ≤ 2 ^ 32 →
  no_panic (validate_runs p rs) ∧
  (validate_runs p rs = Ok () ↔
   Forall (λ r, ref_profile r = p) rs ∧ Sorted (λ a b, canonical_key a <o canonical_key b) rs ∧
   (∃ fams, families_ok rs fams) ∧ NoDup (ref_generation <$> rs)).
Proof.
  intros Hrefs Hmax. destruct (validate_families_iff rs Hrefs Hmax) as [Hnp Hfam]. unfold validate_runs.
  assert (Hprof : existsb (λ r, negb (bool_decide (ref_profile r = p))) rs = false ↔ Forall (λ r, ref_profile r = p) rs).
  { clear. induction rs as [|r rs IH]; [by split|]. cbn [existsb]. rewrite orb_false_iff, IH, negb_false_iff, bool_decide_eq_true.
    split; [intros []; by constructor|intros Hf; by apply Forall_cons_1 in Hf]. }
  assert (Hord : windows_any (λ a b, bool_decide (canonical_key b ≤o canonical_key a)) rs = false ↔
    Sorted (λ a b, canonical_key a <o canonical_key b) rs).
  { rewrite windows_any_false. split; apply Sorted_imp; intros a b; rewrite bool_decide_eq_false; apply not_ole. }
  rewrite <-Hprof, <-Hord, <-Hfam, <-sorted_distinct. split.
  - repeat (apply no_panic_bind; [auto with fastdup nocore|intros _ _]). auto with fastdup nocore.
  - split.
    + intros ([]&?%reject_if_Ok&Hd)%bind_Ok. apply bind_Ok in Hd as ([]&?%reject_if_Ok&Hd).
      apply bind_Ok in Hd as ([]&?&?%reject_if_Ok). done.
    + intros (->&->&->&Hg). by rewrite !reject_if_false, !Ok_bind, Hg.
Qed.

(** The type invariant of a run set. *)
Record run_set_wf (s : ExactIndexRunSet) : Prop := {
  ws_profile : blen (set_profile s) = 32 ∧ set_profile s ≠ zeros 32;
  ws_generation : 1 ≤ set_generation s ≤ u64_max;
  ws_refs : Forall ref_ok (runs s);
  ws_profiles : Forall (λ r, ref_profile r = set_profile s) (runs s);
  ws_order : Sorted (λ a b, canonical_key a <o canonical_key b) (runs s);
  ws_families : ∃ fams, families_ok (runs s) fams;
  ws_generations : NoDup (ref_generation <$> runs s);
  ws_size : 128 + blen (runs s) * 160 ≤ MAX_METADATA_OBJECT_BYTES - 4096;
}.
Lemma set_payload_length_iff n r :
  0 ≤ n → payload_length n 160 = Ok r ↔ r = 128 + n * 160 ∧ r ≤ MAX_METADATA_OBJECT_BYTES - 4096.
Proof.
  intros Hn. unfold payload_length, PAYLOAD_HEADER_BYTES, MAX_METADATA_OBJECT_BYTES. split.
  - intros Hp. inv_run. lia.
  - intros (->&Hle). rewrite checked_mul_ok by (unfold usize_max, u64_max; lia). osimpl.
    rewrite checked_add_ok by (unfold usize_max, u64_max; lia). osimpl.
    by rewrite (proj2 (Z.ltb_ge _ _)) by lia.
Qed.
Lemma ws_count s : run_set_wf s → blen (runs s) ≤ 2 ^ 32.
Proof. intros Hs. pose proof (ws_size s Hs). unfold MAX_METADATA_OBJECT_BYTES in *. lia. Qed.
Lemma ws_validates s : run_set_wf s → validate_runs (set_profile s) (runs s) = Ok ().
Proof.
  intros Hs. apply validate_runs_iff; [apply Hs|by apply ws_count|]. by destruct Hs.
Qed.

Definition set_fields (s : ExactIndexRunSet) : list field := [
  Field 0 8 PAYLOAD_MAGIC;
  Field 8 2 (le_bytes 2 RUN_SET_FORMAT_VERSION);
  Field 10 2 (le_bytes 2 128);
  Field 12 2 (le_bytes 2 160);
  Field 24 8 (le_bytes 8 (set_generation s));
  Field 32 32 (set_profile s);
  Field 64 4 (le_bytes 4 (blen (runs s)));
  Field 68 4 (le_bytes 4 (128 + blen (runs s) * 160)) ].
Definition set_payload (s : ExactIndexRunSet) : bytes :=
  render 128 (set_fields s) ++ table_bytes ref_bytes (runs s).
Lemma set_fits s : run_set_wf s → Forall (fits 128) (set_fields s).
Proof. intros [[? _] _ _ _ _ _ _ _]. unfold set_fields. solve_fits. Qed.
Lemma table_start_run {E} o :
  0 ≤ o < 2 ^ 32 → @table_start E PAYLOAD_HEADER_BYTES RUN_ENTRY_BYTES o = Ok (128 + o * 160).
Proof. intros. apply table_start_in; unfold RUN_ENTRY_BYTES, PAYLOAD_HEADER_BYTES, usize_max, u64_max; lia. Qed.

Lemma set_encode_payload `{Crc32c, Blake3} s :
  run_set_wf s →
  run_set_encode s = map_err SetMetadata (encode_metadata_object EXACT_INDEX_RUN_SET_KIND (set_payload s)).
Proof.
  intros Hs. pose proof (ws_size s Hs) as Hsz. pose proof (set_fits s Hs) as Hfits. pose proof (blen_nonneg (runs s)) as Hn.
  unfold run_set_encode. rewrite (ws_validates s Hs), Ok_bind. unfold RUN_ENTRY_BYTES.
  rewrite (proj2 (set_payload_length_iff _ (128 + blen (runs s) * 160) Hn)) by done. osimpl.
  unfold MAX_METADATA_OBJECT_BYTES in Hsz. rewrite !try_from_u_ok by (unfold u16_max, u32_max; lia). osimpl.
  set (n := 128 + blen (runs s) * 160) in *.
  change (puts_then (zeros n) (set_fields s) (λ payload,
    payload ← encode_entries 160 (table_start PAYLOAD_HEADER_BYTES 160) ref_encode payload 0 (runs s);
    map_err SetMetadata (encode_metadata_object EXACT_INDEX_RUN_SET_KIND payload))
    = map_err SetMetadata (encode_metadata_object EXACT_INDEX_RUN_SET_KIND (set_payload s))).
  rewrite (puts_then_in n); [|blia|apply (fits_mono 128); [lia|done]].
  unfold n in *. rewrite zeros_app by lia.
  rewrite (render_on_app 128) by (by apply blen_zeros || done).
  fold (render 128 (set_fields s)). pose proof (blen_render 128 _ ltac:(lia) Hfits) as Hr.
  replace (blen (runs s) * 160) with (160 * blen (runs s)) by lia.
  pose proof (encode_table_render 128 160 (2 ^ 32) (table_start PAYLOAD_HEADER_BYTES 160) ref_encode ref_ok ref_bytes ltac:(lia)
    table_start_run blen_ref_bytes ref_encode_render (runs s) (render 128 (set_fields s)) [] 0 (ws_refs s Hs)
    ltac:(lia) ltac:(lia) ltac:(lia) ltac:(lia)) as Henc.
  rewrite !app_nil_r in Henc. rewrite Henc. by osimpl.
Qed.

Section SetCodec.
Context `{Crc32cLaws, Blake3Laws}.

Lemma set_decode_encode s b : run_set_wf s → run_set_encode s = Ok b → ∃ id, decode_with_id b = Ok (s, id).
Proof.
  intros Hs Hb. rewrite set_encode_payload, map_err_Ok in Hb by done.
  destruct (decode_metadata_encode (Some EXACT_INDEX_RUN_SET_KIND) EXACT_INDEX_RUN_SET_KIND _ _ ltac:(done) ltac:(congruence) Hb)
    as (id&_&Hd). exists id.
  pose proof (ws_size s Hs) as Hsz. pose proof (set_fits s Hs) as Hfits. pose proof (ws_validates s Hs) as Hval.
  destruct (Hs) as [[Hp Hp'] Hg Hrefs Hprof _ _ _ _].
  unfold decode_with_id. rewrite Hd. osimpl. simpl object_payload. simpl object_id.
  pose proof (blen_nonneg (runs s)) as Hn. set (p := set_payload s) in *.
  pose proof (blen_render 128 _ ltac:(lia) Hfits) as Hr.
  pose proof (blen_table_bytes 160 ref_ok ref_bytes blen_ref_bytes _ Hrefs) as Ht.
  assert (Hl : blen p = 128 + blen (runs s) * 160) by (unfold p, set_payload; rewrite blen_app, Hr, Ht; lia).
  assert (Hsub : ∀ o k v, 0 ≤ o → 0 ≤ k → o + k ≤ 128 →
    field_at (rev (set_fields s)) o k = Some v → sub p o k = v).
  { intros. unfold p, set_payload. rewrite sub_app_l by lia. by apply (sub_render 128). }
  unfold PAYLOAD_HEADER_BYTES, RUN_ENTRY_BYTES, MAX_METADATA_OBJECT_BYTES in *.
  rewrite Hl. rewrite (proj2 (Z.ltb_ge (128 + _) 128)) by lia. osimpl.
  eval_reads p Hl. osimpl. eval_sub p Hsub.
  assert (is_u32 (blen (runs s)) ∧ is_u32 (128 + blen (runs s) * 160) ∧ is_u64 (set_generation s)) as (?&?&?)
    by (unfold in_u, u32_max; lia).
  eval_ints. osimpl. rewrite (proj2 (Z.eqb_neq (set_generation s) 0)) by lia. osimpl.
  rewrite (proj2 (set_payload_length_iff _ (128 + blen (runs s) * 160) Hn));
    [|split; [done|unfold MAX_METADATA_OBJECT_BYTES; lia]].
  osimpl. rewrite (proj2 (ProfileId_new_Some (set_profile s) (set_profile s))) by done. osimpl. unfold p at 1, set_payload.
  pose proof (decode_table_iff 128 160 (2 ^ 32) (table_start 128 160) (ref_decode (set_profile s))
    (λ r, ref_ok r ∧ ref_profile r = set_profile s) ref_bytes ltac:(lia) table_start_run
    (λ r Hr', blen_ref_bytes r (proj1 Hr')) (ref_decode_iff (set_profile s)) (runs s) (Z.to_nat (blen (runs s)))
    (render 128 (set_fields s)) (table_bytes ref_bytes (runs s)) [] 0 ltac:(lia) ltac:(lia) ltac:(lia) ltac:(lia) ltac:(lia)) as Hdec.
  rewrite app_nil_r in Hdec. rewrite (proj2 Hdec).
  - rewrite Ok_bind, Hval, Ok_bind. by destruct s.
  - split_and!; [|by apply Forall_and|done]. change (blen (runs s)) with (Z.of_nat (length (runs s))). lia.
Qed.

(** The table of a payload of the right length. *)
Lemma set_table_inv p prof n rs :
  blen p = 128 + n * 160 → 0 ≤ n → blen p ≤ MAX_METADATA_OBJECT_BYTES - 4096 →
  decode_entries 160 (table_start 128 160) (ref_decode prof) p 0 (Z.to_nat n) = Ok rs →
  blen rs = n ∧ Forall ref_ok rs ∧ Forall (λ r, ref_profile r = prof) rs ∧ sub p 128 (n * 160) = table_bytes ref_bytes rs.
Proof.
  unfold MAX_METADATA_OBJECT_BYTES. intros Hlen Hn Hmax Hes.
  assert (Hp : p = sub p 0 128 ++ sub p 128 (n * 160) ++ []).
  { rewrite app_nil_r. rewrite <-(sub_split p 0 128) by lia. symmetry. apply sub_all. lia. }
  rewrite Hp in Hes.
  apply (decode_table_iff 128 160 (2 ^ 32) (table_start 128 160) (ref_decode prof)
    (λ r, ref_ok r ∧ ref_profile r = prof) ref_bytes ltac:(lia) table_start_run
    (λ r Hr', blen_ref_bytes r (proj1 Hr')) (ref_decode_iff _)) in Hes as (Hcount&Hok&Hrest);
    [|rewrite blen_sub by lia; lia|lia|lia|rewrite blen_sub; lia|lia].
  apply Forall_and in Hok as [Hrefs Hprofs]. split_and!; try done.
  change (blen rs) with (Z.of_nat (length rs)). lia.
Qed.
Lemma set_decode_inv s id b : decode_with_id b = Ok (s, id) → run_set_wf s ∧ run_set_encode s = Ok b.
Proof.
  unfold decode_with_id. intros (o&Ho&Hd)%bind_Ok. apply map_err_Ok in Ho.
  apply decode_metadata_inv in Ho as (Hk&_&_&Henc). specialize (Hk _ eq_refl).
  set (p := object_payload o) in *. cbv zeta in Hd. unfold PAYLOAD_HEADER_BYTES, RUN_ENTRY_BYTES in Hd.
  clearbody p. inv_run. inv_reads. zbool.
  match goal with H : payload_length ?x _ = Ok _ |- _ => rename x into n; apply set_payload_length_iff in H as (Hlen&Hmax) end.
  2: unfold in_u in *; lia.
  match goal with H : ExactIndexProfileId_new _ = Some _ |- _ => apply ProfileId_new_Some in H as [-> Hprof] end.
  match goal with H : decode_entries _ _ _ _ _ _ = Ok ?x |- _ => rename H into Hes; rename x into rs end.
  match goal with H : validate_runs _ _ = Ok ?u |- _ => rename H into Hval; destruct u end.
  unfold in_u in *. subst.
  apply set_table_inv in Hes as (Hcnt&Hrefs&Hprofs&Hrest); [|done|lia|done].
  unfold MAX_METADATA_OBJECT_BYTES in Hmax.
  apply validate_runs_iff in Hval as (_&Hord&Hfam&Hgen); [|done|lia].
  set (s := {| set_profile := _ |}).
  assert (Hwf : run_set_wf s).
  { split; simpl; try done; [split; [rewrite blen_sub; lia|done]|lia|]. unfold MAX_METADATA_OBJECT_BYTES. lia. }
  split; [done|]. rewrite set_encode_payload, map_err_Ok by done.
  rewrite Hk, <-Henc. f_equal. 
  replace p with (sub p 0 128 ++ sub p 128 (n * 160))
    by (rewrite <-(sub_split p 0 128) by lia; apply sub_all; lia).
  unfold set_payload. simpl runs. rewrite <-Hrest. f_equal. symmetry.
  apply (render_prefix_unique 128 _ p [8;2;2;2;2;8;8;32;4;4;56]); [lia|lia|by apply set_fits|done|done|].
  unfold set_fields. simpl. rewrite Hcnt, <-Hlen. render_parts.
Qed.
Lemma set_decode_no_panic b : no_panic (decode_with_id b).
Proof.
  unfold decode_with_id. apply no_panic_bind; [apply no_panic_map_err, decode_metadata_no_panic|intros o _].
  cbv zeta. set (p := object_payload o). clearbody p. unfold PAYLOAD_HEADER_BYTES, RUN_ENTRY_BYTES.
  apply no_panic_bind; [auto with fastdup nocore|]. intros ? Hlen. inv_run. no_panic_reads.
  1: { unfold payload_length. auto 10 with fastdup nocore. }
  all: inv_run; inv_reads; match goal with H : payload_length _ _ = Ok _ |- _ =>
    apply set_payload_length_iff in H as [Hp ?]; [|unfold in_u in *; lia] end; unfold in_u in *.
  - unfold MAX_METADATA_OBJECT_BYTES in *.
    apply (decode_entries_no_panic 128 160 (2 ^ 32) (table_start 128 160) (ref_decode _)); try lia.
    + apply table_start_run.
    + apply ref_decode_no_panic.
  - match goal with H : decode_entries _ _ _ _ _ _ = Ok _ |- _ => apply set_table_inv in H as (?&?&?&?); [|lia..|lia] end.
    unfold MAX_METADATA_OBJECT_BYTES in *. apply validate_runs_iff; [done|lia].
Qed.
Lemma set_decode_iff b s : run_set_decode b = Ok s ↔ run_set_wf s ∧ run_set_encode s = Ok b.
Proof.
  unfold run_set_decode. split.
  - destruct (decode_with_id b) as [[s' id]| |] eqn:Hd; [|done..]. intros [= <-]. by eapply set_decode_inv.
  - intros [Hwf Hb]. destruct (set_decode_encode s b Hwf Hb) as [id ->]. done.
Qed.
End SetCodec.

(** ** Construction *)
Lemma keys_of_order l :
  windows_any (λ a b, bool_decide (canonical_key b ≤o canonical_key a)) l = false →
  Sorted (λ a b, canonical_key a <o canonical_key b) l.
Proof.
  rewrite windows_any_false. apply Sorted_imp. intros a b. rewrite bool_decide_eq_false. apply not_ole.
Qed.
Lemma sorted_keys_equal (l1 l2 : list ExactIndexRunRef) :
  l1 ≡ₚ l2 → canonical_key <$> sort_by_key canonical_key l1 = canonical_key <$> sort_by_key canonical_key l2.
Proof.
  intros Hp. apply (StronglySorted_unique_strong ole).
  - intros x y _ _. apply ole_antisymm.
  - eapply StronglySorted_fmap; [|apply sort_by_key_sorted]. done.
  - eapply StronglySorted_fmap; [|apply sort_by_key_sorted]. done.
  - by rewrite !sort_by_key_perm, Hp.
Qed.
Lemma windows_any_fmap {A B} (f : A → B) (p : B → B → bool) l :
  windows_any (λ a b, p (f a) (f b)) l = windows_any p (f <$> l).
Proof. induction l as [|x [|y l] IH]; [done..|]. cbn [windows_any fmap list_fmap] in *. by rewrite IH. Qed.
Lemma windows_keys l :
  windows_any (λ a b, bool_decide (canonical_key b ≤o canonical_key a)) l =
  windows_any (λ a b, bool_decide (b ≤o a)) (canonical_key <$> l).
Proof. exact (windows_any_fmap canonical_key (λ a b, bool_decide (b ≤o a)) l). Qed.
Lemma existsb_perm {A} (p : A → bool) l1 l2 : l1 ≡ₚ l2 → existsb p l1 = existsb p l2.
Proof.
  induction 1 as [|x l1 l2 _ IH|x y l|l1 l2 l3 _ IH1 _ IH2]; cbn [existsb]; [done|by rewrite IH| |by rewrite IH1].
  destruct (p x), (p y); done.
Qed.
Lemma run_set_new_perm p g l1 l2 : l1 ≡ₚ l2 → run_set_new p g l1 = run_set_new p g l2.
Proof.
  intros Hp. unfold run_set_new. assert (blen l1 = blen l2) as ->.
  { change (blen ?x) with (Z.of_nat (length x)). by rewrite Hp. }
  destruct (windows_any (λ a b, bool_decide (canonical_key b ≤o canonical_key a)) (sort_by_key canonical_key l1)) eqn:Hw.
  2: { by rewrite (sort_by_key_strict canonical_key l1 l2 Hp (keys_of_order _ Hw)). }
  pose proof Hw as Hw'. rewrite windows_keys, (sorted_keys_equal l1 l2 Hp), <-windows_keys in Hw'.
  assert (∀ l, windows_any (λ a b, bool_decide (canonical_key b ≤o canonical_key a)) l = true →
    validate_runs p l = (reject_if (existsb (λ r, negb (bool_decide (ref_profile r = p))) l) SetInvalidProfile;;
                         Err SetNonCanonicalOrder)) as Hv.
  { intros l Hl. unfold validate_runs. by rewrite Hl. }
  rewrite !Hv by done. rewrite (existsb_perm _ (sort_by_key canonical_key l1) (sort_by_key canonical_key l2)).
  2: { by rewrite !sort_by_key_perm. }
  by destruct (existsb _ _).
Qed.
Lemma run_set_new_wf p g rs s :
  blen p = 32 → p ≠ zeros 32 → is_u64 g → Forall ref_ok rs → run_set_new p g rs = Ok s →
  run_set_wf s ∧ runs s ≡ₚ rs.
Proof.
  intros Hp Hp' Hg Hrs Hn. unfold run_set_new in Hn. inv_run.
  match goal with H : payload_length _ _ = Ok _ |- _ => apply set_payload_length_iff in H as [-> Hsz]; [|apply blen_nonneg] end.
  pose proof (sort_by_key_perm canonical_key rs) as Hperm.
  assert (Hlen : blen (sort_by_key canonical_key rs) = blen rs).
  { change (blen ?x) with (Z.of_nat (length x)). by rewrite Hperm. }
  match goal with H : validate_runs _ _ = Ok ?u |- _ => destruct u; apply validate_runs_iff in H as (?&?&?&?) end;
    [|by rewrite Hperm|unfold MAX_METADATA_OBJECT_BYTES in *; lia].
  split; [|done]. unfold in_u in *. split; simpl; [done|lia|by rewrite Hperm|done..|by rewrite Hlen].
Qed.
(** A set is encoded unless its payload hashes to the reserved identity. *)
Lemma run_set_encodes `{Crc32cLaws, Blake3Laws} s id :
  run_set_wf s → calculate_object_id EXACT_INDEX_RUN_SET_KIND (blen (set_payload s)) (set_payload s) = Ok id →
  run_set_encode s = Ok (envelope EXACT_INDEX_RUN_SET_KIND id (set_payload s)).
Proof.
  intros Hs Hid. rewrite set_encode_payload, map_err_Ok, encode_envelope by done. exists id. split_and!; [|done|done].
  pose proof (ws_size s Hs) as Hsz. pose proof (blen_nonneg (runs s)).
  assert (Hl : blen (set_payload s) = 128 + blen (runs s) * 160).
  { unfold set_payload. rewrite blen_app, (blen_render 128), (blen_table_bytes 160 ref_ok ref_bytes blen_ref_bytes)
      by (apply Hs || by apply set_fits || lia). lia. }
  unfold MAX_METADATA_OBJECT_BYTES, file_length_of, METADATA_HEADER_BYTES in *. rewrite Hl.
  pose proof (Z.mul_div_le (4096 + (128 + blen (runs s) * 160) + 4095) 4096 ltac:(lia)). lia.
Qed.
(** A reference to a run that is not empty is well formed. *)
Lemma ref_new_ok `{Crc32cLaws, Blake3Laws} level run r :
  is_u16 level → run_wf run → ref_new level (run_descriptor run) = Ok r → ref_ok r.
Proof.
  intros Hl Hwf Hr. destruct (run_bytes_parts run Hwf) as (Hd&_). destruct (wd_ranges _ Hd) as (?&?&?&?).
  pose proof (wd_generation _ Hd). pose proof (wd_file_length _ Hd). pose proof (wd_footer_offset _ Hd).
  pose proof (wd_bounds _ Hd). pose proof (wd_hash _ Hd). unfold ref_new in Hr. inv_run.
  assert (Hb : minimum_chunk_id (run_descriptor run) ≤o maximum_chunk_id (run_descriptor run)).
  { unfold minimum_chunk_id, maximum_chunk_id. change (key_bounds (run_descriptor run)) with (key_bounds_of (run_entries run)).
    change (entry_count (run_descriptor run)) with (blen (run_entries run)) in *.
    destruct (page_ends (run_entries run)) as (f&l&Hf&Hla); [lia|]. unfold key_bounds_of. rewrite Hf, Hla.
    destruct (page_ends_in _ f l Hf Hla) as [Hfin Hlin]. pose proof (wf_run_entries _ Hwf) as He. rewrite list.Forall_forall in He.
    pose proof (ok_chunk _ (He f Hfin)). pose proof (ok_chunk _ (He l Hlin)).
    rewrite sub_app_eq_l, sub_app_r by lia. replace (32 - blen (chunk_id f)) with 0 by lia. rewrite sub_all by lia.
    exact (proj1 (sorted_ends _ f l (wf_run_sorted _ Hwf) Hf Hla l Hlin)). }
  set (d := run_descriptor run) in *. clearbody d. split; simpl; try done; try lia.
  - replace (file_length d) with ((descriptor_page_count d + 2) * 4096) by lia. by apply Z.mod_mul.
  - unfold minimum_chunk_id. rewrite blen_sub; lia.
  - unfold maximum_chunk_id. rewrite blen_sub; lia.
Qed.

(** A family of two partitions and a newer run. *)
Module SetSample.
Definition ref (level ordinal count family mn mx : Z) : ExactIndexRunRef :=
  {| ref_level := level; partition_ordinal := ordinal; partition_count := count;
     ref_profile := replicate 32 (byte_of_Z 9); family_generation := family; ref_generation := family + ordinal;
     ref_hash := replicate 32 (byte_of_Z 3); ref_file_length := 12288; ref_entry_count := 2;
     ref_minimum := replicate 32 (byte_of_Z mn); ref_maximum := replicate 32 (byte_of_Z mx) |}.
Definition refs : list ExactIndexRunRef := [ref 1 1 2 7 51 90; ref 1 0 2 7 1 50; ref 0 0 1 9 2 80].
End SetSample.

(** ** Properties *)

(** C27: The run set decoder accepts exactly the encodings of well-formed run
    sets: known profile and generation, references of valid geometry in strict
    canonical order, complete families with consecutive generations and
    increasing disjoint key ranges, no generation twice, within the size of a
    metadata object.  Decoding gives back the encoded set and never panics.  A
    set does not depend on the order in which its runs were collected, and [new]
    accepts only well-formed sets. *)
Theorem run_set_decode_iff `{Crc32cLaws, Blake3Laws} (b : bytes) :
  no_panic (run_set_decode b) ∧
  (∀ s, run_set_decode b = Ok s ↔ run_set_wf s ∧ run_set_encode s = Ok b) ∧
  ∀ p g rs, blen p = 32 → p ≠ zeros 32 → is_u64 g → Forall ref_ok rs →
    (∀ rs', rs ≡ₚ rs' → run_set_new p g rs' = run_set_new p g rs) ∧
    ∀ s, run_set_new p g rs = Ok s → run_set_wf s ∧ runs s ≡ₚ rs.
Proof.
  split_and!.
  - unfold run_set_decode. pose proof (set_decode_no_panic b) as Hnp. by destruct (decode_with_id b).
  - apply set_decode_iff.
  - intros p g rs Hp Hp' Hg Hrs. split.
    + intros rs' Hrs'. symmetry. by apply run_set_new_perm.
    + intros s Hs. by apply (run_set_new_wf p g).
Qed.
Lemma run_set_decode_iff_witness :
  ∃ b s, @run_set_decode Crc32cBitwise.ops MixHash.ops b = Ok s ∧ runs s ≡ₚ SetSample.refs.
Proof.
  assert (Hrefs : Forall ref_ok SetSample.refs) by (repeat constructor; by vm_compute).
  set (s := {| set_profile := replicate 32 (byte_of_Z 9); set_generation := 12;
               runs := sort_by_key canonical_key SetSample.refs |}).
  assert (Hs : run_set_new (replicate 32 (byte_of_Z 9)) 12 SetSample.refs = Ok s) by (vm_compute; reflexivity).
  assert (Hwf : run_set_wf s ∧ runs s ≡ₚ SetSample.refs).
  { destruct (@run_set_decode_iff Crc32cBitwise.ops Crc32cBitwise.laws MixHash.ops MixHash.laws []) as (_&_&Hnew).
    destruct (Hnew (replicate 32 (byte_of_Z 9)) 12 SetSample.refs) as [_ Hn].
    - vm_compute. reflexivity.
    - vm_compute. discriminate.
    - vm_compute. split; discriminate.
    - exact Hrefs.
    - exact (Hn s Hs). }
  assert (Hid : ∃ id, @calculate_object_id MixHash.ops EXACT_INDEX_RUN_SET_KIND (blen (set_payload s)) (set_payload s) = Ok id)
    by (eexists; vm_compute; reflexivity).
  destruct Hid as [id Hid].
  pose proof (@run_set_encodes Crc32cBitwise.ops Crc32cBitwise.laws MixHash.ops MixHash.laws s id (proj1 Hwf) Hid) as Hb.
  revert Hb. generalize (@envelope Crc32cBitwise.ops EXACT_INDEX_RUN_SET_KIND id (set_payload s)) as b. intros b Hb.
  exists b, s. split; [|exact (proj2 Hwf)].
  destruct (@run_set_decode_iff Crc32cBitwise.ops Crc32cBitwise.laws MixHash.ops MixHash.laws b) as (_&Hiff&_).
  apply Hiff. split; [exact (proj1 Hwf)|exact Hb].
Defined.
End RunSet.
