(* ===== verification/Manifest.v ===== *)
(** * Manifest leaves ([fastdup-format/src/manifest.rs])

    A leaf lists the extents that partition a file range: data chunks, slices
    of chunks, holes and constant fills.  The partition check, the 64-byte
    entry codec and the leaf codec inside the metadata envelope. *)
From S2P Require Import Layout Metadata.

Module Manifest.
Import Metadata.

(** [container.rs] *)
Definition MAX_LOGICAL_CHUNK_BYTES : Z := 256 * 1024.
Definition MANIFEST_HEADER_BYTES : Z := 64.
Definition MANIFEST_ENTRY_BYTES : Z := 64.
(** [b"FDMANL01"] *)
Definition MANIFEST_MAGIC : bytes := map byte_of_Z [70; 68; 77; 65; 78; 76; 48; 49].
Definition FORMAT_VERSION : Z := 2.
Definition ChunkId := bytes.

Inductive ManifestExtent :=
  | Data (logical_length : Z) (chunk_id : ChunkId)
  | DataSlice (logical_length : Z) (chunk_id : ChunkId) (chunk_length chunk_offset : Z)
  | Hole (logical_length : Z)
  | Fill (logical_length : Z) (value : byte).

(** [ManifestExtent::logical_length] *)
Definition logical_length (e : ManifestExtent) : Z :=
  match e with
  | Data l _ | DataSlice l _ _ _ | Hole l | Fill l _ => l
  end.

(** The body of the loop of [fn validate_partition] for one extent. *)
Definition validate_extent (e : ManifestExtent) : outcome MetadataFormatError () :=
  let length := logical_length e in
  reject_if (length =? 0) InvalidExtent;;
  maximum_chunk_bytes ← ok_or (try_from_u u64_max MAX_LOGICAL_CHUNK_BYTES) ArithmeticOverflow;
  match e with
  | Data _ _ => reject_if (maximum_chunk_bytes <? length) InvalidExtent
  | DataSlice _ _ chunk_length chunk_offset =>
      slice_end ← ok_or (checked_add u64_max chunk_offset length) ArithmeticOverflow;
      reject_if ((chunk_length =? 0) || (maximum_chunk_bytes <? chunk_length)
                 || (chunk_length <? slice_end)) InvalidExtent
  | _ => Ok ()
  end.

Fixpoint validate_extents (end_ : Z) (extents : list ManifestExtent)
    : outcome MetadataFormatError Z :=
  match extents with
  | [] => Ok end_
  | extent :: extents =>
      validate_extent extent;;
      end_ ← ok_or (checked_add u64_max end_ (logical_length extent)) ArithmeticOverflow;
      validate_extents end_ extents
  end.

(** [fn validate_partition] *)
Definition validate_partition (file_length : Z) (extents : list ManifestExtent)
    : outcome MetadataFormatError () :=
  end_ ← validate_extents 0 extents;
  reject_if (negb (end_ =? file_length)
             || negb (eqb (file_length =? 0) (bool_decide (extents = [])))) InvalidPartition.

(** [fn payload_length] *)
Definition payload_length (extent_count : Z) : outcome MetadataFormatError Z :=
  entries ← ok_or (checked_mul usize_max extent_count MANIFEST_ENTRY_BYTES) ArithmeticOverflow;
  length ← ok_or (checked_add usize_max MANIFEST_HEADER_BYTES entries) ArithmeticOverflow;
  reject_if (MAX_METADATA_OBJECT_BYTES - METADATA_HEADER_BYTES <? length)
    (InvalidObjectLength length);;
  Ok length.

(** [ManifestLayout], [ManifestLayout::new] and [ManifestLayout::validate] *)
Record ManifestLayout := { layout_file_length : Z; layout_extents : list ManifestExtent }.
Definition layout_validate := validate_partition.
Definition layout_new (file_length : Z) (extents : list ManifestExtent)
    : outcome MetadataFormatError ManifestLayout :=
  layout_validate file_length extents;;
  Ok {| layout_file_length := file_length; layout_extents := extents |}.

(** [ManifestLeaf] and [ManifestLeaf::new] *)
Record ManifestLeaf := { file_length : Z; extents : list ManifestExtent }.
Definition new (file_length : Z) (extents : list ManifestExtent)
    : outcome MetadataFormatError ManifestLeaf :=
  validate_partition file_length extents;;
  payload_length (blen extents);;
  Ok {| file_length := file_length; extents := extents |}.

(** The writes of [ManifestLeaf::encode] into one entry. *)
Definition encode_entry (entry : bytes) (logical_offset : Z) (extent : ManifestExtent)
    : outcome MetadataFormatError bytes :=
  entry ← put_u64 entry 0 logical_offset;
  entry ← put_u64 entry 8 (logical_length extent);
  match extent with
  | Data logical_length chunk_id =>
      entry ← put_u16 entry 16 1;
      length ← ok_or (try_from_u u32_max logical_length) ArithmeticOverflow;
      entry ← put_u32 entry 20 length;
      put entry 24 chunk_id
  | DataSlice _ chunk_id chunk_length chunk_offset =>
      entry ← put_u16 entry 16 4;
      entry ← put_u32 entry 20 chunk_length;
      entry ← put entry 24 chunk_id;
      put_u32 entry 56 chunk_offset
  | Hole _ => put_u16 entry 16 2
  | Fill _ value =>
      entry ← put_u16 entry 16 3;
      put entry 56 [value]
  end.

(** The loop of [ManifestLeaf::encode]: each entry is borrowed from the payload,
    written, and stays in place. *)
Fixpoint encode_entries (payload : bytes) (ordinal logical_offset : Z)
    (extents : list ManifestExtent) : outcome MetadataFormatError bytes :=
  match extents with
  | [] => Ok payload
  | extent :: extents =>
      let start := MANIFEST_HEADER_BYTES + ordinal * MANIFEST_ENTRY_BYTES in
      entry ← index_range payload start (start + MANIFEST_ENTRY_BYTES);
      entry ← encode_entry entry logical_offset extent;
      payload ← put payload start entry;
      logical_offset ←
        ok_or (checked_add u64_max logical_offset (logical_length extent)) ArithmeticOverflow;
      encode_entries payload (ordinal + 1) logical_offset extents
  end.

(** [ManifestLeaf::encode] *)
Definition encode `{Crc32c, Blake3} (leaf : ManifestLeaf) : outcome MetadataFormatError bytes :=
  validate_partition leaf.(file_length) leaf.(extents);;
  length ← payload_length (blen leaf.(extents));
  let payload := zeros length in
  payload ← put payload 0 MANIFEST_MAGIC;
  payload ← put_u16 payload 8 FORMAT_VERSION;
  payload ← put_u16 payload 10 64;
  payload ← put_u16 payload 12 64;
  payload ← put_u64 payload 16 0;
  payload ← put_u64 payload 24 leaf.(file_length);
  count ← ok_or (try_from_u u32_max (blen leaf.(extents))) ArithmeticOverflow;
  payload ← put_u32 payload 32 count;
  length32 ← ok_or (try_from_u u32_max length) ArithmeticOverflow;
  payload ← put_u32 payload 36 length32;
  payload ← encode_entries payload 0 0 leaf.(extents);
  encode_metadata_object MANIFEST_LEAF_KIND payload.

(** The body of the loop of [ManifestLeaf::decode] for one entry. *)
Definition decode_entry (entry : bytes) (expected_offset : Z)
    : outcome MetadataFormatError ManifestExtent :=
  logical_offset ← get_u64 entry 0;
  logical_length ← get_u64 entry 8;
  chunk_length ← get_u32 entry 20;
  chunk_id ← index_range entry 24 56;
  bad ← Ok (negb (logical_offset =? expected_offset)) ||? differs (get_u16 entry 18) 0;
  reject_if bad InvalidExtent;;
  tag ← get_u16 entry 16;
  reserved_56 ← range_any_nonzero entry 56 64;
  reserved_57 ← range_any_nonzero entry 57 64;
  reserved_60 ← range_any_nonzero entry 60 64;
  if (tag =? 1) && (chunk_length =? logical_length) && negb reserved_56
  then Ok (Data logical_length chunk_id)
  else if (tag =? 2) && (chunk_length =? 0) && bool_decide (chunk_id = zeros 32)
          && negb reserved_56
  then Ok (Hole logical_length)
  else if (tag =? 3) && (chunk_length =? 0) && bool_decide (chunk_id = zeros 32)
          && negb reserved_57
  then value ← index_at entry 56; Ok (Fill logical_length value)
  else if (tag =? 4) && negb reserved_60
  then chunk_offset ← get_u32 entry 56;
       Ok (DataSlice logical_length chunk_id chunk_length chunk_offset)
  else Err InvalidExtent.

Fixpoint decode_entries (payload : bytes) (ordinal : Z) (count : nat) (expected_offset : Z)
    : outcome MetadataFormatError (list ManifestExtent) :=
  match count with
  | O => Ok []
  | S count =>
      let start := MANIFEST_HEADER_BYTES + ordinal * MANIFEST_ENTRY_BYTES in
      entry ← index_range payload start (start + MANIFEST_ENTRY_BYTES);
      extent ← decode_entry entry expected_offset;
      expected_offset ←
        ok_or (checked_add u64_max expected_offset (logical_length extent)) ArithmeticOverflow;
      extents ← decode_entries payload (ordinal + 1) count expected_offset;
      Ok (extent :: extents)
  end.

(** [ManifestLeaf::decode] *)
Definition decode `{Crc32c, Blake3} (b : bytes) : outcome MetadataFormatError ManifestLeaf :=
  object ← decode_metadata_object (Some MANIFEST_LEAF_KIND) b;
  let payload := object.(object_payload) in
  bad_magic ← Ok (blen payload <? MANIFEST_HEADER_BYTES)
              ||? range_differs payload 0 8 MANIFEST_MAGIC;
  reject_if bad_magic InvalidPayload;;
  unsupported ←
    differs (get_u16 payload 8) FORMAT_VERSION
    ||? differs (get_u16 payload 10) MANIFEST_HEADER_BYTES
    ||? differs (get_u16 payload 12) MANIFEST_ENTRY_BYTES
    ||? differs (get_u16 payload 14) 0
    ||? differs (get_u64 payload 16) 0
    ||? range_any_nonzero payload 40 MANIFEST_HEADER_BYTES;
  reject_if unsupported InvalidPayload;;
  extent_count ← get_u32 payload 32;
  bad_length ←
    differs (payload_length extent_count) (blen payload)
    ||? differs (get_u32 payload 36) (blen payload);
  reject_if bad_length InvalidPayload;;
  extents ← decode_entries payload 0 (Z.to_nat extent_count) 0;
  file_length ← get_u64 payload 24;
  new file_length extents.

(** ** Representation of an extent and of a leaf *)

(** The field widths of an extent, which the Rust types guarantee. *)
Definition extent_wf (e : ManifestExtent) : Prop :=
  is_u64 (logical_length e) ∧
  match e with
  | Data _ id => blen id = 32
  | DataSlice _ id cl co => blen id = 32 ∧ is_u32 cl ∧ is_u32 co
  | _ => True
  end.

Definition entry_tag (e : ManifestExtent) : Z :=
  match e with Data _ _ => 1 | Hole _ => 2 | Fill _ _ => 3 | DataSlice _ _ _ _ => 4 end.
Definition entry_fields (lo : Z) (e : ManifestExtent) : list field :=
  [Field 0 8 (le_bytes 8 lo); Field 8 8 (le_bytes 8 (logical_length e));
   Field 16 2 (le_bytes 2 (entry_tag e))] ++
  match e with
  | Data l id => [Field 20 4 (le_bytes 4 l); Field 24 32 id]
  | DataSlice _ id cl co =>
      [Field 20 4 (le_bytes 4 cl); Field 24 32 id; Field 56 4 (le_bytes 4 co)]
  | Hole _ => []
  | Fill _ v => [Field 56 1 [v]]
  end.
Definition entry_bytes (lo : Z) (e : ManifestExtent) : bytes := render 64 (entry_fields lo e).
Fixpoint entries_bytes (lo : Z) (es : list ManifestExtent) : bytes :=
  match es with
  | [] => []
  | e :: es => entry_bytes lo e ++ entries_bytes (lo + logical_length e) es
  end.

Lemma entry_fits lo e : extent_wf e → Forall (fits 64) (entry_fields lo e).
Proof. unfold extent_wf. intros []. destruct e; destruct_and?; unfold entry_fields; simpl app; solve_fits. Qed.

Lemma blen_entry_bytes lo e : extent_wf e → blen (entry_bytes lo e) = 64.
Proof. intros. apply blen_render; [lia|]. by apply entry_fits. Qed.

Lemma encode_entry_render lo e :
  extent_wf e → (∀ l id, e = Data l id → l ≤ u32_max) →
  encode_entry (zeros 64) lo e = Ok (entry_bytes lo e).
Proof.
  intros [_ Hwf] Hd. unfold encode_entry, put_u64, put_u32, put_u16.
  destruct e as [l id|l id cl co|l|l v]; destruct_and?.
  1: rewrite try_from_u_ok by (by eapply Hd).
  all: repeat (rewrite put_in by blia; osimpl); reflexivity.
Qed.

(** The 32-bit length field of a plain data entry. *)
Definition entry_ok (e : ManifestExtent) : Prop :=
  extent_wf e ∧ match e with Data l _ => l ≤ u32_max | _ => True end.

Lemma decode_entry_encode lo e :
  entry_ok e → is_u64 lo → decode_entry (entry_bytes lo e) lo = Ok e.
Proof.
  intros [[Hl Hwf] Hd] Hlo. pose proof (entry_fits lo e (conj Hl Hwf)) as Hfits.
  pose proof (blen_entry_bytes lo e (conj Hl Hwf)) as Hb.
  unfold entry_bytes in *. set (b := render 64 (entry_fields lo e)) in *.
  assert (Hsub : ∀ o k v, 0 ≤ o → 0 ≤ k → o + k ≤ 64 →
    field_at (rev (entry_fields lo e)) o k = Some v → sub b o k = v).
  { intros. by apply (sub_render 64). }
  unfold decode_entry. clearbody b. eval_reads b Hb.
  destruct e as [l id|l id cl co|l|l v]; simpl in Hl, Hd, Hwf; unfold in_u in Hl.
  all: osimpl; eval_sub b Hsub; simpl logical_length; simpl entry_tag.
  all: try (destruct Hwf as (?&?&?)). 
  all: eval_ints; osimpl; try reflexivity.
  rewrite (proj2 (index_at_Ok b 56 v)); [reflexivity|].
  split_and!; [lia..|]. by apply Hsub.
Qed.

Lemma decode_entry_inv lo b e :
  blen b = 64 → decode_entry b lo = Ok e →
  entry_ok e ∧ is_u64 lo ∧ b = entry_bytes lo e.
Proof.
  intros Hb Hd. unfold decode_entry in Hd. inv_run. 
  repeat match goal with H : (if ?c then _ else _) = Ok _ |- _ => destruct c eqn:? end; inv_run.
  all: inv_reads; repeat match goal with H : index_at _ _ = Ok _ |- _ => apply index_at_Ok in H as (?&?&?) end.
  all: repeat match goal with H : zeros _ = sub _ _ _ |- _ => symmetry in H end; subst.  all: (split; [split; [split|]|split]); try done.
  all: rewrite ?blen_sub by lia; try done.
  all: unfold in_u in *; simpl; try lia.

  - apply (render_unique 64 _ b [8;8;2;2;4;32;8]); [done| |done|done|].
    + apply entry_fits. split; [done|]. simpl. rewrite blen_sub; lia.
    + render_parts.
  - apply (render_unique 64 _ b [8;8;2;2;4;32;8]); [done| |done|done|].
    + by apply entry_fits.
    + render_parts.
  - apply (render_unique 64 _ b [8;8;2;2;4;32;1;7]); [done| |done|done|].
    + by apply entry_fits.
    + render_parts.
  - apply (render_unique 64 _ b [8;8;2;2;4;32;4;4]); [done| |done|done|].
    + apply entry_fits. split; [done|]. simpl. rewrite blen_sub by lia. done.
    + render_parts.
Qed.

Definition total (es : list ManifestExtent) : Z := foldr (λ e s, logical_length e + s) 0 es.

Lemma total_nonneg es : Forall extent_wf es → 0 ≤ total es.
Proof. induction 1 as [|e es [[? _] _]]; simpl; lia. Qed.

Lemma entry_ok_wf es : Forall entry_ok es → Forall extent_wf es.
Proof. apply Forall_impl. by intros e []. Qed.

Lemma blen_entries_bytes lo es : Forall extent_wf es → blen (entries_bytes lo es) = 64 * blen es.
Proof.
  intros Hes. revert lo. induction Hes as [|e es He _ IH]; intros lo; simpl; [by rewrite !blen_nil|].
  rewrite blen_app, blen_cons, IH, blen_entry_bytes by done. lia.
Qed.

Lemma encode_entries_render es pre ord lo :
  Forall entry_ok es → blen pre = 64 + ord * 64 → 0 ≤ ord → lo + total es ≤ u64_max →
  encode_entries (pre ++ zeros (64 * blen es)) ord lo es = Ok (pre ++ entries_bytes lo es).
Proof.
  intros Hes. revert pre ord lo.
  induction Hes as [|e es [He Hd] Hes IH]; intros pre ord lo Hpre Ho Hlo; simpl.
  { reflexivity. }
  pose proof (total_nonneg es (entry_ok_wf _ Hes)). simpl in Hlo.
  pose proof (blen_nonneg es). rewrite blen_cons.
  replace (64 * (1 + blen es)) with (64 + 64 * blen es) by lia. rewrite zeros_app by lia.
  unfold MANIFEST_HEADER_BYTES, MANIFEST_ENTRY_BYTES.
  rewrite index_range_in by (rewrite ?blen_app, ?blen_zeros by lia; lia). osimpl.
  rewrite sub_app_r, sub_app_l by (rewrite ?blen_zeros; lia).
  rewrite sub_zeros by lia. replace (64 + ord * 64 + 64 - (64 + ord * 64)) with 64 by lia.
  rewrite encode_entry_render; [|done|by intros l id ->]. osimpl.
  rewrite put_in by (rewrite ?blen_app, ?blen_zeros, ?blen_entry_bytes by (done || lia); lia). osimpl.
  pose proof (blen_entry_bytes lo e He) as Hbe.
  rewrite <-Hpre, splice_app_r by (rewrite Hbe, blen_app, !blen_zeros by lia; lia). rewrite Hbe.
  rewrite checked_add_ok by lia. osimpl.
  rewrite sub_app_r by (rewrite blen_zeros; lia). rewrite blen_app, !blen_zeros by lia.
  rewrite sub_zeros by lia. replace (64 + 64 * blen es - 64) with (64 * blen es) by lia.
  rewrite (app_assoc pre), IH, <-app_assoc; [done| |lia..].
  rewrite blen_app, blen_entry_bytes by done. lia.
Qed.

Lemma decode_entries_iff es n pre rest ord lo :
  blen pre = 64 + ord * 64 → 0 ≤ ord → blen rest = 64 * Z.of_nat n → is_u64 lo →
  decode_entries (pre ++ rest) ord n lo = Ok es ↔
  length es = n ∧ Forall entry_ok es ∧ lo + total es ≤ u64_max ∧ rest = entries_bytes lo es.
Proof.
  revert es pre rest ord lo. induction n as [|n IH]; intros es pre rest ord lo Hpre Ho Hr Hlo; simpl.
  { apply blen_0_nil in Hr as ->. split.
    - intros [= <-]. split_and!; [done..|simpl; unfold in_u in *; lia|done].
    - intros (?&_). by destruct es. }
  unfold MANIFEST_HEADER_BYTES, MANIFEST_ENTRY_BYTES.
  rewrite index_range_in by (rewrite ?blen_app; lia). osimpl.
  rewrite sub_app_r by lia.
  replace (64 + ord * 64 - blen pre) with 0 by lia.
  replace (64 + ord * 64 + 64 - (64 + ord * 64)) with 64 by lia.
  assert (Hsplit : rest = sub rest 0 64 ++ sub rest 64 (64 * Z.of_nat n)).
  { rewrite <-(sub_split rest 0 64) by lia. symmetry. apply sub_all. lia. }
  assert (H64 : blen (sub rest 0 64) = 64) by (apply blen_sub; lia).
  assert (Hcont : pre ++ rest = (pre ++ sub rest 0 64) ++ sub rest 64 (64 * Z.of_nat n)).
  { rewrite <-app_assoc. by rewrite <-Hsplit. }
  assert (Hpre' : blen (pre ++ sub rest 0 64) = 64 + (ord + 1) * 64) by (rewrite blen_app; lia).
  assert (Hr' : blen (sub rest 64 (64 * Z.of_nat n)) = 64 * Z.of_nat n) by (apply blen_sub; lia).
  split.
  - intros Hd. inv_run. apply decode_entry_inv in H as (He&?&Hb); [|done].
    rewrite Hcont in H1. destruct He as [[Hl ?] ?].
    apply IH in H1 as (?&?&?&Hrest); [|done|lia|done|unfold in_u in *; lia].
    split_and!; [simpl; lia|by constructor|simpl; lia|].
    rewrite Hsplit. simpl. by rewrite <-Hb, <-Hrest.
  - intros (Hlen&Hes&Htot&Hrest). destruct es as [|e es]; [done|]. simpl in *.
    apply Forall_cons_1 in Hes as [He Hes]. destruct (He) as [[Hl ?] ?].
    pose proof (total_nonneg es (entry_ok_wf _ Hes)).
    pose proof (blen_entry_bytes lo e ltac:(done)) as Hbe.
    assert (Hb0 : sub rest 0 64 = entry_bytes lo e).
    { rewrite Hrest. apply sub_app_eq_l. lia. }
    rewrite Hb0, decode_entry_encode by done. osimpl.
    rewrite checked_add_ok by lia. osimpl.
    rewrite Hcont. rewrite (proj2 (IH es _ _ (ord + 1) (lo + logical_length e) Hpre' ltac:(lia) Hr' ltac:(unfold in_u in *; lia))); [done|].
    split_and!; [lia|done|lia|].
    rewrite Hrest at 1. rewrite sub_app_r by lia. rewrite Hbe. apply sub_all.
    rewrite blen_entries_bytes by (by apply entry_ok_wf). change (blen es) with (Z.of_nat (length es)). lia.
Qed.
(** ** The partition an accepted extent list describes *)

(** What [validate_extent] demands of one extent. *)
Definition extent_valid (e : ManifestExtent) : Prop :=
  1 ≤ logical_length e ∧
  match e with
  | Data l _ => l ≤ MAX_LOGICAL_CHUNK_BYTES
  | DataSlice l _ cl co => 0 < cl ≤ MAX_LOGICAL_CHUNK_BYTES ∧ co + l ≤ cl
  | _ => True
  end.

Lemma validate_extent_iff e : extent_wf e → validate_extent e = Ok () ↔ extent_valid e.
Proof.
  intros [[? _] Hwf]. unfold validate_extent, extent_valid, MAX_LOGICAL_CHUNK_BYTES.
  rewrite try_from_u_ok by done. osimpl. unfold checked_add, reject_if.
  destruct (Z.eqb_spec (logical_length e) 0); simpl; [split; [done|lia]|].
  destruct e as [l id|l id cl co|l|l v]; simpl in *; destruct_and?; unfold in_u, u64_max, u32_max in *.
  - destruct (Z.ltb_spec (256 * 1024) l); naive_solver lia.
  - destruct (Z.leb_spec (co + l) (2 ^ 64 - 1)); simpl; [|naive_solver lia].
    destruct (Z.eqb_spec cl 0), (Z.ltb_spec (256 * 1024) cl), (Z.ltb_spec cl (co + l)); simpl;
      naive_solver lia.
  - naive_solver lia.
  - naive_solver lia.
Qed.

Lemma validate_extents_iff es end_ r :
  Forall extent_wf es →
  validate_extents end_ es = Ok r ↔
  Forall extent_valid es ∧ r = end_ + total es ∧ (es ≠ [] → r ≤ u64_max).
Proof.
  intros Hes. revert end_. induction Hes as [|e es He Hes IH]; intros end_; simpl.
  { split; [intros [= <-]; split_and!; [done|lia|done]|]. intros (_&->&_). f_equal. lia. }
  pose proof (total_nonneg es Hes). split.
  - intros ([]&Hv%validate_extent_iff&Hd)%bind_Ok; [|done].
    apply bind_Ok in Hd as (s&Hs&Hd). inv_run. apply IH in Hd as (?&->&?). split_and!; [by constructor|lia|].
    intros _. destruct es; [simpl; lia|]. auto.
  - intros ([Hv Hvs]%Forall_cons_1&->&Hle). specialize (Hle ltac:(done)).
    rewrite (proj2 (validate_extent_iff e He) Hv). osimpl.
    rewrite checked_add_ok by lia. osimpl. apply IH. split_and!; [done|lia|auto].
Qed.

Lemma total_zero es : Forall extent_wf es → Forall extent_valid es → total es = 0 ↔ es = [].
Proof.
  intros Hes Hv. destruct Hes as [|e es He Hes]; [done|]. simpl.
  apply Forall_cons_1 in Hv as [[? _] _]. pose proof (total_nonneg es Hes). split; [lia|done].
Qed.

Lemma validate_partition_iff fl es :
  Forall extent_wf es → is_u64 fl →
  validate_partition fl es = Ok () ↔ Forall extent_valid es ∧ total es = fl.
Proof.
  intros Hes Hfl. unfold validate_partition. split.
  - intros Hv. inv_run. apply validate_extents_iff in H as (?&->&?); [|done]. split; [done|lia].
  - intros [Hv <-].
    rewrite (proj2 (validate_extents_iff es 0 (total es) Hes)) by (split_and!; [done|lia|unfold in_u in *; lia]).
    osimpl. pose proof (total_zero es Hes Hv).
    destruct (Z.eqb_spec (total es) 0); case_bool_decide; simpl; tauto.
Qed.

Lemma payload_length_iff n r :
  0 ≤ n → payload_length n = Ok r ↔ r = 64 + n * 64 ∧ r ≤ MAX_METADATA_OBJECT_BYTES - METADATA_HEADER_BYTES.
Proof.
  intros Hn. unfold payload_length, MANIFEST_HEADER_BYTES, MANIFEST_ENTRY_BYTES,
    MAX_METADATA_OBJECT_BYTES, METADATA_HEADER_BYTES. split.
  - intros Hp. inv_run. simpl in *. lia.
  - intros [-> Hle]. assert (n * 64 + 64 ≤ usize_max) by (unfold usize_max, u64_max; lia).
    rewrite checked_mul_ok by lia. osimpl. rewrite checked_add_ok by lia. osimpl.
    rewrite (proj2 (Z.ltb_ge _ _)) by lia. done.
Qed.

(** ** The type invariant of a leaf and its payload *)
Record wf (leaf : ManifestLeaf) : Prop := {
  wf_file_length : is_u64 leaf.(file_length);
  wf_extents : Forall extent_wf leaf.(extents);
  wf_valid : Forall extent_valid leaf.(extents);
  wf_partition : total leaf.(extents) = leaf.(file_length);
  wf_size : 64 + blen leaf.(extents) * 64 ≤ MAX_METADATA_OBJECT_BYTES - METADATA_HEADER_BYTES;
}.

Definition leaf_fields (leaf : ManifestLeaf) : list field := [
  Field 0 8 MANIFEST_MAGIC;
  Field 8 2 (le_bytes 2 FORMAT_VERSION);
  Field 10 2 (le_bytes 2 64);
  Field 12 2 (le_bytes 2 64);
  Field 16 8 (le_bytes 8 0);
  Field 24 8 (le_bytes 8 leaf.(file_length));
  Field 32 4 (le_bytes 4 (blen leaf.(extents)));
  Field 36 4 (le_bytes 4 (64 + blen leaf.(extents) * 64)) ].
Definition leaf_payload (leaf : ManifestLeaf) : bytes :=
  render 64 (leaf_fields leaf) ++ entries_bytes 0 leaf.(extents).

Lemma manifest_leaf_fits leaf : Forall (fits 64) (leaf_fields leaf).
Proof. unfold leaf_fields. solve_fits. Qed.

Lemma manifest_entry_ok es : Forall extent_wf es → Forall extent_valid es → Forall entry_ok es.
Proof.
  rewrite !Forall_forall. intros H1 H2 e He. split; [by apply H1|].
  destruct (H2 e He) as [_ Hv]. destruct e; try done.
  unfold MAX_LOGICAL_CHUNK_BYTES, u32_max in *. lia.
Qed.

Lemma manifest_encode_payload `{Crc32c, Blake3} leaf :
  wf leaf → encode leaf = encode_metadata_object MANIFEST_LEAF_KIND (leaf_payload leaf).
Proof.
  intros [Hfl Hes Hv Ht Hsz]. unfold encode. pose proof (blen_nonneg (extents leaf)) as Hn.
  rewrite (proj2 (validate_partition_iff _ _ Hes Hfl)) by done. osimpl.
  rewrite (proj2 (payload_length_iff _ (64 + blen (extents leaf) * 64) Hn)) by done. osimpl.
  unfold MAX_METADATA_OBJECT_BYTES, METADATA_HEADER_BYTES in Hsz.
  rewrite !try_from_u_ok by (unfold u32_max; lia). osimpl.
  set (n := 64 + blen (extents leaf) * 64) in *.
  change (puts_then (zeros n) (leaf_fields leaf) (λ payload,
    payload ← encode_entries payload 0 0 (extents leaf);
    encode_metadata_object MANIFEST_LEAF_KIND payload) = encode_metadata_object MANIFEST_LEAF_KIND (leaf_payload leaf)).
  rewrite (puts_then_in n); [|blia|apply (fits_mono 64); [lia|apply manifest_leaf_fits]].
  unfold n. rewrite zeros_app by lia.
  rewrite (render_on_app 64) by (by apply blen_zeros || apply manifest_leaf_fits).
  fold (render 64 (leaf_fields leaf)).
  replace (blen (extents leaf) * 64) with (64 * blen (extents leaf)) by lia.
  rewrite encode_entries_render; [by osimpl|by apply manifest_entry_ok| |lia|unfold in_u in *; lia].
  rewrite (blen_render 64); [done|lia|apply manifest_leaf_fits].
Qed.

(** ** The codec *)
Lemma manifest_new_iff fl es leaf :
  Forall extent_wf es → is_u64 fl →
  new fl es = Ok leaf ↔ wf leaf ∧ leaf = {| file_length := fl; extents := es |}.
Proof.
  intros Hes Hfl. pose proof (blen_nonneg es) as Hn. unfold new. split.
  - intros ([]&[Hv Ht]%validate_partition_iff&Hd)%bind_Ok; [|done..].
    apply bind_Ok in Hd as (n&[-> ?]%payload_length_iff&Hd); [|done]. inv_ok. subst. split; [|done].
    by split.
  - intros [[_ _ Hv Ht Hs] ->]. simpl in *.
    rewrite (proj2 (validate_partition_iff _ _ Hes Hfl)) by done. osimpl.
    by rewrite (proj2 (payload_length_iff _ _ Hn) (conj eq_refl Hs)).
Qed.

Section Codec.
Context `{Crc32cLaws, Blake3Laws}.

Lemma manifest_decode_encode leaf b : wf leaf → encode leaf = Ok b → decode b = Ok leaf.
Proof.
  intros Hwf Hb. rewrite manifest_encode_payload in Hb by done.
  destruct (decode_metadata_encode (Some MANIFEST_LEAF_KIND) MANIFEST_LEAF_KIND _ _ ltac:(done) ltac:(congruence) Hb)
    as (id&_&Hd).
  destruct (Hwf) as [Hfl Hes Hv Ht Hsz]. unfold decode. rewrite Hd. osimpl. simpl object_payload.
  pose proof (blen_nonneg (extents leaf)) as Hn.
  set (p := leaf_payload leaf) in *.
  pose proof (blen_render 64 _ ltac:(lia) (manifest_leaf_fits leaf)) as Hr.
  assert (Hl : blen p = 64 + blen (extents leaf) * 64).
  { unfold p, leaf_payload. rewrite blen_app, Hr, blen_entries_bytes by done. lia. }
  assert (Hsub : ∀ o k v, 0 ≤ o → 0 ≤ k → o + k ≤ 64 →
    field_at (rev (leaf_fields leaf)) o k = Some v → sub p o k = v).
  { intros. unfold p, leaf_payload. rewrite sub_app_l by lia.
    apply (sub_render 64); try done. apply manifest_leaf_fits. }
  unfold MANIFEST_HEADER_BYTES, MAX_METADATA_OBJECT_BYTES, METADATA_HEADER_BYTES in *.
  rewrite Hl. rewrite (proj2 (Z.ltb_ge (64 + _) 64)) by lia. osimpl.
  eval_reads p Hl. osimpl. eval_sub p Hsub.
  assert (is_u32 (blen (extents leaf))) by (unfold in_u, u32_max; lia).
  assert (is_u32 (64 + blen (extents leaf) * 64)) by (unfold in_u, u32_max; lia).
  eval_ints. osimpl.
  rewrite (proj2 (payload_length_iff _ (64 + blen (extents leaf) * 64) Hn)); [|split; [reflexivity|unfold MAX_METADATA_OBJECT_BYTES, METADATA_HEADER_BYTES; lia]].
  osimpl. unfold p at 1, leaf_payload.
  rewrite (proj2 (decode_entries_iff (extents leaf) (Z.to_nat (blen (extents leaf))) (render 64 (leaf_fields leaf)) (entries_bytes 0 (extents leaf)) 0 0 ltac:(lia) ltac:(lia)
    ltac:(rewrite blen_entries_bytes by done; lia) ltac:(done))).
  - osimpl. apply manifest_new_iff; [done..|]. split; [done|]. by destruct leaf.
  - split_and!; [|by apply manifest_entry_ok|unfold in_u in *; lia|done].
    change (blen (extents leaf)) with (Z.of_nat (length (extents leaf))). lia.
Qed.

Lemma manifest_decode_inv leaf b : decode b = Ok leaf → wf leaf ∧ encode leaf = Ok b.
Proof.
  unfold decode. intros (o&Ho&Hd)%bind_Ok.
  apply decode_metadata_inv in Ho as (Hk&_&_&Henc). specialize (Hk _ eq_refl).
  set (p := object_payload o) in *. cbv zeta in Hd.
  unfold MANIFEST_HEADER_BYTES in Hd. clearbody p. inv_run. inv_reads. zbool.
  match goal with H : payload_length ?x = Ok _ |- _ => rename x into n end.
  match goal with H : payload_length n = Ok _ |- _ => apply payload_length_iff in H as [Hlen Hmax] end.
  2: unfold in_u in *; lia.
  match goal with H : decode_entries _ _ _ _ = Ok _ |- _ => rename H into Hes end.
  match goal with H : new ?fl ?es = Ok _ |- _ => rename H into Hnew; rename fl into l; rename es into x end.
  assert (Hp : p = sub p 0 64 ++ sub p 64 (n * 64)).
  { rewrite <-(sub_split p 0 64) by (unfold in_u in *; lia). symmetry. apply sub_all. lia. }
  rewrite Hp in Hes.
  apply decode_entries_iff in Hes as (Hcount&Hok&Htot&Hrest);
    [|rewrite blen_sub by lia; lia|lia|unfold in_u in *; rewrite blen_sub; lia|done].
  apply manifest_new_iff in Hnew as [Hwf Hleaf]; [|by apply entry_ok_wf|done].
  split; [done|]. rewrite manifest_encode_payload by done.
  rewrite Hk, <-Henc. f_equal. rewrite Hp.
  unfold leaf_payload. rewrite Hleaf. cbn [extents file_length]. rewrite <-Hrest. f_equal. symmetry.
  assert (Hcnt : blen x = n) by (change (blen x) with (Z.of_nat (length x)); unfold in_u in *; lia).
  apply (render_prefix_unique 64 _ p [8;2;2;2;2;8;8;4;4;24]); [lia|lia|apply manifest_leaf_fits|done|done|].
  unfold leaf_fields. cbn [extents file_length]. rewrite Hcnt, <-Hlen. render_parts.
Qed.
End Codec.

Lemma manifest_decode_entry_no_panic b lo : blen b = 64 → no_panic (decode_entry b lo).
Proof.
  intros Hb. unfold decode_entry. no_panic_reads.
  apply no_panic_if; [apply no_panic_Ok|]. apply no_panic_if; [apply no_panic_Ok|]. apply no_panic_if.
  { apply no_panic_bind; [apply no_panic_index_at; lia|auto with fastdup nocore]. }
  apply no_panic_if; [|apply no_panic_Err]. no_panic_reads.
Qed.

Lemma manifest_decode_entries_no_panic n b ord lo :
  0 ≤ ord → 64 + (ord + Z.of_nat n) * 64 ≤ blen b → no_panic (decode_entries b ord n lo).
Proof.
  revert ord lo. induction n as [|n IH]; intros ord lo Ho Hb; simpl; [apply no_panic_Ok|].
  unfold MANIFEST_HEADER_BYTES, MANIFEST_ENTRY_BYTES.
  apply no_panic_bind; [apply no_panic_index_range; lia|]. intros e He. inv_reads. subst e.
  apply no_panic_bind; [apply manifest_decode_entry_no_panic; rewrite blen_sub; lia|]. intros e He.
  apply no_panic_bind; [apply no_panic_ok_or|]. intros lo' _.
  apply no_panic_bind; [apply IH; lia|auto with fastdup nocore].
Qed.

Lemma manifest_new_no_panic fl es : no_panic (new fl es).
Proof.
  unfold new, validate_partition, payload_length.
  assert (Hv : ∀ end_, no_panic (validate_extents end_ es)).
  { induction es as [|e es IH]; intros end_; simpl; [auto with fastdup nocore|].
    apply no_panic_bind.
    { unfold validate_extent. apply no_panic_bind; [auto with fastdup nocore|]. intros ? _.
      apply no_panic_bind; [auto with fastdup nocore|]. intros ? _. destruct e; auto with fastdup nocore. }
    intros ? _. apply no_panic_bind; auto with fastdup nocore. }
  repeat (apply no_panic_bind; [|intros ? _]); auto with fastdup nocore.
Qed.

Lemma manifest_decode_no_panic `{Crc32cLaws, Blake3Laws} b : no_panic (decode b).
Proof.
  unfold decode. apply no_panic_bind; [apply decode_metadata_no_panic|]. intros o _.
  set (p := object_payload o). cbv zeta. clearbody p. unfold MANIFEST_HEADER_BYTES.
  apply no_panic_bind.
  { destruct (Z.ltb_spec (blen p) 64); [done|]. apply no_panic_or_else; [done|].
    apply no_panic_range_differs; lia. }
  intros c Hc. apply no_panic_bind; [apply no_panic_reject_if|]. intros ? ?. inv_run.
  no_panic_reads.
  - unfold payload_length. auto with fastdup nocore.
  - inv_run. inv_reads. apply manifest_decode_entries_no_panic; [lia|].
    match goal with H : payload_length _ = Ok _ |- _ => apply payload_length_iff in H; unfold in_u in *; lia end.
  - apply manifest_new_no_panic.
Qed.

(** The start of extent [i]. *)
Definition extent_start (es : list ManifestExtent) (i : nat) : Z := total (take i es).
(** The offset lies in extent [i]. *)
Definition covers (es : list ManifestExtent) (i : nat) (pos : Z) : Prop :=
  ∃ e, es !! i = Some e ∧ extent_start es i ≤ pos < extent_start es i + logical_length e.

Lemma covers_cons e es i pos : covers (e :: es) (S i) pos ↔ covers es i (pos - logical_length e).
Proof. unfold covers, extent_start. simpl. split; intros (e'&?&?); exists e'; (split; [done|lia]). Qed.

Lemma covers_iff es pos :
  Forall extent_wf es → 0 ≤ pos < total es ↔ ∃ i, covers es i pos.
Proof.
  intros Hes. revert pos. induction Hes as [|e es [[? _] _] Hes IH]; intros pos; simpl.
  { split; [lia|]. by intros (i&e&?&_). }
  pose proof (total_nonneg es Hes). split.
  - intros Hpos. destruct (decide (pos < logical_length e)).
    + exists 0%nat, e. unfold extent_start. simpl. split; [done|lia].
    + destruct (proj1 (IH (pos - logical_length e)) ltac:(lia)) as [i Hi].
      exists (S i). by apply covers_cons.
  - intros [[|i] Hi].
    + destruct Hi as (e'&[= <-]&Hp). unfold extent_start in Hp. simpl in Hp. lia.
    + apply covers_cons in Hi. pose proof (proj2 (IH (pos - logical_length e)) ltac:(eauto)). lia.
Qed.

Lemma covers_unique es pos i j : Forall extent_wf es → covers es i pos → covers es j pos → i = j.
Proof.
  intros Hes. revert pos i j.
  assert (H0 : ∀ e es pos i, Forall extent_wf es → covers (e :: es) 0 pos → ¬ covers (e :: es) (S i) pos).
  { clear. intros e es pos i Hes (e'&[= <-]&Hp) Hi%covers_cons. unfold extent_start in Hp. simpl in Hp.
    pose proof (proj2 (covers_iff es _ Hes) (ex_intro _ i Hi)). lia. }
  induction Hes as [|e es He Hes IH]; intros pos i j Hi Hj; [by destruct Hi as (?&?&_)|].
  destruct i as [|i], j as [|j]; [done| | |].
  - by destruct (H0 e es pos j Hes Hi).
  - by destruct (H0 e es pos i Hes Hj).
  - f_equal. eapply IH; by apply covers_cons.
Qed.

(** ** Properties *)

(** The manifest-leaf decoder accepts exactly the encodings of well-formed
    leaves: extents of 1 byte or more, data extents and slices inside chunks of
    at most 256 KiB, lengths that add up to the file length without overflow,
    and a payload that fits in a metadata object.  Decoding then returns the
    leaf that was encoded.  Decoding never panics, whatever the bytes. *)
Theorem manifest_leaf_decode_iff `{Crc32cLaws, Blake3Laws} (b : bytes) :
  no_panic (decode b) ∧ ∀ leaf, decode b = Ok leaf ↔ wf leaf ∧ encode leaf = Ok b.
Proof.
  split; [apply manifest_decode_no_panic|]. intros leaf.
  split; [apply manifest_decode_inv|]. intros [??]. by apply manifest_decode_encode.
Qed.

(** An accepted extent list partitions the file: every offset below the
    file length lies in exactly one extent, no extent reaches beyond the file
    length, and a data slice stays inside the chunk it refers to. *)
Theorem manifest_partition_exact (fl : Z) (es : list ManifestExtent) leaf :
  is_u64 fl → Forall extent_wf es → new fl es = Ok leaf →
  (∀ pos, 0 ≤ pos < fl ↔ ∃ i, covers es i pos) ∧
  (∀ pos i j, covers es i pos → covers es j pos → i = j) ∧
  (∀ l id cl co, DataSlice l id cl co ∈ es → 0 ≤ co ∧ co + l ≤ cl ≤ MAX_LOGICAL_CHUNK_BYTES).
Proof.
  intros Hfl Hes Hnew. apply manifest_new_iff in Hnew as [[_ _ Hv Ht _] ->]; [|done..]. simpl in *.
  split_and!.
  - intros pos. rewrite <-Ht. by apply covers_iff.
  - intros. by eapply covers_unique.
  - intros l id cl co Hin.
    rewrite list.Forall_forall in Hv, Hes.
    destruct (Hv _ Hin) as (_&?&?), (Hes _ Hin) as (_&_&_&?). unfold in_u in *. lia.
Qed.

(** A 300 KiB file: a chunk, a slice of a chunk, a hole and a fill. *)
Definition sample : ManifestLeaf := {|
  file_length := 307200;
  extents := [Data 262144 (le_bytes 32 7); DataSlice 1000 (le_bytes 32 9) 4096 96;
              Hole 40000; Fill 4056 x2a] |}.
Lemma manifest_wf_sample : wf sample.
Proof.
  split; [vm_compute; intuition discriminate| | |done|vm_compute; discriminate].
  all: repeat apply Forall_cons_2; try apply Forall_nil_2; vm_compute; intuition discriminate.
Qed.

Section Witnesses.
#[local] Existing Instances Crc32cBitwise.ops Crc32cBitwise.laws MixHash.ops MixHash.laws.

Lemma manifest_leaf_decode_iff_witness : ∃ b, decode b = Ok sample.
Proof.
  destruct (encode sample) as [b| |] eqn:Hb; [|exfalso; vm_compute in Hb; discriminate..].
  exists b. apply (manifest_leaf_decode_iff b). split; [exact manifest_wf_sample|exact Hb].
Defined.

Lemma manifest_partition_exact_witness :
  ∃ i, covers sample.(extents) i 262150.
Proof.
  destruct (manifest_partition_exact sample.(file_length) sample.(extents) sample
    (wf_file_length _ manifest_wf_sample) (wf_extents _ manifest_wf_sample)) as [Hc _].
  { vm_compute. reflexivity. }
  apply Hc. vm_compute. intuition discriminate.
Defined.

(** The model runs: encoding and decoding the sample; a gap is refused. *)
Example manifest_round_trip_sample : (b ← encode sample; decode b) = Ok sample.
Proof. vm_compute. reflexivity. Qed.
Example manifest_gap_refused : new 10 [Hole 4; Hole 5] = Err InvalidPartition.
Proof. vm_compute. reflexivity. Qed.
End Witnesses.
End Manifest.
