(* ===== verification/ManifestInner.v ===== *)
(** * Manifest inner nodes ([fastdup-format/src/manifest_inner.rs])

    An inner node lists child metadata objects with the byte ranges they cover
    and the bytes allocated under them.  It is stored as the payload of a
    metadata object, and its children partition the file. *)
From S2P Require Import Layout Metadata.

Module ManifestInner.
Import Metadata.

Definition MANIFEST_INNER_HEADER_BYTES : Z := 64.
Definition MANIFEST_CHILD_RANGE_BYTES : Z := 64.
(** [b"FDMANI01"] *)
Definition MANIFEST_INNER_MAGIC : bytes := map byte_of_Z [70; 68; 77; 65; 78; 73; 48; 49].
Definition INNER_FORMAT_VERSION : Z := 2.

Record ManifestChildRange := {
  child_offset : Z;
  child_length : Z;
  child : MetadataObjectId;
  child_allocated : option Z;
}.

Inductive ManifestInnerNodeError :=
  | InnerMetadata (e : MetadataFormatError)
  | InnerInvalidLevel
  | InnerInvalidChildRange
  | InnerInvalidPartition
  | InnerInvalidPayload
  | InnerArithmeticOverflow
  | InnerOutOfMemory.

(** [ManifestChildRange::validate_range] *)
Definition validate_range (logical_offset logical_length : Z) : outcome ManifestInnerNodeError () :=
  reject_if (logical_length =? 0) InnerInvalidChildRange;;
  ok_or (checked_add u64_max logical_offset logical_length) InnerArithmeticOverflow;;
  Ok ().
(** [ManifestChildRange::new_with_allocated_bytes] *)
Definition new_with_allocated_bytes (logical_offset logical_length allocated_bytes : Z)
    (child : MetadataObjectId) : outcome ManifestInnerNodeError ManifestChildRange :=
  reject_if (logical_length <? allocated_bytes) InnerInvalidChildRange;;
  validate_range logical_offset logical_length;;
  Ok {| child_offset := logical_offset; child_length := logical_length; child := child;
        child_allocated := Some allocated_bytes |}.

Record ManifestInnerNode := {
  inner_file_length : Z;
  level : Z;
  children : list ManifestChildRange;
}.

(** The loop of [fn validate_node] *)
Fixpoint validate_children (expected_offset : Z) (children : list ManifestChildRange)
    : outcome ManifestInnerNodeError Z :=
  match children with
  | [] => Ok expected_offset
  | c :: children =>
      reject_if (child_length c =? 0) InnerInvalidChildRange;;
      reject_if (negb (child_offset c =? expected_offset)) InnerInvalidPartition;;
      reject_if (match child_allocated c with
                 | None => true
                 | Some allocated => child_length c <? allocated
                 end) InnerInvalidChildRange;;
      expected_offset ←
        ok_or (checked_add u64_max (child_offset c) (child_length c)) InnerArithmeticOverflow;
      validate_children expected_offset children
  end.
(** [fn validate_node] *)
Definition validate_node (file_length level : Z) (children : list ManifestChildRange)
    : outcome ManifestInnerNodeError () :=
  reject_if (level =? 0) InnerInvalidLevel;;
  reject_if ((blen children =? 0) || (file_length =? 0)) InnerInvalidPartition;;
  expected_offset ← validate_children 0 children;
  reject_if (negb (expected_offset =? file_length)) InnerInvalidPartition.

(** [fn payload_length] *)
Definition inner_payload_length (child_count : Z) : outcome ManifestInnerNodeError Z :=
  reject_if (child_count =? 0) InnerInvalidPartition;;
  entries ← ok_or (checked_mul usize_max child_count MANIFEST_CHILD_RANGE_BYTES) InnerArithmeticOverflow;
  length ← ok_or (checked_add usize_max MANIFEST_INNER_HEADER_BYTES entries) InnerArithmeticOverflow;
  reject_if (MAX_METADATA_OBJECT_BYTES - METADATA_HEADER_BYTES <? length) InnerInvalidPayload;;
  Ok length.
(** [fn entry_start] *)
Definition entry_start (ordinal : Z) : outcome ManifestInnerNodeError Z :=
  entries ← ok_or (checked_mul usize_max ordinal MANIFEST_CHILD_RANGE_BYTES) InnerArithmeticOverflow;
  ok_or (checked_add usize_max MANIFEST_INNER_HEADER_BYTES entries) InnerArithmeticOverflow.

(** [ManifestInnerNode::new] *)
Definition inner_new (file_length level : Z) (children : list ManifestChildRange)
    : outcome ManifestInnerNodeError ManifestInnerNode :=
  validate_node file_length level children;;
  inner_payload_length (blen children);;
  Ok {| inner_file_length := file_length; level := level; children := children |}.

(** The [try_fold] of [ManifestInnerNode::allocated_bytes] *)
Fixpoint allocated_fold (total : option Z) (children : list ManifestChildRange)
    : outcome ManifestInnerNodeError (option Z) :=
  match children with
  | [] => Ok total
  | c :: children =>
      total ← ok_or total InnerInvalidChildRange;
      child_allocated ← ok_or (child_allocated c) InnerInvalidChildRange;
      total ← ok_or (checked_add u64_max total child_allocated) InnerArithmeticOverflow;
      allocated_fold (Some total) children
  end.
(** [ManifestInnerNode::allocated_bytes] *)
Definition inner_allocated_bytes (node : ManifestInnerNode)
    : outcome ManifestInnerNodeError (option Z) :=
  allocated_fold (Some 0) (children node).

(** The writes of [ManifestInnerNode::encode] into one entry, and its loop *)
Definition encode_child (entry : bytes) (c : ManifestChildRange)
    : outcome ManifestInnerNodeError bytes :=
  entry ← put_u64 entry 0 (child_offset c);
  entry ← put_u64 entry 8 (child_length c);
  entry ← put entry 16 (child c);
  match child_allocated c with
  | Some allocated_bytes => put_u64 entry 48 allocated_bytes
  | None => Ok entry
  end.
Fixpoint encode_children (payload : bytes) (ordinal : Z) (children : list ManifestChildRange)
    : outcome ManifestInnerNodeError bytes :=
  match children with
  | [] => Ok payload
  | c :: children =>
      start ← entry_start ordinal;
      entry ← index_range payload start (start + MANIFEST_CHILD_RANGE_BYTES);
      entry ← encode_child entry c;
      payload ← put payload start entry;
      encode_children payload (ordinal + 1) children
  end.
(** [ManifestInnerNode::encode] *)
Definition inner_encode `{Crc32c, Blake3} (node : ManifestInnerNode)
    : outcome ManifestInnerNodeError bytes :=
  validate_node (inner_file_length node) (level node) (children node);;
  length ← inner_payload_length (blen (children node));
  let payload := zeros length in
  payload ← put payload 0 MANIFEST_INNER_MAGIC;
  payload ← put_u16 payload 8 INNER_FORMAT_VERSION;
  payload ← put_u16 payload 10 64;
  payload ← put_u16 payload 12 64;
  payload ← put_u16 payload 14 (level node);
  payload ← put_u64 payload 24 (inner_file_length node);
  count ← ok_or (try_from_u u32_max (blen (children node))) InnerArithmeticOverflow;
  payload ← put_u32 payload 32 count;
  length32 ← ok_or (try_from_u u32_max length) InnerArithmeticOverflow;
  payload ← put_u32 payload 36 length32;
  payload ← encode_children payload 0 (children node);
  map_err InnerMetadata (encode_metadata_object MANIFEST_INNER_KIND payload).

(** The body of the loop of [ManifestInnerNode::decode], and the loop *)
Definition decode_child (entry : bytes) : outcome ManifestInnerNodeError ManifestChildRange :=
  reserved ← range_any_nonzero entry 56 64;
  reject_if reserved InnerInvalidChildRange;;
  id ← index_range entry 16 48;
  child ← ok_or (MetadataObjectId_new id) InnerInvalidChildRange;
  offset ← get_u64 entry 0;
  length ← get_u64 entry 8;
  allocated ← get_u64 entry 48;
  new_with_allocated_bytes offset length allocated child.
Fixpoint decode_children (payload : bytes) (ordinal : Z) (count : nat)
    : outcome ManifestInnerNodeError (list ManifestChildRange) :=
  match count with
  | O => Ok []
  | S count =>
      start ← entry_start ordinal;
      entry ← index_range payload start (start + MANIFEST_CHILD_RANGE_BYTES);
      range ← decode_child entry;
      children ← decode_children payload (ordinal + 1) count;
      Ok (range :: children)
  end.
(** [ManifestInnerNode::decode] *)
Definition inner_decode `{Crc32c, Blake3} (b : bytes)
    : outcome ManifestInnerNodeError ManifestInnerNode :=
  object ← map_err InnerMetadata (decode_metadata_object (Some MANIFEST_INNER_KIND) b);
  let payload := object.(object_payload) in
  bad ←
    Ok (blen payload <? MANIFEST_INNER_HEADER_BYTES)
    ||? range_differs payload 0 8 MANIFEST_INNER_MAGIC
    ||? differs (get_u16 payload 8) INNER_FORMAT_VERSION
    ||? differs (get_u16 payload 10) MANIFEST_INNER_HEADER_BYTES
    ||? differs (get_u16 payload 12) MANIFEST_CHILD_RANGE_BYTES
    ||? differs (get_u64 payload 16) 0
    ||? range_any_nonzero payload 40 MANIFEST_INNER_HEADER_BYTES;
  reject_if bad InnerInvalidPayload;;
  child_count ← get_u32 payload 32;
  bad_length ←
    differs (inner_payload_length child_count) (blen payload)
    ||? differs (get_u32 payload 36) (blen payload);
  reject_if bad_length InnerInvalidPayload;;
  children ← decode_children payload 0 (Z.to_nat child_count);
  file_length ← get_u64 payload 24;
  level ← get_u16 payload 14;
  inner_new file_length level children.

(** ** Representation of a child range *)

(** A child range as [new_with_allocated_bytes] makes it. *)
Record child_ok (c : ManifestChildRange) : Prop := {
  ok_offset : is_u64 (child_offset c);
  ok_length : 1 ≤ child_length c;
  ok_end : child_offset c + child_length c ≤ u64_max;
  ok_id : MetadataObjectId_new (child c) = Some (child c);
  ok_id_length : blen (child c) = 32;
  ok_allocated : ∃ a, child_allocated c = Some a ∧ 0 ≤ a ≤ child_length c;
}.
Definition allocated_of (c : ManifestChildRange) : Z := default 0 (child_allocated c).
Definition child_fields (c : ManifestChildRange) : list field := [
  Field 0 8 (le_bytes 8 (child_offset c));
  Field 8 8 (le_bytes 8 (child_length c));
  Field 16 32 (child c);
  Field 48 8 (le_bytes 8 (allocated_of c)) ].
Definition child_bytes (c : ManifestChildRange) : bytes := render 64 (child_fields c).
Definition children_bytes (cs : list ManifestChildRange) : bytes := concat (map child_bytes cs).

Lemma child_fits c : child_ok c → Forall (fits 64) (child_fields c).
Proof. intros [? ? ? ? ? _]. unfold child_fields. solve_fits. Qed.
Lemma blen_child_bytes c : child_ok c → blen (child_bytes c) = 64.
Proof. intros. apply blen_render; [lia|]. by apply child_fits. Qed.

Lemma encode_child_render c : child_ok c → encode_child (zeros 64) c = Ok (child_bytes c).
Proof.
  intros [? ? ? ? ? (a&Ha&?)]. unfold encode_child, put_u64, child_bytes, child_fields, allocated_of.
  rewrite Ha. repeat (rewrite put_in by blia; osimpl). reflexivity.
Qed.

Lemma object_id_new_Some id c : MetadataObjectId_new id = Some c ↔ c = id ∧ id ≠ zeros 32.
Proof. unfold MetadataObjectId_new. case_bool_decide; naive_solver. Qed.

Lemma decode_child_inv b c : blen b = 64 → decode_child b = Ok c → child_ok c ∧ b = child_bytes c.
Proof.
  intros Hb Hd. unfold decode_child, new_with_allocated_bytes, validate_range in Hd. inv_run. inv_reads.
  match goal with H : MetadataObjectId_new _ = Some _ |- _ => apply object_id_new_Some in H as [-> Hid] end.
  subst. unfold in_u in *.
  match goal with |- child_ok ?x ∧ _ => set (c := x); assert (Hc : child_ok c) end.
  { split; simpl; [done|lia|lia|by apply object_id_new_Some|rewrite blen_sub; lia|by eexists; split; [done|lia]]. }
  split; [done|].
  apply (render_unique 64 _ b [8;8;32;8;8]); [done|by apply child_fits|done|done|]. unfold c. render_parts.
Qed.
Lemma decode_child_encode c : child_ok c → decode_child (child_bytes c) = Ok c.
Proof.
  intros Hc. pose proof (child_fits c Hc) as Hfits. pose proof (blen_child_bytes c Hc) as Hb.
  destruct (Hc) as [? ? ? ? ? (a&Ha&?)]. unfold child_bytes in *. set (b := render 64 (child_fields c)) in *.
  assert (Hsub : ∀ o k v, 0 ≤ o → 0 ≤ k → o + k ≤ 64 →
    field_at (rev (child_fields c)) o k = Some v → sub b o k = v).
  { intros. by apply (sub_render 64). }
  unfold decode_child. clearbody b. eval_reads b Hb. osimpl. eval_sub b Hsub.
  unfold allocated_of. rewrite Ha. cbn [default].
  assert (is_u64 (child_length c)) by (unfold in_u in *; lia).
  assert (is_u64 a) by (unfold in_u in *; lia).
  eval_ints. osimpl. rewrite ok_id0. osimpl. unfold id, new_with_allocated_bytes, validate_range.
  rewrite (proj2 (Z.ltb_ge _ _)), (proj2 (Z.eqb_neq _ _)), checked_add_ok by lia. osimpl.
  rewrite <-Ha. by destruct c.
Qed.

Lemma blen_children_bytes cs : Forall child_ok cs → blen (children_bytes cs) = 64 * blen cs.
Proof.
  unfold children_bytes. induction 1 as [|c cs Hc _ IH]; [done|]. cbn [map concat].
  rewrite blen_app, blen_cons, IH, blen_child_bytes by done. lia.
Qed.

Lemma entry_start_in ord : 0 ≤ ord ≤ 2 ^ 32 → entry_start ord = Ok (64 + ord * 64).
Proof.
  intros. unfold entry_start, MANIFEST_CHILD_RANGE_BYTES, MANIFEST_INNER_HEADER_BYTES.
  rewrite checked_mul_ok by (unfold usize_max, u64_max; lia). osimpl.
  rewrite checked_add_ok by (unfold usize_max, u64_max; lia). done.
Qed.

Lemma encode_children_render cs pre ord :
  Forall child_ok cs → blen pre = 64 + ord * 64 → 0 ≤ ord → ord + blen cs ≤ 2 ^ 32 →
  encode_children (pre ++ zeros (64 * blen cs)) ord cs = Ok (pre ++ children_bytes cs).
Proof.
  intros Hcs. revert pre ord. induction Hcs as [|c cs Hc Hcs IH]; intros pre ord Hpre Ho Hle; [done|].
  cbn [encode_children]. pose proof (blen_nonneg cs). rewrite blen_cons in *.
  rewrite entry_start_in by lia. osimpl.
  replace (64 * (1 + blen cs)) with (64 + 64 * blen cs) by lia. rewrite zeros_app by lia.
  unfold MANIFEST_CHILD_RANGE_BYTES.
  rewrite index_range_in by (rewrite ?blen_app, ?blen_zeros by lia; lia). osimpl.
  rewrite sub_app_r, sub_app_l by (rewrite ?blen_zeros; lia).
  rewrite sub_zeros by lia. replace (64 + ord * 64 + 64 - (64 + ord * 64)) with 64 by lia.
  rewrite encode_child_render by done. osimpl. pose proof (blen_child_bytes c Hc) as Hbc.
  rewrite put_in by (rewrite ?blen_app, ?blen_zeros, ?Hbc by lia; lia). osimpl.
  rewrite <-Hpre, splice_app_r by (rewrite Hbc, blen_app, !blen_zeros by lia; lia). rewrite Hbc.
  rewrite sub_app_r by (rewrite blen_zeros; lia). rewrite blen_app, !blen_zeros by lia.
  rewrite sub_zeros by lia. replace (64 + 64 * blen cs - 64) with (64 * blen cs) by lia.
  rewrite (app_assoc pre), IH; [|rewrite blen_app; lia|lia..].
  unfold children_bytes. cbn [map concat]. by rewrite <-app_assoc.
Qed.

Lemma decode_children_iff cs n pre rest ord :
  blen pre = 64 + ord * 64 → 0 ≤ ord → blen rest = 64 * Z.of_nat n → ord + Z.of_nat n ≤ 2 ^ 32 →
  decode_children (pre ++ rest) ord n = Ok cs ↔
  length cs = n ∧ Forall child_ok cs ∧ rest = children_bytes cs.
Proof.
  revert cs pre rest ord. induction n as [|n IH]; intros cs pre rest ord Hpre Ho Hr Hle; cbn [decode_children].
  { apply blen_0_nil in Hr as ->. split; [intros [= <-]; done|]. intros (?&_). by destruct cs. }
  rewrite entry_start_in by lia. osimpl. unfold MANIFEST_CHILD_RANGE_BYTES.
  rewrite index_range_in by (rewrite ?blen_app; lia). osimpl. rewrite sub_app_r by lia.
  replace (64 + ord * 64 - blen pre) with 0 by lia.
  replace (64 + ord * 64 + 64 - (64 + ord * 64)) with 64 by lia.
  assert (Hsplit : rest = sub rest 0 64 ++ sub rest 64 (64 * Z.of_nat n)).
  { rewrite <-(sub_split rest 0 64) by lia. symmetry. apply sub_all. lia. }
  assert (H64 : blen (sub rest 0 64) = 64) by (apply blen_sub; lia).
  assert (Hr' : blen (sub rest 64 (64 * Z.of_nat n)) = 64 * Z.of_nat n) by (apply blen_sub; lia).
  generalize dependent (sub rest 64 (64 * Z.of_nat n)). generalize dependent (sub rest 0 64).
  intros e He t -> Ht. rewrite app_assoc.
  assert (Hpre' : blen (pre ++ e) = 64 + (ord + 1) * 64) by (rewrite blen_app; lia). split.
  - intros Hd. inv_run. match goal with H : decode_child _ = Ok _ |- _ => apply decode_child_inv in H as [Hc ->]; [|done] end.
    match goal with H : decode_children _ _ _ = Ok _ |- _ => apply IH in H as (<-&?&->); [|done|lia..] end.
    split_and!; [done|by constructor|done].
  - intros (Hlen&Hcs&Heq). destruct cs as [|c cs]; [done|]. apply Forall_cons_1 in Hcs as [Hc Hcs].
    unfold children_bytes in Heq. cbn [map concat] in Heq.
    apply app_inj_1 in Heq as [-> ->]; [|pose proof (blen_child_bytes c Hc) as Hb;
      change (blen e) with (Z.of_nat (length e)) in He;
      change (blen (child_bytes c)) with (Z.of_nat (length (child_bytes c))) in Hb; lia].
    rewrite decode_child_encode by done. osimpl.
    rewrite (proj2 (IH cs _ _ (ord + 1) Hpre' ltac:(lia) Ht ltac:(lia))); [done|].
    split_and!; [simpl in *; lia|done|done].
Qed.

(** ** The partition *)

(** The children follow each other from [lo]. *)
Fixpoint consecutive (lo : Z) (cs : list ManifestChildRange) : Prop :=
  match cs with
  | [] => True
  | c :: cs => child_offset c = lo ∧ consecutive (lo + child_length c) cs
  end.
Definition children_total (cs : list ManifestChildRange) : Z :=
  foldr (λ c s, child_length c + s) 0 cs.
Definition children_allocated (cs : list ManifestChildRange) : Z :=
  foldr (λ c s, allocated_of c + s) 0 cs.

Lemma children_totals cs :
  Forall child_ok cs → 0 ≤ children_allocated cs ≤ children_total cs ∧ blen cs ≤ children_total cs.
Proof.
  induction 1 as [|c cs [? ? ? ? ? (a&Ha&?)] _ IH]; [done|].
  change (children_allocated (c :: cs)) with (allocated_of c + children_allocated cs).
  change (children_total (c :: cs)) with (child_length c + children_total cs).
  assert (allocated_of c = a) by (unfold allocated_of; by rewrite Ha). rewrite blen_cons. lia.
Qed.

Lemma validate_children_iff cs lo r :
  Forall child_ok cs → lo ≤ u64_max →
  validate_children lo cs = Ok r ↔ consecutive lo cs ∧ r = lo + children_total cs ∧ r ≤ u64_max.
Proof.
  intros Hcs. revert lo. induction Hcs as [|c cs Hc Hcs IH]; intros lo Hlo; cbn [validate_children consecutive].
  { unfold children_total. simpl. split; [intros [= <-]; split_and!; [done|lia|lia]|]. intros (_&->&_). f_equal. lia. }
  destruct (children_totals cs Hcs) as [_ ?]. pose proof (blen_nonneg cs).
  destruct (Hc) as [? ? ? ? ? (a&Ha&?)]. rewrite Ha.
  rewrite (proj2 (Z.eqb_neq (child_length c) 0)), (proj2 (Z.ltb_ge _ _)), checked_add_ok by lia. osimpl.
  change (children_total (c :: cs)) with (child_length c + children_total cs).
  destruct (Z.eqb_spec (child_offset c) lo) as [Hat|]; osimpl.
  - rewrite Hat, IH by lia. split; [intros (?&->&?)|intros ([_ ?]&->&?)]; split_and!; done || lia.
  - split; [done|]. by intros ([? _]&_).
Qed.

(** The type invariant of an inner node. *)
Record inner_wf (node : ManifestInnerNode) : Prop := {
  wf_inner_length : is_u64 (inner_file_length node);
  wf_inner_level : 1 ≤ level node ≤ u16_max;
  wf_inner_children : Forall child_ok (children node);
  wf_inner_nonempty : children node ≠ [];
  wf_inner_consecutive : consecutive 0 (children node);
  wf_inner_total : children_total (children node) = inner_file_length node;
  wf_inner_size : 64 + blen (children node) * 64 ≤ MAX_METADATA_OBJECT_BYTES - METADATA_HEADER_BYTES;
}.

Lemma validate_node_iff fl lv cs :
  Forall child_ok cs → is_u64 fl → is_u16 lv →
  validate_node fl lv cs = Ok () ↔
  1 ≤ lv ∧ cs ≠ [] ∧ consecutive 0 cs ∧ children_total cs = fl.
Proof.
  intros Hcs Hfl Hlv. unfold validate_node. destruct (children_totals cs Hcs) as [_ Hge].
  assert (Hnil : blen cs = 0 ↔ cs = []) by (split; [apply blen_0_nil|by intros ->]).
  pose proof (blen_nonneg cs). unfold in_u, u64_max, u16_max in *. split.
  - intros Hv. inv_run.
    match goal with H : validate_children 0 cs = Ok _ |- _ => apply validate_children_iff in H as (?&?&?); [|done|unfold u64_max; lia] end.
    split_and!; [lia|tauto|done|lia].
  - intros (?&Hne&?&<-). assert (blen cs ≠ 0) by tauto.
    rewrite (proj2 (Z.eqb_neq lv 0)), (proj2 (Z.eqb_neq (blen cs) 0)), (proj2 (Z.eqb_neq (children_total cs) 0)) by lia.
    osimpl. rewrite (proj2 (validate_children_iff cs 0 (children_total cs) Hcs ltac:(unfold u64_max; lia))).
    + rewrite Ok_bind. by rewrite Z.eqb_refl.
    + split_and!; [done|lia|unfold u64_max; lia].
Qed.

Lemma inner_payload_length_iff n r :
  0 ≤ n → inner_payload_length n = Ok r ↔
  1 ≤ n ∧ r = 64 + n * 64 ∧ r ≤ MAX_METADATA_OBJECT_BYTES - METADATA_HEADER_BYTES.
Proof.
  intros Hn. unfold inner_payload_length, MANIFEST_INNER_HEADER_BYTES, MANIFEST_CHILD_RANGE_BYTES,
    MAX_METADATA_OBJECT_BYTES, METADATA_HEADER_BYTES. split.
  - intros Hp. inv_run. simpl in *. lia.
  - intros (?&->&Hle). assert (n * 64 + 64 ≤ usize_max) by (unfold usize_max, u64_max; lia).
    rewrite (proj2 (Z.eqb_neq _ _)) by lia. osimpl.
    rewrite checked_mul_ok by lia. osimpl. rewrite checked_add_ok by lia. osimpl.
    rewrite (proj2 (Z.ltb_ge _ _)) by lia. done.
Qed.

Lemma inner_new_iff fl lv cs node :
  Forall child_ok cs → is_u64 fl → is_u16 lv →
  inner_new fl lv cs = Ok node ↔
  inner_wf node ∧ node = {| inner_file_length := fl; level := lv; children := cs |}.
Proof.
  intros Hcs Hfl Hlv. pose proof (blen_nonneg cs) as Hn. unfold inner_new. split.
  - intros ([]&(?&?&?&?)%validate_node_iff&Hd)%bind_Ok; [|done..].
    apply bind_Ok in Hd as (n&(?&->&?)%inner_payload_length_iff&Hd); [|done]. inv_ok. subst. split; [|done].
    split; simpl; try done. unfold in_u in *; lia.
  - intros [[_ [? ?] _ Hne ? ? ?] ->]. simpl in *.
    rewrite (proj2 (validate_node_iff _ _ _ Hcs Hfl Hlv)) by done. osimpl.
    rewrite (proj2 (inner_payload_length_iff _ (64 + blen cs * 64) Hn)); [done|]. split_and!; [|done..].
    destruct cs; [done|]. rewrite blen_cons in *. pose proof (blen_nonneg cs). lia.
Qed.

Definition inner_fields (node : ManifestInnerNode) : list field := [
  Field 0 8 MANIFEST_INNER_MAGIC;
  Field 8 2 (le_bytes 2 INNER_FORMAT_VERSION);
  Field 10 2 (le_bytes 2 64);
  Field 12 2 (le_bytes 2 64);
  Field 14 2 (le_bytes 2 (level node));
  Field 24 8 (le_bytes 8 (inner_file_length node));
  Field 32 4 (le_bytes 4 (blen (children node)));
  Field 36 4 (le_bytes 4 (64 + blen (children node) * 64)) ].
Definition inner_payload (node : ManifestInnerNode) : bytes :=
  render 64 (inner_fields node) ++ children_bytes (children node).
Lemma inner_fits node : Forall (fits 64) (inner_fields node).
Proof. unfold inner_fields. solve_fits. Qed.

Lemma inner_encode_payload `{Crc32c, Blake3} node :
  inner_wf node →
  inner_encode node = map_err InnerMetadata (encode_metadata_object MANIFEST_INNER_KIND (inner_payload node)).
Proof.
  intros [Hfl Hlv Hcs Hne Hco Ht Hsz]. unfold inner_encode. pose proof (blen_nonneg (children node)) as Hn.
  assert (Hlv' : is_u16 (level node)) by (unfold in_u; lia).
  rewrite (proj2 (validate_node_iff _ _ _ Hcs Hfl Hlv')) by (split_and!; done || lia). osimpl.
  rewrite (proj2 (inner_payload_length_iff _ (64 + blen (children node) * 64) Hn)).
  2: { split_and!; [|done..]. destruct (children node); [done|]. rewrite blen_cons in *. pose proof (blen_nonneg l). lia. }
  osimpl. unfold MAX_METADATA_OBJECT_BYTES, METADATA_HEADER_BYTES in Hsz.
  rewrite !try_from_u_ok by (unfold u32_max; lia). osimpl.
  set (n := 64 + blen (children node) * 64) in *.
  change (puts_then (zeros n) (inner_fields node) (λ payload,
    payload ← encode_children payload 0 (children node);
    map_err InnerMetadata (encode_metadata_object MANIFEST_INNER_KIND payload))
    = map_err InnerMetadata (encode_metadata_object MANIFEST_INNER_KIND (inner_payload node))).
  rewrite (puts_then_in n); [|blia|apply (fits_mono 64); [lia|apply inner_fits]].
  unfold n in *. rewrite zeros_app by lia.
  rewrite (render_on_app 64) by (by apply blen_zeros || apply inner_fits).
  fold (render 64 (inner_fields node)).
  replace (blen (children node) * 64) with (64 * blen (children node)) by lia.
  rewrite encode_children_render; [by osimpl|done| |lia|lia].
  rewrite (blen_render 64); [done|lia|apply inner_fits].
Qed.

(** ** The codec *)
Section InnerCodec.
Context `{Crc32cLaws, Blake3Laws}.

Lemma inner_decode_encode node b : inner_wf node → inner_encode node = Ok b → inner_decode b = Ok node.
Proof.
  intros Hwf Hb. rewrite inner_encode_payload, map_err_Ok in Hb by done.
  destruct (decode_metadata_encode (Some MANIFEST_INNER_KIND) MANIFEST_INNER_KIND _ _ ltac:(done) ltac:(congruence) Hb)
    as (id&_&Hd).
  destruct (Hwf) as [Hfl Hlv Hcs Hne Hco Ht Hsz]. unfold inner_decode. rewrite Hd. osimpl. simpl object_payload.
  pose proof (blen_nonneg (children node)) as Hn.
  set (p := inner_payload node) in *.
  pose proof (blen_render 64 _ ltac:(lia) (inner_fits node)) as Hr.
  assert (Hl : blen p = 64 + blen (children node) * 64).
  { unfold p, inner_payload. rewrite blen_app, Hr, blen_children_bytes by done. lia. }
  assert (Hsub : ∀ o k v, 0 ≤ o → 0 ≤ k → o + k ≤ 64 →
    field_at (rev (inner_fields node)) o k = Some v → sub p o k = v).
  { intros. unfold p, inner_payload. rewrite sub_app_l by lia.
    apply (sub_render 64); try done. apply inner_fits. }
  assert (Hone : 1 ≤ blen (children node)).
  { destruct (children node); [done|]. rewrite blen_cons. pose proof (blen_nonneg l). lia. }
  unfold MANIFEST_INNER_HEADER_BYTES, MANIFEST_CHILD_RANGE_BYTES, MAX_METADATA_OBJECT_BYTES, METADATA_HEADER_BYTES in *.
  rewrite Hl. rewrite (proj2 (Z.ltb_ge (64 + _) 64)) by lia. osimpl.
  eval_reads p Hl. osimpl. eval_sub p Hsub.
  assert (is_u32 (blen (children node))) by (unfold in_u, u32_max; lia).
  assert (is_u32 (64 + blen (children node) * 64)) by (unfold in_u, u32_max; lia).
  assert (is_u16 (level node)) by (unfold in_u; lia).
  eval_ints. osimpl.
  rewrite (proj2 (inner_payload_length_iff _ (64 + blen (children node) * 64) Hn));
    [|split_and!; [done|done|unfold MAX_METADATA_OBJECT_BYTES, METADATA_HEADER_BYTES; lia]].
  osimpl. unfold p at 1, inner_payload.
  rewrite (proj2 (decode_children_iff (children node) (Z.to_nat (blen (children node))) (render 64 (inner_fields node))
    (children_bytes (children node)) 0 ltac:(lia) ltac:(lia) ltac:(rewrite blen_children_bytes by done; lia) ltac:(lia))).
  - osimpl. apply inner_new_iff; [done..|]. split; [done|]. by destruct node.
  - split_and!; [|done|done]. change (blen (children node)) with (Z.of_nat (length (children node))). lia.
Qed.

Lemma inner_decode_inv node b : inner_decode b = Ok node → inner_wf node ∧ inner_encode node = Ok b.
Proof.
  unfold inner_decode. intros (o&Ho&Hd)%bind_Ok. apply map_err_Ok in Ho.
  apply decode_metadata_inv in Ho as (Hk&_&_&Henc). specialize (Hk _ eq_refl).
  set (p := object_payload o) in *. cbv zeta in Hd.
  unfold MANIFEST_INNER_HEADER_BYTES, MANIFEST_CHILD_RANGE_BYTES in Hd. clearbody p. inv_run. inv_reads. zbool.
  match goal with H : inner_payload_length ?x = Ok _ |- _ => rename x into n; apply inner_payload_length_iff in H as (Hone&Hlen&Hmax) end.
  2: unfold in_u in *; lia.
  match goal with H : decode_children _ _ _ = Ok _ |- _ => rename H into Hes end.
  match goal with H : inner_new ?fl ?lv ?es = Ok _ |- _ => rename H into Hnew; rename fl into l; rename es into x end.
  assert (Hp : p = sub p 0 64 ++ sub p 64 (n * 64)).
  { rewrite <-(sub_split p 0 64) by (unfold in_u in *; lia). symmetry. apply sub_all. lia. }
  unfold MAX_METADATA_OBJECT_BYTES, METADATA_HEADER_BYTES in Hmax.
  rewrite Hp in Hes.
  apply decode_children_iff in Hes as (Hcount&Hok&Hrest);
    [|rewrite blen_sub by lia; lia|lia|unfold in_u in *; rewrite blen_sub; lia|lia].
  apply inner_new_iff in Hnew as [Hwf Hnode]; [|done..].
  split; [done|]. rewrite inner_encode_payload, map_err_Ok by done.
  rewrite Hk, <-Henc. f_equal. rewrite Hp.
  unfold inner_payload. rewrite Hnode. cbn [children inner_file_length level]. rewrite <-Hrest. f_equal. symmetry.
  assert (Hcnt : blen x = n) by (change (blen x) with (Z.of_nat (length x)); unfold in_u in *; lia).
  apply (render_prefix_unique 64 _ p [8;2;2;2;2;8;8;4;4;24]); [lia|lia|apply inner_fits|done|done|].
  unfold inner_fields. cbn [children inner_file_length level]. rewrite Hcnt, <-Hlen. render_parts.
Qed.

Lemma decode_child_no_panic b : blen b = 64 → no_panic (decode_child b).
Proof.
  intros Hb. unfold decode_child. no_panic_reads.
  unfold new_with_allocated_bytes, validate_range. repeat (apply no_panic_bind; [|intros ? _]); auto with fastdup nocore.
Qed.
Lemma decode_children_no_panic n b ord :
  0 ≤ ord → ord + Z.of_nat n ≤ 2 ^ 32 → 64 + (ord + Z.of_nat n) * 64 ≤ blen b →
  no_panic (decode_children b ord n).
Proof.
  revert ord. induction n as [|n IH]; intros ord Ho Hle Hb; cbn [decode_children]; [apply no_panic_Ok|].
  rewrite entry_start_in by lia. osimpl. unfold MANIFEST_CHILD_RANGE_BYTES.
  apply no_panic_bind; [apply no_panic_index_range; lia|]. intros e He. inv_reads. subst e.
  apply no_panic_bind; [apply decode_child_no_panic; rewrite blen_sub; lia|]. intros e He.
  apply no_panic_bind; [apply IH; lia|auto with fastdup nocore].
Qed.
Lemma inner_new_no_panic fl lv cs : no_panic (inner_new fl lv cs).
Proof.
  unfold inner_new, validate_node, inner_payload_length.
  assert (Hv : ∀ lo, no_panic (validate_children lo cs)).
  { induction cs as [|c cs IH]; intros lo; cbn [validate_children]; [auto with fastdup nocore|].
    repeat (apply no_panic_bind; [auto with fastdup nocore|intros ? _]). apply IH. }
  repeat (apply no_panic_bind; [|intros ? _]); auto with fastdup nocore.
Qed.
Lemma inner_decode_no_panic b : no_panic (inner_decode b).
Proof.
  unfold inner_decode. apply no_panic_bind; [apply no_panic_map_err, decode_metadata_no_panic|]. intros o _.
  set (p := object_payload o). cbv zeta. clearbody p. unfold MANIFEST_INNER_HEADER_BYTES.
  apply no_panic_bind.
  { destruct (Z.ltb_spec (blen p) 64); [done|].
    repeat (apply no_panic_or_else; [|]); auto with fastdup nocore.
    - apply no_panic_range_differs; lia.
    - apply no_panic_differs, no_panic_get_u16; lia.
    - apply no_panic_differs, no_panic_get_u16; lia.
    - apply no_panic_differs, no_panic_get_u16; lia.
    - apply no_panic_differs, no_panic_get_u64; lia.
    - apply no_panic_range_any_nonzero; lia. }
  intros c Hc. apply no_panic_bind; [apply no_panic_reject_if|]. intros ? ?. inv_run. inv_reads.
  no_panic_reads.
  - unfold inner_payload_length. auto with fastdup nocore.
  - inv_run. inv_reads. 
    match goal with H : inner_payload_length _ = Ok _ |- _ => apply inner_payload_length_iff in H as (?&?&?) end.
    + unfold MAX_METADATA_OBJECT_BYTES, METADATA_HEADER_BYTES in *.
      apply decode_children_no_panic; unfold in_u in *; lia.
    + unfold in_u in *; lia.
  - apply inner_new_no_panic.
Qed.
End InnerCodec.

(** ** Coverage *)
Lemma consecutive_cover cs lo :
  Forall child_ok cs → consecutive lo cs →
  ∀ pos, lo ≤ pos < lo + children_total cs ↔
    ∃ c, c ∈ cs ∧ child_offset c ≤ pos < child_offset c + child_length c.
Proof.
  intros Hcs. revert lo. induction Hcs as [|c cs Hc Hcs IH]; intros lo Hco pos.
  { unfold children_total. simpl. split; [lia|]. by intros (c&?%elem_of_nil&_). }
  change (children_total (c :: cs)) with (child_length c + children_total cs).
  destruct Hco as [Hat Hco]. destruct (children_totals cs Hcs) as [_ ?]. pose proof (blen_nonneg cs).
  specialize (IH _ Hco pos). pose proof (ok_length c Hc). split.
  - intros Hpos. destruct (decide (pos < lo + child_length c)).
    + exists c. split; [by left|lia].
    + destruct (proj1 IH ltac:(lia)) as (c'&?&?). exists c'. split; [by right|done].
  - intros (c'&[->|Hin]%elem_of_cons&Hpos); [lia|].
    pose proof (proj2 IH (ex_intro _ c' (conj Hin Hpos))). lia.
Qed.
Lemma consecutive_unique cs lo i j c d pos :
  Forall child_ok cs → consecutive lo cs → cs !! i = Some c → cs !! j = Some d →
  child_offset c ≤ pos < child_offset c + child_length c →
  child_offset d ≤ pos < child_offset d + child_length d → i = j.
Proof.
  intros Hcs. revert lo i j. induction Hcs as [|x cs Hx Hcs IH]; intros lo i j Hco Hi Hj Hpi Hpj; [done|].
  destruct Hco as [Hat Hco].
  assert (Hlate : ∀ y k, cs !! k = Some y → child_offset y ≤ pos < child_offset y + child_length y →
    lo + child_length x ≤ pos).
  { intros y k Hy Hp. apply list_elem_of_lookup_2 in Hy.
    pose proof (proj2 (consecutive_cover cs _ Hcs Hco pos) (ex_intro _ y (conj Hy Hp))). lia. }
  destruct i as [|i], j as [|j]; simplify_eq/=; [done| | |].
  - specialize (Hlate _ _ Hj Hpj). lia.
  - specialize (Hlate _ _ Hi Hpi). lia.
  - f_equal. eauto.
Qed.
Lemma allocated_fold_total cs t :
  Forall child_ok cs → t + children_allocated cs ≤ u64_max →
  allocated_fold (Some t) cs = Ok (Some (t + children_allocated cs)).
Proof.
  intros Hcs. revert t. induction Hcs as [|c cs Hc Hcs IH]; intros t Ht; cbn [allocated_fold].
  { unfold children_allocated. simpl. by rewrite Z.add_0_r. }
  change (children_allocated (c :: cs)) with (allocated_of c + children_allocated cs) in *.
  destruct (children_totals cs Hcs) as [? _]. destruct (Hc) as [? ? ? ? ? (a&Ha&?)].
  assert (allocated_of c = a) by (unfold allocated_of; by rewrite Ha).
  rewrite Ha. osimpl. rewrite checked_add_ok by lia. osimpl. rewrite IH by lia. do 2 f_equal. lia.
Qed.

(** ** Properties *)

(** The inner-node decoder accepts exactly the encodings of well-formed
    inner nodes (a level above the leaves, at least one child, consecutive
    children from offset 0 to the file length, allocation totals within each
    range, no zero child identifier), decodes to the node that was encoded, and
    never panics. *)
Theorem manifest_inner_decode_iff `{Crc32cLaws, Blake3Laws} (b : bytes) (node : ManifestInnerNode) :
  (inner_decode b = Ok node ↔ inner_wf node ∧ inner_encode node = Ok b) ∧ no_panic (inner_decode b).
Proof.
  split; [|apply inner_decode_no_panic].
  split; [apply inner_decode_inv|]. intros [??]. by apply inner_decode_encode.
Qed.

(** The children of an accepted inner node route every offset of the file
    to exactly one child, and the allocation total sums without overflow to at
    most the file length. *)
Theorem manifest_inner_routes (fl lv : Z) (cs : list ManifestChildRange) node :
  is_u64 fl → is_u16 lv → Forall child_ok cs → inner_new fl lv cs = Ok node →
  (∀ pos, 0 ≤ pos < fl ↔ ∃ c, c ∈ cs ∧ child_offset c ≤ pos < child_offset c + child_length c) ∧
  (∀ i j c d pos, cs !! i = Some c → cs !! j = Some d →
     child_offset c ≤ pos < child_offset c + child_length c →
     child_offset d ≤ pos < child_offset d + child_length d → i = j) ∧
  ∃ total, inner_allocated_bytes node = Ok (Some total) ∧ 0 ≤ total ≤ fl.
Proof.
  intros Hfl Hlv Hcs Hnew. apply inner_new_iff in Hnew as [[_ _ _ _ Hco Ht _] ->]; [|done..]. simpl in *.
  destruct (children_totals cs Hcs) as [? _]. split_and!.
  - intros pos. pose proof (consecutive_cover cs 0 Hcs Hco pos) as Hc. by rewrite Ht, Z.add_0_l in Hc.
  - intros. by eapply consecutive_unique.
  - exists (children_allocated cs). unfold inner_allocated_bytes. simpl.
    rewrite allocated_fold_total; [|done|unfold in_u in *; lia]. split; [by rewrite Z.add_0_l|lia].
Qed.

(** A two-child node of level 1. *)
Definition inner_sample : ManifestInnerNode := {|
  inner_file_length := 5000; level := 1;
  children := [ {| child_offset := 0; child_length := 4096; child := le_bytes 32 7; child_allocated := Some 4096 |};
                {| child_offset := 4096; child_length := 904; child := le_bytes 32 9; child_allocated := Some 0 |} ] |}.
Lemma inner_sample_children : Forall child_ok (children inner_sample).
Proof.
  repeat constructor; try (vm_compute; intuition discriminate); eexists; (split; [reflexivity|]);
    vm_compute; intuition discriminate.
Qed.
Lemma inner_wf_sample : inner_wf inner_sample.
Proof.
  split; [vm_compute; intuition discriminate..|exact inner_sample_children|discriminate| |done|vm_compute; discriminate].
  vm_compute. done.
Qed.

Section InnerWitnesses.
#[local] Existing Instances Crc32cBitwise.ops Crc32cBitwise.laws MixHash.ops MixHash.laws.

Lemma manifest_inner_decode_iff_witness : ∃ b, inner_decode b = Ok inner_sample.
Proof.
  destruct (inner_encode inner_sample) as [b| |] eqn:Hb; [|exfalso; vm_compute in Hb; discriminate..].
  exists b. apply (manifest_inner_decode_iff b inner_sample). split; [exact inner_wf_sample|exact Hb].
Defined.
Lemma manifest_inner_routes_witness :
  ∃ c, c ∈ children inner_sample ∧ child_offset c ≤ 4500 < child_offset c + child_length c.
Proof.
  destruct (manifest_inner_routes 5000 1 (children inner_sample) inner_sample) as [Hc _];
    [vm_compute; intuition discriminate..|exact inner_sample_children|vm_compute; reflexivity|].
  apply Hc. vm_compute. intuition discriminate.
Defined.
End InnerWitnesses.
End ManifestInner.
