(* ===== verification/Effects.v ===== *)
(** * Stateful code

    A method that borrows its state mutably and returns [Result<A, E>] is a
    function from the state to the outcome and the new state: an error or a
    panic keeps the effects that preceded it, as in Rust.  [run] is the
    weakest-precondition view of such a method; a proof walks through the
    method one call at a time with [run_bind]. *)
From S2P Require Export Prelude.

Definition prog (S E A : Type) : Type := S → outcome E A * S.

#[global] Instance prog_ret S E : MRet (prog S E) := λ A a s, (Ok a, s).
#[global] Instance prog_bind S E : MBind (prog S E) := λ A B f m s,
  match m s with
  | (Ok a, s) => f a s
  | (Err e, s) => (Err e, s)
  | (Panic, s) => (Panic, s)
  end.

(** A step without effect on the state. *)
Definition pure {S E A} (o : outcome E A) : prog S E A := λ s, (o, s).
(** The conversion [?] applies to the error of a callee. *)
Definition lift_err {S E F A} (f : E → F) (m : prog S E A) : prog S F A := λ s,
  let '(r, s) := m s in (map_err f r, s).
(** [match m() { ... }]: the caller looks at the outcome itself. *)
Definition inspect {S E F A B} (m : prog S F A) (k : outcome F A → prog S E B) : prog S E B := λ s,
  let '(r, s) := m s in k r s.
Definition get_state {S E} : prog S E S := λ s, (Ok s, s).
Definition set_state {S E} (s : S) : prog S E () := λ _, (Ok (), s).

(** The outcome and final state of [m] from [s] satisfy [Q]. *)
Definition run {S E A} (m : prog S E A) (s : S) (Q : outcome E A → S → Prop) : Prop :=
  Q (m s).1 (m s).2.

Section Run.
Context {S E : Type}.

Lemma run_bind {A B} (m : prog S E A) (f : A → prog S E B) s Q :
  run m s (λ r s', match r with
                   | Ok a => run (f a) s' Q
                   | Err e => Q (Err e) s'
                   | Panic => Q Panic s'
                   end) →
  run (m ≫= f) s Q.
Proof. unfold run, mbind, prog_bind. by destruct (m s) as [[]]. Qed.

Lemma run_ret {A} (a : A) s (Q : outcome E A → S → Prop) : Q (Ok a) s → run (mret a) s Q.
Proof. done. Qed.
Lemma run_pure {A} (o : outcome E A) s (Q : outcome E A → S → Prop) : Q o s → run (pure o) s Q.
Proof. done. Qed.

Lemma run_lift_err {F A} (f : F → E) (m : prog S F A) s (Q : outcome E A → S → Prop) :
  run m s (λ r s', Q (map_err f r) s') → run (lift_err f m) s Q.
Proof. unfold run, lift_err. by destruct (m s). Qed.

Lemma run_inspect {F A B} (m : prog S F A) (k : outcome F A → prog S E B) s Q :
  run m s (λ r s', run (k r) s' Q) → run (inspect m k) s Q.
Proof. unfold run, inspect. by destruct (m s). Qed.

Lemma run_mono {A} (m : prog S E A) s (P Q : outcome E A → S → Prop) :
  run m s P → (∀ r s', P r s' → Q r s') → run m s Q.
Proof. unfold run. auto. Qed.

Lemma run_and {A} (m : prog S E A) s (P Q : outcome E A → S → Prop) :
  run m s P → run m s Q → run m s (λ r s', P r s' ∧ Q r s').
Proof. done. Qed.
End Run.
