(* ===== verification/Storage.v ===== *)
(** * Storage ([fastdup-store/src/lib.rs] trait [StorageIo],
      [fastdup-testkit/src/lib.rs] [MemoryStorageIo])

    The store writes through the trait [StorageIo].  [StorageIo] is the class of
    its operations, [StorageLaws] what the theorems about its clients rely on: a
    name holds a live content and the content a crash leaves, every operation
    either has its whole effect or none, also when it reports an error.
    [MemoryStorageIo], the repository's fault model (live and durable
    directories and files, failures injected before or after an operation,
    crashes), is an instance.  The laws are those of this fault model: contents
    become durable at [sync_file] only, and a crash takes back the rest as a
    whole.  They do not cover a content that reaches the disk in part or early:
    [inject_durable_torn_write], which the tests use to damage a file on
    purpose, is defined below but leaves the laws, and the direct-I/O store
    ([fastdup-store/src/direct_io.rs]) may write a new length before
    [sync_file]; it is not shown to be an instance. *)
From Stdlib Require Import Ascii.
From stdpp Require Import sorting.
From S2P Require Export Bytes Effects.

(** The [io::ErrorKind]s the storage returns. *)
Inductive IoErrorKind :=
  | NotFound | AlreadyExists | InvalidInput | Interrupted | UnexpectedEof | Other.
#[global] Instance IoErrorKind_eq_dec : EqDecision IoErrorKind.
Proof. solve_decision. Defined.

Abbreviation io St := (prog St IoErrorKind).

Definition MAX_STORAGE_RANGE_BYTES : Z := 1024 * 1024.

(** ** The trait *)
Class StorageIo (St : Type) := {
  create_new : string → io St ();
  exists_ : string → io St bool;
  write_at : string → Z → bytes → io St ();
  read : string → io St bytes;
  object_len : string → io St Z;
  read_exact_at : string → Z → Z → io St bytes;
  list_names : io St (list string);
  set_len : string → Z → io St ();
  sync_file : string → io St ();
  publish_noreplace : string → string → io St ();
  remove_file : string → io St ();
  sync_root : io St ();
}.

(** [Vec::resize] with zeros, and the extension [write_at] makes. *)
Definition resized (b : bytes) (n : Z) : bytes :=
  if n <=? blen b then sub b 0 n else b ++ zeros (n - blen b).
Definition overwrite (b : bytes) (offset : Z) (v : bytes) : bytes :=
  let e := offset + blen v in
  splice (if blen b <? e then resized b e else b) offset v.

Lemma blen_resized b n : 0 ≤ n → blen (resized b n) = n.
Proof. intros. unfold resized. case_match; zbool; [apply blen_sub; lia|]. rewrite blen_app, blen_zeros; lia. Qed.
Lemma blen_overwrite b o v : 0 ≤ o → blen (overwrite b o v) = Z.max (blen b) (o + blen v).
Proof.
  intros. pose proof (blen_nonneg v). pose proof (blen_nonneg b). unfold overwrite.
  case_match; zbool; rewrite blen_splice; rewrite ?blen_resized by lia; lia.
Qed.

Lemma resized_same b : resized b (blen b) = b.
Proof. unfold resized. rewrite Z.leb_refl. by apply sub_all. Qed.
Lemma resized_0 b : resized b 0 = [].
Proof. unfold resized. pose proof (blen_nonneg b). rewrite (proj2 (Z.leb_le _ _)) by lia. apply sub_0. Qed.
Lemma overwrite_end b v : overwrite b (blen b) v = b ++ v.
Proof.
  pose proof (blen_nonneg v). unfold overwrite, resized. destruct (Z.ltb_spec (blen b) (blen b + blen v)).
  - rewrite (proj2 (Z.leb_gt _ _)) by lia. replace (blen b + blen v - blen b) with (blen v) by lia.
    rewrite splice_app_r by (rewrite blen_zeros; lia). rewrite blen_zeros, Z.sub_diag, sub_0 by lia.
    by rewrite app_nil_r.
  - assert (v = []) as -> by (apply blen_0_nil; lia).
    rewrite <-(app_nil_r b) at 1. rewrite splice_app_r by done. by rewrite sub_0.
Qed.

(** What a name holds: the live content, the content last synchronized, and
    whether the directory entry is durable. *)
Record view := View { live_content : bytes; durable_content : bytes; linked : bool }.

(** What the laws speak about.  [holds s n v]: the name [n] holds [v], or does
    not exist; [wf] is the storage's own invariant; a [healthy] storage reports
    no errors of its own; [restart] is a crash followed by a start without
    faults. *)
Class StorageView (St : Type) := {
  wf : St → Prop;
  healthy : St → Prop;
  holds : St → string → option view → Prop;
  restart : St → St;
}.

(** What any call keeps: the invariant, the health, and the names outside its
    argument. *)
Definition keeps {St} `{StorageView St} (s s' : St) (other : string → Prop) : Prop :=
  wf s' ∧ (healthy s → healthy s') ∧ ∀ n w, other n → holds s n w → holds s' n w.

(** The call to [m] on [n] turns [v] into [v'] and returns [a], or reports an
    error, which a healthy storage does not, before or after that effect.  The
    error is [NotFound] for absent names only. *)
Definition effect {St} `{StorageView St} {A} (m : io St A) (s : St) (n : string)
    (v v' : option view) (a : A) : Prop :=
  run m s (λ r s',
    keeps s s' (.≠ n) ∧
    ((r = Ok a ∧ holds s' n v') ∨
     (∃ e, r = Err e ∧ e ≠ NotFound ∧ ¬ healthy s ∧ (holds s' n v ∨ holds s' n v')))).

Class StorageLaws (St : Type) `{StorageIo St, StorageView St} := {
  holds_inj s n v w : holds s n v → holds s n w → v = w;
  write_at_law s n c d l o b :
    wf s → holds s n (Some (View c d l)) → 0 ≤ o → o + blen b ≤ usize_max →
    effect (write_at n o b) s n (Some (View c d l)) (Some (View (overwrite c o b) d l)) ();
  set_len_law s n c d l k :
    wf s → holds s n (Some (View c d l)) → 0 ≤ k ≤ usize_max →
    effect (set_len n k) s n (Some (View c d l)) (Some (View (resized c k) d l)) ();
  read_law s n c d l :
    wf s → holds s n (Some (View c d l)) →
    effect (read n) s n (Some (View c d l)) (Some (View c d l)) c;
  object_len_law s n c d l :
    wf s → holds s n (Some (View c d l)) → blen c ≤ u64_max →
    effect (object_len n) s n (Some (View c d l)) (Some (View c d l)) (blen c);
  read_exact_at_law s n c d l o k :
    wf s → holds s n (Some (View c d l)) → 0 ≤ o → 0 ≤ k → k ≤ MAX_STORAGE_RANGE_BYTES →
    o + k ≤ blen c → o + k ≤ usize_max →
    effect (read_exact_at n o k) s n (Some (View c d l)) (Some (View c d l)) (sub c o k);
  exists_law s n v :
    wf s → holds s n v →
    effect (exists_ n) s n v v (bool_decide (v ≠ None));
  sync_file_law s n c d l :
    wf s → holds s n (Some (View c d l)) →
    effect (sync_file n) s n (Some (View c d l)) (Some (View c c l)) ();
  absent_law s n :
    wf s → holds s n None →
    run (object_len n) s (λ r s', keeps s s' (λ _, True) ∧
      (r = Err NotFound ∨ ∃ e, r = Err e ∧ ¬ healthy s));
  create_new_law s n :
    wf s → holds s n None →
    run (create_new n) s (λ r s', keeps s s' (.≠ n) ∧
      ((r = Ok () ∧ holds s' n (Some (View [] [] false))) ∨
       (∃ e, r = Err e ∧ (holds s' n None ∨ holds s' n (Some (View [] [] false))))));
  sync_root_law s :
    wf s →
    run sync_root s (λ r s', keeps s s' (λ _, False) ∧
      (r = Ok () ∨ ∃ e, r = Err e ∧ ¬ healthy s) ∧
      ((r ≠ Ok () ∧ ∀ n w, holds s n w → holds s' n w) ∨
       ((∀ n c d l, holds s n (Some (View c d l)) → holds s' n (Some (View c d true))) ∧
        (∀ n, holds s n None → holds s' n None))));
  list_names_law s :
    wf s →
    run list_names s (λ r s', keeps s s' (λ _, True) ∧
      ((∃ names, r = Ok names) ∨ ∃ e, r = Err e ∧ ¬ healthy s));
  restart_law s :
    wf s →
    wf (restart s) ∧ healthy (restart s) ∧
    (∀ n c d, holds s n (Some (View c d true)) → holds (restart s) n (Some (View d d true))) ∧
    (∀ n c d, holds s n (Some (View c d false)) → holds (restart s) n None) ∧
    (∀ n, holds s n None → holds (restart s) n None);
}.

(** ** Using the laws *)
Section Calls.
Context `{StorageLaws St}.

Lemma keeps_trans (s s1 s2 : St) P : keeps s s1 P → keeps s1 s2 P → keeps s s2 P.
Proof. unfold keeps. naive_solver. Qed.
Lemma keeps_refl (s : St) P : wf s → keeps s s P.
Proof. unfold keeps. naive_solver. Qed.
Lemma keeps_mono (s s' : St) (P Q : string → Prop) : (∀ n, Q n → P n) → keeps s s' P → keeps s s' Q.
Proof. unfold keeps. naive_solver. Qed.

Lemma run_effect {A} (m : io St A) s n v v' a (Q : outcome IoErrorKind A → St → Prop) :
  effect m s n v v' a →
  (∀ s', keeps s s' (.≠ n) → holds s' n v' → Q (Ok a) s') →
  (∀ e s', keeps s s' (.≠ n) → e ≠ NotFound → ¬ healthy s → holds s' n v ∨ holds s' n v' →
    Q (Err e) s') →
  run m s Q.
Proof.
  unfold effect, run. destruct (m s) as [r s']. simpl.
  intros (Hk&[(->&?)|(e&->&?&?&?)]); auto.
Qed.

(** A call that leaves its name alone keeps every name. *)
Lemma run_read {A} (m : io St A) s n v a (Q : outcome IoErrorKind A → St → Prop) :
  effect m s n v v a → holds s n v →
  (∀ s', keeps s s' (λ _, True) → Q (Ok a) s') →
  (∀ e s', keeps s s' (λ _, True) → e ≠ NotFound → ¬ healthy s → Q (Err e) s') →
  run m s Q.
Proof.
  intros Hm Hv Hok Herr.
  assert (Hall : ∀ s', keeps s s' (.≠ n) → holds s' n v → keeps s s' (λ _, True)).
  { intros s' (Hw&Hh&Ho) Hv'. split_and!; [done..|]. intros n' w _ Hw'.
    destruct (decide (n' = n)) as [->|]; [|auto]. by rewrite (holds_inj _ _ _ _ Hw' Hv). }
  eapply run_effect; [exact Hm| |]; naive_solver.
Qed.

(** A file before its first content: absent, or present and empty, its
    directory entry durable or not. *)
Definition blank (s : St) (n : string) : Prop :=
  holds s n None ∨ ∃ l, holds s n (Some (View [] [] l)).
Lemma blank_content (s s' : St) n : (∀ n v, holds s n v → holds s' n v) → blank s n → blank s' n.
Proof. intros Hh [?|[l ?]]; [left|right; exists l]; auto. Qed.
Lemma blank_keeps (s s' : St) n (P : string → Prop) : keeps s s' P → P n → blank s n → blank s' n.
Proof. intros (_&_&Hk) HP [?|[l ?]]; [left|right; exists l]; auto. Qed.
Lemma blank_restart (s : St) n : wf s → blank s n → blank (restart s) n.
Proof.
  intros Hw Hb. destruct (restart_law s Hw) as (_&_&Hl&Hu&Hn).
  destruct Hb as [?|[[] ?]]; [left; auto|right; exists true; eauto|left; eauto].
Qed.
(** The root synchronization links the files that exist. *)
Lemma sync_root_run (s : St) (Q : outcome IoErrorKind () → St → Prop) :
  wf s →
  (∀ s', wf s' → (∀ n c d l, holds s n (Some (View c d l)) → holds s' n (Some (View c d true))) →
    Q (Ok ()) s') →
  (∀ e s', wf s' → (∀ n c d l, holds s n (Some (View c d l)) →
      ∃ l', holds s' n (Some (View c d l')) ∧ (l = true → l' = true)) → Q (Err e) s') →
  run sync_root s Q.
Proof.
  intros Hw Hok Herr. eapply run_mono; [by apply sync_root_law|]. simpl.
  intros r s' ((Hw'&_&_)&[->|(e&->&_)]&Hv).
  - apply Hok; [done|]. by destruct Hv as [[? _]|[Hv _]].
  - apply Herr; [done|]. intros n c d l Hn. destruct Hv as [[_ Hv]|[Hv _]]; eauto.
Qed.

(** While an operation started in [s] works on the file [n], another one,
    [n'], keeps its content. *)
Definition at_target (s : St) (n n' : string) (w : view) (s' : St) (c d : bytes) : Prop :=
  wf s' ∧ (healthy s → healthy s') ∧ holds s' n (Some (View c d true)) ∧ holds s' n' (Some w).

Lemma run_target {E A B} (f : IoErrorKind → E) (m : io St A) x (k : A → prog St E B)
    s n n' w s1 c d c' d' (Q : outcome E B → St → Prop) :
  n' ≠ n → at_target s n n' w s1 c d →
  (wf s1 → holds s1 n (Some (View c d true)) →
    effect m s1 n (Some (View c d true)) (Some (View c' d' true)) x) →
  (∀ s2, at_target s n n' w s2 c' d' → run (k x) s2 Q) →
  (∀ e s2, ¬ healthy s → at_target s n n' w s2 c d ∨ at_target s n n' w s2 c' d' →
    Q (Err (f e)) s2) →
  run (lift_err f m ≫= k) s1 Q.
Proof.
  intros Hn (Hw&Hh&Hv&Ho) Hm Hok Herr. apply run_bind, run_lift_err.
  eapply run_effect; [by apply Hm| |].
  - intros s2 (?&?&Hk) ?. simpl. apply Hok. split_and!; auto.
  - intros e s2 (?&?&Hk) _ Hu Hv2. simpl. apply Herr; [by intros ?; apply Hu; auto|].
    destruct Hv2; [left|right]; (split_and!; auto).
Qed.
End Calls.

(** ** The fault model *)
Module Memory.

Inductive StorageOperation :=
  | CreateNew | Exists | WriteAt | SetLen | Read | ObjectLen | ReadExactAt | ListNames
  | SyncFile | PublishNoreplace | RemoveFile | SyncRoot.

Record MemoryFile := { live : bytes; durable : bytes }.
Definition MemoryFile_default : MemoryFile := {| live := []; durable := [] |}.

Record StorageState := {
  next_file_id : Z;
  live_directory : gmap string Z;
  durable_directory : gmap string Z;
  files : gmap Z MemoryFile;
  operations : list StorageOperation;
  fail_before : option Z;
  fail_after : option Z;
  read_substitution : option bytes;
}.

(** [MemoryStorageIo::configured] and the constructors that use it *)
Definition configured (fail_before fail_after : option Z) (read_substitution : option bytes)
    : StorageState := {|
  next_file_id := 0; live_directory := ∅; durable_directory := ∅; files := ∅;
  operations := []; fail_before := fail_before; fail_after := fail_after;
  read_substitution := read_substitution |}.
Definition new : StorageState := configured None None None.
Definition with_fail_before (position : Z) : StorageState := configured (Some position) None None.
Definition with_fail_after (position : Z) : StorageState := configured None (Some position) None.
Definition with_read_substitution (b : bytes) : StorageState := configured None None (Some b).

(** Field updates. *)
Definition with_operations (s : StorageState) x : StorageState := {|
  next_file_id := next_file_id s; live_directory := live_directory s;
  durable_directory := durable_directory s; files := files s; operations := x;
  fail_before := fail_before s; fail_after := fail_after s;
  read_substitution := read_substitution s |}.
Definition with_files (s : StorageState) x : StorageState := {|
  next_file_id := next_file_id s; live_directory := live_directory s;
  durable_directory := durable_directory s; files := x; operations := operations s;
  fail_before := fail_before s; fail_after := fail_after s;
  read_substitution := read_substitution s |}.
Definition with_live_directory (s : StorageState) x : StorageState := {|
  next_file_id := next_file_id s; live_directory := x;
  durable_directory := durable_directory s; files := files s; operations := operations s;
  fail_before := fail_before s; fail_after := fail_after s;
  read_substitution := read_substitution s |}.
Definition with_durable_directory (s : StorageState) x : StorageState := {|
  next_file_id := next_file_id s; live_directory := live_directory s;
  durable_directory := x; files := files s; operations := operations s;
  fail_before := fail_before s; fail_after := fail_after s;
  read_substitution := read_substitution s |}.
Definition with_next_file_id (s : StorageState) x : StorageState := {|
  next_file_id := x; live_directory := live_directory s;
  durable_directory := durable_directory s; files := files s; operations := operations s;
  fail_before := fail_before s; fail_after := fail_after s;
  read_substitution := read_substitution s |}.
Definition with_faults (s : StorageState) (before after : option Z) : StorageState := {|
  next_file_id := next_file_id s; live_directory := live_directory s;
  durable_directory := durable_directory s; files := files s; operations := operations s;
  fail_before := before; fail_after := after;
  read_substitution := read_substitution s |}.

(** [StorageState::begin]: the operation is logged even when it fails. *)
Definition begin (operation : StorageOperation) : io StorageState Z := λ s,
  let position := blen (operations s) in
  let s := with_operations s (operations s ++ [operation]) in
  (reject_if (bool_decide (fail_before s = Some position)) Interrupted;; Ok position, s).

(** [StorageState::finish] *)
Definition finish (position : Z) : io StorageState () := λ s,
  (reject_if (bool_decide (fail_after s = Some position)) Interrupted, s).

(** [StorageState::allocate_file_id] *)
Definition allocate_file_id : io StorageState Z := λ s,
  match checked_add u64_max (next_file_id s) 1 with
  | Some id => (Ok id, with_next_file_id s id)
  | None => (Err Other, s)
  end.

(** [StorageState::file_id] and the inode lookup that follows it *)
Definition file_id (name : string) : io StorageState Z := λ s,
  (ok_or (live_directory s !! name) NotFound, s).
Definition get_file (id : Z) : io StorageState MemoryFile := λ s,
  (ok_or (files s !! id) NotFound, s).
Definition put_file (id : Z) (f : MemoryFile) : io StorageState () := λ s,
  (Ok (), with_files s (<[id := f]> (files s))).

(** [fn validate_name] *)
Fixpoint contains_slash (name : string) : bool :=
  match name with
  | EmptyString => false
  | String c name => bool_decide (c = "/"%char) || contains_slash name
  end.
Definition validate_name (name : string) : outcome IoErrorKind () :=
  reject_if (bool_decide (name = EmptyString) || contains_slash name
             || bool_decide (name = "."%string) || bool_decide (name = ".."%string)) InvalidInput.

Definition mem_create_new (name : string) : io StorageState () :=
  position ← begin CreateNew;
  pure (validate_name name);;
  s ← get_state;
  pure (reject_if (bool_decide (is_Some (live_directory s !! name))) AlreadyExists);;
  file_id ← allocate_file_id;
  put_file file_id MemoryFile_default;;
  s ← get_state;
  set_state (with_live_directory s (<[name := file_id]> (live_directory s)));;
  finish position.

Definition mem_exists (name : string) : io StorageState bool :=
  position ← begin Exists;
  pure (validate_name name);;
  s ← get_state;
  let exists_ := bool_decide (is_Some (live_directory s !! name)) in
  finish position;;
  mret exists_.

Definition mem_write_at (name : string) (offset : Z) (b : bytes) : io StorageState () :=
  position ← begin WriteAt;
  pure (validate_name name);;
  offset ← pure (ok_or (try_from_u usize_max offset) InvalidInput);
  end_ ← pure (ok_or (checked_add usize_max offset (blen b)) InvalidInput);
  id ← file_id name;
  file ← get_file id;
  let content := if blen (live file) <? end_ then resized (live file) end_ else live file in
  content ← pure (put content offset b);
  put_file id {| live := content; durable := durable file |};;
  finish position.

Definition mem_read (name : string) : io StorageState bytes :=
  position ← begin Read;
  pure (validate_name name);;
  id ← file_id name;
  s ← get_state;
  b ← match read_substitution s with
      | Some substitution => mret substitution
      | None => file ← get_file id; mret (live file)
      end;
  finish position;;
  mret b.

Definition mem_object_len (name : string) : io StorageState Z :=
  position ← begin ObjectLen;
  pure (validate_name name);;
  id ← file_id name;
  file ← get_file id;
  finish position;;
  pure (ok_or (try_from_u u64_max (blen (live file))) Other).

Definition mem_read_exact_at (name : string) (offset length : Z) : io StorageState bytes :=
  position ← begin ReadExactAt;
  pure (validate_name name);;
  pure (reject_if (MAX_STORAGE_RANGE_BYTES <? length) InvalidInput);;
  offset ← pure (ok_or (try_from_u usize_max offset) InvalidInput);
  end_ ← pure (ok_or (checked_add usize_max offset length) InvalidInput);
  id ← file_id name;
  s ← get_state;
  source ← match read_substitution s with
           | Some substitution => mret substitution
           | None => file ← get_file id; mret (live file)
           end;
  b ← pure (if end_ <=? blen source then Ok (sub source offset length) else Err UnexpectedEof);
  finish position;;
  mret b.

Definition mem_list_names : io StorageState (list string) :=
  position ← begin ListNames;
  s ← get_state;
  finish position;;
  mret (merge_sort String.le (map_to_list (live_directory s)).*1).

Definition mem_set_len (name : string) (length : Z) : io StorageState () :=
  position ← begin SetLen;
  pure (validate_name name);;
  length ← pure (ok_or (try_from_u usize_max length) InvalidInput);
  id ← file_id name;
  file ← get_file id;
  put_file id {| live := resized (live file) length; durable := durable file |};;
  finish position.

Definition mem_sync_file (name : string) : io StorageState () :=
  position ← begin SyncFile;
  pure (validate_name name);;
  id ← file_id name;
  file ← get_file id;
  put_file id {| live := live file; durable := live file |};;
  finish position.

Definition mem_publish_noreplace (temporary_name published_name : string) : io StorageState () :=
  position ← begin PublishNoreplace;
  pure (validate_name temporary_name);;
  pure (validate_name published_name);;
  s ← get_state;
  pure (reject_if (bool_decide (is_Some (live_directory s !! published_name))) AlreadyExists);;
  id ← file_id temporary_name;
  set_state (with_live_directory s
    (<[published_name := id]> (delete temporary_name (live_directory s))));;
  finish position.

Definition mem_remove_file (name : string) : io StorageState () :=
  position ← begin RemoveFile;
  pure (validate_name name);;
  s ← get_state;
  set_state (with_live_directory s (delete name (live_directory s)));;
  pure (reject_if (bool_decide (live_directory s !! name = None)) NotFound);;
  finish position.

Definition mem_sync_root : io StorageState () :=
  position ← begin SyncRoot;
  s ← get_state;
  set_state (with_durable_directory s (live_directory s));;
  finish position.

(** [MemoryStorageIo::crash] *)
Definition crash (s : StorageState) : StorageState :=
  let s := with_live_directory s (durable_directory s) in
  let durable_files := (map_to_list (durable_directory s)).*2 in
  let retained := filter (λ kv, kv.1 ∈ durable_files) (files s) in
  with_files s ((λ file, {| live := durable file; durable := durable file |}) <$> retained).

(** [MemoryStorageIo::inject_durable_torn_write] *)
Definition inject_durable_torn_write (name : string) (retained_prefix_bytes : Z)
    : io StorageState () :=
  pure (validate_name name);;
  s ← get_state;
  id ← pure (ok_or (durable_directory s !! name) NotFound);
  file ← get_file id;
  pure (reject_if (blen (durable file) <=? retained_prefix_bytes) InvalidInput);;
  put_file id {| live := live file; durable := sub (durable file) 0 retained_prefix_bytes |}.

(** [MemoryStorageIo::clear_faults] and [arm_failpoint] *)
Definition clear_faults (s : StorageState) : StorageState := with_faults s None None.
Definition arm_failpoint (s : StorageState) (after : bool) (position : Z) : StorageState :=
  with_faults s (if after then None else Some position) (if after then Some position else None).

#[global] Instance ops : StorageIo StorageState := {|
  create_new := mem_create_new; exists_ := mem_exists; write_at := mem_write_at;
  read := mem_read; object_len := mem_object_len; read_exact_at := mem_read_exact_at;
  list_names := mem_list_names; set_len := mem_set_len; sync_file := mem_sync_file;
  publish_noreplace := mem_publish_noreplace; remove_file := mem_remove_file;
  sync_root := mem_sync_root |}.

(** ** The laws hold *)

Definition valid_name (n : string) : Prop := validate_name n = Ok ().

Definition mem_holds (s : StorageState) (n : string) (v : option view) : Prop :=
  valid_name n ∧
  match v with
  | None => live_directory s !! n = None ∧ durable_directory s !! n = None
  | Some v => ∃ i,
      live_directory s !! n = Some i ∧
      files s !! i = Some {| live := live_content v; durable := durable_content v |} ∧
      durable_directory s !! n = (if linked v then Some i else None) ∧
      ∀ n', live_directory s !! n' = Some i ∨ durable_directory s !! n' = Some i → n' = n
  end.

(** Directories refer to allocated files; reads are not substituted. *)
Record mem_wf (s : StorageState) : Prop := {
  wf_live : ∀ n i, live_directory s !! n = Some i → is_Some (files s !! i);
  wf_durable : ∀ n i, durable_directory s !! n = Some i → is_Some (files s !! i);
  wf_files : ∀ i, is_Some (files s !! i) → i ≤ next_file_id s;
  wf_reads : read_substitution s = None;
}.

#[global] Instance views : StorageView StorageState := {|
  wf := mem_wf;
  healthy s := fail_before s = None ∧ fail_after s = None;
  holds := mem_holds;
  restart s := clear_faults (crash s) |}.

(** A change of one file keeps the invariant and the other names. *)
Lemma mem_wf_files s i f :
  mem_wf s → is_Some (files s !! i) → mem_wf (with_files s (<[i := f]> (files s))).
Proof.
  intros [Hl Hd Hf Hr] Hi. split; simpl; try done.
  - intros n j Hj. destruct (decide (i = j)) as [->|]; simplify_map_eq; eauto.
  - intros n j Hj. destruct (decide (i = j)) as [->|]; simplify_map_eq; eauto.
  - intros j. destruct (decide (i = j)) as [->|]; simplify_map_eq; eauto.
Qed.
Lemma mem_wf_operations s x : mem_wf s → mem_wf (with_operations s x).
Proof. by intros []. Qed.
Lemma mem_holds_files s n n' i v f w :
  mem_holds s n (Some v) → live_directory s !! n = Some i → n' ≠ n →
  mem_holds s n' w → mem_holds (with_files s (<[i := f]> (files s))) n' w.
Proof.
  intros (_&j&Hj&_&_&Huniq) Hi Hne [Hv Hw]. assert (j = i) as -> by congruence. split; [done|].
  destruct w as [w|]; [|done]. destruct Hw as (k&?&?&?&?). exists k.
  assert (k ≠ i) by naive_solver. simpl. by simplify_map_eq.
Qed.

(** What a call between [begin] and [finish] does to the log of operations is
    invisible to the views. *)
Lemma mem_holds_operations s x n v : mem_holds (with_operations s x) n v ↔ mem_holds s n v.
Proof. done. Qed.

(** An operation's whole effect [f], between the two injection points. *)
Definition bracketed {A} (s : StorageState) (op : StorageOperation) (a : A)
    (f : StorageState → StorageState) : outcome IoErrorKind A * StorageState :=
  let position := blen (operations s) in
  let s0 := with_operations s (operations s ++ [op]) in
  if bool_decide (fail_before s = Some position) then (Err Interrupted, s0)
  else (if bool_decide (fail_after s = Some position) then Err Interrupted else Ok a, f s0).

Lemma bracketed_effect {A} (m : io StorageState A) s n v v' a op f :
  m s = bracketed s op a f → wf s → holds s n v →
  (∀ s0, s0 = with_operations s (operations s ++ [op]) →
    keeps s0 (f s0) (.≠ n) ∧ holds (f s0) n v') →
  effect m s n v v' a.
Proof.
  intros Hm Hwf Hv Hf. unfold effect, run. rewrite Hm. unfold bracketed.
  destruct (Hf _ eq_refl) as [(Hw&Hh&Ho) Hv']. cbv zeta. set (s0 := with_operations _ _) in *.
  case_bool_decide; [|case_bool_decide]; simpl.
  - split; [split_and!; [by apply mem_wf_operations|done|done]|]. right.
    exists Interrupted. split_and!; [done|done|by intros [? _]; simplify_eq|by left].
  - split; [done|]. right.
    exists Interrupted. split_and!; [done|done|by intros [_ ?]; simplify_eq|by right].
  - split; [done|]. by left.
Qed.

(** Evaluates an operation on a name whose entry and file are known. *)
Ltac mem_eval :=
  simpl; unfold bracketed, mem_create_new, mem_exists, mem_write_at, mem_read, mem_object_len,
    mem_read_exact_at, mem_set_len, mem_sync_file, mem_sync_root, mbind, prog_bind, mret, prog_ret,
    pure, begin, finish, file_id, get_file, put_file, get_state, set_state; simpl;
  repeat (first [ case_bool_decide
                | match goal with H : ?x = _ |- context [?x] => rewrite H end
                | rewrite try_from_u_ok by done
                | rewrite checked_add_ok by done ]; simpl);
  try done.

Section Laws.
Context (s : StorageState) (n : string) (c d : bytes) (l : bool).
Hypothesis Hwf : wf s.
Hypothesis Hv : holds s n (Some (View c d l)).

(** An update of the file behind [n]. *)
Lemma mem_update_effect (m : io StorageState ()) op c' d' :
  (∀ i, valid_name n → live_directory s !! n = Some i →
    files s !! i = Some {| live := c; durable := d |} →
    m s = bracketed s op () (λ s0, with_files s0 (<[i := {| live := c'; durable := d' |}]> (files s0)))) →
  effect m s n (Some (View c d l)) (Some (View c' d' l)) ().
Proof.
  intros Hm. destruct (Hv) as (Hn&i&Hl&Hf&Hd&Hu). simpl in *.
  eapply bracketed_effect; [by apply (Hm i)|done|done|]. intros s0 ->.
  split; [split_and!|].
  - apply (mem_wf_files (with_operations s _)); [by apply mem_wf_operations|by eexists].
  - done.
  - intros n' w Hne Hw.
    by apply (mem_holds_files (with_operations s _) n n' i (View c d l)).
  - split; [done|]. exists i. simpl. by simplify_map_eq.
Qed.

(** A read of the file behind [n]. *)
Lemma mem_read_effect {A} (m : io StorageState A) op a :
  (∀ i, valid_name n → live_directory s !! n = Some i →
    files s !! i = Some {| live := c; durable := d |} → read_substitution s = None →
    m s = bracketed s op a id) →
  effect m s n (Some (View c d l)) (Some (View c d l)) a.
Proof.
  intros Hm. destruct (Hv) as (Hn&i&Hl&Hf&Hd&Hu). simpl in *.
  eapply bracketed_effect; [by apply (Hm i), wf_reads|done|done|]. intros s0 ->.
  split; [split_and!|done]; [by apply mem_wf_operations|done..].
Qed.

Lemma mem_sync_file_law :
  effect (sync_file n) s n (Some (View c d l)) (Some (View c c l)) ().
Proof. eapply (mem_update_effect _ SyncFile). unfold valid_name. intros. mem_eval. Qed.
Lemma mem_set_len_law k :
  0 ≤ k ≤ usize_max →
  effect (set_len n k) s n (Some (View c d l)) (Some (View (resized c k) d l)) ().
Proof. intros [??]. eapply (mem_update_effect _ SetLen). unfold valid_name. intros. mem_eval. Qed.
Lemma mem_read_law : effect (read n) s n (Some (View c d l)) (Some (View c d l)) c.
Proof. eapply (mem_read_effect _ Read). unfold valid_name. intros. mem_eval. Qed.
Lemma mem_object_len_law :
  blen c ≤ u64_max →
  effect (object_len n) s n (Some (View c d l)) (Some (View c d l)) (blen c).
Proof. intros. eapply (mem_read_effect _ ObjectLen). unfold valid_name. intros. mem_eval. Qed.
Lemma mem_read_exact_at_law o k :
  0 ≤ o → 0 ≤ k → k ≤ MAX_STORAGE_RANGE_BYTES → o + k ≤ blen c → o + k ≤ usize_max →
  effect (read_exact_at n o k) s n (Some (View c d l)) (Some (View c d l)) (sub c o k).
Proof.
  intros ?? Hk Hc ?. assert (o ≤ usize_max) by lia.
  apply Z.ltb_ge in Hk. apply Z.leb_le in Hc.
  eapply (mem_read_effect _ ReadExactAt). unfold valid_name. intros. mem_eval.
Qed.
Lemma mem_write_at_law o b :
  0 ≤ o → o + blen b ≤ usize_max →
  effect (write_at n o b) s n (Some (View c d l)) (Some (View (overwrite c o b) d l)) ().
Proof.
  intros. pose proof (blen_nonneg b). assert (o ≤ usize_max) by lia.
  assert (@put IoErrorKind _ (if blen c <? o + blen b then resized c (o + blen b) else c) o b
          = Ok (overwrite c o b)) as Hput.
  { unfold overwrite. apply put_in; [done|]. case_match; zbool; rewrite ?blen_resized by lia; lia. }
  eapply (mem_update_effect _ WriteAt). unfold valid_name. intros. mem_eval.
Qed.
End Laws.

Lemma mem_exists_law s n v :
  wf s → holds s n v → effect (exists_ n) s n v v (bool_decide (v ≠ None)).
Proof.
  intros Hwf Hv. apply (bracketed_effect _ s n v v _ Exists id); [|done|done|].
  - destruct (Hv) as (Hn&Hs). unfold valid_name in Hn.
    assert (bool_decide (is_Some (live_directory s !! n)) = bool_decide (v ≠ None)) as Hb.
    { apply bool_decide_ext. destruct v as [v|].
      - destruct Hs as (i&->&_). split; [done|by eexists].
      - destruct Hs as [-> _]. split; [by intros []|done]. }
    simpl. unfold mem_exists, bracketed, mbind, prog_bind, pure, begin, get_state, finish. simpl.
    rewrite Hn, Hb. by repeat (case_bool_decide; simpl).
  - intros s0 ->. split; [split_and!|done]; [by apply mem_wf_operations|done..].
Qed.

Lemma mem_absent_law s n :
  wf s → holds s n None →
  run (object_len n) s (λ r s', keeps s s' (λ _, True) ∧
    (r = Err NotFound ∨ ∃ e, r = Err e ∧ ¬ healthy s)).
Proof.
  intros Hwf (Hn&Hl&_). unfold valid_name in Hn.
  unfold run. simpl. unfold mem_object_len, mbind, prog_bind, pure, begin, finish, file_id. simpl.
  case_bool_decide; simpl; [|rewrite Hn; simpl; rewrite Hl; simpl].
  all: split; [split_and!; [by apply mem_wf_operations|done|done]|].
  - right. exists Interrupted. split; [done|]. by intros [? _]; simplify_eq.
  - by left.
Qed.

Lemma mem_create_new_law s n :
  wf s → holds s n None →
  run (create_new n) s (λ r s', keeps s s' (.≠ n) ∧
    ((r = Ok () ∧ holds s' n (Some (View [] [] false))) ∨
     (∃ e, r = Err e ∧ (holds s' n None ∨ holds s' n (Some (View [] [] false)))))).
Proof.
  intros Hwf (Hn&Hl&Hd). unfold valid_name in Hn. destruct (Hwf) as [Hwl Hwd Hwi Hwr].
  unfold run. simpl. unfold mem_create_new, mbind, prog_bind, pure, begin, finish, get_state, set_state,
    put_file, allocate_file_id. simpl.
  case_bool_decide; simpl.
  { split; [split_and!; [by apply mem_wf_operations|done|done]|]. right. exists Interrupted.
    split; [done|]. by left. }
  rewrite Hn. simpl. rewrite Hl. simpl.
  destruct (checked_add u64_max (next_file_id s) 1) as [j|] eqn:Hj; simpl.
  2: { split; [split_and!; [by apply mem_wf_operations|done|done]|]. right. exists Other.
       split; [done|]. by left. }
  apply checked_add_Some in Hj as [Hj _].
  assert (Hfresh : ∀ i, is_Some (files s !! i) → i ≠ j) by (intros i Hi%Hwi; lia).
  set (s' := with_live_directory _ _).
  assert (Hkeep : keeps s s' (.≠ n)).
  { split_and!; [split; simpl|done|].
    - intros n' i. destruct (decide (n = n')) as [<-|Hne].
      + rewrite lookup_insert_eq. intros [= <-]. rewrite lookup_insert_eq. by eexists.
      + rewrite lookup_insert_ne by done. intros Hi.
        rewrite lookup_insert_ne by (symmetry; eauto). eauto.
    - intros n' i Hi. rewrite lookup_insert_ne by (symmetry; eauto). eauto.
    - intros i. destruct (decide (j = i)) as [<-|Hne]; [done|].
      rewrite lookup_insert_ne by done. intros Hi%Hwi. lia.
    - done.
    - intros n' w Hne [Hn' Hw]. split; [done|]. destruct w as [w|]; simpl in *.
      2: by rewrite lookup_insert_ne.
      destruct Hw as (i&Hi&Hf&Hdi&Hu). exists i.
      rewrite !lookup_insert_ne by (symmetry; eauto || done).
      split_and!; [done..|]. intros n''. destruct (decide (n = n'')) as [<-|].
      + rewrite lookup_insert_eq. intros [[= ->]|?]; [|auto]. exfalso. by eapply (Hfresh i); eauto.
      + rewrite lookup_insert_ne by done. auto. }
  assert (Hnew : holds s' n (Some (View [] [] false))).
  { split; [done|]. exists j. simpl. rewrite !lookup_insert_eq. split_and!; [done..|].
    intros n'. destruct (decide (n = n')) as [<-|]; [done|]. rewrite lookup_insert_ne by done.
    intros [Hi|Hi]; exfalso; eapply (Hfresh j); eauto. }
  split; [done|]. case_bool_decide; simpl; [right; exists Interrupted; auto|by left].
Qed.

Lemma mem_sync_root_law s :
  wf s →
  run sync_root s (λ r s', keeps s s' (λ _, False) ∧
    (r = Ok () ∨ ∃ e, r = Err e ∧ ¬ healthy s) ∧
    ((r ≠ Ok () ∧ ∀ n w, holds s n w → holds s' n w) ∨
     ((∀ n c d l, holds s n (Some (View c d l)) → holds s' n (Some (View c d true))) ∧
      (∀ n, holds s n None → holds s' n None)))).
Proof.
  intros Hwf. unfold run. simpl.
  unfold mem_sync_root, mbind, prog_bind, begin, finish, get_state, set_state. simpl.
  case_bool_decide; simpl.
  { split_and!; [split_and!; [by apply mem_wf_operations|done|done]| |by left].
    right. exists Interrupted. split; [done|]. by intros [? _]; simplify_eq. }
  split_and!.
  - split_and!; [|done|done]. destruct Hwf as [Hl Hd Hf Hr]. by split.
  - case_bool_decide; simpl; [right; exists Interrupted|by left].
    split; [done|]. by intros [_ ?]; simplify_eq.
  - right. split.
    + intros n c d l (Hn&i&Hl&Hf&Hd&Hu). split; [done|]. exists i. simpl. naive_solver.
    + intros n (Hn&Hl&Hd). by split.
Qed.

Lemma mem_list_names_law s :
  wf s →
  run list_names s (λ r s', keeps s s' (λ _, True) ∧
    ((∃ names, r = Ok names) ∨ ∃ e, r = Err e ∧ ¬ healthy s)).
Proof.
  intros Hwf. unfold run. simpl. unfold mem_list_names, mbind, prog_bind, begin, finish, get_state. simpl.
  repeat (case_bool_decide; simpl).
  all: split; [split_and!; [by apply mem_wf_operations|done|done]|].
  - right. exists Interrupted. split; [done|]. by intros [? _]; simplify_eq.
  - right. exists Interrupted. split; [done|]. by intros [_ ?]; simplify_eq.
  - left. by eexists.
Qed.

Lemma mem_restart_law s :
  wf s →
  wf (restart s) ∧ healthy (restart s) ∧
  (∀ n c d, holds s n (Some (View c d true)) → holds (restart s) n (Some (View d d true))) ∧
  (∀ n c d, holds s n (Some (View c d false)) → holds (restart s) n None) ∧
  (∀ n, holds s n None → holds (restart s) n None).
Proof.
  intros [Hl Hd Hf Hr]. simpl.
  assert (Hin : ∀ n i, durable_directory s !! n = Some i → i ∈ (map_to_list (durable_directory s)).*2).
  { intros n i Hi. apply list_elem_of_fmap. exists (n, i). by rewrite elem_of_map_to_list. }
  assert (Hfile : ∀ n i f, durable_directory s !! n = Some i → files s !! i = Some f →
    files (clear_faults (crash s)) !! i = Some {| live := durable f; durable := durable f |}).
  { intros n i f Hi Hfi. unfold crash. simpl. rewrite lookup_fmap.
    rewrite (map_lookup_filter_Some_2 _ _ i f); [done|done|]. simpl. eauto. }
  split_and!.
  - split; simpl.
    + intros n i Hi. destruct (Hd n i Hi) as [f Hfi]. eexists. by eapply Hfile.
    + intros n i Hi. destruct (Hd n i Hi) as [f Hfi]. eexists. by eapply Hfile.
    + intros i [f Hfi]. rewrite lookup_fmap in Hfi. apply fmap_Some in Hfi as (g&Hg&_).
      apply map_lookup_filter_Some in Hg as [? _]. eauto.
    + done.
  - done.
  - done.
  - intros n c d (Hn&i&Hli&Hfi&Hdi&Hu). split; [done|]. simpl in *. exists i.
    split_and!; [done|by apply (Hfile n i _ Hdi Hfi)|done|]. intros n' [?|?]; auto.
  - intros n c d (Hn&i&Hli&Hfi&Hdi&Hu). by split.
  - intros n (Hn&_&?). by split.
Qed.

#[global] Instance laws : StorageLaws StorageState.
Proof.
  split.
  - intros s n v w [_ Hv] [_ Hw]. destruct v as [[c d l]|], w as [[c' d' l']|]; simpl in *; [|naive_solver..].
    destruct Hv as (i&?&?&?&_), Hw as (j&?&?&?&_). destruct l, l'; naive_solver.
  - intros. by apply mem_write_at_law.
  - intros. by apply mem_set_len_law.
  - intros. by apply mem_read_law.
  - intros. by apply mem_object_len_law.
  - intros. by apply mem_read_exact_at_law.
  - intros. by apply mem_exists_law.
  - intros. by apply mem_sync_file_law.
  - apply mem_absent_law.
  - apply mem_create_new_law.
  - apply mem_sync_root_law.
  - apply mem_list_names_law.
  - apply mem_restart_law.
Qed.

(** The empty storage. *)
Lemma new_facts : wf new ∧ healthy new ∧ ∀ n, valid_name n → holds new n None.
Proof.
  split_and!; [split|done..|]; simpl; try done.
  intros i [f Hf]. by rewrite lookup_empty in Hf.
Qed.

(** A storage with two durable files. *)
Definition two_files (n0 n1 : string) (f0 f1 : MemoryFile) : StorageState := {|
  next_file_id := 2;
  live_directory := <[n0 := 1]> {[n1 := 2]};
  durable_directory := <[n0 := 1]> {[n1 := 2]};
  files := <[1 := f0]> {[2 := f1]};
  operations := []; fail_before := None; fail_after := None; read_substitution := None |}.
Lemma two_files_facts n0 n1 f0 f1 :
  n0 ≠ n1 → valid_name n0 → valid_name n1 →
  let s := two_files n0 n1 f0 f1 in
  wf s ∧ healthy s ∧ holds s n0 (Some (View (live f0) (durable f0) true)) ∧
  holds s n1 (Some (View (live f1) (durable f1) true)).
Proof.
  intros Hn Hv0 Hv1. simpl. split_and!; [split; simpl|done|done| |].
  - intros n i [[_ <-]|[_ [_ <-]%lookup_singleton_Some]]%lookup_insert_Some; simplify_map_eq; by eexists.
  - intros n i [[_ <-]|[_ [_ <-]%lookup_singleton_Some]]%lookup_insert_Some; simplify_map_eq; by eexists.
  - intros i [f [[<- _]|[_ [<- _]%lookup_singleton_Some]]%lookup_insert_Some]; lia.
  - done.
  - split; [done|]. exists 1. simpl. rewrite !lookup_insert_eq.
    split_and!; [done|by destruct f0|done|].
    intros n' Hn'. assert (Hl := match Hn' with or_introl h | or_intror h => h end).
    apply lookup_insert_Some in Hl as [[<- _]|[_ [_ ?]%lookup_singleton_Some]]; done.
  - split; [done|]. exists 2. simpl. rewrite !lookup_insert_ne, !lookup_singleton_eq by done.
    split_and!; [done|by destruct f1|done|].
    intros n' Hn'. assert (Hl := match Hn' with or_introl h | or_intror h => h end).
    apply lookup_insert_Some in Hl as [[_ ?]|[_ [<- _]%lookup_singleton_Some]]; done.
Qed.
End Memory.
