(* ===== verification/GenerationLog.v ===== *)
(** * The generation log ([fastdup-store/src/generation_log.rs])

    The namespace commit chain lives in two fixed slots of at most 64 records.
    An append extends the active slot; at the bound it writes the last record
    (the bridge) and the new one into the other slot.  The synchronization of
    the written slot is the commit point.  Loading decodes both slots and
    selects the current one.

    The operations are stated for any [StorageIo].  Reservations of memory
    ([try_reserve_exact]) succeed in the model, so [OutOfMemory] is absent. *)
From S2P Require Import Storage Layout Metadata Commit.

Module GenerationLog.
Import Commit.

Definition SLOT_NAMES : list string := ["commit.wal"; "commit.1.wal"]%string.
Definition MAX_SEGMENT_RECORDS : Z := 64.
Definition MAX_SEGMENT_BYTES : Z := MAX_SEGMENT_RECORDS * COMMIT_RECORD_BYTES.

Inductive LogTail :=
  | Clean
  | Torn (valid_bytes tail_bytes : Z)
  | InvalidRecord (offset : Z)
  | BrokenChain (offset : Z).
#[export] Instance LogTail_eq_dec : EqDecision LogTail.
Proof. solve_decision. Defined.

Inductive GenerationLogError :=
  | Io (e : IoErrorKind)
  | SegmentTooLarge
  | BrokenGenerationChain
  | DivergentSlots
  | NeedsRepair (t : LogTail)
  | EmptyAfterInitialization
  | AlreadyInitialized
  | PublishVerificationMismatch.

#[export] Instance GenerationLogError_eq_dec : EqDecision GenerationLogError.
Proof. solve_decision. Defined.

Record LogSnapshot := {
  active_slot : Z;
  snapshot_bytes : bytes;
  records : list CommitRecord;
  tail : LogTail;
}.

(** [LogSnapshot]'s methods *)
Definition empty (active_slot : Z) : LogSnapshot :=
  {| active_slot := active_slot; snapshot_bytes := []; records := []; tail := Clean |}.
Definition last_record (s : LogSnapshot) : option CommitRecord := list.last (records s).
Definition record_count (s : LogSnapshot) : Z := blen (records s).
Definition first_encoded (s : LogSnapshot) : outcome GenerationLogError (option bytes) :=
  if bool_decide (records s = []) then Ok None
  else b ← index_range (snapshot_bytes s) 0 COMMIT_RECORD_BYTES; Ok (Some b).
Definition last_encoded (s : LogSnapshot) : outcome GenerationLogError (option bytes) :=
  if bool_decide (records s = []) then Ok None
  else start ← sub_or_panic (blen (snapshot_bytes s)) COMMIT_RECORD_BYTES;
       b ← index_from (snapshot_bytes s) start; Ok (Some b).
Definition last_hash `{Blake3} (s : LogSnapshot) : outcome GenerationLogError (option CommitRecordHash) :=
  e ← last_encoded s; Ok (option_map CommitRecordHash_of e).
Definition will_rotate (s : LogSnapshot) : bool := MAX_SEGMENT_RECORDS <=? record_count s.
Definition advanced (s : LogSnapshot) (target_slot : Z) (rotating : bool) (record : CommitRecord)
    (b : bytes) : outcome GenerationLogError LogSnapshot :=
  records ← if rotating then l ← expect (last_record s); Ok [l] else Ok (records s);
  Ok {| active_slot := target_slot; snapshot_bytes := b; records := records ++ [record];
        tail := Clean |}.

(** [previous] and [record] do not follow each other: the test shared by the
    decoder and the writer on the fields that only grow. *)
Definition regresses (previous record : CommitRecord) : bool :=
  (record.(namespace_mutation_cutoff) <? previous.(namespace_mutation_cutoff))
  || (record.(inode_reservation_end) <? previous.(inode_reservation_end))
  || (record.(inode_allocation_cursor) <? previous.(inode_allocation_cursor)).

(** The link test of the loop of [fn decode_segment]. *)
Definition broken_link (previous_record : option CommitRecord)
    (previous_encoded_hash : option CommitRecordHash) (record : CommitRecord)
    : outcome GenerationLogError bool :=
  match previous_record with
  | None => Ok false
  | Some previous =>
      expected_generation ←
        ok_or (checked_add u64_max previous.(generation) 1) BrokenGenerationChain;
      expected_hash ← expect previous_encoded_hash;
      Ok (negb (record.(generation) =? expected_generation)
          || negb (bool_decide (record.(previous_record_hash) = expected_hash))
          || regresses previous record)
  end.

(** The loop of [fn decode_segment]; [inl] is its early return. *)
Fixpoint decode_loop `{Crc32c, Blake3} (slot : Z) (b : bytes) (offset : Z) (count : nat)
    (records : list CommitRecord) (previous_record : option CommitRecord)
    (previous_encoded_hash : option CommitRecordHash)
    : outcome GenerationLogError (LogSnapshot + list CommitRecord) :=
  match count with
  | O => Ok (inr records)
  | S count =>
      encoded ← index_range b offset (offset + COMMIT_RECORD_BYTES);
      let stop t := Ok (inl {| active_slot := slot; snapshot_bytes := sub b 0 offset;
                               records := records; tail := t |}) in
      match Commit.decode encoded with
      | Panic => Panic
      | Err _ => stop (InvalidRecord offset)
      | Ok record =>
          broken ← broken_link previous_record previous_encoded_hash record;
          if broken : bool then stop (BrokenChain offset)
          else decode_loop slot b (offset + COMMIT_RECORD_BYTES) count (records ++ [record])
                 (Some record) (Some (CommitRecordHash_of encoded))
      end
  end.

(** [fn decode_segment] *)
Definition decode_segment `{Crc32c, Blake3} (slot : Z) (b : bytes)
    : outcome GenerationLogError LogSnapshot :=
  let complete_bytes := blen b `div` COMMIT_RECORD_BYTES * COMMIT_RECORD_BYTES in
  r ← decode_loop slot b 0 (Z.to_nat (complete_bytes `div` COMMIT_RECORD_BYTES)) [] None None;
  match r with
  | inl snapshot => Ok snapshot
  | inr records =>
      let tail_bytes := blen b - complete_bytes in
      Ok {| active_slot := slot; snapshot_bytes := sub b 0 complete_bytes; records := records;
            tail := if tail_bytes =? 0 then Clean else Torn complete_bytes tail_bytes |}
  end.

(** The two-segment case of [fn select_current]. *)
Definition select_of_two (left right : LogSnapshot) : outcome GenerationLogError LogSnapshot :=
  left_last ← expect (last_record left);
  right_last ← expect (last_record right);
  if left_last.(generation) =? right_last.(generation) then
    left_encoded ← last_encoded left;
    right_encoded ← last_encoded right;
    reject_if (negb (bool_decide (left_encoded = right_encoded))) DivergentSlots;;
    if negb (record_count left =? record_count right) then
      Ok (if record_count right <? record_count left then left else right)
    else
      reject_if (negb (bool_decide (snapshot_bytes left = snapshot_bytes right))) DivergentSlots;;
      Ok (if bool_decide (tail left = Clean) then left else right)
  else
    let '(older, newer) :=
      if left_last.(generation) <? right_last.(generation) then (left, right) else (right, left) in
    newer_first ← first_encoded newer;
    older_last ← last_encoded older;
    reject_if (negb (bool_decide (newer_first = older_last))) DivergentSlots;;
    Ok newer.

(** [fn select_current] *)
Definition select_current (segments : list LogSnapshot)
    : outcome GenerationLogError (option LogSnapshot) :=
  reject_if (existsb (λ segment, bool_decide (records segment = [])
                                 && negb (bool_decide (tail segment = Clean))) segments)
    BrokenGenerationChain;;
  match List.filter (λ segment, negb (bool_decide (records segment = []))) segments with
  | [] => Ok None
  | [segment] => Ok (Some segment)
  | [segment0; segment1] => Some <$> select_of_two segment0 segment1
  | _ => Panic
  end.

(** [fn verify_successor] *)
Definition verify_successor `{Blake3} (snapshot : LogSnapshot) (record : CommitRecord)
    : outcome GenerationLogError () :=
  match last_record snapshot with
  | None =>
      if (record.(generation) =? 1)
         && bool_decide (record.(previous_record_hash) = CommitRecordHash_ZERO)
      then Ok () else Err BrokenGenerationChain
  | Some previous =>
      broken ← Ok (negb (bool_decide
                 (checked_add u64_max previous.(generation) 1 = Some record.(generation))))
        ||? (hash ← last_hash snapshot;
             Ok (negb (bool_decide (hash = Some record.(previous_record_hash)))))
        ||? Ok (regresses previous record);
      reject_if broken BrokenGenerationChain
  end.

Section Operations.
Context `{StorageIo St, Crc32c, Blake3}.
Abbreviation log := (prog St GenerationLogError).

(** A storage call, its error converted by [From<io::Error>]. *)
Definition call {A} (m : io St A) : log A := lift_err Io m.
Definition slot_name (slot : Z) : log string := pure (index_at SLOT_NAMES slot).

(** [GenerationLog::load], for one slot *)
Definition load_slot (slot : Z) (name : string) : log (option LogSnapshot) :=
  inspect (object_len name) (λ r,
    match r with
    | Err NotFound => mret None
    | Err e => pure (Err (Io e))
    | Panic => pure Panic
    | Ok length =>
        pure (reject_if (MAX_SEGMENT_BYTES <? length) SegmentTooLarge);;
        b ← call (read name);
        pure (reject_if (negb (bool_decide (try_from_u u64_max (blen b) = Some length)))
                PublishVerificationMismatch);;
        segment ← pure (decode_segment slot b);
        mret (Some segment)
    end).
Definition load : log (option LogSnapshot) :=
  name ← slot_name 0;
  left ← load_slot 0 name;
  name ← slot_name 1;
  right ← load_slot 1 name;
  pure (select_current (option_list left ++ option_list right)).

(** [GenerationLog::ensure_slots_exist] *)
Definition ensure_slot_exists (name : string) : log () :=
  present ← call (exists_ name);
  if present : bool then
    length ← call (object_len name);
    pure (reject_if (MAX_SEGMENT_BYTES <? length) SegmentTooLarge)
  else
    call (create_new name);;
    call (set_len name 0);;
    call (sync_file name).
Definition ensure_slots_exist : log () :=
  name ← slot_name 0;
  ensure_slot_exists name;;
  name ← slot_name 1;
  ensure_slot_exists name;;
  call sync_root.

Definition load_for_recovery : log (option LogSnapshot) := load.
Definition load_for_append : log LogSnapshot :=
  ensure_slots_exist;;
  snapshot ← load;
  mret (default (empty 0) snapshot).

(** The writes of [GenerationLog::append] into the target slot; the result is
    the range to verify. *)
Definition write_target (snapshot : LogSnapshot) (target_slot : Z) (target_name : string)
    (encoded_record expected : bytes) : log (Z * bytes) :=
  if target_slot =? active_slot snapshot then
    let offset := blen (snapshot_bytes snapshot) in
    offset64 ← pure (ok_or (try_from_u u64_max offset) SegmentTooLarge);
    call (write_at target_name offset64 encoded_record);;
    verify_bytes ← pure (index_from expected offset);
    mret (offset, verify_bytes)
  else
    call (set_len target_name 0);;
    bridge ← pure (index_range expected 0 COMMIT_RECORD_BYTES);
    call (write_at target_name 0 bridge);;
    rest ← pure (index_from expected COMMIT_RECORD_BYTES);
    call (write_at target_name COMMIT_RECORD_BYTES rest);;
    mret (0, expected).

(** [GenerationLog::append] *)
Definition append (snapshot : LogSnapshot) (record : CommitRecord) : log LogSnapshot :=
  pure (reject_if (negb (bool_decide (tail snapshot = Clean))) (NeedsRepair (tail snapshot)));;
  pure (verify_successor snapshot record);;
  encoded_record ← pure (Commit.encode record);
  let rotating := MAX_SEGMENT_RECORDS <=? record_count snapshot in
  '(target_slot, expected) ← pure (
    if rotating then
      e ← last_encoded snapshot;
      bridge ← ok_or e EmptyAfterInitialization;
      other ← sub_or_panic 1 (active_slot snapshot);
      Ok (other, bridge ++ encoded_record)
    else Ok (active_slot snapshot, snapshot_bytes snapshot ++ encoded_record));
  target_name ← slot_name target_slot;
  '(verify_offset, verify_bytes) ←
    write_target snapshot target_slot target_name encoded_record expected;
  length ← pure (ok_or (try_from_u u64_max (blen expected)) SegmentTooLarge);
  call (set_len target_name length);;
  offset ← pure (ok_or (try_from_u u64_max verify_offset) SegmentTooLarge);
  reread ← call (read_exact_at target_name offset (blen verify_bytes));
  pure (reject_if (negb (bool_decide (reread = verify_bytes))) PublishVerificationMismatch);;
  call (sync_file target_name);;
  pure (advanced snapshot target_slot rotating record expected).

(** [GenerationLog::install_recovery_anchor] *)
Definition install_recovery_anchor (record : CommitRecord) : log () :=
  ensure_slots_exist;;
  loaded ← load;
  match loaded with
  | Some snapshot =>
      encoded ← pure (Commit.encode record);
      if bool_decide (tail snapshot = Clean) && bool_decide (records snapshot = [record])
         && bool_decide (snapshot_bytes snapshot = encoded)
      then name ← slot_name (active_slot snapshot); call (sync_file name)
      else pure (Err AlreadyInitialized)
  | None =>
      encoded ← pure (Commit.encode record);
      name ← slot_name 0;
      call (set_len name 0);;
      call (write_at name 0 encoded);;
      length ← pure (ok_or (try_from_u u64_max (blen encoded)) SegmentTooLarge);
      call (set_len name length);;
      b ← call (read name);
      verified ← pure (decode_segment 0 b);
      pure (reject_if (negb (bool_decide (tail verified = Clean))
                       || negb (bool_decide (records verified = [record]))
                       || negb (bool_decide (snapshot_bytes verified = encoded)))
              PublishVerificationMismatch);;
      call (sync_file name)
  end.

(** [GenerationLog::repair_tail] *)
Definition repair_tail (expected : CommitRecord) : log () :=
  loaded ← load;
  snapshot ← pure (ok_or loaded EmptyAfterInitialization);
  pure (reject_if (negb (bool_decide (last_record snapshot = Some expected)))
          PublishVerificationMismatch);;
  if bool_decide (tail snapshot = Clean) then mret ()
  else
    name ← slot_name (active_slot snapshot);
    call (set_len name (blen (snapshot_bytes snapshot)));;
    b ← call (read name);
    verified ← pure (decode_segment (active_slot snapshot) b);
    pure (reject_if (negb (bool_decide (tail verified = Clean))
                     || negb (bool_decide (snapshot_bytes verified = snapshot_bytes snapshot)))
            PublishVerificationMismatch);;
    call (sync_file name).
End Operations.

(** ** Chains of records *)
Section Chain.
Context `{Crc32cLaws, Blake3Laws}.

(** The encoding of a record and of a run of records. *)
Definition enc (r : CommitRecord) : bytes := seal COMMIT_RECORD_BYTES (fields r) CHECKSUM_OFFSET.
Definition encs (rs : list CommitRecord) : bytes := mjoin (map enc rs).

(** [r] may follow [p] in the chain. *)
Definition follows (p r : CommitRecord) : Prop :=
  r.(generation) = p.(generation) + 1 ∧
  r.(previous_record_hash) = CommitRecordHash_of (enc p) ∧
  regresses p r = false.
Fixpoint chain_from (prev : option CommitRecord) (rs : list CommitRecord) : Prop :=
  match rs with
  | [] => True
  | r :: rs => Commit.wf r ∧ (∀ p, prev = Some p → follows p r) ∧ chain_from (Some r) rs
  end.
Definition chained (rs : list CommitRecord) : Prop := chain_from None rs.

Lemma enc_encode {E} r : Commit.wf r → @Commit.encode E _ r = Ok (enc r).
Proof. apply commit_encode_seal. Qed.
Lemma blen_enc r : Commit.wf r → blen (enc r) = 4096.
Proof. intros. apply blen_seal; try done. by apply commit_fits. Qed.
Lemma decode_enc r : Commit.wf r → Commit.decode (enc r) = Ok r.
Proof. intros. apply commit_decode_encode; [done|]. by apply enc_encode. Qed.
Lemma decode_enc_inv b r : Commit.decode b = Ok r → Commit.wf r ∧ b = enc r.
Proof.
  intros [Hwf He]%commit_decode_inv. split; [done|]. rewrite enc_encode in He by done. congruence.
Qed.
Lemma enc_inj r r' : Commit.wf r → Commit.wf r' → enc r = enc r' → r = r'.
Proof. intros Hr Hr' He. apply decode_enc in Hr, Hr'. rewrite He in Hr. congruence. Qed.

Lemma encs_nil : encs [] = [].
Proof. done. Qed.
Lemma encs_cons r rs : encs (r :: rs) = enc r ++ encs rs.
Proof. done. Qed.
Lemma encs_app rs rs' : encs (rs ++ rs') = encs rs ++ encs rs'.
Proof. unfold encs. by rewrite map_app, join_app. Qed.
Lemma encs_singleton r : encs [r] = enc r.
Proof. unfold encs. simpl. by rewrite app_nil_r. Qed.

Lemma chain_from_wf prev rs : chain_from prev rs → Forall Commit.wf rs.
Proof. revert prev. induction rs as [|r rs IH]; intros prev; simpl; [done|]. intros (?&_&?). eauto. Qed.
Lemma blen_encs rs : Forall Commit.wf rs → blen (encs rs) = 4096 * blen rs.
Proof.
  induction 1 as [|r rs Hr _ IH]; [done|]. rewrite encs_cons, blen_app, blen_cons, IH, blen_enc by done. lia.
Qed.
Lemma chain_from_app prev rs rs' :
  chain_from prev (rs ++ rs') ↔ chain_from prev rs ∧ chain_from (from_option Some prev (list.last rs)) rs'.
Proof.
  revert prev. induction rs as [|r rs IH]; intros prev; simpl; [tauto|].
  rewrite IH. destruct rs as [|r' rs]; simpl; [tauto|]. destruct (list.last (r' :: rs)) eqn:E; simpl; [tauto|].
  apply last_None in E. done.
Qed.
Lemma chain_from_weaken prev rs : chain_from prev rs → chained rs.
Proof. destruct rs; simpl; [done|]. unfold chained. simpl. naive_solver. Qed.
Lemma chained_snoc rs r :
  chained (rs ++ [r]) ↔ chained rs ∧ Commit.wf r ∧ ∀ p, list.last rs = Some p → follows p r.
Proof.
  unfold chained. rewrite chain_from_app. simpl.
  destruct (list.last rs); simpl; naive_solver.
Qed.

(** Generations grow along a chain. *)
Lemma chain_generation rs i p r :
  chained rs → rs !! 0%nat = Some p → rs !! i = Some r → r.(generation) = p.(generation) + Z.of_nat i.
Proof.
  unfold chained. generalize (@None CommitRecord). revert i p.
  induction rs as [|q rs IH]; intros i p prev Hc Hp Hr; [done|]. simplify_eq/=.
  destruct i as [|i]; simplify_eq/=; [lia|]. destruct rs as [|q rs]; [done|].
  destruct Hc as (_&_&Hc). rewrite (IH i q (Some p) Hc eq_refl Hr).
  destruct Hc as (_&Hf&_). destruct (Hf p eq_refl) as [-> _]. lia.
Qed.

(** ** Decoding a segment *)

Lemma follows_dec p r :
  Commit.wf r →
  negb (r.(generation) =? p.(generation) + 1)
    || negb (bool_decide (r.(previous_record_hash) = CommitRecordHash_of (enc p)))
    || regresses p r = false ↔ follows p r.
Proof.
  intros Hr. unfold follows. rewrite !orb_false_iff, !negb_false_iff, Z.eqb_eq, bool_decide_eq_true. tauto.
Qed.

(** The hash the decoder remembers for the previous record. *)
Abbreviation hash_of := (option_map (λ p, CommitRecordHash_of (enc p))).

Lemma broken_link_false prev r :
  Commit.wf r → (∀ p, prev = Some p → follows p r) → broken_link prev (hash_of prev) r = Ok false.
Proof.
  intros Hr Hf. destruct prev as [p|]; [|done]. specialize (Hf p eq_refl). destruct (Hf) as [Hg _].
  destruct (wf_generation r Hr). unfold broken_link. rewrite checked_add_ok by lia. simpl.
  f_equal. by apply follows_dec.
Qed.
Lemma broken_link_spec prev r broken :
  Commit.wf r → broken_link prev (hash_of prev) r = Ok broken →
  if broken then ∃ p, prev = Some p ∧ ¬ follows p r else ∀ p, prev = Some p → follows p r.
Proof.
  intros Hr. destruct prev as [p|]; [|by intros [= <-]]. unfold broken_link.
  destruct (checked_add u64_max (generation p) 1) eqn:Hg; simpl; [|done].
  apply checked_add_Some in Hg as [-> _]. intros [= Hs]. destruct broken.
  - exists p. split; [done|]. rewrite <-follows_dec by done. by rewrite Hs.
  - intros p' [= <-]. by apply follows_dec.
Qed.

Lemma decode_loop_chain slot b pre rs rest k acc prev :
  chain_from prev rs → b = pre ++ encs rs ++ rest →
  decode_loop slot b (blen pre) (length rs + k) acc prev (hash_of prev) =
  let last := from_option Some prev (list.last rs) in
  decode_loop slot b (blen pre + blen (encs rs)) k (acc ++ rs) last
    (hash_of last).
Proof.
  revert pre acc prev. induction rs as [|r rs IH]; intros pre acc prev Hc Hb.
  { cbv zeta. change (list.last []) with (@None CommitRecord). simpl from_option.
    rewrite encs_nil, app_nil_r. f_equal. unfold encs; simpl. change (blen (@nil byte)) with 0. lia. }
  destruct Hc as (Hr&Hf&Hc). pose proof (blen_enc r Hr) as Hl.
  simpl length. simpl Nat.add. unfold decode_loop at 1. fold (@decode_loop _ _).
  unfold COMMIT_RECORD_BYTES.
  rewrite encs_cons, <-app_assoc in Hb.
  rewrite index_range_in. 2: pose proof (blen_nonneg pre); lia.
  2: { rewrite Hb, !blen_app, Hl. pose proof (blen_nonneg (encs rs)). pose proof (blen_nonneg rest). lia. }
  osimpl.
  assert (Hs : sub b (blen pre) (blen pre + 4096 - blen pre) = enc r).
  { rewrite Hb, sub_app_r by lia. replace (blen pre - blen pre) with 0 by lia.
    rewrite sub_app_l by lia. apply sub_all. lia. }
  rewrite Hs, decode_enc by done.
  rewrite broken_link_false by done. 
  osimpl. 
  replace (blen pre + 4096) with (blen (pre ++ enc r)) by (rewrite blen_app; lia).
  change (Some (CommitRecordHash_of (enc r))) with (option_map (λ p, CommitRecordHash_of (enc p)) (Some r)).
  rewrite (IH (pre ++ enc r) (acc ++ [r]) (Some r) Hc) by (by rewrite <-app_assoc).
  cbv zeta. rewrite encs_cons, !blen_app, <-app_assoc. 
  replace (blen pre + blen (enc r) + blen (encs rs)) with (blen pre + (blen (enc r) + blen (encs rs))) by lia.
  destruct rs as [|r' rs]; [done|].
  destruct (list.last (r' :: rs)) eqn:E; [|by apply last_None in E].
  simpl list.last in *. by rewrite E.
Qed.

(** A clean snapshot of a slot that holds exactly the records. *)
Definition snapshot_of (slot : Z) (rs : list CommitRecord) : LogSnapshot :=
  {| active_slot := slot; snapshot_bytes := encs rs; records := rs; tail := Clean |}.

Lemma decode_segment_encs slot rs :
  chained rs → decode_segment slot (encs rs) = Ok (snapshot_of slot rs).
Proof.
  intros Hc. pose proof (blen_encs rs (chain_from_wf _ _ Hc)) as Hl. pose proof (blen_nonneg rs).
  unfold decode_segment, COMMIT_RECORD_BYTES. rewrite Hl.
  replace (4096 * blen rs) with (blen rs * 4096) by lia. rewrite !Z.div_mul by lia.
  replace (Z.to_nat (blen rs)) with (length rs + 0)%nat
    by (change (blen rs) with (Z.of_nat (length rs)); lia).
  pose proof (decode_loop_chain slot (encs rs) [] rs [] 0 [] None Hc) as Hd.
  rewrite app_nil_r in Hd. specialize (Hd eq_refl). simpl in Hd.
  change (blen (@nil byte)) with 0 in Hd. rewrite Hd. osimpl.
  rewrite Z.sub_diag. simpl. unfold snapshot_of. do 2 f_equal. apply sub_all. lia.
Qed.

(** What stopped the decoder at [o] after the records [rs]. *)
Definition stopped_at (b : bytes) (rs : list CommitRecord) (o : Z) (t : LogTail) : Prop :=
  (t = InvalidRecord o ∧ ∃ e, Commit.decode (sub b o 4096) = Err e) ∨
  (t = BrokenChain o ∧
   ∃ p r, list.last rs = Some p ∧ Commit.decode (sub b o 4096) = Ok r ∧ ¬ follows p r).

Lemma decode_loop_sound slot b n acc res :
  chained acc → sub b 0 (blen (encs acc)) = encs acc →
  blen (encs acc) + 4096 * Z.of_nat n ≤ blen b →
  decode_loop slot b (blen (encs acc)) n acc (list.last acc)
    (hash_of (list.last acc)) = Ok res →
  match res with
  | inl snap =>
      ∃ rs t, snap = {| active_slot := slot; snapshot_bytes := encs rs; records := rs; tail := t |} ∧
        chained rs ∧ sub b 0 (blen (encs rs)) = encs rs ∧ stopped_at b rs (blen (encs rs)) t
  | inr rs =>
      chained rs ∧ length rs = (length acc + n)%nat ∧
      sub b 0 (blen (encs acc) + 4096 * Z.of_nat n) = encs rs
  end.
Proof.
  revert acc. induction n as [|n IH]; intros acc Hc Hpre Hlen Hd.
  { simpl in Hd. inv_ok. subst res. split_and!; [done|lia|]. by rewrite Z.add_0_r. }
  cbn [decode_loop] in Hd. unfold COMMIT_RECORD_BYTES in Hd.
  apply bind_Ok in Hd as (x&(?&?&->)%index_range_Ok&Hd).
  replace (blen (encs acc) + 4096 - blen (encs acc)) with 4096 in * by lia.
  destruct (Commit.decode (sub b (blen (encs acc)) 4096)) as [r|e|] eqn:Hr; [| |done].
  2: { inv_ok. subst res. exists acc, (InvalidRecord (blen (encs acc))). split_and!; [by rewrite Hpre|done..|].
       left. eauto. }
  destruct (decode_enc_inv _ _ Hr) as [Hwf Hb].
  apply bind_Ok in Hd as (broken&Hbroken&Hd). apply broken_link_spec in Hbroken; [|done].
  destruct broken.
  - inv_ok. subst res. destruct Hbroken as (p&Hp&Hnf). exists acc, (BrokenChain (blen (encs acc))).
    split_and!; [by rewrite Hpre|done..|]. right. split; [done|]. eauto.
  - assert (Hc' : chained (acc ++ [r])) by (by apply chained_snoc).
    assert (He : encs (acc ++ [r]) = encs acc ++ enc r) by (by rewrite encs_app, encs_singleton).
    assert (Hl : blen (encs (acc ++ [r])) = blen (encs acc) + 4096).
    { rewrite He, blen_app, blen_enc by done. done. }
    specialize (IH (acc ++ [r]) Hc'). rewrite Hl, last_snoc in IH. simpl option_map in IH. rewrite Hb in Hd.
    apply IH in Hd; [|rewrite sub_split by (lia || apply blen_nonneg); rewrite Hpre, He, Z.add_0_l; by rewrite Hb|lia].
    destruct res as [snap|rs]; [done|]. destruct Hd as (?&Hlen'&Hs). split_and!; [done|rewrite length_app in Hlen'; simpl in *; lia|].
    rewrite <-Hs. f_equal. lia.
Qed.

Lemma decode_segment_sound slot b snap :
  decode_segment slot b = Ok snap →
  ∃ rs rest t,
    snap = {| active_slot := slot; snapshot_bytes := encs rs; records := rs; tail := t |} ∧
    chained rs ∧ b = encs rs ++ rest ∧
    ((t = Clean ∧ rest = []) ∨
     (t = Torn (blen (encs rs)) (blen rest) ∧ 0 < blen rest < 4096) ∨
     stopped_at b rs (blen (encs rs)) t).
Proof.
  unfold decode_segment, COMMIT_RECORD_BYTES. intros (res&Hd&Hres)%bind_Ok.
  set (n := blen b `div` 4096) in *. rewrite Z.div_mul in Hd by lia.
  pose proof (blen_nonneg b).
  pose proof (Z.div_mod (blen b) 4096 ltac:(lia)) as Hdm.
  pose proof (Z.mod_pos_bound (blen b) 4096 ltac:(lia)).
  assert (0 ≤ n) by (apply Z.div_pos; lia). fold n in Hdm.
  pose proof (decode_loop_sound slot b (Z.to_nat n) [] res) as Hs.
  change (blen (encs [])) with 0 in Hs.
  specialize (Hs ltac:(done) ltac:(by rewrite sub_0) ltac:(lia) Hd).
  assert (Hsplit : ∀ k, 0 ≤ k ≤ blen b → b = sub b 0 k ++ sub b k (blen b - k)).
  { intros k ?. rewrite <-(sub_split b 0 k) by lia. symmetry. apply sub_all. lia. }
  destruct res as [snap'|rs].
  - inv_ok. subst snap'. destruct Hs as (rs&t&->&Hc&Hpre&Hstop).
    assert (blen (encs rs) ≤ blen b) as Hle.
    { destruct (decide (blen (encs rs) ≤ blen b)) as [|Hgt]; [done|]. exfalso.
      apply (f_equal blen) in Hpre. pose proof (blen_sub_le b 0 (blen (encs rs))). lia. }
    exists rs, (sub b (blen (encs rs)) (blen b - blen (encs rs))), t.
    split_and!; [done|done|rewrite <-Hpre at 1; apply Hsplit; pose proof (blen_nonneg (encs rs)); lia|]. auto.
  - destruct Hs as (Hc&_&Hpre). replace (0 + 4096 * Z.of_nat (Z.to_nat n)) with (n * 4096) in Hpre by lia.
    rewrite Hpre in Hres. inv_ok.
    assert (Hle : blen (encs rs) = n * 4096) by (rewrite <-Hpre; rewrite blen_sub; lia).
    exists rs, (sub b (n * 4096) (blen b - n * 4096)), (tail snap). subst snap. simpl.
    split_and!; [done|done|rewrite <-Hpre; apply Hsplit; lia|].
    rewrite blen_sub by lia. destruct (Z.eqb_spec (blen b - n * 4096) 0) as [Hz|].
    + left. split; [done|]. rewrite Hz. apply sub_0.
    + right. left. rewrite Hle. split; [done|lia].
Qed.
End Chain.

(** ** Selection *)
Section Selection.
Context `{Crc32cLaws, Blake3Laws}.

Lemma first_encoded_of slot r rs :
  Commit.wf r → first_encoded (snapshot_of slot (r :: rs)) = Ok (Some (enc r)).
Proof.
  intros Hr. pose proof (blen_enc r Hr). unfold first_encoded. simpl. rewrite encs_cons.
  pose proof (blen_nonneg (encs rs)). unfold COMMIT_RECORD_BYTES.
  rewrite index_range_in by (rewrite ?blen_app; lia). osimpl. by rewrite sub_app_eq_l by lia.
Qed.
Lemma last_encoded_of slot rs r :
  Commit.wf r → last_encoded (snapshot_of slot (rs ++ [r])) = Ok (Some (enc r)).
Proof.
  intros Hr. pose proof (blen_enc r Hr) as Hl. pose proof (blen_nonneg (encs rs)).
  unfold last_encoded. simpl. rewrite bool_decide_false by (by destruct rs).
  unfold sub_or_panic, COMMIT_RECORD_BYTES. rewrite encs_app, encs_singleton, blen_app, Hl.
  rewrite (proj2 (checked_sub_Some _ _ (blen (encs rs)))) by lia. osimpl.
  unfold index_from. rewrite index_range_in by (rewrite ?blen_app; lia). osimpl.
  rewrite sub_app_r, blen_app, Hl by lia. do 2 f_equal.
  replace (blen (encs rs) - blen (encs rs)) with 0 by lia. apply sub_all. lia.
Qed.
Lemma last_encoded_last slot rs r :
  Commit.wf r → list.last rs = Some r → last_encoded (snapshot_of slot rs) = Ok (Some (enc r)).
Proof. intros Hr (rs'&->)%last_Some. by apply last_encoded_of. Qed.

(** [old] may stay in the idle slot beside the active records [seg]: it is
    empty, or it ends with the record the active slot starts with (the
    bridge), and the active slot has grown beyond it. *)
Definition idle (seg old : list CommitRecord) : Prop :=
  old = [] ∨ (chained old ∧ blen old ≤ MAX_SEGMENT_RECORDS ∧
              ∃ b r seg', seg = b :: r :: seg' ∧ list.last old = Some b).

Lemma chain_last_generation r rs l :
  chained (r :: rs) → list.last (r :: rs) = Some l →
  l.(generation) = r.(generation) + blen rs.
Proof.
  intros Hc Hl. rewrite last_lookup in Hl.
  rewrite (chain_generation _ _ r l Hc eq_refl Hl). reflexivity.
Qed.

(** Both orders of the slots select the active one. *)
Lemma select_active a seg old :
  a = 0 ∨ a = 1 → chained seg → idle seg old →
  select_current (if a =? 0 then [snapshot_of 0 seg; snapshot_of 1 old]
                  else [snapshot_of 0 old; snapshot_of 1 seg])
  = Ok (if bool_decide (seg = []) then None else Some (snapshot_of a seg)).
Proof.
  intros Ha Hc Hi. unfold select_current.
  assert (Hex : ∀ x y, existsb (λ segment, bool_decide (records segment = [])
      && negb (bool_decide (tail segment = Clean))) [snapshot_of 0 x; snapshot_of 1 y] = false).
  { intros. simpl. rewrite !andb_false_r. done. }
  destruct Hi as [->|(Hco&_&b&r&seg'&->&Hlast)].
  { destruct Ha as [-> | ->]; simpl Z.eqb; cbv iota; rewrite Hex; osimpl; simpl.
    all: by destruct seg. }
  destruct old as [|o old]; [done|].
  pose proof (chain_last_generation o old b Hco Hlast) as Hgo.
  destruct (list.last (b :: r :: seg')) as [l|] eqn:Hl; [|by apply last_None in Hl].
  pose proof (chain_last_generation _ _ _ Hc Hl) as Hgl.
  rewrite blen_cons in Hgl. pose proof (blen_nonneg seg').
  pose proof (chain_from_wf _ _ Hc) as Hwf. apply Forall_cons_1 in Hwf as [Hwb _].
  assert (Hfirst : ∀ k, first_encoded (snapshot_of k (b :: r :: seg')) = Ok (Some (enc b)))
    by (intros; by apply first_encoded_of).
  assert (Hlaste : ∀ k, last_encoded (snapshot_of k (o :: old)) = Ok (Some (enc b)))
    by (intros; by apply last_encoded_last).
  destruct Ha as [-> | ->]; simpl Z.eqb; cbv iota; rewrite Hex; osimpl.
  - simpl List.filter. unfold select_of_two, last_record. simpl records.
    change (list.last (records _)) with (list.last (b :: r :: seg')). rewrite Hl, Hlast. osimpl.
    rewrite (proj2 (Z.eqb_neq _ _)), (proj2 (Z.ltb_ge _ _)) by lia. rewrite Hfirst, Hlaste. osimpl.
    rewrite bool_decide_true by done. osimpl. done.
  - simpl List.filter. unfold select_of_two, last_record. simpl records. rewrite Hl, Hlast. osimpl.
    rewrite (proj2 (Z.eqb_neq _ _)), (proj2 (Z.ltb_lt _ _)) by lia. rewrite Hfirst, Hlaste. osimpl.
    rewrite bool_decide_true by done. osimpl. done.
Qed.
End Selection.

(** ** Properties *)

(** Decoding a slot yields the longest valid prefix of its bytes and says
    why it ends: the accepted records are a hash-linked chain of well-formed
    records, their encodings are exactly the accepted bytes, and beyond them
    there is nothing (a clean tail), fewer bytes than a record (torn), a block
    that is no record, or a record that does not follow the last one.
    Conversely a slot that holds a chain decodes to that chain, clean. *)
Theorem segment_decode_longest_prefix `{Crc32cLaws, Blake3Laws} slot :
  (∀ b snap, decode_segment slot b = Ok snap →
    ∃ rest, b = snapshot_bytes snap ++ rest ∧
      active_slot snap = slot ∧ chained (records snap) ∧
      snapshot_bytes snap = encs (records snap) ∧
      ((tail snap = Clean ∧ rest = []) ∨
       (tail snap = Torn (blen (snapshot_bytes snap)) (blen rest) ∧ 0 < blen rest < 4096) ∨
       stopped_at b (records snap) (blen (snapshot_bytes snap)) (tail snap))) ∧
  (∀ rs, chained rs → decode_segment slot (encs rs) = Ok (snapshot_of slot rs)).
Proof.
  split; [|apply decode_segment_encs].
  intros b snap (rs&rest&t&->&Hc&Hb&Ht)%decode_segment_sound. by exists rest.
Qed.

Section Witnesses.
#[local] Existing Instances Crc32cBitwise.ops Crc32cBitwise.laws MixHash.ops MixHash.laws.

Lemma segment_decode_longest_prefix_witness :
  ∃ snap, decode_segment 0 (zeros 5000) = Ok snap ∧ records snap = [] ∧ tail snap ≠ Clean ∧
    decode_segment 1 (encs [Commit.sample]) = Ok (snapshot_of 1 [Commit.sample]).
Proof.
  destruct (segment_decode_longest_prefix 0) as [Hs _].
  destruct (segment_decode_longest_prefix 1) as [_ Hr].
  destruct (decode_segment 0 (zeros 5000)) as [snap| |] eqn:Hd;
    [|exfalso; vm_compute in Hd; discriminate..].
  destruct (Hs _ _ Hd) as (rest&_). exists snap.
  split; [reflexivity|]. vm_compute in Hd. injection Hd as <-.
  split; [reflexivity|]. split; [discriminate|].
  apply Hr. split; [exact commit_wf_sample|]. split; [discriminate|exact I].
Defined.
End Witnesses.
End GenerationLog.
