(* ===== verification/GenerationLogSafety.v ===== *)
(** * Commit safety of the generation log

    The operations of [GenerationLog] on any lawful storage: loading selects
    the active records, an append commits at its synchronization and nowhere
    else, and no acknowledged record is lost by failures and restarts. *)
From S2P Require Import Storage Layout Metadata Commit GenerationLog.

Module GenerationLogSafety.
Import Commit GenerationLog.

(** ** The log on a storage *)
Section Log.
Context `{StorageLaws St, Crc32cLaws, Blake3Laws}.

(** The file of slot [a]. *)
Definition slot_file (a : Z) : string := if a =? 0 then "commit.wal" else "commit.1.wal".
Definition is_slot (a : Z) : Prop := a = 0 ∨ a = 1.

Lemma slot_name_of (a : Z) (s : St) : is_slot a → slot_name a s = (Ok (slot_file a), s).
Proof. by intros [-> | ->]. Qed.
Lemma slot_file_other a : is_slot a → slot_file (1 - a) ≠ slot_file a.
Proof. by intros [-> | ->]. Qed.
Lemma is_slot_other a : is_slot a → is_slot (1 - a).
Proof. intros [-> | ->]; [by right|by left]. Qed.

Lemma run_slot_name {A} a (k : string → prog St GenerationLogError A) s Q :
  is_slot a → run (k (slot_file a)) s Q → run (slot_name a ≫= k) s Q.
Proof. intros Ha Hk. apply run_bind. unfold run at 1. by rewrite slot_name_of. Qed.


Lemma run_call {A} (m : io St A) s Q :
  run m s (λ r s', Q (map_err Io r) s') → run (call m) s Q.
Proof. apply run_lift_err. Qed.
Lemma run_pure_bind {A B} (o : outcome GenerationLogError A) (a : A)
    (k : A → prog St GenerationLogError B) s Q :
  o = Ok a → run (k a) s Q → run (pure o ≫= k) s Q.
Proof. by intros ->. Qed.

Lemma max_segment_u64 : MAX_SEGMENT_BYTES = 262144.
Proof. done. Qed.

Lemma load_slot_run slot name c d l (s : St) x :
  Storage.wf s → holds s name (Some (View c d l)) → blen c ≤ MAX_SEGMENT_BYTES →
  decode_segment slot c = Ok x →
  run (load_slot slot name) s (λ r s', keeps s s' (λ _, True) ∧
    (r = Ok (Some x) ∨ ∃ e, r = Err (Io e) ∧ ¬ healthy s)).
Proof.
  intros Hwf Hv Hc Hx. apply run_inspect.
  assert (blen c ≤ u64_max) by (rewrite max_segment_u64 in Hc; unfold u64_max; lia).
  eapply run_read; [by apply object_len_law|done| |].
  2: { intros e s' Hk He Hh. destruct e; [done|..]; (split; [done|]; right; eauto). }
  intros s1 Hk1. eapply run_pure_bind.
  { unfold reject_if. by rewrite (proj2 (Z.ltb_ge _ _)) by done. }
  assert (Hv1 : holds s1 name (Some (View c d l))) by (by apply Hk1).
  apply run_bind, run_call. eapply run_read; [apply read_law; [apply Hk1|done]|done| |].
  2: { intros e s' Hk He Hh. split; [by eapply keeps_trans|]. right. exists e. split; [done|].
       intros ?. by apply Hh, Hk1. }
  intros s2 Hk2. simpl. eapply run_pure_bind.
  { rewrite try_from_u_ok by done. by rewrite bool_decide_true. }
  eapply run_pure_bind; [done|]. apply run_ret. split; [by eapply keeps_trans|]. by left.
Qed.

Lemma load_run c0 d0 l0 c1 d1 l1 (s : St) x0 x1 :
  Storage.wf s → holds s (slot_file 0) (Some (View c0 d0 l0)) →
  holds s (slot_file 1) (Some (View c1 d1 l1)) →
  blen c0 ≤ MAX_SEGMENT_BYTES → blen c1 ≤ MAX_SEGMENT_BYTES →
  decode_segment 0 c0 = Ok x0 → decode_segment 1 c1 = Ok x1 →
  run load s (λ r s', keeps s s' (λ _, True) ∧
    (r = select_current [x0; x1] ∨ ∃ e, r = Err (Io e) ∧ ¬ healthy s)).
Proof.
  intros Hwf H0' H1' Hc0 Hc1 Hx0 Hx1. unfold load.
  apply run_slot_name; [by left|]. apply run_bind.
  eapply run_mono; [by eapply load_slot_run|]. simpl.
  intros r s1 (Hk1&[->|(e&->&?)]); [|split; [done|]; right; by eauto].
  apply run_slot_name; [by right|]. apply run_bind.
  eapply run_mono; [eapply load_slot_run; [apply Hk1|by apply Hk1|done..]|]. simpl.
  intros r s2 (Hk2&[->|(e&->&Hh)]).
  - apply run_pure. split; [by eapply keeps_trans|]. by left.
  - split; [by eapply keeps_trans|]. right. exists e. split; [done|]. intros ?. by apply Hh, Hk1.
Qed.

(** The slots hold, live and durable, the records [seg] (active, in slot [a])
    and [old] (idle). *)
Record log_state (s : St) (a : Z) (seg old : list CommitRecord) : Prop := {
  ls_wf : Storage.wf s;
  ls_slot : is_slot a;
  ls_chain : chained seg;
  ls_bound : blen seg ≤ MAX_SEGMENT_RECORDS;
  ls_idle : idle seg old;
  ls_active : holds s (slot_file a) (Some (View (encs seg) (encs seg) true));
  ls_other : holds s (slot_file (1 - a)) (Some (View (encs old) (encs old) true));
}.
(** Only what a crash leaves is known. *)
Record log_durable (s : St) (a : Z) (seg old : list CommitRecord) : Prop := {
  ld_wf : Storage.wf s;
  ld_slot : is_slot a;
  ld_chain : chained seg;
  ld_bound : blen seg ≤ MAX_SEGMENT_RECORDS;
  ld_idle : idle seg old;
  ld_active : ∃ c, holds s (slot_file a) (Some (View c (encs seg) true));
  ld_other : ∃ c, holds s (slot_file (1 - a)) (Some (View c (encs old) true));
}.

Lemma log_state_durable s a seg old : log_state s a seg old → log_durable s a seg old.
Proof. intros []. split; eauto. Qed.
Lemma log_durable_restart s a seg old : log_durable s a seg old → log_state (restart s) a seg old.
Proof.
  intros [Hw ???? [c Hc] [c' Hc']]. destruct (restart_law s Hw) as (?&_&Hl&_).
  split; eauto.
Qed.

Lemma idle_bound seg old : idle seg old → blen old ≤ MAX_SEGMENT_RECORDS ∧ chained old.
Proof. intros [->|(?&?&_)]; [|done]. split; [|done]. by vm_compute. Qed.
Lemma blen_encs_bound rs :
  chained rs → blen rs ≤ MAX_SEGMENT_RECORDS → blen (encs rs) ≤ MAX_SEGMENT_BYTES.
Proof.
  intros Hc Hb. rewrite blen_encs by (by eapply chain_from_wf).
  unfold MAX_SEGMENT_BYTES, COMMIT_RECORD_BYTES. lia.
Qed.

(** Loading selects the active records. *)
Lemma load_log_state s a seg old :
  log_state s a seg old →
  run load s (λ r s', keeps s s' (λ _, True) ∧
    (r = Ok (if bool_decide (seg = []) then None else Some (snapshot_of a seg)) ∨
     ∃ e, r = Err (Io e) ∧ ¬ healthy s)).
Proof.
  intros [Hw Ha Hc Hb Hi Hact Hoth]. destruct (idle_bound _ _ Hi) as [Hbo Hco].
  rewrite <-(select_active a seg old Ha Hc Hi).
  destruct Ha as [-> | ->]; simpl Z.eqb; cbv iota; simpl Z.sub in Hoth;
    (eapply load_run; [done|done|done| | | |]);
    auto using blen_encs_bound, decode_segment_encs.
Qed.
End Log.

(** ** Appending *)
Section Append.
Context `{StorageLaws St, Crc32cLaws, Blake3Laws}.

(** [r] may be appended after [seg]. *)
Definition extends (seg : list CommitRecord) (r : CommitRecord) : Prop :=
  Commit.wf r ∧
  match list.last seg with
  | None => r.(generation) = 1 ∧ r.(previous_record_hash) = CommitRecordHash_ZERO
  | Some p => follows p r
  end.

Lemma verify_successor_iff a seg r :
  chained seg → Commit.wf r →
  verify_successor (snapshot_of a seg) r = Ok () ↔ extends seg r.
Proof.
  intros Hc Hr. unfold verify_successor, extends, last_record. simpl records.
  destruct (list.last seg) as [p|] eqn:Hl.
  - destruct (proj1 (last_Some _ _) Hl) as [seg' ->].
    destruct (proj1 (chained_snoc _ _) Hc) as (_&Hp&_).
    unfold last_hash. rewrite last_encoded_of by done. osimpl. simpl option_map.
    destruct (wf_generation p Hp). destruct (wf_generation r Hr). unfold checked_add, reject_if, follows.
    assert (Hs : ∀ {A} (x y : A), Some x = Some y ↔ y = x) by (intros; split; congruence).
    rewrite (bool_decide_ext _ _ (Hs _ (CommitRecordHash_of (enc p)) (previous_record_hash r))).
    destruct (Z.leb_spec (generation p + 1) u64_max).
    + rewrite (bool_decide_ext _ _ (Hs _ (generation p + 1) (generation r))).
      repeat case_bool_decide; simpl; try (destruct (regresses p r)); simpl; naive_solver.
    + rewrite bool_decide_false by done. simpl. naive_solver lia.
  - destruct (Z.eqb_spec r.(generation) 1); case_bool_decide; simpl; naive_solver.
Qed.

Definition rotates (seg : list CommitRecord) : bool := MAX_SEGMENT_RECORDS <=? blen seg.
(** Slot, active and idle records after an append. *)
Definition next_slot (a : Z) (seg : list CommitRecord) : Z := if rotates seg then 1 - a else a.
Definition next_seg (seg : list CommitRecord) (r : CommitRecord) : list CommitRecord :=
  (if rotates seg then option_list (list.last seg) else seg) ++ [r].
Definition next_old (seg old : list CommitRecord) : list CommitRecord :=
  if rotates seg then seg else old.

Lemma rotates_last seg : rotates seg = true → ∃ p seg', seg = seg' ++ [p].
Proof.
  unfold rotates, MAX_SEGMENT_RECORDS. intros Hr. apply Z.leb_le in Hr.
  destruct seg as [|p seg' _] using rev_ind; [|eauto]. change (blen (@nil CommitRecord)) with 0 in Hr. lia.
Qed.

Lemma next_chained seg r : chained seg → extends seg r → chained (next_seg seg r).
Proof.
  intros Hc [Hr He]. unfold next_seg. destruct (rotates seg) eqn:Hrot.
  - destruct (rotates_last seg Hrot) as (p&seg'&->). rewrite last_snoc in *. simpl.
    apply chained_snoc in Hc as (_&Hp&_). apply (chained_snoc [p] r). split_and!; [|done|].
    + split_and!; done.
    + by intros ? [= <-].
  - apply chained_snoc. split_and!; [done..|]. by destruct (list.last seg); naive_solver.
Qed.
Lemma next_bound seg r : blen seg ≤ MAX_SEGMENT_RECORDS → blen (next_seg seg r) ≤ MAX_SEGMENT_RECORDS.
Proof.
  unfold next_seg. destruct (rotates seg) eqn:Hrot.
  - destruct (rotates_last seg Hrot) as (p&seg'&->). rewrite last_snoc. by vm_compute.
  - unfold rotates in Hrot. apply Z.leb_gt in Hrot. rewrite blen_app.
    change (blen [r]) with 1. lia.
Qed.
Lemma next_idle seg old r :
  chained seg → blen seg ≤ MAX_SEGMENT_RECORDS → idle seg old → idle (next_seg seg r) (next_old seg old).
Proof.
  intros Hc Hb Hi. unfold next_seg, next_old. destruct (rotates seg) eqn:Hrot.
  - destruct (rotates_last seg Hrot) as (p&seg'&->). right. rewrite last_snoc. simpl. split_and!; [done..|].
    by exists p, r, [].
  - destruct Hi as [->|(?&?&b&q&seg'&->&?)]; [by left|]. right. split_and!; [done..|].
    by exists b, q, (seg' ++ [r]).
Qed.
Lemma next_slot_is a seg : is_slot a → is_slot (next_slot a seg).
Proof. unfold next_slot. destruct (rotates seg); auto using is_slot_other. Qed.

(** The write phase leaves the expected bytes in the live view of the target
    slot, and its durable content alone. *)
Lemma append_facts a seg r :
  chained seg → blen seg ≤ MAX_SEGMENT_RECORDS → extends seg r →
  blen (encs (next_seg seg r)) ≤ 262144 ∧
  4096 ≤ blen (encs (next_seg seg r)) ∧
  (if rotates seg then
     e ← last_encoded (snapshot_of a seg);
     bridge ← ok_or e EmptyAfterInitialization;
     other ← sub_or_panic 1 (active_slot (snapshot_of a seg));
     Ok (other, bridge ++ enc r)
   else Ok (active_slot (snapshot_of a seg), snapshot_bytes (snapshot_of a seg) ++ enc r))
  = (other ← if rotates seg then sub_or_panic 1 a else Ok a; Ok (other, encs (next_seg seg r))) ∧
  advanced (snapshot_of a seg) (next_slot a seg) (rotates seg) r (encs (next_seg seg r))
  = Ok (snapshot_of (next_slot a seg) (next_seg seg r)).
Proof.
  intros Hc Hb He. pose proof (next_chained seg r Hc He) as Hc'.
  pose proof (blen_encs_bound _ Hc' (next_bound seg r Hb)) as Hmax. rewrite max_segment_u64 in Hmax.
  assert (Hl : blen (encs (next_seg seg r)) = 4096 * blen (next_seg seg r))
    by (apply blen_encs; by eapply chain_from_wf).
  split_and!; [done| | |].
  - rewrite Hl. unfold next_seg. rewrite blen_app. change (blen [r]) with 1.
    pose proof (blen_nonneg (if rotates seg then option_list (list.last seg) else seg)). lia.
  - unfold next_seg. destruct (rotates seg) eqn:Hrot.
    + destruct (rotates_last seg Hrot) as (p&seg'&->). apply chained_snoc in Hc as (_&Hp&_).
      rewrite last_encoded_of by done. osimpl. rewrite last_snoc. simpl active_slot.
      simpl option_list. by rewrite encs_app, !encs_singleton.
    + osimpl. simpl active_slot. simpl snapshot_bytes. by rewrite encs_app, encs_singleton.
  - unfold advanced, next_seg, snapshot_of, last_record. simpl records. destruct (rotates seg) eqn:Hrot; [|done].
    destruct (rotates_last seg Hrot) as (p&seg'&->). by rewrite last_snoc.
Qed.

(** The writes: the expected bytes reach the live view of the target slot,
    its durable content stays. *)
Lemma write_target_run s a seg r w ct dt :
  let t := next_slot a seg in
  let x := encs (next_seg seg r) in
  let at_ := at_target s (slot_file t) (slot_file (1 - t)) w in
  is_slot a → chained seg → blen seg ≤ MAX_SEGMENT_RECORDS → extends seg r →
  at_ s ct dt → (rotates seg = false → ct = encs seg) →
  run (write_target (snapshot_of a seg) t (slot_file t) (enc r) x) s (λ res s', match res with
    | Ok (vo, vb) => 0 ≤ vo ≤ blen x ∧ vb = sub x vo (blen x - vo) ∧ at_ s' x dt
    | Err e => ∃ io, e = Io io ∧ ¬ healthy s ∧ ∃ c, at_ s' c dt
    | Panic => False end).
Proof.
  intros t x at_ Ha Hc Hb He Hat Hct.
  destruct (append_facts a seg r Hc Hb He) as (Hmax&Hmin&_&_). fold x in Hmax, Hmin.
  destruct (He) as [Hr _]. pose proof (blen_enc r Hr) as Hlr.
  assert (Hne : slot_file (1 - t) ≠ slot_file t) by (by apply slot_file_other, next_slot_is).
  unfold write_target, t, next_slot in *. simpl active_slot. simpl snapshot_bytes.
  destruct (rotates seg) eqn:Hrot.
  - rewrite (proj2 (Z.eqb_neq _ _)) by (destruct Ha as [-> | ->]; lia).
    destruct (rotates_last seg Hrot) as (p&seg'&Hseg).
    assert (Hx : x = enc p ++ enc r).
    { unfold x, next_seg. rewrite Hrot, Hseg, last_snoc. simpl. by rewrite encs_cons, encs_singleton. }
    assert (Hp : blen (enc p) = 4096).
    { apply blen_enc. rewrite Hseg in Hc. by apply chained_snoc in Hc as (_&?&_). }
    eapply run_target; [done|exact Hat|intros; by apply set_len_law| |].
    2: { intros e s' Hu [?|?]; eauto. }
    intros s1 Hat1. rewrite resized_0 in Hat1. unfold COMMIT_RECORD_BYTES.
    eapply run_pure_bind; [by apply index_range_in; lia|].
    replace (sub x 0 (4096 - 0)) with (enc p) by (rewrite Hx, sub_app_eq_l; lia || done).
    eapply run_target; [done|exact Hat1|intros; apply write_at_law; [done..|unfold usize_max, u64_max; lia]| |].
    2: { intros e s' Hu [?|?]; eauto. }
    intros s2 Hat2. rewrite (overwrite_end []) in Hat2.
    eapply run_pure_bind; [apply index_range_in; lia|].
    replace (sub x 4096 (blen x - 4096)) with (enc r).
    2: { rewrite Hx, sub_app_r, blen_app, Hp, Hlr by lia. symmetry. apply sub_all. lia. }
    eapply run_target; [done|exact Hat2|intros; apply write_at_law; [done|done|lia|unfold usize_max, u64_max; lia]| |].
    2: { intros e s' Hu [?|?]; eauto. }
    intros s3 Hat3. change ([] ++ enc p) with (enc p) in Hat3. rewrite <-Hp, overwrite_end, <-Hx in Hat3.
    apply run_ret. split_and!; [lia|lia|by rewrite sub_all by lia|done].
  - rewrite Z.eqb_refl. rewrite (Hct eq_refl) in Hat.
    assert (Hx : x = encs seg ++ enc r).
    { unfold x, next_seg. rewrite Hrot. by rewrite encs_app, encs_singleton. }
    pose proof (blen_nonneg (encs seg)).
    assert (blen x = blen (encs seg) + 4096) by (rewrite Hx, blen_app; lia).
    eapply run_pure_bind. { rewrite try_from_u_ok; [done|unfold u64_max; lia]. }
    eapply run_target; [done|exact Hat|intros; apply write_at_law; [done..|unfold usize_max, u64_max; lia]| |].
    2: { intros e s' Hu [?|?]; eauto. }
    intros s1 Hat1. rewrite overwrite_end, <-Hx in Hat1.
    eapply run_pure_bind; [apply index_range_in; lia|]. apply run_ret.
    split_and!; [lia|lia|done|done].
Qed.

(** An append on two slot files of which the other one is left alone: the
    commit point is the synchronization. *)
Lemma append_target_run s a seg r w ct dt :
  let t := next_slot a seg in
  let x := encs (next_seg seg r) in
  let at_ := at_target s (slot_file t) (slot_file (1 - t)) w in
  is_slot a → chained seg → blen seg ≤ MAX_SEGMENT_RECORDS → extends seg r →
  at_ s ct dt → (rotates seg = false → ct = encs seg) →
  run (append (snapshot_of a seg) r) s (λ res s',
    (res = Ok (snapshot_of t (next_seg seg r)) ∧ at_ s' x x) ∨
    (∃ e, res = Err (Io e) ∧ ¬ healthy s ∧ ((∃ c, at_ s' c dt) ∨ at_ s' x x))).
Proof.
  intros t x at_ Ha Hc Hb He Hat Hct.
  destruct (append_facts a seg r Hc Hb He) as (Hmax&Hmin&Htarget&Hadv).
  pose proof (next_slot_is a seg Ha) as Ha'. destruct (He) as [Hr _].
  assert (Hne : slot_file (1 - t) ≠ slot_file t) by (by apply slot_file_other).
  unfold append. eapply run_pure_bind; [done|].
  eapply run_pure_bind; [by apply verify_successor_iff|].
  eapply run_pure_bind; [by apply enc_encode|]. cbv zeta.
  change (MAX_SEGMENT_RECORDS <=? record_count (snapshot_of a seg)) with (rotates seg).
  eapply (run_pure_bind _ (t, x)).
  { rewrite Htarget. unfold t, next_slot. destruct (rotates seg); [|done].
    unfold sub_or_panic, checked_sub. by destruct Ha as [-> | ->]. }
  apply run_slot_name; [done|]. apply run_bind.
  eapply run_mono; [by eapply (write_target_run s a seg r w ct dt)|].
  intros [[vo vb]|e|] s1 Hs1; [| |done].
  2: { destruct Hs1 as (io&->&Hu&c&Hat1). right. by eauto 10. }
  destruct Hs1 as (Hvo&->&Hat1). fold t x at_ in Hvo, Hat1, Hmax, Hmin |- *.
  eapply run_pure_bind. { rewrite try_from_u_ok; [done|unfold u64_max; lia]. }
  eapply run_target; [done|exact Hat1|intros; apply set_len_law; [done..|unfold usize_max, u64_max; lia]| |].
  2: { intros e s' Hu [?|?]; right; by eauto 10. }
  intros s2 Hat2. rewrite resized_same in Hat2.
  eapply run_pure_bind. { rewrite try_from_u_ok; [done|unfold u64_max; lia]. }
  rewrite blen_sub by lia.
  eapply run_target; [done|exact Hat2|intros; apply read_exact_at_law; unfold MAX_STORAGE_RANGE_BYTES, usize_max, u64_max; (done || lia)| |].
  2: { intros e s' Hu [?|?]; right; by eauto 10. }
  intros s3 Hat3. eapply run_pure_bind. { by rewrite bool_decide_true. }
  eapply run_target; [done|exact Hat3|intros; by apply sync_file_law| |].
  - intros s4 Hat4. apply run_pure. by left.
  - intros e s4 Hu [Hat4|Hat4]; right; by eauto 10.
Qed.

(** An append in a settled log: committed, or refused with the old or the new
    records durable. *)
Lemma append_run s a seg old r :
  log_state s a seg old → extends seg r →
  run (append (snapshot_of a seg) r) s (λ res s',
    (healthy s → healthy s') ∧
    ((res = Ok (snapshot_of (next_slot a seg) (next_seg seg r)) ∧
      log_state s' (next_slot a seg) (next_seg seg r) (next_old seg old)) ∨
     (∃ e, res = Err (Io e) ∧ ¬ healthy s ∧
       (log_durable s' a seg old ∨
        log_durable s' (next_slot a seg) (next_seg seg r) (next_old seg old))))).
Proof.
  intros [Hw Ha Hc Hb Hi Hact Hoth] He.
  pose proof (next_chained seg r Hc He) as Hc'. pose proof (next_bound seg r Hb) as Hb'.
  pose proof (next_idle seg old r Hc Hb Hi) as Hi'. pose proof (next_slot_is a seg Ha) as Ha'.
  set (dt := encs (if rotates seg then old else seg)).
  set (co := encs (next_old seg old)).
  set (t := next_slot a seg) in *.
  assert (Hslots : (slot_file t = slot_file a ∧ slot_file (1 - t) = slot_file (1 - a) ∧
                    dt = encs seg ∧ co = encs old) ∨
                   (slot_file t = slot_file (1 - a) ∧ slot_file (1 - t) = slot_file a ∧
                    dt = encs old ∧ co = encs seg)).
  { unfold t, next_slot, co, next_old, dt. destruct (rotates seg); [right|by left].
    by replace (1 - (1 - a)) with a by lia. }
  eapply run_mono; [eapply (append_target_run s a seg r (View co co true) dt dt); try done|].
  { fold t. destruct Hslots as [(->&->&->&->)|(->&->&->&->)]; by split_and!. }
  { unfold dt. by intros ->. }
  intros res s' [(->&Hat)|(e&->&Hu&Hat)].
  - split; [by apply Hat|]. left. split; [done|]. destruct Hat as (?&?&?&?). by split.
  - split; [done|]. right. exists e. split_and!; [done..|]. destruct Hat as [[c Hat]|Hat].
    + left. fold t in Hat.
      destruct Hslots as [(E1&E2&E3&E4)|(E1&E2&E3&E4)]; rewrite E1, E2, E3, E4 in Hat;
        destruct Hat as (?&?&?&?); split; eauto.
    + right. destruct Hat as (?&?&?&?). split; eauto.
Qed.
End Append.

(** ** Opening the log and running it *)
Section Runs.
Context `{StorageLaws St, Crc32cLaws, Blake3Laws}.





Lemma append_refuses s a seg r :
  chained seg → Commit.wf r → ¬ extends seg r →
  append (snapshot_of a seg) r s = (Err BrokenGenerationChain, s).
Proof.
  intros Hc Hr Hn. unfold append, mbind, prog_bind, pure. simpl.
  assert (Hv : verify_successor (snapshot_of a seg) r = Err BrokenGenerationChain); [|by rewrite Hv].
  rewrite <-(verify_successor_iff a) in Hn by done. unfold verify_successor in *.
  destruct (last_record (snapshot_of a seg)) as [p|] eqn:Hl; [|by repeat case_match; simplify_eq].
  unfold last_record in Hl. simpl in Hl. pose proof Hl as Hp.
  apply last_Some in Hp as [seg' ->]. apply chained_snoc in Hc as (_&Hp&_).
  unfold last_hash in *. rewrite last_encoded_of in * by done.
  simpl in *. repeat case_bool_decide; simpl in *; try done.
  destruct (regresses p r); [done|]. by destruct Hn.
Qed.




















End Runs.

(** ** Slots without a common record *)
Section Divergence.
Context `{StorageLaws St, Crc32cLaws, Blake3Laws}.

(** Two slots that do not overlap in a bridge are refused. *)
Lemma select_divergent a o old b r seg :
  is_slot a → chained (o :: old) → chained (b :: r :: seg) →
  (∀ l, list.last (o :: old) = Some l → l.(generation) < b.(generation)) →
  select_current (if a =? 0 then [snapshot_of 0 (b :: r :: seg); snapshot_of 1 (o :: old)]
                  else [snapshot_of 0 (o :: old); snapshot_of 1 (b :: r :: seg)])
  = Err DivergentSlots.
Proof.
  intros Ha Hco Hc Hgap. unfold select_current.
  destruct (list.last (o :: old)) as [l|] eqn:Hl; [|by apply last_None in Hl].
  destruct (list.last (b :: r :: seg)) as [m|] eqn:Hm; [|by apply last_None in Hm].
  specialize (Hgap l eq_refl). pose proof (chain_last_generation _ _ _ Hc Hm) as Hgm.
  pose proof (blen_nonneg (r :: seg)).
  pose proof (chain_from_wf _ _ Hc) as Hwf. apply Forall_cons_1 in Hwf as [Hwb _].
  assert (Hwl : Commit.wf l).
  { pose proof (chain_from_wf _ _ Hco) as Hw. rewrite list.Forall_forall in Hw.
    apply Hw, last_Some_elem_of. done. }
  assert (Hfirst : ∀ k, first_encoded (snapshot_of k (b :: r :: seg)) = Ok (Some (enc b)))
    by (intros; by apply first_encoded_of).
  assert (Hlaste : ∀ k, last_encoded (snapshot_of k (o :: old)) = Ok (Some (enc l)))
    by (intros; by apply last_encoded_last).
  assert (Hneq : Some (enc b) ≠ Some (enc l)).
  { intros He%(inj Some). apply enc_inj in He; [|done..]. subst. lia. }
  destruct Ha as [-> | ->]; simpl Z.eqb; cbv iota; simpl existsb; osimpl; simpl List.filter;
    unfold select_of_two, last_record.
  - change (list.last (records (snapshot_of 0 (b :: r :: seg)))) with (list.last (b :: r :: seg)).
    change (list.last (records (snapshot_of 1 (o :: old)))) with (list.last (o :: old)).
    rewrite Hl, Hm. osimpl.
    rewrite (proj2 (Z.eqb_neq _ _)), (proj2 (Z.ltb_ge _ _)) by lia. rewrite Hfirst, Hlaste. osimpl.
    by rewrite bool_decide_false by done.
  - change (list.last (records (snapshot_of 1 (b :: r :: seg)))) with (list.last (b :: r :: seg)).
    change (list.last (records (snapshot_of 0 (o :: old)))) with (list.last (o :: old)).
    rewrite Hl, Hm. osimpl.
    rewrite (proj2 (Z.eqb_neq _ _)), (proj2 (Z.ltb_lt _ _)) by lia. rewrite Hfirst, Hlaste. osimpl.
    by rewrite bool_decide_false by done.
Qed.

(** Two valid slot contents, loaded from a healthy storage. *)
Lemma load_two_slots (s : St) a xa xo da la do_ lo :
  Storage.wf s → healthy s → is_slot a →
  holds s (slot_file a) (Some (View (encs xa) da la)) →
  holds s (slot_file (1 - a)) (Some (View (encs xo) do_ lo)) →
  chained xa → blen xa ≤ MAX_SEGMENT_RECORDS → chained xo → blen xo ≤ MAX_SEGMENT_RECORDS →
  (load s).1 = select_current (if a =? 0 then [snapshot_of 0 xa; snapshot_of 1 xo]
                               else [snapshot_of 0 xo; snapshot_of 1 xa]).
Proof.
  intros Hw Hh Ha Hva Hvo Hca Hba Hco Hbo.
  assert (Hrun : run load s (λ r s', keeps s s' (λ _, True) ∧
    (r = select_current (if a =? 0 then [snapshot_of 0 xa; snapshot_of 1 xo]
                         else [snapshot_of 0 xo; snapshot_of 1 xa]) ∨
     ∃ e, r = Err (Io e) ∧ ¬ healthy s))).
  { destruct Ha as [-> | ->]; simpl Z.eqb; cbv iota; simpl Z.sub in Hvo;
      (eapply load_run; [done|done|done| | | |]); first [by apply blen_encs_bound | by apply decode_segment_encs]. }
  destruct Hrun as (_&[Hr|(?&_&?)]); done.
Qed.
End Divergence.

Section Settled.
Context `{StorageLaws St, Crc32cLaws, Blake3Laws}.

Lemma next_seg_nonempty seg r : next_seg seg r ≠ [].
Proof. unfold next_seg. by destruct (if rotates seg then _ else _). Qed.

Lemma load_settled s a seg old :
  log_state s a seg old → healthy s →
  (load s).1 = Ok (if bool_decide (seg = []) then None else Some (snapshot_of a seg)).
Proof. intros Hst Hh. destruct (load_log_state _ _ _ _ Hst) as (_&[Hr|(?&_&?)]); done. Qed.
End Settled.

(** ** Properties *)
Section Properties.
  Context `{StorageLaws St, Crc32cLaws, Blake3Laws}.

(** On a healthy storage an append of a record that extends the chain
    returns the advanced snapshot, and both the running log and the log after
    a crash load exactly that snapshot.  A record that does not extend the
    chain is refused before the storage is touched.  The active slot never
    holds more than 64 records. *)
Theorem generation_log_append_commits s a seg old r :
  log_state s a seg old → Commit.wf r →
  (healthy s → extends seg r →
   ∃ snap' s', append (snapshot_of a seg) r s = (Ok snap', s') ∧
     records snap' = next_seg seg r ∧ blen (records snap') ≤ MAX_SEGMENT_RECORDS ∧ healthy s' ∧
     (load s').1 = Ok (Some snap') ∧ (load (restart s')).1 = Ok (Some snap')) ∧
  (¬ extends seg r → append (snapshot_of a seg) r s = (Err BrokenGenerationChain, s)).
Proof.
  intros Hst Hr. pose proof (ls_chain _ _ _ _ Hst) as Hc. split; [|by apply append_refuses].
  intros Hh He. pose proof (append_run _ _ _ _ _ Hst He) as Hrun. unfold run in Hrun.
  destruct (append (snapshot_of a seg) r s) as [res s']. simpl in Hrun.
  destruct Hrun as (Hh'&[(->&Hst')|(?&_&?&_)]); [|done].
  exists (snapshot_of (next_slot a seg) (next_seg seg r)), s'.
  split_and!; [done|done|by apply next_bound, (ls_bound _ _ _ _ Hst)|by apply Hh'| |].
  - rewrite (load_settled _ _ _ _ Hst') by auto. by rewrite bool_decide_false by apply next_seg_nonempty.
  - rewrite (load_settled (restart s') _ _ _ (log_durable_restart _ _ _ _ (log_state_durable _ _ _ _ Hst')))
      by (by apply restart_law, (ls_wf _ _ _ _ Hst')).
    by rewrite bool_decide_false by apply next_seg_nonempty.
Qed.

(** C1: Append is atomic.  On a storage that satisfies [StorageLaws] (each call
    has its whole effect or none, also when it reports an error, and a crash
    takes back what was not synchronized as a whole: torn writes are excluded)
    and whose two slots exist, linked and with live contents equal to their
    durable ones, the active records and the idle ones ([log_state], which
    opening the log establishes and every acknowledged append keeps): after
    [append] of a record that extends the chain returned, with or without an
    error, at whichever storage call it failed, a restart loads the old records
    or the old records with the new one, never a mixture and never an error;
    if [append] returned [Ok], it loads the new ones.  Append does not panic. *)
Theorem generation_log_append_atomic s a seg old r :
  log_state s a seg old → extends seg r →
  let '(res, s') := append (snapshot_of a seg) r s in
  no_panic res ∧
  ∃ loaded, (load (restart s')).1 = Ok loaded ∧
    ((loaded = Some (snapshot_of (next_slot a seg) (next_seg seg r))) ∨
     (loaded = (if bool_decide (seg = []) then None else Some (snapshot_of a seg)) ∧
      ∀ snap, res ≠ Ok snap)).
Proof.
  intros Hst He. pose proof (append_run _ _ _ _ _ Hst He) as Hrun. unfold run in Hrun.
  destruct (append (snapshot_of a seg) r s) as [res s']. simpl in Hrun.
  assert (Hload : ∀ a seg old, log_durable s' a seg old → (load (restart s')).1 =
    Ok (if bool_decide (seg = []) then None else Some (snapshot_of a seg))).
  { intros a' seg' old' Hd. eapply load_settled; [by apply log_durable_restart|].
    by apply restart_law, (ld_wf _ _ _ _ Hd). }
  destruct Hrun as (_&[(->&Hd%log_state_durable)|(e&->&_&[Hd|Hd])]); (split; [done|]);
    eexists; (split; [by eapply Hload|]).
  - left. by rewrite bool_decide_false by apply next_seg_nonempty.
  - right. by split.
  - left. by rewrite bool_decide_false by apply next_seg_nonempty.
Qed.


(** C39: The synchronization of the rotated slot does not cover the slot it
    leaves.  When the append that fills a segment failed at its synchronization
    (the 64th record is live but not durable) and the writer goes on without a
    restart, reloading accepts the 64 records, the next append rotates and is
    acknowledged, and a crash then leaves slots that share no bridge: loading
    fails with [DivergentSlots] and the acknowledged record is unreachable. *)
Theorem generation_log_failed_sync_then_rotation_diverges s a p seg r r' old :
  is_slot a → Storage.wf s → healthy s →
  chained (p :: seg ++ [r]) → blen (p :: seg) = 63 → idle (p :: seg ++ [r]) old →
  extends (p :: seg ++ [r]) r' →
  holds s (slot_file a) (Some (View (encs (p :: seg ++ [r])) (encs (p :: seg)) true)) →
  holds s (slot_file (1 - a)) (Some (View (encs old) (encs old) true)) →
  (load s).1 = Ok (Some (snapshot_of a (p :: seg ++ [r]))) ∧
  ∃ snap' s', append (snapshot_of a (p :: seg ++ [r])) r' s = (Ok snap', s') ∧
    (load (restart s')).1 = Err DivergentSlots.
Proof.
  intros Ha Hw Hh Hc H63 Hi He Hact Hoth. destruct (idle_bound _ _ Hi) as [Hbo Hco].
  set (full := p :: seg ++ [r]) in *.
  assert (H64 : blen full = 64).
  { unfold full. change (p :: seg ++ [r]) with ((p :: seg) ++ [r]). rewrite blen_app, H63. done. }
  assert (Hb : blen full ≤ MAX_SEGMENT_RECORDS) by (unfold MAX_SEGMENT_RECORDS; lia).
  assert (Hrot : rotates full = true) by (unfold rotates, MAX_SEGMENT_RECORDS; by rewrite H64).
  assert (Hnext : next_seg full r' = [r; r']).
  { unfold next_seg. rewrite Hrot. unfold full. change (p :: seg ++ [r]) with ((p :: seg) ++ [r]).
    by rewrite last_snoc. }
  assert (Hc2 : chained [r; r']) by (rewrite <-Hnext; by apply next_chained).
  assert (Hcs : chained (p :: seg) ∧ ∀ l, list.last (p :: seg) = Some l → l.(generation) < r.(generation)).
  { unfold full in Hc. change (p :: seg ++ [r]) with ((p :: seg) ++ [r]) in Hc.
    apply chained_snoc in Hc as (?&_&Hf). split; [done|]. intros l [Hg _]%Hf. lia. }
  destruct Hcs as [Hcs Hlast].
  split.
  { rewrite (load_two_slots s a full old (encs (p :: seg)) true (encs old) true) by done. by rewrite (select_active a full old Ha Hc Hi). }
  pose proof (append_target_run s a full r' (View (encs full) (encs (p :: seg)) true) (encs old) (encs old)) as Hrun.
  unfold next_slot in Hrun. rewrite Hrot, Hnext in Hrun. replace (1 - (1 - a)) with a in Hrun by lia.
  specialize (Hrun Ha Hc Hb He ltac:(by split_and!) ltac:(done)).
  unfold run in Hrun. destruct (append (snapshot_of a full) r' s) as [res s']. simpl in Hrun.
  destruct Hrun as [(->&Hat)|(?&_&?&_)]; [|done].
  do 2 eexists. split; [done|]. destruct Hat as (Hw'&_&Ht&Ho).
  destruct (restart_law s' Hw') as (Hwr&Hhr&Hl&_).
  rewrite (load_two_slots (restart s') (1 - a) [r; r'] (p :: seg) (encs [r; r']) true (encs (p :: seg)) true);
    [|done|done|by apply is_slot_other|by eapply Hl| |done|by vm_compute|done|by rewrite H63].
  - apply select_divergent; auto using is_slot_other.
  - replace (1 - (1 - a)) with a by lia. by eapply Hl.
Qed.
End Properties.

(** ** Concrete logs *)
Section Witnesses.
#[local] Existing Instances Crc32cBitwise.ops Crc32cBitwise.laws TagHash.ops TagHash.laws.

Definition first_record : CommitRecord := {|
  generation := 1; previous_record_hash := zeros 32; namespace_root := le_bytes 32 11;
  policy_set := le_bytes 32 13; namespace_mutation_cutoff := 0;
  inode_reservation_end := 1024; inode_allocation_cursor := 2; format_epoch := 3 |}.
(** The next generation with an unchanged namespace. *)
Definition grow (p : CommitRecord) : CommitRecord := {|
  generation := p.(generation) + 1; previous_record_hash := CommitRecordHash_of (enc p);
  namespace_root := p.(namespace_root); policy_set := p.(policy_set);
  namespace_mutation_cutoff := p.(namespace_mutation_cutoff);
  inode_reservation_end := p.(inode_reservation_end);
  inode_allocation_cursor := p.(inode_allocation_cursor); format_epoch := p.(format_epoch) |}.
Fixpoint grown (p : CommitRecord) (n : nat) : list CommitRecord :=
  match n with O => [] | S n => p :: grown (grow p) n end.

Lemma first_record_wf : Commit.wf first_record.
Proof. split; vm_compute; intuition discriminate. Qed.
Lemma grow_follows p :
  Commit.wf p → p.(generation) + 1 ≤ u64_max → Commit.wf (grow p) ∧ follows p (grow p).
Proof.
  intros [Hg Hh Hs Hr Hp Hc Hcur Hres He] Hmax. split.
  - split; cbn [generation previous_record_hash namespace_root policy_set namespace_mutation_cutoff
      inode_reservation_end inode_allocation_cursor format_epoch grow]; try done; [lia|].
    split; [lia|]. intros Hz. by apply TagHash.tag_hash_nonzero in Hz.
  - split_and!; [done..|]. unfold regresses. simpl. by rewrite !Z.ltb_irrefl.
Qed.
Lemma grown_chained n p prev :
  Commit.wf p → p.(generation) + Z.of_nat n ≤ u64_max →
  (∀ q, prev = Some q → follows q p) → chain_from prev (grown p n).
Proof.
  revert p prev. induction n as [|n IH]; intros p prev Hp Hmax Hf; [done|]. simpl. split_and!; [done..|].
  destruct n as [|n]; [done|]. destruct (grow_follows p Hp ltac:(lia)) as [Hw Hg].
  apply IH; [done|simpl; lia|]. by intros q [= <-].
Qed.

Lemma grown_length n p : length (grown p n) = n.
Proof. revert p. induction n as [|n IH]; intros p; simpl; [done|]. by rewrite IH. Qed.

Definition slots (c0 d0 c1 d1 : bytes) : Memory.StorageState :=
  Memory.two_files (slot_file 0) (slot_file 1) {| Memory.live := c0; Memory.durable := d0 |}
    {| Memory.live := c1; Memory.durable := d1 |}.
Lemma slots_facts c0 d0 c1 d1 :
  let s := slots c0 d0 c1 d1 in
  Storage.wf s ∧ healthy s ∧ holds s (slot_file 0) (Some (View c0 d0 true)) ∧
  holds s (slot_file 1) (Some (View c1 d1 true)).
Proof. apply Memory.two_files_facts; done. Qed.

(** A log of [n] generations in slot 0. *)
Lemma grown_log_state n :
  (n ≤ 64)%nat → let b := encs (grown first_record n) in
  log_state (slots b b [] []) 0 (grown first_record n) [].
Proof.
  intros Hn b. destruct (slots_facts b b [] []) as (?&?&?&?). split; try done; [by left| | |by left].
  - apply grown_chained; [apply first_record_wf|simpl; unfold u64_max; lia|done].
  - change (blen ?x) with (Z.of_nat (length x)). unfold MAX_SEGMENT_RECORDS.
    rewrite grown_length. lia.
Qed.
Lemma grown_snoc p n : grown p (S n) = grown p n ++ [Nat.iter n grow p].
Proof.
  revert p. induction n as [|n IH]; intros p; [done|].
  change (grown p (S (S n))) with (p :: grown (grow p) (S n)). rewrite IH. simpl. do 3 f_equal.
  clear. induction n; simpl; congruence.
Qed.
Lemma grown_extends n :
  Z.of_nat n + 2 ≤ u64_max → extends (grown first_record n) (Nat.iter n grow first_record).
Proof.
  intros Hn. pose proof (grown_chained (S n) first_record None first_record_wf) as Hc.
  rewrite grown_snoc in Hc.
  destruct (proj1 (chained_snoc _ _) (Hc ltac:(simpl; lia) ltac:(done))) as (_&Hw&Hf).
  split; [done|]. destruct n as [|n]; [done|].
  destruct (list.last (grown first_record (S n))) as [q|] eqn:E; [by apply Hf|].
  by apply last_None in E.
Qed.

Lemma generation_log_append_commits_witness :
  ∃ snap' s', append (snapshot_of 0 (grown first_record 2)) (Nat.iter 2 grow first_record)
    (slots (encs (grown first_record 2)) (encs (grown first_record 2)) [] []) = (Ok snap', s') ∧
    (load (restart s')).1 = Ok (Some snap').
Proof.
  destruct (generation_log_append_commits _ 0 (grown first_record 2) [] (Nat.iter 2 grow first_record)
    (grown_log_state 2 ltac:(lia))) as [Hok _].
  - apply (grown_extends 2). by vm_compute.
  - destruct Hok as (snap'&s'&?&_&_&_&_&?).
    + apply slots_facts.
    + apply (grown_extends 2). by vm_compute.
    + exists snap', s'. split; assumption.
Defined.

Lemma generation_log_append_atomic_witness :
  let s := slots (encs (grown first_record 64)) (encs (grown first_record 64)) [] [] in
  ∃ loaded, (load (restart (append (snapshot_of 0 (grown first_record 64))
    (Nat.iter 64 grow first_record) (Memory.arm_failpoint s false 4)).2)).1 = Ok loaded.
Proof.
  intros s.
  assert (Hst : log_state (Memory.arm_failpoint s false 4) 0 (grown first_record 64) []).
  { destruct (grown_log_state 64 ltac:(lia)) as [[]]. split; done. }
  pose proof (generation_log_append_atomic _ _ _ _ _ Hst (grown_extends 64 ltac:(by vm_compute))) as Ha.
  destruct (append _ _ _) as [res s']. destruct Ha as (_&loaded&Hl&_). exists loaded. exact Hl.
Defined.



Lemma generation_log_failed_sync_then_rotation_diverges_witness :
  let full := grown first_record 64 in
  let s := slots (encs full) (encs (grown first_record 63)) [] [] in
  (load s).1 = Ok (Some (snapshot_of 0 full)) ∧
  ∃ snap' s', append (snapshot_of 0 full) (Nat.iter 64 grow first_record) s = (Ok snap', s') ∧
    (load (restart s')).1 = Err DivergentSlots.
Proof.
  intros full s.
  destruct (slots_facts (encs full) (encs (grown first_record 63)) [] []) as (?&?&?&?).
  apply (generation_log_failed_sync_then_rotation_diverges s 0 first_record
    (grown (grow first_record) 62) (Nat.iter 63 grow first_record) (Nat.iter 64 grow first_record) []);
    change (first_record :: grown (grow first_record) 62) with (grown first_record 63);
    replace (first_record :: grown (grow first_record) 62 ++ [Nat.iter 63 grow first_record])
      with full by (apply (grown_snoc first_record 63)).
  - left. reflexivity.
  - assumption.
  - assumption.
  - apply (ls_chain _ _ _ _ (grown_log_state 64 ltac:(lia))).
  - change (blen ?x) with (Z.of_nat (length x)). rewrite grown_length. reflexivity.
  - left. reflexivity.
  - apply (grown_extends 64). by vm_compute.
  - assumption.
  - assumption.
Defined.
End Witnesses.
End GenerationLogSafety.
