(* ===== verification/GenerationAllocator.v ===== *)
(** * The container generation allocator
      ([fastdup-store/src/container_generation_allocator.rs])

    Containers carry a generation that must never be handed out twice.  The
    allocator reserves generations in spans: a high-water record in one of two
    slots makes the span durable before any of it is returned.  The process
    state is the registry, which all handles of one repository share.

    The operations are stated for any [StorageIo].  Mutexes are not modelled:
    every operation holds the registry's or the state's lock throughout. *)
From Stdlib Require Import Sorted.
From S2P Require Import Storage Layout HighWater.

Module GenerationAllocator.
Import HighWater.

Definition CONTAINER_GENERATION_HIGH_WATER_SLOT_0 : string := "container-generation.wal".
Definition CONTAINER_GENERATION_HIGH_WATER_SLOT_1 : string := "container-generation.1.wal".
Definition CONTAINER_GENERATION_RESERVATION_SPAN_V1 : Z := 1024.

(** The variants of [StoreError] these functions return. *)
Inductive StoreError :=
  | Io (e : IoErrorKind)
  | PublishVerificationMismatch
  | InvalidPublishedName (name : string)
  | InvalidContainerGenerationReservationSpan
  | ContainerGenerationExhausted
  | ContainerGenerationHighWaterFormat (e : HighWaterFormatError)
  | ContainerGenerationHighWaterMissing
  | ContainerGenerationHighWaterChain
  | ContainerGenerationHighWaterBehind (reserved_through observed : Z).

Record AllocatorState := {
  selected : option HighWaterRecord;
  next : Z;
  state_reserved_through : Z;
}.
Record DecodedSlot := { record : HighWaterRecord; hash : Hash }.

(** ** Published container names ([fastdup-store/src/lib.rs]) *)

(** [fn decode_hex_nibble] *)
Definition decode_hex_nibble (c : Z) : option Z :=
  if (48 <=? c) && (c <=? 57) then Some (c - 48)
  else if (97 <=? c) && (c <=? 102) then Some (c - 97 + 10)
  else None.
Fixpoint decode_hex_pairs (l : list Z) : option (list Z) :=
  match l with
  | high :: low :: l =>
      high ← decode_hex_nibble high;
      low ← decode_hex_nibble low;
      rest ← decode_hex_pairs l;
      Some (Z.lor (Z.shiftl high 4) low :: rest)
  | _ => Some []
  end.
Definition name_bytes (name : string) : list Z :=
  map (λ c, Z.of_N (Ascii.N_of_ascii c)) (String.list_ascii_of_string name).
(** [fn parse_published_name]; the identity is the decoded bytes. *)
Definition parse_published_name (name : string) : outcome StoreError (option (list Z)) :=
  let b := name_bytes name in
  let n := blen b - 4 in
  if (0 <=? n) && bool_decide (sub b n 4 = name_bytes ".fdc") then
    let encoded := sub b 0 n in
    reject_if (negb (blen encoded =? 32)) (InvalidPublishedName name);;
    id ← ok_or (decode_hex_pairs encoded) (InvalidPublishedName name);
    reject_if (bool_decide (id = replicate 16 0)) (InvalidPublishedName name);;
    Ok (Some id)
  else Ok None.
Fixpoint count_published (names : list string) (count : Z) : outcome StoreError Z :=
  match names with
  | [] => Ok count
  | name :: names =>
      id ← parse_published_name name;
      match id with
      | Some _ => count ← ok_or (checked_add u64_max count 1) (Io Other); count_published names count
      | None => count_published names count
      end
  end.

Section Storage.
Context `{StorageIo St, Crc32c, Blake3}.
Abbreviation store := (prog St StoreError).

Definition call {A} (m : io St A) : store A := lift_err Io m.

(** [ContainerRepository::published_container_count] *)
Definition published_container_count : store Z :=
  names ← call list_names;
  pure (count_published names 0).

(** [fn ensure_slots] *)
Definition ensure_slot (name : string) : store () :=
  present ← call (exists_ name);
  if present : bool then mret ()
  else call (create_new name);; call (sync_file name).
Definition ensure_slots : store () :=
  ensure_slot CONTAINER_GENERATION_HIGH_WATER_SLOT_0;;
  ensure_slot CONTAINER_GENERATION_HIGH_WATER_SLOT_1;;
  call sync_root.

(** [fn read_slot] *)
Definition read_slot (name : string) : store (option DecodedSlot) :=
  length ← call (object_len name);
  if length =? 0 then mret None
  else
    pure (reject_if (negb (length =? CONTAINER_GENERATION_HIGH_WATER_RECORD_BYTES))
            (ContainerGenerationHighWaterFormat (InvalidLength length)));;
    b ← call (read_exact_at name 0 CONTAINER_GENERATION_HIGH_WATER_RECORD_BYTES);
    record ← pure (map_err ContainerGenerationHighWaterFormat (decode b));
    mret (Some {| record := record; hash := Hash_of b |}).

(** The match of [fn load_selected] *)
Definition select_slot (first second : option DecodedSlot)
    : outcome StoreError (option DecodedSlot) :=
  match first, second with
  | None, None => Ok None
  | Some slot, None | None, Some slot =>
      if slot.(record).(sequence) =? 1 then Ok (Some slot)
      else Err ContainerGenerationHighWaterChain
  | Some first, Some second =>
      let '(older, newer) :=
        if first.(record).(sequence) <? second.(record).(sequence)
        then (first, second) else (second, first) in
      reject_if
        (negb (newer.(record).(sequence) =? saturating_add u64_max older.(record).(sequence) 1)
         || negb (bool_decide (newer.(record).(previous_record_hash) = older.(hash)))
         || (newer.(record).(reserved_through) <? older.(record).(reserved_through)))
        ContainerGenerationHighWaterChain;;
      Ok (Some newer)
  end.
(** [fn load_selected] *)
Definition load_selected : store (option DecodedSlot) :=
  first ← read_slot CONTAINER_GENERATION_HIGH_WATER_SLOT_0;
  second ← read_slot CONTAINER_GENERATION_HIGH_WATER_SLOT_1;
  pure (select_slot first second).

(** [fn publish_successor] *)
Definition successor_of (selected : option HighWaterRecord) (reserved_through : Z)
    : outcome StoreError HighWaterRecord :=
  '(sequence, previous_hash) ← match selected with
    | Some record =>
        b ← encode record;
        sequence ← ok_or (checked_add u64_max record.(sequence) 1) ContainerGenerationExhausted;
        Ok (sequence, Hash_of b)
    | None => Ok (1, Hash_ZERO)
    end;
  map_err ContainerGenerationHighWaterFormat (new sequence previous_hash reserved_through).
Definition slot_for (sequence : Z) : string :=
  if sequence `mod` 2 =? 1 then CONTAINER_GENERATION_HIGH_WATER_SLOT_0
  else CONTAINER_GENERATION_HIGH_WATER_SLOT_1.
Definition publish_successor (selected : option HighWaterRecord) (reserved_through : Z)
    : store HighWaterRecord :=
  record ← pure (successor_of selected reserved_through);
  b ← pure (encode record);
  let target := slot_for record.(sequence) in
  call (set_len target 0);;
  call (write_at target 0 b);;
  call (set_len target CONTAINER_GENERATION_HIGH_WATER_RECORD_BYTES);;
  reread ← call (read_exact_at target 0 CONTAINER_GENERATION_HIGH_WATER_RECORD_BYTES);
  mismatch ← pure (
    Ok (negb (bool_decide (reread = b)))
    ||? (decoded ← map_err ContainerGenerationHighWaterFormat (decode reread);
         Ok (negb (bool_decide (decoded = record)))));
  pure (reject_if mismatch PublishVerificationMismatch);;
  call (sync_file target);;
  mret record.

(** [fn audit_generation_high_water] *)
Definition audit_missing (observed_generation : option Z) : outcome StoreError (option Z) :=
  match observed_generation with
  | Some _ => Err ContainerGenerationHighWaterMissing
  | None => Ok None
  end.
Definition audit_single (name : string) (observed_generation : option Z) : store (option Z) :=
  slot ← read_slot name;
  match slot with
  | None => pure (audit_missing observed_generation)
  | Some _ => pure (Err ContainerGenerationHighWaterChain)
  end.
Definition audit_generation_high_water (observed_generation : option Z) : store (option Z) :=
  first_exists ← call (exists_ CONTAINER_GENERATION_HIGH_WATER_SLOT_0);
  second_exists ← call (exists_ CONTAINER_GENERATION_HIGH_WATER_SLOT_1);
  match first_exists, second_exists with
  | false, false => pure (audit_missing observed_generation)
  | true, false => audit_single CONTAINER_GENERATION_HIGH_WATER_SLOT_0 observed_generation
  | false, true => audit_single CONTAINER_GENERATION_HIGH_WATER_SLOT_1 observed_generation
  | true, true =>
      selected ← load_selected;
      match selected with
      | None => mret None
      | Some selected =>
          let reserved_through := selected.(record).(reserved_through) in
          match observed_generation with
          | Some observed =>
              if reserved_through <? observed
              then pure (Err (ContainerGenerationHighWaterBehind reserved_through observed))
              else mret (Some reserved_through)
          | None => mret (Some reserved_through)
          end
      end
  end.
End Storage.

(** ** The allocator: storage and registry *)
Section Allocator.
Context `{StorageIo St, Crc32c, Blake3}.

Record Process := { storage : St; registered : option AllocatorState }.
Abbreviation alloc := (prog Process StoreError).

Definition on_storage {A} (m : prog St StoreError A) : alloc A := λ p,
  let '(r, s) := m (storage p) in (r, {| storage := s; registered := registered p |}).
Definition register (state : AllocatorState) : alloc () := λ p,
  (Ok (), {| storage := storage p; registered := Some state |}).

(** [ContainerGenerationAllocator::open]; the handle is its span. *)
Definition open (reservation_span : Z) : alloc Z :=
  pure (reject_if (reservation_span =? 0) InvalidContainerGenerationReservationSpan);;
  p ← get_state;
  match registered p with
  | Some _ => mret reservation_span
  | None =>
      first_exists ← on_storage (call (exists_ CONTAINER_GENERATION_HIGH_WATER_SLOT_0));
      second_exists ← on_storage (call (exists_ CONTAINER_GENERATION_HIGH_WATER_SLOT_1));
      (if negb first_exists || negb second_exists then
         count ← on_storage published_container_count;
         pure (reject_if (negb (count =? 0)) ContainerGenerationHighWaterMissing)
       else mret ());;
      on_storage ensure_slots;;
      selected ← on_storage load_selected;
      (if bool_decide (is_Some selected) then mret ()
       else
         count ← on_storage published_container_count;
         pure (reject_if (negb (count =? 0)) ContainerGenerationHighWaterMissing));;
      let selected := option_map record selected in
      let reserved_through := match selected with Some r => r.(reserved_through) | None => 0 end in
      next ← pure (ok_or (checked_add u64_max reserved_through 1) ContainerGenerationExhausted);
      register {| selected := selected; next := next;
                  state_reserved_through := reserved_through |};;
      mret reservation_span
  end.

(** [ContainerGenerationAllocator::reserve_generation] *)
Definition extend_reservation (reservation_span : Z) (state : AllocatorState)
    : alloc AllocatorState :=
  if state_reserved_through state <? next state then
    reserved_through ← pure (ok_or
      (checked_add u64_max (state_reserved_through state) reservation_span)
      ContainerGenerationExhausted);
    record ← on_storage (publish_successor (selected state) reserved_through);
    let state := {| selected := Some record; next := next state;
                    state_reserved_through := reserved_through |} in
    register state;;
    mret state
  else mret state.
Definition reserve_generation (reservation_span : Z) : alloc Z :=
  p ← get_state;
  state ← pure (expect (registered p));
  state ← extend_reservation reservation_span state;
  let generation := next state in
  next ← pure (ok_or (checked_add u64_max (next state) 1) ContainerGenerationExhausted);
  register {| selected := selected state; next := next;
              state_reserved_through := state_reserved_through state |};;
  mret generation.

(** [ContainerGenerationAllocator::durable_reserved_through] *)
Definition durable_reserved_through (p : Process) : option Z :=
  option_map state_reserved_through (registered p).
End Allocator.
Arguments Process St : clear implicits.

(** ** The slots *)
Section Slots.
Context `{StorageLaws St, Crc32cLaws, Blake3Laws}.
Abbreviation SLOT_0 := CONTAINER_GENERATION_HIGH_WATER_SLOT_0.
Abbreviation SLOT_1 := CONTAINER_GENERATION_HIGH_WATER_SLOT_1.

Definition enc (r : HighWaterRecord) : bytes := seal 4096 (fields r) 72.
Lemma hw_enc_encode {E} r : HighWater.wf r → @encode E _ r = Ok (enc r).
Proof. apply high_water_encode_seal. Qed.
Lemma hw_blen_enc r : HighWater.wf r → blen (enc r) = 4096.
Proof. intros. apply blen_seal; try done. by apply high_water_fits. Qed.
Lemma hw_decode_enc r : HighWater.wf r → decode (enc r) = Ok r.
Proof. intros. apply high_water_decode_encode; [done|]. by apply hw_enc_encode. Qed.

(** [r] succeeds [p], or starts the chain. *)
Definition links (p : option HighWaterRecord) (r : HighWaterRecord) : Prop :=
  match p with
  | None => r.(sequence) = 1
  | Some p => r.(sequence) = p.(sequence) + 1 ∧
              r.(previous_record_hash) = Hash_of (enc p) ∧
              p.(reserved_through) ≤ r.(reserved_through)
  end.
Definition hw_bytes (r : option HighWaterRecord) : bytes :=
  match r with Some r => enc r | None => [] end.
Definition hw_wf (r : option HighWaterRecord) : Prop :=
  match r with Some r => HighWater.wf r | None => True end.
Definition hw_reserved (r : option HighWaterRecord) : Z :=
  match r with Some r => r.(reserved_through) | None => 0 end.
Definition hw_sequence (r : option HighWaterRecord) : Z :=
  match r with Some r => r.(sequence) | None => 0 end.

(** The slot of the selected record (slot 1 before the first) and the slot
    the next record goes to. *)
Definition slot_at (r : option HighWaterRecord) : string := slot_for (hw_sequence r).
Definition slot_next (r : option HighWaterRecord) : string := slot_for (hw_sequence r + 1).

Lemma slot_for_01 k : (slot_for k = SLOT_0 ∧ slot_for (k + 1) = SLOT_1) ∨
                      (slot_for k = SLOT_1 ∧ slot_for (k + 1) = SLOT_0).
Proof.
  unfold slot_for. destruct (Z.eqb_spec (k `mod` 2) 1) as [E|E].
  - left. assert ((k + 1) `mod` 2 = 0) as ->; [|done].
    rewrite Z.add_mod, E by lia. done.
  - right. assert (k `mod` 2 = 0) as E0 by (pose proof (Z.mod_pos_bound k 2); lia).
    assert ((k + 1) `mod` 2 = 1) as ->; [|done]. rewrite Z.add_mod, E0 by lia. done.
Qed.
Lemma slot_next_ne r : slot_at r ≠ slot_next r.
Proof. unfold slot_at, slot_next. destruct (slot_for_01 (hw_sequence r)) as [[-> ->]|[-> ->]]; done. Qed.
Lemma slot_for_2 k : slot_for (k + 2) = slot_for k.
Proof. unfold slot_for. by rewrite <-(Z.mod_add k 1 2) by lia. Qed.

(** The contents that may stand in the next slot: the predecessor of the
    selected record (or nothing), or, after a publication that failed at the
    end, its successor. *)
Definition predecessor (sel : option HighWaterRecord) (d : bytes) : Prop :=
  ∃ p, d = hw_bytes p ∧ hw_wf p ∧ match sel with Some r => links p r | None => p = None end.
Definition successor (sel : option HighWaterRecord) (d : bytes) (r : HighWaterRecord) : Prop :=
  d = enc r ∧ HighWater.wf r ∧ links sel r.

(** The slots while the process runs: the selected record is stable, the next
    slot is scratch whose durable content is a neighbour in the chain. *)
Record pending (s : St) (sel : option HighWaterRecord) : Prop := {
  pd_wf : Storage.wf s;
  pd_sel : hw_wf sel;
  pd_at : holds s (slot_at sel) (Some (View (hw_bytes sel) (hw_bytes sel) true));
  pd_next : ∃ c d, holds s (slot_next sel) (Some (View c d true)) ∧
              (predecessor sel d ∨ ∃ r, successor sel d r);
}.
(** The slots after a start. *)
Record settled (s : St) (sel : option HighWaterRecord) : Prop := {
  st_wf : Storage.wf s;
  st_sel : hw_wf sel;
  st_at : holds s (slot_at sel) (Some (View (hw_bytes sel) (hw_bytes sel) true));
  st_next : ∃ c, holds s (slot_next sel) (Some (View c c true)) ∧ predecessor sel c;
}.
Lemma settled_pending s sel : settled s sel → pending s sel.
Proof. intros [??? (c&?&?)]. split; eauto. Qed.

Lemma slot_next_links sel r :
  links sel r → slot_at (Some r) = slot_next sel ∧ slot_next (Some r) = slot_at sel.
Proof.
  unfold slot_at, slot_next. simpl. intros Hl. assert (r.(sequence) = hw_sequence sel + 1) as ->.
  { destruct sel; simpl in *; naive_solver. }
  split; [done|]. replace (hw_sequence sel + 1 + 1) with (hw_sequence sel + 2) by lia. apply slot_for_2.
Qed.

(** A restart finds the selected record or its successor. *)
Lemma pending_restart s sel :
  pending s sel → ∃ sel', settled (restart s) sel' ∧ hw_reserved sel ≤ hw_reserved sel'.
Proof.
  intros [Hw Hsel Hat (c&d&Hnext&Hd)]. destruct (restart_law s Hw) as (Hwr&_&Hl&_).
  destruct Hd as [Hp|(r&->&Hr&Hlink)].
  - exists sel. split; [|lia]. split; eauto.
  - exists (Some r). destruct (slot_next_links sel r Hlink) as [E1 E2]. split.
    + split; [done|done|rewrite E1; by eapply Hl|]. rewrite E2. exists (hw_bytes sel).
      split; [by eapply Hl|]. exists sel. by split_and!.
    + destruct sel as [p|]; simpl in *; [naive_solver|]. destruct (wf_reserved r Hr). lia.
Qed.

Lemma successor_of_spec sel rt :
  hw_wf sel → hw_reserved sel < rt ≤ u64_max →
  match successor_of sel rt with
  | Ok r => HighWater.wf r ∧ links sel r ∧ r.(reserved_through) = rt
  | Err _ => True
  | Panic => False
  end.
Proof.
  intros Hsel Hrt. unfold successor_of. destruct sel as [p|]; simpl in *.
  - rewrite hw_enc_encode by done. osimpl. destruct (wf_sequence p Hsel). destruct (wf_reserved p Hsel).
    unfold checked_add. destruct (Z.leb_spec (sequence p + 1) u64_max); simpl; [|done].
    destruct (new (sequence p + 1) (Hash_of (enc p)) rt) as [r|e|] eqn:Hn; simpl; [|done|].
    + apply high_water_new_Ok in Hn as [Hw ->]; [|unfold in_u; lia..|apply blake3_hash_blen].
      simpl. split_and!; (done || lia).
    + unfold new in Hn. by repeat case_match.
  - destruct (new 1 Hash_ZERO rt) as [r|e|] eqn:Hn; simpl; [|done|].
    + apply high_water_new_Ok in Hn as [Hw ->]; [|unfold in_u; lia..|done]. done.
    + unfold new in Hn. by repeat case_match.
Qed.

(** Publication: the record is durable when it returns [Ok]; otherwise the
    selected record still is. *)
Lemma publish_run s sel rt :
  pending s sel → hw_reserved sel < rt ≤ u64_max →
  run (publish_successor sel rt) s (λ res s',
    (healthy s → healthy s') ∧
    match res with
    | Ok r => HighWater.wf r ∧ links sel r ∧ r.(reserved_through) = rt ∧ pending s' (Some r)
    | Err _ => pending s' sel
    | Panic => False
    end).
Proof.
  intros Hpd Hrt. destruct (Hpd) as [Hw Hsel Hat (c&d&Hnext&Hd)].
  pose proof (successor_of_spec sel rt Hsel Hrt) as Hs.
  unfold publish_successor. apply run_bind, run_pure.
  destruct (successor_of sel rt) as [r|e|]; [|by split|done]. destruct Hs as (Hr&Hlink&Hres).
  apply run_bind, run_pure. rewrite hw_enc_encode by done. cbv zeta.
  destruct (slot_next_links sel r Hlink) as [E1 E2]. unfold slot_at in E1 at 1. simpl in E1. rewrite E1.
  pose proof (slot_next_ne sel) as Hne. pose proof (hw_blen_enc r Hr) as Hlen.
  unfold CONTAINER_GENERATION_HIGH_WATER_RECORD_BYTES.
  set (at_ := at_target s (slot_next sel) (slot_at sel) (View (hw_bytes sel) (hw_bytes sel) true)).
  assert (Hold : ∀ s' c, at_ s' c d → (healthy s → healthy s') ∧ pending s' sel).
  { intros s' c' (?&?&?&?). split; [done|]. split; eauto. }
  assert (at_ s c d) as Hat0 by (by split_and!).
  eapply run_target; [done|exact Hat0|intros; by apply set_len_law| |].
  2: { intros e s' Hu [?|?]; by eapply Hold. }
  intros s1 Hat1. rewrite resized_0 in Hat1.
  eapply run_target; [done|exact Hat1|intros; apply write_at_law; [done..|unfold usize_max, u64_max; lia]| |].
  2: { intros e s' Hu [?|?]; by eapply Hold. }
  intros s2 Hat2. rewrite (overwrite_end []) in Hat2. change ([] ++ enc r) with (enc r) in Hat2.
  eapply run_target; [done|exact Hat2|intros; by apply set_len_law| |].
  2: { intros e s' Hu [?|?]; by eapply Hold. }
  intros s3 Hat3. rewrite <-Hlen, resized_same in Hat3.
  eapply run_target; [done|exact Hat3|intros; apply read_exact_at_law; unfold MAX_STORAGE_RANGE_BYTES, usize_max, u64_max; (assumption || lia)| |].
  2: { intros e s' Hu [?|?]; by eapply Hold. }
  intros s4 Hat4. rewrite sub_all by lia.
  eapply run_bind, run_pure. rewrite bool_decide_true by done. osimpl.
  rewrite hw_decode_enc by done. osimpl. rewrite bool_decide_true by done. osimpl.
  eapply run_bind, run_pure. osimpl.
  eapply run_target; [done|exact Hat4|intros; by apply sync_file_law| |].
  - intros s5 (?&?&?&?). apply run_ret. split; [done|]. split_and!; [done..|].
    split; [done|done|unfold slot_at; simpl hw_sequence; by rewrite E1|]. rewrite E2. exists (hw_bytes sel), (hw_bytes sel).
    split; [done|]. left. exists sel. by split_and!.
  - intros e s5 Hu [?|(?&?&?&?)]; [by eapply Hold|]. split; [done|]. split; [done..|].
    exists (enc r), (enc r). split; [done|]. right. exists r. by split_and!.
Qed.

Definition decoded (r : HighWaterRecord) : DecodedSlot :=
  {| record := r; hash := Hash_of (enc r) |}.

Lemma read_slot_run s n x d l :
  Storage.wf s → hw_wf x → holds s n (Some (View (hw_bytes x) d l)) →
  run (read_slot n) s (λ r s', keeps s s' (λ _, True) ∧
    (r = Ok (option_map decoded x) ∨ ∃ e, r = Err (Io e) ∧ ¬ healthy s)).
Proof.
  intros Hw Hx Hv. unfold read_slot.
  assert (Hlen : blen (hw_bytes x) = match x with Some _ => 4096 | None => 0 end).
  { destruct x; [by apply hw_blen_enc|done]. }
  apply run_bind, run_lift_err. eapply run_read; [apply object_len_law; [done..|]|done| |].
  { rewrite Hlen. destruct x; by vm_compute. }
  2: { intros e s' Hk _ Hu. split; [done|]. right. eauto. }
  intros s1 Hk1. simpl. rewrite Hlen. destruct x as [r|].
  2: { apply run_ret. split; [done|]. by left. }
  simpl Z.eqb. cbv iota. unfold CONTAINER_GENERATION_HIGH_WATER_RECORD_BYTES.
  apply run_bind, run_pure. osimpl. simpl in Hx, Hlen, Hv.
  apply run_bind, run_lift_err. assert (Hv1 : holds s1 n (Some (View (enc r) d l))) by (by apply Hk1).
  eapply run_read; [apply read_exact_at_law; [apply Hk1|exact Hv1|..]|exact Hv1| |].
  1-5: unfold MAX_STORAGE_RANGE_BYTES, usize_max, u64_max; lia.
  2: { intros e s' Hk _ Hu. split; [by eapply keeps_trans|]. right. exists e. split; [done|].
       intros ?. by apply Hu, Hk1. }
  intros s2 Hk2. simpl. rewrite sub_all by lia. apply run_bind, run_pure. rewrite hw_decode_enc by done.
  osimpl. apply run_ret. split; [by eapply keeps_trans|]. by left.
Qed.

Lemma select_slot_of p r :
  hw_wf p → HighWater.wf r → links p r →
  select_slot (option_map decoded p) (Some (decoded r)) = Ok (Some (decoded r)) ∧
  select_slot (Some (decoded r)) (option_map decoded p) = Ok (Some (decoded r)).
Proof.
  intros Hp Hr Hl. destruct p as [p|]; simpl in *.
  2: { rewrite Hl. done. }
  destruct Hl as (Hs&Hh&Hres). destruct (wf_sequence r Hr).
  rewrite (proj2 (Z.ltb_lt (sequence p) (sequence r))), (proj2 (Z.ltb_ge (sequence r) (sequence p))) by lia.
  unfold saturating_add. simpl. rewrite Z.min_r by lia.
  rewrite <-Hs, Z.eqb_refl, Hh, bool_decide_true by done. simpl.
  by rewrite (proj2 (Z.ltb_ge _ _)) by lia.
Qed.

Lemma load_selected_run s sel :
  settled s sel →
  run load_selected s (λ r s', keeps s s' (λ _, True) ∧
    (r = Ok (option_map decoded sel) ∨ ∃ e, r = Err (Io e) ∧ ¬ healthy s)).
Proof.
  intros [Hw Hsel Hat (c&Hnext&(p&->&Hp&Hlink))].
  assert (H01 : ∃ x y, holds s SLOT_0 (Some (View (hw_bytes x) (hw_bytes x) true)) ∧
    holds s SLOT_1 (Some (View (hw_bytes y) (hw_bytes y) true)) ∧ hw_wf x ∧ hw_wf y ∧
    select_slot (option_map decoded x) (option_map decoded y) = Ok (option_map decoded sel)).
  { unfold slot_at, slot_next in *. destruct (slot_for_01 (hw_sequence sel)) as [[E1 E2]|[E1 E2]];
      rewrite E1 in Hat; rewrite E2 in Hnext; [exists sel, p|exists p, sel]; split_and!; try done;
      destruct sel as [r|]; subst; try done.
    - by apply (select_slot_of p r).
    - by apply (select_slot_of p r). }
  destruct H01 as (x&y&Hx&Hy&Hwx&Hwy&Hselect).
  unfold load_selected. apply run_bind. eapply run_mono; [by eapply (read_slot_run s _ x)|]. simpl.
  intros r s1 (Hk1&[->|(e&->&?)]); [|split; [done|]; right; by eauto].
  apply run_bind. eapply run_mono; [eapply (read_slot_run s1 _ y); [apply Hk1|done|by apply Hk1]|]. simpl.
  intros r s2 (Hk2&[->|(e&->&Hu)]).
  - apply run_pure. split; [by eapply keeps_trans|]. by left.
  - split; [by eapply keeps_trans|]. right. exists e. split; [done|]. intros ?. by apply Hu, Hk1.
Qed.
End Slots.

(** ** Runs of the allocator *)
Section Runs.
Context `{StorageLaws St, Crc32cLaws, Blake3Laws}.
Abbreviation SLOT_0 := CONTAINER_GENERATION_HIGH_WATER_SLOT_0.
Abbreviation SLOT_1 := CONTAINER_GENERATION_HIGH_WATER_SLOT_1.

Lemma run_on_storage {A} (m : prog St StoreError A) p Q :
  run m (storage p) (λ r s', Q r {| storage := s'; registered := registered p |}) →
  run (on_storage m) p Q.
Proof. unfold run, on_storage. by destruct (m (storage p)). Qed.

Lemma settled_keeps s s' sel : keeps s s' (λ _, True) → settled s sel → settled s' sel.
Proof. intros (?&_&Hk) [??? (c&?&?)]. split; eauto. Qed.

Lemma settled_slot s sel n : settled s sel → n = SLOT_0 ∨ n = SLOT_1 → ∃ c, holds s n (Some (View c c true)).
Proof.
  intros [_ _ Hat (c&Hnext&_)] Hn. unfold slot_at, slot_next in *.
  destruct (slot_for_01 (hw_sequence sel)) as [[E1 E2]|[E1 E2]]; rewrite E1 in Hat; rewrite E2 in Hnext;
    destruct Hn as [-> | ->]; eauto.
Qed.

(** A repository before its first opening succeeded. *)
Record fresh (s : St) : Prop := {
  fresh_wf : Storage.wf s;
  fresh_slot_0 : blank s SLOT_0;
  fresh_slot_1 : blank s SLOT_1;
}.
(** What an opening starts from: the slots of an earlier run, or nothing. *)
Definition base (s : St) (sel : option HighWaterRecord) : Prop :=
  settled s sel ∨ (sel = None ∧ fresh s).

Lemma settled_of_empty s :
  Storage.wf s → holds s SLOT_0 (Some (View [] [] true)) → holds s SLOT_1 (Some (View [] [] true)) →
  settled s None.
Proof. intros. split; [done..|]. exists []. split; [done|]. by exists None. Qed.
Lemma allocator_fresh_restart s : fresh s → fresh (restart s).
Proof. intros [Hw ??]. split; [by apply restart_law|by apply blank_restart..]. Qed.
Lemma base_content s s' sel :
  Storage.wf s' → (∀ n v, holds s n v → holds s' n v) → base s sel → base s' sel.
Proof.
  intros Hw Hh [[??? (c&?&?)]|(->&[_ ??])]; [left; split; eauto|right].
  split; [done|]. by split; [|eapply blank_content..].
Qed.

(** An invariant of the unregistered process that read-only calls keep. *)
Definition stable (R : St → option HighWaterRecord → Prop) : Prop := ∀ s sel,
  R s sel → Storage.wf s ∧ ∀ s', keeps s s' (λ _, True) → R s' sel.
Lemma stable_settled : stable settled.
Proof. intros s sel Hs. split; [apply Hs|]. intros. by eapply settled_keeps. Qed.
Lemma stable_base : stable base.
Proof.
  intros s sel Hs. split; [by destruct Hs as [[]|(_&[])]|].
  intros s' (Hw&_&Hk). apply (base_content s); auto.
Qed.

Definition quiet {A} (R : St → option HighWaterRecord → Prop) (m : prog St StoreError A) : Prop :=
  ∀ s sel, R s sel → run m s (λ r s', R s' sel ∧ no_panic r).

Lemma base_slot s sel n : base s sel → n = SLOT_0 ∨ n = SLOT_1 → ∃ v, holds s n v.
Proof.
  intros [Hs|(_&[_ H0' H1'])] Hn; [destruct (settled_slot s sel n Hs Hn); by eauto|].
  destruct Hn as [-> | ->]; [destruct H0' as [?|[l ?]]|destruct H1' as [?|[l ?]]]; eauto.
Qed.
Lemma quiet_exists n : n = SLOT_0 ∨ n = SLOT_1 → quiet base (call (exists_ n)).
Proof.
  intros Hn s sel Hs. destruct (base_slot s sel n Hs Hn) as [v Hv].
  destruct (stable_base _ _ Hs) as [Hw Hk]. apply run_lift_err.
  eapply run_read; [by apply exists_law, Hv|done|..]; intros; (split; [by auto|done]).
Qed.

Lemma quiet_count R : stable R → quiet R published_container_count.
Proof.
  intros HR s sel Hs. destruct (HR _ _ Hs) as [Hw Hk]. apply run_bind, run_lift_err.
  eapply run_mono; [by apply list_names_law|]. simpl.
  intros r s' (Hk'&[(names&->)|(e&->&_)]); simpl; [|split; [auto|done]]. apply run_pure. split; [auto|].
  assert (Hp : ∀ name, no_panic (parse_published_name name)).
  { intros name. unfold parse_published_name. cbv zeta.
    apply no_panic_if; auto 10 with fastdup nocore. }
  generalize 0. induction names as [|name names IH]; intros count; simpl; [done|].
  apply no_panic_bind; [done|]. intros [id|] _; [|done].
  apply no_panic_bind; [apply no_panic_ok_or|done].
Qed.

(** A slot that exists is left alone; a missing one is created empty, its
    directory entry not durable yet. *)
Lemma ensure_slot_settled s sel n :
  settled s sel → n = SLOT_0 ∨ n = SLOT_1 →
  run (ensure_slot n) s (λ r s', settled s' sel ∧ no_panic r).
Proof.
  intros Hs Hn. destruct (settled_slot s sel n Hs Hn) as [c Hc]. apply run_bind, run_lift_err.
  eapply run_read; [by apply exists_law, Hc; apply Hs|done|..].
  - intros s' Hk. rewrite bool_decide_true by done. split; [by eapply settled_keeps|done].
  - intros e s' Hk _ _. split; [by eapply settled_keeps|done].
Qed.
Lemma allocator_slot_blank s n :
  Storage.wf s → blank s n →
  run (ensure_slot n) s (λ r s', keeps s s' (.≠ n) ∧
    ((r = Ok () ∧ ∃ l, holds s' n (Some (View [] [] l))) ∨ ((∃ e, r = Err e) ∧ blank s' n))).
Proof.
  intros Hw Hb. assert (∃ v, holds s n v ∧ (v = None ∨ ∃ l, v = Some (View [] [] l))) as (v&Hv&Hcase).
  { destruct Hb as [?|[l ?]]; eauto 10. }
  apply run_bind, run_lift_err. eapply run_read; [by apply exists_law, Hv|done| |].
  2: { intros e s' Hk _ _. split; [by apply (keeps_mono _ _ (λ _, True))|]. right. split; [by eexists|].
       by eapply blank_keeps. }
  intros s1 Hk1. assert (Hv1 : holds s1 n v) by (by apply Hk1).
  apply (keeps_mono _ _ _ (.≠ n)) in Hk1; [|done].
  destruct Hcase as [->|[l ->]]; simpl.
  2: { apply run_ret. split; [done|]. left. by eauto. }
  apply run_bind, run_lift_err. eapply run_mono; [apply create_new_law; [apply Hk1|done]|]. simpl.
  intros r s2 (Hk2&[(->&Hn2)|(e&->&Hn2)]); simpl; pose proof (keeps_trans _ _ _ _ Hk1 Hk2) as Hk.
  2: { split; [done|]. right. split; [by eexists|]. destruct Hn2; [by left|right; by exists false]. }
  apply run_lift_err. eapply run_effect; [apply sync_file_law; [apply Hk|done]|..].
  - intros s3 Hk3 Hn3. split; [by eapply keeps_trans|]. left. eauto.
  - intros e s3 Hk3 _ _ Hn3. split; [by eapply keeps_trans|]. right. split; [by eexists|].
    right. exists false. naive_solver.
Qed.

(** After [ensure_slots] both slots exist and are linked: its last step makes
    the directory entries durable. *)
Lemma ensure_slots_settled s sel :
  settled s sel → run ensure_slots s (λ r s', settled s' sel ∧ no_panic r).
Proof.
  intros Hs. apply run_bind. eapply run_mono; [apply ensure_slot_settled; [done|by left]|].
  simpl. intros [[]|e|] s1 [Hs1 Hp]; [|by split|done].
  apply run_bind. eapply run_mono; [apply ensure_slot_settled; [done|by right]|].
  simpl. intros [[]|e|] s2 [Hs2 Hp2]; [|by split|done].
  apply run_lift_err. destruct Hs2 as [Hw ?? (c&?&?)].
  apply sync_root_run; [done|..].
  - intros s3 Hw3 Hl. split; [|done]. split; eauto.
  - intros e s3 Hw3 Hl.
    assert (Hl' : ∀ n c d, holds s2 n (Some (View c d true)) → holds s3 n (Some (View c d true))).
    { intros n c' d Hn. destruct (Hl _ _ _ _ Hn) as (l'&Hn'&Hl'). by rewrite Hl' in Hn'. }
    split; [|done]. split; eauto.
Qed.
Lemma allocator_slots_fresh s :
  fresh s → run ensure_slots s (λ r s', (r = Ok () ∧ settled s' None) ∨ ((∃ e, r = Err e) ∧ fresh s')).
Proof.
  intros [Hw H0' H1']. assert (Hne : SLOT_1 ≠ SLOT_0) by done.
  apply run_bind. eapply run_mono; [by apply allocator_slot_blank|]. simpl.
  intros r s1 (Hk1&[(->&l0&Hv0)|([e ->]&Hb0)]); simpl.
  2: { right. split; [by exists e|]. split; [apply Hk1|done|by eapply blank_keeps]. }
  pose proof (blank_keeps _ _ _ _ Hk1 Hne H1') as Hb1.
  apply run_bind. eapply run_mono; [apply allocator_slot_blank; [apply Hk1|done]|]. simpl.
  intros r s2 (Hk2&Hr2). assert (Hv0' : holds s2 SLOT_0 (Some (View [] [] l0))) by (by apply Hk2).
  destruct Hr2 as [(->&l1&Hv1)|([e ->]&Hb1')]; simpl.
  2: { right. split; [by exists e|]. split; [apply Hk2|right; by eauto|done]. }
  apply run_lift_err. apply sync_root_run; [apply Hk2|..].
  - intros s3 Hw3 Hl. left. split; [done|]. by apply settled_of_empty; [|eapply Hl..].
  - intros e s3 Hw3 Hl. right. split; [by exists (Io e)|].
    destruct (Hl _ _ _ _ Hv0') as (?&?&_). destruct (Hl _ _ _ _ Hv1) as (?&?&_).
    split; [done|right; by eauto..].
Qed.
Lemma allocator_slots_run s sel :
  base s sel →
  run ensure_slots s (λ r s', (r = Ok () ∧ settled s' sel) ∨ ((∃ e, r = Err e) ∧ base s' sel)).
Proof.
  intros [Hs|(->&Hf)].
  - eapply run_mono; [by apply ensure_slots_settled|]. simpl.
    intros [[]|e|] s' [Hs' Hp]; [by left| |done]. right. split; [by eexists|by left].
  - eapply run_mono; [by apply allocator_slots_fresh|]. simpl.
    intros r s' [?|[? ?]]; [by left|]. right. split; [done|by right].
Qed.

(** The generations in [issued] were returned, in this order. *)
Definition alloc_inv (p : Process St) (issued : list Z) : Prop :=
  StronglySorted Z.lt issued ∧
  match registered p with
  | None => ∃ sel, base (storage p) sel ∧ Forall (λ g, g ≤ hw_reserved sel) issued
  | Some st =>
      pending (storage p) (selected st) ∧
      state_reserved_through st = hw_reserved (selected st) ∧
      1 ≤ next st ≤ state_reserved_through st + 1 ∧ Forall (λ g, g < next st) issued
  end.

Abbreviation started s := {| storage := s; registered := None |}.

(** Steps before the registration keep the selected record. *)
Lemma run_quiet {A B} R (m : prog St StoreError A) (k : A → prog (Process St) StoreError B) s sel
    (Q : outcome StoreError B → Process St → Prop) :
  quiet R m → R s sel →
  (∀ a s', R s' sel → run (k a) (started s') Q) →
  (∀ e s', R s' sel → Q (Err e) (started s')) →
  run (on_storage m ≫= k) (started s) Q.
Proof.
  intros Hm Hs Hok Herr. apply run_bind, run_on_storage.
  eapply run_mono; [by apply Hm|]. simpl. intros [a|e|] s' [Hs' Hp]; auto. done.
Qed.

(** The refusal of a repository that has containers and no high water. *)
Lemma run_count_check {B} R (c : bool) (k : () → prog (Process St) StoreError B) s sel
    (Q : outcome StoreError B → Process St → Prop) :
  stable R → R s sel →
  (∀ s', R s' sel → run (k ()) (started s') Q) →
  (∀ e s', R s' sel → Q (Err e) (started s')) →
  run ((if c then mret ()
        else count ← on_storage published_container_count;
             pure (reject_if (negb (count =? 0)) ContainerGenerationHighWaterMissing)) ≫= k)
    (started s) Q.
Proof.
  intros HR Hs Hok Herr. destruct c; [by apply Hok|]. apply run_bind.
  apply run_quiet with R sel; [by apply quiet_count|done| |by auto].
  intros count s' Hs'. apply run_pure. unfold reject_if. destruct (negb _); auto.
Qed.

Lemma forall_le_lt l (a b : Z) : Forall (λ g, g ≤ a) l → a < b → Forall (λ g, g < b) l.
Proof. intros Hl ?. eapply list.Forall_impl; [exact Hl|]. simpl. lia. Qed.

(** Opening keeps what was issued. *)
Lemma open_run span p issued :
  alloc_inv p issued →
  run (open span) p (λ r p', alloc_inv p' issued ∧ no_panic r ∧
    ∀ h, r = Ok h → h = span ∧ span ≠ 0 ∧ is_Some (registered p')).
Proof.
  intros Hinv. unfold open. apply run_bind, run_pure. unfold reject_if at 1.
  destruct (Z.eqb_spec span 0); [by split_and!|].
  apply run_bind. destruct p as [s [st|]]; simpl.
  { apply run_ret. split_and!; [done..|]. intros h [= <-]. by split_and!. }
  destruct Hinv as (Hsort&sel&Hs&Hle). simpl in Hs.
  assert (Herr : ∀ (e : StoreError) s', base s' sel →
    alloc_inv (started s') issued ∧ no_panic (@Err StoreError Z e) ∧
    ∀ h, @Err StoreError Z e = Ok h → h = span ∧ span ≠ 0 ∧ is_Some (registered (started s'))).
  { intros e s' Hs'. split_and!; [split; simpl; by eauto|done|done]. }
  apply run_quiet with base sel; [apply quiet_exists; by left|done| |auto]. clear s Hs. intros e1 s Hs.
  apply run_quiet with base sel; [apply quiet_exists; by right|done| |auto]. clear s Hs. intros e2 s Hs.
  replace (if negb e1 || negb e2 then _ else mret ()) with
    (if e1 && e2 then mret () else count ← on_storage published_container_count;
      pure (reject_if (negb (count =? 0)) ContainerGenerationHighWaterMissing)) by (by destruct e1, e2).
  apply run_count_check with base sel; [apply stable_base|done| |auto]. clear s Hs. intros s Hs.
  assert (Herr' : ∀ (e : StoreError) s', settled s' sel → _) by (intros e s' ?; apply (Herr e s'); by left).
  apply run_bind, run_on_storage. simpl storage. eapply run_mono; [by eapply allocator_slots_run|]. simpl.
  clear s Hs. intros r s [(->&Hs)|([e ->]&Hs)]; [|by apply Herr].
  apply run_bind, run_on_storage. simpl storage. eapply run_mono; [by eapply load_selected_run|]. simpl.
  intros r s' (Hk&Hr). pose proof (settled_keeps _ _ _ Hk Hs) as Hs'.
  destruct Hr as [->|(e&->&_)]; [|by apply Herr']. clear s Hs Hk.
  apply run_count_check with settled sel; [apply stable_settled|done| |auto]. clear s' Hs'. intros s Hs.
  assert (Hmap : option_map record (option_map decoded sel) = sel) by (by destruct sel).
  rewrite Hmap. apply run_bind, run_pure. unfold checked_add.
  change (match sel with Some r => reserved_through r | None => 0 end) with (hw_reserved sel).
  destruct (Z.leb_spec (hw_reserved sel + 1) u64_max); simpl; [|by apply Herr'].
  apply run_bind. unfold register, run at 1. simpl. apply run_ret. split_and!; [|done|].
  - split; [done|]. simpl. split_and!; [by apply settled_pending|done| |lia|].
    + pose proof (st_sel _ _ Hs) as Hw. destruct sel as [r|]; simpl in *; [|lia].
      destruct (wf_reserved r Hw). lia.
    + eapply forall_le_lt; [exact Hle|lia].
  - intros h [= <-]. by split_and!.
Qed.

(** Reserving returns a generation above all issued ones, or nothing. *)
Lemma reserve_run span p issued :
  alloc_inv p issued → 1 ≤ span → is_Some (registered p) →
  run (reserve_generation span) p (λ r p',
    match r with
    | Ok g => alloc_inv p' (issued ++ [g])
    | Err _ => alloc_inv p' issued
    | Panic => False
    end ∧ is_Some (registered p')).
Proof.
  intros (Hsort&Hreg) Hspan [st Hst]. destruct p as [s reg]. simpl in *. subst reg.
  destruct Hreg as (Hpd&Hres&Hnext&Hlt).
  unfold reserve_generation. apply run_bind. unfold get_state, run at 1. simpl.
  apply run_bind, run_pure. simpl.
  apply run_bind. eapply (run_mono _ _ (λ r p', match r with
    | Ok st' => next st' = next st ∧ registered p' = Some st' ∧ next st ≤ state_reserved_through st' ∧
        pending (storage p') (selected st') ∧ state_reserved_through st' = hw_reserved (selected st')
    | Err _ => alloc_inv p' issued ∧ is_Some (registered p')
    | Panic => False end)).
  { unfold extend_reservation. destruct (Z.ltb_spec (state_reserved_through st) (next st)).
    2: { apply run_ret. by split_and!. }
    apply run_bind, run_pure. unfold checked_add.
    destruct (Z.leb_spec (state_reserved_through st + span) u64_max); simpl.
    2: { split; [|by eexists]. split; [done|]. simpl. split_and!; (done || lia). }
    apply run_bind, run_on_storage. simpl storage.
    eapply run_mono; [apply publish_run; [done|lia]|]. simpl.
    intros [r|e|] s' (_&Hr); [| |done].
    - destruct Hr as (_&_&Hrt&Hpd'). apply run_bind. unfold register, run at 1. simpl.
      apply run_ret. simpl. split_and!; [done..|lia|done|by rewrite Hrt].
    - split; [|by eexists]. split; [done|]. simpl. split_and!; (done || lia). }
  intros [st'|e|] p' Hp'; [|done..]. destruct p' as [s' reg']. simpl in Hp'.
  destruct Hp' as (Hn&->&Hle&Hpd'&Hres'). rewrite Hn.
  apply run_bind, run_pure. unfold checked_add.
  destruct (Z.leb_spec (next st + 1) u64_max); simpl.
  2: { split; [|by eexists]. split; [done|]. simpl. rewrite Hn. split_and!; (done || lia). }
  apply run_bind. unfold register, run at 1. simpl. apply run_ret. split; [|by eexists]. split; simpl.
  - clear -Hsort Hlt. induction Hsort as [|g l Hs IH Hg]; simpl; [by repeat constructor|].
    apply Forall_cons_1 in Hlt as [? ?]. constructor; [by apply IH|]. apply Forall_app_2; [done|].
    by repeat constructor.
  - split_and!; [done|done|lia|lia|]. apply Forall_app_2; [|by repeat constructor; lia].
    eapply list.Forall_impl; [exact Hlt|]. simpl. lia.
Qed.

(** A crash: the process state is lost, the storage restarts. *)
Definition process_restart (p : Process St) : Process St := started (restart (storage p)).

(** A crash of a registered allocator leaves a record that covers what it
    issued. *)
Lemma registered_restart p issued :
  alloc_inv p issued → is_Some (registered p) →
  ∃ sel, settled (restart (storage p)) sel ∧ Forall (λ g, g ≤ hw_reserved sel) issued.
Proof.
  intros (_&Hreg) [st E]. rewrite E in Hreg. destruct Hreg as (Hpd&Hres&Hnext&Hlt).
  destruct (pending_restart _ _ Hpd) as (sel&Hs&Hle). exists sel. split; [done|].
  eapply list.Forall_impl; [exact Hlt|]. simpl. lia.
Qed.
Lemma alloc_inv_restart p issued : alloc_inv p issued → alloc_inv (process_restart p) issued.
Proof.
  intros Hinv. split; [apply Hinv|]. simpl. destruct (registered p) as [st|] eqn:E.
  - destruct (registered_restart p issued Hinv) as (sel&?&?); [by rewrite E|]. exists sel. by split; [left|].
  - destruct Hinv as (_&Hreg). rewrite E in Hreg.
    destruct Hreg as (sel&[Hs%settled_pending|(->&Hf)]&Hle).
    + destruct (pending_restart _ _ Hs) as (sel'&Hs'&Hle').
      exists sel'. split; [by left|]. eapply list.Forall_impl; [exact Hle|]. simpl. lia.
    + exists None. split; [|done]. right. split; [done|]. by apply allocator_fresh_restart.
Qed.
Lemma alloc_inv_content p s' issued :
  Storage.wf s' → (∀ n v, holds (storage p) n v → holds s' n v) → alloc_inv p issued →
  alloc_inv {| storage := s'; registered := registered p |} issued.
Proof.
  intros Hw Hh (Hsort&Hreg). split; [done|]. simpl. destruct (registered p) as [st|].
  - destruct Hreg as ([??? (c&d&?&?)]&?). split; [|done]. split; [done..|by apply Hh|]. eauto.
  - destruct Hreg as (sel&Hs&?). exists sel. split; [|done]. by eapply base_content.
Qed.

(** The runs of a repository: openings, reservations by any handle, failures
    and crashes in any order, on a storage that may turn faulty at any time.
    [issued] are the generations returned.  A run starts on a repository
    without slots (or whose slots an interrupted opening left empty), or on the
    slots an earlier process left. *)
Inductive alloc_run : Process St → list Z → Prop :=
  | arun_new s : fresh s → alloc_run (started s) []
  | arun_start s sel : settled s sel → alloc_run (started s) []
  | arun_open p issued span r p' :
      alloc_run p issued → open span p = (r, p') → alloc_run p' issued
  | arun_reserved p issued span g p' :
      alloc_run p issued → 1 ≤ span → is_Some (registered p) →
      reserve_generation span p = (Ok g, p') → alloc_run p' (issued ++ [g])
  | arun_refused p issued span e p' :
      alloc_run p issued → 1 ≤ span → is_Some (registered p) →
      reserve_generation span p = (Err e, p') → alloc_run p' issued
  | arun_crash p issued : alloc_run p issued → alloc_run (process_restart p) issued
  | arun_faults p issued s' :
      alloc_run p issued → Storage.wf s' → (∀ n v, holds (storage p) n v → holds s' n v) →
      alloc_run {| storage := s'; registered := registered p |} issued.

Lemma alloc_run_inv p issued : alloc_run p issued → alloc_inv p issued.
Proof.
  induction 1 as [s Hs|s sel Hs|p issued span r p' _ IH Ho|p issued span g p' _ IH Hsp Hr Hg|
                  p issued span e p' _ IH Hsp Hr Hg|p issued _ IH|p issued s' _ IH Hw Hh].
  - split; [constructor|]. simpl. exists None. split; [by right|done].
  - split; [constructor|]. simpl. exists sel. split; [by left|done].
  - pose proof (open_run span p issued IH) as Hrun. unfold run in Hrun. rewrite Ho in Hrun. apply Hrun.
  - pose proof (reserve_run span p issued IH Hsp Hr) as Hrun. unfold run in Hrun. rewrite Hg in Hrun.
    apply Hrun.
  - pose proof (reserve_run span p issued IH Hsp Hr) as Hrun. unfold run in Hrun. rewrite Hg in Hrun.
    apply Hrun.
  - by apply alloc_inv_restart.
  - by apply alloc_inv_content.
Qed.
End Runs.

(** ** Properties *)
Section Properties.
  Context `{StorageLaws St, Crc32cLaws, Blake3Laws}.

(** C2: No generation is handed out twice.  In every run of a repository, from
    the one without slot files or from the slots an earlier process left
    ([settled]: both exist, linked, durable and linked in a chain), on a storage
    that satisfies [StorageLaws], which exclude torn writes (openings,
    reservations through any handle with any span, operations that fail at any
    storage call, crashes at any point, the first opening included), the
    generations returned are strictly increasing over the whole run, across
    restarts; and after a crash an allocator that opens again continues above
    all of them. *)
Theorem generations_never_repeat (p : Process St) issued :
  alloc_run p issued →
  StronglySorted Z.lt issued ∧
  ∀ span h p', open span (process_restart p) = (Ok h, p') →
    ∃ st, registered p' = Some st ∧ Forall (λ g, g < next st) issued.
Proof.
  intros Hrun%alloc_run_inv. split; [by apply Hrun|]. intros span h p' Ho.
  pose proof (open_run span _ _ (alloc_inv_restart _ _ Hrun)) as Hopen. unfold run in Hopen.
  rewrite Ho in Hopen. destruct Hopen as ((_&Hreg)&_&Hst). destruct (Hst h eq_refl) as (_&_&st&E).
  exists st. split; [done|]. cbn [snd] in *. rewrite E in Hreg. apply Hreg.
Qed.

(** A generation is durable before it is returned: whatever fails later, a
    crash right after a reservation returned [g] leaves a high-water record
    that covers [g]. *)
Theorem reserved_generation_is_durable (p : Process St) issued span g p' :
  alloc_run p issued → 1 ≤ span → is_Some (registered p) →
  reserve_generation span p = (Ok g, p') →
  ∃ sel, settled (restart (storage p')) sel ∧ g ≤ hw_reserved sel.
Proof.
  intros Hrun Hsp Hreg Hg. pose proof (arun_reserved _ _ _ _ _ Hrun Hsp Hreg Hg) as Hrun'.
  apply alloc_run_inv in Hrun'. pose proof (reserve_run span p issued (alloc_run_inv _ _ Hrun) Hsp Hreg) as Hr.
  unfold run in Hr. rewrite Hg in Hr. destruct (registered_restart _ _ Hrun' (proj2 Hr)) as (sel&Hs&Hle).
  exists sel. split; [done|]. apply Forall_app in Hle as [_ Hle]. by apply Forall_inv in Hle.
Qed.
End Properties.

Section Witnesses.
#[local] Existing Instances Crc32cBitwise.ops Crc32cBitwise.laws TagHash.ops TagHash.laws.

(** An empty repository. *)
Lemma new_fresh : fresh Memory.new.
Proof. destruct Memory.new_facts as (?&_&Hn). split; [done|left; by apply Hn..]. Qed.
(** Open, then reserve. *)
Definition opened : Process Memory.StorageState :=
  (open 1024 {| storage := Memory.new; registered := None |}).2.
Lemma opened_run : alloc_run opened [] ∧ is_Some (registered opened).
Proof.
  split; [|eexists; vm_compute; reflexivity].
  eapply (arun_open {| storage := Memory.new; registered := None |} [] 1024 (Ok 1024)).
  - apply arun_new, new_fresh.
  - vm_compute. reflexivity.
Qed.

Lemma opened_reserves : ∃ p', reserve_generation 1024 opened = (Ok 1, p').
Proof. exists (reserve_generation 1024 opened).2. vm_compute. reflexivity. Qed.

Lemma generations_never_repeat_witness :
  ∃ p, alloc_run p [1] ∧ StronglySorted Z.lt [1].
Proof.
  destruct opened_run as [Hr Hs].
  destruct opened_reserves as [p' Hg].
  exists p'. pose proof (arun_reserved _ _ 1024 _ _ Hr ltac:(lia) Hs Hg) as Hrun. split; [exact Hrun|].
  apply (generations_never_repeat p' [1] Hrun).
Defined.

Lemma reserved_generation_is_durable_witness :
  ∃ p' sel, reserve_generation 1024 opened = (Ok 1, p') ∧
    settled (restart (storage p')) sel ∧ 1 ≤ hw_reserved sel.
Proof.
  destruct opened_run as [Hr Hs].
  destruct opened_reserves as [p' Hg].
  destruct (reserved_generation_is_durable opened [] 1024 1 p' Hr ltac:(lia) Hs Hg) as (sel&?&?).
  exists p', sel. split; [exact Hg|]. split; assumption.
Defined.

(** The model runs: a crash skips the rest of the reserved span. *)
Example generation_after_crash :
  (reserve_generation 1024 (open 1024 (process_restart (reserve_generation 1024 opened).2)).2).1 = Ok 1025.
Proof. vm_compute. reflexivity. Qed.
End Witnesses.
End GenerationAllocator.
