(* ===== verification/SeqCdc.v ===== *)
(** * Content-defined chunk boundaries ([fastdup-store/src/seqcdc.rs])

    The scalar reference scanner, the AVX2/BMI2 and AVX-512 scanners, which
    classify 32 or 64 byte comparisons at once with bit masks, and the scanner
    over segmented input.  CPU features are arguments.  The vector
    instructions are modelled by their documented effect on lanes and bits.

    The loops take fuel; [cut_fuel] is always enough, because every iteration
    advances the position. *)
From S2P Require Export Bytes.

Module SeqCdc.

Record SeqCdcConfig := {
  sequence_length : Z;
  skip_trigger : Z;
  skip_bytes : Z;
  minimum_bytes : Z;
  maximum_bytes : Z;
}.

(** [fn validate]: the assertions of every entry point. *)
Definition validate (config : SeqCdcConfig) : outcome unit () :=
  assert_true (negb (sequence_length config =? 0) && (sequence_length config <=? 32));;
  assert_true (negb (skip_trigger config =? 0));;
  assert_true (negb (skip_bytes config =? 0));;
  assert_true (negb (minimum_bytes config =? 0));;
  assert_true (minimum_bytes config <=? maximum_bytes config).

(** The byte at an index, which panics out of range. *)
Definition byte_at (b : bytes) (i : Z) : outcome unit Z := Z_of_byte <$> index_at b i.

(** ** The scalar scanner *)

(** [fn cut_scalar_from] *)
Fixpoint cut_scalar_from (fuel : nat) (b : bytes) (size : Z) (config : SeqCdcConfig)
    (position opposing_slopes sequence : Z) : outcome unit Z :=
  match fuel with
  | O => Panic
  | S fuel =>
      if size <=? position then Ok size
      else
        previous ← (start ← sub_or_panic position 1; byte_at b start);
        current ← byte_at b position;
        position ← add_or_panic usize_max position 1;
        if current =? previous then
          cut_scalar_from fuel b size config position opposing_slopes sequence
        else
          '(opposing_slopes, sequence) ←
            (if current <? previous then
               opposing_slopes ← add_or_panic u16_max opposing_slopes 1; Ok (opposing_slopes, 0)
             else
               sequence ← add_or_panic u16_max sequence 1; Ok (opposing_slopes, sequence));
          if sequence =? sequence_length config then sub_or_panic position 1
          else if opposing_slopes =? skip_trigger config then
            cut_scalar_from fuel b size config
              (saturating_add usize_max position (skip_bytes config)) 0 sequence
          else cut_scalar_from fuel b size config position opposing_slopes sequence
  end.

Definition cut_fuel (size : Z) : nat := S (Z.to_nat size).

(** [fn seqcdc_cut_scalar] *)
Definition seqcdc_cut_scalar (b : bytes) (config : SeqCdcConfig) : outcome unit Z :=
  validate config;;
  if blen b <? minimum_bytes config then Ok (blen b)
  else
    let size := Z.min (blen b) (maximum_bytes config) in
    cut_scalar_from (cut_fuel size) b size config (minimum_bytes config) 0 0.

(** ** Bit manipulation *)

(** [count_ones], [trailing_zeros] and [leading_ones] of a [width]-bit word. *)
Fixpoint count_ones (width : nat) (z : Z) : Z :=
  match width with O => 0 | S w => Z.b2z (Z.odd z) + count_ones w (Z.div2 z) end.
Fixpoint trailing_zeros (width : nat) (z : Z) : Z :=
  match width with
  | O => 0
  | S w => if Z.odd z then 0 else 1 + trailing_zeros w (Z.div2 z)
  end.
Fixpoint leading_ones (width : nat) (z : Z) : Z :=
  match width with
  | O => 0
  | S w => if Z.testbit z (Z.of_nat w) then 1 + leading_ones w z else 0
  end.
(** BMI2: [pext] gathers the bits of [src] that [mask] selects, [pdep] spreads
    the low bits of [src] over the bits of [mask]. *)
Fixpoint pext (width : nat) (src mask : Z) : Z :=
  match width with
  | O => 0
  | S w =>
      if Z.odd mask then Z.b2z (Z.odd src) + 2 * pext w (Z.div2 src) (Z.div2 mask)
      else pext w (Z.div2 src) (Z.div2 mask)
  end.
Fixpoint pdep (width : nat) (src mask : Z) : Z :=
  match width with
  | O => 0
  | S w =>
      if Z.odd mask then Z.b2z (Z.odd src) + 2 * pdep w (Z.div2 src) (Z.div2 mask)
      else 2 * pdep w src (Z.div2 mask)
  end.

(** [<<] on a [width]-bit word: bits beyond the width are lost, a shift by the
    width or more panics. *)
Definition shl (width m x n : Z) : outcome unit Z :=
  if n <? width then Ok (Z.land (Z.shiftl x n) m) else Panic.

(** [const fn low_bits] *)
Definition low_bits (bits : Z) : Z := if bits =? 0 then 0 else Z.shiftl 1 bits - 1.

(** Lane comparisons: [_mm256_cmpgt_epi8] compares signed bytes and
    [_mm512_cmpgt_epu8_mask] unsigned ones; the mask has one bit per lane. *)
Definition to_i8 (x : Z) : Z := if x <? 128 then x else x - 256.
Fixpoint movemask (lanes : list bool) : Z :=
  match lanes with [] => 0 | l :: lanes => Z.b2z l + 2 * movemask lanes end.
Definition cmpgt_epi8 (a b : list Z) : Z := movemask (zip_with (λ x y, to_i8 y <? to_i8 x) a b).
Definition cmpgt_epu8 (a b : list Z) : Z := movemask (zip_with (λ x y, y <? x) a b).

(** ** The vector scanners *)

Inductive VectorDecision :=
  | Boundary (lane : Z)
  | Skip (lane : Z)
  | Advance (opposing sequence advanced : Z).

(** The run-length loop of [fn classify_masks]: [run_ends &= combined << shift]
    for each [shift] from 1 up. *)
Fixpoint run_ends_loop (combined run_ends shift : Z) (count : nat) : Z :=
  match count with
  | O => run_ends
  | S count =>
      run_ends_loop combined
        (Z.land run_ends (Z.land (Z.shiftl combined shift) u64_max)) (shift + 1) count
  end.

(** [fn classify_masks] *)
Definition classify_masks (greater lesser : Z) (config : SeqCdcConfig)
    (opposing_slopes sequence : Z) : outcome unit VectorDecision :=
  let non_equal := Z.lor greater lesser in
  if non_equal =? 0 then Ok (Advance opposing_slopes sequence 32)
  else
    let packed_greater := pext 32 greater non_equal in
    let packed_count := count_ones 32 non_equal in
    let prefix := sequence in
    shifted ← shl 64 u64_max packed_greater prefix;
    let combined := Z.lor shifted (low_bits prefix) in
    let run_ends := run_ends_loop combined combined 1 (Z.to_nat (sequence_length config - 1)) in
    boundary_lane ←
      (if run_ends =? 0 then Ok None
       else
         packed_end ← sub_or_panic (trailing_zeros 64 run_ends) prefix;
         packed_bit ← shl 32 u32_max 1 packed_end;
         Ok (Some (trailing_zeros 32 (pdep 32 packed_bit non_equal))));
    let lesser_count := count_ones 32 lesser in
    skip_lane ←
      (if skip_trigger config <=? opposing_slopes + lesser_count then
         needed ← sub_or_panic (skip_trigger config) opposing_slopes;
         shift ← sub_or_panic needed 1;
         bit ← shl 32 u32_max 1 shift;
         Ok (Some (trailing_zeros 32 (pdep 32 bit lesser)))
       else Ok None);
    match boundary_lane, skip_lane with
    | Some boundary, Some skip => Ok (if skip <? boundary then Skip skip else Boundary boundary)
    | Some boundary, None => Ok (Boundary boundary)
    | None, Some skip => Ok (Skip skip)
    | None, None =>
        opposing ← add_or_panic u16_max opposing_slopes lesser_count;
        let packed_mask := low_bits packed_count in
        sequence ←
          (if packed_greater =? packed_mask then add_or_panic u16_max sequence packed_count
           else
             aligned ← shl 32 u32_max packed_greater (32 - packed_count);
             Ok (leading_ones 32 aligned));
        Ok (Advance opposing sequence 32)
    end.

(** [unsafe fn classify_avx2_bmi2], on the 32 loaded bytes of both pointers *)
Definition classify_avx2_bmi2 (previous current : list Z) (config : SeqCdcConfig)
    (opposing_slopes sequence : Z) : outcome unit VectorDecision :=
  let bias x := Z.lxor x 128 in
  let previous := map bias previous in
  let current := map bias current in
  let greater := cmpgt_epi8 current previous in
  let lesser := cmpgt_epi8 previous current in
  classify_masks greater lesser config opposing_slopes sequence.

(** [unsafe fn classify_avx512], on the 64 loaded bytes of both pointers *)
Definition classify_avx512 (previous current : list Z) (config : SeqCdcConfig)
    (opposing sequence : Z) : outcome unit VectorDecision :=
  let greater := cmpgt_epu8 current previous in
  let lesser := cmpgt_epu8 previous current in
  if Z.lor greater lesser =? 0 then Ok (Advance opposing sequence 64)
  else
    let low bits := Z.land bits u32_max in
    decision ← classify_masks (low greater) (low lesser) config opposing sequence;
    match decision with
    | Advance opposing sequence _ =>
        Ok (Advance opposing sequence
              (if Z.shiftr (Z.lor greater lesser) 32 =? 0 then 64 else 32))
    | early => Ok early
    end.

(** An unaligned load of [width] bytes; outside the buffer it is undefined
    behaviour, here a panic. *)
Definition load (b : bytes) (offset width : Z) : outcome unit (list Z) :=
  map Z_of_byte <$> index_range b offset (offset + width).
Definition classify (wide : bool) (b : bytes) (position : Z) (config : SeqCdcConfig)
    (opposing sequence : Z) : outcome unit VectorDecision :=
  let width := if wide then 64 else 32 in
  start ← sub_or_panic position 1;
  previous ← load b start width;
  current ← load b position width;
  (if wide then classify_avx512 else classify_avx2_bmi2) previous current config opposing sequence.

(** The loops of [cut_avx2_bmi2] and [cut_avx512] *)
Fixpoint vector_loop (fuel : nat) (wide : bool) (b : bytes) (size : Z) (config : SeqCdcConfig)
    (position opposing_slopes sequence : Z) : outcome unit Z :=
  match fuel with
  | O => Panic
  | S fuel =>
      if saturating_add usize_max position (if wide then 64 else 32) <=? size then
        decision ← classify wide b position config opposing_slopes sequence;
        match decision with
        | Boundary lane => add_or_panic usize_max position lane
        | Skip lane =>
            lane ← add_or_panic usize_max lane 1;
            vector_loop fuel wide b size config
              (saturating_add usize_max (saturating_add usize_max position lane)
                 (skip_bytes config)) 0 0
        | Advance opposing sequence advanced =>
            position ← add_or_panic usize_max position advanced;
            vector_loop fuel wide b size config position opposing sequence
        end
      else cut_scalar_from (cut_fuel size) b size config position opposing_slopes sequence
  end.

(** [unsafe fn cut_avx2_bmi2] and [unsafe fn cut_avx512] *)
Definition cut_vector (wide : bool) (b : bytes) (config : SeqCdcConfig) : outcome unit Z :=
  validate config;;
  if blen b <? minimum_bytes config then Ok (blen b)
  else
    let size := Z.min (blen b) (maximum_bytes config) in
    vector_loop (cut_fuel size) wide b size config (minimum_bytes config) 0 0.
Definition cut_avx2_bmi2 := cut_vector false.
Definition cut_avx512 := cut_vector true.

(** [fn flat_probe] *)
Definition flat_probe (b : bytes) (offset : Z) : bool :=
  let e := saturating_add usize_max offset 64 in
  if e <=? blen b then
    match sub b offset (e - offset) with
    | [] => true
    | x :: lane => forallb (λ y, bool_decide (y = x)) (x :: lane)
    end
  else false.

(** [fn seqcdc_cut]; the arguments are [avx512_available()] and the detection
    of AVX2 and BMI2. *)
Definition seqcdc_cut (avx512 avx2_bmi2 : bool) (b : bytes) (config : SeqCdcConfig)
    : outcome unit Z :=
  if avx512 && flat_probe b (minimum_bytes config) then cut_avx512 b config
  else if avx2_bmi2 then cut_avx2_bmi2 b config
  else seqcdc_cut_scalar b config.

(** ** The segmented scanner *)

(** The [while] loop of [fn cut_segmented] on one segment: [inl] returns from
    the function, [inr] leaves the loop with position and counters. *)
Fixpoint segment_loop (fuel : nat) (vector wide : bool) (segment : bytes)
    (segment_start segment_end size : Z) (config : SeqCdcConfig)
    (position local previous opposing_slopes sequence : Z) : outcome unit (Z + Z * Z * Z) :=
  match fuel with
  | O => Panic
  | S fuel =>
      let vector_width := if wide then 64 else 32 in
      let continue_ := segment_loop fuel vector wide segment segment_start segment_end size config in
      if negb ((position <? segment_end) && (position <? size)) then
        Ok (inr (position, opposing_slopes, sequence))
      else if vector && negb (local =? 0)
              && (saturating_add usize_max local vector_width <=? blen segment)
              && (saturating_add usize_max position vector_width <=? size) then
        decision ← classify wide segment local config opposing_slopes sequence;
        match decision with
        | Boundary lane => r ← add_or_panic usize_max position lane; Ok (inl r)
        | Skip lane =>
            lane ← add_or_panic usize_max lane 1;
            let position := saturating_add usize_max
              (saturating_add usize_max position lane) (skip_bytes config) in
            if size <=? position then Ok (inl size)
            else if segment_end <=? position then Ok (inr (position, 0, 0))
            else
              local ← sub_or_panic position segment_start;
              before ← sub_or_panic local 1;
              previous ← byte_at segment before;
              continue_ position local previous 0 0
        | Advance opposing sequence advanced =>
            position ← add_or_panic usize_max position advanced;
            local ← add_or_panic usize_max local advanced;
            before ← sub_or_panic local 1;
            previous ← byte_at segment before;
            continue_ position local previous opposing sequence
        end
      else
        current ← byte_at segment local;
        position ← add_or_panic usize_max position 1;
        local ← add_or_panic usize_max local 1;
        if negb (current =? previous) then
          '(opposing_slopes, sequence) ←
            (if current <? previous then
               opposing_slopes ← add_or_panic u16_max opposing_slopes 1; Ok (opposing_slopes, 0)
             else
               sequence ← add_or_panic u16_max sequence 1; Ok (opposing_slopes, sequence));
          if sequence =? sequence_length config then
            r ← sub_or_panic position 1; Ok (inl r)
          else if opposing_slopes =? skip_trigger config then
            let position := saturating_add usize_max position (skip_bytes config) in
            if size <=? position then Ok (inl size)
            else if segment_end <=? position then Ok (inr (position, 0, 0))
            else
              local ← sub_or_panic position segment_start;
              before ← sub_or_panic local 1;
              previous ← byte_at segment before;
              continue_ position local previous 0 0
          else continue_ position local current opposing_slopes sequence
        else continue_ position local current opposing_slopes sequence
  end.

(** [segment.last().copied().or(previous_segment_byte)] *)
Definition last_byte (segment : bytes) (previous_segment_byte : option Z) : option Z :=
  match list.last segment with Some x => Some (Z_of_byte x) | None => previous_segment_byte end.

(** The [for] loop of [fn cut_segmented] *)
Fixpoint segments_loop (avx512 vector : bool) (segments : list bytes) (size : Z)
    (config : SeqCdcConfig) (position opposing_slopes sequence segment_start : Z)
    (previous_segment_byte : option Z) : outcome unit Z :=
  match segments with
  | [] => assert_true (size <=? segment_start);; Ok size
  | segment :: segments =>
      segment_end ← add_or_panic usize_max segment_start (blen segment);
      if segment_end <=? position then
        segments_loop avx512 vector segments size config position opposing_slopes sequence
          segment_end (last_byte segment previous_segment_byte)
      else
        assert_true (segment_start <=? position);;
        local ← sub_or_panic position segment_start;
        previous ← (if local =? 0 then expect previous_segment_byte
                    else before ← sub_or_panic local 1; byte_at segment before);
        let wide := vector && avx512 && flat_probe segment local in
        r ← segment_loop (cut_fuel size) vector wide segment segment_start segment_end size config
              position local previous opposing_slopes sequence;
        match r with
        | inl r => Ok r
        | inr (position, opposing_slopes, sequence) =>
            if size <=? position then Ok size
            else segments_loop avx512 vector segments size config position opposing_slopes sequence
                   segment_end (last_byte segment previous_segment_byte)
        end
  end.

(** [fn cut_segmented], and the two entry points *)
Definition cut_segmented (avx512 vector : bool) (segments : list bytes) (total_bytes : Z)
    (config : SeqCdcConfig) : outcome unit Z :=
  validate config;;
  if total_bytes <? minimum_bytes config then Ok total_bytes
  else
    let size := Z.min total_bytes (maximum_bytes config) in
    segments_loop avx512 vector segments size config (minimum_bytes config) 0 0 0 None.
Definition seqcdc_cut_segmented (avx512 avx2_bmi2 : bool) := cut_segmented avx512 avx2_bmi2.
Definition seqcdc_cut_segmented_scalar := cut_segmented false false.
End SeqCdc.
