(* ===== verification/SeqCdcMasks.v ===== *)
(** * The mask arithmetic of the chunker

    Two modules: bit words as lists of lanes, and the mask classifiers, which
    compute the scan of their lanes. *)
From S2P Require Export SeqCdc.

(** ** Bit words as lists of lanes

    The mask arithmetic of [SeqCdc] in terms of lists of booleans: population
    counts, [pext] and [pdep], run-end words.  [scan] is the reference for a
    group of byte comparisons; the lemmas of this file locate its first event
    in the masks. *)
Import SeqCdc.

Module SeqCdcBits.

(** ** Words as lists of bits *)

Lemma odd_double z : Z.odd (2 * z) = false.
Proof. by rewrite Z.odd_mul. Qed.
Lemma div2_double z : Z.div2 (2 * z) = z.
Proof. rewrite Z.div2_div, Z.mul_comm. by apply Z.div_mul. Qed.

Lemma movemask_nonneg l : 0 ≤ movemask l.
Proof. induction l as [|[] l IH]; simpl; lia. Qed.
Lemma movemask_bound l : movemask l < 2 ^ Z.of_nat (length l).
Proof.
  induction l as [|x l IH]; cbn [movemask length]; [simpl; lia|].
  rewrite Nat2Z.inj_succ, Z.pow_succ_r by lia. destruct x; simpl Z.b2z; lia.
Qed.
Lemma movemask_cons_odd x l : Z.odd (movemask (x :: l)) = x.
Proof. simpl. rewrite Z.odd_add_mul_2. by destruct x. Qed.
Lemma movemask_cons_div2 x l : Z.div2 (movemask (x :: l)) = movemask l.
Proof.
  cbn [movemask]. rewrite Z.div2_div. replace (Z.b2z x + 2 * movemask l) with (Z.b2z x + movemask l * 2) by lia.
  rewrite Z.div_add by lia. by destruct x.
Qed.
Lemma movemask_testbit l i :
  0 ≤ i → Z.testbit (movemask l) i = default false (l !! Z.to_nat i).
Proof.
  revert i. induction l as [|x l IH]; intros i Hi; [by rewrite Z.testbit_0_l|].
  destruct (decide (i = 0)) as [->|].
  - rewrite Z.bit0_odd, movemask_cons_odd. done.
  - pose proof (Z.div2_bits (movemask (x :: l)) (i - 1) ltac:(lia)) as Hd.
    replace (Z.succ (i - 1)) with i in Hd by lia. rewrite <-Hd, <-Z.div2_div, movemask_cons_div2, IH by lia.
    replace (Z.to_nat i) with (S (Z.to_nat (i - 1))) by lia. done.
Qed.

Lemma movemask_inj_zero l : movemask l = 0 ↔ Forall (eq false) l.
Proof.
  induction l as [|x l IH]; [split; [constructor|done]|]. pose proof (movemask_nonneg l).
  cbn [movemask]. split.
  - intros Hz. destruct x; simpl Z.b2z in Hz; [lia|]. constructor; [done|]. apply IH. lia.
  - intros [<- Hl%IH]%Forall_cons_1. simpl. lia.
Qed.
Lemma movemask_lor l l' :
  length l = length l' → Z.lor (movemask l) (movemask l') = movemask (zip_with orb l l').
Proof.
  intros Hl. apply Z.bits_inj'. intros i Hi. rewrite Z.lor_spec, !movemask_testbit by done.
  rewrite lookup_zip_with. destruct (l !! Z.to_nat i) as [x|] eqn:Hx.
  - destruct (lookup_lt_is_Some_2 l' (Z.to_nat i)) as [y Hy]; [rewrite <-Hl; by eapply lookup_lt_Some|].
    by rewrite Hy.
  - apply lookup_ge_None in Hx. by rewrite (lookup_ge_None_2 l') by lia.
Qed.
Lemma movemask_app l l' : movemask (l ++ l') = movemask l + 2 ^ Z.of_nat (length l) * movemask l'.
Proof.
  induction l as [|x l IH]; cbn [movemask app length]; [simpl Z.of_nat; lia|].
  rewrite IH, Nat2Z.inj_succ, Z.pow_succ_r by lia. lia.
Qed.
Lemma movemask_replicate n : movemask (replicate n true) = 2 ^ Z.of_nat n - 1.
Proof.
  induction n as [|n IH]; [done|]. cbn [replicate movemask]. rewrite IH, Nat2Z.inj_succ, Z.pow_succ_r by lia.
  simpl Z.b2z. lia.
Qed.
Lemma low_bits_replicate n : low_bits (Z.of_nat n) = movemask (replicate n true).
Proof.
  rewrite movemask_replicate. unfold low_bits. destruct (Z.eqb_spec (Z.of_nat n) 0) as [->|]; [done|].
  rewrite Z.shiftl_1_l. done.
Qed.

(** The set lanes. *)
Fixpoint popcount (l : list bool) : nat :=
  match l with [] => O | true :: l => S (popcount l) | false :: l => popcount l end.
Lemma count_ones_movemask l : count_ones (length l) (movemask l) = Z.of_nat (popcount l).
Proof.
  induction l as [|x l IH]; [done|]. cbn [length count_ones].
  rewrite movemask_cons_odd, movemask_cons_div2, IH. destruct x; simpl; lia.
Qed.
(** The lanes of [l] under the set lanes of [m]. *)
Fixpoint packed (l m : list bool) : list bool :=
  match l, m with
  | x :: l, y :: m => if y then x :: packed l m else packed l m
  | _, _ => []
  end.
Lemma pext_movemask l m : length l = length m →
  pext (length m) (movemask l) (movemask m) = movemask (packed l m).
Proof.
  revert l. induction m as [|y m IH]; intros [|x l] Hl; simplify_eq/=; [done|].
  change (Z.b2z y + 2 * movemask m) with (movemask (y :: m)).
  change (Z.b2z x + 2 * movemask l) with (movemask (x :: l)).
  rewrite !movemask_cons_odd, !movemask_cons_div2. destruct y; [|by apply IH]. simpl. by rewrite IH.
Qed.
Lemma length_packed l m : length l = length m → length (packed l m) = popcount m.
Proof.
  revert l. induction m as [|y m IH]; intros [|x l] Hl; simplify_eq/=; [done|].
  destruct y; simpl; by rewrite IH.
Qed.
(** The lane of the [k]-th set bit, counted from lane [i]. *)
Fixpoint nth_set (i : Z) (m : list bool) (k : nat) : Z :=
  match m with
  | [] => i
  | true :: m => match k with O => i | S k => nth_set (i + 1) m k end
  | false :: m => nth_set (i + 1) m k
  end.
Lemma nth_set_shift i m k : nth_set i m k = i + nth_set 0 m k.
Proof.
  revert i k. induction m as [|[] m IH]; intros i k; simpl; [lia| |].
  - destruct k; [lia|]. rewrite (IH (i + 1)), (IH 1). lia.
  - rewrite (IH (i + 1)), (IH 1). lia.
Qed.
Lemma pdep_zero w m : pdep w 0 m = 0.
Proof. revert m. induction w as [|w IH]; intros m; simpl; [done|]. rewrite !IH. by destruct (Z.odd m). Qed.
Lemma pdep_lane m k :
  (k < popcount m)%nat →
  trailing_zeros (length m) (pdep (length m) (Z.shiftl 1 (Z.of_nat k)) (movemask m)) = nth_set 0 m k.
Proof.
  revert k. induction m as [|y m IH]; intros k Hk; [simpl in Hk; lia|].
  cbn [length pdep trailing_zeros]. rewrite movemask_cons_odd, movemask_cons_div2. destruct y.
  - simpl in Hk. destruct k as [|k].
    + change (Z.div2 (Z.shiftl 1 (Z.of_nat 0))) with 0. rewrite pdep_zero. done.
    + assert (Z.shiftl 1 (Z.of_nat (S k)) = 2 * Z.shiftl 1 (Z.of_nat k)) as ->.
      { rewrite !Z.shiftl_1_l, Nat2Z.inj_succ, Z.pow_succ_r by lia. done. }
      rewrite odd_double, div2_double. cbn [Z.b2z]. rewrite Z.add_0_l, odd_double, div2_double.
      rewrite IH by lia. cbn [nth_set]. rewrite (nth_set_shift (0 + 1)). lia.
  - simpl in Hk. rewrite odd_double, div2_double.
    rewrite IH by lia. cbn [nth_set]. rewrite (nth_set_shift (0 + 1)). lia.
Qed.
(** The first set bit. *)
Lemma trailing_zeros_spec w z j :
  0 ≤ j < Z.of_nat w → Z.testbit z j = true → (∀ i, 0 ≤ i < j → Z.testbit z i = false) →
  trailing_zeros w z = j.
Proof.
  revert z j. induction w as [|w IH]; intros z j Hj Hb Hf; [lia|]. cbn [trailing_zeros].
  destruct (decide (j = 0)) as [->|].
  - rewrite Z.bit0_odd in Hb. by rewrite Hb.
  - pose proof (Hf 0 ltac:(lia)) as H0. rewrite Z.bit0_odd in H0. rewrite H0.
    rewrite (IH (Z.div2 z) (j - 1)); [lia|lia| |].
    + rewrite Z.div2_div, Z.div2_bits by lia. by replace (Z.succ (j - 1)) with j by lia.
    + intros i Hi. rewrite Z.div2_div, Z.div2_bits by lia. apply Hf. lia.
Qed.

(** ** Runs of set bits *)

(** The number of set bits at the end. *)
Definition trailing_run (l : list bool) : nat :=
  foldl (λ n (x : bool), if x then S n else O) O l.
Lemma trailing_run_snoc l x : trailing_run (l ++ [x]) = if x then S (trailing_run l) else O.
Proof. unfold trailing_run. by rewrite foldl_app. Qed.
Lemma trailing_run_le l : (trailing_run l ≤ length l)%nat.
Proof.
  induction l as [|x l IH] using rev_ind; [done|]. rewrite trailing_run_snoc, length_app. simpl.
  destruct x; lia.
Qed.
Lemma trailing_run_true l t :
  (t < trailing_run l)%nat → l !! (length l - 1 - t)%nat = Some true.
Proof.
  revert t. induction l as [|x l IH] using rev_ind; intros t; [change (trailing_run []) with 0%nat; lia|].
  rewrite trailing_run_snoc, length_app. simpl. destruct x; [|lia].
  destruct t as [|t]; intros Ht.
  - rewrite lookup_app_r by lia. by replace (length l + 1 - 1 - 0 - length l)%nat with 0%nat by lia.
  - pose proof (trailing_run_le l). rewrite lookup_app_l by lia.
    replace (length l + 1 - 1 - S t)%nat with (length l - 1 - t)%nat by lia. apply IH. lia.
Qed.
Lemma trailing_run_max l n :
  (n ≤ length l)%nat → (∀ t, (t < n)%nat → l !! (length l - 1 - t)%nat = Some true) →
  (n ≤ trailing_run l)%nat.
Proof.
  revert n. induction l as [|x l IH] using rev_ind; intros n Hn Ht; [simpl in *; lia|].
  rewrite length_app in *. simpl in *. rewrite trailing_run_snoc. destruct n as [|n]; [lia|].
  pose proof (Ht O ltac:(lia)) as H0. rewrite lookup_app_r in H0 by lia.
  replace (length l + 1 - 1 - 0 - length l)%nat with 0%nat in H0 by lia. simplify_eq/=.
  apply le_n_S, IH; [lia|]. intros t ?. pose proof (Ht (S t) ltac:(lia)) as Hs.
  rewrite lookup_app_l in Hs by lia.
  by replace (length l + 1 - 1 - S t)%nat with (length l - 1 - t)%nat in Hs by lia.
Qed.

(** The bits of the run-end word. *)
Lemma run_ends_loop_testbit combined r s n i :
  0 ≤ i < 64 → 0 ≤ s →
  Z.testbit (run_ends_loop combined r s n) i = true ↔
  Z.testbit r i = true ∧ ∀ t, 0 ≤ t < Z.of_nat n → Z.testbit combined (i - (s + t)) = true.
Proof.
  intros Hi. revert r s. induction n as [|n IH]; intros r s Hs; cbn [run_ends_loop]; [naive_solver lia|].
  rewrite IH by lia. rewrite !Z.land_spec, Z.shiftl_spec by lia.
  replace (Z.testbit u64_max i) with true.
  2: { symmetry. unfold u64_max. change (2 ^ 64 - 1) with (Z.ones 64). by apply Z.ones_spec_low. }
  rewrite andb_true_r, andb_true_iff. split.
  - intros [[Hr H0] Ht]. split; [done|]. intros t ?. destruct (decide (t = 0)) as [->|].
    + by rewrite Z.add_0_r.
    + specialize (Ht (t - 1) ltac:(lia)). by replace (s + 1 + (t - 1)) with (s + t) in Ht by lia.
  - intros [Hr Ht]. split_and!; [done| |].
    + specialize (Ht 0 ltac:(lia)). by rewrite Z.add_0_r in Ht.
    + intros t ?. specialize (Ht (t + 1) ltac:(lia)). by replace (s + (t + 1)) with (s + 1 + t) in Ht by lia.
Qed.
Lemma run_ends_loop_high combined r s n i :
  Z.testbit (run_ends_loop combined r s n) i = true → Z.testbit r i = true.
Proof.
  revert r s. induction n as [|n IH]; intros r s; cbn [run_ends_loop]; [done|].
  intros Ht%IH. rewrite Z.land_spec, andb_true_iff in Ht. by destruct Ht.
Qed.

(** A bit of the run-end word is set where [L] set bits end. *)
Lemma run_ends_bit q L i :
  (length q ≤ 64)%nat → (1 ≤ L)%nat → 0 ≤ i →
  Z.testbit (run_ends_loop (movemask q) (movemask q) 1 (L - 1)) i = true ↔
  (Z.to_nat i < length q)%nat ∧ (L ≤ trailing_run (take (S (Z.to_nat i)) q))%nat.
Proof.
  intros Hq HL Hi. destruct (decide (Z.to_nat i < length q)%nat) as [Hlt|Hge].
  2: { split; [|tauto]. intros Ht%run_ends_loop_high. rewrite movemask_testbit in Ht by done.
       by rewrite lookup_ge_None_2 in Ht by lia. }
  rewrite run_ends_loop_testbit by lia.
  assert (Hlen : length (take (S (Z.to_nat i)) q) = S (Z.to_nat i)) by (rewrite length_take; lia).
  assert (Hbit : ∀ t, 0 ≤ t ≤ i → Z.testbit (movemask q) (i - t) = true ↔
    take (S (Z.to_nat i)) q !! (S (Z.to_nat i) - 1 - Z.to_nat t)%nat = Some true).
  { intros t Ht. rewrite movemask_testbit by lia. rewrite lookup_take_lt by lia.
    replace (S (Z.to_nat i) - 1 - Z.to_nat t)%nat with (Z.to_nat (i - t)) by lia.
    destruct (q !! Z.to_nat (i - t)) as [[]|] eqn:E; simpl; try naive_solver. }
  split.
  - intros [H0 Ht]. split; [done|].
    assert (Hall : ∀ t, 0 ≤ t < Z.of_nat L → Z.testbit (movemask q) (i - t) = true).
    { intros t ?. destruct (decide (t = 0)) as [->|]; [by rewrite Z.sub_0_r|].
      specialize (Ht (t - 1) ltac:(lia)). by replace (1 + (t - 1)) with t in Ht by lia. }
    assert (Z.of_nat L ≤ i + 1).
    { destruct (decide (Z.of_nat L ≤ i + 1)); [done|]. specialize (Hall (i + 1) ltac:(lia)).
      by rewrite Z.testbit_neg_r in Hall by lia. }
    apply trailing_run_max; rewrite Hlen; [lia|]. intros t ?.
    specialize (Hall (Z.of_nat t) ltac:(lia)). apply Hbit in Hall; [|lia]. by rewrite Nat2Z.id in Hall.
  - intros [_ Hrun]. pose proof (trailing_run_le (take (S (Z.to_nat i)) q)). rewrite Hlen in *.
    assert (Hall : ∀ t, 0 ≤ t < Z.of_nat L → Z.testbit (movemask q) (i - t) = true).
    { intros t ?. apply Hbit; [lia|]. pose proof (trailing_run_true (take (S (Z.to_nat i)) q) (Z.to_nat t) ltac:(lia)) as Ht.
      by rewrite Hlen in Ht. }
    split; [by rewrite <-(Z.sub_0_r i); apply Hall; lia|]. intros t ?. apply Hall. lia.
Qed.

(** The set bits at the end of a word are the leading ones of the word moved to
    the top. *)
Lemma leading_ones_aligned p :
  (length p ≤ 32)%nat →
  leading_ones 32 (Z.land (Z.shiftl (movemask p) (32 - Z.of_nat (length p))) u32_max)
  = Z.of_nat (trailing_run p).
Proof.
  intros Hp. set (n := length p). set (z := Z.land _ _).
  assert (Hbit : ∀ k, (k < 32)%nat → Z.testbit z (Z.of_nat k) =
    if decide (32 - n ≤ k)%nat then default false (p !! (k - (32 - n))%nat) else false).
  { intros k Hk. unfold z. rewrite Z.land_spec, Z.shiftl_spec by lia.
    unfold u32_max. change (2 ^ 32 - 1) with (Z.ones 32). rewrite Z.ones_spec_low, andb_true_r by lia.
    case_decide.
    - rewrite movemask_testbit by lia. do 2 f_equal. lia.
    - by rewrite Z.testbit_neg_r by lia. }
  assert (Hk : ∀ k, (k ≤ n)%nat → leading_ones (32 - n + k) z = Z.of_nat (trailing_run (take k p))).
  { induction k as [|k IH]; intros Hk.
    - rewrite Nat.add_0_r, take_0. destruct (32 - n)%nat as [|m] eqn:Em; [done|].
      cbn [leading_ones]. rewrite Hbit by lia. by rewrite decide_False by lia.
    - rewrite Nat.add_succ_r. cbn [leading_ones]. rewrite Hbit by lia. rewrite decide_True by lia.
      replace (32 - n + k - (32 - n))%nat with k by lia.
      destruct (lookup_lt_is_Some_2 p k) as [x Hx]; [lia|]. rewrite Hx. simpl.
      rewrite (take_S_r p k x Hx), trailing_run_snoc. destruct x; [rewrite IH by lia; lia|done]. }
  specialize (Hk n ltac:(lia)). replace (32 - n + n)%nat with 32%nat in Hk by lia. rewrite Hk.
  unfold n. by rewrite firstn_all.
Qed.

(** ** Scanning lanes *)
Section Scan.
Context (L T : nat).

(** The reference: what the scalar loop does on a list of comparisons,
    starting at lane [i]; [o] opposing slopes and a run of [s] are pending. *)
Fixpoint scan (i : Z) (cs : list comparison) (o s : nat) : VectorDecision :=
  match cs with
  | [] => Advance (Z.of_nat o) (Z.of_nat s) i
  | Eq :: cs => scan (i + 1) cs o s
  | Lt :: cs => if decide (S o = T) then Skip i else scan (i + 1) cs (S o) 0
  | Gt :: cs => if decide (S s = L) then Boundary i else scan (i + 1) cs o (S s)
  end.

(** The first boundary, ignoring skips; the first skip, ignoring boundaries;
    the run at the end. *)
Fixpoint first_boundary (i : Z) (cs : list comparison) (s : nat) : option Z :=
  match cs with
  | [] => None
  | Eq :: cs => first_boundary (i + 1) cs s
  | Lt :: cs => first_boundary (i + 1) cs 0
  | Gt :: cs => if decide (S s = L) then Some i else first_boundary (i + 1) cs (S s)
  end.
Fixpoint first_skip (i : Z) (cs : list comparison) (k : nat) : option Z :=
  match cs with
  | [] => None
  | Lt :: cs => match k with O => Some i | S k => first_skip (i + 1) cs k end
  | _ :: cs => first_skip (i + 1) cs k
  end.
Fixpoint end_run (cs : list comparison) (s : nat) : nat :=
  match cs with
  | [] => s
  | Eq :: cs => end_run cs s
  | Lt :: cs => end_run cs 0
  | Gt :: cs => end_run cs (S s)
  end.
Definition is_gt (c : comparison) : bool := match c with Gt => true | _ => false end.
Definition is_lt (c : comparison) : bool := match c with Lt => true | _ => false end.
Definition is_ne (c : comparison) : bool := match c with Eq => false | _ => true end.

Lemma first_boundary_ge i cs s j : first_boundary i cs s = Some j → i ≤ j.
Proof.
  revert i s. induction cs as [|[] cs IH]; intros i s Hj; simpl in Hj; [done|..].
  - apply IH in Hj. lia.
  - apply IH in Hj. lia.
  - case_decide; simplify_eq; [lia|]. apply IH in Hj. lia.
Qed.
Lemma first_skip_ge i cs k j : first_skip i cs k = Some j → i ≤ j.
Proof.
  revert i k. induction cs as [|[] cs IH]; intros i k Hj; simpl in Hj; [done|..].
  - apply IH in Hj. lia.
  - destruct k; simplify_eq; [lia|]. apply IH in Hj. lia.
  - apply IH in Hj. lia.
Qed.

(** The scan is decided by the earlier of the two events. *)
Lemma scan_split cs i o s :
  (o < T)%nat → (s < L)%nat →
  scan i cs o s =
  match first_boundary i cs s, first_skip i cs (T - o - 1) with
  | Some b, Some k => if k <? b then Skip k else Boundary b
  | Some b, None => Boundary b
  | None, Some k => Skip k
  | None, None => Advance (Z.of_nat (o + popcount (map is_lt cs))) (Z.of_nat (end_run cs s))
                    (i + Z.of_nat (length cs))
  end.
Proof.
  revert i o s. induction cs as [|c cs IH]; intros i o s Ho Hs; simpl.
  { f_equal; lia. }
  destruct c; simpl.
  - rewrite IH by done. repeat case_match; try done. f_equal; lia.
  - case_decide.
    + replace (T - o - 1)%nat with 0%nat by lia.
      destruct (first_boundary (i + 1) cs 0) as [b|] eqn:Hb; [|done].
      apply first_boundary_ge in Hb. by rewrite (proj2 (Z.ltb_lt _ _)) by lia.
    + rewrite IH by lia. destruct (T - o - 1)%nat as [|k] eqn:Hk; [lia|].
      replace (T - S o - 1)%nat with k by lia. repeat case_match; try done. f_equal; lia.
  - case_decide.
    + destruct (first_skip (i + 1) cs (T - o - 1)) as [k|] eqn:Hk; [|done].
      apply first_skip_ge in Hk. by rewrite (proj2 (Z.ltb_ge _ _)) by lia.
    + rewrite IH by lia. repeat case_match; try done. f_equal; lia.
Qed.

(** The skip lane is the lane of a set bit of the lesser mask. *)
Lemma first_skip_nth cs i k :
  first_skip i cs k =
  if decide (k < popcount (map is_lt cs))%nat then Some (nth_set i (map is_lt cs) k) else None.
Proof.
  revert i k. induction cs as [|[] cs IH]; intros i k; cbn [first_skip map popcount is_lt nth_set].
  - by rewrite decide_False by lia.
  - apply IH.
  - destruct k as [|k]; [by rewrite decide_True by lia|]. rewrite IH.
    repeat case_decide; try done; lia.
  - apply IH.
Qed.

(** The boundary on the packed lanes: the first index at which a run of [L]
    ends. *)
Fixpoint packed_boundary (p : list bool) (s : nat) : option nat :=
  match p with
  | [] => None
  | true :: p => if decide (S s = L) then Some O else S <$> packed_boundary p (S s)
  | false :: p => S <$> packed_boundary p 0
  end.
Definition packed_lanes (cs : list comparison) : list bool :=
  packed (map is_gt cs) (map is_ne cs).

Lemma first_boundary_packed cs i s :
  first_boundary i cs s = nth_set i (map is_ne cs) <$> packed_boundary (packed_lanes cs) s.
Proof.
  unfold packed_lanes. revert i s. induction cs as [|[] cs IH]; intros i s; simpl; [done|..].
  - apply IH.
  - rewrite IH. by destruct (packed_boundary _ 0).
  - case_decide; [done|]. rewrite IH. by destruct (packed_boundary _ (S s)).
Qed.
Lemma end_run_packed cs pre :
  end_run cs (trailing_run pre) = trailing_run (pre ++ packed_lanes cs).
Proof.
  unfold packed_lanes. revert pre. induction cs as [|[] cs IH]; intros pre; simpl.
  - by rewrite app_nil_r.
  - apply IH.
  - rewrite (cons_middle false), app_assoc, <-IH. f_equal. by rewrite trailing_run_snoc.
  - rewrite (cons_middle true), app_assoc, <-IH. f_equal. by rewrite trailing_run_snoc.
Qed.

Lemma packed_boundary_spec p pre :
  (trailing_run pre < L)%nat →
  match packed_boundary p (trailing_run pre) with
  | Some e => (e < length p)%nat ∧ (L ≤ trailing_run (pre ++ take (S e) p))%nat ∧
              ∀ j, (j < e)%nat → (trailing_run (pre ++ take (S j) p) < L)%nat
  | None => ∀ j, (j < length p)%nat → (trailing_run (pre ++ take (S j) p) < L)%nat
  end.
Proof.
  revert pre. induction p as [|x p IH]; intros pre Hpre; simpl; [lia|].
  assert (Hstep : ∀ j, pre ++ x :: take j p = (pre ++ [x]) ++ take j p) by (intros; by rewrite <-app_assoc).
  assert (Hsnoc : trailing_run (pre ++ [x]) = if x then S (trailing_run pre) else 0%nat) by apply trailing_run_snoc.
  destruct (decide (x = true ∧ S (trailing_run pre) = L)) as [[-> Hl]|Hn].
  - rewrite decide_True by done. split_and!; [lia| |lia]. rewrite Hstep, take_0, app_nil_r, Hsnoc. lia.
  - assert (Hlt : (trailing_run (pre ++ [x]) < L)%nat) by (rewrite Hsnoc; destruct x; [|lia]; naive_solver lia).
    specialize (IH _ Hlt).
    assert ((if x then if decide (S (trailing_run pre) = L) then Some 0%nat
               else S <$> packed_boundary p (S (trailing_run pre)) else S <$> packed_boundary p 0)
            = S <$> packed_boundary p (trailing_run (pre ++ [x]))) as ->.
    { rewrite Hsnoc. destruct x; [rewrite decide_False by naive_solver|]; done. }
    destruct (packed_boundary p (trailing_run (pre ++ [x]))) as [e|]; simpl.
    + destruct IH as (?&?&Hj). split_and!; [lia|by rewrite Hstep|]. intros [|j] ?; rewrite Hstep.
      * by rewrite take_0, app_nil_r.
      * apply Hj. lia.
    + intros [|j] ?; rewrite Hstep; [by rewrite take_0, app_nil_r|]. apply IH. lia.
Qed.
End Scan.

(** ** Masks of a group of lanes *)
Lemma trailing_run_replicate n : trailing_run (replicate n true) = n.
Proof.
  induction n as [|n IH]; [done|]. rewrite replicate_S_end, trailing_run_snoc. by rewrite IH.
Qed.

Lemma combined_word p s :
  (length p ≤ 32)%nat → (s < 32)%nat →
  shl 64 u64_max (movemask p) (Z.of_nat s) = Ok (Z.shiftl (movemask p) (Z.of_nat s)) ∧
  Z.lor (Z.shiftl (movemask p) (Z.of_nat s)) (low_bits (Z.of_nat s)) =
    movemask (replicate s true ++ p).
Proof.
  intros Hp Hs. split.
  - unfold shl. rewrite (proj2 (Z.ltb_lt _ _)) by lia. f_equal. unfold u64_max.
    change (2 ^ 64 - 1) with (Z.ones 64). rewrite Z.land_ones by lia. apply Z.mod_small.
    pose proof (movemask_nonneg p). pose proof (movemask_bound p). rewrite Z.shiftl_mul_pow2 by lia.
    assert (2 ^ Z.of_nat (length p) ≤ 2 ^ 32) by (apply Z.pow_le_mono_r; lia).
    assert (2 ^ Z.of_nat s ≤ 2 ^ 31) by (apply Z.pow_le_mono_r; lia).
    change (2 ^ 64) with (2 ^ 32 * 2 ^ 32). nia.
  - rewrite low_bits_replicate. apply Z.bits_inj'. intros i Hi.
    rewrite Z.lor_spec, Z.shiftl_spec, !(movemask_testbit _ i) by done.
    destruct (decide (i < Z.of_nat s)).
    + rewrite Z.testbit_neg_r, lookup_app_l by (rewrite ?length_replicate; lia). done.
    + rewrite (lookup_ge_None_2 (replicate s true)) by (rewrite length_replicate; lia). simpl.
      rewrite orb_false_r, movemask_testbit, lookup_app_r by (rewrite ?length_replicate; lia).
      do 2 f_equal. rewrite length_replicate. lia.
Qed.

(** The run-end word locates the first boundary. *)
Lemma run_ends_boundary L p s :
  (1 ≤ L ≤ 32)%nat → (length p ≤ 32)%nat → (s < L)%nat →
  let r := run_ends_loop (movemask (replicate s true ++ p)) (movemask (replicate s true ++ p)) 1 (L - 1) in
  match packed_boundary L p s with
  | Some e => (e < length p)%nat ∧ r ≠ 0 ∧ trailing_zeros 64 r = Z.of_nat (s + e)
  | None => r = 0
  end.
Proof.
  intros HL Hp Hs. set (q := replicate s true ++ p). cbv zeta. set (r := run_ends_loop _ _ _ _).
  assert (Hq : (length q ≤ 64)%nat) by (unfold q; rewrite length_app, length_replicate; lia).
  assert (Hbit : ∀ i, 0 ≤ i → Z.testbit r i = true ↔ ∃ j, i = Z.of_nat (s + j) ∧ (j < length p)%nat ∧
    (L ≤ trailing_run (replicate s true ++ take (S j) p))%nat).
  { intros i Hi. unfold r. rewrite run_ends_bit by (done || lia). unfold q.
    rewrite length_app, length_replicate. split.
    - intros [Hlt Hrun]. destruct (decide (Z.to_nat i < s)%nat).
      + rewrite take_app_le in Hrun by (rewrite length_replicate; lia).
        pose proof (trailing_run_le (take (S (Z.to_nat i)) (replicate s true))) as Hle.
        rewrite length_take, length_replicate in Hle. lia.
      + exists (Z.to_nat i - s)%nat. split_and!; [lia|lia|].
        rewrite take_app_ge in Hrun by (rewrite length_replicate; lia). rewrite length_replicate in Hrun.
        by replace (S (Z.to_nat i - s)) with (S (Z.to_nat i) - s)%nat by lia.
    - intros (j&->&Hj&Hrun). rewrite Nat2Z.id. split; [lia|].
      rewrite take_app_ge by (rewrite length_replicate; lia). rewrite length_replicate.
      by replace (S (s + j) - s)%nat with (S j) by lia. }
  pose proof (packed_boundary_spec L p (replicate s true)) as Hb.
  rewrite trailing_run_replicate in Hb. specialize (Hb Hs).
  destruct (packed_boundary L p s) as [e|].
  - destruct Hb as (He&Hrun&Hmin).
    assert (Hset : Z.testbit r (Z.of_nat (s + e)) = true) by (apply Hbit; [lia|by exists e]).
    split_and!; [done|intros Hr; by rewrite Hr, Z.testbit_0_l in Hset|].
    apply trailing_zeros_spec; [lia|done|]. intros i Hi. apply not_true_iff_false.
    rewrite Hbit by lia. intros (j&->&_&Hj). specialize (Hmin j ltac:(lia)). lia.
  - apply Z.bits_inj'. intros i Hi. rewrite Z.testbit_0_l. apply not_true_iff_false.
    rewrite Hbit by done. intros (j&_&Hj&Hrun). specialize (Hb j Hj). lia.
Qed.

Lemma movemask_ne cs :
  Z.lor (movemask (map is_gt cs)) (movemask (map is_lt cs)) = movemask (map is_ne cs).
Proof.
  rewrite movemask_lor by by rewrite !length_map. f_equal.
  induction cs as [|[] cs IH]; simpl; congruence.
Qed.
End SeqCdcBits.

(** ** The mask classifier computes the scan of its lanes

    The byte comparisons of a buffer as lanes, and the equality of
    [classify_masks] and of both vector classifiers with the lane-by-lane
    [scan]. *)
Import SeqCdc SeqCdcBits.

Module SeqCdcMasks.

Lemma shl_one_32 k : 0 ≤ k < 32 → shl 32 u32_max 1 k = Ok (Z.shiftl 1 k).
Proof.
  intros Hk. unfold shl. rewrite (proj2 (Z.ltb_lt _ _)) by lia. f_equal.
  unfold u32_max. change (2 ^ 32 - 1) with (Z.ones 32). rewrite Z.land_ones by lia.
  apply Z.mod_small. rewrite Z.shiftl_1_l. split; [lia|]. apply Z.pow_lt_mono_r; lia.
Qed.

Lemma is_ne_all_false cs : Forall (eq false) (map is_ne cs) ↔ Forall (eq Eq) cs.
Proof.
  rewrite Forall_fmap. apply Forall_proper; [|done]. intros []; by simpl.
Qed.
Lemma popcount_le l : (popcount l ≤ length l)%nat.
Proof. induction l as [|[] l IH]; simpl; lia. Qed.

(** ** Lanes of a buffer *)

Definition byte_get (b : bytes) (i : Z) : Z := default 0 (Z_of_byte <$> b !! Z.to_nat i).
(** How the byte at [p] compares with the one before. *)
Definition lane (b : bytes) (p : Z) : comparison := byte_get b p ?= byte_get b (p - 1).
Fixpoint lanes (b : bytes) (p : Z) (n : nat) : list comparison :=
  match n with O => [] | S n => lane b p :: lanes b (p + 1) n end.

Lemma length_lanes b p n : length (lanes b p n) = n.
Proof. revert p. induction n as [|n IH]; intros p; simpl; auto. Qed.
Lemma lanes_app b p n m : lanes b p (n + m) = lanes b p n ++ lanes b (p + Z.of_nat n) m.
Proof.
  revert p. induction n as [|n IH]; intros p; simpl; [f_equal; lia|]. rewrite IH. do 3 f_equal. lia.
Qed.
Lemma lanes_ext b b' p p' n :
  (∀ i, -1 ≤ i < Z.of_nat n → byte_get b (p + i) = byte_get b' (p' + i)) → lanes b p n = lanes b' p' n.
Proof.
  revert p p'. induction n as [|n IH]; intros p p' Hb; simpl; [done|]. f_equal.
  - unfold lane. pose proof (Hb 0 ltac:(lia)) as H0. pose proof (Hb (-1) ltac:(lia)) as H1.
    rewrite !Z.add_0_r in H0. change (p - 1) with (p + -1). change (p' - 1) with (p' + -1).
    by rewrite H0, H1.
  - apply IH. intros i Hi. specialize (Hb (i + 1) ltac:(lia)).
    by replace (p + 1 + i) with (p + (i + 1)) by lia; replace (p' + 1 + i) with (p' + (i + 1)) by lia.
Qed.
Lemma byte_at_get b i : 0 ≤ i < blen b → byte_at b i = Ok (byte_get b i).
Proof.
  intros Hi. unfold byte_at, byte_get, index_at. change (blen b) with (Z.of_nat (length b)) in Hi.
  destruct (lookup_lt_is_Some_2 b (Z.to_nat i)) as [x Hx]; [lia|]. rewrite Hx.
  rewrite (proj2 (Z.leb_le _ _)) by lia. done.
Qed.

(** A load of [n] bytes; its lanes. *)
Lemma load_in b p n :
  0 ≤ p → 0 ≤ n → p + n ≤ blen b → load b p n = Ok (map Z_of_byte (sub b p n)).
Proof.
  intros. unfold load. rewrite index_range_in by lia. by replace (p + n - p) with n by lia.
Qed.
Lemma loaded_lookup b p n i :
  0 ≤ p → p + Z.of_nat n ≤ blen b → (i < n)%nat →
  map Z_of_byte (sub b p (Z.of_nat n)) !! i = Some (byte_get b (p + Z.of_nat i)).
Proof.
  intros Hp Hn Hi. change (blen b) with (Z.of_nat (length b)) in Hn.
  change (sub b p (Z.of_nat n)) with (take (Z.to_nat (Z.of_nat n)) (drop (Z.to_nat p) b)).
  rewrite Nat2Z.id, list_lookup_fmap, lookup_take_lt, lookup_drop by lia. unfold byte_get.
  replace (Z.to_nat (p + Z.of_nat i)) with (Z.to_nat p + i)%nat by lia.
  destruct (lookup_lt_is_Some_2 b (Z.to_nat p + i)) as [x Hx]; [lia|]. by rewrite Hx.
Qed.
Lemma length_loaded b p n :
  0 ≤ p → p + Z.of_nat n ≤ blen b → length (map Z_of_byte (sub b p (Z.of_nat n))) = n.
Proof.
  intros. rewrite length_map. pose proof (blen_sub b p (Z.of_nat n)) as Hl.
  change (blen (sub b p (Z.of_nat n))) with (Z.of_nat (length (sub b p (Z.of_nat n)))) in Hl. lia.
Qed.
Lemma lanes_lookup b p n i : (i < n)%nat → lanes b p n !! i = Some (lane b (p + Z.of_nat i)).
Proof.
  revert p i. induction n as [|n IH]; intros p i Hi; [lia|]. destruct i as [|i]; simpl.
  - by rewrite Z.add_0_r.
  - rewrite IH by lia. do 2 f_equal. lia.
Qed.
(** The masks of both comparisons are those of the lanes. *)
Lemma loaded_masks b p n (f : Z → Z → bool) (g : comparison → bool) :
  1 ≤ p → p + Z.of_nat n ≤ blen b →
  (∀ x y, 0 ≤ x < 256 → 0 ≤ y < 256 → f x y = g (x ?= y)) →
  zip_with f (map Z_of_byte (sub b p (Z.of_nat n))) (map Z_of_byte (sub b (p - 1) (Z.of_nat n)))
  = map g (lanes b p n).
Proof.
  intros Hp Hn Hf. apply list_eq. intros i. rewrite lookup_zip_with, (list_lookup_fmap g).
  destruct (decide (i < n)%nat).
  - rewrite !loaded_lookup, lanes_lookup by lia. simpl. unfold lane. f_equal.
    replace (p - 1 + Z.of_nat i) with (p + Z.of_nat i - 1) by lia.
    apply Hf; unfold byte_get; (destruct (b !! _) as [x|]; [apply Z_of_byte_range|simpl; lia]).
  - by rewrite !(lookup_ge_None_2 _ i) by (rewrite ?length_lanes, ?length_loaded by lia; lia).
Qed.

(** ** The classifiers compute the scan *)
Lemma bias_table x y : 0 ≤ x < 256 → 0 ≤ y < 256 →
  (to_i8 (Z.lxor y 128) <? to_i8 (Z.lxor x 128)) = (y <? x).
Proof.
  intros Hx Hy.
  assert (Ht : forallb (λ x, to_i8 (Z.lxor x 128) =? x - 128) (map Z.of_nat (seq 0 256)) = true)
    by by vm_compute.
  rewrite forallb_forall in Ht.
  assert (Hz : ∀ z, 0 ≤ z < 256 → to_i8 (Z.lxor z 128) = z - 128).
  { intros z Hz. apply Z.eqb_eq, Ht, in_map_iff. exists (Z.to_nat z). split; [lia|].
    apply in_seq. lia. }
  rewrite !Hz by done. destruct (Z.ltb_spec y x), (Z.ltb_spec (y - 128) (x - 128)); lia || done.
Qed.
Lemma gt_lane x y : (y <? x) = is_gt (x ?= y).
Proof. unfold Z.ltb. rewrite Z.compare_antisym. by destruct (x ?= y). Qed.
Lemma lt_lane x y : (x <? y) = is_lt (x ?= y).
Proof. unfold Z.ltb. by destruct (x ?= y). Qed.
Lemma zip_with_swap {A B C} (f : A → B → C) l k : zip_with f l k = zip_with (λ y x, f x y) k l.
Proof. apply zip_with_flip. Qed.
Lemma zip_with_map {A B C} (f : B → B → C) (h : A → B) l k :
  zip_with f (map h l) (map h k) = zip_with (λ x y, f (h x) (h y)) l k.
Proof. revert k. induction l as [|x l IH]; intros [|y k]; simpl; [done..|]. by rewrite IH. Qed.

Lemma movemask_low l k : length l = 32%nat → Z.land (movemask (l ++ k)) u32_max = movemask l.
Proof.
  intros Hl. unfold u32_max. change (2 ^ 32 - 1) with (Z.ones 32). rewrite Z.land_ones by lia.
  rewrite movemask_app, Hl. change (Z.of_nat 32) with 32.
  rewrite Z.mul_comm, Z.mod_add by lia. apply Z.mod_small.
  pose proof (movemask_nonneg l). pose proof (movemask_bound l) as Hb. rewrite Hl in Hb. done.
Qed.
Lemma movemask_high l k : length l = 32%nat → Z.shiftr (movemask (l ++ k)) 32 = movemask k.
Proof.
  intros Hl. rewrite Z.shiftr_div_pow2, movemask_app, Hl by lia. change (Z.of_nat 32) with 32.
  rewrite Z.mul_comm, Z.div_add, Z.div_small; [lia| |lia].
  pose proof (movemask_nonneg l). pose proof (movemask_bound l) as Hb. rewrite Hl in Hb. done.
Qed.

(** The length of the pending run after a group. *)
Lemma movemask_full p : movemask p = movemask (replicate (length p) true) → p = replicate (length p) true.
Proof.
  intros He. apply list_eq. intros i. destruct (decide (i < length p)%nat).
  - rewrite lookup_replicate_2 by done. destruct (lookup_lt_is_Some_2 p i) as [x Hx]; [done|].
    pose proof (movemask_testbit p (Z.of_nat i) ltac:(lia)) as Hb.
    rewrite He, movemask_testbit, !Nat2Z.id, lookup_replicate_2, Hx in Hb by lia. simpl in Hb. by rewrite Hx, Hb.
  - by rewrite !lookup_ge_None_2 by (rewrite ?length_replicate; lia).
Qed.
Lemma trailing_run_app l p : p ≠ replicate (length p) true → trailing_run (l ++ p) = trailing_run p.
Proof.
  induction p as [|x p IH] using rev_ind; [done|].
  rewrite app_assoc, !trailing_run_snoc, length_app, Nat.add_comm. destruct x; [|done].
  intros Hp. f_equal. apply IH. intros He. apply Hp. simpl.
  change (true :: replicate (length p) true) with (replicate (S (length p)) true).
  rewrite replicate_S_end. by f_equal.
Qed.
Lemma sequence_after p s :
  (length p ≤ 32)%nat → (s < 32)%nat →
  (if movemask p =? low_bits (Z.of_nat (length p)) then
     add_or_panic u16_max (Z.of_nat s) (Z.of_nat (length p))
   else
     aligned ← shl 32 u32_max (movemask p) (32 - Z.of_nat (length p));
     Ok (leading_ones 32 aligned)) = @Ok unit Z (Z.of_nat (trailing_run (replicate s true ++ p))).
Proof.
  intros Hp Hs. rewrite low_bits_replicate.
  destruct (Z.eqb_spec (movemask p) (movemask (replicate (length p) true))) as [He|He].
  - rewrite (movemask_full p He), length_replicate, add_or_panic_in by (unfold u16_max; lia).
    rewrite <-replicate_add, trailing_run_replicate. f_equal. lia.
  - assert (Hne : p ≠ replicate (length p) true) by congruence.
    assert (length p ≠ 0%nat) by by destruct p.
    unfold shl. rewrite (proj2 (Z.ltb_lt _ _)) by lia.
    by rewrite Ok_bind, leading_ones_aligned, trailing_run_app.
Qed.

(** ** One group of lanes *)
Section Masks.
Context (L T : nat) (c : SeqCdcConfig).
Hypothesis HL : (1 ≤ L ≤ 32)%nat.
Hypothesis HT : (1 ≤ T)%nat.
Hypothesis HT16 : Z.of_nat T ≤ u16_max.
Hypothesis Hseq : sequence_length c = Z.of_nat L.
Hypothesis Htrig : skip_trigger c = Z.of_nat T.

Lemma scan_all_equal cs i o s :
  Forall (eq Eq) cs → scan L T i cs o s = Advance (Z.of_nat o) (Z.of_nat s) (i + Z.of_nat (length cs)).
Proof.
  revert i. induction cs as [|x cs IH]; intros i Hcs; simpl; [f_equal; lia|].
  apply Forall_cons_1 in Hcs as [<- Hcs]. rewrite IH by done. f_equal; lia.
Qed.
(** The two candidate lanes. *)
Lemma boundary_lane_spec cs s :
  length cs = 32%nat → (s < L)%nat →
  let p := packed_lanes cs in
  let r := run_ends_loop (movemask (replicate s true ++ p)) (movemask (replicate s true ++ p)) 1 (L - 1) in
  (if r =? 0 then Ok None
   else
     packed_end ← sub_or_panic (trailing_zeros 64 r) (Z.of_nat s);
     packed_bit ← shl 32 u32_max 1 packed_end;
     Ok (Some (trailing_zeros 32 (pdep 32 packed_bit (movemask (map is_ne cs))))))
  = @Ok unit _ (first_boundary L 0 cs s).
Proof.
  intros Hlen Hs p r.
  assert (Hm : length (map is_ne cs) = 32%nat) by by rewrite length_map.
  assert (Hpl : length p = popcount (map is_ne cs)) by (apply length_packed; by rewrite !length_map).
  pose proof (popcount_le (map is_ne cs)). rewrite first_boundary_packed. fold p.
  pose proof (run_ends_boundary L p s HL ltac:(lia) Hs) as Hr. cbv zeta in Hr. fold r in Hr.
  destruct (packed_boundary L p s) as [e|]; [|by rewrite Hr].
  destruct Hr as (He&Hr0&Htz). rewrite (proj2 (Z.eqb_neq _ _)) by done.
  rewrite Htz, sub_or_panic_in by lia. rewrite Ok_bind.
  replace (Z.of_nat (s + e) - Z.of_nat s) with (Z.of_nat e) by lia.
  rewrite shl_one_32 by lia. rewrite Ok_bind, <-Hm, pdep_lane by lia. done.
Qed.
Lemma skip_lane_spec cs o :
  length cs = 32%nat → (o < T)%nat →
  (if Z.of_nat T <=? Z.of_nat o + Z.of_nat (popcount (map is_lt cs)) then
     needed ← sub_or_panic (Z.of_nat T) (Z.of_nat o);
     shift ← sub_or_panic needed 1;
     bit ← shl 32 u32_max 1 shift;
     Ok (Some (trailing_zeros 32 (pdep 32 bit (movemask (map is_lt cs)))))
   else Ok None) = @Ok unit _ (first_skip 0 cs (T - o - 1)).
Proof.
  intros Hlen Ho. assert (Hm : length (map is_lt cs) = 32%nat) by by rewrite length_map.
  rewrite first_skip_nth. pose proof (popcount_le (map is_lt cs)). case_decide.
  - rewrite (proj2 (Z.leb_le _ _)) by lia. rewrite sub_or_panic_in by lia. rewrite Ok_bind.
    rewrite sub_or_panic_in by lia. rewrite Ok_bind.
    replace (Z.of_nat T - Z.of_nat o - 1) with (Z.of_nat (T - o - 1)) by lia.
    rewrite shl_one_32 by lia. rewrite Ok_bind, <-Hm, pdep_lane by lia. done.
  - by rewrite (proj2 (Z.leb_gt _ _)) by lia.
Qed.

(** The mask classifier computes the scan of its 32 lanes. *)
Lemma classify_masks_scan cs o s :
  length cs = 32%nat → (o < T)%nat → (s < L)%nat →
  classify_masks (movemask (map is_gt cs)) (movemask (map is_lt cs)) c (Z.of_nat o) (Z.of_nat s)
  = Ok (scan L T 0 cs o s).
Proof.
  intros Hlen Ho Hs. unfold classify_masks. cbv zeta. rewrite movemask_ne, Hseq, Htrig.
  destruct (Z.eqb_spec (movemask (map is_ne cs)) 0) as [Hz|Hz].
  { apply movemask_inj_zero, is_ne_all_false in Hz. rewrite scan_all_equal by done. by rewrite Hlen. }
  set (p := packed_lanes cs).
  assert (Hpl : length p = popcount (map is_ne cs)).
  { apply length_packed. by rewrite !length_map. }
  assert (Hp32 : (length p ≤ 32)%nat).
  { rewrite Hpl. pose proof (popcount_le (map is_ne cs)) as Hle. rewrite length_map in Hle. lia. }
  assert (Hm : ∀ f : comparison → bool, length (map f cs) = 32%nat) by (intros; by rewrite length_map).
  assert (Hco : ∀ f : comparison → bool,
    count_ones 32 (movemask (map f cs)) = Z.of_nat (popcount (map f cs))).
  { intros f. rewrite <-(Hm f) at 1. apply count_ones_movemask. }
  assert (Hpx : pext 32 (movemask (map is_gt cs)) (movemask (map is_ne cs)) = movemask p).
  { rewrite <-(Hm is_ne) at 1. apply pext_movemask. by rewrite !length_map. }
  rewrite !Hco, Hpx.
  destruct (combined_word p s Hp32 ltac:(lia)) as [-> Hcomb]. rewrite Ok_bind, Hcomb.
  replace (Z.to_nat (Z.of_nat L - 1)) with (L - 1)%nat by lia.
  pose proof (boundary_lane_spec cs s Hlen Hs) as Hb. cbv zeta in Hb. fold p in Hb.
  rewrite Hb, Ok_bind. clear Hb.
  rewrite skip_lane_spec, Ok_bind by done.
  rewrite scan_split by done.
  destruct (first_boundary L 0 cs s) as [b|] eqn:Hfb, (first_skip 0 cs (T - o - 1)) as [k|] eqn:Hfs; try done.
  rewrite first_skip_nth in Hfs. case_decide as Hc; [done|].
  rewrite (add_or_panic_in _ (Z.of_nat o)) by lia. rewrite Ok_bind.
  rewrite <-Hpl, sequence_after by lia. rewrite Ok_bind.
  pose proof (end_run_packed cs (replicate s true)) as He. rewrite trailing_run_replicate in He. fold p in He.
  rewrite He, Hlen. do 2 f_equal; lia.
Qed.
Lemma scan_app_equal i cs cs' o s :
  Forall (eq Eq) cs' →
  scan L T i (cs ++ cs') o s =
  match scan L T i cs o s with
  | Advance o s j => Advance o s (j + Z.of_nat (length cs'))
  | d => d
  end.
Proof.
  intros He. revert i o s. induction cs as [|[] cs IH]; intros i o s; simpl;
    [by rewrite scan_all_equal|auto| |]; case_decide; auto.
Qed.

(** What the scan can return. *)
Lemma scan_advance i cs o s :
  match scan L T i cs o s with
  | Advance _ _ j => j = i + Z.of_nat (length cs)
  | _ => True
  end.
Proof.
  revert i o s. induction cs as [|x cs IH]; intros i o s; cbn [scan length]; [lia|].
  destruct x; [specialize (IH (i + 1) o s)|case_decide; [done|specialize (IH (i + 1) (S o) 0%nat)]
    |case_decide; [done|specialize (IH (i + 1) o (S s))]]; case_match; lia || done.
Qed.

(** One vector step is the scan of 32 or 64 lanes. *)
Lemma classify_scan (wide : bool) b p o s :
  1 ≤ p → p + (if wide then 64 else 32) ≤ blen b → (o < T)%nat → (s < L)%nat →
  ∃ n, (1 ≤ n)%nat ∧ Z.of_nat n ≤ (if wide then 64 else 32) ∧
    classify wide b p c (Z.of_nat o) (Z.of_nat s) = Ok (scan L T 0 (lanes b p n) o s).
Proof.
  intros Hp Hb Ho Hs. unfold classify. cbv zeta. rewrite sub_or_panic_in, Ok_bind by lia.
  rewrite !load_in, !Ok_bind by (destruct wide; lia). destruct wide.
  - set (ls := lanes b p 64).
    assert (Hls : ls = lanes b p 32 ++ lanes b (p + 32) 32) by apply (lanes_app b p 32 32).
    unfold classify_avx512, cmpgt_epu8. cbv zeta.
    rewrite (zip_with_swap _ (map Z_of_byte (sub b (p - 1) 64))).
    change 64 with (Z.of_nat 64).
    rewrite (loaded_masks b p 64 _ is_gt), (loaded_masks b p 64 _ is_lt) by (lia || intros; apply gt_lane || apply lt_lane).
    fold ls. rewrite movemask_ne. destruct (Z.eqb_spec (movemask (map is_ne ls)) 0) as [Hz|Hz].
    { exists 64%nat. split_and!; [lia..|]. apply movemask_inj_zero, is_ne_all_false in Hz.
      fold ls. rewrite scan_all_equal by done. unfold ls. by rewrite length_lanes. }
    rewrite Hls, !map_app, movemask_high, !movemask_low by (by rewrite length_map, length_lanes).
    rewrite classify_masks_scan, Ok_bind by (done || apply length_lanes).
    destruct (Z.eqb_spec (movemask (map is_ne (lanes b (p + 32) 32))) 0) as [Hh|Hh].
    + exists 64%nat. split_and!; [lia..|]. fold ls. apply movemask_inj_zero, is_ne_all_false in Hh.
      rewrite Hls, scan_app_equal by done. rewrite length_lanes.
      pose proof (scan_advance 0 (lanes b p 32) o s) as Hadv. rewrite length_lanes in Hadv.
      destruct (scan L T 0 (lanes b p 32) o s); try done. by rewrite Hadv.
    + exists 32%nat. split_and!; [lia..|].
      pose proof (scan_advance 0 (lanes b p 32) o s) as Hadv. rewrite length_lanes in Hadv.
      destruct (scan L T 0 (lanes b p 32) o s); try done. by rewrite Hadv.
  - exists 32%nat. split_and!; [lia..|]. unfold classify_avx2_bmi2, cmpgt_epi8. cbv zeta.
    rewrite (zip_with_swap _ (map (λ x, Z.lxor x 128) (map Z_of_byte (sub b (p - 1) 32)))),
      !(zip_with_map _ (λ x, Z.lxor x 128)).
    change 32 with (Z.of_nat 32).
    rewrite (loaded_masks b p 32 _ is_gt), (loaded_masks b p 32 _ is_lt); try lia.
    + apply classify_masks_scan; auto using length_lanes.
    + intros. rewrite bias_table by done. apply lt_lane.
    + intros. rewrite bias_table by done. apply gt_lane.
Qed.
End Masks.
End SeqCdcMasks.
