(* ===== verification/SeqCdcCut.v ===== *)
(** * Chunk cuts: every scanner computes the scalar cut

    The scalar scanner terminates within its fuel and stays within its bounds;
    both vector scanners, the dispatching entry point and the segmented scanner
    agree with it. *)
From S2P Require Export SeqCdcMasks.
Import SeqCdc SeqCdcBits SeqCdcMasks.

Module SeqCdcCut.

(** A configuration as the type of each field allows and [validate] accepts. *)
Record config_ok (c : SeqCdcConfig) : Prop := {
  config_sequence : 1 ≤ sequence_length c ≤ 32;
  config_trigger : 1 ≤ skip_trigger c ≤ u16_max;
  config_skip : 1 ≤ skip_bytes c ≤ usize_max;
  config_minimum : 1 ≤ minimum_bytes c ≤ maximum_bytes c;
  config_maximum : maximum_bytes c ≤ usize_max;
}.

(** The fields within their types, whether or not [validate] accepts them. *)
Definition config_typed (c : SeqCdcConfig) : Prop :=
  is_u16 (sequence_length c) ∧ is_u16 (skip_trigger c) ∧ is_usize (skip_bytes c) ∧
  is_usize (minimum_bytes c) ∧ is_usize (maximum_bytes c).
Lemma config_typed_cases c : config_typed c → validate c = Panic ∨ config_ok c.
Proof.
  intros ([]&[]&[]&[]&[]). unfold validate.
  destruct (Z.eqb_spec (sequence_length c) 0), (Z.leb_spec (sequence_length c) 32); [by left..| |by left].
  destruct (Z.eqb_spec (skip_trigger c) 0); [by left|].
  destruct (Z.eqb_spec (skip_bytes c) 0); [by left|].
  destruct (Z.eqb_spec (minimum_bytes c) 0); [by left|].
  destruct (Z.leb_spec (minimum_bytes c) (maximum_bytes c)); [|by left].
  right. constructor; lia.
Qed.

Lemma validate_config_ok c : config_ok c → validate c = Ok ().
Proof.
  intros []. unfold validate. rewrite !(proj2 (Z.leb_le _ _)) by lia.
  by rewrite !(proj2 (Z.eqb_neq _ _)) by lia.
Qed.

(** ** The scalar scanner *)
Section Scalar.
Context (b : bytes) (size : Z) (c : SeqCdcConfig) (Hc : config_ok c).
Context (Hsize : size ≤ blen b) (Hlen : blen b < usize_max).
Let L := Z.to_nat (sequence_length c).
Let T := Z.to_nat (skip_trigger c).

(** The scan from a position, with enough fuel. *)
Definition cut_from (p : Z) (o s : nat) : outcome unit Z :=
  cut_scalar_from (cut_fuel size) b size c p (Z.of_nat o) (Z.of_nat s).
Definition skip_to (p : Z) : Z := saturating_add usize_max p (skip_bytes c).

Lemma skip_to_ge p : p ≤ usize_max → p ≤ skip_to p.
Proof. unfold skip_to, saturating_add. pose proof (config_skip c Hc). lia. Qed.

Definition cut_body (rec : Z → nat → nat → outcome unit Z) (p : Z) (o s : nat) : outcome unit Z :=
  if size <=? p then Ok size
  else match lane b p with
       | Eq => rec (p + 1) o s
       | Lt => if decide (S o = T) then rec (skip_to (p + 1)) 0%nat 0%nat else rec (p + 1) (S o) 0%nat
       | Gt => if decide (S s = L) then Ok p else rec (p + 1) o (S s)
       end.

Lemma cut_scalar_body fuel p o s :
  1 ≤ p → (o < T)%nat → (s < L)%nat →
  cut_scalar_from (S fuel) b size c p (Z.of_nat o) (Z.of_nat s) =
  cut_body (λ p o s, cut_scalar_from fuel b size c p (Z.of_nat o) (Z.of_nat s)) p o s.
Proof.
  intros Hp Ho Hs. pose proof (config_sequence c Hc). pose proof (config_trigger c Hc).
  unfold cut_body. cbn [cut_scalar_from]. destruct (Z.leb_spec size p); [done|].
  rewrite sub_or_panic_in, Ok_bind by lia. rewrite !byte_at_get, !Ok_bind by lia.
  rewrite (add_or_panic_in _ p), Ok_bind by lia. unfold lane.
  rewrite (Z.eqb_compare (byte_get b p) (byte_get b (p - 1))), (Z.ltb_compare (byte_get b p)).
  destruct (byte_get b p ?= byte_get b (p - 1)) eqn:Hcmp; [done|..].
  - rewrite add_or_panic_in, !Ok_bind by (unfold T in *; lia). cbv beta iota.
    destruct (decide (S o = T)) as [He|He].
    + rewrite (proj2 (Z.eqb_neq 0 _)) by lia. by rewrite (proj2 (Z.eqb_eq _ _)) by (unfold T in *; lia).
    + rewrite (proj2 (Z.eqb_neq 0 _)) by lia. rewrite (proj2 (Z.eqb_neq _ _)) by (unfold T in *; lia).
      do 2 f_equal; lia.
  - rewrite add_or_panic_in, !Ok_bind by (unfold L, u16_max in *; lia). cbv beta iota.
    destruct (decide (S s = L)) as [He|He].
    + rewrite (proj2 (Z.eqb_eq _ _)) by (unfold L in *; lia).
      rewrite sub_or_panic_in by lia. f_equal. lia.
    + rewrite !(proj2 (Z.eqb_neq _ _)) by (unfold L, T in *; lia). f_equal; lia.
Qed.

(** Enough fuel is enough. *)
Lemma cut_fuel_irrelevant f f' p o s :
  1 ≤ p → (o < T)%nat → (s < L)%nat → size - p < Z.of_nat f → size - p < Z.of_nat f' →
  f ≠ O → f' ≠ O →
  cut_scalar_from f b size c p (Z.of_nat o) (Z.of_nat s)
  = cut_scalar_from f' b size c p (Z.of_nat o) (Z.of_nat s).
Proof.
  pose proof (config_sequence c Hc). pose proof (config_trigger c Hc).
  revert f' p o s. induction f as [|f IH]; intros [|f'] p o s Hp Ho Hs Hf Hf' Hn Hn'; try done.
  rewrite !cut_scalar_body by done. unfold cut_body. destruct (Z.leb_spec size p); [done|].
  pose proof (skip_to_ge (p + 1)).
  destruct (lane b p); [apply IH; lia|..]; case_decide; try done; apply IH; unfold L, T in *; lia.
Qed.
Lemma cut_from_body p o s :
  1 ≤ p → (o < T)%nat → (s < L)%nat → cut_from p o s = cut_body cut_from p o s.
Proof.
  intros Hp Ho Hs. pose proof (config_sequence c Hc). pose proof (config_trigger c Hc).
  unfold cut_from at 1, cut_fuel. rewrite cut_scalar_body by done. unfold cut_body.
  destruct (Z.leb_spec size p); [done|]. pose proof (skip_to_ge (p + 1)). unfold cut_from.
  destruct (lane b p); [apply cut_fuel_irrelevant; unfold cut_fuel; lia|..]; case_decide; try done;
    apply cut_fuel_irrelevant; unfold cut_fuel, L, T in *; lia.
Qed.
Lemma cut_from_done p o s : size ≤ p → cut_from p o s = Ok size.
Proof. intros Hp. unfold cut_from, cut_fuel. cbn [cut_scalar_from]. by rewrite (proj2 (Z.leb_le _ _)). Qed.

(** Well-founded induction on the distance to the end. *)
Lemma cut_induction (P : Z → nat → nat → Prop) :
  (∀ p o s, 1 ≤ p → (o < T)%nat → (s < L)%nat →
     (∀ p' o' s', p < p' → p < size → (o' < T)%nat → (s' < L)%nat → P p' o' s') → P p o s) →
  ∀ p o s, 1 ≤ p → (o < T)%nat → (s < L)%nat → P p o s.
Proof.
  intros Hstep p. remember (Z.to_nat (size - p)) as n eqn:Hn.
  revert p Hn. induction (lt_wf n) as [n _ IH]. intros p -> o s Hp Ho Hs.
  apply Hstep; [done..|]. intros p' o' s' Hlt Hin Ho' Hs'.
  eapply IH; [|reflexivity|lia|done..]. lia.
Qed.

(** The scan always returns, not before its position and not after the end. *)
Lemma cut_from_bounds p o s :
  1 ≤ p → (o < T)%nat → (s < L)%nat → ∃ r, cut_from p o s = Ok r ∧ Z.min p size ≤ r ≤ size.
Proof.
  revert p o s. apply cut_induction. intros p o s Hp Ho Hs IH.
  pose proof (config_sequence c Hc). pose proof (config_trigger c Hc).
  rewrite cut_from_body by done. unfold cut_body.
  destruct (Z.leb_spec size p); [eexists; split; [done|lia]|].
  pose proof (skip_to_ge (p + 1)).
  assert (Hnext : ∀ p' o' s', p < p' → (o' < T)%nat → (s' < L)%nat →
    ∃ r, cut_from p' o' s' = Ok r ∧ Z.min p size ≤ r ≤ size).
  { intros p' o' s' Hp' Ho' Hs'. destruct (IH p' o' s') as (r&?&?); try done. exists r. split; [done|lia]. }
  destruct (lane b p); [apply Hnext; lia|..]; case_decide;
    try (apply Hnext; unfold L, T in *; lia). eexists; split; [done|lia].
Qed.

(** The scan of a group of lanes. *)
Lemma cut_from_scan n base i o s :
  1 ≤ base + i → base + i + Z.of_nat n ≤ size → (o < T)%nat → (s < L)%nat →
  cut_from (base + i) o s =
  match scan L T i (lanes b (base + i) n) o s with
  | Boundary k => Ok (base + k)
  | Skip k => cut_from (skip_to (base + k + 1)) 0 0
  | Advance o' s' k => cut_from (base + k) (Z.to_nat o') (Z.to_nat s')
  end.
Proof.
  revert i o s. induction n as [|n IH]; intros i o s Hp Hn Ho Hs; cbn [lanes scan].
  { by rewrite !Nat2Z.id. }
  pose proof (config_sequence c Hc). pose proof (config_trigger c Hc).
  rewrite cut_from_body by done. unfold cut_body. rewrite (proj2 (Z.leb_gt _ _)) by lia.
  replace (base + i + 1) with (base + (i + 1)) by lia.
  destruct (lane b (base + i)); [apply IH; lia|..]; case_decide; try done.
  - f_equal. f_equal. lia.
  - apply IH; unfold L in *; lia.
  - apply IH; lia.
Qed.
End Scalar.

(** The counters a scan leaves are below their triggers, and its lane is one of
    the group. *)
Lemma scan_range L T i cs o s :
  (o < T)%nat → (s < L)%nat →
  match scan L T i cs o s with
  | Boundary k | Skip k => i ≤ k < i + Z.of_nat (length cs)
  | Advance o' s' k => ∃ o'' s'', o' = Z.of_nat o'' ∧ s' = Z.of_nat s'' ∧ (o'' < T)%nat ∧ (s'' < L)%nat ∧
      k = i + Z.of_nat (length cs)
  end.
Proof.
  revert i o s. induction cs as [|x cs IH]; intros i o s Ho Hs; cbn [scan length].
  { exists o, s. split_and!; [done..|lia]. }
  destruct x.
  - specialize (IH (i + 1) o s Ho Hs). case_match; [lia..|]. naive_solver lia.
  - case_decide; [lia|]. specialize (IH (i + 1) (S o) 0%nat ltac:(lia) ltac:(lia)).
    case_match; [lia..|]. naive_solver lia.
  - case_decide; [lia|]. specialize (IH (i + 1) o (S s) ltac:(lia) ltac:(lia)).
    case_match; [lia..|]. naive_solver lia.
Qed.

(** The position after a skip at lane [k]. *)
Lemma skip_to_lane c p k :
  0 ≤ p → 0 ≤ k → p + k < usize_max →
  saturating_add usize_max (saturating_add usize_max p (k + 1)) (skip_bytes c) = skip_to c (p + k + 1).
Proof. intros. unfold skip_to, saturating_add. lia. Qed.

(** ** The vector scanners *)
Section Vector.
Context (c : SeqCdcConfig) (Hc : config_ok c).
Let L := Z.to_nat (sequence_length c).
Let T := Z.to_nat (skip_trigger c).

(** One vector step of any buffer, with the configuration's triggers. *)
Lemma classify_step (wide : bool) b p o s :
  1 ≤ p → p + (if wide then 64 else 32) ≤ blen b → (o < T)%nat → (s < L)%nat →
  ∃ n, (1 ≤ n)%nat ∧ Z.of_nat n ≤ (if wide then 64 else 32) ∧
    classify wide b p c (Z.of_nat o) (Z.of_nat s) = Ok (scan L T 0 (lanes b p n) o s).
Proof.
  pose proof (config_sequence c Hc). pose proof (config_trigger c Hc). unfold L, T.
  apply classify_scan; lia.
Qed.

Lemma vector_loop_scalar wide b size fuel p o s :
  size ≤ blen b → blen b < usize_max →
  1 ≤ p → (o < T)%nat → (s < L)%nat → fuel ≠ O → size - p < Z.of_nat fuel →
  vector_loop fuel wide b size c p (Z.of_nat o) (Z.of_nat s) = cut_from b size c p o s.
Proof.
  intros Hsize Hlen. pose proof (config_sequence c Hc). pose proof (config_trigger c Hc).
  revert p o s. induction fuel as [|fuel IH]; intros p o s Hp Ho Hs Hn Hf; [done|].
  cbn [vector_loop]. set (w := if wide then 64 else 32).
  assert (Hw : 32 ≤ w ≤ 64) by (unfold w; destruct wide; lia).
  destruct (Z.leb_spec (saturating_add usize_max p w) size) as [Hin|]; [|done].
  unfold saturating_add in Hin.
  destruct (classify_step wide b p o s) as (n&Hn1&Hnw&->); [lia|fold w; lia|done..|]. fold w in Hnw.
  rewrite Ok_bind. pose proof (cut_from_scan b size c Hc Hsize Hlen n p 0 o s) as Hscan.
  rewrite Z.add_0_r in Hscan. rewrite Hscan by lia. fold L T.
  pose proof (scan_range L T 0 (lanes b p n) o s Ho Hs) as Hr. rewrite length_lanes in Hr.
  destruct (scan L T 0 (lanes b p n) o s) as [k|k|o' s' k].
  - rewrite add_or_panic_in by lia. done.
  - rewrite add_or_panic_in, Ok_bind by lia.
    rewrite skip_to_lane by lia.
    pose proof (skip_to_ge c Hc (p + k + 1)).
    apply (IH _ 0%nat 0%nat); lia.
  - destruct Hr as (o''&s''&->&->&Ho'&Hs'&->). rewrite add_or_panic_in, Ok_bind by lia.
    rewrite !Nat2Z.id. apply IH; lia.
Qed.
End Vector.

Lemma cut_vector_scalar wide b c :
  config_ok c → blen b < usize_max → cut_vector wide b c = seqcdc_cut_scalar b c.
Proof.
  intros Hc Hlen. unfold cut_vector, seqcdc_cut_scalar. rewrite validate_config_ok, !Ok_bind by done.
  destruct (Z.ltb_spec (blen b) (minimum_bytes c)); [done|].
  pose proof (config_sequence c Hc). pose proof (config_trigger c Hc). pose proof (config_minimum c Hc).
  apply (vector_loop_scalar c Hc wide b _ _ _ 0 0); unfold cut_fuel; lia.
Qed.

(** ** The segmented scanner *)
Section Segment.
Context (b : bytes) (size : Z) (c : SeqCdcConfig) (Hc : config_ok c).
Context (Hsize : size ≤ blen b) (Hlen : blen b < usize_max).
Let L := Z.to_nat (sequence_length c).
Let T := Z.to_nat (skip_trigger c).
Context (segment : bytes) (start : Z) (Hstart : 0 ≤ start).
Context (Hseg : ∀ i, 0 ≤ i < blen segment → byte_get segment i = byte_get b (start + i)).
Let e := start + blen segment.
Context (He : e ≤ blen b).

(** The loop on the segment returns the cut [m], or leaves the segment with a
    position and counters from which the cut is [m]. *)
Definition continues (m : outcome unit Z) (r : outcome unit (Z + Z * Z * Z)) : Prop :=
  match r with
  | Ok (inl r) => m = Ok r
  | Ok (inr (p, o, s)) => ∃ o' s', o = Z.of_nat o' ∧ s = Z.of_nat s' ∧ (o' < T)%nat ∧ (s' < L)%nat ∧
      1 ≤ p ∧ (e ≤ p ∨ size ≤ p) ∧ m = cut_from b size c p o' s'
  | _ => False
  end.

(** Leaving a skip: out of the buffer, out of the segment, or on. *)
Lemma segment_skip p (next : Z → Z → Z → outcome unit (Z + Z * Z * Z)) :
  1 ≤ p → start < p →
  (p < e → p < size →
     continues (cut_from b size c p 0 0) (next p (p - start) (byte_get b (p - 1)))) →
  continues (cut_from b size c p 0 0)
    (if size <=? p then Ok (inl size)
     else if e <=? p then Ok (inr (p, 0, 0))
     else
       local ← sub_or_panic p start;
       before ← sub_or_panic local 1;
       previous ← byte_at segment before;
       next p local previous).
Proof.
  intros Hp Hps Hnext. pose proof (config_sequence c Hc). pose proof (config_trigger c Hc).
  destruct (Z.leb_spec size p); [by apply cut_from_done|].
  destruct (Z.leb_spec e p).
  - exists 0%nat, 0%nat. unfold L, T. split_and!; try done; lia.
  - rewrite sub_or_panic_in, Ok_bind by lia. rewrite sub_or_panic_in, Ok_bind by lia.
    rewrite byte_at_get, Ok_bind by (unfold e in *; lia). rewrite Hseg by (unfold e in *; lia).
    replace (start + (p - start - 1)) with (p - 1) by lia. auto.
Qed.

(** The recursive calls of one iteration at [p]. *)
Definition resumes (p : Z) (next : Z → Z → Z → Z → Z → outcome unit (Z + Z * Z * Z)) : Prop :=
  ∀ p' o s, p < p' → (o < T)%nat → (s < L)%nat →
    continues (cut_from b size c p' o s)
      (next p' (p' - start) (byte_get b (p' - 1)) (Z.of_nat o) (Z.of_nat s)).

Lemma segment_vector_step (wide : bool) p o s next :
  start < p → p - start + (if wide then 64 else 32) ≤ blen segment →
  p + (if wide then 64 else 32) ≤ size → (o < T)%nat → (s < L)%nat → resumes p next →
  continues (cut_from b size c p o s)
    (decision ← classify wide segment (p - start) c (Z.of_nat o) (Z.of_nat s);
     match decision with
     | Boundary lane => r ← add_or_panic usize_max p lane; Ok (inl r)
     | Skip lane =>
         lane ← add_or_panic usize_max lane 1;
         let p := saturating_add usize_max (saturating_add usize_max p lane) (skip_bytes c) in
         if size <=? p then Ok (inl size)
         else if e <=? p then Ok (inr (p, 0, 0))
         else
           local ← sub_or_panic p start;
           before ← sub_or_panic local 1;
           previous ← byte_at segment before;
           next p local previous 0 0
     | Advance opposing sequence advanced =>
         p' ← add_or_panic usize_max p advanced;
         local ← add_or_panic usize_max (p - start) advanced;
         before ← sub_or_panic local 1;
         previous ← byte_at segment before;
         next p' local previous opposing sequence
     end).
Proof.
  set (w := if wide then 64 else 32). assert (Hw : 32 ≤ w ≤ 64) by (unfold w; destruct wide; lia).
  intros Hps Hlw Hpw Ho Hs Hnext. pose proof (config_sequence c Hc). pose proof (config_trigger c Hc).
  destruct (classify_step c Hc wide segment (p - start) o s) as (n&Hn1&Hnw&->); [lia|fold w; unfold e in *; lia|done..|].
  fold w in Hnw. rewrite Ok_bind.
  assert (lanes segment (p - start) n = lanes b p n) as ->.
  { apply lanes_ext. intros i Hi. rewrite Hseg by (unfold e in *; lia). f_equal. lia. }
  pose proof (cut_from_scan b size c Hc Hsize Hlen n p 0 o s) as Hscan.
  rewrite Z.add_0_r in Hscan. rewrite Hscan by lia. fold L T.
  pose proof (scan_range L T 0 (lanes b p n) o s Ho Hs) as Hr. rewrite length_lanes in Hr.
  destruct (scan L T 0 (lanes b p n) o s) as [k|k|o' s' k].
  - rewrite add_or_panic_in, Ok_bind by lia. done.
  - rewrite add_or_panic_in, Ok_bind by lia. cbv zeta. rewrite skip_to_lane by lia.
    pose proof (skip_to_ge c Hc (p + k + 1)).
    apply (segment_skip _ (λ p l v, next p l v 0 0)); [lia..|].
    intros. apply (Hnext _ 0%nat 0%nat); unfold L, T; lia.
  - destruct Hr as (o''&s''&->&->&Ho'&Hs'&->).
    rewrite (add_or_panic_in _ p), Ok_bind by lia. rewrite add_or_panic_in, Ok_bind by (unfold e in *; lia).
    rewrite sub_or_panic_in, Ok_bind by lia. rewrite byte_at_get, Ok_bind by (unfold e in *; lia).
    rewrite Hseg by (unfold e in *; lia). rewrite !Nat2Z.id, Z.add_0_l.
    replace (start + (p - start + Z.of_nat n - 1)) with (p + Z.of_nat n - 1) by lia.
    replace (p - start + Z.of_nat n) with (p + Z.of_nat n - start) by lia.
    apply Hnext; done || lia.
Qed.

Lemma segment_scalar_step p o s next :
  start ≤ p → 1 ≤ p → p < e → p < size → (o < T)%nat → (s < L)%nat → resumes p next →
  continues (cut_from b size c p o s)
    (current ← byte_at segment (p - start);
     p ← add_or_panic usize_max p 1;
     local ← add_or_panic usize_max (p - 1 - start) 1;
     if negb (current =? byte_get b (p - 1 - 1)) then
       '(opposing, sequence) ←
         (if current <? byte_get b (p - 1 - 1) then
            opposing ← add_or_panic u16_max (Z.of_nat o) 1; Ok (opposing, 0)
          else sequence ← add_or_panic u16_max (Z.of_nat s) 1; Ok (Z.of_nat o, sequence));
       if sequence =? sequence_length c then r ← sub_or_panic p 1; Ok (inl r)
       else if opposing =? skip_trigger c then
         let p := saturating_add usize_max p (skip_bytes c) in
         if size <=? p then Ok (inl size)
         else if e <=? p then Ok (inr (p, 0, 0))
         else
           local ← sub_or_panic p start;
           before ← sub_or_panic local 1;
           previous ← byte_at segment before;
           next p local previous 0 0
       else next p local current opposing sequence
     else next p local current (Z.of_nat o) (Z.of_nat s)).
Proof.
  intros Hps Hp Hpe Hpz Ho Hs Hnext. pose proof (config_sequence c Hc). pose proof (config_trigger c Hc).
  rewrite byte_at_get, Ok_bind by (unfold e in *; lia). rewrite Hseg by (unfold e in *; lia).
  replace (start + (p - start)) with p by lia.
  rewrite (add_or_panic_in _ p), Ok_bind by lia. rewrite Z.add_simpl_r.
  rewrite (add_or_panic_in _ (p - start)), Ok_bind by lia.
  replace (p - start + 1) with (p + 1 - start) by lia.
  rewrite cut_from_body by done. unfold cut_body. rewrite (proj2 (Z.leb_gt _ _)) by lia. unfold lane.
  rewrite (Z.eqb_compare (byte_get b p) (byte_get b (p - 1))), (Z.ltb_compare (byte_get b p)).
  pose proof (λ o' s', Hnext (p + 1) o' s' ltac:(lia)) as Hone. rewrite Z.add_simpl_r in Hone.
  fold T L. destruct (byte_get b p ?= byte_get b (p - 1)); cbn [negb]; [by apply Hone|..].
  - rewrite add_or_panic_in, !Ok_bind by (unfold T in *; lia). cbv beta iota.
    rewrite (proj2 (Z.eqb_neq 0 _)) by lia. case_decide.
    + rewrite (proj2 (Z.eqb_eq _ _)) by (unfold T in *; lia). pose proof (skip_to_ge c Hc (p + 1)).
      apply (segment_skip _ (λ p l v, next p l v 0 0)); [unfold skip_to in *; lia..|].
      intros. apply (Hnext _ 0%nat 0%nat); unfold L, T, skip_to in *; lia.
    + rewrite (proj2 (Z.eqb_neq _ _)) by (unfold T in *; lia).
      replace (Z.of_nat o + 1) with (Z.of_nat (S o)) by lia. apply (Hone (S o) 0%nat); lia.
  - rewrite add_or_panic_in, !Ok_bind by (unfold L, u16_max in *; lia). cbv beta iota. case_decide.
    + rewrite (proj2 (Z.eqb_eq _ _)) by (unfold L in *; lia).
      rewrite sub_or_panic_in, Ok_bind by lia. simpl. f_equal. lia.
    + rewrite !(proj2 (Z.eqb_neq _ _)) by (unfold L, T in *; lia).
      replace (Z.of_nat s + 1) with (Z.of_nat (S s)) by lia. apply Hone; lia.
Qed.

Lemma segment_loop_continues vector wide fuel p previous o s :
  start ≤ p → 1 ≤ p → previous = byte_get b (p - 1) → (o < T)%nat → (s < L)%nat →
  fuel ≠ O → size - p < Z.of_nat fuel →
  continues (cut_from b size c p o s)
    (segment_loop fuel vector wide segment start e size c p (p - start) previous
       (Z.of_nat o) (Z.of_nat s)).
Proof.
  revert p previous o s. induction fuel as [|fuel IH]; intros p previous o s Hps Hp -> Ho Hs Hn Hf; [done|].
  cbn [segment_loop]. cbv zeta.
  assert (Hleave : e ≤ p ∨ size ≤ p → continues (cut_from b size c p o s) (Ok (inr (p, Z.of_nat o, Z.of_nat s)))).
  { intros. exists o, s. by split_and!. }
  destruct (Z.ltb_spec p e) as [Hpe|]; [destruct (Z.ltb_spec p size) as [Hpz|]|]; cbn [andb negb];
    [|by apply Hleave; auto..].
  assert (Hnext : resumes p (segment_loop fuel vector wide segment start e size c)).
  { intros p' o' s' ???. apply IH; lia || done. }
  destruct (vector && _ && _ && _) eqn:Hv.
  - rewrite !andb_true_iff, negb_true_iff, Z.eqb_neq, !Z.leb_le in Hv.
    destruct Hv as [[[_ Hl0] Hlw] Hpw]. unfold saturating_add in Hlw, Hpw.
    apply segment_vector_step; auto; destruct wide; unfold e in *; lia.
  - pose proof (segment_scalar_step p o s _ Hps Hp Hpe Hpz Ho Hs Hnext) as Hstep.
    destruct (byte_at segment (p - start)) as [v| |]; [|exact Hstep..].
    rewrite !Ok_bind, (add_or_panic_in _ p), Ok_bind in Hstep |- * by lia.
    by rewrite Z.add_simpl_r in Hstep.
Qed.
End Segment.

Lemma byte_get_app_l a d i : 0 ≤ i < blen a → byte_get (a ++ d) i = byte_get a i.
Proof.
  intros Hi. unfold byte_get. change (blen a) with (Z.of_nat (length a)) in Hi.
  by rewrite lookup_app_l by lia.
Qed.
Lemma byte_get_app_r a d i : 0 ≤ i → byte_get (a ++ d) (blen a + i) = byte_get d i.
Proof.
  intros Hi. unfold byte_get. change (blen a) with (Z.of_nat (length a)).
  rewrite lookup_app_r by lia. do 3 f_equal. lia.
Qed.
Lemma last_byte_get a x : Z_of_byte <$> list.last a = Some x → 1 ≤ blen a ∧ byte_get a (blen a - 1) = x.
Proof.
  intros Hx. rewrite last_lookup in Hx. unfold byte_get. change (blen a) with (Z.of_nat (length a)).
  destruct a as [|y a]; [done|]. split; [simpl; lia|].
  replace (Z.to_nat (Z.of_nat (length (y :: a)) - 1)) with (Nat.pred (length (y :: a))) by (simpl; lia).
  by rewrite Hx.
Qed.
Lemma last_byte_app pre segment :
  last_byte segment (Z_of_byte <$> list.last pre) = Z_of_byte <$> list.last (pre ++ segment).
Proof. unfold last_byte. rewrite last_app. by destruct (list.last segment). Qed.

(** The byte before the first byte scanned in a segment. *)
Lemma previous_byte b pre rest segment p :
  b = pre ++ rest → 1 ≤ p → blen pre ≤ p < blen pre + blen segment →
  (∀ i, 0 ≤ i < blen segment → byte_get segment i = byte_get b (blen pre + i)) →
  (if p - blen pre =? 0 then expect (Z_of_byte <$> list.last pre)
   else before ← sub_or_panic (p - blen pre) 1; byte_at segment before) = @Ok unit Z (byte_get b (p - 1)).
Proof.
  intros -> Hp Hpre Hseg. destruct (Z.eqb_spec (p - blen pre) 0).
  - destruct (Z_of_byte <$> list.last pre) as [x|] eqn:Hx.
    + apply last_byte_get in Hx as [? <-]. rewrite byte_get_app_l by lia. simpl. do 2 f_equal. lia.
    + destruct (list.last pre) eqn:Hn; [done|]. apply last_None in Hn as ->.
      change (blen (@nil byte)) with 0 in *. lia.
  - rewrite sub_or_panic_in, Ok_bind, byte_at_get, Hseg by lia. do 2 f_equal. lia.
Qed.

Section Segments.
Context (size : Z) (c : SeqCdcConfig) (Hc : config_ok c).
Let L := Z.to_nat (sequence_length c).
Let T := Z.to_nat (skip_trigger c).

Lemma segments_loop_cut avx512 vector segments pre p o s :
  let b := pre ++ concat segments in
  size ≤ blen b → blen b < usize_max →
  1 ≤ p → blen pre ≤ p → (o < T)%nat → (s < L)%nat →
  segments_loop avx512 vector segments size c p (Z.of_nat o) (Z.of_nat s) (blen pre)
    (Z_of_byte <$> list.last pre) = cut_from b size c p o s.
Proof.
  revert pre p o s. induction segments as [|segment segments IH]; intros pre p o s b Hsize Hlen Hp Hpre Ho Hs;
    cbn [segments_loop].
  { unfold b in *. cbn [concat] in *. rewrite app_nil_r in *.
    rewrite (proj2 (Z.leb_le _ _)) by lia. simpl. by rewrite cut_from_done by lia. }
  assert (Hb : b = (pre ++ segment) ++ concat segments) by (unfold b; cbn [concat]; by rewrite app_assoc).
  assert (He : blen pre + blen segment ≤ blen b).
  { rewrite Hb. rewrite !blen_app. pose proof (blen_nonneg (concat segments)). lia. }
  pose proof (blen_nonneg pre). pose proof (blen_nonneg segment).
  rewrite add_or_panic_in, Ok_bind by lia.
  assert (Hrest : ∀ p o s, 1 ≤ p → blen pre + blen segment ≤ p → (o < T)%nat → (s < L)%nat →
    segments_loop avx512 vector segments size c p (Z.of_nat o) (Z.of_nat s) (blen pre + blen segment)
      (last_byte segment (Z_of_byte <$> list.last pre)) = cut_from b size c p o s).
  { intros p' o' s' ????. rewrite last_byte_app, <-blen_app, Hb. apply IH; try done; rewrite <-?Hb; try done.
    by rewrite blen_app. }
  destruct (Z.leb_spec (blen pre + blen segment) p); [by apply Hrest|].
  rewrite (proj2 (Z.leb_le _ _)) by lia. cbn [assert_true]. rewrite Ok_bind, sub_or_panic_in, Ok_bind by lia.
  assert (Hseg : ∀ i, 0 ≤ i < blen segment → byte_get segment i = byte_get b (blen pre + i)).
  { intros i Hi. rewrite Hb, <-app_assoc, byte_get_app_r by lia. by rewrite byte_get_app_l. }
  rewrite (previous_byte b pre (concat (segment :: segments))) by (done || lia).
  rewrite Ok_bind. cbv zeta.
  pose proof (segment_loop_continues b size c Hc Hsize Hlen segment (blen pre) ltac:(lia) Hseg He vector
    (vector && avx512 && flat_probe segment (p - blen pre)) (cut_fuel size) p _ o s ltac:(lia) Hp eq_refl Ho Hs
    ltac:(unfold cut_fuel; lia) ltac:(unfold cut_fuel; lia)) as Hr.
  destruct (segment_loop _ _ _ _ _ _ _ _ _ _ _ _ _) as [[r|[[p' o'] s']]| |]; [by rewrite Hr| |done..].
  destruct Hr as (o''&s''&->&->&?&?&?&Hor&->). rewrite Ok_bind.
  destruct (Z.leb_spec size p'); [by rewrite cut_from_done|]. apply Hrest; done || lia.
Qed.
End Segments.

Lemma cut_segmented_scalar avx512 vector segments c :
  config_ok c → blen (concat segments) < usize_max →
  cut_segmented avx512 vector segments (blen (concat segments)) c = seqcdc_cut_scalar (concat segments) c.
Proof.
  intros Hc Hlen. unfold cut_segmented, seqcdc_cut_scalar. rewrite validate_config_ok, !Ok_bind by done.
  destruct (Z.ltb_spec (blen (concat segments)) (minimum_bytes c)); [done|].
  pose proof (config_sequence c Hc). pose proof (config_trigger c Hc). pose proof (config_minimum c Hc).
  apply (segments_loop_cut _ c Hc avx512 vector segments [] _ 0 0); try done; try lia;
    change (blen (@nil byte)) with 0; cbn [app]; lia.
Qed.

(** ** What a cut depends on *)

Lemma cut_from_stable b size b' size' c r p o s :
  config_ok c → size ≤ blen b → blen b < usize_max → size' ≤ blen b' → blen b' < usize_max →
  (∀ i, 0 ≤ i ≤ r → byte_get b i = byte_get b' i) → r < size → r < size' →
  1 ≤ p → (o < Z.to_nat (skip_trigger c))%nat → (s < Z.to_nat (sequence_length c))%nat →
  cut_from b size c p o s = Ok r → cut_from b' size' c p o s = Ok r.
Proof.
  intros Hc Hs Hl Hs' Hl' Hb Hr Hr'. revert p o s.
  apply (cut_induction size c (λ p o s, cut_from b size c p o s = Ok r → cut_from b' size' c p o s = Ok r)).
  intros p o s Hp Ho Hsq IH Hcut. pose proof (config_sequence c Hc). pose proof (config_trigger c Hc).
  assert (Hpr : p ≤ r).
  { destruct (cut_from_bounds b size c Hc Hs Hl p o s) as (r'&Hr1&?); [done..|].
    rewrite Hcut in Hr1. apply Ok_inj in Hr1. lia. }
  rewrite cut_from_body in Hcut |- * by done. unfold cut_body in *.
  rewrite (proj2 (Z.leb_gt size p)) in Hcut by lia. rewrite (proj2 (Z.leb_gt size' p)) by lia.
  assert (lane b' p = lane b p) as -> by (unfold lane; by rewrite !Hb by lia).
  pose proof (skip_to_ge c Hc (p + 1)).
  destruct (lane b p); [apply IH; done || lia|..]; case_decide; try done; apply IH; done || lia.
Qed.

(** ** Theorems *)

(** C4: chunk boundaries do not depend on the CPU.  Whatever features are
    detected, [seqcdc_cut] returns what the scalar scanner returns, on every
    buffer and configuration; a configuration [validate] refuses panics on every
    path.  (Rust slices are shorter than [isize::MAX].) *)
Theorem seqcdc_cut_equals_scalar avx512 avx2_bmi2 b c :
  config_typed c → blen b < usize_max →
  seqcdc_cut avx512 avx2_bmi2 b c = seqcdc_cut_scalar b c.
Proof.
  intros [Hv|Hc]%config_typed_cases Hlen.
  - unfold seqcdc_cut, cut_avx512, cut_avx2_bmi2, cut_vector, seqcdc_cut_scalar. rewrite Hv.
    by repeat case_match.
  - unfold seqcdc_cut, cut_avx512, cut_avx2_bmi2. rewrite !cut_vector_scalar by done. by repeat case_match.
Qed.

(** C29: chunk boundaries do not depend on how the input arrives.  On any
    segmentation of a buffer, empty and single-byte segments included, and any
    detected features, the segmented scanner returns the scalar cut of the
    concatenation. *)
Theorem seqcdc_cut_segmented_equals_scalar avx512 avx2_bmi2 segments c :
  config_typed c → blen (concat segments) < usize_max →
  seqcdc_cut_segmented avx512 avx2_bmi2 segments (blen (concat segments)) c
    = seqcdc_cut_scalar (concat segments) c ∧
  seqcdc_cut_segmented_scalar segments (blen (concat segments)) c
    = seqcdc_cut_scalar (concat segments) c.
Proof.
  intros [Hv|Hc]%config_typed_cases Hlen.
  - unfold seqcdc_cut_segmented, seqcdc_cut_segmented_scalar, cut_segmented, seqcdc_cut_scalar. by rewrite Hv.
  - split; by apply cut_segmented_scalar.
Qed.

Lemma scalar_cut_bounds b c :
  config_ok c → blen b < usize_max →
  ∃ r, seqcdc_cut_scalar b c = Ok r ∧ r ≤ Z.min (blen b) (maximum_bytes c) ∧
       Z.min (blen b) (minimum_bytes c) ≤ r.
Proof.
  intros Hc Hlen. pose proof (config_sequence c Hc). pose proof (config_trigger c Hc). pose proof (config_minimum c Hc).
  unfold seqcdc_cut_scalar. rewrite validate_config_ok, Ok_bind by done.
  destruct (Z.ltb_spec (blen b) (minimum_bytes c)); [eexists; split; [done|lia]|].
  destruct (cut_from_bounds b (Z.min (blen b) (maximum_bytes c)) c Hc ltac:(lia) Hlen (minimum_bytes c) 0 0)
    as (r&?&?); [lia..|]. exists r. split; [done|lia].
Qed.

(** C31: every scanner returns a cut, and the chunk is at least the minimum (or
    the whole rest of the buffer) and at most the maximum; in particular a
    non-empty buffer always loses at least one byte. *)
Theorem seqcdc_cut_in_bounds avx512 avx2_bmi2 b c :
  config_ok c → blen b < usize_max →
  ∃ r, seqcdc_cut avx512 avx2_bmi2 b c = Ok r ∧ r ≤ Z.min (blen b) (maximum_bytes c) ∧
       Z.min (blen b) (minimum_bytes c) ≤ r ∧ (b ≠ [] → 0 < r).
Proof.
  intros Hc Hlen. destruct (scalar_cut_bounds b c Hc Hlen) as (r&Hr&?&?). exists r.
  pose proof (config_minimum c Hc).
  split_and!; [|done..|].
  - unfold seqcdc_cut, cut_avx512, cut_avx2_bmi2. rewrite !cut_vector_scalar by done. by repeat case_match.
  - intros Hb. assert (0 < blen b); [|lia]. destruct b as [|x b]; [done|]. rewrite blen_cons.
    pose proof (blen_nonneg b). lia.
Qed.

(** Boundaries are content defined.  A cut before the end of the window
    depends only on the bytes up to and including the cut: any buffer with the
    same first [r + 1] bytes, whatever follows them, is cut at the same place. *)
Theorem seqcdc_cut_content_defined avx512 avx2_bmi2 avx512' avx2_bmi2' b t c r :
  config_ok c → blen b < usize_max →
  seqcdc_cut avx512 avx2_bmi2 b c = Ok r → r < Z.min (blen b) (maximum_bytes c) →
  blen (sub b 0 (r + 1) ++ t) < usize_max →
  seqcdc_cut avx512' avx2_bmi2' (sub b 0 (r + 1) ++ t) c = Ok r.
Proof.
  intros Hc Hlen Hcut Hr. set (b' := sub b 0 (r + 1) ++ t). intros Hlen'.
  pose proof (config_sequence c Hc). pose proof (config_trigger c Hc). pose proof (config_minimum c Hc).
  assert (Hdisp : ∀ a v d, blen d < usize_max → seqcdc_cut a v d c = seqcdc_cut_scalar d c).
  { intros a v d Hd. unfold seqcdc_cut, cut_avx512, cut_avx2_bmi2. rewrite !cut_vector_scalar by done.
    by repeat case_match. }
  rewrite Hdisp in Hcut |- * by done.
  destruct (scalar_cut_bounds b c Hc Hlen) as (r'&Hr'&?&?). rewrite Hcut in Hr'. apply Ok_inj in Hr' as <-.
  unfold seqcdc_cut_scalar in *. rewrite validate_config_ok, Ok_bind in * by done.
  destruct (Z.ltb_spec (blen b) (minimum_bytes c)); [apply Ok_inj in Hcut; lia|].
  assert (Hpre : blen (sub b 0 (r + 1)) = r + 1) by (apply blen_sub; lia).
  assert (Hb' : r + 1 ≤ blen b') by (unfold b'; rewrite blen_app; pose proof (blen_nonneg t); lia).
  rewrite (proj2 (Z.ltb_ge _ _)) by lia.
  refine (cut_from_stable b _ b' _ c r _ 0 0 Hc _ Hlen _ Hlen' _ Hr _ _ _ _ Hcut); try lia.
  intros i Hi. unfold b'. rewrite byte_get_app_l by lia. unfold byte_get. do 2 f_equal.
  change (sub b 0 (r + 1)) with (take (Z.to_nat (r + 1)) (drop (Z.to_nat 0) b)).
  rewrite lookup_take_lt by lia. done.
Qed.

(** Witnesses: a run of two, a skip of two bytes after two descents, chunks of
    2 to 40 bytes, on an input that takes the vector path. *)
Definition example_config : SeqCdcConfig :=
  {| sequence_length := 2; skip_trigger := 2; skip_bytes := 2; minimum_bytes := 2; maximum_bytes := 90 |}.
Definition example_input : bytes :=
  replicate 36 x07 ++ [x05; x06; x05; x09; x00; x01; x01; x02; x09] ++ replicate 60 x03.
Lemma example_config_ok : config_ok example_config.
Proof. by constructor. Qed.
Lemma example_config_typed : config_typed example_config.
Proof. by unfold config_typed, in_u. Qed.

Lemma seqcdc_cut_equals_scalar_witness :
  seqcdc_cut true true example_input example_config = seqcdc_cut_scalar example_input example_config ∧
  seqcdc_cut_scalar example_input example_config = Ok 43.
Proof.
  split; [|by vm_compute].
  apply (seqcdc_cut_equals_scalar true true example_input example_config);
    [apply example_config_typed|by vm_compute].
Defined.
Lemma seqcdc_cut_segmented_equals_scalar_witness :
  let segments := [[]; take 1 example_input; take 50 (drop 1 example_input); drop 51 example_input] in
  seqcdc_cut_segmented true true segments (blen (concat segments)) example_config
    = seqcdc_cut_scalar (concat segments) example_config.
Proof.
  intros segments. refine (proj1 (seqcdc_cut_segmented_equals_scalar true true segments example_config _ _));
    [apply example_config_typed|by vm_compute].
Defined.
Lemma seqcdc_cut_in_bounds_witness :
  ∃ r, seqcdc_cut false true example_input example_config = Ok r ∧ 2 ≤ r ≤ 90.
Proof.
  destruct (seqcdc_cut_in_bounds false true example_input example_config) as (r&Hr&Hmax&Hmin&_);
    [apply example_config_ok|by vm_compute|].
  exists r. split; [exact Hr|]. vm_compute in Hmax, Hmin. vm_compute. split; intros ?; congruence.
Defined.
Lemma seqcdc_cut_content_defined_witness :
  seqcdc_cut true true (sub example_input 0 44 ++ [x01; x02; x03]) example_config = Ok 43.
Proof.
  apply (seqcdc_cut_content_defined false false true true example_input [x01; x02; x03] example_config 43);
    [apply example_config_ok|by vm_compute..].
Defined.
End SeqCdcCut.
