(* ===== verification/SmallFilePolicy.v ===== *)
(** * The small-file extension policy ([fastdup-posix/src/small_file_policy.rs])

    A list of file-name extensions is validated, canonicalised and compiled to
    a trie of reversed suffixes, flattened to a transition table; a file name is
    matched by one walk over its last bytes.  A Rust string is its UTF-8 bytes.

    The compiled matcher is shown equal to the case-insensitive suffix test it
    replaces. *)
From S2P Require Export Bytes.
From stdpp Require Import sorting.
#[local] Open Scope Z_scope.

Module SmallFilePolicy.

Definition MAX_SMALL_FILE_EXTENSIONS : Z := 64.
Definition MAX_SMALL_FILE_EXTENSION_BYTES : Z := 32.
Definition MAX_SMALL_FILE_POLICY_REVISION_BYTES : Z := 128.
Definition NO_TRANSITION : Z := u16_max.

Inductive SmallFilePolicyError :=
  | EmptyRevision
  | RevisionTooLong
  | TooManyExtensions
  | InvalidExtension (extension : bytes).

(** [u8::is_ascii], [is_ascii_alphanumeric] and [to_ascii_lowercase] *)
Definition is_ascii (c : Z) : bool := c <? 128.
Definition is_ascii_alphanumeric (c : Z) : bool :=
  (48 <=? c) && (c <=? 57) || (65 <=? c) && (c <=? 90) || (97 <=? c) && (c <=? 122).
Definition to_ascii_lowercase (c : Z) : Z := if (65 <=? c) && (c <=? 90) then c + 32 else c.
Definition lower (b : bytes) : list Z := map (to_ascii_lowercase ∘ Z_of_byte) b.

(** [fn valid_extension] *)
Definition valid_extension (extension : bytes) : bool :=
  (2 <=? blen extension) && (blen extension <=? MAX_SMALL_FILE_EXTENSION_BYTES) &&
  match map Z_of_byte extension with
  | c :: rest =>
      (c =? 46) &&
      forallb (λ c, is_ascii_alphanumeric c || (c =? 46) || (c =? 95) || (c =? 43) || (c =? 45)) rest
  | [] => false
  end.

(** The order of [str]: lexicographic on bytes; [Vec::dedup] *)
Fixpoint str_le (a b : list Z) : bool :=
  match a, b with
  | [], _ => true
  | _ :: _, [] => false
  | x :: a, y :: b => (x <? y) || (x =? y) && str_le a b
  end.
Fixpoint dedup_from (x : list Z) (l : list (list Z)) : list (list Z) :=
  match l with
  | [] => [x]
  | y :: l => if bool_decide (x = y) then dedup_from x l else x :: dedup_from y l
  end.
Definition dedup (l : list (list Z)) : list (list Z) :=
  match l with [] => [] | x :: l => dedup_from x l end.

(** ** The matcher *)

Record ReverseSuffixMatcher := {
  transitions : list Z;
  terminal : list bool;
  maximum_length : Z;
}.
(** The trie under construction: [edges] and [terminal]. *)
Abbreviation trie := (list (gmap Z Z) * list bool)%type.

(** The inner loop of [ReverseSuffixMatcher::compile]: one extension's bytes,
    from [node]. *)
Fixpoint insert_bytes {E} (t : trie) (node : Z) (word : list Z) : outcome E (trie * Z) :=
  match word with
  | [] => Ok (t, node)
  | c :: word =>
      let '(edges, terminal) := t in
      row ← vec_at edges node;
      match row !! c with
      | Some next => insert_bytes t next word
      | None =>
          let next := blen edges in
          let edges := edges ++ [∅] in
          let terminal := terminal ++ [false] in
          row ← vec_at edges node;
          edges ← vec_set edges node (<[c := next]> row);
          insert_bytes (edges, terminal) next word
      end
  end.
(** The loop over the extensions *)
Fixpoint insert_all {E} (t : trie) (maximum_length : Z) (extensions : list (list Z))
    : outcome E (trie * Z) :=
  match extensions with
  | [] => Ok (t, maximum_length)
  | extension :: extensions =>
      let maximum_length := Z.max maximum_length (blen extension) in
      '(t, node) ← insert_bytes t 0 (reverse extension);
      let '(edges, terminal) := t in
      terminal ← vec_set terminal node true;
      insert_all (edges, terminal) maximum_length extensions
  end.
(** The entries of a [BTreeMap<u8, usize>], in order. *)
Definition entries (row : gmap Z Z) : list (Z * Z) :=
  omap (λ c, pair c <$> row !! c) (seqZ 0 256).
(** The loops that flatten the edges *)
Fixpoint fill_row {E} (table : list Z) (node : Z) (row : list (Z * Z)) : outcome E (list Z) :=
  match row with
  | [] => Ok table
  | (c, target) :: row =>
      v ← expect (try_from_u u16_max target);
      table ← vec_set table (node * 128 + c) v;
      fill_row table node row
  end.
Fixpoint fill_table {E} (table : list Z) (node : Z) (edges : list (gmap Z Z)) : outcome E (list Z) :=
  match edges with
  | [] => Ok table
  | row :: edges =>
      table ← fill_row table node (entries row);
      fill_table table (node + 1) edges
  end.
(** [ReverseSuffixMatcher::compile] *)
Definition matcher_compile {E} (extensions : list (list Z)) : outcome E ReverseSuffixMatcher :=
  '(t, maximum_length) ← insert_all ([∅], [false]) 0 extensions;
  let '(edges, terminal) := t in
  let table := replicate (length edges * 128) NO_TRANSITION in
  transitions ← fill_table table 0 edges;
  Ok {| transitions := transitions; terminal := terminal; maximum_length := maximum_length |}.

(** The loop of [ReverseSuffixMatcher::matches] *)
Fixpoint matches_loop {E} (m : ReverseSuffixMatcher) (node : Z) (name : list Z) : outcome E bool :=
  match name with
  | [] => Ok false
  | c :: name =>
      if negb (is_ascii c) then Ok false
      else
        next ← vec_at (transitions m) (node * 128 + to_ascii_lowercase c);
        if next =? NO_TRANSITION then Ok false
        else
          accept ← vec_at (terminal m) next;
          if (accept : bool) then Ok true else matches_loop m next name
  end.
Definition matches {E} (m : ReverseSuffixMatcher) (name : bytes) : outcome E bool :=
  if maximum_length m =? 0 then Ok false
  else matches_loop m 0 (take (Z.to_nat (maximum_length m)) (reverse (map Z_of_byte name))).

(** ** The policy *)

Record SmallFileExtensionPolicy := {
  revision : bytes;
  extensions : list (list Z);
  matcher : ReverseSuffixMatcher;
}.

(** The validation loop of [SmallFileExtensionPolicy::compile] *)
Fixpoint canonical_loop (extensions : list bytes) (canonical : list (list Z))
    : outcome SmallFilePolicyError (list (list Z)) :=
  match extensions with
  | [] => Ok canonical
  | extension :: extensions =>
      reject_if (negb (valid_extension extension)) (InvalidExtension extension);;
      canonical_loop extensions (canonical ++ [lower extension])
  end.
(** [SmallFileExtensionPolicy::compile] *)
Definition compile (revision : bytes) (extensions : list bytes)
    : outcome SmallFilePolicyError SmallFileExtensionPolicy :=
  reject_if (blen revision =? 0) EmptyRevision;;
  reject_if (MAX_SMALL_FILE_POLICY_REVISION_BYTES <? blen revision) RevisionTooLong;;
  reject_if (MAX_SMALL_FILE_EXTENSIONS <? blen extensions) TooManyExtensions;;
  canonical ← canonical_loop extensions [];
  let canonical := dedup (merge_sort (λ a b, str_le a b) canonical) in
  matcher ← matcher_compile canonical;
  Ok {| revision := revision; extensions := canonical; matcher := matcher |}.

(** [fn matches_name], [fn snapshot] and [fn validate_small_file_extensions] *)
Definition matches_name {E} (p : SmallFileExtensionPolicy) (name : bytes) : outcome E bool :=
  matches (matcher p) name.
Record SmallFilePolicySnapshot := { snapshot_revision : bytes; snapshot_extensions : list (list Z) }.
Definition snapshot (p : SmallFileExtensionPolicy) : SmallFilePolicySnapshot :=
  {| snapshot_revision := revision p; snapshot_extensions := extensions p |}.
Definition validate_small_file_extensions (l : list bytes)
    : outcome SmallFilePolicyError (list (list Z)) :=
  extensions <$> compile (map byte_of_Z [118; 97; 108; 105; 100; 97; 116; 105; 111; 110]) l.

(** [impl Default for SmallFileExtensionPolicy] *)
Definition default_policy : outcome SmallFilePolicyError SmallFileExtensionPolicy :=
  match compile (map byte_of_Z [100; 101; 102; 97; 117; 108; 116; 45; 118; 49])
          [map byte_of_Z [46; 106; 115; 111; 110]; map byte_of_Z [46; 120; 109; 108]] with
  | Ok p => Ok p
  | _ => Panic
  end.

(** ** The trie

    Each node has a label, the word that leads to it; [words] are the words
    inserted so far. *)
Record trie_inv (t : trie) (labels words : list (list Z)) : Prop := {
  inv_edges : length t.1 = length labels;
  inv_terminal : length t.2 = length labels;
  inv_root : labels !! 0%nat = Some [];
  inv_nodup : NoDup labels;
  inv_closed l c : l ++ [c] ∈ labels → l ∈ labels;
  inv_ascii l : l ∈ labels → Forall (λ c, 0 ≤ c < 128) l;
  inv_edge i l row c j : labels !! i = Some l → t.1 !! i = Some row →
    row !! c = Some j ↔ 0 ≤ j ∧ labels !! Z.to_nat j = Some (l ++ [c]);
  inv_accept i l x : labels !! i = Some l → t.2 !! i = Some x → x = true ↔ l ∈ words;
  inv_words w : w ∈ words → w ∈ labels;
}.

Lemma trie_inv_empty : trie_inv ([∅], [false]) [[]] [].
Proof.
  constructor; simpl; try done.
  - apply NoDup_singleton.
  - intros l c Hl%list_elem_of_singleton. by destruct l.
  - intros l ->%list_elem_of_singleton. constructor.
  - intros [|i] l row c j Hl Hr; simplify_eq/=. rewrite lookup_empty. split; [done|].
    intros [_ Hj]. destruct (Z.to_nat j) as [|k]; simplify_eq/=.
  - intros [|i] l x Hl Hx; simplify_eq/=. split; [done|]. by intros ?%elem_of_nil.
  - by intros w ?%elem_of_nil.
Qed.


Lemma lookup_snoc {A} (l : list A) y k x :
  (l ++ [y]) !! k = Some x ↔ l !! k = Some x ∨ (k = length l ∧ x = y).
Proof.
  rewrite lookup_app_Some. split.
  - intros [?|[? Hk]]; [by left|]. right. destruct (k - length l)%nat eqn:?; simplify_eq/=. split; [lia|done].
  - intros [?|[-> ->]]; [by left|]. right. by rewrite Nat.sub_diag.
Qed.
(** A new leaf. *)
Lemma trie_inv_extend edges terminal labels words node l row c :
  trie_inv (edges, terminal) labels words → 0 ≤ c < 128 →
  labels !! node = Some l → edges !! node = Some row → row !! c = None →
  trie_inv (<[node := <[c := blen edges]> row]> (edges ++ [∅]), terminal ++ [false])
    (labels ++ [l ++ [c]]) words.
Proof.
  intros Hinv Hc Hl Hrow Hnone. destruct Hinv as [Hed Hte Hroot Hnd Hcl Has Hedge Hacc Hwd]; simpl in *.
  assert (Hfresh : l ++ [c] ∉ labels).
  { intros [j Hj]%list_elem_of_lookup. pose proof (Hedge _ _ _ c (Z.of_nat j) Hl Hrow) as He.
    rewrite Nat2Z.id in He. destruct He as [_ He]. rewrite Hnone in He. by discriminate He; split; [lia|]. }
  assert (Hlt : (node < length edges)%nat) by by eapply lookup_lt_Some.
  change (blen edges) with (Z.of_nat (length edges)).
  constructor; simpl.
  - rewrite length_insert, !length_app. simpl. lia.
  - rewrite !length_app. simpl. lia.
  - by apply lookup_app_l_Some.
  - apply NoDup_app. split_and!; [done| |apply NoDup_singleton]. intros x Hx ->%list_elem_of_singleton. done.
  - intros l' c' [Hin|Hin%list_elem_of_singleton]%elem_of_app; apply elem_of_app; left; [eauto|].
    apply app_inj_tail in Hin as [-> _]. by eapply list_elem_of_lookup_2.
  - intros l' [Hin|Hin]%elem_of_app; [auto|].
    apply list_elem_of_singleton in Hin as ->.
    apply Forall_app. split; [|by constructor]. apply Has. by eapply list_elem_of_lookup_2.
  - intros i l' row' c' j Hi Hr'. rewrite lookup_snoc. apply lookup_snoc in Hi as [Hi|[-> ->]].
    + pose proof (lookup_lt_Some _ _ _ Hi). destruct (decide (i = node)) as [->|Hne].
      * rewrite list_lookup_insert_eq in Hr' by (rewrite length_app; lia). simplify_eq.
        destruct (decide (c' = c)) as [->|Hcc].
        -- rewrite lookup_insert_eq. split.
           ++ intros [= <-]. split; [lia|]. right. split; [lia|done].
           ++ intros [? [Hj|[Hj _]]]; [|f_equal; lia]. destruct Hfresh. by eapply list_elem_of_lookup_2.
        -- rewrite lookup_insert_ne by done. rewrite Hedge by done. split; [tauto|].
           intros [? [?|[_ Heq%app_inj_tail]]]; naive_solver.
      * rewrite list_lookup_insert_ne, lookup_app_l in Hr' by lia. rewrite Hedge by done. split; [tauto|].
        intros [? [?|[_ [-> _]%app_inj_tail]]]; [done|]. by destruct (NoDup_lookup _ _ _ _ Hnd Hi Hl).
    + rewrite list_lookup_insert_ne, lookup_app_r in Hr' by lia.
      replace (length labels - length edges)%nat with 0%nat in Hr' by lia. simplify_eq/=.
      rewrite lookup_empty. split; [done|]. intros [_ [Hj|[_ Heq]]].
      * destruct Hfresh. eapply Hcl. by eapply list_elem_of_lookup_2.
      * apply (f_equal length) in Heq. rewrite !length_app in Heq. simpl in Heq. lia.
  - intros i l' x [Hi|[Hi Hn]]%lookup_app_Some Hx.
    + rewrite lookup_app_l in Hx by (rewrite Hte; by eapply lookup_lt_Some). eauto.
    + destruct (i - length labels)%nat as [|k] eqn:Hk; simplify_eq/=.
      rewrite lookup_app_r in Hx by lia. replace (i - length terminal)%nat with 0%nat in Hx by lia.
      simplify_eq/=. split; [done|]. intros Hw%Hwd. done.
  - intros w Hw. apply elem_of_app. left. auto.
Qed.

Lemma insert_bytes_spec {E} word edges terminal labels words node l :
  trie_inv (edges, terminal) labels words → Forall (λ c, 0 ≤ c < 128) word →
  0 ≤ node → labels !! Z.to_nat node = Some l →
  ∃ edges' terminal' labels' node',
    @insert_bytes E (edges, terminal) node word = Ok ((edges', terminal'), node') ∧
    trie_inv (edges', terminal') labels' words ∧ 0 ≤ node' ∧
    labels' !! Z.to_nat node' = Some (l ++ word) ∧
    (length labels' ≤ length labels + length word)%nat.
Proof.
  revert edges terminal labels node l. induction word as [|c word IH]; intros edges terminal labels node l Hinv Hw Hn Hl.
  { exists edges, terminal, labels, node. rewrite app_nil_r. split_and!; try done. simpl. lia. }
  apply Forall_cons_1 in Hw as [Hc Hw]. cbn [insert_bytes].
  pose proof (lookup_lt_Some _ _ _ Hl) as Hlt. pose proof (inv_edges _ _ _ Hinv) as Hlen. simpl in Hlen.
  destruct (lookup_lt_is_Some_2 edges (Z.to_nat node)) as [row Hrow]; [lia|].
  rewrite (vec_at_in edges node row Hrow), Ok_bind. destruct (row !! c) as [next|] eqn:Hnext.
  - apply (inv_edge _ _ _ Hinv _ _ _ _ _ Hl Hrow) in Hnext as [? Hnext].
    destruct (IH _ _ _ _ _ Hinv Hw ltac:(done) Hnext) as (e'&t'&l'&n'&?&?&?&Hn'&?).
    exists e', t', l', n'. rewrite <-app_assoc in Hn'. split_and!; try done. simpl. lia.
  - pose proof (trie_inv_extend _ _ _ _ _ _ _ _ Hinv Hc Hl Hrow Hnext) as Hinv'.
    rewrite (vec_at_in (edges ++ [∅]) node row) by by apply lookup_app_l_Some. rewrite Ok_bind, vec_set_in, Ok_bind.
    2: { change (blen (edges ++ [∅])) with (Z.of_nat (length (edges ++ [∅]))). rewrite length_app. simpl. lia. }
    destruct (IH _ _ _ (blen edges) (l ++ [c]) Hinv' Hw (blen_nonneg _)) as (e'&t'&l'&n'&?&?&?&Hn'&Hle).
    { change (blen edges) with (Z.of_nat (length edges)). rewrite Nat2Z.id, Hlen. apply lookup_snoc. by right. }
    exists e', t', l', n'. rewrite <-app_assoc in Hn'. split_and!; try done.
    rewrite length_app in Hle. simpl in *. lia.
Qed.

Lemma trie_inv_accept edges terminal labels words node w :
  trie_inv (edges, terminal) labels words → labels !! node = Some w →
  trie_inv (edges, <[node := true]> terminal) labels (w :: words).
Proof.
  intros [Hed Hte Hroot Hnd Hcl Has Hedge Hacc Hwd] Hw; simpl in *. constructor; simpl; try done.
  - by rewrite length_insert.
  - intros i l x Hi Hx. rewrite elem_of_cons. destruct (decide (i = node)) as [->|Hne].
    + rewrite list_lookup_insert_eq in Hx by (rewrite Hte; by eapply lookup_lt_Some). simplify_eq. naive_solver.
    + rewrite list_lookup_insert_ne in Hx by done. rewrite (Hacc i l x Hi Hx). split; [by right|].
      intros [->|]; [|done]. by destruct (NoDup_lookup _ _ _ _ Hnd Hi Hw).
  - intros w' [->|Hin]%elem_of_cons; [by eapply list_elem_of_lookup_2|auto].
Qed.

Definition ascii_word (w : list Z) : Prop := Forall (λ c, 0 ≤ c < 128) w.
Definition total_length (ws : list (list Z)) : nat := length (concat ws).
Definition longest (m : Z) (ws : list (list Z)) : Z := foldl (λ m w, Z.max m (blen w)) m ws.

Lemma insert_all_spec {E} ws edges terminal labels words m :
  trie_inv (edges, terminal) labels words → Forall ascii_word ws →
  ∃ edges' terminal' labels' words',
    @insert_all E (edges, terminal) m ws = Ok ((edges', terminal'), longest m ws) ∧
    trie_inv (edges', terminal') labels' words' ∧
    (∀ w, w ∈ words' ↔ w ∈ words ∨ w ∈ map reverse ws) ∧
    (length labels' ≤ length labels + total_length ws)%nat.
Proof.
  revert edges terminal labels words m. induction ws as [|w ws IH]; intros edges terminal labels words m Hinv Hw.
  { exists edges, terminal, labels, words. split_and!; try done; [|unfold total_length; simpl; lia].
    intros w. simpl. rewrite elem_of_nil. tauto. }
  apply Forall_cons_1 in Hw as [Hc Hw]. cbn [insert_all].
  destruct (insert_bytes_spec (E := E) (reverse w) edges terminal labels words 0 [] Hinv)
    as (e1&t1&l1&n1&->&Hinv1&Hn1&Hl1&Hle1); [by apply Forall_reverse|done|by eapply inv_root|].
  rewrite Ok_bind. cbv beta iota.
  pose proof (lookup_lt_Some _ _ _ Hl1). pose proof (inv_terminal _ _ _ Hinv1) as Ht. simpl in Ht.
  rewrite vec_set_in, Ok_bind by (change (blen t1) with (Z.of_nat (length t1)); lia).
  pose proof (trie_inv_accept _ _ _ _ _ _ Hinv1 Hl1) as Hinv2.
  destruct (IH _ _ _ _ (Z.max m (blen w)) Hinv2 Hw) as (e2&t2&l2&w2&->&?&Hin&Hle2).
  exists e2, t2, l2, w2. split_and!; try done.
  - intros v. rewrite Hin. cbn [map]. rewrite !elem_of_cons. simpl. tauto.
  - unfold total_length in *. cbn [concat]. rewrite length_app. rewrite length_reverse in Hle1. lia.
Qed.

(** ** The transition table *)

Definition row_ok (row : gmap Z Z) : Prop := ∀ c v, row !! c = Some v → 0 ≤ c < 128 ∧ 0 ≤ v ≤ u16_max.

Lemma elem_of_entries row c v : (c, v) ∈ entries row ↔ 0 ≤ c < 256 ∧ row !! c = Some v.
Proof.
  unfold entries. rewrite list_elem_of_omap. split.
  - intros (c'&Hc%elem_of_seqZ&Hv). destruct (row !! c') eqn:?; simplify_eq/=. split; [lia|done].
  - intros [Hc Hv]. exists c. rewrite elem_of_seqZ, Hv. split; [lia|done].
Qed.

Lemma fill_row_spec {E} r table node :
  0 ≤ node → (node + 1) * 128 ≤ blen table →
  (∀ c v, (c, v) ∈ r → 0 ≤ c < 128 ∧ 0 ≤ v ≤ u16_max) → (∀ c v v', (c, v) ∈ r → (c, v') ∈ r → v = v') →
  ∃ t, @fill_row E table node r = Ok t ∧ blen t = blen table ∧
    (∀ c v, (c, v) ∈ r → t !! Z.to_nat (node * 128 + c) = Some v) ∧
    (∀ k, (∀ c v, (c, v) ∈ r → k ≠ Z.to_nat (node * 128 + c)) → t !! k = table !! k).
Proof.
  intros Hn. revert table. induction r as [|[c v] r IH]; intros table Hlen Hok Hfun; cbn [fill_row].
  { exists table. split_and!; try done. by intros c v ?%elem_of_nil. }
  destruct (Hok c v) as [Hc Hv]; [by left|].
  rewrite try_from_u_ok, expect_Some, Ok_bind, vec_set_in, Ok_bind by lia.
  set (table' := <[_ := v]> table).
  assert (Hlen' : blen table' = blen table).
  { unfold table'. change (blen (<[Z.to_nat (node * 128 + c) := v]> table)) with
      (Z.of_nat (length (<[Z.to_nat (node * 128 + c) := v]> table))). by rewrite length_insert. }
  assert (Hset : table' !! Z.to_nat (node * 128 + c) = Some v).
  { apply list_lookup_insert_eq. change (blen table) with (Z.of_nat (length table)) in Hlen. lia. }
  destruct (IH table') as (t&->&Ht&Hin&Hout); [lia|intros; apply Hok; by right|intros; eapply Hfun; by right|].
  exists t. split_and!; [done|lia| |].
  - intros c' v' [[= -> ->]|Hr]%elem_of_cons; [|auto].
    destruct (decide ((c, v) ∈ r)) as [Hw|Hno]; [auto|].
    rewrite Hout; [done|]. intros c' w Hw Heq. apply Hno.
    destruct (Hok c' w) as [? _]; [by right|]. replace c with c' in * by lia.
    by rewrite (Hfun c' v w) by (by left || by right).
  - intros k Hk. rewrite Hout by (intros; eapply Hk; by right).
    apply list_lookup_insert_ne. intros Heq. eapply (Hk c v); [by left|done].
Qed.
Lemma fill_table_spec {E} edges table node :
  0 ≤ node → (node + Z.of_nat (length edges)) * 128 ≤ blen table → Forall row_ok edges →
  ∃ t, @fill_table E table node edges = Ok t ∧
    (∀ k, (k < Z.to_nat (node * 128))%nat → t !! k = table !! k) ∧
    (∀ i row c, edges !! i = Some row → 0 ≤ c < 128 →
       t !! Z.to_nat ((node + Z.of_nat i) * 128 + c) =
       match row !! c with Some v => Some v | None => table !! Z.to_nat ((node + Z.of_nat i) * 128 + c) end).
Proof.
  revert table node. induction edges as [|row edges IH]; intros table node Hn Hlen Hok; cbn [fill_table].
  { by exists table. }
  apply Forall_cons_1 in Hok as [Hrow Hok]. cbn [length] in Hlen.
  destruct (fill_row_spec (E := E) (entries row) table node Hn) as (t1&->&Hl1&Hin1&Hout1); [lia|..].
  { intros c v [_ Hc]%elem_of_entries. by apply Hrow. }
  { intros c v v' [_ Hc]%elem_of_entries [_ Hc']%elem_of_entries. by simplify_eq. }
  rewrite Ok_bind. destruct (IH t1 (node + 1)) as (t&->&Hlow&Hat); [lia..|done|]. exists t.
  assert (Hout : ∀ k, (k < Z.to_nat ((node + 1) * 128))%nat →
    (∀ c v, row !! c = Some v → k ≠ Z.to_nat (node * 128 + c)) → t !! k = table !! k).
  { intros k Hk Hno. rewrite Hlow by done. apply Hout1. intros c v [_ Hc]%elem_of_entries. by eapply Hno. }
  split_and!; [done| |].
  - intros k Hk. apply Hout; [lia|]. intros c v Hc. apply Hrow in Hc. lia.
  - intros [|i] r c Hr Hc; simplify_eq/=.
    + rewrite Z.add_0_r. destruct (r !! c) as [v|] eqn:Hv.
      * rewrite Hlow by lia. apply Hin1, elem_of_entries. split; [lia|done].
      * apply Hout; [lia|]. intros c' v' Hv' Heq. apply Hrow in Hv' as Hc'. assert (c' = c) by lia. by simplify_eq.
    + specialize (Hat i r c Hr Hc).
      replace (node + Z.of_nat (S i)) with (node + 1 + Z.of_nat i) by lia. rewrite Hat.
      destruct (r !! c); [done|]. apply Hout1. intros c' v' [_ Hc']%elem_of_entries. apply Hrow in Hc'. lia.
Qed.

(** ** Matching *)

(** The matcher of a trie. *)
Record matcher_of (m : ReverseSuffixMatcher) (labels words : list (list Z)) (edges : list (gmap Z Z)) : Prop := {
  mo_inv : trie_inv (edges, terminal m) labels words;
  mo_small : Z.of_nat (length labels) < u16_max;
  mo_table i row c : edges !! i = Some row → 0 ≤ c < 128 →
    transitions m !! Z.to_nat (Z.of_nat i * 128 + c) = Some (default NO_TRANSITION (row !! c));
}.

(** Some prefix of [name] longer than the walked [l] completes a word. *)
Lemma matches_loop_spec {E} m labels words edges node l name :
  matcher_of m labels words edges → Forall (λ c, 0 ≤ c) name →
  0 ≤ node → labels !! Z.to_nat node = Some l →
  ∃ r, @matches_loop E m node name = Ok r ∧
    (r = true ↔ ∃ k, (1 ≤ k ≤ length name)%nat ∧ l ++ map to_ascii_lowercase (take k name) ∈ words).
Proof.
  intros [Hinv Hsmall Htable]. revert node l. induction name as [|c name IH]; intros node l Hpos Hn Hl; cbn [matches_loop].
  { exists false. split; [done|]. split; [done|]. intros (k&?&?). simpl in *. lia. }
  apply Forall_cons_1 in Hpos as [Hc0 Hpos].
  (** No word continues along [c]. *)
  assert (Hdead : l ++ [to_ascii_lowercase c] ∉ labels →
    false = true ↔ ∃ k, (1 ≤ k ≤ length (c :: name))%nat ∧ l ++ map to_ascii_lowercase (take k (c :: name)) ∈ words).
  { intros Hno. split; [done|]. intros (k&Hk&Hw). exfalso. destruct k as [|k]; [lia|]. cbn [take map] in Hw.
    apply Hno. apply (inv_words _ _ _ Hinv) in Hw. rewrite cons_middle, app_assoc in Hw. revert Hw.
    generalize (map to_ascii_lowercase (take k name)) as rest. intros rest.
    induction rest as [|x rest IHr] using rev_ind; [by rewrite app_nil_r|].
    rewrite app_assoc. intros Hw%(inv_closed _ _ _ Hinv). auto. }
  unfold is_ascii. destruct (Z.ltb_spec c 128) as [Hc|Hc]; cbn [negb].
  2: { exists false. split; [done|]. apply Hdead. intros Ha%(inv_ascii _ _ _ Hinv).
       apply Forall_app in Ha as [_ Ha%Forall_cons_1]. unfold to_ascii_lowercase in Ha.
       destruct Ha as [Ha _]. destruct (Z.leb_spec c 90); [lia|]. rewrite andb_false_r in Ha. lia. }
  assert (Hlc : 0 ≤ to_ascii_lowercase c < 128).
  { unfold to_ascii_lowercase. destruct (Z.leb_spec 65 c), (Z.leb_spec c 90); simpl; lia. }
  pose proof (lookup_lt_Some _ _ _ Hl). pose proof (inv_edges _ _ _ Hinv) as He. simpl in He.
  pose proof (inv_terminal _ _ _ Hinv) as Ht. simpl in Ht.
  destruct (lookup_lt_is_Some_2 edges (Z.to_nat node)) as [row Hrow]; [lia|].
  pose proof (Htable _ _ _ Hrow Hlc) as Hat. rewrite Z2Nat.id in Hat by done.
  rewrite (vec_at_in _ _ _ Hat), Ok_bind.
  pose proof (λ j, inv_edge _ _ _ Hinv _ _ _ (to_ascii_lowercase c) j Hl Hrow) as Hedge.
  destruct (row !! to_ascii_lowercase c) as [j|] eqn:Hj; simpl.
  2: { exists false. split; [done|]. apply Hdead.
       intros [j Hjl]%list_elem_of_lookup. destruct (Hedge (Z.of_nat j)) as [_ He2].
       rewrite Nat2Z.id in He2. by discriminate He2; split; [lia|]. }
  clear Hj. destruct (proj1 (Hedge j) eq_refl) as [Hj0 Hj].
  pose proof (lookup_lt_Some _ _ _ Hj). rewrite (proj2 (Z.eqb_neq _ _)) by (unfold NO_TRANSITION; lia).
  destruct (lookup_lt_is_Some_2 (terminal m) (Z.to_nat j)) as [x Hx]; [lia|].
  rewrite (vec_at_in _ _ _ Hx), Ok_bind. pose proof (inv_accept _ _ _ Hinv _ _ _ Hj Hx) as Hacc.
  destruct x.
  - exists true. split; [done|]. split; [|done]. intros _. exists 1%nat. split; [simpl; lia|]. by apply Hacc.
  - destruct (IH j _ Hpos Hj0 Hj) as (r&->&Hr). exists r. split; [done|]. rewrite Hr. split.
    + intros (k&?&Hk). exists (S k). split; [simpl; lia|]. rewrite <-app_assoc in Hk. done.
    + intros (k&?&Hk). destruct k as [|k]; [lia|]. cbn [take map length] in *.
      destruct k as [|k].
      * apply Hacc in Hk. done.
      * exists (S k). split; [lia|]. by rewrite <-app_assoc.
Qed.

(** ** Canonical extensions *)

Lemma elem_of_dedup_from x l y : y ∈ dedup_from x l ↔ y ∈ x :: l.
Proof.
  revert x. induction l as [|z l IH]; intros x; simpl; [done|].
  case_bool_decide; subst; rewrite ?elem_of_cons, IH, ?elem_of_cons; tauto.
Qed.
Lemma elem_of_dedup l y : y ∈ dedup l ↔ y ∈ l.
Proof. destruct l; [done|]. apply elem_of_dedup_from. Qed.
Lemma length_dedup_from x l : (length (dedup_from x l) ≤ S (length l))%nat.
Proof.
  revert x. induction l as [|z l IH]; intros x; simpl; [lia|]. specialize (IH x) as H1.
  specialize (IH z). case_bool_decide; simpl; lia.
Qed.
Lemma length_dedup l : (length (dedup l) ≤ length l)%nat.
Proof. destruct l; simpl; [lia|]. apply length_dedup_from. Qed.

Lemma length_lower e : length (lower e) = length e.
Proof. apply length_map. Qed.
Lemma lower_ascii e : Forall (λ c, 0 ≤ Z_of_byte c < 128) e → ascii_word (lower e).
Proof.
  intros He. unfold ascii_word, lower. rewrite Forall_fmap. eapply list.Forall_impl; [done|].
  intros c Hc. cbv beta in Hc. unfold compose, to_ascii_lowercase. destruct (Z.leb_spec 65 (Z_of_byte c)), (Z.leb_spec (Z_of_byte c) 90);
    simpl; lia.
Qed.
Lemma valid_extension_word e :
  valid_extension e = true → ascii_word (lower e) ∧ 2 ≤ blen e ≤ 32.
Proof.
  unfold valid_extension. rewrite !andb_true_iff, !Z.leb_le. intros [[? ?] Hb]. split; [|unfold MAX_SMALL_FILE_EXTENSION_BYTES in *; lia].
  apply lower_ascii. destruct e as [|c e]; [done|]. cbn [map] in Hb. rewrite andb_true_iff, Z.eqb_eq, forallb_forall in Hb.
  destruct Hb as [Hc Hb]. constructor; [lia|]. apply list.Forall_forall. intros x Hx.
  specialize (Hb (Z_of_byte x)). rewrite in_map_iff in Hb. pose proof (Z_of_byte_range x).
  assert (Hin : ∃ y, Z_of_byte y = Z_of_byte x ∧ In y e) by (exists x; split; [done|by apply list_elem_of_In]).
  specialize (Hb Hin). unfold is_ascii_alphanumeric in Hb. rewrite !orb_true_iff, !andb_true_iff, !Z.leb_le, !Z.eqb_eq in Hb.
  lia.
Qed.

Lemma canonical_loop_valid exts acc :
  Forall (λ e, valid_extension e = true) exts → canonical_loop exts acc = Ok (acc ++ map lower exts).
Proof.
  revert acc. induction exts as [|e exts IH]; intros acc Hv; simpl; [by rewrite app_nil_r|].
  apply Forall_cons_1 in Hv as [-> Hv]. simpl. rewrite IH by done. by rewrite <-app_assoc.
Qed.
Lemma longest_ge m ws : m ≤ longest m ws ∧ ∀ w, w ∈ ws → blen w ≤ longest m ws.
Proof.
  unfold longest. revert m. induction ws as [|w ws IH]; intros m; simpl; [split; [lia|by intros w ?%elem_of_nil]|].
  destruct (IH (Z.max m (blen w))) as [Hm Hw]. split; [lia|]. intros v [->|Hv]%elem_of_cons; [lia|auto].
Qed.
Lemma total_length_le ws n : Forall (λ w, length w ≤ n)%nat ws → (total_length ws ≤ n * length ws)%nat.
Proof.
  unfold total_length. induction 1 as [|w ws Hw _ IH]; simpl; [lia|]. rewrite length_app. lia.
Qed.

(** ** The compiled matcher *)

Lemma matcher_compile_spec {E} ws :
  Forall ascii_word ws → Z.of_nat (total_length ws) + 1 < u16_max →
  ∃ m labels words edges, @matcher_compile E ws = Ok m ∧ matcher_of m labels words edges ∧
    maximum_length m = longest 0 ws ∧ ∀ w, w ∈ words ↔ w ∈ map reverse ws.
Proof.
  intros Hws Hsmall. unfold matcher_compile.
  destruct (insert_all_spec (E := E) ws _ _ _ _ 0 trie_inv_empty Hws) as (edges&term&labels&words&->&Hinv&Hin&Hle).
  rewrite Ok_bind. cbv beta iota zeta. pose proof (inv_edges _ _ _ Hinv) as He. simpl in He, Hle.
  destruct (fill_table_spec (E := E) edges (replicate (length edges * 128) NO_TRANSITION) 0) as (t&->&_&Hat).
  { lia. }
  { change (blen (replicate (length edges * 128) NO_TRANSITION)) with
      (Z.of_nat (length (replicate (length edges * 128) NO_TRANSITION))). rewrite length_replicate. lia. }
  { apply list.Forall_forall. intros row [i Hrow]%list_elem_of_lookup. intros c v Hv.
    destruct (lookup_lt_is_Some_2 labels i) as [l Hl]; [rewrite <-He; by eapply lookup_lt_Some|].
    destruct (proj1 (inv_edge _ _ _ Hinv _ _ _ _ _ Hl Hrow) Hv) as [? Hj]. pose proof (lookup_lt_Some _ _ _ Hj).
    apply list_elem_of_lookup_2, (inv_ascii _ _ _ Hinv), Forall_app in Hj as [_ [Hc _]%Forall_cons_1]. lia. }
  rewrite Ok_bind. eexists _, labels, words, edges. split_and!; [done| |done|].
  2: { intros w. rewrite Hin, elem_of_nil. tauto. }
  constructor; simpl; [done|lia|]. intros i row c Hrow Hc. specialize (Hat i row c Hrow Hc).
  rewrite Z.add_0_l in Hat. rewrite Hat. destruct (row !! c); [done|]. simpl.
  apply lookup_replicate_2. apply lookup_lt_Some in Hrow. lia.
Qed.

Lemma suffix_prefix (w n : list Z) :
  suffix w n ↔ ∃ k, (k ≤ length n)%nat ∧ take k (reverse n) = reverse w.
Proof.
  split.
  - intros [m ->]. exists (length w). rewrite length_app, reverse_app. split; [lia|].
    by rewrite take_app_length' by (symmetry; apply length_reverse).
  - intros (k&Hk&Hw). exists (reverse (drop k (reverse n))).
    rewrite <-(reverse_involutive w), <-Hw, <-reverse_app, take_drop. by rewrite reverse_involutive.
Qed.

Lemma matches_suffix {E} m labels words edges ws name :
  matcher_of m labels words edges → maximum_length m = longest 0 ws →
  (∀ w, w ∈ words ↔ w ∈ map reverse ws) → Forall (λ w, w ≠ []) ws →
  ∃ r, @matches E m name = Ok r ∧ (r = true ↔ ∃ w, w ∈ ws ∧ suffix w (lower name)).
Proof.
  intros Hm Hmax Hwords Hne. unfold matches. rewrite Hmax. destruct (longest_ge 0 ws) as [Hl0 Hlw].
  destruct (Z.eqb_spec (longest 0 ws) 0) as [Hz|Hz].
  { exists false. split; [done|]. split; [done|]. intros (w&Hw&_). exfalso.
    apply Hlw in Hw as Hlen. rewrite list.Forall_forall in Hne. apply Hne in Hw.
    apply Hw, blen_0_nil. pose proof (blen_nonneg w). lia. }
  set (n := reverse (map Z_of_byte name)).
  destruct (matches_loop_spec (E := E) m labels words edges 0 [] (take (Z.to_nat (longest 0 ws)) n) Hm) as (r&->&Hr).
  { apply Forall_take, Forall_reverse, Forall_fmap, list.Forall_forall. intros x _. apply Z_of_byte_range. }
  { done. } { apply (inv_root _ _ _ (mo_inv _ _ _ _ Hm)). }
  exists r. split; [done|]. rewrite Hr.
  assert (Hlow : reverse (lower name) = map to_ascii_lowercase n).
  { unfold lower, n. transitivity (reverse (map to_ascii_lowercase (map Z_of_byte name))).
    - f_equal. symmetry. apply map_map.
    - symmetry. apply (fmap_reverse to_ascii_lowercase). }
  assert (Hln : length n = length (lower name)) by (unfold n, lower; by rewrite length_reverse, !length_map).
  split.
  - intros (k&Hk&Hw). simpl in Hw. apply Hwords, list_elem_of_In, in_map_iff in Hw as (w&Hw&Hin%list_elem_of_In).
    exists w. split; [done|]. apply suffix_prefix. exists k. rewrite length_take in Hk. split; [lia|].
    rewrite Hlow, Hw, firstn_map. f_equal. rewrite take_take. f_equal. lia.
  - intros (w&Hw&(k&Hk&Hs)%suffix_prefix). apply Hlw in Hw as Hlen. rewrite Hlow in Hs.
    assert (Hkw : k = length w).
    { rewrite <-(length_reverse w), <-Hs, length_take, length_map. lia. }
    change (blen w) with (Z.of_nat (length w)) in Hlen. exists k. rewrite length_take. split.
    + rewrite list.Forall_forall in Hne. apply Hne in Hw. destruct w; [done|]. simpl in *. lia.
    + simpl. apply Hwords. rewrite take_take, Nat.min_l by lia. rewrite <-firstn_map, Hs.
      apply list_elem_of_In, in_map. by apply list_elem_of_In.
Qed.

(** C32: the compiled policy means what its extension list says.  Any list the
    limits allow compiles (the table's node numbers fit, nothing panics), and a
    file name matches exactly when some listed extension is, ignoring ASCII
    case, a suffix of it; bytes that are not ASCII match nothing. *)
Theorem small_file_matcher_exact rev exts :
  1 ≤ blen rev ≤ MAX_SMALL_FILE_POLICY_REVISION_BYTES → blen exts ≤ MAX_SMALL_FILE_EXTENSIONS →
  Forall (λ e, valid_extension e = true) exts →
  ∃ p, compile rev exts = Ok p ∧ ∀ name, ∃ r, @matches_name unit p name = Ok r ∧
    (r = true ↔ ∃ e, e ∈ exts ∧ suffix (lower e) (lower name)).
Proof.
  intros Hrev Hcount Hv. unfold compile. rewrite (proj2 (Z.eqb_neq _ _)), !(proj2 (Z.ltb_ge _ _)) by lia.
  osimpl. rewrite canonical_loop_valid by done. osimpl. cbn [app].
  set (ws := dedup (merge_sort _ _)).
  assert (Hws : ∀ w, w ∈ ws ↔ ∃ e, w = lower e ∧ e ∈ exts).
  { intros w. unfold ws. rewrite elem_of_dedup, merge_sort_Permutation. apply list_elem_of_fmap. }
  rewrite list.Forall_forall in Hv.
  assert (Hok : Forall (λ w, ascii_word w ∧ w ≠ [] ∧ (length w ≤ 32)%nat) ws).
  { apply list.Forall_forall. intros w (e&->&He)%Hws. destruct (valid_extension_word e (Hv e He)) as [? Hl].
    change (blen e) with (Z.of_nat (length e)) in Hl. rewrite length_lower. split_and!; [done| |lia].
    destruct e; simpl in *; [lia|done]. }
  apply Forall_and in Hok as [Hascii [Hne Hshort]%Forall_and].
  assert (Hlen : (length ws ≤ 64)%nat).
  { unfold ws. etrans; [apply length_dedup|]. rewrite merge_sort_Permutation, length_map.
    change (blen exts) with (Z.of_nat (length exts)) in Hcount. unfold MAX_SMALL_FILE_EXTENSIONS in Hcount. lia. }
  pose proof (total_length_le ws 32 Hshort).
  destruct (matcher_compile_spec (E := SmallFilePolicyError) ws Hascii) as (m&labels&words&edges&->&Hm&Hmax&Hwords).
  { unfold u16_max. lia. }
  osimpl. eexists. split; [done|]. intros name. unfold matches_name. cbn [matcher].
  destruct (matches_suffix (E := unit) m labels words edges ws name Hm Hmax Hwords Hne) as (r&->&Hr).
  exists r. split; [done|]. rewrite Hr. split.
  - intros (w&(e&->&He)%Hws&Hs). eauto.
  - intros (e&He&Hs). exists (lower e). split; [|done]. apply Hws. eauto.
Qed.
Lemma small_file_matcher_exact_witness :
  ∃ p, compile [x61] [map byte_of_Z [46; 88; 77; 76]] = Ok p ∧
    @matches_name unit p (map byte_of_Z [97; 46; 120; 77; 76]) = Ok true.
Proof.
  destruct (small_file_matcher_exact [x61] [map byte_of_Z [46; 88; 77; 76]]) as (p&Hp&Hname);
    [by vm_compute|by vm_compute|by repeat constructor|].
  exists p. split; [exact Hp|]. destruct (Hname (map byte_of_Z [97; 46; 120; 77; 76])) as (r&Hr&Hiff).
  rewrite Hr. f_equal. apply Hiff. exists (map byte_of_Z [46; 88; 77; 76]). split; [by left|].
  exists [97]. by vm_compute.
Defined.
Example default_policy_compiles : no_panic default_policy.
Proof. by vm_compute. Qed.

End SmallFilePolicy.
