(* ===== verification/MapSum.v ===== *)
(** * Sums over finite maps

    The accounting invariants (quota buckets, worker permits) add up what the
    entries of a map hold. *)
From S2P Require Export Prelude.

Definition msum `{Countable K} {A} (f : K → A → Z) (m : gmap K A) : Z :=
  map_fold (λ k x s, f k x + s) 0 m.

Section Msum.
Context `{Countable K} {A : Type}.
Implicit Types (f g : K → A → Z) (m : gmap K A).

Lemma msum_empty f : msum f (∅ : gmap K A) = 0.
Proof. unfold msum. by rewrite map_fold_empty. Qed.
Lemma msum_insert_new f m k x : m !! k = None → msum f (<[k := x]> m) = f k x + msum f m.
Proof. intros Hk. unfold msum. rewrite map_fold_insert_L; [done| |done]. intros. lia. Qed.
Lemma msum_delete f m k : msum f (delete k m) = msum f m - from_option (f k) 0 (m !! k).
Proof.
  destruct (m !! k) as [x|] eqn:Hk; simpl.
  - rewrite <-(insert_delete_id m k x Hk) at 2. rewrite msum_insert_new by apply lookup_delete_eq. lia.
  - rewrite delete_id by done. lia.
Qed.
Lemma msum_insert f m k y : msum f (<[k := y]> m) = msum f m - from_option (f k) 0 (m !! k) + f k y.
Proof.
  rewrite <-insert_delete_eq, msum_insert_new by apply lookup_delete_eq. rewrite msum_delete. lia.
Qed.
Lemma msum_ext f g m : (∀ k x, m !! k = Some x → f k x = g k x) → msum f m = msum g m.
Proof.
  induction m as [|k x m Hk IH] using map_ind; intros Hfg; [by rewrite !msum_empty|].
  rewrite !msum_insert_new by done. rewrite Hfg by apply lookup_insert_eq. rewrite IH; [done|].
  intros k' x' Hk'. apply Hfg. rewrite lookup_insert_ne; [done|]. congruence.
Qed.
Lemma msum_nonneg f m : (∀ k x, m !! k = Some x → 0 ≤ f k x) → 0 ≤ msum f m.
Proof.
  induction m as [|k x m Hk IH] using map_ind; intros Hf; [by rewrite msum_empty|].
  rewrite msum_insert_new by done. pose proof (Hf k x (lookup_insert_eq _ _ _)). assert (0 ≤ msum f m); [|lia].
  apply IH. intros k' x' Hk'. apply Hf. rewrite lookup_insert_ne; [done|]. congruence.
Qed.
Lemma msum_lookup_le f m k x : (∀ k x, m !! k = Some x → 0 ≤ f k x) → m !! k = Some x → f k x ≤ msum f m.
Proof.
  intros Hf Hk. pose proof (msum_delete f m k) as Hd. rewrite Hk in Hd. simpl in Hd.
  assert (0 ≤ msum f (delete k m)); [|lia]. apply msum_nonneg. intros k' x' [_ Hx]%lookup_delete_Some. eauto.
Qed.
Lemma msum_pos f m : 0 < msum f m → ∃ k x, m !! k = Some x ∧ 0 < f k x.
Proof.
  induction m as [|k x m Hk IH] using map_ind; [rewrite msum_empty; lia|].
  rewrite msum_insert_new by done. intros Hpos. destruct (decide (0 < f k x)) as [Hx|Hx].
  - exists k, x. split; [apply lookup_insert_eq|done].
  - destruct IH as (k'&x'&Hk'&?); [lia|]. exists k', x'. split; [|done].
    rewrite lookup_insert_ne; [done|]. congruence.
Qed.
Lemma msum_le_size f m : (∀ k x, m !! k = Some x → f k x ≤ 1) → msum f m ≤ Z.of_nat (size m).
Proof.
  induction m as [|k x m Hk IH] using map_ind; intros Hf; [by rewrite msum_empty, map_size_empty|].
  rewrite msum_insert_new, map_size_insert_None by done.
  pose proof (Hf k x (lookup_insert_eq _ _ _)). assert (msum f m ≤ Z.of_nat (size m)); [|lia].
  apply IH. intros k' x' Hk'. apply Hf. rewrite lookup_insert_ne; [done|]. congruence.
Qed.
Lemma msum_update f g m k x : m !! k = Some x → (∀ k' x', k' ≠ k → f k' x' = g k' x') →
  msum g m = msum f m - f k x + g k x.
Proof.
  intros Hk Hfg. pose proof (msum_delete f m k) as Hf. pose proof (msum_delete g m k) as Hg.
  rewrite Hk in Hf, Hg. simpl in *. assert (msum f (delete k m) = msum g (delete k m)); [|lia].
  apply msum_ext. intros k' x' [? _]%lookup_delete_Some. by apply Hfg.
Qed.
End Msum.
Lemma msum_fmap `{Countable K} {A B} (f : K → B → Z) (g : A → B) (m : gmap K A) :
  msum f (g <$> m) = msum (λ k x, f k (g x)) m.
Proof.
  induction m as [|k x m Hk IH] using map_ind; [by rewrite fmap_empty, !msum_empty|].
  rewrite fmap_insert, !msum_insert_new, IH by (rewrite ?lookup_fmap, ?Hk; done). done.
Qed.
Lemma msum_omap `{Countable K} {A B} (f : K → B → Z) (g : A → option B) (m : gmap K A) :
  msum f (omap g m) = msum (λ k x, from_option (f k) 0 (g x)) m.
Proof.
  induction m as [|k x m Hk IH] using map_ind; [by rewrite omap_empty, !msum_empty|].
  rewrite msum_insert_new, <- IH by done. destruct (g x) as [y|] eqn:Hg; simpl.
  - rewrite omap_insert, Hg, msum_insert_new; [done|]. by rewrite lookup_omap, Hk.
  - rewrite omap_insert, Hg. rewrite delete_id; [done|]. by rewrite lookup_omap, Hk.
Qed.
