(* ===== verification/LogicalQuota.v ===== *)
(** * Logical quotas ([fastdup-posix/src/logical_quota.rs])

    Subtree quotas: a bucket per quota root, shared by every inode of the
    subtree, charged by compare-and-swap.  The buckets live in a heap, because
    the code shares them by [Arc].  The second half of the file is the
    concurrent machine: threads interleave the loads and compare-and-swaps of
    [try_reserve] with applying, accepting, dropping and removing, as the
    callers in [fastdup-posix/src/lib.rs] do.  A removal is three steps: the
    file's bytes are counted under the inode lock, which is dropped; the inode
    leaves the index; its bucket is released. *)
From S2P Require Export Effects Bytes MapSum.

Module LogicalQuota.

(** ** The table *)

Abbreviation InodeId := Z.
Abbreviation arc := nat.
Inductive PosixError := InvalidArgument | NoSpace | NoEntry | NotDirectory.

Record LogicalQuotaRule := { rule_root_inode : InodeId; rule_limit_bytes : Z }.
(** [LogicalQuotaRule::new] *)
Definition rule_new (root_inode : InodeId) (limit_bytes : Z) : outcome PosixError LogicalQuotaRule :=
  reject_if (limit_bytes =? 0) InvalidArgument;;
  Ok {| rule_root_inode := root_inode; rule_limit_bytes := limit_bytes |}.

Record LogicalQuotaStatus := {
  status_revision : bytes;
  status_root_inode : InodeId;
  status_limit_bytes : Z;
  status_used_bytes : Z;
}.
Record QuotaBucket := { root_inode : InodeId; limit_bytes : Z; used_bytes : Z }.

(** The index, and the heap its [Arc<QuotaBucket>]s point into. *)
Record Quotas := {
  revision : bytes;
  by_root : gmap InodeId arc;
  by_inode : gmap InodeId arc;
  buckets : gmap arc QuotaBucket;
  next_arc : arc;
}.
Definition quotas_default : Quotas :=
  {| revision := []; by_root := ∅; by_inode := ∅; buckets := ∅; next_arc := O |}.
Abbreviation quota := (prog Quotas PosixError).

Record QuotaReservation := { reservation_bucket : option arc; reserved_bytes : Z; accepted : bool }.
(** [QuotaReservation::empty] and [QuotaReservation::accept] *)
Definition reservation_empty : QuotaReservation :=
  {| reservation_bucket := None; reserved_bytes := 0; accepted := false |}.
Definition reservation_accept (r : QuotaReservation) : QuotaReservation :=
  {| reservation_bucket := reservation_bucket r; reserved_bytes := reserved_bytes r; accepted := true |}.
Record QuotaChange := {
  change_bucket : option arc;
  shrink_bytes : Z;
  reservation : QuotaReservation;
}.

(** [QuotaBucket::new] *)
Definition bucket_new (root_inode : InodeId) (limit_bytes used_bytes : Z)
    : outcome PosixError QuotaBucket :=
  reject_if ((limit_bytes =? 0) || (limit_bytes <? used_bytes)) NoSpace;;
  Ok {| root_inode := root_inode; limit_bytes := limit_bytes; used_bytes := used_bytes |}.

(** The cell of a bucket. *)
Definition deref (a : arc) : quota QuotaBucket := λ q, (expect (buckets q !! a), q).
Definition store_used (a : arc) (v : Z) : quota () := λ q,
  (Ok (), {| revision := revision q; by_root := by_root q; by_inode := by_inode q;
             buckets := alter (λ b, {| root_inode := root_inode b; limit_bytes := limit_bytes b;
                                       used_bytes := v |}) a (buckets q);
             next_arc := next_arc q |}).

(** One iteration of the loop of [QuotaBucket::try_reserve]: what it decides
    after loading [used], and its compare-and-swap, which may fail spuriously. *)
Definition reserve_check (b : QuotaBucket) (used bytes : Z) : outcome PosixError Z :=
  next ← ok_or (checked_add u64_max used bytes) NoSpace;
  reject_if (limit_bytes b <? next) NoSpace;;
  Ok next.
Definition compare_exchange_weak (a : arc) (used next : Z) (spurious : bool) : quota bool :=
  b ← deref a;
  if (used_bytes b =? used) && negb spurious then store_used a next;; mret true else mret false.
(** The loop, in an environment that never interferes. *)
Definition try_reserve (a : arc) (bytes : Z) : quota QuotaReservation :=
  if bytes =? 0 then mret reservation_empty
  else
    b ← deref a;
    next ← pure (reserve_check b (used_bytes b) bytes);
    compare_exchange_weak a (used_bytes b) next false;;
    mret {| reservation_bucket := Some a; reserved_bytes := bytes; accepted := false |}.

(** [QuotaBucket::release]: an unaccounted release panics. *)
Definition release (a : arc) (bytes : Z) : quota () :=
  if bytes =? 0 then mret ()
  else
    b ← deref a;
    used ← pure (expect (checked_sub (used_bytes b) bytes));
    store_used a used.

(** The loops of [LogicalQuotaTable::replace], over the entries of its maps *)
Fixpoint new_buckets (rules : list (InodeId * Z)) (usage : gmap InodeId Z) (next : arc)
    (by_root : gmap InodeId arc) (heap : gmap arc QuotaBucket)
    : outcome PosixError (gmap InodeId arc * gmap arc QuotaBucket * arc) :=
  match rules with
  | [] => Ok (by_root, heap, next)
  | (root, limit) :: rules =>
      b ← bucket_new root limit (default 0 (usage !! root));
      new_buckets rules usage (S next) (<[root := next]> by_root) (<[next := b]> heap)
  end.
Fixpoint members (membership : list (InodeId * InodeId)) (by_root by_inode : gmap InodeId arc)
    : outcome PosixError (gmap InodeId arc) :=
  match membership with
  | [] => Ok by_inode
  | (inode, root) :: membership =>
      a ← ok_or (by_root !! root) InvalidArgument;
      members membership by_root (<[inode := a]> by_inode)
  end.
(** [LogicalQuotaTable::replace] *)
Definition replace (revision : bytes) (rules : list (InodeId * Z))
    (membership : list (InodeId * InodeId)) (usage : gmap InodeId Z) : quota () := λ q,
  let r :=
    (reject_if ((blen revision =? 0) || (128 <? blen revision)) InvalidArgument;;
     '(roots, heap, next) ← new_buckets rules usage (next_arc q) ∅ (buckets q);
     inodes ← members membership roots ∅;
     Ok {| revision := revision; by_root := roots; by_inode := inodes; buckets := heap;
           next_arc := next |}) in
  match r with Ok q' => (Ok (), q') | Err e => (Err e, q) | Panic => (Panic, q) end.

(** [status], [status_for_inode], [root_for] and [same_domain] *)
Definition status_of (q : Quotas) (a : option arc) : option LogicalQuotaStatus :=
  a ← a; b ← buckets q !! a;
  Some {| status_revision := revision q; status_root_inode := root_inode b;
          status_limit_bytes := limit_bytes b; status_used_bytes := used_bytes b |}.
Definition status (q : Quotas) (root : InodeId) : option LogicalQuotaStatus :=
  status_of q (by_root q !! root).
Definition status_for_inode (q : Quotas) (inode : InodeId) : option LogicalQuotaStatus :=
  status_of q (by_inode q !! inode).
Definition root_for (q : Quotas) (inode : InodeId) : option InodeId :=
  a ← by_inode q !! inode; root_inode <$> buckets q !! a.
Definition same_domain (q : Quotas) (inode parent : InodeId) : bool :=
  match by_inode q !! inode, by_inode q !! parent with
  | None, None => true
  | Some a, Some b => bool_decide (a = b)
  | _, _ => false
  end.

(** [reserve_change], in an environment that never interferes *)
Definition reserve_change (inode : InodeId) (before after : Z) : quota QuotaChange :=
  q ← get_state;
  let bucket := by_inode q !! inode in
  let growth := saturating_sub after before in
  let shrink := saturating_sub before after in
  r ← match bucket with
      | None => mret reservation_empty
      | Some a => try_reserve a growth
      end;
  mret {| change_bucket := bucket; shrink_bytes := shrink; reservation := r |}.

Definition with_by_inode (q : Quotas) (m : gmap InodeId arc) : Quotas :=
  {| revision := revision q; by_root := by_root q; by_inode := m; buckets := buckets q;
     next_arc := next_arc q |}.
(** [associate_child] and [remove_inode] *)
Definition associate_child (parent child : InodeId) : quota () :=
  q ← get_state;
  match by_inode q !! parent with
  | Some a => set_state (with_by_inode q (<[child := a]> (by_inode q)))
  | None => mret ()
  end.
Definition unindex (inode : InodeId) : quota (option arc) :=
  q ← get_state;
  set_state (with_by_inode q (delete inode (by_inode q)));;
  mret (by_inode q !! inode).
Definition remove_inode (inode : InodeId) (allocated_bytes : Z) : quota () :=
  bucket ← unindex inode;
  match bucket with
  | Some a => release a allocated_bytes
  | None => mret ()
  end.
(** [Drop for QuotaReservation], and what dropping or accepting a change does *)
Definition reservation_drop (r : QuotaReservation) : quota () :=
  match accepted r, reservation_bucket r with
  | false, Some a => release a (reserved_bytes r)
  | _, _ => mret ()
  end.
Definition change_drop (c : QuotaChange) : quota () := reservation_drop (reservation c).
Definition change_accept (c : QuotaChange) : quota () :=
  let r := reservation_accept (reservation c) in
  match change_bucket c with
  | Some a => release a (shrink_bytes c)
  | None => mret ()
  end;;
  reservation_drop r.

(** ** The concurrent machine *)

(** Where a thread that changes one file's allocation is.  It holds the inode
    lock up to [Reserved]; [Applied] is after [drop(state)], before [accept]. *)
Inductive phase :=
  | Reserving (inode : InodeId) (after : Z) (a : arc)
  | Loaded (inode : InodeId) (after : Z) (a : arc) (used next : Z)
  | Reserved (inode : InodeId) (after : Z) (c : QuotaChange)
  | Applied (c : QuotaChange).
(** What [replace_logical_quotas] has computed from the catalog, before it
    installs it. *)
Record snapshot := {
  snap_rules : list (InodeId * Z);
  snap_members : list (InodeId * InodeId);
  snap_usage : gmap InodeId Z;
}.
(** A removal in progress ([release_removed_inode_quota], [remove_inode]): the
    bytes were counted, or the inode has left the index.  Its callers hold the
    catalog's write lock, so there is one at a time. *)
Inductive removal :=
  | Counted (inode : InodeId) (allocated_bytes : Z)
  | Unindexed (bucket : arc) (allocated_bytes : Z).
Record machine := {
  quotas : Quotas;
  files : gmap InodeId Z;
  threads : gmap nat phase;
  replacing : option snapshot;
  removing : option removal;
}.

Definition alloc (m : machine) (i : InodeId) : Z := default 0 (files m !! i).
Definition locks (i : InodeId) (p : phase) : Prop :=
  match p with
  | Reserving j _ _ | Loaded j _ _ _ _ | Reserved j _ _ => i = j
  | Applied _ => False
  end.
Definition unlocked (m : machine) (i : InodeId) : Prop := ∀ t p, threads m !! t = Some p → ¬ locks i p.

(** The first part of [reserve_change]: the bucket is looked up, and a change
    that does not grow needs no reservation. *)
Definition begin_change (q : Quotas) (i : InodeId) (before after : Z) : phase :=
  let shrink := saturating_sub before after in
  match by_inode q !! i with
  | None => Reserved i after {| change_bucket := None; shrink_bytes := shrink; reservation := reservation_empty |}
  | Some a =>
      if saturating_sub after before =? 0
      then Reserved i after {| change_bucket := Some a; shrink_bytes := shrink; reservation := reservation_empty |}
      else Reserving i after a
  end.
Definition granted (m : machine) (i : InodeId) (after : Z) (a : arc) : QuotaChange :=
  {| change_bucket := Some a; shrink_bytes := saturating_sub (alloc m i) after;
     reservation := {| reservation_bucket := Some a;
                       reserved_bytes := saturating_sub after (alloc m i); accepted := false |} |}.

(** The machine after an operation on the table; an error is returned to the
    caller, a panic stops the process. *)
Definition after_op {A} (r : outcome PosixError A * Quotas) (f : A → Quotas → machine)
    (g : Quotas → machine) : outcome PosixError machine :=
  match r.1 with Ok x => Ok (f x r.2) | Err _ => Ok (g r.2) | Panic => Panic end.
Definition with_quotas (m : machine) (th : gmap nat phase) (q : Quotas) : machine :=
  {| quotas := q; files := files m; threads := th; replacing := replacing m;
     removing := removing m |}.
Definition with_removing (m : machine) (q : Quotas) (r : option removal) : machine :=
  {| quotas := q; files := files m; threads := threads m; replacing := replacing m; removing := r |}.
Definition with_thread (m : machine) (t : nat) (p : phase) (q : Quotas) : machine :=
  with_quotas m (<[t := p]> (threads m)) q.

(** The bytes the files of a root hold according to a membership. *)
Definition member_usage (fs : gmap InodeId Z) (membership : list (InodeId * InodeId)) (root : InodeId) : Z :=
  msum (λ i n, if bool_decide ((i, root) ∈ membership) then n else 0) fs.

(** The interleavings.  [Any] are all of the source's.  In those of [Fenced] no
    change begins on an inode between the count of its bytes and its leaving the
    index: when the last name, handle and lookup of an inode go, no other
    request on it is under way.  In those of [Strict], besides, no inode leaves
    the index between the two halves of [replace_logical_quotas].  The first
    half may be taken at any time, also while a removal holds the catalog lock:
    a superset of what the source allows. *)
Inductive interleaving := Any | Fenced | Strict.
Definition is_strict (mode : interleaving) : bool := match mode with Strict => true | _ => false end.

Inductive step (mode : interleaving) (m : machine) : outcome PosixError machine → Prop :=
  | step_begin t i after :
      threads m !! t = None → unlocked m i → is_u64 after → replacing m = None →
      (mode ≠ Any → ∀ n, removing m ≠ Some (Counted i n)) →
      step mode m (Ok (with_thread m t (begin_change (quotas m) i (alloc m i) after) (quotas m)))
  | step_load t i after a :
      threads m !! t = Some (Reserving i after a) →
      step mode m
        (after_op ((b ← deref a;
                    next ← pure (reserve_check b (used_bytes b) (saturating_sub after (alloc m i)));
                    mret (used_bytes b, next)) (quotas m))
           (λ '(used, next), with_thread m t (Loaded i after a used next))
           (with_quotas m (delete t (threads m))))
  | step_cas t i after a used next spurious :
      threads m !! t = Some (Loaded i after a used next) →
      step mode m
        (after_op (compare_exchange_weak a used next spurious (quotas m))
           (λ ok, with_thread m t (if ok then Reserved i after (granted m i after a) else Reserving i after a))
           (with_quotas m (threads m)))
  | step_apply t i after c :
      threads m !! t = Some (Reserved i after c) →
      step mode m (Ok {| quotas := quotas m; files := <[i := after]> (files m);
                           threads := <[t := Applied c]> (threads m); replacing := replacing m;
                           removing := removing m |})
  | step_abandon t i after c :
      threads m !! t = Some (Reserved i after c) →
      step mode m (after_op (change_drop c (quotas m))
        (λ _, with_quotas m (delete t (threads m))) (with_quotas m (delete t (threads m))))
  | step_accept t c :
      threads m !! t = Some (Applied c) →
      step mode m (after_op (change_accept c (quotas m))
        (λ _, with_quotas m (delete t (threads m))) (with_quotas m (delete t (threads m))))
  | step_remove_count i :
      unlocked m i → removing m = None →
      step mode m (Ok (with_removing m (quotas m) (Some (Counted i (alloc m i)))))
  | step_remove_index i n :
      removing m = Some (Counted i n) → (mode = Strict → replacing m = None) →
      let gone bucket q := {| quotas := q; files := delete i (files m); threads := threads m;
                              replacing := replacing m; removing := option_map (λ a, Unindexed a n) bucket |} in
      step mode m (after_op (unindex i (quotas m)) gone (gone None))
  | step_remove_release a n :
      removing m = Some (Unindexed a n) →
      step mode m (after_op (release a n (quotas m))
        (λ _ q, with_removing m q None) (λ q, with_removing m q None))
  | step_create parent child :
      files m !! child = None → unlocked m child → replacing m = None → removing m = None →
      step mode m (after_op (associate_child parent child (quotas m))
        (λ _, with_quotas m (threads m)) (with_quotas m (threads m)))
  | step_snapshot s :
      threads m = ∅ → replacing m = None →
      NoDup (snap_rules s).*1 → NoDup (snap_members s).*1 →
      Forall (λ r, is_u64 r.2) (snap_rules s) →
      (∀ root, root ∈ (snap_rules s).*1 →
         default 0 (snap_usage s !! root) = member_usage (files m) (snap_members s) root) →
      step mode m (Ok {| quotas := quotas m; files := files m; threads := threads m;
                           replacing := Some s; removing := removing m |})
  | step_install rev s :
      replacing m = Some s →
      let installed q := {| quotas := q; files := files m; threads := threads m; replacing := None;
                         removing := removing m |} in
      step mode m
        (after_op (replace rev (snap_rules s) (snap_members s) (snap_usage s) (quotas m))
           (λ _, installed) installed).

Definition empty_machine : machine :=
  {| quotas := quotas_default; files := ∅; threads := ∅; replacing := None; removing := None |}.
Inductive reachable (mode : interleaving) : machine → Prop :=
  | reachable_start : reachable mode empty_machine
  | reachable_step m m' : reachable mode m → step mode m (Ok m') → reachable mode m'.

(** ** The invariant *)

Definition live (q : Quotas) (a : arc) : Prop := ∃ root, by_root q !! root = Some a.
(** What a file and a thread hold of a bucket. *)
Definition file_charge (index : gmap InodeId arc) (a : arc) (i : InodeId) (n : Z) : Z :=
  if bool_decide (index !! i = Some a) then n else 0.
Definition contrib (a : arc) (t : nat) (p : phase) : Z :=
  match p with
  | Reserved _ _ c =>
      if bool_decide (reservation_bucket (reservation c) = Some a) then reserved_bytes (reservation c) else 0
  | Applied c => if bool_decide (change_bucket c = Some a) then shrink_bytes c else 0
  | _ => 0
  end.
Definition removal_charge (a : arc) (r : option removal) : Z :=
  match r with Some (Unindexed x n) => if bool_decide (x = a) then n else 0 | _ => 0 end.
Definition charge (m : machine) (a : arc) : Z :=
  msum (file_charge (by_inode (quotas m)) a) (files m) + msum (contrib a) (threads m)
  + removal_charge a (removing m).

Definition change_ok (m : machine) (i : InodeId) (after : Z) (c : QuotaChange) : Prop :=
  0 ≤ after ∧ change_bucket c = by_inode (quotas m) !! i ∧
  shrink_bytes c = saturating_sub (alloc m i) after ∧ accepted (reservation c) = false ∧
  match by_inode (quotas m) !! i with
  | Some a => (after ≤ alloc m i ∧ reservation c = reservation_empty) ∨
      (alloc m i < after ∧ reservation_bucket (reservation c) = Some a ∧
       reserved_bytes (reservation c) = after - alloc m i)
  | None => reservation c = reservation_empty
  end.
Definition phase_ok (m : machine) (p : phase) : Prop :=
  match p with
  | Reserving i after a => by_inode (quotas m) !! i = Some a ∧ alloc m i < after
  | Loaded i after a used next =>
      by_inode (quotas m) !! i = Some a ∧ alloc m i < after ∧ next = used + (after - alloc m i) ∧
      ∀ b, buckets (quotas m) !! a = Some b → next ≤ limit_bytes b
  | Reserved i after c => change_ok m i after c
  | Applied c => 0 ≤ shrink_bytes c ∧ ∀ a, change_bucket c = Some a → live (quotas m) a
  end.

Definition snap_ok (strict : bool) (m : machine) (s : snapshot) : Prop :=
  threads m = ∅ ∧ NoDup (snap_rules s).*1 ∧ NoDup (snap_members s).*1 ∧
  ∀ root, root ∈ (snap_rules s).*1 →
    member_usage (files m) (snap_members s) root ≤ default 0 (snap_usage s !! root) ∧
    (strict = true → default 0 (snap_usage s !! root) = member_usage (files m) (snap_members s) root).
(** A counted file does not change; an unindexed one's bytes are still in its
    bucket, which a replacement may have taken out of the index. *)
Definition removal_ok (m : machine) : Prop :=
  match removing m with
  | None => True
  | Some (Counted i n) => alloc m i = n ∧ unlocked m i
  | Some (Unindexed a n) => 0 ≤ n ∧
      ∃ b, buckets (quotas m) !! a = Some b ∧ (live (quotas m) a ∨ n ≤ used_bytes b)
  end.

Record quota_inv (strict : bool) (m : machine) : Prop := {
  iv_live i a : by_inode (quotas m) !! i = Some a → live (quotas m) a;
  iv_bucket a : live (quotas m) a → ∃ b, buckets (quotas m) !! a = Some b ∧
    charge m a ≤ used_bytes b ≤ limit_bytes b ∧ (strict = true → used_bytes b = charge m a);
  iv_root r a b : by_root (quotas m) !! r = Some a → buckets (quotas m) !! a = Some b → root_inode b = r;
  iv_phase t p : threads m !! t = Some p → phase_ok m p;
  iv_excl t t' p p' i : threads m !! t = Some p → threads m !! t' = Some p' →
    locks i p → locks i p' → t = t';
  iv_files i n : files m !! i = Some n → 0 ≤ n;
  iv_heap a b : buckets (quotas m) !! a = Some b → (a < next_arc (quotas m))%nat;
  iv_snap s : replacing m = Some s → snap_ok strict m s;
  iv_removal : removal_ok m;
}.

Lemma quota_inv_empty strict : quota_inv strict empty_machine.
Proof.
  constructor; simpl; try done.
  - intros a [root Hr]. done.
Qed.

(** [q'] is [q] with [n] bytes more on bucket [a]. *)
Record charged (q : Quotas) (a : arc) (n : Z) (q' : Quotas) : Prop := {
  charged_root : by_root q' = by_root q;
  charged_inode : by_inode q' = by_inode q;
  charged_next : next_arc q' = next_arc q;
  charged_bucket x : buckets q' !! x =
    if decide (x = a)
    then (λ b, {| root_inode := root_inode b; limit_bytes := limit_bytes b; used_bytes := used_bytes b + n |})
           <$> buckets q !! a
    else buckets q !! x;
}.
Lemma store_used_charged q a b v :
  buckets q !! a = Some b → charged q a (v - used_bytes b) (store_used a v q).2.
Proof.
  intros Hb. constructor; try done. intros x. simpl. case_decide; subst.
  - rewrite lookup_alter_eq, Hb. simpl. do 2 f_equal. lia.
  - by rewrite lookup_alter_ne.
Qed.
Lemma release_charged q a n b :
  buckets q !! a = Some b → 0 ≤ n ≤ used_bytes b →
  ∃ q', release a n q = (Ok (), q') ∧ charged q a (- n) q'.
Proof.
  intros Hb Hn. unfold release. destruct (Z.eqb_spec n 0) as [->|].
  - exists q. split; [done|]. constructor; try done. intros x. case_decide; subst; [|done].
    rewrite Hb. simpl. destruct b. simpl. do 2 f_equal. lia.
  - unfold mbind, prog_bind, deref. simpl. rewrite Hb. simpl.
    unfold pure, checked_sub. rewrite (proj2 (Z.leb_le _ _)) by lia. simpl.
    eexists. split; [done|]. replace (- n) with (used_bytes b - n - used_bytes b) by lia.
    by apply (store_used_charged q a b).
Qed.

Lemma charge_parts_nonneg strict m a :
  quota_inv strict m →
  (∀ i n, files m !! i = Some n → 0 ≤ file_charge (by_inode (quotas m)) a i n) ∧
  (∀ t p, threads m !! t = Some p → 0 ≤ contrib a t p) ∧ 0 ≤ removal_charge a (removing m).
Proof.
  intros Hinv. split_and!; [| |].
  3: { pose proof (iv_removal _ _ Hinv) as Hr. unfold removal_ok, removal_charge in *.
       destruct (removing m) as [[i n|x n]|]; [done| |done]. case_bool_decide; [tauto|done]. }
  - intros i n Hn%(iv_files _ _ Hinv). unfold file_charge. by case_bool_decide.
  - intros t p Hp%(iv_phase _ _ Hinv). destruct p as [| |i after c|c]; simpl in *; [done..| |].
    + case_bool_decide as Hr; [|done]. destruct Hp as (_&_&_&_&Hm). destruct (by_inode (quotas m) !! i).
      * destruct Hm as [[_ He]|(?&_&->)]; [|lia]. by rewrite He.
      * by rewrite Hm.
    + case_bool_decide; [tauto|done].
Qed.
Lemma contrib_le strict m a t p :
  quota_inv strict m → threads m !! t = Some p → contrib a t p ≤ charge m a.
Proof.
  intros Hinv Hp. destruct (charge_parts_nonneg _ _ a Hinv) as (Hf&Ht&?). unfold charge.
  pose proof (msum_nonneg _ _ Hf). pose proof (msum_delete (contrib a) (threads m) t) as Hd.
  rewrite Hp in Hd. simpl in Hd.
  assert (0 ≤ msum (contrib a) (delete t (threads m))); [|lia].
  apply msum_nonneg. intros k x [_ Hx]%lookup_delete_Some. eauto.
Qed.
Lemma alloc_le strict m a i :
  quota_inv strict m → by_inode (quotas m) !! i = Some a → 0 ≤ alloc m i ≤ charge m a.
Proof.
  intros Hinv Hi. destruct (charge_parts_nonneg _ _ a Hinv) as (Hf&Ht&?). unfold charge, alloc.
  pose proof (msum_nonneg _ _ Ht).
  pose proof (msum_delete (file_charge (by_inode (quotas m)) a) (files m) i) as Hd.
  assert (0 ≤ msum (file_charge (by_inode (quotas m)) a) (delete i (files m))).
  { apply msum_nonneg. intros k x [_ Hx]%lookup_delete_Some. eauto. }
  destruct (files m !! i) as [n|] eqn:Hn; simpl in *; [|pose proof (msum_nonneg _ _ Hf); lia].
  apply (iv_files _ _ Hinv) in Hn. unfold file_charge in Hd at 3. rewrite bool_decide_true in Hd by done. lia.
Qed.

(** ** Steps that keep the index *)

(** The accounting of a step that moves [n] bytes onto bucket [a]. *)
Lemma inv_charged strict m m' a n :
  quota_inv strict m → (∀ s, replacing m' = Some s → snap_ok strict m' s) → removal_ok m' →
  charged (quotas m) a n (quotas m') →
  (∀ x, live (quotas m) x → charge m' x = charge m x + (if decide (x = a) then n else 0)) →
  (live (quotas m) a → ∀ b, buckets (quotas m) !! a = Some b → used_bytes b + n ≤ limit_bytes b) →
  (∀ t p, threads m' !! t = Some p → phase_ok m' p) →
  (∀ t t' p p' i, threads m' !! t = Some p → threads m' !! t' = Some p' →
     locks i p → locks i p' → t = t') →
  (∀ i n, files m' !! i = Some n → 0 ≤ n) →
  quota_inv strict m'.
Proof.
  intros Hinv Hrep Hrm [Hroot Hino Hnext Hbk] Hch Hlim Hph Hex Hfi.
  assert (Hlive : ∀ x, live (quotas m') x ↔ live (quotas m) x) by (intros; unfold live; by rewrite Hroot).
  constructor; try done.
  - intros i x. rewrite Hino, Hlive. apply (iv_live _ _ Hinv).
  - intros x Hx%Hlive. destruct (iv_bucket _ _ Hinv x Hx) as (b&Hb&Hle&Hst). rewrite Hbk, Hch by done.
    case_decide as Hxa; subst.
    + rewrite Hb. simpl. eexists. split; [done|]. simpl. specialize (Hlim Hx _ Hb). split; [lia|].
      intros Hs. specialize (Hst Hs). lia.
    + exists b. rewrite Z.add_0_r. done.
  - intros r x b. rewrite Hroot, Hbk. case_decide; subst; [|by apply (iv_root _ _ Hinv)].
    intros Hr (b0&Hb0&->)%fmap_Some. exact (iv_root _ _ Hinv r a b0 Hr Hb0).
  - intros x b. rewrite Hbk, Hnext. case_decide; subst.
    + intros (b0&Hb0&_)%fmap_Some. by eapply (iv_heap _ _ Hinv).
    + apply (iv_heap _ _ Hinv).
Qed.
Lemma not_replacing strict m : replacing m = None → ∀ s, replacing m = Some s → snap_ok strict m s.
Proof. intros -> s. done. Qed.

(** A step on a live bucket leaves a removal in progress alone. *)
Lemma removal_ok_charged strict m m' a n :
  quota_inv strict m → removing m' = removing m → charged (quotas m) a n (quotas m') →
  live (quotas m) a ∨ n = 0 →
  (∀ i k, removing m = Some (Counted i k) → unlocked m i → alloc m' i = alloc m i ∧ unlocked m' i) →
  removal_ok m'.
Proof.
  intros Hinv Hr [Hroot _ _ Hbk] Ha Hc. pose proof (iv_removal _ _ Hinv) as Hok. unfold removal_ok in *. rewrite Hr.
  destruct (removing m) as [[i k|x k]|]; [| |done].
  - destruct Hok as [<- Hun]. exact (Hc _ _ eq_refl Hun).
  - destruct Hok as (?&b&Hb&Hx). split; [done|]. rewrite Hbk. unfold live in *. rewrite Hroot.
    case_decide; subst; [rewrite Hb|eauto]. eexists. split; [done|]. simpl.
    destruct Hx; [by left|]. destruct Ha as [?|Hz]; [by left|]. right. rewrite Hz. lia.
Qed.

(** What phases depend on. *)
Lemma phase_ok_mono m m' p :
  (∀ i, locks i p → by_inode (quotas m') !! i = by_inode (quotas m) !! i) → by_root (quotas m') = by_root (quotas m) →
  (∀ a b', buckets (quotas m') !! a = Some b' →
     ∃ b, buckets (quotas m) !! a = Some b ∧ limit_bytes b' = limit_bytes b) →
  (∀ i, locks i p → alloc m' i = alloc m i) →
  phase_ok m p → phase_ok m' p.
Proof.
  intros Hino Hroot Hbk Hal. destruct p as [i after a|i after a used next|i after c|c]; simpl.
  - rewrite Hino, Hal by done. done.
  - rewrite Hino, Hal by done. intros (?&?&?&Hn). split_and!; try done.
    intros b' (b&Hb&->)%Hbk. auto.
  - unfold change_ok. rewrite Hino, Hal by done. done.
  - unfold live. rewrite Hroot. done.
Qed.
Lemma charged_limit q a n q' x b' :
  charged q a n q' → buckets q' !! x = Some b' →
  ∃ b, buckets q !! x = Some b ∧ limit_bytes b' = limit_bytes b.
Proof.
  intros [_ _ _ Hbk]. rewrite Hbk. case_decide; subst; [|by exists b'].
  intros (b&Hb&->)%fmap_Some. by exists b.
Qed.
Lemma charged_refl q a : charged q a 0 q.
Proof.
  constructor; try done. intros x. case_decide; subst; [|done]. destruct (buckets q !! a) as [b|]; [|done].
  simpl. destruct b. simpl. do 2 f_equal. lia.
Qed.

(** A thread exists only while no replacement is in progress. *)
Lemma thread_not_replacing strict m t p :
  quota_inv strict m → threads m !! t = Some p → replacing m = None.
Proof.
  intros Hinv Hp. destruct (replacing m) as [s|] eqn:Hs; [|done].
  apply (iv_snap _ _ Hinv) in Hs as (He&_). rewrite He in Hp. done.
Qed.

(** A step of thread [t] that moves [n] bytes onto [a] and enters phase [p'],
    or ends. *)
Lemma inv_thread strict m t p o a n q' :
  quota_inv strict m → threads m !! t = Some p → charged (quotas m) a n q' →
  (∀ p', o = Some p' → phase_ok (with_quotas m (threads m) q') p' ∧ (∀ i, locks i p' → locks i p)) →
  (∀ x, from_option (contrib x t) 0 o = contrib x t p + (if decide (x = a) then n else 0)) →
  (live (quotas m) a → ∀ b, buckets (quotas m) !! a = Some b → used_bytes b + n ≤ limit_bytes b) →
  live (quotas m) a ∨ n = 0 →
  quota_inv strict (with_quotas m (partial_alter (λ _, o) t (threads m)) q').
Proof.
  intros Hinv Hp Hq Ho Hc Hlim Hlv. set (th := partial_alter (λ _, o) t (threads m)).
  assert (Hth : ∀ t' p', th !! t' = Some p' → (t' = t ∧ o = Some p') ∨ (t' ≠ t ∧ threads m !! t' = Some p')).
  { intros t' p' Ht. unfold th in Ht. destruct (decide (t' = t)) as [->|].
    - rewrite lookup_partial_alter_eq in Ht. by left.
    - rewrite lookup_partial_alter_ne in Ht by done. by right. }
  apply (inv_charged strict m _ a n); simpl; try done.
  - apply (not_replacing _ (with_quotas m th q')). exact (thread_not_replacing _ _ _ _ Hinv Hp).
  - apply (removal_ok_charged strict m _ a n); try done. intros i k _ Hun. split; [done|].
    intros t' p' [[-> Hop]|[Hne Ht]]%Hth; [|exact (Hun _ _ Ht)]. apply Ho in Hop as [_ Hl].
    intros Hi%Hl. exact (Hun _ _ Hp Hi).
  - intros x Hx. unfold charge. simpl. rewrite (charged_inode _ _ _ _ Hq).
    assert (msum (contrib x) th = msum (contrib x) (threads m) - contrib x t p + from_option (contrib x t) 0 o) as ->.
    { unfold th. destruct o as [p'|]; simpl.
      - change (partial_alter (λ _, Some p') t (threads m)) with (<[t := p']> (threads m)).
        rewrite msum_insert, Hp. done.
      - change (partial_alter (λ _, None) t (threads m)) with (delete t (threads m)).
        rewrite msum_delete, Hp. simpl. lia. }
    rewrite Hc. lia.
  - intros t' p' [[-> Hop]|[Hne Ht]]%Hth; [by apply Ho in Hop as [? _]|].
    eapply (phase_ok_mono m); simpl; [by intros; erewrite charged_inode|by eapply charged_root| |done|by eapply iv_phase].
    intros x b' Hb. by eapply charged_limit.
  - intros t1 t2 p1 p2 i [[-> H1]|[Hn1 H1]]%Hth [[-> H2]|[Hn2 H2]]%Hth Hl1 Hl2; [done|..].
    + apply Ho in H1 as [_ H1]. eapply (iv_excl _ _ Hinv t t2); eauto.
    + apply Ho in H2 as [_ H2]. eapply (iv_excl _ _ Hinv t1 t); eauto.
    + eapply (iv_excl _ _ Hinv); eauto.
  - intros i k Hk. by eapply iv_files.
Qed.

Lemma inv_begin strict m t i after :
  quota_inv strict m → threads m !! t = None → unlocked m i → is_u64 after → replacing m = None →
  (∀ n, removing m ≠ Some (Counted i n)) →
  quota_inv strict (with_thread m t (begin_change (quotas m) i (alloc m i) after) (quotas m)).
Proof.
  intros Hinv Ht Hun Haf Hrep Hfence. set (p := begin_change _ _ _ _).
  assert (Hp : phase_ok m p ∧ (∀ j, locks j p → j = i) ∧ ∀ x, contrib x t p = 0).
  { unfold p, begin_change, saturating_sub. destruct Haf as [? _].
    destruct (by_inode (quotas m) !! i) as [a|] eqn:Hi; [|simpl; unfold change_ok; simpl; rewrite Hi; split_and!; done].
    destruct (Z.eqb_spec (Z.max 0 (after - alloc m i)) 0); simpl.
    - unfold change_ok. simpl. rewrite Hi. split_and!; try done. left. split; [lia|done].
    - split_and!; try done. lia. }
  destruct Hp as (Hok&Hlk&Hc0). unfold with_thread.
  assert (Hth : ∀ t' p', <[t := p]> (threads m) !! t' = Some p' → (t' = t ∧ p' = p) ∨ (t' ≠ t ∧ threads m !! t' = Some p')).
  { intros t' p' [[-> ->]|[??]]%lookup_insert_Some; [by left|by right]. }
  apply (inv_charged strict m _ O 0); simpl; try done.
  - by apply (not_replacing _ (with_thread m t p (quotas m))).
  - apply (removal_ok_charged strict m _ O 0); try done; [apply charged_refl|by right|].
    intros j k Hj Hunj. split; [done|]. intros t' p' [[-> ->]|[Hne Ht']]%Hth; [|exact (Hunj _ _ Ht')].
    intros Hl%Hlk. subst j. by apply (Hfence k).
  - apply charged_refl.
  - intros x _. unfold charge. simpl. rewrite msum_insert_new, Hc0 by done. case_decide; lia.
  - intros Hl b Hb. destruct (iv_bucket _ _ Hinv _ Hl) as (b'&Hb'&?&_). simplify_eq. lia.
  - intros t' p' [[-> ->]|[_ Ht']]%Hth; (eapply phase_ok_mono; simpl; [done|done|by eauto|done|]); [done|by eapply iv_phase].
  - intros t1 t2 p1 p2 j [[-> ->]|[Hn1 H1]]%Hth [[-> ->]|[Hn2 H2]]%Hth Hl1 Hl2; [done|..].
    + apply Hlk in Hl1 as ->. by destruct (Hun _ _ H2).
    + apply Hlk in Hl2 as ->. by destruct (Hun _ _ H1).
    + eapply (iv_excl _ _ Hinv); eauto.
  - intros j k Hk. by eapply iv_files.
Qed.

Lemma phase_ok_live strict m i a :
  quota_inv strict m → by_inode (quotas m) !! i = Some a →
  ∃ b, buckets (quotas m) !! a = Some b ∧ charge m a ≤ used_bytes b ≤ limit_bytes b.
Proof. intros Hinv Hi%(iv_live _ _ Hinv). destruct (iv_bucket _ _ Hinv a Hi) as (b&?&?&_). eauto. Qed.

(** A thread step without effect on the buckets. *)
Lemma inv_thread_quiet strict m t p o :
  quota_inv strict m → threads m !! t = Some p →
  (∀ p', o = Some p' → phase_ok m p' ∧ (∀ i, locks i p' → locks i p)) →
  (∀ x, from_option (contrib x t) 0 o = contrib x t p) →
  quota_inv strict (with_quotas m (partial_alter (λ _, o) t (threads m)) (quotas m)).
Proof.
  intros Hinv Hp Ho Hc. apply (inv_thread strict m t p o O 0); try done.
  - apply charged_refl.
  - intros x. rewrite Hc. case_decide; lia.
  - intros Hl b Hb. destruct (iv_bucket _ _ Hinv _ Hl) as (b2&?&?&_). simplify_eq. lia.
  - by right.
Qed.

Lemma inv_load strict m t i after a :
  quota_inv strict m → threads m !! t = Some (Reserving i after a) →
  ∃ m', after_op ((b ← deref a;
                   next ← pure (reserve_check b (used_bytes b) (saturating_sub after (alloc m i)));
                   mret (used_bytes b, next)) (quotas m))
          (λ '(used, next), with_thread m t (Loaded i after a used next))
          (with_quotas m (delete t (threads m))) = Ok m' ∧ quota_inv strict m'.
Proof.
  intros Hinv Ht. destruct (iv_phase _ _ Hinv _ _ Ht) as [Hi Hgrow].
  destruct (phase_ok_live _ _ _ _ Hinv Hi) as (b&Hb&Hle).
  unfold mbind, prog_bind, deref, pure, reserve_check, saturating_sub. simpl. rewrite Hb. simpl.
  rewrite Z.max_r by lia. destruct (checked_add _ _ _) as [next|] eqn:Hadd; simpl.
  2: { eexists. split; [done|]. by apply (inv_thread_quiet strict m t _ None Hinv Ht). }
  apply checked_add_Some in Hadd as [-> Hmax].
  unfold reject_if. destruct (Z.ltb_spec (limit_bytes b) (used_bytes b + (after - alloc m i))); simpl.
  - eexists. split; [done|]. by apply (inv_thread_quiet strict m t _ None Hinv Ht).
  - eexists. split; [done|].
    apply (inv_thread_quiet strict m t _ (Some (Loaded i after a (used_bytes b) _)) Hinv Ht); [|done].
    intros p' [= <-]. split; [|done]. simpl. split_and!; try done. intros b' Hb'. simplify_eq. lia.
Qed.

Lemma inv_cas strict m t i after a used next spurious :
  quota_inv strict m → threads m !! t = Some (Loaded i after a used next) →
  ∃ m', after_op (compare_exchange_weak a used next spurious (quotas m))
          (λ ok, with_thread m t (if ok then Reserved i after (granted m i after a) else Reserving i after a))
          (with_quotas m (threads m)) = Ok m' ∧ quota_inv strict m'.
Proof.
  intros Hinv Ht. destruct (iv_phase _ _ Hinv _ _ Ht) as (Hi&Hgrow&->&Hnext).
  destruct (phase_ok_live _ _ _ _ Hinv Hi) as (b&Hb&Hle). specialize (Hnext _ Hb).
  destruct (alloc_le _ _ _ _ Hinv Hi) as [Hal _].
  unfold compare_exchange_weak, mbind, prog_bind, deref. simpl. rewrite Hb. simpl.
  destruct (Z.eqb_spec (used_bytes b) used) as [<-|]; [destruct spurious|]; simpl.
  1,3: eexists; (split; [done|]); apply (inv_thread_quiet strict m t _ (Some (Reserving i after a)) Hinv Ht); [|done];
    intros p' [= <-]; (split; [|done]); by split.
  pose proof (store_used_charged (quotas m) a b (used_bytes b + (after - alloc m i)) Hb) as Hq.
  replace (used_bytes b + (after - alloc m i) - used_bytes b) with (after - alloc m i) in Hq by lia.
  eexists. split; [done|].
  apply (inv_thread strict m t _ (Some (Reserved i after (granted m i after a))) a (after - alloc m i) _ Hinv Ht Hq).
  - intros p' [= <-]. split; [|done]. simpl. unfold change_ok. simpl. rewrite Hi. unfold saturating_sub.
    split_and!; [lia|done|done|done|]. right. unfold alloc in *; simpl in *. split_and!; [lia|done|lia].
  - intros x. simpl. unfold saturating_sub. case_bool_decide; case_decide; simplify_eq; lia || done.
  - intros _ b' Hb'. simplify_eq. lia.
  - left. by eapply iv_live.
Qed.

(** Applying a granted change moves the bytes from the thread to the file. *)
Lemma inv_apply strict m t i after c :
  quota_inv strict m → threads m !! t = Some (Reserved i after c) →
  quota_inv strict {| quotas := quotas m; files := <[i := after]> (files m);
                      threads := <[t := Applied c]> (threads m); replacing := replacing m;
                      removing := removing m |}.
Proof.
  intros Hinv Ht. destruct (iv_phase _ _ Hinv _ _ Ht) as (Haf&Hcb&Hsh&Hacc&Hres).
  set (m' := {| quotas := _ |}).
  assert (Hth : ∀ t' p', threads m' !! t' = Some p' → (t' = t ∧ p' = Applied c) ∨ (t' ≠ t ∧ threads m !! t' = Some p')).
  { intros t' p' Hp. simpl in Hp. apply lookup_insert_Some in Hp as [[-> <-]|[??]]; [by left|by right]. }
  apply (inv_charged strict m m' O 0); try done.
  - apply not_replacing. simpl. by eapply thread_not_replacing.
  - apply (removal_ok_charged strict m _ O 0); try done; [apply charged_refl|by right|].
    intros j k _ Hun. assert (j ≠ i) by (intros ->; exact (Hun _ _ Ht eq_refl)). split.
    + unfold alloc. simpl. by rewrite lookup_insert_ne.
    + intros t' p' [[-> ->]|[Hne Ht']]%Hth; [by intros []|exact (Hun _ _ Ht')].
  - apply charged_refl.
  - intros x Hx. unfold charge. simpl. rewrite !msum_insert, Ht. simpl.
    assert (Hold : from_option (file_charge (by_inode (quotas m)) x i) 0 (files m !! i)
      = if bool_decide (by_inode (quotas m) !! i = Some x) then alloc m i else 0).
    { unfold alloc, file_charge. destruct (files m !! i); simpl; by case_bool_decide. }
    rewrite Hold. unfold file_charge. rewrite Hcb, Hsh. unfold saturating_sub.
    destruct (by_inode (quotas m) !! i) as [a|] eqn:Hi.
    + destruct Hres as [[? ->]|(?&->&->)]; simpl; repeat case_bool_decide; simplify_eq; case_decide; lia.
    + rewrite Hres. simpl. repeat case_bool_decide; simplify_eq; case_decide; lia.
  - intros Hl b Hb. destruct (iv_bucket _ _ Hinv _ Hl) as (b2&?&?&_). simplify_eq. lia.
  - intros t' p' [[-> ->]|[Hne Ht']]%Hth.
    + split; [rewrite Hsh; unfold saturating_sub; lia|]. intros x Hx. rewrite Hcb in Hx. exact (iv_live _ _ Hinv i x Hx).
    + apply (phase_ok_mono m); try done; [by eauto| |by eapply iv_phase].
      intros j Hj. unfold alloc. simpl. rewrite lookup_insert_ne; [done|]. intros <-.
      destruct Hne. eapply (iv_excl _ _ Hinv t' t); [done|done|done|]. done.
  - intros t1 t2 p1 p2 j [[-> ->]|[Hn1 H1]]%Hth [[-> ->]|[Hn2 H2]]%Hth Hl1 Hl2; try done.
    eapply (iv_excl _ _ Hinv); eauto.
  - intros j k Hk. simpl in Hk. apply lookup_insert_Some in Hk as [[_ <-]|[_ Hk]]; [done|]. by eapply iv_files.
Qed.

(** Releasing what a thread holds. *)
Lemma inv_release strict m t p a n :
  quota_inv strict m → threads m !! t = Some p → live (quotas m) a → 0 ≤ n →
  (∀ x, contrib x t p = if decide (x = a) then n else 0) →
  ∃ q', release a n (quotas m) = (Ok (), q') ∧
    quota_inv strict (with_quotas m (delete t (threads m)) q').
Proof.
  intros Hinv Ht Hl Hn Hc. destruct (iv_bucket _ _ Hinv a Hl) as (b&Hb&Hle&_).
  pose proof (contrib_le _ _ a _ _ Hinv Ht) as Hcl. rewrite Hc, decide_True in Hcl by done.
  destruct (release_charged (quotas m) a n b Hb) as (q'&Hq&Hch); [lia|]. exists q'. split; [done|].
  apply (inv_thread strict m t p None a (- n) q' Hinv Ht Hch); try done.
  - intros x. rewrite Hc. simpl. case_decide; lia.
  - intros _ b' Hb'. simplify_eq. lia.
  - by left.
Qed.

Lemma inv_abandon strict m t i after c :
  quota_inv strict m → threads m !! t = Some (Reserved i after c) →
  ∃ m', after_op (change_drop c (quotas m))
          (λ _, with_quotas m (delete t (threads m))) (with_quotas m (delete t (threads m))) = Ok m' ∧
        quota_inv strict m'.
Proof.
  intros Hinv Ht. destruct (iv_phase _ _ Hinv _ _ Ht) as (Haf&Hcb&Hsh&Hacc&Hres).
  unfold change_drop, reservation_drop. rewrite Hacc.
  assert (Hquiet : reservation c = reservation_empty →
    quota_inv strict (with_quotas m (delete t (threads m)) (quotas m))).
  { intros He. apply (inv_thread_quiet strict m t _ None Hinv Ht); [done|]. intros x. simpl. rewrite He. by case_bool_decide. }
  destruct (by_inode (quotas m) !! i) as [a|] eqn:Hi.
  - destruct Hres as [[_ He]|(Hg&Hrb&Hrn)].
    + rewrite He. simpl. eexists. split; [done|]. by apply Hquiet.
    + rewrite Hrb. destruct (inv_release strict m t _ a (reserved_bytes (reservation c)) Hinv Ht) as (q'&->&Hinv').
      * by eapply iv_live.
      * lia.
      * intros x. simpl. rewrite Hrb. case_bool_decide; case_decide; simplify_eq; done.
      * eexists. split; [done|]. done.
  - rewrite Hres. simpl. eexists. split; [done|]. by apply Hquiet.
Qed.
Lemma inv_accept strict m t c :
  quota_inv strict m → threads m !! t = Some (Applied c) →
  ∃ m', after_op (change_accept c (quotas m))
          (λ _, with_quotas m (delete t (threads m))) (with_quotas m (delete t (threads m))) = Ok m' ∧
        quota_inv strict m'.
Proof.
  intros Hinv Ht. destruct (iv_phase _ _ Hinv _ _ Ht) as (Hsh&Hlv).
  unfold change_accept, reservation_drop, mbind, prog_bind. cbn [accepted reservation_accept].
  destruct (change_bucket c) as [a|] eqn:Hcb; simpl.
  - destruct (inv_release strict m t _ a (shrink_bytes c) Hinv Ht) as (q'&->&Hinv'); [by apply Hlv|done| |].
    + intros x. simpl. rewrite Hcb. case_bool_decide; case_decide; simplify_eq; done.
    + simpl. eexists. split; [done|]. done.
  - eexists. split; [done|]. apply (inv_thread_quiet strict m t _ None Hinv Ht); [done|].
    intros x. simpl. by rewrite Hcb.
Qed.

(** ** Steps that change the index *)

Lemma inv_remove_count strict m i :
  quota_inv strict m → unlocked m i → removing m = None →
  quota_inv strict (with_removing m (quotas m) (Some (Counted i (alloc m i)))).
Proof.
  intros [??????? Hs _] Hun Hr.
  assert (Hch : ∀ x, charge (with_removing m (quotas m) (Some (Counted i (alloc m i)))) x = charge m x).
  { intros x. unfold charge. simpl. by rewrite Hr. }
  constructor; try done.
  - intros x Hx. rewrite Hch. eauto.
Qed.

(** Leaving the index moves the file's bytes to the removal. *)
Lemma inv_remove_index strict m i n :
  quota_inv strict m → removing m = Some (Counted i n) → (strict = true → replacing m = None) →
  quota_inv strict {| quotas := with_by_inode (quotas m) (delete i (by_inode (quotas m)));
    files := delete i (files m); threads := threads m; replacing := replacing m;
    removing := option_map (λ a, Unindexed a n) (by_inode (quotas m) !! i) |}.
Proof.
  intros Hinv Hrm Hst. set (m' := {| quotas := _ |}).
  pose proof (iv_removal _ _ Hinv) as Hr. unfold removal_ok in Hr. rewrite Hrm in Hr. destruct Hr as [<- Hun].
  assert (Hch : ∀ x, charge m' x = charge m x).
  { intros x. unfold charge. simpl. rewrite Hrm. simpl removal_charge at 2.
    rewrite (msum_ext _ (file_charge (by_inode (quotas m)) x)).
    2: { intros j k [Hne _]%lookup_delete_Some. unfold file_charge. by rewrite lookup_delete_ne. }
    rewrite msum_delete. unfold alloc, file_charge.
    destruct (by_inode (quotas m) !! i) as [a|] eqn:Hi; simpl; destruct (files m !! i); simpl;
      repeat case_bool_decide; simplify_eq; lia. }
  constructor; simpl.
  - intros j x [_ Hx]%lookup_delete_Some. exact (iv_live _ _ Hinv j x Hx).
  - intros x Hx. rewrite Hch. exact (iv_bucket _ _ Hinv x Hx).
  - apply (iv_root _ _ Hinv).
  - intros t p Hp. apply (phase_ok_mono m); simpl; [|done|by eauto| |by eapply iv_phase].
    + intros j Hj. rewrite lookup_delete_ne; [done|]. intros <-. by eapply Hun.
    + intros j Hj. unfold alloc. simpl. rewrite lookup_delete_ne; [done|]. intros <-. by eapply Hun.
  - intros. eapply (iv_excl _ _ Hinv); eauto.
  - intros j k [_ Hk]%lookup_delete_Some. by eapply iv_files.
  - apply (iv_heap _ _ Hinv).
  - intros s Hs. destruct (iv_snap _ _ Hinv s Hs) as (?&?&?&Hu). split_and!; try done.
    intros root Hroot. destruct (Hu root Hroot) as [Hle _]. split.
    + etrans; [|exact Hle]. unfold member_usage. simpl. rewrite msum_delete.
      destruct (files m !! i) as [k|] eqn:Hk; simpl; [|lia].
      apply (iv_files _ _ Hinv) in Hk. case_bool_decide; lia.
    + intros Hstrict. rewrite (Hst Hstrict) in Hs. done.
  - unfold removal_ok. simpl. destruct (by_inode (quotas m) !! i) as [a|] eqn:Hi; [|done]. simpl.
    destruct (phase_ok_live _ _ _ _ Hinv Hi) as (b&Hb&_). destruct (alloc_le _ _ _ _ Hinv Hi).
    split; [done|]. exists b. split; [done|]. left. exact (iv_live _ _ Hinv i a Hi).
Qed.

(** The bytes of an unindexed file are in its bucket. *)
Lemma removal_covered strict m :
  quota_inv strict m → ∀ a n b, removing m = Some (Unindexed a n) → buckets (quotas m) !! a = Some b →
  n ≤ used_bytes b.
Proof.
  intros Hinv a n b Hrm Hb. pose proof (iv_removal _ _ Hinv) as Hr. unfold removal_ok in Hr. rewrite Hrm in Hr.
  destruct Hr as (_&b0&Hb0&Hcase). simplify_eq. destruct Hcase as [Hl|?]; [|done].
  destruct (iv_bucket _ _ Hinv a Hl) as (b'&Hb'&Hle&_). simplify_eq.
  destruct (charge_parts_nonneg _ _ a Hinv) as (Hf&Ht&_).
  pose proof (msum_nonneg _ _ Hf). pose proof (msum_nonneg _ _ Ht).
  unfold charge in Hle. rewrite Hrm in Hle. simpl in Hle. rewrite bool_decide_true in Hle by done. lia.
Qed.
Lemma inv_remove_release strict m a n :
  quota_inv strict m → removing m = Some (Unindexed a n) →
  ∃ m', after_op (release a n (quotas m)) (λ _ q, with_removing m q None) (λ q, with_removing m q None) = Ok m' ∧
    quota_inv strict m'.
Proof.
  intros Hinv Hrm. pose proof (iv_removal _ _ Hinv) as Hr. unfold removal_ok in Hr. rewrite Hrm in Hr.
  destruct Hr as (Hn&b&Hb&_). pose proof (removal_covered _ _ Hinv a n b Hrm Hb) as Hle.
  destruct (release_charged (quotas m) a n b Hb) as (q'&->&Hq); [lia|]. eexists. split; [done|].
  apply (inv_charged strict m _ a (- n)); try done.
  - intros s Hs. exact (iv_snap _ _ Hinv s Hs).
  - intros x Hx. unfold charge. simpl. rewrite (charged_inode _ _ _ _ Hq), Hrm. simpl.
    case_bool_decide; case_decide; simplify_eq; lia.
  - intros Hl b' Hb'. destruct (iv_bucket _ _ Hinv a Hl) as (b2&Hb2&?&_). simplify_eq. lia.
  - intros t p Hp. eapply (phase_ok_mono m); simpl;
      [by intros; erewrite charged_inode|by eapply charged_root| |done|by eapply iv_phase].
    intros x b' Hb'. by eapply charged_limit.
  - apply (iv_excl _ _ Hinv).
  - apply (iv_files _ _ Hinv).
Qed.

Lemma inv_create strict m parent child :
  quota_inv strict m → files m !! child = None → unlocked m child → replacing m = None →
  removing m = None →
  ∃ m', after_op (associate_child parent child (quotas m))
          (λ _, with_quotas m (threads m)) (with_quotas m (threads m)) = Ok m' ∧ quota_inv strict m'.
Proof.
  intros Hinv Hf Hun Hrep Hrm. unfold associate_child, mbind, prog_bind, get_state, set_state. simpl.
  destruct (by_inode (quotas m) !! parent) as [a|] eqn:Hpar; eexists; (split; [done|]); [|by destruct m, Hinv].
  assert (Hch : ∀ x, charge (with_quotas m (threads m) (with_by_inode (quotas m) (<[child := a]> (by_inode (quotas m))))) x
    = charge m x).
  { intros x. unfold charge. simpl. do 2 f_equal. apply msum_ext. intros j k Hj. unfold file_charge.
    rewrite lookup_insert_ne; [done|]. intros <-. congruence. }
  constructor; simpl.
  - intros j x [[<- <-]|[_ Hx]]%lookup_insert_Some; by eapply (iv_live _ _ Hinv).
  - intros x Hx. rewrite Hch. by apply (iv_bucket _ _ Hinv x).
  - apply (iv_root _ _ Hinv).
  - intros t p Hp. apply (phase_ok_mono m); simpl; [|done|by eauto|done|by eapply iv_phase].
    intros j Hj. rewrite lookup_insert_ne; [done|]. intros <-. by eapply Hun.
  - intros. eapply (iv_excl _ _ Hinv); eauto.
  - apply (iv_files _ _ Hinv).
  - apply (iv_heap _ _ Hinv).
  - intros s Hs. congruence.
  - unfold removal_ok. simpl. by rewrite Hrm.
Qed.

Lemma new_buckets_spec usage rules next roots heap roots' heap' next' :
  new_buckets rules usage next roots heap = Ok (roots', heap', next') →
  (∀ a b, heap !! a = Some b → (a < next)%nat) →
  (∀ r a, roots !! r = Some a → ∃ b, heap !! a = Some b ∧ root_inode b = r ∧
     used_bytes b = default 0 (usage !! r) ∧ used_bytes b ≤ limit_bytes b) →
  (∀ a b, heap' !! a = Some b → (a < next')%nat) ∧
  (∀ a b, heap !! a = Some b → heap' !! a = Some b) ∧
  (∀ r a, roots' !! r = Some a → roots !! r = Some a ∨ (next ≤ a)%nat) ∧
  (∀ r a, roots' !! r = Some a → (is_Some (roots !! r) ∨ r ∈ rules.*1) ∧ ∃ b, heap' !! a = Some b ∧ root_inode b = r ∧
     used_bytes b = default 0 (usage !! r) ∧ used_bytes b ≤ limit_bytes b).
Proof.
  revert next roots heap. induction rules as [|[root limit] rules IH]; intros next roots heap Hnew Hheap Hroots;
    cbn [new_buckets] in Hnew.
  { simplify_eq. split_and!; [done|done|by left|]. intros r a Ha. split; [by left; eexists|]. eauto. }
  unfold bucket_new in Hnew. inv_run.
  match goal with H : new_buckets _ _ _ _ _ = Ok _ |- _ => apply IH in H as (Hh&Hkeep&Hnew'&Hr) end.
  - split_and!; [done|..].
    + intros a b Hb. apply Hkeep. rewrite lookup_insert_ne; [done|]. intros <-. apply Hheap in Hb. lia.
    + intros r a Ha. destruct (Hnew' r a Ha) as [[[_ <-]|[_ ?]]%lookup_insert_Some|?]; [by right|by left|right; lia].
    + intros r a Ha. destruct (Hr r a Ha) as [Hin Hb]. split; [|done].
    rewrite fmap_cons, elem_of_cons. simpl. destruct Hin as [[a' [[<- _]|[_ Hx]]%lookup_insert_Some]|Hin]; [by right; left|by left; eexists|by right; right].
  - intros a b [[<- _]|[_ Hb]]%lookup_insert_Some; [lia|]. apply Hheap in Hb. lia.
  - intros r a [[<- <-]|[Hne Ha]]%lookup_insert_Some.
    + eexists. rewrite lookup_insert_eq. split; [done|]. simpl. split_and!; [done|done|lia].
    + destruct (Hroots r a Ha) as (b&Hb&?). exists b. rewrite lookup_insert_ne; [done|].
      intros <-. apply Hheap in Hb. lia.
Qed.
Lemma members_spec membership roots acc inodes :
  members membership roots acc = Ok inodes → NoDup membership.*1 →
  ∀ i a, inodes !! i = Some a ↔
    ((i ∉ membership.*1) ∧ acc !! i = Some a) ∨ ∃ r, (i, r) ∈ membership ∧ roots !! r = Some a.
Proof.
  revert acc. induction membership as [|[j r] membership IH]; intros acc Hm Hnd i a; cbn [members] in Hm.
  { simplify_eq. split; [intros ?; left; split; [|done]; apply not_elem_of_nil|].
    intros [[_ ?]|(r&Hr&_)]; [done|]. by apply elem_of_nil in Hr. }
  rewrite fmap_cons, list.NoDup_cons in Hnd. destruct Hnd as [Hfresh Hnd]. simpl in Hfresh. inv_run.
  match goal with H : members _ _ _ = Ok _ |- _ => specialize (IH _ H Hnd i a); rename H into Hmem end.
  rewrite IH, fmap_cons, not_elem_of_cons. simpl.
  assert (Hex : (∃ r', (i, r') ∈ (j, r) :: membership ∧ roots !! r' = Some a) ↔
    (i = j ∧ roots !! r = Some a) ∨ ∃ r', (i, r') ∈ membership ∧ roots !! r' = Some a).
  { split; [intros (r'&[[= -> ->]|?]%elem_of_cons&?); eauto|].
    intros [[-> ?]|(r'&?&?)]; [exists r; split; [by left|done]|exists r'; split; [by right|done]]. }
  rewrite Hex. split.
  - intros [[Hni [[<- <-]|[Hne Ha]]%lookup_insert_Some]|(r'&?&?)]; [right; by left|by left|right; right; eauto].
  - intros [[[Hne Hni] Ha]|[[-> Hr]|(r'&Hin&Hr)]].
    + left. split; [done|]. by rewrite lookup_insert_ne.
    + simplify_eq. left. split; [done|]. by rewrite lookup_insert_eq.
    + right. eauto.
Qed.

Lemma new_buckets_no_panic usage rules next roots heap : no_panic (new_buckets rules usage next roots heap).
Proof.
  revert next roots heap. induction rules as [|[r l] rules IH]; intros next roots heap; cbn [new_buckets]; [done|].
  apply no_panic_bind; [|intros b _; apply IH]. unfold bucket_new.
  apply no_panic_bind; [apply no_panic_reject_if|done].
Qed.
Lemma members_no_panic membership roots acc : no_panic (members membership roots acc).
Proof.
  revert acc. induction membership as [|[i r] l IH]; intros acc; cbn [members]; [done|].
  apply no_panic_bind; [apply no_panic_ok_or|intros a _; apply IH].
Qed.

Lemma inv_install strict m rev s :
  quota_inv strict m → replacing m = Some s →
  let installed q := {| quotas := q; files := files m; threads := threads m; replacing := None;
                         removing := removing m |} in
  ∃ m', after_op (replace rev (snap_rules s) (snap_members s) (snap_usage s) (quotas m))
          (λ _, installed) installed = Ok m' ∧ quota_inv strict m'.
Proof.
  intros Hinv Hs installed. destruct (iv_snap _ _ Hinv s Hs) as (Hth&Hnr&Hnm&Husage).
  assert (Hold : quota_inv strict (installed (quotas m))).
  { destruct Hinv. constructor; simpl; try done. }
  unfold replace. destruct (reject_if _ _ ≫= _) as [q| |] eqn:Hr; cbv zeta; simpl.
  2: { eexists. split; [done|]. done. }
  2: { exfalso. revert Hr. apply no_panic_bind; [apply no_panic_reject_if|]. intros _ _.
       apply no_panic_bind; [apply new_buckets_no_panic|]. intros [[roots heap] next] _.
       apply no_panic_bind; [apply members_no_panic|done]. }
  inv_run. destruct x0 as [[roots heap] next]. inv_run.
  match goal with H : new_buckets _ _ _ _ _ = Ok _ |- _ => apply new_buckets_spec in H as (Hheap&Hkeep&Hfresh&Hroots) end;
    [|apply (iv_heap _ _ Hinv)|done].
  match goal with H : members _ _ _ = Ok ?x |- _ => rename x into inodes; pose proof (members_spec _ _ _ _ H Hnm) as Hmem end.
  eexists. split; [done|]. constructor; simpl.
  - intros i a [[_ Ha]|(r&_&Ha)]%Hmem; [done|]. by exists r.
  - intros a [r Ha]. destruct (Hroots r a Ha) as [[[? Hn]|Hin] (b&Hb&Hrb&Hub&Hle)]; [done|].
    exists b. split; [done|].
    assert (charge (installed {| revision := rev; by_root := roots; by_inode := inodes; buckets := heap; next_arc := next |}) a
      = member_usage (files m) (snap_members s) r) as ->.
    { unfold charge, member_usage. simpl. rewrite Hth, msum_empty.
      assert (removal_charge a (removing m) = 0) as ->.
      { pose proof (iv_removal _ _ Hinv) as Hrm. unfold removal_ok, removal_charge in *.
        destruct (removing m) as [[|y n]|]; [done| |done]. case_bool_decide as Hx; [|done]. subst y.
        destruct Hrm as (_&b0&Hb0%(iv_heap _ _ Hinv)&_). destruct (Hfresh r a Ha) as [?|?]; [done|lia]. }
      rewrite !Z.add_0_r. apply msum_ext. intros i n Hi.
      unfold file_charge. rewrite (bool_decide_ext _ ((i, r) ∈ snap_members s)); [done|].
      rewrite Hmem. split.
      - intros [[_ Hn]|(r'&Hr'&Ha')]; [done|]. destruct (Hroots r' a Ha') as [_ (b'&Hb'&Hrb'&_)].
        simplify_eq. done.
      - intros Hr'. right. by exists r. }
    destruct (Husage r Hin) as [? Hex]. rewrite Hub. split; [lia|done].
  - intros r a b Hr Hb. destruct (Hroots r a Hr) as [_ (b'&Hb'&?&_)]. by simplify_eq.
  - rewrite Hth. done.
  - rewrite Hth. done.
  - apply (iv_files _ _ Hinv).
  - done.
  - done.
  - pose proof (iv_removal _ _ Hinv) as Hrm. pose proof (removal_covered _ _ Hinv) as Hcov.
    unfold removal_ok in *. simpl. destruct (removing m) as [[|y n]|]; [done| |done].
    destruct Hrm as (?&b&Hb&_). split; [done|]. exists b. split; [by apply Hkeep|]. right. by eapply Hcov.
Qed.

(** ** Runs *)

Lemma step_preserves mode m r :
  mode ≠ Any → quota_inv (is_strict mode) m → step mode m r →
  ∃ m', r = Ok m' ∧ quota_inv (is_strict mode) m'.
Proof.
  intros Hmode Hinv [t i after Ht Hun Haf Hrep Hfen|t i after a Ht|t i after a used next sp Ht|t i after c Ht
    |t i after c Ht|t c Ht|i Hun Hrm|i n Hrm Hst|a n Hrm|parent child Hf Hun Hrep Hrm
    |s Hth Hrep Hnr Hnm Hu Hus|rev s Hs].
  - eexists. split; [done|]. apply inv_begin; auto.
  - by apply inv_load.
  - by apply inv_cas.
  - eexists. split; [done|]. by apply inv_apply.
  - by eapply inv_abandon.
  - by apply inv_accept.
  - eexists. split; [done|]. by apply inv_remove_count.
  - eexists. split; [done|]. apply inv_remove_index; [done..|]. destruct mode; by auto.
  - by apply inv_remove_release.
  - by apply inv_create.
  - eexists. split; [done|]. destruct Hinv. constructor; simpl; try done.
    intros s' [= <-]. split_and!; try done. intros root Hr. rewrite Hus by done. simpl. split; [lia|done].
  - by apply inv_install.
Qed.
Lemma reachable_inv mode m : mode ≠ Any → reachable mode m → quota_inv (is_strict mode) m.
Proof.
  intros Hmode. induction 1 as [|m m' _ IH Hstep]; [apply quota_inv_empty|].
  destruct (step_preserves _ _ _ Hmode IH Hstep) as (m''&[= ->]&?). done.
Qed.

(** The bytes allocated to the files of a quota root. *)
Definition domain_usage (m : machine) (root : InodeId) : Z :=
  msum (λ i n, if bool_decide (root_for (quotas m) i = Some root) then n else 0) (files m).

Lemma status_charge strict m root st :
  quota_inv strict m → status (quotas m) root = Some st →
  ∃ a b, by_root (quotas m) !! root = Some a ∧ buckets (quotas m) !! a = Some b ∧
    status_used_bytes st = used_bytes b ∧ status_limit_bytes st = limit_bytes b ∧
    charge m a = domain_usage m root + msum (contrib a) (threads m) + removal_charge a (removing m).
Proof.
  intros Hinv Hst. unfold status, status_of in Hst.
  destruct (by_root (quotas m) !! root) as [a|] eqn:Ha; [|done]. simpl in Hst.
  destruct (buckets (quotas m) !! a) as [b|] eqn:Hb; [|done]. simpl in Hst. injection Hst as <-.
  exists a, b. split_and!; try done. unfold charge, domain_usage. do 2 f_equal. apply msum_ext. intros i n Hi.
  unfold file_charge, root_for. destruct (by_inode (quotas m) !! i) as [a'|] eqn:Hi'; simpl; [|done].
  destruct (iv_live _ _ Hinv i a' Hi') as [r' Hr'].
  destruct (iv_bucket _ _ Hinv a' (ex_intro _ r' Hr')) as (b'&Hb'&_). rewrite Hb'. simpl.
  rewrite (iv_root _ _ Hinv _ _ _ Hr' Hb'). rewrite (bool_decide_ext _ (Some r' = Some root)); [done|]. split.
  - intros [= ->]. rewrite Hb in Hb'. injection Hb' as <-.
    by rewrite <-(iv_root _ _ Hinv _ _ _ Hr' Hb), (iv_root _ _ Hinv _ _ _ Ha Hb).
  - intros [= ->]. congruence.
Qed.

(** ** Runs of the machine *)

(** A run: a quota of 100 bytes on directory 1, file 2 grows to 100 bytes. *)
Definition revision_1 : bytes := [x31].
Definition empty_tree : snapshot :=
  {| snap_rules := [(1, 100)]; snap_members := [(1, 1)]; snap_usage := ∅ |}.
Definition full_tree : snapshot :=
  {| snap_rules := [(1, 100)]; snap_members := [(1, 1); (2, 1)]; snap_usage := {[ 1 := 100 ]} |}.

Lemma reachable_then mode m r m' : step mode m r → r = Ok m' → reachable mode m → reachable mode m'.
Proof. intros Hs -> Hm. by eapply reachable_step. Qed.
(** Extends the run [H] by one step and evaluates the state it reaches. *)
Tactic Notation "run_step" ident(H) open_constr(rule) :=
  eapply reachable_then in H; [|eapply rule|vm_compute; reflexivity].

Definition grown_change : QuotaChange :=
  {| change_bucket := Some O; shrink_bytes := 0;
     reservation := {| reservation_bucket := Some O; reserved_bytes := 100; accepted := false |} |}.
(** The state the run reaches. *)
Definition full_machine : machine := {|
  quotas := {| revision := revision_1; by_root := {[ 1 := O ]}; by_inode := {[ 1 := O; 2 := O ]};
               buckets := {[ O := {| root_inode := 1; limit_bytes := 100; used_bytes := 100 |} ]};
               next_arc := 1 |};
  files := {[ 2 := 100 ]}; threads := ∅; replacing := None; removing := None |}.
Lemma full_reachable mode : reachable mode full_machine.
Proof.
  pose proof (reachable_start mode) as H.
  run_step H (step_snapshot mode empty_machine empty_tree).
  2-3: done. 2-3: apply NoDup_singleton. 2: by repeat constructor.
  2: { intros root ->%list_elem_of_singleton. by vm_compute. }
  run_step H (step_install mode _ revision_1 empty_tree); [|reflexivity].
  run_step H (step_create mode _ 1 2); [|reflexivity|by intros t p Hp|reflexivity..].
  run_step H (step_begin mode _ O 2 100); [|reflexivity|by intros t p Hp|by vm_compute|reflexivity|done].
  run_step H (step_load mode _ O 2 100 O); [|reflexivity].
  run_step H (step_cas mode _ O 2 100 O 0 100 false); [|reflexivity].
  run_step H (step_apply mode _ O 2 100 grown_change); [|reflexivity].
  run_step H (step_accept mode _ O grown_change); [|reflexivity].
  exact H.
Qed.

(** A truncation of file 2 that starts after its removal has counted its bytes:
    both release them. *)
Definition truncating_change : QuotaChange :=
  {| change_bucket := Some O; shrink_bytes := 100; reservation := reservation_empty |}.
Lemma remove_race_panics : ∃ m, reachable Any m ∧ step Any m Panic.
Proof.
  pose proof (full_reachable Any) as H.
  run_step H (step_remove_count Any _ 2); [|by intros t p Hp|reflexivity].
  run_step H (step_begin Any _ O 2 0); [|reflexivity|by intros t p Hp|by vm_compute|reflexivity|done].
  run_step H (step_remove_index Any _ 2 100); [|reflexivity|done].
  run_step H (step_remove_release Any _ O 100); [|reflexivity].
  run_step H (step_apply Any _ O 2 0 truncating_change); [|reflexivity].
  eexists. split; [exact H|].
  eapply eq_ind; [apply (step_accept Any _ O truncating_change); reflexivity|]. by vm_compute.
Qed.

(** ** Properties *)

(** C5: a quota is never exceeded.  Whatever threads load, compare-and-swap,
    apply, accept, abandon, create, remove and replace, in any interleaving in
    which no change begins on an inode between the count of its bytes and its
    leaving the index ([Fenced]: when the last reference to an inode goes, no
    other request on it is under way), the bytes allocated to the files of a
    quota root stay within what its bucket counts, which stays within the limit;
    and no release is ever refused, so the assertion in [release] does not fire.
    The condition is needed: without it a truncation that races with the removal
    of its file is released twice, and the assertion fires. *)
Theorem quota_never_exceeded :
  (∀ m, reachable Fenced m →
    (∀ root st, status (quotas m) root = Some st →
       domain_usage m root ≤ status_used_bytes st ≤ status_limit_bytes st) ∧
    (∀ r, step Fenced m r → r ≠ Panic)) ∧
  (∃ m, reachable Any m ∧ step Any m Panic).
Proof.
  split; [|apply remove_race_panics].
  intros m Hinv%reachable_inv; [|done]. split.
  - intros root st Hst. destruct (status_charge _ _ _ _ Hinv Hst) as (a&b&Ha&Hb&->&->&Hch).
    destruct (iv_bucket _ _ Hinv a (ex_intro _ root Ha)) as (b'&Hb'&Hle&_). simplify_eq.
    destruct (charge_parts_nonneg _ _ a Hinv) as (_&Ht&?). pose proof (msum_nonneg _ _ Ht). lia.
  - intros r (m'&->&_)%step_preserves; done.
Qed.

(** C33: the count is exact.  In the interleavings in which no change begins on
    an inode between the count of its bytes and its leaving the index, and no
    inode leaves the index between the two halves of a replacement ([Strict]), a
    bucket counts exactly the bytes allocated to the files of its root whenever
    no change and no removal is in flight. *)
Theorem quota_exact_when_quiet m root st :
  reachable Strict m → threads m = ∅ → removing m = None → status (quotas m) root = Some st →
  status_used_bytes st = domain_usage m root.
Proof.
  intros Hinv%reachable_inv Hth Hrm Hst; [|done].
  destruct (status_charge _ _ _ _ Hinv Hst) as (a&b&Ha&Hb&->&_&Hch).
  destruct (iv_bucket _ _ Hinv a (ex_intro _ root Ha)) as (b'&Hb'&_&Hex). simplify_eq.
  rewrite Hex, Hch, Hth, Hrm, msum_empty by done. simpl. lia.
Qed.

(** C40: [replace_logical_quotas] releases the catalog lock before it installs the
    new table, and closing the last handle of an unlinked file is not fenced:
    if that happens in between, the new bucket keeps counting the removed file's
    bytes.  Here no file is left, and the root refuses a single byte. *)
Theorem quota_replace_race_leaks :
  ∃ m, reachable Fenced m ∧ threads m = ∅ ∧ replacing m = None ∧ files m = ∅ ∧
    (∃ st, status (quotas m) 1 = Some st ∧ status_used_bytes st = 100 ∧ domain_usage m 1 = 0) ∧
    (reserve_change 1 0 1 (quotas m)).1 = Err NoSpace.
Proof.
  pose proof (full_reachable Fenced) as H.
  run_step H (step_snapshot Fenced _ full_tree).
  2-3: reflexivity. 2: apply NoDup_singleton.
  2: { apply list.NoDup_cons. split; [|apply NoDup_singleton]. by intros ?%list_elem_of_singleton. }
  2: by repeat constructor.
  2: { intros root ->%list_elem_of_singleton. by vm_compute. }
  run_step H (step_remove_count Fenced _ 2); [|by intros t p Hp|reflexivity].
  run_step H (step_remove_index Fenced _ 2 100); [|reflexivity|done].
  run_step H (step_remove_release Fenced _ O 100); [|reflexivity].
  run_step H (step_install Fenced _ revision_1 full_tree); [|reflexivity].
  eexists. split; [exact H|]. split_and!; [reflexivity..| |by vm_compute].
  eexists. split_and!; vm_compute; reflexivity.
Qed.

Section Witnesses.
Lemma quota_never_exceeded_witness :
  domain_usage full_machine 1 ≤ 100 ∧ ∀ r, step Fenced full_machine r → r ≠ Panic.
Proof.
  destruct quota_never_exceeded as [Hall _].
  destruct (Hall full_machine (full_reachable Fenced)) as [Hst Hp]. split; [|exact Hp].
  destruct (Hst 1 {| status_revision := revision_1; status_root_inode := 1;
                     status_limit_bytes := 100; status_used_bytes := 100 |}) as [Hle _]; [by vm_compute|exact Hle].
Defined.
Lemma quota_exact_when_quiet_witness : domain_usage full_machine 1 = 100.
Proof.
  symmetry.
  apply (quota_exact_when_quiet full_machine 1
    {| status_revision := revision_1; status_root_inode := 1; status_limit_bytes := 100; status_used_bytes := 100 |}
    (full_reachable Strict)); by vm_compute.
Defined.
End Witnesses.
End LogicalQuota.
