(* ===== verification/QuotaReplacement.v ===== *)
(** * Replacing the quota table

    [PosixCore::replace_logical_quotas] of crates/fastdup-posix/src/lib.rs up to
    the installation: the rules are checked, every quota tree is walked over the
    catalog, hard links that cross a boundary are refused, and unlinked files
    that are still open stay with the root that was charged for them.  The walk
    yields what [LogicalQuota.step_snapshot] assumes of it.

    A [BTreeMap<(InodeId, Vec<u8>), InodeId>] is the list of its entries in key
    order, the map of limits likewise; [fuel] bounds the walk of one tree. *)
From stdpp Require Import sorting.
From S2P Require Import Prelude Bytes MapSum LogicalQuota.
#[local] Open Scope Z_scope.

Module QuotaReplacement.
Import LogicalQuota.

Inductive FileKind := Directory | Regular | Symlink.
#[export] Instance FileKind_eq_dec : EqDecision FileKind.
Proof. solve_decision. Defined.
(** What the walk reads of an inode's state. *)
Record Inode := { kind : FileKind; link_count : Z; allocated_bytes : Z }.
Record Catalog := {
  inodes : gmap InodeId Inode;
  entries : list ((InodeId * bytes) * InodeId);
}.

(** [catalog.entries.range((inode, Vec::new())..)] *)
Fixpoint entries_from (inode : InodeId) (es : list ((InodeId * bytes) * InodeId))
    : list ((InodeId * bytes) * InodeId) :=
  match es with
  | [] => []
  | ((parent, name), child) :: es' => if parent <? inode then entries_from inode es' else es
  end.
(** The loop over the range, until [*parent != inode] *)
Fixpoint entries_of (inode : InodeId) (es : list ((InodeId * bytes) * InodeId)) : list InodeId :=
  match es with
  | [] => []
  | ((parent, _), child) :: es => if parent =? inode then child :: entries_of inode es else []
  end.
Definition children (c : Catalog) (inode : InodeId) : list InodeId :=
  entries_of inode (entries_from inode (entries c)).

(** [limits.insert], on the entries in key order *)
Fixpoint limits_insert (root : InodeId) (limit : Z) (limits : list (InodeId * Z)) : list (InodeId * Z) :=
  match limits with
  | [] => [(root, limit)]
  | (r, l) :: limits' =>
      if root <? r then (root, limit) :: limits
      else if root =? r then (root, limit) :: limits'
      else (r, l) :: limits_insert root limit limits'
  end.
Definition limits_contains (limits : list (InodeId * Z)) (root : InodeId) : bool :=
  existsb (λ rl, rl.1 =? root) limits.

(** The loop over the rules *)
Fixpoint collect_limits (c : Catalog) (rules : list LogicalQuotaRule) (limits : list (InodeId * Z))
    : outcome PosixError (list (InodeId * Z)) :=
  match rules with
  | [] => Ok limits
  | rule :: rules =>
      let root := rule_root_inode rule in
      reject_if (limits_contains limits root) InvalidArgument;;
      object ← ok_or (inodes c !! root) NoEntry;
      reject_if (negb (bool_decide (kind object = Directory))) NotDirectory;;
      collect_limits c rules (limits_insert root (rule_limit_bytes rule) limits)
  end.

(** [*root_usage = root_usage.checked_add(..)] *)
Definition charge_root (usage : gmap InodeId Z) (root : InodeId) (bytes : Z)
    : outcome PosixError (gmap InodeId Z) :=
  sum ← ok_or (checked_add u64_max (default 0 (usage !! root)) bytes) NoSpace;
  Ok (<[root := sum]> usage).

(** The walk of one root: [pending] is the stack, its top first *)
Fixpoint walk (fuel : nat) (c : Catalog) (limits : list (InodeId * Z)) (root : InodeId)
    (pending : list InodeId) (membership usage : gmap InodeId Z)
    : outcome PosixError (gmap InodeId InodeId * gmap InodeId Z) :=
  match pending with
  | [] => Ok (membership, usage)
  | inode :: pending =>
      match fuel with
      | O => Panic
      | S fuel =>
          reject_if (negb (inode =? root) && limits_contains limits inode) InvalidArgument;;
          match membership !! inode with
          | Some existing =>
              if negb (existing =? root) then Err InvalidArgument
              else walk fuel c limits root pending (<[inode := root]> membership) usage
          | None =>
              object ← ok_or (inodes c !! inode) InvalidArgument;
              usage ← (if bool_decide (kind object = Regular)
                       then charge_root usage root (allocated_bytes object) else Ok usage);
              walk fuel c limits root
                (if bool_decide (kind object = Directory) then reverse (children c inode) ++ pending
                 else pending)
                (<[inode := root]> membership) usage
          end
      end
  end.
Definition walk_fuel (c : Catalog) : nat := S (length (entries c)).
(** The loop over [limits.keys()] *)
Fixpoint walk_roots (c : Catalog) (limits : list (InodeId * Z)) (roots : list InodeId)
    (membership usage : gmap InodeId Z)
    : outcome PosixError (gmap InodeId InodeId * gmap InodeId Z) :=
  match roots with
  | [] => Ok (membership, usage)
  | root :: roots =>
      '(membership, usage) ← walk (walk_fuel c) c limits root [root] membership usage;
      walk_roots c limits roots membership usage
  end.

(** The loop over all entries: no link into a quota tree from outside it *)
Fixpoint check_links (membership : gmap InodeId InodeId) (es : list ((InodeId * bytes) * InodeId))
    : outcome PosixError () :=
  match es with
  | [] => Ok ()
  | ((parent, _), target) :: es =>
      reject_if match membership !! target with
                | Some root => negb (target =? root)
                               && negb (bool_decide (membership !! parent = Some root))
                | None => false
                end InvalidArgument;;
      check_links membership es
  end.
(** The loop over all inodes: unlinked regular files of a root that keeps its quota *)
Fixpoint collect_orphans (q : Quotas) (limits : list (InodeId * Z)) (objects : list (InodeId * Inode))
    (membership usage : gmap InodeId Z)
    : outcome PosixError (gmap InodeId InodeId * gmap InodeId Z) :=
  match objects with
  | [] => Ok (membership, usage)
  | (inode, object) :: objects =>
      if bool_decide (is_Some (membership !! inode)) then collect_orphans q limits objects membership usage
      else if negb (link_count object =? 0) || negb (bool_decide (kind object = Regular))
      then collect_orphans q limits objects membership usage
      else match root_for q inode with
           | None => collect_orphans q limits objects membership usage
           | Some root =>
               if limits_contains limits root then
                 usage ← charge_root usage root (allocated_bytes object);
                 collect_orphans q limits objects (<[inode := root]> membership) usage
               else collect_orphans q limits objects membership usage
           end
  end.

(** [replace_logical_quotas] up to [drop(catalog)] *)
Definition quota_snapshot (c : Catalog) (q : Quotas) (rules : list LogicalQuotaRule)
    : outcome PosixError snapshot :=
  limits ← collect_limits c rules [];
  '(membership, usage) ← walk_roots c limits (limits.*1) ∅ ∅;
  check_links membership (entries c);;
  '(membership, usage) ← collect_orphans q limits (map_to_list (inodes c)) membership usage;
  Ok {| snap_rules := limits; snap_members := map_to_list membership; snap_usage := usage |}.
(** [replace_logical_quotas] *)
Definition replace_logical_quotas (c : Catalog) (revision : bytes) (rules : list LogicalQuotaRule)
    : prog Quotas PosixError () :=
  q ← get_state;
  s ← pure (quota_snapshot c q rules);
  replace revision (snap_rules s) (snap_members s) (snap_usage s).

(** ** The catalog *)

(** Entries are in key order; a file holds no negative number of bytes. *)
Record catalog_ok (c : Catalog) : Prop := {
  co_sorted : StronglySorted Z.le (entries c).*1.*1;
  co_allocated i o : inodes c !! i = Some o → 0 ≤ allocated_bytes o;
}.

(** The inodes of a tree: through directories, from the root. *)
Inductive reaches (c : Catalog) (root : InodeId) : InodeId → Prop :=
  | reaches_root : reaches c root root
  | reaches_child d o name i :
      reaches c root d → inodes c !! d = Some o → kind o = Directory →
      ((d, name), i) ∈ entries c → reaches c root i.

Lemma entries_of_filter i es :
  StronglySorted Z.le es.*1.*1 → Forall (λ p, i ≤ p) es.*1.*1 →
  entries_of i es = snd <$> filter (λ e, e.1.1 = i) es.
Proof.
  induction es as [|[[p n] x] es IH]; simpl; intros Hs Hf; [done|].
  apply StronglySorted_inv in Hs as [Hs Hp]. apply Forall_cons_1 in Hf as [Hip Hf].
  rewrite filter_cons. destruct (Z.eqb_spec p i) as [->|Hne].
  - rewrite decide_True by done. rewrite fmap_cons. simpl. by rewrite IH.
  - rewrite decide_False by done. replace (filter _ es) with (@nil ((InodeId * bytes) * InodeId)); [done|].
    symmetry. apply elem_of_nil_inv. intros [[p' n'] x'] [Hp' He]%list_elem_of_filter. simpl in Hp'.
    assert (p ≤ p'); [|lia]. rewrite list.Forall_forall in Hp. apply Hp.
    apply list_elem_of_fmap. exists (p', n'). split; [done|]. apply list_elem_of_fmap. by exists ((p', n'), x').
Qed.
Lemma children_filter c i : catalog_ok c → children c i = snd <$> filter (λ e, e.1.1 = i) (entries c).
Proof.
  intros [Hs _]. unfold children. revert Hs. generalize (entries c). intros es.
  induction es as [|[[p n] x] es IH]; simpl; intros Hs; [done|].
  destruct (Z.ltb_spec p i) as [Hlt|Hge].
  - apply StronglySorted_inv in Hs as [Hs _]. rewrite filter_cons, decide_False by (simpl; lia). by apply IH.
  - apply (entries_of_filter i (((p, n), x) :: es)); [done|]. simpl. constructor; [done|].
    apply StronglySorted_inv in Hs as [_ Hp]. eapply list.Forall_impl; [done|]. simpl. intros. lia.
Qed.
Lemma elem_of_children c i x : catalog_ok c → x ∈ children c i ↔ ∃ name, ((i, name), x) ∈ entries c.
Proof.
  intros Hc. rewrite children_filter, list_elem_of_fmap by done. split.
  - intros ([[p n] y]&->&[Hp Hin]%list_elem_of_filter). simpl in *. subst. eauto.
  - intros [n Hin]. exists ((i, n), x). split; [done|]. by apply list_elem_of_filter.
Qed.

(** ** Termination of a walk *)

(** Entries whose directory has not been visited. *)
Definition open_entries (c : Catalog) (mem : gmap InodeId InodeId) : nat :=
  length (filter (λ e, mem !! e.1.1 = None) (entries c)).
Lemma open_entries_visit c mem i r : catalog_ok c → mem !! i = None →
  (open_entries c (<[i := r]> mem) + length (children c i) = open_entries c mem)%nat.
Proof.
  intros Hc Hi. rewrite children_filter, length_fmap by done. unfold open_entries.
  induction (entries c) as [|[[p n] x] es IH]; [done|]. rewrite !filter_cons. simpl.
  destruct (decide (p = i)) as [->|Hne].
  - rewrite lookup_insert_eq, (decide_False (P := Some r = None)), (decide_True (P := mem !! i = None)) by done.
    simpl. lia.
  - rewrite lookup_insert_ne by done. case_decide; simpl; lia.
Qed.
Lemma open_entries_le c mem : (open_entries c mem ≤ length (entries c))%nat.
Proof. unfold open_entries. apply length_filter. Qed.
Lemma open_entries_same c mem i r : mem !! i = Some r → open_entries c (<[i := r]> mem) = open_entries c mem.
Proof. intros. by rewrite insert_id. Qed.

(** ** What a membership charges *)
Definition usage_of (c : Catalog) (mem : gmap InodeId InodeId) (r : InodeId) : Z :=
  msum (λ i o, if decide (kind o = Regular ∧ mem !! i = Some r) then allocated_bytes o else 0) (inodes c).
Definition usage_exact (c : Catalog) (mem : gmap InodeId InodeId) (usage : gmap InodeId Z) : Prop :=
  ∀ r, default 0 (usage !! r) = usage_of c mem r.

Lemma usage_of_insert c mem i o root r : inodes c !! i = Some o → mem !! i = None →
  usage_of c (<[i := root]> mem) r =
    usage_of c mem r + (if decide (kind o = Regular ∧ root = r) then allocated_bytes o else 0).
Proof.
  intros Ho Hi. unfold usage_of.
  rewrite (msum_update (λ i o, if decide (kind o = Regular ∧ mem !! i = Some r) then allocated_bytes o else 0)
    _ _ i o Ho).
  - rewrite lookup_insert_eq, Hi. rewrite (decide_False (P := _ ∧ None = Some r)) by naive_solver.
    assert ((kind o = Regular ∧ Some root = Some r) ↔ (kind o = Regular ∧ root = r)) as Hiff by naive_solver.
    rewrite (decide_ext _ _ _ _ Hiff). lia.
  - intros k x Hk. by rewrite lookup_insert_ne.
Qed.
Lemma charge_exact c mem usage usage' i o root : usage_exact c mem usage →
  inodes c !! i = Some o → mem !! i = None →
  (if bool_decide (kind o = Regular) then charge_root usage root (allocated_bytes o) else Ok usage) = Ok usage' →
  usage_exact c (<[i := root]> mem) usage'.
Proof.
  intros Hu Ho Hi Hc r. rewrite (usage_of_insert c mem i o root r Ho Hi), <- (Hu r).
  case_bool_decide as Hk.
  - unfold charge_root in Hc. inv_run. destruct (decide (root = r)) as [->|Hne].
    + rewrite lookup_insert_eq, decide_True by done. simpl. done.
    + rewrite lookup_insert_ne, decide_False by naive_solver. lia.
  - simplify_eq. rewrite decide_False by naive_solver. lia.
Qed.
Lemma charge_root_no_panic usage root b : no_panic (charge_root usage root b).
Proof. unfold charge_root. apply no_panic_bind; [apply no_panic_ok_or|intros; apply no_panic_Ok]. Qed.

(** ** The walk of one tree *)
Record walking (c : Catalog) (root : InodeId) (mem0 : gmap InodeId InodeId) (pending : list InodeId)
    (mem : gmap InodeId InodeId) (usage : gmap InodeId Z) : Prop := {
  wk_inode i r : mem !! i = Some r → is_Some (inodes c !! i);
  wk_old i r : r ≠ root → mem !! i = Some r ↔ mem0 !! i = Some r;
  wk_new i : mem !! i = Some root → reaches c root i;
  wk_pending i : i ∈ pending → reaches c root i;
  wk_root : mem !! root = Some root ∨ root ∈ pending;
  wk_closed d o name i : mem !! d = Some root → inodes c !! d = Some o → kind o = Directory →
    ((d, name), i) ∈ entries c → mem !! i = Some root ∨ i ∈ pending;
  wk_usage : usage_exact c mem usage;
}.

(** An inode that the tree already has is dropped from the stack. *)
Lemma walking_seen c root mem0 i pending mem usage :
  walking c root mem0 (i :: pending) mem usage → mem !! i = Some root →
  walking c root mem0 pending (<[i := root]> mem) usage.
Proof.
  intros [H1 H2 H3 H4 H5 H6 H7] Hi. rewrite insert_id by done. split; try done.
  - intros j Hj. apply H4. by right.
  - destruct H5 as [|[->|]%elem_of_cons]; auto.
  - intros d o n j Hd Ho Hk He. destruct (H6 d o n j Hd Ho Hk He) as [|[->|]%elem_of_cons]; auto.
Qed.
(** A new inode joins the tree, and a directory's children join the stack. *)
Lemma walking_visit c root mem0 i o pending mem usage usage' : catalog_ok c →
  walking c root mem0 (i :: pending) mem usage → mem !! i = None → inodes c !! i = Some o →
  (if bool_decide (kind o = Regular) then charge_root usage root (allocated_bytes o) else Ok usage) = Ok usage' →
  walking c root mem0
    (if bool_decide (kind o = Directory) then reverse (children c i) ++ pending else pending)
    (<[i := root]> mem) usage'.
Proof.
  intros Hc [H1 H2 H3 H4 H5 H6 H7] Hi Ho Hu. assert (reaches c root i) as Hri by (apply H4; by left).
  assert (∀ x, x ∈ pending → x ∈ (if bool_decide (kind o = Directory) then reverse (children c i) ++ pending
    else pending)) as Hp by (intros x Hx; destruct (bool_decide (kind o = Directory)); [apply elem_of_app; by right|done]).
  split.
  - intros j r [[<- <-]|[_ Hj]]%lookup_insert_Some; [by eauto|by eapply H1].
  - intros j r Hr. destruct (decide (j = i)) as [->|Hj]; [|by rewrite lookup_insert_ne, H2 by done].
    rewrite lookup_insert_eq, <- H2, Hi by done. naive_solver.
  - intros j [[<- _]|[_ Hj]]%lookup_insert_Some; [done|by apply H3].
  - intros j Hj. destruct (bool_decide (kind o = Directory)) eqn:Hk; [|apply H4; by right].
    apply bool_decide_eq_true in Hk.
    apply elem_of_app in Hj as [Hj|Hj]; [|apply H4; by right].
    apply elem_of_reverse, elem_of_children in Hj as [n Hn]; [|done]. by eapply reaches_child.
  - destruct (decide (root = i)) as [<-|Hne]; [left; apply lookup_insert_eq|].
    destruct H5 as [Hr|[->|Hr]%elem_of_cons]; [left; by rewrite lookup_insert_ne|done|right; by apply Hp].
  - intros d o' n j Hd Ho' Hk He. destruct (decide (j = i)) as [->|Hj]; [left; apply lookup_insert_eq|].
    rewrite lookup_insert_ne by done. destruct (decide (d = i)) as [->|Hdi].
    + simplify_eq. right. rewrite bool_decide_eq_true_2 by done. apply elem_of_app. left.
      apply elem_of_reverse, elem_of_children; eauto.
    + rewrite lookup_insert_ne in Hd by done.
      destruct (H6 d o' n j Hd Ho' Hk He) as [|[->|]%elem_of_cons]; [by left|done|right; by apply Hp].
  - by eapply charge_exact.
Qed.

Lemma walk_spec c limits root mem0 fuel : catalog_ok c → ∀ pending mem usage,
  walking c root mem0 pending mem usage → (length pending + open_entries c mem ≤ fuel)%nat →
  no_panic (walk fuel c limits root pending mem usage) ∧
  ∀ mem' usage', walk fuel c limits root pending mem usage = Ok (mem', usage') →
    walking c root mem0 [] mem' usage'.
Proof.
  intros Hc. induction fuel as [|fuel IH]; intros pending mem usage Hw Hfuel.
  { destruct pending as [|i pending]; simpl in *; [|lia]. split; [apply no_panic_Ok|]. intros ? ? [= <- <-]. done. }
  destruct pending as [|i pending]; simpl in *; [split; [apply no_panic_Ok|]; intros ? ? [= <- <-]; done|].
  destruct (negb (i =? root) && limits_contains limits i); simpl; [split; [apply no_panic_Err|done]|].
  destruct (mem !! i) as [existing|] eqn:Hi.
  { destruct (Z.eqb_spec existing root) as [->|]; simpl; [|split; [apply no_panic_Err|done]].
    apply IH; [by apply walking_seen|]. rewrite open_entries_same by done. lia. }
  destruct (inodes c !! i) as [o|] eqn:Ho; simpl; [|split; [apply no_panic_Err|done]].
  destruct (if bool_decide (kind o = Regular) then charge_root usage root (allocated_bytes o) else Ok usage)
    as [usage1|e|] eqn:Hu; simpl; [|split; [apply no_panic_Err|done]|].
  2:{ case_bool_decide; [|done]. by apply charge_root_no_panic in Hu. }
  apply IH; [by eapply walking_visit|]. pose proof (open_entries_visit c mem i root Hc Hi).
  destruct (bool_decide (kind o = Directory)); rewrite ?length_app, ?length_reverse; lia.
Qed.

(** A finished walk has the tree, and nothing else is changed. *)
Lemma walking_done c root mem0 mem usage : walking c root mem0 [] mem usage →
  (∀ i, mem !! i = Some root ↔ reaches c root i).
Proof.
  intros [H1 H2 H3 H4 H5 H6 H7] i. split; [apply H3|].
  induction 1 as [|d o n j _ IH Ho Hk He]; [destruct H5 as [|?%elem_of_nil]; done|].
  destruct (H6 d o n j IH Ho Hk He) as [|?%elem_of_nil]; done.
Qed.

(** ** All trees *)
Record covered (c : Catalog) (roots : list InodeId) (mem : gmap InodeId InodeId) (usage : gmap InodeId Z)
    : Prop := {
  cv_inode i r : mem !! i = Some r → is_Some (inodes c !! i);
  cv_tree i r : mem !! i = Some r ↔ r ∈ roots ∧ reaches c r i;
  cv_usage : usage_exact c mem usage;
}.
Lemma covered_start c root roots mem usage : covered c roots mem usage → root ∉ roots →
  walking c root mem [root] mem usage.
Proof.
  intros [H1 H2 H3] Hr. assert (∀ i, mem !! i ≠ Some root) as Hno by (intros i [? _]%H2; done).
  split; try done.
  - intros i Hi. by destruct (Hno i).
  - intros i ->%list_elem_of_singleton. constructor.
  - right. by apply list_elem_of_singleton.
  - intros d o n i Hd. by destruct (Hno d).
Qed.
Lemma covered_next c root roots mem0 mem usage0 usage : covered c roots mem0 usage0 → root ∉ roots →
  walking c root mem0 [] mem usage → covered c (roots ++ [root]) mem usage.
Proof.
  intros H0 Hr Hw. pose proof (walking_done _ _ _ _ _ Hw) as Hd. destruct Hw as [H1 H2 _ _ _ _ H7].
  split; [done| |done]. intros i r. rewrite elem_of_app, list_elem_of_singleton.
  destruct (decide (r = root)) as [->|Hne]; [rewrite Hd; naive_solver|].
  rewrite H2, (cv_tree _ _ _ _ H0) by done. naive_solver.
Qed.
Lemma walk_roots_spec c limits roots : catalog_ok c → ∀ old mem usage,
  NoDup (old ++ roots) → covered c old mem usage →
  no_panic (walk_roots c limits roots mem usage) ∧
  ∀ mem' usage', walk_roots c limits roots mem usage = Ok (mem', usage') →
    covered c (old ++ roots) mem' usage'.
Proof.
  intros Hc. induction roots as [|root roots IH]; intros old mem usage Hnd Hcv; cbn [walk_roots].
  { split; [apply no_panic_Ok|]. intros ? ? [= <- <-]. by rewrite app_nil_r. }
  assert (root ∉ old) as Hr.
  { apply list.NoDup_app in Hnd as (_&Hd&_). intros Hin. apply (Hd root Hin). by left. }
  destruct (walk_spec c limits root mem (walk_fuel c) Hc [root] mem usage) as [Hnp Hok].
  { by eapply covered_start. }
  { unfold walk_fuel. simpl. pose proof (open_entries_le c mem). lia. }
  destruct (walk (walk_fuel c) c limits root [root] mem usage) as [[mem1 usage1]|e|]; [| |done].
  - destruct (IH (old ++ [root]) mem1 usage1) as [Hnp' Hok'].
    { by rewrite <- app_assoc. }
    { eapply covered_next; [done|done|by apply Hok]. }
    split; [exact Hnp'|]. intros mem' usage' Hrun%Hok'. by rewrite <- app_assoc in Hrun.
  - split; [apply no_panic_Err|done].
Qed.

(** ** Rules, links and unlinked files *)
Definition rule_entry (r : LogicalQuotaRule) : InodeId * Z := (rule_root_inode r, rule_limit_bytes r).

Lemma limits_contains_spec limits r : limits_contains limits r = true ↔ r ∈ limits.*1.
Proof.
  unfold limits_contains. rewrite existsb_exists, list_elem_of_fmap. split.
  - intros (x&Hx&E). zbool. exists x. by rewrite list_elem_of_In.
  - intros (x&->&Hx). exists x. rewrite <- list_elem_of_In. split; [done|apply Z.eqb_refl].
Qed.
Lemma limits_insert_perm r l limits : r ∉ limits.*1 → limits_insert r l limits ≡ₚ (r, l) :: limits.
Proof.
  induction limits as [|[r' l'] limits IH]; simpl; intros Hr; [done|].
  apply not_elem_of_cons in Hr as [Hne Hr]. destruct (r <? r'); [done|].
  rewrite (proj2 (Z.eqb_neq r r')) by done. rewrite (IH Hr). by constructor.
Qed.
Lemma collect_limits_spec c rules : ∀ limits,
  no_panic (collect_limits c rules limits) ∧
  ∀ limits', collect_limits c rules limits = Ok limits' → NoDup limits.*1 →
    NoDup limits'.*1 ∧ limits' ≡ₚ (rule_entry <$> rules) ++ limits ∧
    ∀ r, r ∈ rules → ∃ o, inodes c !! rule_root_inode r = Some o ∧ kind o = Directory.
Proof.
  induction rules as [|r rules IH]; intros limits; cbn [collect_limits].
  { split; [apply no_panic_Ok|]. intros ? [= <-] ?. split_and!; [done..|set_solver]. }
  destruct (limits_contains limits (rule_root_inode r)) eqn:Hc; [split; [apply no_panic_Err|done]|].
  rewrite reject_if_false, Ok_bind.
  destruct (inodes c !! rule_root_inode r) as [o|] eqn:Ho; [|split; [apply no_panic_Err|done]].
  rewrite ok_or_Some, Ok_bind. case_bool_decide as Hk; [|split; [apply no_panic_Err|done]]. cbn [negb].
  rewrite reject_if_false, Ok_bind. destruct (IH (limits_insert (rule_root_inode r) (rule_limit_bytes r) limits))
    as [Hnp Hok]. split; [done|]. intros limits' Hrun Hnd.
  assert (rule_root_inode r ∉ limits.*1) as Hr by (rewrite <- limits_contains_spec; congruence).
  pose proof (limits_insert_perm _ (rule_limit_bytes r) _ Hr) as Hperm.
  destruct (Hok _ Hrun) as (Hnd'&Hp'&Hdir).
  { rewrite Hperm. simpl. by apply list.NoDup_cons. }
  split_and!; [done| |].
  - rewrite Hp', Hperm. simpl. symmetry. apply Permutation_middle.
  - intros r' [->|Hin]%elem_of_cons; eauto.
Qed.

Lemma check_links_spec mem es : no_panic (check_links mem es) ∧
  (check_links mem es = Ok () → ∀ p n t r, ((p, n), t) ∈ es → mem !! t = Some r → t ≠ r → mem !! p = Some r).
Proof.
  induction es as [|[[p n] t] es [IH1 IH2]]; cbn [check_links]; [split; [apply no_panic_Ok|set_solver]|].
  split; [apply no_panic_bind; [apply no_panic_reject_if|done]|].
  intros Hrun. inv_ok. intros p' n' t' r' [[= -> -> ->]|Hin]%elem_of_cons Ht Hne; [|by eapply IH2].
  rewrite Ht in *. match goal with H : _ && _ = false |- _ => apply andb_false_iff in H as [H|H] end.
  - apply negb_false_iff in H. zbool. done.
  - apply negb_false_iff, bool_decide_eq_true in H. done.
Qed.

Definition orphan_of (q : Quotas) (limits : list (InodeId * Z)) (i : InodeId) (o : Inode) (r : InodeId) : Prop :=
  link_count o = 0 ∧ kind o = Regular ∧ root_for q i = Some r ∧ r ∈ limits.*1.

Lemma collect_orphans_spec c q limits objects : NoDup objects.*1 →
  (∀ i o, (i, o) ∈ objects → inodes c !! i = Some o) → ∀ mem usage, usage_exact c mem usage →
  no_panic (collect_orphans q limits objects mem usage) ∧
  ∀ mem' usage', collect_orphans q limits objects mem usage = Ok (mem', usage') →
    usage_exact c mem' usage' ∧
    ∀ i r, mem' !! i = Some r ↔
      mem !! i = Some r ∨ mem !! i = None ∧ ∃ o, (i, o) ∈ objects ∧ orphan_of q limits i o r.
Proof.
  intros Hnd Hin. induction objects as [|[i o] objects IH]; intros mem usage Hu; cbn [collect_orphans].
  { split; [apply no_panic_Ok|]. intros ? ? [= <- <-]. split; [done|]. set_solver. }
  apply list.NoDup_cons in Hnd as [Hni Hnd]. assert (∀ o', (i, o') ∉ objects) as Hno.
  { intros o' Ho'. apply Hni. apply list_elem_of_fmap. by exists (i, o'). }
  specialize (IH Hnd ltac:(intros; apply Hin; by right)).
  assert ((mem !! i = None → ∀ r, ¬ orphan_of q limits i o r) →
    no_panic (collect_orphans q limits objects mem usage) ∧
    ∀ mem' usage', collect_orphans q limits objects mem usage = Ok (mem', usage') →
      usage_exact c mem' usage' ∧ ∀ i' r, mem' !! i' = Some r ↔ mem !! i' = Some r ∨
        mem !! i' = None ∧ ∃ o', (i', o') ∈ (i, o) :: objects ∧ orphan_of q limits i' o' r) as Hskip.
  { intros Hnot. destruct (IH mem usage Hu) as [Hnp Hok]. split; [done|].
    intros mem' usage' Hrun. destruct (Hok _ _ Hrun) as [Hu' Hiff]. split; [done|]. intros i' r.
    rewrite Hiff. setoid_rewrite elem_of_cons. naive_solver. }
  case_bool_decide as Hm; [apply Hskip; intros Hi; rewrite Hi in Hm; by destruct Hm|].
  apply eq_None_not_Some in Hm.
  destruct (Z.eqb_spec (link_count o) 0) as [Hl|Hl]; [|apply Hskip; intros _ r [? _]; done]. cbn [negb orb].
  case_bool_decide as Hk; [|apply Hskip; intros _ r (_&?&_); done]. cbn [negb].
  destruct (root_for q i) as [root|] eqn:Hr; [|apply Hskip; intros _ r (_&_&?&_); congruence].
  destruct (limits_contains limits root) eqn:Hc.
  2:{ apply Hskip. intros _ r (_&_&Hr'&Hlim). simplify_eq. apply limits_contains_spec in Hlim. congruence. }
  apply limits_contains_spec in Hc. clear Hskip.
  destruct (charge_root usage root (allocated_bytes o)) as [usage1|e|] eqn:Hch; [|split; [apply no_panic_Err|done]|].
  2:{ by apply charge_root_no_panic in Hch. }
  rewrite Ok_bind. destruct (IH (<[i := root]> mem) usage1) as [Hnp Hok].
  { eapply charge_exact; [done|apply Hin; by left|done|]. by rewrite bool_decide_eq_true_2. }
  split; [done|]. intros mem' usage' Hrun. destruct (Hok _ _ Hrun) as [Hu' Hiff]. split; [done|]. intros i' r.
  rewrite Hiff. setoid_rewrite elem_of_cons. destruct (decide (i' = i)) as [->|Hne].
  - rewrite lookup_insert_eq, Hm. unfold orphan_of. rewrite Hr. naive_solver.
  - rewrite lookup_insert_ne by done. naive_solver.
Qed.

(** ** The snapshot *)

(** The files of the quota machine: the regular inodes and what they hold. *)
Definition files_of (c : Catalog) : gmap InodeId Z :=
  omap (λ o, if decide (kind o = Regular) then Some (allocated_bytes o) else None) (inodes c).
Lemma member_usage_of c mem r : member_usage (files_of c) (map_to_list mem) r = usage_of c mem r.
Proof.
  unfold member_usage, files_of, usage_of. rewrite msum_omap. apply msum_ext. intros i o Ho.
  destruct (decide (kind o = Regular)) as [Hk|Hk]; simpl.
  - case_bool_decide as Hm; rewrite elem_of_map_to_list in Hm.
    + by rewrite decide_True.
    + rewrite decide_False by naive_solver. done.
  - by rewrite decide_False by naive_solver.
Qed.
Lemma covered_empty c : covered c [] ∅ ∅.
Proof.
  split; [done|set_solver|]. intros r. unfold usage_of. rewrite lookup_empty. simpl. symmetry.
  rewrite (msum_ext _ (λ _ _, 0)); [|intros; rewrite decide_False by naive_solver; done].
  induction (inodes c) as [|i o m Hi IH] using map_ind; [apply msum_empty|]. by rewrite msum_insert_new.
Qed.

Lemma quota_snapshot_spec c q rules : catalog_ok c →
  no_panic (quota_snapshot c q rules) ∧
  ∀ s, quota_snapshot c q rules = Ok s → ∃ mem,
    NoDup (snap_rules s).*1 ∧ snap_rules s ≡ₚ (rule_entry <$> rules) ∧ snap_members s = map_to_list mem ∧
    usage_exact c mem (snap_usage s) ∧
    (∀ i r, mem !! i = Some r ↔ r ∈ rule_root_inode <$> rules ∧ reaches c r i ∨
       (∀ r', r' ∈ rule_root_inode <$> rules → ¬ reaches c r' i) ∧
       ∃ o, inodes c !! i = Some o ∧ orphan_of q (rule_entry <$> rules) i o r) ∧
    (∀ p n t r, ((p, n), t) ∈ entries c → r ∈ rule_root_inode <$> rules → reaches c r t → t ≠ r →
       reaches c r p).
Proof.
  intros Hc. unfold quota_snapshot. destruct (collect_limits_spec c rules []) as [Hnp1 Hok1].
  destruct (collect_limits c rules []) as [limits|e|]; [|split; [apply no_panic_Err|done]|done].
  destruct (Hok1 limits eq_refl) as (Hnd&Hperm&_); [constructor|]. rewrite app_nil_r in Hperm.
  assert (∀ r, r ∈ limits.*1 ↔ r ∈ rule_root_inode <$> rules) as Hroots.
  { intros r. rewrite Hperm, <- list_fmap_compose. done. }
  rewrite Ok_bind. destruct (walk_roots_spec c limits limits.*1 Hc [] ∅ ∅ Hnd (covered_empty c)) as [Hnp2 Hok2].
  destruct (walk_roots c limits limits.*1 ∅ ∅) as [[mem1 usage1]|e|]; [|split; [apply no_panic_Err|done]|done].
  destruct (Hok2 _ _ eq_refl) as [_ Htree Hu1]. simpl in Htree. rewrite Ok_bind.
  destruct (check_links_spec mem1 (entries c)) as [Hnp3 Hok3].
  destruct (check_links mem1 (entries c)) as [[]|e|]; [|split; [apply no_panic_Err|done]|done]. rewrite Ok_bind.
  destruct (collect_orphans_spec c q limits (map_to_list (inodes c)) (NoDup_fst_map_to_list _)
    ltac:(intros i o; apply elem_of_map_to_list) mem1 usage1 Hu1) as [Hnp4 Hok4].
  destruct (collect_orphans _ _ _ _ _) as [[mem2 usage2]|e|]; [|split; [apply no_panic_Err|done]|done].
  destruct (Hok4 _ _ eq_refl) as [Hu2 Hmem]. rewrite Ok_bind. split; [apply no_panic_Ok|].
  intros s [= <-]. exists mem2. cbn [snap_rules snap_members snap_usage]. split_and!; [done..| |].
  - intros i r. rewrite Hmem, Htree, Hroots. apply or_iff_compat_l.
    assert (mem1 !! i = None ↔ ∀ r', r' ∈ rule_root_inode <$> rules → ¬ reaches c r' i) as ->.
    { rewrite eq_None_not_Some. split.
      - intros Hno r' Hr' Hre. apply Hno. exists r'. by rewrite Htree, Hroots.
      - intros Hno [r' [Hr' Hre]%Htree]. apply Hroots in Hr'. by eapply Hno. }
    setoid_rewrite elem_of_map_to_list. unfold orphan_of. by setoid_rewrite Hperm.
  - intros p n t r He Hr Ht Hne. eapply Htree. eapply Hok3; [done|done| |done]. rewrite Htree, Hroots. done.
Qed.

(** C37: The catalog walk of [replace_logical_quotas] always terminates without
    panic, and when it succeeds its result is what the quota machine assumes: an
    inode belongs to a root iff it lies in the root's directory tree, or lies in
    no quota tree and is an unlinked open file the root was charged for before;
    a quota tree is entered only through its root, so no hard link crosses its
    boundary; and the usage of each root is exactly what its files hold, so
    taking the snapshot is a step of the quota machine. *)
Theorem quota_replacement_refines c q rules :
  catalog_ok c → Forall (λ r, is_u64 (rule_limit_bytes r)) rules →
  no_panic (quota_snapshot c q rules) ∧
  ∀ s, quota_snapshot c q rules = Ok s →
    (∀ i r, (i, r) ∈ snap_members s ↔
       r ∈ rule_root_inode <$> rules ∧ reaches c r i ∨
       (∀ r', r' ∈ rule_root_inode <$> rules → ¬ reaches c r' i) ∧
       ∃ o, inodes c !! i = Some o ∧ orphan_of q (rule_entry <$> rules) i o r) ∧
    (∀ p n t r, ((p, n), t) ∈ entries c → r ∈ rule_root_inode <$> rules → reaches c r t → t ≠ r →
       reaches c r p) ∧
    ∀ mode m, threads m = ∅ → replacing m = None → files m = files_of c →
      step mode m (Ok {| quotas := quotas m; files := files m; threads := threads m;
                         replacing := Some s; removing := removing m |}).
Proof.
  intros Hc Hu. destruct (quota_snapshot_spec c q rules Hc) as [Hnp Hok]. split; [done|].
  intros s Hs. destruct (Hok s Hs) as (mem&Hnd&Hperm&Hm&Hex&Hiff&Hlinks). split_and!; [|done|].
  - intros i r. by rewrite Hm, elem_of_map_to_list, Hiff.
  - intros mode m Hth Hre Hf. apply step_snapshot; try done.
    + rewrite Hm. apply NoDup_fst_map_to_list.
    + rewrite Hperm. apply Forall_fmap. eapply list.Forall_impl; [exact Hu|]. done.
    + intros root _. rewrite Hf, Hm, member_usage_of. apply Hex.
Qed.

(** A tree of two directories, with a file in each, and a file outside. *)
Definition example_catalog : Catalog := {|
  inodes := list_to_map [
    (1, {| kind := Directory; link_count := 2; allocated_bytes := 0 |});
    (2, {| kind := Directory; link_count := 2; allocated_bytes := 0 |});
    (3, {| kind := Regular; link_count := 1; allocated_bytes := 4096 |});
    (4, {| kind := Regular; link_count := 1; allocated_bytes := 100 |});
    (5, {| kind := Regular; link_count := 1; allocated_bytes := 7 |})];
  entries := [((0, [x64]), 1); ((0, [x65]), 5); ((1, [x61]), 2); ((1, [x62]), 3); ((2, [x61]), 4)] |}.
Lemma example_catalog_ok : catalog_ok example_catalog.
Proof.
  split.
  - simpl. repeat constructor; lia.
  - intros i o Ho. apply elem_of_list_to_map_2 in Ho.
    repeat (apply elem_of_cons in Ho as [[= -> ->]|Ho]; [simpl; lia|]). by apply elem_of_nil in Ho.
Qed.
Lemma quota_replacement_refines_witness :
  ∃ s, quota_snapshot example_catalog quotas_default [{| rule_root_inode := 1; rule_limit_bytes := 10000 |}] = Ok s ∧
    snap_usage s !! 1 = Some 4196 ∧ (4, 1) ∈ snap_members s ∧ (5, 1) ∉ snap_members s.
Proof.
  destruct (quota_replacement_refines example_catalog quotas_default
    [{| rule_root_inode := 1; rule_limit_bytes := 10000 |}]) as [_ Hok];
    [apply example_catalog_ok|repeat constructor; by vm_compute|].
  destruct (quota_snapshot example_catalog quotas_default [{| rule_root_inode := 1; rule_limit_bytes := 10000 |}])
    as [s| |] eqn:Hs; [|exfalso; vm_compute in Hs; discriminate Hs..].
  destruct (Hok s eq_refl) as (Hmem&_). exists s. split_and!; [done| | |].
  - vm_compute in Hs. injection Hs as <-. by vm_compute.
  - apply Hmem. left. split; [by left|].
    eapply (reaches_child _ _ 2); [eapply (reaches_child _ _ 1); [constructor|..]|..]; try done.
    + apply (list_elem_of_lookup_2 _ 2). reflexivity.
    + apply (list_elem_of_lookup_2 _ 4). reflexivity.
  - vm_compute in Hs. injection Hs as <-. cbn [snap_members]. intros Hin.
    repeat (apply elem_of_cons in Hin as [Hin|Hin]; [discriminate|]). by apply elem_of_nil in Hin.
Defined.
End QuotaReplacement.
