(* ===== verification/ReductionFilter.v ===== *)
(** * Lookup hints of the exact index

    [BlockedBloomHint] and [PerWorkerLocationHintCache] of
    crates/fastdup-store/src/reduction_filter.rs: a Bloom filter whose probes
    stay within one cache line, and a four-way set-associative cache of
    unverified locations.  Both are hints, but a filter that forgets a key
    loses deduplication, and a cache that returns another key's location sends
    the caller to the wrong place.  The tables are shown to answer exactly what
    was recorded in them.

    [LongLivedArena::try_filled] and [try_reserve_exact] either grant the whole
    table or fail: the flag [granted] says which. *)
From S2P Require Import Prelude Bytes.

Module ReductionFilter.
Definition CACHE_WAYS : Z := 4.
Definition BLOOM_BITS_PER_BLOCK : Z := 512.
Definition BLOOM_BYTES_PER_BLOCK : Z := BLOOM_BITS_PER_BLOCK / 8.
Definition BLOOM_TARGET_BITS_PER_KEY : Z := 10.
Definition BLOOM_PROBES : Z := 7.

Inductive BloomLookupHint := DefinitelyAbsent | RequiresExactLookup.
Inductive HintStructureError :=
  | ZeroCapacity
  | CapacityOverflow
  | BudgetExceeded (required_bytes maximum_bytes : Z)
  | AllocationFailed.

Definition ChunkId := bytes.
(** [UnverifiedLocationHint] wraps an ordinal. *)
Definition UnverifiedLocationHint := Z.

(** ** Arithmetic of [u64] and [usize] *)
Definition wrapping (z : Z) : Z := z mod 2 ^ 64.
Definition rotate_left (x n : Z) : Z :=
  Z.lor (wrapping (Z.shiftl x n)) (Z.shiftr x (64 - n)).
Definition div_ceil (a b : Z) : Z := a / b + (if a mod b =? 0 then 0 else 1).
Definition is_power_of_two (n : Z) : bool := (0 <? n) && (n =? 2 ^ Z.log2 n).
Definition checked_next_power_of_two (n : Z) : option Z :=
  try_from_u usize_max (if n <=? 1 then 1 else 2 ^ Z.log2_up n).

(** ** Hashing *)

(** [const fn mix64] *)
Definition mix64 (value : Z) : Z :=
  let value := Z.lxor value (Z.shiftr value 30) in
  let value := wrapping (value * 0xbf58476d1ce4e5b9) in
  let value := Z.lxor value (Z.shiftr value 27) in
  let value := wrapping (value * 0x94d049bb133111eb) in
  Z.lxor value (Z.shiftr value 31).
Definition read_lane {E} (b : bytes) (offset : Z) : outcome E Z :=
  end_ ← expect (checked_add usize_max offset 8);
  lane ← index_range b offset end_;
  Ok (le_val lane).
Definition length_u64 {E} (logical_length : Z) : outcome E Z :=
  expect (try_from_u u64_max logical_length).
Definition key_hashes_bytes {E} (chunk_id : bytes) (logical_length : Z) : outcome E (Z * Z) :=
  lane0 ← read_lane chunk_id 0;
  lane1 ← read_lane chunk_id 8;
  lane2 ← read_lane chunk_id 16;
  lane3 ← read_lane chunk_id 24;
  let first := mix64 (Z.lxor (Z.lxor lane0 (rotate_left lane2 17)) logical_length) in
  let second := mix64 (Z.lxor (Z.lxor lane1 (rotate_left lane3 41)) (rotate_left logical_length 29)) in
  Ok (first, second).
Definition key_hashes {E} (chunk_id : ChunkId) (logical_length : Z) : outcome E (Z * Z) :=
  length ← length_u64 logical_length;
  key_hashes_bytes chunk_id length.
Definition table_index {E} (hash table_length : Z) : outcome E Z :=
  assert_true (is_power_of_two table_length);;
  mask ← expect (try_from_u u64_max (table_length - 1));
  expect (try_from_u usize_max (Z.land hash mask)).

Definition ensure_budget (required_bytes maximum_bytes : Z) : outcome HintStructureError () :=
  reject_if (maximum_bytes <? required_bytes) (BudgetExceeded required_bytes maximum_bytes).
(** [LongLivedArena::try_filled] and [allocate_filled] *)
Definition allocate_filled {A} (granted : bool) (count : Z) (value : A)
    : outcome HintStructureError (list A) :=
  if granted then Ok (replicate (Z.to_nat count) value) else Err AllocationFailed.

(** ** The blocked Bloom filter *)

(** [BloomBlock]: eight 64-bit words *)
Abbreviation BloomBlock := (list Z).
Definition BloomBlock_default : BloomBlock := replicate 8 0.
Record BlockedBloomHint := {
  blocks : list BloomBlock;
  expected_keys : Z;
}.

(** [fn visit_bloom_bits]: the visitor is called for seven (word, mask) pairs *)
Definition visit_probe {E S} (base stride : Z) (visitor : S → Z → Z → outcome E S) (s : S) (probe : Z)
    : outcome E S :=
  let position := Z.land (wrapping (base + wrapping (probe * stride))) 511 in
  word ← expect (try_from_u usize_max (Z.shiftr position 6));
  bit ← expect (try_from_u u32_max (Z.land position 63));
  visitor s word (Z.shiftl 1 bit).
Fixpoint visit_probes {E S} (base stride : Z) (visitor : S → Z → Z → outcome E S) (s : S)
    (probes : list Z) : outcome E S :=
  match probes with
  | [] => Ok s
  | probe :: probes =>
      s ← visit_probe base stride visitor s probe;
      visit_probes base stride visitor s probes
  end.
Definition visit_bloom_bits {E S} (hash : Z) (visitor : S → Z → Z → outcome E S) (s : S) : outcome E S :=
  let base := Z.land hash 511 in
  let hash := Z.shiftr hash 9 in
  let stride := Z.lor (Z.shiftl (Z.land hash 255) 1) 1 in
  visit_probes base stride visitor s (seqZ 0 BLOOM_PROBES).

(** [BlockedBloomHint::required_bytes] *)
Definition required_bytes (expected_keys : Z) : outcome HintStructureError Z :=
  reject_if (expected_keys =? 0) ZeroCapacity;;
  required_bits ← ok_or (checked_mul usize_max expected_keys BLOOM_TARGET_BITS_PER_KEY) CapacityOverflow;
  let minimum_blocks := Z.max (div_ceil required_bits BLOOM_BITS_PER_BLOCK) 1 in
  block_count ← ok_or (checked_next_power_of_two minimum_blocks) CapacityOverflow;
  ok_or (checked_mul usize_max block_count BLOOM_BYTES_PER_BLOCK) CapacityOverflow.
(** [BlockedBloomHint::new] *)
Definition bloom_new (granted : bool) (expected_keys maximum_bytes : Z)
    : outcome HintStructureError BlockedBloomHint :=
  required ← required_bytes expected_keys;
  let block_count := required / BLOOM_BYTES_PER_BLOCK in
  bytes ← expect (checked_mul usize_max block_count BLOOM_BYTES_PER_BLOCK);
  ensure_budget bytes maximum_bytes;;
  blocks ← allocate_filled granted block_count BloomBlock_default;
  Ok {| blocks := blocks; expected_keys := expected_keys |}.
(** [block.words[word] |= mask] *)
Definition set_bits {E} (words : BloomBlock) (word mask : Z) : outcome E BloomBlock :=
  w ← vec_at words word;
  vec_set words word (Z.lor w mask).
(** [BlockedBloomHint::insert_hint] *)
Definition insert_hint {E} (f : BlockedBloomHint) (chunk_id : ChunkId) (logical_length : Z)
    : outcome E BlockedBloomHint :=
  '(block_hash, bit_hash) ← key_hashes chunk_id logical_length;
  block_index ← table_index block_hash (blen (blocks f));
  block ← vec_at (blocks f) block_index;
  block ← visit_bloom_bits bit_hash set_bits block;
  blocks ← vec_set (blocks f) block_index block;
  Ok {| blocks := blocks; expected_keys := expected_keys f |}.
(** [all_set &= block.words[word] & mask != 0] *)
Definition test_bits {E} (words : BloomBlock) (all_set : bool) (word mask : Z) : outcome E bool :=
  w ← vec_at words word;
  Ok (all_set && negb (Z.land w mask =? 0)).
(** [BlockedBloomHint::probe_for_exact_lookup] *)
Definition probe_for_exact_lookup {E} (f : BlockedBloomHint) (chunk_id : ChunkId) (logical_length : Z)
    : outcome E BloomLookupHint :=
  '(block_hash, bit_hash) ← key_hashes chunk_id logical_length;
  block_index ← table_index block_hash (blen (blocks f));
  block ← vec_at (blocks f) block_index;
  all_set ← visit_bloom_bits bit_hash (test_bits block) true;
  Ok (if (all_set : bool) then RequiresExactLookup else DefinitelyAbsent).
(** [BlockedBloomHint::allocated_bytes] *)
Definition bloom_allocated_bytes {E} (f : BlockedBloomHint) : outcome E Z :=
  expect (checked_mul usize_max (blen (blocks f)) BLOOM_BYTES_PER_BLOCK).

(** ** The location cache *)
Record CacheSet := {
  chunk_ids : list bytes;
  logical_lengths : list Z;
  location_ordinals : list Z;
  valid_mask : Z;
  next_victim : Z;
}.
Definition CacheSet_default : CacheSet := {|
  chunk_ids := replicate 4 (zeros 32); logical_lengths := replicate 4 0;
  location_ordinals := replicate 4 0; valid_mask := 0; next_victim := 0 |}.
(** [size_of::<CacheSet>()], asserted in the source *)
Definition CACHE_SET_BYTES : Z := 256.
Record PerWorkerLocationHintCache := {
  sets : list CacheSet;
  expected_entries : Z;
}.

Definition way_mask {E} (way : Z) : outcome E Z :=
  assert_true (way <? CACHE_WAYS);;
  shift ← expect (try_from_u u32_max way);
  Ok (Z.shiftl 1 shift).
(** [(0..CACHE_WAYS).find(..)] *)
Fixpoint find_way {E} (p : Z → outcome E bool) (ways : list Z) : outcome E (option Z) :=
  match ways with
  | [] => Ok None
  | way :: ways => found ← p way; if (found : bool) then Ok (Some way) else find_way p ways
  end.
Definition way_valid {E} (set : CacheSet) (way : Z) : outcome E bool :=
  mask ← way_mask way;
  Ok (negb (Z.land (valid_mask set) mask =? 0)).
Definition way_matches {E} (set : CacheSet) (chunk_id : bytes) (logical_length way : Z) : outcome E bool :=
  way_valid set way
  &&? (l ← vec_at (logical_lengths set) way; Ok (l =? logical_length))
  &&? (id ← vec_at (chunk_ids set) way; Ok (bool_decide (id = chunk_id))).
Definition matching_way {E} (set : CacheSet) (chunk_id : bytes) (logical_length : Z)
    : outcome E (option Z) :=
  find_way (way_matches set chunk_id logical_length) (seqZ 0 CACHE_WAYS).
Definition first_invalid_way {E} (set : CacheSet) : outcome E (option Z) :=
  find_way (λ way, negb <$> way_valid set way) (seqZ 0 CACHE_WAYS).

(** [PerWorkerLocationHintCache::new] *)
Definition cache_new (granted : bool) (expected_entries maximum_bytes : Z)
    : outcome HintStructureError PerWorkerLocationHintCache :=
  reject_if (expected_entries =? 0) ZeroCapacity;;
  let minimum_sets := div_ceil expected_entries CACHE_WAYS in
  set_count ← ok_or (checked_next_power_of_two minimum_sets) CapacityOverflow;
  required ← ok_or (checked_mul usize_max set_count CACHE_SET_BYTES) CapacityOverflow;
  ensure_budget required maximum_bytes;;
  sets ← allocate_filled granted set_count CacheSet_default;
  Ok {| sets := sets; expected_entries := expected_entries |}.

(** The set after a key is written to a way. *)
Definition fill_way {E} (set : CacheSet) (way victim : Z) (chunk_id : bytes) (logical_length : Z)
    (location : UnverifiedLocationHint) : outcome E CacheSet :=
  ids ← vec_set (chunk_ids set) way chunk_id;
  lengths ← vec_set (logical_lengths set) way logical_length;
  ordinals ← vec_set (location_ordinals set) way location;
  mask ← way_mask way;
  Ok {| chunk_ids := ids; logical_lengths := lengths; location_ordinals := ordinals;
        valid_mask := Z.lor (valid_mask set) mask; next_victim := victim |}.
(** [PerWorkerLocationHintCache::remember_unverified], on the selected set *)
Definition remember_in_set {E} (set : CacheSet) (chunk_id : bytes) (logical_length : Z)
    (location : UnverifiedLocationHint) : outcome E CacheSet :=
  found ← matching_way set chunk_id logical_length;
  match found with
  | Some way =>
      ordinals ← vec_set (location_ordinals set) way location;
      Ok {| chunk_ids := chunk_ids set; logical_lengths := logical_lengths set;
            location_ordinals := ordinals; valid_mask := valid_mask set;
            next_victim := next_victim set |}
  | None =>
      invalid ← first_invalid_way set;
      match invalid with
      | Some way => fill_way set way (next_victim set) chunk_id logical_length location
      | None =>
          bumped ← add_or_panic u8_max (next_victim set) 1;
          fill_way set (next_victim set) (bumped mod CACHE_WAYS) chunk_id logical_length location
      end
  end.
Definition remember_unverified {E} (c : PerWorkerLocationHintCache) (chunk_id : ChunkId)
    (logical_length : Z) (location : UnverifiedLocationHint) : outcome E PerWorkerLocationHintCache :=
  logical_length ← length_u64 logical_length;
  '(set_hash, _) ← key_hashes_bytes chunk_id logical_length;
  set_index ← table_index set_hash (blen (sets c));
  set ← vec_at (sets c) set_index;
  set ← remember_in_set set chunk_id logical_length location;
  sets ← vec_set (sets c) set_index set;
  Ok {| sets := sets; expected_entries := expected_entries c |}.
(** [PerWorkerLocationHintCache::probe_unverified] *)
Definition probe_unverified {E} (c : PerWorkerLocationHintCache) (chunk_id : ChunkId)
    (logical_length : Z) : outcome E (option UnverifiedLocationHint) :=
  logical_length ← length_u64 logical_length;
  '(set_hash, _) ← key_hashes_bytes chunk_id logical_length;
  set_index ← table_index set_hash (blen (sets c));
  set ← vec_at (sets c) set_index;
  found ← matching_way set chunk_id logical_length;
  match found with
  | None => Ok None
  | Some way => location ← vec_at (location_ordinals set) way; Ok (Some location)
  end.
(** [PerWorkerLocationHintCache::allocated_bytes] *)
Definition cache_allocated_bytes {E} (c : PerWorkerLocationHintCache) : outcome E Z :=
  expect (checked_mul usize_max (blen (sets c)) CACHE_SET_BYTES).

(** ** Tables *)

Lemma is_power_of_two_spec n : is_power_of_two n = true ↔ ∃ k, 0 ≤ k ∧ n = 2 ^ k.
Proof.
  unfold is_power_of_two. rewrite andb_true_iff, Z.ltb_lt, Z.eqb_eq. split.
  - intros [_ ->]. exists (Z.log2 n). split; [apply Z.log2_nonneg|done].
  - intros (k&Hk&->). rewrite Z.log2_pow2 by done. split; [by apply Z.pow_pos_nonneg|done].
Qed.

Lemma next_power_of_two_spec n p : checked_next_power_of_two n = Some p →
  n ≤ p ∧ 1 ≤ p ≤ usize_max ∧ is_power_of_two p = true.
Proof.
  unfold checked_next_power_of_two. intros [-> Hp]%try_from_u_Some. case_match; zbool.
  - split; [lia|]. by split.
  - destruct (Z.log2_up_spec n) as [_ Hn]; [lia|].
    assert (0 < 2 ^ Z.log2_up n) by (apply Z.pow_pos_nonneg; [lia|apply Z.log2_up_nonneg]).
    split_and!; [done|lia|done|]. apply is_power_of_two_spec. exists (Z.log2_up n).
    split; [apply Z.log2_up_nonneg|done].
Qed.

Lemma table_index_in {E} hash n : is_power_of_two n = true → n ≤ usize_max →
  0 < n ∧ @table_index E hash n = Ok (hash mod n).
Proof.
  intros Hp Hn. pose proof Hp as (k&Hk&->)%is_power_of_two_spec.
  assert (0 < 2 ^ k) by by apply Z.pow_pos_nonneg. split; [done|]. unfold table_index. rewrite Hp.
  change (assert_true true) with (@Ok E () ()). unfold usize_max in *.
  rewrite Ok_bind, try_from_u_ok, expect_Some, Ok_bind by lia.
  replace (2 ^ k - 1) with (Z.ones k) by (rewrite Z.ones_equiv; lia). rewrite Z.land_ones by done.
  pose proof (Z.mod_pos_bound hash (2 ^ k)). by rewrite try_from_u_ok, expect_Some by lia.
Qed.

Lemma div_ceil_bound a b : 0 < b → 0 ≤ a → a ≤ b * div_ceil a b.
Proof.
  intros Hb Ha. unfold div_ceil. pose proof (Z.div_mod a b). pose proof (Z.mod_pos_bound a b).
  case_match; zbool; nia.
Qed.

(** ** Keys *)
Abbreviation key := (bytes * Z)%type.
Definition key_ok (k : key) : Prop := length k.1 = 32%nat ∧ is_usize k.2.
Definition hashes (k : key) : Z * Z :=
  match @key_hashes unit k.1 k.2 with Ok p => p | _ => (0, 0) end.

Lemma read_lane_in {E} (b : bytes) o :
  0 ≤ o → o + 8 ≤ blen b → blen b ≤ 32 → @read_lane E b o = Ok (le_val (sub b o 8)).
Proof.
  intros. unfold read_lane. rewrite checked_add_ok, expect_Some, Ok_bind by (unfold usize_max, u64_max; lia).
  rewrite index_range_in by lia. by replace (o + 8 - o) with 8 by lia.
Qed.
Lemma key_hashes_in {E} k : key_ok k →
  @length_u64 E k.2 = Ok k.2 ∧ @key_hashes_bytes E k.1 k.2 = Ok (hashes k) ∧
  @key_hashes E k.1 k.2 = Ok (hashes k).
Proof.
  destruct k as [id l]. intros [Hid [Hl1 Hl2]]. simpl in *. unfold usize_max in *.
  assert (blen id = 32) by (change (blen id) with (Z.of_nat (length id)); lia).
  assert (∀ F, @length_u64 F l = Ok l) as Hlen
    by (intros; unfold length_u64; by rewrite try_from_u_ok, expect_Some by lia).
  split; [apply Hlen|]. assert (∀ F G, ∃ p, @key_hashes_bytes F id l = Ok p ∧ @key_hashes_bytes G id l = Ok p) as Hb.
  { intros F G. eexists. unfold key_hashes_bytes. rewrite !read_lane_in by lia. rewrite !Ok_bind. done. }
  destruct (Hb E unit) as (p&Hp&Hp'). unfold hashes, key_hashes. simpl.
  rewrite !Hlen, !Ok_bind, Hp, Hp'. done.
Qed.

(** ** The bits of a key

    The seven positions of a hash in its block, and the visitor run over them. *)
Definition positions (hash : Z) : list Z :=
  (λ i, (hash mod 512 + i * (2 * ((hash / 512) mod 256) + 1)) mod 512) <$> seqZ 0 7.
Fixpoint visit_positions {E S} (visitor : S → Z → Z → outcome E S) (s : S) (ps : list Z) : outcome E S :=
  match ps with
  | [] => Ok s
  | p :: ps => s ← visitor s (p / 64) (2 ^ (p mod 64)); visit_positions visitor s ps
  end.

Lemma positions_range hash q : q ∈ positions hash → 0 ≤ q < 512.
Proof. intros (i&->&_)%list_elem_of_fmap. apply Z.mod_pos_bound. lia. Qed.

Lemma visit_probe_spec {E S} base stride (visitor : S → Z → Z → outcome E S) s i :
  0 ≤ base < 512 → 0 ≤ stride < 512 → 0 ≤ i < 7 →
  visit_probe base stride visitor s i =
    visitor s ((base + i * stride) mod 512 / 64) (2 ^ ((base + i * stride) mod 512 mod 64)).
Proof.
  intros Hb Hs Hi. unfold visit_probe, wrapping.
  rewrite (Z.mod_small (i * stride)), (Z.mod_small (base + _)) by nia.
  change 511 with (Z.ones 9). rewrite Z.land_ones by lia. change (2 ^ 9) with 512.
  pose proof (Z.mod_pos_bound (base + i * stride) 512 ltac:(lia)) as Hp.
  set (p := (base + i * stride) mod 512) in *.
  rewrite Z.shiftr_div_pow2 by lia. change (2 ^ 6) with 64. change 63 with (Z.ones 6).
  rewrite Z.land_ones by lia. change (2 ^ 6) with 64.
  assert (p / 64 ≤ 8) by (apply Z.div_le_upper_bound; lia).
  pose proof (Z.mod_pos_bound p 64 ltac:(lia)).
  unfold u32_max, usize_max, u64_max. rewrite !try_from_u_ok by lia. rewrite !expect_Some, !Ok_bind.
  by rewrite Z.shiftl_mul_pow2, Z.mul_1_l by lia.
Qed.
Lemma lor_double_1 x : 0 ≤ x → Z.lor (x * 2) 1 = 2 * x + 1.
Proof. intros. rewrite Z.mul_comm. by destruct x. Qed.

Lemma visit_bloom_bits_spec {E S} hash (visitor : S → Z → Z → outcome E S) s :
  visit_bloom_bits hash visitor s = visit_positions visitor s (positions hash).
Proof.
  unfold visit_bloom_bits, positions, BLOOM_PROBES. change 511 with (Z.ones 9). change 255 with (Z.ones 8).
  rewrite !Z.land_ones, Z.shiftr_div_pow2, Z.shiftl_mul_pow2 by lia.
  change (2 ^ 9) with 512. change (2 ^ 8) with 256. change (2 ^ 1) with 2.
  pose proof (Z.mod_pos_bound hash 512 ltac:(lia)) as Hb.
  pose proof (Z.mod_pos_bound (hash / 512) 256 ltac:(lia)) as Hs. rewrite lor_double_1 by lia.
  set (base := hash mod 512) in *. set (stride := 2 * ((hash / 512) mod 256) + 1) in *.
  assert (∀ l, Forall (λ i, 0 ≤ i < 7) l → ∀ s,
    visit_probes base stride visitor s l = visit_positions visitor s ((λ i, (base + i * stride) mod 512) <$> l))
    as Hl.
  { induction 1 as [|i l Hi _ IH]; intros s'; [done|]. simpl. rewrite visit_probe_spec by lia.
    destruct (visitor _ _ _); [apply IH|done..]. }
  apply Hl. apply list.Forall_forall. intros i Hi%elem_of_seqZ. lia.
Qed.

(** The stride is odd, so the seven positions are distinct. *)
Lemma strides_distinct :
  forallb (λ x, forallb (λ d, negb ((d * (2 * x + 1)) mod 512 =? 0)) (seqZ 1 6)) (seqZ 0 256) = true.
Proof. vm_compute. reflexivity. Qed.
Lemma stride_distinct x d : 0 ≤ x < 256 → 1 ≤ d < 7 → (d * (2 * x + 1)) mod 512 ≠ 0.
Proof.
  intros Hx Hd. pose proof strides_distinct as H. rewrite forallb_forall in H.
  specialize (H x ltac:(apply list_elem_of_In, elem_of_seqZ; lia)). rewrite forallb_forall in H.
  specialize (H d ltac:(apply list_elem_of_In, elem_of_seqZ; lia)). zbool. done.
Qed.
Lemma positions_distinct hash : NoDup (positions hash).
Proof.
  unfold positions. pose proof (Z.mod_pos_bound (hash / 512) 256 ltac:(lia)) as Hs.
  set (x := (hash / 512) mod 256) in *. set (base := hash mod 512).
  assert (∀ i j, 0 ≤ i → i < j → j < 7 →
    (base + i * (2 * x + 1)) mod 512 ≠ (base + j * (2 * x + 1)) mod 512) as Hlt.
  { intros i j Hi Hij Hj Heq. apply (stride_distinct x (j - i)); [lia..|].
    replace ((j - i) * (2 * x + 1)) with ((base + j * (2 * x + 1)) - (base + i * (2 * x + 1))) by ring.
    by rewrite Zminus_mod, Heq, Z.sub_diag. }
  assert (∀ i j, 0 ≤ i < 7 → 0 ≤ j < 7 →
    (base + i * (2 * x + 1)) mod 512 = (base + j * (2 * x + 1)) mod 512 → i = j) as Hinj.
  { intros i j Hi Hj Heq. destruct (Z.lt_trichotomy i j) as [H|[H|H]]; [|done|].
    - by destruct (Hlt i j); lia.
    - by destruct (Hlt j i); lia. }
  apply NoDup_fmap_2_strong; [|apply NoDup_seqZ].
  intros i j Hi%elem_of_seqZ Hj%elem_of_seqZ. apply Hinj; lia.
Qed.

Lemma positions_length hash : length (positions hash) = 7%nat.
Proof. apply length_fmap. Qed.
#[local] Opaque positions.

(** ** The filter as a set of bits *)
Definition block_bit (words : BloomBlock) (q : Z) : bool :=
  Z.testbit (default 0 (words !! Z.to_nat (q / 64))) (q mod 64).

Lemma land_pow2_zero w b : 0 ≤ b → (Z.land w (2 ^ b) =? 0) = negb (Z.testbit w b).
Proof.
  intros Hb. destruct (Z.testbit w b) eqn:Hw; simpl.
  - apply Z.eqb_neq. intros H. assert (Z.testbit (Z.land w (2 ^ b)) b = true) as Ht
      by (rewrite Z.land_spec, Hw, Z.pow2_bits_true by done; done).
    by rewrite H, Z.bits_0 in Ht.
  - apply Z.eqb_eq, Z.bits_inj_0. intros n. rewrite Z.land_spec, Z.pow2_bits_eqb by done.
    destruct (Z.eqb_spec b n) as [->|]; by rewrite ?Hw, ?andb_false_r.
Qed.
Lemma position_split q : 0 ≤ q < 512 → 0 ≤ q / 64 < 8 ∧ 0 ≤ q mod 64 < 64 ∧ q = 64 * (q / 64) + q mod 64.
Proof.
  intros. split_and!; [apply Z.div_pos; lia|apply Z.div_lt_upper_bound; lia
    |apply Z.mod_pos_bound; lia|apply Z.mod_pos_bound; lia|apply Z.div_mod; lia].
Qed.
Lemma block_word (words : BloomBlock) q : length words = 8%nat → 0 ≤ q < 512 →
  ∃ w, words !! Z.to_nat (q / 64) = Some w ∧ block_bit words q = Z.testbit w (q mod 64).
Proof.
  intros Hl Hq. destruct (position_split q Hq) as (?&_&_).
  destruct (lookup_lt_is_Some_2 words (Z.to_nat (q / 64))) as [w Hw]; [lia|].
  exists w. unfold block_bit. by rewrite Hw.
Qed.

Lemma test_bits_spec {E} words a q : length words = 8%nat → 0 ≤ q < 512 →
  @test_bits E words a (q / 64) (2 ^ (q mod 64)) = Ok (a && block_bit words q).
Proof.
  intros Hl Hq. destruct (block_word words q Hl Hq) as (w&Hw&->). unfold test_bits.
  rewrite (vec_at_in _ _ _ Hw), Ok_bind, land_pow2_zero by (apply Z.mod_pos_bound; lia).
  by rewrite negb_involutive.
Qed.
Lemma set_bits_spec {E} words q : length words = 8%nat → 0 ≤ q < 512 →
  ∃ words', @set_bits E words (q / 64) (2 ^ (q mod 64)) = Ok words' ∧ length words' = 8%nat ∧
    ∀ p, 0 ≤ p < 512 → block_bit words' p = block_bit words p || (p =? q).
Proof.
  intros Hl Hq. destruct (block_word words q Hl Hq) as (w&Hw&_).
  destruct (position_split q Hq) as (?&?&Eq). unfold set_bits.
  rewrite (vec_at_in _ _ _ Hw), Ok_bind, vec_set_in
    by (change (blen words) with (Z.of_nat (length words)); lia).
  eexists. split; [done|]. split; [by rewrite length_insert|]. intros p Hp.
  destruct (position_split p Hp) as (?&?&Ep). unfold block_bit.
  destruct (Z.eq_dec (p / 64) (q / 64)) as [Hd|Hd].
  - rewrite Hd, list_lookup_insert_eq, Hw by lia. simpl. rewrite Z.lor_spec, Z.pow2_bits_eqb by lia.
    f_equal. apply eq_true_iff_eq. rewrite !Z.eqb_eq. lia.
  - rewrite list_lookup_insert_ne by lia. rewrite (proj2 (Z.eqb_neq p q)) by (intros ->; done).
    by rewrite orb_false_r.
Qed.

Lemma visit_test {E} words ps a : length words = 8%nat → Forall (λ q, 0 ≤ q < 512) ps →
  @visit_positions E _ (test_bits words) a ps = Ok (a && forallb (block_bit words) ps).
Proof.
  intros Hl Hps. revert a. induction Hps as [|q ps Hq _ IH]; intros a; simpl; [by rewrite andb_true_r|].
  by rewrite test_bits_spec, Ok_bind, IH, andb_assoc.
Qed.
Lemma visit_set {E} words ps : length words = 8%nat → Forall (λ q, 0 ≤ q < 512) ps →
  ∃ words', @visit_positions E _ set_bits words ps = Ok words' ∧ length words' = 8%nat ∧
    ∀ p, 0 ≤ p < 512 → (block_bit words' p = true ↔ block_bit words p = true ∨ p ∈ ps).
Proof.
  intros Hl Hps. revert words Hl. induction Hps as [|q ps Hq _ IH]; intros words Hl; simpl.
  { exists words. split_and!; [done..|]. set_solver. }
  destruct (@set_bits_spec E words q Hl Hq) as (w1&->&Hl1&H1). rewrite Ok_bind.
  destruct (IH w1 Hl1) as (w2&->&Hl2&H2). exists w2. split_and!; [done..|]. intros p Hp.
  rewrite H2, H1, orb_true_iff, Z.eqb_eq, elem_of_cons by done. tauto.
Qed.

Definition block_of (f : BlockedBloomHint) (k : key) : Z := (hashes k).1 mod blen (blocks f).
(** The filter's bits are the bits of the inserted keys. *)
Record filter_holds (f : BlockedBloomHint) (keys : list key) : Prop := {
  fh_pow2 : is_power_of_two (blen (blocks f)) = true;
  fh_size : blen (blocks f) ≤ usize_max;
  fh_words : Forall (λ words, length words = 8%nat) (blocks f);
  fh_bits i words q : blocks f !! i = Some words → 0 ≤ q < 512 →
    block_bit words q = true ↔
    ∃ k, k ∈ keys ∧ block_of f k = Z.of_nat i ∧ q ∈ positions (hashes k).2;
}.

(** The block a key selects exists. *)
Lemma filter_block f keys k : filter_holds f keys →
  (∀ E, @table_index E (hashes k).1 (blen (blocks f)) = Ok (block_of f k)) ∧
  ∃ words, blocks f !! Z.to_nat (block_of f k) = Some words ∧ length words = 8%nat ∧
    0 ≤ block_of f k < blen (blocks f).
Proof.
  intros H. split; [intros E; by apply table_index_in; destruct H|].
  destruct (@table_index_in unit (hashes k).1 _ (fh_pow2 _ _ H) (fh_size _ _ H)) as [Hpos _].
  pose proof (Z.mod_pos_bound (hashes k).1 _ Hpos) as Hb. fold (block_of f k) in Hb.
  destruct (lookup_lt_is_Some_2 (blocks f) (Z.to_nat (block_of f k))) as [words Hw].
  { change (blen (blocks f)) with (Z.of_nat (length (blocks f))) in Hb. lia. }
  exists words. split_and!; [done| |lia..]. by apply (Forall_lookup_1 _ _ _ _ (fh_words _ _ H) Hw).
Qed.
Lemma positions_ranges hash : Forall (λ q, 0 ≤ q < 512) (positions hash).
Proof. apply list.Forall_forall. apply positions_range. Qed.

Lemma insert_hint_holds {E} f keys k : filter_holds f keys → key_ok k →
  ∃ f', @insert_hint E f k.1 k.2 = Ok f' ∧ filter_holds f' (k :: keys) ∧
    blen (blocks f') = blen (blocks f).
Proof.
  intros H Hk. destruct (@key_hashes_in E k Hk) as (_&_&Hh).
  destruct (filter_block f keys k H) as (Hi&words&Hw&Hl&Hb). unfold insert_hint. rewrite Hh, Ok_bind.
  destruct (hashes k) as [h1 h2] eqn:Hhk. simpl in Hi. cbv beta iota. rewrite Hi, Ok_bind.
  rewrite (vec_at_in _ _ _ Hw), Ok_bind, visit_bloom_bits_spec.
  destruct (@visit_set E words (positions h2) Hl (positions_ranges h2)) as (words'&->&Hl'&Hbits).
  rewrite Ok_bind, vec_set_in, Ok_bind by lia. eexists. split; [done|]. simpl.
  assert (blen (<[Z.to_nat (block_of f k):=words']> (blocks f)) = blen (blocks f)) as Hlen.
  { apply blen_insert. }
  split; [|done]. destruct H as [Hp Hs Hf Hq]. split; simpl.
  { by rewrite Hlen. }
  { by rewrite Hlen. }
  { by apply Forall_insert. }
  intros i w q Hi' Hqr. setoid_rewrite elem_of_cons.
  assert (∀ k', block_of {| blocks := <[Z.to_nat (block_of f k):=words']> (blocks f);
    expected_keys := expected_keys f |} k' = block_of f k') as Hbo
    by (intros k'; unfold block_of at 1; simpl; by rewrite Hlen).
  setoid_rewrite Hbo. clear Hbo.
  destruct (decide (i = Z.to_nat (block_of f k))) as [->|Hne].
  - rewrite list_lookup_insert_eq in Hi' by (by eapply lookup_lt_Some). simplify_eq.
    rewrite Hbits, (Hq _ _ _ Hw Hqr) by done. rewrite Z2Nat.id by lia. split.
    + intros [(k'&?&?&?)|?]; [exists k'; auto|]. exists k. rewrite Hhk. auto.
    + intros (k'&[->|?]&?&?); [right; by rewrite Hhk in *|left; eauto].
  - rewrite list_lookup_insert_ne in Hi' by done. rewrite (Hq _ _ _ Hi' Hqr). split.
    + intros (k'&?&?&?). eauto 10.
    + intros (k'&[->|?]&Hb'&?); [|eauto]. destruct Hne. rewrite Hb'. lia.
Qed.

Lemma probe_holds {E} f keys k : filter_holds f keys → key_ok k →
  ∃ r, @probe_for_exact_lookup E f k.1 k.2 = Ok r ∧
    (r = RequiresExactLookup ↔ ∀ q, q ∈ positions (hashes k).2 →
       ∃ k', k' ∈ keys ∧ block_of f k' = block_of f k ∧ q ∈ positions (hashes k').2).
Proof.
  intros H Hk. destruct (@key_hashes_in E k Hk) as (_&_&Hh).
  destruct (filter_block f keys k H) as (Hi&words&Hw&Hl&Hb). unfold probe_for_exact_lookup.
  rewrite Hh, Ok_bind. destruct (hashes k) as [h1 h2] eqn:Hhk. simpl in Hi. cbv beta iota. rewrite Hi, Ok_bind.
  rewrite (vec_at_in _ _ _ Hw), Ok_bind, visit_bloom_bits_spec.
  rewrite visit_test, Ok_bind by (done || apply positions_ranges). eexists. split; [done|].
  rewrite andb_true_l. simpl.
  assert (forallb (block_bit words) (positions h2) = true ↔ ∀ q, q ∈ positions h2 →
       ∃ k', k' ∈ keys ∧ block_of f k' = block_of f k ∧ q ∈ positions (hashes k').2) as <-.
  { rewrite forallb_forall. setoid_rewrite <- list_elem_of_In.
    assert (∀ q, q ∈ positions h2 → (block_bit words q = true ↔
       ∃ k', k' ∈ keys ∧ block_of f k' = block_of f k ∧ q ∈ positions (hashes k').2)) as Hq.
    { intros q Hq. rewrite (fh_bits _ _ H _ _ _ Hw) by by eapply positions_range. by rewrite Z2Nat.id by lia. }
    split; intros Hall q Hin; apply Hq; auto. }
  by destruct (forallb _ _).
Qed.

Lemma bloom_new_holds granted n m f : 0 ≤ n → bloom_new granted n m = Ok f →
  filter_holds f [] ∧ ∃ bytes, (∀ E, @bloom_allocated_bytes E f = Ok bytes) ∧ bytes ≤ m ∧
    BLOOM_TARGET_BITS_PER_KEY * n ≤ 8 * bytes.
Proof.
  unfold bloom_new, required_bytes, ensure_budget, allocate_filled. intros Hn H. inv_run.
  match goal with Hp : checked_next_power_of_two _ = Some _ |- _ => apply next_power_of_two_spec in Hp as (Hge&Hr&Hp) end.
  unfold BLOOM_TARGET_BITS_PER_KEY, BLOOM_BITS_PER_BLOCK in *. change BLOOM_BYTES_PER_BLOCK with 64 in *.
  rewrite Z.div_mul in * by lia. destruct granted; simplify_eq.
  match goal with Hp : is_power_of_two ?x = true |- _ => rename x into c end.
  assert (blen (replicate (Z.to_nat c) BloomBlock_default) = c) as Hlen by (apply blen_replicate; lia).
  split.
  - split; cbn [blocks]; [by rewrite Hlen|rewrite Hlen; lia| |].
    + by apply Forall_replicate.
    + intros i words q [-> _]%lookup_replicate Hq. split; [|by intros (?&?%elem_of_nil&_)].
      destruct (position_split q Hq) as (?&?&_). unfold block_bit, BloomBlock_default.
      rewrite (lookup_replicate_2 8) by lia. simpl. by rewrite Z.bits_0.
  - exists (c * 64). split_and!; [intros E; unfold bloom_allocated_bytes; cbn [blocks]; rewrite Hlen|lia|].
    + change BLOOM_BYTES_PER_BLOCK with 64. by rewrite checked_mul_ok, expect_Some by lia.
    + pose proof (div_ceil_bound (n * 10) 512). lia.
Qed.

Fixpoint insert_hints {E} (f : BlockedBloomHint) (keys : list key) : outcome E BlockedBloomHint :=
  match keys with
  | [] => Ok f
  | k :: keys => f ← insert_hint f k.1 k.2; insert_hints f keys
  end.
Lemma insert_hints_holds {E} f keys old : filter_holds f old → Forall key_ok keys →
  ∃ f', @insert_hints E f keys = Ok f' ∧ filter_holds f' (reverse keys ++ old) ∧
    blen (blocks f') = blen (blocks f).
Proof.
  intros Hf Hk. revert f old Hf. induction Hk as [|k keys Hk _ IH]; intros f old Hf; simpl; [by exists f|].
  destruct (@insert_hint_holds E f old k Hf Hk) as (f1&->&Hf1&Hl1). rewrite Ok_bind.
  destruct (IH f1 _ Hf1) as (f2&->&Hf2&Hl2). exists f2. rewrite reverse_cons, <- app_assoc. simpl.
  split_and!; [done..|congruence].
Qed.

(** ** The cache as a map of recorded locations *)

(** What a way of a set holds. *)
Definition entry (set : CacheSet) (w : nat) : option (key * Z) :=
  if Z.testbit (valid_mask set) (Z.of_nat w) then
    match chunk_ids set !! w, logical_lengths set !! w, location_ordinals set !! w with
    | Some id, Some l, Some loc => Some ((id, l), loc)
    | _, _, _ => None
    end
  else None.
Record set_wf (set : CacheSet) : Prop := {
  sw_ids : length (chunk_ids set) = 4%nat;
  sw_lengths : length (logical_lengths set) = 4%nat;
  sw_locations : length (location_ordinals set) = 4%nat;
  sw_victim : 0 ≤ next_victim set < 4;
}.

Lemma set_ways set w : set_wf set → (w < 4)%nat →
  ∃ id l loc, chunk_ids set !! w = Some id ∧ logical_lengths set !! w = Some l ∧
    location_ordinals set !! w = Some loc ∧
    entry set w = if Z.testbit (valid_mask set) (Z.of_nat w) then Some ((id, l), loc) else None.
Proof.
  intros [H1 H2 H3 _] Hw.
  destruct (lookup_lt_is_Some_2 (chunk_ids set) w) as [id Hid]; [lia|].
  destruct (lookup_lt_is_Some_2 (logical_lengths set) w) as [l Hl]; [lia|].
  destruct (lookup_lt_is_Some_2 (location_ordinals set) w) as [loc Hloc]; [lia|].
  exists id, l, loc. unfold entry. rewrite Hid, Hl, Hloc. done.
Qed.
Lemma way_mask_in {E} w : 0 ≤ w < 4 → @way_mask E w = Ok (2 ^ w).
Proof.
  intros Hw. unfold way_mask, CACHE_WAYS. rewrite (proj2 (Z.ltb_lt w 4)) by lia.
  change (@assert_true E true) with (@Ok E () ()). rewrite Ok_bind, try_from_u_ok, expect_Some, Ok_bind
    by (unfold u32_max; lia).
  by rewrite Z.shiftl_mul_pow2, Z.mul_1_l by lia.
Qed.
Lemma way_valid_in {E} set w : 0 ≤ w < 4 → @way_valid E set w = Ok (Z.testbit (valid_mask set) w).
Proof.
  intros Hw. unfold way_valid. rewrite way_mask_in, Ok_bind, land_pow2_zero by lia.
  by rewrite negb_involutive.
Qed.
Lemma way_matches_in {E} set id l w : set_wf set → 0 ≤ w < 4 →
  @way_matches E set id l w =
    Ok (bool_decide (fst <$> entry set (Z.to_nat w) = Some (id, l))).
Proof.
  intros Hs Hw. unfold way_matches. rewrite way_valid_in by done.
  destruct (set_ways set (Z.to_nat w) Hs) as (id'&l'&loc&Hid&Hl&_&->); [lia|]. rewrite Z2Nat.id by lia.
  destruct (Z.testbit _ _); [|done]. rewrite (vec_at_in _ _ _ Hl), Ok_bind.
  destruct (Z.eqb_spec l' l) as [->|Hne]; simpl.
  - rewrite (vec_at_in _ _ _ Hid), Ok_bind. f_equal. apply bool_decide_ext. naive_solver.
  - f_equal. symmetry. apply bool_decide_eq_false. naive_solver.
Qed.
Lemma find_way_spec {E} (p : Z → outcome E bool) (g : Z → bool) ways :
  (∀ w, w ∈ ways → p w = Ok (g w)) →
  ∃ r, find_way p ways = Ok r ∧
    match r with Some w => w ∈ ways ∧ g w = true | None => ∀ w, w ∈ ways → g w = false end.
Proof.
  induction ways as [|w ways IH]; intros Hp; simpl; [exists None; set_solver|].
  rewrite Hp, Ok_bind by set_solver. destruct (g w) eqn:Hg; [exists (Some w); set_solver|].
  destruct IH as (r&->&Hr); [set_solver|]. exists r. split; [done|]. destruct r; set_solver.
Qed.
Lemma matching_way_spec {E} set id l : set_wf set →
  ∃ r, @matching_way E set id l = Ok r ∧
    match r with
    | Some w => 0 ≤ w < 4 ∧ ∃ loc, entry set (Z.to_nat w) = Some ((id, l), loc)
    | None => ∀ w loc, entry set w ≠ Some ((id, l), loc)
    end.
Proof.
  intros Hs. unfold matching_way.
  destruct (find_way_spec (E := E) (way_matches set id l)
    (λ w, bool_decide (fst <$> entry set (Z.to_nat w) = Some (id, l))) (seqZ 0 CACHE_WAYS)) as (r&->&Hr).
  { intros w Hw%elem_of_seqZ. unfold CACHE_WAYS in Hw. apply way_matches_in; [done|lia]. }
  exists r. split; [done|]. destruct r as [w|].
  - destruct Hr as [Hw%elem_of_seqZ Hb%bool_decide_eq_true]. unfold CACHE_WAYS in Hw. split; [lia|].
    destruct (entry set (Z.to_nat w)) as [[k loc]|]; simplify_eq/=. eauto.
  - intros w loc He. assert (w < 4)%nat as Hw.
    { unfold entry in He. destruct (Z.testbit _ _); [|done].
      destruct (chunk_ids set !! w) eqn:Hid; [|done]. apply lookup_lt_Some in Hid. destruct Hs. lia. }
    specialize (Hr (Z.of_nat w)). rewrite Nat2Z.id, He in Hr.
    rewrite bool_decide_eq_true_2 in Hr by done. discriminate Hr. apply elem_of_seqZ. unfold CACHE_WAYS. lia.
Qed.

Lemma fill_way_spec {E} set v victim k loc : set_wf set → 0 ≤ v < 4 → 0 ≤ victim < 4 →
  ∃ set', @fill_way E set v victim k.1 k.2 loc = Ok set' ∧ set_wf set' ∧
    entry set' (Z.to_nat v) = Some (k, loc) ∧ ∀ w, w ≠ Z.to_nat v → entry set' w = entry set w.
Proof.
  intros [H1 H2 H3 H4] Hv Hvi. unfold fill_way.
  rewrite !vec_set_length, !Ok_bind, way_mask_in, Ok_bind by (done || lia).
  eexists. split; [done|]. split; [split; simpl; rewrite ?length_insert; done|].
  assert (∀ n, Z.testbit (Z.lor (valid_mask set) (2 ^ v)) n = Z.testbit (valid_mask set) n || (v =? n)) as Hbit
    by (intros n; by rewrite Z.lor_spec, Z.pow2_bits_eqb by lia).
  split.
  - unfold entry. simpl. rewrite Z2Nat.id, Hbit, Z.eqb_refl, orb_true_r by lia.
    rewrite !list_lookup_insert_eq by lia. by destruct k.
  - intros w Hw. unfold entry. simpl. rewrite Hbit, (proj2 (Z.eqb_neq v (Z.of_nat w))), orb_false_r by lia.
    by rewrite !list_lookup_insert_ne by done.
Qed.

Definition distinct_keys (set : CacheSet) : Prop := ∀ w w' k loc loc',
  entry set w = Some (k, loc) → entry set w' = Some (k, loc') → w = w'.

Lemma remember_in_set_spec {E} set k loc : set_wf set → distinct_keys set →
  ∃ set' v, @remember_in_set E set k.1 k.2 loc = Ok set' ∧ set_wf set' ∧
    entry set' v = Some (k, loc) ∧ (∀ w, w ≠ v → entry set' w = entry set w) ∧
    (∀ w loc', w ≠ v → entry set w ≠ Some (k, loc')).
Proof.
  intros Hs Hd. unfold remember_in_set.
  destruct (@matching_way_spec E set k.1 k.2 Hs) as (r&->&Hr). rewrite Ok_bind, <- surjective_pairing in *.
  destruct r as [v|].
  { destruct Hr as (Hv&loc0&He). pose proof Hs as [H1 H2 H3 H4].
    rewrite vec_set_length, Ok_bind by lia.
    eexists _, (Z.to_nat v). split; [done|]. split; [split; simpl; rewrite ?length_insert; done|].
    unfold entry in *. simpl. rewrite list_lookup_insert_eq by lia. split_and!.
    - repeat case_match; simplify_eq; done.
    - intros w Hw. by rewrite list_lookup_insert_ne by done.
    - intros w loc' Hw He'. apply Hw. by eapply Hd. }
  unfold first_invalid_way.
  destruct (find_way_spec (E := E) (λ way, negb <$> way_valid set way)
    (λ w, negb (Z.testbit (valid_mask set) w)) (seqZ 0 CACHE_WAYS)) as (r&->&Hr').
  { intros w Hw%elem_of_seqZ. unfold CACHE_WAYS in Hw. by rewrite way_valid_in, Ok_fmap by lia. }
  rewrite Ok_bind. destruct r as [v|].
  - destruct Hr' as [Hv%elem_of_seqZ _]. unfold CACHE_WAYS in Hv.
    destruct (@fill_way_spec E set v (next_victim set) k loc Hs ltac:(lia) (sw_victim _ Hs)) as (set'&->&?&?&?).
    exists set', (Z.to_nat v). split_and!; [done..|]. intros w loc' _. apply Hr.
  - pose proof (sw_victim _ Hs). rewrite (add_or_panic_in u8_max), Ok_bind by (unfold u8_max; lia).
    destruct (@fill_way_spec E set (next_victim set) ((next_victim set + 1) mod CACHE_WAYS) k loc Hs)
      as (set'&->&?&?&?); [done|apply Z.mod_pos_bound; unfold CACHE_WAYS; lia|].
    exists set', (Z.to_nat (next_victim set)). split_and!; [done..|].
    intros w loc' _. apply Hr.
Qed.

(** The location recorded last for a key. *)
Fixpoint latest (ops : list (key * Z)) (k : key) : option Z :=
  match ops with
  | [] => None
  | (k', loc) :: ops =>
      match latest ops k with Some l => Some l | None => if decide (k' = k) then Some loc else None end
  end.
Lemma latest_snoc ops k' loc k :
  latest (ops ++ [(k', loc)]) k = if decide (k' = k) then Some loc else latest ops k.
Proof. induction ops as [|[k1 l1] ops IH]; simpl; [done|]. rewrite IH. by destruct (decide (k' = k)). Qed.

Definition set_of (c : PerWorkerLocationHintCache) (k : key) : Z := (hashes k).1 mod blen (sets c).
(** Every entry is in its key's set and holds what was recorded last for it. *)
Record cache_holds (c : PerWorkerLocationHintCache) (ops : list (key * Z)) : Prop := {
  ch_pow2 : is_power_of_two (blen (sets c)) = true;
  ch_size : blen (sets c) ≤ usize_max;
  ch_wf : Forall set_wf (sets c);
  ch_distinct : Forall distinct_keys (sets c);
  ch_entry i set w k loc : sets c !! i = Some set → entry set w = Some (k, loc) →
    latest ops k = Some loc ∧ set_of c k = Z.of_nat i;
}.

Lemma cache_set c ops k : cache_holds c ops →
  (∀ E, @table_index E (hashes k).1 (blen (sets c)) = Ok (set_of c k)) ∧
  ∃ set, sets c !! Z.to_nat (set_of c k) = Some set ∧ set_wf set ∧ distinct_keys set ∧
    0 ≤ set_of c k < blen (sets c).
Proof.
  intros H. split; [intros E; by apply table_index_in; destruct H|].
  destruct (@table_index_in unit (hashes k).1 _ (ch_pow2 _ _ H) (ch_size _ _ H)) as [Hpos _].
  pose proof (Z.mod_pos_bound (hashes k).1 _ Hpos) as Hb. fold (set_of c k) in Hb.
  destruct (lookup_lt_is_Some_2 (sets c) (Z.to_nat (set_of c k))) as [set Hw].
  { change (blen (sets c)) with (Z.of_nat (length (sets c))) in Hb. lia. }
  exists set. split_and!; [done| | |lia..].
  - by apply (Forall_lookup_1 _ _ _ _ (ch_wf _ _ H) Hw).
  - by apply (Forall_lookup_1 _ _ _ _ (ch_distinct _ _ H) Hw).
Qed.

Lemma remember_holds {E} c ops k loc : cache_holds c ops → key_ok k →
  ∃ c', @remember_unverified E c k.1 k.2 loc = Ok c' ∧ cache_holds c' (ops ++ [(k, loc)]) ∧
    blen (sets c') = blen (sets c) ∧
    ∃ set w, sets c' !! Z.to_nat (set_of c' k) = Some set ∧ entry set w = Some (k, loc).
Proof.
  intros H Hk. destruct (@key_hashes_in E k Hk) as (Hl&Hh&_).
  destruct (cache_set c ops k H) as (Hi&set&Hset&Hwf&Hd&Hb). unfold remember_unverified.
  rewrite Hl, Ok_bind, Hh, Ok_bind. destruct (hashes k) as [h1 h2] eqn:Hhk. simpl in Hi. cbv beta iota.
  rewrite Hi, Ok_bind, (vec_at_in _ _ _ Hset), Ok_bind.
  destruct (@remember_in_set_spec E set k loc Hwf Hd) as (set'&v&->&Hwf'&Hv&Hother&Hnone).
  rewrite Ok_bind, vec_set_in, Ok_bind by lia. eexists. split; [done|].
  set (c' := {| sets := _; expected_entries := _ |}).
  assert (blen (sets c') = blen (sets c)) as Hlen by apply blen_insert.
  assert (∀ k', set_of c' k' = set_of c k') as Hso by (intros k'; unfold set_of; by rewrite Hlen).
  destruct H as [Hp Hsz Hws Hds He]. split_and!; [|done|].
  - split; [by rewrite Hlen|by rewrite Hlen|by apply Forall_insert|apply Forall_insert; [done|]|].
    + intros w w' k' l l' Hw Hw'. destruct (decide (w = v)) as [->|Hwv], (decide (w' = v)) as [->|Hwv']; [done|..].
      * rewrite Hv in Hw. simplify_eq. rewrite Hother in Hw' by done. by destruct (Hnone w' l').
      * rewrite Hv in Hw'. simplify_eq. rewrite Hother in Hw by done. by destruct (Hnone w l).
      * rewrite Hother in Hw, Hw' by done. by eapply Hd.
    + intros i s w k' l Hs Hw. rewrite latest_snoc, Hso. unfold c' in Hs. simpl in Hs.
      destruct (decide (i = Z.to_nat (set_of c k))) as [->|Hne].
      * rewrite list_lookup_insert_eq in Hs by (by eapply lookup_lt_Some). simplify_eq.
        destruct (decide (w = v)) as [->|Hwv].
        { rewrite Hv in Hw. simplify_eq. rewrite decide_True by done. split; [done|lia]. }
        rewrite Hother in Hw by done. rewrite decide_False by (intros ->; by destruct (Hnone w l)).
        by eapply He.
      * rewrite list_lookup_insert_ne in Hs by done. destruct (He _ _ _ _ _ Hs Hw) as [Hlat Hin].
        rewrite decide_False; [done|]. intros ->. apply Hne. rewrite Hin. lia.
  - exists set', v. rewrite Hso. split; [|done]. apply list_lookup_insert_eq. by eapply lookup_lt_Some.
Qed.

Lemma probe_unverified_holds {E} c ops k : cache_holds c ops → key_ok k →
  ∃ r, @probe_unverified E c k.1 k.2 = Ok r ∧ (∀ loc, r = Some loc → latest ops k = Some loc) ∧
    (∀ set w loc, sets c !! Z.to_nat (set_of c k) = Some set → entry set w = Some (k, loc) → r = Some loc).
Proof.
  intros H Hk. destruct (@key_hashes_in E k Hk) as (Hl&Hh&_).
  destruct (cache_set c ops k H) as (Hi&set&Hset&Hwf&Hd&Hb). unfold probe_unverified.
  rewrite Hl, Ok_bind, Hh, Ok_bind. destruct (hashes k) as [h1 h2] eqn:Hhk. simpl in Hi. cbv beta iota.
  rewrite Hi, Ok_bind, (vec_at_in _ _ _ Hset), Ok_bind.
  destruct (@matching_way_spec E set k.1 k.2 Hwf) as (r&->&Hr). rewrite Ok_bind, <- surjective_pairing in *.
  destruct r as [w|].
  - destruct Hr as (Hw&loc&He). destruct (set_ways set (Z.to_nat w) Hwf) as (id&l&loc'&_&_&Hloc&He'); [lia|].
    rewrite He in He'. destruct (Z.testbit _ _); simplify_eq.
    rewrite (vec_at_in _ _ _ Hloc), Ok_bind. eexists. split; [done|]. split.
    + intros ? [= <-]. by eapply ch_entry.
    + intros set' w' l' ? He'. simplify_eq. pose proof (Hd _ _ _ _ _ He He'). by simplify_eq.
  - exists None. split_and!; [done..|]. intros set' w' l' ? He'. simplify_eq. by destruct (Hr w' l').
Qed.

Lemma cache_new_holds granted n m c : 0 ≤ n → cache_new granted n m = Ok c →
  cache_holds c [] ∧ ∃ bytes, (∀ E, @cache_allocated_bytes E c = Ok bytes) ∧ bytes ≤ m ∧
    n ≤ CACHE_WAYS * blen (sets c).
Proof.
  unfold cache_new, ensure_budget, allocate_filled. intros Hn H. inv_run.
  match goal with Hp : checked_next_power_of_two _ = Some _ |- _ => apply next_power_of_two_spec in Hp as (Hge&Hr&Hp) end.
  destruct granted; simplify_eq. match goal with Hp : is_power_of_two ?x = true |- _ => rename x into p end.
  assert (blen (replicate (Z.to_nat p) CacheSet_default) = p) as Hlen by (apply blen_replicate; lia).
  split.
  - split; cbn [sets].
    + by rewrite Hlen.
    + rewrite Hlen. lia.
    + apply Forall_replicate. by split.
    + apply Forall_replicate. intros w w' k l l' He. unfold entry in He. simpl in He. by rewrite Z.bits_0 in He.
    + intros i set w k l [-> _]%lookup_replicate He. unfold entry in He. simpl in He. by rewrite Z.bits_0 in He.
  - exists (p * CACHE_SET_BYTES). cbn [sets]. rewrite Hlen. split_and!; [|done|].
    + intros E. unfold cache_allocated_bytes. cbn [sets]. by rewrite Hlen, checked_mul_ok, expect_Some by lia.
    + pose proof (div_ceil_bound n CACHE_WAYS). unfold CACHE_WAYS in *. lia.
Qed.

Fixpoint remember_all {E} (c : PerWorkerLocationHintCache) (ops : list (key * Z))
    : outcome E PerWorkerLocationHintCache :=
  match ops with
  | [] => Ok c
  | (k, loc) :: ops => c ← remember_unverified c k.1 k.2 loc; remember_all c ops
  end.
Lemma remember_all_app {E} c ops k loc :
  @remember_all E c (ops ++ [(k, loc)]) = c ← remember_all c ops; remember_unverified c k.1 k.2 loc.
Proof.
  revert c. induction ops as [|[k' l'] ops IH]; intros c; simpl.
  - by destruct (remember_unverified _ _ _ _).
  - destruct (remember_unverified c _ _ _); [apply IH|done..].
Qed.
Lemma remember_all_holds {E} c ops : cache_holds c [] → Forall (λ o, key_ok o.1) ops →
  ∃ c', @remember_all E c ops = Ok c' ∧ cache_holds c' ops ∧ blen (sets c') = blen (sets c).
Proof.
  intros Hc. induction ops as [|[k loc] ops IH] using rev_ind; intros Hops; [by exists c|].
  apply Forall_app in Hops as [Hops Hk%Forall_cons_1]. destruct (IH Hops) as (c1&H1&Hc1&Hl1).
  destruct (@remember_holds E c1 ops k loc Hc1) as (c2&H2&Hc2&Hl2&_); [apply Hk|].
  exists c2. rewrite remember_all_app, H1, Ok_bind, H2. split_and!; [done..|congruence].
Qed.

(** C38: The Bloom filter represents exactly the keys inserted into it.  A filter
    that [new] grants stays within its byte budget and has at least ten bits per
    expected key; inserting never fails; a probe answers that an exact lookup is
    required iff each of the key's seven bits was set by some inserted key of
    the same block, so an inserted key is never reported absent.  The seven bits
    of a key are distinct. *)
Theorem bloom_filter_exact granted n m f keys :
  is_usize n → bloom_new granted n m = Ok f → Forall key_ok keys →
  ∃ f', @insert_hints unit f keys = Ok f' ∧
    (∀ k : key, k ∈ keys → @probe_for_exact_lookup unit f' k.1 k.2 = Ok RequiresExactLookup) ∧
    (∀ k : key, key_ok k → ∃ r, @probe_for_exact_lookup unit f' k.1 k.2 = Ok r ∧
      (r = RequiresExactLookup ↔ ∀ q, q ∈ positions (hashes k).2 →
         ∃ k', k' ∈ keys ∧ block_of f' k' = block_of f' k ∧ q ∈ positions (hashes k').2)) ∧
    (∀ k, NoDup (positions (hashes k).2) ∧ length (positions (hashes k).2) = 7%nat) ∧
    ∃ bytes, @bloom_allocated_bytes unit f' = Ok bytes ∧ bytes ≤ m ∧
      BLOOM_TARGET_BITS_PER_KEY * n ≤ 8 * bytes.
Proof.
  intros [Hn _] Hnew Hk. destruct (bloom_new_holds _ _ _ _ Hn Hnew) as (Hf&bytes&Hb&Hm&Hbits).
  destruct (@insert_hints_holds unit f keys [] Hf Hk) as (f'&Hi&Hf'&Hl). exists f'.
  assert (∀ k, key_ok k → ∃ r, @probe_for_exact_lookup unit f' k.1 k.2 = Ok r ∧
      (r = RequiresExactLookup ↔ ∀ q, q ∈ positions (hashes k).2 →
         ∃ k', k' ∈ keys ∧ block_of f' k' = block_of f' k ∧ q ∈ positions (hashes k').2)) as Hp.
  { intros k Hk'. destruct (@probe_holds unit f' _ k Hf' Hk') as (r&Hr&Hiff). exists r. split; [done|].
    rewrite Hiff. by setoid_rewrite app_nil_r; setoid_rewrite elem_of_reverse. }
  split_and!; [done| |done|..].
  - intros k Hin. assert (key_ok k) as Hk' by by eapply list.Forall_forall in Hk.
    destruct (Hp k Hk') as (r&Hr&[_ Hreq]). rewrite Hr. f_equal. apply Hreq. eauto.
  - intros k. split; [apply positions_distinct|apply positions_length].
  - exists bytes. split_and!; [|done..]. unfold bloom_allocated_bytes in *. by rewrite Hl.
Qed.

(** The location cache never answers with a stale location or with another
    key's.  After any sequence of recordings a probe of a key returns nothing or
    the location recorded last for that very key (chunk and length), and a probe
    of the key recorded last always hits; the cache holds at least the expected
    number of entries within its byte budget, and nothing panics. *)
Theorem location_cache_latest granted n m c ops k loc :
  is_usize n → cache_new granted n m = Ok c → Forall (λ o, key_ok o.1) ops → key_ok k →
  ∃ c', @remember_all unit c (ops ++ [(k, loc)]) = Ok c' ∧
    @probe_unverified unit c' k.1 k.2 = Ok (Some loc) ∧
    (∀ k' : key, key_ok k' → ∃ r, @probe_unverified unit c' k'.1 k'.2 = Ok r ∧
       ∀ loc', r = Some loc' → latest (ops ++ [(k, loc)]) k' = Some loc') ∧
    ∃ bytes, @cache_allocated_bytes unit c' = Ok bytes ∧ bytes ≤ m ∧ n ≤ CACHE_WAYS * blen (sets c').
Proof.
  intros [Hn _] Hnew Hops Hk. destruct (cache_new_holds _ _ _ _ Hn Hnew) as (Hc&bytes&Hb&Hm&Hcap).
  destruct (@remember_all_holds unit c ops Hc Hops) as (c1&H1&Hc1&Hl1).
  destruct (@remember_holds unit c1 ops k loc Hc1 Hk) as (c2&H2&Hc2&Hl2&set&w&Hset&He).
  exists c2. rewrite remember_all_app, H1, Ok_bind. split_and!; [done|..].
  - destruct (@probe_unverified_holds unit c2 _ k Hc2 Hk) as (r&->&_&Hr). f_equal. by eapply Hr.
  - intros k' Hk'. destruct (@probe_unverified_holds unit c2 _ k' Hc2 Hk') as (r&Hr&Hr'&_). eauto.
  - exists bytes. unfold cache_allocated_bytes in *. rewrite Hl2, Hl1. auto.
Qed.

Lemma bloom_filter_exact_witness :
  ∃ f f', bloom_new true 100 4096 = Ok f ∧
    @insert_hints unit f [(le_bytes 32 12345, 4096)] = Ok f' ∧
    @probe_for_exact_lookup unit f' (le_bytes 32 12345) 4096 = Ok RequiresExactLookup ∧
    @probe_for_exact_lookup unit f' (le_bytes 32 (2 ^ 70)) 4096 = Ok DefinitelyAbsent.
Proof.
  destruct (bloom_new true 100 4096) as [f| |] eqn:Hf; [|exfalso; vm_compute in Hf; discriminate Hf..].
  destruct (bloom_filter_exact true 100 4096 f [(le_bytes 32 12345, 4096)]) as (f'&Hi&Hin&_);
    [split; by vm_compute|done|repeat constructor; by vm_compute|].
  exists f, f'. split_and!; [done|done|apply (Hin (_, _)); by left|].
  vm_compute in Hf. injection Hf as <-. vm_compute in Hi. injection Hi as <-. by vm_compute.
Defined.
Lemma location_cache_latest_witness :
  ∃ c c', cache_new true 100 8192 = Ok c ∧
    @remember_all unit c ([((le_bytes 32 1, 10), 7)] ++ [((le_bytes 32 1, 10), 8)]) = Ok c' ∧
    @probe_unverified unit c' (le_bytes 32 1) 10 = Ok (Some 8).
Proof.
  destruct (cache_new true 100 8192) as [c| |] eqn:Hc; [|exfalso; vm_compute in Hc; discriminate Hc..].
  destruct (location_cache_latest true 100 8192 c [((le_bytes 32 1, 10), 7)] (le_bytes 32 1, 10) 8)
    as (c'&Hr&Hp&_); [split; by vm_compute|done|repeat constructor; by vm_compute|repeat constructor; by vm_compute|].
  exists c, c'. done.
Defined.
End ReductionFilter.
