(* ===== verification/CpuAdmission.v ===== *)
(** * CPU admission

    [WorkerPermits] of crates/fastdup-store/src/cpu_admission.rs: a counting
    semaphore with partial grants, whose leases return their permits one by one
    ([retire_worker]) or when they are dropped, and the ordered parallel [map]
    on top of it.

    The first part has the bodies of the critical sections, on the state the
    mutex protects.  The second part is the machine: threads enter [acquire],
    sleep on the condition variable, are woken (also spuriously), take the mutex
    again, split, retire and drop leases, in any order.  The update of a lease's
    atomic counter and the critical section that returns the permits are two
    steps, as in the source. *)
From S2P Require Import Prelude Bytes MapSum.

Module CpuAdmission.

(** ** The critical sections *)
Record PermitState := { available : Z; waiters : Z }.
Record WorkerPermitLease := {
  acquired : Z;
  remaining : Z;
  requested : Z;
  blocked : bool;
}.

(** [WorkerPermits::new] *)
Definition new (total : Z) : PermitState := {| available := total; waiters := 0 |}.
Definition granted (acquired requested : Z) (blocked : bool) : WorkerPermitLease :=
  {| acquired := acquired; remaining := acquired; requested := requested; blocked := blocked |}.

(** [WorkerPermits::try_acquire]; [nested] is [rayon::current_thread_index().is_some()] *)
Definition try_acquire (nested : bool) (desired : Z) (st : PermitState)
    : outcome unit (PermitState * option WorkerPermitLease) :=
  if nested then Ok (st, None)
  else
    let acquired := Z.min desired (available st) in
    if acquired =? 0 then Ok (st, None)
    else
      left ← sub_or_panic (available st) acquired;
      Ok ({| available := left; waiters := waiters st |}, Some (granted acquired desired false)).

(** [WorkerPermits::acquire], from the test of the loop to the wait or the
    grant: [None] is [self.changed.wait(available)] *)
Definition acquire_loop (total desired : Z) (blocked : bool) (st : PermitState)
    : outcome unit (PermitState * option WorkerPermitLease) :=
  if available st =? 0 then
    waiting ← add_or_panic usize_max (waiters st) 1;
    Ok ({| available := available st; waiters := waiting |}, None)
  else
    assert_true (available st <=? total);;
    let acquired := Z.min desired (available st) in
    assert_true (negb (acquired =? 0));;
    left ← sub_or_panic (available st) acquired;
    Ok ({| available := left; waiters := waiters st |}, Some (granted acquired desired blocked)).
Definition acquire_enter (total desired : Z) (st : PermitState)
    : outcome unit (PermitState * option WorkerPermitLease) :=
  assert_true (desired <=? total);;
  acquire_loop total desired false st.
(** The thread returns from [wait] with the mutex. *)
Definition acquire_resume (total desired : Z) (st : PermitState)
    : outcome unit (PermitState * option WorkerPermitLease) :=
  awake ← sub_or_panic (waiters st) 1;
  acquire_loop total desired true {| available := available st; waiters := awake |}.

(** [WorkerPermitLease::release]; the flag says that [notify_all] is called *)
Definition release (total count : Z) (st : PermitState) : outcome unit (PermitState * bool) :=
  if count =? 0 then Ok (st, false)
  else
    sum ← expect (checked_add usize_max (available st) count);
    assert_true (sum <=? total);;
    Ok ({| available := sum; waiters := waiters st |}, negb (waiters st =? 0)).

Definition with_remaining (l : WorkerPermitLease) (r : Z) : WorkerPermitLease :=
  {| acquired := acquired l; remaining := r; requested := requested l; blocked := blocked l |}.
(** The atomic update of [WorkerPermitLease::retire_worker] *)
Definition retire_worker (l : WorkerPermitLease) : outcome unit WorkerPermitLease :=
  left ← expect (n ← checked_sub (remaining l) 1; if 1 <=? n then Some n else None);
  assert_true (1 <? remaining l);;
  Ok (with_remaining l left).
(** [WorkerPermitLease::split]: the lease keeps nothing, each part one permit *)
Definition split_lease : WorkerPermitLease :=
  {| acquired := 1; remaining := 1; requested := 1; blocked := false |}.
Definition split (l : WorkerPermitLease) : WorkerPermitLease * list WorkerPermitLease :=
  (with_remaining l 0, replicate (Z.to_nat (remaining l)) split_lease).
(** [Drop]: [self.remaining.swap(0)], then [release] of what was there *)
Definition drop_lease (l : WorkerPermitLease) : WorkerPermitLease * Z := (with_remaining l 0, remaining l).

(** ** [WorkerPermits::map], after the lease is granted

    [sched] says which worker pops the job with a given ordinal. *)
Section Map.
Context {T R : Type} (apply : T → R).

Definition enumerate (inputs : list T) : list (Z * T) := zip (seqZ 0 (blen inputs)) inputs.
Fixpoint drain (sched : Z → nat) (queue : list (Z * T)) (completed : list (list (Z * R)))
    : list (list (Z * R)) :=
  match queue with
  | [] => completed
  | (ordinal, input) :: queue =>
      drain sched queue (alter (λ l, l ++ [(ordinal, apply input)]) (sched ordinal) completed)
  end.
Fixpoint scatter {E} (ordered : list (option R)) (completed : list (Z * R)) : outcome E (list (option R)) :=
  match completed with
  | [] => Ok ordered
  | (ordinal, result) :: completed =>
      ordered ← vec_set ordered ordinal (Some result);
      scatter ordered completed
  end.
Fixpoint expect_all {E} (ordered : list (option R)) : outcome E (list R) :=
  match ordered with
  | [] => Ok []
  | result :: ordered => r ← expect result; rs ← expect_all ordered; Ok (r :: rs)
  end.
Definition map_workers {E} (workers : Z) (sched : Z → nat) (inputs : list T) : outcome E (list R) :=
  if workers =? 1 then Ok (apply <$> inputs)
  else
    let completed := drain sched (enumerate inputs) (replicate (Z.to_nat workers) []) in
    ordered ← scatter (replicate (length inputs) None) (concat completed);
    expect_all ordered.
End Map.

(** Leases are dropped one after the other. *)
Fixpoint drop_all (total : Z) (leases : list WorkerPermitLease) (st : PermitState)
    : outcome unit PermitState :=
  match leases with
  | [] => Ok st
  | l :: leases =>
      '(st, _) ← release total (drop_lease l).2 st;
      drop_all total leases st
  end.
(** [WorkerPermits::map], when its [acquire] is granted at once *)
Definition map {T R} (apply : T → R) (total desired : Z) (sched : Z → nat) (inputs : list T)
    (st : PermitState) : outcome unit (PermitState * list R) :=
  match inputs with
  | [] => Ok (st, [])
  | _ =>
      '(st, lease) ← acquire_enter total (Z.min desired (blen inputs)) st;
      lease ← expect lease;
      results ← map_workers apply (acquired lease) sched inputs;
      st ← drop_all total (if acquired lease =? 1 then [lease]
                           else let '(kept, parts) := split lease in parts ++ [kept]) st;
      Ok (st, results)
  end.

(** ** The parallel map keeps the order *)
Section MapProof.
Context {T R : Type} (apply : T → R).

Lemma concat_alter_snoc {A} (ls : list (list A)) i x :
  (i < length ls)%nat → concat (alter (λ l, l ++ [x]) i ls) ≡ₚ x :: concat ls.
Proof.
  revert i. induction ls as [|l ls IH]; intros [|i] Hi; simpl in *; [lia..| |].
  - rewrite <- app_assoc. symmetry. apply Permutation_middle.
  - etrans; [apply Permutation_app_head, IH; lia|]. symmetry. apply Permutation_middle.
Qed.
Lemma drain_permutation sched queue completed :
  (∀ i, (sched i < length completed)%nat) →
  concat (drain apply sched queue completed) ≡ₚ concat completed ++ (prod_map id apply <$> queue).
Proof.
  revert completed. induction queue as [|[i x] queue IH]; intros completed Hs; simpl.
  - by rewrite app_nil_r.
  - rewrite IH by (intros j; rewrite length_alter; apply Hs).
    rewrite concat_alter_snoc by apply Hs. apply Permutation_middle.
Qed.
Lemma scatter_spec {E} (l : list (Z * R)) ordered :
  NoDup l.*1 → Forall (λ p, 0 ≤ p.1 < blen ordered) l →
  ∃ o, @scatter R E ordered l = Ok o ∧ length o = length ordered ∧
    (∀ i r, (Z.of_nat i, r) ∈ l → o !! i = Some (Some r)) ∧
    (∀ i, Z.of_nat i ∉ l.*1 → o !! i = ordered !! i).
Proof.
  revert ordered. induction l as [|[i r] l IH]; intros ordered Hnd Hr.
  { exists ordered. split_and!; [done..|set_solver|done]. }
  apply list.NoDup_cons in Hnd as [Hi Hnd]. apply Forall_cons_1 in Hr as [Hir Hr]. simpl in *.
  rewrite vec_set_in, Ok_bind by lia.
  destruct (IH (<[Z.to_nat i := Some r]> ordered)) as (o&->&Hlen&Hin&Hout); [done|by rewrite blen_insert|].
  change (blen ordered) with (Z.of_nat (length ordered)) in Hir.
  exists o. split_and!; [done|by rewrite Hlen, length_insert|..].
  - intros j r' [[= <- <-]|Hj]%elem_of_cons; [|by apply Hin].
    rewrite Hout, Nat2Z.id, list_lookup_insert_eq by (done || lia). done.
  - intros j [Hji Hj]%not_elem_of_cons. rewrite Hout, list_lookup_insert_ne by (done || lia). done.
Qed.
Lemma expect_all_Some {E} (l : list R) : @expect_all R E (Some <$> l) = Ok l.
Proof.
  induction l as [|x l IH]; [done|]. rewrite fmap_cons. cbn [expect_all]. by rewrite expect_Some, Ok_bind, IH, Ok_bind.
Qed.

Lemma map_workers_ordered {E} workers sched inputs :
  1 ≤ workers → (∀ i, (sched i < Z.to_nat workers)%nat) →
  @map_workers T R apply E workers sched inputs = Ok (apply <$> inputs).
Proof.
  intros Hw Hs. unfold map_workers. case_match; [done|].
  set (l := concat _). assert (l ≡ₚ prod_map id apply <$> enumerate inputs) as Hl.
  { unfold l. rewrite drain_permutation by (intros i; rewrite length_replicate; apply Hs).
    assert (∀ n, concat (replicate n ([] : list (Z * R))) = []) as -> by (by intros n; induction n). done. }
  assert (l.*1 ≡ₚ seqZ 0 (blen inputs)) as Hfst.
  { rewrite Hl, <- list_fmap_compose. change (fst ∘ prod_map id apply) with (@fst Z T).
    unfold enumerate. rewrite fst_zip; [done|].
    rewrite length_seqZ. change (blen inputs) with (Z.of_nat (length inputs)). lia. }
  destruct (@scatter_spec E l (replicate (length inputs) None)) as (o&->&Hlen&Hin&_).
  { rewrite Hfst. apply NoDup_seqZ. }
  { apply list.Forall_forall. intros p Hp%(list_elem_of_fmap_2 fst). rewrite Hfst in Hp.
    apply elem_of_seqZ in Hp. rewrite <- (Nat2Z.id (length inputs)), blen_replicate by lia.
    change (blen inputs) with (Z.of_nat (length inputs)) in Hp. lia. }
  rewrite Ok_bind. rewrite length_replicate in Hlen.
  replace o with (Some <$> (apply <$> inputs)); [apply expect_all_Some|].
  apply list_eq. intros i. rewrite !list_lookup_fmap. destruct (inputs !! i) as [x|] eqn:Hx; simpl.
  - symmetry. apply Hin. rewrite Hl. apply list_elem_of_fmap. exists (Z.of_nat i, x). split; [done|].
    apply list_elem_of_lookup. exists i. unfold enumerate. rewrite lookup_zip_with, Hx.
    rewrite lookup_seqZ_lt by (apply lookup_lt_Some in Hx; change (blen inputs) with (Z.of_nat (length inputs)); lia).
    done.
  - symmetry. apply lookup_ge_None. apply lookup_ge_None in Hx. lia.
Qed.
End MapProof.

(** ** The machine *)

(** A thread sleeps on the condition variable, or was woken and has not the
    mutex yet, or took permits off a lease and has not returned them yet. *)
Inductive phase :=
  | Waiting (desired : Z)
  | Woken (desired : Z)
  | Releasing (count : Z).
Record machine := {
  permits : PermitState;
  leases : gmap nat WorkerPermitLease;
  threads : gmap nat phase;
}.
Definition wake (p : phase) : phase := match p with Waiting d => Woken d | p => p end.

(** What the thread that ran a critical section of [acquire] goes on with. *)
Definition settle (m : machine) (t id : nat) (desired : Z)
    (r : outcome unit (PermitState * option WorkerPermitLease)) : outcome unit machine :=
  '(st, lease) ← r;
  Ok match lease with
     | None => {| permits := st; leases := leases m; threads := <[t := Waiting desired]> (threads m) |}
     | Some l => {| permits := st; leases := <[id := l]> (leases m); threads := delete t (threads m) |}
     end.
Definition insert_leases (ids : list nat) (parts : list WorkerPermitLease)
    (ls : gmap nat WorkerPermitLease) : gmap nat WorkerPermitLease :=
  foldr (λ il, insert il.1 il.2) ls (zip ids parts).

(** The callers ask for at least one worker and at most the budget
    ([NonZeroUsize], and the assertion in [acquire] is theirs to keep), and
    retire each worker but the first.  A process has fewer than [usize::MAX]
    threads. *)
Inductive step (total : Z) (m : machine) : outcome unit machine → Prop :=
  | step_try_acquire nested t id desired :
      threads m !! t = None → leases m !! id = None → 1 ≤ desired →
      step total m ('(st, lease) ← try_acquire nested desired (permits m);
        Ok {| permits := st;
              leases := match lease with Some l => <[id := l]> (leases m) | None => leases m end;
              threads := threads m |})
  | step_acquire t id desired :
      threads m !! t = None → leases m !! id = None → 1 ≤ desired ≤ total →
      Z.of_nat (size (threads m)) < usize_max →
      step total m (settle m t id desired (acquire_enter total desired (permits m)))
  | step_spurious t desired :
      threads m !! t = Some (Waiting desired) →
      step total m (Ok {| permits := permits m; leases := leases m;
                          threads := <[t := Woken desired]> (threads m) |})
  | step_resume t id desired :
      threads m !! t = Some (Woken desired) → leases m !! id = None →
      step total m (settle m t id desired (acquire_resume total desired (permits m)))
  | step_split id l ids :
      leases m !! id = Some l → NoDup ids → (∀ i, i ∈ ids → leases m !! i = None) →
      length ids = Z.to_nat (remaining l) →
      step total m (Ok {| permits := permits m;
        leases := insert_leases ids (split l).2 (<[id := (split l).1]> (leases m));
        threads := threads m |})
  | step_retire t id l :
      threads m !! t = None → leases m !! id = Some l → 2 ≤ remaining l →
      step total m (l' ← retire_worker l;
        Ok {| permits := permits m; leases := <[id := l']> (leases m);
              threads := <[t := Releasing 1]> (threads m) |})
  | step_drop t id l :
      threads m !! t = None → leases m !! id = Some l →
      step total m (Ok {| permits := permits m; leases := delete id (leases m);
                          threads := <[t := Releasing (drop_lease l).2]> (threads m) |})
  | step_release t count :
      threads m !! t = Some (Releasing count) →
      step total m ('(st, notify) ← release total count (permits m);
        Ok {| permits := st; leases := leases m;
              threads := delete t (if (notify : bool) then wake <$> threads m else threads m) |}).

Definition start (total : Z) : machine := {| permits := new total; leases := ∅; threads := ∅ |}.
Inductive steps (total : Z) (m : machine) : machine → Prop :=
  | steps_refl : steps total m m
  | steps_step m1 m2 : steps total m m1 → step total m1 (Ok m2) → steps total m m2.
Definition reachable (total : Z) : machine → Prop := steps total (start total).

(** ** The invariant *)
Definition held (id : nat) (l : WorkerPermitLease) : Z := remaining l.
Definition returning (t : nat) (p : phase) : Z := match p with Releasing c => c | _ => 0 end.
Definition waits (t : nat) (p : phase) : Z := match p with Releasing _ => 0 | _ => 1 end.
Record admission_inv (total : Z) (m : machine) : Prop := {
  ai_total : 1 ≤ total ≤ usize_max;
  ai_available : 0 ≤ available (permits m);
  ai_leases id l : leases m !! id = Some l → 0 ≤ remaining l;
  ai_threads t p : threads m !! t = Some p →
    match p with Waiting d | Woken d => 1 ≤ d | Releasing c => 0 ≤ c end;
  ai_sum : available (permits m) + msum held (leases m) + msum returning (threads m) = total;
  ai_waiters : waiters (permits m) = msum waits (threads m);
  ai_waiters_u : waiters (permits m) ≤ usize_max;
  ai_sleepers t d : threads m !! t = Some (Waiting d) → available (permits m) = 0;
}.

Lemma admission_sums total m : admission_inv total m →
  0 ≤ msum held (leases m) ∧ 0 ≤ msum returning (threads m) ∧ 0 ≤ msum waits (threads m) ∧
  available (permits m) ≤ total.
Proof.
  intros [? ? Hl Ht Hs _ _ _]. assert (0 ≤ msum held (leases m)) by (by apply msum_nonneg).
  assert (0 ≤ msum returning (threads m)).
  { apply msum_nonneg. intros t p Hp. specialize (Ht t p Hp). destruct p; simpl; lia. }
  assert (0 ≤ msum waits (threads m)) by (apply msum_nonneg; intros t [] _; simpl; lia). lia.
Qed.

Lemma acquire_loop_spec total desired b st :
  0 ≤ available st ≤ total → 1 ≤ desired → 0 ≤ waiters st < usize_max →
  acquire_loop total desired b st =
    if available st =? 0 then Ok ({| available := 0; waiters := waiters st + 1 |}, None)
    else Ok ({| available := available st - Z.min desired (available st); waiters := waiters st |},
             Some (granted (Z.min desired (available st)) desired b)).
Proof.
  intros Ha Hd Hw. unfold acquire_loop. destruct (Z.eqb_spec (available st) 0) as [E|E].
  - rewrite add_or_panic_in, Ok_bind, E by lia. done.
  - rewrite (proj2 (Z.leb_le _ _)), (proj2 (Z.eqb_neq (Z.min desired (available st)) 0)) by lia. simpl.
    rewrite sub_or_panic_in by lia. done.
Qed.

(** A critical section of [acquire] keeps the invariant: the thread sleeps
    when there is nothing to grant, and has its lease otherwise. *)
Lemma settle_inv total m t id desired b st :
  admission_inv total m → leases m !! id = None → 1 ≤ desired →
  available st = available (permits m) → 0 ≤ waiters st < usize_max →
  (∀ c, threads m !! t ≠ Some (Releasing c)) →
  waiters st = msum waits (delete t (threads m)) →
  ∃ m', settle m t id desired (acquire_loop total desired b st) = Ok m' ∧ admission_inv total m' ∧
    (available (permits m) ≠ 0 → threads m' = delete t (threads m) ∧
       leases m' !! id = Some (granted (Z.min desired (available (permits m))) desired b)).
Proof.
  intros Hinv Hid Hd Hav Hw Ht Hsum. pose proof (admission_sums _ _ Hinv) as (?&?&?&?).
  pose proof Hinv as [Htot Ha Hl Hth Hs Hwt Hwu Hsl].
  assert (msum returning (delete t (threads m)) = msum returning (threads m)) as Hret.
  { rewrite msum_delete. destruct (threads m !! t) as [[]|] eqn:E; simpl; try lia. by destruct (Ht count). }
  unfold settle. rewrite acquire_loop_spec by lia. rewrite Hav. destruct (Z.eqb_spec (available (permits m)) 0) as [E|E].
  - rewrite Ok_bind. cbv beta iota. eexists. split; [done|]. split; [|lia].
    split; cbn [permits leases threads available waiters]; [done|lia|done| | | |lia|done].
    + intros t' p [[<- <-]|[_ Hp]]%lookup_insert_Some; [done|by apply Hth in Hp].
    + rewrite msum_insert. rewrite msum_delete in Hret. simpl. lia.
    + rewrite msum_insert. rewrite msum_delete in Hsum. simpl. lia.
  - rewrite Ok_bind. cbv beta iota. eexists. split; [done|]. split.
    2:{ intros _. cbn [leases threads]. split; [done|apply lookup_insert_eq]. }
    split; cbn [permits leases threads available waiters]; [done|lia| | | |done|lia|].
    + intros i l [[<- <-]|[_ Hi]]%lookup_insert_Some; [simpl; lia|by eapply Hl].
    + intros t' p [_ Hp]%lookup_delete_Some. by apply Hth in Hp.
    + rewrite msum_insert_new, Hret by done. unfold held at 1. simpl. lia.
    + intros t' d [_ Hp]%lookup_delete_Some. apply Hsl in Hp. lia.
Qed.

Lemma insert_leases_sum ids ls : NoDup ids → (∀ i, i ∈ ids → ls !! i = None) →
  msum held (insert_leases ids (replicate (length ids) split_lease) ls) =
    msum held ls + Z.of_nat (length ids) ∧
  (∀ i, i ∉ ids → insert_leases ids (replicate (length ids) split_lease) ls !! i = ls !! i) ∧
  (∀ i l, insert_leases ids (replicate (length ids) split_lease) ls !! i = Some l →
     l = split_lease ∨ ls !! i = Some l).
Proof.
  induction ids as [|i ids IH]; intros Hnd Hf.
  { unfold insert_leases. simpl. split_and!; [lia|auto..]. }
  apply list.NoDup_cons in Hnd as [Hi Hnd]. destruct IH as (IH1&IH2&IH3); [done|set_solver|].
  unfold insert_leases in *. simpl. split_and!.
  - rewrite msum_insert_new, IH1 by (rewrite IH2 by done; set_solver). unfold held at 1. simpl. lia.
  - intros j [? ?]%not_elem_of_cons. rewrite lookup_insert_ne by done. by apply IH2.
  - intros j l [[<- <-]|[_ Hj]]%lookup_insert_Some; [by left|by apply IH3].
Qed.

Lemma release_step_inv total m t count : admission_inv total m → threads m !! t = Some (Releasing count) →
  ∃ st notify, release total count (permits m) = Ok (st, notify) ∧
    available st = available (permits m) + count ∧
    (0 < count → ∀ t' d, threads m !! t' = Some (Waiting d) → notify = true) ∧
    admission_inv total {| permits := st; leases := leases m;
      threads := delete t (if (notify : bool) then wake <$> threads m else threads m) |}.
Proof.
  intros Hinv Ht. pose proof (admission_sums _ _ Hinv) as (?&?&?&?).
  pose proof Hinv as [Htot Ha Hl Hth Hs Hwt Hwu Hsl]. pose proof (Hth _ _ Ht) as Hc. simpl in Hc.
  assert (count ≤ msum returning (threads m)) as Hle.
  { apply (msum_lookup_le returning _ t (Releasing count)); [|done].
    intros k x Hx. specialize (Hth k x Hx). destruct x; simpl; lia. }
  assert (∀ t' d, threads m !! t' = Some (Waiting d) → 0 < waiters (permits m)) as Hsleep.
  { intros t' d Hd. rewrite Hwt. enough (1 ≤ msum waits (threads m)) by lia.
    by apply (msum_lookup_le waits _ t' (Waiting d)); [intros ? [] _; simpl; lia|]. }
  unfold release. destruct (Z.eqb_spec count 0) as [->|Hne].
  { exists (permits m), false. split_and!; [done|lia|lia|]. split; cbn [permits leases threads]; try done.
    - intros t' p [_ Hp]%lookup_delete_Some. by apply Hth in Hp.
    - rewrite msum_delete, Ht. simpl. lia.
    - rewrite msum_delete, Ht. simpl. lia.
    - intros t' d [_ Hp]%lookup_delete_Some. by apply Hsl in Hp. }
  rewrite checked_add_ok, expect_Some, Ok_bind, (proj2 (Z.leb_le _ _)) by lia.
  change (assert_true true) with (@Ok unit () ()). rewrite Ok_bind.
  eexists _, _. split; [done|]. split; [done|]. split.
  { intros _ t' d Hd. apply Hsleep in Hd. apply negb_true_iff, Z.eqb_neq. lia. }
  assert (∀ f, (∀ k x, f k (wake x) = f k x) → msum f (delete t
    (if negb (waiters (permits m) =? 0) then wake <$> threads m else threads m)) =
    msum f (threads m) - f t (Releasing count)) as Hmsum.
  { intros f Hf. rewrite msum_delete. destruct (negb (waiters (permits m) =? 0)).
    - rewrite msum_fmap, lookup_fmap, Ht. simpl. f_equal. by apply msum_ext.
    - by rewrite Ht. }
  split; cbn [permits leases threads available waiters]; [done|lia|done| | | | |].
  - intros t' p [_ Hp]%lookup_delete_Some.
    destruct (negb (waiters (permits m) =? 0)); [|by apply Hth in Hp].
    apply lookup_fmap_Some in Hp as (p'&<-&Hp'). apply Hth in Hp'. by destruct p'.
  - rewrite Hmsum by (by intros ? []). simpl. lia.
  - rewrite Hmsum by (by intros ? []). simpl. lia.
  - done.
  - intros t' d [_ Hp]%lookup_delete_Some.
    destruct (Z.eqb_spec (waiters (permits m)) 0) as [Hw0|Hw0]; simpl in Hp.
    + apply Hsleep in Hp. lia.
    + apply lookup_fmap_Some in Hp as ([]&?&_); done.
Qed.

Lemma step_inv total m r : admission_inv total m → step total m r →
  ∃ m', r = Ok m' ∧ admission_inv total m'.
Proof.
  intros Hinv Hstep. pose proof (admission_sums _ _ Hinv) as (?&?&?&?).
  pose proof Hinv as [Htot Ha Hl Hth Hs Hwt Hwu Hsl].
  destruct Hstep as [nested t id desired Ht Hid Hd|t id desired Ht Hid Hd Hsz|t desired Ht|t id desired Ht Hid
    |id l ids Hid Hnd Hf Hlen|t id l Ht Hid Hr|t id l Ht Hid|t count Ht].
  - unfold try_acquire. destruct nested; [by eexists|].
    destruct (Z.eqb_spec (Z.min desired (available (permits m))) 0); [by eexists|].
    rewrite sub_or_panic_in by lia. rewrite Ok_bind. eexists. split; [done|].
    split; cbn [permits leases threads available waiters]; try done; [lia| | |].
    + intros i l [[<- <-]|[_ Hi]]%lookup_insert_Some; [simpl; lia|by eapply Hl].
    + rewrite msum_insert_new by done. unfold held at 1. simpl. lia.
    + intros t' d Hp. apply Hsl in Hp. lia.
  - unfold acquire_enter. rewrite (proj2 (Z.leb_le _ _)) by lia.
    change (assert_true true ≫= ?f) with (f ()).
    destruct (settle_inv total m t id desired false (permits m)) as (m'&->&?&_); eauto; try congruence; [lia| |].
    + rewrite Hwt. split; [done|]. enough (msum waits (threads m) ≤ Z.of_nat (size (threads m))) by lia.
      apply msum_le_size. intros k [] _; simpl; lia.
    + rewrite msum_delete, Ht. simpl. lia.
  - eexists. split; [done|]. split; cbn [permits leases threads]; try done.
    + intros t' p [[<- <-]|[_ Hp]]%lookup_insert_Some; [by apply Hth in Ht|by apply Hth in Hp].
    + rewrite msum_insert, Ht. simpl. lia.
    + rewrite msum_insert, Ht. simpl. lia.
    + intros t' d [[_ ?]|[_ Hp]]%lookup_insert_Some; [done|by apply Hsl in Hp].
  - unfold acquire_resume. assert (waiters (permits m) = msum waits (delete t (threads m)) + 1) as Hw.
    { rewrite msum_delete, Ht. simpl. lia. }
    assert (0 ≤ msum waits (delete t (threads m))) by (apply msum_nonneg; intros ? [] _; simpl; lia).
    rewrite sub_or_panic_in, Ok_bind by lia.
    destruct (settle_inv total m t id desired true
      {| available := available (permits m); waiters := waiters (permits m) - 1 |})
      as (m'&->&?&_); eauto; cbn [available waiters]; try congruence; [by apply Hth in Ht|lia..].
  - pose proof (Hl _ _ Hid) as Hr. destruct (insert_leases_sum ids (<[id := with_remaining l 0]> (leases m)))
      as (Hsum&_&Hin); [done| |].
    { intros i Hi. specialize (Hf i Hi). rewrite lookup_insert_ne; congruence. }
    eexists. split; [done|]. unfold split. cbn [fst snd]. rewrite <- Hlen.
    split; cbn [permits leases threads]; try done.
    + intros i l' [->|[[<- <-]|[_ Hi]]%lookup_insert_Some]%Hin; [done|done|by eapply Hl].
    + rewrite Hsum, msum_insert, Hid, Hlen, Z2Nat.id by done. unfold held at 2 3. simpl. lia.
  - unfold retire_worker, checked_sub. rewrite (proj2 (Z.leb_le 1 (remaining l))) by lia. simpl.
    rewrite (proj2 (Z.leb_le 1 (remaining l - 1))), expect_Some, Ok_bind, (proj2 (Z.ltb_lt 1 (remaining l))) by lia.
    eexists. split; [done|]. split; cbn [permits leases threads]; try done.
    + intros i l' [[<- <-]|[_ Hi]]%lookup_insert_Some; [simpl; lia|by eapply Hl].
    + intros t' p [[<- <-]|[_ Hp]]%lookup_insert_Some; [lia|by apply Hth in Hp].
    + rewrite !msum_insert, Hid, Ht. unfold held at 2 3. simpl. lia.
    + rewrite msum_insert, Ht. simpl. lia.
    + intros t' d [[_ ?]|[_ Hp]]%lookup_insert_Some; [done|by apply Hsl in Hp].
  - eexists. split; [done|]. split; cbn [permits leases threads]; try done.
    + intros i l' [_ Hi]%lookup_delete_Some. by eapply Hl.
    + intros t' p [[<- <-]|[_ Hp]]%lookup_insert_Some; [by eapply Hl|by apply Hth in Hp].
    + rewrite msum_insert, msum_delete, Hid, Ht. unfold held at 2. simpl. lia.
    + rewrite msum_insert, Ht. simpl. lia.
    + intros t' d [[_ ?]|[_ Hp]]%lookup_insert_Some; [done|by apply Hsl in Hp].
  - destruct (release_step_inv total m t count Hinv Ht) as (st&notify&->&_&_&?). by eexists.
Qed.

Lemma steps_inv total m m' : admission_inv total m → steps total m m' → admission_inv total m'.
Proof.
  intros Hinv. induction 1 as [|m1 m2 _ IH Hstep]; [done|].
  destruct (step_inv _ _ _ IH Hstep) as (m3&[= <-]&?). done.
Qed.
Lemma start_inv total : 1 ≤ total ≤ usize_max → admission_inv total (start total).
Proof.
  intros Ht. split; simpl; try done; try lia.
  rewrite !msum_empty. lia.
Qed.

(** ** Progress *)
Definition waiting_for (m : machine) (t : nat) (d : Z) : Prop :=
  threads m !! t = Some (Waiting d) ∨ threads m !! t = Some (Woken d).

(** The steps that finish what is under way: holders drop their leases, returns
    complete, woken threads take the mutex again.  No thread enters, and none
    wakes up by itself: a sleeper is woken by [notify_all] alone. *)
Inductive finish_step (total : Z) (m m' : machine) : Prop :=
  | finish_drop t id l :
      threads m !! t = None → leases m !! id = Some l →
      m' = {| permits := permits m; leases := delete id (leases m);
              threads := <[t := Releasing (drop_lease l).2]> (threads m) |} → finish_step total m m'
  | finish_release t count :
      threads m !! t = Some (Releasing count) →
      ('(st, notify) ← release total count (permits m);
       Ok {| permits := st; leases := leases m;
             threads := delete t (if (notify : bool) then wake <$> threads m else threads m) |}) = Ok m' →
      finish_step total m m'
  | finish_resume t id d :
      threads m !! t = Some (Woken d) → leases m !! id = None →
      settle m t id d (acquire_resume total d (permits m)) = Ok m' → finish_step total m m'.
Inductive finishes (total : Z) (m : machine) : machine → Prop :=
  | finishes_refl : finishes total m m
  | finishes_step m1 m2 : finishes total m m1 → finish_step total m1 m2 → finishes total m m2.

Lemma finish_step_step total m m' : finish_step total m m' → step total m (Ok m').
Proof.
  intros [t id l ?? ->|t count ? <-|t id d ?? <-];
    [by apply step_drop|by apply step_release|by apply step_resume].
Qed.
Lemma finishes_inv total m m' : admission_inv total m → finishes total m m' → admission_inv total m'.
Proof.
  intros Hinv. induction 1 as [|m1 m2 _ IH Hstep%finish_step_step]; [done|].
  destruct (step_inv _ _ _ IH Hstep) as (m3&[= <-]&?). done.
Qed.

(** What is left to do: a lease is dropped and released, a return is released,
    a waiter is granted a lease first; a woken thread has one attempt. *)
Definition token (t : nat) (p : phase) : Z := match p with Releasing _ => 1 | _ => 2 end.
Definition tokens (m : machine) : Z := msum (λ _ _, 2) (leases m) + msum token (threads m).
Definition is_woken (t : nat) (p : phase) : Z := match p with Woken _ => 1 | _ => 0 end.
Definition attempts (m : machine) : Z := msum is_woken (threads m).

Lemma tokens_nonneg m : 0 ≤ tokens m ∧ 0 ≤ attempts m.
Proof.
  unfold tokens, attempts.
  assert (0 ≤ msum (λ _ _, 2) (leases m)) by (apply msum_nonneg; lia).
  assert (0 ≤ msum token (threads m)) by (apply msum_nonneg; intros ? []; simpl; lia).
  assert (0 ≤ msum is_woken (threads m)) by (apply msum_nonneg; intros ? []; simpl; lia). lia.
Qed.
Lemma finish_step_decreases total m m' :
  finish_step total m m' →
  tokens m' < tokens m ∨ (tokens m' = tokens m ∧ attempts m' < attempts m).
Proof.
  unfold tokens, attempts. intros [t id l Ht Hid ->|t count Ht Hr|t id d Ht Hid Hr].
  - left. cbn [leases threads]. rewrite msum_delete, msum_insert, Hid, Ht. simpl. lia.
  - left. destruct (release total count (permits m)) as [[st notify]| |]; [|done..].
    injection Hr as <-. cbn [leases threads]. rewrite msum_delete. destruct notify.
    + rewrite msum_fmap, lookup_fmap, Ht. simpl.
      rewrite (msum_ext (λ k x, token k (wake x)) token) by (by intros ? []). lia.
    + rewrite Ht. simpl. lia.
  - right. unfold settle in Hr.
    destruct (acquire_resume total d (permits m)) as [[st [l|]]| |]; [| |done..];
      injection Hr as <-; cbn [leases threads].
    + rewrite msum_insert_new, !msum_delete, Ht by done. simpl. lia.
    + rewrite !msum_insert, Ht. simpl. lia.
Qed.
Lemma finish_terminates total m : Acc (λ m2 m1, finish_step total m1 m2) m.
Proof.
  remember (Z.to_nat (tokens m)) as n eqn:Hn. revert m Hn.
  induction (lt_wf n) as [n _ IHn]. intros m.
  remember (Z.to_nat (attempts m)) as k eqn:Hk. revert m Hk.
  induction (lt_wf k) as [k _ IHk]. intros m Hk Hn. constructor. intros m' Hstep.
  pose proof (tokens_nonneg m'). pose proof (tokens_nonneg m).
  destruct (finish_step_decreases _ _ _ Hstep) as [?|[? ?]].
  - apply (IHn (Z.to_nat (tokens m'))); [lia|done].
  - apply (IHk (Z.to_nat (attempts m'))); [lia|done|lia].
Qed.

(** When nothing is left to do nobody waits. *)
Lemma finished_quiet total m :
  admission_inv total m → (∀ m', ¬ finish_step total m m') →
  threads m = ∅ ∧ leases m = ∅ ∧ available (permits m) = total.
Proof.
  intros Hinv Hstop. pose proof Hinv as [Htot Ha Hl Hth Hs Hwt Hwu Hsl].
  assert (Hleases : leases m = ∅).
  { apply map_empty. intros id. destruct (leases m !! id) as [l|] eqn:Hid; [|done].
    edestruct Hstop. eapply (finish_drop _ _ _ (fresh (dom (threads m)))); [|done|done].
    apply not_elem_of_dom, is_fresh. }
  assert (Hwait : ∀ t p, threads m !! t = Some p → ∃ d, p = Waiting d).
  { intros t [d|d|c] Ht; [by eauto|exfalso..].
    - destruct (step_inv _ _ _ Hinv (step_resume total m t 0 d Ht ltac:(by rewrite Hleases))) as (m'&Hm'&_).
      eapply (Hstop m'), (finish_resume _ _ _ t 0 d); [done|by rewrite Hleases|done].
    - destruct (step_inv _ _ _ Hinv (step_release total m t c Ht)) as (m'&Hm'&_).
      by eapply (Hstop m'), (finish_release _ _ _ t c). }
  assert (Hav : available (permits m) = total).
  { rewrite Hleases, msum_empty in Hs. rewrite (msum_ext returning (λ _ _, 0)) in Hs.
    - assert (msum (λ _ _, 0) (threads m) = 0) as Hz; [|lia].
      destruct (decide (0 < msum (λ _ _, 0) (threads m))) as [(?&?&?&?)%msum_pos|?]; [lia|].
      assert (0 ≤ msum (λ _ _, 0) (threads m)) by (apply msum_nonneg; lia). lia.
    - intros t p [d ->]%Hwait. done. }
  split_and!; [|done|done]. apply map_empty. intros t.
  destruct (threads m !! t) as [p|] eqn:Ht; [|done]. destruct (Hwait t p Ht) as [d ->].
  apply Hsl in Ht. lia.
Qed.

Lemma progress_release total m t d t' c : admission_inv total m → waiting_for m t d →
  threads m !! t' = Some (Releasing c) → 0 < c →
  ∃ m', finish_step total m m' ∧ leases m' = leases m ∧ threads m' !! t = Some (Woken d) ∧
    0 < available (permits m').
Proof.
  intros Hinv Ht Ht' Hc. destruct (release_step_inv _ _ _ _ Hinv Ht') as (st&notify&Hrel&Hav&Hn&_).
  pose proof (ai_available _ _ Hinv). eexists. split.
  { eapply (finish_release _ _ _ t' c); [done|]. by rewrite Hrel. }
  cbn [leases threads permits]. split_and!; [done| |lia].
  assert (t ≠ t') by (intros ->; destruct Ht; congruence). rewrite lookup_delete_ne by done.
  destruct Ht as [Ht|Ht].
  - rewrite (Hn Hc t d Ht), lookup_fmap, Ht. done.
  - destruct notify; [by rewrite lookup_fmap, Ht|done].
Qed.
Lemma progress_available total m t d : admission_inv total m → waiting_for m t d →
  ∃ m', finishes total m m' ∧ threads m' !! t = Some (Woken d) ∧ 0 < available (permits m') ∧
    ∀ id, leases m !! id = None → leases m' !! id = None.
Proof.
  intros Hinv Ht. pose proof Hinv as [Htot Ha Hl Hth Hs Hwt Hwu Hsl].
  destruct (decide (available (permits m) = 0)) as [Hz|Hz].
  2:{ exists m. split_and!; [constructor| |lia|done]. destruct Ht as [Ht|Ht]; [by apply Hsl in Ht|done]. }
  destruct (decide (0 < msum returning (threads m))) as [Hr|Hr].
  - apply msum_pos in Hr as (t'&p&Hp&Hc). destruct p as [|?|c]; simpl in Hc; try lia.
    destruct (progress_release total m t d t' c Hinv Ht Hp Hc) as (m'&Hstep&Hle&?&?).
    exists m'. split_and!; [by eapply finishes_step; [constructor|]|done..|by rewrite Hle].
  - assert (0 < msum held (leases m)) as (id&l&Hid&Hc)%msum_pos by lia.
    set (t' := fresh (dom (threads m))).
    assert (threads m !! t' = None) as Hfresh by (apply not_elem_of_dom, is_fresh).
    pose proof (step_drop total m t' id l Hfresh Hid) as Hdrop.
    destruct (step_inv _ _ _ Hinv Hdrop) as (m1&[= <-]&Hinv1).
    edestruct (progress_release total _ t d t' (remaining l) Hinv1) as (m'&Hstep&Hle&?&?).
    { destruct Ht as [Ht|Ht]; [left|right]; cbn [threads]; rewrite lookup_insert_ne by congruence; done. }
    { cbn [threads]. apply lookup_insert_eq. }
    { done. }
    exists m'. split_and!; [|done..|].
    + eapply finishes_step; [|done]. eapply finishes_step; [constructor|]. by eapply finish_drop.
    + intros i Hi. rewrite Hle. cbn [leases]. rewrite lookup_delete_None. by right.
Qed.
Lemma progress_grant total m t d id : admission_inv total m → threads m !! t = Some (Woken d) →
  leases m !! id = None → 0 < available (permits m) →
  ∃ m' l, finish_step total m m' ∧ threads m' !! t = None ∧ leases m' !! id = Some l ∧
    requested l = d ∧ 1 ≤ acquired l ≤ d ∧ remaining l = acquired l.
Proof.
  intros Hinv Ht Hid Hav. pose proof Hinv as [Htot Ha Hl Hth Hs Hwt Hwu Hsl].
  assert (waiters (permits m) = msum waits (delete t (threads m)) + 1) as Hw.
  { rewrite msum_delete, Ht. simpl. lia. }
  assert (0 ≤ msum waits (delete t (threads m))) by (apply msum_nonneg; intros ? [] _; simpl; lia).
  assert (1 ≤ d) as Hd by by apply Hth in Ht.
  destruct (settle_inv total m t id d true
    {| available := available (permits m); waiters := waiters (permits m) - 1 |})
    as (m'&Hm'&_&Hgrant); cbn [available waiters]; try (done || congruence || lia).
  destruct Hgrant as [Hth' Hle']; [lia|]. eexists m', _. split_and!.
  - eapply (finish_resume _ _ _ t id d); [done..|]. unfold acquire_resume.
    by rewrite sub_or_panic_in, Ok_bind by lia.
  - by rewrite Hth', lookup_delete_eq.
  - done.
  - done.
  - simpl. lia.
  - simpl. lia.
  - done.
Qed.

Lemma drop_all_split total n l st : 0 ≤ available st → available st + Z.of_nat n ≤ total ≤ usize_max →
  drop_all total (replicate n split_lease ++ [with_remaining l 0]) st =
    Ok {| available := available st + Z.of_nat n; waiters := waiters st |}.
Proof.
  revert st. induction n as [|n IH]; intros [a w] Ha Hn; simpl in *.
  { unfold release. simpl. rewrite Z.add_0_r. done. }
  unfold release at 1. simpl. rewrite checked_add_ok, expect_Some, Ok_bind, (proj2 (Z.leb_le _ _)) by lia.
  change (drop_all total (replicate n split_lease ++ [with_remaining l 0]) {| available := a + 1; waiters := w |} =
    Ok {| available := a + Z.of_nat (S n); waiters := w |}).
  rewrite IH by (simpl; lia). simpl available. do 2 f_equal. lia.
Qed.

(** C35: Permits are conserved under every interleaving.  In every reachable
    state the free permits, those held by leases and those on their way back add
    up to the budget, and none of the assertions and checked operations
    (budget exceeded, counter overflow, empty grant) can fire.  No wakeup is
    lost: a thread sleeps only while no permit is free. *)
Theorem worker_permits_conserved total m :
  1 ≤ total ≤ usize_max → reachable total m →
  (available (permits m) + msum held (leases m) + msum returning (threads m) = total ∧
   0 ≤ available (permits m) ∧ ∀ id l, leases m !! id = Some l → 0 ≤ remaining l ≤ total) ∧
  (∀ r, step total m r → ∃ m', r = Ok m') ∧
  (∀ t d, threads m !! t = Some (Waiting d) → available (permits m) = 0).
Proof.
  intros Ht Hr. assert (admission_inv total m) as Hinv by (eapply steps_inv; [by apply start_inv|done]).
  pose proof (admission_sums _ _ Hinv) as (?&?&?&?). pose proof Hinv as [_ Ha Hl _ Hs _ _ Hsl].
  split_and!; [done|done| | |done].
  - intros id l Hid. pose proof (Hl _ _ Hid). split; [done|].
    pose proof (msum_lookup_le held (leases m) id l Hl Hid). unfold held in *. lia.
  - intros r Hstep. destruct (step_inv _ _ _ Hinv Hstep) as (m'&->&_). eauto.
Qed.

(** C36: Admission makes progress, without new threads and without spurious
    wake-ups: sleepers depend on [notify_all].  From every reachable state,
    letting the holders drop their leases, the returns complete and the woken
    threads take the mutex again (in any order: the steps of [finish_step])
    ends after finitely many steps, and where no such step is left nobody
    waits, no lease is held and every permit is free.  For each thread that
    waits in [acquire], asleep or just woken, such steps lead to a state in
    which it has a lease of at least one and at most the requested number of
    workers. *)
Theorem worker_admission_progress total m :
  1 ≤ total ≤ usize_max → reachable total m →
  Acc (λ m2 m1, finish_step total m1 m2) m ∧
  (∀ m', finishes total m m' → (∀ m2, ¬ finish_step total m' m2) →
     threads m' = ∅ ∧ leases m' = ∅ ∧ available (permits m') = total) ∧
  (∀ t d, waiting_for m t d →
   ∃ m' id l, finishes total m m' ∧ threads m' !! t = None ∧
     leases m !! id = None ∧ leases m' !! id = Some l ∧ requested l = d ∧ 1 ≤ acquired l ≤ d).
Proof.
  intros Ht Hr. assert (admission_inv total m) as Hinv by (eapply steps_inv; [by apply start_inv|done]).
  split_and!; [apply finish_terminates| |].
  { intros m' Hm'. apply finished_quiet. by eapply finishes_inv. }
  intros t d Hw. destruct (progress_available _ _ _ _ Hinv Hw) as (m1&Hs1&Ht1&Ha1&Hl1).
  set (id := fresh (dom (leases m))).
  assert (leases m !! id = None) as Hid by (apply not_elem_of_dom, is_fresh).
  destruct (progress_grant total m1 t d id) as (m2&l&Hstep&?&?&?&?&_); [by eapply finishes_inv|by auto..|].
  exists m2, id, l. split_and!; try done; try lia. by eapply finishes_step.
Qed.

(** The parallel map returns the results in input order, whatever worker
    takes which job, equal to the sequential map, and gives back every permit
    it took; an empty batch takes none. *)
Theorem worker_map_ordered {T R} (apply : T → R) total desired sched inputs st :
  1 ≤ desired ≤ total → total ≤ usize_max → 1 ≤ available st ≤ total → 0 ≤ waiters st < usize_max →
  (∀ i, (sched i < Z.to_nat (Z.min (Z.min desired (blen inputs)) (available st)))%nat) →
  map apply total desired sched inputs st = Ok (st, apply <$> inputs).
Proof.
  intros Hd Ht Ha Hw Hs. destruct inputs as [|x xs]; [done|]. set (inputs := x :: xs) in *.
  assert (1 ≤ blen inputs) as Hlen by (change (blen inputs) with (Z.of_nat (S (length xs))); lia).
  unfold map. fold inputs. change (match inputs with [] => ?a | _ :: _ => ?b end) with b.
  unfold acquire_enter. rewrite (proj2 (Z.leb_le _ _)) by lia.
  change (assert_true true ≫= ?f) with (f ()). rewrite acquire_loop_spec by lia.
  rewrite (proj2 (Z.eqb_neq _ _)) by lia. rewrite Ok_bind. cbv beta iota. rewrite expect_Some, Ok_bind.
  set (k := Z.min _ (available st)) in *. cbn [granted acquired remaining].
  rewrite map_workers_ordered, Ok_bind by (lia || done).
  assert (drop_all total (if k =? 1 then [granted k (desired `min` blen inputs) false]
     else let '(kept, parts) := split (granted k (desired `min` blen inputs) false) in parts ++ [kept])
     {| available := available st - k; waiters := waiters st |} = Ok st) as ->; [|done].
  destruct (Z.eqb_spec k 1) as [E|E].
  - simpl. unfold release. simpl. rewrite (proj2 (Z.eqb_neq k 0)) by lia.
    rewrite checked_add_ok, expect_Some, Ok_bind, (proj2 (Z.leb_le _ _)) by lia. simpl.
    f_equal. destruct st as [a w]. simpl. f_equal. lia.
  - unfold split. rewrite drop_all_split by (simpl; lia). cbn [available waiters granted remaining].
    f_equal. destruct st as [a w]. simpl in *. f_equal. lia.
Qed.

(** One permit: a lease holds it, and a second thread sleeps. *)
Definition busy : machine := {|
  permits := {| available := 0; waiters := 1 |};
  leases := {[0%nat := granted 1 1 false]};
  threads := {[1%nat := Waiting 1]} |}.
Lemma steps_eq total m m1 m2 r : steps total m m1 → step total m1 r → r = Ok m2 → steps total m m2.
Proof. intros ? ? ->. by eapply steps_step. Qed.
Lemma busy_reachable : reachable 1 busy.
Proof.
  eapply steps_eq; [eapply steps_eq; [constructor| |reflexivity]| |].
  - by apply (step_acquire 1 (start 1) 0 0 1).
  - by apply (step_acquire 1 _ 1 1 1).
  - reflexivity.
Qed.
Lemma worker_permits_conserved_witness :
  reachable 1 busy ∧ available (permits busy) = 0 ∧ msum held (leases busy) = 1.
Proof.
  destruct (worker_permits_conserved 1 busy) as ((Hs&_)&_&Hsl); [by vm_compute|apply busy_reachable|].
  split_and!; [apply busy_reachable|by apply (Hsl 1%nat 1)|by vm_compute].
Defined.
Lemma worker_admission_progress_witness :
  ∃ m' id l, finishes 1 busy m' ∧ leases m' !! id = Some l ∧ acquired l = 1.
Proof.
  destruct (worker_admission_progress 1 busy) as (_&_&Hw); [by vm_compute|apply busy_reachable|].
  destruct (Hw 1%nat 1) as (m'&id&l&Hs&_&_&Hl&_&Ha); [by left|].
  exists m', id, l. split_and!; [done..|lia].
Defined.
Lemma worker_map_ordered_witness :
  map (λ x : Z, x * x) 4 3 (λ i, Z.to_nat (i mod 2)) [1; 2; 3; 4; 5] (new 2) = Ok (new 2, [1; 4; 9; 16; 25]).
Proof.
  apply (worker_map_ordered (λ x : Z, x * x) 4 3 (λ i, Z.to_nat (i mod 2)) [1; 2; 3; 4; 5] (new 2));
    [lia|by vm_compute|simpl; lia|by vm_compute|].
  intros i. pose proof (Z.mod_pos_bound i 2). change (Z.to_nat (Z.min (Z.min 3 (blen [1; 2; 3; 4; 5])) (available (new 2)))) with 2%nat. lia.
Defined.
End CpuAdmission.
