(* ===== verification/CandidateReadGate.v ===== *)
(** * The learned gate in front of speculative base reads

    crates/fastdup-store/src/candidate_read_gate.rs: per-bucket evidence of what
    earlier reads saved and cost, and the decision it leads to.  The gate is a
    heuristic; what must hold is that it cannot fail, whatever is observed, and
    that it cannot starve a bucket: a rejected bucket is explored at a fixed
    rate, so that a wrong verdict is revised. *)
From S2P Require Import Prelude Bytes.

Module CandidateReadGate.
Definition BUCKETS : Z := 16 * 3 * 4 * 2.
Definition WARMUP : Z := 8.
Definition EXPLORATION_INTERVAL : Z := 32.
Definition u128_max : Z := 2 ^ 128 - 1.

Definition GateKey := Z.
(** [GateKey::new] *)
Definition key_new (distance base_length independent_bytes target_length : Z) (has_best : bool) : GateKey :=
  let distance := Z.min (distance / 32) 15 in
  let size := if base_length <=? 16 * 1024 then 0 else if base_length <=? 64 * 1024 then 1 else 2 in
  let scaled := saturating_mul usize_max independent_bytes 4 in
  let compression := Z.min (if target_length =? 0 then 0 else scaled / target_length) 3 in
  ((distance * 3 + size) * 4 + compression) * 2 + (if has_best then 1 else 0).

Inductive GateDecision := Allow | Explore | Skip.
#[export] Instance GateDecision_eq_dec : EqDecision GateDecision.
Proof. solve_decision. Defined.

Record Evidence := {
  samples : Z;
  wins : Z;
  saved : Z;
  cost_ns : Z;
  rejected : Z;
}.
Definition Evidence_default : Evidence :=
  {| samples := 0; wins := 0; saved := 0; cost_ns := 0; rejected := 0 |}.
(** [old - old / 32 + new / 32] on [u64] *)
Definition smoothed {E} (old new : Z) : outcome E Z :=
  kept ← sub_or_panic old (old / 32);
  add_or_panic u64_max kept (new / 32).
(** [Evidence::observe] *)
Definition evidence_observe {E} (e : Evidence) (saved_bytes cost : Z) : outcome E Evidence :=
  let wins := Z.lor (Z.shiftl (wins e) 1 mod 2 ^ 32) (if saved_bytes =? 0 then 0 else 1) in
  let samples := saturating_add u8_max (samples e) 1 in
  if samples =? 1 then
    Ok {| samples := samples; wins := wins; saved := saved_bytes; cost_ns := Z.max cost 1;
          rejected := rejected e |}
  else
    saved ← smoothed (saved e) saved_bytes;
    cost ← smoothed (cost_ns e) cost;
    Ok {| samples := samples; wins := wins; saved := saved; cost_ns := Z.max cost 1;
          rejected := rejected e |}.

Record State := { buckets : list Evidence; portfolio : Evidence }.
Definition State_default : State :=
  {| buckets := replicate (Z.to_nat BUCKETS) Evidence_default; portfolio := Evidence_default |}.

(** The product of two [u64] in [u128], which panics on overflow *)
Definition mul128 {E} (a b : Z) : outcome E Z := expect (checked_mul u128_max a b).
Definition inefficient {E} (bucket portfolio : Evidence) : outcome E bool :=
  left ← mul128 (saved bucket) (cost_ns portfolio);
  right ← mul128 (saved portfolio) (cost_ns bucket);
  Ok (saturating_mul u128_max left 4 <? right).
Definition with_rejected (e : Evidence) (r : Z) : Evidence :=
  {| samples := samples e; wins := wins e; saved := saved e; cost_ns := cost_ns e; rejected := r |}.
(** [CandidateReadGate::decide]; [contended] says that [try_lock] failed *)
Definition decide_gate {E} (contended : bool) (key : GateKey) (s : State) : outcome E (GateDecision * State) :=
  if contended then Ok (Allow, s)
  else
    bucket ← vec_at (buckets s) key;
    if samples bucket <? WARMUP then Ok (Allow, s)
    else
      ineff ← inefficient bucket (portfolio s);
      if negb (wins bucket =? 0) && negb ineff then Ok (Allow, s)
      else
        let rejected := (rejected bucket + 1) mod 2 ^ 64 in
        bs ← vec_set (buckets s) key (with_rejected bucket rejected);
        Ok (if rejected mod EXPLORATION_INTERVAL =? 0 then Explore else Skip,
            {| buckets := bs; portfolio := portfolio s |}).
(** [CandidateReadGate::observe] *)
Definition observe {E} (contended : bool) (key : GateKey) (saved_bytes cost : Z) (s : State)
    : outcome E State :=
  if contended then Ok s
  else
    bucket ← vec_at (buckets s) key;
    bucket ← evidence_observe bucket saved_bytes cost;
    bs ← vec_set (buckets s) key bucket;
    portfolio ← evidence_observe (portfolio s) saved_bytes cost;
    Ok {| buckets := bs; portfolio := portfolio |}.

(** ** Runs *)
Inductive operation :=
  | Decide (contended : bool) (key : GateKey)
  | Observe (contended : bool) (key : GateKey) (saved_bytes cost : Z).
(** The decisions taken, with their keys, in order. *)
Fixpoint run {E} (ops : list operation) (s : State) : outcome E (list (GateKey * GateDecision) * State) :=
  match ops with
  | [] => Ok ([], s)
  | Decide contended key :: ops =>
      '(d, s) ← decide_gate contended key s;
      '(ds, s) ← run ops s;
      Ok ((key, d) :: ds, s)
  | Observe contended key saved_bytes cost :: ops =>
      s ← observe contended key saved_bytes cost s;
      run ops s
  end.

(** ** Nothing overflows *)
Record evidence_ok (e : Evidence) : Prop := {
  eo_samples : is_u8 (samples e);
  eo_wins : is_u32 (wins e);
  eo_saved : is_u64 (saved e);
  eo_cost : is_u64 (cost_ns e);
  eo_rejected : is_u64 (rejected e);
}.
Record state_ok (s : State) : Prop := {
  so_length : blen (buckets s) = BUCKETS;
  so_buckets : Forall evidence_ok (buckets s);
  so_portfolio : evidence_ok (portfolio s);
}.
Definition key_ok (key : GateKey) : Prop := 0 ≤ key < BUCKETS.
Definition operation_ok (o : operation) : Prop :=
  match o with
  | Decide _ key => key_ok key
  | Observe _ key saved_bytes cost => key_ok key ∧ is_u64 saved_bytes ∧ is_u64 cost
  end.

Lemma key_new_ok distance base independent target best :
  is_u16 distance → is_u32 base → is_usize independent → is_usize target →
  key_ok (key_new distance base independent target best).
Proof.
  unfold key_ok, key_new, BUCKETS, saturating_mul. intros [? _] _ [Hi _] [Ht _].
  assert (0 ≤ distance / 32) by (apply Z.div_pos; lia).
  assert (0 ≤ (if target =? 0 then 0 else Z.min usize_max (independent * 4) / target)).
  { case_match; zbool; [lia|]. apply Z.div_pos; unfold usize_max, u64_max; lia. }
  repeat case_match; lia.
Qed.
Lemma smoothed_in {E} old new : is_u64 old → is_u64 new →
  ∃ v, @smoothed E old new = Ok v ∧ is_u64 v.
Proof.
  unfold in_u, u64_max. intros Ho Hn. unfold smoothed.
  pose proof (Z.div_mod old 32). pose proof (Z.mod_pos_bound old 32).
  pose proof (Z.div_mod new 32). pose proof (Z.mod_pos_bound new 32).
  rewrite sub_or_panic_in, Ok_bind by lia. unfold u64_max. rewrite add_or_panic_in by lia.
  eexists. split; [done|]. lia.
Qed.
Lemma evidence_observe_ok {E} e sb c : evidence_ok e → is_u64 sb → is_u64 c →
  ∃ e', @evidence_observe E e sb c = Ok e' ∧ evidence_ok e' ∧ rejected e' = rejected e.
Proof.
  intros [H1 H2 H3 H4 H5] Hs Hc. unfold evidence_observe.
  assert (is_u32 (Z.lor (Z.shiftl (wins e) 1 mod 2 ^ 32) (if sb =? 0 then 0 else 1))) as Hw.
  { rewrite Z.shiftl_mul_pow2 by lia. pose proof (Z.mod_pos_bound (wins e * 2 ^ 1) (2 ^ 32) ltac:(lia)) as Hm.
    set (x := (wins e * 2 ^ 1) mod 2 ^ 32) in *. unfold in_u, u32_max.
    assert (0 ≤ (if sb =? 0 then 0 else 1) < 2 ^ 32) as Hb by (case_match; lia).
    assert (0 ≤ Z.lor x (if sb =? 0 then 0 else 1)) as Hpos by (apply Z.lor_nonneg; lia).
    split; [done|]. destruct (Z.eq_dec (Z.lor x (if sb =? 0 then 0 else 1)) 0) as [->|Hz]; [lia|].
    enough (Z.lor x (if sb =? 0 then 0 else 1) < 2 ^ 32) by lia. apply Z.log2_lt_pow2; [lia|].
    rewrite Z.log2_lor by lia. apply Z.max_lub_lt.
    - destruct (Z.eq_dec x 0) as [->|]; [simpl; lia|apply Z.log2_lt_pow2; lia].
    - case_match; simpl; lia. }
  assert (is_u8 (saturating_add u8_max (samples e) 1)) by (unfold saturating_add, in_u, u8_max in *; lia).
  destruct (saturating_add u8_max (samples e) 1 =? 1).
  - eexists. split; [done|]. split; [|done]. split; simpl; try done. unfold in_u, u64_max in *. lia.
  - destruct (@smoothed_in E (saved e) sb) as (v1&->&?); [done..|]. rewrite Ok_bind.
    destruct (@smoothed_in E (cost_ns e) c) as (v2&->&?); [done..|]. rewrite Ok_bind.
    eexists. split; [done|]. split; [|done]. split; simpl; try done. unfold in_u, u64_max in *. lia.
Qed.
Lemma inefficient_ok {E} b p : evidence_ok b → evidence_ok p → ∃ r, @inefficient E b p = Ok r.
Proof.
  intros [_ _ [??] [??] _] [_ _ [??] [??] _]. unfold inefficient, mul128, u64_max in *.
  rewrite !checked_mul_ok by (unfold u128_max; nia). rewrite !expect_Some, !Ok_bind. eauto.
Qed.
Lemma state_bucket s key : state_ok s → key_ok key →
  ∃ b, buckets s !! Z.to_nat key = Some b ∧ evidence_ok b ∧ key < blen (buckets s).
Proof.
  intros [Hl Hb _] [H1 H2]. rewrite Hl. destruct (lookup_lt_is_Some_2 (buckets s) (Z.to_nat key)) as [b Hb'].
  { change (blen (buckets s)) with (Z.of_nat (length (buckets s))) in Hl. lia. }
  exists b. split_and!; [done| |done]. by apply (Forall_lookup_1 _ _ _ _ Hb Hb').
Qed.

(** ** The exploration rate *)

(** How often a bucket was rejected so far. *)
Definition count_of (s : State) (key : GateKey) : Z :=
  from_option rejected 0 (buckets s !! Z.to_nat key).
Lemma count_of_insert s key b p key' : key_ok key → key_ok key' → key < blen (buckets s) →
  count_of {| buckets := <[Z.to_nat key := b]> (buckets s); portfolio := p |} key' =
    if decide (key = key') then rejected b else count_of s key'.
Proof.
  intros [? _] [? _] Hlt. change (blen (buckets s)) with (Z.of_nat (length (buckets s))) in Hlt.
  unfold count_of. simpl. case_decide as Hk.
  - subst. by rewrite list_lookup_insert_eq by lia.
  - by rewrite list_lookup_insert_ne by lia.
Qed.
Lemma state_insert s key b p : state_ok s → evidence_ok b → evidence_ok p →
  state_ok {| buckets := <[Z.to_nat key := b]> (buckets s); portfolio := p |}.
Proof. intros [? ? _] ? ?. split; simpl; [by rewrite blen_insert|by apply Forall_insert|done]. Qed.

(** The verdict on the [n]-th rejection of a bucket. *)
Definition verdict (n : Z) : GateDecision :=
  if n mod 2 ^ 64 mod EXPLORATION_INTERVAL =? 0 then Explore else Skip.

Lemma decide_gate_ok {E} contended key s : state_ok s → key_ok key →
  ∃ d s', @decide_gate E contended key s = Ok (d, s') ∧ state_ok s' ∧
    (d = Allow ∧ s' = s ∨
     d = verdict (count_of s key + 1) ∧ count_of s' key = (count_of s key + 1) mod 2 ^ 64 ∧
     ∀ key', key_ok key' → key' ≠ key → count_of s' key' = count_of s key').
Proof.
  intros Hs Hk. destruct (state_bucket s key Hs Hk) as (b&Hb&Hbo&Hlt). unfold decide_gate.
  destruct contended; [by eauto 10|]. rewrite (vec_at_in _ _ _ Hb), Ok_bind.
  destruct (samples b <? WARMUP); [by eauto 10|].
  destruct (@inefficient_ok E b (portfolio s) Hbo (so_portfolio _ Hs)) as (r&->). rewrite Ok_bind.
  destruct (negb (wins b =? 0) && negb r); [by eauto 10|]. rewrite vec_set_in, Ok_bind by done.
  assert (count_of s key = rejected b) as Hc by (unfold count_of; by rewrite Hb).
  eexists _, _. split; [done|]. split.
  - apply state_insert; [done| |by destruct Hs]. destruct Hbo. split; simpl; try done.
    unfold in_u, u64_max. pose proof (Z.mod_pos_bound (rejected b + 1) (2 ^ 64) ltac:(lia)). lia.
  - right. rewrite Hc. split_and!; [done| |].
    + rewrite count_of_insert by done. by rewrite decide_True.
    + intros key' Hk' Hne. rewrite count_of_insert by done. by rewrite decide_False.
Qed.
Lemma observe_ok {E} contended key sb c s : state_ok s → key_ok key → is_u64 sb → is_u64 c →
  ∃ s', @observe E contended key sb c s = Ok s' ∧ state_ok s' ∧
    ∀ key', key_ok key' → count_of s' key' = count_of s key'.
Proof.
  intros Hs Hk Hsb Hc. destruct (state_bucket s key Hs Hk) as (b&Hb&Hbo&Hlt). unfold observe.
  destruct contended; [by eauto|]. rewrite (vec_at_in _ _ _ Hb), Ok_bind.
  destruct (@evidence_observe_ok E b sb c Hbo Hsb Hc) as (b'&->&Hbo'&Hr). rewrite Ok_bind, vec_set_in, Ok_bind by done.
  destruct (@evidence_observe_ok E (portfolio s) sb c (so_portfolio _ Hs) Hsb Hc) as (p'&->&Hpo'&_).
  rewrite Ok_bind. eexists. split; [done|]. split; [by apply state_insert|].
  intros key' Hk'. rewrite count_of_insert by done. case_decide as E'; [|done]. subst key'.
  unfold count_of. by rewrite Hb.
Qed.

(** The rejections of one bucket in a run. *)
Definition rejections (key : GateKey) (ds : list (GateKey * GateDecision)) : list GateDecision :=
  snd <$> filter (λ d, d.1 = key ∧ d.2 ≠ Allow) ds.
Lemma verdict_not_Allow n : verdict n ≠ Allow.
Proof. unfold verdict. by case_match. Qed.
Lemma verdict_mod n m : n mod 2 ^ 64 = m mod 2 ^ 64 → verdict n = verdict m.
Proof. unfold verdict. by intros ->. Qed.

Lemma run_rejections {E} ops s key : state_ok s → Forall operation_ok ops → key_ok key →
  ∃ ds s', @run E ops s = Ok (ds, s') ∧ state_ok s' ∧
    rejections key ds = (λ i, verdict (count_of s key + 1 + Z.of_nat i)) <$> seq 0 (length (rejections key ds)).
Proof.
  intros Hs Hops Hk. revert s Hs. induction Hops as [|o ops Ho _ IH]; intros s Hs; [by eexists [], s|].
  destruct o as [contended k|contended k sb c]; simpl in *.
  - destruct (@decide_gate_ok E contended k s Hs Ho) as (d&s1&->&Hs1&Hd). rewrite Ok_bind.
    destruct (IH s1 Hs1) as (ds&s2&->&Hs2&Hrej). rewrite Ok_bind. eexists _, s2. split; [done|].
    split; [done|]. unfold rejections in *. rewrite filter_cons.
    destruct Hd as [[-> ->]|(->&Hc&Hother)]; [rewrite decide_False by naive_solver; done|].
    destruct (decide (k = key)) as [->|Hne].
    + rewrite decide_True by (split; [done|apply verdict_not_Allow]). rewrite fmap_cons. cbn [length seq].
      rewrite fmap_cons. f_equal; [simpl; by rewrite Z.add_0_r|]. rewrite Hrej at 1.
      rewrite <- fmap_S_seq, <- list_fmap_compose. apply list_fmap_ext. intros i x _. simpl.
      apply verdict_mod. rewrite Hc. rewrite <- Z.add_assoc, Zplus_mod_idemp_l. f_equal. lia.
    + rewrite decide_False by naive_solver. by rewrite <- Hother.
  - destruct Ho as (Hk'&Hsb&Hc).
    destruct (@observe_ok E contended k sb c s Hs Hk' Hsb Hc) as (s1&->&Hs1&Hcount). rewrite Ok_bind.
    destruct (IH s1 Hs1) as (ds&s2&->&Hs2&Hrej). exists ds, s2. split_and!; [done..|].
    by rewrite <- (Hcount key Hk).
Qed.

Lemma verdict_Explore n : verdict n = Explore ↔ n mod 32 = 0.
Proof.
  unfold verdict, EXPLORATION_INTERVAL.
  rewrite Z.mod_mod_divide by (by exists (2 ^ 59)). case_match; zbool; naive_solver.
Qed.
Lemma rejections_lookup c n i (l : list GateDecision) :
  l = (λ i, verdict (c + Z.of_nat i)) <$> seq 0 n → n = length l → (i < n)%nat →
  l !! i = Some (verdict (c + Z.of_nat i)).
Proof. intros -> _ Hi. rewrite list_lookup_fmap, lookup_seq_lt by done. done. Qed.

Lemma state_default_ok : state_ok State_default.
Proof. split; cbn [State_default buckets portfolio]; [by apply blen_replicate|by apply Forall_replicate|done]. Qed.

(** The gate never fails and never starves a bucket.  Every key the code can
    build names a bucket; any sequence of decisions and observations, contended
    or not, with any 64-bit savings and costs, runs without overflow, division
    by zero or out-of-range access; and among any 32 consecutive rejections of
    a bucket exactly one is an exploration, whatever happens to other buckets
    in between. *)
Theorem candidate_gate_explores ops key :
  Forall operation_ok ops → key_ok key →
  (∀ distance base independent target best, is_u16 distance → is_u32 base → is_usize independent →
     is_usize target → key_ok (key_new distance base independent target best)) ∧
  ∃ ds s, @run unit ops State_default = Ok (ds, s) ∧
    ∀ j : nat, (j + 32 ≤ length (rejections key ds))%nat →
      ∃ i, (j ≤ i < j + 32)%nat ∧ rejections key ds !! i = Some Explore ∧
        ∀ i', (j ≤ i' < j + 32)%nat → rejections key ds !! i' = Some Explore → i' = i.
Proof.
  intros Hops Hk. split; [intros; by apply key_new_ok|].
  destruct (@run_rejections unit ops State_default key state_default_ok Hops Hk) as (ds&s&Hrun&_&Hrej).
  exists ds, s. split; [done|]. intros j Hj. set (c := count_of State_default key + 1) in *.
  assert (∀ i, (j ≤ i < j + 32)%nat → rejections key ds !! i = Some (verdict (c + Z.of_nat i))) as Hlook.
  { intros i Hi. apply (rejections_lookup c (length (rejections key ds))); [done|done|lia]. }
  set (o := (- (c + Z.of_nat j)) mod 32).
  assert (0 ≤ o < 32) as Ho by (apply Z.mod_pos_bound; lia).
  assert ((c + Z.of_nat j + o) mod 32 = 0) as Hz.
  { unfold o. rewrite Zplus_mod_idemp_r. by replace (c + Z.of_nat j + - (c + Z.of_nat j)) with 0 by lia. }
  exists (j + Z.to_nat o)%nat. split_and!; [lia|lia| |].
  - rewrite Hlook by lia. f_equal. apply verdict_Explore.
    by replace (c + Z.of_nat (j + Z.to_nat o)) with (c + Z.of_nat j + o) by lia.
  - intros i Hi Hex. rewrite Hlook in Hex by done. injection Hex as Hex%verdict_Explore.
    pose proof (Z.div_mod (c + Z.of_nat j + o) 32). pose proof (Z.div_mod (c + Z.of_nat i) 32). lia.
Qed.

Definition starved : list operation :=
  replicate 8 (Observe false 0 0 1000) ++ replicate 40 (Decide false 0).
Lemma candidate_gate_explores_witness :
  ∃ ds s, @run unit starved State_default = Ok (ds, s) ∧ length (rejections 0 ds) = 40%nat ∧
    ∃ i, (0 ≤ i < 32)%nat ∧ rejections 0 ds !! i = Some Explore.
Proof.
  destruct (candidate_gate_explores starved 0) as (_&ds&s&Hrun&Hw);
    [repeat constructor; by vm_compute|by vm_compute|].
  assert (length (rejections 0 ds) = 40%nat) as Hl.
  { vm_compute in Hrun. injection Hrun as <- _. by vm_compute. }
  exists ds, s. split_and!; [done..|]. destruct (Hw 0%nat) as (i&Hi&He&_); [rewrite Hl; lia|]. eauto.
Defined.
End CandidateReadGate.
