(* ===== verification/ExactIndexRead.v ===== *)
(** * Reading exact index runs

    The audit that opens an immutable run file
    ([ImmutableExactIndexRun::open] of [fastdup-store/src/exact_index_read.rs])
    and the lookup in an open run ([ExactIndexRunReader::lookup_into] of
    [exact_index_repository.rs]): a binary search over the pages, then a scan of
    the pages that hold the key.

    Reads of the file are a function [read] of the model.  Telemetry, read
    scopes and the accounting of the caches are left out; what a cache may
    answer with is not. *)
From S2P Require Export ExactIndexRun.
From S2P Require Import ReductionFilter.

Module ExactIndexRead.
Import ExactIndex ExactIndexPage ExactIndexRun.

Definition MAX_STORAGE_RANGE_BYTES : Z := 1024 * 1024.
Definition EXACT_SCAN_PAGES_PER_IO : Z := MAX_STORAGE_RANGE_BYTES / EXACT_INDEX_PAGE_BYTES.

(** The errors that the modelled functions return *)
Inductive ExactIndexStoreError :=
  | Io
  | Format (e : ExactIndexFormatError)
  | IdentityMismatch
  | DependencyMismatch
  | CounterOverflow.
Abbreviation store_result A := (outcome ExactIndexStoreError A).
Definition format {A} (m : result A) : store_result A := map_err Format m.
Lemma format_Ok {A} (x : A) : format (Ok x) = Ok x.
Proof. done. Qed.
Lemma format_Err {A} e : format (Err e : result A) = Err (Format e).
Proof. done. Qed.

(** [ExactPageKeyBounds] and its methods *)
Record ExactPageKeyBounds := { bounds_first : list byte * Z; bounds_last : list byte * Z }.
Definition bounds_from_entries {E} (entries : list ExactIndexEntry) : outcome E ExactPageKeyBounds :=
  first ← expect (head entries);
  last ← expect (last entries);
  Ok {| bounds_first := entry_key first; bounds_last := entry_key last |}.
Definition bounds_position (b : ExactPageKeyBounds) (chunk : bytes) (length : Z) : ExactIndexPagePosition :=
  if bool_decide ((chunk, length) <o bounds_first b) then Before
  else if bool_decide (bounds_last b <o (chunk, length)) then After
  else Within.

#[global] Instance profile_eq_dec : EqDecision ExactIndexProfileId.
Proof. intros x y. exact (decide ((x : list byte) = y)). Defined.
#[global] Instance descriptor_eq_dec : EqDecision ExactIndexRunDescriptor.
Proof. solve_decision. Defined.

(** ** Opening *)
Section Open.
Context `{Crc32c, Blake3} (read : Z → Z → store_result bytes).

(** [fn exact_range] *)
Definition exact_range (offset length : Z) : store_result bytes :=
  if MAX_STORAGE_RANGE_BYTES <? length then Err IdentityMismatch else read offset length.

(** The state the visitor of [open] closes over: the audit, the bounds and the
    entries seen so far. *)
Record OpenState := {
  open_audit : ExactIndexRunHashAudit;
  open_bounds : list ExactPageKeyBounds;
  open_entries : list ExactIndexEntry;
}.
(** The body of the loop over [span.chunks_exact(EXACT_INDEX_PAGE_BYTES)], and the loop *)
Definition visit_page (d : ExactIndexRunDescriptor) (s : OpenState) (page_ordinal : Z) (page_bytes : bytes)
    : store_result OpenState :=
  offset ← ok_or (page_offset d page_ordinal) IdentityMismatch;
  page ← format (descriptor_decode_page d page_ordinal page_bytes);
  audit ← format (verify_page (open_audit s) page);
  bounds ← bounds_from_entries (page_entries page);
  audit ← format (audit_update audit offset page_bytes);
  Ok {| open_audit := audit; open_bounds := open_bounds s ++ [bounds];
        open_entries := open_entries s ++ page_entries page |}.
Fixpoint visit_span (d : ExactIndexRunDescriptor) (s : OpenState) (first : Z) (span : bytes) (pages : nat)
    : store_result OpenState :=
  match pages with
  | O => Ok s
  | S pages =>
      page_bytes ← index_range span 0 EXACT_INDEX_PAGE_BYTES;
      rest ← index_from span EXACT_INDEX_PAGE_BYTES;
      s ← visit_page d s first page_bytes;
      visit_span d s (first + 1) rest pages
  end.
(** [fn visit_page_spans] with that visitor.  Every round advances by at least
    one page; running out of fuel would be a loop that does not end. *)
Fixpoint visit_page_spans (fuel : nat) (d : ExactIndexRunDescriptor) (page_count : Z) (s : OpenState) (first : Z)
    : store_result OpenState :=
  if first <? page_count then
    match fuel with
    | O => Panic
    | S fuel =>
        let pages := Z.min (page_count - first) EXACT_SCAN_PAGES_PER_IO in
        offset ← ok_or (page_offset d first) IdentityMismatch;
        span ← exact_range offset (pages * EXACT_INDEX_PAGE_BYTES);
        reject_if (negb (blen span =? pages * EXACT_INDEX_PAGE_BYTES)) IdentityMismatch;;
        s ← visit_span d s first span (Z.to_nat pages);
        visit_page_spans fuel d page_count s (first + pages)
    end
  else Ok s.

(** [ImmutableExactIndexRun::open], given the file's metadata: the page bounds
    it caches and the entries it visits *)
Definition open_run (is_file : bool) (logical_len : Z) (expected : ExactIndexRunDescriptor) : store_result OpenState :=
  expected_length ← ok_or (try_from_u u64_max (file_length expected)) CounterOverflow;
  reject_if (negb is_file || negb (logical_len =? expected_length)) IdentityMismatch;;
  header ← exact_range 0 EXACT_INDEX_HEADER_BYTES;
  footer_offset ← ok_or (checked_sub (file_length expected) EXACT_INDEX_PAGE_BYTES) IdentityMismatch;
  footer_at ← ok_or (try_from_u u64_max footer_offset) CounterOverflow;
  footer ← exact_range footer_at EXACT_INDEX_PAGE_BYTES;
  descriptor ← format (descriptor_decode header footer expected_length);
  reject_if (negb (bool_decide (descriptor = expected))) IdentityMismatch;;
  audit ← format (audit_update (begin_hash_audit descriptor) 0 header);
  s ← visit_page_spans (Z.to_nat (descriptor_page_count descriptor)) descriptor
        (descriptor_page_count descriptor)
        {| open_audit := audit; open_bounds := []; open_entries := [] |} 0;
  footer_at ← ok_or (try_from_u u64_max footer_offset) CounterOverflow;
  audit ← format (audit_update (open_audit s) footer_at footer);
  format (audit_finish audit);;
  Ok {| open_audit := audit; open_bounds := open_bounds s; open_entries := open_entries s |}.
End Open.

(** ** Lookup *)

(** [ExactIndexRunReader]: the pages its cache holds, the file, what the cache of
    page bounds answers at each probe when the run is leased ([mapping]), and the
    membership filter when resident.  For batches: whether the calling thread
    reads independently, whether the leased run was born by a writer, the bounds
    a peek answers (none without a lease), the check that begins an independent
    batch, and whether the page cache holds a page when a key asks for it. *)
Record ExactIndexRunReader := {
  reader_descriptor : ExactIndexRunDescriptor;
  reader_cached : Z → option ExactIndexPage;
  reader_read : Z → Z → store_result bytes;
  reader_mapping : option (Z → option (list ExactPageKeyBounds));
  reader_membership : option ReductionFilter.BlockedBloomHint;
  reader_independent : bool;
  reader_writer_born : bool;
  reader_peek_bounds : option (list ExactPageKeyBounds);
  reader_begin_independent : store_result ();
  reader_peek : Z → Z → bool;
}.

Section Lookup.
Context `{Crc32c} (r : ExactIndexRunReader).

(** [ExactIndexRunReader::load_page] and [read_page] *)
Definition read_page (page_ordinal : Z) : store_result ExactIndexPage :=
  match reader_cached r page_ordinal with
  | Some page => Ok page
  | None =>
      offset ← ok_or (page_offset (reader_descriptor r) page_ordinal) (Format InvalidPage);
      b ← reader_read r offset EXACT_INDEX_PAGE_BYTES;
      format (descriptor_decode_page (reader_descriptor r) page_ordinal b)
  end.
(** [ImmutableExactIndexRun::page_position] *)
Definition page_position (bounds : option (list ExactPageKeyBounds)) (page_ordinal : Z) (chunk : bytes)
    (length : Z) : store_result ExactIndexPagePosition :=
  match bounds with
  | Some bounds =>
      ok_or ((λ b, bounds_position b chunk length) <$> bounds !! Z.to_nat page_ordinal) IdentityMismatch
  | None =>
      offset ← ok_or (page_offset (reader_descriptor r) page_ordinal) IdentityMismatch;
      b ← reader_read r offset EXACT_INDEX_PAGE_BYTES;
      page ← format (descriptor_decode_page (reader_descriptor r) page_ordinal b);
      format (position page chunk length)
  end.

(** The binary search of [ExactIndexRunReader::lookup_into] *)
Fixpoint search_pages (fuel : nat) (chunk : bytes) (length lower upper : Z) : store_result Z :=
  if lower <? upper then
    match fuel with
    | O => Panic
    | S fuel =>
        let middle := lower + (upper - lower) / 2 in
        position ←
          match reader_mapping r with
          | Some bounds => page_position (bounds middle) middle chunk length
          | None => page ← read_page middle; format (position page chunk length)
          end;
        match position with
        | After => search_pages fuel chunk length (middle + 1) upper
        | Before | Within => search_pages fuel chunk length lower middle
        end
    end
  else Ok lower.
(** Its scan of the pages that hold the key *)
Fixpoint scan_pages (fuel : nat) (chunk : bytes) (length maximum_candidates page_ordinal : Z)
    (found : list ExactIndexEntry) : store_result (bool * list ExactIndexEntry) :=
  if page_ordinal <? descriptor_page_count (reader_descriptor r) then
    match fuel with
    | O => Panic
    | S fuel =>
        page ← read_page page_ordinal;
        matches ← format (candidates page chunk length);
        if bool_decide (matches = []) then Ok (true, found)
        else
          let remaining := saturating_sub maximum_candidates (blen found) in
          let accepted := Z.min (blen matches) remaining in
          taken ← index_range matches 0 accepted;
          let found := found ++ taken in
          let key_reaches_page_end :=
            match last (page_entries page) with
            | Some e => bool_decide (chunk_id e = chunk) && (logical_length e =? length)
            | None => false
            end in
          if remaining <? blen matches then Ok (false, found)
          else if negb key_reaches_page_end
                  || (page_ordinal + 1 =? descriptor_page_count (reader_descriptor r))
          then Ok (true, found)
          else if blen found =? maximum_candidates then Ok (false, found)
          else scan_pages fuel chunk length maximum_candidates (page_ordinal + 1) found
    end
  else Ok (true, found).

(** Whether a resident membership filter excludes the key *)
Definition definitely_absent (chunk : bytes) (length : Z) : store_result bool :=
  match reader_membership r with
  | None => Ok false
  | Some membership =>
      hint ← ReductionFilter.probe_for_exact_lookup membership chunk length;
      Ok (match hint with
          | ReductionFilter.DefinitelyAbsent => true
          | ReductionFilter.RequiresExactLookup => false
          end)
  end.
(** [ExactIndexRunReader::lookup_into]: the flag it returns and the candidates *)
Definition lookup_into (chunk : bytes) (length : Z) (found : list ExactIndexEntry) (maximum_candidates : Z)
    : store_result (bool * list ExactIndexEntry) :=
  absent ← definitely_absent chunk length;
  if (absent : bool) then Ok (true, found)
  else
    let pages := descriptor_page_count (reader_descriptor r) in
    lower ← search_pages (Z.to_nat pages) chunk length 0 pages;
    scan_pages (Z.to_nat pages) chunk length maximum_candidates lower found.
(** [ExactIndexRunReader::lookup] *)
Definition MAX_EXACT_LOOKUP_CANDIDATES : Z := 64.
Definition lookup (chunk : bytes) (length : Z) : store_result (bool * list ExactIndexEntry) :=
  lookup_into chunk length [] MAX_EXACT_LOOKUP_CANDIDATES.
End Lookup.

(** ** The audit *)

(** The file with the hash and the checksum of the footer zeroed, which is what
    the run hash covers. *)
Definition zeroed (d : ExactIndexRunDescriptor) (b : bytes) : bytes :=
  splice b (footer_offset d + 184) (zeros 36).
(** The audit after the first [o] bytes and some pages. *)
Definition audit_at (d : ExactIndexRunDescriptor) (b : bytes) (o verified : Z) (previous : option ExactIndexEntry)
    : ExactIndexRunHashAudit :=
  {| audit_descriptor := d; audit_hasher := sub (zeroed d b) 0 o; next_offset := o;
     pages_verified := verified; audit_previous := previous |}.

Lemma sub_splice_in {A} (b : list A) o v o' n :
  0 ≤ o → o + blen v ≤ blen b → o ≤ o' → 0 ≤ n → o' + n ≤ o + blen v →
  sub (splice b o v) o' n = sub v (o' - o) n.
Proof.
  intros. replace o' with (o + (o' - o)) at 1 by lia.
  rewrite <-(sub_sub _ o (blen v)) by lia. by rewrite sub_splice_eq.
Qed.
Lemma sub_splice_out {A} (b : list A) o v o' n :
  0 ≤ o → o + blen v ≤ blen b → 0 ≤ o' → 0 ≤ n → n = 0 ∨ o' + n ≤ o ∨ o + blen v ≤ o' →
  sub (splice b o v) o' n = sub b o' n.
Proof. intros ? ? ? ? [->|?]; [by rewrite !sub_0|by apply sub_splice_ne]. Qed.
Lemma audit_update_in d b o n verified previous :
  descriptor_wf d → blen b = file_length d → 0 ≤ o → 0 ≤ n → o + n ≤ blen b →
  audit_update (audit_at d b o verified previous) o (sub b o n) = Ok (audit_at d b (o + n) verified previous).
Proof.
  intros Hd Hb Ho Hn Hle. destruct (wd_ranges d Hd) as (_&_&?&?). pose proof (wd_file_length d Hd) as Hfl.
  assert (Hx : blen (sub b o n) = n) by (apply blen_sub; lia).
  unfold audit_update, audit_at, RUN_HASH_OFFSET, FOOTER_CRC_OFFSET. cbn [next_offset audit_descriptor audit_hasher
    pages_verified audit_previous]. change (216 + 4) with 220.
  rewrite Hx, Z.eqb_refl. osimpl. rewrite !checked_add_ok by (unfold usize_max, u64_max; lia). osimpl.
  rewrite (proj2 (Z.ltb_ge (file_length d) (o + n))) by lia. osimpl. cbv zeta. rewrite (sub_split (zeroed d b) 0 o) by lia. rewrite Z.add_0_l.
  set (zs := footer_offset d + 184) in *. set (ze := footer_offset d + 220) in *. unfold Hasher.update.
  destruct (Z.ltb_spec (Z.min (Z.max o zs) (o + n)) (Z.max (Z.min (o + n) ze) o)) as [Hov|Hov].
  - set (os := Z.min (Z.max o zs) (o + n)) in *. set (oe := Z.max (Z.min (o + n) ze) o) in *.
    assert (o ≤ os ∧ zs ≤ os ∧ os < oe ∧ oe ≤ o + n ∧ oe ≤ ze ∧ (os = o ∨ os = zs) ∧ (oe = o + n ∨ oe = ze)) as (?&?&?&?&?&?&?)
      by (unfold os, oe, zs, ze in *; lia). unfold zs, ze in *. clearbody os oe.
    rewrite !sub_or_panic_in by lia. osimpl. rewrite (index_range_in (sub b o n)) by (rewrite ?Hx; lia). osimpl.
    rewrite index_range_in by (rewrite ?blen_zeros; lia). osimpl. unfold index_from. rewrite index_range_in by (rewrite ?Hx; lia). osimpl.
    rewrite Hx, !sub_sub, sub_zeros by lia. do 2 f_equal. rewrite <-!app_assoc. f_equal.
    assert (H36 : blen (zeros 36) = 36) by (by apply blen_zeros).
    replace (sub (zeroed d b) o n) with
      (sub (zeroed d b) o (os - o) ++ sub (zeroed d b) os (oe - os) ++ sub (zeroed d b) oe (o + n - oe)).
    2: { replace oe with (os + (oe - os)) at 2 by lia. rewrite <-sub_split by lia.
         replace os with (o + (os - o)) at 2 by lia. rewrite <-sub_split by lia. f_equal. lia. }
    unfold zeroed. rewrite (sub_splice_out _ _ _ o), (sub_splice_out _ _ _ oe), sub_splice_in by (rewrite ?H36; lia).
    rewrite sub_zeros, Z.add_0_r, !Z.sub_0_r by lia. replace (o + (oe - o)) with oe by lia.
    by replace (n - (oe - o)) with (o + n - oe) by lia.
  - osimpl. do 3 f_equal. unfold zeroed. destruct (decide (n = 0)) as [->|]; [by rewrite !sub_0|].
    symmetry. apply sub_splice_ne; rewrite ?blen_zeros; unfold zs, ze in *; lia.
Qed.

(** ** The pages of a file, one by one *)
Definition page_bounds (es : list ExactIndexEntry) : option ExactPageKeyBounds :=
  f ← head es; l ← last es; Some {| bounds_first := entry_key f; bounds_last := entry_key l |}.
Definition open_state (d : ExactIndexRunDescriptor) (b : bytes) (done : list (list ExactIndexEntry)) : OpenState :=
  {| open_audit := audit_at d b (4096 + blen done * 4096) (blen done) (last (concat done));
     open_bounds := omap page_bounds done; open_entries := concat done |}.
(** The next page of the file is [es], and continues the order. *)
Record next_page `{Crc32c} (d : ExactIndexRunDescriptor) (b : bytes) (done : list (list ExactIndexEntry))
    (es : list ExactIndexEntry) : Prop := {
  np_page : run_page_ok d (blen done) es;
  np_bytes : sub b (4096 + blen done * 4096) 4096 = page_bytes (blen done) es;
  np_pair x y : last (concat done) = Some x → head es = Some y → pair_ok x y;
}.
Fixpoint next_pages `{Crc32c} (d : ExactIndexRunDescriptor) (b : bytes) (done pages : list (list ExactIndexEntry)) : Prop :=
  match pages with
  | [] => True
  | p :: pages => next_page d b done p ∧ next_pages d b (done ++ [p]) pages
  end.
Lemma next_pages_app `{Crc32c} d b done l1 l2 :
  next_pages d b done (l1 ++ l2) ↔ next_pages d b done l1 ∧ next_pages d b (done ++ l1) l2.
Proof.
  revert done. induction l1 as [|p l1 IH]; intros done; cbn [app next_pages]; [rewrite app_nil_r; tauto|].
  rewrite IH, <-app_assoc. cbn [app]. tauto.
Qed.

Section Visit.
Context `{Crc32cLaws} (d : ExactIndexRunDescriptor) (b : bytes).
Hypothesis Hd : descriptor_wf d.
Hypothesis Hb : blen b = file_length d.

Definition pair_check (done : list (list ExactIndexEntry)) (f : ExactIndexEntry) : result () :=
  match last (concat done) with Some previous => validate_entry_pair previous f | None => Ok () end.
Lemma pair_check_iff done es f :
  head es = Some f →
  pair_check done f = Ok () ↔ ∀ x y, last (concat done) = Some x → head es = Some y → pair_ok x y.
Proof.
  intros Hf. unfold pair_check. destruct (last (concat done)) as [x|]; [|by split].
  rewrite validate_entry_pair_iff. split; [by intros ? ? ? [= <-] ?; simplify_eq|auto].
Qed.
Lemma no_panic_pair_check done f : no_panic (pair_check done f).
Proof. unfold pair_check. destruct (last (concat done)); [apply no_panic_validate_entry_pair|done]. Qed.

(** One page, after it has been decoded. *)
Lemma verify_page_at done es f l :
  blen done ≤ 2 ^ 32 → head es = Some f → last es = Some l →
  verify_page (open_audit (open_state d b done)) {| page_ordinal := blen done; page_entries := es |} =
  (pair_check done f;; Ok (audit_at d b (4096 + blen done * 4096) (blen (done ++ [es])) (last (concat (done ++ [es]))))).
Proof.
  intros Hn Hf Hl. unfold verify_page, open_state. cbn [open_audit audit_at pages_verified page_ordinal page_entries
    audit_previous audit_descriptor audit_hasher next_offset].
  rewrite Z.eqb_refl, Hf. osimpl. rewrite checked_add_ok by (unfold usize_max, u64_max; lia).
  fold (pair_check done f). destruct (pair_check done f); [|done..]. osimpl. unfold audit_at.
  rewrite concat_app, last_app, blen_app. cbn [concat]. by rewrite app_nil_r, Hl.
Qed.
Lemma visit_page_at done page f l :
  blen done < descriptor_page_count d →
  descriptor_decode_page d (blen done) (sub b (4096 + blen done * 4096) 4096) = Ok page →
  page_ordinal page = blen done → head (page_entries page) = Some f → last (page_entries page) = Some l →
  visit_page d (open_state d b done) (blen done) (sub b (4096 + blen done * 4096) 4096) =
  (format (pair_check done f);; Ok (open_state d b (done ++ [page_entries page]))).
Proof.
  intros Hlt Hdec Hord Hf Hl. pose proof (blen_nonneg done) as Hn. destruct (wd_ranges d Hd) as (?&?&?&?).
  pose proof (wd_footer_offset d Hd). pose proof (wd_file_length d Hd).
  unfold visit_page. rewrite page_offset_in by (done || lia). osimpl. rewrite Hdec. destruct page as [o es]. cbn [page_ordinal page_entries] in *. subst o.
  unfold format. osimpl. rewrite (verify_page_at done es f l) by (done || lia).
  destruct (pair_check done f) as [[]| |]; [|done..]. unfold format. osimpl.
  cbn [page_entries]. unfold bounds_from_entries. rewrite Hf, Hl. osimpl. rewrite audit_update_in by (done || lia). osimpl.
  unfold open_state. rewrite omap_app, concat_app, blen_app. cbn. unfold page_bounds. rewrite Hf, Hl. cbn.
  rewrite app_nil_r. change (blen [es]) with 1.
  by replace (4096 + (blen done + 1) * 4096) with (4096 + blen done * 4096 + 4096) by lia.
Qed.
Lemma visit_page_iff done s' :
  blen done < descriptor_page_count d →
  no_panic (visit_page d (open_state d b done) (blen done) (sub b (4096 + blen done * 4096) 4096)) ∧
  (visit_page d (open_state d b done) (blen done) (sub b (4096 + blen done * 4096) 4096) = Ok s' ↔
   ∃ es, next_page d b done es ∧ s' = open_state d b (done ++ [es])).
Proof.
  intros Hlt. pose proof (blen_nonneg done) as Hn. destruct (wd_ranges d Hd) as (?&?&?&?).
  assert (Hiff : ∀ page, descriptor_decode_page d (blen done) (sub b (4096 + blen done * 4096) 4096) = Ok page ↔
    page_ordinal page = blen done ∧ run_page_ok d (blen done) (page_entries page) ∧
    sub b (4096 + blen done * 4096) 4096 = page_bytes (blen done) (page_entries page)).
  { intros page. apply descriptor_decode_page_iff; unfold usize_max, u64_max; lia. }
  pose proof (descriptor_decode_page_no_panic d (blen done) (sub b (4096 + blen done * 4096) 4096)
    ltac:(lia) ltac:(unfold usize_max, u64_max; lia) ltac:(lia)) as Hnp.
  destruct (descriptor_decode_page d (blen done) (sub b (4096 + blen done * 4096) 4096)) as [page|e|] eqn:Hdec; [| |done].
  - destruct (proj1 (Hiff page) eq_refl) as (Hord&Hok&Hbytes).
    destruct (page_ends _ (proj1 (ok_count _ _ (rp_page _ _ _ Hok)))) as (f&l&Hf&Hl).
    rewrite (visit_page_at done page f l) by done. pose proof (no_panic_pair_check done f) as Hpc.
    split; [unfold format; apply no_panic_bind; [by apply no_panic_map_err|done]|].
    split.
    + intros Hs. apply bind_Ok in Hs as ([]&Hc&[= <-]). apply map_err_Ok in Hc. exists (page_entries page).
      split; [|done]. split; [done|done|]. by apply (pair_check_iff done _ f).
    + intros (es&[Hok' Hb' Hpair]&->). assert (es = page_entries page) as ->.
      { pose proof (proj2 (Hiff {| page_ordinal := blen done; page_entries := es |}) ltac:(by split_and!)) as Heq.
        by apply Ok_inj in Heq as ->. }
      unfold format. rewrite (proj2 (pair_check_iff done _ f Hf) Hpair). done.
  - split.
    + unfold visit_page. rewrite page_offset_in by (done || lia). osimpl. by rewrite Hdec.
    + split.
      * unfold visit_page. rewrite page_offset_in by (done || lia). osimpl. by rewrite Hdec.
      * intros (es&[Hok' Hb' _]&_). 
        by pose proof (proj2 (Hiff {| page_ordinal := blen done; page_entries := es |}) ltac:(by split_and!)).
Qed.

Lemma visit_span_iff n done s' :
  blen done + Z.of_nat n ≤ descriptor_page_count d →
  let run := visit_span d (open_state d b done) (blen done) (sub b (4096 + blen done * 4096) (4096 * Z.of_nat n)) n in
  no_panic run ∧
  (run = Ok s' ↔ ∃ pages, length pages = n ∧ next_pages d b done pages ∧ s' = open_state d b (done ++ pages)).
Proof.
  destruct (wd_ranges d Hd) as (?&_&_&_). pose proof (wd_footer_offset d Hd). pose proof (wd_file_length d Hd).
  revert done. induction n as [|n IH]; intros done Hle; cbn [visit_span]; cbv zeta.
  { split; [done|]. split.
    - intros [= <-]. exists []. by rewrite app_nil_r.
    - intros ([|p ps]&Hl&_&->); [by rewrite app_nil_r|done]. }
  pose proof (blen_nonneg done). unfold EXACT_INDEX_PAGE_BYTES, index_from.
  assert (Hlen : blen (sub b (4096 + blen done * 4096) (4096 * Z.of_nat (S n))) = 4096 * Z.of_nat (S n)) by (apply blen_sub; lia).
  rewrite Hlen, !index_range_in by (rewrite ?Hlen; lia). osimpl. rewrite !sub_sub by lia.
  rewrite Z.add_0_r, Z.sub_0_r.
  destruct (visit_page_iff done) with (s' := s') as [Hnp _]; [lia|].
  assert (Hiff : ∀ s, visit_page d (open_state d b done) (blen done) (sub b (4096 + blen done * 4096) 4096) = Ok s ↔
    ∃ es, next_page d b done es ∧ s = open_state d b (done ++ [es])) by (intros s; apply visit_page_iff; lia).
  assert (Hstep : ∀ es, blen done + 1 = blen (done ++ [es]) ∧
    sub b (4096 + blen done * 4096 + 4096) (4096 * Z.of_nat (S n) - 4096) =
    sub b (4096 + blen (done ++ [es]) * 4096) (4096 * Z.of_nat n)).
  { intros es. rewrite blen_app. change (blen [es]) with 1. split; [done|f_equal; lia]. }
  split.
  - apply no_panic_bind; [done|]. intros s (es&_&->)%Hiff. destruct (Hstep es) as [-> ->].
    apply IH. rewrite blen_app. change (blen [es]) with 1. lia.
  - rewrite bind_Ok. split.
    + intros (s&(es&Hes&->)%Hiff&Hrest). destruct (Hstep es) as [Hs1 Hs2]. rewrite Hs1, Hs2 in Hrest.
      apply IH in Hrest as (pages&<-&Hpages&->); [|rewrite blen_app; change (blen [es]) with 1; lia].
      exists (es :: pages). split_and!; [done|done|]. by rewrite <-app_assoc.
    + intros ([|es pages]&Hl&Hpages&->); [done|]. destruct Hpages as [Hes Hpages].
      exists (open_state d b (done ++ [es])). split; [apply Hiff; by exists es|]. destruct (Hstep es) as [-> ->].
      apply IH; [rewrite blen_app; change (blen [es]) with 1; lia|]. exists pages. rewrite <-app_assoc.
      split_and!; [simpl in *; lia|done|done].
Qed.

Context (read : Z → Z → store_result bytes).
Hypothesis Hread : ∀ o n, 0 ≤ o → 0 ≤ n ≤ MAX_STORAGE_RANGE_BYTES → o + n ≤ blen b → read o n = Ok (sub b o n).

Lemma visit_page_spans_iff fuel done s' :
  blen done ≤ descriptor_page_count d → descriptor_page_count d - blen done ≤ Z.of_nat fuel →
  let run := visit_page_spans read fuel d (descriptor_page_count d) (open_state d b done) (blen done) in
  no_panic run ∧
  (run = Ok s' ↔ ∃ pages, blen done + blen pages = descriptor_page_count d ∧ next_pages d b done pages ∧
                          s' = open_state d b (done ++ pages)).
Proof.
  destruct (wd_ranges d Hd) as (?&_&_&_). pose proof (wd_footer_offset d Hd). pose proof (wd_file_length d Hd).
  revert done. induction fuel as [|fuel IH]; intros done Hle Hfuel; cbn [visit_page_spans]; cbv zeta;
    pose proof (blen_nonneg done); (destruct (Z.ltb_spec (blen done) (descriptor_page_count d)) as [Hlt|Hge]; [|]);
    [lia| | |].
  1,3: split; [done|]; split;
    [intros [= <-]; exists []; rewrite app_nil_r; split_and!; [change (blen []) with 0; lia|done|done]
    |intros (pages&Hc&_&->); assert (pages = []) as -> by (apply blen_0_nil; pose proof (blen_nonneg pages); lia);
     by rewrite app_nil_r].
  set (pages := Z.min (descriptor_page_count d - blen done) EXACT_SCAN_PAGES_PER_IO).
  assert (Hp : 1 ≤ pages ≤ 256 ∧ blen done + pages ≤ descriptor_page_count d).
  { unfold pages. change EXACT_SCAN_PAGES_PER_IO with 256. lia. } clearbody pages.
  rewrite page_offset_in by (done || lia). osimpl. unfold exact_range, EXACT_INDEX_PAGE_BYTES.
  rewrite (proj2 (Z.ltb_ge _ _)) by (unfold MAX_STORAGE_RANGE_BYTES; lia).
  rewrite Hread by (unfold MAX_STORAGE_RANGE_BYTES; lia). osimpl. rewrite blen_sub by lia. rewrite Z.eqb_refl. osimpl.
  replace (pages * 4096) with (4096 * Z.of_nat (Z.to_nat pages)) by lia.
  assert (Hiff : ∀ s, _) by (intros s; exact (visit_span_iff (Z.to_nat pages) done s ltac:(lia))). cbv zeta in Hiff.
  assert (Hlen : ∀ ps : list (list ExactIndexEntry), length ps = Z.to_nat pages → blen done + pages = blen (done ++ ps)).
  { intros ps Hps. rewrite blen_app. change (blen ps) with (Z.of_nat (length ps)). lia. }
  split.
  - apply no_panic_bind; [apply (Hiff s')|]. intros s (ps&Hps&_&->)%Hiff.
    rewrite (Hlen ps Hps). apply IH; rewrite <-(Hlen ps Hps); lia.
  - rewrite bind_Ok. split.
    + intros (s&(ps&Hps&Hnext&->)%Hiff&Hrest). rewrite (Hlen ps Hps) in Hrest.
      apply IH in Hrest as (qs&Hqs&Hnext'&->); [|rewrite <-(Hlen ps Hps); lia..].
      exists (ps ++ qs). rewrite app_assoc. split_and!; [rewrite blen_app in *; lia|by apply next_pages_app|done].
    + intros (all&Hc&Hnext&->). rewrite <-(take_drop (Z.to_nat pages) all) in Hnext. apply next_pages_app in Hnext as [Hn1 Hn2].
      assert (Hall : (Z.to_nat pages ≤ length all)%nat).
      { change (blen all) with (Z.of_nat (length all)) in Hc. lia. }
      assert (Hps : length (take (Z.to_nat pages) all) = Z.to_nat pages) by (rewrite length_take; lia).
      exists (open_state d b (done ++ take (Z.to_nat pages) all)). split; [apply Hiff; by eexists|].
      rewrite (Hlen _ Hps). apply IH; [rewrite <-(Hlen _ Hps); lia..|]. exists (drop (Z.to_nat pages) all).
      rewrite <-app_assoc, take_drop. split_and!; [|done|done]. rewrite <-(Hlen _ Hps).
      change (blen ?x) with (Z.of_nat (length x)) in *. rewrite length_drop. lia.
Qed.
End Visit.

Lemma next_pages_iff `{Crc32cLaws} d b done pages :
  descriptor_wf d → blen b = file_length d → blen done + blen pages ≤ descriptor_page_count d →
  next_pages d b done pages ↔
  pages_ok d (blen done) pages ∧ Sorted pair_ok (concat pages) ∧
  (∀ x y, last (concat done) = Some x → head (concat pages) = Some y → pair_ok x y) ∧
  sub b (4096 + blen done * 4096) (4096 * blen pages) = pages_bytes (blen done) pages.
Proof.
  intros Hd Hb. destruct (wd_ranges d Hd) as (?&_&_&_). pose proof (wd_footer_offset d Hd). pose proof (wd_file_length d Hd).
  revert done. induction pages as [|p pages IH]; intros done Hle; cbn [next_pages pages_ok concat].
  { split; [|done]. intros _. split_and!; [done|constructor|done|by rewrite sub_0]. }
  pose proof (blen_nonneg done). pose proof (blen_nonneg pages). rewrite blen_cons in *.
  rewrite IH by (rewrite blen_app; change (blen [p]) with 1; lia). clear IH.
  assert (Hcat : concat (done ++ [p]) = concat done ++ p) by (rewrite concat_app; cbn [concat]; by rewrite app_nil_r).
  rewrite Hcat, blen_app, Sorted_app_middle. change (blen [p]) with 1.
  assert (Hends : page_ok (blen done) p → p ≠ [] ∧ last (concat done ++ p) = last p ∧ blen (page_bytes (blen done) p) = 4096).
  { intros Hp. destruct (page_ends p (proj1 (ok_count _ _ Hp))) as (f&l&_&Hl). rewrite last_app, Hl.
    split_and!; [by intros ->|done|by apply blen_page_bytes]. }
  assert (Hsplit : sub b (4096 + blen done * 4096) (4096 * (1 + blen pages)) =
    sub b (4096 + blen done * 4096) 4096 ++ sub b (4096 + (blen done + 1) * 4096) (4096 * blen pages)).
  { replace (4096 * (1 + blen pages)) with (4096 + 4096 * blen pages) by lia. rewrite sub_split by lia. do 2 f_equal. lia. }
  assert (Hpb : pages_bytes (blen done) (p :: pages) = page_bytes (blen done) p ++ pages_bytes (blen done + 1) pages) by done.
  rewrite Hsplit, Hpb. split.
  - intros ([Hok Hbytes Hpair]&Hoks&Hs&Hpair'&Hrest). destruct (Hends (rp_page _ _ _ Hok)) as (Hne&Hlast&_).
    rewrite Hlast in Hpair'. split_and!; try done; [apply Hok| |by rewrite Hbytes, Hrest].
    intros x y Hx. destruct p; [done|]. by apply Hpair.
  - intros ((Hok&Hoks)&(Hs&Hs'&Hmid)&Hpair&Hbytes). destruct (Hends (rp_page _ _ _ Hok)) as (Hne&Hlast&Hlen).
    apply app_inj_1 in Hbytes as [Hb1 Hb2].
    2: { assert (blen (sub b (4096 + blen done * 4096) 4096) = 4096) as Hl by (apply blen_sub; lia).
         change (blen ?x) with (Z.of_nat (length x)) in Hl, Hlen. lia. }
    rewrite Hlast. split_and!; try done. split; [done|done|]. intros x y Hx Hy. apply Hpair; [done|]. by destruct p.
Qed.

Lemma pages_ok_last d o pages l :
  pages_ok d o pages → o + blen pages = descriptor_page_count d → last (concat pages) = Some l →
  chunk_id l = maximum_chunk_id d.
Proof.
  revert o. induction pages as [|p pages IH]; intros o; cbn [pages_ok concat]; [done|].
  rewrite blen_cons, last_app. intros [Hp Hps] Hlen Hl. destruct (last (concat pages)) as [x|] eqn:Hx.
  - apply (IH (o + 1)); [done|lia|congruence].
  - apply (rp_last _ _ _ Hp); [|done]. apply last_None in Hx. destruct pages as [|q pages]; [rewrite blen_nil in Hlen; lia|].
    destruct Hps as [Hq _]. pose proof (proj1 (ok_count _ _ (rp_page _ _ _ Hq))) as H1.
    cbn [concat] in Hx. apply app_nil in Hx as [-> _]. rewrite blen_nil in H1. lia.
Qed.
Lemma pages_key_bounds d pages :
  descriptor_wf d → pages_ok d 0 pages → blen pages = descriptor_page_count d → blen (concat pages) = entry_count d →
  key_bounds_of (concat pages) = key_bounds d.
Proof.
  intros Hd Hok Hlen Hcount. destruct pages as [|p pages].
  { rewrite (wd_empty d Hd); [done|]. rewrite <-Hcount. done. }
  destruct (Hok) as [Hp _]. destruct (page_ends p (proj1 (ok_count _ _ (rp_page _ _ _ Hp)))) as (f&_&Hf&_).
  assert (Hf' : head (concat (p :: pages)) = Some f) by (cbn [concat]; by destruct p).
  destruct (last (concat (p :: pages))) as [l|] eqn:Hl; [|apply last_None in Hl; by rewrite Hl in Hf'].
  unfold key_bounds_of. rewrite Hf', Hl, (pages_ok_last d 0 (p :: pages) l Hok Hlen Hl), (rp_first _ _ _ Hp f eq_refl Hf).
  unfold minimum_chunk_id, maximum_chunk_id. pose proof (wd_bounds d Hd).
  rewrite <-(sub_split (key_bounds d) 0 32) by lia. by apply sub_all.
Qed.

(** A file made of a header, pages in order, and a footer with the right hash. *)
Lemma run_decode_parts `{Crc32cLaws, Blake3Laws} d b pages :
  descriptor_wf d → blen b = file_length d →
  sub b 0 4096 = header_bytes d → sub b (blen b - 4096) 4096 = footer_bytes d →
  pages_ok d 0 pages → blen pages = descriptor_page_count d → Sorted pair_ok (concat pages) →
  sub b 4096 (4096 * blen pages) = pages_bytes 0 pages →
  blake3_hash (zeroed d b) = run_hash d →
  pages = chunks 31 (concat pages) ∧
  run_decode b = Ok {| run_profile := profile d; run_generation := generation d; run_entries := concat pages |}.
Proof.
  intros Hd Hb Hh Hf Hok Hlen Hs Hpages Hhash. destruct (wd_ranges d Hd) as (?&?&?&?).
  pose proof (wd_footer_offset d Hd). pose proof (wd_file_length d Hd).
  pose proof (pages_ok_paged d 0 pages ltac:(lia) ltac:(lia) (wd_page_count d Hd) ltac:(lia) Hok) as Hpaged.
  apply paged_chunks in Hpaged as [Hch Hcount].
  unfold saturating_sub in Hcount. rewrite Z.mul_0_l, Z.sub_0_r, Z.max_r in Hcount by lia.
  set (run := {| run_generation := _ |}). split; [done|].
  pose proof (pages_key_bounds d pages Hd Hok Hlen Hcount) as Hkb.
  assert (Hwf : run_wf run).
  { destruct (Hd) as [? ? ? Hpc ? ? ? ? ? ?]. split; simpl; try done; [by eapply pages_ok_entries|].
    rewrite Hcount, <-Hpc. unfold MAX_RUN_BYTES. lia. }
  assert (Hdr : d = descriptor_with run (run_hash d)) by (by apply descriptor_eta).
  assert (Hsplit : b = (header_bytes d ++ pages_bytes 0 pages) ++ footer_bytes d).
  { rewrite <-Hh, <-Hpages, <-Hf. replace (blen b - 4096) with (4096 + 4096 * blen pages) by lia.
    rewrite <-(sub_split b 0 4096) by lia. rewrite <-(sub_split b 0 (4096 + 4096 * blen pages)) by lia.
    symmetry. apply sub_all. lia. }
  assert (Ha : blen (header_bytes d ++ pages_bytes 0 pages) = footer_offset d).
  { rewrite blen_app, <-Hh, <-Hpages, !blen_sub by lia. lia. }
  assert (Hz : zeroed d b = header_bytes d ++ pages_bytes 0 pages ++ footer_blank d).
  { unfold zeroed. rewrite Hsplit at 1. rewrite <-Ha, splice_app_shift, footer_unhashed by (done || lia). by rewrite app_assoc. }
  assert (Hdr' : d = run_descriptor run).
  { rewrite Hdr at 1. unfold run_descriptor. f_equal. rewrite <-Hhash, Hz. f_equal. unfold hashed_bytes. simpl run_entries.
    rewrite <-Hch, Hdr. done. }
  assert (Hbytes : b = run_bytes run).
  { rewrite Hsplit, <-app_assoc. unfold run_bytes. rewrite <-Hdr'. simpl run_entries. by rewrite <-Hch. }
  rewrite Hbytes. by apply run_decode_encode.
Qed.

Section OpenRun.
Context `{Crc32cLaws, Blake3Laws} (read : Z → Z → store_result bytes) (b : bytes) (d : ExactIndexRunDescriptor).
Hypothesis Hread : ∀ o n, 0 ≤ o → 0 ≤ n ≤ MAX_STORAGE_RANGE_BYTES → o + n ≤ blen b → read o n = Ok (sub b o n).
Hypothesis Hd : descriptor_wf d.

Definition opened (s : OpenState) (pages : list (list ExactIndexEntry)) : Prop :=
  open_bounds s = omap page_bounds pages ∧ open_entries s = concat pages.

Definition final_state (pages : list (list ExactIndexEntry)) : OpenState :=
  {| open_audit := audit_at d b (blen b) (blen pages) (last (concat pages));
     open_bounds := omap page_bounds pages; open_entries := concat pages |}.
Lemma open_finish pages :
  blen b = file_length d → blen pages = descriptor_page_count d →
  (footer_at ← ok_or (Some (blen b - 4096)) CounterOverflow;
   audit ← format (audit_update (open_audit (open_state d b pages)) footer_at (sub b (blen b - 4096) 4096));
   format (audit_finish audit);;
   Ok {| open_audit := audit; open_bounds := open_bounds (open_state d b pages);
         open_entries := open_entries (open_state d b pages) |}) =
  if bool_decide (blake3_hash (zeroed d b) = run_hash d) then Ok (final_state pages) else Err (Format RunHashMismatch).
Proof.
  intros Hb Hlen. destruct (wd_ranges d Hd) as (?&?&?&?). pose proof (wd_footer_offset d Hd). pose proof (wd_file_length d Hd).
  rewrite ok_or_Some, Ok_bind.
  cbn [open_audit open_state]. replace (4096 + blen pages * 4096) with (blen b - 4096) by lia.
  rewrite audit_update_in by (done || lia). replace (blen b - 4096 + 4096) with (blen b) by lia.
  unfold format. osimpl. unfold audit_finish, Hasher.finalize, audit_at. cbn [audit_descriptor audit_hasher next_offset pages_verified].
  rewrite Hlen, Hb, !Z.eqb_refl. osimpl.
  assert (blen (zeroed d b) = blen b) as Hz by (unfold zeroed; rewrite blen_splice; [done|lia|rewrite blen_zeros; lia]).
  rewrite (sub_all (zeroed d b)) by (rewrite Hz; lia). destruct (bool_decide (blake3_hash (zeroed d b) = run_hash d)); [|done]. osimpl.
  unfold final_state, audit_at. by rewrite (sub_all (zeroed d b) (blen b)), Hlen, Hb by lia.
Qed.

Lemma open_run_iff :
  no_panic (open_run read true (blen b) d) ∧
  (∀ s, open_run read true (blen b) d = Ok s →
     ∃ pages, blen b = file_length d ∧ sub b 0 4096 = header_bytes d ∧
       sub b (blen b - 4096) 4096 = footer_bytes d ∧ blen pages = descriptor_page_count d ∧
       next_pages d b [] pages ∧ blake3_hash (zeroed d b) = run_hash d ∧ opened s pages) ∧
  (∀ pages, blen b = file_length d → sub b 0 4096 = header_bytes d →
     sub b (blen b - 4096) 4096 = footer_bytes d → blen pages = descriptor_page_count d →
     next_pages d b [] pages → blake3_hash (zeroed d b) = run_hash d →
     ∃ s, open_run read true (blen b) d = Ok s ∧ opened s pages).
Proof.
  destruct (wd_ranges d Hd) as (?&?&?&?). pose proof (wd_footer_offset d Hd). pose proof (wd_file_length d Hd).
  remember (open_run read true (blen b) d) as m eqn:Hm.
  unfold open_run in Hm. cbn [negb orb] in Hm. rewrite try_from_u_ok in Hm by (unfold u64_max; lia). rewrite ok_or_Some, Ok_bind in Hm.
  destruct (Z.eqb_spec (blen b) (file_length d)) as [Hb|Hne]; cbn [negb] in Hm.
  2: { rewrite reject_if_true, Err_bind in Hm. subst m. split_and!; [done|done|]. intros pages Hb. lia. }
  unfold exact_range, EXACT_INDEX_HEADER_BYTES, EXACT_INDEX_PAGE_BYTES in Hm.
  change (MAX_STORAGE_RANGE_BYTES <? 4096) with false in Hm. cbv iota in Hm.
  rewrite reject_if_false, Ok_bind in Hm.
  rewrite Hread, Ok_bind in Hm by (unfold MAX_STORAGE_RANGE_BYTES; lia).
  unfold checked_sub in Hm. rewrite (proj2 (Z.leb_le 4096 (file_length d))), ok_or_Some, Ok_bind in Hm by lia.
  rewrite try_from_u_ok, ok_or_Some, Ok_bind in Hm by (unfold u64_max; lia).
  rewrite Hread, Ok_bind in Hm by (unfold MAX_STORAGE_RANGE_BYTES; lia). rewrite <-Hb in Hm |- *.
  assert (Hbegin : audit_update (begin_hash_audit d) 0 (sub b 0 4096) = Ok (open_audit (open_state d b []))).
  { change (begin_hash_audit d) with (audit_at d b 0 0 None). rewrite audit_update_in by (done || lia). reflexivity. }
  assert (Hspans : ∀ s, _) by (intros s; exact (visit_page_spans_iff d b Hd Hb read Hread
    (Z.to_nat (descriptor_page_count d)) [] s ltac:(change (blen []) with 0; lia) ltac:(change (blen []) with 0; lia))).
  cbv zeta in Hspans. change (blen []) with 0 in Hspans. cbn [app] in Hspans.
  pose proof (descriptor_decode_no_panic (sub b 0 4096) (sub b (blen b - 4096) 4096) (blen b)) as Hnp.
  destruct (descriptor_decode (sub b 0 4096) (sub b (blen b - 4096) 4096) (blen b)) as [d'|e|] eqn:Hdec; [| |done].
  2: { rewrite format_Err, Err_bind in Hm. subst m. split_and!; [done|done|]. intros pages _ Hh Hf. exfalso.
       rewrite Hh, Hf, Hb, descriptor_decode_encode in Hdec by done. done. }
  rewrite format_Ok, Ok_bind in Hm. destruct (decide (d' = d)) as [->|Hne].
  2: { rewrite bool_decide_false in Hm by done. cbn [negb] in Hm. rewrite reject_if_true, Err_bind in Hm. subst m.
       split_and!; [done|done|]. intros pages _ Hh Hf. exfalso.
       rewrite Hh, Hf, Hb, descriptor_decode_encode in Hdec by done. congruence. }
  rewrite bool_decide_true in Hm by done. cbn [negb] in Hm. rewrite reject_if_false, Ok_bind, Hbegin, format_Ok, Ok_bind in Hm.
  change {| open_audit := open_audit (open_state d b []); open_bounds := []; open_entries := [] |} with (open_state d b []) in Hm.
  subst m.
  apply descriptor_decode_iff in Hdec as (_&_&Hh&Hf). split_and!.
  - apply no_panic_bind; [apply (Hspans (open_state d b []))|]. intros s (pages&Hlen&_&->)%Hspans.
    rewrite open_finish by (done || lia). by case_bool_decide.
  - intros s Hs. apply bind_Ok in Hs as (s1&(pages&Hlen&Hnext&->)%Hspans&Hfin).
    rewrite open_finish in Hfin by (done || lia). case_bool_decide; [|done]. apply Ok_inj in Hfin as <-.
    exists pages. split_and!; try done.
  - intros pages _ _ _ Hlen Hnext Hhash. exists (final_state pages). split; [|done].
    rewrite (proj2 (proj2 (Hspans (open_state d b pages)))) by (by exists pages). rewrite Ok_bind.
    rewrite open_finish by (done || lia). by rewrite bool_decide_true.
Qed.

(** A file that decodes to a run is what the audit accepts. *)
Lemma run_bytes_audited run :
  b = run_bytes run → d = run_descriptor run → run_wf run →
  blen b = file_length d ∧ next_pages d b [] (chunks 31 (run_entries run)) ∧ blake3_hash (zeroed d b) = run_hash d ∧
  blen (chunks 31 (run_entries run)) = descriptor_page_count d.
Proof.
  intros Hbr Hdr Hwf. destruct (run_bytes_parts run Hwf) as (_&Hok&Hh&Hf&Hpl&Hlen&Hfl). rewrite <-Hdr, <-?Hbr in *.
  destruct (chunks_paged (run_entries run)) as [_ Hc]. destruct (wd_ranges d Hd) as (?&?&?&?).
  pose proof (wd_footer_offset d Hd) as Hfo. pose proof (wd_file_length d Hd) as Hfl'.
  assert (Hsplit : b = (header_bytes d ++ pages_bytes 0 (chunks 31 (run_entries run))) ++ footer_bytes d).
  { rewrite Hbr, Hdr, <-app_assoc. done. }
  assert (Ha : blen (header_bytes d ++ pages_bytes 0 (chunks 31 (run_entries run))) = footer_offset d).
  { rewrite blen_app, Hh, Hpl. lia. }
  split_and!; [done| | |done].
  - apply next_pages_iff; [done|done|change (blen []) with 0; lia|]. change (blen []) with 0. rewrite Hc, Hlen. split_and!.
    + done.
    + apply (wf_run_sorted run Hwf).
    + done.
    + rewrite Hsplit, sub_app_l, sub_app_r, Hh by lia. replace (4096 + 0 * 4096 - 4096) with 0 by lia.
      apply sub_all. lia.
  - unfold zeroed. rewrite Hsplit at 1. rewrite <-Ha, splice_app_shift, footer_unhashed by (done || lia).
    rewrite Hdr, <-app_assoc. done.
Qed.
End OpenRun.

(** ** Properties *)

(** C24: Opening an immutable run audits the whole file.  With a storage that
    returns the bytes of the file for every range inside it, [open] never
    panics.  What it opens is a file that decodes completely to a run with the
    expected descriptor, and the page bounds and the entries it hands to its
    visitors are those of that run; every such file opens.  What is not a
    regular file is rejected. *)
Theorem exact_open_audits `{Crc32cLaws, Blake3Laws} (read : Z → Z → store_result bytes) (b : bytes)
    (expected : ExactIndexRunDescriptor) :
  (∀ o n, 0 ≤ o → 0 ≤ n ≤ MAX_STORAGE_RANGE_BYTES → o + n ≤ blen b → read o n = Ok (sub b o n)) →
  descriptor_wf expected →
  no_panic (open_run read true (blen b) expected) ∧
  (∀ s, open_run read true (blen b) expected = Ok s →
     ∃ run, run_decode b = Ok run ∧
       descriptor_decode (sub b 0 4096) (sub b (blen b - 4096) 4096) (blen b) = Ok expected ∧
       open_entries s = run_entries run ∧ open_bounds s = omap page_bounds (chunks 31 (run_entries run))) ∧
  (∀ run, run_decode b = Ok run →
     descriptor_decode (sub b 0 4096) (sub b (blen b - 4096) 4096) (blen b) = Ok expected →
     ∃ s, open_run read true (blen b) expected = Ok s) ∧
  open_run read false (blen b) expected = Err IdentityMismatch.
Proof.
  intros Hread Hd. destruct (open_run_iff read b expected Hread Hd) as (Hnp&Hinv&Hok). split_and!; [done| | |].
  3: { destruct (wd_ranges expected Hd) as (_&_&?&_). unfold open_run.
       by rewrite try_from_u_ok by (unfold u64_max; lia). }
  - intros s (pages&Hb&Hh&Hf&Hlen&Hnext&Hhash&Hbs&Hes)%Hinv. apply next_pages_iff in Hnext as (Hpok&Hs&_&Hbytes);
      [|done|done|change (blen []) with 0; lia].
    change (blen []) with 0 in *. replace (4096 + 0 * 4096) with 4096 in Hbytes by lia.
    destruct (run_decode_parts expected b pages) as [Hch Hdec]; [done..|]. eexists. split; [exact Hdec|]. simpl run_entries.
    split; [apply descriptor_decode_iff; done|]. split; [done|]. by rewrite <-Hch.
  - intros run Hrun Hdec. apply run_decode_inv in Hrun as [Hwf Hbr].
    assert (Hdr : expected = run_descriptor run).
    { pose proof (run_bytes_descriptor run Hwf) as Hdec'. cbv zeta in Hdec'. rewrite <-Hbr, Hdec in Hdec'.
      by apply Ok_inj in Hdec'. }
    apply descriptor_decode_iff in Hdec as (_&_&Hh&Hf).
    destruct (run_bytes_audited b expected Hd run Hbr Hdr Hwf) as (Hb&Hnext&Hhash&Hlen).
    destruct (Hok (chunks 31 (run_entries run))) as (s&Hs&_); [done..|]. by exists s.
Qed.
Lemma exact_open_audits_witness :
  ∃ read n expected s, @open_run Crc32cBitwise.ops MixHash.ops read true n expected = Ok s ∧ open_entries s = Sample.entries.
Proof.
  pose proof (@run_decode_encode Crc32cBitwise.ops Crc32cBitwise.laws MixHash.ops MixHash.laws _ sample_run_wf) as Hdec.
  pose proof (@run_bytes_descriptor Crc32cBitwise.ops Crc32cBitwise.laws MixHash.ops MixHash.laws _ sample_run_wf) as Hd.
  revert Hdec Hd. cbv zeta. generalize (@run_bytes Crc32cBitwise.ops MixHash.ops sample_run) as b.
  generalize (@run_descriptor Crc32cBitwise.ops MixHash.ops sample_run) as d. intros d b Hdec Hd.
  destruct (@exact_open_audits Crc32cBitwise.ops Crc32cBitwise.laws MixHash.ops MixHash.laws
    (λ o n, Ok (sub b o n)) b d (λ o n _ _ _, eq_refl) (proj1 (@descriptor_decode_inv Crc32cBitwise.ops Crc32cBitwise.laws _ _ _ _ Hd)))
    as (_&Hinv&Hok&_).
  destruct (Hok _ Hdec Hd) as [s Hs]. destruct (Hinv s Hs) as (run&Hrun&_&Hes&_).
  exists (λ o n, Ok (sub b o n)), (blen b), d, s. split; [exact Hs|].
  rewrite Hes. rewrite Hdec in Hrun. apply Ok_inj in Hrun as <-. reflexivity.
Defined.
End ExactIndexRead.
