(* ===== verification/ExactIndexLookup.v ===== *)
(** * Lookups in an open exact index run

    A lookup through [ExactIndexRunReader] returns the entries of its key: the
    binary search finds the first page that can hold the key, whether it reads
    pages or the page bounds of a leased run, and the scan collects the key's
    entries across page boundaries up to the candidate limit. *)
From S2P Require Export ExactIndexRead.
From S2P Require Import ReductionFilter.

Module ExactIndexLookup.
Import ExactIndex ExactIndexPage ExactIndexRun ExactIndexRead.

(** A reader that is open on the file [b] of a run: the decoded pages it may
    find in its cache and the bounds of a leased run are those of the run, its
    storage returns the bytes of the file, and the membership filter, when
    resident, has been given every key of the run. *)
Record open_on `{Crc32c, Blake3} (r : ExactIndexRunReader) (b : bytes) (run : ExactIndexRun) : Prop := {
  oo_decodes : run_decode b = Ok run;
  oo_descriptor :
    descriptor_decode (sub b 0 4096) (sub b (blen b - 4096) 4096) (blen b) = Ok (reader_descriptor r);
  oo_cached o page : 0 ≤ o → reader_cached r o = Some page →
    chunks 31 (run_entries run) !! Z.to_nat o = Some (page_entries page);
  oo_read o n : 0 ≤ o → 0 ≤ n ≤ MAX_STORAGE_RANGE_BYTES → o + n ≤ blen b → reader_read r o n = Ok (sub b o n);
  oo_mapping bounds o bs : reader_mapping r = Some bounds → bounds o = Some bs →
    bs = omap page_bounds (chunks 31 (run_entries run));
  oo_peek_bounds bs : reader_peek_bounds r = Some bs →
    bs = omap page_bounds (chunks 31 (run_entries run));
  oo_begin_independent : reader_begin_independent r = Ok ();
  oo_membership f : reader_membership r = Some f →
    ∃ keys, ReductionFilter.filter_holds f keys ∧ ∀ e, e ∈ run_entries run → entry_key e ∈ keys;
}.

#[global] Instance position_eq_dec : EqDecision ExactIndexPagePosition.
Proof. solve_decision. Defined.

(** ** Pages in key order *)
Section KeyOrder.
Context (pages : list (list ExactIndexEntry)) (k : list byte * Z).
Hypothesis Hsorted : Sorted pair_ok (concat pages).
Hypothesis Hfull : Forall (λ es, es ≠ []) pages.

(** The page [o] lies below the key. *)
Definition below (o : nat) : Prop := ∃ es l, pages !! o = Some es ∧ last es = Some l ∧ entry_key l <o k.

Lemma page_split o es : pages !! o = Some es →
  concat pages = concat (take o pages) ++ es ++ concat (drop (S o) pages).
Proof. intros Ho. rewrite <-(take_drop_middle pages o es Ho) at 1. rewrite concat_app. done. Qed.
Lemma keys_sorted : StronglySorted (λ x y, entry_key x ≤o entry_key y) (concat pages).
Proof. by apply canonical_keys. Qed.
Lemma page_sorted o es : pages !! o = Some es → Sorted pair_ok es.
Proof.
  intros Ho. pose proof (canonical_strong _ Hsorted) as Hs. rewrite (page_split o es Ho) in Hs.
  apply StronglySorted_app in Hs as (_&_&Hs). apply StronglySorted_app in Hs as (_&Hs&_).
  by apply StronglySorted_Sorted.
Qed.
Lemma page_last o es : pages !! o = Some es → ∃ f l, head es = Some f ∧ last es = Some l.
Proof.
  intros Ho. pose proof (Forall_lookup_1 _ _ _ _ Hfull Ho) as Hne. apply page_ends.
  change (blen es) with (Z.of_nat (length es)). destruct es; [done|]. simpl. lia.
Qed.
Lemma entry_le_last o es l : pages !! o = Some es → last es = Some l → ∀ e, e ∈ es → entry_key e ≤o entry_key l.
Proof.
  intros Ho Hl e He. pose proof (canonical_keys _ (page_sorted _ _ Ho)) as Hs. apply last_Some in Hl as [es' ->].
  apply elem_of_app in He as [He| ->%list_elem_of_singleton]; [|apply ole_refl].
  eapply (StronglySorted_app_1_elem_of (λ x y, entry_key x ≤o entry_key y)); [exact Hs|done|]. by apply list_elem_of_singleton.
Qed.
Lemma last_le_later o es l e :
  pages !! o = Some es → last es = Some l → e ∈ concat (drop (S o) pages) → entry_key l ≤o entry_key e.
Proof.
  intros Ho Hl He. pose proof keys_sorted as Hs. rewrite (page_split o es Ho), app_assoc in Hs.
  eapply (StronglySorted_app_1_elem_of (λ x y, entry_key x ≤o entry_key y)); [exact Hs| |done].
  apply elem_of_app. right. apply last_Some in Hl as [es' ->]. apply elem_of_app. right. by apply list_elem_of_singleton.
Qed.
Lemma page_in_later o o' es : (o < o')%nat → pages !! o' = Some es → ∀ e, e ∈ es → e ∈ concat (drop (S o) pages).
Proof.
  intros Hlt Ho' e He. apply list_elem_of_In, in_concat. exists es. split; [|by apply list_elem_of_In].
  apply list_elem_of_In, (list_elem_of_lookup_2 _ (o' - S o)). rewrite lookup_drop. by replace (S o + (o' - S o))%nat with o' by lia.
Qed.
Lemma below_mono o o' : (o ≤ o')%nat → below o' → below o.
Proof.
  intros Hle (es'&l'&Ho'&Hl'&Hlt). destruct (decide (o = o')) as [->|]; [by exists es', l'|].
  destruct (lookup_lt_is_Some_2 pages o) as [es Ho]; [apply lookup_lt_Some in Ho'; lia|].
  destruct (page_last o es Ho) as (_&l&_&Hl). exists es, l. split_and!; [done..|].
  eapply ole_olt_trans; [|exact Hlt]. eapply (last_le_later o es l l' Ho Hl), (page_in_later o o' es'); [lia|done|].
  apply last_Some in Hl' as [x ->]. apply elem_of_app. right. by apply list_elem_of_singleton.
Qed.
(** The key's entries lie in the pages that are not below it. *)
Lemma matches_from o : (∀ o', (o' < o)%nat → below o') →
  filter (λ e, entry_key e = k) (concat pages) = filter (λ e, entry_key e = k) (concat (drop o pages)).
Proof.
  intros Hbelow. rewrite <-(take_drop o pages) at 1. rewrite concat_app, filter_app.
  rewrite (filter_none _ (concat (take o pages))); [done|].
  intros e (es&Hes&He)%list_elem_of_In%in_concat Hk. apply list_elem_of_In in Hes, He.
  apply list_elem_of_lookup in Hes as [i Hi]. apply lookup_take_Some in Hi as [Hi Hlt].
  destruct (Hbelow i Hlt) as (es'&l&Hi'&Hl&Hk'). simplify_eq.
  apply (olt_irrefl k). rewrite <-Hk at 1. exact (ole_olt_trans _ _ _ (entry_le_last i es l Hi Hl e He) Hk').
Qed.
(** A page that is not below the key and does not end with it ends the search. *)
Lemma no_matches_after o es l :
  pages !! o = Some es → last es = Some l → ¬ below o → entry_key l ≠ k →
  filter (λ e, entry_key e = k) (concat (drop (S o) pages)) = [].
Proof.
  intros Ho Hl Hb Hne. apply filter_none. intros e He Hk. pose proof (last_le_later o es l e Ho Hl He) as Hle.
  apply Hb. exists es, l. split_and!; [done..|]. rewrite Hk in Hle. apply ole_iff in Hle as [|]; done.
Qed.
Lemma no_match_ends es o l :
  pages !! o = Some es → last es = Some l → filter (λ e, entry_key e = k) es = [] → entry_key l ≠ k.
Proof.
  intros Ho Hl Hf Hk. assert (l ∈ filter (λ e, entry_key e = k) es) as Hin; [|by rewrite Hf in Hin; apply elem_of_nil in Hin].
  apply list_elem_of_filter. split; [done|]. apply last_Some in Hl as [x ->]. apply elem_of_app. right. by apply list_elem_of_singleton.
Qed.
(** Where a page lies, from its first and its last key. *)
Lemma place_below o es f l :
  pages !! o = Some es → head es = Some f → last es = Some l →
  (if bool_decide (k <o entry_key f) then Before else if bool_decide (entry_key l <o k) then After else Within) = After ↔
  below o.
Proof.
  intros Ho Hf Hl. assert (Hb : below o ↔ entry_key l <o k).
  { split; [by intros (es'&l'&?&?&?); simplify_eq|]. by exists es, l. }
  rewrite Hb. destruct (bool_decide_reflect (k <o entry_key f)) as [Hlt|]; [|by case_bool_decide].
  split; [done|]. intros Hlk. exfalso. apply (olt_irrefl k), (olt_ole_trans _ _ _ Hlt), olt_ole.
  eapply ole_olt_trans, Hlk. eapply entry_le_last; [done..|]. by apply (page_ends_in es f l).
Qed.
End KeyOrder.

(** ** The reader *)
Section Reader.
Context `{Crc32cLaws, Blake3Laws} (r : ExactIndexRunReader) (b : bytes) (run : ExactIndexRun).
Hypothesis Hopen : open_on r b run.
Context (c : bytes) (n : Z).
Abbreviation pages := (chunks 31 (run_entries run)).
Abbreviation d := (reader_descriptor r).
Abbreviation k := ((c, n) : list byte * Z).

Lemma reader_facts :
  descriptor_wf d ∧ run_wf run ∧ blen b = file_length d ∧ blen pages = descriptor_page_count d ∧ next_pages d b [] pages.
Proof.
  destruct Hopen as [Hdec Hd _ _ _ _ _ _]. apply run_decode_inv in Hdec as [Hwf Hb].
  pose proof (proj1 (descriptor_decode_inv _ _ _ _ Hd)) as Hdwf.
  assert (Hdr : d = run_descriptor run).
  { pose proof (run_bytes_descriptor run Hwf) as Hd'. cbv zeta in Hd'. rewrite <-Hb, Hd in Hd'. by apply Ok_inj in Hd'. }
  destruct (run_bytes_audited b d Hdwf run Hb Hdr Hwf) as (?&?&_&?). done.
Qed.
Lemma pages_sorted : Sorted pair_ok (concat pages).
Proof. destruct reader_facts as (_&Hwf&_). rewrite (proj2 (chunks_paged (run_entries run))). apply Hwf. Qed.
Lemma page_decodes o es : pages !! o = Some es →
  descriptor_decode_page d (Z.of_nat o) (sub b (4096 + Z.of_nat o * 4096) 4096) =
  Ok {| page_ordinal := Z.of_nat o; page_entries := es |} ∧ es ≠ [].
Proof.
  intros Ho. destruct reader_facts as (Hd&_&Hb&Hlen&Hnext). destruct (wd_ranges d Hd) as (?&?&_).
  pose proof (lookup_lt_Some _ _ _ Ho) as Hlt. change (blen pages) with (Z.of_nat (length pages)) in Hlen.
  rewrite <-(take_drop_middle pages o es Ho), next_pages_app in Hnext. destruct Hnext as [_ [[Hok Hbytes _] _]].
  cbn [app] in *. assert (Ho' : blen (take o pages) = Z.of_nat o).
  { change (blen ?x) with (Z.of_nat (length x)). rewrite length_take. lia. }
  rewrite Ho' in *. split.
  - apply descriptor_decode_page_iff; [unfold usize_max, u64_max; lia..|]. done.
  - intros ->. destruct (ok_count _ _ (rp_page _ _ _ Hok)) as [Hc _]. rewrite blen_nil in Hc. lia.
Qed.
Lemma pages_full : Forall (λ es, es ≠ []) pages.
Proof. apply Forall_lookup_2. intros o es Ho. by apply (page_decodes o). Qed.
Lemma page_exists o : 0 ≤ o < descriptor_page_count d → ∃ es, pages !! Z.to_nat o = Some es.
Proof.
  intros Ho. destruct reader_facts as (_&_&_&Hlen&_). change (blen pages) with (Z.of_nat (length pages)) in Hlen.
  apply lookup_lt_is_Some_2. lia.
Qed.
Lemma page_read o : 0 ≤ o < descriptor_page_count d → page_offset d o = Some (4096 + o * 4096) ∧
  reader_read r (4096 + o * 4096) 4096 = Ok (sub b (4096 + o * 4096) 4096).
Proof.
  intros Ho. destruct reader_facts as (Hd&_&Hb&_). pose proof (wd_footer_offset d Hd). pose proof (wd_file_length d Hd).
  split; [by apply page_offset_in|]. apply (oo_read _ _ _ Hopen); unfold MAX_STORAGE_RANGE_BYTES; lia.
Qed.

Lemma read_page_in o es : 0 ≤ o < descriptor_page_count d → pages !! Z.to_nat o = Some es →
  ∃ page, read_page r o = Ok page ∧ page_entries page = es.
Proof.
  intros Ho Hes. unfold read_page. destruct (reader_cached r o) as [page|] eqn:Hc.
  - apply (oo_cached _ _ _ Hopen) in Hc; [|lia]. exists page. split; [done|]. congruence.
  - destruct (page_read o Ho) as [-> Hr]. destruct (page_decodes _ _ Hes) as [Hdec _]. rewrite Z2Nat.id in Hdec by lia.
    unfold EXACT_INDEX_PAGE_BYTES. rewrite ok_or_Some, Ok_bind, Hr, Ok_bind, Hdec. by eexists.
Qed.

(** Either way of placing a page answers [After] iff the page lies below the key. *)
Lemma position_below o es page : pages !! o = Some es → page_entries page = es →
  ∃ p, position page c n = Ok p ∧ (p = After ↔ below pages k o).
Proof.
  intros Ho Hes. destruct (page_last pages pages_full o es Ho) as (f&l&Hf&Hl).
  unfold position. rewrite Hes, Hf, Hl. osimpl. eexists. split; [done|]. by apply (place_below pages k pages_sorted o es).
Qed.
Lemma bounds_lookup o es f l : pages !! o = Some es → head es = Some f → last es = Some l →
  omap page_bounds pages !! o = Some {| bounds_first := entry_key f; bounds_last := entry_key l |}.
Proof.
  intros Ho Hf Hl. pose proof pages_full as Hfull. revert o Ho. induction Hfull as [|p ps Hp _ IH]; intros o Ho; [done|].
  assert (Hb : is_Some (page_bounds p)).
  { unfold page_bounds. destruct p as [|x p]; [done|]. simpl. destruct (last_is_Some (x :: p)) as [_ [y Hy]]; [done|].
    simpl in Hy. rewrite Hy. by eexists. }
  destruct Hb as [bs Hb]. cbn [omap list_omap]. rewrite Hb. destruct o as [|o]; [|by apply IH]. simplify_eq/=.
  unfold page_bounds in Hb. rewrite Hf in Hb. simpl in Hb. rewrite Hl in Hb. by simplify_eq/=.
Qed.
Lemma place_page o es : 0 ≤ o < descriptor_page_count d → pages !! Z.to_nat o = Some es →
  ∃ p, match reader_mapping r with
       | Some bounds => page_position r (bounds o) o c n
       | None => page ← read_page r o; format (position page c n)
       end = Ok p ∧ (p = After ↔ below pages k (Z.to_nat o)).
Proof.
  intros Ho Hes. destruct (read_page_in o es Ho Hes) as (page&Hr&Hpe).
  destruct (position_below _ _ page Hes Hpe) as (p&Hp&Hb).
  destruct (reader_mapping r) as [bounds|] eqn:Hm; [destruct (bounds o) as [bs|] eqn:Hbs|].
  - apply (oo_mapping _ _ _ Hopen _ _ _ Hm) in Hbs. subst bs. unfold page_position.
    destruct (page_last pages pages_full _ es Hes) as (f&l&Hf&Hl). rewrite (bounds_lookup _ _ f l Hes Hf Hl).
    eexists. split; [done|]. unfold bounds_position. by apply (place_below pages k pages_sorted _ es).
  - unfold page_position. destruct (page_read o Ho) as [-> Hr']. destruct (page_decodes _ _ Hes) as [Hdec _].
    rewrite Z2Nat.id in Hdec by lia. unfold EXACT_INDEX_PAGE_BYTES.
    rewrite ok_or_Some, Ok_bind, Hr', Ok_bind, Hdec, format_Ok, Ok_bind.
    destruct (position_below _ _ {| page_ordinal := o; page_entries := es |} Hes eq_refl) as (p'&->&Hb'). by exists p'.
  - rewrite Hr, Ok_bind, Hp. by exists p.
Qed.

(** ** The binary search and the scan *)
Lemma search_pages_spec fuel lower upper :
  0 ≤ lower ≤ upper → upper ≤ descriptor_page_count d → upper - lower ≤ Z.of_nat fuel →
  (∀ o, (o < Z.to_nat lower)%nat → below pages k o) → (∀ o, (Z.to_nat upper ≤ o)%nat → ¬ below pages k o) →
  ∃ x, search_pages r fuel c n lower upper = Ok x ∧ 0 ≤ x ≤ descriptor_page_count d ∧
    (∀ o, (o < Z.to_nat x)%nat → below pages k o) ∧ (∀ o, (Z.to_nat x ≤ o)%nat → ¬ below pages k o).
Proof.
  revert lower upper. induction fuel as [|fuel IH]; intros lower upper Hlu Hup Hf Hlo Hhi; cbn [search_pages];
    (destruct (Z.ltb_spec lower upper) as [Hlt|]; [|exists lower; replace upper with lower in Hhi by lia; split_and!; (done || lia)]);
    [lia|].
  set (m := lower + (upper - lower) / 2). assert (Hm : lower ≤ m < upper).
  { unfold m. pose proof (Z.div_pos (upper - lower) 2). pose proof (Z.div_lt (upper - lower) 2). lia. }
  clearbody m. destruct (page_exists m) as [es Hes]; [lia|]. destruct (place_page m es) as (p&->&Hp); [lia|done|].
  rewrite Ok_bind. destruct (decide (p = After)) as [->|Hne].
  - apply (IH (m + 1) upper); [lia..| |done]. intros o Ho.
    apply (below_mono pages k pages_sorted pages_full o (Z.to_nat m)); [lia|by apply Hp].
  - assert (Hnb : ∀ o, (Z.to_nat m ≤ o)%nat → ¬ below pages k o).
    { intros o Ho Hb. apply Hne, Hp. by apply (below_mono pages k pages_sorted pages_full (Z.to_nat m) o). }
    destruct p; try done; apply (IH lower m); (done || lia).
Qed.

(** What the scan returns: a prefix of the matches, and whether it is all of them. *)
Definition scanned (found : list ExactIndexEntry) (maximum : Z) (matches : list ExactIndexEntry)
    (res : store_result (bool * list ExactIndexEntry)) : Prop :=
  ∃ complete, res = Ok (complete, found ++ take (Z.to_nat (maximum - blen found)) matches) ∧
    (if complete then blen found + blen matches ≤ maximum else maximum ≤ blen found + blen matches).

Lemma scanned_none found maximum : blen found ≤ maximum → scanned found maximum [] (Ok (true, found)).
Proof. intros Hf. exists true. rewrite take_nil, app_nil_r, blen_nil. split; [done|lia]. Qed.
Lemma scanned_all found maximum m :
  blen found + blen m ≤ maximum → scanned found maximum m (Ok (true, found ++ m)).
Proof.
  intros Hf. exists true. split; [|done]. rewrite take_ge; [done|]. change (blen m) with (Z.of_nat (length m)) in Hf. lia.
Qed.
Lemma scanned_cut found maximum m m' :
  blen found ≤ maximum → maximum ≤ blen found + blen m →
  scanned found maximum (m ++ m') (Ok (false, found ++ take (Z.to_nat (maximum - blen found)) m)).
Proof.
  intros Hf Hm. exists false. rewrite blen_app. pose proof (blen_nonneg m'). split; [|lia].
  rewrite take_app_le; [done|]. change (blen m) with (Z.of_nat (length m)) in Hm. lia.
Qed.
Lemma scanned_app found maximum m m' res :
  blen found + blen m ≤ maximum → scanned (found ++ m) maximum m' res → scanned found maximum (m ++ m') res.
Proof.
  intros Hf (complete&->&Hc). exists complete. rewrite !blen_app in *. split; [|destruct complete; lia].
  rewrite <-app_assoc, take_app_ge by (change (blen m) with (Z.of_nat (length m)) in Hf; lia). do 4 f_equal.
  f_equal. change (blen m) with (Z.of_nat (length m)). lia.
Qed.

Lemma scan_pages_spec fuel maximum o found :
  0 ≤ o ≤ descriptor_page_count d → descriptor_page_count d - o ≤ Z.of_nat fuel → blen found ≤ maximum →
  (∀ o', (Z.to_nat o ≤ o')%nat → ¬ below pages k o') →
  scanned found maximum (filter (λ e, entry_key e = k) (concat (drop (Z.to_nat o) pages)))
    (scan_pages r fuel c n maximum o found).
Proof.
  destruct reader_facts as (_&_&_&Hlen&_). change (blen pages) with (Z.of_nat (length pages)) in Hlen.
  revert o found. induction fuel as [|fuel IH]; intros o found Ho Hfuel Hf Hnb; cbn [scan_pages];
    (destruct (Z.ltb_spec o (descriptor_page_count d)) as [Hlt|Hge];
     [|rewrite drop_ge by lia; by apply scanned_none]); [lia|].
  destruct (page_exists o) as [es Hes]; [lia|]. destruct (read_page_in o es) as (page&->&Hpe); [lia|done|].
  destruct (page_last pages pages_full _ es Hes) as (f&l&_&Hl).
  rewrite Ok_bind, candidates_filter, Hpe by (rewrite Hpe; by apply (page_sorted pages pages_sorted _ es Hes)).
  rewrite format_Ok, Ok_bind, (drop_S _ _ _ Hes). cbn [concat]. rewrite filter_app.
  set (m := filter (λ e, entry_key e = k) es). set (m' := filter _ (concat _)).
  pose proof (no_matches_after pages k pages_sorted _ es l Hes Hl (Hnb _ (le_n _)) : _ → m' = []) as Hafter.
  case_bool_decide as Hm.
  { rewrite Hafter, Hm by (by apply (no_match_ends pages k es (Z.to_nat o))). by apply scanned_none. }
  assert (Hend : (bool_decide (chunk_id l = c) && (logical_length l =? n)) = bool_decide (entry_key l = k)).
  { unfold entry_key. destruct (Z.eqb_spec (logical_length l) n); repeat case_bool_decide; naive_solver. }
  pose proof (blen_nonneg m). unfold saturating_sub. rewrite Z.max_r, Hl, Hend by lia.
  rewrite index_range_in by lia. rewrite Ok_bind, Z.sub_0_r.
  destruct (Z.ltb_spec (maximum - blen found) (blen m)) as [Hover|Hfit].
  { rewrite Z.min_r by lia. apply scanned_cut; lia. }
  rewrite Z.min_l, (sub_all m) by lia.
  clear Hend. case_bool_decide as Hk; cbn [negb orb]; [|rewrite Hafter, app_nil_r by done; apply scanned_all; lia].
  destruct (Z.eqb_spec (o + 1) (descriptor_page_count d)) as [Hlast|].
  { unfold m'. rewrite drop_ge, app_nil_r by lia. apply scanned_all. lia. }
  rewrite blen_app. destruct (Z.eqb_spec (blen found + blen m) maximum) as [Hmax|].
  - pose proof (scanned_cut found maximum m m' Hf ltac:(lia)) as Hcut. rewrite take_ge in Hcut; [done|].
    change (blen m) with (Z.of_nat (length m)) in Hmax. lia.
  - apply scanned_app; [lia|]. unfold m'. replace (S (Z.to_nat o)) with (Z.to_nat (o + 1)) by lia.
    apply IH; [lia..|rewrite blen_app; lia|]. intros o' Ho'. apply Hnb. lia.
Qed.

Lemma definitely_absent_spec : blen c = 32 → is_u32 n →
  ∃ absent, definitely_absent r c n = Ok absent ∧
    (absent = true → filter (λ e, entry_key e = k) (run_entries run) = []).
Proof.
  intros Hc Hn. unfold definitely_absent. destruct (reader_membership r) as [f|] eqn:Hm; [|by exists false].
  destruct (oo_membership _ _ _ Hopen f Hm) as (keys&Hholds&Hkeys).
  destruct (@ReductionFilter.probe_holds ExactIndexStoreError f keys k Hholds) as (hint&Hprobe&Hhint).
  { split; simpl; [change (blen c) with (Z.of_nat (length c)) in Hc; lia|]. unfold in_u, u32_max, usize_max, u64_max in *. lia. }
  cbn [fst snd] in Hprobe. rewrite Hprobe, Ok_bind. eexists. split; [done|]. destruct hint; [|done]. intros _.
  apply filter_none. intros e He Hk. assert (ReductionFilter.DefinitelyAbsent = ReductionFilter.RequiresExactLookup); [|done].
  apply Hhint. intros q Hq. exists k. split_and!; [|done|done]. rewrite <-Hk. by apply Hkeys.
Qed.
Lemma lookup_into_spec found maximum :
  blen c = 32 → is_u32 n → blen found ≤ maximum →
  scanned found maximum (filter (λ e, entry_key e = k) (run_entries run)) (lookup_into r c n found maximum).
Proof.
  intros Hc Hn Hf. destruct reader_facts as (Hd&_&_&Hlen&_). destruct (wd_ranges d Hd) as (?&_).
  change (blen pages) with (Z.of_nat (length pages)) in Hlen.
  assert (Hsearch : scanned found maximum (filter (λ e, entry_key e = k) (run_entries run))
    (lower ← search_pages r (Z.to_nat (descriptor_page_count d)) c n 0 (descriptor_page_count d);
     scan_pages r (Z.to_nat (descriptor_page_count d)) c n maximum lower found)).
  { destruct (search_pages_spec (Z.to_nat (descriptor_page_count d)) 0 (descriptor_page_count d)) as (x&->&Hx&Hlo&Hhi); [lia..| |].
    - intros o Ho (es&l&Hes&_). apply lookup_lt_Some in Hes. lia.
    - rewrite Ok_bind, <-(proj2 (chunks_paged (run_entries run))) at 1.
      rewrite (matches_from pages k pages_sorted (Z.to_nat x) Hlo). by apply scan_pages_spec; (lia || done). }
  unfold lookup_into. destruct (definitely_absent_spec Hc Hn) as ([]&->&Habsent); rewrite Ok_bind; [|done].
  rewrite Habsent by done. by apply scanned_none.
Qed.
End Reader.

(** ** Properties *)

(** A lookup in an open run is exact.  Whatever the cache, the leased page
    bounds and the membership filter contribute, [lookup_into] never fails on an
    intact run: it appends to the candidates already found the entries of the
    key, in run order, up to the limit, and nothing else; an answer flagged
    complete holds all of them, also when the key's entries span several pages,
    and an answer that is not complete has reached the limit.  [lookup] is the
    case of no earlier candidates and a limit of 64. *)
Theorem exact_lookup_complete `{Crc32cLaws, Blake3Laws} (r : ExactIndexRunReader) (b : bytes)
    (run : ExactIndexRun) (c : bytes) (n : Z) :
  open_on r b run → blen c = 32 → is_u32 n →
  let matches := filter (λ e, entry_key e = (c, n)) (run_entries run) in
  (∀ found maximum, blen found ≤ maximum →
     ∃ complete, lookup_into r c n found maximum =
         Ok (complete, found ++ take (Z.to_nat (maximum - blen found)) matches) ∧
       (if complete then blen found + blen matches ≤ maximum else maximum ≤ blen found + blen matches)) ∧
  ∃ complete, lookup r c n = Ok (complete, take 64 matches) ∧
    (if complete then blen matches ≤ 64 else 64 ≤ blen matches).
Proof.
  intros Hopen Hc Hn matches. split.
  - intros found maximum Hf. by apply (lookup_into_spec r b run Hopen c n found maximum).
  - apply (lookup_into_spec r b run Hopen c n [] MAX_EXACT_LOOKUP_CANDIDATES Hc Hn).
    unfold MAX_EXACT_LOOKUP_CANDIDATES. rewrite blen_nil. lia.
Qed.
Lemma exact_lookup_complete_witness :
  ∃ r, reader_membership r ≠ None ∧ reader_mapping r ≠ None ∧
    ∃ complete, @lookup Crc32cBitwise.ops r (replicate 32 (byte_of_Z 2)) 100 = Ok (complete, [Sample.entry 2]).
Proof.
  pose proof (@run_decode_encode Crc32cBitwise.ops Crc32cBitwise.laws MixHash.ops MixHash.laws _ sample_run_wf) as Hdec.
  pose proof (@run_bytes_descriptor Crc32cBitwise.ops Crc32cBitwise.laws MixHash.ops MixHash.laws _ sample_run_wf) as Hd.
  revert Hdec Hd. cbv zeta. generalize (@run_bytes Crc32cBitwise.ops MixHash.ops sample_run) as b.
  generalize (@run_descriptor Crc32cBitwise.ops MixHash.ops sample_run) as d. intros d b Hdec Hd.
  destruct (ReductionFilter.bloom_new true 100 4096) as [f0| |] eqn:Hf0; [|exfalso; vm_compute in Hf0; discriminate Hf0..].
  destruct (ReductionFilter.bloom_new_holds true 100 4096 f0 ltac:(lia) Hf0) as [Hempty _]. clear Hf0.
  destruct (@ReductionFilter.insert_hints_holds unit f0 (entry_key <$> Sample.entries) [] Hempty) as (f&_&Hf&_).
  { repeat constructor; by vm_compute. }
  set (r := {| reader_descriptor := d; reader_cached := λ _, None; reader_read := λ o n, Ok (sub b o n);
    reader_mapping := Some (λ _, Some (omap page_bounds (chunks 31 Sample.entries)));
    reader_membership := Some f; reader_independent := false; reader_writer_born := false;
    reader_peek_bounds := Some (omap page_bounds (chunks 31 Sample.entries));
    reader_begin_independent := Ok (); reader_peek := λ _ _, false |}).
  assert (Hopen : @open_on Crc32cBitwise.ops MixHash.ops r b sample_run).
  { split; [exact Hdec|exact Hd|discriminate|reflexivity|intros ? ? ? [=<-] [=<-]; reflexivity|intros ? [=<-]; reflexivity|reflexivity|]. intros ? [=<-].
    eexists. split; [exact Hf|]. intros e He. rewrite app_nil_r, elem_of_reverse. by apply list_elem_of_fmap_2. }
  destruct (@exact_lookup_complete Crc32cBitwise.ops Crc32cBitwise.laws MixHash.ops MixHash.laws r b sample_run
    (replicate 32 (byte_of_Z 2)) 100 Hopen) as [_ (complete&Hl&_)].
  { vm_compute. reflexivity. }
  { vm_compute. split; discriminate. }
  exists r. split; [discriminate|]. split; [discriminate|]. exists complete. rewrite Hl. reflexivity.
Defined.
End ExactIndexLookup.
