(* ===== verification/ExactIndexActive.v ===== *)
(** * The active exact index ([ActivatedExactIndex] of
      [fastdup-store/src/exact_index_repository.rs])

    An activation opens the runs of a run set and groups them into families,
    newest first.  A lookup asks, family by family, the one run whose key range
    can hold the chunk.  The lookup is proved against a specification that does
    not know families: all entries of all runs, newest family first. *)
From S2P Require Export ExactIndexLookup RunSet.
From S2P Require Import Activation.

Module ExactIndexActive.
Import ExactIndex ExactIndexPage ExactIndexRun ExactIndexRead ExactIndexLookup RunSet.

Definition MAX_ACTIVE_EXACT_INDEX_FAMILIES : Z := 64.

Record ExactIndexLookupFamily := {
  lookup_level : Z;
  lookup_generation : Z;
  reader_indices : list Z;
}.
Record ActivatedExactIndex := {
  active_record : Activation.ActivationRecord;
  active_run_set : ExactIndexRunSet;
  readers : list ExactIndexRunReader;
  lookup_families : list ExactIndexLookupFamily;
}.

(** One run of the loop of [ActivatedExactIndex::new]: it joins its family or
    starts one. *)
Fixpoint join_family (families : list ExactIndexLookupFamily) (index : Z) (run : ExactIndexRunRef)
    : list ExactIndexLookupFamily :=
  match families with
  | [] => [{| lookup_level := ref_level run; lookup_generation := family_generation run; reader_indices := [index] |}]
  | f :: families =>
      if (lookup_level f =? ref_level run) && (lookup_generation f =? family_generation run) then
        {| lookup_level := lookup_level f; lookup_generation := lookup_generation f;
           reader_indices := reader_indices f ++ [index] |} :: families
      else f :: join_family families index run
  end.
Fixpoint join_families (families : list ExactIndexLookupFamily) (index : Z) (runs : list ExactIndexRunRef)
    : list ExactIndexLookupFamily :=
  match runs with
  | [] => families
  | run :: runs => join_families (join_family families index run) (index + 1) runs
  end.
(** The runs that a family's indices name; an index out of range panics *)
Fixpoint runs_at {E} (runs : list ExactIndexRunRef) (indices : list Z) : outcome E (list ExactIndexRunRef) :=
  match indices with
  | [] => Ok []
  | index :: indices => run ← vec_at runs index; rest ← runs_at runs indices; Ok (run :: rest)
  end.
(** [family.reader_indices.sort_unstable_by_key(|index| runs[*index].partition_ordinal())] *)
Definition sort_family {E} (runs : list ExactIndexRunRef) (f : ExactIndexLookupFamily)
    : outcome E ExactIndexLookupFamily :=
  refs ← runs_at runs (reader_indices f);
  let sorted := sort_by_key (λ x, partition_ordinal x.2) (zip (reader_indices f) refs) in
  Ok {| lookup_level := lookup_level f; lookup_generation := lookup_generation f; reader_indices := sorted.*1 |}.
Fixpoint sort_families {E} (runs : list ExactIndexRunRef) (families : list ExactIndexLookupFamily)
    : outcome E (list ExactIndexLookupFamily) :=
  match families with
  | [] => Ok []
  | f :: families => f ← sort_family runs f; rest ← sort_families runs families; Ok (f :: rest)
  end.
(** The key [(Reverse(family_generation), Reverse(level))] *)
Definition family_key (f : ExactIndexLookupFamily) : Z * Z := (- lookup_generation f, - lookup_level f).

(** [ActivatedExactIndex::new] *)
Definition active_new (record : Activation.ActivationRecord) (run_set : ExactIndexRunSet)
    (readers : list ExactIndexRunReader) : store_result ActivatedExactIndex :=
  reject_if (negb (blen readers =? blen (runs run_set))
    || (MAX_ACTIVE_EXACT_INDEX_FAMILIES <? family_count run_set)) DependencyMismatch;;
  let families := join_families [] 0 (runs run_set) in
  families ← sort_families (runs run_set) families;
  let families := sort_by_key family_key families in
  reject_if (negb (blen families =? family_count run_set)) DependencyMismatch;;
  Ok {| active_record := record; active_run_set := run_set; readers := readers; lookup_families := families |}.

Section Lookup.
Context `{Crc32c} (ix : ActivatedExactIndex) (chunk : bytes) (length : Z).

(** The run of a family that can hold the chunk *)
Definition family_run (f : ExactIndexLookupFamily) : store_result (option Z) :=
  refs ← runs_at (runs (active_run_set ix)) (reader_indices f);
  let partition_ordinal := partition_point (λ r, bool_decide (ref_maximum r <o chunk)) refs in
  match reader_indices f !! partition_ordinal with
  | None => Ok None
  | Some index =>
      run_ref ← vec_at (runs (active_run_set ix)) index;
      Ok (if bool_decide (chunk <o ref_minimum run_ref) then None else Some index)
  end.
(** The loop of [ActivatedExactIndex::lookup_transitions_into] *)
Fixpoint lookup_in_families (families : list ExactIndexLookupFamily) (complete : bool)
    (candidates : list ExactIndexEntry) : store_result (bool * list ExactIndexEntry) :=
  match families with
  | [] => Ok (complete, candidates)
  | f :: families =>
      selected ← family_run f;
      match selected with
      | None => lookup_in_families families complete candidates
      | Some index =>
          reader ← vec_at (readers ix) index;
          '(run_complete, candidates) ← lookup_into reader chunk length candidates MAX_EXACT_LOOKUP_CANDIDATES;
          let complete := complete && run_complete in
          if blen candidates =? MAX_EXACT_LOOKUP_CANDIDATES then Ok (false, candidates)
          else lookup_in_families families complete candidates
      end
  end.
(** [ActivatedExactIndex::lookup_transitions_into] and [lookup_transitions] *)
Definition lookup_transitions_into (candidates : list ExactIndexEntry) : store_result (bool * list ExactIndexEntry) :=
  let candidates := [] in
  lookup_in_families (lookup_families ix) true candidates.
Definition lookup_transitions : store_result (bool * list ExactIndexEntry) := lookup_transitions_into [].
End Lookup.

(** [ActivatedExactIndex::active_reference]: its loop, with the newer candidates *)
Fixpoint select_active (preferred : option ExactIndexEntry) (newer : list ExactIndexEntry)
    (first : option ExactIndexEntry) (candidates : list ExactIndexEntry) : option ExactIndexEntry :=
  match candidates with
  | [] => first
  | candidate :: candidates =>
      let newer' := newer ++ [candidate] in
      if existsb (λ e, bool_decide (location e = location candidate)) newer
         || negb (bool_decide (transition candidate = Active))
      then select_active preferred newer' first candidates
      else if bool_decide (preferred = None) || bool_decide (preferred = Some candidate)
      then Some candidate
      else select_active preferred newer' (match first with Some e => Some e | None => Some candidate end) candidates
  end.
Definition active_reference `{Crc32c} (ix : ActivatedExactIndex) (chunk : bytes) (length : Z)
    (preferred : option ExactIndexEntry) : store_result (option ExactIndexEntry) :=
  '(_, candidates) ← lookup_transitions ix chunk length;
  Ok (select_active preferred [] None candidates).
(** [ActivatedExactIndex::permits_active_overlay] *)
Definition permits_active_overlay `{Crc32c} (ix : ActivatedExactIndex) (candidate : ExactIndexEntry) : store_result bool :=
  if negb (bool_decide (transition candidate = Active)) then Ok false
  else
    '(complete, candidates) ← lookup_transitions ix (chunk_id candidate) (logical_length candidate);
    match list_find (λ current, location current = location candidate) candidates with
    | Some (_, current) => Ok (bool_decide (transition current = Active))
    | None => Ok complete
    end.

(** [verify_run_reference]; [u64::try_from] of a [usize] succeeds *)
Definition verify_run_reference (run_ref : ExactIndexRunRef) (d : ExactIndexRunDescriptor) : store_result unit :=
  if negb (bool_decide (ref_profile run_ref = profile d))
     || negb (ref_generation run_ref =? generation d)
     || negb (bool_decide (ref_hash run_ref = run_hash d))
     || negb (ref_file_length run_ref =? file_length d)
     || negb (ref_entry_count run_ref =? entry_count d)
     || negb (bool_decide (ref_minimum run_ref = minimum_chunk_id d))
     || negb (bool_decide (ref_maximum run_ref = maximum_chunk_id d))
  then Err DependencyMismatch
  else Ok ().

(** ** Grouping *)
Definition indices_of (fams : list ExactIndexLookupFamily) : list Z := concat (reader_indices <$> fams).
Definition names_of (fams : list ExactIndexLookupFamily) : list (Z * Z) :=
  (λ f, (lookup_generation f, lookup_level f)) <$> fams.

Lemma StronglySorted_concat {A} (R : A → A → Prop) ls :
  Forall (StronglySorted R) ls → StronglySorted (λ l k, ∀ x y, x ∈ l → y ∈ k → R x y) ls →
  StronglySorted R (concat ls).
Proof.
  induction ls as [|l ls IH]; intros Hf Hs; [constructor|]. apply Forall_cons_1 in Hf as [Hl Hf].
  apply StronglySorted_inv in Hs as [Hs Hx]. rewrite list.Forall_forall in Hx. cbn [concat].
  apply StronglySorted_app_2; [|done|auto]. intros x y Hxl (k&Hk&Hy)%list_elem_of_In%in_concat.
  apply list_elem_of_In in Hk, Hy. by apply (Hx k).
Qed.

Section Grouping.
Context (rs : list ExactIndexRunRef).

(** The runs a family's indices name belong to the family. *)
Definition names_runs (f : ExactIndexLookupFamily) : Prop :=
  ∀ i, i ∈ reader_indices f → 0 ≤ i ∧ ∃ r, rs !! Z.to_nat i = Some r ∧
    ref_level r = lookup_level f ∧ family_generation r = lookup_generation f.
Record grouped (fams : list ExactIndexLookupFamily) (n : Z) : Prop := {
  gr_indices : indices_of fams ≡ₚ seqZ 0 n;
  gr_runs : Forall names_runs fams;
  gr_names : NoDup (names_of fams);
}.
Lemma join_family_spec fams i r :
  0 ≤ i → rs !! Z.to_nat i = Some r → Forall names_runs fams →
  indices_of (join_family fams i r) ≡ₚ indices_of fams ++ [i] ∧
  Forall names_runs (join_family fams i r) ∧
  (names_of (join_family fams i r) = names_of fams ∨
   names_of (join_family fams i r) = names_of fams ++ [(family_generation r, ref_level r)] ∧
   (family_generation r, ref_level r) ∉ names_of fams).
Proof.
  intros Hi Hr. induction fams as [|f fams IH]; intros Hf; cbn [join_family].
  { split_and!; [done| |by right; split; [|apply not_elem_of_nil]]. repeat constructor.
    - cbn [reader_indices] in *. by apply list_elem_of_singleton in H as ->.
    - exists r. cbn [reader_indices] in *. by apply list_elem_of_singleton in H as ->. }
  apply Forall_cons_1 in Hf as [Hf Hfs]. unfold indices_of, names_of in *.
  destruct (Z.eqb_spec (lookup_level f) (ref_level r)) as [Hl|Hl]; cbn [andb];
    [destruct (Z.eqb_spec (lookup_generation f) (family_generation r)) as [Hg|Hg]|].
  - cbn [fmap list_fmap concat reader_indices]. split_and!; [|constructor; [|done]|by left].
    + rewrite <-!app_assoc. f_equiv. by rewrite Permutation_app_comm.
    + intros j [Hj| ->%list_elem_of_singleton]%elem_of_app; [by apply Hf|]. split; [done|]. by exists r.
  - destruct (IH Hfs) as (Hp&Hr'&Hn). cbn [fmap list_fmap concat]. split_and!; [by rewrite Hp, app_assoc|by constructor|].
    destruct Hn as [->|[-> Hn]]; [by left|right]. split; [done|]. apply not_elem_of_cons. split; [congruence|done].
  - destruct (IH Hfs) as (Hp&Hr'&Hn). cbn [fmap list_fmap concat]. split_and!; [by rewrite Hp, app_assoc|by constructor|].
    destruct Hn as [->|[-> Hn]]; [by left|right]. split; [done|]. apply not_elem_of_cons. split; [congruence|done].
Qed.
Lemma join_families_spec fams i rest :
  0 ≤ i → rs = take (Z.to_nat i) rs ++ rest → (Z.to_nat i ≤ length rs)%nat → grouped fams i →
  grouped (join_families fams i rest) (blen rs).
Proof.
  revert fams i. induction rest as [|r rest IH]; intros fams i Hi Hrs Hlen Hg; cbn [join_families].
  { rewrite app_nil_r in Hrs. assert (length rs = length (take (Z.to_nat i) rs)) as Hl by (by rewrite <-Hrs).
    rewrite length_take in Hl. change (blen rs) with (Z.of_nat (length rs)).
    by replace (Z.of_nat (length rs)) with i by lia. }
  assert (Hr : rs !! Z.to_nat i = Some r).
  { rewrite Hrs, lookup_app_r by (rewrite length_take; lia). rewrite length_take. by replace (_ - _)%nat with 0%nat by lia. }
  destruct Hg as [Hp Hf Hn]. destruct (join_family_spec fams i r Hi Hr Hf) as (Hp'&Hf'&Hn').
  pose proof (lookup_lt_Some _ _ _ Hr) as Hlt. apply IH; [lia| |lia|].
  - rewrite Hrs at 1. replace (Z.to_nat (i + 1)) with (S (Z.to_nat i)) by lia.
    rewrite (take_S_r _ _ _ Hr), <-app_assoc. done.
  - split; [|done|].
    + rewrite Hp', Hp. replace (i + 1) with (Z.of_nat (S (Z.to_nat i))) by lia. rewrite seqZ_S.
      by rewrite Z2Nat.id, Z.add_0_l by lia.
    + destruct Hn' as [->|[-> Hn']]; [done|]. apply NoDup_app. split_and!; [done| |apply NoDup_singleton].
      by intros x Hx ->%list_elem_of_singleton.
Qed.
End Grouping.

Lemma StronglySorted_fmap_in {A B} (f : A → B) (R : A → A → Prop) (S : B → B → Prop) l :
  (∀ x y, x ∈ l → y ∈ l → R x y → S (f x) (f y)) → StronglySorted R l → StronglySorted S (f <$> l).
Proof.
  intros Himp Hs. induction Hs as [|x l _ IH Hx]; [constructor|]. rewrite list.Forall_forall in Hx.
  cbn [fmap list_fmap]. constructor; [apply IH; intros; apply Himp; by (apply elem_of_cons; right) || done|].
  apply Forall_fmap, list.Forall_forall. intros y Hy. apply Himp; [by left|by right|auto].
Qed.
Lemma StronglySorted_lookup {A} (R : A → A → Prop) l i j x y :
  StronglySorted R l → l !! i = Some x → l !! j = Some y → (i < j)%nat → R x y.
Proof.
  intros Hs. revert i j. induction Hs as [|z l _ IH Hz]; intros i j Hi Hj Hlt; [done|].
  destruct j as [|j]; [lia|]. destruct i as [|i]; [|by apply (IH i j); [..|lia]].
  injection Hi as <-. rewrite list.Forall_forall in Hz. by apply Hz, (list_elem_of_lookup_2 _ j).
Qed.
Lemma runs_at_Forall2 rs idx :
  (∀ i, i ∈ idx → ∃ r, rs !! Z.to_nat i = Some r) →
  ∃ refs, (∀ E, @runs_at E rs idx = Ok refs) ∧ Forall2 (λ i r, rs !! Z.to_nat i = Some r) idx refs.
Proof.
  induction idx as [|i idx IH]; intros Hin; [by exists []|]. destruct (Hin i) as [r Hr]; [by left|].
  destruct IH as (refs&Hrefs&Hf); [intros; apply Hin; by right|]. exists (r :: refs). split; [|by constructor].
  intros E. cbn [runs_at]. by rewrite (vec_at_in _ _ _ Hr), Ok_bind, Hrefs.
Qed.

Section Sorting.
Context (s : ExactIndexRunSet).
Hypothesis Hs : run_set_wf s.
Abbreviation rs := (runs s).

(** The place of a run in a family, and of families among each other: the
    newest first. *)
Definition newest_key (r : ExactIndexRunRef) : Z * Z * Z :=
  (- family_generation r, - ref_level r, partition_ordinal r).
Definition run_before (i j : Z) : Prop :=
  ∀ a b, rs !! Z.to_nat i = Some a → rs !! Z.to_nat j = Some b → newest_key a <o newest_key b.

Lemma newest_key_inj i j a b : rs !! i = Some a → rs !! j = Some b → newest_key a = newest_key b → i = j.
Proof.
  intros Ha Hb Hk. unfold newest_key in Hk. injection Hk as Hg Hl Ho.
  pose proof (strictly_sorted_strong canonical_key _ (ws_order s Hs)) as Hss.
  pose proof (ws_refs s Hs) as Hrefs. rewrite Forall_lookup in Hrefs.
  pose proof (ok_generation _ (Hrefs _ _ Ha)). pose proof (ok_generation _ (Hrefs _ _ Hb)).
  assert (family_generation a = family_generation b ∧ ref_level a = ref_level b ∧ ref_generation a = ref_generation b)
    as (Hg'&Hl'&Hr') by lia.
  assert (Hkey : canonical_key a = canonical_key b) by (unfold canonical_key; by rewrite Hg', Hl', Hr', Ho).
  destruct (Nat.lt_trichotomy i j) as [Hij|[Hij|Hij]]; [|done|].
  - pose proof (StronglySorted_lookup _ _ _ _ _ _ Hss Ha Hb Hij) as Hlt. cbv beta in Hlt.
    rewrite Hkey in Hlt. by apply olt_irrefl in Hlt.
  - pose proof (StronglySorted_lookup _ _ _ _ _ _ Hss Hb Ha Hij) as Hlt. cbv beta in Hlt.
    rewrite Hkey in Hlt. by apply olt_irrefl in Hlt.
Qed.
Lemma sort_family_spec f :
  names_runs rs f → NoDup (reader_indices f) →
  ∃ f', (∀ E, @sort_family E rs f = Ok f') ∧ reader_indices f' ≡ₚ reader_indices f ∧
    lookup_level f' = lookup_level f ∧ lookup_generation f' = lookup_generation f ∧
    StronglySorted run_before (reader_indices f').
Proof.
  intros Hn Hnd. assert (Hin : ∀ i, i ∈ reader_indices f → ∃ r, rs !! Z.to_nat i = Some r).
  { intros i Hi. destruct (Hn i Hi) as (_&r&Hr&_). by exists r. }
  destruct (runs_at_Forall2 rs (reader_indices f) Hin) as (refs&Hrun&Hf2).
  set (l := zip (reader_indices f) refs).
  assert (Hlen : length (reader_indices f) = length refs) by (by eapply Forall2_length).
  assert (Hl1 : l.*1 = reader_indices f) by (apply fst_zip; lia).
  assert (Hpair : ∀ x, x ∈ l → rs !! Z.to_nat x.1 = Some x.2 ∧ x.1 ∈ reader_indices f).
  { intros [i r] Hx. split; [|rewrite <-Hl1; by apply (list_elem_of_fmap_2 fst)].
    apply list_elem_of_lookup in Hx as [k Hk]. apply lookup_zip_with_Some in Hk as (i'&r'&[= <- <-]&Hi&Hr).
    by apply (Forall2_lookup_lr _ _ _ k _ _ Hf2). }
  pose proof (sort_by_key_perm (λ x, partition_ordinal x.2) l) as Hperm.
  pose proof (sort_by_key_sorted (λ x, partition_ordinal x.2) l) as Hsort.
  eexists. split; [intros E; unfold sort_family; by rewrite Hrun, Ok_bind|]. fold l.
  cbn [reader_indices lookup_level lookup_generation]. split_and!; [by rewrite Hperm, Hl1|done|done|].
  set (k := sort_by_key _ _) in *. assert (Hk1 : NoDup k.*1) by (by rewrite Hperm, Hl1).
  assert (Hkin : ∀ x, x ∈ k → rs !! Z.to_nat x.1 = Some x.2 ∧ x.1 ∈ reader_indices f) by (intros x; rewrite Hperm; apply Hpair).
  clearbody k. clear Hperm Hpair. induction Hsort as [|x k _ IH Hx]; [constructor|]. cbn [fmap list_fmap] in *.
  apply NoDup_cons in Hk1 as [Hnot Hk1]. constructor; [apply IH; [done|]; intros; apply Hkin; by right|].
  apply Forall_fmap, list.Forall_forall. intros y Hy. rewrite list.Forall_forall in Hx. specialize (Hx y Hy).
  intros a b Ha Hb. destruct (Hkin x) as [Hxr Hxf]; [by left|]. destruct (Hkin y) as [Hyr Hyf]; [by right|].
  simplify_eq. destruct (Hn _ Hxf) as (?&a'&Ha'&Hal&Hag). destruct (Hn _ Hyf) as (?&b'&Hb'&Hbl&Hbg). simplify_eq.
  unfold newest_key. rewrite Hag, Hal, Hbg, Hbl. apply olt_pair. right. split; [done|].
  apply ole_iff in Hx as [|Heq]; [done|]. exfalso. apply Hnot.
  assert (Z.to_nat x.1 = Z.to_nat y.1) as Hxy.
  { apply (newest_key_inj _ _ x.2 y.2); [done..|]. unfold newest_key. by rewrite Hag, Hal, Hbg, Hbl, Heq. }
  replace x.1 with y.1 by lia. by apply (list_elem_of_fmap_2 fst).
Qed.

(** What sorting makes of a family. *)
Record family_sorted (f f' : ExactIndexLookupFamily) : Prop := {
  fs_indices : reader_indices f' ≡ₚ reader_indices f;
  fs_level : lookup_level f' = lookup_level f;
  fs_generation : lookup_generation f' = lookup_generation f;
  fs_order : StronglySorted run_before (reader_indices f');
}.
Lemma sort_families_spec fams :
  Forall (names_runs rs) fams → NoDup (indices_of fams) →
  ∃ fams', (∀ E, @sort_families E rs fams = Ok fams') ∧ Forall2 family_sorted fams fams'.
Proof.
  intros Hn. induction Hn as [|f fams Hf _ IH]; intros Hnd; [by exists []|].
  unfold indices_of in Hnd. cbn [fmap list_fmap concat] in Hnd. apply NoDup_app in Hnd as (Hndf&_&Hnd).
  destruct (sort_family_spec f Hf Hndf) as (f'&Hf'&?&?&?&?). destruct (IH Hnd) as (fams'&Hfams&Hs').
  exists (f' :: fams'). split; [intros E; cbn [sort_families]; by rewrite Hf', Ok_bind, Hfams|]. by repeat constructor.
Qed.
Lemma family_sorted_grouped fams fams' n :
  grouped rs fams n → Forall2 family_sorted fams fams' →
  grouped rs fams' n ∧ Forall (λ f, StronglySorted run_before (reader_indices f)) fams'.
Proof.
  intros [Hp Hr Hn] Hf2.
  assert (names_of fams' = names_of fams ∧ indices_of fams' ≡ₚ indices_of fams ∧ Forall (names_runs rs) fams' ∧
    Forall (λ f, StronglySorted run_before (reader_indices f)) fams') as (Hn'&Hp'&Hr'&Hs').
  { clear Hp Hn. induction Hf2 as [|f f' fams fams' [Hi Hl Hg Ho] _ IH]; [done|].
    apply Forall_cons_1 in Hr as [Hf Hr]. destruct (IH Hr) as (Hn'&Hp'&Hr'&Hs'). split_and!.
    - unfold names_of in *. cbn [fmap list_fmap]. by rewrite Hl, Hg, Hn'.
    - unfold indices_of in *. cbn [fmap list_fmap concat]. by rewrite Hi, Hp'.
    - constructor; [|done]. intros i Hin. rewrite Hi in Hin. rewrite Hl, Hg. by apply Hf.
    - by constructor. }
  split; [|done]. split; [by rewrite Hp'|done|by rewrite Hn'].
Qed.
Lemma grouped_perm fams fams' n : fams ≡ₚ fams' → grouped rs fams n → grouped rs fams' n.
Proof.
  intros Hp [Hi Hr Hn]. split; [|by rewrite <-Hp|unfold names_of in *; by rewrite <-Hp].
  rewrite <-Hi. unfold indices_of. by rewrite Hp.
Qed.
Lemma families_in_order fams n :
  grouped rs fams n → Forall (λ f, StronglySorted run_before (reader_indices f)) fams →
  StronglySorted (λ f g, family_key f ≤o family_key g) fams →
  StronglySorted run_before (indices_of fams).
Proof.
  intros [_ Hr Hn] Hf Hsort. apply StronglySorted_concat; [by apply Forall_fmap|].
  assert (Hsame : ∀ f g, f ∈ fams → g ∈ fams → family_key f = family_key g → (lookup_generation f, lookup_level f) =
    (lookup_generation g, lookup_level g)).
  { intros f g _ _ [= ? ?]. f_equal; lia. }
  clear Hf. induction Hsort as [|f fams _ IH Hx]; [constructor|]. cbn [fmap list_fmap].
  unfold names_of in Hn. cbn [fmap list_fmap] in Hn. apply NoDup_cons in Hn as [Hnot Hn].
  apply Forall_cons_1 in Hr as [Hf Hr]. constructor; [apply IH; [done|done|]; intros; apply Hsame; by (try right)|].
  apply Forall_fmap, list.Forall_forall. intros g Hg i j Hi Hj a b Ha Hb. rewrite list.Forall_forall in Hx, Hr.
  destruct (Hf i Hi) as (_&a'&Ha'&Hal&Hag). destruct (Hr g Hg j Hj) as (_&b'&Hb'&Hbl&Hbg). simplify_eq.
  apply olt_pair. left. rewrite Hag, Hal, Hbg, Hbl. specialize (Hx g Hg).
  apply ole_iff in Hx as [|Heq]; [done|]. exfalso. apply Hnot.
  rewrite (Hsame f g) by (done || by left || by right). by apply (list_elem_of_fmap_2 (λ f, (lookup_generation f, lookup_level f))).
Qed.

(** Grouping makes as many families as the run set counts. *)
Definition name_of (r : ExactIndexRunRef) : Z * Z := (ref_level r, family_generation r).
Definition name_in (f : ExactIndexLookupFamily) : Z * Z := (lookup_level f, lookup_generation f).
Lemma join_family_names fams i r :
  (name_of r ∈ name_in <$> fams → name_in <$> join_family fams i r = name_in <$> fams) ∧
  (name_of r ∉ name_in <$> fams → name_in <$> join_family fams i r = (name_in <$> fams) ++ [name_of r]).
Proof.
  induction fams as [|f fams [IHin IHout]]; cbn [join_family fmap list_fmap].
  { split; [by intros ?%not_elem_of_nil|done]. }
  destruct (decide (name_of r = name_in f)) as [Heq|Hne].
  - injection Heq as Hl Hg. rewrite Hl, Hg, !Z.eqb_refl. split; [done|]. intros [Hnot _]%not_elem_of_cons.
    destruct Hnot. unfold name_of, name_in. by rewrite Hl, Hg.
  - replace (_ && _) with false; [|symmetry; apply andb_false_iff; rewrite !Z.eqb_neq].
    + cbn [fmap list_fmap]. split.
      * intros [Hr|Hr]%elem_of_cons; [done|]. by rewrite IHin.
      * intros [_ Hr]%not_elem_of_cons. by rewrite IHout.
    + destruct (decide (lookup_level f = ref_level r)) as [Hl|Hl]; [right|by left]. intros Hg. apply Hne.
      unfold name_of, name_in. by rewrite Hl, Hg.
Qed.
Lemma canonical_name a b : canonical_key a <o canonical_key b → name_of a ≤o name_of b.
Proof.
  unfold canonical_key. intros [[Hn|[Hn _]]%olt_pair|[[= Hl Hg _] _]]%olt_pair; apply ole_iff; [by left|by right|].
  right. unfold name_of. by rewrite Hl, Hg.
Qed.
Lemma families_counted rest fams i prev :
  StronglySorted (λ a b, canonical_key a <o canonical_key b) rest →
  (match prev with
   | None => fams = []
   | Some p => name_of p ∈ name_in <$> fams ∧ (∀ m, m ∈ name_in <$> fams → m ≤o name_of p) ∧
               Forall (λ r, name_of p ≤o name_of r) rest
   end) →
  blen (join_families fams i rest) = blen fams + family_count_from prev rest.
Proof.
  intros Hsort. revert fams i prev. induction Hsort as [|r rest _ IH Hr]; intros fams i prev Hp;
    cbn [join_families family_count_from]; [lia|].
  assert (Hlen : ∀ l : list ExactIndexLookupFamily, blen l = Z.of_nat (length (name_in <$> l))) by (intros l; by rewrite length_fmap).
  assert (Hnext : Forall (λ r', name_of r ≤o name_of r') rest)
    by (eapply list.Forall_impl; [exact Hr|]; intros r' Hr'; by apply canonical_name).
  destruct (join_family_names fams i r) as [Hin Hout].
  assert (Hle : ∀ m, m ∈ name_in <$> fams → m ≤o name_of r).
  { intros m Hm. destruct prev as [p|]; [|subst fams; by apply not_elem_of_nil in Hm].
    destruct Hp as (_&Hmax&Hp). apply Forall_cons_1 in Hp as [Hp _]. eapply ole_trans; [by apply Hmax|done]. }
  rewrite (IH (join_family fams i r) (i + 1) (Some r)), (Hlen (join_family fams i r)), (Hlen fams).
  - destruct prev as [p|]; [|subst fams; rewrite Hout by apply not_elem_of_nil; done].
    destruct Hp as (Hpin&Hmax&Hp). apply Forall_cons_1 in Hp as [Hp _].
    destruct (decide (name_of p = name_of r)) as [Heq|Hne].
    + rewrite Hin by (by rewrite <-Heq). injection Heq as -> ->. rewrite !Z.eqb_refl. done.
    + rewrite Hout, length_app; [cbn [length]|].
      * destruct (Z.eqb_spec (family_generation p) (family_generation r)), (Z.eqb_spec (ref_level p) (ref_level r)); cbn [negb orb];
          try lia. destruct Hne. unfold name_of. by f_equal.
      * intros Hr'. apply Hne. specialize (Hmax _ Hr'). apply ole_iff in Hmax as [Hlt|]; [|done]. exfalso.
        apply (olt_irrefl (name_of p)). by eapply ole_olt_trans.
  - split_and!; [| |done]; destruct (decide (name_of r ∈ name_in <$> fams)) as [Hr'|Hr'].
    + by rewrite Hin.
    + rewrite Hout by done. apply elem_of_app. right. by left.
    + by rewrite Hin.
    + rewrite Hout by done. intros m [Hm| ->%list_elem_of_singleton]%elem_of_app; [by apply Hle|]. apply ole_iff. by right.
Qed.

(** What a built index is. *)
Record built (ix : ActivatedExactIndex) (rdrs : list ExactIndexRunReader) : Prop := {
  bi_set : active_run_set ix = s;
  bi_readers : readers ix = rdrs;
  bi_length : blen rdrs = blen rs;
  bi_grouped : grouped rs (lookup_families ix) (blen rs);
  bi_sorted : Forall (λ f, StronglySorted run_before (reader_indices f)) (lookup_families ix);
  bi_order : StronglySorted run_before (indices_of (lookup_families ix));
}.
(** Building succeeds exactly for one reader per run and at most 64 families. *)
Lemma active_new_spec record rdrs :
  if decide (blen rdrs = blen rs ∧ family_count s ≤ 64)
  then ∃ ix, active_new record s rdrs = Ok ix ∧ built ix rdrs
  else active_new record s rdrs = Err DependencyMismatch.
Proof.
  unfold active_new, MAX_ACTIVE_EXACT_INDEX_FAMILIES. destruct (decide _) as [[Hlen Hmax]|Hbad].
  2: { destruct (Z.eqb_spec (blen rdrs) (blen rs)); cbn [negb orb]; [|done].
       destruct (Z.ltb_spec 64 (family_count s)); [done|]. destruct Hbad. split; [done|lia]. }
  rewrite (proj2 (Z.eqb_eq _ _) Hlen), (proj2 (Z.ltb_ge _ _) Hmax). cbn [negb orb reject_if]. rewrite Ok_bind. cbv zeta.
  assert (Hg : grouped rs (join_families [] 0 rs) (blen rs)).
  { apply join_families_spec; [lia|done|lia|]. split; [done|constructor|constructor]. }
  destruct (sort_families_spec (join_families [] 0 rs)) as (fams&Hfams&Hf2); [apply Hg|rewrite (gr_indices _ _ _ Hg); apply NoDup_seqZ|].
  rewrite Hfams, Ok_bind. destruct (family_sorted_grouped _ _ _ Hg Hf2) as [Hg' Hs'].
  pose proof (sort_by_key_perm family_key fams) as Hperm. pose proof (sort_by_key_sorted family_key fams) as Hsort.
  assert (Hcount : blen (sort_by_key family_key fams) = family_count s).
  { transitivity (blen (join_families [] 0 rs)).
    - change (blen (sort_by_key family_key fams)) with (Z.of_nat (length (sort_by_key family_key fams))).
      by rewrite Hperm, <-(Forall2_length _ _ _ Hf2).
    - apply (families_counted rs [] 0 None); [|done]. apply (strictly_sorted_strong canonical_key), Hs. }
  rewrite Hcount, Z.eqb_refl. cbn [negb]. eexists. split; [done|].
  apply (grouped_perm _ _ _ (symmetry Hperm)) in Hg'. rewrite <-Hperm in Hs'.
  split; try done. by apply (families_in_order _ _ Hg').
Qed.
Lemma active_new_built record rdrs ix : active_new record s rdrs = Ok ix → built ix rdrs.
Proof.
  intros Hnew. pose proof (active_new_spec record rdrs) as Hspec. destruct (decide _); [|congruence].
  destruct Hspec as (ix'&Hix&Hb). rewrite Hnew in Hix. by apply Ok_inj in Hix as ->.
Qed.
End Sorting.

(** ** One family *)

(** Key ranges in order are in order pairwise. *)
Lemma ranges_strong f :
  Forall ref_ok f → Sorted (λ a b, ref_maximum a <o ref_minimum b) f →
  StronglySorted (λ a b, ref_maximum a <o ref_minimum b) f.
Proof.
  intros Hok Hs. induction Hs as [|a f Hs IH Ha]; [constructor|]. apply Forall_cons_1 in Hok as [Hoka Hok].
  specialize (IH Hok). constructor; [done|]. destruct Ha as [|b f Hab]; [constructor|].
  apply Forall_cons_1 in Hok as [Hokb _]. apply StronglySorted_inv in IH as [_ Hb].
  constructor; [done|]. eapply list.Forall_impl; [exact Hb|]. intros c Hbc. cbv beta in Hbc.
  eapply olt_trans; [exact Hab|]. eapply ole_olt_trans; [apply Hokb|exact Hbc].
Qed.
(** Members of different families of a set have different names. *)
Lemma family_names_differ s fams p q f g a b :
  run_set_wf s → families_ok (runs s) fams → (p < q)%nat → fams !! p = Some f → fams !! q = Some g →
  a ∈ f → b ∈ g → ref_level a = ref_level b → family_generation a = family_generation b → False.
Proof.
  intros Hs [Heq Hf] Hpq Hp Hq Ha Hb Hl Hg. rewrite Forall_lookup in Hf.
  destruct (Hf _ _ Hq) as [first Hfam]. pose proof (strictly_sorted_strong canonical_key _ (ws_order s Hs)) as Hss.
  assert (Hin : first ∈ g) by (destruct Hfam as [Hh _ _ _]; destruct g; simplify_eq/=; by left).
  assert (Hlt : canonical_key a <o canonical_key first).
  { rewrite Heq, <-(take_drop_middle fams q g Hq), concat_app in Hss.
    eapply (StronglySorted_app_1_elem_of (λ x y, canonical_key x <o canonical_key y)); [exact Hss| |].
    - apply list_elem_of_In, in_concat. exists f. split; apply list_elem_of_In; [|done].
      apply (list_elem_of_lookup_2 _ p). by rewrite lookup_take_lt.
    - cbn [concat]. apply elem_of_app. by left. }
  apply list_elem_of_lookup in Hb as [y Hy]. destruct (fam_members _ _ Hfam y b Hy) as [Hbl Hbg _ _ _ _].
  destruct (fam_members _ _ Hfam 0%nat first) as [_ _ _ H0 Hg0 _].
  { pose proof (fam_head _ _ Hfam) as Hh. destruct g; simplify_eq/=; done. }
  assert (Hok : ref_ok a).
  { pose proof (ws_refs s Hs) as Hrefs. rewrite list.Forall_forall in Hrefs. apply Hrefs. rewrite Heq.
    apply list_elem_of_In, in_concat. exists f. split; apply list_elem_of_In; [|done]. by apply (list_elem_of_lookup_2 _ p). }
  pose proof (ok_ordinal _ Hok). pose proof (ok_generation _ Hok).
  unfold canonical_key in Hlt. rewrite Hl, Hg, Hbl, Hbg in Hlt.
  apply olt_pair in Hlt as [Hlt|[[= Ho] Hlt]]; [|rewrite olt_Z in Hlt; lia].
  apply olt_pair in Hlt as [Hlt|[_ Hlt]]; [by apply olt_irrefl in Hlt|]. rewrite olt_Z in Hlt. lia.
Qed.
(** In one family, an earlier partition has smaller keys. *)
Lemma family_ranges s i j a b :
  run_set_wf s → runs s !! i = Some a → runs s !! j = Some b →
  ref_level a = ref_level b → family_generation a = family_generation b →
  partition_ordinal a < partition_ordinal b → ref_maximum a <o ref_minimum b.
Proof.
  intros Hs Ha Hb Hl Hg Ho. destruct (ws_families s Hs) as (fams&Heq&Hf).
  pose proof (ws_refs s Hs) as Hrefs. apply list_elem_of_lookup_2 in Ha, Hb. rewrite Heq in Ha, Hb.
  apply list_elem_of_In, in_concat in Ha as (f&Hp&Ha). apply list_elem_of_In, in_concat in Hb as (g&Hq&Hb).
  apply list_elem_of_In in Hp, Ha, Hq, Hb. apply list_elem_of_lookup in Hp as [p Hp]. apply list_elem_of_lookup in Hq as [q Hq].
  destruct (Nat.lt_trichotomy p q) as [Hpq|[->|Hpq]].
  - exfalso. by apply (family_names_differ s fams p q f g a b).
  - assert (f = g) as -> by congruence. rewrite Forall_lookup in Hf. destruct (Hf _ _ Hq) as [first Hfam].
    apply list_elem_of_lookup in Ha as [x Hx]. apply list_elem_of_lookup in Hb as [y Hy].
    pose proof (mem_ordinal _ _ _ (fam_members _ _ Hfam x a Hx)). pose proof (mem_ordinal _ _ _ (fam_members _ _ Hfam y b Hy)).
    eapply (StronglySorted_lookup (λ a b, ref_maximum a <o ref_minimum b) g x y); [|done|done|lia].
    apply ranges_strong; [|apply Hfam]. rewrite Heq, Forall_concat, Forall_lookup in Hrefs. by apply (Hrefs q).
  - exfalso. by apply (family_names_differ s fams q p g f b a).
Qed.

Lemma sorted_split {A} (R : A → A → Prop) (p : A → bool) l :
  (∀ x y, R x y → p y = true → p x = true) → StronglySorted R l →
  ∃ l1 l2, l = l1 ++ l2 ∧ Forall (λ x, p x = true) l1 ∧ Forall (λ x, p x = false) l2.
Proof.
  intros Hmono Hs. induction Hs as [|x l _ (l1&l2&->&H1&H2) Hx]; [by exists [], []|].
  destruct (p x) eqn:Hp; [exists (x :: l1), l2; split_and!; [done|by constructor|done]|].
  exists [], (x :: l1 ++ l2). split_and!; [done|constructor|]. constructor; [done|].
  eapply list.Forall_impl; [exact Hx|]. intros y Hy. destruct (p y) eqn:Hpy; [|done].
  by rewrite (Hmono x y Hy Hpy) in Hp.
Qed.

(** ** The index *)
Section Index.
Context `{Crc32cLaws, Blake3Laws} (s : ExactIndexRunSet) (rdrs : list ExactIndexRunReader) (opened : list ExactIndexRun).
Hypothesis Hs : run_set_wf s.

(** The readers are open on the runs of the set, one by one, and each was
    checked against its reference. *)
Record serves : Prop := {
  sv_length : length opened = length (runs s);
  sv_reader i ref r run : runs s !! i = Some ref → rdrs !! i = Some r → opened !! i = Some run →
    (∃ b, open_on r b run) ∧ verify_run_reference ref (reader_descriptor r) = Ok ();
}.
Hypothesis Hserves : serves.
Lemma verify_run_reference_range ref d : verify_run_reference ref d = Ok () →
  ref_minimum ref = minimum_chunk_id d ∧ ref_maximum ref = maximum_chunk_id d.
Proof.
  unfold verify_run_reference. destruct (_ || _) eqn:Hbad; [done|]. intros _.
  apply orb_false_iff in Hbad as [Hbad Hmax]. apply orb_false_iff in Hbad as [_ Hmin].
  apply negb_false_iff, bool_decide_eq_true in Hmin. by apply negb_false_iff, bool_decide_eq_true in Hmax.
Qed.
Context (ix : ActivatedExactIndex).
Hypothesis Hix : built s ix rdrs.
Context (c : bytes) (n : Z).
Abbreviation k := ((c, n) : list byte * Z).
Abbreviation matching := (filter (λ e, entry_key e = k)).

Definition entries_at (i : Z) : list ExactIndexEntry :=
  match opened !! Z.to_nat i with Some run => run_entries run | None => [] end.
Definition family_entries (f : ExactIndexLookupFamily) : list ExactIndexEntry := concat (entries_at <$> reader_indices f).

Lemma open_on_bounds r b run e :
  open_on r b run → e ∈ run_entries run →
  minimum_chunk_id (reader_descriptor r) ≤o chunk_id e ∧ chunk_id e ≤o maximum_chunk_id (reader_descriptor r).
Proof.
  intros Ho He. destruct (reader_facts r b run Ho) as (Hd&Hwf&Hb&Hlen&Hnext).
  rewrite <-(proj2 (chunks_paged (run_entries run))) in He.
  apply list_elem_of_In, in_concat in He as (es&Hes&He). apply list_elem_of_In in Hes, He.
  apply list_elem_of_lookup in Hes as [o Hes].
  rewrite <-(take_drop_middle _ o es Hes), next_pages_app in Hnext. destruct Hnext as [_ [[Hok _ _] _]].
  split; [by apply (rp_lower _ _ _ Hok)|by apply (rp_upper _ _ _ Hok)].
Qed.
Lemma reader_at i ref : runs s !! i = Some ref → ∃ r run, rdrs !! i = Some r ∧ opened !! i = Some run.
Proof.
  intros Hi. pose proof (lookup_lt_Some _ _ _ Hi) as Hlt. pose proof (bi_length _ _ _ Hix) as Hl.
  change (blen ?x) with (Z.of_nat (Datatypes.length x)) in Hl.
  destruct (lookup_lt_is_Some_2 rdrs i) as [r Hr]; [lia|].
  destruct (lookup_lt_is_Some_2 opened i) as [run Hrun]; [rewrite (sv_length Hserves); lia|]. by exists r, run.
Qed.
(** A run whose key range excludes the chunk has no entry for it. *)
Lemma entries_outside i ref :
  runs s !! Z.to_nat i = Some ref → c <o ref_minimum ref ∨ ref_maximum ref <o c → matching (entries_at i) = [].
Proof.
  intros Hi Hout. destruct (reader_at _ _ Hi) as (r&run&Hr&Hrun). unfold entries_at. rewrite Hrun.
  destruct (sv_reader Hserves _ _ _ _ Hi Hr Hrun) as [[b Hopen] [Hmin Hmax]%verify_run_reference_range].
  apply filter_none. intros e He [= Hc _]. destruct (open_on_bounds r b run e Hopen He) as [Hlo Hup].
  rewrite <-Hmin, Hc in Hlo. rewrite <-Hmax, Hc in Hup. apply (olt_irrefl c).
  destruct Hout as [Hlt|Hlt]; [by eapply olt_ole_trans|by eapply ole_olt_trans].
Qed.
Lemma entries_none idx refs :
  Forall2 (λ i r, runs s !! Z.to_nat i = Some r) idx refs →
  Forall (λ r, c <o ref_minimum r ∨ ref_maximum r <o c) refs → matching (concat (entries_at <$> idx)) = [].
Proof.
  intros Hf2. induction Hf2 as [|i r idx refs Hi _ IH]; intros Hout; [done|].
  apply Forall_cons_1 in Hout as [Hr Hout]. cbn [fmap list_fmap concat]. rewrite filter_app, IH, (entries_outside i r) by done. done.
Qed.

Definition apart (a b : ExactIndexRunRef) : Prop :=
  ref_maximum a <o ref_minimum b ∧ ref_minimum b ≤o ref_maximum b.
Lemma refs_sorted idx refs l g :
  Forall2 (λ i r, runs s !! Z.to_nat i = Some r) idx refs →
  Forall (λ r, ref_level r = l ∧ family_generation r = g) refs → StronglySorted (run_before s) idx →
  StronglySorted apart refs.
Proof.
  intros Hf2. induction Hf2 as [|i a idx refs Hi Hf2 IH]; intros Hname Ho; [constructor|].
  apply Forall_cons_1 in Hname as [[Hla Hga] Hname]. apply StronglySorted_inv in Ho as [Ho Hx].
  constructor; [by apply IH|]. apply Forall_lookup_2. intros x b Hb.
  rewrite Forall_lookup in Hname. rewrite Forall_lookup in Hx. destruct (Hname x b Hb) as [Hlb Hgb].
  destruct (Forall2_lookup_r _ _ _ _ _ Hf2 Hb) as (j&Hj&Hjb). pose proof (Hx x j Hj a b Hi Hjb) as Hlt.
  split; [|pose proof (ws_refs s Hs) as Hok; rewrite Forall_lookup in Hok; apply (Hok _ _ Hjb)].
  apply (family_ranges s (Z.to_nat i) (Z.to_nat j)); [done|done|done|congruence|congruence|].
  unfold newest_key in Hlt. rewrite Hla, Hga, Hlb, Hgb in Hlt.
  apply olt_pair in Hlt as [Hlt|[_ Hlt]]; [by apply olt_irrefl in Hlt|]. by rewrite olt_Z in Hlt.
Qed.
Lemma family_refs f : f ∈ lookup_families ix →
  ∃ refs, (∀ E, @runs_at E (runs s) (reader_indices f) = Ok refs) ∧
    Forall2 (λ i r, runs s !! Z.to_nat i = Some r) (reader_indices f) refs ∧
    StronglySorted apart refs ∧ Forall ref_ok refs.
Proof.
  intros Hf. pose proof (gr_runs _ _ _ (bi_grouped _ _ _ Hix)) as Hn. rewrite list.Forall_forall in Hn. specialize (Hn f Hf).
  pose proof (bi_sorted _ _ _ Hix) as Ho. rewrite list.Forall_forall in Ho. specialize (Ho f Hf).
  assert (Hin : ∀ i, i ∈ reader_indices f → ∃ r, runs s !! Z.to_nat i = Some r).
  { intros i Hi. destruct (Hn i Hi) as (_&r&Hr&_). by exists r. }
  destruct (runs_at_Forall2 (runs s) (reader_indices f) Hin) as (refs&Hrefs&Hf2). exists refs. split_and!; [done|done| |].
  - apply (refs_sorted (reader_indices f) refs (lookup_level f) (lookup_generation f)); [done| |done].
    apply Forall_lookup_2. intros x r Hr. destruct (Forall2_lookup_r _ _ _ _ _ Hf2 Hr) as (i&Hi&Hir).
    destruct (Hn i) as (_&r'&Hr'&?&?); [by apply (list_elem_of_lookup_2 _ x)|]. by simplify_eq.
  - apply Forall_lookup_2. intros x r Hr. destruct (Forall2_lookup_r _ _ _ _ _ Hf2 Hr) as (i&_&Hir).
    pose proof (ws_refs s Hs) as Hok. rewrite Forall_lookup in Hok. by apply (Hok (Z.to_nat i)).
Qed.

(** The run that [family_run] selects holds all the family has of the key. *)
Lemma family_run_spec f : f ∈ lookup_families ix →
  ∃ sel, family_run ix c f = Ok sel ∧
    match sel with
    | None => matching (family_entries f) = []
    | Some i => matching (family_entries f) = matching (entries_at i) ∧ is_Some (runs s !! Z.to_nat i)
    end.
Proof.
  intros Hf. destruct (family_refs f Hf) as (refs&Hrun&Hf2&Hsort&Hok). unfold family_run, family_entries.
  rewrite (bi_set _ _ _ Hix), Hrun, Ok_bind.
  destruct (sorted_split apart (λ r, bool_decide (ref_maximum r <o c)) refs) as (l1&l2&->&Hl1&Hl2); [|done|].
  { intros a b [Hab Hb] Hp. apply bool_decide_eq_true in Hp. apply bool_decide_eq_true.
    eapply olt_trans; [exact Hab|]. by eapply ole_olt_trans. }
  rewrite (partition_point_spec _ _ _ (partitioned_app _ _ _ Hl1 Hl2)).
  apply Forall2_app_inv_r in Hf2 as (idx1&idx2&Hf1&Hf2&->).
  assert (Hnone1 : matching (concat (entries_at <$> idx1)) = []).
  { apply (entries_none idx1 l1); [done|]. eapply list.Forall_impl; [exact Hl1|]. intros r Hr%bool_decide_eq_true. by right. }
  rewrite fmap_app, concat_app, filter_app, Hnone1. cbn [app].
  rewrite lookup_app_r by (rewrite (Forall2_length _ _ _ Hf1); lia). rewrite (Forall2_length _ _ _ Hf1), Nat.sub_diag.
  destruct Hf2 as [|i r idx2 l2 Hi Hf2]; [by exists None|]. cbn [lookup list_lookup].
  apply StronglySorted_app in Hsort as (_&_&Hsort). apply StronglySorted_inv in Hsort as [_ Hafter].
  apply Forall_cons_1 in Hl2 as [Hr _]. apply bool_decide_eq_false, not_olt in Hr.
  assert (Hnone2 : matching (concat (entries_at <$> idx2)) = []).
  { apply (entries_none idx2 l2); [done|]. eapply list.Forall_impl; [exact Hafter|]. intros a [Ha _]. left. by eapply ole_olt_trans. }
  change ((i :: idx2) !! 0%nat) with (Some i). cbv iota.   rewrite (vec_at_in _ _ _ Hi), Ok_bind. cbn [fmap list_fmap concat]. rewrite filter_app, Hnone2, app_nil_r.
  case_bool_decide as Hmin; eexists; (split; [done|]); cbv beta iota.
  - apply (entries_outside i r); [done|by left].
  - by split.
Qed.

Lemma blen_take_Z {A} (l : list A) m : 0 ≤ m → blen (take (Z.to_nat m) l) = Z.min m (blen l).
Proof.
  change (blen (take (Z.to_nat m) l)) with (Z.of_nat (Datatypes.length (take (Z.to_nat m) l))).
  change (blen l) with (Z.of_nat (Datatypes.length l)). rewrite length_take. lia.
Qed.
Lemma take_blen_ge {A} (l : list A) m : blen l ≤ m → take (Z.to_nat m) l = l.
Proof. change (blen l) with (Z.of_nat (Datatypes.length l)). intros. apply take_ge. lia. Qed.
Lemma take_blen_le {A} (l1 l2 : list A) m : 0 ≤ m ≤ blen l1 → take (Z.to_nat m) (l1 ++ l2) = take (Z.to_nat m) l1.
Proof. change (blen l1) with (Z.of_nat (Datatypes.length l1)). intros. apply take_app_le. lia. Qed.
Lemma take_blen_app {A} (l1 l2 : list A) m : blen l1 ≤ m →
  take (Z.to_nat m) (l1 ++ l2) = l1 ++ take (Z.to_nat (m - blen l1)) l2.
Proof.
  change (blen l1) with (Z.of_nat (Datatypes.length l1)). intros. rewrite take_app_ge by lia. do 2 f_equal. lia.
Qed.
Lemma lookup_in_families_spec fams found :
  blen c = 32 → is_u32 n → (∀ f, f ∈ fams → f ∈ lookup_families ix) → blen found < 64 →
  let all := found ++ matching (concat (family_entries <$> fams)) in
  lookup_in_families ix c n fams true found = Ok (bool_decide (blen all < 64), take 64 all).
Proof.
  intros Hc Hn. revert found. induction fams as [|f fams IH]; intros found Hin Hf; cbn [lookup_in_families fmap list_fmap concat].
  { cbv zeta. rewrite app_nil_r, bool_decide_true, take_ge by (done || (change (blen found) with (Z.of_nat (Datatypes.length found)) in Hf; lia)). done. }
  cbv zeta in *. rewrite filter_app, app_assoc. set (rest := matching (concat (family_entries <$> fams))) in *.
  assert (Hrest : ∀ f, f ∈ fams → f ∈ lookup_families ix) by (intros; apply Hin; by right).
  destruct (family_run_spec f) as (sel&->&Hsel); [apply Hin; by left|]. rewrite Ok_bind.
  destruct sel as [i|]; [|rewrite Hsel, app_nil_r; by apply IH]. destruct Hsel as [-> [ref Href]].
  destruct (reader_at _ _ Href) as (r&run&Hr&Hrun). rewrite (bi_readers _ _ _ Hix), (vec_at_in _ _ _ Hr), Ok_bind.
  destruct (sv_reader Hserves _ _ _ _ Href Hr Hrun) as [[b Hopen] _]. unfold entries_at. rewrite Hrun.
  set (m := matching (run_entries run)). unfold MAX_EXACT_LOOKUP_CANDIDATES.
  destruct (lookup_into_spec r b run Hopen c n found 64 Hc Hn ltac:(lia)) as (complete&->&Hcomplete). fold m in Hcomplete |- *.
  rewrite Ok_bind, andb_true_l. pose proof (blen_nonneg m). pose proof (blen_nonneg rest). pose proof (blen_nonneg found).
  set (t := take (Z.to_nat (64 - blen found)) m).
  assert (Ht : blen t = Z.min (64 - blen found) (blen m)) by (apply blen_take_Z; lia).
  change 64%nat with (Z.to_nat 64). rewrite blen_app, Ht.
  destruct (Z.eqb_spec (blen found + Z.min (64 - blen found) (blen m)) 64) as [Hfull|Hless].
  - rewrite bool_decide_false by (rewrite !blen_app; lia). rewrite <-(app_assoc found), take_blen_app by lia.
    by rewrite take_blen_le by lia.
  - assert (Htm : t = m) by (apply take_blen_ge; lia).
    destruct complete; [|lia]. rewrite Htm. apply IH; [done|]. rewrite blen_app. lia.
Qed.

(** ** The specification *)

(** All entries of the set's runs: the newest family first, a family's
    partitions in key order. *)
Definition newest_first : list ExactIndexEntry :=
  concat ((λ x, run_entries x.2) <$> sort_by_key (λ x, newest_key x.1) (zip (runs s) opened)).

Lemma families_entries_indices fams :
  concat (family_entries <$> fams) = concat (entries_at <$> indices_of fams).
Proof.
  induction fams as [|f fams IH]; [done|]. unfold indices_of in *. cbn [fmap list_fmap concat].
  by rewrite fmap_app, concat_app, <-IH.
Qed.
Lemma omap_lookup_seqZ {A} (l : list A) : omap (λ i : Z, l !! Z.to_nat i) (seqZ 0 (Z.of_nat (Datatypes.length l))) = l.
Proof.
  induction l as [|x l IH] using rev_ind; [done|]. rewrite length_app. cbn [Datatypes.length].
  replace (Z.of_nat (Datatypes.length l + 1)) with (Z.of_nat (S (Datatypes.length l))) by lia.
  rewrite seqZ_S, omap_app, Z.add_0_l. cbn [omap list_omap]. rewrite Nat2Z.id, list_lookup_middle by done. f_equal.
  rewrite <-IH at 2. apply list_omap_ext, Forall_Forall2_diag, list.Forall_forall. intros i Hi%elem_of_seqZ.
  apply lookup_app_l. lia.
Qed.
Lemma omap_sorted order (z : list (ExactIndexRunRef * ExactIndexRun)) :
  (∀ i x, z !! Z.to_nat i = Some x → runs s !! Z.to_nat i = Some x.1) → StronglySorted (run_before s) order →
  Sorted (λ x y, newest_key x.1 <o newest_key y.1) (omap (λ i, z !! Z.to_nat i) order).
Proof.
  intros Hz Hs'. apply StronglySorted_Sorted. induction Hs' as [|i order _ IH Hi]; [constructor|].
  cbn [omap list_omap]. destruct (z !! Z.to_nat i) as [x|] eqn:Hx; [|done]. constructor; [done|].
  apply list.Forall_forall. intros y (j&Hj&Hy)%list_elem_of_omap. rewrite list.Forall_forall in Hi.
  by apply (Hi j Hj); apply Hz.
Qed.
Lemma concat_omap order (z : list (ExactIndexRunRef * ExactIndexRun)) :
  (∀ i, i ∈ order → ∃ x, z !! Z.to_nat i = Some x ∧ opened !! Z.to_nat i = Some x.2) →
  concat (entries_at <$> order) = concat ((λ x, run_entries x.2) <$> omap (λ i, z !! Z.to_nat i) order).
Proof.
  induction order as [|i order IH]; intros Hin; [done|]. destruct (Hin i) as (x&Hx&Ho); [by left|].
  cbn [omap list_omap fmap list_fmap concat]. rewrite Hx. cbn [fmap list_fmap concat]. rewrite <-IH by (intros; apply Hin; by right).
  unfold entries_at at 1. by rewrite Ho.
Qed.
Lemma families_newest_first : concat (family_entries <$> lookup_families ix) = newest_first.
Proof.
  rewrite families_entries_indices. unfold newest_first. destruct Hix as [_ _ Hlen [Hp _ _] _ Ho].
  set (order := indices_of (lookup_families ix)) in *. pose proof (sv_length Hserves) as Hl.
  set (z := zip (runs s) opened). assert (Hz : Datatypes.length z = Datatypes.length (runs s)) by (unfold z; rewrite length_zip_with; lia).
  assert (Hat : ∀ i x, z !! Z.to_nat i = Some x → runs s !! Z.to_nat i = Some x.1 ∧ opened !! Z.to_nat i = Some x.2).
  { intros i x Hx. apply lookup_zip_with_Some in Hx as (a&b&->&Ha&Hb). done. }
  rewrite (sort_by_key_unique (λ x, newest_key x.1) (omap (λ i, z !! Z.to_nat i) order) z).
  - apply concat_omap. intros i Hi. rewrite Hp in Hi. apply elem_of_seqZ in Hi.
    change (blen (runs s)) with (Z.of_nat (Datatypes.length (runs s))) in Hi.
    destruct (lookup_lt_is_Some_2 z (Z.to_nat i)) as [x Hx]; [lia|]. exists x. split; [done|]. by apply Hat.
  - apply omap_sorted; [|done]. intros i x Hx. by apply Hat.
  - rewrite Hp. change (blen (runs s)) with (Z.of_nat (Datatypes.length (runs s))). rewrite <-Hz. by rewrite omap_lookup_seqZ.
Qed.
Lemma index_lookup_spec : blen c = 32 → is_u32 n →
  lookup_transitions ix c n = Ok (bool_decide (blen (matching newest_first) < 64), take 64 (matching newest_first)).
Proof.
  intros Hc Hn. unfold lookup_transitions, lookup_transitions_into. cbv zeta.
  rewrite (lookup_in_families_spec (lookup_families ix) []) by (done || rewrite blen_nil; lia).
  cbv zeta. by rewrite families_newest_first.
Qed.
End Index.

(** ** Selection *)

(** The newest transition of a location in a newest-first list, and the
    entries that are current: the newest of their location, and active. *)
Fixpoint newest (l : list ExactIndexEntry) (loc : ExactIndexLocation) : option ExactIndexEntry :=
  match l with
  | [] => None
  | e :: l => if decide (location e = loc) then Some e else newest l loc
  end.
Definition current (l : list ExactIndexEntry) (e : ExactIndexEntry) : Prop :=
  newest l (location e) = Some e ∧ transition e = Active.
(** The current entries, in order, among those whose location no newer entry has. *)
Fixpoint actives (newer l : list ExactIndexEntry) : list ExactIndexEntry :=
  match l with
  | [] => []
  | e :: l =>
      if decide ((location e ∉ location <$> newer) ∧ transition e = Active) then e :: actives (newer ++ [e]) l
      else actives (newer ++ [e]) l
  end.
Lemma elem_of_actives newer l e : e ∈ actives newer l ↔ (location e ∉ location <$> newer) ∧ current l e.
Proof.
  revert newer. induction l as [|x l IH]; intros newer; cbn [actives].
  { split; [by intros ?%not_elem_of_nil|]. by intros [_ [[=] _]]. }
  assert (Hl : e ∈ actives (newer ++ [x]) l ↔ (location e ∉ location <$> newer) ∧ location x ≠ location e ∧ current l e).
  { rewrite IH, fmap_app, not_elem_of_app. cbn [fmap list_fmap]. rewrite list_elem_of_singleton. naive_solver. }
  unfold current at 1. cbn [newest]. destruct (decide ((location x ∉ location <$> newer) ∧ transition x = Active)) as [[Hx Ha]|Hno];
    [rewrite elem_of_cons|]; rewrite Hl; destruct (decide (location x = location e)) as [He|He].
  - split; [intros [->|(_&?&_)]; [done|done]|]. intros (_&[= ->]&_). by left.
  - split; [intros [->|(?&_&?)]; done|]. intros [? ?]. by right.
  - split; [by intros (_&?&_)|]. intros (Hn&[= ->]&Ha). by destruct Hno.
  - split; [by intros (?&_&?)|]. intros [? [? ?]]. by split_and!.
Qed.
Lemma existsb_location e newer :
  existsb (λ e', bool_decide (location e' = location e)) newer = bool_decide (location e ∈ location <$> newer).
Proof.
  induction newer as [|x newer IH]; [done|]. cbn [existsb fmap list_fmap]. rewrite IH.
  apply eq_bool_prop_intro. rewrite orb_True, !bool_decide_spec, elem_of_cons. naive_solver.
Qed.
Lemma select_active_step preferred newer first e l :
  select_active preferred newer first (e :: l) =
    (if decide ((location e ∉ location <$> newer) ∧ transition e = Active) then
       if decide (preferred = None ∨ preferred = Some e) then Some e
       else select_active preferred (newer ++ [e]) (match first with Some x => Some x | None => Some e end) l
     else select_active preferred (newer ++ [e]) first l).
Proof.
  cbn [select_active]. rewrite existsb_location. destruct (decide (_ ∧ _)) as [[Hn Ha]|Hno].
  - rewrite bool_decide_false, bool_decide_true by done. cbn [negb orb].
    rewrite <-bool_decide_or. destruct (decide _); [by rewrite bool_decide_true|by rewrite bool_decide_false].
  - replace (_ || _) with true; [done|]. symmetry. apply orb_true_iff. rewrite negb_true_iff, bool_decide_eq_true, bool_decide_eq_false.
    destruct (decide (location e ∈ location <$> newer)); [by left|right]. intros Ha. by apply Hno.
Qed.
Lemma select_any newer l : select_active None newer None l = head (actives newer l).
Proof.
  revert newer. induction l as [|e l IH]; intros newer; [done|]. rewrite select_active_step. cbn [actives].
  destruct (decide (_ ∧ _)); [|apply IH]. by rewrite decide_True by (by left).
Qed.
Lemma select_preferred p newer first l :
  select_active (Some p) newer first l =
    (if decide (p ∈ actives newer l) then Some p
     else match first with Some e => Some e | None => head (actives newer l) end).
Proof.
  revert newer first. induction l as [|e l IH]; intros newer first.
  { cbn [actives select_active]. rewrite decide_False by apply not_elem_of_nil. by destruct first. }
  rewrite select_active_step. cbn [actives]. destruct (decide (_ ∧ _)); [|apply IH].
  destruct (decide (Some p = None ∨ Some p = Some e)) as [[?|[= ->]]|Hno]; [done|by rewrite decide_True by (by left)|].
  rewrite IH. destruct (decide (p ∈ actives (newer ++ [e]) l)) as [Hp|Hp]; [by rewrite decide_True by (by right)|].
  rewrite decide_False; [by destruct first|]. intros [->|?]%elem_of_cons; [|done]. apply Hno. by right.
Qed.
(** The selected entry: a current one, the preferred one when it is current,
    none only when there is none. *)
Lemma select_active_spec preferred l :
  (∀ e, select_active preferred [] None l = Some e → current l e) ∧
  (select_active preferred [] None l = None → ∀ e, ¬ current l e) ∧
  (∀ p, preferred = Some p → current l p → select_active preferred [] None l = Some p).
Proof.
  assert (Hin : ∀ e, e ∈ actives [] l ↔ current l e).
  { intros e. rewrite elem_of_actives. split; [by intros [_ ?]|]. split; [apply not_elem_of_nil|done]. }
  assert (Hhead : ∀ e, head (actives [] l) = Some e → current l e).
  { intros e He. apply Hin. destruct (actives [] l); simplify_eq/=. by left. }
  assert (Hnone : head (actives [] l) = None → ∀ e, ¬ current l e).
  { intros He e Hc%Hin. destruct (actives [] l); simplify_eq/=. by apply not_elem_of_nil in Hc. }
  destruct preferred as [p|]; [rewrite select_preferred; destruct (decide _) as [Hp|Hp]|rewrite select_any]; split_and!; try done.
  - intros e [= <-]. by apply Hin.
  - intros q [= <-] Hc%Hin. done.
Qed.
Lemma newest_app_l l1 l2 loc e : newest l1 loc = Some e → newest (l1 ++ l2) loc = Some e.
Proof. induction l1 as [|x l1 IH]; [done|]. cbn [newest app]. by destruct (decide _). Qed.
Lemma current_take k l e : current (take k l) e → current l e.
Proof. intros [Hn Ha]. split; [|done]. rewrite <-(take_drop k l). by apply newest_app_l. Qed.
Lemma list_find_newest l loc : list_find (λ e, location e = loc) l = None ∧ newest l loc = None ∨
  ∃ i e, list_find (λ e, location e = loc) l = Some (i, e) ∧ newest l loc = Some e.
Proof.
  induction l as [|x l [[Hf Hn]|(i&e&Hf&Hn)]]; cbn [newest]; [by left|..]; cbn [list_find]; destruct (decide _); try rewrite Hf.
  - right. by exists 0%nat, x.
  - by left.
  - right. by exists 0%nat, x.
  - right. by exists (S i), e.
Qed.
Lemma newest_in l loc e : newest l loc = Some e → e ∈ l ∧ location e = loc.
Proof.
  induction l as [|x l IH]; [done|]. cbn [newest]. destruct (decide _); [intros [= ->]; split; [by left|done]|].
  intros [? ?]%IH. split; [by right|done].
Qed.
Lemma current_key k l e : current (filter (λ e, entry_key e = k) l) e → entry_key e = k.
Proof. intros [[He _]%newest_in _]. by apply list_elem_of_filter in He as [? _]. Qed.
Lemma permits_overlay_spec `{Crc32c} ix e c n matches :
  lookup_transitions ix c n = Ok (bool_decide (blen matches < 64), take 64 matches) → entry_key e = (c, n) →
  ∃ ok, permits_active_overlay ix e = Ok ok ∧
    (ok = true → transition e = Active ∧ ∀ x, newest matches (location e) = Some x → transition x = Active) ∧
    (ok = false → transition e = Active → newest matches (location e) = None → 64 ≤ blen matches).
Proof.
  intros Hl [= <- <-]. unfold permits_active_overlay. destruct (bool_decide_reflect (transition e = Active)) as [Ha|Ha]; cbn [negb];
    [|exists false; split_and!; [done|done|by intros _ ?]].
  rewrite Hl, Ok_bind. destruct (list_find_newest (take 64 matches) (location e)) as [[-> Hn]|(i&x&->&Hn)].
  - eexists. split; [done|]. change 64%nat with (Z.to_nat 64) in Hn. case_bool_decide as Hlt; split; [|done|done|lia].
    intros _. split; [done|]. rewrite take_blen_ge in Hn by lia. congruence.
  - eexists. split; [done|]. assert (Hm : newest matches (location e) = Some x).
    { rewrite <-(take_drop 64 matches). by apply newest_app_l. }
    rewrite Hm. split; [|by intros _ _ ?]. intros Hx%bool_decide_eq_true. split; [done|]. by intros ? [= <-].
Qed.

(** ** An index of two families *)
Module ActiveSample.
(** A level 1 run with two active entries, and a newer level 0 run that retires
    the second. *)
Definition retired (c : Z) : ExactIndexEntry :=
  {| chunk_id := chunk_id (Sample.entry c); logical_length := 100; transition := Retiring;
     location := location (Sample.entry c) |}.
Definition new_run : ExactIndexRun :=
  {| run_profile := replicate 32 (byte_of_Z 9); run_generation := 9; run_entries := [retired 2] |}.
Lemma new_run_wf : run_wf new_run.
Proof.
  split; [by vm_compute|by vm_compute|repeat constructor; by vm_compute| |by vm_compute].
  by apply validate_entries_iff; vm_compute.
Qed.
Definition ref (level : Z) (run : ExactIndexRun) (hash : bytes) : ExactIndexRunRef :=
  let d := descriptor_with run hash in
  {| ref_level := level; partition_ordinal := 0; partition_count := 1; ref_profile := profile d;
     family_generation := generation d; ref_generation := generation d; ref_hash := hash;
     ref_file_length := file_length d; ref_entry_count := entry_count d;
     ref_minimum := minimum_chunk_id d; ref_maximum := maximum_chunk_id d |}.
Definition reader (run : ExactIndexRun) (d : ExactIndexRunDescriptor) (b : bytes) : ExactIndexRunReader :=
  {| reader_descriptor := d; reader_cached := λ _, None; reader_read := λ o n, Ok (sub b o n);
     reader_mapping := None; reader_membership := None; reader_independent := false; reader_writer_born := false;
     reader_peek_bounds := Some (omap page_bounds (chunks 31 (run_entries run)));
     reader_begin_independent := Ok (); reader_peek := λ _ _, false |}.
Lemma reader_opens `{Crc32cLaws, Blake3Laws} run : run_wf run →
  open_on (reader run (run_descriptor run) (run_bytes run)) (run_bytes run) run.
Proof.
  intros Hwf. pose proof (run_bytes_descriptor run Hwf) as Hd. cbv zeta in Hd.
  by split; [apply run_decode_encode|done|done|done|done|intros ? [= <-]|done|done].
Qed.
Definition opened : list ExactIndexRun := [new_run; sample_run].
Definition set (h1 h2 : bytes) : ExactIndexRunSet :=
  {| set_profile := replicate 32 (byte_of_Z 9); set_generation := 12;
     runs := [ref 0 new_run h1; ref 1 sample_run h2] |}.
Lemma set_is_wf h1 h2 : blen h1 = 32 → blen h2 = 32 → run_set_wf (set h1 h2).
Proof.
  intros Hh1 Hh2. assert (Hnew : run_set_new (replicate 32 (byte_of_Z 9)) 12 (runs (set h1 h2)) = Ok (set h1 h2))
    by (vm_compute; reflexivity).
  apply (run_set_new_wf (replicate 32 (byte_of_Z 9)) 12 (runs (set h1 h2))); [by vm_compute|by vm_compute|by vm_compute| |done].
  repeat constructor; first [exact Hh1|exact Hh2|by vm_compute].
Qed.
(** The sets, readers and index of the sample. *)
Definition served `{Crc32c, Blake3} : ExactIndexRunSet * list ExactIndexRunReader :=
  (set (blake3_hash (hashed_bytes new_run)) (blake3_hash (hashed_bytes sample_run)),
   [reader new_run (run_descriptor new_run) (run_bytes new_run);
    reader sample_run (run_descriptor sample_run) (run_bytes sample_run)]).
Lemma served_ok `{Crc32cLaws, Blake3Laws} :
  run_set_wf served.1 ∧ serves served.1 served.2 opened.
Proof.
  split; [apply set_is_wf; apply blake3_hash_blen|]. split; [done|]. intros [|[|i]] rf r run; intros; simplify_eq/=.
  - split; [eexists; apply reader_opens, new_run_wf|]. unfold verify_run_reference. cbn -[blake3_hash].
    by rewrite !bool_decide_true, !Z.eqb_refl by done.
  - split; [eexists; apply reader_opens, sample_run_wf|]. unfold verify_run_reference. cbn -[blake3_hash].
    by rewrite !bool_decide_true, !Z.eqb_refl by done.
Qed.
Lemma served_entries `{Crc32c, Blake3} :
  newest_first served.1 opened = [retired 2; Sample.entry 1; Sample.entry 2].
Proof. reflexivity. Qed.
End ActiveSample.

(** ** Properties *)

(** C21: A lookup in the active index answers for all its runs.  For a
    well-formed run set, building the index succeeds exactly when there is one
    reader per run and at most 64 families, and otherwise reports a dependency
    mismatch.  A lookup in the built index never fails on intact runs; it
    returns, of all entries of all runs taken newest family first, those of the
    key, in that order, up to 64, and flags the answer complete exactly when
    there are fewer: asking only one run per family, selected by its key range,
    and stopping at the limit lose nothing. *)
Theorem index_lookup_complete `{Crc32cLaws, Blake3Laws} record s rdrs opened (c : bytes) (n : Z) :
  run_set_wf s → serves s rdrs opened → blen c = 32 → is_u32 n →
  if decide (blen rdrs = blen (runs s) ∧ family_count s ≤ 64) then
    ∃ ix, active_new record s rdrs = Ok ix ∧
      let matches := filter (λ e, entry_key e = (c, n)) (newest_first s opened) in
      lookup_transitions ix c n = Ok (bool_decide (blen matches < 64), take 64 matches)
  else active_new record s rdrs = Err DependencyMismatch.
Proof.
  intros Hs Hserves Hc Hn. pose proof (active_new_spec s Hs record rdrs) as Hspec. destruct (decide _); [|done].
  destruct Hspec as (ix&Hnew&Hb). exists ix. split; [done|]. by apply (index_lookup_spec s rdrs opened Hs Hserves ix Hb c n).
Qed.
Lemma index_lookup_complete_witness :
  ∃ ix, @lookup_transitions Crc32cBitwise.ops ix (replicate 32 (byte_of_Z 2)) 100 =
    Ok (true, [ActiveSample.retired 2; Sample.entry 2]).
Proof.
  destruct (@ActiveSample.served_ok Crc32cBitwise.ops Crc32cBitwise.laws MixHash.ops MixHash.laws) as [Hs Hserves].
  pose proof (@index_lookup_complete Crc32cBitwise.ops Crc32cBitwise.laws MixHash.ops MixHash.laws Activation.sample
    _ _ _ (replicate 32 (byte_of_Z 2)) 100 Hs Hserves) as Hlookup.
  rewrite decide_True in Hlookup by (by split).
  destruct Hlookup as (ix&_&Hix); [by vm_compute|by vm_compute|].
  rewrite ActiveSample.served_entries in Hix. exists ix. rewrite Hix. vm_compute. reflexivity.
Defined.

(** C22: A reference chosen for ingest is current.  [active_reference] returns
    only an entry of the key that is active and the newest of all runs for its
    physical location, even when the lookup was cut at its limit; it returns
    the preferred entry when that one is current among the candidates, and
    nothing only when no candidate is current.  [permits_active_overlay] never
    admits a location whose newest transition in the index is not active, and
    refuses an active overlay of a location the index does not know only when
    the lookup was cut. *)
Theorem active_reference_newest `{Crc32cLaws, Blake3Laws} record s rdrs opened ix (c : bytes) (n : Z) preferred :
  run_set_wf s → active_new record s rdrs = Ok ix → serves s rdrs opened → blen c = 32 → is_u32 n →
  let matches := filter (λ e, entry_key e = (c, n)) (newest_first s opened) in
  (∃ res, active_reference ix c n preferred = Ok res ∧
     (∀ e, res = Some e → entry_key e = (c, n) ∧ current matches e) ∧
     (res = None → ∀ e, ¬ current (take 64 matches) e) ∧
     (∀ p, preferred = Some p → current (take 64 matches) p → res = Some p)) ∧
  (∀ e, entry_key e = (c, n) →
     ∃ ok, permits_active_overlay ix e = Ok ok ∧
       (ok = true → transition e = Active ∧ ∀ x, newest matches (location e) = Some x → transition x = Active) ∧
       (ok = false → transition e = Active → newest matches (location e) = None → 64 ≤ blen matches)).
Proof.
  intros Hs Hnew Hserves Hc Hn matches. pose proof (active_new_built s Hs record rdrs ix Hnew) as Hb.
  pose proof (index_lookup_spec s rdrs opened Hs Hserves ix Hb c n Hc Hn) as Hl. fold matches in Hl. split.
  - unfold active_reference. rewrite Hl, Ok_bind. eexists. split; [done|].
    destruct (select_active_spec preferred (take 64 matches)) as (Hsome&Hnone&Hpref). split_and!; [|done|done].
    intros e He%Hsome%current_take. split; [|done]. by apply (current_key (c, n) (newest_first s opened)).
  - intros e Hk. apply permits_overlay_spec with (c := c) (n := n); done.
Qed.
Lemma active_reference_newest_witness :
  ∃ ix, (∃ res, @active_reference Crc32cBitwise.ops ix (replicate 32 (byte_of_Z 2)) 100 None = Ok res ∧ res = None) ∧
    ∃ res, @active_reference Crc32cBitwise.ops ix (replicate 32 (byte_of_Z 1)) 100 None = Ok res ∧ res = Some (Sample.entry 1).
Proof.
  destruct (@ActiveSample.served_ok Crc32cBitwise.ops Crc32cBitwise.laws MixHash.ops MixHash.laws) as [Hs Hserves].
  pose proof (active_new_spec _ Hs Activation.sample (@ActiveSample.served Crc32cBitwise.ops MixHash.ops).2) as Hnew.
  rewrite decide_True in Hnew by (by split). destruct Hnew as (ix&Hnew&_).
  pose proof (λ c, @active_reference_newest Crc32cBitwise.ops Crc32cBitwise.laws MixHash.ops MixHash.laws Activation.sample
    _ _ _ ix (replicate 32 (byte_of_Z c)) 100 None Hs Hnew Hserves) as Href.
  rewrite ActiveSample.served_entries in Href. exists ix. split.
  - destruct (Href 2) as [(res&Hres&Hsome&_) _]; [by vm_compute|by vm_compute|]. exists res. split; [exact Hres|].
    destruct res as [e|]; [exfalso|reflexivity]. destruct (Hsome e eq_refl) as [_ Hcur].
    replace (filter _ _) with [ActiveSample.retired 2; Sample.entry 2] in Hcur by (vm_compute; reflexivity).
    destruct Hcur as [Hcur Ha]. destruct (newest_in _ _ _ Hcur) as [Hin _].
    apply elem_of_cons in Hin as [->|Hin]; [discriminate Ha|]. apply list_elem_of_singleton in Hin as ->.
    vm_compute in Hcur. discriminate Hcur.
  - destruct (Href 1) as [(res&Hres&Hsome&Hnone&_) _]; [by vm_compute|by vm_compute|]. exists res. split; [exact Hres|].
    replace (filter _ _) with [Sample.entry 1] in Hsome, Hnone by (vm_compute; reflexivity).
    destruct res as [e|]; [|exfalso; apply (Hnone eq_refl (Sample.entry 1)); split; vm_compute; reflexivity].
    destruct (Hsome e eq_refl) as [_ [Hcur _]]. destruct (newest_in _ _ _ Hcur) as [Hin _].
    apply list_elem_of_singleton in Hin as ->. reflexivity.
Defined.
End ExactIndexActive.
