(* ===== verification/ExactIndexBatch.v ===== *)
(** * Batched lookups ([try_lookup_batch_into], [lookup_transitions_batch] of
      [fastdup-store/src/exact_index_repository.rs])

    A batch resolves an ascending key set against each run at once: the pages
    its keys need are found from the cached page bounds, deduplicated, read in
    merged spans and split in memory.  Per key, it is proved to give what a
    lookup of the key alone gives, except for the candidate limit: the batched
    path applies the limit of 64 to each run and not to the key, so that a key
    can collect more than 64 candidates. *)
From S2P Require Export ExactIndexActive.
From S2P Require Import Activation ReductionFilter.

Module ExactIndexBatch.
Import ExactIndex ExactIndexPage ExactIndexRun ExactIndexRead ExactIndexLookup RunSet ExactIndexActive.

Definition EXACT_LOOKUP_BATCH_WINDOW_KEYS : Z := 1024.

(** ** One run *)
Section Run.
Context `{Crc32c} (r : ExactIndexRunReader) (keys : list (bytes * Z)).

(** [ExactIndexRunReader::batch_pending_keys], from the key [ordinal] on *)
Fixpoint batch_pending_keys (rest : list (bytes * Z)) (ordinal : Z) (candidates : list (list ExactIndexEntry))
    (complete : list bool) : store_result (list Z) :=
  match rest with
  | [] => Ok []
  | (chunk, length) :: rest =>
      skip ← (c ← vec_at complete ordinal; Ok (negb c))
             ||? (found ← vec_at candidates ordinal; Ok (MAX_EXACT_LOOKUP_CANDIDATES <=? blen found));
      absent ← (if (skip : bool) then Ok true else definitely_absent r chunk length);
      pending ← batch_pending_keys rest (ordinal + 1) candidates complete;
      Ok (if (absent : bool) then pending else ordinal :: pending)
  end.

(** [ExactIndexRunReader::batch_span_pages]: the loop over
    [span.chunks_exact(EXACT_INDEX_PAGE_BYTES)], then the read *)
Fixpoint split_span (ordinal : Z) (span : bytes) (pages : nat) (resident : gmap Z ExactIndexPage)
    : store_result (gmap Z ExactIndexPage) :=
  match pages with
  | O => Ok resident
  | S pages =>
      page_bytes ← index_range span 0 EXACT_INDEX_PAGE_BYTES;
      rest ← index_from span EXACT_INDEX_PAGE_BYTES;
      page ← format (descriptor_decode_page (reader_descriptor r) ordinal page_bytes);
      split_span (ordinal + 1) rest pages (<[ordinal := page]> resident)
  end.
Definition batch_span_pages (first count : Z) (resident : gmap Z ExactIndexPage) : store_result (gmap Z ExactIndexPage) :=
  offset ← ok_or (page_offset (reader_descriptor r) first) (Format InvalidPage);
  span ← reader_read r offset (count * EXACT_INDEX_PAGE_BYTES);
  split_span first span (Z.to_nat (blen span / EXACT_INDEX_PAGE_BYTES)) resident.

(** What the loop of [try_lookup_batch_into] changes. *)
Record BatchState := {
  leaf : list Z;
  batch_candidates : list (list ExactIndexEntry);
  batch_complete : list bool;
  resident : gmap Z ExactIndexPage;
}.

(** The leaf page of every pending key *)
Fixpoint first_leaves (bounds : list ExactPageKeyBounds) (pending leaf : list Z) : store_result (list Z) :=
  match pending with
  | [] => Ok leaf
  | ordinal :: pending =>
      key ← vec_at keys ordinal;
      leaf ← vec_set leaf ordinal (Z.of_nat (partition_point (λ b, bool_decide (bounds_last b <o key)) bounds));
      first_leaves bounds pending leaf
  end.
(** The pages a round lacks *)
Fixpoint missing_pages (s : BatchState) (pending : list Z) : store_result (list Z) :=
  match pending with
  | [] => Ok []
  | ordinal :: pending =>
      page ← vec_at (leaf s) ordinal;
      missing ← missing_pages s pending;
      Ok (if (page <? descriptor_page_count (reader_descriptor r))
             && negb (bool_decide (is_Some (resident s !! page)))
             && negb (reader_peek r ordinal page)
          then page :: missing else missing)
  end.
(** [Vec::dedup] *)
Fixpoint dedup (l : list Z) : list Z :=
  match l with
  | [] => []
  | x :: l => match l with
              | y :: _ => if x =? y then dedup l else x :: dedup l
              | [] => [x]
              end
  end.
(** Merging into spans: one page extends the last span, or starts one *)
Definition push_page (spans : list (Z * Z)) (ordinal : Z) : list (Z * Z) :=
  match last spans with
  | Some (first, count) =>
      if (ordinal =? first + count) && (count <? EXACT_SCAN_PAGES_PER_IO)
      then removelast spans ++ [(first, count + 1)]
      else spans ++ [(ordinal, 1)]
  | None => spans ++ [(ordinal, 1)]
  end.
Definition merge_spans (missing : list Z) : list (Z * Z) := fold_left push_page missing [].
Fixpoint read_spans (spans : list (Z * Z)) (resident : gmap Z ExactIndexPage) : store_result (gmap Z ExactIndexPage) :=
  match spans with
  | [] => Ok resident
  | (first, count) :: spans => resident ← batch_span_pages first count resident; read_spans spans resident
  end.

(** One pending key of a round: the new state, and whether the key stays pending *)
Definition resolve_key (s : BatchState) (ordinal : Z) : store_result (bool * BatchState) :=
  page_ordinal ← vec_at (leaf s) ordinal;
  let page_count := descriptor_page_count (reader_descriptor r) in
  if page_count <=? page_ordinal then Ok (false, s)
  else
    '(page, res) ←
      match resident s !! page_ordinal with
      | Some page => Ok (page, resident s)
      | None => page ← read_page r page_ordinal; Ok (page, <[page_ordinal := page]> (resident s))
      end;
    '(chunk, length) ← vec_at keys ordinal;
    matches ← format (candidates page chunk length);
    let s := {| leaf := leaf s; batch_candidates := batch_candidates s; batch_complete := batch_complete s; resident := res |} in
    if bool_decide (matches = []) then Ok (false, s)
    else
      found ← vec_at (batch_candidates s) ordinal;
      let remaining := saturating_sub MAX_EXACT_LOOKUP_CANDIDATES (blen found) in
      let accepted := Z.min (blen matches) remaining in
      taken ← index_range matches 0 accepted;
      let found := found ++ taken in
      all ← vec_set (batch_candidates s) ordinal found;
      let s := {| leaf := leaf s; batch_candidates := all; batch_complete := batch_complete s; resident := res |} in
      let cut :=
        flags ← vec_set (batch_complete s) ordinal false;
        Ok (false, {| leaf := leaf s; batch_candidates := all; batch_complete := flags; resident := res |}) in
      if remaining <? blen matches then cut
      else
        let key_reaches_page_end :=
          match last (page_entries page) with
          | Some e => bool_decide (chunk_id e = chunk) && (logical_length e =? length)
          | None => false
          end in
        if negb key_reaches_page_end || (page_ordinal + 1 =? page_count) then Ok (false, s)
        else if blen found =? MAX_EXACT_LOOKUP_CANDIDATES then cut
        else
          leaves ← vec_set (leaf s) ordinal (page_ordinal + 1);
          Ok (true, {| leaf := leaves; batch_candidates := all; batch_complete := batch_complete s; resident := res |}).
Fixpoint resolve_keys (s : BatchState) (pending : list Z) : store_result (list Z * BatchState) :=
  match pending with
  | [] => Ok ([], s)
  | ordinal :: pending =>
      '(again, s) ← resolve_key s ordinal;
      '(next_pending, s) ← resolve_keys s pending;
      Ok (if (again : bool) then ordinal :: next_pending else next_pending, s)
  end.
(** The loop.  A key advances by one page per round; running out of fuel would
    be a loop that does not end. *)
Fixpoint batch_rounds (fuel : nat) (pending : list Z) (s : BatchState) : store_result BatchState :=
  match pending with
  | [] => Ok s
  | _ :: _ =>
      match fuel with
      | O => Panic
      | S fuel =>
          missing ← missing_pages s pending;
          let missing := dedup (sort_by_key id missing) in
          res ← read_spans (merge_spans missing) (resident s);
          let s := {| leaf := leaf s; batch_candidates := batch_candidates s; batch_complete := batch_complete s;
                      resident := res |} in
          '(next_pending, s) ← resolve_keys s pending;
          batch_rounds fuel next_pending s
      end
  end.
(** [ExactIndexRunReader::try_lookup_batch_into]: [None] when the run has no
    usable bounds ([Ok(false)]), otherwise the candidates and flags *)
Definition try_lookup_batch_into (candidates : list (list ExactIndexEntry)) (complete : list bool)
    : store_result (option (list (list ExactIndexEntry) * list bool)) :=
  if reader_independent r && reader_writer_born r then Ok None
  else
    let page_count := descriptor_page_count (reader_descriptor r) in
    match reader_peek_bounds r with
    | None => Ok None
    | Some bounds =>
        if negb (blen bounds =? page_count) then Ok None
        else
          pending ← batch_pending_keys keys 0 candidates complete;
          (if reader_independent r && negb (bool_decide (pending = [])) then reader_begin_independent r else Ok ());;
          leaf ← first_leaves bounds pending (replicate (length keys) usize_max);
          s ← batch_rounds (S (Z.to_nat page_count)) pending
                {| leaf := leaf; batch_candidates := candidates; batch_complete := complete; resident := ∅ |};
          Ok (Some (batch_candidates s, batch_complete s))
    end.
End Run.

(** ** The index *)
Section Window.
Context `{Crc32c} (ix : ActivatedExactIndex).

(** The candidates and flags of all keys. *)
Abbreviation answers := (list (list ExactIndexEntry) * list bool)%type.

(** A key joins the last group when that is for the same run, or starts one *)
Definition push_local (groups : list (Z * list Z)) (index local : Z) : list (Z * list Z) :=
  match last groups with
  | Some (last, ordinals) =>
      if last =? index then removelast groups ++ [(last, ordinals ++ [local])] else groups ++ [(index, [local])]
  | None => groups ++ [(index, [local])]
  end.
(** The groups of a family, from the key [local] of the window on *)
Fixpoint window_groups (family : ExactIndexLookupFamily) (base : Z) (rest : list (bytes * Z)) (local : Z) (a : answers)
    (groups : list (Z * list Z)) : store_result (list (Z * list Z)) :=
  match rest with
  | [] => Ok groups
  | (chunk, _) :: rest =>
      let global := base + local in
      skip ← (c ← vec_at a.2 global; Ok (negb c))
             ||? (found ← vec_at a.1 global; Ok (MAX_EXACT_LOOKUP_CANDIDATES <=? blen found));
      selected ← (if (skip : bool) then Ok None else family_run ix chunk family);
      window_groups family base rest (local + 1) a
        (match selected with Some index => push_local groups index local | None => groups end)
  end.
Fixpoint window_keys (window : list (bytes * Z)) (ordinals : list Z) : store_result (list (bytes * Z)) :=
  match ordinals with
  | [] => Ok []
  | local :: ordinals => key ← vec_at window local; keys ← window_keys window ordinals; Ok (key :: keys)
  end.
(** The flag of a key after a run answered *)
Definition close_key (a : answers) (global : Z) (found : list ExactIndexEntry) (run_complete : bool) : store_result answers :=
  all ← vec_set a.1 global found;
  c ← vec_at a.2 global;
  flags ← vec_set a.2 global (c && run_complete);
  flags ← (if MAX_EXACT_LOOKUP_CANDIDATES <=? blen found then vec_set flags global false else Ok flags);
  Ok (all, flags).
(** The serial descent of a group, and the merge of a batch's answers *)
Fixpoint serial_group (reader : ExactIndexRunReader) (base : Z) (window : list (bytes * Z)) (ordinals : list Z) (a : answers)
    : store_result answers :=
  match ordinals with
  | [] => Ok a
  | local :: ordinals =>
      let global := base + local in
      key ← vec_at window local;
      found ← vec_at a.1 global;
      '(run_complete, found) ← lookup_into reader key.1 key.2 found MAX_EXACT_LOOKUP_CANDIDATES;
      a ← close_key a global found run_complete;
      serial_group reader base window ordinals a
  end.
Fixpoint merge_group (base : Z) (ordinals : list Z) (position : Z) (group : answers) (a : answers) : store_result answers :=
  match ordinals with
  | [] => Ok a
  | local :: ordinals =>
      let global := base + local in
      found ← vec_at a.1 global;
      more ← vec_at group.1 position;
      run_complete ← vec_at group.2 position;
      a ← close_key a global (found ++ more) run_complete;
      merge_group base ordinals (position + 1) group a
  end.
Definition lookup_group (base : Z) (window : list (bytes * Z)) (group : Z * list Z) (a : answers) : store_result answers :=
  reader ← vec_at (readers ix) group.1;
  group_keys ← window_keys window group.2;
  res ← try_lookup_batch_into reader group_keys (replicate (length group_keys) []) (replicate (length group_keys) true);
  match res with
  | None => serial_group reader base window group.2 a
  | Some answered => merge_group base group.2 0 answered a
  end.
Fixpoint lookup_groups (base : Z) (window : list (bytes * Z)) (groups : list (Z * list Z)) (a : answers) : store_result answers :=
  match groups with
  | [] => Ok a
  | group :: groups => a ← lookup_group base window group a; lookup_groups base window groups a
  end.
(** [ActivatedExactIndex::lookup_window_into] *)
Fixpoint lookup_window_into (families : list ExactIndexLookupFamily) (base : Z) (window : list (bytes * Z)) (a : answers)
    : store_result answers :=
  match families with
  | [] => Ok a
  | family :: families =>
      groups ← window_groups family base window 0 a [];
      a ← lookup_groups base window groups a;
      lookup_window_into families base window a
  end.
Fixpoint lookup_windows (windows : list (list (bytes * Z))) (window_ordinal : Z) (a : answers) : store_result answers :=
  match windows with
  | [] => Ok a
  | window :: windows =>
      a ← lookup_window_into (lookup_families ix) (window_ordinal * EXACT_LOOKUP_BATCH_WINDOW_KEYS) window a;
      lookup_windows windows (window_ordinal + 1) a
  end.
(** [ActivatedExactIndex::lookup_transitions_batch]; the assertion that the keys
    ascend is compiled into debug builds only *)
Definition lookup_transitions_batch (keys : list (bytes * Z)) : store_result (list (bool * list ExactIndexEntry)) :=
  a ← lookup_windows (chunks (Z.to_nat EXACT_LOOKUP_BATCH_WINDOW_KEYS) keys) 0
        (replicate (length keys) [], replicate (length keys) true);
  Ok ((λ x, (x.2, x.1.2)) <$> zip (zip keys a.1) a.2).
End Window.

(** ** Reading pages *)
Section RunProofs.
Context `{Crc32cLaws, Blake3Laws} (r : ExactIndexRunReader) (b : bytes) (run : ExactIndexRun).
Hypothesis Hopen : open_on r b run.
Abbreviation pages := (chunks 31 (run_entries run)).
Abbreviation d := (reader_descriptor r).
Abbreviation pc := (descriptor_page_count (reader_descriptor r)).

(** The resident pages are those of the run. *)
Definition resident_ok (res : gmap Z ExactIndexPage) : Prop :=
  ∀ o page, res !! o = Some page → 0 ≤ o < pc ∧ pages !! Z.to_nat o = Some (page_entries page).
Lemma resident_insert res o page es :
  resident_ok res → 0 ≤ o < pc → pages !! Z.to_nat o = Some es → page_entries page = es →
  resident_ok (<[o := page]> res).
Proof. intros Hres Ho Hes <- o' page' [[<- <-]|[_ Hp]]%lookup_insert_Some; [done|by apply Hres]. Qed.

Lemma split_span_ok count o res :
  resident_ok res → 0 ≤ o → o + Z.of_nat count ≤ pc →
  ∃ res', split_span r o (sub b (4096 + o * 4096) (4096 * Z.of_nat count)) count res = Ok res' ∧ resident_ok res'.
Proof.
  destruct (reader_facts r b run Hopen) as (Hd&_&Hb&_). pose proof (wd_footer_offset d Hd). pose proof (wd_file_length d Hd).
  revert o res. induction count as [|count IH]; intros o res Hres Ho Hc; [by exists res|]. cbn [split_span].
  destruct (page_exists r b run Hopen o) as [es Hes]; [lia|].
  destruct (page_decodes r b run Hopen _ _ Hes) as [Hdec _]. rewrite Z2Nat.id in Hdec by lia.
  set (span := sub b _ _). assert (Hspan : blen span = 4096 + 4096 * Z.of_nat count) by (unfold span; rewrite blen_sub; lia).
  unfold index_from, EXACT_INDEX_PAGE_BYTES. rewrite !index_range_in by lia. rewrite Hspan, !Ok_bind. unfold span.
  rewrite !sub_sub by lia. rewrite Z.add_0_r, Z.sub_0_r, Hdec, format_Ok, Ok_bind.
  replace (4096 + o * 4096 + 4096) with (4096 + (o + 1) * 4096) by lia.
  replace (4096 + 4096 * Z.of_nat count - 4096) with (4096 * Z.of_nat count) by lia.
  apply IH; [|lia..]. by apply (resident_insert _ _ _ es); [|lia|..].
Qed.
Lemma batch_span_pages_ok first count res :
  resident_ok res → 0 ≤ first → 1 ≤ count ≤ 256 → first + count ≤ pc →
  ∃ res', batch_span_pages r first count res = Ok res' ∧ resident_ok res'.
Proof.
  destruct (reader_facts r b run Hopen) as (Hd&_&Hb&_). pose proof (wd_footer_offset d Hd). pose proof (wd_file_length d Hd).
  intros Hres Hf Hc Hle. unfold batch_span_pages, EXACT_INDEX_PAGE_BYTES.
  rewrite page_offset_in by (done || lia). rewrite ok_or_Some, Ok_bind.
  rewrite (oo_read _ _ _ Hopen) by (unfold MAX_STORAGE_RANGE_BYTES; lia). rewrite Ok_bind, blen_sub by lia.
  rewrite Z.div_mul by lia. replace (count * 4096) with (4096 * Z.of_nat (Z.to_nat count)) by lia.
  apply split_span_ok; [done|lia|lia].
Qed.

(** ** Spans *)
Definition spans_ok : list (Z * Z) → Prop :=
  Forall (λ x, 0 ≤ x.1 ∧ 1 ≤ x.2 ≤ 256 ∧ x.1 + x.2 ≤ pc).
Lemma push_page_ok spans o : spans_ok spans → 0 ≤ o < pc → spans_ok (push_page spans o).
Proof.
  intros Hs Ho. unfold push_page. assert (Hnew : spans_ok (spans ++ [(o, 1)])).
  { apply Forall_app. split; [done|]. repeat constructor; cbn [fst snd]; lia. }
  destruct (last spans) as [[first count]|] eqn:Hl; [|done]. destruct (_ && _) eqn:Hext; [|done].
  apply andb_true_iff in Hext as [He Hlt]. apply Z.eqb_eq in He. apply Z.ltb_lt in Hlt.
  apply last_Some in Hl as [spans' ->]. rewrite removelast_last. apply Forall_app in Hs as [Hs Hlast].
  apply Forall_cons_1 in Hlast as [Hlast _]. cbn [fst snd] in Hlast. change EXACT_SCAN_PAGES_PER_IO with 256 in Hlt.
  apply Forall_app. split; [done|]. repeat constructor; cbn [fst snd]; lia.
Qed.
Lemma merge_spans_ok missing : Forall (λ o, 0 ≤ o < pc) missing → spans_ok (merge_spans missing).
Proof.
  unfold merge_spans. assert (Hnil : spans_ok []) by constructor. revert Hnil. generalize (@nil (Z * Z)) as spans.
  induction missing as [|o missing IH]; intros spans Hs Hm; [done|]. apply Forall_cons_1 in Hm as [Ho Hm].
  cbn [fold_left]. apply IH; [by apply push_page_ok|done].
Qed.
Lemma read_spans_ok spans res :
  spans_ok spans → resident_ok res → ∃ res', read_spans r spans res = Ok res' ∧ resident_ok res'.
Proof.
  intros Hs. revert res. induction Hs as [|[first count] spans (Hf&Hc&Hle) _ IH]; intros res Hres; [by exists res|].
  cbn [read_spans fst snd] in *. destruct (batch_span_pages_ok first count res) as (res'&->&Hres'); [done..|].
  rewrite Ok_bind. by apply IH.
Qed.
Lemma elem_of_dedup_1 l x : x ∈ dedup l → x ∈ l.
Proof.
  induction l as [|y l IH]; [done|]. cbn [dedup]. destruct l as [|z l]; [done|].
  destruct (_ =? _); [intros; right; by apply IH|]. intros [->|Hx]%elem_of_cons; [by left|right; by apply IH].
Qed.
Lemma dedup_in (P : Z → Prop) l : Forall P l → Forall P (dedup (sort_by_key id l)).
Proof.
  rewrite !list.Forall_forall. intros Hl x Hx%elem_of_dedup_1. apply Hl. by rewrite (sort_by_key_perm id l) in Hx.
Qed.

(** ** Keys *)
Context (keys : list (bytes * Z)) (final : Z → bool * list ExactIndexEntry).

(** A key in the middle of its scan: scanning on gives its final answer.  And a
    key that has its answer. *)
Record key_active (s : BatchState) (i : Z) (l : Z) : Prop := {
  ka_index : 0 ≤ i;
  ka_leaf : leaf s !! Z.to_nat i = Some l;
  ka_range : 0 ≤ l ≤ pc;
  ka_scan : ∃ c n f, keys !! Z.to_nat i = Some (c, n) ∧ batch_candidates s !! Z.to_nat i = Some f ∧
    batch_complete s !! Z.to_nat i = Some true ∧
    scan_pages r (Z.to_nat (pc - l)) c n MAX_EXACT_LOOKUP_CANDIDATES l f = Ok (final i);
}.
Definition key_done (s : BatchState) (i : Z) : Prop :=
  batch_complete s !! Z.to_nat i = Some (final i).1 ∧ batch_candidates s !! Z.to_nat i = Some (final i).2.
(** Two states agree on a key. *)
Record same_key (s s' : BatchState) (i : Z) : Prop := {
  sk_leaf : leaf s' !! Z.to_nat i = leaf s !! Z.to_nat i;
  sk_candidates : batch_candidates s' !! Z.to_nat i = batch_candidates s !! Z.to_nat i;
  sk_complete : batch_complete s' !! Z.to_nat i = batch_complete s !! Z.to_nat i;
}.
Lemma key_active_same s s' i l : same_key s s' i → key_active s i l → key_active s' i l.
Proof. intros [Hl Hc Hf] [Hi Hleaf Hr Hscan]. split; [done|by rewrite Hl|done|]. by rewrite Hc, Hf. Qed.
Lemma key_done_same s s' i : same_key s s' i → key_done s i → key_done s' i.
Proof. intros [Hl Hc Hf] Hd. unfold key_done. by rewrite Hc, Hf. Qed.
Lemma same_key_trans s1 s2 s3 i : same_key s1 s2 i → same_key s2 s3 i → same_key s1 s3 i.
Proof. intros [Hl Hc Hf] [Hl' Hc' Hf']. split; congruence. Qed.

Lemma missing_pages_ok s pending :
  (∀ i, i ∈ pending → ∃ l, key_active s i l) →
  ∃ missing, missing_pages r s pending = Ok missing ∧ Forall (λ o, 0 ≤ o < pc) missing.
Proof.
  induction pending as [|i pending IH]; intros Ha; [by exists []|]. cbn [missing_pages].
  destruct (Ha i) as [l [Hi Hl Hr _]]; [by left|]. rewrite (vec_at_in _ _ _ Hl), Ok_bind.
  destruct IH as (missing&->&Hm); [intros; apply Ha; by right|]. rewrite Ok_bind. eexists. split; [done|].
  destruct (Z.ltb_spec l pc); cbn [andb]; [|done]. destruct (_ && _); [|done]. by constructor; [lia|].
Qed.
(** The page a key asks for is the page a lookup of the key would read. *)
Lemma resident_page s o : resident_ok (resident s) → 0 ≤ o < pc →
  ∃ page res, match resident s !! o with
    | Some page => Ok (page, resident s)
    | None => page ← read_page r o; Ok (page, <[o := page]> (resident s))
    end = @Ok ExactIndexStoreError _ (page, res) ∧ resident_ok res ∧
    ∃ page', read_page r o = Ok page' ∧ page_entries page' = page_entries page.
Proof.
  intros Hres Ho. destruct (page_exists r b run Hopen o Ho) as [es Hes].
  destruct (read_page_in r b run Hopen o es Ho Hes) as (page'&Hp&He). destruct (resident s !! o) as [page|] eqn:Hr.
  - exists page, (resident s). split_and!; [done|done|]. exists page'. split; [done|].
    apply Hres in Hr as [_ Hr]. congruence.
  - exists page', (<[o := page']> (resident s)). rewrite Hp, Ok_bind. split_and!; [done| |by exists page'].
    by apply (resident_insert _ _ _ es).
Qed.
Lemma scan_end fuel c n m o f : pc ≤ o → scan_pages r fuel c n m o f = Ok (true, f).
Proof. intros Ho. destruct fuel; cbn [scan_pages]; by rewrite (proj2 (Z.ltb_ge _ _) Ho). Qed.
Lemma candidates_entries p p' c n : page_entries p' = page_entries p → candidates p' c n = candidates p c n.
Proof. intros He. unfold candidates. by rewrite He. Qed.

(** The state after a key has taken a page's matches. *)
Definition updated (s : BatchState) (i : Z) (res : gmap Z ExactIndexPage) (l : Z) (f : list ExactIndexEntry) (c : bool) : BatchState :=
  {| leaf := <[Z.to_nat i := l]> (leaf s); batch_candidates := <[Z.to_nat i := f]> (batch_candidates s);
     batch_complete := <[Z.to_nat i := c]> (batch_complete s); resident := res |}.
Lemma updated_same s i res l f c j : 0 ≤ i → 0 ≤ j → j ≠ i → same_key s (updated s i res l f c) j.
Proof. intros Hi Hj Hne. by split; apply list_lookup_insert_ne; lia. Qed.
Lemma updated_done s i res l f c : is_Some (batch_candidates s !! Z.to_nat i) → is_Some (batch_complete s !! Z.to_nat i) →
  final i = (c, f) → key_done (updated s i res l f c) i.
Proof.
  intros Hf%lookup_lt_is_Some_1 Hc%lookup_lt_is_Some_1 Hfin. unfold key_done. rewrite Hfin.
  by split; cbn [updated batch_complete batch_candidates fst snd]; rewrite list_lookup_insert_eq.
Qed.
Lemma resolve_key_spec s i l :
  resident_ok (resident s) → key_active s i l →
  ∃ again s', resolve_key r keys s i = Ok (again, s') ∧ resident_ok (resident s') ∧
    (∀ j, 0 ≤ j → j ≠ i → same_key s s' j) ∧
    (if again then key_active s' i (l + 1) else key_done s' i).
Proof.
  intros Hres [Hi Hl Hr (c&n&f&Hk&Hf&Hc&Hscan)]. unfold resolve_key. rewrite (vec_at_in _ _ _ Hl), Ok_bind. cbv zeta.
  destruct (Z.leb_spec pc l) as [Hge|Hlt].
  { exists false, s. split_and!; [done|done|done|]. rewrite scan_end in Hscan by lia. apply Ok_inj in Hscan.
    unfold key_done. by rewrite <-Hscan. }
  destruct (resident_page s l Hres) as (page&res&->&Hres'&page'&Hp&He); [lia|]. rewrite Ok_bind, (vec_at_in _ _ _ Hk), Ok_bind.
  replace (Z.to_nat (pc - l)) with (S (Z.to_nat (pc - (l + 1)))) in Hscan by lia. cbn [scan_pages] in Hscan.
  rewrite (proj2 (Z.ltb_lt _ _) Hlt), Hp, Ok_bind, (candidates_entries page page' c n He), He in Hscan.
  destruct (format (candidates page c n)) as [m| |]; [|done|done]. rewrite Ok_bind in Hscan. rewrite Ok_bind. cbn [batch_candidates].
  destruct (bool_decide (m = [])).
  { eexists false, _. split_and!; [done|done|done|]. apply Ok_inj in Hscan. unfold key_done. by rewrite <-Hscan. }
  rewrite (vec_at_in _ _ _ Hf), Ok_bind. destruct (index_range m _ _) as [t| |]; [|done|done]. rewrite Ok_bind in Hscan. rewrite Ok_bind.
  pose proof (lookup_lt_Some _ _ _ Hf) as Hfi. pose proof (lookup_lt_Some _ _ _ Hc) as Hci. pose proof (lookup_lt_Some _ _ _ Hl) as Hli.
  rewrite vec_set_length, Ok_bind by lia. cbn [batch_complete leaf]. rewrite !vec_set_length, Ok_bind by lia.
  assert (Hcut : final i = (false, f ++ t) → ∃ again s', Ok (false,
    {| leaf := leaf s; batch_candidates := <[Z.to_nat i:=f ++ t]> (batch_candidates s);
       batch_complete := <[Z.to_nat i:=false]> (batch_complete s); resident := res |}) = @Ok ExactIndexStoreError _ (again, s') ∧
    resident_ok (resident s') ∧ (∀ j, 0 ≤ j → j ≠ i → same_key s s' j) ∧
    (if again then key_active s' i (l + 1) else key_done s' i)).
  { intros Hfin. eexists false, (updated s i res l (f ++ t) false). split_and!; [|done|by intros; apply updated_same|by apply updated_done].
    unfold updated. by rewrite (list_insert_id (leaf s)). }
  assert (Hkeep : <[Z.to_nat i := true]> (batch_complete s) = batch_complete s) by (by apply list_insert_id).
  destruct (_ <? blen m); [apply Hcut; by apply Ok_inj in Hscan|]. destruct (negb _ || _).
  { eexists false, (updated s i res l (f ++ t) true). split_and!; [|done|by intros; apply updated_same|].
    - unfold updated. by rewrite (list_insert_id (leaf s)), Hkeep.
    - apply Ok_inj in Hscan. by apply updated_done. }
  destruct (_ =? MAX_EXACT_LOOKUP_CANDIDATES); [apply Hcut; by apply Ok_inj in Hscan|]. rewrite Ok_bind.
  exists true, (updated s i res (l + 1) (f ++ t) true). split_and!; [|done|by intros; apply updated_same|].
  - unfold updated. by rewrite Hkeep.
  - split; [done|by apply list_lookup_insert_eq|lia|]. exists c, n, (f ++ t).
    split_and!; [done|by apply list_lookup_insert_eq|by apply list_lookup_insert_eq|done].
Qed.
(** A round advances every pending key by a page, or answers it. *)
Lemma resolve_keys_spec s pending m :
  resident_ok (resident s) → NoDup pending → (∀ i, i ∈ pending → ∃ l, key_active s i l ∧ pc - l ≤ m + 1) →
  ∃ next s', resolve_keys r keys s pending = Ok (next, s') ∧ resident_ok (resident s') ∧ next `sublist_of` pending ∧
    (∀ i, i ∈ next → ∃ l, key_active s' i l ∧ pc - l ≤ m) ∧
    (∀ i, i ∈ pending → i ∉ next → key_done s' i) ∧ (∀ i, 0 ≤ i → i ∉ pending → same_key s s' i).
Proof.
  revert s. induction pending as [|i pending IH]; intros s Hres Hnd Ha.
  { exists [], s. split_and!; [done|done|done|by intros ? ?%not_elem_of_nil|by intros ? ?%not_elem_of_nil|done]. }
  apply NoDup_cons in Hnd as [Hnot Hnd]. destruct (Ha i) as (l&Hi&Hm); [by left|]. pose proof (ka_index _ _ _ Hi) as Hi0.
  destruct (resolve_key_spec s i l Hres Hi) as (again&s1&Hr1&Hres1&Hsame1&Hi1). cbn [resolve_keys]. rewrite Hr1, Ok_bind.
  destruct (IH s1 Hres1 Hnd) as (next&s2&Hr2&Hres2&Hsub&Hnext&Hdone&Hsame2).
  { intros j Hj. destruct (Ha j) as (l'&Hj'&Hm'); [by right|]. exists l'. split; [|done].
    apply (key_active_same s); [|done]. apply Hsame1; [apply Hj'|]. by intros ->. }
  rewrite Hr2, Ok_bind. assert (Hi2 : same_key s1 s2 i) by (by apply Hsame2).
  exists (if again then i :: next else next), s2. split_and!; [done|done|destruct again; by constructor| | |].
  - intros j Hj. destruct again; [|by apply Hnext]. apply elem_of_cons in Hj as [->|Hj]; [|by apply Hnext].
    exists (l + 1). split; [by apply (key_active_same s1)|lia].
  - intros j [->|Hj]%elem_of_cons Hn; [|apply Hdone; [done|]; destruct again; [by apply not_elem_of_cons in Hn as [_ ?]|done]].
    destruct again; [by apply not_elem_of_cons in Hn as [? _]|]. by apply (key_done_same s1).
  - intros j Hj [Hne Hn]%not_elem_of_cons. apply (same_key_trans _ s1); [by apply Hsame1|by apply Hsame2].
Qed.
Lemma batch_rounds_spec fuel pending s :
  resident_ok (resident s) → NoDup pending → (∀ i, i ∈ pending → ∃ l, key_active s i l ∧ pc - l < Z.of_nat fuel) →
  (∀ i, 0 ≤ i < blen keys → i ∉ pending → key_done s i) →
  ∃ s', batch_rounds r keys fuel pending s = Ok s' ∧ ∀ i, 0 ≤ i < blen keys → key_done s' i.
Proof.
  revert pending s. induction fuel as [|fuel IH]; intros [|x pending] s Hres Hnd Ha Hd.
  1, 3: exists s; split; [done|]; intros; apply Hd; [done|apply not_elem_of_nil].
  { exfalso. destruct (Ha x) as (l&[_ _ ? _]&?); [by left|]. lia. }
  cbn [batch_rounds]. set (pend := x :: pending) in *.
  destruct (missing_pages_ok s pend) as (missing&->&Hm). { intros i Hi. destruct (Ha i Hi) as (l&?&_). by exists l. }
  rewrite Ok_bind. cbv zeta. destruct (read_spans_ok (merge_spans (dedup (sort_by_key id missing))) (resident s)) as (res&->&Hres');
    [by apply merge_spans_ok, dedup_in|done|]. rewrite Ok_bind.
  set (s1 := {| resident := res |}). assert (Hs1 : ∀ i, same_key s s1 i) by done.
  destruct (resolve_keys_spec s1 pend (Z.of_nat fuel - 1)) as (next&s2&->&Hres2&Hsub&Hnext&Hdone&Hsame); [done|done| |].
  { intros i Hi. destruct (Ha i Hi) as (l&Hl&?). exists l. split; [by apply (key_active_same s)|lia]. }
  rewrite Ok_bind. apply IH; [done|by eapply sublist_NoDup| |].
  - intros i Hi. destruct (Hnext i Hi) as (l&?&?). exists l. split; [done|lia].
  - intros i Hi Hn. destruct (decide (i ∈ pend)) as [Hp|Hp]; [by apply Hdone|].
    apply (key_done_same s1); [apply Hsame; [lia|done]|]. by apply (key_done_same s); [|apply Hd].
Qed.

(** ** The start of a batch *)
Definition key_ok (k : bytes * Z) : Prop := blen k.1 = 32 ∧ is_u32 k.2.
Abbreviation matching k := (filter (λ e, entry_key e = k) (run_entries run)).

Lemma bounds_length (ps : list (list ExactIndexEntry)) : Forall (λ es, es ≠ []) ps → length (omap page_bounds ps) = length ps.
Proof.
  induction 1 as [|es ps Hne _ IH]; [done|]. cbn [omap list_omap].
  destruct (page_bounds es) eqn:Hb; [cbn [length]; by rewrite IH|]. exfalso. destruct es as [|e es]; [done|].
  unfold page_bounds in Hb. destruct (proj2 (last_is_Some (e :: es))) as [l Hl]; [done|].
  cbn [head mbind option_bind] in Hb. by rewrite Hl in Hb.
Qed.
(** The bounds find the first page that is not below the key, and scanning
    from there finds its entries. *)
Lemma leaf_scan k found :
  key_ok k → blen found ≤ 64 →
  let l := Z.of_nat (partition_point (λ b, bool_decide (bounds_last b <o k)) (omap page_bounds pages)) in
  0 ≤ l ≤ pc ∧ scanned found 64 (matching k) (scan_pages r (Z.to_nat (pc - l)) k.1 k.2 64 l found).
Proof.
  destruct k as [c n]. intros [Hc Hn] Hf. cbn [fst snd] in *. destruct (reader_facts r b run Hopen) as (Hd&_&_&Hlen&_).
  destruct (wd_ranges d Hd) as (?&_). change (blen pages) with (Z.of_nat (length pages)) in Hlen.
  destruct (search_pages_spec r b run Hopen c n (Z.to_nat pc) 0 pc) as (x&_&Hx&Hlo&Hhi); [lia..| |].
  { intros o Ho (es&l&Hes&_). apply lookup_lt_Some in Hes. lia. }
  rewrite (partition_point_spec _ _ (Z.to_nat x)).
  - rewrite Z2Nat.id by lia. split; [done|]. rewrite <-(proj2 (chunks_paged (run_entries run))) at 1.
    rewrite (matches_from pages (c, n) (pages_sorted r b run Hopen) (Z.to_nat x) Hlo).
    apply (scan_pages_spec r b run Hopen); (lia || done).
  - assert (Hall : ∀ o, (o < length pages)%nat → ∃ bs, omap page_bounds pages !! o = Some bs ∧
      (bounds_last bs <o (c, n) ↔ below pages (c, n) o)).
    { intros o Ho. destruct (lookup_lt_is_Some_2 pages o Ho) as [es Hes].
      destruct (page_last pages (pages_full r b run Hopen) o es Hes) as (f&l&Hfs&Hl).
      eexists. split; [by apply (bounds_lookup r b run Hopen o es f l)|]. cbn [bounds_last]. unfold below. split.
      - intros Hlt. by exists es, l.
      - intros (es'&l'&?&?&?). simplify_eq. done. }
    pose proof (bounds_length pages (pages_full r b run Hopen)) as Hlb.
    split; [rewrite Hlb; lia|]. intros o bs Hbs. pose proof (lookup_lt_Some _ _ _ Hbs) as Ho. rewrite Hlb in Ho.
    destruct (Hall o Ho) as (bs'&Hbs'&Hiff). simplify_eq. rewrite bool_decide_eq_true, Hiff. split.
    + intros Hb. apply Nat.nle_gt. intros Hge. by apply (Hhi o).
    + apply Hlo.
Qed.

Lemma batch_pending_spec rest done cands flags :
  keys = done ++ rest → Forall key_ok keys → length cands = length keys → length flags = length keys →
  ∃ pending, batch_pending_keys r rest (blen done) cands flags = Ok pending ∧
    pending `sublist_of` seqZ (blen done) (blen rest) ∧
    ∀ i k f c, blen done ≤ i → keys !! Z.to_nat i = Some k → cands !! Z.to_nat i = Some f → flags !! Z.to_nat i = Some c →
      if decide (i ∈ pending) then c = true ∧ blen f < 64
      else c = false ∨ 64 ≤ blen f ∨ matching k = [].
Proof.
  intros Hkeys Hok Hlc Hlf. revert done Hkeys. induction rest as [|[ch n] rest IH]; intros done Hkeys; cbn [batch_pending_keys].
  { exists []. split_and!; [done|done|]. intros i k f c Hi Hk. apply lookup_lt_Some in Hk. rewrite app_nil_r in Hkeys. subst done.
    change (blen keys) with (Z.of_nat (length keys)) in Hi. lia. }
  assert (Hk : keys !! Z.to_nat (blen done) = Some (ch, n)).
  { rewrite Hkeys. apply list_lookup_middle. change (blen done) with (Z.of_nat (length done)). lia. }
  pose proof (lookup_lt_Some _ _ _ Hk) as Hlt. pose proof (blen_nonneg done) as Hd0.
  destruct (lookup_lt_is_Some_2 cands (Z.to_nat (blen done))) as [f Hf]; [lia|].
  destruct (lookup_lt_is_Some_2 flags (Z.to_nat (blen done))) as [c Hc]; [lia|].
  rewrite (vec_at_in _ _ _ Hc), (vec_at_in _ _ _ Hf), !Ok_bind.
  destruct (IH (done ++ [(ch, n)])) as (pending&Hp&Hsub&Hspec); [by rewrite <-app_assoc|]. rewrite blen_app in *.
  change (blen [(ch, n)]) with 1 in *. clear IH.
  assert (Hnot : blen done ∉ pending).
  { intros Hin. eapply elem_of_submseteq in Hin; [|by apply sublist_submseteq]. apply elem_of_seqZ in Hin. lia. }
  assert (Habsent : ∃ absent : bool, (skip ← Ok (negb c) ||? Ok (MAX_EXACT_LOOKUP_CANDIDATES <=? blen f);
    if (skip : bool) then Ok true else definitely_absent r ch n) = @Ok ExactIndexStoreError _ absent ∧
    if absent then c = false ∨ 64 ≤ blen f ∨ matching (ch, n) = [] else c = true ∧ blen f < 64).
  { unfold MAX_EXACT_LOOKUP_CANDIDATES. rewrite Forall_lookup in Hok. destruct (Hok _ _ Hk) as [Hch Hn].
    destruct c; cbn [negb or_else]; osimpl; [|exists true; split; [done|by left]].
    destruct (Z.leb_spec 64 (blen f)); [exists true; split; [done|by right; left]|].
    destruct (definitely_absent_spec r b run Hopen ch n Hch Hn) as (a&->&Ha). exists a. split; [done|].
    destruct a; [|done]. right. right. by apply Ha. }
  destruct Habsent as (absent&Ha&Hspec0). apply bind_Ok in Ha as (skip&->&Ha). rewrite Ok_bind, Ha, Ok_bind, Hp, Ok_bind.
  eexists. split; [done|]. split.
  - rewrite blen_cons. replace (1 + blen rest) with (Z.succ (blen rest)) by lia. rewrite seqZ_cons by (pose proof (blen_nonneg rest); lia).
    rewrite Z.pred_succ. replace (Z.succ (blen done)) with (blen done + 1) by lia. destruct absent; by constructor.
  - intros i k f' c' Hi Hk' Hf' Hc'. destruct (decide (i = blen done)) as [->|Hne].
    + simplify_eq. destruct absent; [by rewrite decide_False|]. by rewrite decide_True by (by left).
    + specialize (Hspec i k f' c' ltac:(lia) Hk' Hf' Hc'). destruct absent; [done|].
      destruct (decide (i ∈ pending)) as [Hin|Hn]; [by rewrite decide_True by (by right)|].
      rewrite decide_False; [done|]. by intros [?|?]%elem_of_cons.
Qed.
Lemma first_leaves_spec bounds pending leaves :
  length leaves = length keys → NoDup pending → (∀ i, i ∈ pending → 0 ≤ i < blen keys) →
  ∃ leaves', first_leaves keys bounds pending leaves = Ok leaves' ∧ length leaves' = length keys ∧
    (∀ i, 0 ≤ i → i ∉ pending → leaves' !! Z.to_nat i = leaves !! Z.to_nat i) ∧
    ∀ i k, i ∈ pending → keys !! Z.to_nat i = Some k →
      leaves' !! Z.to_nat i = Some (Z.of_nat (partition_point (λ b, bool_decide (bounds_last b <o k)) bounds)).
Proof.
  revert leaves. induction pending as [|i pending IH]; intros leaves Hlen Hnd Hin; cbn [first_leaves].
  { exists leaves. split_and!; [done|done|done|]. by intros i k ?%not_elem_of_nil. }
  apply NoDup_cons in Hnd as [Hnot Hnd]. pose proof (Hin i ltac:(by left)) as Hi.
  change (blen keys) with (Z.of_nat (length keys)) in *. destruct (lookup_lt_is_Some_2 keys (Z.to_nat i)) as [k Hk]; [lia|].
  rewrite (vec_at_in _ _ _ Hk), Ok_bind, vec_set_length, Ok_bind by lia.
  destruct (IH (<[Z.to_nat i := Z.of_nat (partition_point (λ b, bool_decide (bounds_last b <o k)) bounds)]> leaves))
    as (leaves'&->&Hlen'&Hsame&Hset); [by rewrite length_insert|done|by intros; apply Hin; right|].
  exists leaves'. split_and!; [done|done| |].
  - intros j Hj [Hne Hn]%not_elem_of_cons. rewrite Hsame by done. apply list_lookup_insert_ne. lia.
  - intros j k' [->|Hj]%elem_of_cons Hk'; [|by apply Hset]. simplify_eq. rewrite Hsame by (done || lia).
    apply list_lookup_insert_eq. lia.
Qed.
End RunProofs.

(** ** A batch against one run *)
Section RunBatch.
Context `{Crc32cLaws, Blake3Laws} (r : ExactIndexRunReader) (b : bytes) (run : ExactIndexRun).
Hypothesis Hopen : open_on r b run.
Context (keys : list (bytes * Z)) (cands : list (list ExactIndexEntry)) (flags : list bool).
Hypothesis Hkeys : Forall key_ok keys.
Hypothesis Hcands : length cands = length keys.
Hypothesis Hflags : length flags = length keys.

(** What a batch makes of one key's candidates and flag: what a lookup of the
    key makes of them. *)
Definition answered (matches found : list ExactIndexEntry) (complete : bool) (found' : list ExactIndexEntry)
    (complete' : bool) : Prop :=
  if complete && (blen found <? 64) then scanned found 64 matches (Ok (complete', found'))
  else complete' = complete ∧ found' = found.
Lemma answered_none found complete : blen found < 64 → answered [] found complete found complete.
Proof.
  intros Hf. unfold answered. destruct complete; cbn [andb]; [|done]. destruct (_ <? _); [apply scanned_none; lia|done].
Qed.
Lemma answered_skip matches found complete : complete = false ∨ 64 ≤ blen found → answered matches found complete found complete.
Proof.
  intros Hskip. unfold answered. destruct complete; cbn [andb]; [|done]. destruct (Z.ltb_spec (blen found) 64); [|done].
  destruct Hskip; [done|lia].
Qed.
Lemma batch_spec :
  ∃ res, try_lookup_batch_into r keys cands flags = Ok res ∧
    match res with
    | None => True
    | Some (cands', flags') => ∀ i k f c,
        keys !! i = Some k → cands !! i = Some f → flags !! i = Some c →
        ∃ f' c', cands' !! i = Some f' ∧ flags' !! i = Some c' ∧
          answered (filter (λ e, entry_key e = k) (run_entries run)) f c f' c'
    end.
Proof.
  unfold try_lookup_batch_into. destruct (_ && _); [by exists None|]. cbv zeta.
  destruct (reader_peek_bounds r) as [bounds|] eqn:Hb; [|by exists None]. apply (oo_peek_bounds _ _ _ Hopen) in Hb.
  destruct (negb _); [by exists None|].
  destruct (batch_pending_spec r b run Hopen keys keys [] cands flags) as (pending&Hp&Hsub&Hpend); [done..|].
  rewrite blen_nil in Hp, Hsub, Hpend. rewrite Hp, Ok_bind.
  assert (Hbegin : (if reader_independent r && negb (bool_decide (pending = [])) then reader_begin_independent r else Ok ()) = Ok ())
    by (destruct (_ && _); [apply (oo_begin_independent _ _ _ Hopen)|done]).
  rewrite Hbegin, Ok_bind. assert (Hnd : NoDup pending) by (eapply sublist_NoDup; [apply NoDup_seqZ|exact Hsub]).
  assert (Hin : ∀ i, i ∈ pending → 0 ≤ i < blen keys).
  { intros i Hi. eapply elem_of_submseteq in Hi; [|by apply sublist_submseteq]. by apply elem_of_seqZ in Hi. }
  destruct (first_leaves_spec keys bounds pending (replicate (length keys) usize_max)) as (leaves&->&Hll&_&Hset);
    [by rewrite length_replicate|done|done|]. rewrite Ok_bind.
  set (lf k := Z.of_nat (partition_point (λ b, bool_decide (bounds_last b <o k)) bounds)) in *.
  set (final i := match keys !! Z.to_nat i, cands !! Z.to_nat i, flags !! Z.to_nat i with
    | Some k, Some f, Some c => if decide (i ∈ pending) then
        match scan_pages r (Z.to_nat (descriptor_page_count (reader_descriptor r) - lf k)) k.1 k.2 64 (lf k) f with
        | Ok x => x | _ => (c, f) end else (c, f)
    | _, _, _ => (true, []) end).
  set (s := {| resident := ∅ |}).
  assert (Hact : ∀ i k f c, i ∈ pending → keys !! Z.to_nat i = Some k → cands !! Z.to_nat i = Some f →
    flags !! Z.to_nat i = Some c → c = true ∧ blen f < 64 ∧ 0 ≤ lf k ≤ descriptor_page_count (reader_descriptor r) ∧
      scan_pages r (Z.to_nat (descriptor_page_count (reader_descriptor r) - lf k)) k.1 k.2 64 (lf k) f = Ok (final i) ∧
      scanned f 64 (filter (λ e, entry_key e = k) (run_entries run)) (Ok (final i))).
  { intros i k f c Hi Hk Hf Hc. pose proof (Hpend i k f c ltac:(apply (Hin i Hi)) Hk Hf Hc) as Hic. rewrite decide_True in Hic by done.
    destruct Hic as [-> Hlt]. rewrite Forall_lookup in Hkeys.
    destruct (leaf_scan r b run Hopen k f (Hkeys _ _ Hk)) as [Hl Hscan]; [lia|]. rewrite <-Hb in Hl, Hscan. fold (lf k) in Hl, Hscan.
    split_and!; [done|done|apply Hl|apply Hl| |]; unfold final; rewrite Hk, Hf, Hc, decide_True by done;
      destruct Hscan as (complete&Hs&Hcomplete); rewrite Hs; [done|]. by exists complete. }
  assert (Hlook : ∀ i, 0 ≤ i < blen keys → ∃ k f c, keys !! Z.to_nat i = Some k ∧ cands !! Z.to_nat i = Some f ∧ flags !! Z.to_nat i = Some c).
  { intros i Hi. change (blen keys) with (Z.of_nat (length keys)) in Hi. destruct (lookup_lt_is_Some_2 keys (Z.to_nat i)) as [k Hk]; [lia|].
    destruct (lookup_lt_is_Some_2 cands (Z.to_nat i)) as [f Hf]; [lia|]. destruct (lookup_lt_is_Some_2 flags (Z.to_nat i)) as [c Hc]; [lia|].
    by exists k, f, c. }
  destruct (batch_rounds_spec r b run Hopen keys final (S (Z.to_nat (descriptor_page_count (reader_descriptor r)))) pending s)
    as (s'&->&Hdone); [by intros ? ? ?|done| | |].
  - intros i Hi. destruct (Hlook i (Hin i Hi)) as ([ch n]&f&c&Hk&Hf&Hc). destruct (Hact i _ f c Hi Hk Hf Hc) as (->&_&Hl&Hs&_).
    exists (lf (ch, n)). split; [|lia]. split; [apply (Hin i Hi)|by apply Hset|done|]. exists ch, n, f. by split_and!.
  - intros i Hi Hn. destruct (Hlook i Hi) as (k&f&c&Hk&Hf&Hc). unfold key_done, final. rewrite Hk, Hf, Hc, decide_False by done. done.
  - rewrite Ok_bind. eexists. split; [done|]. cbv beta iota. intros i k f c Hk Hf Hc.
    pose proof (lookup_lt_Some _ _ _ Hk) as Hi.
    destruct (Hdone (Z.of_nat i)) as [Hdc Hdf]; [change (blen keys) with (Z.of_nat (length keys)); lia|].
    rewrite Nat2Z.id in Hdc, Hdf. eexists _, _. split_and!; [exact Hdf|exact Hdc|].
    rewrite <-(Nat2Z.id i) in Hk, Hf, Hc. pose proof (Hpend (Z.of_nat i) k f c ltac:(lia) Hk Hf Hc) as Hic.
    destruct (decide (Z.of_nat i ∈ pending)) as [Hip|Hip].
    + destruct (Hact _ _ _ _ Hip Hk Hf Hc) as (->&Hlt&_&_&Hs). unfold answered. cbn [andb].
      rewrite (proj2 (Z.ltb_lt _ _) Hlt). by rewrite <-surjective_pairing.
    + unfold final. rewrite Hk, Hf, Hc, decide_False by done. cbn [fst snd].
      destruct Hic as [?|[?|Hnone]]; [apply answered_skip; by left|apply answered_skip; by right|].
      destruct (Z.le_gt_cases 64 (blen f)); [apply answered_skip; by right|]. rewrite Hnone. by apply answered_none.
Qed.
End RunBatch.
(** ** The answers of one family *)
Abbreviation answers := (list (list ExactIndexEntry) * list bool)%type.
Definition answer_at (a : answers) (g : Z) (f : list ExactIndexEntry) (c : bool) : Prop :=
  a.1 !! Z.to_nat g = Some f ∧ a.2 !! Z.to_nat g = Some c.
Definition same_at (a a' : answers) (g : Z) : Prop :=
  a'.1 !! Z.to_nat g = a.1 !! Z.to_nat g ∧ a'.2 !! Z.to_nat g = a.2 !! Z.to_nat g.
Lemma answer_same a a' g f c : same_at a a' g → answer_at a g f c → answer_at a' g f c.
Proof. intros [H1 H2] [Hf Hc]. unfold answer_at. by rewrite H1, H2. Qed.
Lemma same_at_trans a1 a2 a3 g : same_at a1 a2 g → same_at a2 a3 g → same_at a1 a3 g.
Proof. intros [H1 H2] [H3 H4]. split; congruence. Qed.
Lemma answer_at_fun a g f c f' c' : answer_at a g f c → answer_at a g f' c' → f = f' ∧ c = c'.
Proof. intros [? ?] [? ?]. by simplify_eq. Qed.

(** A run with the matches [m] adds the first [n] of them, where [n] is at least
    what the key still lacks to the limit and at most the limit, and clears the
    flag when the limit is reached. *)
Definition gains (m f : list ExactIndexEntry) (f' : list ExactIndexEntry) (c' : bool) : Prop :=
  ∃ n rc, 64 - blen f ≤ n ≤ 64 ∧ f' = f ++ take (Z.to_nat n) m ∧ c' = rc && (blen f' <? 64) ∧
    (if rc : bool then blen m ≤ n else n ≤ blen m).

Lemma close_key_spec a g f c found rc :
  0 ≤ g → answer_at a g f c → ∃ a', close_key a g found rc = Ok a' ∧ answer_at a' g found (c && rc && (blen found <? 64)) ∧
    ∀ g', 0 ≤ g' → g' ≠ g → same_at a a' g'.
Proof.
  intros Hg [Hf Hc]. pose proof (lookup_lt_Some _ _ _ Hf). pose proof (lookup_lt_Some _ _ _ Hc). unfold close_key.
  rewrite vec_set_length, Ok_bind, (vec_at_in _ _ _ Hc), Ok_bind, vec_set_length, Ok_bind by lia.
  unfold MAX_EXACT_LOOKUP_CANDIDATES. destruct (Z.leb_spec 64 (blen found)) as [Hge|Hlt].
  - rewrite vec_set_length, Ok_bind by (rewrite length_insert; lia). eexists. split; [done|].
    rewrite (proj2 (Z.ltb_ge _ _) Hge), andb_false_r, list_insert_insert_eq. split.
    + split; by apply list_lookup_insert_eq.
    + intros g' Hg' Hne. split; apply list_lookup_insert_ne; lia.
  - rewrite Ok_bind. eexists. split; [done|]. rewrite (proj2 (Z.ltb_lt _ _) Hlt), andb_true_r. split.
    + split; by apply list_lookup_insert_eq.
    + intros g' Hg' Hne. split; apply list_lookup_insert_ne; lia.
Qed.

Section Group.
Context (base : Z) (window : list (bytes * Z)) (mt : Z → list ExactIndexEntry).
Hypothesis Hbase : 0 ≤ base.

(** The keys [locals] have taken what one run has for them; the others are as they were. *)
Record processed (locals : list Z) (a a' : answers) : Prop := {
  pr_gain l f c : l ∈ locals → answer_at a (base + l) f c →
    ∃ f' c', answer_at a' (base + l) f' c' ∧ gains (mt l) f f' c';
  pr_same g : 0 ≤ g → (∀ l, l ∈ locals → g ≠ base + l) → same_at a a' g;
}.
(** A key that may still take candidates. *)
Definition ready (a : answers) (l : Z) : Prop := 0 ≤ l ∧ ∃ f, answer_at a (base + l) f true ∧ blen f < 64.
Lemma processed_nil a : processed [] a a.
Proof. split; [by intros ? ? ? ?%not_elem_of_nil|done]. Qed.
Lemma ready_after locals a a' l : l ∉ locals → processed locals a a' → ready a l → ready a' l.
Proof.
  intros Hl Hp [Hl0 (f&Hf&Hlt)]. split; [done|]. exists f. split; [|done]. apply (answer_same a); [|done].
  apply (pr_same _ _ _ Hp); [lia|]. intros l' Hl' Heq. by replace l with l' in Hl by lia.
Qed.
Lemma processed_app l1 l2 a1 a2 a3 :
  (∀ l, l ∈ l1 → l ∉ l2) → (∀ l, l ∈ l1 ++ l2 → 0 ≤ l) → processed l1 a1 a2 → processed l2 a2 a3 → processed (l1 ++ l2) a1 a3.
Proof.
  intros Hdisj Hpos H1 H2. split.
  - intros l f c Hl Hf. assert (Hl0 : 0 ≤ base + l) by (specialize (Hpos l Hl); lia). apply elem_of_app in Hl as [Hl|Hl].
    + destruct (pr_gain _ _ _ H1 l f c Hl Hf) as (f'&c'&Hf'&Hg). exists f', c'. split; [|done].
      apply (answer_same a2); [|done]. apply (pr_same _ _ _ H2); [done|]. intros l' Hl' Heq.
      apply (Hdisj l Hl). by replace l with l' by lia.
    + assert (Hf' : answer_at a2 (base + l) f c).
      { apply (answer_same a1); [|done]. apply (pr_same _ _ _ H1); [done|]. intros l' Hl' Heq.
        apply (Hdisj l' Hl'). by replace l' with l by lia. }
      by apply (pr_gain _ _ _ H2 l f c Hl).
  - intros g Hg Hn. apply (same_at_trans _ a2).
    + apply (pr_same _ _ _ H1); [done|]. intros l Hl. apply Hn, elem_of_app. by left.
    + apply (pr_same _ _ _ H2); [done|]. intros l Hl. apply Hn, elem_of_app. by right.
Qed.
(** One key: it is ready and the run's answer is a gain. *)
Lemma close_ready a l f found rc n :
  0 ≤ l → answer_at a (base + l) f true → 64 - blen f ≤ n ≤ 64 → found = f ++ take (Z.to_nat n) (mt l) →
  (if rc : bool then blen (mt l) ≤ n else n ≤ blen (mt l)) →
  ∃ a', close_key a (base + l) found rc = Ok a' ∧ processed [l] a a'.
Proof.
  intros Hl Hf Hn Hfound Hrc. destruct (close_key_spec a (base + l) f true found rc) as (a'&Ha'&Hat&Hsame); [lia|done|].
  exists a'. split; [done|]. split.
  - intros l' f0 c0 ->%list_elem_of_singleton Hf0. destruct (answer_at_fun _ _ _ _ _ _ Hf Hf0) as [<- <-].
    eexists _, _. split; [exact Hat|]. by exists n, rc.
  - intros g Hg Hne. apply Hsame; [done|]. apply Hne. by left.
Qed.
(** The rest of a group after its first key. *)
Lemma processed_cons l locals a (m : answers → store_result answers) a1 :
  NoDup (l :: locals) → (∀ x, x ∈ l :: locals → ready a x) → processed [l] a a1 →
  ((∀ x, x ∈ locals → ready a1 x) → ∃ a', m a1 = Ok a' ∧ processed locals a1 a') →
  ∃ a', m a1 = Ok a' ∧ processed (l :: locals) a a'.
Proof.
  intros [Hnot Hnd]%NoDup_cons Hready Hp Hm. destruct Hm as (a'&Ha'&Hp').
  { intros x Hx. apply (ready_after [l] a); [|done|by apply Hready; right]. intros ->%list_elem_of_singleton. done. }
  exists a'. split; [done|]. apply (processed_app [l] locals a a1); [|by intros x Hx; apply (Hready x)|done|done].
  by intros x ->%list_elem_of_singleton.
Qed.
Lemma serial_group_spec `{Crc32cLaws, Blake3Laws} r b run ordinals a :
  open_on r b run → NoDup ordinals → (∀ l, l ∈ ordinals → ready a l) →
  (∀ l, l ∈ ordinals → ∃ k, window !! Z.to_nat l = Some k ∧ key_ok k ∧
     mt l = filter (λ e, entry_key e = k) (run_entries run)) →
  ∃ a', serial_group r base window ordinals a = Ok a' ∧ processed ordinals a a'.
Proof.
  intros Hopen. revert a. induction ordinals as [|l ordinals IH]; intros a Hnd Hready Hkeys.
  { exists a. split; [done|apply processed_nil]. }
  cbn [serial_group]. destruct (Hready l) as [Hl (f&Hf&Hlt)]; [by left|]. destruct (Hkeys l) as ([c n]&Hk&[Hc Hn]&Hm); [by left|].
  rewrite (vec_at_in _ _ _ Hk), Ok_bind, (vec_at_in _ _ _ (proj1 Hf)), Ok_bind. cbn [fst snd] in *.
  destruct (lookup_into_spec r b run Hopen c n f MAX_EXACT_LOOKUP_CANDIDATES Hc Hn) as (rc&->&Hrc);
    [unfold MAX_EXACT_LOOKUP_CANDIDATES; lia|]. rewrite Ok_bind. unfold MAX_EXACT_LOOKUP_CANDIDATES in *. rewrite <-Hm in *.
  destruct (close_ready a l f (f ++ take (Z.to_nat (64 - blen f)) (mt l)) rc (64 - blen f)) as (a1&->&Hp);
    [done|done|pose proof (blen_nonneg f); lia|done|destruct rc; lia|]. rewrite Ok_bind.
  apply (processed_cons l ordinals a (serial_group r base window ordinals) a1); [done|done|done|]. intros Hready1.
  apply IH; [by apply NoDup_cons in Hnd as [_ ?]|done|]. intros x Hx. apply Hkeys. by right.
Qed.
Lemma merge_group_spec ordinals position group a :
  0 ≤ position → NoDup ordinals → (∀ l, l ∈ ordinals → ready a l) →
  (∀ j l, ordinals !! j = Some l → ∃ g rc, answer_at group (position + Z.of_nat j) g rc ∧ scanned [] 64 (mt l) (Ok (rc, g))) →
  ∃ a', merge_group base ordinals position group a = Ok a' ∧ processed ordinals a a'.
Proof.
  revert position a. induction ordinals as [|l ordinals IH]; intros position a Hpos Hnd Hready Hg.
  { exists a. split; [done|apply processed_nil]. }
  cbn [merge_group]. destruct (Hready l) as [Hl (f&Hf&Hlt)]; [by left|].
  destruct (Hg 0%nat l eq_refl) as (g&rc&[Hg1 Hg2]&(rc'&[= <- ->]&Hrc)). rewrite Z.add_0_r in Hg1, Hg2.
  rewrite (vec_at_in _ _ _ (proj1 Hf)), Ok_bind, (vec_at_in _ _ _ Hg1), Ok_bind, (vec_at_in _ _ _ Hg2), Ok_bind.
  rewrite blen_nil in *. cbn [app] in *.
  destruct (close_ready a l f (f ++ take (Z.to_nat (64 - 0)) (mt l)) rc 64) as (a1&->&Hp);
    [done|done|pose proof (blen_nonneg f); lia|done|destruct rc; lia|]. rewrite Ok_bind.
  apply (processed_cons l ordinals a (merge_group base ordinals (position + 1) group) a1); [done|done|done|]. intros Hready1.
  apply IH; [lia|by apply NoDup_cons in Hnd as [_ ?]|done|]. intros j x Hx.
  destruct (Hg (S j) x Hx) as (g'&rc'&Hat&Hs). exists g', rc'. split; [|done].
  by replace (position + 1 + Z.of_nat j) with (position + Z.of_nat (S j)) by lia.
Qed.
Lemma window_keys_spec ordinals :
  (∀ l, l ∈ ordinals → is_Some (window !! Z.to_nat l)) →
  ∃ ks, window_keys window ordinals = Ok ks ∧ Forall2 (λ l k, window !! Z.to_nat l = Some k) ordinals ks.
Proof.
  induction ordinals as [|l ordinals IH]; intros Hin; [by exists []|]. cbn [window_keys].
  destruct (Hin l) as [k Hk]; [by left|]. rewrite (vec_at_in _ _ _ Hk), Ok_bind.
  destruct IH as (ks&->&Hks); [intros; apply Hin; by right|]. exists (k :: ks). split; [done|]. by constructor.
Qed.
Lemma lookup_group_spec `{Crc32cLaws, Blake3Laws} ix index ordinals r b run a :
  readers ix !! Z.to_nat index = Some r → open_on r b run → NoDup ordinals → (∀ l, l ∈ ordinals → ready a l) →
  (∀ l, l ∈ ordinals → ∃ k, window !! Z.to_nat l = Some k ∧ key_ok k ∧
     mt l = filter (λ e, entry_key e = k) (run_entries run)) →
  ∃ a', lookup_group ix base window (index, ordinals) a = Ok a' ∧ processed ordinals a a'.
Proof.
  intros Hr Hopen Hnd Hready Hkeys. unfold lookup_group. cbn [fst snd]. rewrite (vec_at_in _ _ _ Hr), Ok_bind.
  destruct (window_keys_spec ordinals) as (ks&->&Hks). { intros l Hl. destruct (Hkeys l Hl) as (k&->&_). done. }
  rewrite Ok_bind. assert (Hkey : ∀ j l, ordinals !! j = Some l → ∃ k, ks !! j = Some k ∧ key_ok k ∧
    mt l = filter (λ e, entry_key e = k) (run_entries run)).
  { intros j l Hj. destruct (Forall2_lookup_l _ _ _ _ _ Hks Hj) as (k&Hk&Hw).
    destruct (Hkeys l) as (k'&Hw'&?&?); [by apply (list_elem_of_lookup_2 _ j)|]. simplify_eq. by exists k. }
  assert (Hok : Forall key_ok ks).
  { apply Forall_lookup_2. intros j k Hk. destruct (Forall2_lookup_r _ _ _ _ _ Hks Hk) as (l&Hl&_).
    destruct (Hkey j l Hl) as (k'&?&?&_). by simplify_eq. }
  destruct (batch_spec r b run Hopen ks (replicate (length ks) []) (replicate (length ks) true)) as (res&->&Hres);
    [done|by rewrite length_replicate..|]. rewrite Ok_bind.
  destruct res as [group|]; [|by apply (serial_group_spec r b run)]. destruct group as [gc gf].
  apply merge_group_spec; [lia|done|done|]. intros j l Hj. destruct (Hkey j l Hj) as (k&Hk&_&->).
  pose proof (lookup_lt_Some _ _ _ Hk) as Hlt.
  destruct (Hres j k [] true Hk) as (g&rc&Hg&Hrc&Hans); [by apply lookup_replicate_2..|]. exists g, rc.
  split; [split; by rewrite Z.add_0_l, Nat2Z.id|]. unfold answered in Hans. by rewrite blen_nil in Hans.
Qed.
End Group.
(** ** The answers of a key over the families *)

(** [all] are the matches seen so far: below the limit the candidates are those
    matches; else the flag is cleared, and the candidates agree with the matches
    up to the limit. *)
Definition settled (all f : list ExactIndexEntry) (c : bool) : Prop :=
  c = true ∧ f = all ∧ blen all < 64 ∨ c = false ∧ 64 ≤ blen f ≤ 127 ∧ take 64 f = take 64 all.
Lemma settled_full all f : settled all f false → 64 ≤ blen all.
Proof.
  intros [(?&_)|(_&Hf&Ht)]; [done|]. change 64%nat with (Z.to_nat 64) in Ht.
  pose proof (blen_take_Z f 64 ltac:(lia)) as H1. pose proof (blen_take_Z all 64 ltac:(lia)) as H2. rewrite Ht in H1. lia.
Qed.
Lemma settled_skip all m f c : settled all f c → c = false ∨ 64 ≤ blen f ∨ m = [] → settled (all ++ m) f c.
Proof.
  intros Hs Hskip. destruct c.
  - destruct Hs as [(_&->&Hlt)|(?&_)]; [|done]. destruct Hskip as [?|[?| ->]]; [done|lia|]. rewrite app_nil_r. by left.
  - pose proof (settled_full _ _ Hs) as Hall. destruct Hs as [(?&_)|(_&Hf&Ht)]; [done|]. right. split_and!; [done|lia|lia|].
    change 64%nat with (Z.to_nat 64) in *. by rewrite take_blen_le by lia.
Qed.
Lemma settled_gain all m f f' c' : settled all f true → gains m f f' c' → settled (all ++ m) f' c'.
Proof.
  intros [(_&->&Hlt)|(?&_)]; [|done]. intros (n&rc&Hn&->&->&Hrc). pose proof (blen_nonneg all). pose proof (blen_nonneg m).
  pose proof (blen_take_Z m n ltac:(lia)) as Ht. destruct (Z.ltb_spec (blen (all ++ take (Z.to_nat n) m)) 64) as [Hl|Hl];
    rewrite blen_app, Ht in Hl.
  - assert (Hm : blen m < n) by lia. destruct rc; [|lia]. rewrite take_blen_ge by lia. left.
    rewrite blen_app. split_and!; [done|done|lia].
  - rewrite andb_false_r. right. rewrite blen_app, Ht. split_and!; [done|lia|lia|]. change 64%nat with (Z.to_nat 64).
    rewrite !take_blen_app by lia. f_equal. rewrite take_take. f_equal. lia.
Qed.

Lemma settled_answer all f c : settled all f c →
  blen f ≤ 127 ∧ @Ok ExactIndexStoreError _ (bool_decide (blen all < 64), take 64 all) = Ok (c, take 64 f).
Proof.
  intros Hs. destruct c.
  - destruct Hs as [(_&->&Hlt)|(?&_)]; [|done]. split; [lia|]. by rewrite bool_decide_true.
  - pose proof (settled_full _ _ Hs). destruct Hs as [(?&_)|(_&Hf&->)]; [done|]. split; [lia|]. by rewrite bool_decide_false by lia.
Qed.

(** ** The groups of a family *)
Definition flat (groups : list (Z * list Z)) : list (Z * Z) := concat ((λ g : Z * list Z, (λ l, (g.1, l)) <$> g.2) <$> groups).
Lemma flat_app g1 g2 : flat (g1 ++ g2) = flat g1 ++ flat g2.
Proof. unfold flat. by rewrite fmap_app, concat_app. Qed.
Lemma push_local_flat groups i l : flat (push_local groups i l) = flat groups ++ [(i, l)].
Proof.
  unfold push_local. destruct (last groups) as [[i' ords]|] eqn:Hl; [|by rewrite flat_app]. destruct (Z.eqb_spec i' i) as [->|_]; [|by rewrite flat_app].
  apply last_Some in Hl as [groups' ->]. rewrite removelast_last, !flat_app, <-app_assoc. f_equal. unfold flat.
  cbn [fmap list_fmap concat fst snd]. by rewrite !app_nil_r, fmap_app.
Qed.
Lemma push_local_full groups i l : Forall (λ g, g.2 ≠ []) groups → Forall (λ g, g.2 ≠ []) (push_local groups i l).
Proof.
  intros Hf. assert (Hnew : Forall (λ g, g.2 ≠ []) (groups ++ [(i, [l])])) by (apply Forall_app; split; [done|by repeat constructor]).
  unfold push_local. destruct (last groups) as [[i' ords]|] eqn:Hl; [|done]. destruct (_ =? _); [|done].
  apply last_Some in Hl as [groups' ->]. rewrite removelast_last. apply Forall_app in Hf as [Hf _]. apply Forall_app. split; [done|].
  repeat constructor. cbn [snd]. intros ?%app_nil. naive_solver.
Qed.

Section WindowProofs.
Context `{Crc32cLaws, Blake3Laws} (s : ExactIndexRunSet) (rdrs : list ExactIndexRunReader) (opened : list ExactIndexRun).
Hypothesis Hs : run_set_wf s.
Hypothesis Hserves : serves s rdrs opened.
Context (ix : ActivatedExactIndex).
Hypothesis Hix : built s ix rdrs.
Context (base : Z) (window : list (bytes * Z)).
Hypothesis Hbase : 0 ≤ base.
Hypothesis Hwindow : Forall key_ok window.
Abbreviation matching k l := (filter (λ e, entry_key e = k) l).

(** Every key of the window has an answer so far. *)
Definition covers (a : answers) : Prop :=
  ∀ l, 0 ≤ l < blen window → ∃ f c, answer_at a (base + l) f c.

Section Family.
Context (fam : ExactIndexLookupFamily).
Hypothesis Hfam : fam ∈ lookup_families ix.

Lemma window_groups_spec rest done a groups :
  window = done ++ rest → covers a → Forall (λ g, g.2 ≠ []) groups →
  ∃ groups' new, window_groups ix fam base rest (blen done) a groups = Ok groups' ∧
    flat groups' = flat groups ++ new ∧ Forall (λ g, g.2 ≠ []) groups' ∧ new.*2 `sublist_of` seqZ (blen done) (blen rest) ∧
    (∀ i l, (i, l) ∈ new → ready base a l ∧ ∃ k, window !! Z.to_nat l = Some k ∧ family_run ix k.1 fam = Ok (Some i)) ∧
    (∀ l k f c, blen done ≤ l → window !! Z.to_nat l = Some k → answer_at a (base + l) f c → l ∉ new.*2 →
       c = false ∨ 64 ≤ blen f ∨ family_run ix k.1 fam = Ok None).
Proof.
  intros Hw Hcov. revert done groups Hw. induction rest as [|[ch n] rest IH]; intros done groups Hw Hfull; cbn [window_groups].
  { exists groups, []. rewrite app_nil_r. split_and!; [done|done|done|done|by intros ? ? ?%not_elem_of_nil|].
    intros l k f c Hl Hk. apply lookup_lt_Some in Hk. rewrite app_nil_r in Hw. subst done.
    change (blen window) with (Z.of_nat (length window)) in Hl. lia. }
  assert (Hk : window !! Z.to_nat (blen done) = Some (ch, n)).
  { rewrite Hw. apply list_lookup_middle. change (blen done) with (Z.of_nat (length done)). lia. }
  pose proof (blen_nonneg done) as Hd0. pose proof (blen_nonneg rest) as Hr0.
  assert (Hwl : blen window = blen done + (1 + blen rest)) by (rewrite Hw, blen_app, blen_cons; done).
  destruct (Hcov (blen done)) as (f&c&Hfc); [lia|]. pose proof Hfc as [Hf Hc].
  rewrite (vec_at_in _ _ _ Hc), (vec_at_in _ _ _ Hf), !Ok_bind.
  destruct (family_run_spec s rdrs opened Hs Hserves ix Hix ch n fam Hfam) as (sel&Hsel&_).
  assert (Hskip : ∃ selected, (skip ← Ok (negb c) ||? Ok (MAX_EXACT_LOOKUP_CANDIDATES <=? blen f);
    if (skip : bool) then Ok None else family_run ix ch fam) = Ok selected ∧
    match selected with
    | Some i => c = true ∧ blen f < 64 ∧ family_run ix ch fam = Ok (Some i)
    | None => c = false ∨ 64 ≤ blen f ∨ family_run ix ch fam = Ok None
    end).
  { unfold MAX_EXACT_LOOKUP_CANDIDATES. destruct c; cbn [negb or_else]; osimpl; [|exists None; split; [done|by left]].
    destruct (Z.leb_spec 64 (blen f)); [exists None; split; [done|by right; left]|]. rewrite Hsel. exists sel. split; [done|].
    destruct sel; [done|by right; right]. }
  destruct Hskip as (selected&Hrun&Hselected). apply bind_Ok in Hrun as (skip&->&Hrun). rewrite Ok_bind, Hrun, Ok_bind.
  set (groups1 := match selected with Some i => push_local groups i (blen done) | None => groups end).
  destruct (IH (done ++ [(ch, n)]) groups1) as (groups'&new&Hg&Hflat&Hfull'&Hsub&Hin&Hout).
  { by rewrite <-app_assoc. }
  { unfold groups1. destruct selected; [by apply push_local_full|done]. }
  rewrite blen_app in Hg, Hsub, Hout. change (blen [(ch, n)]) with 1 in Hg, Hsub, Hout. rewrite Hg.
  exists groups', (match selected with Some i => [(i, blen done)] | None => [] end ++ new).
  rewrite blen_cons. replace (1 + blen rest) with (Z.succ (blen rest)) by lia. rewrite seqZ_cons, Z.pred_succ by lia.
  replace (Z.succ (blen done)) with (blen done + 1) by lia. split_and!.
  - done.
  - rewrite Hflat. unfold groups1. destruct selected; [by rewrite push_local_flat, <-app_assoc|done].
  - done.
  - destruct selected; cbn [app fmap list_fmap snd]; by constructor.
  - intros i l Hil. destruct selected as [i'|]; [|by apply Hin]. apply elem_of_cons in Hil as [[= -> ->]|Hil]; [|by apply Hin].
    destruct Hselected as (->&Hlt&Hfr). split; [split; [lia|by exists f]|]. by exists (ch, n).
  - intros l k f' c' Hl Hk' Hfc' Hn. destruct (decide (l = blen done)) as [->|Hne].
    + destruct (answer_at_fun _ _ _ _ _ _ Hfc Hfc') as [<- <-]. simplify_eq. destruct selected; [|done].
      exfalso. apply Hn. by left.
    + apply (Hout l k f' c'); [lia|done|done|]. intros Hl'. apply Hn. rewrite fmap_app. apply elem_of_app. by right.
Qed.
(** What the family has for a key of the window. *)
Definition family_matches (l : Z) : list ExactIndexEntry :=
  match window !! Z.to_nat l with Some k => matching k (family_entries opened fam) | None => [] end.
Lemma flat_snd_cons g gs : (flat (g :: gs)).*2 = g.2 ++ (flat gs).*2.
Proof.
  unfold flat. cbn [fmap list_fmap concat]. rewrite fmap_app. f_equal. rewrite <-list_fmap_compose.
  rewrite <-(list_fmap_id g.2) at 2. done.
Qed.
Lemma lookup_groups_spec groups a :
  Forall (λ g, g.2 ≠ []) groups → NoDup (flat groups).*2 →
  (∀ i l, (i, l) ∈ flat groups → ready base a l ∧ ∃ k, window !! Z.to_nat l = Some k ∧ family_run ix k.1 fam = Ok (Some i)) →
  ∃ a', lookup_groups ix base window groups a = Ok a' ∧ processed base family_matches (flat groups).*2 a a'.
Proof.
  intros Hfull. revert a. induction Hfull as [|[i ords] groups Hne _ IH]; intros a Hnd Hin; cbn [lookup_groups].
  { exists a. split; [done|apply processed_nil]. }
  rewrite flat_snd_cons in *. cbn [snd] in *. apply NoDup_app in Hnd as (Hnd1&Hdisj&Hnd2).
  assert (Hgroup : ∀ l, l ∈ ords → ready base a l ∧ ∃ k, window !! Z.to_nat l = Some k ∧ family_run ix k.1 fam = Ok (Some i)).
  { intros l Hl. apply Hin. unfold flat. cbn [fmap list_fmap concat fst snd]. apply elem_of_app. left.
    by apply (list_elem_of_fmap_2 (λ l, (i, l))). }
  assert (Hrun : ∃ r b run, readers ix !! Z.to_nat i = Some r ∧ open_on r b run ∧ opened !! Z.to_nat i = Some run).
  { destruct ords as [|l ords]; [done|]. destruct (Hgroup l) as (_&[ch n]&_&Hfr); [by left|].
    destruct (family_run_spec s rdrs opened Hs Hserves ix Hix ch n fam Hfam) as (sel&Hsel&Hspec).
    cbn [fst] in Hfr. rewrite Hfr in Hsel. apply Ok_inj in Hsel as <-. destruct Hspec as [_ [ref Href]].
    destruct (reader_at s rdrs opened Hserves ix Hix _ _ Href) as (r&run&Hr&Hrun).
    destruct (sv_reader _ _ _ Hserves _ _ _ _ Href Hr Hrun) as [[b Hopen] _]. exists r, b, run. by rewrite (bi_readers _ _ _ Hix). }
  destruct Hrun as (r&b&run&Hr&Hopen&Hrun).
  destruct (lookup_group_spec base window family_matches Hbase ix i ords r b run a) as (a1&->&Hp1); [done|done|done| | |].
  { intros l Hl. by apply Hgroup. }
  { intros l Hl. destruct (Hgroup l Hl) as (_&[ch n]&Hk&Hfr). exists (ch, n). rewrite Forall_lookup in Hwindow.
    split_and!; [done|by apply (Hwindow _ _ Hk)|]. unfold family_matches. rewrite Hk.
    destruct (family_run_spec s rdrs opened Hs Hserves ix Hix ch n fam Hfam) as (sel&Hsel&Hspec).
    cbn [fst] in Hfr. rewrite Hfr in Hsel. apply Ok_inj in Hsel as <-. destruct Hspec as [-> _].
    unfold entries_at. by rewrite Hrun. }
  rewrite Ok_bind. destruct (IH a1 Hnd2) as (a2&->&Hp2).
  { intros i' l' Hil. destruct (Hin i' l') as [Hready Hk]; [|split; [|done]].
    - unfold flat in *. cbn [fmap list_fmap concat]. apply elem_of_app. by right.
    - apply (ready_after base family_matches Hbase ords a); [|done|done]. intros Hl. apply (Hdisj l' Hl).
      by apply (list_elem_of_fmap_2 snd _ (i', l')). }
  exists a2. split; [done|]. apply (processed_app base family_matches Hbase ords _ a a1); [done| |done|done].
  intros l [Hl|Hl]%elem_of_app; [by apply (Hgroup l Hl)|]. apply list_elem_of_fmap in Hl as ([i' l']&->&Hil).
  destruct (Hin i' l') as [[? _] _]; [|done]. unfold flat in *. cbn [fmap list_fmap concat]. apply elem_of_app. by right.
Qed.
(** A family settles every key of the window and touches no other. *)
Lemma window_family_spec a :
  covers a →
  ∃ a', (groups ← window_groups ix fam base window 0 a []; lookup_groups ix base window groups a) = Ok a' ∧ covers a' ∧
    (∀ l k all f c, 0 ≤ l → window !! Z.to_nat l = Some k → answer_at a (base + l) f c → settled all f c →
       ∃ f' c', answer_at a' (base + l) f' c' ∧ settled (all ++ matching k (family_entries opened fam)) f' c') ∧
    (∀ g, 0 ≤ g → ¬ base ≤ g < base + blen window → same_at a a' g).
Proof.
  intros Hcov. destruct (window_groups_spec window [] a []) as (groups&new&Hg&Hflat&Hfull&Hsub&Hin&Hout); [done|done|constructor|].
  rewrite blen_nil in Hg, Hsub, Hout. cbn [flat fmap list_fmap concat app] in Hflat. rewrite Hg, Ok_bind. subst new.
  destruct (lookup_groups_spec groups a) as (a'&Ha'&Hp); [done|eapply sublist_NoDup; [apply NoDup_seqZ|exact Hsub]|done|].
  assert (Hrange : ∀ l, l ∈ (flat groups).*2 → 0 ≤ l < blen window).
  { intros l Hl. eapply elem_of_submseteq in Hl; [|by apply sublist_submseteq]. by apply elem_of_seqZ in Hl. }
  assert (Hstep : ∀ l, 0 ≤ l → l ∉ (flat groups).*2 → same_at a a' (base + l)).
  { intros l Hl Hn. apply (pr_same _ _ _ _ _ Hp); [lia|]. intros l' Hl' Heq. by replace l with l' in Hn by lia. }
  exists a'. split_and!; [done| | |].
  - intros l Hl. destruct (Hcov l Hl) as (f&c&Hfc). destruct (decide (l ∈ (flat groups).*2)) as [Hin'|Hn].
    + destruct (pr_gain _ _ _ _ _ Hp l f c Hin' Hfc) as (f'&c'&?&_). by exists f', c'.
    + exists f, c. apply (answer_same a); [apply Hstep; [lia|done]|done].
  - intros l k all f c Hl Hk Hfc Hset. destruct (decide (l ∈ (flat groups).*2)) as [Hin'|Hn].
    + destruct (pr_gain _ _ _ _ _ Hp l f c Hin' Hfc) as (f'&c'&Hfc'&Hgain). exists f', c'. split; [done|].
      apply list_elem_of_fmap in Hin' as ([i l']&->&Hil). cbn [snd] in *. destruct (Hin i l' Hil) as [(_&f0&Hf0&_) _].
      destruct (answer_at_fun _ _ _ _ _ _ Hfc Hf0) as [-> ->]. unfold family_matches in Hgain. rewrite Hk in Hgain.
      by apply (settled_gain _ _ f0).
    + exists f, c. split; [apply (answer_same a); [by apply Hstep|done]|]. apply settled_skip; [done|].
      destruct (Hout l k f c Hl Hk Hfc Hn) as [?|[?|Hfr]]; [by left|by right; left|right; right]. destruct k as [ch n].
      destruct (family_run_spec s rdrs opened Hs Hserves ix Hix ch n fam Hfam) as (sel&Hsel&Hspec).
      cbn [fst] in Hfr. rewrite Hfr in Hsel. by apply Ok_inj in Hsel as <-.
  - intros g Hg0 Hg1. apply (pr_same _ _ _ _ _ Hp); [done|]. intros l Hl ->. specialize (Hrange l Hl). lia.
Qed.
End Family.
Lemma lookup_window_spec fams a :
  (∀ fam, fam ∈ fams → fam ∈ lookup_families ix) → covers a →
  ∃ a', lookup_window_into ix fams base window a = Ok a' ∧
    (∀ l k all f c, 0 ≤ l → window !! Z.to_nat l = Some k → answer_at a (base + l) f c → settled all f c →
       ∃ f' c', answer_at a' (base + l) f' c' ∧ settled (all ++ matching k (concat (family_entries opened <$> fams))) f' c') ∧
    (∀ g, 0 ≤ g → ¬ base ≤ g < base + blen window → same_at a a' g).
Proof.
  revert a. induction fams as [|fam fams IH]; intros a Hin Hcov; cbn [lookup_window_into].
  { exists a. split_and!; [done| |done]. intros l k all f c Hl Hk Hfc Hset. exists f, c. cbn [fmap list_fmap concat]. by rewrite app_nil_r. }
  destruct (window_family_spec fam (Hin fam ltac:(by left)) a Hcov) as (a1&Ha1&Hcov1&Hstep1&Hsame1).
  apply bind_Ok in Ha1 as (groups&->&Ha1). rewrite Ok_bind, Ha1, Ok_bind.
  destruct (IH a1) as (a2&->&Hstep2&Hsame2); [intros; apply Hin; by right|done|]. exists a2. split_and!; [done| |].
  - intros l k all f c Hl Hk Hfc Hset. destruct (Hstep1 l k all f c Hl Hk Hfc Hset) as (f1&c1&Hfc1&Hset1).
    destruct (Hstep2 l k _ f1 c1 Hl Hk Hfc1 Hset1) as (f2&c2&Hfc2&Hset2). exists f2, c2. split; [done|].
    cbn [fmap list_fmap concat]. by rewrite filter_app, app_assoc.
  - intros g Hg Hn. apply (same_at_trans _ a1); [by apply Hsame1|by apply Hsame2].
Qed.
End WindowProofs.
(** ** All windows *)
Section Batch.
Context `{Crc32cLaws, Blake3Laws} (s : ExactIndexRunSet) (rdrs : list ExactIndexRunReader) (opened : list ExactIndexRun).
Hypothesis Hs : run_set_wf s.
Hypothesis Hserves : serves s rdrs opened.
Context (ix : ActivatedExactIndex).
Hypothesis Hix : built s ix rdrs.
Context (keys : list (bytes * Z)).
Hypothesis Hkeys : Forall key_ok keys.

Lemma lookup_windows_spec fuel rest done o a :
  keys = done ++ rest → (length rest ≤ fuel)%nat → (rest ≠ [] → blen done = o * 1024) →
  (∀ g, blen done ≤ g < blen keys → answer_at a g [] true) →
  ∃ a', lookup_windows ix (chunks_fuel fuel 1024 rest) o a = Ok a' ∧
    (∀ g k, blen done ≤ g → keys !! Z.to_nat g = Some k → ∃ f c, answer_at a' g f c ∧
       settled (filter (λ e, entry_key e = k) (newest_first s opened)) f c) ∧
    (∀ g, 0 ≤ g < blen done → same_at a a' g).
Proof.
  revert rest done o a. induction fuel as [|fuel IH]; intros rest done o a Hk Hfuel Hdone Ha.
  1: destruct rest; [|simpl in Hfuel; lia]. 2: destruct rest as [|x rest'] eqn:Hrest.
  1, 2: exists a; split_and!; [done| |done]; intros g k Hg Hgk; apply lookup_lt_Some in Hgk; rewrite app_nil_r in Hk; subst done;
    change (blen keys) with (Z.of_nat (length keys)) in Hg; lia.
  cbn [chunks_fuel lookup_windows]. rewrite <-Hrest in *. unfold EXACT_LOOKUP_BATCH_WINDOW_KEYS.
  assert (Hne : rest ≠ []) by (by rewrite Hrest). rewrite <-Hdone by done. set (w := take 1024 rest).
  assert (Hsplit : keys = done ++ w ++ drop 1024 rest) by (unfold w; by rewrite take_drop).
  pose proof (blen_nonneg done). pose proof (blen_nonneg w). pose proof (blen_nonneg (drop 1024 rest)).
  assert (Hlen : blen keys = blen done + blen w + blen (drop 1024 rest)) by (rewrite Hsplit, !blen_app; lia).
  assert (Hat : ∀ l, 0 ≤ l < blen w → keys !! Z.to_nat (blen done + l) = w !! Z.to_nat l).
  { intros l Hl. change (blen ?x) with (Z.of_nat (length x)) in Hl. rewrite Hsplit.
    change (blen done) with (Z.of_nat (length done)). rewrite lookup_app_r by lia.
    replace (Z.to_nat (Z.of_nat (length done) + l) - length done)%nat with (Z.to_nat l) by lia. apply lookup_app_l. lia. }
  destruct (lookup_window_spec s rdrs opened Hs Hserves ix Hix (blen done) w) with (fams := lookup_families ix) (a := a)
    as (a1&->&Hstep&Hsame); [done| |done| |].
  { apply Forall_take. rewrite Hk in Hkeys. by apply Forall_app in Hkeys as [_ ?]. }
  { intros l Hl. exists [], true. apply Ha. lia. }
  rewrite Ok_bind. rewrite (families_newest_first s rdrs opened Hserves ix Hix) in Hstep.
  destruct (IH (drop 1024 rest) (done ++ w) (o + 1) a1) as (a2&->&Hrec&Hsame2).
  { by rewrite <-app_assoc. }
  { rewrite length_drop. rewrite Hrest in *. cbn [length] in *. lia. }
  { intros Hd. rewrite blen_app. specialize (Hdone Hne). assert (Hw : blen w = 1024); [|lia].
    change (blen w) with (Z.of_nat (length w)). unfold w. rewrite length_take.
    destruct (Nat.le_gt_cases (length rest) 1024); [|lia]. destruct Hd. by apply drop_ge. }
  { intros g Hg. rewrite blen_app in Hg. apply (answer_same a); [apply Hsame; lia|]. apply Ha. lia. }
  rewrite blen_app in *. exists a2. split_and!; [done| |].
  - intros g k Hg Hgk. destruct (Z.lt_ge_cases g (blen done + blen w)) as [Hin|Hout]; [|by apply Hrec].
    replace g with (blen done + (g - blen done)) in Hgk by lia. rewrite Hat in Hgk by lia.
    destruct (Hstep (g - blen done) k [] [] true) as (f&c&Hfc&Hset); [lia|done|apply Ha; lia|by left|].
    replace (blen done + (g - blen done)) with g in Hfc by lia. exists f, c. split; [|done].
    apply (answer_same a1); [|done]. apply Hsame2. lia.
  - intros g Hg. apply (same_at_trans _ a1); [apply Hsame; lia|apply Hsame2; lia].
Qed.
End Batch.

(** ** Properties *)

(** C23: A batched lookup answers as single lookups do, up to the candidate
    limit.  On intact runs [lookup_transitions_batch] never fails and ends; it
    answers every key, whatever the page cache holds, with or without resident
    page bounds and membership filters, with the flag that a lookup of that key
    alone returns, and with candidates whose first 64 are exactly those of that
    lookup.  It can return more: up to 127. *)
Theorem exact_batch_equiv `{Crc32cLaws, Blake3Laws} record s rdrs opened ix (keys : list (bytes * Z)) :
  run_set_wf s → active_new record s rdrs = Ok ix → serves s rdrs opened → Forall key_ok keys →
  ∃ res, lookup_transitions_batch ix keys = Ok res ∧ length res = length keys ∧
    ∀ i k, keys !! i = Some k → ∃ complete found, res !! i = Some (complete, found) ∧ blen found ≤ 127 ∧
      lookup_transitions ix k.1 k.2 = Ok (complete, take 64 found).
Proof.
  intros Hs Hnew Hserves Hkeys. pose proof (active_new_built s Hs record rdrs ix Hnew) as Hb. unfold lookup_transitions_batch.
  destruct (lookup_windows_spec s rdrs opened Hs Hserves ix Hb keys Hkeys (length keys) keys [] 0
    (replicate (length keys) [], replicate (length keys) true)) as (a&Ha&Hall&_); [done|done|done| |].
  { intros g Hg. change (blen keys) with (Z.of_nat (length keys)) in Hg. rewrite blen_nil in Hg.
    split; apply lookup_replicate_2; lia. }
  unfold chunks, EXACT_LOOKUP_BATCH_WINDOW_KEYS. change (Z.to_nat 1024) with 1024%nat. rewrite Ha, Ok_bind. eexists. split; [done|].
  assert (Hres : ∀ i k, keys !! i = Some k → ∃ complete found,
    ((λ x, (x.2, x.1.2)) <$> zip (zip keys a.1) a.2) !! i = Some (complete, found) ∧
    settled (filter (λ e, entry_key e = k) (newest_first s opened)) found complete).
  { intros i k Hk. destruct (Hall (Z.of_nat i) k) as (f&c&[Hf Hc]&Hset); [rewrite blen_nil; lia|by rewrite Nat2Z.id|].
    rewrite Nat2Z.id in Hf, Hc. exists c, f. split; [|done]. rewrite list_lookup_fmap, fmap_Some. exists ((k, f), c).
    split; [|done]. apply lookup_zip_with_Some. exists (k, f), c. split_and!; [done| |done]. apply lookup_zip_with_Some. by exists k, f. }
  split.
  - apply Nat.le_antisymm; [rewrite length_fmap, !length_zip_with; lia|]. apply Nat.nlt_ge. intros Hlt.
    destruct (lookup_lt_is_Some_2 keys _ Hlt) as [k Hk]. destruct (Hres _ k Hk) as (c&f&Hcf&_).
    apply lookup_lt_Some in Hcf. lia.
  - intros i [ch n] Hk. destruct (Hres i _ Hk) as (c&f&Hcf&Hset). exists c, f. rewrite Forall_lookup in Hkeys.
    destruct (Hkeys _ _ Hk) as [Hch Hn]. cbn [fst snd] in *. rewrite (index_lookup_spec s rdrs opened Hs Hserves ix Hb ch n Hch Hn).
    split; [done|]. by apply settled_answer.
Qed.
Lemma exact_batch_equiv_witness :
  let key c := (replicate 32 (byte_of_Z c), 100) in
  ∃ ix res, @lookup_transitions_batch Crc32cBitwise.ops ix [key 1; key 2; key 3] = Ok res ∧
    ∃ found, res !! 1%nat = Some (true, found) ∧ take 64 found = [ActiveSample.retired 2; Sample.entry 2].
Proof.
  intros key. destruct (@ActiveSample.served_ok Crc32cBitwise.ops Crc32cBitwise.laws MixHash.ops MixHash.laws) as [Hs Hserves].
  pose proof (active_new_spec _ Hs Activation.sample (@ActiveSample.served Crc32cBitwise.ops MixHash.ops).2) as Hnew.
  rewrite decide_True in Hnew by (by split). destruct Hnew as (ix&Hnew&Hbuilt).
  destruct (@exact_batch_equiv Crc32cBitwise.ops Crc32cBitwise.laws MixHash.ops MixHash.laws Activation.sample
    _ _ _ ix [key 1; key 2; key 3] Hs Hnew Hserves) as (res&Hres&_&Hall).
  { repeat constructor; by vm_compute. }
  exists ix, res. split; [exact Hres|]. destruct (Hall 1%nat (key 2) eq_refl) as (complete&found&Hat&_&Hl).
  pose proof (@index_lookup_spec Crc32cBitwise.ops Crc32cBitwise.laws MixHash.ops MixHash.laws _ _ _ Hs Hserves ix Hbuilt
    (replicate 32 (byte_of_Z 2)) 100) as Hspec. rewrite ActiveSample.served_entries in Hspec.
  exists found. cbn [fst snd key] in Hl. rewrite Hspec in Hl by (by vm_compute). apply Ok_inj in Hl.
  injection Hl as Hc Hf. rewrite Hat, <-Hc, <-Hf. split; vm_compute; reflexivity.
Defined.

(** ** The candidate limit of a batch *)

(** Two families of one run each, with 40 entries of one key in each. *)
Module LimitSample.
Definition entry (generation i : nat) : ExactIndexEntry :=
  {| chunk_id := replicate 32 (byte_of_Z 2); logical_length := 100; transition := Active;
     location := {| container_id := replicate 16 (byte_of_Z 7); container_generation := Z.of_nat generation;
       record_offset := 4096 * (1 + Z.of_nat i); record_length := 320; chunk_ordinal := 0; decoded_offset := 0;
       record_crc32c := 77; record_decoded_length := 100; record_payload_length := 100;
       codec_id := RAW_CODEC; dependency_id := zeros 32 |} |}.
Definition run (generation : nat) : ExactIndexRun :=
  {| run_profile := replicate 32 (byte_of_Z 9); run_generation := Z.of_nat generation;
     run_entries := entry generation <$> seq 0 40 |}.
Lemma limit_runs_wf : run_wf (run 5) ∧ run_wf (run 9).
Proof.
  assert (Hwf : ∀ g, run_generation (run g) ≤ u64_max → 1 ≤ run_generation (run g) →
    Forall entry_ok (run_entries (run g)) → validate_entries (run_entries (run g)) = Ok () → run_wf (run g)).
  { intros g H1 H2 H3 H4. split; [by vm_compute|done|done|by apply validate_entries_iff|by vm_compute]. }
  split; apply Hwf; first [by vm_compute|repeat constructor; by vm_compute].
Qed.
(** A reader whose page cache holds the pages of its run. *)
Definition reader (generation : nat) : ExactIndexRunReader :=
  let pages := chunks 31 (run_entries (run generation)) in
  {| reader_descriptor := descriptor_with (run generation) (zeros 32);
     reader_cached := λ o, (λ es, {| page_ordinal := o; page_entries := es |}) <$> pages !! Z.to_nat o;
     reader_read := λ _ _, Err IdentityMismatch; reader_mapping := None; reader_membership := None;
     reader_independent := false; reader_writer_born := false;
     reader_peek_bounds := Some (omap page_bounds pages); reader_begin_independent := Ok (); reader_peek := λ _ _, true |}.
Definition set : ExactIndexRunSet :=
  {| set_profile := replicate 32 (byte_of_Z 9); set_generation := 12;
     runs := [ActiveSample.ref 0 (run 9) (zeros 32); ActiveSample.ref 1 (run 5) (zeros 32)] |}.
(** The number of candidates that a batch of the one key and a lookup of the key return *)
Definition counts : store_result (list Z * Z) :=
  ix ← active_new Activation.sample set [reader 9; reader 5];
  batch ← @lookup_transitions_batch Crc32cBitwise.ops ix [(replicate 32 (byte_of_Z 2), 100)];
  '(_, single) ← @lookup_transitions Crc32cBitwise.ops ix (replicate 32 (byte_of_Z 2)) 100;
  Ok (map (λ x : bool * list ExactIndexEntry, blen x.2) batch, blen single).
End LimitSample.
(** The batched path returns 80 candidates for the key, the single lookup 64. *)
Lemma batch_exceeds_limit : LimitSample.counts = Ok ([80], 64).
Proof. vm_compute. reflexivity. Qed.
End ExactIndexBatch.
