(* ===== verification/BTreeMap.v ===== *)
(** * Ordered maps with integer keys

    Rust's [BTreeMap<u64, V>]: a finite map with iteration and range queries in
    key order. *)
From S2P Require Export Ordering.
From S2P Require Export MapSum.
From stdpp Require Export list gmap.
#[global] Open Scope Z_scope.

Section Queries.
Context {V : Type}.
Implicit Types (m : gmap Z V).

(** [iter]: the entries in key order. *)
Definition iter (m : gmap Z V) : list (Z * V) := sort_by_key fst (map_to_list m).
(** [range(..=x).next_back()], [range(..x).next_back()], [range(x..)] and
    [range(x..).next()]. *)
Definition range_le_back (m : gmap Z V) (x : Z) : option (Z * V) := last (filter (λ kv, kv.1 ≤ x) (iter m)).
Definition range_lt_back (m : gmap Z V) (x : Z) : option (Z * V) := last (filter (λ kv, kv.1 < x) (iter m)).
Definition range_from (m : gmap Z V) (x : Z) : list (Z * V) := filter (λ kv, x ≤ kv.1) (iter m).
(** [range((Excluded(a), Excluded(b)))], which panics unless [a < b]. *)
Definition range_between {E} (m : gmap Z V) (a b : Z) : outcome E (list (Z * V)) :=
  if a <? b then Ok (filter (λ kv, a < kv.1 ∧ kv.1 < b) (iter m)) else Panic.

Lemma elem_of_iter m k v : (k, v) ∈ iter m ↔ m !! k = Some v.
Proof. unfold iter. by rewrite (sort_by_key_perm fst (map_to_list m)), elem_of_map_to_list. Qed.
Lemma iter_sorted m : StronglySorted (λ x y, x.1 < y.1) (iter m).
Proof.
  pose proof (sort_by_key_sorted fst (map_to_list m)) as Hs. fold (iter m) in Hs.
  assert (Hnd : NoDup (iter m).*1).
  { unfold iter. rewrite (sort_by_key_perm fst (map_to_list m)). apply NoDup_fst_map_to_list. }
  induction Hs as [|x l _ IH Hx]; [constructor|]. cbn [fmap list_fmap] in Hnd. apply NoDup_cons in Hnd as [Hnot Hnd].
  constructor; [by apply IH|]. rewrite list.Forall_forall in Hx |- *. intros y Hy. specialize (Hx y Hy).
  rewrite ole_Z in Hx. assert (x.1 ≠ y.1); [|lia]. intros Heq. apply Hnot. rewrite Heq. by apply (list_elem_of_fmap_2 fst).
Qed.
Lemma iter_NoDup m : NoDup (iter m).
Proof.
  unfold iter. rewrite (sort_by_key_perm fst (map_to_list m)). apply NoDup_map_to_list.
Qed.
Lemma filter_sorted (P : Z * V → Prop) `{∀ x, Decision (P x)} m : StronglySorted (λ x y, x.1 < y.1) (filter P (iter m)).
Proof.
  pose proof (iter_sorted m) as Hs. induction Hs as [|x l _ IH Hx]; [constructor|]. rewrite filter_cons.
  case_decide; [|done]. constructor; [done|]. rewrite list.Forall_forall in Hx |- *.
  intros y [_ Hy]%list_elem_of_filter. by apply Hx.
Qed.
(** The last entry that satisfies a condition, and that there is none. *)
Lemma last_filter_Some (P : Z * V → Prop) `{∀ x, Decision (P x)} m k v :
  last (filter P (iter m)) = Some (k, v) ↔
  m !! k = Some v ∧ P (k, v) ∧ ∀ k' v', m !! k' = Some v' → P (k', v') → k' ≤ k.
Proof.
  pose proof (filter_sorted P m) as Hs. split.
  - intros Hl. apply last_Some in Hl as [l Hl]. rewrite Hl in Hs.
    assert (Hin : (k, v) ∈ filter P (iter m)) by (rewrite Hl; apply elem_of_app; right; by left).
    apply list_elem_of_filter in Hin as [HP Hin]. rewrite elem_of_iter in Hin. split_and!; [done|done|].
    intros k' v' Hk' HP'. assert (Hin' : (k', v') ∈ filter P (iter m)) by (apply list_elem_of_filter; by rewrite elem_of_iter).
    rewrite Hl in Hin'. apply elem_of_app in Hin' as [Hin'|Hin'%list_elem_of_singleton]; [|by simplify_eq].
    eapply (StronglySorted_app_1_elem_of (λ x y : Z * V, x.1 < y.1)) in Hs; [|exact Hin'|by left]. cbn [fst] in Hs. lia.
  - intros (Hk&HP&Hmax). assert (Hin : (k, v) ∈ filter P (iter m)) by (apply list_elem_of_filter; by rewrite elem_of_iter).
    destruct (last (filter P (iter m))) as [[k' v']|] eqn:Hl.
    2: { apply last_None in Hl. rewrite Hl in Hin. by apply not_elem_of_nil in Hin. }
    apply last_Some in Hl as [l Hl]. rewrite Hl in Hs, Hin.
    assert (Hin' : (k', v') ∈ filter P (iter m)) by (rewrite Hl; apply elem_of_app; right; by left).
    apply list_elem_of_filter in Hin' as [HP' Hin']. rewrite elem_of_iter in Hin'.
    apply elem_of_app in Hin as [Hin|Hin%list_elem_of_singleton]; [|congruence]. specialize (Hmax _ _ Hin' HP').
    eapply (StronglySorted_app_1_elem_of (λ x y : Z * V, x.1 < y.1)) in Hs; [|exact Hin|by left]. cbn [fst] in Hs. lia.
Qed.
Lemma last_filter_None (P : Z * V → Prop) `{∀ x, Decision (P x)} m :
  last (filter P (iter m)) = None ↔ ∀ k v, m !! k = Some v → ¬ P (k, v).
Proof.
  rewrite last_None. split.
  - intros Hl k v Hk HP. assert (Hin : (k, v) ∈ filter P (iter m)) by (apply list_elem_of_filter; by rewrite elem_of_iter).
    rewrite Hl in Hin. by apply not_elem_of_nil in Hin.
  - intros Hn. destruct (filter P (iter m)) as [|[k v] l] eqn:Hl; [done|].
    assert (Hin : (k, v) ∈ filter P (iter m)) by (rewrite Hl; by left).
    apply list_elem_of_filter in Hin as [HP Hin]. rewrite elem_of_iter in Hin. by destruct (Hn k v).
Qed.
Lemma elem_of_filter_iter (P : Z * V → Prop) `{∀ x, Decision (P x)} m k v :
  (k, v) ∈ filter P (iter m) ↔ m !! k = Some v ∧ P (k, v).
Proof. rewrite list_elem_of_filter, elem_of_iter. tauto. Qed.
End Queries.
