(* ===== verification/Extents.v ===== *)
(** * Maps of disjoint extents

    The dirty data of a file is kept in ordered maps from the start of an extent
    to the extent.  The three kinds (resident bytes, ranges of another file,
    holes) share this theory: an extent at [k] covers the positions from [k] to
    its end, has a value at each, and can be cut. *)
From S2P Require Export BTreeMap.

Class Extent (V T : Type) := {
  fin : Z → V → Z;
  val : Z → V → Z → T;
  cut : Z → V → Z → Z → V;
}.
Class ExtentLaws (V T : Type) `{Extent V T} : Prop := {
  fin_cut k v a b : k ≤ a → a < b → b ≤ fin k v → fin a (cut k v a b) = b;
  val_cut k v a b x : k ≤ a → a ≤ x < b → b ≤ fin k v → val a (cut k v a b) x = val k v x;
}.

(** ** Counting positions *)
Definition count (p : Z → bool) (a b : Z) : Z := Z.of_nat (length (filter (λ x, p x = true) (seqZ a (b - a)))).

Section Count.
Implicit Types (p q : Z → bool).
Lemma count_nonneg p a b : 0 ≤ count p a b.
Proof. unfold count. lia. Qed.
Lemma count_empty p a b : b ≤ a → count p a b = 0.
Proof. intros Hab. unfold count. by rewrite seqZ_nil by lia. Qed.
Lemma count_split p a c b : a ≤ c ≤ b → count p a b = count p a c + count p c b.
Proof.
  intros Hc. unfold count. replace (b - a) with ((c - a) + (b - c)) by lia.
  rewrite seqZ_app by lia. rewrite filter_app, length_app. replace (a + (c - a)) with c by lia. lia.
Qed.
Lemma count_ext p q a b : (∀ x, a ≤ x < b → p x = q x) → count p a b = count q a b.
Proof.
  intros Heq. unfold count. do 2 f_equal. assert (Hin : ∀ x, x ∈ seqZ a (b - a) → p x = q x).
  { intros x Hx%elem_of_seqZ. apply Heq. lia. } revert Hin. generalize (seqZ a (b - a)) as l.
  induction l as [|x l IH]; intros Hin; [done|]. rewrite !filter_cons, IH by (intros; apply Hin; by right).
  rewrite (Hin x) by (by left). done.
Qed.
Lemma count_le p a b : a ≤ b → count p a b ≤ b - a.
Proof.
  intros Hab. unfold count. pose proof (length_filter (λ x, p x = true) (seqZ a (b - a))) as Hl. rewrite length_seqZ in Hl. lia.
Qed.
Lemma count_none p a b : (∀ x, a ≤ x < b → p x = false) → count p a b = 0.
Proof.
  intros Hn. rewrite (count_ext p (λ _, false)) by done. unfold count. rewrite filter_none; [done|]. by intros.
Qed.
Lemma count_all p a b : a ≤ b → (∀ x, a ≤ x < b → p x = true) → count p a b = b - a.
Proof.
  intros Hab Ha. rewrite (count_ext p (λ _, true)) by done. unfold count.
  assert (Hf : ∀ l : list Z, filter (λ _, true = true) l = l).
  { induction l as [|x l IH]; [done|]. rewrite filter_cons, decide_True, IH by done. done. }
  rewrite Hf, length_seqZ. lia.
Qed.
(** Replacing a range. *)
Lemma count_replace p q a c d b : a ≤ c → c ≤ d → d ≤ b → (∀ x, a ≤ x < b → ¬ c ≤ x < d → p x = q x) →
  count p a b = count q a b - count q c d + count p c d.
Proof.
  intros Hc Hcd Hd Heq. rewrite (count_split p a c), (count_split p c d), (count_split q a c b), (count_split q c d b) by lia.
  rewrite (count_ext p q a c), (count_ext p q d b); [lia|intros; apply Heq; lia..].
Qed.
Lemma count_full p a b x : count p a b = b - a → a ≤ x < b → p x = true.
Proof.
  intros Hc Hx. destruct (p x) eqn:Hp; [done|]. exfalso. rewrite (count_split p a x), (count_split p x (x + 1)) in Hc by lia.
  pose proof (count_le p a x). pose proof (count_le p (x + 1) b).
  rewrite (count_none p x (x + 1)) in Hc by (intros y Hy; by replace y with x by lia). lia.
Qed.
Lemma count_zero p a b x : count p a b = 0 → a ≤ x < b → p x = false.
Proof.
  intros Hc Hx. destruct (p x) eqn:Hp; [|done]. exfalso. rewrite (count_split p a x), (count_split p x (x + 1)) in Hc by lia.
  pose proof (count_nonneg p a x). pose proof (count_nonneg p (x + 1) b).
  rewrite (count_all p x (x + 1)) in Hc by (lia || intros y Hy; by replace y with x by lia). lia.
Qed.
End Count.

Section Extents.
Context {V T : Type} `{HE : Extent V T, HL : !ExtentLaws V T}.
Implicit Types (m : gmap Z V).

Definition covers (k : Z) (v : V) (x : Z) : Prop := k ≤ x < fin k v.
Definition overlaps (k : Z) (v : V) (a b : Z) : Prop := k < b ∧ a < fin k v.
(** Extents are nonempty and disjoint. *)
Record extents_wf (m : gmap Z V) : Prop := {
  ew_full k v : m !! k = Some v → k < fin k v;
  ew_disjoint k1 v1 k2 v2 x : m !! k1 = Some v1 → m !! k2 = Some v2 → covers k1 v1 x → covers k2 v2 x → k1 = k2;
}.

(** The extent that covers a position, and its value there. *)
Definition covering (m : gmap Z V) (x : Z) : option (Z * V) :=
  match range_le_back m x with
  | Some (k, v) => if x <? fin k v then Some (k, v) else None
  | None => None
  end.
Definition at_ (m : gmap Z V) (x : Z) : option T := (λ kv, val kv.1 kv.2 x) <$> covering m x.

Lemma covering_Some m x k v : extents_wf m → covering m x = Some (k, v) ↔ m !! k = Some v ∧ covers k v x.
Proof.
  intros Hwf. unfold covering, range_le_back. split.
  - destruct (last _) as [[k' v']|] eqn:Hl; [|done]. apply last_filter_Some in Hl as (Hk&Hx&_). cbn [fst] in Hx.
    destruct (Z.ltb_spec x (fin k' v')); [|done]. intros [= <- <-]. unfold covers. split; [done|lia].
  - intros [Hk Hc]. unfold covers in Hc. rewrite (proj2 (last_filter_Some (λ kv, kv.1 ≤ x) m k v)).
    + by rewrite (proj2 (Z.ltb_lt _ _)) by lia.
    + split_and!; [done|cbn [fst]; lia|]. intros k' v' Hk' Hx. cbn [fst] in Hx.
      destruct (Z.le_gt_cases k' k) as [|Hlt]; [done|]. exfalso. pose proof (ew_full _ Hwf _ _ Hk').
      assert (k = k'); [|lia]. apply (ew_disjoint _ Hwf k v k' v' k'); unfold covers; (done || lia).
Qed.
Lemma covering_None m x : extents_wf m → covering m x = None ↔ ∀ k v, m !! k = Some v → ¬ covers k v x.
Proof.
  intros Hwf. split.
  - intros Hn k v Hk Hc. assert (covering m x = Some (k, v)) by (by apply covering_Some). congruence.
  - intros Hn. destruct (covering m x) as [[k v]|] eqn:Hc; [|done]. apply covering_Some in Hc as [Hk Hc]; [|done].
    by destruct (Hn k v).
Qed.
Lemma at_Some m x t : extents_wf m → at_ m x = Some t ↔ ∃ k v, m !! k = Some v ∧ covers k v x ∧ val k v x = t.
Proof.
  intros Hwf. unfold at_. rewrite fmap_Some. split.
  - intros ([k v]&Hc&->). apply covering_Some in Hc as [Hk Hc]; [|done]. by exists k, v.
  - intros (k&v&Hk&Hc&<-). exists (k, v). split; [by apply covering_Some|done].
Qed.
Lemma at_None m x : extents_wf m → at_ m x = None ↔ ∀ k v, m !! k = Some v → ¬ covers k v x.
Proof. intros Hwf. unfold at_. rewrite fmap_None. by apply covering_None. Qed.

(** ** Overlaps *)

(** The extents that meet a range, in order: the last one that starts at or
    before it when it reaches into it, and those that start inside. *)
Definition overlapping {E} (m : gmap Z V) (a b : Z) : outcome E (list (Z * V)) :=
  rest ← range_between m a b;
  Ok (match range_le_back m a with
      | Some (k, v) => if a <? fin k v then [(k, v)] else []
      | None => []
      end ++ rest).
Record overlap_list (m : gmap Z V) (a b : Z) (l : list (Z * V)) : Prop := {
  ol_elem k v : (k, v) ∈ l ↔ m !! k = Some v ∧ overlaps k v a b;
  ol_sorted : StronglySorted (λ x y, x.1 < y.1) l;
}.
Lemma overlapping_spec m a b : extents_wf m → a < b →
  ∃ l, (∀ E, @overlapping E m a b = Ok l) ∧ overlap_list m a b l.
Proof.
  intros Hwf Hab. set (rest := filter (λ kv, a < kv.1 ∧ kv.1 < b) (iter m)).
  set (first := match covering m a with Some kv => [kv] | None => [] end).
  exists (first ++ rest). split.
  { intros E. unfold overlapping, range_between. rewrite (proj2 (Z.ltb_lt _ _) Hab). cbn [mbind outcome_bind]. fold rest.
    unfold first, covering. destruct (range_le_back m a) as [[k v]|]; [|done]. by destruct (_ <? _). }
  assert (Hfirst : ∀ k v, (k, v) ∈ first ↔ m !! k = Some v ∧ covers k v a).
  { intros k v. unfold first. rewrite <-covering_Some by done. destruct (covering m a) as [[k' v']|].
    - rewrite list_elem_of_singleton. naive_solver.
    - split; [by intros ?%not_elem_of_nil|done]. }
  assert (Hrest : ∀ k v, (k, v) ∈ rest ↔ m !! k = Some v ∧ a < k < b) by (intros; apply elem_of_filter_iter).
  split.
  - intros k v. rewrite elem_of_app, Hfirst, Hrest. unfold covers, overlaps. split.
    + intros [(Hk&?)|(Hk&?)]; pose proof (ew_full _ Hwf _ _ Hk); (split; [done|lia]).
    + intros (Hk&?). destruct (Z.le_gt_cases k a); [left|right]; (split; [done|lia]).
  - apply StronglySorted_app_2; [|unfold first; destruct (covering m a); repeat constructor|apply filter_sorted].
    intros [k v] [k' v'] [_ Hx]%Hfirst [_ Hy]%Hrest. unfold covers in Hx. cbn [fst]. lia.
Qed.
Lemma overlap_list_NoDup m a b l : overlap_list m a b l → NoDup l.*1.
Proof.
  intros [_ Hs]. induction Hs as [|x l _ IH Hx]; [constructor|]. cbn [fmap list_fmap]. apply NoDup_cons. split; [|done].
  intros (y&Heq&Hy)%list_elem_of_fmap. rewrite list.Forall_forall in Hx. specialize (Hx y Hy). lia.
Qed.

(** ** Carving out a range *)
Definition left_fragment (a : Z) (kv : Z * V) : list (Z * V) :=
  if kv.1 <? a then [(kv.1, cut kv.1 kv.2 kv.1 a)] else [].
Definition right_fragment (b : Z) (kv : Z * V) : list (Z * V) :=
  if b <? fin kv.1 kv.2 then [(b, cut kv.1 kv.2 b (fin kv.1 kv.2))] else [].
Definition fragments (a b : Z) (l : list (Z * V)) : list (Z * V) :=
  concat ((λ kv, left_fragment a kv ++ right_fragment b kv) <$> l).
Definition deletes (keys : list Z) (m : gmap Z V) : gmap Z V := foldl (λ m k, delete k m) m keys.
Definition inserts (l : list (Z * V)) (m : gmap Z V) : gmap Z V := foldl (λ m kv, <[kv.1 := kv.2]> m) m l.

Lemma lookup_deletes keys m k v : deletes keys m !! k = Some v ↔ m !! k = Some v ∧ k ∉ keys.
Proof.
  revert m. induction keys as [|x keys IH]; intros m; cbn [deletes foldl].
  - split; [intros; split; [done|apply not_elem_of_nil]|by intros [? _]].
  - unfold deletes in IH. rewrite IH, lookup_delete_Some, not_elem_of_cons. naive_solver.
Qed.
Lemma lookup_inserts l m k v : NoDup l.*1 → (∀ k v, (k, v) ∈ l → m !! k = None) →
  inserts l m !! k = Some v ↔ m !! k = Some v ∨ (k, v) ∈ l.
Proof.
  revert m. induction l as [|[x y] l IH]; intros m Hnd Hfresh; cbn [inserts foldl].
  - split; [by left|]. intros [?|?%not_elem_of_nil]; done.
  - cbn [fmap list_fmap fst] in Hnd. apply NoDup_cons in Hnd as [Hnot Hnd]. unfold inserts in IH. cbn [fst snd].
    rewrite IH; [|done|].
    + rewrite lookup_insert_Some, elem_of_cons. pose proof (Hfresh x y ltac:(by left)). naive_solver.
    + intros k' v' Hk'. rewrite lookup_insert_ne; [apply (Hfresh k' v'); by right|].
      intros ->. apply Hnot. by apply (list_elem_of_fmap_2 fst _ (k', v')).
Qed.
(** What carving leaves: the extents outside, and the fragments. *)
Definition is_fragment (m : gmap Z V) (a b k : Z) (v : V) : Prop :=
  ∃ k0 v0, m !! k0 = Some v0 ∧ overlaps k0 v0 a b ∧
    (k = k0 ∧ k0 < a ∧ v = cut k0 v0 k0 a ∨ k = b ∧ b < fin k0 v0 ∧ v = cut k0 v0 b (fin k0 v0)).
Definition carved (m : gmap Z V) (a b : Z) (m' : gmap Z V) : Prop :=
  ∀ k v, m' !! k = Some v ↔ (m !! k = Some v ∧ ¬ overlaps k v a b) ∨ is_fragment m a b k v.

Lemma elem_of_fragments m a b l k v : overlap_list m a b l → (k, v) ∈ fragments a b l ↔ is_fragment m a b k v.
Proof.
  intros Hl. unfold fragments, is_fragment. rewrite list_elem_of_In, in_concat. split.
  - intros (fs&Hfs&Hin). apply list_elem_of_In in Hfs, Hin. apply list_elem_of_fmap in Hfs as ([k0 v0]&->&Hkv).
    apply (ol_elem _ _ _ _ Hl) in Hkv as [Hk Ho]. exists k0, v0. split_and!; [done|done|].
    unfold left_fragment, right_fragment in Hin. cbn [fst snd] in Hin. apply elem_of_app in Hin as [Hin|Hin].
    + destruct (Z.ltb_spec k0 a); [|by apply not_elem_of_nil in Hin]. apply list_elem_of_singleton in Hin. simplify_eq. by left.
    + destruct (Z.ltb_spec b (fin k0 v0)); [|by apply not_elem_of_nil in Hin]. apply list_elem_of_singleton in Hin. simplify_eq. by right.
  - intros (k0&v0&Hk&Ho&Hcase). exists (left_fragment a (k0, v0) ++ right_fragment b (k0, v0)).
    rewrite <-!list_elem_of_In. split.
    + apply (list_elem_of_fmap_2 (λ kv, left_fragment a kv ++ right_fragment b kv)). by apply (ol_elem _ _ _ _ Hl).
    + unfold left_fragment, right_fragment. cbn [fst snd]. apply elem_of_app. destruct Hcase as [(->&Hlt&->)|(->&Hlt&->)].
      * left. rewrite (proj2 (Z.ltb_lt _ _) Hlt). by left.
      * right. rewrite (proj2 (Z.ltb_lt _ _) Hlt). by left.
Qed.
Lemma fragments_NoDup m a b l : extents_wf m → a < b → overlap_list m a b l → NoDup (fragments a b l).*1.
Proof.
  intros Hwf Hab [Hel Hs].
  assert (Hin : ∀ kv, kv ∈ l → m !! kv.1 = Some kv.2 ∧ overlaps kv.1 kv.2 a b) by (intros [k v]; apply Hel). clear Hel.
  induction Hs as [|[k v] l _ IH Hx]; [constructor|]. unfold fragments in *. cbn [fmap list_fmap concat].
  rewrite fmap_app, NoDup_app. destruct (Hin (k, v)) as [Hk Ho]; [by left|]. cbn [fst snd] in *.
  assert (Hrest : ∀ kv, kv ∈ l → m !! kv.1 = Some kv.2 ∧ overlaps kv.1 kv.2 a b) by (intros; apply Hin; by right).
  split_and!; [| |by apply IH].
  - rewrite fmap_app. unfold left_fragment, right_fragment, overlaps in *. cbn [fst snd].
    destruct (Z.ltb_spec k a), (Z.ltb_spec b (fin k v)); cbn [fmap list_fmap app fst];
      repeat (constructor || apply not_elem_of_nil || (apply not_elem_of_cons; split; [lia|])).
  - intros f Hf (g&Hg&Hgl)%list_elem_of_fmap. subst f. apply list_elem_of_In, in_concat in Hgl as (fs&Hfs&Hgf).
    apply list_elem_of_In in Hfs, Hgf. apply list_elem_of_fmap in Hfs as ([k' v']&->&Hkv').
    destruct (Hrest _ Hkv') as [Hk' Ho']. rewrite list.Forall_forall in Hx. specialize (Hx _ Hkv'). cbn [fst snd] in *.
    apply list_elem_of_fmap in Hf as (h&Hh&Hhl). pose proof (ew_full _ Hwf _ _ Hk'). pose proof (ew_full _ Hwf _ _ Hk).
    assert (Hfin : fin k v ≤ k').
    { destruct (Z.le_gt_cases (fin k v) k'); [done|]. assert (k = k'); [|lia].
      apply (ew_disjoint _ Hwf k v k' v' k'); unfold covers; (done || lia). }
    unfold left_fragment, right_fragment, overlaps in *. cbn [fst snd] in *.
    apply elem_of_app in Hgf as [Hgf|Hgf], Hhl as [Hhl|Hhl];
      repeat (match goal with H : _ ∈ if ?c <? ?d then _ else _ |- _ => destruct (Z.ltb_spec c d); [|by apply not_elem_of_nil in H];
        apply list_elem_of_singleton in H; subst end); cbn [fst] in *; lia.
Qed.
Lemma carve_spec m a b l : extents_wf m → a < b → overlap_list m a b l →
  (∀ k v, (k, v) ∈ fragments a b l → deletes l.*1 m !! k = None) ∧
  carved m a b (inserts (fragments a b l) (deletes l.*1 m)).
Proof.
  intros Hwf Hab Hl. assert (Hdel : ∀ k v, deletes l.*1 m !! k = Some v ↔ m !! k = Some v ∧ ¬ overlaps k v a b).
  { intros k v. rewrite lookup_deletes. split; intros [Hk Hn]; (split; [done|]).
    - intros Ho. apply Hn. apply (list_elem_of_fmap_2 fst _ (k, v)). by apply (ol_elem _ _ _ _ Hl).
    - intros ([k' v']&->&Hin)%list_elem_of_fmap. apply (ol_elem _ _ _ _ Hl) in Hin as [Hk' Ho]. cbn [fst] in *.
      apply Hn. by simplify_eq. }
  assert (Hfresh : ∀ k v, (k, v) ∈ fragments a b l → deletes l.*1 m !! k = None).
  { intros k v (k0&v0&Hk0&Ho&Hcase)%(elem_of_fragments m); [|done].
    destruct (deletes l.*1 m !! k) as [v'|] eqn:Hk; [|done]. exfalso. apply Hdel in Hk as [Hk Hn].
    pose proof (ew_full _ Hwf _ _ Hk). unfold overlaps in *. destruct Hcase as [(->&Hlt&_)|(->&Hlt&_)].
    - simplify_eq. lia.
    - assert (b = k0); [|lia]. apply (ew_disjoint _ Hwf b v' k0 v0 b); unfold covers; (done || lia). }
  split; [done|]. intros k v. rewrite lookup_inserts; [|by apply (fragments_NoDup m)|done].
  by rewrite Hdel, (elem_of_fragments m).
Qed.

(** Every extent of the carved map is a piece of an extent, outside the range. *)
Lemma carved_piece m a b m' k v : extents_wf m → a < b → carved m a b m' → m' !! k = Some v →
  ∃ k0 v0, m !! k0 = Some v0 ∧ k0 ≤ k ∧ k < fin k v ∧ fin k v ≤ fin k0 v0 ∧
    (∀ x, covers k v x → val k v x = val k0 v0 x) ∧
    (k = k0 ∧ ¬ overlaps k0 v0 a b ∨ overlaps k0 v0 a b ∧ (k = k0 ∧ fin k v = a ∨ k = b)).
Proof.
  intros Hwf Hab Hc Hk. apply Hc in Hk as [[Hk Hn]|(k0&v0&Hk0&Ho&[(->&Hlt&->)|(->&Hlt&->)])].
  - exists k, v. pose proof (ew_full _ Hwf _ _ Hk). split_and!; [done|lia|lia|lia|done|by left].
  - unfold overlaps in Ho. pose proof (fin_cut k0 v0 k0 a) as Hf; do 3 specialize (Hf ltac:(lia)).
    exists k0, v0. split_and!; [done|lia|lia|lia| |right; split; [done|by left]].
    intros x Hx. unfold covers in Hx. apply val_cut; lia.
  - unfold overlaps in Ho. pose proof (fin_cut k0 v0 b (fin k0 v0)) as Hf; do 3 specialize (Hf ltac:(lia)).
    exists k0, v0. split_and!; [done|lia|lia|lia| |right; split; [done|by right]].
    intros x Hx. unfold covers in Hx. apply val_cut; lia.
Qed.
Lemma carved_wf m a b m' : extents_wf m → a < b → carved m a b m' → extents_wf m'.
Proof.
  intros Hwf Hab Hc. split.
  - intros k v Hk. by destruct (carved_piece m a b m' k v) as (?&?&_&_&?&_).
  - intros k1 v1 k2 v2 x Hk1 Hk2 Hx1 Hx2. destruct (carved_piece m a b m' k1 v1) as (i&u&Hi&?&?&?&_&Hc1); [done..|].
    destruct (carved_piece m a b m' k2 v2) as (j&w&Hj&?&?&?&_&Hc2); [done..|]. unfold covers in *.
    assert (i = j) as -> by (apply (ew_disjoint _ Hwf i u j w x); unfold covers; (done || lia)). simplify_eq. unfold overlaps in *. lia.
Qed.
Lemma carved_at m a b m' x : extents_wf m → a < b → carved m a b m' →
  at_ m' x = if decide (a ≤ x < b) then None else at_ m x.
Proof.
  intros Hwf Hab Hc. pose proof (carved_wf m a b m' Hwf Hab Hc) as Hwf'. destruct (decide (a ≤ x < b)) as [Hin|Hout].
  - apply at_None; [done|]. intros k v Hk Hx. unfold covers in Hx.
    destruct (carved_piece m a b m' k v) as (i&u&Hi&?&?&?&_&Hc1); [done..|]. unfold overlaps in *. lia.
  - apply option_eq. intros t. rewrite !at_Some by done. split.
    + intros (k&v&Hk&Hx&Hv). destruct (carved_piece m a b m' k v) as (i&u&Hi&?&?&?&Hval&_); [done..|].
      exists i, u. unfold covers in *. split_and!; [done|lia|lia|]. rewrite <-Hval by (unfold covers; lia). done.
    + intros (k&v&Hk&Hx&Hv). unfold covers in Hx.
      destruct (decide (k < b ∧ a < fin k v)) as [Ho|Ho]; [|exists k, v; split_and!; [apply Hc; by left|done|done]].
      destruct (Z.lt_ge_cases x a) as [Hxa|Hxa].
      * exists k, (cut k v k a). pose proof (fin_cut k v k a) as Hf; do 3 specialize (Hf ltac:(lia)). unfold covers. split_and!; [|lia|lia|].
        -- apply Hc. right. exists k, v. split_and!; [done|done|]. left. split_and!; [done|lia|done].
        -- rewrite val_cut by lia. done.
      * exists b, (cut k v b (fin k v)). pose proof (fin_cut k v b (fin k v)) as Hf; do 3 specialize (Hf ltac:(lia)). unfold covers. split_and!; [|lia|lia|].
        -- apply Hc. right. exists k, v. split_and!; [done|done|]. right. split_and!; [done|lia|done].
        -- rewrite val_cut by lia. done.
Qed.

(** The extents lie in a range. *)
Definition within (m : gmap Z V) (lo hi : Z) : Prop := ∀ k v, m !! k = Some v → lo ≤ k ∧ fin k v ≤ hi.
Lemma carved_within m a b m' lo hi : extents_wf m → a < b → carved m a b m' → within m lo hi → within m' lo hi.
Proof.
  intros Hwf Hab Hc Hw k v Hk. destruct (carved_piece m a b m' k v) as (i&u&Hi&?&?&?&_&_); [done..|].
  specialize (Hw _ _ Hi). lia.
Qed.
Lemma within_at m lo hi x : extents_wf m → within m lo hi → ¬ lo ≤ x < hi → at_ m x = None.
Proof.
  intros Hwf Hw Hx. apply at_None; [done|]. intros k v Hk Hc. specialize (Hw _ _ Hk). unfold covers in Hc. lia.
Qed.

(** Adding an extent where there is none. *)
Definition free (m : gmap Z V) (a b : Z) : Prop := ∀ k v, m !! k = Some v → ¬ overlaps k v a b.
Lemma carved_free m a b m' : extents_wf m → a < b → carved m a b m' → free m' a b.
Proof.
  intros Hwf Hab Hc k v Hk. destruct (carved_piece m a b m' k v) as (i&u&Hi&?&?&?&_&Hc1); [done..|]. unfold overlaps in *. lia.
Qed.
Lemma free_lookup m a b : extents_wf m → free m a b → a < b → m !! a = None.
Proof.
  intros Hwf Hf Hab. destruct (m !! a) as [v|] eqn:Hv; [|done]. exfalso. apply (Hf a v Hv). pose proof (ew_full _ Hwf _ _ Hv).
  unfold overlaps. lia.
Qed.
Lemma insert_free_wf m a v : extents_wf m → free m a (fin a v) → a < fin a v → extents_wf (<[a := v]> m).
Proof.
  intros Hwf Hf Hab. split.
  - intros k w [[<- <-]|[_ Hk]]%lookup_insert_Some; [done|by apply (ew_full _ Hwf)].
  - intros k1 v1 k2 v2 x [[<- <-]|[Hne1 Hk1]]%lookup_insert_Some [[<- <-]|[Hne2 Hk2]]%lookup_insert_Some Hx1 Hx2; [done| | |].
    + exfalso. apply (Hf k2 v2 Hk2). unfold covers, overlaps in *. lia.
    + exfalso. apply (Hf k1 v1 Hk1). unfold covers, overlaps in *. lia.
    + by apply (ew_disjoint _ Hwf k1 v1 k2 v2 x).
Qed.
Lemma insert_free_at m a v x : extents_wf m → free m a (fin a v) → a < fin a v →
  at_ (<[a := v]> m) x = if decide (a ≤ x < fin a v) then Some (val a v x) else at_ m x.
Proof.
  intros Hwf Hf Hab. pose proof (insert_free_wf m a v Hwf Hf Hab) as Hwf'. apply option_eq. intros t. rewrite at_Some by done. split.
  - intros (k&w&[[<- <-]|[Hne Hk]]%lookup_insert_Some&Hx&Hv).
    + rewrite decide_True by done. by rewrite Hv.
    + rewrite decide_False; [apply at_Some; [done|by exists k, w]|]. intros Ha. apply (Hf k w Hk). unfold covers, overlaps in *. lia.
  - destruct (decide (a ≤ x < fin a v)) as [Hin|Hout].
    + intros [= <-]. exists a, v. split_and!; [apply lookup_insert_eq|done|done].
    + intros (k&w&Hk&Hx&Hv)%at_Some; [|done]. exists k, w. split_and!; [|done|done].
      rewrite lookup_insert_ne; [done|]. intros ->. pose proof (free_lookup m k (fin k v) Hwf Hf Hab). congruence.
Qed.
Lemma insert_within m a v lo hi : within m lo hi → lo ≤ a → fin a v ≤ hi → within (<[a := v]> m) lo hi.
Proof. intros Hw Ha Hf k w [[<- <-]|[_ Hk]]%lookup_insert_Some; [lia|by apply Hw]. Qed.
Lemma within_mono m lo hi lo' hi' : within m lo hi → lo' ≤ lo → hi ≤ hi' → within m lo' hi'.
Proof. intros Hw Hlo Hhi k v Hk. specialize (Hw k v Hk). lia. Qed.

(** ** The size of a map *)
Definition extent_bytes (m : gmap Z V) : Z := msum (λ k v, fin k v - k) m.
Definition present (m : gmap Z V) (x : Z) : bool := bool_decide (is_Some (at_ m x)).
Lemma extents_wf_insert_inv m k v : m !! k = None → extents_wf (<[k := v]> m) →
  extents_wf m ∧ k < fin k v ∧ free m k (fin k v).
Proof.
  intros Hk [Hf Hd]. assert (Hne : ∀ k' v', m !! k' = Some v' → k ≠ k') by (intros k' v' Hk' ->; congruence).
  pose proof (Hf k v (lookup_insert_eq _ _ _)) as Hkf. split_and!; [|done|].
  - split.
    + intros k' v' Hk'. apply Hf. by rewrite lookup_insert_ne by eauto.
    + intros k1 v1 k2 v2 x Hk1 Hk2. apply Hd; by rewrite lookup_insert_ne by eauto.
  - intros k' v' Hk' [Ho1 Ho2]. assert (Hk'f : k' < fin k' v') by (apply Hf; by rewrite lookup_insert_ne by eauto).
    apply (Hne k' v' Hk'). apply (Hd k v k' v' (Z.max k k')); unfold covers; try lia; [apply lookup_insert_eq|].
    by rewrite lookup_insert_ne by eauto.
Qed.
Lemma extent_bytes_count m lo hi : extents_wf m → within m lo hi → extent_bytes m = count (present m) lo hi.
Proof.
  induction m as [|k v m Hk IH] using map_ind; intros Hwf Hw.
  { unfold extent_bytes. rewrite msum_empty, count_none; [done|]. intros x _. apply bool_decide_false.
    unfold at_, covering, range_le_back. by rewrite (proj2 (last_filter_None _ _)) by (intros ? ?; by rewrite lookup_empty). }
  destruct (extents_wf_insert_inv m k v Hk Hwf) as (Hwf'&Hkf&Hfree).
  assert (Hw' : within m lo hi).
  { intros k' v' Hk'. apply Hw. rewrite lookup_insert_ne; [done|]. intros ->. congruence. }
  destruct (Hw k v (lookup_insert_eq _ _ _)) as [Hlo Hhi]. unfold extent_bytes in *.
  rewrite msum_insert_new, IH by done. rewrite (count_replace (present (<[k:=v]> m)) (present m) lo k (fin k v) hi); [|lia..|].
  - rewrite (count_none (present m) k (fin k v)), (count_all (present (<[k:=v]> m))); [lia|lia| |].
    + intros x Hx. apply bool_decide_true. rewrite insert_free_at by done. by rewrite decide_True.
    + intros x Hx. apply bool_decide_false. rewrite (proj2 (at_None m x Hwf')); [by intros [? ?]|].
      intros k' v' Hk' Hc. apply (Hfree k' v' Hk'). unfold covers, overlaps in *. lia.
  - intros x Hx Hout. unfold present. rewrite insert_free_at by done. by rewrite decide_False.
Qed.
Lemma extent_bytes_le m lo hi : extents_wf m → within m lo hi → lo ≤ hi → 0 ≤ extent_bytes m ≤ hi - lo.
Proof. intros Hwf Hw Hlh. rewrite (extent_bytes_count m lo hi) by done. split; [apply count_nonneg|by apply count_le]. Qed.

Lemma extent_len_nonneg m : extents_wf m → ∀ k v, m !! k = Some v → 0 ≤ fin k v - k.
Proof. intros Hwf k v Hk. pose proof (ew_full _ Hwf _ _ Hk). lia. Qed.
Lemma extent_bytes_insert m k v : m !! k = None → extent_bytes (<[k := v]> m) = extent_bytes m + (fin k v - k).
Proof. intros Hk. unfold extent_bytes. rewrite msum_insert_new by done. lia. Qed.
Lemma extent_bytes_delete m k v : m !! k = Some v → extent_bytes (delete k m) = extent_bytes m - (fin k v - k).
Proof. intros Hk. unfold extent_bytes. rewrite msum_delete, Hk. done. Qed.
Lemma extent_bytes_lookup m k v : (∀ k v, m !! k = Some v → 0 ≤ fin k v - k) → m !! k = Some v → fin k v - k ≤ extent_bytes m.
Proof. intros Hn Hk. unfold extent_bytes. by apply (msum_lookup_le (λ k v, fin k v - k)). Qed.
(** Inserting fresh extents only adds. *)
Lemma extent_bytes_inserts l m :
  NoDup l.*1 → (∀ k v, (k, v) ∈ l → m !! k = None) → (∀ k v, (k, v) ∈ l → 0 ≤ fin k v - k) →
  extent_bytes m ≤ extent_bytes (inserts l m).
Proof.
  revert m. induction l as [|[k v] l IH]; intros m Hnd Hfresh Hn; cbn [inserts foldl]; [done|].
  cbn [fmap list_fmap fst snd] in *. apply NoDup_cons in Hnd as [Hnot Hnd].
  pose proof (extent_bytes_insert m k v (Hfresh k v ltac:(by left))). pose proof (Hn k v ltac:(by left)).
  etrans; [|apply IH; [done| |intros; apply Hn; by right]]; [lia|].
  intros k' v' Hk'. rewrite lookup_insert_ne; [apply (Hfresh k' v'); by right|].
  intros ->. apply Hnot. by apply (list_elem_of_fmap_2 fst _ (k', v')).
Qed.
(** A property of extents that cutting keeps. *)
Lemma carved_forall (Q : Z → V → Prop) m a b m' :
  (∀ k v a b, Q k v → k ≤ a → a < b → b ≤ fin k v → Q a (cut k v a b)) → a < b →
  carved m a b m' → (∀ k v, m !! k = Some v → Q k v) → ∀ k v, m' !! k = Some v → Q k v.
Proof.
  intros Hcut Hab Hc HQ k v [[Hk _]|(k0&v0&Hk0&Ho&[(->&Hlt&->)|(->&Hlt&->)])]%Hc; [by apply HQ|..]; unfold overlaps in Ho.
  - apply Hcut; [by apply HQ|lia..].
  - apply Hcut; [by apply HQ|lia..].
Qed.
(** Cutting off the end: the extents from [n] on go, the one that crosses it is
    cut there. *)
Definition crossing (m : gmap Z V) (n : Z) : list (Z * V) :=
  match range_lt_back m n with
  | Some (k, v) => if n <? fin k v then [(k, v)] else []
  | None => []
  end.
Lemma crossing_spec m n k v : extents_wf m → (k, v) ∈ crossing m n ↔ m !! k = Some v ∧ k < n < fin k v.
Proof.
  intros Hwf. unfold crossing, range_lt_back. destruct (last (filter (λ kv, kv.1 < n) (iter m))) as [[k' v']|] eqn:Hl.
  - apply last_filter_Some in Hl as (Hk'&Hx&Hmax). cbn [fst] in *. split.
    + destruct (Z.ltb_spec n (fin k' v')); [|by intros ?%not_elem_of_nil]. intros Heq%list_elem_of_singleton. simplify_eq. split; [done|lia].
    + intros [Hk Hkn]. assert (k = k') as ->; [|simplify_eq; rewrite (proj2 (Z.ltb_lt _ _)) by lia; by left].
      pose proof (Hmax k v Hk ltac:(cbn [fst]; lia)). pose proof (ew_full _ Hwf _ _ Hk').
      apply (ew_disjoint _ Hwf k v k' v' k'); unfold covers; (done || lia).
  - rewrite last_filter_None in Hl. split; [by intros ?%not_elem_of_nil|]. intros [Hk Hkn]. destruct (Hl k v Hk). cbn [fst]. lia.
Qed.
Lemma truncate_spec m n hi : extents_wf m → n < hi → (∀ k v, m !! k = Some v → fin k v ≤ hi) →
  let keys := (range_from m n).*1 ++ (crossing m n).*1 in
  let frags := (λ kv, (kv.1, cut kv.1 kv.2 kv.1 n)) <$> crossing m n in
  NoDup keys ∧ (∀ k, k ∈ keys → is_Some (m !! k)) ∧ NoDup frags.*1 ∧
  (∀ k v, (k, v) ∈ frags → deletes keys m !! k = None) ∧ carved m n hi (inserts frags (deletes keys m)).
Proof.
  intros Hwf Hn Hhi keys frags. assert (Hfrom : ∀ k v, (k, v) ∈ range_from m n ↔ m !! k = Some v ∧ n ≤ k) by (intros; apply elem_of_filter_iter).
  assert (Hkeys : ∀ k v, m !! k = Some v → k ∈ keys ↔ overlaps k v n hi).
  { intros k v Hk. pose proof (ew_full _ Hwf _ _ Hk). pose proof (Hhi _ _ Hk). unfold overlaps, keys. rewrite elem_of_app, !list_elem_of_fmap. split.
    - intros [([k' v']&->&[Hk' ?]%Hfrom)|([k' v']&->&[Hk' ?]%crossing_spec)]; [..|done]; cbn [fst] in *; simplify_eq; lia.
    - intros Ho. destruct (Z.le_gt_cases n k); [left|right]; exists (k, v); (split; [done|]); [by apply Hfrom|by apply crossing_spec; [|split; [|lia]]]. }
  assert (Hcr : NoDup (crossing m n).*1).
  { unfold crossing. destruct (range_lt_back m n) as [[? ?]|]; [destruct (_ <? _)|]; repeat constructor. apply not_elem_of_nil. }
  assert (Hdel : ∀ k v, deletes keys m !! k = Some v ↔ m !! k = Some v ∧ ¬ overlaps k v n hi).
  { intros k v. rewrite lookup_deletes. split; intros [Hk Hno]; (split; [done|]); [rewrite <-Hkeys|rewrite Hkeys]; done. }
  assert (Hfr1 : frags.*1 = (crossing m n).*1) by (unfold frags; by rewrite <-list_fmap_compose).
  assert (Hfr : ∀ k v, (k, v) ∈ frags ↔ is_fragment m n hi k v).
  { intros k v. unfold frags, is_fragment. rewrite list_elem_of_fmap. split.
    - intros ([k0 v0]&Heq&[Hk0 Hx]%crossing_spec); [|done]. cbn [fst snd] in Heq. simplify_eq. exists k0, v0.
      unfold overlaps. split_and!; [done|lia|lia|]. left. split_and!; [done|lia|done].
    - intros (k0&v0&Hk0&Ho&Hcase). unfold overlaps in Ho. pose proof (Hhi _ _ Hk0). destruct Hcase as [(->&?&->)|(_&?&_)]; [|lia].
      exists (k0, v0). split; [done|]. apply crossing_spec; [done|]. split; [done|lia]. }
  assert (Hfresh : ∀ k v, (k, v) ∈ frags → deletes keys m !! k = None).
  { intros k v (k0&v0&Hk0&Ho&Hcase)%Hfr. unfold overlaps in Ho. pose proof (Hhi _ _ Hk0). destruct Hcase as [(->&?&_)|(_&?&_)]; [|lia].
    destruct (deletes keys m !! k0) eqn:Hk; [|done]. exfalso. apply Hdel in Hk as [Hk Hno]. simplify_eq. apply Hno. done. }
  split_and!; [| |by rewrite Hfr1|done|].
  - unfold keys. apply NoDup_app. split_and!; [|intros k ([k1 v1]&->&[_ ?]%Hfrom)%list_elem_of_fmap ([k2 v2]&Heq&[_ ?]%crossing_spec)%list_elem_of_fmap; [|done]; cbn [fst] in *; lia|done].
    unfold range_from. pose proof (filter_sorted (λ kv, n ≤ kv.1) m) as Hs. induction Hs as [|x l _ IH Hx]; [constructor|].
    cbn [fmap list_fmap]. apply NoDup_cons. split; [|done]. intros (y&Heq&Hy)%list_elem_of_fmap. rewrite list.Forall_forall in Hx.
    specialize (Hx y Hy). lia.
  - intros k Hk. unfold keys in Hk. apply elem_of_app in Hk as [Hk|Hk]; apply list_elem_of_fmap in Hk as ([k1 v1]&->&Hk);
      [apply Hfrom in Hk as [? _]|apply crossing_spec in Hk as [? _]; [|done]]; by eexists.
  - intros k v. rewrite lookup_inserts by (done || by rewrite Hfr1). by rewrite Hdel, Hfr.
Qed.
End Extents.
