(* ===== verification/SparseData.v ===== *)
(** * Dirty data of a file ([SparseData] of [fastdup-posix/src/lib.rs])

    The bytes a file has received since its last commit: extents of resident
    bytes, and extents that refer to ranges of another immutable file.  The
    accounting fields and the assertions of the code are kept. *)
From S2P Require Export Bytes Extents.
#[global] Open Scope Z_scope.

Module SparseData.
Inductive PosixError :=
  NoEntry | Exists | NotDirectory | IsDirectory | NotEmpty | InvalidName | NameTooLong | InvalidArgument | BadHandle
  | FileTooLarge | NoSpace | OutOfMemory | NoLocks | NoSuchAddress | NoData | TooBig | PermissionDenied | CrossDevice
  | Unsupported | Io | ReadOnly | Again.
Abbreviation presult := (outcome PosixError).

(** [Arc<dyn CommittedFile>]: the methods the dirty data uses, and the identity
    of the allocation, which [Arc::ptr_eq] compares. *)
Inductive CommittedFile := File {
  file_id : Z;
  file_logical_size : Z;
  file_allocated_bytes : Z;
  allocated_bytes_in_range : Z → Z → presult Z;
  read_segments_at : Z → Z → presult (list bytes);
  shared_read_source : option (CommittedFile * Z);
}.

(** ** Payloads *)
Definition MAX_RETAINED_PAYLOAD_AMPLIFICATION : Z := 4.
Record MutationPayload := { payload_bytes : bytes; backing_bytes : Z }.
Definition checked_slice (p : MutationPayload) (start end_ : Z) : option MutationPayload :=
  if (end_ <? start) || (blen (payload_bytes p) <? end_) then None
  else Some {| payload_bytes := sub (payload_bytes p) start (end_ - start); backing_bytes := backing_bytes p |}.
(** [MutationPayload::try_copy_from_slice]; the copy is allocated exactly *)
Definition try_copy_from_slice (source : bytes) : presult MutationPayload :=
  Ok {| payload_bytes := source; backing_bytes := blen source |}.
Definition retained_fragment (p : MutationPayload) (start end_ : Z) : presult MutationPayload :=
  fragment_bytes ← expect (checked_sub end_ start);
  let minimum_shared_bytes := (backing_bytes p + MAX_RETAINED_PAYLOAD_AMPLIFICATION - 1) / MAX_RETAINED_PAYLOAD_AMPLIFICATION in
  if minimum_shared_bytes <=? fragment_bytes then expect (checked_slice p start end_)
  else s ← index_range (payload_bytes p) start end_; try_copy_from_slice s.

(** ** Extents *)
Record ResidentDirtyData := { resident_payload : MutationPayload; mutation_sequence : Z }.
Record ExternalDirtyData := {
  source : CommittedFile;
  source_offset : Z;
  ext_length : Z;
  through_sequence : Z;
}.
Definition resident_len (d : ResidentDirtyData) : Z := blen (payload_bytes (resident_payload d)).
Definition resident_fragment (d : ResidentDirtyData) (start end_ : Z) : presult ResidentDirtyData :=
  p ← retained_fragment (resident_payload d) start end_;
  Ok {| resident_payload := p; mutation_sequence := mutation_sequence d |}.

Record SparseData := {
  logical_size : Z;
  allocated_bytes : Z;
  resident_bytes : Z;
  extents : gmap Z ResidentDirtyData;
  external_extents : gmap Z ExternalDirtyData;
}.
Definition sparse_default (size : Z) : SparseData :=
  {| logical_size := size; allocated_bytes := 0; resident_bytes := 0; extents := ∅; external_extents := ∅ |}.

(** ** Removing and adding extents with their accounting *)
Definition drop_resident (s : SparseData) (start : Z) : presult SparseData :=
  removed ← expect (extents s !! start);
  allocated ← expect (checked_sub (allocated_bytes s) (resident_len removed));
  resident ← expect (checked_sub (resident_bytes s) (resident_len removed));
  Ok {| logical_size := logical_size s; allocated_bytes := allocated; resident_bytes := resident;
        extents := delete start (extents s); external_extents := external_extents s |}.
Definition add_resident (s : SparseData) (start : Z) (d : ResidentDirtyData) : presult SparseData :=
  allocated ← expect (checked_add u64_max (allocated_bytes s) (resident_len d));
  resident ← expect (checked_add u64_max (resident_bytes s) (resident_len d));
  assert_true (bool_decide (extents s !! start = None));;
  Ok {| logical_size := logical_size s; allocated_bytes := allocated; resident_bytes := resident;
        extents := <[start := d]> (extents s); external_extents := external_extents s |}.
Definition drop_external (s : SparseData) (start : Z) : presult SparseData :=
  removed ← expect (external_extents s !! start);
  allocated ← expect (checked_sub (allocated_bytes s) (ext_length removed));
  Ok {| logical_size := logical_size s; allocated_bytes := allocated; resident_bytes := resident_bytes s;
        extents := extents s; external_extents := delete start (external_extents s) |}.
Definition add_external (s : SparseData) (start : Z) (d : ExternalDirtyData) : presult SparseData :=
  allocated ← expect (checked_add u64_max (allocated_bytes s) (ext_length d));
  assert_true (bool_decide (external_extents s !! start = None));;
  Ok {| logical_size := logical_size s; allocated_bytes := allocated; resident_bytes := resident_bytes s;
        extents := extents s; external_extents := <[start := d]> (external_extents s) |}.
Fixpoint drop_residents (s : SparseData) (starts : list Z) : presult SparseData :=
  match starts with [] => Ok s | start :: starts => s ← drop_resident s start; drop_residents s starts end.
Fixpoint add_residents (s : SparseData) (l : list (Z * ResidentDirtyData)) : presult SparseData :=
  match l with [] => Ok s | (start, d) :: l => s ← add_resident s start d; add_residents s l end.
Fixpoint drop_externals (s : SparseData) (starts : list Z) : presult SparseData :=
  match starts with [] => Ok s | start :: starts => s ← drop_external s start; drop_externals s starts end.
Fixpoint add_externals (s : SparseData) (l : list (Z * ExternalDirtyData)) : presult SparseData :=
  match l with [] => Ok s | (start, d) :: l => s ← add_external s start d; add_externals s l end.

(** [fn plan_overlap] *)
Definition plan_overlap (plan : list Z * list (Z * ResidentDirtyData)) (extent_start : Z) (d : ResidentDirtyData)
    (write_start write_end : Z) : presult (list Z * list (Z * ResidentDirtyData)) :=
  extent_end ← expect (checked_add u64_max extent_start (resident_len d));
  if (extent_end <=? write_start) || (write_end <=? extent_start) then Ok plan
  else
    left ← (if extent_start <? write_start
            then f ← resident_fragment d 0 (write_start - extent_start); Ok [(extent_start, f)] else Ok []);
    right ← (if write_end <? extent_end
             then f ← resident_fragment d (write_end - extent_start) (resident_len d); Ok [(write_end, f)] else Ok []);
    Ok (plan.1 ++ [extent_start], plan.2 ++ left ++ right).
Fixpoint plan_overlaps (plan : list Z * list (Z * ResidentDirtyData)) (l : list (Z * ResidentDirtyData))
    (write_start write_end : Z) : presult (list Z * list (Z * ResidentDirtyData)) :=
  match l with
  | [] => Ok plan
  | (extent_start, d) :: l =>
      plan ← plan_overlap plan extent_start d write_start write_end;
      plan_overlaps plan l write_start write_end
  end.
(** [SparseData::remove_resident_overlaps] *)
Definition remove_resident_overlaps (s : SparseData) (start end_ : Z) : presult SparseData :=
  plan ← plan_overlaps ([], []) (match range_le_back (extents s) start with Some kv => [kv] | None => [] end) start end_;
  inside ← range_between (extents s) start end_;
  plan ← plan_overlaps plan inside start end_;
  s ← drop_residents s plan.1;
  add_residents s plan.2.

(** [fn external_overlapping_starts] *)
Definition external_overlapping_starts (m : gmap Z ExternalDirtyData) (start end_ : Z) : presult (list Z) :=
  inside ← range_between m start end_;
  Ok (match range_le_back m start with
      | Some (k, d) => if start <? saturating_add u64_max k (ext_length d) then [k] else []
      | None => []
      end ++ inside.*1).
(** The fragments of the overlapping external extents *)
Fixpoint external_fragments (m : gmap Z ExternalDirtyData) (starts : list Z) (start end_ : Z)
    : presult (list (Z * ExternalDirtyData)) :=
  match starts with
  | [] => Ok []
  | extent_start :: starts =>
      d ← expect (m !! extent_start);
      extent_end ← ok_or (checked_add u64_max extent_start (ext_length d)) Io;
      let left := if extent_start <? start
        then [(extent_start, {| source := source d; source_offset := source_offset d; ext_length := start - extent_start;
                                through_sequence := through_sequence d |})] else [] in
      right ← (if end_ <? extent_end
        then o ← ok_or (checked_add u64_max (source_offset d) (end_ - extent_start)) Io;
             Ok [(end_, {| source := source d; source_offset := o; ext_length := extent_end - end_;
                           through_sequence := through_sequence d |})]
        else Ok []);
      rest ← external_fragments m starts start end_;
      Ok (left ++ right ++ rest)
  end.
(** [SparseData::remove_external_overlaps] and [truncate_external] *)
Definition remove_external_overlaps (s : SparseData) (start end_ : Z) : presult SparseData :=
  starts ← external_overlapping_starts (external_extents s) start end_;
  fragments ← external_fragments (external_extents s) starts start end_;
  s ← drop_externals s starts;
  add_externals s fragments.
Definition truncate_external (s : SparseData) (length : Z) : presult SparseData :=
  remove_external_overlaps s length (logical_size s).

(** ** Assertions *)

(** [SparseData::assert_extent_valid] and [assert_valid_around] *)
Definition assert_extent_valid (s : SparseData) (start : Z) (d : ResidentDirtyData) : presult () :=
  assert_true (negb (resident_len d =? 0));;
  end_ ← expect (checked_add u64_max start (resident_len d));
  assert_true (end_ <=? logical_size s);;
  match range_lt_back (extents s) start with
  | Some (previous_start, previous) =>
      previous_end ← expect (checked_add u64_max previous_start (resident_len previous));
      assert_true (previous_end <=? start)
  | None => Ok ()
  end;;
  match head (filter (λ kv, start < kv.1) (iter (extents s))) with
  | Some (next_start, _) => assert_true (end_ <=? next_start)
  | None => Ok ()
  end.
Definition assert_valid_around (s : SparseData) (position : Z) : presult () :=
  match range_le_back (extents s) position with
  | Some (start, d) => assert_extent_valid s start d
  | None => Ok ()
  end;;
  match head (range_from (extents s) position) with
  | Some (start, d) => assert_extent_valid s start d
  | None => Ok ()
  end.

(** ** Operations *)
Definition set_logical_size (s : SparseData) (size : Z) : SparseData :=
  {| logical_size := size; allocated_bytes := allocated_bytes s; resident_bytes := resident_bytes s;
     extents := extents s; external_extents := external_extents s |}.

(** [SparseData::write] *)
Definition write (s : SparseData) (offset : Z) (data : MutationPayload) (sequence : Z) : presult SparseData :=
  assert_true (negb (blen (payload_bytes data) =? 0));;
  end_ ← ok_or (checked_add u64_max offset (blen (payload_bytes data))) FileTooLarge;
  s ← remove_external_overlaps s offset end_;
  s ← remove_resident_overlaps s offset end_;
  s ← add_resident s offset {| resident_payload := data; mutation_sequence := sequence |};
  let s := set_logical_size s (Z.max (logical_size s) end_) in
  assert_valid_around s offset;;
  assert_valid_around s end_;;
  Ok s.
(** [SparseData::write_external] *)
Definition write_external (s : SparseData) (offset : Z) (file : CommittedFile) (file_offset length sequence : Z)
    : presult SparseData :=
  assert_true (0 <? length);;
  end_ ← ok_or (checked_add u64_max offset length) FileTooLarge;
  source_end ← ok_or (checked_add u64_max file_offset length) FileTooLarge;
  outside ← Ok (file_logical_size file <? source_end)
            ||? (n ← allocated_bytes_in_range file file_offset length; Ok (negb (n =? length)));
  reject_if outside Unsupported;;
  s ← remove_resident_overlaps s offset end_;
  s ← remove_external_overlaps s offset end_;
  assert_true (bool_decide (external_extents s !! offset = None));;
  allocated ← expect (checked_add u64_max (allocated_bytes s) length);
  let s := {| logical_size := Z.max (logical_size s) end_; allocated_bytes := allocated; resident_bytes := resident_bytes s;
              extents := extents s;
              external_extents := <[offset := {| source := file; source_offset := file_offset; ext_length := length;
                                                 through_sequence := sequence |}]> (external_extents s) |} in
  assert_valid_around s offset;;
  assert_valid_around s end_;;
  Ok s.
(** [SparseData::truncate] *)
Definition truncate (s : SparseData) (length : Z) : presult SparseData :=
  if logical_size s <=? length then Ok (set_logical_size s length)
  else
    s ← truncate_external s length;
    crossing ← match range_lt_back (extents s) length with
               | Some (start, d) =>
                   end_ ← expect (checked_add u64_max start (resident_len d));
                   if length <? end_ then f ← resident_fragment d 0 (length - start); Ok [(start, f)] else Ok []
               | None => Ok []
               end;
    let remove := (range_from (extents s) length).*1 ++ crossing.*1 in
    s ← drop_residents s remove;
    s ← add_residents s crossing;
    let s := set_logical_size s length in
    assert_valid_around s length;;
    Ok s.
(** [SparseData::punch] *)
Definition punch (s : SparseData) (start end_ : Z) : presult SparseData :=
  assert_true (start <=? end_);;
  if start =? end_ then Ok s
  else
    s ← remove_resident_overlaps s start end_;
    s ← remove_external_overlaps s start end_;
    assert_valid_around s start;;
    assert_valid_around s end_;;
    Ok s.

(** ** The two kinds of extents *)
Definition fragment_of (p : MutationPayload) (start end_ : Z) : MutationPayload :=
  let b := sub (payload_bytes p) start (end_ - start) in
  {| payload_bytes := b;
     backing_bytes := if (backing_bytes p + 4 - 1) / 4 <=? end_ - start then backing_bytes p else blen b |}.
Lemma retained_fragment_in p start end_ :
  0 ≤ start ≤ end_ → end_ ≤ blen (payload_bytes p) → retained_fragment p start end_ = Ok (fragment_of p start end_).
Proof.
  intros Hse He. unfold retained_fragment, fragment_of, checked_sub, MAX_RETAINED_PAYLOAD_AMPLIFICATION.
  rewrite (proj2 (Z.leb_le start end_)) by lia. cbn [expect]. rewrite Ok_bind. cbv zeta.
  destruct (Z.leb_spec ((backing_bytes p + 4 - 1) / 4) (end_ - start)).
  - unfold checked_slice. rewrite (proj2 (Z.ltb_ge end_ start)), (proj2 (Z.ltb_ge (blen _) end_)) by lia. done.
  - rewrite index_range_in by lia. rewrite Ok_bind. done.
Qed.
#[global] Instance resident_extent : Extent ResidentDirtyData byte := {
  fin k d := k + resident_len d;
  val k d x := default x00 (payload_bytes (resident_payload d) !! Z.to_nat (x - k));
  cut k d a b := {| resident_payload := fragment_of (resident_payload d) (a - k) (b - k); mutation_sequence := mutation_sequence d |};
}.
Lemma lookup_sub {A} (b : list A) o n i : 0 ≤ o → 0 ≤ i < n → sub b o n !! Z.to_nat i = b !! Z.to_nat (o + i).
Proof. intros Ho Hi. change (sub b o n) with (take (Z.to_nat n) (drop (Z.to_nat o) b)). rewrite lookup_take_lt, lookup_drop by lia. f_equal. lia. Qed.
#[global] Instance resident_extent_laws : ExtentLaws ResidentDirtyData byte.
Proof.
  split.
  - intros k d a b Hka Hab Hb. unfold fin, cut, resident_extent, resident_len, fragment_of in *. cbn [resident_payload payload_bytes].
    rewrite blen_sub by lia. lia.
  - intros k d a b x Hka Hx Hb. unfold val, cut, resident_extent, fragment_of. cbn [resident_payload payload_bytes].
    f_equal. rewrite lookup_sub by lia. f_equal. lia.
Qed.
Lemma fin_resident k (d : ResidentDirtyData) : fin k d = k + resident_len d.
Proof. done. Qed.
(** The value of an external extent: the file, and the position in it. *)
#[global] Instance external_extent : Extent ExternalDirtyData (CommittedFile * Z) := {
  fin k d := k + ext_length d;
  val k d x := (source d, source_offset d + (x - k));
  cut k d a b := {| source := source d; source_offset := source_offset d + (a - k); ext_length := b - a;
                    through_sequence := through_sequence d |};
}.
#[global] Instance external_extent_laws : ExtentLaws ExternalDirtyData (CommittedFile * Z).
Proof.
  split.
  - intros k d a b Hka Hab Hb. unfold fin, cut, external_extent in *. cbn [ext_length]. lia.
  - intros k d a b x Hka Hx Hb. unfold val, cut, external_extent. cbn [source source_offset]. f_equal. lia.
Qed.
Lemma fin_external k (d : ExternalDirtyData) : fin k d = k + ext_length d.
Proof. done. Qed.
End SparseData.
