(* ===== verification/SparseDataOps.v ===== *)
(** * The operations of [SparseData]

    Every operation keeps the invariant of the extents and of the accounting,
    never fires an assertion, and changes the data exactly where it should. *)
From S2P Require Export SparseData.

Module SparseDataOps.
Import SparseData.

(** ** Files

    [heap] gives the live allocations by their identity: the file, and its
    contents, which are the byte at a position, or nothing where the file has a
    hole or has ended. *)
Section Files.
Context (heap : Z → option (CommittedFile * (Z → option byte))).

Definition file_at (f : CommittedFile) (x : Z) : option byte :=
  match heap (file_id f) with Some (_, contents) => contents x | None => None end.
Definition live (f : CommittedFile) : Prop := ∃ contents, heap (file_id f) = Some (f, contents).
Definition byte_at (f : CommittedFile) (x : Z) : byte := default x00 (file_at f x).
Definition file_present (f : CommittedFile) (x : Z) : bool := bool_decide (is_Some (file_at f x)).
(** A read returns an error, or segments of a wrong total length (which the
    caller detects), or the bytes of the file. *)
Definition file_reads (f : CommittedFile) : Prop :=
  ∀ o n, 0 ≤ o → 0 < n ≤ u32_max → o + n ≤ file_logical_size f →
    read_segments_at f o n ≠ Panic ∧
    ∀ segments, read_segments_at f o n = Ok segments → blen (concat segments) = n →
      concat segments = byte_at f <$> seqZ o n.
Record file_ok (f : CommittedFile) : Prop := {
  fo_live : live f;
  fo_size : 0 ≤ file_logical_size f ≤ u64_max;
  fo_beyond x : file_logical_size f ≤ x → file_at f x = None;
  fo_allocated : file_allocated_bytes f = count (file_present f) 0 (file_logical_size f);
  fo_range o n : 0 ≤ o → 0 ≤ n → o + n ≤ file_logical_size f →
    allocated_bytes_in_range f o n = Ok (count (file_present f) o (o + n));
  fo_reads : file_reads f;
  fo_shared g base : shared_read_source f = Some (g, base) →
    live g ∧ file_reads g ∧ 0 ≤ base ∧ base + file_logical_size f ≤ file_logical_size g ∧ file_logical_size g ≤ u64_max ∧
    ∀ x, 0 ≤ x < file_logical_size f → byte_at f x = byte_at g (base + x);
}.

(** An external extent lies in its file, where the file has data. *)
Record source_ok (d : ExternalDirtyData) : Prop := {
  so_file : file_ok (source d);
  so_offset : 0 ≤ source_offset d;
  so_end : source_offset d + ext_length d ≤ file_logical_size (source d);
  so_data x : source_offset d ≤ x < source_offset d + ext_length d → is_Some (file_at (source d) x);
}.
Lemma source_ok_cut k d a b : source_ok d → k ≤ a → a < b → b ≤ fin k d → source_ok (cut k d a b).
Proof.
  intros [Hf Ho He Hx] Hka Hab Hb. rewrite fin_external in Hb.
  split; cbn [cut external_extent source source_offset ext_length]; [done|lia|lia|]. intros x Hx'. apply Hx. lia.
Qed.

Record sparse_wf (s : SparseData) : Prop := {
  sw_size : 0 ≤ logical_size s ≤ u64_max;
  sw_resident : extents_wf (extents s);
  sw_external : extents_wf (external_extents s);
  sw_resident_in : within (extents s) 0 (logical_size s);
  sw_external_in : within (external_extents s) 0 (logical_size s);
  sw_apart x : is_Some (at_ (extents s) x) → at_ (external_extents s) x = None;
  sw_sources k d : external_extents s !! k = Some d → source_ok d;
  sw_allocated : allocated_bytes s = extent_bytes (extents s) + extent_bytes (external_extents s);
  sw_resident_bytes : resident_bytes s = extent_bytes (extents s);
}.

(** The data of the extents. *)
Definition data_at (s : SparseData) (x : Z) : option byte :=
  match at_ (extents s) x with
  | Some b => Some b
  | None => match at_ (external_extents s) x with Some (f, o) => Some (byte_at f o) | None => None end
  end.

(** ** Accounting *)
Lemma count_disjoint p q a b : a ≤ b → (∀ x, a ≤ x < b → p x = true → q x = false) → count p a b + count q a b ≤ b - a.
Proof.
  intros Hab. remember (Z.to_nat (b - a)) as n eqn:Hn. revert a Hab Hn. induction n as [|n IH]; intros a Hab Hn Hpq.
  { rewrite !count_empty by lia. lia. }
  rewrite (count_split p a (a + 1)), (count_split q a (a + 1)) by lia.
  specialize (IH (a + 1) ltac:(lia) ltac:(lia)). pose proof (IH ltac:(intros; apply Hpq; (lia || done))) as Hrest.
  pose proof (count_le p a (a + 1) ltac:(lia)). pose proof (count_le q a (a + 1) ltac:(lia)).
  destruct (p a) eqn:Hp.
  - rewrite (count_none q a (a + 1)) by (intros x Hx; replace x with a by lia; apply Hpq; (lia || done)). lia.
  - rewrite (count_none p a (a + 1)) by (intros x Hx; by replace x with a by lia). lia.
Qed.
Lemma sparse_bytes_le s : sparse_wf s →
  0 ≤ extent_bytes (extents s) ∧ 0 ≤ extent_bytes (external_extents s) ∧
  extent_bytes (extents s) + extent_bytes (external_extents s) ≤ logical_size s.
Proof.
  intros Hs. pose proof (sw_size s Hs) as Hsz. rewrite (extent_bytes_count (extents s) 0 (logical_size s)) by apply Hs.
  rewrite (extent_bytes_count (external_extents s) 0 (logical_size s)) by apply Hs.
  pose proof (count_disjoint (present (extents s)) (present (external_extents s)) 0 (logical_size s)) as Hd.
  split_and!; [apply count_nonneg|apply count_nonneg|]. etrans; [apply Hd; [lia|]|lia].
  intros x _ Hp%bool_decide_eq_true. apply bool_decide_false. rewrite (sw_apart s Hs x Hp). by intros [? ?].
Qed.

(** The accounting alone, which holds in the middle of an operation too. *)
Record accounted (s : SparseData) : Prop := {
  ac_resident k v : extents s !! k = Some v → 0 ≤ fin k v - k;
  ac_external k v : external_extents s !! k = Some v → 0 ≤ fin k v - k;
  ac_allocated : allocated_bytes s = extent_bytes (extents s) + extent_bytes (external_extents s);
  ac_resident_bytes : resident_bytes s = extent_bytes (extents s);
}.
Lemma sparse_accounted s : sparse_wf s → accounted s.
Proof. intros Hs. split; [apply extent_len_nonneg, Hs|apply extent_len_nonneg, Hs|apply Hs|apply Hs]. Qed.
Lemma extent_bytes_nonneg {V T} `{Extent V T} (m : gmap Z V) : (∀ k v, m !! k = Some v → 0 ≤ fin k v - k) → 0 ≤ extent_bytes m.
Proof. intros Hn. by apply msum_nonneg. Qed.

Definition with_extents (s : SparseData) (m : gmap Z ResidentDirtyData) : SparseData :=
  {| logical_size := logical_size s; allocated_bytes := extent_bytes m + extent_bytes (external_extents s);
     resident_bytes := extent_bytes m; extents := m; external_extents := external_extents s |}.
Definition with_externals (s : SparseData) (m : gmap Z ExternalDirtyData) : SparseData :=
  {| logical_size := logical_size s; allocated_bytes := extent_bytes (extents s) + extent_bytes m;
     resident_bytes := resident_bytes s; extents := extents s; external_extents := m |}.
Lemma with_extents_id s : accounted s → with_extents s (extents s) = s.
Proof. intros [_ _ Ha Hr]. unfold with_extents. rewrite <-Ha, <-Hr. by destruct s. Qed.
Lemma with_externals_id s : accounted s → with_externals s (external_extents s) = s.
Proof. intros [_ _ Ha Hr]. unfold with_externals. rewrite <-Ha. by destruct s. Qed.

Lemma with_extents_twice s m m' : with_extents (with_extents s m) m' = with_extents s m'.
Proof. done. Qed.
Lemma with_externals_twice s m m' : with_externals (with_externals s m) m' = with_externals s m'.
Proof. done. Qed.

Lemma drop_resident_spec s k d : accounted s → extents s !! k = Some d →
  drop_resident s k = Ok (with_extents s (delete k (extents s))) ∧ accounted (with_extents s (delete k (extents s))).
Proof.
  intros [Hr He Ha Hb] Hk. unfold drop_resident. rewrite Hk. cbn [expect]. rewrite Ok_bind.
  pose proof (extent_bytes_lookup (extents s) k d Hr Hk) as Hle. rewrite fin_resident in Hle.
  pose proof (extent_bytes_nonneg (external_extents s) He). pose proof (extent_bytes_delete (extents s) k d Hk) as Hd.
  rewrite fin_resident in Hd. unfold checked_sub. rewrite Ha, Hb, !(proj2 (Z.leb_le _ _)) by lia. cbn [expect]. rewrite !Ok_bind.
  split; [unfold with_extents; rewrite Hd; do 2 f_equal; lia|].
  split; cbn [with_extents extents external_extents allocated_bytes resident_bytes]; [|done|done|done].
  intros k' v' [_ Hk']%lookup_delete_Some. by apply Hr.
Qed.
Lemma drop_residents_spec s keys : accounted s → NoDup keys → (∀ k, k ∈ keys → is_Some (extents s !! k)) →
  drop_residents s keys = Ok (with_extents s (deletes keys (extents s))) ∧ accounted (with_extents s (deletes keys (extents s))).
Proof.
  revert s. induction keys as [|k keys IH]; intros s Ha Hnd Hin; cbn [drop_residents].
  { change (deletes [] (extents s)) with (extents s). by rewrite with_extents_id. }
  apply NoDup_cons in Hnd as [Hnot Hnd]. destruct (Hin k) as [d Hd]; [by left|].
  destruct (drop_resident_spec s k d Ha Hd) as [-> Ha']. rewrite Ok_bind.
  pose proof (IH (with_extents s (delete k (extents s)))) as IH'. rewrite with_extents_twice in IH'. apply IH'; [done|done|]. intros k' Hk'. cbn [with_extents extents].
  rewrite lookup_delete_ne by (by intros ->). apply Hin. by right.
Qed.
Lemma add_resident_spec s k d : accounted s → extents s !! k = None →
  extent_bytes (extents s) + resident_len d + extent_bytes (external_extents s) ≤ u64_max →
  add_resident s k d = Ok (with_extents s (<[k := d]> (extents s))) ∧ accounted (with_extents s (<[k := d]> (extents s))).
Proof.
  intros [Hr He Ha Hb] Hk Hle. unfold add_resident. pose proof (extent_bytes_nonneg (external_extents s) He).
  pose proof (extent_bytes_insert (extents s) k d Hk) as Hi. rewrite fin_resident in Hi.
  rewrite Ha, Hb, !checked_add_ok by lia. cbn [expect]. rewrite !Ok_bind, bool_decide_true by done. cbn [assert_true]. rewrite Ok_bind.
  split; [unfold with_extents; rewrite Hi; do 2 f_equal; lia|].
  split; cbn [with_extents extents external_extents allocated_bytes resident_bytes]; [|done|done|done].
  intros k' v' [[<- <-]|[_ Hk']]%lookup_insert_Some; [|by apply Hr]. rewrite fin_resident. unfold resident_len.
  pose proof (blen_nonneg (payload_bytes (resident_payload d))). lia.
Qed.
Lemma add_residents_spec s l : accounted s → NoDup l.*1 → (∀ k v, (k, v) ∈ l → extents s !! k = None) →
  extent_bytes (inserts l (extents s)) + extent_bytes (external_extents s) ≤ u64_max →
  add_residents s l = Ok (with_extents s (inserts l (extents s))) ∧ accounted (with_extents s (inserts l (extents s))).
Proof.
  revert s. induction l as [|[k d] l IH]; intros s Ha Hnd Hfresh Hle; cbn [add_residents].
  { change (inserts [] (extents s)) with (extents s). by rewrite with_extents_id. }
  change (inserts ((k, d) :: l) (extents s)) with (inserts l (<[k := d]> (extents s))) in *. cbn [fmap list_fmap fst snd] in *. apply NoDup_cons in Hnd as [Hnot Hnd].
  assert (Hk : extents s !! k = None) by (apply (Hfresh k d); by left).
  assert (Hfresh' : ∀ k' v', (k', v') ∈ l → <[k := d]> (extents s) !! k' = None).
  { intros k' v' Hk'. rewrite lookup_insert_ne; [apply (Hfresh k' v'); by right|]. intros ->. apply Hnot.
    by apply (list_elem_of_fmap_2 fst _ (k', v')). }
  assert (Hmono : extent_bytes (<[k := d]> (extents s)) ≤ extent_bytes (inserts l (<[k := d]> (extents s)))).
  { apply extent_bytes_inserts; [done|done|]. intros k' v' _. rewrite fin_resident. unfold resident_len.
    pose proof (blen_nonneg (payload_bytes (resident_payload v'))). lia. }
  destruct (add_resident_spec s k d Ha Hk) as [-> Ha'].
  { rewrite extent_bytes_insert in Hmono by done. rewrite fin_resident in Hmono. lia. }
  rewrite Ok_bind. pose proof (IH (with_extents s (<[k := d]> (extents s)))) as IH'. rewrite with_extents_twice in IH'. by apply IH'.
Qed.
Lemma drop_external_spec s k d : accounted s → external_extents s !! k = Some d →
  drop_external s k = Ok (with_externals s (delete k (external_extents s))) ∧
  accounted (with_externals s (delete k (external_extents s))).
Proof.
  intros [Hr He Ha Hb] Hk. unfold drop_external. rewrite Hk. cbn [expect]. rewrite Ok_bind.
  pose proof (extent_bytes_lookup (external_extents s) k d He Hk) as Hle. rewrite fin_external in Hle.
  pose proof (extent_bytes_nonneg (extents s) Hr). pose proof (extent_bytes_delete (external_extents s) k d Hk) as Hd.
  rewrite fin_external in Hd. unfold checked_sub. rewrite Ha, (proj2 (Z.leb_le _ _)) by lia. cbn [expect]. rewrite Ok_bind.
  split; [unfold with_externals; rewrite Hd; do 2 f_equal; lia|].
  split; cbn [with_externals extents external_extents allocated_bytes resident_bytes]; [done| |done|done].
  intros k' v' [_ Hk']%lookup_delete_Some. by apply He.
Qed.
Lemma drop_externals_spec s keys : accounted s → NoDup keys → (∀ k, k ∈ keys → is_Some (external_extents s !! k)) →
  drop_externals s keys = Ok (with_externals s (deletes keys (external_extents s))) ∧
  accounted (with_externals s (deletes keys (external_extents s))).
Proof.
  revert s. induction keys as [|k keys IH]; intros s Ha Hnd Hin; cbn [drop_externals].
  { change (deletes [] (external_extents s)) with (external_extents s). by rewrite with_externals_id. }
  apply NoDup_cons in Hnd as [Hnot Hnd]. destruct (Hin k) as [d Hd]; [by left|].
  destruct (drop_external_spec s k d Ha Hd) as [-> Ha']. rewrite Ok_bind.
  pose proof (IH (with_externals s (delete k (external_extents s)))) as IH'. rewrite with_externals_twice in IH'.
  apply IH'; [done|done|]. intros k' Hk'. cbn [with_externals external_extents].
  rewrite lookup_delete_ne by (by intros ->). apply Hin. by right.
Qed.
Lemma add_external_spec s k d : accounted s → external_extents s !! k = None → 0 ≤ ext_length d →
  extent_bytes (extents s) + ext_length d + extent_bytes (external_extents s) ≤ u64_max →
  add_external s k d = Ok (with_externals s (<[k := d]> (external_extents s))) ∧
  accounted (with_externals s (<[k := d]> (external_extents s))).
Proof.
  intros [Hr He Ha Hb] Hk Hn Hle. unfold add_external. pose proof (extent_bytes_insert (external_extents s) k d Hk) as Hi.
  rewrite fin_external in Hi. rewrite Ha, checked_add_ok by lia. cbn [expect].
  rewrite !Ok_bind, bool_decide_true by done. cbn [assert_true]. rewrite Ok_bind.
  split; [unfold with_externals; rewrite Hi; do 2 f_equal; lia|].
  split; cbn [with_externals extents external_extents allocated_bytes resident_bytes]; [done| |done|done].
  intros k' v' [[<- <-]|[_ Hk']]%lookup_insert_Some; [|by apply He]. rewrite fin_external. lia.
Qed.
Lemma add_externals_spec s l : accounted s → NoDup l.*1 → (∀ k v, (k, v) ∈ l → external_extents s !! k = None ∧ 0 ≤ ext_length v) →
  extent_bytes (extents s) + extent_bytes (inserts l (external_extents s)) ≤ u64_max →
  add_externals s l = Ok (with_externals s (inserts l (external_extents s))) ∧
  accounted (with_externals s (inserts l (external_extents s))).
Proof.
  revert s. induction l as [|[k d] l IH]; intros s Ha Hnd Hfresh Hle; cbn [add_externals].
  { change (inserts [] (external_extents s)) with (external_extents s). by rewrite with_externals_id. }
  change (inserts ((k, d) :: l) (external_extents s)) with (inserts l (<[k := d]> (external_extents s))) in *.
  cbn [fmap list_fmap fst snd] in *. apply NoDup_cons in Hnd as [Hnot Hnd].
  destruct (Hfresh k d) as [Hk Hn]; [by left|].
  assert (Hfresh' : ∀ k' v', (k', v') ∈ l → <[k := d]> (external_extents s) !! k' = None ∧ 0 ≤ ext_length v').
  { intros k' v' Hk'. rewrite lookup_insert_ne; [apply (Hfresh k' v'); by right|]. intros ->. apply Hnot.
    by apply (list_elem_of_fmap_2 fst _ (k', v')). }
  assert (Hmono : extent_bytes (<[k := d]> (external_extents s)) ≤ extent_bytes (inserts l (<[k := d]> (external_extents s)))).
  { apply extent_bytes_inserts; [done|intros; by eapply Hfresh'|]. intros k' v' Hin%Hfresh'. rewrite fin_external. lia. }
  destruct (add_external_spec s k d Ha Hk Hn) as [-> Ha'].
  { rewrite extent_bytes_insert in Hmono by done. rewrite fin_external in Hmono. lia. }
  rewrite Ok_bind. pose proof (IH (with_externals s (<[k := d]> (external_extents s)))) as IH'.
  rewrite with_externals_twice in IH'. by apply IH'.
Qed.

(** ** Carving *)
Lemma cut_left k (d : ResidentDirtyData) a : 0 ≤ k → k < a → a ≤ fin k d →
  resident_fragment d 0 (a - k) = Ok (cut k d k a).
Proof.
  intros Hk Ha Hf. rewrite fin_resident in Hf. unfold resident_fragment. unfold resident_len in Hf.
  rewrite retained_fragment_in by lia. rewrite Ok_bind. unfold cut, resident_extent. by replace (k - k) with 0 by lia.
Qed.
Lemma cut_right k (d : ResidentDirtyData) b : k ≤ b → b < fin k d →
  resident_fragment d (b - k) (resident_len d) = Ok (cut k d b (fin k d)).
Proof.
  intros Hk Hb. rewrite fin_resident in Hb. unfold resident_fragment. rewrite retained_fragment_in; [|lia|unfold resident_len; lia].
  rewrite Ok_bind, fin_resident. unfold cut, resident_extent. by replace (k + resident_len d - k) with (resident_len d) by lia.
Qed.
Lemma plan_overlaps_spec plan l a b : a < b → (∀ kv, kv ∈ l → 0 ≤ kv.1 ∧ fin kv.1 kv.2 ≤ u64_max) →
  plan_overlaps plan l a b =
    Ok (plan.1 ++ (filter (λ kv, kv.1 < b ∧ a < fin kv.1 kv.2) l).*1,
        plan.2 ++ fragments a b (filter (λ kv, kv.1 < b ∧ a < fin kv.1 kv.2) l)).
Proof.
  intros Hab. revert plan. induction l as [|[k d] l IH]; intros plan Hin; cbn [plan_overlaps].
  { cbn [filter list_filter fmap list_fmap]. unfold fragments. cbn. rewrite !app_nil_r. by destruct plan. }
  destruct (Hin (k, d)) as [Hk Hf]; [by left|]. cbn [fst snd] in *. unfold plan_overlap.
  pose proof Hf as Hf'. rewrite fin_resident in Hf'. pose proof (blen_nonneg (payload_bytes (resident_payload d))).
  rewrite checked_add_ok by (unfold resident_len in *; lia). cbn [expect]. rewrite Ok_bind, <-!fin_resident, filter_cons. cbn [fst snd].
  destruct (decide (k < b ∧ a < fin k d)) as [Ho|Ho].
  2: { assert ((fin k d <=? a) || (b <=? k) = true) as -> by (apply orb_true_iff; rewrite !Z.leb_le; lia).
       rewrite Ok_bind. apply IH. intros; apply Hin; by right. }
  rewrite (proj2 (Z.leb_gt (fin k d) a)), (proj2 (Z.leb_gt b k)) by lia. cbn [orb].
  set (L := left_fragment a (k, d)). set (R := right_fragment b (k, d)).
  assert ((if k <? a then f ← resident_fragment d 0 (a - k); Ok [(k, f)] else Ok (E := PosixError) []) = Ok L) as ->.
  { unfold L, left_fragment. cbn [fst snd]. destruct (Z.ltb_spec k a); [|done]. by rewrite cut_left by lia. }
  rewrite Ok_bind.
  assert ((if b <? fin k d then f ← resident_fragment d (b - k) (resident_len d); Ok [(b, f)] else Ok (E := PosixError) []) = Ok R) as ->.
  { unfold R, right_fragment. cbn [fst snd]. destruct (Z.ltb_spec b (fin k d)); [|done]. by rewrite cut_right by lia. }
  rewrite !Ok_bind, IH by (intros; apply Hin; by right). cbn [fst snd]. unfold fragments. cbn [fmap list_fmap concat].
  rewrite <-!app_assoc. done.
Qed.
Lemma candidates_overlap {V T} `{Extent V T} (m : gmap Z V) a b : extents_wf m → a < b →
  filter (λ kv, kv.1 < b ∧ a < fin kv.1 kv.2) (match range_le_back m a with Some kv => [kv] | None => [] end)
    ++ filter (λ kv, kv.1 < b ∧ a < fin kv.1 kv.2) (filter (λ kv, a < kv.1 ∧ kv.1 < b) (iter m)) =
  match range_le_back m a with Some (k, v) => if a <? fin k v then [(k, v)] else [] | None => [] end
    ++ filter (λ kv, a < kv.1 ∧ kv.1 < b) (iter m).
Proof.
  intros Hwf Hab. f_equal.
  - destruct (range_le_back m a) as [[k v]|] eqn:Hr; [|done]. apply last_filter_Some in Hr as (_&Hk&_). cbn [fst] in Hk.
    rewrite filter_cons. cbn [fst snd]. destruct (Z.ltb_spec a (fin k v)); [by rewrite decide_True by lia|by rewrite decide_False by lia].
  - assert (Hin : ∀ kv, kv ∈ filter (λ kv, a < kv.1 ∧ kv.1 < b) (iter m) → kv.1 < b ∧ a < fin kv.1 kv.2).
    { intros [k v] [Hk Hx]%elem_of_filter_iter. pose proof (ew_full _ Hwf _ _ Hk). cbn [fst snd] in *. lia. }
    revert Hin. generalize (filter (λ kv, a < kv.1 ∧ kv.1 < b) (iter m)) as l. induction l as [|kv l IH]; intros Hin; [done|].
    rewrite filter_cons, decide_True by (apply Hin; by left). rewrite IH; [done|]. intros; apply Hin; by right.
Qed.

Lemma carve_resident_wf s a b m' : sparse_wf s → a < b → carved (extents s) a b m' → sparse_wf (with_extents s m').
Proof.
  intros Hs Hab Hc. pose proof (sw_resident s Hs) as Hwf. split; cbn [with_extents logical_size extents external_extents allocated_bytes resident_bytes].
  - apply Hs.
  - by apply (carved_wf (extents s) a b).
  - apply Hs.
  - by apply (carved_within (extents s) a b), Hs.
  - apply Hs.
  - intros x. rewrite (carved_at (extents s) a b) by done. case_decide; [by intros [? ?]|]. apply Hs.
  - apply Hs.
  - done.
  - done.
Qed.
Lemma carve_external_wf s a b m' : sparse_wf s → a < b → carved (external_extents s) a b m' → sparse_wf (with_externals s m').
Proof.
  intros Hs Hab Hc. pose proof (sw_external s Hs) as Hwf. split; cbn [with_externals logical_size extents external_extents allocated_bytes resident_bytes].
  - apply Hs.
  - apply Hs.
  - by apply (carved_wf (external_extents s) a b).
  - apply Hs.
  - by apply (carved_within (external_extents s) a b), Hs.
  - intros x Hx. rewrite (carved_at (external_extents s) a b) by done. case_decide; [done|]. by apply Hs.
  - intros k d. apply (carved_forall (λ _, source_ok) (external_extents s) a b); [|done|done|apply Hs].
    intros k0 v0 a0 b0. apply source_ok_cut.
  - done.
  - apply Hs.
Qed.
Lemma resident_bounds s k d : sparse_wf s → extents s !! k = Some d → 0 ≤ k ∧ fin k d ≤ logical_size s ∧ fin k d ≤ u64_max.
Proof. intros Hs Hk. destruct (sw_resident_in s Hs k d Hk). pose proof (sw_size s Hs). lia. Qed.
Lemma external_bounds s k d : sparse_wf s → external_extents s !! k = Some d → 0 ≤ k ∧ fin k d ≤ logical_size s ∧ fin k d ≤ u64_max.
Proof. intros Hs Hk. destruct (sw_external_in s Hs k d Hk). pose proof (sw_size s Hs). lia. Qed.

Lemma remove_resident_overlaps_spec s a b : sparse_wf s → a < b →
  ∃ m', remove_resident_overlaps s a b = Ok (with_extents s m') ∧ carved (extents s) a b m'.
Proof.
  intros Hs Hab. pose proof (sw_resident s Hs) as Hwf. destruct (overlapping_spec (extents s) a b Hwf Hab) as (l&Hl&Hol).
  destruct (carve_spec (extents s) a b l Hwf Hab Hol) as [Hfresh Hcarved].
  exists (inserts (fragments a b l) (deletes l.*1 (extents s))). split; [|done].
  specialize (Hl PosixError). unfold overlapping, range_between in Hl. unfold remove_resident_overlaps, range_between.
  rewrite (proj2 (Z.ltb_lt a b) Hab) in Hl |- *. rewrite Ok_bind in Hl.
  assert (Hin : ∀ kv, (extents s !! kv.1 = Some kv.2) → 0 ≤ kv.1 ∧ fin kv.1 kv.2 ≤ u64_max).
  { intros [k d] Hk. by destruct (resident_bounds s k d Hs Hk) as (?&?&?). }
  rewrite plan_overlaps_spec; [|done|].
  2: { intros kv Hkv. destruct (range_le_back (extents s) a) as [[k d]|] eqn:Hr; [|by apply not_elem_of_nil in Hkv].
       apply list_elem_of_singleton in Hkv as ->. apply last_filter_Some in Hr as [Hr _]. by apply Hin. }
  rewrite !Ok_bind, plan_overlaps_spec; [|done|].
  2: { intros [k d] [Hk _]%elem_of_filter_iter. by apply Hin. }
  rewrite Ok_bind. cbn [fst snd app]. unfold fragments at 1 2. rewrite <-fmap_app, <-concat_app, <-fmap_app, candidates_overlap by done.
  apply Ok_inj in Hl. rewrite Hl. fold (fragments a b l).
  destruct (drop_residents_spec s l.*1) as [-> Ha]; [by apply sparse_accounted|by apply (overlap_list_NoDup (extents s) a b)| |].
  { intros k ([k' d]&->&Hk)%list_elem_of_fmap. apply (ol_elem _ _ _ _ Hol) in Hk as [Hk _]. by exists d. }
  rewrite Ok_bind. destruct (add_residents_spec (with_extents s (deletes l.*1 (extents s))) (fragments a b l)) as [-> _];
    [done|by apply (fragments_NoDup (extents s))|done| |done].
  cbn [with_extents extents external_extents]. pose proof (carve_resident_wf s a b _ Hs Hab Hcarved) as Hs'.
  pose proof (sparse_bytes_le _ Hs') as Hle. cbn [with_extents extents external_extents logical_size] in Hle.
  pose proof (sw_size s Hs). lia.
Qed.
Lemma external_fragments_spec s l a b : sparse_wf s → a < b → (∀ kv, kv ∈ l → external_extents s !! kv.1 = Some kv.2 ∧ overlaps kv.1 kv.2 a b) →
  external_fragments (external_extents s) l.*1 a b = Ok (fragments a b l).
Proof.
  intros Hs Hab. induction l as [|[k d] l IH]; intros Hin; cbn [fmap list_fmap external_fragments]; [done|].
  destruct (Hin (k, d)) as [Hk Ho]; [by left|]. cbn [fst snd] in *. rewrite Hk. cbn [expect]. rewrite Ok_bind.
  destruct (external_bounds s k d Hs Hk) as (Hk0&_&Hf). pose proof (sw_sources s Hs k d Hk) as [Hfile Hso Hse _].
  pose proof (fo_size _ Hfile). unfold overlaps in Ho. pose proof (ew_full _ (sw_external s Hs) _ _ Hk) as Hfull. rewrite fin_external in Hf, Ho, Hfull.
  rewrite (checked_add_ok u64_max k) by lia. cbn [ok_or]. rewrite Ok_bind. unfold fragments in *. cbn [fmap list_fmap concat].
  cbv zeta. set (R := right_fragment b (k, d)).
  assert ((if b <? k + ext_length d then o ← ok_or (checked_add u64_max (source_offset d) (b - k)) Io;
     Ok [(b, {| source := source d; source_offset := o; ext_length := k + ext_length d - b; through_sequence := through_sequence d |})]
     else Ok (E := PosixError) []) = Ok R) as ->.
  { unfold R, right_fragment. cbn [fst snd]. rewrite fin_external. destruct (Z.ltb_spec b (k + ext_length d)); [|done].
    rewrite checked_add_ok by lia. cbn [ok_or]. rewrite Ok_bind. done. }
  rewrite Ok_bind, IH by (intros; apply Hin; by right). rewrite Ok_bind. rewrite <-app_assoc. do 2 f_equal.
  unfold left_fragment. cbn [fst snd]. destruct (k <? a); [|done]. unfold cut, external_extent. repeat f_equal. lia.
Qed.
Lemma remove_external_overlaps_spec s a b : sparse_wf s → a < b →
  ∃ m', remove_external_overlaps s a b = Ok (with_externals s m') ∧ carved (external_extents s) a b m'.
Proof.
  intros Hs Hab. pose proof (sw_external s Hs) as Hwf. destruct (overlapping_spec (external_extents s) a b Hwf Hab) as (l&Hl&Hol).
  destruct (carve_spec (external_extents s) a b l Hwf Hab Hol) as [Hfresh Hcarved].
  exists (inserts (fragments a b l) (deletes l.*1 (external_extents s))). split; [|done].
  assert (Hstarts : external_overlapping_starts (external_extents s) a b = Ok l.*1).
  { specialize (Hl PosixError). unfold overlapping, range_between in Hl. unfold external_overlapping_starts, range_between.
    rewrite (proj2 (Z.ltb_lt a b) Hab) in Hl |- *. rewrite Ok_bind in Hl. rewrite Ok_bind. apply Ok_inj in Hl as <-. rewrite fmap_app. do 2 f_equal.
    destruct (range_le_back (external_extents s) a) as [[k d]|] eqn:Hr; [|done]. apply last_filter_Some in Hr as (Hk&_&_).
    destruct (external_bounds s k d Hs Hk) as (?&_&Hf). rewrite fin_external in Hf |- *. unfold saturating_add.
    rewrite Z.min_r by lia. by destruct (_ <? _). }
  unfold remove_external_overlaps. rewrite Hstarts, Ok_bind, external_fragments_spec; [|done|done|].
  2: { intros [k d] Hk. by apply (ol_elem _ _ _ _ Hol). }
  rewrite Ok_bind. destruct (drop_externals_spec s l.*1) as [-> Ha]; [by apply sparse_accounted|by apply (overlap_list_NoDup (external_extents s) a b)| |].
  { intros k ([k' d]&->&Hk)%list_elem_of_fmap. apply (ol_elem _ _ _ _ Hol) in Hk as [Hk _]. by exists d. }
  rewrite Ok_bind. pose proof (carve_external_wf s a b _ Hs Hab Hcarved) as Hs'.
  destruct (add_externals_spec (with_externals s (deletes l.*1 (external_extents s))) (fragments a b l)) as [-> _];
    [done|by apply (fragments_NoDup (external_extents s))| | |done].
  - intros k d Hk. split; [by apply (Hfresh k d)|]. assert (Hk' : external_extents (with_externals s (inserts (fragments a b l) (deletes l.*1 (external_extents s)))) !! k = Some d).
    { cbn [with_externals external_extents]. apply Hcarved. right. by apply (elem_of_fragments _ a b l). }
    pose proof (ew_full _ (sw_external _ Hs') _ _ Hk') as Hd. rewrite fin_external in Hd. lia.
  - cbn [with_externals extents external_extents]. pose proof (sparse_bytes_le _ Hs') as Hle.
    cbn [with_externals extents external_extents logical_size] in Hle. pose proof (sw_size s Hs). lia.
Qed.

(** ** Assertions *)
Lemma extent_apart {V T} `{Extent V T} (m : gmap Z V) k v k' v' :
  extents_wf m → m !! k = Some v → m !! k' = Some v' → k < k' → fin k v ≤ k'.
Proof.
  intros Hwf Hk Hk' Hlt. destruct (Z.le_gt_cases (fin k v) k') as [|Hgt]; [done|]. pose proof (ew_full _ Hwf _ _ Hk').
  assert (k = k'); [|lia]. apply (ew_disjoint _ Hwf k v k' v' k'); unfold covers; (done || lia).
Qed.
Lemma head_filter_Some {V} (P : Z * V → Prop) `{∀ x, Decision (P x)} (m : gmap Z V) k v :
  head (filter P (iter m)) = Some (k, v) → m !! k = Some v ∧ P (k, v).
Proof.
  intros Hh. apply (elem_of_filter_iter P). destruct (filter P (iter m)) as [|x l]; [done|]. injection Hh as ->. by left.
Qed.
Lemma assert_extent_valid_ok s k d : sparse_wf s → extents s !! k = Some d → assert_extent_valid s k d = Ok ().
Proof.
  intros Hs Hk. destruct (resident_bounds s k d Hs Hk) as (Hk0&Hf&Hm). pose proof (sw_resident s Hs) as Hwf.
  pose proof (ew_full _ Hwf _ _ Hk) as Hfull. unfold assert_extent_valid.
  rewrite fin_resident in Hf, Hm, Hfull. rewrite (proj2 (Z.eqb_neq (resident_len d) 0)) by lia. cbn [negb assert_true].
  rewrite Ok_bind, checked_add_ok by lia. cbn [expect]. rewrite Ok_bind, (proj2 (Z.leb_le _ _)) by lia. cbn [assert_true]. rewrite Ok_bind.
  destruct (range_lt_back (extents s) k) as [[p pd]|] eqn:Hp.
  - apply last_filter_Some in Hp as (Hpk&Hlt&_). cbn [fst] in Hlt. pose proof (extent_apart _ _ _ _ _ Hwf Hpk Hk Hlt) as Hap.
    destruct (resident_bounds s p pd Hs Hpk) as (?&_&Hpm). rewrite fin_resident in Hap, Hpm.
    rewrite checked_add_ok by lia. cbn [expect]. rewrite Ok_bind, (proj2 (Z.leb_le _ _)) by lia. cbn [assert_true]. rewrite Ok_bind.
    destruct (head _) as [[n nd]|] eqn:Hn; [|done]. apply head_filter_Some in Hn as [Hnk Hnlt]. cbn [fst] in Hnlt.
    pose proof (extent_apart _ _ _ _ _ Hwf Hk Hnk Hnlt) as Hap'. rewrite fin_resident in Hap'. by rewrite (proj2 (Z.leb_le _ _)) by lia.
  - rewrite Ok_bind.
    destruct (head _) as [[n nd]|] eqn:Hn; [|done]. apply head_filter_Some in Hn as [Hnk Hnlt]. cbn [fst] in Hnlt.
    pose proof (extent_apart _ _ _ _ _ Hwf Hk Hnk Hnlt) as Hap'. rewrite fin_resident in Hap'. by rewrite (proj2 (Z.leb_le _ _)) by lia.
Qed.
Lemma assert_valid_around_ok s x : sparse_wf s → assert_valid_around s x = Ok ().
Proof.
  intros Hs. unfold assert_valid_around.
  assert (match range_le_back (extents s) x with Some (start, d) => assert_extent_valid s start d | None => Ok () end = Ok ()) as ->.
  { destruct (range_le_back (extents s) x) as [[k d]|] eqn:Hr; [|done]. apply last_filter_Some in Hr as [Hk _]. by apply assert_extent_valid_ok. }
  rewrite Ok_bind. unfold range_from. destruct (head _) as [[k d]|] eqn:Hh; [|done]. apply head_filter_Some in Hh as [Hk _].
  by apply assert_extent_valid_ok.
Qed.

(** ** The operations *)
Lemma set_size_wf s n : sparse_wf s → logical_size s ≤ n ≤ u64_max → sparse_wf (set_logical_size s n).
Proof.
  intros Hs Hn. pose proof (sw_size s Hs). destruct Hs. split; cbn [set_logical_size logical_size extents external_extents allocated_bytes resident_bytes]; try done.
  - lia.
  - eapply within_mono; [done|lia|lia].
  - eapply within_mono; [done|lia|lia].
Qed.
Lemma free_at {V T} `{Extent V T} (m : gmap Z V) a b x : extents_wf m → free m a b → a ≤ x < b → at_ m x = None.
Proof.
  intros Hwf Hf Hx. apply at_None; [done|]. intros k v Hk Hc. apply (Hf k v Hk). unfold covers, overlaps in *. lia.
Qed.
Lemma place_resident_wf s a d : sparse_wf s → 0 ≤ a → a < fin a d → fin a d ≤ u64_max →
  free (extents s) a (fin a d) → free (external_extents s) a (fin a d) →
  sparse_wf (set_logical_size (with_extents s (<[a := d]> (extents s))) (Z.max (logical_size s) (fin a d))).
Proof.
  intros Hs Ha Hf Hm Hr He. pose proof (sw_size s Hs). split; cbn [set_logical_size with_extents logical_size extents external_extents allocated_bytes resident_bytes].
  - lia.
  - apply insert_free_wf; [apply Hs|done|done].
  - apply Hs.
  - apply insert_within; [eapply within_mono; [apply Hs|lia|lia]|lia|lia].
  - eapply within_mono; [apply Hs|lia|lia].
  - intros x. rewrite insert_free_at; [|apply Hs|done|done]. case_decide; [|apply Hs]. intros _. by apply (free_at _ a (fin a d)); [apply Hs|..].
  - apply Hs.
  - done.
  - done.
Qed.
Lemma place_external_wf s a d : sparse_wf s → 0 ≤ a → a < fin a d → fin a d ≤ u64_max → source_ok d →
  free (extents s) a (fin a d) → free (external_extents s) a (fin a d) →
  sparse_wf (set_logical_size (with_externals s (<[a := d]> (external_extents s))) (Z.max (logical_size s) (fin a d))).
Proof.
  intros Hs Ha Hf Hm Hsrc Hr He. pose proof (sw_size s Hs). split; cbn [set_logical_size with_externals logical_size extents external_extents allocated_bytes resident_bytes].
  - lia.
  - apply Hs.
  - apply insert_free_wf; [apply Hs|done|done].
  - eapply within_mono; [apply Hs|lia|lia].
  - apply insert_within; [eapply within_mono; [apply Hs|lia|lia]|lia|lia].
  - intros x Hx. rewrite insert_free_at; [|apply Hs|done|done]. case_decide; [|by apply Hs]. rewrite (free_at (extents s) a (fin a d)) in Hx; [by destruct Hx|apply Hs|done|done].
  - intros k v [[<- <-]|[_ Hk]]%lookup_insert_Some; [done|by apply (sw_sources s Hs k)].
  - done.
  - apply Hs.
Qed.

(** The sequence numbers of the extents. *)
Definition stamped (P : Z → Prop) (s : SparseData) : Prop :=
  (∀ k d, extents s !! k = Some d → P (mutation_sequence d)) ∧
  (∀ k d, external_extents s !! k = Some d → P (through_sequence d)).
(** A range cleared of both kinds of extents. *)
Record cleared (s : SparseData) (a b : Z) (s' : SparseData) : Prop := {
  cl_wf : sparse_wf s';
  cl_size : logical_size s' = logical_size s;
  cl_resident : free (extents s') a b;
  cl_external : free (external_extents s') a b;
  cl_data x : data_at s' x = if decide (a ≤ x < b) then None else data_at s x;
  cl_stamped P : stamped P s → stamped P s';
}.
Lemma carved_cleared s a b m' n' : sparse_wf s → a < b → carved (extents s) a b m' → carved (external_extents s) a b n' →
  cleared s a b (with_externals (with_extents s m') n').
Proof.
  intros Hs Hab Hm Hn. pose proof (carve_resident_wf s a b m' Hs Hab Hm) as Hs1.
  pose proof (carve_external_wf (with_extents s m') a b n' Hs1 Hab Hn) as Hs2.
  split; [done|done| | | |].
  - by apply (carved_free (extents s)); [apply Hs|..].
  - by apply (carved_free (external_extents s)); [apply Hs|..].
  - intros x. unfold data_at. cbn [with_externals with_extents extents external_extents].
    rewrite (carved_at (extents s) a b) by (done || apply Hs). rewrite (carved_at (external_extents s) a b) by (done || apply Hs).
    by case_decide.
  - intros P [Hr He]. split; cbn [with_externals with_extents extents external_extents].
    + by apply (carved_forall (λ _ d, P (mutation_sequence d)) (extents s) a b).
    + by apply (carved_forall (λ _ d, P (through_sequence d)) (external_extents s) a b).
Qed.
Lemma clear_external_first s a b : sparse_wf s → a < b →
  ∃ s', (s ← remove_external_overlaps s a b; remove_resident_overlaps s a b) = Ok s' ∧ cleared s a b s'.
Proof.
  intros Hs Hab. destruct (remove_external_overlaps_spec s a b Hs Hab) as (n'&->&Hn). rewrite Ok_bind.
  pose proof (carve_external_wf s a b n' Hs Hab Hn) as Hs1.
  destruct (remove_resident_overlaps_spec _ a b Hs1 Hab) as (m'&->&Hm). cbn [with_externals extents] in Hm.
  eexists. split; [done|]. pose proof (carved_cleared s a b m' n' Hs Hab Hm Hn) as Hc. 
  assert (Heq : with_extents (with_externals s n') m' = with_externals (with_extents s m') n').
  { done. }
  by rewrite Heq.
Qed.
Lemma clear_resident_first s a b : sparse_wf s → a < b →
  ∃ s', (s ← remove_resident_overlaps s a b; remove_external_overlaps s a b) = Ok s' ∧ cleared s a b s'.
Proof.
  intros Hs Hab. destruct (remove_resident_overlaps_spec s a b Hs Hab) as (m'&->&Hm). rewrite Ok_bind.
  pose proof (carve_resident_wf s a b m' Hs Hab Hm) as Hs1.
  destruct (remove_external_overlaps_spec _ a b Hs1 Hab) as (n'&->&Hn). cbn [with_extents external_extents] in Hn.
  eexists. split; [done|]. by apply carved_cleared.
Qed.

(** What an operation makes of the data. *)
Record sparse_result (s s' : SparseData) (size : Z) (data : Z → option byte) (stamp : option Z) : Prop := {
  sr_wf : sparse_wf s';
  sr_size : logical_size s' = size;
  sr_data x : data_at s' x = data x;
  sr_stamped P : stamped P s → (∀ q, stamp = Some q → P q) → stamped P s';
}.
Definition payload_at (p : MutationPayload) (offset x : Z) : option byte :=
  if decide (offset ≤ x) then payload_bytes p !! Z.to_nat (x - offset) else None.

Lemma write_spec s offset p sequence : sparse_wf s → 0 ≤ offset → 0 < blen (payload_bytes p) →
  offset + blen (payload_bytes p) ≤ u64_max →
  ∃ s', write s offset p sequence = Ok s' ∧
    sparse_result s s' (Z.max (logical_size s) (offset + blen (payload_bytes p)))
      (λ x, match payload_at p offset x with Some b => Some b | None => data_at s x end) (Some sequence).
Proof.
  intros Hs Ho Hlen Hmax. unfold write. rewrite (proj2 (Z.eqb_neq _ _)) by lia. cbn [negb assert_true].
  rewrite Ok_bind, checked_add_ok by lia. cbn [ok_or]. rewrite Ok_bind. set (e := offset + blen (payload_bytes p)).
  destruct (clear_external_first s offset e Hs ltac:(lia)) as (s1&Heq&Hc).
  destruct (remove_external_overlaps s offset e) as [s0| |]; [|done|done]. rewrite Ok_bind in Heq. rewrite Ok_bind, Heq, Ok_bind.
  set (d := {| resident_payload := p; mutation_sequence := sequence |}).
  assert (Hfin : fin offset d = e) by done. pose proof (cl_wf _ _ _ _ Hc) as Hs1. pose proof (cl_size _ _ _ _ Hc) as Hsz.
  pose proof (cl_resident _ _ _ _ Hc) as Hfr. pose proof (cl_external _ _ _ _ Hc) as Hfe. rewrite <-Hfin in Hfr, Hfe.
  pose proof (place_resident_wf s1 offset d Hs1 Ho ltac:(lia) ltac:(lia) Hfr Hfe) as Hs2.
  destruct (add_resident_spec s1 offset d) as [-> _]; [by apply sparse_accounted|apply (free_lookup _ offset (fin offset d)); [apply Hs1|done|lia]| |].
  { pose proof (sparse_bytes_le _ Hs2) as Hle. cbn [set_logical_size with_extents logical_size extents external_extents] in Hle.
    rewrite extent_bytes_insert in Hle by (apply (free_lookup _ offset (fin offset d)); [apply Hs1|done|lia]).
    rewrite fin_resident in Hle. pose proof (sw_size _ Hs2) as Hsz2. cbn [set_logical_size logical_size] in Hsz2. rewrite fin_resident in Hsz2. lia. }
  rewrite Ok_bind. cbv zeta. rewrite !assert_valid_around_ok, !Ok_bind by done. eexists. split; [done|].
  split; [done|cbn [set_logical_size with_extents logical_size]; lia| |].
  2: { intros P [HPr HPe]%(cl_stamped _ _ _ _ Hc) HP. split; cbn [set_logical_size with_extents extents external_extents]; [|done].
       intros k d' [[<- <-]|[_ Hk]]%lookup_insert_Some; [by apply HP|by apply (HPr k)]. }
  intros x. unfold data_at at 1.
  cbn [set_logical_size with_extents extents external_extents]. rewrite insert_free_at; [|apply Hs1|done|lia].
  pose proof (cl_data _ _ _ _ Hc x) as Hx. unfold data_at at 1 in Hx. unfold payload_at. rewrite Hfin.
  destruct (decide (offset ≤ x < e)) as [Hin|Hin].
  - rewrite decide_True by lia. unfold val, resident_extent. cbn [d resident_payload].
    destruct (payload_bytes p !! Z.to_nat (x - offset)) eqn:Hb; [done|]. apply lookup_ge_None in Hb.
    change (blen (payload_bytes p)) with (Z.of_nat (length (payload_bytes p))) in *. unfold e in Hin. change (blen (payload_bytes p)) with (Z.of_nat (length (payload_bytes p))) in Hin. lia.
  - rewrite Hx. destruct (decide (offset ≤ x)); [|done]. rewrite lookup_ge_None_2; [done|].
    unfold e in Hin. change (blen (payload_bytes p)) with (Z.of_nat (length (payload_bytes p))) in Hin. lia.
Qed.

Lemma write_external_spec s offset file file_offset length sequence : sparse_wf s → file_ok file →
  0 ≤ offset → 0 ≤ file_offset → 0 < length → offset + length ≤ u64_max → file_offset + length ≤ file_logical_size file →
  (∀ x, file_offset ≤ x < file_offset + length → is_Some (file_at file x)) →
  ∃ s', write_external s offset file file_offset length sequence = Ok s' ∧
    sparse_result s s' (Z.max (logical_size s) (offset + length))
      (λ x, if decide (offset ≤ x < offset + length) then file_at file (file_offset + (x - offset)) else data_at s x)
      (Some sequence).
Proof.
  intros Hs Hfile Ho Hfo Hlen Hmax Hfit Hpres. unfold write_external. pose proof (fo_size _ Hfile) as Hfsz.
  rewrite (proj2 (Z.ltb_lt 0 length)) by lia. cbn [assert_true]. rewrite Ok_bind, !checked_add_ok by lia. cbn [ok_or].
  rewrite !Ok_bind, (proj2 (Z.ltb_ge (file_logical_size file) (file_offset + length))) by lia. rewrite or_else_Ok_false.
  rewrite (fo_range _ Hfile) by lia. rewrite ?Ok_bind. rewrite (count_all (file_present file)); [|lia|].
  2: { intros x Hx. apply bool_decide_true. apply Hpres. lia. }
  replace (file_offset + length - file_offset) with length by lia. rewrite Z.eqb_refl. cbn [negb reject_if]. rewrite ?Ok_bind.
  set (e := offset + length). destruct (clear_resident_first s offset e Hs ltac:(lia)) as (s1&Heq&Hc).
  destruct (remove_resident_overlaps s offset e) as [s0| |]; [|done|done]. rewrite Ok_bind in Heq. rewrite Ok_bind, Heq, Ok_bind.
  set (d := {| source := file; source_offset := file_offset; ext_length := length; through_sequence := sequence |}).
  assert (Hfin : fin offset d = e) by done. pose proof (cl_wf _ _ _ _ Hc) as Hs1. pose proof (cl_size _ _ _ _ Hc) as Hsz.
  pose proof (cl_resident _ _ _ _ Hc) as Hfr. pose proof (cl_external _ _ _ _ Hc) as Hfe. rewrite <-Hfin in Hfr, Hfe.
  assert (Hsrc : source_ok d) by (split; cbn [d source source_offset ext_length]; done || lia).
  pose proof (place_external_wf s1 offset d Hs1 Ho ltac:(lia) ltac:(lia) Hsrc Hfr Hfe) as Hs2.
  assert (Hnone : external_extents s1 !! offset = None) by (apply (free_lookup _ offset (fin offset d)); [apply Hs1|done|lia]).
  rewrite bool_decide_true by done. cbn [assert_true]. rewrite Ok_bind.
  pose proof (sparse_bytes_le _ Hs2) as Hle. cbn [set_logical_size with_externals logical_size extents external_extents] in Hle.
  rewrite extent_bytes_insert in Hle by done. rewrite fin_external in Hle. cbn [d ext_length] in Hle.
  pose proof (sw_size _ Hs2) as Hsz2. cbn [set_logical_size logical_size] in Hsz2. rewrite fin_external in Hsz2. cbn [d ext_length] in Hsz2.
  rewrite (sw_allocated s1 Hs1), checked_add_ok by lia. cbn [expect]. rewrite Ok_bind. cbv zeta.
  match goal with |- context [assert_valid_around ?s' offset] => assert (s' = set_logical_size (with_externals s1 (<[offset := d]> (external_extents s1))) (Z.max (logical_size s1) (fin offset d))) as -> end.
  { unfold set_logical_size, with_externals. cbn [logical_size allocated_bytes resident_bytes extents external_extents]. fold d. rewrite extent_bytes_insert by done. rewrite fin_external. cbn [d ext_length].
    f_equal. lia. }
  rewrite !assert_valid_around_ok, !Ok_bind by done. eexists. split; [done|].
  split; [done|cbn [set_logical_size with_externals logical_size]; lia| |].
  2: { intros P [HPr HPe]%(cl_stamped _ _ _ _ Hc) HP. split; cbn [set_logical_size with_externals extents external_extents]; [done|].
       intros k d' [[<- <-]|[_ Hk]]%lookup_insert_Some; [by apply HP|by apply (HPe k)]. }
  intros x. unfold data_at at 1.
  cbn [set_logical_size with_externals extents external_extents]. rewrite insert_free_at; [|apply Hs1|done|lia].
  pose proof (cl_data _ _ _ _ Hc x) as Hx. unfold data_at at 1 in Hx. rewrite Hfin.
  destruct (decide (offset ≤ x < e)) as [Hin|Hin].
  - rewrite (free_at (extents s1) offset (fin offset d)) by (done || apply Hs1). unfold val, external_extent. cbn [d source source_offset].
    unfold byte_at. destruct (Hpres (file_offset + (x - offset))) as [b Hb]; [lia|]. by rewrite Hb.
  - done.
Qed.
Lemma punch_spec s a b : sparse_wf s → a ≤ b →
  ∃ s', punch s a b = Ok s' ∧ sparse_result s s' (logical_size s) (λ x, if decide (a ≤ x < b) then None else data_at s x) None.
Proof.
  intros Hs Hab. unfold punch. rewrite (proj2 (Z.leb_le a b)) by lia. cbn [assert_true]. rewrite Ok_bind.
  destruct (Z.eqb_spec a b) as [->|Hne].
  { exists s. split; [done|]. split; [done|done| |done]. intros x. by rewrite decide_False by lia. }
  destruct (clear_resident_first s a b Hs ltac:(lia)) as (s1&Heq&Hc).
  destruct (remove_resident_overlaps s a b) as [s0| |]; [|done|done]. rewrite Ok_bind in Heq. rewrite Ok_bind, Heq, Ok_bind.
  destruct Hc as [Hs1 Hsz _ _ Hd Hst]. rewrite !assert_valid_around_ok, !Ok_bind by done. exists s1. split; [done|].
  split; [done|done|done|]. intros P HP _. by apply Hst.
Qed.
Lemma data_at_outside s x : sparse_wf s → ¬ 0 ≤ x < logical_size s → data_at s x = None.
Proof.
  intros Hs Hx. unfold data_at. rewrite (within_at (extents s) 0 (logical_size s)) by (done || apply Hs).
  by rewrite (within_at (external_extents s) 0 (logical_size s)) by (done || apply Hs).
Qed.
Lemma truncate_resident s n : sparse_wf s → 0 ≤ n < logical_size s →
  ∃ m', (crossing ← match range_lt_back (extents s) n with
               | Some (start, d) =>
                   end_ ← expect (checked_add u64_max start (resident_len d));
                   if n <? end_ then f ← resident_fragment d 0 (n - start); Ok [(start, f)] else Ok []
               | None => Ok []
               end;
    let remove := (range_from (extents s) n).*1 ++ crossing.*1 in
    s ← drop_residents s remove;
    add_residents s crossing) = Ok (with_extents s m') ∧ carved (extents s) n (logical_size s) m'.
Proof.
  intros Hs Hn. pose proof (sw_resident s Hs) as Hwf.
  destruct (truncate_spec (extents s) n (logical_size s) Hwf ltac:(lia)) as (Hnd&Hkeys&Hfnd&Hfresh&Hcarved).
  { intros k d Hk. by destruct (resident_bounds s k d Hs Hk) as (?&?&?). }
  set (frags := (λ kv, (kv.1, cut kv.1 kv.2 kv.1 n)) <$> crossing (extents s) n) in *.
  eexists. split; [|exact Hcarved]. cbv zeta in Hcarved |- *. fold frags in Hcarved |- *.
  assert (Hcr : match range_lt_back (extents s) n with
     | Some (start, d) => end_ ← expect (checked_add u64_max start (resident_len d));
        if n <? end_ then f ← resident_fragment d 0 (n - start); Ok [(start, f)] else Ok []
     | None => Ok (E := PosixError) [] end = Ok frags).
  { unfold frags, crossing. destruct (range_lt_back (extents s) n) as [[k d]|] eqn:Hr; [|done].
    apply last_filter_Some in Hr as (Hk&Hlt&_). cbn [fst] in Hlt. destruct (resident_bounds s k d Hs Hk) as (Hk0&_&Hf).
    rewrite fin_resident in Hf. rewrite checked_add_ok by lia. cbn [expect]. rewrite Ok_bind, <-fin_resident.
    destruct (Z.ltb_spec n (fin k d)); [|done]. by rewrite cut_left by lia. }
  rewrite Hcr, Ok_bind. assert (Hfr1 : frags.*1 = (crossing (extents s) n).*1) by (unfold frags; by rewrite <-list_fmap_compose).
  rewrite Hfr1. destruct (drop_residents_spec s ((range_from (extents s) n).*1 ++ (crossing (extents s) n).*1)) as [-> Ha];
    [by apply sparse_accounted|done|done|]. rewrite Ok_bind.
  destruct (add_residents_spec (with_extents s (deletes ((range_from (extents s) n).*1 ++ (crossing (extents s) n).*1) (extents s))) frags) as [-> _];
    [done|done|done| |done].
  cbn [with_extents extents external_extents]. pose proof (carve_resident_wf s n (logical_size s) _ Hs ltac:(lia) Hcarved) as Hs'.
  pose proof (sparse_bytes_le _ Hs') as Hle. cbn [with_extents extents external_extents logical_size] in Hle.
  pose proof (sw_size s Hs). lia.
Qed.
Lemma shrink_wf s n : sparse_wf s → 0 ≤ n ≤ logical_size s → free (extents s) n (logical_size s) →
  free (external_extents s) n (logical_size s) → sparse_wf (set_logical_size s n).
Proof.
  intros Hs Hn Hr He. pose proof (sw_size s Hs) as Hsz.
  split; cbn [set_logical_size logical_size extents external_extents allocated_bytes resident_bytes]; try apply Hs.
  - lia.
  - intros k d Hk. destruct (resident_bounds s k d Hs Hk) as (?&?&_). pose proof (Hr k d Hk) as Ho. unfold overlaps in Ho.
    pose proof (ew_full _ (sw_resident s Hs) _ _ Hk). lia.
  - intros k d Hk. destruct (external_bounds s k d Hs Hk) as (?&?&_). pose proof (He k d Hk) as Ho. unfold overlaps in Ho.
    pose proof (ew_full _ (sw_external s Hs) _ _ Hk). lia.
Qed.
Lemma truncate_sparse_spec s n : sparse_wf s → 0 ≤ n ≤ u64_max →
  ∃ s', truncate s n = Ok s' ∧ sparse_result s s' n (λ x, if decide (x < n) then data_at s x else None) None.
Proof.
  intros Hs Hn. unfold truncate. destruct (Z.leb_spec (logical_size s) n) as [Hle|Hlt].
  { eexists. split; [done|]. split; [by apply set_size_wf; [|lia]|done| |done]. intros x. change (data_at (set_logical_size s n) x) with (data_at s x).
    case_decide; [done|]. apply data_at_outside; [done|lia]. }
  unfold truncate_external. destruct (remove_external_overlaps_spec s n (logical_size s) Hs ltac:(lia)) as (n'&->&Hn'). rewrite Ok_bind.
  pose proof (carve_external_wf s n (logical_size s) n' Hs ltac:(lia) Hn') as Hs1.
  destruct (truncate_resident (with_externals s n') n Hs1) as (m'&Heq&Hm); [cbn [with_externals logical_size]; lia|].
  cbn [with_externals extents logical_size] in Hm. cbv zeta in Heq.
  pose proof (carved_cleared s n (logical_size s) m' n' Hs ltac:(lia) Hm Hn') as [Hwf Hsz Hfr Hfe Hd Hst].
  change (with_externals (with_extents s m') n') with (with_extents (with_externals s n') m') in *.
  set (s2 := with_extents (with_externals s n') m') in *. cbv zeta.
  destruct (match range_lt_back (extents (with_externals s n')) n with Some _ => _ | None => _ end) as [cr| |]; [|done|done].
  rewrite Ok_bind in Heq. rewrite Ok_bind. destruct (drop_residents (with_externals s n') _) as [s3| |]; [|done|done].
  rewrite Ok_bind in Heq. rewrite Ok_bind, Heq, Ok_bind. pose proof (shrink_wf s2 n Hwf ltac:(rewrite Hsz; lia)) as Hs4.
  rewrite Hsz in Hs4. specialize (Hs4 Hfr Hfe). rewrite assert_valid_around_ok, Ok_bind by done.
  eexists. split; [done|]. split; [done|done| |by intros P HP _; apply Hst]. intros x. change (data_at (set_logical_size s2 n) x) with (data_at s2 x). rewrite Hd.
  destruct (decide (n ≤ x < logical_size s)) as [Hin|Hin]; [by rewrite decide_False by lia|].
  destruct (decide (x < n)); [done|]. apply data_at_outside; [done|lia].
Qed.
End Files.
End SparseDataOps.
