(* ===== verification/RangeSet.v ===== *)
(** * Sets of holes ([RangeSet] of [fastdup-posix/src/versioned_file.rs])

    A map from the start to the end of each range; the ranges are nonempty,
    disjoint and not adjacent. *)
From S2P Require Export SparseDataOps.

Module RangeSet.
Import SparseData SparseDataOps.

(** [RangeSet::assert_valid] *)
Fixpoint assert_ranges (previous_end : Z) (l : list (Z * Z)) : presult () :=
  match l with
  | [] => Ok ()
  | (start, end_) :: l =>
      assert_true (start <? end_);;
      assert_true ((previous_end <? start) || (previous_end =? 0));;
      assert_ranges end_ l
  end.
Definition assert_valid (ranges : gmap Z Z) : presult () := assert_ranges 0 (iter ranges).
(** [RangeSet::overlapping_starts] *)
Definition overlapping_starts (ranges : gmap Z Z) (start end_ : Z) : presult (list Z) :=
  inside ← range_between ranges start end_;
  Ok (match range_le_back ranges start with
      | Some (candidate_start, candidate_end) => if start <? candidate_end then [candidate_start] else []
      | None => []
      end ++ inside.*1).
Fixpoint remove_keys (ranges : gmap Z Z) (keys : list Z) : presult (gmap Z Z) :=
  match keys with
  | [] => Ok ranges
  | key :: keys => assert_true (bool_decide (is_Some (ranges !! key)));; remove_keys (delete key ranges) keys
  end.
Definition insert_new (ranges : gmap Z Z) (start end_ : Z) : presult (gmap Z Z) :=
  assert_true (bool_decide (ranges !! start = None));; Ok (<[start := end_]> ranges).
Fixpoint insert_all (ranges : gmap Z Z) (l : list (Z * Z)) : presult (gmap Z Z) :=
  match l with
  | [] => Ok ranges
  | (start, end_) :: l => ranges ← insert_new ranges start end_; insert_all ranges l
  end.

(** The loop of [RangeSet::insert], which absorbs the ranges the merged one
    reaches; each round takes a range of its own. *)
Fixpoint absorb (fuel : nat) (ranges : gmap Z Z) (merged_start merged_end : Z) (remove : list Z) : presult (Z * list Z) :=
  match fuel with
  | O => Panic
  | S fuel =>
      match head (filter (λ kv, merged_start ≤ kv.1 ∧ kv.1 ∉ remove) (iter ranges)) with
      | Some (candidate_start, candidate_end) =>
          if merged_end <? candidate_start then Ok (merged_end, remove)
          else absorb fuel ranges merged_start (Z.max merged_end candidate_end) (remove ++ [candidate_start])
      | None => Ok (merged_end, remove)
      end
  end.
(** [RangeSet::insert] *)
Definition RangeSet_insert (ranges : gmap Z Z) (start end_ : Z) : presult (gmap Z Z) :=
  assert_true (start <=? end_);;
  if start =? end_ then Ok ranges
  else
    let '(merged_start, merged_end, remove) :=
      match range_le_back ranges start with
      | Some (previous_start, previous_end) =>
          if start <=? previous_end then (previous_start, Z.max end_ previous_end, [previous_start]) else (start, end_, [])
      | None => (start, end_, [])
      end in
    r ← absorb (S (size ranges)) ranges merged_start merged_end remove;
    ranges ← remove_keys ranges r.2;
    ranges ← insert_new ranges merged_start r.1;
    assert_valid ranges;;
    Ok ranges.
(** [RangeSet::remove] *)
Fixpoint hole_fragments (ranges : gmap Z Z) (keys : list Z) (start end_ : Z) : presult (list (Z * Z)) :=
  match keys with
  | [] => Ok []
  | key :: keys =>
      range_end ← expect (ranges !! key);
      rest ← hole_fragments ranges keys start end_;
      Ok ((if key <? start then [(key, start)] else []) ++ (if end_ <? range_end then [(end_, range_end)] else []) ++ rest)
  end.
Definition RangeSet_remove (ranges : gmap Z Z) (start end_ : Z) : presult (gmap Z Z) :=
  assert_true (start <=? end_);;
  if start =? end_ then Ok ranges
  else
    overlaps ← overlapping_starts ranges start end_;
    fragments ← hole_fragments ranges overlaps start end_;
    ranges ← remove_keys ranges overlaps;
    ranges ← insert_all ranges fragments;
    assert_valid ranges;;
    Ok ranges.
(** [RangeSet::truncate] *)
Definition RangeSet_truncate (ranges : gmap Z Z) (length : Z) : presult (gmap Z Z) :=
  let crossing := match range_lt_back ranges length with
                  | Some (start, end_) => if length <? end_ then [(start, length)] else []
                  | None => []
                  end in
  ranges ← remove_keys ranges ((range_from ranges length).*1 ++ crossing.*1);
  ranges ← insert_all ranges crossing;
  assert_valid ranges;;
  Ok ranges.

(** ** Ranges as extents *)
#[global] Instance range_extent : Extent Z unit := { fin k e := e; val k e x := tt; cut k e a b := b }.
#[global] Instance range_extent_laws : ExtentLaws Z unit.
Proof. by split. Qed.
Lemma fin_range k (e : Z) : fin k e = e.
Proof. done. Qed.

Record ranges_wf (m : gmap Z Z) : Prop := {
  rw_full k e : m !! k = Some e → 0 ≤ k < e;
  rw_apart k e k' e' : m !! k = Some e → m !! k' = Some e' → k < k' → e < k';
}.
Lemma ranges_extents m : ranges_wf m → extents_wf m.
Proof.
  intros [Hf Ha]. split.
  - intros k e Hk. rewrite fin_range. specialize (Hf k e Hk). lia.
  - intros k1 e1 k2 e2 x Hk1 Hk2 Hx1 Hx2. unfold covers in *. rewrite fin_range in Hx1, Hx2.
    destruct (Z.lt_trichotomy k1 k2) as [Hlt|[?|Hlt]]; [|done|].
    + pose proof (Ha _ _ _ _ Hk1 Hk2 Hlt). lia.
    + pose proof (Ha _ _ _ _ Hk2 Hk1 Hlt). lia.
Qed.
Lemma present_spec m x : ranges_wf m → present m x = true ↔ ∃ k e, m !! k = Some e ∧ k ≤ x < e.
Proof.
  intros Hm. unfold present. rewrite bool_decide_eq_true. split.
  - intros [t Ht]. apply at_Some in Ht as (k&e&Hk&Hc&_); [|by apply ranges_extents]. by exists k, e.
  - intros (k&e&Hk&Hx). exists tt. apply at_Some; [by apply ranges_extents|]. by exists k, e.
Qed.
Lemma ranges_empty : ranges_wf ∅.
Proof. split; intros *; by rewrite lookup_empty. Qed.
Lemma assert_valid_ok m : ranges_wf m → assert_valid m = Ok ().
Proof.
  intros [Hf Ha]. unfold assert_valid.
  assert (Hin : ∀ k e, (k, e) ∈ iter m → m !! k = Some e) by (intros k e; apply elem_of_iter).
  assert (Hp : ∀ p, p = 0 ∨ (∀ k e, (k, e) ∈ iter m → p < k) → assert_ranges p (iter m) = Ok ()); [|apply Hp; by left].
  pose proof (iter_sorted m) as Hs. induction Hs as [|[k e] l _ IH Hx]; intros p Hp; [done|]. cbn [assert_ranges].
  assert (Hk : m !! k = Some e) by (apply Hin; by left). pose proof (Hf k e Hk).
  rewrite (proj2 (Z.ltb_lt k e)) by lia. cbn [assert_true]. rewrite Ok_bind.
  assert ((p <? k) || (p =? 0) = true) as ->.
  { apply orb_true_iff. rewrite Z.ltb_lt, Z.eqb_eq. destruct Hp as [?|Hp]; [by right|]. left. apply (Hp k e). by left. }
  cbn [assert_true]. rewrite Ok_bind. apply IH; [intros; apply Hin; by right|]. right. intros k' e' Hk'.
  rewrite list.Forall_forall in Hx. specialize (Hx _ Hk'). cbn [fst] in Hx. eapply Ha; [exact Hk| |done]. apply Hin. by right.
Qed.
Lemma remove_keys_ok m keys : NoDup keys → (∀ k, k ∈ keys → is_Some (m !! k)) → remove_keys m keys = Ok (deletes keys m).
Proof.
  revert m. induction keys as [|k keys IH]; intros m Hnd Hin; cbn [remove_keys]; [done|]. apply NoDup_cons in Hnd as [Hnot Hnd].
  rewrite bool_decide_true by (apply Hin; by left). cbn [assert_true]. rewrite Ok_bind. apply IH; [done|].
  intros k' Hk'. rewrite lookup_delete_ne by (by intros ->). apply Hin. by right.
Qed.
Lemma insert_all_ok m l : NoDup l.*1 → (∀ k e, (k, e) ∈ l → m !! k = None) → insert_all m l = Ok (inserts l m).
Proof.
  revert m. induction l as [|[k e] l IH]; intros m Hnd Hin; cbn [insert_all]; [done|]. cbn [fmap list_fmap fst] in Hnd.
  apply NoDup_cons in Hnd as [Hnot Hnd]. unfold insert_new. rewrite bool_decide_true by (apply (Hin k e); by left).
  cbn [assert_true]. rewrite !Ok_bind. apply IH; [done|]. intros k' e' Hk'. rewrite lookup_insert_ne; [apply (Hin k' e'); by right|].
  intros ->. apply Hnot. by apply (list_elem_of_fmap_2 fst _ (k', e')).
Qed.
Lemma overlapping_starts_ok m a b : ranges_wf m → a < b →
  ∃ l, overlapping_starts m a b = Ok l.*1 ∧ overlap_list m a b l.
Proof.
  intros Hm Hab. destruct (overlapping_spec m a b (ranges_extents m Hm) Hab) as (l&Hl&Hol). exists l. split; [|done].
  specialize (Hl PosixError). unfold overlapping, range_between in Hl. unfold overlapping_starts, range_between.
  rewrite (proj2 (Z.ltb_lt a b) Hab) in Hl |- *. rewrite Ok_bind in Hl. rewrite Ok_bind. apply Ok_inj in Hl as <-. rewrite fmap_app. do 2 f_equal.
  destruct (range_le_back m a) as [[k e]|]; [|done]. rewrite fin_range. by destruct (_ <? _).
Qed.

(** ** Removing *)
Lemma carved_ranges m a b m' : ranges_wf m → 0 ≤ b → a < b → carved m a b m' → ranges_wf m'.
Proof.
  intros Hm Hb Hab Hc. pose proof (ranges_extents m Hm) as Hwf. split.
  - intros k e Hk. destruct (carved_piece m a b m' k e) as (i&u&Hi&?&Hf&?&_&_); [done..|]. rewrite fin_range in Hf.
    pose proof (rw_full m Hm i u Hi). lia.
  - intros k e k' e' Hk Hk' Hlt. destruct (carved_piece m a b m' k e) as (i&u&Hi&?&Hf&Hfu&_&H1); [done..|].
    destruct (carved_piece m a b m' k' e') as (j&w&Hj&?&Hf'&?&_&H2); [done..|]. rewrite !fin_range in *.
    destruct (Z.lt_trichotomy i j) as [Hij|[->|Hij]].
    + pose proof (rw_apart m Hm _ _ _ _ Hi Hj Hij). lia.
    + simplify_eq. unfold overlaps in *. rewrite !fin_range in *. lia.
    + pose proof (rw_apart m Hm _ _ _ _ Hj Hi Hij). lia.
Qed.
Lemma hole_fragments_ok m l a b : (∀ kv, kv ∈ l → m !! kv.1 = Some kv.2) → hole_fragments m l.*1 a b = Ok (fragments a b l).
Proof.
  induction l as [|[k e] l IH]; intros Hin; cbn [fmap list_fmap hole_fragments]; [done|].
  pose proof (Hin (k, e) ltac:(by left)) as Hk. cbn [fst snd] in *. rewrite Hk. cbn [expect]. rewrite Ok_bind.
  rewrite IH by (intros; apply Hin; by right). rewrite Ok_bind. unfold fragments. cbn [fmap list_fmap concat]. by rewrite <-app_assoc.
Qed.
Lemma carved_present m a b m' x : ranges_wf m → a < b → carved m a b m' →
  present m' x = if decide (a ≤ x < b) then false else present m x.
Proof. intros Hm Hab Hc. unfold present. rewrite (carved_at m a b) by (done || by apply ranges_extents). by case_decide. Qed.
Lemma RangeSet_remove_spec m a b : ranges_wf m → 0 ≤ a ≤ b →
  ∃ m', RangeSet_remove m a b = Ok m' ∧ ranges_wf m' ∧ ∀ x, present m' x = if decide (a ≤ x < b) then false else present m x.
Proof.
  intros Hm Hab. unfold RangeSet_remove. rewrite (proj2 (Z.leb_le a b)) by lia. cbn [assert_true]. rewrite Ok_bind.
  destruct (Z.eqb_spec a b) as [->|Hne].
  { exists m. split_and!; [done|done|]. intros x. by rewrite decide_False by lia. }
  assert (Hlt : a < b) by lia. destruct (overlapping_starts_ok m a b Hm Hlt) as (l&->&Hol). rewrite Ok_bind.
  pose proof (ranges_extents m Hm) as Hwf. destruct (carve_spec m a b l Hwf Hlt Hol) as [Hfresh Hc].
  assert (Hin : ∀ kv, kv ∈ l → m !! kv.1 = Some kv.2) by (intros [k e] Hk%(ol_elem _ _ _ _ Hol); by destruct Hk).
  rewrite hole_fragments_ok, Ok_bind by done. rewrite remove_keys_ok; [|by apply (overlap_list_NoDup m a b)|].
  2: { intros k ([k' e]&->&Hk)%list_elem_of_fmap. apply Hin in Hk. by eexists. }
  rewrite Ok_bind, insert_all_ok; [|by apply (fragments_NoDup m)|done]. rewrite Ok_bind.
  pose proof (carved_ranges m a b _ Hm ltac:(lia) Hlt Hc) as Hm'. rewrite assert_valid_ok, Ok_bind by done.
  eexists. split_and!; [done|done|]. intros x. by apply carved_present.
Qed.
Lemma RangeSet_truncate_spec m n hi : ranges_wf m → within m 0 hi → 0 ≤ n →
  ∃ m', RangeSet_truncate m n = Ok m' ∧ ranges_wf m' ∧ within m' 0 n ∧ ∀ x, present m' x = if decide (x < n) then present m x else false.
Proof.
  intros Hm Hw Hn. pose proof (ranges_extents m Hm) as Hwf. set (h := Z.max hi n + 1).
  destruct (truncate_spec m n h Hwf ltac:(lia)) as (Hnd&Hkeys&Hfnd&Hfresh&Hc).
  { intros k e Hk. destruct (Hw k e Hk). lia. }
  set (frags := (λ kv, (kv.1, cut kv.1 kv.2 kv.1 n)) <$> crossing m n) in *. cbv zeta in Hc. fold frags in Hc.
  assert (Hfr1 : frags.*1 = (crossing m n).*1) by (unfold frags; by rewrite <-list_fmap_compose).
  unfold RangeSet_truncate.
  assert (match range_lt_back m n with Some (start, end_) => if n <? end_ then [(start, n)] else [] | None => [] end = frags) as ->.
  { unfold frags, crossing. destruct (range_lt_back m n) as [[k e]|]; [|done]. rewrite fin_range. by destruct (_ <? _). }
  cbv zeta. rewrite Hfr1, remove_keys_ok, Ok_bind by done. rewrite insert_all_ok, Ok_bind by done.
  pose proof (carved_ranges m n h _ Hm ltac:(lia) ltac:(lia) Hc) as Hm'. rewrite assert_valid_ok, Ok_bind by done.
  eexists. split_and!; [done|done| |].
  - intros k e Hk. pose proof (rw_full _ Hm' k e Hk). destruct (carved_within m n h _ 0 hi Hwf ltac:(lia) Hc Hw k e Hk) as [_ Hhi].
    pose proof (carved_free m n h _ Hwf ltac:(lia) Hc k e Hk) as Hf. unfold overlaps in Hf. rewrite fin_range in *. lia.
  - intros x. rewrite (carved_present m n h) by (done || lia). destruct (decide (n ≤ x < h)) as [Hx|Hx]; [by rewrite decide_False by lia|].
    destruct (decide (x < n)); [done|]. unfold present. apply bool_decide_false. rewrite (within_at m 0 hi) by (done || lia). by intros [? ?].
Qed.

(** ** Inserting *)
Lemma head_filter_least (P : Z * Z → Prop) `{∀ x, Decision (P x)} (m : gmap Z Z) k e :
  head (filter P (iter m)) = Some (k, e) → ∀ k' e', m !! k' = Some e' → P (k', e') → k ≤ k'.
Proof.
  intros Hh k' e' Hk' HP. assert (Hin : (k', e') ∈ filter P (iter m)) by (by apply (elem_of_filter_iter P)).
  pose proof (filter_sorted P m) as Hs. destruct (filter P (iter m)) as [|x l]; [done|]. injection Hh as ->.
  apply elem_of_cons in Hin as [Heq|Hin]; [simplify_eq; lia|]. apply StronglySorted_inv in Hs as [_ Hx].
  rewrite list.Forall_forall in Hx. specialize (Hx _ Hin). cbn [fst] in Hx. lia.
Qed.
Lemma head_filter_None (P : Z * Z → Prop) `{∀ x, Decision (P x)} (m : gmap Z Z) k e :
  head (filter P (iter m)) = None → m !! k = Some e → ¬ P (k, e).
Proof.
  intros Hh Hk HP. assert (Hin : (k, e) ∈ filter P (iter m)) by (by apply (elem_of_filter_iter P)).
  destruct (filter P (iter m)); [by apply not_elem_of_nil in Hin|done].
Qed.
Lemma keys_bound (m : gmap Z Z) (keys : list Z) : NoDup keys → (∀ k, k ∈ keys → is_Some (m !! k)) → (length keys ≤ size m)%nat.
Proof.
  intros Hnd Hin. rewrite <-size_dom. assert (Hsub : list_to_set keys ⊆ dom m).
  { intros k Hk%elem_of_list_to_set. apply elem_of_dom. by apply Hin. }
  apply subseteq_size in Hsub. by rewrite size_list_to_set in Hsub.
Qed.
(** The merged range and the ranges it has absorbed. *)
Record absorbed (m : gmap Z Z) (a b ms me : Z) (keys : list Z) : Prop := {
  ab_nodup : NoDup keys;
  ab_keys k : k ∈ keys → ∃ e, m !! k = Some e ∧ ms ≤ k;
  ab_order : ms ≤ a ∧ b ≤ me;
  ab_cover x : ms ≤ x < me ↔ a ≤ x < b ∨ ∃ k e, k ∈ keys ∧ m !! k = Some e ∧ k ≤ x < e;
}.
Lemma absorb_spec fuel m a b ms me keys : ranges_wf m → a < b → absorbed m a b ms me keys → (size m < fuel + length keys)%nat →
  ∃ me' keys', absorb fuel m ms me keys = Ok (me', keys') ∧ absorbed m a b ms me' keys' ∧
    ∀ k e, m !! k = Some e → ms ≤ k → k ∉ keys' → me' < k.
Proof.
  intros Hm Hab. revert me keys. induction fuel as [|fuel IH]; intros me keys Hi Hfuel; cbn [absorb].
  { pose proof (keys_bound m keys (ab_nodup _ _ _ _ _ _ Hi)) as Hb. exfalso. destruct Hi as [? Hk ? ?].
    assert (length keys ≤ size m)%nat; [apply Hb|lia]. intros k Hin. destruct (Hk k Hin) as (e&?&_). by exists e. }
  destruct (head _) as [[k e]|] eqn:Hh.
  2: { exists me, keys. split_and!; [done|done|]. intros k e Hk Hms Hnot. exfalso.
       by apply (head_filter_None _ m k e Hh Hk). }
  destruct (head_filter_Some _ _ _ _ Hh) as [Hk [Hms Hnot]]. cbn [fst] in Hms, Hnot. pose proof (head_filter_least _ m k e Hh) as Hleast.
  destruct (Z.ltb_spec me k).
  { exists me, keys. split_and!; [done|done|]. intros k' e' Hk' Hms' Hnot'. specialize (Hleast k' e' Hk' (conj Hms' Hnot')). lia. }
  apply IH; [|rewrite length_app; cbn [length]; lia]. destruct Hi as [Hnd Hkeys Ho Hcov]. pose proof (rw_full m Hm k e Hk). split.
  - apply NoDup_app. split_and!; [done| |repeat constructor; apply not_elem_of_nil]. by intros k' Hk' ->%list_elem_of_singleton.
  - intros k' [Hk'|Hk'%list_elem_of_singleton]%elem_of_app; [by apply Hkeys|]. subst. by exists e.
  - lia.
  - intros x. split.
    + intros Hx. destruct (decide (x < me)) as [Hlt|Hge].
      * destruct (proj1 (Hcov x) ltac:(lia)) as [?|(k'&e'&Hin&Hk'&Hx')]; [by left|]. right. exists k', e'. split_and!; [|done|lia|lia].
        apply elem_of_app. by left.
      * right. exists k, e. split_and!; [|done|lia|lia]. apply elem_of_app. right. by left.
    + intros [Hx|(k'&e'&[Hin|Hin%list_elem_of_singleton]%elem_of_app&Hk'&Hx)].
      * specialize (proj2 (Hcov x) (or_introl Hx)). lia.
      * assert (ms ≤ x < me); [apply Hcov; right; by exists k', e'|lia].
      * simplify_eq. lia.
Qed.
Lemma absorbed_merge m a b ms me keys : ranges_wf m → 0 ≤ ms → a < b → absorbed m a b ms me keys →
  (∀ k e, m !! k = Some e → k < ms → e < ms) → (∀ k e, m !! k = Some e → ms ≤ k → k ∉ keys → me < k) →
  deletes keys m !! ms = None ∧ ranges_wf (<[ms := me]> (deletes keys m)) ∧
  ∀ x, present (<[ms := me]> (deletes keys m)) x = if decide (a ≤ x < b) then true else present m x.
Proof.
  intros Hm H0 Hab [Hnd Hkeys Ho Hcov] Hbelow Habove.
  assert (Hnone : deletes keys m !! ms = None).
  { destruct (deletes keys m !! ms) as [e|] eqn:He; [|done]. exfalso. apply lookup_deletes in He as [He Hnot].
    specialize (Habove ms e He ltac:(lia) Hnot). lia. }
  assert (Hm' : ranges_wf (<[ms := me]> (deletes keys m))).
  { split.
    - intros k e [[<- <-]|[_ [Hk _]%lookup_deletes]]%lookup_insert_Some; [lia|by apply (rw_full m Hm)].
    - intros k e k' e' [[<- <-]|[_ [Hk Hn]%lookup_deletes]]%lookup_insert_Some [[<- <-]|[_ [Hk' Hn']%lookup_deletes]]%lookup_insert_Some Hlt.
      + lia.
      + apply (Habove k' e' Hk'); [lia|done].
      + by apply (Hbelow k e Hk).
      + by apply (rw_apart m Hm k e k' e'). }
  split_and!; [done|done|]. intros x. apply eq_true_iff_eq. rewrite present_spec by done.
  assert (Hcase : (∃ k e, <[ms := me]> (deletes keys m) !! k = Some e ∧ k ≤ x < e) ↔
    ms ≤ x < me ∨ ∃ k e, m !! k = Some e ∧ (k ∉ keys) ∧ k ≤ x < e).
  { split.
    - intros (k&e&[[<- <-]|[_ [Hk Hn]%lookup_deletes]]%lookup_insert_Some&Hx); [by left|right; by exists k, e].
    - intros [Hx|(k&e&Hk&Hn&Hx)]; [exists ms, me; split; [apply lookup_insert_eq|done]|].
      exists k, e. split; [|done]. apply lookup_insert_Some. right. split; [|by apply lookup_deletes].
      intros ->. assert (deletes keys m !! k = Some e) by (by apply lookup_deletes). congruence. }
  rewrite Hcase, Hcov. destruct (decide (a ≤ x < b)) as [Hx|Hx]; [split; [done|by left; left]|]. rewrite present_spec by done. split.
  - intros [[?|(k&e&_&Hk&?)]|(k&e&Hk&_&?)]; [lia|by exists k, e|by exists k, e].
  - intros (k&e&Hk&He). destruct (decide (k ∈ keys)); [left; right; by exists k, e|right; by exists k, e].
Qed.
Lemma RangeSet_insert_spec m a b : ranges_wf m → 0 ≤ a ≤ b →
  ∃ m', RangeSet_insert m a b = Ok m' ∧ ranges_wf m' ∧ ∀ x, present m' x = if decide (a ≤ x < b) then true else present m x.
Proof.
  intros Hm Hab. unfold RangeSet_insert. rewrite (proj2 (Z.leb_le a b)) by lia. cbn [assert_true]. rewrite Ok_bind.
  destruct (Z.eqb_spec a b) as [->|Hne].
  { exists m. split_and!; [done|done|]. intros x. by rewrite decide_False by lia. }
  assert (Hlt : a < b) by lia.
  set (p := match range_le_back m a with
      | Some (ps, pe) => if a <=? pe then (ps, Z.max b pe, [ps]) else (a, b, [])
      | None => (a, b, []) end).
  assert (Hp : absorbed m a b p.1.1 p.1.2 p.2 ∧ 0 ≤ p.1.1 ∧ ∀ k e, m !! k = Some e → k < p.1.1 → e < p.1.1).
  { assert (Hsimple : absorbed m a b a b []).
    { split; [constructor|by intros k ?%not_elem_of_nil|lia|]. intros x. split; [by left|]. intros [?|(?&?&Hin&_)]; [done|by apply not_elem_of_nil in Hin]. }
    unfold p. destruct (range_le_back m a) as [[ps pe]|] eqn:Hr.
    - apply last_filter_Some in Hr as (Hk&Hle&Hmax). cbn [fst] in Hle. pose proof (rw_full m Hm ps pe Hk).
      destruct (Z.leb_spec a pe) as [Hape|Hape]; cbn [fst snd].
      + split_and!; [|lia|].
        * split; [repeat constructor; apply not_elem_of_nil| |lia|].
          -- intros k ->%list_elem_of_singleton. exists pe. split; [done|lia].
          -- intros x. split.
             ++ intros Hx. destruct (decide (x < pe)); [right; exists ps, pe; split_and!; [by left|done|lia|lia]|left; lia].
             ++ intros [?|(k&e&->%list_elem_of_singleton&Hk'&?)]; [lia|simplify_eq; lia].
        * intros k e Hk' Hlt'. by apply (rw_apart m Hm k e ps pe).
      + split_and!; [done|lia|]. intros k e Hk' Hlt'. destruct (decide (k = ps)) as [->|Hn]; [simplify_eq; lia|].
        pose proof (Hmax k e Hk' ltac:(cbn [fst]; lia)). pose proof (rw_apart m Hm k e ps pe Hk' Hk ltac:(lia)). lia.
    - split_and!; [done|cbn [fst]; lia|]. intros k e Hk Hlt'. unfold range_le_back in Hr. rewrite last_filter_None in Hr. destruct (Hr k e Hk). cbn [fst] in *. lia. }
  fold p. destruct p as [[ms me] keys]. cbn [fst snd] in Hp. destruct Hp as (Hi&H0&Hbelow).
  destruct (absorb_spec (S (size m)) m a b ms me keys Hm Hlt Hi ltac:(lia)) as (me'&keys'&->&Hi'&Habove). rewrite Ok_bind. cbn [fst snd].
  destruct (absorbed_merge m a b ms me' keys' Hm H0 Hlt Hi' Hbelow Habove) as (Hnone&Hm'&Hx).
  rewrite remove_keys_ok; [|apply Hi'|]. 2: { intros k Hk. destruct (ab_keys _ _ _ _ _ _ Hi' k Hk) as (e&?&_). by exists e. }
  rewrite Ok_bind. unfold insert_new. rewrite bool_decide_true by done. cbn [assert_true]. rewrite !Ok_bind, assert_valid_ok, Ok_bind by done.
  eexists. split_and!; done.
Qed.
End RangeSet.
