(* ===== verification/DirtyEpoch.v ===== *)
(** * Dirty epochs ([DirtyEpoch] of [fastdup-posix/src/versioned_file.rs])

    The changes of a file between two commits: its dirty data, the holes made
    over older layers, its size and the sequence numbers of the mutations. *)
From S2P Require Export RangeSet.

Module DirtyEpoch.
Import SparseData SparseDataOps RangeSet.

(** ** Built-in files *)

(** [ZeroCommittedFile] and [EmptyCommittedFile]; the identity is the one of
    the new allocation *)
Definition zero_range_bytes (length offset n : Z) : Z := Z.min (saturating_add u64_max offset n) length - Z.min offset length.
Definition ZeroCommittedFile (id length : Z) : CommittedFile :=
  {| file_id := id; file_logical_size := length; file_allocated_bytes := length;
     allocated_bytes_in_range offset n := Ok (zero_range_bytes length offset n);
     read_segments_at offset n := Ok [zeros (zero_range_bytes length offset n)];
     shared_read_source := None |}.
Definition EmptyCommittedFile (id : Z) : CommittedFile :=
  {| file_id := id; file_logical_size := 0; file_allocated_bytes := 0; allocated_bytes_in_range _ _ := Ok 0;
     read_segments_at _ _ := Ok [[]]; shared_read_source := None |}.

(** ** State *)
Record CloneCoverage := { end_offset : Z; extents_left : Z }.
Record DirtyEpoch := {
  base_size : Z;
  result_size : Z;
  base_sequence : Z;
  last_sequence : Z;
  first_sequence : option Z;
  data : SparseData;
  holes : gmap Z Z;
  append_metadata_covered_end : option Z;
  clone_metadata_coverage : option CloneCoverage;
}.
Definition new (size sequence : Z) : DirtyEpoch :=
  {| base_size := size; result_size := size; base_sequence := sequence; last_sequence := sequence; first_sequence := None;
     data := sparse_default size; holes := ∅; append_metadata_covered_end := None; clone_metadata_coverage := None |}.
Definition set_contents (e : DirtyEpoch) (size : Z) (s : SparseData) (ranges : gmap Z Z) : DirtyEpoch :=
  {| base_size := base_size e; result_size := size; base_sequence := base_sequence e; last_sequence := last_sequence e;
     first_sequence := first_sequence e; data := s; holes := ranges;
     append_metadata_covered_end := append_metadata_covered_end e; clone_metadata_coverage := clone_metadata_coverage e |}.

(** ** Sequence numbers and assertions *)
Definition assert_next_sequence (e : DirtyEpoch) (sequence : Z) : presult () :=
  next ← expect (checked_add u64_max (last_sequence e) 1);
  assert_true (sequence =? next).
Definition record_sequence (e : DirtyEpoch) (sequence : Z) : DirtyEpoch :=
  {| base_size := base_size e; result_size := result_size e; base_sequence := base_sequence e; last_sequence := sequence;
     first_sequence := Some (default sequence (first_sequence e)); data := data e; holes := holes e;
     append_metadata_covered_end := append_metadata_covered_end e; clone_metadata_coverage := clone_metadata_coverage e |}.
Definition assert_epoch_valid (e : DirtyEpoch) : presult () :=
  assert_true (logical_size (data e) =? result_size e);;
  assert_true (base_sequence e <=? last_sequence e);;
  assert_true (Bool.eqb (bool_decide (is_Some (first_sequence e))) (negb (last_sequence e =? base_sequence e)));;
  assert_true (allocated_bytes (data e) <=? result_size e).

(** ** Mutations *)
Definition insert_gap (ranges : gmap Z Z) (previous_size offset : Z) : presult (gmap Z Z) :=
  if previous_size <? offset then RangeSet_insert ranges previous_size offset else Ok ranges.
Definition epoch_write (e : DirtyEpoch) (offset : Z) (p : MutationPayload) (sequence : Z) : presult DirtyEpoch :=
  assert_true (negb (blen (payload_bytes p) =? 0));;
  assert_next_sequence e sequence;;
  end_ ← ok_or (checked_add u64_max offset (blen (payload_bytes p))) FileTooLarge;
  s ← write (data e) offset p sequence;
  ranges ← insert_gap (holes e) (result_size e) offset;
  ranges ← RangeSet_remove ranges offset end_;
  let e := record_sequence (set_contents e (Z.max (result_size e) end_) s ranges) sequence in
  assert_epoch_valid e;;
  Ok e.
Definition epoch_clone_range (e : DirtyEpoch) (offset : Z) (file : CommittedFile) (file_offset length sequence : Z)
    : presult DirtyEpoch :=
  assert_true (0 <? length);;
  assert_next_sequence e sequence;;
  end_ ← ok_or (checked_add u64_max offset length) FileTooLarge;
  s ← write_external (data e) offset file file_offset length sequence;
  ranges ← insert_gap (holes e) (result_size e) offset;
  ranges ← RangeSet_remove ranges offset end_;
  let e := record_sequence (set_contents e (Z.max (result_size e) end_) s ranges) sequence in
  assert_epoch_valid e;;
  Ok e.
Definition resize_holes (ranges : gmap Z Z) (previous_size length : Z) : presult (gmap Z Z) :=
  if previous_size <? length then RangeSet_insert ranges previous_size length else RangeSet_truncate ranges length.
Definition epoch_truncate (e : DirtyEpoch) (length sequence : Z) : presult DirtyEpoch :=
  assert_next_sequence e sequence;;
  s ← truncate (data e) length;
  ranges ← resize_holes (holes e) (result_size e) length;
  let e := record_sequence (set_contents e length s ranges) sequence in
  assert_epoch_valid e;;
  Ok e.
Definition epoch_punch_hole (e : DirtyEpoch) (offset end_ sequence : Z) : presult DirtyEpoch :=
  assert_next_sequence e sequence;;
  let effective_end := Z.min end_ (result_size e) in
  e ← (if offset <? effective_end
       then s ← punch (data e) offset effective_end;
            ranges ← RangeSet_insert (holes e) offset effective_end;
            Ok (set_contents e (result_size e) s ranges)
       else Ok e);
  let e := record_sequence e sequence in
  assert_epoch_valid e;;
  Ok e.
(** The loop of [DirtyEpoch::zero_ranges]; [fresh] gives the identity of the
    file allocated for the range that starts at a position *)
Fixpoint zero_each (s : SparseData) (ranges : gmap Z Z) (l : list (Z * Z)) (fresh : Z → Z) (sequence : Z)
    : presult (SparseData * gmap Z Z) :=
  match l with
  | [] => Ok (s, ranges)
  | (start, end_) :: l =>
      assert_true (start <? end_);;
      s ← write_external s start (ZeroCommittedFile (fresh start) (end_ - start)) 0 (end_ - start) sequence;
      ranges ← RangeSet_remove ranges start end_;
      zero_each s ranges l fresh sequence
  end.
Definition epoch_zero_ranges (e : DirtyEpoch) (l : list (Z * Z)) (fresh : Z → Z) (size sequence : Z) : presult DirtyEpoch :=
  assert_next_sequence e sequence;;
  s ← truncate (data e) size;
  ranges ← resize_holes (holes e) (result_size e) size;
  r ← zero_each s ranges l fresh sequence;
  let e := record_sequence (set_contents e size r.1 r.2) sequence in
  assert_epoch_valid e;;
  Ok e.

End DirtyEpoch.
