(* ===== verification/DirtyEpochOps.v ===== *)
(** * The operations of a dirty epoch

    An epoch is a layer over the older contents of the file.  Every mutation
    keeps the invariant of the layer, fires no assertion, and changes what is
    seen through the layer as the POSIX operation does. *)
From S2P Require Export DirtyEpoch.

Module DirtyEpochOps.
Import SparseData SparseDataOps RangeSet DirtyEpoch.

Section Layers.
Context (heap : Z → option (CommittedFile * (Z → option byte))).
Implicit Types (e : DirtyEpoch) (below : Z → option byte).

Record epoch_wf (e : DirtyEpoch) : Prop := {
  ep_data : sparse_wf heap (data e);
  ep_size : logical_size (data e) = result_size e;
  ep_holes : ranges_wf (holes e);
  ep_holes_in : within (holes e) 0 (result_size e);
  ep_apart x : present (holes e) x = true → data_at heap (data e) x = None;
  ep_base : 0 ≤ base_sequence e;
  ep_first : match first_sequence e with
             | Some f => base_sequence e < f ≤ last_sequence e
             | None => last_sequence e = base_sequence e
             end;
  ep_stamped : stamped (λ q, base_sequence e < q ≤ last_sequence e) (data e);
}.
(** What is seen through the layer. *)
Definition epoch_at (e : DirtyEpoch) (below : Z → option byte) (x : Z) : option byte :=
  if decide (0 ≤ x < result_size e) then
    if present (holes e) x then None
    else match data_at heap (data e) x with Some b => Some b | None => below x end
  else None.
Record epoch_result (e e' : DirtyEpoch) (size sequence : Z) (view : (Z → option byte) → Z → option byte) : Prop := {
  er_wf : epoch_wf e';
  er_size : result_size e' = size;
  er_base : base_size e' = base_size e ∧ base_sequence e' = base_sequence e;
  er_sequence : last_sequence e' = sequence;
  er_first : is_Some (first_sequence e');
  er_view below x : epoch_at e' below x = view (epoch_at e below) x;
}.

Lemma at_empty {V T} `{Extent V T} x : at_ (∅ : gmap Z V) x = None.
Proof. unfold at_, covering, range_le_back. rewrite (proj2 (last_filter_None _ _)); [done|]. intros ? ?. by rewrite lookup_empty. Qed.
Lemma sparse_default_wf size : 0 ≤ size ≤ u64_max → sparse_wf heap (sparse_default size).
Proof.
  intros Hsz. assert (Hno : ∀ {V} k (v : V), (∅ : gmap Z V) !! k = Some v → False) by (intros *; by rewrite lookup_empty).
  split; cbn [sparse_default logical_size extents external_extents allocated_bytes resident_bytes];
    [done|split; intros * Hk; by apply Hno in Hk|split; intros * Hk; by apply Hno in Hk|intros k d Hk; by apply Hno in Hk|intros k d Hk; by apply Hno in Hk| |intros k d Hk; by apply Hno in Hk|done|done].
  intros x. rewrite at_empty. by intros [? ?].
Qed.
Lemma data_at_default size x : data_at heap (sparse_default size) x = None.
Proof. unfold data_at. cbn [sparse_default extents external_extents]. by rewrite !at_empty. Qed.
Lemma new_wf size sequence : 0 ≤ size ≤ u64_max → 0 ≤ sequence → epoch_wf (new size sequence).
Proof.
  intros Hsz Hq. split; cbn [new data result_size holes base_sequence last_sequence first_sequence]; done.
Qed.
Lemma new_view size sequence below x : epoch_at (new size sequence) below x = if decide (0 ≤ x < size) then below x else None.
Proof.
  unfold epoch_at. cbn [new data result_size holes]. unfold present. rewrite at_empty, data_at_default. by case_decide.
Qed.

Lemma stamped_mono (P Q : Z → Prop) s : (∀ q, P q → Q q) → stamped P s → stamped Q s.
Proof. intros HPQ [Hr He]. split; intros k d Hk; apply HPQ; eauto. Qed.
Lemma assert_next_ok e sequence : sequence = last_sequence e + 1 → sequence ≤ u64_max → assert_next_sequence e sequence = Ok ().
Proof.
  intros Hq Hm. unfold assert_next_sequence. rewrite checked_add_ok by lia. cbn [expect]. rewrite Ok_bind, Hq, Z.eqb_refl. done.
Qed.
Lemma epoch_valid_ok e : epoch_wf e → assert_epoch_valid e = Ok ().
Proof.
  intros [Hd Hsz _ _ _ Hb Hf _]. unfold assert_epoch_valid. rewrite Hsz, Z.eqb_refl. cbn [assert_true]. rewrite Ok_bind.
  pose proof (sparse_bytes_le _ _ Hd) as Hle. rewrite <-(sw_allocated _ _ Hd) in Hle. rewrite Hsz in Hle. 
  assert (base_sequence e ≤ last_sequence e) by (destruct (first_sequence e); lia).
  rewrite (proj2 (Z.leb_le (base_sequence e) (last_sequence e))), (proj2 (Z.leb_le (allocated_bytes (data e)) (result_size e))) by lia.
  cbn [assert_true]. rewrite Ok_bind. destruct (first_sequence e) as [f|].
  - rewrite bool_decide_true by done. rewrite (proj2 (Z.eqb_neq _ _)) by lia. done.
  - rewrite bool_decide_false by (by intros [? ?]). rewrite (proj2 (Z.eqb_eq _ _)) by lia. done.
Qed.
(** The end of every mutation. *)
Lemma finish_spec e s ranges size sequence : epoch_wf e → sequence = last_sequence e + 1 →
  sparse_wf heap s → logical_size s = size → ranges_wf ranges → within ranges 0 size →
  (∀ x, present ranges x = true → data_at heap s x = None) →
  stamped (λ q, base_sequence e < q ≤ sequence) s →
  epoch_wf (record_sequence (set_contents e size s ranges) sequence).
Proof.
  intros He Hq Hs Hsz Hr Hin Hap Hst. pose proof (ep_base _ He). pose proof (ep_first _ He) as Hf.
  split; cbn [record_sequence set_contents data result_size holes base_sequence last_sequence first_sequence]; try done.
  destruct (first_sequence e); cbn [from_option id]; unfold id; lia.
Qed.
Lemma within_present m hi : ranges_wf m → (∀ x, present m x = true → 0 ≤ x < hi) → within m 0 hi.
Proof.
  intros Hm Hp k d Hk. pose proof (rw_full m Hm k d Hk). rewrite fin_range.
  pose proof (Hp k ltac:(apply present_spec; [done|]; exists k, d; split; [done|lia])).
  pose proof (Hp (d - 1) ltac:(apply present_spec; [done|]; exists k, d; split; [done|lia])). lia.
Qed.
Lemma present_within m hi x : ranges_wf m → within m 0 hi → present m x = true → 0 ≤ x < hi.
Proof. intros Hm Hw (k&d&Hk&Hx)%present_spec; [|done]. destruct (Hw k d Hk) as [? Hd]. rewrite fin_range in Hd. lia. Qed.
Lemma next_stamped e sequence s' : epoch_wf e → sequence = last_sequence e + 1 →
  (∀ P, stamped P (data e) → (∀ q, Some sequence = Some q → P q) → stamped P s') →
  stamped (λ q, base_sequence e < q ≤ sequence) s'.
Proof.
  intros He Hq Hst. apply Hst.
  - eapply stamped_mono; [|apply (ep_stamped _ He)]. cbn beta. lia.
  - intros q [= <-]. pose proof (ep_first _ He). destruct (first_sequence e); lia.
Qed.
Lemma insert_gap_spec m size offset : ranges_wf m → 0 ≤ size → 0 ≤ offset →
  ∃ m', insert_gap m size offset = Ok m' ∧ ranges_wf m' ∧
    ∀ x, present m' x = if decide (size ≤ x < offset) then true else present m x.
Proof.
  intros Hm Hsz Ho. unfold insert_gap. destruct (Z.ltb_spec size offset).
  - apply RangeSet_insert_spec; [done|lia].
  - exists m. split_and!; [done|done|]. intros x. by rewrite decide_False by lia.
Qed.
Lemma payload_at_in p offset x : 0 ≤ offset → offset ≤ x < offset + blen (payload_bytes p) → is_Some (payload_at p offset x).
Proof.
  intros Ho Hx. unfold payload_at. rewrite decide_True by lia. apply lookup_lt_is_Some.
  change (blen (payload_bytes p)) with (Z.of_nat (length (payload_bytes p))) in Hx. lia.
Qed.
Lemma payload_at_out p offset x : ¬ offset ≤ x < offset + blen (payload_bytes p) → payload_at p offset x = None.
Proof.
  intros Hx. unfold payload_at. destruct (decide (offset ≤ x)); [|done]. apply lookup_ge_None.
  change (blen (payload_bytes p)) with (Z.of_nat (length (payload_bytes p))) in Hx. lia.
Qed.

(** Data placed at [offset], by a write or a clone. *)
Lemma place_spec e s' ranges1 ranges2 offset end_ sequence (placed : Z → option byte) :
  epoch_wf e → sequence = last_sequence e + 1 → 0 ≤ offset < end_ →
  (∀ x, offset ≤ x < end_ → is_Some (placed x)) →
  sparse_result heap (data e) s' (Z.max (result_size e) end_) (λ x, if decide (offset ≤ x < end_) then placed x else data_at heap (data e) x) (Some sequence) →
  (∀ x, present ranges1 x = if decide (result_size e ≤ x < offset) then true else present (holes e) x) →
  ranges_wf ranges2 → (∀ x, present ranges2 x = if decide (offset ≤ x < end_) then false else present ranges1 x) →
  let e' := record_sequence (set_contents e (Z.max (result_size e) end_) s' ranges2) sequence in
  assert_epoch_valid e' = Ok () ∧
  epoch_result e e' (Z.max (result_size e) end_) sequence (λ below x, if decide (offset ≤ x < end_) then placed x else below x).
Proof.
  intros He Hq Hoe Hpl [Hs Hsz Hd Hst] Hr1 Hr2 Hp2 e'. pose proof (ep_holes _ He) as Hh.
  pose proof (sw_size _ _ (ep_data _ He)) as Hs0. rewrite (ep_size _ He) in Hs0.
  assert (Hwf' : epoch_wf e').
  { apply finish_spec; [done|done|done|done|done| | |by apply next_stamped].
    - apply within_present; [done|]. intros x. rewrite Hp2. case_decide; [done|]. rewrite Hr1. case_decide; [lia|].
      intros Hx. apply (present_within _ _ _ Hh (ep_holes_in _ He)) in Hx. lia.
    - intros x. rewrite Hp2, Hd. case_decide; [done|]. rewrite Hr1. case_decide; [|by apply He].
      intros _. apply data_at_outside; [apply He|]. rewrite (ep_size _ He). lia. }
  split; [by apply epoch_valid_ok|]. split; [done|done|done|done|by eexists|]. intros below x. unfold epoch_at.
  cbn [e' record_sequence set_contents result_size holes data]. rewrite Hp2, Hr1, Hd.
  destruct (decide (offset ≤ x < end_)) as [Hx|Hx].
  - rewrite decide_True by lia. destruct (Hpl x Hx) as [b Hb]. by rewrite Hb.
  - destruct (decide (0 ≤ x < Z.max (result_size e) end_)) as [Hin|Hout].
    + destruct (decide (result_size e ≤ x < offset)); [by rewrite decide_False by lia|]. by rewrite decide_True by lia.
    + by rewrite decide_False by lia.
Qed.
Lemma record_wf e sequence : epoch_wf e → sequence = last_sequence e + 1 → epoch_wf (record_sequence e sequence).
Proof.
  intros He Hq. pose proof (finish_spec e (data e) (holes e) (result_size e) sequence) as Hf. destruct e. apply Hf; try done; try apply He.
  apply next_stamped; [done|done|]. by intros P HP _.
Qed.
Lemma epoch_write_spec e offset p sequence : epoch_wf e → sequence = last_sequence e + 1 → sequence ≤ u64_max →
  0 ≤ offset → 0 < blen (payload_bytes p) → offset + blen (payload_bytes p) ≤ u64_max →
  ∃ e', epoch_write e offset p sequence = Ok e' ∧
    epoch_result e e' (Z.max (result_size e) (offset + blen (payload_bytes p))) sequence
      (λ below x, match payload_at p offset x with Some b => Some b | None => below x end).
Proof.
  intros He Hq Hm Ho Hlen Hmax. unfold epoch_write. rewrite (proj2 (Z.eqb_neq _ _)) by lia. cbn [negb assert_true].
  rewrite Ok_bind, assert_next_ok, Ok_bind, checked_add_ok by lia. cbn [ok_or]. rewrite Ok_bind.
  destruct (write_spec heap (data e) offset p sequence (ep_data _ He) Ho Hlen Hmax) as (s'&->&Hs). rewrite Ok_bind.
  pose proof (sw_size _ _ (ep_data _ He)) as Hs0. rewrite (ep_size _ He) in Hs, Hs0.
  destruct (insert_gap_spec (holes e) (result_size e) offset (ep_holes _ He) ltac:(lia) Ho) as (r1&->&Hr1&Hp1). rewrite Ok_bind.
  destruct (RangeSet_remove_spec r1 offset (offset + blen (payload_bytes p)) Hr1 ltac:(lia)) as (r2&->&Hr2&Hp2). rewrite Ok_bind.
  destruct (place_spec e s' r1 r2 offset (offset + blen (payload_bytes p)) sequence (payload_at p offset)) as [-> Hres]; try done; [lia| | |].
  - intros x Hx. by apply payload_at_in.
  - destruct Hs as [? ? Hd ?]. split; [done|done| |done]. intros x. rewrite Hd. destruct (decide (offset ≤ x < offset + blen (payload_bytes p))) as [Hx|Hx].
    + destruct (payload_at_in p offset x Ho Hx) as [b Hb]. by rewrite Hb.
    + by rewrite payload_at_out.
  - rewrite Ok_bind. eexists. split; [done|]. destruct Hres as [? ? ? ? ? Hv]. split; try done. intros below x. rewrite Hv.
    destruct (decide (offset ≤ x < offset + blen (payload_bytes p))) as [Hx|Hx]; [|by rewrite payload_at_out].
    destruct (payload_at_in p offset x Ho Hx) as [b Hb]. by rewrite Hb.
Qed.
Lemma epoch_clone_range_spec e offset file file_offset length sequence : epoch_wf e → sequence = last_sequence e + 1 → sequence ≤ u64_max →
  file_ok heap file → 0 ≤ offset → 0 ≤ file_offset → 0 < length → offset + length ≤ u64_max →
  file_offset + length ≤ file_logical_size file → (∀ x, file_offset ≤ x < file_offset + length → is_Some (file_at heap file x)) →
  ∃ e', epoch_clone_range e offset file file_offset length sequence = Ok e' ∧
    epoch_result e e' (Z.max (result_size e) (offset + length)) sequence
      (λ below x, if decide (offset ≤ x < offset + length) then file_at heap file (file_offset + (x - offset)) else below x).
Proof.
  intros He Hq Hm Hfile Ho Hfo Hlen Hmax Hfit Hpres. unfold epoch_clone_range. rewrite (proj2 (Z.ltb_lt 0 length)) by lia. cbn [assert_true].
  rewrite Ok_bind, assert_next_ok, Ok_bind, checked_add_ok by lia. cbn [ok_or]. rewrite Ok_bind.
  destruct (write_external_spec heap (data e) offset file file_offset length sequence (ep_data _ He) Hfile Ho Hfo Hlen Hmax Hfit Hpres) as (s'&->&Hs). rewrite Ok_bind.
  pose proof (sw_size _ _ (ep_data _ He)) as Hs0. rewrite (ep_size _ He) in Hs, Hs0.
  destruct (insert_gap_spec (holes e) (result_size e) offset (ep_holes _ He) ltac:(lia) Ho) as (r1&->&Hr1&Hp1). rewrite Ok_bind.
  destruct (RangeSet_remove_spec r1 offset (offset + length) Hr1 ltac:(lia)) as (r2&->&Hr2&Hp2). rewrite Ok_bind.
  destruct (place_spec e s' r1 r2 offset (offset + length) sequence (λ x, file_at heap file (file_offset + (x - offset)))) as [-> Hres]; try done; [lia| |].
  - intros x Hx. apply Hpres. lia.
  - rewrite Ok_bind. by eexists.
Qed.

Lemma resize_holes_spec e n : epoch_wf e → 0 ≤ n →
  ∃ m', resize_holes (holes e) (result_size e) n = Ok m' ∧ ranges_wf m' ∧ within m' 0 n ∧
    ∀ x, present m' x = if decide (result_size e ≤ x < n) then true else if decide (x < n) then present (holes e) x else false.
Proof.
  intros He Hn. unfold resize_holes. pose proof (sw_size _ _ (ep_data _ He)) as Hs0. rewrite (ep_size _ He) in Hs0.
  pose proof (ep_holes _ He) as Hh. pose proof (ep_holes_in _ He) as Hw. destruct (Z.ltb_spec (result_size e) n).
  - destruct (RangeSet_insert_spec (holes e) (result_size e) n Hh ltac:(lia)) as (m'&->&Hm'&Hp).
    assert (Hp' : ∀ x, present m' x = if decide (result_size e ≤ x < n) then true else if decide (x < n) then present (holes e) x else false).
    { intros x. rewrite Hp. case_decide; [done|]. case_decide; [done|]. apply not_true_is_false. intros Hx.
      apply (present_within _ _ _ Hh Hw) in Hx. lia. }
    exists m'. split_and!; [done|done| |done]. apply within_present; [done|]. intros x. rewrite Hp.
    case_decide; [lia|]. intros Hx. apply (present_within _ _ _ Hh Hw) in Hx. lia.
  - destruct (RangeSet_truncate_spec (holes e) n (result_size e) Hh Hw Hn) as (m'&->&Hm'&Hw'&Hp).
    exists m'. split_and!; [done|done|done|]. intros x. rewrite Hp. by rewrite (decide_False (P := result_size e ≤ x < n)) by lia.
Qed.
Lemma epoch_truncate_spec e n sequence : epoch_wf e → sequence = last_sequence e + 1 → sequence ≤ u64_max → 0 ≤ n ≤ u64_max →
  ∃ e', epoch_truncate e n sequence = Ok e' ∧
    epoch_result e e' n sequence (λ below x, if decide (x < n) then below x else None).
Proof.
  intros He Hq Hm Hn. unfold epoch_truncate. rewrite assert_next_ok, Ok_bind by done.
  destruct (truncate_sparse_spec heap (data e) n (ep_data _ He) Hn) as (s'&->&[Hs Hsz Hd Hst]). rewrite Ok_bind.
  destruct (resize_holes_spec e n He ltac:(lia)) as (m'&->&Hm'&Hw&Hp). rewrite Ok_bind.
  assert (Hwf' : epoch_wf (record_sequence (set_contents e n s' m') sequence)).
  { apply finish_spec; [done..| |].
    - intros x. rewrite Hp, Hd. case_decide as Hc1; [|case_decide; [apply He|done]]. intros _. case_decide; [|done].
      apply data_at_outside; [apply He|]. rewrite (ep_size _ He). lia.
    - apply next_stamped; [done|done|]. intros P HP _. apply Hst; [done|]. by intros q [=]. }
  rewrite epoch_valid_ok, Ok_bind by done. eexists. split; [done|]. split; [done|done|done|done|by eexists|].
  intros below x. unfold epoch_at. cbn [record_sequence set_contents result_size holes data]. rewrite Hp, Hd.
  destruct (decide (x < n)) as [Hx|Hx]; [|by rewrite decide_False by lia]. destruct (decide (0 ≤ x < n)); [|by rewrite decide_False by lia].
  destruct (decide (result_size e ≤ x < n)); [by rewrite decide_False by lia|]. by rewrite decide_True by lia.
Qed.
Lemma epoch_punch_hole_spec e offset end_ sequence : epoch_wf e → sequence = last_sequence e + 1 → sequence ≤ u64_max → 0 ≤ offset →
  ∃ e', epoch_punch_hole e offset end_ sequence = Ok e' ∧
    epoch_result e e' (result_size e) sequence (λ below x, if decide (offset ≤ x < end_) then None else below x).
Proof.
  intros He Hq Hm Ho. unfold epoch_punch_hole. rewrite assert_next_ok, Ok_bind by done. cbv zeta.
  destruct (Z.ltb_spec offset (Z.min end_ (result_size e))) as [Hlt|Hge].
  - destruct (punch_spec heap (data e) offset (Z.min end_ (result_size e)) (ep_data _ He) ltac:(lia)) as (s'&->&[Hs Hsz Hd Hst]). rewrite Ok_bind.
    destruct (RangeSet_insert_spec (holes e) offset (Z.min end_ (result_size e)) (ep_holes _ He) ltac:(lia)) as (m'&->&Hm'&Hp). rewrite !Ok_bind.
    assert (Hwf' : epoch_wf (record_sequence (set_contents e (result_size e) s' m') sequence)).
    { apply finish_spec; [done|done|done|by rewrite <-(ep_size _ He)|done| | |].
      - apply within_present; [done|]. intros x. rewrite Hp. case_decide; [lia|]. apply present_within; apply He.
      - intros x. rewrite Hp, Hd. case_decide; [done|apply He].
      - apply next_stamped; [done|done|]. intros P HP _. apply Hst; [done|]. by intros q [=]. }
    rewrite epoch_valid_ok, Ok_bind by done. eexists. split; [done|]. split; [done|done|done|done|by eexists|].
    intros below x. unfold epoch_at. cbn [record_sequence set_contents result_size holes data]. rewrite Hp, Hd.
    destruct (decide (0 ≤ x < result_size e)); [|by case_decide].
    destruct (decide (offset ≤ x < Z.min end_ (result_size e))); [by rewrite decide_True by lia|by rewrite decide_False by lia].
  - rewrite Ok_bind. pose proof (record_wf e sequence He Hq). rewrite epoch_valid_ok, Ok_bind by done. eexists. split; [done|]. split; [done|done|done|done|by eexists|].
    intros below x. change (epoch_at (record_sequence e sequence) below x) with (epoch_at e below x).
    case_decide; [|done]. unfold epoch_at. by rewrite decide_False by lia.
Qed.

(** ** Zeros *)
Definition zero_contents (n x : Z) : option byte := if decide (0 ≤ x < n) then Some x00 else None.
Lemma zero_file_ok id n : 0 ≤ n ≤ u64_max → heap id = Some (ZeroCommittedFile id n, zero_contents n) → file_ok heap (ZeroCommittedFile id n).
Proof.
  intros Hn Hid. assert (Hat : ∀ x, file_at heap (ZeroCommittedFile id n) x = zero_contents n x).
  { intros x. unfold file_at. cbn [ZeroCommittedFile file_id]. by rewrite Hid. }
  assert (Hcount : ∀ a b, 0 ≤ a → a ≤ b → b ≤ n → count (file_present heap (ZeroCommittedFile id n)) a b = b - a).
  { intros a b Ha Hab Hb. apply count_all; [done|]. intros x Hx. apply bool_decide_true. rewrite Hat. unfold zero_contents.
    by rewrite decide_True by lia. }
  assert (Hrange : ∀ o k, 0 ≤ o → 0 ≤ k → o + k ≤ n → zero_range_bytes n o k = k).
  { intros o k Ho Hk Hok. unfold zero_range_bytes, saturating_add. lia. }
  split; cbn [ZeroCommittedFile file_logical_size file_allocated_bytes shared_read_source allocated_bytes_in_range].
  - by exists (zero_contents n).
  - done.
  - intros x Hx. rewrite Hat. unfold zero_contents. by rewrite decide_False by lia.
  - rewrite Hcount by lia. lia.
  - intros o k Ho Hk Hok. rewrite Hrange, Hcount by lia. f_equal. lia.
  - intros o k Ho Hk Hok. cbn [ZeroCommittedFile read_segments_at file_logical_size] in *. split; [done|]. intros segments [= <-] _.
    cbn [concat]. rewrite app_nil_r, Hrange by lia. change (zeros k) with (replicate (Z.to_nat k) x00).
    apply list_eq. intros i. rewrite list_lookup_fmap. destruct (decide (i < Z.to_nat k)%nat) as [Hi|Hi].
    + rewrite lookup_replicate_2 by done. rewrite lookup_seqZ_lt by lia. cbn [fmap option_fmap option_map]. unfold byte_at. rewrite Hat. unfold zero_contents.
      by rewrite decide_True by lia.
    + rewrite lookup_seqZ_ge by lia. apply lookup_ge_None. rewrite length_replicate. lia.
  - done.
Qed.
Definition in_ranges (l : list (Z * Z)) (x : Z) : bool := existsb (λ r, (r.1 <=? x) && (x <? r.2)) l.
Lemma zero_each_spec l s ranges fresh sequence : sparse_wf heap s → ranges_wf ranges →
  (∀ r, r ∈ l → 0 ≤ r.1 < r.2 ∧ r.2 ≤ logical_size s ∧
    heap (fresh r.1) = Some (ZeroCommittedFile (fresh r.1) (r.2 - r.1), zero_contents (r.2 - r.1))) →
  ∃ s' m', zero_each s ranges l fresh sequence = Ok (s', m') ∧
    sparse_result heap s s' (logical_size s) (λ x, if in_ranges l x then Some x00 else data_at heap s x) (Some sequence) ∧
    ranges_wf m' ∧ ∀ x, present m' x = if in_ranges l x then false else present ranges x.
Proof.
  revert s ranges. induction l as [|[a b] l IH]; intros s ranges Hs Hr Hl; cbn [zero_each].
  { exists s, ranges. by split_and!. }
  destruct (Hl (a, b)) as (Hab&Hb&Hheap); [by left|]. cbn [fst snd] in *. pose proof (sw_size _ _ Hs) as Hsz.
  rewrite (proj2 (Z.ltb_lt a b)) by lia. cbn [assert_true]. rewrite Ok_bind.
  pose proof (zero_file_ok (fresh a) (b - a) ltac:(lia) Hheap) as Hfile.
  assert (Hat : ∀ x, file_at heap (ZeroCommittedFile (fresh a) (b - a)) x = zero_contents (b - a) x).
  { intros x. unfold file_at. cbn [ZeroCommittedFile file_id]. by rewrite Hheap. }
  destruct (write_external_spec heap s a (ZeroCommittedFile (fresh a) (b - a)) 0 (b - a) sequence Hs Hfile) as (s1&->&[Hs1 Hsz1 Hd1 Hst1]);
    [lia|lia|lia|lia|cbn [ZeroCommittedFile file_logical_size]; lia| |].
  { intros x Hx. rewrite Hat. unfold zero_contents. rewrite decide_True by lia. by eexists. }
  rewrite Ok_bind. destruct (RangeSet_remove_spec ranges a b Hr ltac:(lia)) as (m1&->&Hm1&Hp1). rewrite Ok_bind.
  replace (a + (b - a)) with b in * by lia.
  destruct (IH s1 m1 Hs1 Hm1) as (s'&m'&->&[Hs' Hsz' Hd' Hst']&Hm'&Hp').
  { intros r Hin. rewrite Hsz1. destruct (Hl r) as (?&?&?); [by right|]. split_and!; (done || lia). }
  exists s', m'. split_and!; [done| |done|].
  - split; [done|rewrite Hsz', Hsz1; lia| |]. 2: { intros P HP Hq. apply Hst'; [|done]. by apply Hst1. }
    intros x. rewrite Hd'. unfold in_ranges at 2. cbn [existsb fst snd]. fold (in_ranges l x). destruct (in_ranges l x); [by rewrite orb_true_r|].
    rewrite orb_false_r, Hd1. destruct (Z.leb_spec a x), (Z.ltb_spec x b); cbn [andb];
      first [rewrite decide_True by lia; rewrite Hat; unfold zero_contents; by rewrite decide_True by lia|by rewrite decide_False by lia].
  - intros x. rewrite Hp'. unfold in_ranges at 2. cbn [existsb fst snd]. fold (in_ranges l x). destruct (in_ranges l x); [by rewrite orb_true_r|].
    rewrite orb_false_r, Hp1. destruct (Z.leb_spec a x), (Z.ltb_spec x b); cbn [andb];
      first [by rewrite decide_True by lia|by rewrite decide_False by lia].
Qed.
Lemma in_ranges_within l hi x : (∀ r, r ∈ l → 0 ≤ r.1 < r.2 ∧ r.2 ≤ hi) → in_ranges l x = true → 0 ≤ x < hi.
Proof.
  intros Hl (r&Hr&Hx)%existsb_exists. apply list_elem_of_In in Hr. destruct (Hl r Hr) as [? ?].
  apply andb_true_iff in Hx as [?%Z.leb_le ?%Z.ltb_lt]. lia.
Qed.
Lemma epoch_zero_ranges_spec e l fresh size sequence : epoch_wf e → sequence = last_sequence e + 1 → sequence ≤ u64_max → 0 ≤ size ≤ u64_max →
  (∀ r, r ∈ l → 0 ≤ r.1 < r.2 ∧ r.2 ≤ size ∧
    heap (fresh r.1) = Some (ZeroCommittedFile (fresh r.1) (r.2 - r.1), zero_contents (r.2 - r.1))) →
  ∃ e', epoch_zero_ranges e l fresh size sequence = Ok e' ∧
    epoch_result e e' size sequence (λ below x, if in_ranges l x then Some x00 else if decide (x < size) then below x else None).
Proof.
  intros He Hq Hm Hn Hl. unfold epoch_zero_ranges. rewrite assert_next_ok, Ok_bind by done.
  destruct (truncate_sparse_spec heap (data e) size (ep_data _ He) Hn) as (s1&->&[Hs1 Hsz1 Hd1 Hst1]). rewrite Ok_bind.
  destruct (resize_holes_spec e size He ltac:(lia)) as (m1&->&Hm1&Hw1&Hp1). rewrite Ok_bind.
  destruct (zero_each_spec l s1 m1 fresh sequence Hs1 Hm1) as (s'&m'&->&[Hs' Hsz' Hd' Hst']&Hm'&Hp'); [by rewrite Hsz1|]. rewrite Ok_bind. cbn [fst snd].
  assert (Hin : ∀ x, in_ranges l x = true → 0 ≤ x < size). { intros x. apply in_ranges_within. intros r Hr. by destruct (Hl r Hr) as (?&?&_). }
  assert (Hwf' : epoch_wf (record_sequence (set_contents e size s' m') sequence)).
  { apply finish_spec; [done|done|done|by rewrite Hsz', Hsz1|done| | |].
    - apply within_present; [done|]. intros x. rewrite Hp'. destruct (in_ranges l x); [done|]. by apply present_within.
    - intros x. rewrite Hp', Hd'. destruct (in_ranges l x); [done|]. rewrite Hp1, Hd1. case_decide; [|case_decide; [apply He|done]]. intros _. case_decide; [|done].
      apply data_at_outside; [apply He|]. rewrite (ep_size _ He). lia.
    - apply next_stamped; [done|done|]. intros P HP HPq. apply Hst'; [|done]. apply Hst1; [done|]. by intros q [=]. }
  rewrite epoch_valid_ok, Ok_bind by done. eexists. split; [done|]. split; [done|done|done|done|by eexists|].
  intros below x. unfold epoch_at. cbn [record_sequence set_contents result_size holes data]. rewrite Hp', Hd'.
  destruct (in_ranges l x) eqn:Hix; [by rewrite decide_True by (by apply Hin)|]. rewrite Hp1, Hd1.
  destruct (decide (x < size)) as [Hx|Hx]; [|by rewrite decide_False by lia]. destruct (decide (0 ≤ x < size)); [|by rewrite decide_False by lia].
  destruct (decide (result_size e ≤ x < size)); [by rewrite decide_False by lia|]. by rewrite decide_True by lia.
Qed.
End Layers.
End DirtyEpochOps.
