(* ===== verification/FileCapacity.v ===== *)
(** * Metadata capacity of writes and clones ([fastdup-posix/src/versioned_file.rs])

    How many metadata bytes a mutation claims before it is admitted: writes at
    the end of the file and clones at its end share claims for a whole window. *)
From S2P Require Export DirtyEpoch.

Module FileCapacity.
Import SparseData DirtyEpoch.

Definition div_ceil (a b : Z) : Z := (a + b - 1) / b.
Definition MUTATION_METADATA_INCREMENT_BYTES_V1 : Z := 2 * 1024 * 1024.
Definition SINGLE_LEAF_APPEND_COVERAGE_END_BYTES_V1 : Z := 8 * 1024 * 1024.
Definition SINGLE_LEAF_METADATA_BYTES_V1 : Z := 48 * 1024.
Definition SEQUENTIAL_APPEND_COVERAGE_BYTES_V1 : Z := 16 * 1024 * 1024.
Definition SEQUENTIAL_APPEND_PATH_CLAIMS_V1 : Z := 4.
Definition SEQUENTIAL_CLONE_COVERAGE_EXTENTS_V1 : Z := 1024.
Definition SINGLE_LEAF_CLONE_COVERAGE_EXTENTS_V1 : Z := 513.
Record WriteCapacityPlan := { write_metadata_bytes : Z; write_covered_end : option Z }.
Record CloneCapacityPlan := { clone_metadata_bytes : Z; clone_coverage : option CloneCoverage }.

(** The claims of a number of windows *)
Definition window_claims (windows : Z) : presult Z :=
  claims ← ok_or (checked_mul u64_max windows SEQUENTIAL_APPEND_PATH_CLAIMS_V1) NoSpace;
  ok_or (checked_mul u64_max claims MUTATION_METADATA_INCREMENT_BYTES_V1) NoSpace.
(** The claim for the windows from a covered end to the end of a write *)
Definition claim_windows (end_ covered_end initial_metadata_bytes : Z) : presult WriteCapacityPlan :=
  let windows := div_ceil (saturating_sub end_ covered_end) SEQUENTIAL_APPEND_COVERAGE_BYTES_V1 in
  claimed ← window_claims windows;
  metadata_bytes ← ok_or (checked_add u64_max claimed initial_metadata_bytes) NoSpace;
  additional_coverage ← ok_or (checked_mul u64_max windows SEQUENTIAL_APPEND_COVERAGE_BYTES_V1) NoSpace;
  Ok {| write_metadata_bytes := metadata_bytes;
        write_covered_end := Some (saturating_add u64_max covered_end additional_coverage) |}.
Definition plan_write_capacity (e : DirtyEpoch) (offset length : Z) : presult WriteCapacityPlan :=
  if negb (offset =? result_size e)
  then Ok {| write_metadata_bytes := MUTATION_METADATA_INCREMENT_BYTES_V1; write_covered_end := None |}
  else
    end_ ← ok_or (checked_add u64_max offset length) FileTooLarge;
    if (base_size e =? 0) && bool_decide (append_metadata_covered_end e = None) && (end_ <=? SINGLE_LEAF_APPEND_COVERAGE_END_BYTES_V1)
    then Ok {| write_metadata_bytes := SINGLE_LEAF_METADATA_BYTES_V1;
               write_covered_end := Some SINGLE_LEAF_APPEND_COVERAGE_END_BYTES_V1 |}
    else
      let covered_end := match append_metadata_covered_end e with
                         | Some c => if offset <=? c then c else offset
                         | None => offset
                         end in
      if end_ <=? covered_end then Ok {| write_metadata_bytes := 0; write_covered_end := None |}
      else
        let '(covered_end, initial_metadata_bytes) :=
          if covered_end =? SINGLE_LEAF_APPEND_COVERAGE_END_BYTES_V1
          then (SEQUENTIAL_APPEND_COVERAGE_BYTES_V1,
                SEQUENTIAL_APPEND_PATH_CLAIMS_V1 * MUTATION_METADATA_INCREMENT_BYTES_V1 - SINGLE_LEAF_METADATA_BYTES_V1)
          else (covered_end, 0) in
        claim_windows end_ covered_end initial_metadata_bytes.
Definition set_append_coverage (e : DirtyEpoch) (covered : option Z) : DirtyEpoch :=
  {| base_size := base_size e; result_size := result_size e; base_sequence := base_sequence e; last_sequence := last_sequence e;
     first_sequence := first_sequence e; data := data e; holes := holes e;
     append_metadata_covered_end := covered; clone_metadata_coverage := clone_metadata_coverage e |}.
Definition accept_write_capacity (e : DirtyEpoch) (plan : WriteCapacityPlan) : DirtyEpoch :=
  match write_covered_end plan with
  | Some covered_end =>
      set_append_coverage e (Some match append_metadata_covered_end e with Some existing => Z.max existing covered_end | None => covered_end end)
  | None => e
  end.
(** The first claim of a clone: what the coverage of the epoch gives *)
Definition clone_budget (e : DirtyEpoch) (offset : Z) : Z * Z :=
  match clone_metadata_coverage e with
  | Some coverage => if end_offset coverage =? offset then (0, extents_left coverage) else (0, 0)
  | None => if (base_size e =? 0) && (offset =? 0) then (SINGLE_LEAF_METADATA_BYTES_V1, SINGLE_LEAF_CLONE_COVERAGE_EXTENTS_V1) else (0, 0)
  end.
Definition plan_clone_capacity (e : DirtyEpoch) (offset length extents : Z) : presult CloneCapacityPlan :=
  if negb (offset =? result_size e)
  then Ok {| clone_metadata_bytes := MUTATION_METADATA_INCREMENT_BYTES_V1; clone_coverage := None |}
  else
    end_ ← ok_or (checked_add u64_max offset length) FileTooLarge;
    let '(metadata_bytes, budget) := clone_budget e offset in
    let remaining := saturating_sub extents budget in
    r ← (if 0 <? remaining then
           let windows := div_ceil remaining SEQUENTIAL_CLONE_COVERAGE_EXTENTS_V1 in
           window_bytes ← window_claims windows;
           metadata_bytes ← ok_or (checked_add u64_max metadata_bytes window_bytes) NoSpace;
           added ← ok_or (checked_mul u64_max windows SEQUENTIAL_CLONE_COVERAGE_EXTENTS_V1) NoSpace;
           budget ← ok_or (checked_add u64_max budget added) NoSpace;
           Ok (metadata_bytes, budget)
         else Ok (metadata_bytes, budget));
    left ← expect (checked_sub r.2 extents);
    Ok {| clone_metadata_bytes := r.1; clone_coverage := Some {| end_offset := end_; extents_left := left |} |}.
Definition accept_clone_capacity (e : DirtyEpoch) (plan : CloneCapacityPlan) : DirtyEpoch :=
  match clone_coverage plan with
  | Some coverage =>
      {| base_size := base_size e; result_size := result_size e; base_sequence := base_sequence e; last_sequence := last_sequence e;
         first_sequence := first_sequence e; data := data e; holes := holes e;
         append_metadata_covered_end := append_metadata_covered_end e; clone_metadata_coverage := Some coverage |}
  | None => e
  end.

(** ** Sequences of appends *)

(** The epoch as far as the plan reads it, after an append was accepted. *)
Definition append_to (e : DirtyEpoch) (length : Z) : presult (Z * DirtyEpoch) :=
  plan ← plan_write_capacity e (result_size e) length;
  let e' := accept_write_capacity e plan in
  Ok (write_metadata_bytes plan,
      {| base_size := base_size e'; result_size := result_size e + length; base_sequence := base_sequence e'; last_sequence := last_sequence e';
         first_sequence := first_sequence e'; data := data e'; holes := holes e';
         append_metadata_covered_end := append_metadata_covered_end e'; clone_metadata_coverage := clone_metadata_coverage e' |}).
Fixpoint append_all (e : DirtyEpoch) (lengths : list Z) : presult (Z * DirtyEpoch) :=
  match lengths with
  | [] => Ok (0, e)
  | length :: lengths =>
      first ← append_to e length;
      rest ← append_all first.2 lengths;
      Ok (first.1 + rest.1, rest.2)
  end.

(** What has been claimed for an epoch over an empty base: nothing; one leaf; or
    a number of windows, the last of which has been entered. *)
Definition window : Z := SEQUENTIAL_APPEND_COVERAGE_BYTES_V1.
Inductive claimed_for (size : Z) : option Z → Z → Prop :=
  | claimed_nothing : size = 0 → claimed_for size None 0
  | claimed_leaf : size ≤ SINGLE_LEAF_APPEND_COVERAGE_END_BYTES_V1 →
      claimed_for size (Some SINGLE_LEAF_APPEND_COVERAGE_END_BYTES_V1) SINGLE_LEAF_METADATA_BYTES_V1
  | claimed_windows w : 1 ≤ w → window * (w - 1) < size ≤ window * w →
      claimed_for size (Some (window * w)) (w * (SEQUENTIAL_APPEND_PATH_CLAIMS_V1 * MUTATION_METADATA_INCREMENT_BYTES_V1)).
Lemma div_ceil_spec a b : 0 < b → b * (div_ceil a b - 1) < a ≤ b * div_ceil a b.
Proof. intros Hb. unfold div_ceil. pose proof (Z.div_mod (a + b - 1) b ltac:(lia)). pose proof (Z.mod_pos_bound (a + b - 1) b Hb). nia. Qed.
Lemma window_claims_ok w : 0 ≤ w → w * (SEQUENTIAL_APPEND_PATH_CLAIMS_V1 * MUTATION_METADATA_INCREMENT_BYTES_V1) ≤ u64_max →
  window_claims w = Ok (w * (SEQUENTIAL_APPEND_PATH_CLAIMS_V1 * MUTATION_METADATA_INCREMENT_BYTES_V1)).
Proof.
  unfold window_claims, SEQUENTIAL_APPEND_PATH_CLAIMS_V1, MUTATION_METADATA_INCREMENT_BYTES_V1. intros Hw Hm. rewrite checked_mul_ok by lia. cbn [ok_or].
  rewrite Ok_bind, checked_mul_ok by lia. cbn [ok_or]. f_equal. lia.
Qed.
Ltac sizes := unfold window, SEQUENTIAL_APPEND_COVERAGE_BYTES_V1, SINGLE_LEAF_APPEND_COVERAGE_END_BYTES_V1, SINGLE_LEAF_METADATA_BYTES_V1,
  SEQUENTIAL_APPEND_PATH_CLAIMS_V1, MUTATION_METADATA_INCREMENT_BYTES_V1, u64_max in *.
(** The windows that are opened past a covered end *)
Lemma open_windows covered end_ initial : 0 ≤ covered → 0 ≤ initial ≤ window → end_ + 2 * window ≤ u64_max → covered ≤ end_ + window →
  let w := div_ceil (saturating_sub end_ covered) window in
  0 ≤ w ∧ end_ ≤ covered + window * w ∧ (0 < w → window * (w - 1) < end_ - covered) ∧
  claim_windows end_ covered initial =
    Ok {| write_metadata_bytes := w * (SEQUENTIAL_APPEND_PATH_CLAIMS_V1 * MUTATION_METADATA_INCREMENT_BYTES_V1) + initial;
          write_covered_end := Some (covered + window * w) |}.
Proof.
  intros Hc Hi He Hce w. pose proof (div_ceil_spec (saturating_sub end_ covered) window ltac:(done)) as Hw. fold w in Hw. unfold saturating_sub in Hw.
  assert (0 ≤ w) by (sizes; lia). split_and!; [lia|sizes; lia|sizes; lia|]. unfold claim_windows. cbv zeta. fold window. fold w. rewrite window_claims_ok, Ok_bind by (sizes; lia).
  rewrite checked_add_ok by (sizes; lia). cbn [ok_or]. rewrite Ok_bind, checked_mul_ok by (sizes; lia). cbn [ok_or]. rewrite Ok_bind.
  unfold saturating_add. rewrite Z.min_r by (sizes; lia). do 3 f_equal. lia.
Qed.
Lemma append_to_spec e length claimed : base_size e = 0 → claimed_for (result_size e) (append_metadata_covered_end e) claimed →
  0 ≤ result_size e → 0 < length → result_size e + length + 2 * window ≤ u64_max →
  ∃ more e', append_to e length = Ok (more, e') ∧ base_size e' = 0 ∧ result_size e' = result_size e + length ∧
    claimed_for (result_size e') (append_metadata_covered_end e') (claimed + more).
Proof.
  intros Hb Hc Hs Hl Hm. unfold append_to, plan_write_capacity. rewrite Z.eqb_refl. cbn [negb]. rewrite checked_add_ok by (sizes; lia). cbn [ok_or].
  rewrite Ok_bind, Hb. cbn [Z.eqb andb]. set (end_ := result_size e + length) in *.
  inversion Hc as [H0 Hcov Hcl|H0 Hcov Hcl|w Hw H0 Hcov Hcl].
  - rewrite bool_decide_true by done. cbn [andb]. destruct (Z.leb_spec end_ SINGLE_LEAF_APPEND_COVERAGE_END_BYTES_V1) as [Hle|Hgt].
    + rewrite Ok_bind. eexists _, _. split; [done|]. cbn [accept_write_capacity write_covered_end]. rewrite <-Hcov. split_and!; [done|done|].
      rewrite Z.add_0_l. by apply claimed_leaf.
    + cbv zeta. rewrite H0. rewrite (proj2 (Z.leb_gt end_ 0)) by (sizes; lia). change (0 =? SINGLE_LEAF_APPEND_COVERAGE_END_BYTES_V1) with false. cbv iota.
      destruct (open_windows 0 end_ 0) as (H1&H2&H3&->); [lia|sizes; lia|lia|sizes; lia|]. set (w := div_ceil _ _) in *. rewrite Ok_bind.
      eexists _, _. split; [done|]. cbn [accept_write_capacity write_covered_end]. rewrite <-Hcov. split_and!; [done|cbn [result_size]; unfold end_; lia|].
      cbn [append_metadata_covered_end set_append_coverage result_size write_metadata_bytes]. rewrite !Z.add_0_l, Z.add_0_r.
      replace (0 + length) with end_ by (unfold end_; lia). apply claimed_windows; [sizes; lia|]. sizes; lia.
  - rewrite bool_decide_false by done. cbn [andb]. cbv zeta. rewrite (proj2 (Z.leb_le (result_size e) _)) by done.
    destruct (Z.leb_spec end_ SINGLE_LEAF_APPEND_COVERAGE_END_BYTES_V1) as [Hle|Hgt].
    + rewrite Ok_bind. eexists _, _. split; [done|]. cbn [accept_write_capacity write_covered_end write_metadata_bytes]. rewrite <-Hcov, Z.add_0_r.
      split_and!; [done|done|]. by apply claimed_leaf.
    + rewrite Z.eqb_refl. cbv iota. destruct (open_windows window end_ (SEQUENTIAL_APPEND_PATH_CLAIMS_V1 * MUTATION_METADATA_INCREMENT_BYTES_V1 - SINGLE_LEAF_METADATA_BYTES_V1))
        as (H1&H2&H3&Hp); [done|done|lia|sizes; lia|]. fold window. rewrite Hp. set (w := div_ceil _ _) in *. rewrite Ok_bind.
      eexists _, _. split; [done|]. cbn [accept_write_capacity write_covered_end]. rewrite <-Hcov. split_and!; [done|done|].
      cbn [append_metadata_covered_end set_append_coverage result_size write_metadata_bytes].
      rewrite Z.max_r by (sizes; lia). replace (window + window * w) with (window * (w + 1)) by lia.
      replace (SINGLE_LEAF_METADATA_BYTES_V1 + _) with ((w + 1) * (SEQUENTIAL_APPEND_PATH_CLAIMS_V1 * MUTATION_METADATA_INCREMENT_BYTES_V1)) by (sizes; lia).
      apply claimed_windows; [lia|]. sizes; lia.
  - rewrite bool_decide_false by done. cbn [andb]. cbv zeta. rewrite (proj2 (Z.leb_le (result_size e) _)) by lia. destruct (Z.leb_spec end_ (window * w)) as [Hle|Hgt].
    + rewrite Ok_bind. eexists _, _. split; [done|]. cbn [accept_write_capacity write_covered_end write_metadata_bytes]. rewrite <-Hcov, Z.add_0_r.
      split_and!; [done|done|]. apply claimed_windows; [done|]. unfold end_ in *. cbn [result_size]. lia.
    + rewrite (proj2 (Z.eqb_neq _ _)) by (sizes; lia). cbv iota. destruct (open_windows (window * w) end_ 0) as (H1&H2&H3&Hp); [sizes; lia|done|lia|sizes; lia|].
      rewrite Hp. set (n := div_ceil _ _) in *. rewrite Ok_bind.
      eexists _, _. split; [done|]. cbn [accept_write_capacity write_covered_end]. rewrite <-Hcov. split_and!; [done|done|].
      cbn [append_metadata_covered_end set_append_coverage result_size write_metadata_bytes].
      rewrite Z.max_r by (sizes; lia). replace (window * w + window * n) with (window * (w + n)) by lia.
      replace (w * (SEQUENTIAL_APPEND_PATH_CLAIMS_V1 * MUTATION_METADATA_INCREMENT_BYTES_V1) + (n * (SEQUENTIAL_APPEND_PATH_CLAIMS_V1 * MUTATION_METADATA_INCREMENT_BYTES_V1) + 0)) with ((w + n) * (SEQUENTIAL_APPEND_PATH_CLAIMS_V1 * MUTATION_METADATA_INCREMENT_BYTES_V1)) by (sizes; lia).
      apply claimed_windows; [lia|]. sizes; lia.
Qed.
Lemma append_all_spec e lengths claimed : base_size e = 0 → claimed_for (result_size e) (append_metadata_covered_end e) claimed → 0 ≤ result_size e →
  Forall (λ n, 0 < n) lengths → result_size e + foldr Z.add 0 lengths + 2 * window ≤ u64_max →
  ∃ more e', append_all e lengths = Ok (more, e') ∧ result_size e' = result_size e + foldr Z.add 0 lengths ∧
    claimed_for (result_size e') (append_metadata_covered_end e') (claimed + more).
Proof.
  intros Hb Hc H0 Hl. revert e claimed Hb Hc H0. induction Hl as [|n lengths Hn Hl IH]; intros e claimed Hb Hc H0 Hm; cbn [append_all foldr] in *.
  { exists 0, e. split_and!; [done|lia|by rewrite Z.add_0_r]. }
  assert (0 ≤ foldr Z.add 0 lengths) by (clear -Hl; induction Hl; cbn [foldr]; lia).
  destruct (append_to_spec e n claimed Hb Hc H0 Hn ltac:(lia)) as (m1&e1&->&Hb1&Hs1&Hc1). rewrite Ok_bind. cbn [fst snd].
  destruct (IH e1 (claimed + m1) Hb1 Hc1 ltac:(lia) ltac:(lia)) as (m2&e2&->&Hs2&Hc2). rewrite Ok_bind. cbn [fst snd].
  exists (m1 + m2), e2. split_and!; [done|lia|by rewrite Z.add_assoc].
Qed.

(** C19: the metadata that appends to a new file claim depends on its size, not
    on the number of writes: a sequence of appends is always planned, covers the
    file, and claims less than half of its size and eight megabytes. *)
Theorem append_claims_amortized sequence lengths : Forall (λ n, 0 < n) lengths → lengths ≠ [] → foldr Z.add 0 lengths + 2 * window ≤ u64_max →
  ∃ claimed e covered, append_all (new 0 sequence) lengths = Ok (claimed, e) ∧ result_size e = foldr Z.add 0 lengths ∧
    append_metadata_covered_end e = Some covered ∧ result_size e ≤ covered ∧ 2 * claimed < result_size e + window.
Proof.
  intros Hl Hne Hm. destruct (append_all_spec (new 0 sequence) lengths 0) as (claimed&e&Ha&Hs&Hc); [done|by apply claimed_nothing|done|done|done|].
  cbn [new result_size] in Hs. rewrite Z.add_0_l in Hc, Hs. assert (0 < result_size e).
  { rewrite Hs. destruct Hl as [|n lengths Hn Hl]; [done|]. cbn [foldr]. assert (0 ≤ foldr Z.add 0 lengths) by (clear -Hl; induction Hl; cbn [foldr]; lia). lia. }
  inversion Hc as [H0|H0 Hcov|w Hw H0 Hcov]; [lia|..]; (eexists _, e, _; split_and!; [done|done|by symmetry| |]); [done|sizes; lia|lia|sizes; lia].
Qed.
Lemma append_claims_amortized_witness : ∃ claimed e covered, append_all (new 0 0) [4096; 1048576; 16777216] = Ok (claimed, e) ∧
  result_size e = 17829888 ∧ append_metadata_covered_end e = Some covered ∧ result_size e ≤ covered ∧ 2 * claimed < result_size e + window.
Proof. apply (append_claims_amortized 0 [4096; 1048576; 16777216]); [repeat (apply List.Forall_cons; [lia|]); apply List.Forall_nil|done|by vm_compute]. Defined.
End FileCapacity.
