(* ===== verification/ReadPlan.v ===== *)
(** * Read plans ([ReadPlan] of [fastdup-posix/src/versioned_file.rs])

    A read is planned as spans of the layers that are visible, from the newest
    layer down, and then executed. *)
From S2P Require Export DirtyEpochOps.

Module ReadPlan.
Import SparseData SparseDataOps RangeSet DirtyEpoch DirtyEpochOps.

Inductive ReadSource := Resident (b : bytes) | External (file : CommittedFile) (offset : Z) | Zero.
Record ReadSpan := { span_start : Z; span_end : Z; span_source : ReadSource }.
(** A plan under construction: its spans, and the intervals not covered yet. *)
Definition cover_state : Type := list ReadSpan * list (Z * Z).

(** ** Covering *)

(** The loop of [ReadPlan::cover]: each interval in turn, what it adds to the
    spans and what it leaves *)
Fixpoint cover_each (uncovered : list (Z * Z)) (start end_ : Z) (source : Z * Z → presult ReadSource) : presult cover_state :=
  match uncovered with
  | [] => Ok ([], [])
  | (lo, hi) :: uncovered =>
      let overlap := (Z.max lo start, Z.min hi end_) in
      if overlap.2 <=? overlap.1 then
        r ← cover_each uncovered start end_ source;
        Ok (r.1, (lo, hi) :: r.2)
      else
        src ← source overlap;
        r ← cover_each uncovered start end_ source;
        Ok ({| span_start := overlap.1; span_end := overlap.2; span_source := src |} :: r.1,
            (if lo <? overlap.1 then [(lo, overlap.1)] else []) ++
            (if overlap.2 <? hi then [(overlap.2, hi)] else []) ++ r.2)
  end.
(** [ReadPlan::cover_many]: the whole overlap replaced at once *)
Fixpoint cover_spans (intervals : list (Z * Z)) (start end_ : Z) (source : Z * Z → presult ReadSource) : presult (list ReadSpan) :=
  match intervals with
  | [] => Ok []
  | (lo, hi) :: intervals =>
      let overlap := (Z.max lo start, Z.min hi end_) in
      src ← source overlap;
      spans ← cover_spans intervals start end_ source;
      Ok ({| span_start := overlap.1; span_end := overlap.2; span_source := src |} :: spans)
  end.
Definition cover_many (uncovered : list (Z * Z)) (start end_ : Z) (source : Z * Z → presult ReadSource) : presult cover_state :=
  if end_ <=? start then Ok ([], uncovered)
  else
    let first := partition_point (λ i, i.2 <=? start) uncovered in
    let last := partition_point (λ i, i.1 <? end_) uncovered in
    if (last <=? first)%nat then Ok ([], uncovered)
    else
      head ← expect (uncovered !! first);
      tail ← expect (uncovered !! (last - 1)%nat);
      spans ← cover_spans (take (last - first) (drop first uncovered)) start end_ source;
      Ok (spans, take first uncovered ++ (if head.1 <? start then [(head.1, start)] else []) ++
                 (if end_ <? tail.2 then [(end_, tail.2)] else []) ++ drop last uncovered).
(** [ReadPlan::cover] *)
Definition cover (st : cover_state) (start end_ : Z) (source : Z * Z → presult ReadSource) : presult cover_state :=
  r ← (if (16 <? length st.2)%nat then cover_many st.2 start end_ source else cover_each st.2 start end_ source);
  Ok (st.1 ++ r.1, r.2).

(** [ReadPlan::external] *)
Definition external (file : CommittedFile) (offset : Z) : presult ReadSource :=
  match shared_read_source file with
  | Some (shared, base) => o ← expect (checked_add u64_max base offset); Ok (External shared o)
  | None => Ok (External file offset)
  end.
Fixpoint cover_holes (st : cover_state) (ranges : gmap Z Z) (starts : list Z) : presult cover_state :=
  match starts with
  | [] => Ok st
  | start :: starts =>
      end_ ← expect (ranges !! start);
      st ← cover st start end_ (λ _, Ok Zero);
      cover_holes st ranges starts
  end.
Definition resident_source (start : Z) (d : ResidentDirtyData) (range : Z * Z) : presult ReadSource :=
  from ← expect (checked_sub range.1 start);
  to ← expect (checked_sub range.2 start);
  b ← index_range (payload_bytes (resident_payload d)) from to;
  Ok (Resident b).
Fixpoint cover_residents (st : cover_state) (l : list (Z * ResidentDirtyData)) : presult cover_state :=
  match l with
  | [] => Ok st
  | (start, d) :: l =>
      end_ ← expect (checked_add u64_max start (resident_len d));
      st ← cover st start end_ (resident_source start d);
      cover_residents st l
  end.
Definition external_source (start : Z) (d : ExternalDirtyData) (range : Z * Z) : presult ReadSource :=
  o ← expect (checked_add u64_max (source_offset d) range.1);
  o ← expect (checked_sub o start);
  external (source d) o.
Fixpoint cover_externals (st : cover_state) (l : list (Z * ExternalDirtyData)) : presult cover_state :=
  match l with
  | [] => Ok st
  | (start, d) :: l =>
      end_ ← expect (checked_add u64_max start (ext_length d));
      st ← cover st start end_ (external_source start d);
      cover_externals st l
  end.
Definition candidates {V} (m : gmap Z V) (offset end_ : Z) : presult (list (Z * V)) :=
  inside ← range_between m offset end_;
  Ok (match range_le_back m offset with Some kv => [kv] | None => [] end ++ inside).
Definition plan_epoch (st : cover_state) (e : DirtyEpoch) (offset end_ : Z) : presult cover_state :=
  st ← cover st (result_size e) end_ (λ _, Ok Zero);
  starts ← overlapping_starts (holes e) offset end_;
  st ← cover_holes st (holes e) starts;
  residents ← candidates (extents (data e)) offset end_;
  st ← cover_residents st residents;
  externals ← candidates (external_extents (data e)) offset end_;
  cover_externals st externals.
(** The loop over the epochs, the newest first *)
Fixpoint plan_epochs (st : cover_state) (epochs : list DirtyEpoch) (offset end_ : Z) : presult cover_state :=
  match epochs with
  | [] => Ok st
  | e :: epochs =>
      st ← plan_epoch st e offset end_;
      match st.2 with [] => Ok st | _ :: _ => plan_epochs st epochs offset end_ end
  end.
(** [ReadPlan::new] *)
Definition plan_new (committed : CommittedFile) (epochs : list DirtyEpoch) (size offset length : Z) : presult (list ReadSpan) :=
  let end_ := Z.min (saturating_add u64_max offset length) size in
  if end_ <=? offset then Ok []
  else
    st ← plan_epochs ([], [(offset, end_)]) (reverse epochs) offset end_;
    st ← cover st 0 (file_logical_size committed) (λ range, external committed range.1);
    st ← cover st offset end_ (λ _, Ok Zero);
    Ok (sort_by_key span_start st.1).

(** ** Executing *)

(** [join_read_segments] *)
Definition join_read_segments (segments : list bytes) : presult bytes :=
  match segments with
  | [segment] => Ok segment
  | _ => _ ← ok_or (checked_add u64_max 0 (blen (concat segments))) FileTooLarge; Ok (concat segments)
  end.
(** Adjacent spans of one file are read together *)
Fixpoint coalesce (file : CommittedFile) (offset length : Z) (spans : list ReadSpan) : presult (Z * list ReadSpan) :=
  match spans with
  | {| span_start := next_start; span_end := next_end; span_source := External next_file next_offset |} :: rest =>
      joins ← Ok (file_id file =? file_id next_file)
              &&? (o ← expect (checked_add u64_max offset length); Ok (next_offset =? o))
              &&? (n ← expect (checked_add u64_max length next_end);
                   n ← expect (checked_sub n next_start); Ok (n <=? 1024 * 1024));
      if joins : bool then coalesce file offset (length + (next_end - next_start)) rest else Ok (length, spans)
  | _ => Ok (length, spans)
  end.
Fixpoint execute_spans (fuel : nat) (spans : list ReadSpan) : presult (list bytes) :=
  match fuel, spans with
  | _, [] => Ok []
  | O, _ => Panic
  | S fuel, span :: rest =>
      let length := span_end span - span_start span in
      match span_source span with
      | Resident b => output ← execute_spans fuel rest; Ok (b :: output)
      | Zero => output ← execute_spans fuel rest; Ok (zeros length :: output)
      | External file offset =>
          r ← coalesce file offset length rest;
          reject_if (u32_max <? r.1) FileTooLarge;;
          segments ← read_segments_at file offset r.1;
          reject_if (negb (blen (concat segments) =? r.1)) Io;;
          output ← execute_spans fuel r.2;
          Ok (segments ++ output)
      end
  end.
(** [ReadPlan::execute_segments] and [execute_shared] *)
Definition execute_segments (spans : list ReadSpan) : presult (list bytes) :=
  output ← execute_spans (length spans) spans;
  if (128 <? length output)%nat then b ← join_read_segments output; Ok [b] else Ok output.
Definition execute_shared (spans : list ReadSpan) : presult bytes :=
  segments ← execute_segments spans;
  join_read_segments segments.
End ReadPlan.
