(* ===== verification/ReadPlanOps.v ===== *)
(** * Read plans are exact

    The proofs of [ReadPlan], in three modules: what covering the range of a read
    leaves open, what a finished plan reads, and what running it returns. *)
From S2P Require Export ReadPlan.

(** ** Covering intervals

    The two routines of a read plan that cover intervals agree, and what they
    leave together with what they add tiles the range of the read. *)
Module ReadPlanCover.
Import SparseData SparseDataOps RangeSet DirtyEpoch DirtyEpochOps ReadPlan.
Implicit Types (l un : list (Z * Z)).

(** Intervals that are nonempty, disjoint and in order. *)
Fixpoint ordered (lo : Z) (l : list (Z * Z)) (hi : Z) : Prop :=
  match l with [] => lo ≤ hi | (x, y) :: l => lo ≤ x < y ∧ ordered y l hi end.
Lemma ordered_le lo l hi : ordered lo l hi → lo ≤ hi.
Proof. revert lo. induction l as [|[x y] l IH]; intros lo; [done|]. intros [? ?%IH]. lia. Qed.
Lemma ordered_mono lo lo' l hi : ordered lo l hi → lo' ≤ lo → ordered lo' l hi.
Proof. destruct l as [|[x y] l]; cbn [ordered]; [lia|]. intros [? ?] ?. split; [lia|done]. Qed.
Lemma ordered_elem lo l hi i : ordered lo l hi → i ∈ l → lo ≤ i.1 < i.2 ∧ i.2 ≤ hi.
Proof.
  revert lo. induction l as [|[x y] l IH]; intros lo; [by intros _ ?%not_elem_of_nil|]. intros [Hxy Hl] [->|Hi]%elem_of_cons.
  - apply ordered_le in Hl. cbn [fst snd]. lia.
  - specialize (IH y Hl Hi). lia.
Qed.

(** ** The two routines agree *)
Section Agree.
Context (start end_ : Z) (source : Z * Z → presult ReadSource).
Lemma cover_each_app l1 l2 : cover_each (l1 ++ l2) start end_ source =
  (r1 ← cover_each l1 start end_ source; r2 ← cover_each l2 start end_ source; Ok (r1.1 ++ r2.1, r1.2 ++ r2.2)).
Proof.
  induction l1 as [|[x y] l1 IH]; cbn [app cover_each].
  - rewrite Ok_bind. cbn [fst snd app]. destruct (cover_each l2 start end_ source) as [[? ?]| |]; done.
  - cbv zeta. destruct (_ <=? _).
    + rewrite IH. destruct (cover_each l1 start end_ source) as [r1| |]; [|done|done]. rewrite !Ok_bind.
      destruct (cover_each l2 start end_ source) as [r2| |]; done.
    + destruct (source _) as [src| |]; [|done|done]. rewrite !Ok_bind, IH.
      destruct (cover_each l1 start end_ source) as [r1| |]; [|done|done]. rewrite !Ok_bind.
      destruct (cover_each l2 start end_ source) as [r2| |]; [|done|done]. rewrite !Ok_bind. cbn [fst snd app]. by rewrite <-!app_assoc.
Qed.
Lemma cover_each_skip l : Forall (λ i, Z.min i.2 end_ ≤ Z.max i.1 start) l → cover_each l start end_ source = Ok ([], l).
Proof.
  induction 1 as [|[x y] l Hxy _ IH]; cbn [cover_each]; [done|]. cbn [fst snd] in *. cbv zeta. rewrite (proj2 (Z.leb_le _ _)) by lia.
  by rewrite IH.
Qed.
Lemma cover_each_later l hi : start < end_ → ordered start l hi → Forall (λ i, i.1 < end_) l →
  cover_each l start end_ source = (spans ← cover_spans l start end_ source;
    Ok (spans, match last l with Some i => if end_ <? i.2 then [(end_, i.2)] else [] | None => [] end)).
Proof.
  intros Hse. assert (Hgen : ∀ lo, start ≤ lo → ordered lo l hi → Forall (λ i, i.1 < end_) l →
    cover_each l start end_ source = (spans ← cover_spans l start end_ source;
    Ok (spans, match last l with Some i => if end_ <? i.2 then [(end_, i.2)] else [] | None => [] end))); [|by apply Hgen].
  induction l as [|[x y] l IH]; intros lo Hlo; [done|]. intros [Hxy Hl] [Hx Hr]%Forall_cons. cbn [fst snd] in Hx.
  cbn [cover_each cover_spans]. cbv zeta. cbn [fst snd]. rewrite (proj2 (Z.leb_gt _ _)) by lia.
  destruct (source _) as [src| |]; [|done|done]. rewrite !Ok_bind. rewrite (IH y) by (lia || done).
  destruct (cover_spans l start end_ source) as [spans| |]; [|done|done]. rewrite !Ok_bind. cbn [fst snd].
  rewrite (proj2 (Z.ltb_ge x (Z.max x start))) by lia. cbn [app]. do 2 f_equal. destruct l as [|i l].
  - cbn [last snd]. rewrite app_nil_r. destruct (Z.ltb_spec end_ y); [by rewrite Z.min_r, (proj2 (Z.ltb_lt _ _)) by lia|by rewrite Z.min_l, Z.ltb_irrefl by lia].
  - destruct i as [x' y']. destruct Hl as [? _]. apply Forall_cons in Hr as [Hx' _]. cbn [fst] in Hx'.
    rewrite Z.min_l, Z.ltb_irrefl by lia. done.
Qed.
Lemma cover_each_mid i l hi : start < end_ → i.1 < i.2 → start < i.2 → i.1 < end_ → ordered i.2 l hi → Forall (λ j, j.1 < end_) l →
  cover_each (i :: l) start end_ source = (spans ← cover_spans (i :: l) start end_ source;
    Ok (spans, (if i.1 <? start then [(i.1, start)] else []) ++
      match last (i :: l) with Some j => if end_ <? j.2 then [(end_, j.2)] else [] | None => [] end)).
Proof.
  destruct i as [x y]. cbn [fst snd]. intros Hse Hxy Hy Hx Hl Hr. cbn [cover_each cover_spans]. cbv zeta. cbn [fst snd].
  rewrite (proj2 (Z.leb_gt _ _)) by lia. destruct (source _) as [src| |]; [|done|done]. rewrite !Ok_bind.
  rewrite (cover_each_later l hi Hse) by (done || by apply (ordered_mono y); [|lia]).
  destruct (cover_spans l start end_ source) as [spans| |]; [|done|done]. rewrite !Ok_bind. cbn [fst snd]. do 2 f_equal.
  assert ((if x <? Z.max x start then [(x, Z.max x start)] else []) = (if x <? start then [(x, start)] else [])) as ->.
  { destruct (Z.ltb_spec x start); [by rewrite Z.max_r, (proj2 (Z.ltb_lt _ _)) by lia|by rewrite Z.max_l, Z.ltb_irrefl by lia]. }
  f_equal. destruct l as [|[x' y'] l].
  - cbn [last snd]. rewrite app_nil_r. destruct (Z.ltb_spec end_ y); [by rewrite Z.min_r, (proj2 (Z.ltb_lt _ _)) by lia|by rewrite Z.min_l, Z.ltb_irrefl by lia].
  - destruct Hl as [? _]. apply Forall_cons in Hr as [Hx' _]. cbn [fst] in Hx'. rewrite Z.min_l, Z.ltb_irrefl by lia. done.
Qed.
(** The intervals before the range, in it and after it. *)
Lemma ordered_split lo l hi : start < end_ → ordered lo l hi →
  ∃ l1 l2 l3, l = l1 ++ l2 ++ l3 ∧ Forall (λ i, i.1 < i.2 ∧ i.2 ≤ start) l1 ∧
    Forall (λ i, start < i.2 ∧ i.1 < i.2 ∧ i.1 < end_) l2 ∧ Forall (λ i, end_ ≤ i.1 ∧ i.1 < i.2) l3.
Proof.
  intros Hse. revert lo. induction l as [|[x y] l IH]; intros lo; [intros _; by exists [], [], []|]. intros [Hxy Hl].
  destruct (decide (y ≤ start)) as [Hy|Hy].
  - destruct (IH y Hl) as (l1&l2&l3&->&H1&H2&H3). exists ((x, y) :: l1), l2, l3. split_and!; [done| |done|done].
    apply Forall_cons. split; [cbn [fst snd]; lia|done].
  - assert (Hrest : ∀ i, i ∈ l → y ≤ i.1 < i.2) by (intros i Hi; by destruct (ordered_elem y l hi i Hl Hi)).
    destruct (decide (x < end_)) as [Hx|Hx].
    + destruct (IH y Hl) as (l1&l2&l3&->&H1&H2&H3). destruct l1 as [|i l1].
      * exists [], ((x, y) :: l2), l3. split_and!; [done|done| |done]. apply Forall_cons. split; [cbn [fst snd]; lia|done].
      * apply Forall_cons in H1 as [Hi _]. pose proof (Hrest i ltac:(by left)). lia.
    + exists [], [], ((x, y) :: l). split_and!; [done|done|done|]. apply Forall_cons. split; [cbn [fst snd]; lia|].
      apply list.Forall_forall. intros i Hi. specialize (Hrest i Hi). lia.
Qed.
Lemma ordered_app lo l1 l2 hi : ordered lo (l1 ++ l2) hi → ∃ mid, ordered lo l1 mid ∧ ordered mid l2 hi.
Proof.
  revert lo. induction l1 as [|[x y] l1 IH]; intros lo; cbn [app ordered]; [intros Hl; exists lo; by split|].
  intros [Hxy (mid&H1&H2)%IH]. by exists mid.
Qed.
Lemma cover_many_each lo un hi : ordered lo un hi → cover_many un start end_ source = cover_each un start end_ source.
Proof.
  intros Hun. unfold cover_many. destruct (Z.leb_spec end_ start) as [Hge|Hse].
  { rewrite cover_each_skip; [done|]. apply list.Forall_forall. intros i Hi. lia. }
  destruct (ordered_split lo un hi Hse Hun) as (l1&l2&l3&->&H1&H2&H3).
  assert (Hs1 : cover_each l1 start end_ source = Ok ([], l1)).
  { apply cover_each_skip. eapply Forall_impl; [exact H1|]. cbn beta. lia. }
  assert (Hs3 : cover_each l3 start end_ source = Ok ([], l3)).
  { apply cover_each_skip. eapply Forall_impl; [exact H3|]. cbn beta. lia. }
  rewrite (partition_point_spec (λ i, i.2 <=? start) (l1 ++ l2 ++ l3) (length l1)).
  2: { apply partitioned_app; [|apply Forall_app; split]; (eapply Forall_impl; [eassumption|]); cbn beta; intros i Hi; [apply Z.leb_le|apply Z.leb_gt..]; lia. }
  rewrite (partition_point_spec (λ i, i.1 <? end_) (l1 ++ l2 ++ l3) (length (l1 ++ l2))).
  2: { rewrite app_assoc. apply partitioned_app; [apply Forall_app; split|]; (eapply Forall_impl; [eassumption|]); cbn beta; intros i Hi; [apply Z.ltb_lt..|apply Z.ltb_ge]; lia. }
  rewrite !cover_each_app, Hs1, Ok_bind, Hs3. cbv zeta. rewrite length_app. destruct l2 as [|i l2].
  { cbn [length app]. rewrite (proj2 (Nat.leb_le _ _)) by lia. cbn [cover_each]. by rewrite !Ok_bind. }
  cbn [length]. rewrite (proj2 (Nat.leb_gt _ _)) by lia.
  apply ordered_app in Hun as (m1&_&Hun). apply ordered_app in Hun as (m2&Hun&_). destruct i as [x y]. destruct Hun as [Hxy Hl2].
  apply Forall_cons in H2 as [Hi H2]. cbn [fst snd] in Hi.
  rewrite (cover_each_mid (x, y) l2 m2) by (cbn [fst snd]; (lia || done || (eapply Forall_impl; [exact H2|]; cbn beta; lia))).
  rewrite (lookup_app_r l1 _ (length l1)), Nat.sub_diag by lia. cbn [app lookup list_lookup expect]. rewrite Ok_bind.
  replace (length l1 + S (length l2) - 1)%nat with (length l1 + length l2)%nat by lia.
  rewrite (lookup_app_r l1 _ (length l1 + length l2)) by lia. replace (length l1 + length l2 - length l1)%nat with (length l2) by lia.
  assert (Hlast : ((x, y) :: l2 ++ l3) !! length l2 = last ((x, y) :: l2)).
  { rewrite app_comm_cons, lookup_app_l by (cbn [length]; lia). rewrite last_lookup. done. }
  destruct (last ((x, y) :: l2)) as [j|] eqn:Hj. 2: { by apply last_None in Hj. }
  rewrite Hlast. cbn [expect]. rewrite Ok_bind, drop_app_length.
  replace (length l1 + S (length l2) - length l1)%nat with (length ((x, y) :: l2)) by (cbn [length]; lia).
  rewrite app_comm_cons, take_app_length, take_app_length.
  assert (drop (length l1 + S (length l2)) (l1 ++ (((x, y) :: l2) ++ l3)) = l3) as ->.
  { rewrite app_assoc. apply drop_app_length'. rewrite length_app. done. }
  destruct (cover_spans ((x, y) :: l2) start end_ source) as [spans| |]; [|done|done]. rewrite !Ok_bind. cbn [fst snd]. rewrite app_nil_r. by rewrite <-!app_assoc.
Qed.
End Agree.

(** ** Tilings *)
Fixpoint tiles (a : Z) (l : list (Z * Z)) (b : Z) : Prop :=
  match l with [] => a = b | (x, y) :: l => x = a ∧ x < y ∧ tiles y l b end.
Lemma tiles_le a l b : tiles a l b → a ≤ b.
Proof. revert a. induction l as [|[x y] l IH]; intros a; cbn [tiles]; [lia|]. intros (->&?&?%IH). lia. Qed.
Lemma tiles_app a l1 l2 b : tiles a (l1 ++ l2) b ↔ ∃ m, tiles a l1 m ∧ tiles m l2 b.
Proof.
  revert a. induction l1 as [|[x y] l1 IH]; intros a; cbn [app tiles].
  - split; [intros Hl; by exists a|intros (m&->&Hl); done].
  - rewrite IH. naive_solver.
Qed.
Lemma tiles_split a l1 x y l2 b pieces : tiles a (l1 ++ (x, y) :: l2) b → tiles x pieces y → tiles a (l1 ++ pieces ++ l2) b.
Proof.
  rewrite !tiles_app. intros (m&H1&->&Hxy&H2) Hp. exists m. split; [done|]. apply tiles_app. by exists y.
Qed.
Lemma tiles_elem a l b i : tiles a l b → i ∈ l → a ≤ i.1 < i.2 ∧ i.2 ≤ b.
Proof.
  intros Hl Hi. apply list_elem_of_split in Hi as (l1&l2&->). destruct i as [x y].
  apply tiles_app in Hl as (m&H1%tiles_le&->&Hxy&H2%tiles_le). cbn [fst snd]. lia.
Qed.
Lemma tiles_sorted a l b : tiles a l b → StronglySorted (λ i j, i.1 < j.1) l.
Proof.
  revert a. induction l as [|[x y] l IH]; intros a Hl; [constructor|]. destruct Hl as (->&Hxy&Hl). constructor; [by eapply IH|].
  apply list.Forall_forall. intros i Hi. destruct (tiles_elem y l b i Hl Hi). cbn [fst]. lia.
Qed.

Definition interval (s : ReadSpan) : Z * Z := (span_start s, span_end s).
(** The spans and the uncovered intervals tile the range together. *)
Definition tiled (a b : Z) (spans : list ReadSpan) (un : list (Z * Z)) : Prop :=
  ∃ chain, tiles a chain b ∧ chain ≡ₚ (interval <$> spans) ++ un.

Section Cover.
Context (start end_ : Z) (source : Z * Z → presult ReadSource) (a b : Z).
Definition pieces (x y : Z) : list (Z * Z) :=
  (if x <? Z.max x start then [(x, Z.max x start)] else []) ++ [(Z.max x start, Z.min y end_)] ++
  (if Z.min y end_ <? y then [(Z.min y end_, y)] else []).
Lemma pieces_tile x y : Z.max x start < Z.min y end_ → tiles x (pieces x y) y.
Proof.
  intros Hxy. unfold pieces. destruct (Z.ltb_spec x (Z.max x start)), (Z.ltb_spec (Z.min y end_) y); cbn [app tiles]; lia.
Qed.
Lemma cover_each_tiled un X sp un' chain : cover_each un start end_ source = Ok (sp, un') →
  tiles a chain b → chain ≡ₚ X ++ un → ∃ chain', tiles a chain' b ∧ chain' ≡ₚ X ++ (interval <$> sp) ++ un'.
Proof.
  revert X sp un' chain. induction un as [|[x y] un IH]; intros X sp un' chain Hc Ht Hp; cbn [cover_each] in Hc.
  { apply Ok_inj in Hc as [= <- <-]. by exists chain. }
  cbv zeta in Hc. cbn [fst snd] in Hc. destruct (Z.leb_spec (Z.min y end_) (Z.max x start)) as [Hle|Hlt].
  - destruct (cover_each un start end_ source) as [[sp0 un0]| |]; [|done|done]. rewrite Ok_bind in Hc. apply Ok_inj in Hc as [= <- <-].
    destruct (IH (X ++ [(x, y)]) sp0 un0 chain eq_refl Ht) as (chain'&Ht'&Hp'); [by rewrite <-app_assoc|].
    exists chain'. split; [done|]. rewrite Hp'. cbn [fst snd]. rewrite <-app_assoc.
    apply Permutation_app_head, (Permutation_middle (interval <$> sp0) un0).
  - destruct (source _) as [src| |]; [|done|done]. rewrite Ok_bind in Hc.
    destruct (cover_each un start end_ source) as [[sp0 un0]| |]; [|done|done]. rewrite Ok_bind in Hc. apply Ok_inj in Hc as [= <- <-].
    assert (Hin : (x, y) ∈ chain) by (rewrite Hp; apply elem_of_app; right; by left).
    apply list_elem_of_split in Hin as (c1&c2&->). 
    assert (Hp2 : c1 ++ c2 ≡ₚ X ++ un) by (apply (Permutation_app_inv c1 c2 X un (x, y)); done).
    destruct (IH (X ++ pieces x y) sp0 un0 (c1 ++ pieces x y ++ c2) eq_refl) as (chain'&Ht'&Hp').
    { by apply (tiles_split a c1 x y); [|apply pieces_tile]. }
    { rewrite (Permutation_app_comm (pieces x y) c2), app_assoc, Hp2, <-!app_assoc. apply Permutation_app_head, Permutation_app_comm. }
    exists chain'. split; [done|]. rewrite Hp'. cbn [fst snd fmap list_fmap interval span_start span_end]. unfold pieces.
    set (L := if x <? Z.max x start then _ else _). set (R := if Z.min y end_ <? y then _ else _).
    rewrite <-!app_assoc. apply Permutation_app_head. cbn [app]. rewrite <-Permutation_middle. apply Permutation_cons; [done|].
    change (list_fmap _ _ interval sp0) with (interval <$> sp0). rewrite !app_assoc. apply Permutation_app_tail.
    rewrite <-app_assoc. rewrite (Permutation_app_comm L (R ++ _)), <-!app_assoc, (Permutation_app_comm R). rewrite <-app_assoc. done.
Qed.
Lemma cover_each_ordered un sp un' lo hi : cover_each un start end_ source = Ok (sp, un') → ordered lo un hi → ordered lo un' hi.
Proof.
  revert sp un' lo. induction un as [|[x y] un IH]; intros sp un' lo Hc Hun; cbn [cover_each] in Hc.
  { by apply Ok_inj in Hc as [= <- <-]. }
  destruct Hun as [Hxy Hun]. cbv zeta in Hc. cbn [fst snd] in Hc. destruct (Z.leb_spec (Z.min y end_) (Z.max x start)) as [Hle|Hlt].
  - destruct (cover_each un start end_ source) as [[sp0 un0]| |]; [|done|done]. rewrite Ok_bind in Hc. apply Ok_inj in Hc as [= <- <-].
    split; [done|]. by eapply IH.
  - destruct (source _) as [src| |]; [|done|done]. rewrite Ok_bind in Hc.
    destruct (cover_each un start end_ source) as [[sp0 un0]| |]; [|done|done]. rewrite Ok_bind in Hc. apply Ok_inj in Hc as [= <- <-].
    pose proof (IH sp0 un0 y eq_refl Hun) as H0. cbn [fst snd].
    destruct (Z.ltb_spec x (Z.max x start)), (Z.ltb_spec (Z.min y end_) y); cbn [app ordered];
      repeat split; try lia; (eapply ordered_mono; [exact H0|lia]) || idtac.
Qed.
(** The spans added satisfy what the source gives for uncovered ranges. *)
Lemma cover_each_spans (Q : ReadSpan → Prop) (U : Z → Prop) un lo hi : ordered lo un hi →
  (∀ i x, i ∈ un → i.1 ≤ x < i.2 → U x) →
  (∀ p q, start ≤ p → p < q → q ≤ end_ → (∀ x, p ≤ x < q → U x) →
    ∃ src, source (p, q) = Ok src ∧ Q {| span_start := p; span_end := q; span_source := src |}) →
  ∃ sp un', cover_each un start end_ source = Ok (sp, un') ∧ Forall Q sp ∧
    ∀ x, in_ranges un' x = in_ranges un x && negb ((start <=? x) && (x <? end_)).
Proof.
  intros Hun HU Hsrc. revert lo Hun. induction un as [|[x y] un IH]; intros lo Hun; cbn [cover_each]; [by exists [], []|].
  destruct Hun as [Hxy Hun]. destruct (IH ltac:(intros i z Hi; apply HU; by right) y Hun) as (sp0&un0&->&HQ&Hin). cbv zeta. cbn [fst snd].
  assert (Hcons : ∀ z, in_ranges ((x, y) :: un) z = (x <=? z) && (z <? y) || in_ranges un z) by done.
  destruct (Z.leb_spec (Z.min y end_) (Z.max x start)) as [Hle|Hlt].
  - rewrite Ok_bind. exists sp0, ((x, y) :: un0). split_and!; [done|done|]. intros z. unfold in_ranges at 1. cbn [existsb fst snd]. fold (in_ranges un0 z).
    rewrite Hin, Hcons. destruct (Z.leb_spec x z), (Z.ltb_spec z y), (Z.leb_spec start z), (Z.ltb_spec z end_); cbn [andb orb negb]; try done;
      (lia || by rewrite ?andb_true_r).
  - destruct (Hsrc (Z.max x start) (Z.min y end_)) as (src&->&HQs); [lia|lia|lia|intros z Hz; apply (HU (x, y)); [by left|cbn [fst snd]; lia]|].
    rewrite !Ok_bind. eexists _, _. split_and!; [done|by constructor|]. intros z. rewrite Hcons. cbn [fst snd].
    assert (Happ : ∀ l1 l2, in_ranges (l1 ++ l2) z = in_ranges l1 z || in_ranges l2 z) by (intros; apply existsb_app). rewrite !Happ, Hin.
    destruct (Z.ltb_spec x (Z.max x start)), (Z.ltb_spec (Z.min y end_) y); unfold in_ranges at 1 2; cbn [existsb fst snd];
    destruct (in_ranges un z);
    repeat match goal with |- context [?u <=? ?v] => destruct (Z.leb_spec u v) | |- context [?u <? ?v] => destruct (Z.ltb_spec u v) end;
    cbn [andb orb negb]; (done || lia).
Qed.
End Cover.
End ReadPlanCover.

(** ** Reads are exact

    A plan covers the range of the read with the newest visible data, and
    executing it returns the bytes of the file. *)
Module ReadPlanExact.
Import SparseData SparseDataOps RangeSet DirtyEpoch DirtyEpochOps ReadPlan ReadPlanCover.

Section Reads.
Context (heap : Z → option (CommittedFile * (Z → option byte))).

(** The bytes of a range. *)
Definition bytes_of (v : Z → byte) (a b : Z) : bytes := v <$> seqZ a (b - a).
Lemma bytes_of_app v a c b : a ≤ c ≤ b → bytes_of v a b = bytes_of v a c ++ bytes_of v c b.
Proof.
  intros Hc. unfold bytes_of. rewrite <-fmap_app. f_equal. replace (b - a) with ((c - a) + (b - c)) by lia.
  rewrite seqZ_app by lia. by replace (a + (c - a)) with c by lia.
Qed.
Lemma blen_bytes_of v a b : a ≤ b → blen (bytes_of v a b) = b - a.
Proof. intros Hab. change (blen (bytes_of v a b)) with (Z.of_nat (length (bytes_of v a b))). unfold bytes_of. rewrite length_fmap, length_seqZ. lia. Qed.
Lemma bytes_of_ext v w a b : (∀ x, a ≤ x < b → v x = w x) → bytes_of v a b = bytes_of w a b.
Proof. intros Heq. unfold bytes_of. apply list_fmap_ext. intros i x Hx%list_elem_of_lookup_2%elem_of_seqZ. apply Heq. lia. Qed.
Lemma bytes_of_shift v a b d : bytes_of (λ x, v (d + x)) a b = bytes_of v (d + a) (d + b).
Proof.
  unfold bytes_of. replace (d + b - (d + a)) with (b - a) by lia. rewrite <-(fmap_add_seqZ d a).
  rewrite <-list_fmap_compose. apply list_fmap_ext. intros i x _. done.
Qed.
Lemma bytes_of_zero v a b : (∀ x, a ≤ x < b → v x = x00) → zeros (b - a) = bytes_of v a b.
Proof.
  intros Hz. rewrite (bytes_of_ext v (λ _, x00)) by done. change (zeros (b - a)) with (replicate (Z.to_nat (b - a)) x00). unfold bytes_of.
  rewrite <-(length_seqZ a (b - a)). generalize (seqZ a (b - a)) as l. induction l as [|x l IH]; [done|]. cbn [length replicate fmap list_fmap]. by f_equal.
Qed.

(** What a span promises of the bytes. *)
Definition span_ok (v : Z → byte) (s : ReadSpan) : Prop :=
  span_start s < span_end s ∧
  match span_source s with
  | Resident b => b = bytes_of v (span_start s) (span_end s)
  | Zero => ∀ x, span_start s ≤ x < span_end s → v x = x00
  | External f o => live heap f ∧ file_reads heap f ∧ 0 ≤ o ∧ o + (span_end s - span_start s) ≤ file_logical_size f ∧
      file_logical_size f ≤ u64_max ∧ ∀ x, span_start s ≤ x < span_end s → byte_at heap f (o + (x - span_start s)) = v x
  end.

(** ** Planning *)
Record plan_ok (v : Z → byte) (R : Z → option byte) (lo hi : Z) (st : cover_state) : Prop := {
  po_spans : Forall (span_ok v) st.1;
  po_ordered : ordered lo st.2 hi;
  po_tiled : tiled lo hi st.1 st.2;
  po_rest x : in_ranges st.2 x = true → v x = default x00 (R x);
}.
(** A source that serves the uncovered part of a range. *)
Definition serves_range (v : Z → byte) (st : cover_state) (start end_ : Z) (source : Z * Z → presult ReadSource) : Prop :=
  ∀ p q, start ≤ p → p < q → q ≤ end_ → (∀ x, p ≤ x < q → in_ranges st.2 x = true) →
    ∃ src, source (p, q) = Ok src ∧ span_ok v {| span_start := p; span_end := q; span_source := src |}.
Lemma in_ranges_elem l i x : i ∈ l → i.1 ≤ x < i.2 → in_ranges l x = true.
Proof. intros Hi Hx. apply existsb_exists. exists i. split; [by apply list_elem_of_In|]. apply andb_true_iff. rewrite Z.leb_le, Z.ltb_lt. lia. Qed.
Lemma cover_spec v R lo hi st start end_ source : plan_ok v R lo hi st → serves_range v st start end_ source →
  ∃ st', cover st start end_ source = Ok st' ∧ plan_ok v R lo hi st' ∧
    ∀ x, in_ranges st'.2 x = in_ranges st.2 x && negb ((start <=? x) && (x <? end_)).
Proof.
  intros [Hsp Hord (chain&Ht&Hp) Hrest] Hsrc. unfold cover.
  destruct (cover_each_spans start end_ source (span_ok v) (λ x, in_ranges st.2 x = true) st.2 lo hi Hord) as (sp&un'&Hc&HQ&Hin).
  { intros i x. apply in_ranges_elem. }
  { exact Hsrc. }
  assert (Hm : cover_many st.2 start end_ source = Ok (sp, un')) by (by rewrite (cover_many_each start end_ source lo _ hi)).
  exists (st.1 ++ sp, un'). split_and!; [destruct (_ <? _)%nat; [by rewrite Hm|by rewrite Hc]| |done]. split; cbn [fst snd].
  - by apply Forall_app.
  - by eapply cover_each_ordered.
  - destruct (cover_each_tiled start end_ source lo hi st.2 (interval <$> st.1) sp un' chain Hc Ht Hp) as (chain'&Ht'&Hp').
    exists chain'. split; [done|]. by rewrite fmap_app, <-app_assoc.
  - intros x. rewrite Hin. intros [Hx _]%andb_true_iff. by apply Hrest.
Qed.

(** The coverings of one kind of extents. *)
Fixpoint cover_all (st : cover_state) (l : list (Z * Z * (Z * Z → presult ReadSource))) : presult cover_state :=
  match l with
  | [] => Ok st
  | (start, end_, source) :: l => st ← cover st start end_ source; cover_all st l
  end.
Lemma cover_all_spec v R lo hi st l : plan_ok v R lo hi st → (∀ t, t ∈ l → serves_range v st t.1.1 t.1.2 t.2) →
  ∃ st', cover_all st l = Ok st' ∧ plan_ok v R lo hi st' ∧
    ∀ x, in_ranges st'.2 x = true → in_ranges st.2 x = true ∧ ∀ t, t ∈ l → ¬ t.1.1 ≤ x < t.1.2.
Proof.
  revert st. induction l as [|[[a b] src] l IH]; intros st Hst Hl; cbn [cover_all].
  { exists st. split_and!; [done|done|]. intros x Hx. split; [done|]. by intros t ?%not_elem_of_nil. }
  destruct (cover_spec v R lo hi st a b src Hst (Hl (a, b, src) ltac:(by left))) as (st1&->&Hst1&Hin1). rewrite Ok_bind.
  assert (Hsub : ∀ x, in_ranges st1.2 x = true → in_ranges st.2 x = true) by (intros x; rewrite Hin1; by intros [? _]%andb_true_iff).
  destruct (IH st1 Hst1) as (st'&->&Hst'&Hin').
  { intros t Ht p q Hp Hpq Hq Hx. apply (Hl t ltac:(by right) p q Hp Hpq Hq). intros x Hx'. by apply Hsub, Hx. }
  exists st'. split_and!; [done|done|]. intros x Hx. destruct (Hin' x Hx) as [Hx1 Hno]. split; [by apply Hsub|].
  intros t [->|Ht]%elem_of_cons; [|by apply Hno]. rewrite Hin1 in Hx1. apply andb_true_iff in Hx1 as [_ Hx1].
  apply negb_true_iff, andb_false_iff in Hx1. cbn [fst snd]. rewrite Z.leb_gt, Z.ltb_ge in Hx1. lia.
Qed.

Lemma external_ok f o n : file_ok heap f → 0 ≤ o → 0 < n → o + n ≤ file_logical_size f →
  ∃ src, external f o = Ok src ∧ ∀ v start, (∀ x, start ≤ x < start + n → byte_at heap f (o + (x - start)) = v x) →
    span_ok v {| span_start := start; span_end := start + n; span_source := src |}.
Proof.
  intros Hf Ho Hn Hon. pose proof (fo_size _ _ Hf). unfold external. destruct (shared_read_source f) as [[g base]|] eqn:Hg.
  - destruct (fo_shared _ _ Hf g base Hg) as (Hlive&Hreads&Hb&Hbs&Hgs&Hbyte). rewrite checked_add_ok by lia. cbn [expect]. rewrite Ok_bind.
    eexists. split; [done|]. intros v start Hv. split; cbn [span_start span_end span_source]; [lia|].
    split_and!; [done|done|lia|lia|done|]. intros x Hx. rewrite <-Hv, Hbyte by lia. f_equal. lia.
  - eexists. split; [done|]. intros v start Hv. split; cbn [span_start span_end span_source]; [lia|].
    split_and!; [apply Hf|apply Hf|lia|lia|lia|done].
Qed.
Lemma candidates_spec {V T} `{Extent V T} (m : gmap Z V) lo hi : extents_wf m → lo < hi →
  ∃ l, candidates m lo hi = Ok l ∧ (∀ kv, kv ∈ l → m !! kv.1 = Some kv.2) ∧
    (∀ k v x, m !! k = Some v → covers k v x → lo ≤ x < hi → (k, v) ∈ l) ∧ StronglySorted (λ x y, x.1 < y.1) l.
Proof.
  intros Hwf Hlh. unfold candidates, range_between. rewrite (proj2 (Z.ltb_lt lo hi) Hlh), Ok_bind. eexists. split_and!; [done| | |].
  - intros [k v] [Hk|Hk]%elem_of_app; [|by apply elem_of_filter_iter in Hk as [? _]].
    destruct (range_le_back m lo) as [[k' v']|] eqn:Hr; [|by apply not_elem_of_nil in Hk]. apply list_elem_of_singleton in Hk as [= -> ->].
    by apply last_filter_Some in Hr as [? _].
  - intros k v x Hk Hc Hx. unfold covers in Hc. apply elem_of_app. destruct (decide (lo < k)) as [Hlt|Hge].
    + right. apply elem_of_filter_iter. split; [done|cbn [fst]; lia].
    + left. assert (Hr : range_le_back m lo = Some (k, v)); [|rewrite Hr; by left]. apply last_filter_Some. split_and!; [done|cbn [fst]; lia|].
      intros k' v' Hk' Hle. cbn [fst] in Hle. destruct (decide (k < k')); [|lia]. pose proof (ew_full _ Hwf _ _ Hk').
      assert (k = k'); [|lia]. apply (ew_disjoint _ Hwf k v k' v' k'); unfold covers; (done || lia).
  - apply StronglySorted_app_2; [|destruct (range_le_back m lo); repeat constructor|apply filter_sorted].
    intros [k v] [k' v'] Hk [_ Hk']%elem_of_filter_iter. destruct (range_le_back m lo) as [kv|] eqn:Hr; [|by apply not_elem_of_nil in Hk].
    apply list_elem_of_singleton in Hk as <-. apply last_filter_Some in Hr as (_&Hle&_). cbn [fst] in *. lia.
Qed.

Lemma cover_holes_all st ranges l : (∀ kv, kv ∈ l → ranges !! kv.1 = Some kv.2) →
  cover_holes st ranges l.*1 = cover_all st ((λ kv, (kv.1, kv.2, λ _, Ok Zero)) <$> l).
Proof.
  revert st. induction l as [|[k d] l IH]; intros st Hin; [done|]. cbn [fmap list_fmap cover_holes cover_all fst snd].
  pose proof (Hin (k, d) ltac:(by left)) as Hk. cbn [fst snd] in Hk. rewrite Hk. cbn [expect]. rewrite Ok_bind. destruct (cover st k d _) as [st1| |]; [|done|done]. rewrite !Ok_bind.
  apply IH. intros; apply Hin; by right.
Qed.
Lemma cover_residents_all st l : (∀ kv, kv ∈ l → fin kv.1 kv.2 ≤ u64_max) →
  cover_residents st l = cover_all st ((λ kv, (kv.1, fin kv.1 kv.2, resident_source kv.1 kv.2)) <$> l).
Proof.
  revert st. induction l as [|[k d] l IH]; intros st Hin; [done|]. cbn [fmap list_fmap cover_residents cover_all fst snd].
  pose proof (Hin (k, d) ltac:(by left)) as Hf. cbn [fst snd] in Hf. rewrite fin_resident in Hf |- *. rewrite checked_add_ok by lia. cbn [expect]. rewrite Ok_bind.
  destruct (cover st k _ _) as [st1| |]; [|done|done]. rewrite !Ok_bind. apply IH. intros; apply Hin; by right.
Qed.
Lemma cover_externals_all st l : (∀ kv, kv ∈ l → fin kv.1 kv.2 ≤ u64_max) →
  cover_externals st l = cover_all st ((λ kv, (kv.1, fin kv.1 kv.2, external_source kv.1 kv.2)) <$> l).
Proof.
  revert st. induction l as [|[k d] l IH]; intros st Hin; [done|]. cbn [fmap list_fmap cover_externals cover_all fst snd].
  pose proof (Hin (k, d) ltac:(by left)) as Hf. cbn [fst snd] in Hf. rewrite fin_external in Hf |- *. rewrite checked_add_ok by lia. cbn [expect]. rewrite Ok_bind.
  destruct (cover st k _ _) as [st1| |]; [|done|done]. rewrite !Ok_bind. apply IH. intros; apply Hin; by right.
Qed.

(** The sum of a position of the read and an offset in a source fits. *)
Definition reach (e : DirtyEpoch) (hi : Z) : Prop :=
  ∀ k d, external_extents (data e) !! k = Some d → source_offset d + hi ≤ u64_max.
Lemma plan_ok_in v R lo hi st x : plan_ok v R lo hi st → in_ranges st.2 x = true → lo ≤ x < hi.
Proof.
  intros Hst (i&Hi&Hx)%existsb_exists. apply list_elem_of_In in Hi. destruct (ordered_elem lo st.2 hi i (po_ordered _ _ _ _ _ Hst) Hi).
  apply andb_true_iff in Hx as [?%Z.leb_le ?%Z.ltb_lt]. lia.
Qed.
Lemma serves_zero v R lo hi st a b : plan_ok v R lo hi st → (∀ x, in_ranges st.2 x = true → a ≤ x < b → R x = None) →
  serves_range v st a b (λ _, Ok Zero).
Proof.
  intros Hst Hn p q Hp Hpq Hq Hx. eexists. split; [done|]. split; cbn [span_start span_end span_source]; [done|].
  intros x Hx'. rewrite (po_rest _ _ _ _ _ Hst x (Hx x Hx')), Hn; [done|by apply Hx|lia].
Qed.
Lemma resident_data e k d x : epoch_wf heap e → extents (data e) !! k = Some d → k ≤ x < fin k d →
  ∀ below, epoch_at heap e below x = Some (val k d x).
Proof.
  intros He Hk Hx below. pose proof (ep_data _ _ He) as Hs. destruct (resident_bounds _ _ k d Hs Hk) as (?&Hsz&_). rewrite (ep_size _ _ He) in Hsz.
  assert (Hd : data_at heap (data e) x = Some (val k d x)).
  { unfold data_at. rewrite (proj2 (at_Some (extents (data e)) x (val k d x) (sw_resident _ _ Hs))); [done|]. by exists k, d. }
  unfold epoch_at. rewrite decide_True by lia. rewrite Hd. destruct (present (holes e) x) eqn:Hp; [|done].
  rewrite (ep_apart _ _ He x Hp) in Hd. done.
Qed.
Lemma external_data e k d x : epoch_wf heap e → external_extents (data e) !! k = Some d → k ≤ x < fin k d →
  ∀ below, epoch_at heap e below x = Some (byte_at heap (source d) (source_offset d + (x - k))).
Proof.
  intros He Hk Hx below. pose proof (ep_data _ _ He) as Hs. destruct (external_bounds _ _ k d Hs Hk) as (?&Hsz&_). rewrite (ep_size _ _ He) in Hsz.
  assert (Ha : at_ (external_extents (data e)) x = Some (source d, source_offset d + (x - k))).
  { apply at_Some; [apply Hs|]. by exists k, d. }
  assert (Hd : data_at heap (data e) x = Some (byte_at heap (source d) (source_offset d + (x - k)))).
  { unfold data_at. destruct (at_ (extents (data e)) x) eqn:Hr; [|by rewrite Ha].
    rewrite (sw_apart _ _ Hs x) in Ha by (by eexists). done. }
  unfold epoch_at. rewrite decide_True by lia. rewrite Hd. destruct (present (holes e) x) eqn:Hp; [|done].
  rewrite (ep_apart _ _ He x Hp) in Hd. done.
Qed.
Lemma serves_resident v e below lo hi st k d : epoch_wf heap e → plan_ok v (epoch_at heap e below) lo hi st →
  extents (data e) !! k = Some d → serves_range v st k (fin k d) (resident_source k d).
Proof.
  intros He Hst Hk p q Hp Hpq Hq Hx. destruct (resident_bounds _ _ k d (ep_data _ _ He) Hk) as (Hk0&_&_).
  unfold resident_source. cbn [fst snd]. unfold checked_sub. rewrite !(proj2 (Z.leb_le k _)) by lia. cbn [expect]. rewrite !Ok_bind.
  pose proof Hq as Hq'. rewrite fin_resident in Hq'. unfold resident_len in Hq'. rewrite index_range_in by lia. rewrite Ok_bind. eexists. split; [done|].
  split; cbn [span_start span_end span_source]; [done|]. apply list_eq. intros i.
  destruct (decide (i < Z.to_nat (q - p))%nat) as [Hi|Hi].
  - replace i with (Z.to_nat (Z.of_nat i)) at 1 by lia. rewrite lookup_sub by lia. unfold bytes_of. rewrite list_lookup_fmap, lookup_seqZ_lt by lia. cbn [fmap option_fmap option_map].
    assert (Hxi : p ≤ p + Z.of_nat i < q) by lia. rewrite (po_rest _ _ _ _ _ Hst _ (Hx _ Hxi)).
    rewrite (resident_data e k d) by (done || lia). unfold val, resident_extent. cbn [from_option id].
    replace (p - k + Z.of_nat i) with (p + Z.of_nat i - k) by lia. unfold id.
    destruct (lookup_lt_is_Some_2 (payload_bytes (resident_payload d)) (Z.to_nat (p + Z.of_nat i - k))) as [b Hb]; [|by rewrite Hb].
    change (blen (payload_bytes (resident_payload d))) with (Z.of_nat (length (payload_bytes (resident_payload d)))) in Hq'. lia.
  - rewrite !lookup_ge_None_2; [done| |].
    + unfold bytes_of. rewrite length_fmap, length_seqZ. lia.
    + assert (Hl : blen (sub (payload_bytes (resident_payload d)) (p - k) (q - k - (p - k))) = q - k - (p - k)) by (apply blen_sub; lia).
      change (blen (sub (payload_bytes (resident_payload d)) (p - k) (q - k - (p - k)))) with (Z.of_nat (length (sub (payload_bytes (resident_payload d)) (p - k) (q - k - (p - k))))) in Hl. lia.
Qed.
Lemma serves_external v e below lo hi st k d : epoch_wf heap e → 0 ≤ lo → plan_ok v (epoch_at heap e below) lo hi st → reach e hi →
  external_extents (data e) !! k = Some d → serves_range v st k (fin k d) (external_source k d).
Proof.
  intros He Hlo Hst Hreach Hk p q Hp Hpq Hq Hx. destruct (external_bounds _ _ k d (ep_data _ _ He) Hk) as (Hk0&_&_).
  destruct (sw_sources _ _ (ep_data _ _ He) k d Hk) as [Hf Hso Hse _]. specialize (Hreach k d Hk).
  pose proof (plan_ok_in _ _ _ _ _ p Hst (Hx p ltac:(lia))). unfold external_source. cbn [fst snd].
  rewrite checked_add_ok by lia. cbn [expect]. rewrite Ok_bind. unfold checked_sub. rewrite (proj2 (Z.leb_le k _)) by lia. cbn [expect]. rewrite Ok_bind.
  pose proof Hq as Hq'. rewrite fin_external in Hq'.
  destruct (external_ok (source d) (source_offset d + p - k) (q - p) Hf) as (src&->&Hspan); [lia|lia|lia|].
  eexists. split; [done|]. specialize (Hspan v p). replace (p + (q - p)) with q in Hspan by lia. apply Hspan. intros x Hx'.
  rewrite (po_rest _ _ _ _ _ Hst x (Hx x Hx')), (external_data e k d) by (done || lia). cbn [from_option id]. unfold id. f_equal. lia.
Qed.
Lemma plan_epoch_spec v e below lo hi st : epoch_wf heap e → 0 ≤ lo < hi → reach e hi → plan_ok v (epoch_at heap e below) lo hi st →
  ∃ st', plan_epoch st e lo hi = Ok st' ∧ plan_ok v below lo hi st'.
Proof.
  intros He Hlh Hreach Hst. pose proof (ep_data _ _ He) as Hs. unfold plan_epoch.
  destruct (cover_spec v _ lo hi st (result_size e) hi (λ _, Ok Zero) Hst) as (st1&->&Hst1&Hin1).
  { eapply serves_zero; [done|]. intros x _ Hx. unfold epoch_at. by rewrite decide_False by lia. }
  rewrite Ok_bind. destruct (overlapping_starts_ok (holes e) lo hi (ep_holes _ _ He)) as (hl&->&Hhl); [lia|]. rewrite Ok_bind.
  assert (Hhin : ∀ kv, kv ∈ hl → holes e !! kv.1 = Some kv.2) by (intros [k d] Hkv%(ol_elem _ _ _ _ Hhl); by destruct Hkv).
  rewrite cover_holes_all by done.
  destruct (cover_all_spec v _ lo hi st1 ((λ kv, (kv.1, kv.2, λ _, Ok Zero)) <$> hl) Hst1) as (st2&->&Hst2&Hin2).
  { intros t ([k d]&->&Hkv)%list_elem_of_fmap. cbn [fst snd]. apply Hhin in Hkv. cbn [fst snd] in Hkv. eapply serves_zero; [done|]. intros x _ Hx.
    unfold epoch_at. case_decide; [|done]. rewrite (proj2 (present_spec (holes e) x (ep_holes _ _ He))); [done|]. by exists k, d. }
  rewrite Ok_bind. destruct (candidates_spec (extents (data e)) lo hi (sw_resident _ _ Hs)) as (rl&->&Hrl&Hrc&_); [lia|]. rewrite Ok_bind.
  rewrite cover_residents_all. 2: { intros [k d] Hkv%Hrl. by destruct (resident_bounds _ _ k d Hs Hkv) as (_&_&?). }
  destruct (cover_all_spec v _ lo hi st2 ((λ kv, (kv.1, fin kv.1 kv.2, resident_source kv.1 kv.2)) <$> rl) Hst2) as (st3&->&Hst3&Hin3).
  { intros t ([k d]&->&Hkv%Hrl)%list_elem_of_fmap. cbn [fst snd] in *. by eapply serves_resident. }
  rewrite Ok_bind. destruct (candidates_spec (external_extents (data e)) lo hi (sw_external _ _ Hs)) as (el&->&Hel&Hec&_); [lia|]. rewrite Ok_bind.
  rewrite cover_externals_all. 2: { intros [k d] Hkv%Hel. by destruct (external_bounds _ _ k d Hs Hkv) as (_&_&?). }
  destruct (cover_all_spec v _ lo hi st3 ((λ kv, (kv.1, fin kv.1 kv.2, external_source kv.1 kv.2)) <$> el) Hst3) as (st4&->&Hst4&Hin4).
  { intros t ([k d]&->&Hkv%Hel)%list_elem_of_fmap. cbn [fst snd] in *. apply (serves_external v e below lo hi); [done|lia|done..]. }
  exists st4. split; [done|]. destruct Hst4 as [Hsp Hord Htl Hrest]. split; [done|done|done|]. intros x Hx. rewrite (Hrest x Hx). f_equal.
  assert (Hxr : lo ≤ x < hi) by (by eapply (plan_ok_in v _ lo hi st4)). destruct (Hin4 x Hx) as [Hx3 Hno4]. destruct (Hin3 x Hx3) as [Hx2 Hno3].
  destruct (Hin2 x Hx2) as [Hx1 Hno2]. rewrite Hin1 in Hx1. apply andb_true_iff in Hx1 as [_ Hx1].
  apply negb_true_iff, andb_false_iff in Hx1. rewrite Z.leb_gt, Z.ltb_ge in Hx1.
  unfold epoch_at. rewrite decide_True by lia. destruct (present (holes e) x) eqn:Hp.
  - apply present_spec in Hp as (k&d&Hk&Hkx); [|apply He]. exfalso. apply (Hno2 (k, d, λ _, Ok Zero)); [|done].
    apply (list_elem_of_fmap_2 (λ kv : Z * Z, (kv.1, kv.2, λ _ : Z * Z, Ok (E := PosixError) Zero)) _ (k, d)). apply (ol_elem _ _ _ _ Hhl). split; [done|]. unfold overlaps. rewrite fin_range. lia.
  - assert (Hr : at_ (extents (data e)) x = None).
    { apply at_None; [apply Hs|]. intros k d Hk Hc. apply (Hno3 (k, fin k d, resident_source k d)); [|done].
      apply (list_elem_of_fmap_2 (λ kv : Z * ResidentDirtyData, (kv.1, fin kv.1 kv.2, resident_source kv.1 kv.2)) _ (k, d)). by eapply Hrc. }
    assert (Hex : at_ (external_extents (data e)) x = None).
    { apply at_None; [apply Hs|]. intros k d Hk Hc. apply (Hno4 (k, fin k d, external_source k d)); [|done].
      apply (list_elem_of_fmap_2 (λ kv : Z * ExternalDirtyData, (kv.1, fin kv.1 kv.2, external_source kv.1 kv.2)) _ (k, d)). by eapply Hec. }
    unfold data_at. by rewrite Hr, Hex.
Qed.
End Reads.
End ReadPlanExact.

(** ** Executing a read plan *)
Module ReadPlanRun.
Import SparseData SparseDataOps RangeSet DirtyEpoch DirtyEpochOps ReadPlan ReadPlanCover ReadPlanExact.

Section Run.
Context (heap : Z → option (CommittedFile * (Z → option byte))).

(** What is seen through layers, the newest first, over a committed file. *)
Fixpoint layers_at (committed : CommittedFile) (epochs : list DirtyEpoch) : Z → option byte :=
  match epochs with
  | [] => file_at heap committed
  | e :: epochs => epoch_at heap e (layers_at committed epochs)
  end.
Definition view_byte (view : Z → option byte) (x : Z) : byte := default x00 (view x).

Lemma plan_epochs_spec v committed epochs lo hi st : 0 ≤ lo < hi →
  Forall (λ e, epoch_wf heap e ∧ reach e hi) epochs → plan_ok heap v (layers_at committed epochs) lo hi st →
  ∃ st', plan_epochs st epochs lo hi = Ok st' ∧ plan_ok heap v (file_at heap committed) lo hi st'.
Proof.
  intros Hlh He. revert st. induction He as [|e epochs [He Hr] _ IH]; intros st Hst; cbn [plan_epochs]; [by exists st|].
  destruct (plan_epoch_spec heap v e (layers_at committed epochs) lo hi st He Hlh Hr Hst) as (st1&->&Hst1). rewrite Ok_bind.
  destruct (st1.2) as [|i un] eqn:Hun; [|by apply IH]. exists st1. split; [done|]. destruct Hst1 as [H1 H2 H3 H4].
  split; [done|done|done|]. intros x. by rewrite Hun.
Qed.
Lemma covered_nil un lo hi : ordered lo un hi → (∀ x, in_ranges un x = false) → un = [].
Proof.
  destruct un as [|[x y] un]; [done|]. intros [Hxy _] Hno. specialize (Hno x). rewrite (in_ranges_elem _ (x, y)) in Hno; [done|by left|cbn [fst snd]; lia].
Qed.
Lemma tiled_sorted a b spans : tiled a b spans [] → tiles a (interval <$> sort_by_key span_start spans) b ∧ sort_by_key span_start spans ≡ₚ spans.
Proof.
  intros (chain&Ht&Hp). rewrite app_nil_r in Hp. apply Permutation_map_inv in Hp as (spans'&->&Hp).
  rewrite (sort_by_key_unique span_start spans' spans); [by split| |done].
  apply StronglySorted_Sorted. pose proof (tiles_sorted _ _ _ Ht) as Hs. clear -Hs. induction spans' as [|s l IH]; [constructor|].
  cbn [map] in Hs. apply StronglySorted_inv in Hs as [Hs Hf]. constructor; [by apply IH|]. rewrite list.Forall_forall in Hf. apply list.Forall_forall. intros s' Hs'.
  apply olt_Z. apply (Hf (interval s')). by apply (list_elem_of_fmap_2 interval).
Qed.
(** The plan of a read: spans that tile its range. *)
Definition spans_ok (v : Z → byte) (a b : Z) (spans : list ReadSpan) : Prop :=
  Forall (span_ok heap v) spans ∧ tiles a (interval <$> spans) b.
Lemma plan_new_spec committed epochs size offset n : file_ok heap committed →
  let hi := Z.min (offset + n) size in
  Forall (λ e, epoch_wf heap e ∧ reach e hi) epochs → 0 ≤ offset → 0 ≤ n → size ≤ u64_max →
  ∃ spans, plan_new committed epochs size offset n = Ok spans ∧
    (offset < hi → spans_ok (view_byte (layers_at committed (reverse epochs))) offset hi spans) ∧ (hi ≤ offset → spans = []).
Proof.
  intros Hc hi He Ho Hn Hsz. unfold plan_new. assert (Z.min (saturating_add u64_max offset n) size = hi) as ->.
  { unfold saturating_add, hi. lia. }
  cbv zeta. destruct (Z.leb_spec hi offset) as [Hle|Hlt]; [exists []; split_and!; [done|lia|done]|].
  set (v := view_byte (layers_at committed (reverse epochs))).
  destruct (plan_epochs_spec v committed (reverse epochs) offset hi ([], [(offset, hi)])) as (st1&->&Hst1); [lia|by apply Forall_reverse| |].
  { split; cbn [fst snd]; [done|cbn [ordered]; lia| |done]. exists [(offset, hi)]. split; [cbn [tiles]; lia|done]. }
  rewrite Ok_bind. destruct (cover_spec heap v _ offset hi st1 0 (file_logical_size committed) (λ range, external committed range.1) Hst1) as (st2&->&Hst2&Hin2).
  { intros p q Hp Hpq Hq Hx. cbn [fst]. destruct (external_ok heap committed p (q - p) Hc) as (src&->&Hs); [lia|lia|lia|].
    exists src. split; [done|]. specialize (Hs v p). replace (p + (q - p)) with q in Hs by lia. apply Hs. intros x Hx'.
    rewrite (po_rest _ _ _ _ _ _ Hst1 x (Hx x Hx')). unfold byte_at. do 2 f_equal. lia. }
  rewrite Ok_bind. destruct (cover_spec heap v _ offset hi st2 offset hi (λ _, Ok Zero) Hst2) as (st3&->&Hst3&Hin3).
  { eapply serves_zero; [done|]. intros x Hx Hxr. rewrite Hin2 in Hx. apply andb_true_iff in Hx as [_ Hx]. apply negb_true_iff, andb_false_iff in Hx.
    rewrite Z.leb_gt, Z.ltb_ge in Hx. apply (fo_beyond _ _ Hc). lia. }
  rewrite Ok_bind. assert (Hnil : st3.2 = []).
  { eapply covered_nil; [apply Hst3|]. intros x. destruct (in_ranges st3.2 x) eqn:Hx; [|done]. pose proof (plan_ok_in _ _ _ _ _ _ x Hst3 Hx) as Hxr.
    rewrite Hin3 in Hx. apply andb_true_iff in Hx as [_ Hx]. apply negb_true_iff, andb_false_iff in Hx. rewrite Z.leb_gt, Z.ltb_ge in Hx. lia. }
  eexists. split_and!; [done| |lia]. intros _. destruct Hst3 as [Hsp _ Htl _]. rewrite Hnil in Htl. apply tiled_sorted in Htl as [Ht Hperm].
  split; [|done]. by rewrite Hperm.
Qed.

(** ** Execution *)

(** A file whose reads succeed. *)
Definition serves (f : CommittedFile) : Prop :=
  ∀ o n, 0 ≤ o → 0 < n ≤ u32_max → o + n ≤ file_logical_size f → ∃ segments, read_segments_at f o n = Ok segments ∧ blen (concat segments) = n.
Lemma coalesce_spec v a file o n rest b : live heap file → b + b ≤ u64_max → 0 ≤ a →
  span_ok heap v {| span_start := a; span_end := a + n; span_source := External file o |} →
  Forall (span_ok heap v) rest → tiles (a + n) (interval <$> rest) b →
  ∃ n' rest', coalesce file o n rest = Ok (n', rest') ∧ n ≤ n' ∧ (length rest' ≤ length rest)%nat ∧
    span_ok heap v {| span_start := a; span_end := a + n'; span_source := External file o |} ∧ spans_ok v (a + n') b rest'.
Proof.
  intros Hlive Hb Ha. revert n. induction rest as [|[s e [bs|f o'|]] rest IH]; intros n Hsp Hrest Ht; cbn [coalesce];
    try (eexists _, _; split_and!; [done|lia|done|done|by split]; fail).
  pose proof Hsp as [Hn (_&Hreads&Ho&Hfit&Hfs&Hbyte)]. cbn [span_start span_end] in Hn, Hfit, Hbyte.
  cbn [fmap list_fmap interval span_start span_end tiles] in Ht. destruct Ht as (->&Hse&Ht).
  apply Forall_cons in Hrest as [Hs Hrest]. pose proof (tiles_le _ _ _ Ht).
  assert (Hstop : ∃ n' rest', Ok (E := PosixError) (n, {| span_start := a + n; span_end := e; span_source := External f o' |} :: rest) = Ok (n', rest') ∧ n ≤ n' ∧
    (length rest' ≤ length ({| span_start := a + n; span_end := e; span_source := External f o' |} :: rest))%nat ∧
    span_ok heap v {| span_start := a; span_end := a + n'; span_source := External file o |} ∧ spans_ok v (a + n') b rest').
  { eexists _, _. split_and!; [done|lia|done|done|]. split; [by constructor|]. cbn [fmap list_fmap interval span_start span_end tiles]. done. }
  destruct (Z.eqb_spec (file_id file) (file_id f)) as [Hid|Hid]; [|exact Hstop]. cbn [and_then]. rewrite checked_add_ok by lia. cbn [expect]. rewrite Ok_bind.
  destruct (Z.eqb_spec o' (o + n)) as [->|Hne]; [|exact Hstop]. cbn [and_then]. rewrite checked_add_ok by lia. cbn [expect]. rewrite Ok_bind.
  unfold checked_sub. rewrite (proj2 (Z.leb_le (a + n) (n + e))) by lia. cbn [expect]. rewrite !Ok_bind.
  destruct (_ <=? 1024 * 1024); [|exact Hstop].
  destruct Hs as [_ (Hlive'&_&_&Hfit'&_&Hbyte')]. cbn [span_start span_end] in Hfit', Hbyte'.
  assert (f = file) as ->. { destruct Hlive as [c Hc], Hlive' as [c' Hc']. rewrite Hid in Hc. congruence. }
  destruct (IH (n + (e - (a + n)))) as (n'&rest'&->&Hn'&Hlen&Hspan&Hok); [|done|by replace (a + (n + (e - (a + n)))) with e by lia|].
  - split; cbn [span_start span_end span_source]; [lia|]. split_and!; [done|done|done|lia|done|]. intros x Hx.
    destruct (decide (x < a + n)) as [Hlt|Hge]; [apply Hbyte; lia|]. rewrite <-Hbyte' by lia. f_equal. lia.
  - exists n', rest'. split_and!; [done|lia|cbn [length]; lia|done|done].
Qed.
Lemma execute_spans_spec v fuel spans a b : (length spans ≤ fuel)%nat → spans_ok v a b spans → 0 ≤ a → b - a ≤ u32_max → b + b ≤ u64_max →
  execute_spans fuel spans ≠ Panic ∧
  (∀ out, execute_spans fuel spans = Ok out → concat out = bytes_of v a b) ∧
  ((∀ f, live heap f → serves f) → ∃ out, execute_spans fuel spans = Ok out).
Proof.
  intros Hfuel. revert spans a Hfuel. induction fuel as [|fuel IH]; intros spans a Hfuel [Hsp Ht] Ha Hmax Hb.
  { destruct spans; cbn [length] in Hfuel; [|lia]. cbn [fmap list_fmap tiles] in Ht. subst b. split_and!; [done| |by exists []].
    intros out [= <-]. unfold bytes_of. by rewrite Z.sub_diag. }
  destruct spans as [|[s e src] spans].
  { cbn [fmap list_fmap tiles] in Ht. subst b. split_and!; [done| |by exists []]. intros out [= <-]. unfold bytes_of. by rewrite Z.sub_diag. }
  cbn [fmap list_fmap interval span_start span_end tiles] in Ht. destruct Ht as (->&Hae&Ht). apply Forall_cons in Hsp as [Hs Hsp]. cbn [length] in Hfuel.
  pose proof (tiles_le _ _ _ Ht). cbn [execute_spans span_start span_end span_source]. cbv zeta.
  destruct (IH spans e ltac:(lia) (conj Hsp Ht) ltac:(lia) ltac:(lia) Hb) as (Hnp&Hout&Hserve).
  assert (Hplain : ∀ piece, piece = bytes_of v a e →
     (output ← execute_spans fuel spans; Ok (piece :: output)) ≠ Panic ∧
     (∀ out, (output ← execute_spans fuel spans; Ok (piece :: output)) = Ok out → concat out = bytes_of v a b) ∧
     ((∀ f, live heap f → serves f) → ∃ out, (output ← execute_spans fuel spans; Ok (piece :: output)) = Ok out)).
  { intros piece ->. destruct (execute_spans fuel spans) as [output| |]; [|split_and!; [done|done|by intros [? ?]%Hserve]|done]. rewrite Ok_bind.
    split_and!; [done| |by eexists]. intros out [= <-]. cbn [concat]. rewrite (Hout output eq_refl). symmetry. apply bytes_of_app. lia. }
  destruct src as [bs|file o|].
  - destruct Hs as [_ ->]. by apply Hplain.
  - assert (Hs' : span_ok heap v {| span_start := a; span_end := a + (e - a); span_source := External file o |}) by (by replace (a + (e - a)) with e by lia).
    destruct (coalesce_spec v a file o (e - a) spans b) as (n'&rest'&->&Hn'&Hlen&Hspan&Hrest); [by destruct Hs as [_ (?&_)]|done|done|done|done|by replace (a + (e - a)) with e by lia|].
    rewrite Ok_bind. cbn [fst snd]. destruct Hspan as [_ (Hlive&Hreads&Ho&Hfit&Hfs&Hbyte)]. cbn [span_start span_end] in Hfit, Hbyte.
    pose proof (tiles_le _ _ _ (proj2 Hrest)). rewrite (proj2 (Z.ltb_ge u32_max n')) by lia. cbn [reject_if]. rewrite Ok_bind.
    destruct (Hreads o n' Ho ltac:(lia) ltac:(lia)) as [Hrnp Hread].
    destruct (IH rest' (a + n') ltac:(lia) Hrest ltac:(lia) ltac:(lia) Hb) as (Hnp'&Hout'&Hserve').
    destruct (read_segments_at file o n') as [segments|err|] eqn:Hseg; [|split_and!; [done|done|]|done].
    2: { intros Hall. destruct (Hall file Hlive o n') as (?&?&_); [lia|lia|lia|]. congruence. }
    rewrite Ok_bind. destruct (Z.eqb_spec (blen (concat segments)) n') as [Hbl|Hbl]; cbn [negb reject_if].
    2: { split_and!; [done|done|]. intros Hall. destruct (Hall file Hlive o n') as (?&?&?); [lia|lia|lia|]. congruence. }
    rewrite Ok_bind. destruct (execute_spans fuel rest') as [output| |]; [|split_and!; [done|done|by intros [? ?]%Hserve']|done]. rewrite Ok_bind.
    split_and!; [done| |by eexists]. intros out [= <-]. rewrite concat_app, (Hout' output eq_refl), (Hread segments eq_refl Hbl).
    rewrite (bytes_of_app v a (a + n') b) by lia. f_equal. pose proof (bytes_of_shift (byte_at heap file) a (a + n') (o - a)) as Hsh.
    replace (o - a + a) with o in Hsh by lia. replace (o - a + (a + n')) with (o + n') in Hsh by lia. unfold bytes_of in Hsh at 2.
    replace (o + n' - o) with n' in Hsh by lia. rewrite <-Hsh. apply bytes_of_ext. intros x Hx. rewrite <-Hbyte by lia. f_equal. lia.
  - destruct Hs as [_ Hz]. cbn [span_start span_end] in Hz. apply Hplain. by apply bytes_of_zero.
Qed.

(** An outcome that is the bytes of the range, or an error of a file. *)
Definition reads_exactly {A} (bytes_in : A → bytes) (v : Z → byte) (a b : Z) (r : presult A) : Prop :=
  r ≠ Panic ∧ (∀ out, r = Ok out → bytes_in out = bytes_of v a b) ∧ ((∀ f, live heap f → serves f) → ∃ out, r = Ok out).
Lemma join_exact v a b segments : a ≤ b ≤ u64_max → 0 ≤ a → concat segments = bytes_of v a b → join_read_segments segments = Ok (bytes_of v a b).
Proof.
  intros Hab Ha Hc. assert (Hl : blen (concat segments) = b - a) by (rewrite Hc; apply blen_bytes_of; lia).
  unfold join_read_segments. destruct segments as [|s [|s' segments]].
  - rewrite checked_add_ok by lia. cbn [ok_or]. by rewrite Ok_bind, Hc.
  - cbn [concat] in Hc. rewrite app_nil_r in Hc. by rewrite Hc.
  - rewrite checked_add_ok by lia. cbn [ok_or]. by rewrite Ok_bind, Hc.
Qed.
Lemma execute_segments_spec v spans a b : spans_ok v a b spans → 0 ≤ a → b - a ≤ u32_max → b + b ≤ u64_max →
  reads_exactly (@concat byte) v a b (execute_segments spans).
Proof.
  intros Hs Ha Hmax Hb. pose proof (tiles_le _ _ _ (proj2 Hs)). unfold execute_segments.
  destruct (execute_spans_spec v (length spans) spans a b) as (Hnp&Hout&Hserve); [done..|].
  destruct (execute_spans (length spans) spans) as [out| |]; [|split_and!; [done|done|by intros [? ?]%Hserve]|done]. rewrite Ok_bind.
  specialize (Hout out eq_refl). destruct (_ <? _)%nat.
  - rewrite (join_exact v a b) by (done || lia). rewrite Ok_bind. split_and!; [done| |by eexists]. intros out' [= <-]. cbn [concat]. by rewrite app_nil_r.
  - split_and!; [done| |by eexists]. by intros out' [= <-].
Qed.
Lemma execute_shared_spec v spans a b : spans_ok v a b spans → 0 ≤ a → b - a ≤ u32_max → b + b ≤ u64_max →
  reads_exactly id v a b (execute_shared spans).
Proof.
  intros Hs Ha Hmax Hb. pose proof (tiles_le _ _ _ (proj2 Hs)). unfold execute_shared.
  destruct (execute_segments_spec v spans a b Hs Ha Hmax Hb) as (Hnp&Hout&Hserve).
  destruct (execute_segments spans) as [out| |]; [|split_and!; [done|done|by intros [? ?]%Hserve]|done]. rewrite Ok_bind.
  rewrite (join_exact v a b) by (by apply Hout || lia). split_and!; [done| |by eexists]. by intros out' [= <-].
Qed.
Lemma execute_empty v a b : b ≤ a → reads_exactly (@concat byte) v a b (execute_segments []) ∧ reads_exactly id v a b (execute_shared []).
Proof.
  intros Hab. assert (Hz : bytes_of v a b = []) by (unfold bytes_of; by rewrite seqZ_nil by lia).
  split; (split_and!; [done| |by eexists]); rewrite Hz; by intros out [= <-].
Qed.
(** A planned read returns the bytes seen through the layers. *)
Lemma plan_read_spec committed epochs size offset n : file_ok heap committed →
  let hi := Z.min (offset + n) size in
  Forall (λ e, epoch_wf heap e ∧ reach e hi) epochs → 0 ≤ offset → 0 ≤ n ≤ u32_max → size + size ≤ u64_max →
  ∃ spans, plan_new committed epochs size offset n = Ok spans ∧
    reads_exactly (@concat byte) (view_byte (layers_at committed (reverse epochs))) offset hi (execute_segments spans) ∧
    reads_exactly id (view_byte (layers_at committed (reverse epochs))) offset hi (execute_shared spans).
Proof.
  intros Hc hi He Ho Hn Hsz. destruct (plan_new_spec committed epochs size offset n Hc He Ho) as (spans&->&Hs&Hnil); [lia|unfold u64_max in *; lia|].
  exists spans. split; [done|]. fold hi in Hs, Hnil. destruct (decide (offset < hi)) as [Hlt|Hge].
  - specialize (Hs Hlt). split; [apply execute_segments_spec|apply execute_shared_spec]; (done || lia).
  - rewrite Hnil by lia. apply execute_empty. lia.
Qed.
End Run.
End ReadPlanRun.
