(* ===== verification/Allocation.v ===== *)
(** * Allocated bytes ([allocated_bytes_through] of
    [fastdup-posix/src/versioned_file.rs])

    The allocation of a range is computed from the metadata of the layers alone;
    it is the number of its positions that hold data. *)
From S2P Require Export ReadPlanOps.

Module Allocation.
Import SparseData SparseDataOps RangeSet DirtyEpoch DirtyEpochOps ReadPlan ReadPlanCover ReadPlanExact ReadPlanRun.

(** The loop over the holes, and [apply_data] over the extents; [lower] is the
    allocation of the layers below *)
Fixpoint subtract_holes (lower : Z → Z → presult Z) (ranges : gmap Z Z) (start effective_end : Z) (starts : list Z)
    (allocated : Z) : presult Z :=
  match starts with
  | [] => Ok allocated
  | hole_start :: starts =>
      range_end ← expect (ranges !! hole_start);
      n ← lower (Z.max hole_start start) (Z.min range_end effective_end);
      allocated ← ok_or (checked_sub allocated n) Io;
      subtract_holes lower ranges start effective_end starts allocated
  end.
Fixpoint apply_data (lower : Z → Z → presult Z) (start effective_end : Z) (l : list (Z * Z)) (allocated : Z) : presult Z :=
  match l with
  | [] => Ok allocated
  | (extent_start, extent_length) :: l =>
      extent_end ← expect (checked_add u64_max extent_start extent_length);
      let overlap_start := Z.max extent_start start in
      let overlap_end := Z.min extent_end effective_end in
      if overlap_end <=? overlap_start then apply_data lower start effective_end l allocated
      else
        n ← lower overlap_start overlap_end;
        remaining ← ok_or (checked_sub allocated n) Io;
        allocated ← ok_or (checked_add u64_max remaining (overlap_end - overlap_start)) Io;
        apply_data lower start effective_end l allocated
  end.
(** The layers come with the newest first *)
Fixpoint allocated_through (committed : CommittedFile) (epochs : list DirtyEpoch) (start end_ : Z) : presult Z :=
  if end_ <=? start then Ok 0
  else
    match epochs with
    | [] =>
        let base_end := Z.min end_ (file_logical_size committed) in
        if base_end <=? start then Ok 0
        else
          let length := base_end - start in
          allocated ← allocated_bytes_in_range committed start length;
          if allocated <=? length then Ok allocated else Err Io
    | epoch :: lower_epochs =>
        let effective_end := Z.min end_ (result_size epoch) in
        if effective_end <=? start then Ok 0
        else
          allocated ← allocated_through committed lower_epochs start effective_end;
          starts ← overlapping_starts (holes epoch) start effective_end;
          allocated ← subtract_holes (allocated_through committed lower_epochs) (holes epoch) start effective_end starts allocated;
          residents ← candidates (extents (data epoch)) start effective_end;
          allocated ← apply_data (allocated_through committed lower_epochs) start effective_end
                        ((λ kv, (kv.1, resident_len kv.2)) <$> residents) allocated;
          externals ← candidates (external_extents (data epoch)) start effective_end;
          allocated ← apply_data (allocated_through committed lower_epochs) start effective_end
                        ((λ kv, (kv.1, ext_length kv.2)) <$> externals) allocated;
          if allocated <=? effective_end - start then Ok allocated else Err Io
    end.
Definition allocated_bytes_through (committed : CommittedFile) (epochs : list DirtyEpoch) (start end_ : Z) : presult Z :=
  allocated_through committed (reverse epochs) start end_.

(** ** Replacing ranges *)
Section Replace.
Context (P : Z → bool) (lower : Z → Z → presult Z) (start eff : Z).
Context (Hlower : ∀ a b, start ≤ a → a ≤ b → b ≤ eff → lower a b = Ok (count P a b)).
Context (Heff : start < eff) (Hfit : eff - start ≤ u64_max).

Definition in_part (t : Z * Z * bool) (x : Z) : bool := (t.1.1 <=? x) && (x <? t.1.2).
Fixpoint override (l : list (Z * Z * bool)) (q : Z → bool) : Z → bool :=
  match l with [] => q | t :: l => override l (λ x, if in_part t x then t.2 else q x) end.
(** Parts that do not meet inside the range. *)
Fixpoint parts_apart (l : list (Z * Z * bool)) : Prop :=
  match l with
  | [] => True
  | t :: l => (∀ u x, u ∈ l → start ≤ x < eff → in_part t x = true → in_part u x = false) ∧ parts_apart l
  end.
Fixpoint replace_all (l : list (Z * Z * bool)) (allocated : Z) : presult Z :=
  match l with
  | [] => Ok allocated
  | (a, b, filled) :: l =>
      if Z.min b eff <=? Z.max a start then replace_all l allocated
      else
        n ← lower (Z.max a start) (Z.min b eff);
        remaining ← ok_or (checked_sub allocated n) Io;
        allocated ← (if filled : bool then ok_or (checked_add u64_max remaining (Z.min b eff - Z.max a start)) Io else Ok remaining);
        replace_all l allocated
  end.
Lemma in_part_spec t x : in_part t x = true ↔ t.1.1 ≤ x < t.1.2.
Proof. unfold in_part. rewrite andb_true_iff, Z.leb_le, Z.ltb_lt. done. Qed.
Lemma replace_all_spec l q : parts_apart l → (∀ t x, t ∈ l → start ≤ x < eff → in_part t x = true → q x = P x) →
  replace_all l (count q start eff) = Ok (count (override l q) start eff).
Proof.
  revert q. induction l as [|[[a b] filled] l IH]; intros q Hap Hq; cbn [replace_all override]; [done|]. destruct Hap as [Hap Hl].
  set (q' := λ x, if in_part (a, b, filled) x then (a, b, filled).2 else q x).
  assert (Hq' : ∀ t x, t ∈ l → start ≤ x < eff → in_part t x = true → q' x = P x).
  { intros t x Ht Hx Hin. unfold q'. destruct (in_part (a, b, filled) x) eqn:Hab; [|apply (Hq t); [by right|done|done]].
    rewrite (Hap t x Ht Hx Hab) in Hin. done. }
  specialize (IH q' Hl Hq'). destruct (Z.leb_spec (Z.min b eff) (Z.max a start)) as [Hle|Hlt].
  { rewrite <-IH. f_equal. apply count_ext. intros x Hx. unfold q'. destruct (in_part (a, b, filled) x) eqn:Hab; [|done].
    apply in_part_spec in Hab. cbn [fst snd] in Hab. lia. }
  rewrite Hlower by lia. rewrite Ok_bind.
  assert (HPq : count P (Z.max a start) (Z.min b eff) = count q (Z.max a start) (Z.min b eff)).
  { apply count_ext. intros x Hx. symmetry. apply (Hq (a, b, filled)); [by left|lia|]. apply in_part_spec. cbn [fst snd]. lia. }
  assert (Hrep : count q' start eff = count q start eff - count q (Z.max a start) (Z.min b eff) + count q' (Z.max a start) (Z.min b eff)).
  { apply count_replace; [lia..|]. intros x Hx Hout. unfold q'. destruct (in_part (a, b, filled) x) eqn:Hab; [|done]. apply in_part_spec in Hab. cbn [fst snd] in Hab. lia. }
  assert (Hsplit : count q (Z.max a start) (Z.min b eff) ≤ count q start eff).
  { rewrite (count_split q start (Z.max a start) eff), (count_split q (Z.max a start) (Z.min b eff) eff) by lia.
    pose proof (count_nonneg q start (Z.max a start)). pose proof (count_nonneg q (Z.min b eff) eff). lia. }
  unfold checked_sub. rewrite HPq, (proj2 (Z.leb_le _ _)) by lia. cbn [ok_or]. rewrite Ok_bind.
  pose proof (count_le q' start eff ltac:(lia)). destruct filled.
  - assert (Hall : count q' (Z.max a start) (Z.min b eff) = Z.min b eff - Z.max a start).
    { apply count_all; [lia|]. intros x Hx. unfold q'. by rewrite (proj2 (in_part_spec (a, b, true) x)) by (cbn [fst snd]; lia). }
    rewrite checked_add_ok by lia. cbn [ok_or]. rewrite Ok_bind. rewrite Hall in Hrep. by rewrite <-Hrep.
  - assert (Hnone : count q' (Z.max a start) (Z.min b eff) = 0).
    { apply count_none. intros x Hx. unfold q'. by rewrite (proj2 (in_part_spec (a, b, false) x)) by (cbn [fst snd]; lia). }
    rewrite Ok_bind. replace (count q start eff - count q (Z.max a start) (Z.min b eff)) with (count q' start eff) by lia. done.
Qed.
Lemma replace_all_app l1 l2 n : replace_all (l1 ++ l2) n = (m ← replace_all l1 n; replace_all l2 m).
Proof.
  revert n. induction l1 as [|[[a b] filled] l1 IH]; intros n; cbn [app replace_all]; [done|].
  destruct (_ <=? _); [apply IH|]. destruct (lower _ _); [|done|done]. rewrite !Ok_bind. destruct (ok_or _ _); [|done|done]. rewrite !Ok_bind.
  destruct (if filled : bool then _ else _); [|done|done]. rewrite !Ok_bind. apply IH.
Qed.
Lemma override_out l q x : (∀ t, t ∈ l → in_part t x = false) → override l q x = q x.
Proof.
  revert q. induction l as [|t l IH]; intros q Hno; cbn [override]; [done|]. rewrite IH by (intros; apply Hno; by right).
  by rewrite (Hno t) by (by left).
Qed.
Lemma override_in l q t x : parts_apart l → start ≤ x < eff → t ∈ l → in_part t x = true → override l q x = t.2.
Proof.
  revert q. induction l as [|u l IH]; intros q Hap Hx Ht Hin; [by apply not_elem_of_nil in Ht|]. destruct Hap as [Hap Hl]. cbn [override].
  apply elem_of_cons in Ht as [->|Ht].
  - rewrite override_out; [by rewrite Hin|]. intros v Hv. by apply (Hap v x).
  - by apply IH.
Qed.
Lemma subtract_holes_all ranges l n : (∀ kv, kv ∈ l → ranges !! kv.1 = Some kv.2 ∧ kv.1 < eff ∧ start < kv.2 ∧ kv.1 < kv.2) →
  subtract_holes lower ranges start eff l.*1 n = replace_all ((λ kv, (kv.1, kv.2, false)) <$> l) n.
Proof.
  revert n. induction l as [|[k e] l IH]; intros n Hin; [done|]. cbn [fmap list_fmap subtract_holes replace_all fst snd].
  destruct (Hin (k, e)) as (Hk&?&?&?); [by left|]. cbn [fst snd] in *. rewrite Hk. cbn [expect]. rewrite Ok_bind, (proj2 (Z.leb_gt _ _)) by lia.
  destruct (lower _ _); [|done|done]. rewrite !Ok_bind. destruct (ok_or _ _); [|done|done]. rewrite !Ok_bind. apply IH. intros; apply Hin; by right.
Qed.
Lemma apply_data_all {V} (len : V → Z) (l : list (Z * V)) n : (∀ kv, kv ∈ l → kv.1 + len kv.2 ≤ u64_max) →
  apply_data lower start eff ((λ kv, (kv.1, len kv.2)) <$> l) n = replace_all ((λ kv, (kv.1, kv.1 + len kv.2, true)) <$> l) n.
Proof.
  revert n. induction l as [|[k v] l IH]; intros n Hin; [done|]. cbn [fmap list_fmap apply_data replace_all fst snd].
  pose proof (Hin (k, v) ltac:(by left)) as Hk. cbn [fst snd] in Hk. rewrite checked_add_ok by done. cbn [expect]. rewrite Ok_bind. cbv zeta.
  destruct (_ <=? _); [apply IH; intros; apply Hin; by right|]. destruct (lower _ _); [|done|done]. rewrite !Ok_bind.
  destruct (ok_or (checked_sub _ _) _); [|done|done]. rewrite !Ok_bind. destruct (ok_or _ _); [|done|done]. rewrite !Ok_bind. apply IH. intros; apply Hin; by right.
Qed.
End Replace.

(** ** The count *)
Section Count.
Context (heap : Z → option (CommittedFile * (Z → option byte))).

Definition allocated_at (view : Z → option byte) (x : Z) : bool := bool_decide (is_Some (view x)).
Lemma parts_apart_app start eff l1 l2 : parts_apart start eff l1 → parts_apart start eff l2 →
  (∀ t u x, t ∈ l1 → u ∈ l2 → in_part t x = true → in_part u x = true → False) → parts_apart start eff (l1 ++ l2).
Proof.
  induction l1 as [|t l1 IH]; intros H1 H2 Hd; cbn [app parts_apart]; [done|]. destruct H1 as [Ht H1]. split.
  - intros u x [Hu|Hu]%elem_of_app Hx Hin; [by apply (Ht u)|]. destruct (in_part u x) eqn:Hux; [|done].
    exfalso. apply (Hd t u x); [by left|done|done|done].
  - apply IH; [done|done|]. intros t' u x Ht'. apply Hd. by right.
Qed.
Lemma extents_apart {V T} `{Extent V T} (m : gmap Z V) (l : list (Z * V)) filled start eff : extents_wf m →
  (∀ kv, kv ∈ l → m !! kv.1 = Some kv.2) → StronglySorted (λ x y, x.1 < y.1) l →
  parts_apart start eff ((λ kv, (kv.1, fin kv.1 kv.2, filled)) <$> l).
Proof.
  intros Hwf Hin Hs. induction Hs as [|[k v] l _ IH Hx]; cbn [fmap list_fmap parts_apart]; [done|]. split; [|apply IH; intros; apply Hin; by right].
  intros u x ([k' v']&->&Hu)%list_elem_of_fmap _ Hkx. cbn [fst snd] in *. apply in_part_spec in Hkx. cbn [fst snd] in Hkx. rewrite list.Forall_forall in Hx.
  specialize (Hx _ Hu). cbn [fst] in Hx. destruct (in_part (k', fin k' v', filled) x) eqn:Hk'x; [|done]. apply in_part_spec in Hk'x. cbn [fst snd] in Hk'x.
  assert (k = k'); [|lia]. apply (ew_disjoint _ Hwf k v k' v' x); unfold covers; [apply (Hin (k, v)); by left|apply (Hin (k', v')); by right|lia|lia].
Qed.

(** ** One layer *)
Section Layer.
Context (e : DirtyEpoch) (He : epoch_wf heap e) (start eff : Z) (Heff : start < eff) (Hstart : 0 ≤ start) (Hsize : eff ≤ result_size e).
Context (hl : list (Z * Z)) (Hhl : overlap_list (holes e) start eff hl).
Context (rl : list (Z * ResidentDirtyData)) (Hrl : ∀ kv, kv ∈ rl → extents (data e) !! kv.1 = Some kv.2).
Context (Hrc : ∀ k v x, extents (data e) !! k = Some v → covers k v x → start ≤ x < eff → (k, v) ∈ rl).
Context (Hrs : StronglySorted (λ x y, x.1 < y.1) rl).
Context (el : list (Z * ExternalDirtyData)) (Hel : ∀ kv, kv ∈ el → external_extents (data e) !! kv.1 = Some kv.2).
Context (Hec : ∀ k v x, external_extents (data e) !! k = Some v → covers k v x → start ≤ x < eff → (k, v) ∈ el).
Context (Hes : StronglySorted (λ x y, x.1 < y.1) el).

Definition hole_parts : list (Z * Z * bool) := (λ kv, (kv.1, kv.2, false)) <$> hl.
Definition resident_parts : list (Z * Z * bool) := (λ kv, (kv.1, kv.1 + resident_len kv.2, true)) <$> rl.
Definition external_parts : list (Z * Z * bool) := (λ kv, (kv.1, kv.1 + ext_length kv.2, true)) <$> el.
Lemma hole_listed kv : kv ∈ hl → holes e !! kv.1 = Some kv.2 ∧ kv.1 < eff ∧ start < kv.2 ∧ kv.1 < kv.2.
Proof.
  destruct kv as [k d]. intros [Hk Ho]%(ol_elem _ _ _ _ Hhl). unfold overlaps in Ho. rewrite fin_range in Ho. cbn [fst snd].
  pose proof (rw_full _ (ep_holes _ _ He) k d Hk). split_and!; [done|lia..].
Qed.
Lemma hole_part t x : t ∈ hole_parts → in_part t x = true → t.2 = false ∧ present (holes e) x = true.
Proof.
  intros ([k d]&->&Hk)%list_elem_of_fmap Hx%in_part_spec. cbn [fst snd] in *. split; [done|]. apply present_spec; [apply He|].
  exists k, d. by split; [apply (hole_listed (k, d))|].
Qed.
Lemma resident_part t x : t ∈ resident_parts → in_part t x = true → t.2 = true ∧ is_Some (at_ (extents (data e)) x).
Proof.
  intros ([k d]&->&Hk%Hrl)%list_elem_of_fmap Hx%in_part_spec. cbn [fst snd] in *. split; [done|].
  exists (val k d x). apply at_Some; [apply (ep_data _ _ He)|]. exists k, d. by split_and!.
Qed.
Lemma external_part t x : t ∈ external_parts → in_part t x = true → t.2 = true ∧ is_Some (at_ (external_extents (data e)) x).
Proof.
  intros ([k d]&->&Hk%Hel)%list_elem_of_fmap Hx%in_part_spec. cbn [fst snd] in *. split; [done|].
  exists (val k d x). apply at_Some; [apply (ep_data _ _ He)|]. exists k, d. by split_and!.
Qed.
Lemma hole_no_data x : present (holes e) x = true → at_ (extents (data e)) x = None ∧ at_ (external_extents (data e)) x = None.
Proof.
  intros Hx%(ep_apart _ _ He). unfold data_at in Hx. destruct (at_ (extents (data e)) x); [done|].
  by destruct (at_ (external_extents (data e)) x) as [[? ?]|].
Qed.
Lemma layer_apart : parts_apart start eff (hole_parts ++ resident_parts ++ external_parts).
Proof.
  pose proof (ep_data _ _ He) as Hs. apply parts_apart_app; [|apply parts_apart_app|].
  - pose proof (extents_apart (holes e) hl false start eff (ranges_extents _ (ep_holes _ _ He))) as Hx.
    apply Hx; [intros kv Hkv; by apply hole_listed|apply Hhl].
  - exact (extents_apart (extents (data e)) rl true start eff (sw_resident _ _ Hs) Hrl Hrs).
  - exact (extents_apart (external_extents (data e)) el true start eff (sw_external _ _ Hs) Hel Hes).
  - intros t u x Ht Hu Htx Hux. destruct (resident_part t x Ht Htx) as [_ H2]. destruct (external_part u x Hu Hux) as [_ [? H3]].
    rewrite (sw_apart _ _ Hs x H2) in H3. done.
  - intros t u x Ht [Hu|Hu]%elem_of_app Htx Hux; destruct (hole_part t x Ht Htx) as [_ [Hn1 Hn2]%hole_no_data];
      [destruct (resident_part u x Hu Hux) as [_ [? Hh]]|destruct (external_part u x Hu Hux) as [_ [? Hh]]]; congruence.
Qed.
Lemma layer_view below x : start ≤ x < eff →
  override (hole_parts ++ resident_parts ++ external_parts) (allocated_at below) x = allocated_at (epoch_at heap e below) x.
Proof.
  intros Hx. pose proof (ep_data _ _ He) as Hs. set (L := hole_parts ++ resident_parts ++ external_parts).
  assert (Hin : ∀ t, t ∈ L → in_part t x = true → override L (allocated_at below) x = t.2) by (intros; apply (override_in start eff); [apply layer_apart|done..]).
  unfold allocated_at at 2. unfold epoch_at. rewrite decide_True by lia. destruct (present (holes e) x) eqn:Hp.
  { pose proof Hp as (k&d&Hk&Hkx)%present_spec; [|apply He]. rewrite (Hin (k, d, false)); [by rewrite bool_decide_false by (by intros [? ?])| |by apply in_part_spec].
    apply elem_of_app. left. apply (list_elem_of_fmap_2 (λ kv : Z * Z, (kv.1, kv.2, false)) _ (k, d)).
    apply (ol_elem _ _ _ _ Hhl). split; [done|]. unfold overlaps. rewrite fin_range. lia. }
  unfold data_at. destruct (at_ (extents (data e)) x) as [b|] eqn:Hr.
  { pose proof Hr as (k&d&Hk&Hkx&_)%at_Some; [|apply Hs]. rewrite (Hin (k, k + resident_len d, true)); [done| |by apply in_part_spec].
    apply elem_of_app. right. apply elem_of_app. left.
    apply (list_elem_of_fmap_2 (λ kv : Z * ResidentDirtyData, (kv.1, kv.1 + resident_len kv.2, true)) _ (k, d)). by eapply Hrc. }
  destruct (at_ (external_extents (data e)) x) as [[f o]|] eqn:Hx3.
  { pose proof Hx3 as (k&d&Hk&Hkx&_)%at_Some; [|apply Hs]. rewrite (Hin (k, k + ext_length d, true)); [done| |by apply in_part_spec].
    apply elem_of_app. right. apply elem_of_app. right.
    apply (list_elem_of_fmap_2 (λ kv : Z * ExternalDirtyData, (kv.1, kv.1 + ext_length kv.2, true)) _ (k, d)). by eapply Hec. }
  rewrite override_out; [done|]. intros t Ht. destruct (in_part t x) eqn:Htx; [|done]. exfalso. apply elem_of_app in Ht as [Ht|[Ht|Ht]%elem_of_app].
  - destruct (hole_part t x Ht Htx) as [_ ?]. congruence.
  - destruct (resident_part t x Ht Htx) as [_ [? ?]]. congruence.
  - destruct (external_part t x Ht Htx) as [_ [? ?]]. congruence.
Qed.
End Layer.

Lemma allocated_base committed start end_ : file_ok heap committed → 0 ≤ start < end_ →
  allocated_through committed [] start end_ = Ok (count (allocated_at (file_at heap committed)) start end_).
Proof.
  intros Hc Hlt. cbn [allocated_through]. rewrite (proj2 (Z.leb_gt end_ start)) by lia. cbv zeta. pose proof (fo_size _ _ Hc).
  assert (Hbeyond : ∀ a b, file_logical_size committed ≤ a → count (allocated_at (file_at heap committed)) a b = 0).
  { intros a b Ha. apply count_none. intros x Hx. apply bool_decide_false. rewrite (fo_beyond _ _ Hc) by lia. by intros [? ?]. }
  set (be := Z.min end_ (file_logical_size committed)). destruct (Z.leb_spec be start) as [Hb|Hb]; [by rewrite Hbeyond by lia|].
  rewrite (fo_range _ _ Hc) by lia. rewrite Ok_bind. replace (start + (be - start)) with be by lia.
  pose proof (count_le (file_present heap committed) start be ltac:(lia)).
  rewrite (proj2 (Z.leb_le _ _)) by lia. f_equal. rewrite (count_split _ start be end_) by lia.
  destruct (decide (end_ ≤ file_logical_size committed)); [rewrite (count_empty _ _ end_) by lia|rewrite (Hbeyond _ end_) by lia]; (rewrite Z.add_0_r; done).
Qed.
Lemma allocated_through_spec committed epochs start end_ : file_ok heap committed → Forall (epoch_wf heap) epochs → 0 ≤ start →
  allocated_through committed epochs start end_ = Ok (count (allocated_at (layers_at heap committed epochs)) start end_).
Proof.
  intros Hc He. revert start end_. induction He as [|e epochs He _ IH]; intros start end_ Hstart;
    (destruct (Z.leb_spec end_ start) as [Hle|Hlt]; [cbn [allocated_through]; rewrite (proj2 (Z.leb_le _ _)) by lia; by rewrite count_empty by lia|]).
  { apply allocated_base; [done|lia]. }
  cbn [allocated_through layers_at]. rewrite (proj2 (Z.leb_gt end_ start)) by lia. cbv zeta.
  set (eff := Z.min end_ (result_size e)). set (below := layers_at heap committed epochs) in *.
  pose proof (ep_data _ _ He) as Hs. pose proof (sw_size _ _ Hs) as Hsz. rewrite (ep_size _ _ He) in Hsz.
  assert (Hbeyond : ∀ a b, result_size e ≤ a → count (allocated_at (epoch_at heap e below)) a b = 0).
  { intros a b Ha. apply count_none. intros x Hx. apply bool_decide_false. unfold epoch_at. rewrite decide_False by lia. by intros [? ?]. }
  destruct (Z.leb_spec eff start) as [Hb|Hb]; [by rewrite Hbeyond by lia|].
  rewrite IH by lia. rewrite Ok_bind. destruct (overlapping_starts_ok (holes e) start eff (ep_holes _ _ He) Hb) as (hl&->&Hhl). rewrite Ok_bind.
  destruct (candidates_spec (extents (data e)) start eff (sw_resident _ _ Hs) Hb) as (rl&->&Hrl&Hrc&Hrs).
  destruct (candidates_spec (external_extents (data e)) start eff (sw_external _ _ Hs) Hb) as (el&->&Hel&Hec&Hes).
  assert (Hlower : ∀ a b, start ≤ a → a ≤ b → b ≤ eff → allocated_through committed epochs a b = Ok (count (allocated_at below) a b)) by (intros; apply IH; lia).
  rewrite (subtract_holes_all _ start eff Hb) by (intros kv; by apply (hole_listed e He start eff)). fold (hole_parts hl).
  pose proof (layer_apart e He start eff hl Hhl rl Hrl Hrs el Hel Hes) as Hapart.
  pose proof (replace_all_spec _ (allocated_through committed epochs) start eff Hlower Hb ltac:(lia) _ (allocated_at below) Hapart ltac:(done)) as Hall.
  rewrite replace_all_app in Hall. destruct (replace_all _ start eff (hole_parts hl) _) as [n1| |]; [|done|done]. rewrite Ok_bind, replace_all_app in Hall. rewrite !Ok_bind.
  rewrite (apply_data_all _ start eff). 2: { intros [k d] Hk%Hrl. destruct (resident_bounds _ _ k d Hs Hk) as (_&_&?). by rewrite <-fin_resident. }
  fold (resident_parts rl). destruct (replace_all _ start eff (resident_parts rl) n1) as [n2| |]; [|done|done]. rewrite Ok_bind in Hall. rewrite !Ok_bind.
  rewrite (apply_data_all _ start eff). 2: { intros [k d] Hk%Hel. destruct (external_bounds _ _ k d Hs Hk) as (_&_&?). by rewrite <-fin_external. }
  fold (external_parts el). rewrite Hall, Ok_bind. rewrite (count_ext _ (allocated_at (epoch_at heap e below))).
  2: { intros x Hx. apply (layer_view e He start eff Hstart); (done || lia). }
  pose proof (count_le (allocated_at (epoch_at heap e below)) start eff ltac:(lia)). rewrite (proj2 (Z.leb_le _ _)) by lia. f_equal.
  rewrite (count_split _ start eff end_) by lia.
  destruct (decide (end_ ≤ result_size e)); [rewrite (count_empty _ eff end_) by lia|rewrite (Hbeyond eff) by lia]; lia.
Qed.
End Count.
End Allocation.
