(* ===== verification/VersionedFile.v ===== *)
(** * Versioned files ([VersionedFile] of [fastdup-posix/src/versioned_file.rs])

    A regular file: its last committed version, the epoch of a commit in flight,
    the active epoch that takes the mutations, and the allocated bytes of the
    live file. *)
From S2P Require Export Allocation.

Module VersionedFile.
Import SparseData SparseDataOps RangeSet DirtyEpoch DirtyEpochOps ReadPlan ReadPlanCover ReadPlanExact ReadPlanRun Allocation.

Record FrozenEpoch := { token : Z; dirty : DirtyEpoch }.
Record VersionedFile := {
  committed : CommittedFile;
  committed_sequence : Z;
  inflight : option FrozenEpoch;
  active : DirtyEpoch;
  live_allocated_bytes : Z;
}.
Definition from_committed (file : CommittedFile) (sequence : Z) : VersionedFile :=
  {| committed := file; committed_sequence := sequence; inflight := None; active := new (file_logical_size file) sequence;
     live_allocated_bytes := file_allocated_bytes file |}.
Definition new_empty (id : Z) : VersionedFile := from_committed (EmptyCommittedFile id) 0.
Definition live_size (f : VersionedFile) : Z := result_size (active f).
Definition set_active (f : VersionedFile) (e : DirtyEpoch) (allocated : Z) : VersionedFile :=
  {| committed := committed f; committed_sequence := committed_sequence f; inflight := inflight f; active := e;
     live_allocated_bytes := allocated |}.
(** The layers, the oldest first. *)
Definition layers (f : VersionedFile) : list DirtyEpoch :=
  match inflight f with Some frozen => [dirty frozen] | None => [] end ++ [active f].

(** [VersionedFile::allocated_bytes_in_range] *)
Definition allocated_in_range (f : VersionedFile) (start end_ : Z) : presult Z :=
  assert_true (start <=? end_);;
  allocated_bytes_through (committed f) (layers f) start end_.
(** [VersionedFile::plan_read] *)
Definition plan_read (f : VersionedFile) (offset length : Z) : presult (list ReadSpan) :=
  plan_new (committed f) (layers f) (live_size f) offset length.

(** ** Writing *)
Record WritePlan := { plan_offset : Z; plan_end : Z; overwritten : Z }.
Definition overwritten_bytes (f : VersionedFile) (offset end_ : Z) : presult Z :=
  let overwritten_end := Z.min end_ (live_size f) in
  if offset <? overwritten_end then allocated_in_range f offset overwritten_end else Ok 0.
Definition plan_write (f : VersionedFile) (offset length : Z) : presult WritePlan :=
  end_ ← ok_or (checked_add u64_max offset length) FileTooLarge;
  n ← overwritten_bytes f offset end_;
  Ok {| plan_offset := offset; plan_end := end_; overwritten := n |}.
Definition write_payload_planned (f : VersionedFile) (offset : Z) (p : MutationPayload) (sequence : Z) (plan : WritePlan)
    : presult VersionedFile :=
  assert_true (plan_offset plan =? offset);;
  end_ ← ok_or (checked_add u64_max offset (blen (payload_bytes p))) FileTooLarge;
  assert_true (plan_end plan =? end_);;
  e ← epoch_write (active f) offset p sequence;
  remaining ← expect (checked_sub (live_allocated_bytes f) (overwritten plan));
  allocated ← expect (checked_add u64_max remaining (blen (payload_bytes p)));
  let f := set_active f e allocated in
  assert_true (live_allocated_bytes f <=? live_size f);;
  Ok f.
Definition write_payload (f : VersionedFile) (offset : Z) (p : MutationPayload) (sequence : Z) : presult VersionedFile :=
  plan ← plan_write f offset (blen (payload_bytes p));
  write_payload_planned f offset p sequence plan.

(** ** Other mutations *)
Definition clone_range (f : VersionedFile) (offset : Z) (file : CommittedFile) (file_offset length sequence : Z) : presult VersionedFile :=
  end_ ← ok_or (checked_add u64_max offset length) FileTooLarge;
  n ← overwritten_bytes f offset end_;
  e ← epoch_clone_range (active f) offset file file_offset length sequence;
  remaining ← expect (checked_sub (live_allocated_bytes f) n);
  allocated ← expect (checked_add u64_max remaining length);
  let f := set_active f e allocated in
  assert_true (live_allocated_bytes f <=? live_size f);;
  Ok f.
Definition file_truncate (f : VersionedFile) (length sequence : Z) : presult VersionedFile :=
  removed ← (if length <? live_size f then allocated_in_range f length (live_size f) else Ok 0);
  e ← epoch_truncate (active f) length sequence;
  allocated ← expect (checked_sub (live_allocated_bytes f) removed);
  let f := set_active f e allocated in
  assert_true (live_allocated_bytes f <=? live_size f);;
  Ok f.
Definition punch_hole (f : VersionedFile) (offset end_ sequence : Z) : presult VersionedFile :=
  removed ← allocated_in_range f (Z.min offset (live_size f)) (Z.min end_ (live_size f));
  e ← epoch_punch_hole (active f) offset end_ sequence;
  allocated ← expect (checked_sub (live_allocated_bytes f) removed);
  Ok (set_active f e allocated).
Definition zero_range (f : VersionedFile) (offset end_ size : Z) (fresh : Z → Z) (sequence : Z) : presult VersionedFile :=
  replaced ← allocated_in_range f offset end_;
  remaining ← ok_or (checked_sub (live_allocated_bytes f) replaced) Io;
  allocated ← ok_or (checked_add u64_max remaining (end_ - offset)) Io;
  e ← epoch_zero_ranges (active f) [(offset, end_)] fresh size sequence;
  Ok (set_active f e allocated).

(** ** Runs of equal allocation *)
Definition allocation_range_is_uniform (allocated_bytes : Z → Z → presult Z) (start end_ : Z) (allocated : bool) : presult bool :=
  observed ← allocated_bytes start end_;
  Ok (if allocated then observed =? end_ - start else observed =? 0).
Fixpoint search_run_end (fuel : nat) (allocated_bytes : Z → Z → presult Z) (start : Z) (allocated : bool) (good bad : Z) : presult Z :=
  match fuel with
  | O => Panic
  | S fuel =>
      if good + 1 <? bad then
        let middle := good + (bad - good) / 2 in
        uniform ← allocation_range_is_uniform allocated_bytes start middle allocated;
        if uniform : bool then search_run_end fuel allocated_bytes start allocated middle bad
        else search_run_end fuel allocated_bytes start allocated good middle
      else Ok good
  end.
(** [uniform_run_end_bounded] and [committed_uniform_run_end] share the search;
    it halves a range of 64-bit positions *)
Definition run_end (allocated_bytes : Z → Z → presult Z) (start : Z) (allocated : bool) (bound : Z) : presult Z :=
  uniform ← allocation_range_is_uniform allocated_bytes start bound allocated;
  if uniform : bool then Ok bound else search_run_end 65 allocated_bytes start allocated (start + 1) bound.
Definition uniform_run_end_bounded (f : VersionedFile) (start : Z) (allocated : bool) (bound : Z) : presult Z :=
  assert_true (start <? bound);;
  run_end (allocated_in_range f) start allocated bound.
Definition byte_is_allocated (f : VersionedFile) (offset : Z) : presult bool :=
  next ← expect (checked_add u64_max offset 1);
  n ← allocated_in_range f offset next;
  Ok (n =? 1).
Definition seek_data (f : VersionedFile) (offset : Z) : presult (option Z) :=
  if live_size f <=? offset then Ok None
  else
    here ← byte_is_allocated f offset;
    if here : bool then Ok (Some offset)
    else end_ ← uniform_run_end_bounded f offset false (live_size f); Ok (if end_ <? live_size f then Some end_ else None).
Definition seek_hole (f : VersionedFile) (offset : Z) : presult (option Z) :=
  if live_size f <=? offset then Ok None
  else
    here ← byte_is_allocated f offset;
    if negb here then Ok (Some offset)
    else end_ ← uniform_run_end_bounded f offset true (live_size f); Ok (Some end_).
Fixpoint unallocated_loop (fuel : nat) (f : VersionedFile) (cursor end_ : Z) : presult (list (Z * Z)) :=
  match fuel with
  | O => if cursor <? end_ then Panic else Ok []
  | S fuel =>
      if cursor <? end_ then
        allocated ← byte_is_allocated f cursor;
        run ← uniform_run_end_bounded f cursor allocated end_;
        ranges ← unallocated_loop fuel f run end_;
        Ok (if allocated : bool then ranges else (cursor, run) :: ranges)
      else Ok []
  end.
Definition unallocated_ranges (f : VersionedFile) (start end_ : Z) : presult (list (Z * Z)) :=
  unallocated_loop (Z.to_nat (end_ - start)) f start end_.
Fixpoint add_lengths (total : Z) (l : list (Z * Z)) : presult Z :=
  match l with
  | [] => Ok total
  | (start, end_) :: l => total ← ok_or (checked_add u64_max total (end_ - start)) Io; add_lengths total l
  end.
Definition allocate_zero (f : VersionedFile) (offset end_ size : Z) (fresh : Z → Z) (sequence : Z) : presult VersionedFile :=
  ranges ← unallocated_ranges f offset end_;
  allocated ← add_lengths (live_allocated_bytes f) ranges;
  e ← epoch_zero_ranges (active f) ranges fresh size sequence;
  Ok (set_active f e allocated).
End VersionedFile.
