(* ===== verification/VersionedFileOps.v ===== *)
(** * Operations of a versioned file

    The proofs of [VersionedFile], in two modules: the invariant and the POSIX
    file behind the layers, and the searches for runs of allocated bytes. *)
From S2P Require Export VersionedFile.

(** ** Versioned files refine POSIX files

    A POSIX file is a size and, at each position, a byte or a hole.  Every
    mutation of a versioned file changes the file it stands for as the POSIX
    operation does, and keeps the count of its allocated bytes exact. *)
Module VersionedFileOps.
Import SparseData SparseDataOps RangeSet DirtyEpoch DirtyEpochOps ReadPlan ReadPlanCover ReadPlanExact ReadPlanRun Allocation VersionedFile.

(** ** POSIX files *)
Record posix_file := { pf_size : Z; pf_at : Z → option byte }.
#[global] Instance posix_equiv : Equiv posix_file := λ p q, pf_size p = pf_size q ∧ ∀ x, pf_at p x = pf_at q x.
#[global] Instance posix_equivalence : Equivalence posix_equiv.
Proof.
  split; [by split|intros p q [? ?]; by split|]. intros p q r [? Hpq] [? Hqr]. split; [congruence|]. intros x. by rewrite Hpq.
Qed.
Definition posix_write (p : posix_file) (offset : Z) (b : bytes) : posix_file :=
  {| pf_size := Z.max (pf_size p) (offset + blen b);
     pf_at x := if decide (offset ≤ x < offset + blen b) then b !! Z.to_nat (x - offset) else pf_at p x |}.
Definition posix_clone (p : posix_file) (offset : Z) (contents : Z → option byte) (from length : Z) : posix_file :=
  {| pf_size := Z.max (pf_size p) (offset + length);
     pf_at x := if decide (offset ≤ x < offset + length) then contents (from + (x - offset)) else pf_at p x |}.
Definition posix_truncate (p : posix_file) (length : Z) : posix_file :=
  {| pf_size := length; pf_at x := if decide (x < length) then pf_at p x else None |}.
Definition posix_punch (p : posix_file) (offset end_ : Z) : posix_file :=
  {| pf_size := pf_size p; pf_at x := if decide (offset ≤ x < end_) then None else pf_at p x |}.
Definition posix_zero (p : posix_file) (offset end_ size : Z) : posix_file :=
  {| pf_size := size; pf_at x := if decide (offset ≤ x < end_) then Some x00 else pf_at p x |}.
Definition posix_allocate (p : posix_file) (offset end_ size : Z) : posix_file :=
  {| pf_size := size; pf_at x := if decide (offset ≤ x < end_) then Some (default x00 (pf_at p x)) else pf_at p x |}.
Definition posix_collapse (p : posix_file) (offset end_ : Z) : posix_file :=
  {| pf_size := pf_size p - (end_ - offset); pf_at x := if decide (x < offset) then pf_at p x else pf_at p (x + (end_ - offset)) |}.
Definition posix_insert (p : posix_file) (offset length : Z) : posix_file :=
  {| pf_size := pf_size p + length;
     pf_at x := if decide (x < offset) then pf_at p x else if decide (x < offset + length) then None else pf_at p (x - length) |}.
(** The allocated positions, and the bytes a read returns. *)
Definition posix_allocated (p : posix_file) (a b : Z) : Z := count (allocated_at (pf_at p)) a b.
Definition posix_read (p : posix_file) (offset length : Z) : bytes :=
  bytes_of (view_byte (pf_at p)) offset (Z.min (offset + length) (pf_size p)).

Section Files.
Context (heap : Z → option (CommittedFile * (Z → option byte))).
Implicit Types (f : VersionedFile).

Definition file_view (f : VersionedFile) : Z → option byte := layers_at heap (committed f) (reverse (layers f)).
Definition abstract (f : VersionedFile) : posix_file := {| pf_size := live_size f; pf_at := file_view f |}.
Record file_wf (f : VersionedFile) : Prop := {
  fw_committed : file_ok heap (committed f);
  fw_active : epoch_wf heap (active f);
  fw_base : match inflight f with
            | Some z => epoch_wf heap (dirty z) ∧ base_sequence (dirty z) = committed_sequence f ∧
                base_size (active f) = result_size (dirty z) ∧ base_sequence (active f) = last_sequence (dirty z)
            | None => base_size (active f) = file_logical_size (committed f) ∧ base_sequence (active f) = committed_sequence f
            end;
  fw_allocated : live_allocated_bytes f = posix_allocated (abstract f) 0 (live_size f);
}.
(** A mutation: it succeeds, keeps the invariant, and is the POSIX operation. *)
Definition mutates (f : VersionedFile) (r : presult VersionedFile) (p : posix_file) (sequence : Z) : Prop :=
  ∃ f', r = Ok f' ∧ file_wf f' ∧ abstract f' ≡ p ∧ last_sequence (active f') = sequence ∧ is_Some (first_sequence (active f')) ∧
    committed f' = committed f ∧ committed_sequence f' = committed_sequence f ∧ inflight f' = inflight f.

Definition below_active (f : VersionedFile) : Z → option byte :=
  layers_at heap (committed f) (match inflight f with Some z => [dirty z] | None => [] end).
Lemma file_view_active f : file_view f = epoch_at heap (active f) (below_active f).
Proof. unfold file_view, layers, below_active. rewrite reverse_app. by destruct (inflight f). Qed.
Lemma layers_wf f : file_wf f → Forall (epoch_wf heap) (layers f).
Proof.
  intros Hf. pose proof (fw_active _ Hf). pose proof (fw_base _ Hf) as Hb. unfold layers.
  destruct (inflight f) as [z|]; cbn [app]; [destruct Hb as [? _]; apply Forall_cons; split; [done|]|]; by apply Forall_singleton.
Qed.
Lemma live_size_bound f : file_wf f → 0 ≤ live_size f ≤ u64_max.
Proof. intros Hf. pose proof (sw_size _ _ (ep_data _ _ (fw_active _ Hf))) as Hs. by rewrite (ep_size _ _ (fw_active _ Hf)) in Hs. Qed.
Lemma view_outside f x : ¬ 0 ≤ x < live_size f → file_view f x = None.
Proof. intros Hx. rewrite file_view_active. unfold epoch_at. unfold live_size in Hx. by rewrite decide_False by done. Qed.
Lemma allocated_in_range_spec f a b : file_wf f → 0 ≤ a ≤ b → allocated_in_range f a b = Ok (posix_allocated (abstract f) a b).
Proof.
  intros Hf Hab. unfold allocated_in_range. rewrite (proj2 (Z.leb_le a b)) by lia. cbn [assert_true]. rewrite Ok_bind. unfold allocated_bytes_through.
  rewrite (allocated_through_spec heap) by (apply Hf || by apply Forall_reverse, layers_wf || lia). done.
Qed.
Lemma allocated_clip f a b : posix_allocated (abstract f) a (Z.min b (live_size f)) = posix_allocated (abstract f) a b.
Proof.
  unfold posix_allocated. assert (Hn : ∀ c d, live_size f ≤ c → count (allocated_at (pf_at (abstract f))) c d = 0).
  { intros c d Hc. apply count_none. intros x Hx. apply bool_decide_false. cbn [abstract pf_at]. rewrite view_outside by lia. by intros [? ?]. }
  destruct (Z.le_gt_cases b (live_size f)); [by rewrite Z.min_l|]. rewrite Z.min_r by lia. destruct (Z.le_gt_cases a (live_size f)).
  - rewrite (count_split _ a (live_size f) b) by lia. rewrite (Hn (live_size f)) by lia. lia.
  - rewrite (count_empty _ a (live_size f)), Hn by lia. done.
Qed.
Lemma overwritten_spec f a b : file_wf f → 0 ≤ a → overwritten_bytes f a b = Ok (posix_allocated (abstract f) a b).
Proof.
  intros Hf Ha. unfold overwritten_bytes. rewrite <-allocated_clip. destruct (Z.ltb_spec a (Z.min b (live_size f))).
  - by rewrite allocated_in_range_spec by (done || lia).
  - unfold posix_allocated. by rewrite count_empty by lia.
Qed.
(** The allocation after a change of a range. *)
Lemma allocated_update f (p : posix_file) a b : file_wf f → live_size f ≤ pf_size p → 0 ≤ a ≤ b → b ≤ pf_size p →
  (∀ x, 0 ≤ x < pf_size p → ¬ a ≤ x < b → pf_at p x = file_view f x) →
  posix_allocated p 0 (pf_size p) = live_allocated_bytes f - posix_allocated (abstract f) a b + posix_allocated p a b.
Proof.
  intros Hf Hsz Hab Hb Heq. pose proof (live_size_bound f Hf). rewrite (fw_allocated _ Hf).
  replace (posix_allocated (abstract f) 0 (live_size f)) with (posix_allocated (abstract f) 0 (pf_size p)).
  2: { rewrite <-(allocated_clip f 0 (pf_size p)). by rewrite Z.min_r by lia. }
  unfold posix_allocated. apply count_replace; [lia..|]. intros x Hx Hout. unfold allocated_at. by rewrite Heq by done.
Qed.
Lemma allocated_le f a b : 0 ≤ a ≤ b → file_wf f → 0 ≤ posix_allocated (abstract f) a b ≤ live_allocated_bytes f.
Proof.
  intros Hab Hf. split; [apply count_nonneg|]. rewrite (fw_allocated _ Hf), <-allocated_clip. pose proof (live_size_bound f Hf).
  unfold posix_allocated. set (p := allocated_at _). destruct (Z.le_gt_cases (Z.min b (live_size f)) a).
  { rewrite count_empty by lia. apply count_nonneg. }
  rewrite (count_split p 0 a (live_size f)), (count_split p a (Z.min b (live_size f)) (live_size f)) by lia.
  pose proof (count_nonneg p 0 a). pose proof (count_nonneg p (Z.min b (live_size f)) (live_size f)). lia.
Qed.
(** The new state of a mutation, from the active epoch it makes. *)
Lemma mutation_spec f e' sequence view p n : file_wf f → epoch_result heap (active f) e' (pf_size p) sequence view →
  (∀ x, view (file_view f) x = pf_at p x) → n = posix_allocated p 0 (pf_size p) →
  let f' := set_active f e' n in
  file_wf f' ∧ abstract f' ≡ p ∧ live_size f' = pf_size p ∧ last_sequence (active f') = sequence ∧ is_Some (first_sequence (active f')).
Proof.
  intros Hf [Hwf Hsz [Hb1 Hb2] Hq Hfst Hv] Hp Hn f'.
  assert (Hview : ∀ x, file_view f' x = pf_at p x).
  { intros x. rewrite file_view_active. cbn [f' set_active active]. rewrite Hv, <-Hp, file_view_active. done. }
  assert (Habs : abstract f' ≡ p) by (split; [done|exact Hview]). split_and!; [|done|done|done|done].
  split; cbn [f' set_active committed active inflight live_allocated_bytes]; [apply Hf|done| |].
  - pose proof (fw_base _ Hf) as Hb. rewrite Hb1, Hb2. exact Hb.
  - rewrite Hn. unfold live_size, f'. cbn [active set_active]. rewrite Hsz. fold f'. unfold posix_allocated. apply count_ext. intros x _. unfold allocated_at. cbn [abstract pf_at].
    by rewrite <-Hview.
Qed.
Lemma mutates_intro f e' sequence view p n : file_wf f → epoch_result heap (active f) e' (pf_size p) sequence view →
  (∀ x, view (file_view f) x = pf_at p x) → n = posix_allocated p 0 (pf_size p) → mutates f (Ok (set_active f e' n)) p sequence.
Proof.
  intros Hf He Hp Hn. destruct (mutation_spec f e' sequence view p n Hf He Hp Hn) as (?&?&_&?&?). eexists. split_and!; done.
Qed.
Lemma posix_allocated_all p a b : a ≤ b → (∀ x, a ≤ x < b → is_Some (pf_at p x)) → posix_allocated p a b = b - a.
Proof. intros Hab Hs. apply count_all; [done|]. intros x Hx. by apply bool_decide_true, Hs. Qed.
Lemma posix_allocated_none p a b : (∀ x, a ≤ x < b → pf_at p x = None) → posix_allocated p a b = 0.
Proof. intros Hs. apply count_none. intros x Hx. apply bool_decide_false. rewrite Hs by done. by intros [? ?]. Qed.
Lemma posix_allocated_le p a b : a ≤ b → 0 ≤ posix_allocated p a b ≤ b - a.
Proof. intros Hab. split; [apply count_nonneg|by apply count_le]. Qed.

(** ** Writing and cloning *)
Lemma wf_allocated f p : file_wf f → abstract f ≡ p → live_allocated_bytes f = posix_allocated p 0 (pf_size p).
Proof.
  intros Hf [Hsz Hat]. rewrite (fw_allocated _ Hf). cbn [abstract pf_size] in Hsz. rewrite Hsz. apply count_ext. intros x _. unfold allocated_at. by rewrite <-Hat.
Qed.
Lemma place_allocated f q a n : file_wf f → 0 ≤ a → 0 ≤ n → pf_size q = Z.max (live_size f) (a + n) →
  (∀ x, a ≤ x < a + n → is_Some (pf_at q x)) → (∀ x, ¬ a ≤ x < a + n → pf_at q x = file_view f x) →
  posix_allocated q 0 (pf_size q) = live_allocated_bytes f - posix_allocated (abstract f) a (a + n) + n.
Proof.
  intros Hf Ha Hn Hsz Hin Hout. pose proof (live_size_bound f Hf).
  rewrite (allocated_update f q a (a + n)) by (done || lia || intros; by apply Hout). rewrite (posix_allocated_all q) by (done || lia). lia.
Qed.
Lemma place_file f e' sequence view q a n : file_wf f → epoch_result heap (active f) e' (pf_size q) sequence view →
  (∀ x, view (file_view f) x = pf_at q x) → 0 ≤ a → 0 ≤ n → pf_size q = Z.max (live_size f) (a + n) → a + n ≤ u64_max →
  (∀ x, a ≤ x < a + n → is_Some (pf_at q x)) → (∀ x, ¬ a ≤ x < a + n → pf_at q x = file_view f x) →
  mutates f (remaining ← expect (checked_sub (live_allocated_bytes f) (posix_allocated (abstract f) a (a + n)));
             allocated ← expect (checked_add u64_max remaining n);
             let f := set_active f e' allocated in
             assert_true (live_allocated_bytes f <=? live_size f);; Ok f) q sequence.
Proof.
  intros Hf He Hv Ha Hn Hsz Hmax Hin Hout. pose proof (live_size_bound f Hf).
  pose proof (allocated_le f a (a + n) ltac:(lia) Hf) as Hle.
  pose proof (place_allocated f q a n Hf ltac:(lia) ltac:(lia) Hsz Hin Hout) as Hupd.
  pose proof (posix_allocated_le q 0 (pf_size q) ltac:(lia)) as Hb.
  unfold checked_sub. rewrite (proj2 (Z.leb_le _ _)) by lia. cbn [expect]. rewrite Ok_bind, checked_add_ok by lia. cbn [expect]. rewrite Ok_bind. cbv zeta.
  rewrite (proj2 (Z.leb_le _ _)). 2: { cbn [set_active live_allocated_bytes]. unfold live_size. cbn [set_active active]. rewrite (er_size _ _ _ _ _ _ He). lia. }
  cbn [assert_true]. rewrite Ok_bind. apply (mutates_intro f e' sequence view); (done || lia).
Qed.
Lemma write_payload_spec f offset p sequence : file_wf f → sequence = last_sequence (active f) + 1 → sequence ≤ u64_max →
  0 ≤ offset → 0 < blen (payload_bytes p) → offset + blen (payload_bytes p) ≤ u64_max →
  mutates f (write_payload f offset p sequence) (posix_write (abstract f) offset (payload_bytes p)) sequence.
Proof.
  intros Hf Hq Hm Ho Hl Hmax. unfold write_payload, plan_write. rewrite checked_add_ok by lia. cbn [ok_or].
  rewrite Ok_bind, overwritten_spec, !Ok_bind by done. unfold write_payload_planned. cbn [plan_offset plan_end overwritten].
  rewrite Z.eqb_refl. cbn [assert_true]. rewrite Ok_bind, checked_add_ok by lia. cbn [ok_or]. rewrite Ok_bind, Z.eqb_refl. cbn [assert_true]. rewrite Ok_bind.
  destruct (epoch_write_spec heap (active f) offset p sequence (fw_active _ Hf) Hq Hm Ho Hl Hmax) as (e'&->&He). rewrite Ok_bind.
  assert (Hqp : ∀ x, offset ≤ x < offset + blen (payload_bytes p) → payload_bytes p !! Z.to_nat (x - offset) = payload_at p offset x).
  { intros x Hx. unfold payload_at. by rewrite decide_True by lia. }
  eapply place_file; try done; try lia; cbn [posix_write pf_at].
  - intros x. cbn beta. destruct (decide (offset ≤ x < offset + blen (payload_bytes p))) as [Hx|Hx].
    + rewrite Hqp by done. destruct (payload_at_in p offset x Ho Hx) as [b Hb']. by rewrite Hb'.
    + by rewrite payload_at_out by done.
  - intros x Hx. rewrite decide_True, Hqp by done. by apply payload_at_in.
  - intros x Hx. by rewrite decide_False by done.
Qed.
Lemma clone_range_spec f offset file file_offset length sequence : file_wf f → sequence = last_sequence (active f) + 1 → sequence ≤ u64_max →
  file_ok heap file → 0 ≤ offset → 0 ≤ file_offset → 0 < length → offset + length ≤ u64_max →
  file_offset + length ≤ file_logical_size file → (∀ x, file_offset ≤ x < file_offset + length → is_Some (file_at heap file x)) →
  mutates f (clone_range f offset file file_offset length sequence)
    (posix_clone (abstract f) offset (file_at heap file) file_offset length) sequence.
Proof.
  intros Hf Hq Hm Hfile Ho Hfo Hl Hmax Hfit Hpres. unfold clone_range. rewrite checked_add_ok by lia. cbn [ok_or].
  rewrite Ok_bind, overwritten_spec, Ok_bind by done.
  destruct (epoch_clone_range_spec heap (active f) offset file file_offset length sequence (fw_active _ Hf) Hq Hm Hfile Ho Hfo Hl Hmax Hfit Hpres) as (e'&->&He).
  rewrite Ok_bind. eapply place_file; try done; try lia; cbn [posix_clone pf_at].
  - intros x Hx. rewrite decide_True by done. apply Hpres. lia.
  - intros x Hx. by rewrite decide_False by done.
Qed.

(** ** Truncating and punching *)
Lemma truncate_allocated f length : file_wf f → 0 ≤ length →
  posix_allocated (posix_truncate (abstract f) length) 0 length = live_allocated_bytes f - posix_allocated (abstract f) length (live_size f).
Proof.
  intros Hf Hl. pose proof (live_size_bound f Hf). set (q := posix_truncate (abstract f) length).
  rewrite (fw_allocated _ Hf). destruct (Z.le_gt_cases length (live_size f)).
  - unfold posix_allocated at 2. rewrite (count_split _ 0 length (live_size f)) by lia. fold (posix_allocated (abstract f) length (live_size f)).
    replace (posix_allocated q 0 length) with (count (allocated_at (pf_at (abstract f))) 0 length); [lia|].
    apply count_ext. intros x Hx. unfold allocated_at. cbn [q posix_truncate pf_at]. by rewrite decide_True by lia.
  - unfold posix_allocated at 3. rewrite count_empty by lia. rewrite Z.sub_0_r.
    unfold posix_allocated. rewrite (count_split _ 0 (live_size f) length) by lia. rewrite (count_none _ (live_size f) length).
    + rewrite Z.add_0_r. apply count_ext. intros x Hx. unfold allocated_at. cbn [q posix_truncate pf_at]. by rewrite decide_True by lia.
    + intros x Hx. apply bool_decide_false. cbn [q posix_truncate pf_at abstract]. case_decide; [|by intros [? ?]]. rewrite view_outside by lia. by intros [? ?].
Qed.
Lemma truncate_file_spec f length sequence : file_wf f → sequence = last_sequence (active f) + 1 → sequence ≤ u64_max → 0 ≤ length ≤ u64_max →
  mutates f (file_truncate f length sequence) (posix_truncate (abstract f) length) sequence.
Proof.
  intros Hf Hq Hm Hl. pose proof (live_size_bound f Hf). unfold file_truncate.
  assert (Hr : (if length <? live_size f then allocated_in_range f length (live_size f) else Ok 0) = Ok (posix_allocated (abstract f) length (live_size f))).
  { destruct (Z.ltb_spec length (live_size f)); [by apply allocated_in_range_spec; [|lia]|]. unfold posix_allocated. by rewrite count_empty by lia. }
  rewrite Hr, Ok_bind. destruct (epoch_truncate_spec heap (active f) length sequence (fw_active _ Hf) Hq Hm Hl) as (e'&->&He). rewrite Ok_bind.
  set (q := posix_truncate (abstract f) length).
  pose proof (truncate_allocated f length Hf ltac:(lia)) as Hupd. fold q in Hupd.
  pose proof (posix_allocated_le q 0 length ltac:(lia)). unfold checked_sub. rewrite (proj2 (Z.leb_le _ _)) by lia. cbn [expect]. rewrite Ok_bind. cbv zeta.
  rewrite (proj2 (Z.leb_le _ _)). 2: { cbn [set_active live_allocated_bytes]. unfold live_size at 2. cbn [set_active active]. rewrite (er_size _ _ _ _ _ _ He). lia. }
  cbn [assert_true]. rewrite Ok_bind. apply (mutates_intro f e' sequence _ q _ Hf He); [done|by rewrite <-Hupd].
Qed.
Lemma punch_hole_spec f offset end_ sequence : file_wf f → sequence = last_sequence (active f) + 1 → sequence ≤ u64_max → 0 ≤ offset ≤ end_ →
  mutates f (punch_hole f offset end_ sequence) (posix_punch (abstract f) offset end_) sequence.
Proof.
  intros Hf Hq Hm Hoe. pose proof (live_size_bound f Hf). unfold punch_hole. rewrite allocated_in_range_spec, Ok_bind by (done || lia).
  destruct (epoch_punch_hole_spec heap (active f) offset end_ sequence (fw_active _ Hf) Hq Hm ltac:(lia)) as (e'&->&He). rewrite Ok_bind.
  set (q := posix_punch (abstract f) offset end_). set (a := Z.min offset (live_size f)). set (b := Z.min end_ (live_size f)).
  pose proof (allocated_le f a b ltac:(lia) Hf) as Hle. unfold checked_sub. rewrite (proj2 (Z.leb_le _ _)) by lia. cbn [expect]. rewrite Ok_bind.
  apply (mutates_intro f e' sequence _ q _ Hf He); [done|]. rewrite (allocated_update f q a b); [|done|cbn [q posix_punch pf_size abstract]; lia..|].
  - rewrite (posix_allocated_none q); [lia|]. intros x Hx. cbn [q posix_punch pf_at]. by rewrite decide_True by lia.
  - intros x Hx Hout. cbn [q posix_punch pf_at pf_size abstract] in *. by rewrite decide_False by lia.
Qed.
End Files.
End VersionedFileOps.

(** ** Allocation runs of a versioned file

    The searches for the end of a run of data or of a hole, and the operations
    built on them. *)
Module VersionedFileRuns.
Import SparseData SparseDataOps RangeSet DirtyEpoch DirtyEpochOps ReadPlan ReadPlanCover ReadPlanExact ReadPlanRun Allocation VersionedFile VersionedFileOps.

(** ** The search *)
Section Search.
Context (p : Z → bool) (query : Z → Z → presult Z) (start bound : Z) (allocated : bool).
Context (Hquery : ∀ a b, start ≤ a → a ≤ b → b ≤ bound → query a b = Ok (count p a b)).
Lemma uniform_spec b : start ≤ b ≤ bound →
  ∃ u : bool, allocation_range_is_uniform query start b allocated = Ok u ∧ (u = true ↔ ∀ x, start ≤ x < b → p x = allocated).
Proof.
  intros Hb. unfold allocation_range_is_uniform. rewrite Hquery, Ok_bind by lia. eexists. split; [done|]. destruct allocated.
  - rewrite Z.eqb_eq. split; [intros Hc x; by apply count_full|]. intros Hx. by apply count_all; [lia|].
  - rewrite Z.eqb_eq. split; [intros Hc x; by apply count_zero|]. intros Hx. by apply count_none.
Qed.
(** The end of the run from [start]. *)
Definition is_run_end (r : Z) : Prop :=
  start < r ≤ bound ∧ (∀ x, start ≤ x < r → p x = allocated) ∧ (r < bound → p r = negb allocated).
Lemma search_run_end_spec fuel good bad : start < good → good < bad → bad ≤ bound → bad - good ≤ 2 ^ (Z.of_nat fuel - 1) → (0 < fuel)%nat →
  (∀ x, start ≤ x < good → p x = allocated) → ¬ (∀ x, start ≤ x < bad → p x = allocated) →
  ∃ r, search_run_end fuel query start allocated good bad = Ok r ∧ is_run_end r.
Proof.
  revert good bad. induction fuel as [|fuel IH]; intros good bad Hg Hgb Hb Hf Hpos Hgood Hbad; [lia|]. cbn [search_run_end].
  destruct (Z.ltb_spec (good + 1) bad) as [Hlt|Hge].
  - set (mid := good + (bad - good) / 2). pose proof (Z.div_mod (bad - good) 2 ltac:(lia)). pose proof (Z.mod_pos_bound (bad - good) 2 ltac:(lia)).
    assert (Hfuel : (0 < fuel)%nat). { destruct fuel; [|lia]. change (2 ^ (Z.of_nat 1 - 1)) with 1 in Hf. lia. }
    assert (Hpow : 2 ^ (Z.of_nat (S fuel) - 1) = 2 * 2 ^ (Z.of_nat fuel - 1)).
    { replace (Z.of_nat (S fuel) - 1) with (Z.succ (Z.of_nat fuel - 1)) by lia. apply Z.pow_succ_r. lia. }
    destruct (uniform_spec mid) as (u&->&Hu); [lia|]. rewrite Ok_bind. destruct u.
    + apply IH; (lia || done || by apply Hu).
    + apply IH; try (lia || done). intros Hall. apply Hu in Hall. done.
  - exists good. split; [done|]. split_and!; [lia|lia|done|]. intros _. destruct (bool_decide_reflect (p good = allocated)) as [Heq|Hne]; [|by destruct (p good), allocated].
    exfalso. apply Hbad. intros x Hx. destruct (decide (x = good)) as [->|]; [done|]. apply Hgood. lia.
Qed.
Lemma run_end_spec : start < bound → bound - start ≤ u64_max → p start = allocated →
  ∃ r, run_end query start allocated bound = Ok r ∧ is_run_end r.
Proof.
  intros Hsb Hmax Hs. unfold run_end. destruct (uniform_spec bound) as (u&->&Hu); [lia|]. rewrite Ok_bind. destruct u.
  - exists bound. split; [done|]. split_and!; [lia|lia|by apply Hu|lia].
  - assert (start + 1 < bound).
    { destruct (decide (bound = start + 1)) as [->|]; [|lia]. exfalso. assert (Hall : ∀ x, start ≤ x < start + 1 → p x = allocated) by (intros x Hx; by replace x with start by lia).
      by apply Hu in Hall. }
    apply search_run_end_spec; try lia.
    + unfold u64_max in Hmax. change (2 ^ (Z.of_nat 65 - 1)) with (2 ^ 64). lia.
    + intros x Hx. by replace x with start by lia.
    + intros Hall. by apply Hu in Hall.
Qed.
End Search.

Section Runs.
Context (heap : Z → option (CommittedFile * (Z → option byte))).
Implicit Types (f : VersionedFile).
Definition live_allocated_at (f : VersionedFile) : Z → bool := allocated_at (file_view heap f).
Lemma byte_is_allocated_spec f x : file_wf heap f → 0 ≤ x < u64_max → byte_is_allocated f x = Ok (live_allocated_at f x).
Proof.
  intros Hf Hx. unfold byte_is_allocated. rewrite checked_add_ok by lia. cbn [expect]. rewrite Ok_bind, (allocated_in_range_spec heap), Ok_bind by (done || lia).
  f_equal. unfold posix_allocated. cbn [abstract pf_at]. fold (live_allocated_at f). destruct (live_allocated_at f x) eqn:Hp.
  - rewrite count_all; [apply Z.eqb_eq; lia|lia|]. intros y Hy. by replace y with x by lia.
  - rewrite count_none; [done|]. intros y Hy. by replace y with x by lia.
Qed.
Lemma uniform_run_end_spec f start bound : file_wf heap f → 0 ≤ start < bound → bound ≤ u64_max →
  ∃ r, uniform_run_end_bounded f start (live_allocated_at f start) bound = Ok r ∧
    is_run_end (live_allocated_at f) start bound (live_allocated_at f start) r.
Proof.
  intros Hf Hsb Hb. unfold uniform_run_end_bounded. rewrite (proj2 (Z.ltb_lt start bound)) by lia. cbn [assert_true]. rewrite Ok_bind.
  apply run_end_spec; [|lia|lia|done]. intros a b Ha Hab Hbb. by apply allocated_in_range_spec; [|lia].
Qed.

(** ** Seeking *)
(** The first position from [offset] with the given allocation. *)
Definition first_from (f : VersionedFile) (allocated : bool) (offset : Z) (r : option Z) : Prop :=
  match r with
  | Some x => offset ≤ x ∧ live_allocated_at f x = allocated ∧ ∀ y, offset ≤ y < x → live_allocated_at f y = negb allocated
  | None => ∀ y, offset ≤ y → live_allocated_at f y = negb allocated
  end.
Lemma live_allocated_outside f x : ¬ 0 ≤ x < live_size f → live_allocated_at f x = false.
Proof. intros Hx. apply bool_decide_false. rewrite view_outside by done. by intros [? ?]. Qed.
Lemma seek_data_spec f offset : file_wf heap f → 0 ≤ offset → ∃ r, seek_data f offset = Ok r ∧ first_from f true offset r.
Proof.
  intros Hf Ho. pose proof (live_size_bound heap f Hf). unfold seek_data. destruct (Z.leb_spec (live_size f) offset) as [Hle|Hlt].
  { eexists. split; [done|]. intros y Hy. apply live_allocated_outside. lia. }
  rewrite byte_is_allocated_spec, Ok_bind by (done || lia). destruct (live_allocated_at f offset) eqn:Hp.
  { eexists. split; [done|]. cbn [first_from]. split_and!; [lia|done|lia]. }
  destruct (uniform_run_end_spec f offset (live_size f)) as (r&Hr&Hrb&Hrun&Hend); [done|lia|lia|]. rewrite Hp in *. rewrite Hr, Ok_bind.
  destruct (Z.ltb_spec r (live_size f)).
  - eexists. split; [done|]. cbn [first_from]. split_and!; [lia|by apply Hend|done].
  - eexists. split; [done|]. intros y Hy. destruct (decide (y < r)); [apply Hrun; lia|]. apply live_allocated_outside. lia.
Qed.
Lemma seek_hole_spec f offset : file_wf heap f → 0 ≤ offset →
  (live_size f ≤ offset → seek_hole f offset = Ok None) ∧
  (offset < live_size f → ∃ x, seek_hole f offset = Ok (Some x) ∧ x ≤ live_size f ∧ first_from f false offset (Some x)).
Proof.
  intros Hf Ho. pose proof (live_size_bound heap f Hf). unfold seek_hole.
  split; intros Hoff; [by rewrite (proj2 (Z.leb_le _ _)) by lia|]. rewrite (proj2 (Z.leb_gt _ _)) by lia.
  rewrite byte_is_allocated_spec, Ok_bind by (done || lia). destruct (live_allocated_at f offset) eqn:Hp; cbn [negb].
  2: { eexists. cbn [first_from]. split_and!; [done|lia|lia|done|lia]. }
  destruct (uniform_run_end_spec f offset (live_size f)) as (r&Hr&Hrb&Hrun&Hend); [done|lia|lia|]. rewrite Hp in *. rewrite Hr, Ok_bind.
  exists r. cbn [first_from]. split_and!; [done|lia|lia| |done]. destruct (decide (r < live_size f)); [by apply Hend|]. apply live_allocated_outside. lia.
Qed.

(** ** Zeroing and allocating *)
Definition fresh_zeros (fresh : Z → Z) (l : list (Z * Z)) : Prop :=
  ∀ r, r ∈ l → heap (fresh r.1) = Some (ZeroCommittedFile (fresh r.1) (r.2 - r.1), zero_contents (r.2 - r.1)).
Definition sum_lengths (l : list (Z * Z)) : Z := foldr (λ r n, (r.2 - r.1) + n) 0 l.
Lemma zero_range_spec f offset end_ size fresh sequence : file_wf heap f → sequence = last_sequence (active f) + 1 → sequence ≤ u64_max →
  0 ≤ offset < end_ → end_ ≤ size → live_size f ≤ size ≤ u64_max → fresh_zeros fresh [(offset, end_)] →
  mutates heap f (zero_range f offset end_ size fresh sequence) (posix_zero (abstract heap f) offset end_ size) sequence.
Proof.
  intros Hf Hq Hm Hoe Hes Hsz Hfresh. unfold zero_range. rewrite (allocated_in_range_spec heap), Ok_bind by (done || lia).
  set (q := posix_zero (abstract heap f) offset end_ size). pose proof (allocated_le heap f offset end_ ltac:(lia) Hf) as Hle.
  assert (Hat : ∀ x, pf_at q x = if in_ranges [(offset, end_)] x then Some x00 else file_view heap f x).
  { intros x. cbn [q posix_zero pf_at abstract]. unfold in_ranges. cbn [existsb fst snd]. rewrite orb_false_r.
    destruct (Z.leb_spec offset x), (Z.ltb_spec x end_); cbn [andb]; first [by rewrite decide_True by lia|by rewrite decide_False by lia]. }
  assert (Hupd : posix_allocated q 0 (pf_size q) = live_allocated_bytes f - posix_allocated (abstract heap f) offset end_ + (end_ - offset)).
  { rewrite (allocated_update heap f q offset end_) by (done || cbn [q posix_zero pf_size]; lia || intros x _ Hx; cbn [q posix_zero pf_at abstract]; by rewrite decide_False by done).
    rewrite (posix_allocated_all q); [lia|lia|]. intros x Hx. cbn [q posix_zero pf_at]. by rewrite decide_True by lia. }
  pose proof (posix_allocated_le q 0 (pf_size q) ltac:(cbn [q posix_zero pf_size]; lia)) as Hb. cbn [q posix_zero pf_size] in Hb.
  unfold checked_sub. rewrite (proj2 (Z.leb_le _ _)) by lia. cbn [ok_or]. rewrite Ok_bind. cbn [q posix_zero pf_size] in Hupd. rewrite checked_add_ok by lia. cbn [ok_or]. rewrite Ok_bind.
  destruct (epoch_zero_ranges_spec heap (active f) [(offset, end_)] fresh size sequence (fw_active _ _ Hf) Hq Hm ltac:(lia)) as (e'&->&He).
  { intros r Hr. pose proof (Hfresh r Hr). apply list_elem_of_singleton in Hr as ->. cbn [fst snd] in *. split_and!; (done || lia). }
  rewrite Ok_bind. apply (mutates_intro heap f e' sequence _ q _ Hf He); [|by rewrite <-Hupd]. intros x. rewrite Hat. destruct (in_ranges _ x); [done|].
  case_decide; [done|]. symmetry. apply view_outside. lia.
Qed.
Lemma unallocated_loop_spec fuel f cursor end_ : file_wf heap f → 0 ≤ cursor → end_ ≤ u64_max → end_ - cursor ≤ Z.of_nat fuel →
  ∃ l, unallocated_loop fuel f cursor end_ = Ok l ∧ (∀ r, r ∈ l → cursor ≤ r.1 < r.2 ∧ r.2 ≤ end_) ∧
    (∀ x, in_ranges l x = true ↔ cursor ≤ x < end_ ∧ live_allocated_at f x = false) ∧
    (cursor ≤ end_ → sum_lengths l = end_ - cursor - count (live_allocated_at f) cursor end_).
Proof.
  intros Hf. revert cursor. induction fuel as [|fuel IH]; intros cursor Hc He Hfuel; cbn [unallocated_loop];
    (destruct (Z.ltb_spec cursor end_) as [Hlt|Hge]; [try lia|exists []; split_and!; [done|by intros r ?%not_elem_of_nil|intros x; split; [done|lia]|intros; cbn; rewrite count_empty by lia; lia]]).
  rewrite byte_is_allocated_spec, Ok_bind by (done || lia).
  destruct (uniform_run_end_spec f cursor end_) as (r&->&Hrb&Hrun&_); [done|lia|lia|]. rewrite Ok_bind.
  destruct (IH r) as (l&->&Hl&Hin&Hsum); [lia|lia|lia|]. rewrite Ok_bind. specialize (Hsum ltac:(lia)).
  rewrite (count_split _ cursor r end_) by lia. destruct (live_allocated_at f cursor) eqn:Hp.
  - exists l. split_and!; [done|intros r' Hr'; specialize (Hl r' Hr'); lia| |intros _; rewrite (count_all _ cursor r) by (done || lia); lia].
    intros x. rewrite Hin. split; [intros [? ?]; split; [lia|done]|]. intros [Hx Ha]. split; [|done]. destruct (decide (x < r)); [|lia]. rewrite Hrun in Ha by lia. done.
  - exists ((cursor, r) :: l). split_and!; [done| | |intros _; rewrite (count_none _ cursor r) by done; cbn [sum_lengths foldr fst snd]; fold (sum_lengths l); lia].
    + intros r' [->|Hr']%elem_of_cons; [cbn [fst snd]; lia|]. specialize (Hl r' Hr'). lia.
    + intros x. unfold in_ranges. cbn [existsb fst snd]. fold (in_ranges l x). rewrite orb_true_iff, Hin, andb_true_iff, Z.leb_le, Z.ltb_lt. split.
      * intros [Hx|[? ?]]; (split; [lia|]); [apply Hrun; lia|done].
      * intros [Hx Ha]. destruct (decide (x < r)); [left; lia|right; split; [lia|done]].
Qed.
Lemma add_lengths_spec total l : (∀ r, r ∈ l → r.1 ≤ r.2) → total + sum_lengths l ≤ u64_max → add_lengths total l = Ok (total + sum_lengths l).
Proof.
  assert (Hn : ∀ l, (∀ r, r ∈ l → r.1 ≤ r.2) → 0 ≤ sum_lengths l).
  { intros l'. induction l' as [|r l' IH]; intros Hl; [done|]. cbn [sum_lengths foldr]. fold (sum_lengths l'). pose proof (Hl r ltac:(by left)).
    pose proof (IH ltac:(intros; apply Hl; by right)). lia. }
  revert total. induction l as [|[a b] l IH]; intros total Hl Hmax; cbn [add_lengths].
  { f_equal. cbn. lia. }
  cbn [sum_lengths foldr fst snd] in Hmax |- *. fold (sum_lengths l) in Hmax |- *. pose proof (Hn l ltac:(intros; apply Hl; by right)).
  rewrite checked_add_ok by lia. cbn [ok_or]. rewrite Ok_bind, IH by (lia || intros; apply Hl; by right). f_equal. lia.
Qed.
Lemma allocate_zero_spec f offset end_ size fresh sequence : file_wf heap f → sequence = last_sequence (active f) + 1 → sequence ≤ u64_max →
  0 ≤ offset ≤ end_ → end_ ≤ size → live_size f ≤ size ≤ u64_max →
  (∀ l, unallocated_ranges f offset end_ = Ok l → fresh_zeros fresh l) →
  mutates heap f (allocate_zero f offset end_ size fresh sequence) (posix_allocate (abstract heap f) offset end_ size) sequence.
Proof.
  intros Hf Hq Hm Hoe Hes Hsz Hfresh. unfold allocate_zero.
  destruct (unallocated_loop_spec (Z.to_nat (end_ - offset)) f offset end_ Hf) as (l&Hl&Hbounds&Hin&Hsum); [lia|lia|lia|].
  unfold unallocated_ranges in *. rewrite Hl in *. rewrite Ok_bind. specialize (Hsum ltac:(lia)). specialize (Hfresh l eq_refl).
  set (q := posix_allocate (abstract heap f) offset end_ size). pose proof (allocated_le heap f offset end_ ltac:(lia) Hf) as Hle.
  assert (Hupd : posix_allocated q 0 (pf_size q) = live_allocated_bytes f - posix_allocated (abstract heap f) offset end_ + (end_ - offset)).
  { rewrite (allocated_update heap f q offset end_) by (done || cbn [q posix_allocate pf_size]; lia || intros x _ Hx; cbn [q posix_allocate pf_at abstract]; by rewrite decide_False by done).
    rewrite (posix_allocated_all q); [lia|lia|]. intros x Hx. cbn [q posix_allocate pf_at]. by rewrite decide_True by lia. }
  pose proof (posix_allocated_le q 0 (pf_size q) ltac:(cbn [q posix_allocate pf_size]; lia)) as Hb. cbn [q posix_allocate pf_size] in Hb, Hupd.
  change (count (live_allocated_at f) offset end_) with (posix_allocated (abstract heap f) offset end_) in Hsum.
  rewrite add_lengths_spec by (lia || intros r Hr; specialize (Hbounds r Hr); lia). rewrite Ok_bind.
  destruct (epoch_zero_ranges_spec heap (active f) l fresh size sequence (fw_active _ _ Hf) Hq Hm ltac:(lia)) as (e'&->&He).
  { intros r Hr. specialize (Hbounds r Hr). split_and!; [lia|lia|lia|by apply Hfresh]. }
  rewrite Ok_bind. apply (mutates_intro heap f e' sequence _ q _ Hf He).
  2: { cbn [q posix_allocate pf_size]. fold q. rewrite Hupd. lia. }
  intros x. cbn [q posix_allocate pf_at abstract]. pose proof (Hin x) as Hx. destruct (in_ranges l x) eqn:Hix.
  - destruct (proj1 Hx eq_refl) as [Hxr Hxa]. rewrite decide_True by done. unfold live_allocated_at, allocated_at in Hxa. apply bool_decide_eq_false in Hxa.
    destruct (file_view heap f x); [|done]. exfalso. apply Hxa. by eexists.
  - assert (Hsome : offset ≤ x < end_ → is_Some (file_view heap f x)).
    { intros Hxr. destruct (live_allocated_at f x) eqn:Hxa; [by apply bool_decide_eq_true in Hxa|]. by specialize (proj2 Hx (conj Hxr eq_refl)). }
    destruct (decide (x < size)).
    + destruct (decide (offset ≤ x < end_)) as [Hxr|]; [|done]. destruct (Hsome Hxr) as [b Hb']. by rewrite Hb'.
    + rewrite decide_False by lia. symmetry. apply view_outside. lia.
Qed.
End Runs.
End VersionedFileRuns.
