(* ===== verification/EpochAudit.v ===== *)
(** * Audits of dirty data and epochs

    [SparseData::audit_valid] and [DirtyEpoch::audit_valid], which every freeze
    runs, and [complement_holes]. *)
From S2P Require Export VersionedFileOps.

Module EpochAudit.
Import SparseData SparseDataOps RangeSet DirtyEpoch DirtyEpochOps ReadPlan ReadPlanCover ReadPlanExact ReadPlanRun Allocation VersionedFile VersionedFileOps.

(** ** [SparseData::audit_valid] *)
Record audit_state := { audit_ranges : list (Z * Z); audit_allocated : Z; audit_resident : Z }.
Fixpoint audit_residents (size : Z) (l : list (Z * ResidentDirtyData)) (st : audit_state) : presult audit_state :=
  match l with
  | [] => Ok st
  | (start, d) :: l =>
      assert_true (negb (resident_len d =? 0));;
      end_ ← expect (checked_add u64_max start (resident_len d));
      assert_true (end_ <=? size);;
      allocated ← expect (checked_add u64_max (audit_allocated st) (resident_len d));
      resident ← expect (checked_add u64_max (audit_resident st) (resident_len d));
      audit_residents size l {| audit_ranges := audit_ranges st ++ [(start, end_)]; audit_allocated := allocated; audit_resident := resident |}
  end.
(** The end of an external extent in its source *)
Definition source_end_ok (d : ExternalDirtyData) : bool :=
  match checked_add u64_max (source_offset d) (ext_length d) with
  | Some source_end => source_end <=? file_logical_size (source d)
  | None => false
  end.
Fixpoint audit_externals (size : Z) (l : list (Z * ExternalDirtyData)) (st : audit_state) : presult audit_state :=
  match l with
  | [] => Ok st
  | (start, d) :: l =>
      assert_true (negb (ext_length d =? 0));;
      end_ ← expect (checked_add u64_max start (ext_length d));
      assert_true (end_ <=? size);;
      assert_true (source_end_ok d);;
      allocated ← expect (checked_add u64_max (audit_allocated st) (ext_length d));
      audit_externals size l {| audit_ranges := audit_ranges st ++ [(start, end_)]; audit_allocated := allocated; audit_resident := audit_resident st |}
  end.
Definition sparse_audit_valid (s : SparseData) : presult () :=
  st ← audit_residents (logical_size s) (iter (extents s)) {| audit_ranges := []; audit_allocated := 0; audit_resident := 0 |};
  st ← audit_externals (logical_size s) (iter (external_extents s)) st;
  assert_true (negb (windows_any (λ x y, y.1 <? x.2) (sort_by_key id (audit_ranges st))));;
  assert_true (audit_allocated st =? allocated_bytes s);;
  assert_true (audit_resident st =? resident_bytes s).

(** ** [DirtyEpoch::audit_valid] *)
Definition no_holes (ranges : gmap Z Z) (start end_ : Z) : presult () :=
  starts ← overlapping_starts ranges start end_;
  assert_true (bool_decide (starts = [])).
Fixpoint audit_resident_holes (ranges : gmap Z Z) (l : list (Z * ResidentDirtyData)) : presult () :=
  match l with
  | [] => Ok ()
  | (start, d) :: l =>
      end_ ← expect (checked_add u64_max start (resident_len d));
      no_holes ranges start end_;;
      audit_resident_holes ranges l
  end.
Fixpoint audit_external_holes (e : DirtyEpoch) (l : list (Z * ExternalDirtyData)) : presult () :=
  match l with
  | [] => Ok ()
  | (start, d) :: l =>
      end_ ← expect (checked_add u64_max start (ext_length d));
      no_holes (holes e) start end_;;
      assert_true ((base_sequence e <? through_sequence d) && (through_sequence d <=? last_sequence e));;
      assert_true (source_end_ok d);;
      audit_external_holes e l
  end.
Definition epoch_audit_valid (e : DirtyEpoch) : presult () :=
  assert_epoch_valid e;;
  sparse_audit_valid (data e);;
  RangeSet.assert_valid (holes e);;
  audit_resident_holes (holes e) (iter (extents (data e)));;
  audit_external_holes e (iter (external_extents (data e))).

(** ** [complement_holes] *)
Definition resident_ranges (s : SparseData) : list (Z * Z) := (λ kv, (kv.1, kv.1 + resident_len kv.2)) <$> iter (extents s).
Definition external_ranges (s : SparseData) : list (Z * Z) := (λ kv, (kv.1, kv.1 + ext_length kv.2)) <$> iter (external_extents s).
Definition sorted_ranges (s : SparseData) : list (Z * Z) := sort_by_key id (resident_ranges s ++ external_ranges s).
Fixpoint fill_gaps (ranges : gmap Z Z) (cursor : Z) (l : list (Z * Z)) : presult (gmap Z Z * Z) :=
  match l with
  | [] => Ok (ranges, cursor)
  | (start, end_) :: l =>
      ranges ← (if cursor <? start then RangeSet_insert ranges cursor start else Ok ranges);
      fill_gaps ranges end_ l
  end.
Definition complement_holes (s : SparseData) : presult (gmap Z Z) :=
  r ← fill_gaps ∅ 0 (sorted_ranges s);
  if r.2 <? logical_size s then RangeSet_insert r.1 r.2 (logical_size s) else Ok r.1.

Section Audit.
Context (heap : Z → option (CommittedFile * (Z → option byte))).

Lemma msum_iter {V} (g : Z → V → Z) (m : gmap Z V) : msum g m = foldr (λ kv n, g kv.1 kv.2 + n) 0 (iter m).
Proof.
  assert (Hperm : ∀ l l' : list (Z * V), l ≡ₚ l' → foldr (λ kv n, g kv.1 kv.2 + n) 0 l = foldr (λ kv n, g kv.1 kv.2 + n) 0 l').
  { intros l l' Hp. induction Hp; cbn [foldr]; lia. }
  unfold msum. rewrite map_fold_foldr. unfold iter. rewrite (Hperm _ _ (sort_by_key_perm fst (map_to_list m))).
  generalize (map_to_list m) as l. induction l as [|[k v] l IH]; [done|]. cbn [foldr fst snd]. by rewrite <-IH.
Qed.
Lemma sort_ordered l lo hi : NoDup l → (∀ r, r ∈ l → lo ≤ r.1 < r.2 ∧ r.2 ≤ hi) → lo ≤ hi →
  (∀ r s x, r ∈ l → s ∈ l → r.1 ≤ x < r.2 → s.1 ≤ x < s.2 → r = s) → ordered lo (sort_by_key id l) hi.
Proof.
  intros Hnd Hin Hlh Hdis. pose proof (sort_by_key_sorted id l) as Hs. pose proof (sort_by_key_perm id l) as Hp.
  revert Hs Hp. generalize (sort_by_key id l) as l'. intros l' Hs Hp. rewrite <-Hp in Hnd. 
  assert (Hin' : ∀ r, r ∈ l' → lo ≤ r.1 < r.2 ∧ r.2 ≤ hi) by (intros r; rewrite Hp; apply Hin).
  assert (Hdis' : ∀ r s x, r ∈ l' → s ∈ l' → r.1 ≤ x < r.2 → s.1 ≤ x < s.2 → r = s) by (intros r s x; rewrite Hp; apply Hdis).
  clear Hin Hdis Hp l. revert lo Hlh Hin'. induction Hs as [|[x y] l' _ IH Hx]; intros lo Hlh Hin; cbn [ordered]; [done|].
  apply NoDup_cons in Hnd as [Hnot Hnd]. destruct (Hin (x, y) ltac:(by left)) as [Hxy Hyh]. cbn [fst snd] in *. split; [done|].
  apply IH; [done|intros r s z Hr Hs'; apply Hdis'; by right|lia|]. intros [a b] Hr. destruct (Hin (a, b) ltac:(by right)) as [Hab Hbh]. cbn [fst snd] in *.
  rewrite list.Forall_forall in Hx. specialize (Hx _ Hr). cbn [id] in Hx. split; [|done]. split; [|lia].
  assert (Hxa : x ≤ a). { destruct (Z.le_gt_cases x a); [done|]. exfalso. apply Hx. unfold id, cmp, ord_prod, cmp, ord_Z. cbn [fst snd]. by rewrite (proj2 (Z.compare_gt_iff x a)). }
  destruct (Z.le_gt_cases y a); [done|]. exfalso. apply Hnot. rewrite (Hdis' (x, y) (a, b) a); [done|by left|by right|cbn [fst snd]; lia|cbn [fst snd]; lia].
Qed.
Lemma range_elem {V} (len : V → Z) (m : gmap Z V) r :
  r ∈ (λ kv, (kv.1, kv.1 + len kv.2)) <$> iter m → ∃ k v, m !! k = Some v ∧ r = (k, k + len v).
Proof. intros ([k v]&->&Hk%elem_of_iter)%list_elem_of_fmap. by exists k, v. Qed.
Lemma ranges_NoDup {V} (len : V → Z) (m : gmap Z V) : NoDup ((λ kv, (kv.1, kv.1 + len kv.2)) <$> iter m).
Proof.
  apply (NoDup_fmap_1 fst). rewrite <-list_fmap_compose. pose proof (iter_sorted m) as Hs. induction Hs as [|x l _ IH Hx]; [constructor|].
  cbn [fmap list_fmap]. apply NoDup_cons. split; [|done]. intros (y&Heq&Hy)%list_elem_of_fmap. cbn [compose fst] in Heq. rewrite list.Forall_forall in Hx.
  specialize (Hx y Hy). unfold compose in Heq. cbn [fst] in Heq. lia.
Qed.
Lemma data_at_ranges s x : sparse_wf heap s → in_ranges (resident_ranges s ++ external_ranges s) x = true ↔ is_Some (data_at heap s x).
Proof.
  intros Hs. unfold in_ranges. rewrite existsb_exists. split.
  - intros (r&Hr&Hx). apply list_elem_of_In in Hr. apply andb_true_iff in Hx as [?%Z.leb_le ?%Z.ltb_lt]. unfold data_at.
    apply elem_of_app in Hr as [Hr|Hr]; apply range_elem in Hr as (k&v&Hk&->); cbn [fst snd] in *.
    + assert (Ha : at_ (extents s) x = Some (val k v x)) by (apply at_Some; [apply Hs|]; exists k, v; by split_and!). rewrite Ha. by eexists.
    + assert (Ha : at_ (external_extents s) x = Some (val k v x)) by (apply at_Some; [apply Hs|]; exists k, v; by split_and!).
      rewrite Ha. destruct (at_ (extents s) x); by eexists.
  - intros Hx. unfold data_at in Hx. assert (Hr : ∃ r, r ∈ resident_ranges s ++ external_ranges s ∧ r.1 ≤ x < r.2).
    { destruct (at_ (extents s) x) as [b|] eqn:Ha.
      - apply at_Some in Ha as (k&v&Hk&Hc&_); [|apply Hs]. exists (k, k + resident_len v). split; [|done]. apply elem_of_app. left.
        apply (list_elem_of_fmap_2 (λ kv : Z * ResidentDirtyData, (kv.1, kv.1 + resident_len kv.2)) _ (k, v)). by apply elem_of_iter.
      - destruct (at_ (external_extents s) x) as [[? ?]|] eqn:Hb; [|by destruct Hx]. apply at_Some in Hb as (k&v&Hk&Hc&_); [|apply Hs]. exists (k, k + ext_length v).
        split; [|done]. apply elem_of_app. right. apply (list_elem_of_fmap_2 (λ kv : Z * ExternalDirtyData, (kv.1, kv.1 + ext_length kv.2)) _ (k, v)). by apply elem_of_iter. }
    destruct Hr as (r&Hr&Hxr). exists r. split; [by apply list_elem_of_In|]. apply andb_true_iff. rewrite Z.leb_le, Z.ltb_lt. lia.
Qed.
Lemma sorted_ranges_ordered s : sparse_wf heap s → ordered 0 (sorted_ranges s) (logical_size s).
Proof.
  intros Hs. pose proof (sw_size _ _ Hs).
  assert (Hel : ∀ r x, r ∈ resident_ranges s → r.1 ≤ x < r.2 → ∃ k v, extents s !! k = Some v ∧ r = (k, fin k v) ∧ at_ (extents s) x = Some (val k v x)).
  { intros r x (k&v&Hk&->)%range_elem Hx. exists k, v. split_and!; [done|done|]. apply at_Some; [apply Hs|]. exists k, v. by split_and!. }
  assert (Hel' : ∀ r x, r ∈ external_ranges s → r.1 ≤ x < r.2 → ∃ k v, external_extents s !! k = Some v ∧ r = (k, fin k v) ∧ at_ (external_extents s) x = Some (val k v x)).
  { intros r x (k&v&Hk&->)%range_elem Hx. exists k, v. split_and!; [done|done|]. apply at_Some; [apply Hs|]. exists k, v. by split_and!. }
  assert (Hb : ∀ r, r ∈ resident_ranges s ++ external_ranges s → 0 ≤ r.1 < r.2 ∧ r.2 ≤ logical_size s).
  { intros r [Hr|Hr]%elem_of_app; apply range_elem in Hr as (k&v&Hk&->); cbn [fst snd].
    - destruct (resident_bounds _ _ k v Hs Hk) as (?&Hf&_). pose proof (ew_full _ (sw_resident _ _ Hs) _ _ Hk) as Hk'. rewrite fin_resident in Hf, Hk'. lia.
    - destruct (external_bounds _ _ k v Hs Hk) as (?&Hf&_). pose proof (ew_full _ (sw_external _ _ Hs) _ _ Hk) as Hk'. rewrite fin_external in Hf, Hk'. lia. }
  assert (Hcross : ∀ r t x, r ∈ resident_ranges s → t ∈ external_ranges s → r.1 ≤ x < r.2 → t.1 ≤ x < t.2 → False).
  { intros r t x Hr Ht Hrx Htx. destruct (Hel r x Hr Hrx) as (k&v&_&_&Ha). destruct (Hel' t x Ht Htx) as (k'&v'&_&_&Ha').
    rewrite (sw_apart _ _ Hs x) in Ha' by (by eexists). done. }
  unfold sorted_ranges. apply sort_ordered; [|done|lia|].
  - apply NoDup_app. split_and!; [apply ranges_NoDup| |apply ranges_NoDup]. intros r Hr Hr'. destruct (Hb r ltac:(apply elem_of_app; by left)).
    apply (Hcross r r r.1 Hr Hr'); lia.
  - intros r t x [Hr|Hr]%elem_of_app [Ht|Ht]%elem_of_app Hrx Htx; [| | |].
    + destruct (Hel r x Hr Hrx) as (k&v&Hk&->&_). destruct (Hel t x Ht Htx) as (k'&v'&Hk'&->&_).
      assert (k = k') as -> by (apply (ew_disjoint _ (sw_resident _ _ Hs) k v k' v' x); done). by simplify_eq.
    + by destruct (Hcross r t x).
    + by destruct (Hcross t r x).
    + destruct (Hel' r x Hr Hrx) as (k&v&Hk&->&_). destruct (Hel' t x Ht Htx) as (k'&v'&Hk'&->&_).
      assert (k = k') as -> by (apply (ew_disjoint _ (sw_external _ _ Hs) k v k' v' x); done). by simplify_eq.
Qed.

Definition total {V} (len : V → Z) (l : list (Z * V)) : Z := foldr (λ kv n, len kv.2 + n) 0 l.
Lemma total_length_nonneg {V} (len : V → Z) l : (∀ kv, kv ∈ l → 0 ≤ len kv.2) → 0 ≤ total len l.
Proof.
  induction l as [|kv l IH]; intros Hl; [done|]. cbn [total foldr]. fold (total len l). pose proof (Hl kv ltac:(by left)).
  pose proof (IH ltac:(intros; apply Hl; by right)). lia.
Qed.
Lemma audit_residents_ok s l st : sparse_wf heap s → (∀ kv, kv ∈ l → extents s !! kv.1 = Some kv.2) →
  0 ≤ audit_allocated st → 0 ≤ audit_resident st →
  audit_allocated st + total resident_len l ≤ u64_max → audit_resident st + total resident_len l ≤ u64_max →
  audit_residents (logical_size s) l st = Ok {| audit_ranges := audit_ranges st ++ ((λ kv, (kv.1, kv.1 + resident_len kv.2)) <$> l);
    audit_allocated := audit_allocated st + total resident_len l; audit_resident := audit_resident st + total resident_len l |}.
Proof.
  intros Hs. revert st. induction l as [|[k d] l IH]; intros st Hl H1 H2 Hm1 Hm2; cbn [audit_residents].
  { cbn [total foldr fmap list_fmap]. rewrite app_nil_r, !Z.add_0_r. by destruct st. }
  pose proof (Hl (k, d) ltac:(by left)) as Hk. cbn [fst snd] in Hk. destruct (resident_bounds _ _ k d Hs Hk) as (?&Hf&Hm).
  pose proof (ew_full _ (sw_resident _ _ Hs) _ _ Hk) as Hpos. rewrite fin_resident in Hf, Hm, Hpos. cbn [total foldr snd] in Hm1, Hm2 |- *. fold (total resident_len l) in *.
  assert (0 ≤ total resident_len l).
  { apply total_length_nonneg. intros [k' d'] Hin. pose proof (ew_full _ (sw_resident _ _ Hs) _ _ (Hl (k', d') ltac:(by right))) as Hx. cbn [fst snd] in *. rewrite fin_resident in Hx. lia. }
  rewrite (proj2 (Z.eqb_neq _ _)) by lia. cbn [negb assert_true]. rewrite Ok_bind, !checked_add_ok by lia. cbn [expect]. rewrite !Ok_bind, (proj2 (Z.leb_le _ _)) by lia.
  cbn [assert_true]. rewrite Ok_bind, IH; cbn [audit_ranges audit_allocated audit_resident]; try lia; [|intros; apply Hl; by right].
  cbn [fmap list_fmap fst snd]. rewrite <-app_assoc, !Z.add_assoc. done.
Qed.
Lemma source_end_holds s k d : sparse_wf heap s → external_extents s !! k = Some d → source_end_ok d = true.
Proof.
  intros Hs Hk. destruct (sw_sources _ _ Hs k d Hk) as [Hf ? ? _]. pose proof (fo_size _ _ Hf). unfold source_end_ok. rewrite checked_add_ok by lia. apply Z.leb_le. lia.
Qed.
Lemma audit_externals_ok s l st : sparse_wf heap s → (∀ kv, kv ∈ l → external_extents s !! kv.1 = Some kv.2) →
  0 ≤ audit_allocated st → audit_allocated st + total ext_length l ≤ u64_max →
  audit_externals (logical_size s) l st = Ok {| audit_ranges := audit_ranges st ++ ((λ kv, (kv.1, kv.1 + ext_length kv.2)) <$> l);
    audit_allocated := audit_allocated st + total ext_length l; audit_resident := audit_resident st |}.
Proof.
  intros Hs. revert st. induction l as [|[k d] l IH]; intros st Hl H1 Hm1; cbn [audit_externals].
  { cbn [total foldr fmap list_fmap]. rewrite app_nil_r, !Z.add_0_r. by destruct st. }
  pose proof (Hl (k, d) ltac:(by left)) as Hk. cbn [fst snd] in Hk. destruct (external_bounds _ _ k d Hs Hk) as (?&Hf&Hm).
  pose proof (ew_full _ (sw_external _ _ Hs) _ _ Hk) as Hpos. rewrite fin_external in Hf, Hm, Hpos. cbn [total foldr snd] in Hm1 |- *. fold (total ext_length l) in *.
  assert (0 ≤ total ext_length l).
  { apply total_length_nonneg. intros [k' d'] Hin. pose proof (ew_full _ (sw_external _ _ Hs) _ _ (Hl (k', d') ltac:(by right))) as Hx. cbn [fst snd] in *. rewrite fin_external in Hx. lia. }
  rewrite (proj2 (Z.eqb_neq _ _)) by lia. cbn [negb assert_true]. rewrite Ok_bind, !checked_add_ok by lia. cbn [expect]. rewrite !Ok_bind, (proj2 (Z.leb_le _ _)) by lia.
  cbn [assert_true]. rewrite Ok_bind, (source_end_holds s k d Hs Hk). cbn [assert_true]. rewrite Ok_bind.
  rewrite IH; cbn [audit_ranges audit_allocated audit_resident]; try lia; [|intros; apply Hl; by right].
  cbn [fmap list_fmap fst snd]. rewrite <-app_assoc, !Z.add_assoc. done.
Qed.
Lemma ordered_windows lo l hi : ordered lo l hi → windows_any (λ x y, y.1 <? x.2) l = false.
Proof.
  intros Hl. apply windows_any_false. revert lo Hl. induction l as [|[x y] l IH]; intros lo Hl; [constructor|]. destruct Hl as [_ Hl].
  constructor; [by eapply IH|]. destruct l as [|[a b] l]; [constructor|]. destruct Hl as [? _]. constructor. cbn [fst snd]. apply Z.ltb_ge. lia.
Qed.
Lemma sparse_audit_ok s : sparse_wf heap s → sparse_audit_valid s = Ok ().
Proof.
  intros Hs. unfold sparse_audit_valid. pose proof (sparse_bytes_le _ _ Hs). pose proof (sw_size _ _ Hs).
  assert (Hr : total resident_len (iter (extents s)) = extent_bytes (extents s)).
  { unfold extent_bytes, total. rewrite msum_iter. apply foldr_ext; [|done|done]. intros [k d] n. cbn [fst snd]. rewrite fin_resident. lia. }
  assert (He : total ext_length (iter (external_extents s)) = extent_bytes (external_extents s)).
  { unfold extent_bytes, total. rewrite msum_iter. apply foldr_ext; [|done|done]. intros [k d] n. cbn [fst snd]. rewrite fin_external. lia. }
  rewrite audit_residents_ok; cbn [audit_ranges audit_allocated audit_resident]; try lia; [|done|intros [k d] Hk; by apply elem_of_iter in Hk].
  rewrite Ok_bind, audit_externals_ok; cbn [audit_ranges audit_allocated audit_resident]; try lia; [|done|intros [k d] Hk; by apply elem_of_iter in Hk].
  rewrite Ok_bind. cbn [audit_ranges audit_allocated audit_resident app]. fold (resident_ranges s) (external_ranges s) (sorted_ranges s).
  rewrite (ordered_windows 0 _ (logical_size s)) by (by apply sorted_ranges_ordered). cbn [negb assert_true]. rewrite Ok_bind.
  pose proof (sw_allocated _ _ Hs). pose proof (sw_resident_bytes _ _ Hs).
  rewrite (proj2 (Z.eqb_eq _ (allocated_bytes s))) by lia. cbn [assert_true]. rewrite Ok_bind. by rewrite (proj2 (Z.eqb_eq _ (resident_bytes s))) by lia.
Qed.
Lemma no_holes_ok e a b : epoch_wf heap e → a < b → (∀ x, a ≤ x < b → is_Some (data_at heap (data e) x)) → no_holes (holes e) a b = Ok ().
Proof.
  intros He Hab Hd. unfold no_holes. destruct (overlapping_starts_ok (holes e) a b (ep_holes _ _ He) Hab) as (l&->&Hl). rewrite Ok_bind.
  destruct l as [|[k v] l]; [done|]. exfalso. destruct (proj1 (ol_elem _ _ _ _ Hl k v) ltac:(by left)) as [Hk Ho]. unfold overlaps in Ho. rewrite fin_range in Ho.
  pose proof (rw_full _ (ep_holes _ _ He) k v Hk). destruct (Hd (Z.max a k) ltac:(lia)) as [? Hx].
  rewrite (ep_apart _ _ He (Z.max a k)) in Hx; [done|]. apply present_spec; [apply He|]. exists k, v. split; [done|lia].
Qed.
Lemma resident_present e k d x : epoch_wf heap e → extents (data e) !! k = Some d → k ≤ x < fin k d → is_Some (data_at heap (data e) x).
Proof.
  intros He Hk Hx. unfold data_at. assert (Ha : at_ (extents (data e)) x = Some (val k d x)); [|rewrite Ha; by eexists].
  apply at_Some; [apply (ep_data _ _ He)|]. by exists k, d.
Qed.
Lemma external_present e k d x : epoch_wf heap e → external_extents (data e) !! k = Some d → k ≤ x < fin k d → is_Some (data_at heap (data e) x).
Proof.
  intros He Hk Hx. unfold data_at. destruct (at_ (extents (data e)) x); [by eexists|].
  assert (Ha : at_ (external_extents (data e)) x = Some (val k d x)); [|rewrite Ha; by eexists].
  apply at_Some; [apply (ep_data _ _ He)|]. by exists k, d.
Qed.
Lemma epoch_audit_ok e : epoch_wf heap e → epoch_audit_valid e = Ok ().
Proof.
  intros He. pose proof (ep_data _ _ He) as Hs. unfold epoch_audit_valid. rewrite (epoch_valid_ok heap), Ok_bind, sparse_audit_ok, Ok_bind by done.
  rewrite assert_valid_ok, Ok_bind by apply He.
  assert (Hr : ∀ l, (∀ kv, kv ∈ l → extents (data e) !! kv.1 = Some kv.2) → audit_resident_holes (holes e) l = Ok ()).
  { induction l as [|[k d] l IH]; intros Hl; [done|]. cbn [audit_resident_holes]. pose proof (Hl (k, d) ltac:(by left)) as Hk. cbn [fst snd] in Hk.
    destruct (resident_bounds _ _ k d Hs Hk) as (_&_&Hm). pose proof (ew_full _ (sw_resident _ _ Hs) _ _ Hk) as Hpos. pose proof Hm as Hm'. rewrite fin_resident in Hm', Hpos.
    rewrite checked_add_ok by lia. cbn [expect]. rewrite Ok_bind, no_holes_ok, Ok_bind; [apply IH; intros; apply Hl; by right|done|lia|].
    intros x Hx. by apply (resident_present e k d). }
  rewrite Hr by (intros [k d] Hk; by apply elem_of_iter in Hk). rewrite Ok_bind.
  assert (Hx : ∀ l, (∀ kv, kv ∈ l → external_extents (data e) !! kv.1 = Some kv.2) → audit_external_holes e l = Ok ()).
  { induction l as [|[k d] l IH]; intros Hl; [done|]. cbn [audit_external_holes]. pose proof (Hl (k, d) ltac:(by left)) as Hk. cbn [fst snd] in Hk.
    destruct (external_bounds _ _ k d Hs Hk) as (_&_&Hm). pose proof (ew_full _ (sw_external _ _ Hs) _ _ Hk) as Hpos. pose proof Hm as Hm'. rewrite fin_external in Hm', Hpos.
    rewrite checked_add_ok by lia. cbn [expect]. rewrite Ok_bind, no_holes_ok, Ok_bind; [|done|lia|intros x Hx; by apply (external_present e k d)].
    pose proof (proj2 (ep_stamped _ _ He) k d Hk) as Hq. cbn beta in Hq. rewrite (proj2 (Z.ltb_lt _ _)), (proj2 (Z.leb_le _ _)) by lia. cbn [andb assert_true]. rewrite Ok_bind.
    rewrite (source_end_holds _ k d Hs Hk). cbn [assert_true]. rewrite Ok_bind. apply IH. intros; apply Hl; by right. }
  apply Hx. intros [k d] Hk. by apply elem_of_iter in Hk.
Qed.
End Audit.
End EpochAudit.
