(* ===== verification/Flatten.v ===== *)
(** * Collapsing and inserting ranges

    [flatten_live], [overlay_epoch], [copy_sparse_window] and
    [install_flattened_active] of [fastdup-posix/src/versioned_file.rs]: the live
    file is flattened into one layer, its windows are copied, and the layer
    becomes the active epoch. *)
From S2P Require Export EpochAudit.

Module Flatten.
Import SparseData SparseDataOps RangeSet DirtyEpoch DirtyEpochOps ReadPlan ReadPlanCover ReadPlanExact ReadPlanRun Allocation VersionedFile VersionedFileOps VersionedFileRuns EpochAudit.

(** [committed_uniform_run_end] *)
Definition committed_uniform_run_end (file : CommittedFile) (start : Z) (allocated : bool) : presult Z :=
  run_end (λ a b, allocated_bytes_in_range file a (b - a)) start allocated (file_logical_size file).
Fixpoint flatten_committed (fuel : nat) (file : CommittedFile) (s : SparseData) (cursor sequence : Z) : presult SparseData :=
  match fuel with
  | O => if cursor <? file_logical_size file then Panic else Ok s
  | S fuel =>
      if cursor <? file_logical_size file then
        n ← allocated_bytes_in_range file cursor 1;
        let allocated := n =? 1 in
        run ← committed_uniform_run_end file cursor allocated;
        s ← (if allocated then write_external s cursor file cursor (run - cursor) sequence else Ok s);
        flatten_committed fuel file s run sequence
      else Ok s
  end.
(** [overlay_epoch] *)
Fixpoint punch_all (s : SparseData) (l : list (Z * Z)) : presult SparseData :=
  match l with [] => Ok s | (start, end_) :: l => s ← punch s start end_; punch_all s l end.
Fixpoint write_all (s : SparseData) (l : list (Z * ResidentDirtyData)) (sequence : Z) : presult SparseData :=
  match l with [] => Ok s | (start, d) :: l => s ← write s start (resident_payload d) sequence; write_all s l sequence end.
Fixpoint write_external_all (s : SparseData) (l : list (Z * ExternalDirtyData)) (sequence : Z) : presult SparseData :=
  match l with
  | [] => Ok s
  | (start, d) :: l =>
      s ← write_external s start (source d) (source_offset d) (ext_length d) sequence;
      write_external_all s l sequence
  end.
Definition overlay_epoch (s : SparseData) (e : DirtyEpoch) (sequence : Z) : presult SparseData :=
  s ← truncate s (result_size e);
  s ← punch_all s (iter (holes e));
  s ← write_all s (iter (extents (data e))) sequence;
  write_external_all s (iter (external_extents (data e))) sequence.
(** [VersionedFile::flatten_live] *)
Definition flatten_live (f : VersionedFile) (sequence : Z) : presult SparseData :=
  let size := file_logical_size (committed f) in
  s ← flatten_committed (Z.to_nat size) (committed f) (sparse_default size) 0 sequence;
  s ← match inflight f with Some frozen => overlay_epoch s (dirty frozen) sequence | None => Ok s end;
  overlay_epoch s (active f) sequence.
(** [copy_sparse_window] *)
Fixpoint copy_residents (l : list (Z * ResidentDirtyData)) (source_start source_end target_start sequence : Z) (target : SparseData)
    : presult SparseData :=
  match l with
  | [] => Ok target
  | (extent_start, d) :: l =>
      extent_end ← ok_or (checked_add u64_max extent_start (resident_len d)) Io;
      let selected_start := Z.max extent_start source_start in
      let selected_end := Z.min extent_end source_end in
      target ← (if selected_end <=? selected_start then Ok target
                else
                  fragment ← resident_fragment d (selected_start - extent_start) (selected_end - extent_start);
                  destination ← ok_or (checked_add u64_max target_start (selected_start - source_start)) FileTooLarge;
                  write target destination (resident_payload fragment) sequence);
      copy_residents l source_start source_end target_start sequence target
  end.
Fixpoint copy_externals (l : list (Z * ExternalDirtyData)) (source_start source_end target_start sequence : Z) (target : SparseData)
    : presult SparseData :=
  match l with
  | [] => Ok target
  | (extent_start, d) :: l =>
      extent_end ← ok_or (checked_add u64_max extent_start (ext_length d)) Io;
      let selected_start := Z.max extent_start source_start in
      let selected_end := Z.min extent_end source_end in
      target ← (if selected_end <=? selected_start then Ok target
                else
                  destination ← ok_or (checked_add u64_max target_start (selected_start - source_start)) FileTooLarge;
                  selected_source ← ok_or (checked_add u64_max (source_offset d) (selected_start - extent_start)) Io;
                  write_external target destination (source d) selected_source (selected_end - selected_start) sequence);
      copy_externals l source_start source_end target_start sequence target
  end.
Definition copy_sparse_window (s : SparseData) (source_start source_end target_start sequence : Z) (target : SparseData)
    : presult SparseData :=
  assert_true (source_start <=? source_end);;
  target ← copy_residents (iter (extents s)) source_start source_end target_start sequence target;
  copy_externals (iter (external_extents s)) source_start source_end target_start sequence target.
(** [VersionedFile::install_flattened_active] *)
Definition install_flattened_active (f : VersionedFile) (s : SparseData) (sequence : Z) : presult VersionedFile :=
  ranges ← complement_holes s;
  let e := {| base_size := base_size (active f); result_size := logical_size s; base_sequence := base_sequence (active f);
              last_sequence := sequence; first_sequence := Some (default sequence (first_sequence (active f))); data := s; holes := ranges;
              append_metadata_covered_end := None; clone_metadata_coverage := None |} in
  assert_epoch_valid e;;
  Ok (set_active f e (allocated_bytes s)).
(** [VersionedFile::collapse_range] and [insert_range] *)
Definition collapse_range (f : VersionedFile) (offset end_ sequence : Z) : presult VersionedFile :=
  let current_size := live_size f in
  flattened ← flatten_live f sequence;
  removed ← expect (checked_sub end_ offset);
  size ← expect (checked_sub current_size removed);
  replacement ← copy_sparse_window flattened 0 offset 0 sequence (sparse_default size);
  replacement ← copy_sparse_window flattened end_ current_size offset sequence replacement;
  install_flattened_active f replacement sequence.
Definition insert_range (f : VersionedFile) (offset length sequence : Z) : presult VersionedFile :=
  let current_size := live_size f in
  size ← ok_or (checked_add u64_max current_size length) FileTooLarge;
  flattened ← flatten_live f sequence;
  replacement ← copy_sparse_window flattened 0 offset 0 sequence (sparse_default size);
  target ← expect (checked_add u64_max offset length);
  replacement ← copy_sparse_window flattened offset current_size target sequence replacement;
  install_flattened_active f replacement sequence.

Section Flat.
Context (heap : Z → option (CommittedFile * (Z → option byte))).

(** ** The complement *)
Lemma fill_gaps_spec l m cursor hi : ordered cursor l hi → ranges_wf m → 0 ≤ cursor → (∀ x, cursor ≤ x → present m x = false) →
  ∃ m' c', fill_gaps m cursor l = Ok (m', c') ∧ ranges_wf m' ∧ cursor ≤ c' ≤ hi ∧
    (∀ x, present m' x = if decide (cursor ≤ x < c') then negb (in_ranges l x) else present m x) ∧
    (∀ x, c' ≤ x → in_ranges l x = false).
Proof.
  revert m cursor. induction l as [|[a b] l IH]; intros m cursor Hl Hm Hc Hnone; cbn [fill_gaps].
  { exists m, cursor. split_and!; [done|done|lia|done| |done]. intros x. by rewrite decide_False by lia. }
  destruct Hl as [Hab Hl]. pose proof (ordered_le _ _ _ Hl).
  assert (Hins : ∃ m1, (if cursor <? a then RangeSet_insert m cursor a else Ok m) = Ok m1 ∧ ranges_wf m1 ∧
    ∀ x, present m1 x = if decide (cursor ≤ x < a) then true else present m x).
  { destruct (Z.ltb_spec cursor a); [apply RangeSet_insert_spec; [done|lia]|]. exists m. split_and!; [done|done|]. intros x. by rewrite decide_False by lia. }
  destruct Hins as (m1&->&Hm1&Hp1). rewrite Ok_bind. destruct (IH m1 b Hl Hm1) as (m'&c'&->&Hm'&Hc'&Hp'&Hout); [lia| |].
  { intros x Hx. rewrite Hp1, decide_False by lia. apply Hnone. lia. }
  assert (Hcons : ∀ x, in_ranges ((a, b) :: l) x = (a <=? x) && (x <? b) || in_ranges l x) by done.
  assert (Hlow : ∀ x, x < b → in_ranges l x = false).
  { intros x Hx. destruct (in_ranges l x) eqn:Hin; [|done]. apply existsb_exists in Hin as (r&Hr&Hxr). apply list_elem_of_In in Hr.
    destruct (ordered_elem _ _ _ r Hl Hr). apply andb_true_iff in Hxr as [?%Z.leb_le _]. lia. }
  exists m', c'. split_and!; [done|done|lia|lia| |].
  - intros x. rewrite Hp', Hcons. destruct (decide (b ≤ x < c')).
    + rewrite decide_True by lia. by rewrite (proj2 (Z.ltb_ge x b)), andb_false_r by lia.
    + rewrite Hp1. destruct (decide (cursor ≤ x < a)).
      * rewrite decide_True by lia. rewrite (proj2 (Z.leb_gt a x)), Hlow by lia. done.
      * destruct (decide (cursor ≤ x < c')); [|done]. rewrite (proj2 (Z.leb_le a x)), (proj2 (Z.ltb_lt x b)) by lia. cbn [andb orb negb].
        apply Hnone. lia.
  - intros x Hx. rewrite Hcons, Hout by lia. by rewrite (proj2 (Z.ltb_ge x b)), andb_false_r by lia.
Qed.
Lemma complement_holes_spec s : sparse_wf heap s →
  ∃ m, complement_holes s = Ok m ∧ ranges_wf m ∧
    ∀ x, present m x = true ↔ 0 ≤ x < logical_size s ∧ data_at heap s x = None.
Proof.
  intros Hs. unfold complement_holes. pose proof (sorted_ranges_ordered heap s Hs) as Hord.
  destruct (fill_gaps_spec (sorted_ranges s) ∅ 0 (logical_size s) Hord ranges_empty ltac:(lia)) as (m&c&->&Hm&Hc&Hp&Hout).
  { intros x _. unfold present. by rewrite at_empty. }
  rewrite Ok_bind. cbn [fst snd].
  assert (Hlast : ∃ m', (if c <? logical_size s then RangeSet_insert m c (logical_size s) else Ok m) = Ok m' ∧ ranges_wf m' ∧
    ∀ x, present m' x = if decide (c ≤ x < logical_size s) then true else present m x).
  { destruct (Z.ltb_spec c (logical_size s)); [apply RangeSet_insert_spec; [done|lia]|]. exists m. split_and!; [done|done|]. intros x. by rewrite decide_False by lia. }
  destruct Hlast as (m'&->&Hm'&Hp'). exists m'. split_and!; [done|done|]. intros x.
  assert (Hdata : in_ranges (sorted_ranges s) x = false ↔ data_at heap s x = None).
  { rewrite eq_None_not_Some, <-(data_at_ranges heap s x Hs), <-not_true_iff_false. apply not_iff_compat. unfold in_ranges. rewrite !existsb_exists.
    split; intros (r&Hr&Hx); exists r; (split; [|done]); revert Hr; rewrite <-!list_elem_of_In; unfold sorted_ranges; by rewrite (sort_by_key_perm id). }
  assert (He : present (∅ : gmap Z Z) x = false) by (unfold present; by rewrite at_empty).
  rewrite Hp'. destruct (decide (c ≤ x < logical_size s)) as [Hx|Hx].
  { split; [|done]. intros _. split; [lia|]. apply Hdata, Hout. lia. }
  rewrite Hp, He. destruct (decide (0 ≤ x < c)) as [Hx2|Hx2]; [|split; [done|lia]]. rewrite negb_true_iff, Hdata. split; [intros; split; [lia|done]|by intros [_ ?]].
Qed.

(** ** Placing parts *)
Definition part : Type := Z * Z * (Z → option byte).
Fixpoint place_all (l : list part) (below : Z → option byte) : Z → option byte :=
  match l with
  | [] => below
  | (a, b, g) :: l => place_all l (λ x, if decide (a ≤ x < b) then g x else below x)
  end.
Lemma place_all_out l below x : (∀ t, t ∈ l → ¬ t.1.1 ≤ x < t.1.2) → place_all l below x = below x.
Proof.
  revert below. induction l as [|[[a b] g] l IH]; intros below Hno; cbn [place_all]; [done|]. rewrite IH by (intros; apply Hno; by right).
  pose proof (Hno (a, b, g) ltac:(by left)) as Hn. cbn [fst snd] in Hn. by rewrite decide_False.
Qed.
Lemma place_all_in l below x v : (∀ t, t ∈ l → t.1.1 ≤ x < t.1.2 → t.2 x = v) → (∃ t, t ∈ l ∧ t.1.1 ≤ x < t.1.2) → place_all l below x = v.
Proof.
  revert below. induction l as [|[[a b] g] l IH]; intros below Hv (t&Ht&Hx); cbn [place_all]; [by apply not_elem_of_nil in Ht|].
  destruct (existsb (λ t : part, (t.1.1 <=? x) && (x <? t.1.2)) l) eqn:Hex.
  - apply existsb_exists in Hex as (u&Hu&Hux). apply list_elem_of_In in Hu. apply andb_true_iff in Hux as [?%Z.leb_le ?%Z.ltb_lt].
    apply IH; [intros; apply Hv; [by right|done]|by exists u].
  - rewrite place_all_out.
    + apply elem_of_cons in Ht as [->|Ht]; [cbn [fst snd] in Hx; rewrite decide_True by done; by apply (Hv (a, b, g)); [left|]|].
      exfalso. assert (existsb (λ t : part, (t.1.1 <=? x) && (x <? t.1.2)) l = true); [|congruence]. apply existsb_exists. exists t.
      split; [by apply list_elem_of_In|]. apply andb_true_iff. rewrite Z.leb_le, Z.ltb_lt. lia.
    + intros u Hu Hux. assert (existsb (λ t : part, (t.1.1 <=? x) && (x <? t.1.2)) l = true); [|congruence]. apply existsb_exists. exists u.
      split; [by apply list_elem_of_In|]. apply andb_true_iff. rewrite Z.leb_le, Z.ltb_lt. lia.
Qed.
(** The effect of a sequence of operations on dirty data that keep its size. *)
Record flat_result (s s' : SparseData) (sequence : Z) (view : Z → option byte) : Prop := {
  fr_wf : sparse_wf heap s';
  fr_size : logical_size s' = logical_size s;
  fr_data x : data_at heap s' x = view x;
  fr_stamped P : stamped P s → P sequence → stamped P s';
}.
Lemma flat_trans s1 s2 s3 q v2 v3 : flat_result s1 s2 q v2 → flat_result s2 s3 q v3 → flat_result s1 s3 q v3.
Proof. intros [? ? ? Hp1] [? ? ? Hp2]. split; [done|congruence|done|]. intros P HP Hq. apply Hp2; [by apply Hp1|done]. Qed.
Lemma place_all_ext l g h x : (∀ y, g y = h y) → place_all l g x = place_all l h x.
Proof. revert g h. induction l as [|[[a b] k] l IH]; intros g h Hgh; cbn [place_all]; [done|]. apply IH. intros y. by rewrite Hgh. Qed.
Lemma punch_all_spec s l sequence : sparse_wf heap s → (∀ r, r ∈ l → r.1 ≤ r.2) →
  ∃ s', punch_all s l = Ok s' ∧ flat_result s s' sequence (place_all ((λ r, (r.1, r.2, λ _, None)) <$> l) (data_at heap s)).
Proof.
  revert s. induction l as [|[a b] l IH]; intros s Hs Hl; cbn [punch_all fmap list_fmap place_all fst snd]; [by exists s|].
  destruct (punch_spec heap s a b Hs (Hl (a, b) ltac:(by left))) as (s1&->&[Hs1 Hsz Hd Hst]). rewrite Ok_bind.
  destruct (IH s1 Hs1) as (s'&->&[Hs' Hsz' Hd' Hst']); [intros; apply Hl; by right|]. exists s'. split; [done|]. split; [done|congruence| |].
  - intros x. rewrite Hd'. by apply place_all_ext.
  - intros P HP Hq. apply Hst'; [|done]. apply Hst; [done|]. by intros q [=].
Qed.
Lemma write_all_spec s l sequence : sparse_wf heap s → (∀ kv, kv ∈ l → 0 ≤ kv.1 < fin kv.1 kv.2 ∧ fin kv.1 kv.2 ≤ logical_size s) →
  ∃ s', write_all s l sequence = Ok s' ∧
    flat_result s s' sequence (place_all ((λ kv, (kv.1, fin kv.1 kv.2, λ x, Some (val kv.1 kv.2 x))) <$> l) (data_at heap s)).
Proof.
  revert s. induction l as [|[k d] l IH]; intros s Hs Hl; cbn [write_all fmap list_fmap place_all fst snd]; [by exists s|].
  destruct (Hl (k, d) ltac:(by left)) as [Hk Hf]. cbn [fst snd] in *. pose proof (sw_size _ _ Hs) as Hsz0. pose proof Hk as Hk'. pose proof Hf as Hf'.
  rewrite fin_resident in Hk', Hf'. unfold resident_len in Hk', Hf'.
  destruct (write_spec heap s k (resident_payload d) sequence Hs) as (s1&->&[Hs1 Hsz Hd Hst]); [lia|lia|lia|]. rewrite Ok_bind.
  assert (Hsz1 : logical_size s1 = logical_size s) by lia.
  destruct (IH s1 Hs1) as (s'&->&[Hs' Hsz' Hd' Hst']); [intros; rewrite Hsz1; apply Hl; by right|]. exists s'. split; [done|]. split; [done|congruence| |].
  - intros x. rewrite Hd'. apply place_all_ext. intros y. rewrite Hd, fin_resident. unfold resident_len.
    destruct (decide (k ≤ y < k + blen (payload_bytes (resident_payload d)))) as [Hy|Hy]; [|by rewrite payload_at_out].
    destruct (payload_at_in (resident_payload d) k y ltac:(lia) Hy) as [b Hb]. rewrite Hb. unfold payload_at in Hb. rewrite decide_True in Hb by lia.
    unfold val, resident_extent. by rewrite Hb.
  - intros P HP Hq. apply Hst'; [|done]. apply Hst; [done|]. by intros q [= <-].
Qed.
Lemma write_external_all_spec s l sequence : sparse_wf heap s →
  (∀ kv, kv ∈ l → 0 ≤ kv.1 < fin kv.1 kv.2 ∧ fin kv.1 kv.2 ≤ logical_size s ∧ source_ok heap kv.2) →
  ∃ s', write_external_all s l sequence = Ok s' ∧
    flat_result s s' sequence (place_all ((λ kv, (kv.1, fin kv.1 kv.2,
      λ x, file_at heap (source kv.2) (source_offset kv.2 + (x - kv.1)))) <$> l) (data_at heap s)).
Proof.
  revert s. induction l as [|[k d] l IH]; intros s Hs Hl; cbn [write_external_all fmap list_fmap place_all fst snd]; [by exists s|].
  destruct (Hl (k, d) ltac:(by left)) as (Hk&Hf&[Hfile Hso Hse Hpres]). cbn [fst snd] in *. pose proof (sw_size _ _ Hs) as Hsz0.
  rewrite fin_external in Hk, Hf. rewrite fin_external.
  destruct (write_external_spec heap s k (source d) (source_offset d) (ext_length d) sequence Hs Hfile) as (s1&->&[Hs1 Hsz Hd Hst]);
    [lia|lia|lia|lia|lia|done|]. rewrite Ok_bind. assert (Hsz1 : logical_size s1 = logical_size s) by lia.
  destruct (IH s1 Hs1) as (s'&->&[Hs' Hsz' Hd' Hst']); [intros; rewrite Hsz1; apply Hl; by right|]. exists s'. split; [done|]. split; [done|congruence| |].
  - intros x. rewrite Hd'. by apply place_all_ext.
  - intros P HP Hq. apply Hst'; [|done]. apply Hst; [done|]. by intros q [= <-].
Qed.

(** Placing the extents of a map, moved and clipped. *)
Lemma place_map {V T} `{Extent V T} (m : gmap Z V) below x y (C : Prop) `{!Decision C} (a b : Z * V → Z) (h : Z * V → Z → option byte) :
  extents_wf m → (∀ kv, m !! kv.1 = Some kv.2 → a kv ≤ y < b kv ↔ C ∧ covers kv.1 kv.2 x) →
  place_all ((λ kv, (a kv, b kv, h kv)) <$> iter m) below y =
    if decide C then match covering m x with Some kv => h kv y | None => below y end else below y.
Proof.
  intros Hwf Hc. assert (Hel : ∀ t, t ∈ (λ kv, (a kv, b kv, h kv)) <$> iter m → ∃ kv, m !! kv.1 = Some kv.2 ∧ t = (a kv, b kv, h kv)).
  { intros t ([k v]&->&Hk%elem_of_iter)%list_elem_of_fmap. by exists (k, v). }
  destruct (decide C) as [HC|HC]; [destruct (covering m x) as [[k v]|] eqn:Hx|].
  - pose proof (proj1 (covering_Some m x k v Hwf) Hx) as [Hk Hcov]. apply place_all_in.
    + intros t (kv&Hkv&->)%Hel Hy. cbn [fst snd] in *. apply Hc in Hy as [_ Hcov']; [|done].
      assert (kv.1 = k) as Hkk by (by apply (ew_disjoint _ Hwf kv.1 kv.2 k v x)). destruct kv as [k' v']. cbn [fst snd] in *. by simplify_eq.
    + exists (a (k, v), b (k, v), h (k, v)). split; [|by apply Hc]. apply (list_elem_of_fmap_2 (λ kv, (a kv, b kv, h kv)) _ (k, v)). by apply elem_of_iter.
  - apply place_all_out. intros t (kv&Hkv&->)%Hel Hy. cbn [fst snd] in Hy. apply Hc in Hy as [_ Hcov]; [|done].
    by apply (proj1 (covering_None m x Hwf) Hx kv.1 kv.2).
  - apply place_all_out. intros t (kv&Hkv&->)%Hel Hy. cbn [fst snd] in Hy. apply Hc in Hy as [HC' _]; [|done]. done.
Qed.
Lemma place_extents {V T} `{Extent V T} (m : gmap Z V) below x (h : Z * V → Z → option byte) : extents_wf m →
  place_all ((λ kv, (kv.1, fin kv.1 kv.2, h kv)) <$> iter m) below x = match covering m x with Some kv => h kv x | None => below x end.
Proof.
  intros Hwf. rewrite (place_map m below x x True (λ kv, kv.1) (λ kv, fin kv.1 kv.2) h Hwf); [by rewrite decide_True|]. intros kv _. unfold covers. tauto.
Qed.
Lemma external_value s k d x : sparse_wf heap s → external_extents s !! k = Some d → k ≤ x < fin k d →
  file_at heap (source d) (source_offset d + (x - k)) = Some (byte_at heap (source d) (source_offset d + (x - k))).
Proof.
  intros Hs Hk Hx. destruct (sw_sources _ _ Hs k d Hk) as [_ _ _ Hp]. rewrite fin_external in Hx.
  unfold byte_at. destruct (Hp (source_offset d + (x - k))) as [b Hb]; [lia|]. by rewrite Hb.
Qed.
Lemma covering_at {V T} `{Extent V T} (m : gmap Z V) x : at_ m x = (λ kv, val kv.1 kv.2 x) <$> covering m x.
Proof. done. Qed.
Lemma overlay_epoch_spec s e sequence : sparse_wf heap s → epoch_wf heap e →
  ∃ s', overlay_epoch s e sequence = Ok s' ∧ sparse_wf heap s' ∧ logical_size s' = result_size e ∧
    (∀ x, data_at heap s' x = epoch_at heap e (data_at heap s) x) ∧ (∀ P, stamped P s → P sequence → stamped P s').
Proof.
  intros Hs He. pose proof (ep_data _ _ He) as Hd. pose proof (sw_size _ _ Hd) as Hsz0. rewrite (ep_size _ _ He) in Hsz0. unfold overlay_epoch.
  destruct (truncate_sparse_spec heap s (result_size e) Hs Hsz0) as (s1&->&[Hs1 Hsz1 Hd1 Hst1]). rewrite Ok_bind.
  destruct (punch_all_spec s1 (iter (holes e)) sequence Hs1) as (s2&->&[Hs2 Hsz2 Hd2 Hst2]).
  { intros [k v] Hk%elem_of_iter. pose proof (rw_full _ (ep_holes _ _ He) k v Hk). cbn [fst snd]. lia. }
  rewrite Ok_bind. destruct (write_all_spec s2 (iter (extents (data e))) sequence Hs2) as (s3&->&[Hs3 Hsz3 Hd3 Hst3]).
  { intros [k d] Hk%elem_of_iter. destruct (resident_bounds _ _ k d Hd Hk) as (?&Hf&_). pose proof (ew_full _ (sw_resident _ _ Hd) _ _ Hk).
    rewrite (ep_size _ _ He) in Hf. cbn [fst snd]. lia. }
  rewrite Ok_bind. destruct (write_external_all_spec s3 (iter (external_extents (data e))) sequence Hs3) as (s4&->&[Hs4 Hsz4 Hd4 Hst4]).
  { intros [k d] Hk%elem_of_iter. destruct (external_bounds _ _ k d Hd Hk) as (?&Hf&_). pose proof (ew_full _ (sw_external _ _ Hd) _ _ Hk).
    rewrite (ep_size _ _ He) in Hf. cbn [fst snd]. split_and!; [lia|lia|lia|by apply (sw_sources _ _ Hd k)]. }
  exists s4. split_and!; [done|done|lia| |].
  2: { intros P HP Hq. apply Hst4; [|done]. apply Hst3; [|done]. apply Hst2; [|done]. apply Hst1; [done|]. by intros q [=]. }
  intros x. rewrite Hd4, place_extents by apply Hd. rewrite Hd3, place_extents by apply Hd. rewrite Hd2.
  assert (Hpl : place_all ((λ r : Z * Z, (r.1, r.2, λ _ : Z, None)) <$> iter (holes e)) (data_at heap s1) x =
    match covering (holes e) x with Some _ => None | None => data_at heap s1 x end)
    by exact (place_extents (holes e) _ x (λ _ _, None) (ranges_extents _ (ep_holes _ _ He))).
  rewrite Hpl, Hd1.
  unfold epoch_at, data_at at 2. rewrite !covering_at. destruct (covering (external_extents (data e)) x) as [[k d]|] eqn:Hex.
  - apply covering_Some in Hex as [Hk Hc]; [|apply Hd]. cbn [fst snd]. rewrite (external_value (data e)) by done.
    pose proof (external_data heap e k d x He Hk Hc (data_at heap s)) as Hv. unfold epoch_at, data_at at 1 in Hv. rewrite !covering_at in Hv.
    rewrite (proj2 (covering_Some _ x k d (sw_external _ _ Hd)) (conj Hk Hc)) in Hv. by rewrite <-Hv.
  - destruct (covering (extents (data e)) x) as [[k d]|] eqn:Hr.
    + apply covering_Some in Hr as [Hk Hc]; [|apply Hd]. cbn [fst snd].
      pose proof (resident_data heap e k d x He Hk Hc (data_at heap s)) as Hv. unfold epoch_at, data_at at 1 in Hv. rewrite !covering_at in Hv.
      rewrite (proj2 (covering_Some _ x k d (sw_resident _ _ Hd)) (conj Hk Hc)) in Hv. by rewrite <-Hv.
    + cbn [fmap option_fmap option_map]. unfold present. rewrite covering_at. destruct (covering (holes e) x) as [[k d]|] eqn:Hh; cbn [fmap option_fmap option_map].
      * rewrite bool_decide_true by (by eexists). by case_decide.
      * rewrite bool_decide_false by (by intros [? ?]). destruct (decide (x < result_size e)); [|by rewrite decide_False by lia].
        destruct (decide (0 ≤ x < result_size e)); [done|]. apply data_at_outside; [done|lia].
Qed.
Lemma flatten_committed_spec fuel file s cursor sequence : file_ok heap file → sparse_wf heap s → logical_size s = file_logical_size file → 0 ≤ cursor →
  file_logical_size file - cursor ≤ Z.of_nat fuel →
  (∀ x, x < cursor → data_at heap s x = if decide (0 ≤ x) then file_at heap file x else None) → (∀ x, cursor ≤ x → data_at heap s x = None) →
  ∃ s', flatten_committed fuel file s cursor sequence = Ok s' ∧ sparse_wf heap s' ∧ logical_size s' = file_logical_size file ∧
    (∀ x, data_at heap s' x = if decide (0 ≤ x) then file_at heap file x else None) ∧ (∀ P, stamped P s → P sequence → stamped P s').
Proof.
  intros Hf. pose proof (fo_size _ _ Hf) as Hfs. revert s cursor. induction fuel as [|fuel IH]; intros s cursor Hs Hsz Hc Hfuel Hlow Hhigh; cbn [flatten_committed];
    (destruct (Z.ltb_spec cursor (file_logical_size file)) as [Hlt|Hge]; [try lia|]).
  1,3: exists s; split_and!; [done|done|done| |done]; intros x; destruct (decide (x < cursor)); [by apply Hlow|];
       rewrite Hhigh, decide_True by lia; symmetry; apply (fo_beyond _ _ Hf); lia.
  rewrite (fo_range _ _ Hf) by lia. rewrite Ok_bind. cbv zeta. set (p := file_present heap file).
  assert (Hone : (count p cursor (cursor + 1) =? 1) = p cursor).
  { destruct (p cursor) eqn:Hp; [rewrite count_all; [apply Z.eqb_eq; lia|lia|]|rewrite count_none; [done|]]; intros y Hy; by replace y with cursor by lia. }
  rewrite Hone. unfold committed_uniform_run_end.
  destruct (run_end_spec p (λ a b, allocated_bytes_in_range file a (b - a)) cursor (file_logical_size file) (p cursor)) as (r&->&Hrb&Hrun&_); [|lia|lia|done|].
  { intros a b Ha Hab Hb. rewrite (fo_range _ _ Hf) by lia. by replace (a + (b - a)) with b by lia. }
  rewrite Ok_bind. assert (Hstep : ∃ s1, (if p cursor then write_external s cursor file cursor (r - cursor) sequence else Ok s) = Ok s1 ∧
    sparse_wf heap s1 ∧ logical_size s1 = file_logical_size file ∧
    (∀ x, data_at heap s1 x = if decide (cursor ≤ x < r) then file_at heap file x else data_at heap s x) ∧ (∀ P, stamped P s → P sequence → stamped P s1)).
  { destruct (p cursor) eqn:Hp.
    - destruct (write_external_spec heap s cursor file cursor (r - cursor) sequence Hs Hf) as (s1&->&[Hs1 Hsz1 Hd1 Hst1]); [lia|lia|lia|lia|lia| |].
      { intros x Hx. pose proof (Hrun x ltac:(lia)) as Hpx. by apply bool_decide_eq_true in Hpx. }
      exists s1. split_and!; [done|done|lia| |intros P HP Hq; apply Hst1; [done|by intros q [= <-]]].
      intros x. rewrite Hd1. replace (cursor + (r - cursor)) with r by lia. case_decide; [|done]. f_equal. lia.
    - exists s. split_and!; [done|done|done| |done]. intros x. case_decide as Hx; [|done]. rewrite Hhigh by lia.
      pose proof (Hrun x Hx) as Hpx. apply bool_decide_eq_false in Hpx. by destruct (file_at heap file x); [destruct Hpx; eexists|]. }
  destruct Hstep as (s1&->&Hs1&Hsz1&Hd1&Hst1). rewrite Ok_bind. destruct (IH s1 r Hs1 Hsz1) as (s'&->&Hs'&Hsz'&Hd'&Hst'); [lia|lia| | |].
  - intros x Hx. rewrite Hd1. destruct (decide (cursor ≤ x < r)); [by rewrite decide_True by lia|]. apply Hlow. lia.
  - intros x Hx. rewrite Hd1, decide_False by lia. apply Hhigh. lia.
  - exists s'. split_and!; [done|done|done|done|]. intros P HP Hq. apply Hst'; [by apply Hst1|done].
Qed.

(** ** The live file in one layer *)
Lemma stamped_default P size : stamped P (sparse_default size).
Proof. split; cbn [sparse_default extents external_extents]; intros k d; by rewrite lookup_empty. Qed.
Lemma epoch_at_ext e g h x : (∀ y, 0 ≤ y → g y = h y) → epoch_at heap e g x = epoch_at heap e h x.
Proof. intros Hgh. unfold epoch_at. destruct (decide (0 ≤ x < result_size e)); [|done]. by rewrite Hgh by lia. Qed.
Lemma flatten_live_spec f sequence : file_wf heap f →
  ∃ s, flatten_live f sequence = Ok s ∧ sparse_wf heap s ∧ logical_size s = live_size f ∧ (∀ x, data_at heap s x = file_view heap f x) ∧
    stamped (λ q, q = sequence) s.
Proof.
  intros Hf. unfold flatten_live. cbv zeta. pose proof (fw_committed _ _ Hf) as Hc. pose proof (fo_size _ _ Hc) as Hsz.
  destruct (flatten_committed_spec (Z.to_nat (file_logical_size (committed f))) (committed f) (sparse_default (file_logical_size (committed f))) 0 sequence Hc)
    as (s1&->&Hs1&_&Hd1&Hst1); [by apply sparse_default_wf|done|lia|lia|intros x Hx; by rewrite data_at_default, decide_False by lia|intros x _; by rewrite data_at_default|].
  specialize (Hst1 (λ q, q = sequence) (stamped_default _ _) eq_refl). rewrite Ok_bind. rewrite file_view_active. pose proof (fw_base _ _ Hf) as Hb. unfold below_active.
  destruct (inflight f) as [z|]; cbn [layers_at].
  - destruct Hb as [Hz _]. destruct (overlay_epoch_spec s1 (dirty z) sequence Hs1 Hz) as (s2&->&Hs2&_&Hd2&Hst2). rewrite Ok_bind.
    destruct (overlay_epoch_spec s2 (active f) sequence Hs2 (fw_active _ _ Hf)) as (s3&->&Hs3&Hsz3&Hd3&Hst3). exists s3.
    split_and!; [done|done|done| |by apply Hst3; [apply Hst2|]]. intros x. rewrite Hd3. apply epoch_at_ext. intros y Hy. rewrite Hd2. apply epoch_at_ext. intros w Hw.
    by rewrite Hd1, decide_True.
  - rewrite Ok_bind. destruct (overlay_epoch_spec s1 (active f) sequence Hs1 (fw_active _ _ Hf)) as (s3&->&Hs3&Hsz3&Hd3&Hst3). exists s3.
    split_and!; [done|done|done| |by apply Hst3]. intros x. rewrite Hd3. apply epoch_at_ext. intros y Hy. by rewrite Hd1, decide_True.
Qed.

(** ** Windows *)
Lemma copy_residents_spec s l ss se ts sequence target : sparse_wf heap s → sparse_wf heap target →
  (∀ kv, kv ∈ l → extents s !! kv.1 = Some kv.2) → 0 ≤ ss → 0 ≤ ts → ts + (se - ss) ≤ logical_size target →
  ∃ t', copy_residents l ss se ts sequence target = Ok t' ∧
    flat_result target t' sequence (place_all ((λ kv, (ts + (Z.max kv.1 ss - ss), ts + (Z.min (fin kv.1 kv.2) se - ss),
      λ y, Some (val kv.1 kv.2 (y - ts + ss)))) <$> l) (data_at heap target)).
Proof.
  intros Hs. revert target. induction l as [|[k d] l IH]; intros target Ht Hl Hss Hts Hfit; cbn [copy_residents fmap list_fmap place_all fst snd]; [by exists target|].
  pose proof (Hl (k, d) ltac:(by left)) as Hk. cbn [fst snd] in Hk. destruct (resident_bounds _ _ k d Hs Hk) as (Hk0&_&Hm). pose proof (sw_size _ _ Ht) as Htz.
  pose proof Hm as Hm'. rewrite fin_resident in Hm'. rewrite (checked_add_ok u64_max k) by lia. cbn [ok_or]. rewrite Ok_bind, <-!fin_resident. cbv zeta.
  set (a := Z.max k ss). set (b := Z.min (fin k d) se).
  assert (Hstep : ∃ t1, (if b <=? a then Ok target else fragment ← resident_fragment d (a - k) (b - k);
      destination ← ok_or (checked_add u64_max ts (a - ss)) FileTooLarge; write target destination (resident_payload fragment) sequence) = Ok t1 ∧
    flat_result target t1 sequence (λ y, if decide (ts + (a - ss) ≤ y < ts + (b - ss)) then Some (val k d (y - ts + ss)) else data_at heap target y)).
  { destruct (Z.leb_spec b a) as [Hle|Hlt].
    { exists target. split; [done|]. split; [done|done| |done]. intros x. by rewrite decide_False by lia. }
    assert (Hfr : resident_fragment d (a - k) (b - k) = Ok (cut k d a b)).
    { unfold resident_fragment. rewrite retained_fragment_in; [done|lia|]. unfold b. rewrite fin_resident. unfold resident_len. lia. }
    rewrite Hfr, Ok_bind, checked_add_ok by lia. cbn [ok_or]. rewrite Ok_bind.
    assert (Hfc : fin a (cut k d a b) = b) by (pose proof (fin_cut k d a b) as Hfc; apply Hfc; lia).
    rewrite fin_resident in Hfc. unfold resident_len in Hfc.
    destruct (write_spec heap target (ts + (a - ss)) (resident_payload (cut k d a b)) sequence Ht) as (t1&->&[Ht1 Hsz1 Hd1 Hst1]); [lia|lia|lia|].
    exists t1. split; [done|]. split; [done|lia| |intros P HP Hq; apply Hst1; [done|by intros q [= <-]]].
    intros y. rewrite Hd1. replace (ts + (b - ss)) with (ts + (a - ss) + blen (payload_bytes (resident_payload (cut k d a b)))) by lia.
    destruct (decide (ts + (a - ss) ≤ y < ts + (a - ss) + blen (payload_bytes (resident_payload (cut k d a b))))) as [Hy|Hy]; [|by rewrite payload_at_out].
    destruct (payload_at_in (resident_payload (cut k d a b)) (ts + (a - ss)) y ltac:(lia) Hy) as [w Hw]. rewrite Hw. f_equal.
    rewrite <-(val_cut k d a b (y - ts + ss)) by lia. unfold payload_at in Hw. rewrite decide_True in Hw by lia.
    revert Hw. generalize (cut k d a b) as c. intros c Hw. unfold val, resident_extent.
    replace (y - ts + ss - a) with (y - (ts + (a - ss))) by lia. by rewrite Hw. }
  destruct Hstep as (t1&->&H1). rewrite Ok_bind. pose proof (fr_size _ _ _ _ H1) as Hsz1.
  destruct (IH t1 (fr_wf _ _ _ _ H1)) as (t'&->&H2); [intros; apply Hl; by right|done|done|lia|]. exists t'. split; [done|].
  destruct (flat_trans _ _ _ _ _ _ H1 H2) as [? ? Hd Hst]. split; [done|done| |done]. intros y. rewrite Hd. apply place_all_ext. intros w. by rewrite (fr_data _ _ _ _ H1).
Qed.
Lemma copy_externals_spec s l ss se ts sequence target : sparse_wf heap s → sparse_wf heap target →
  (∀ kv, kv ∈ l → external_extents s !! kv.1 = Some kv.2) → 0 ≤ ss → 0 ≤ ts → ts + (se - ss) ≤ logical_size target →
  ∃ t', copy_externals l ss se ts sequence target = Ok t' ∧
    flat_result target t' sequence (place_all ((λ kv, (ts + (Z.max kv.1 ss - ss), ts + (Z.min (fin kv.1 kv.2) se - ss),
      λ y, file_at heap (source kv.2) (source_offset kv.2 + ((y - ts + ss) - kv.1)))) <$> l) (data_at heap target)).
Proof.
  intros Hs. revert target. induction l as [|[k d] l IH]; intros target Ht Hl Hss Hts Hfit; cbn [copy_externals fmap list_fmap place_all fst snd]; [by exists target|].
  pose proof (Hl (k, d) ltac:(by left)) as Hk. cbn [fst snd] in Hk. destruct (external_bounds _ _ k d Hs Hk) as (Hk0&_&Hm). pose proof (sw_size _ _ Ht) as Htz.
  destruct (sw_sources _ _ Hs k d Hk) as [Hfile Hso Hse Hpres]. pose proof (fo_size _ _ Hfile) as Hfs.
  pose proof Hm as Hm'. rewrite fin_external in Hm'. rewrite (checked_add_ok u64_max k) by lia. cbn [ok_or]. rewrite Ok_bind, <-!fin_external. cbv zeta.
  set (a := Z.max k ss). set (b := Z.min (fin k d) se). assert (Hbf : b ≤ k + ext_length d) by (unfold b; rewrite fin_external; lia).
  assert (Hstep : ∃ t1, (if b <=? a then Ok target else destination ← ok_or (checked_add u64_max ts (a - ss)) FileTooLarge;
      selected_source ← ok_or (checked_add u64_max (source_offset d) (a - k)) Io; write_external target destination (source d) selected_source (b - a) sequence) = Ok t1 ∧
    flat_result target t1 sequence (λ y, if decide (ts + (a - ss) ≤ y < ts + (b - ss)) then file_at heap (source d) (source_offset d + ((y - ts + ss) - k)) else data_at heap target y)).
  { destruct (Z.leb_spec b a) as [Hle|Hlt].
    { exists target. split; [done|]. split; [done|done| |done]. intros x. by rewrite decide_False by lia. }
    rewrite (checked_add_ok u64_max ts) by lia. cbn [ok_or]. rewrite Ok_bind. rewrite checked_add_ok by lia. cbn [ok_or]. rewrite Ok_bind.
    destruct (write_external_spec heap target (ts + (a - ss)) (source d) (source_offset d + (a - k)) (b - a) sequence Ht Hfile) as (t1&->&[Ht1 Hsz1 Hd1 Hst1]);
      [lia|lia|lia|lia|lia|intros x Hx; apply Hpres; lia|].
    exists t1. split; [done|]. split; [done|lia| |intros P HP Hq; apply Hst1; [done|by intros q [= <-]]].
    intros y. rewrite Hd1. replace (ts + (a - ss) + (b - a)) with (ts + (b - ss)) by lia. case_decide; [|done]. f_equal. lia. }
  destruct Hstep as (t1&->&H1). rewrite Ok_bind. pose proof (fr_size _ _ _ _ H1) as Hsz1.
  destruct (IH t1 (fr_wf _ _ _ _ H1)) as (t'&->&H2); [intros; apply Hl; by right|done|done|lia|]. exists t'. split; [done|].
  destruct (flat_trans _ _ _ _ _ _ H1 H2) as [? ? Hd Hst]. split; [done|done| |done]. intros y. rewrite Hd. apply place_all_ext. intros w. by rewrite (fr_data _ _ _ _ H1).
Qed.
Lemma copy_sparse_window_spec s ss se ts sequence target : sparse_wf heap s → sparse_wf heap target →
  0 ≤ ss ≤ se → 0 ≤ ts → ts + (se - ss) ≤ logical_size target →
  ∃ t', copy_sparse_window s ss se ts sequence target = Ok t' ∧
    flat_result target t' sequence (λ y, if decide (ts ≤ y < ts + (se - ss)) then
      match data_at heap s (y - ts + ss) with Some b => Some b | None => data_at heap target y end else data_at heap target y).
Proof.
  intros Hs Ht Hse Hts Hfit. unfold copy_sparse_window. rewrite (proj2 (Z.leb_le ss se)) by lia. cbn [assert_true]. rewrite Ok_bind.
  destruct (copy_residents_spec s (iter (extents s)) ss se ts sequence target Hs Ht) as (t1&->&H1); [intros [k d] Hk; by apply elem_of_iter in Hk|lia|lia|lia|].
  rewrite Ok_bind. pose proof (fr_size _ _ _ _ H1) as Hsz1.
  destruct (copy_externals_spec s (iter (external_extents s)) ss se ts sequence t1 Hs (fr_wf _ _ _ _ H1)) as (t2&->&H2); [intros [k d] Hk; by apply elem_of_iter in Hk|lia|lia|lia|].
  exists t2. split; [done|]. destruct (flat_trans _ _ _ _ _ _ H1 H2) as [? ? Hd Hst]. split; [done|done| |done]. intros y. rewrite Hd. set (x := y - ts + ss).
  rewrite (place_map (external_extents s) (data_at heap t1) x y (ts ≤ y < ts + (se - ss))) by (apply Hs || intros kv _; unfold covers, x; lia).
  rewrite (fr_data _ _ _ _ H1).
  rewrite (place_map (extents s) (data_at heap target) x y (ts ≤ y < ts + (se - ss))) by (apply Hs || intros kv _; unfold covers, x; lia).
  destruct (decide (ts ≤ y < ts + (se - ss))) as [Hy|Hy]; [|done]. unfold data_at at 2. rewrite !covering_at.
  destruct (covering (external_extents s) x) as [[k d]|] eqn:Hex.
  - apply covering_Some in Hex as [Hk Hc]; [|apply Hs]. cbn [fst snd]. fold x. rewrite (external_value s) by done.
    destruct (covering (extents s) x) as [kv|] eqn:Hr; [|done]. exfalso.
    assert (Ha : is_Some (at_ (extents s) x)) by (rewrite covering_at, Hr; by eexists). apply (sw_apart _ _ Hs) in Ha. rewrite covering_at in Ha.
    by rewrite (proj2 (covering_Some _ x k d (sw_external _ _ Hs)) (conj Hk Hc)) in Ha.
  - destruct (covering (extents s) x) as [kv|]; done.
Qed.

(** ** Installing the layer *)
Lemma count_union p q r a b : a ≤ b → (∀ x, a ≤ x < b → p x = true → q x = false) → (∀ x, a ≤ x < b → r x = true ↔ p x = true ∨ q x = true) →
  count p a b + count q a b = count r a b.
Proof.
  intros Hab. remember (Z.to_nat (b - a)) as n eqn:Hn. revert a Hab Hn. induction n as [|n IH]; intros a Hab Hn Hpq Hr.
  { rewrite !count_empty by lia. lia. }
  rewrite (count_split p a (a + 1)), (count_split q a (a + 1)), (count_split r a (a + 1)) by lia.
  rewrite <-(IH (a + 1)) by (lia || intros x Hx; by (apply Hpq || apply Hr); lia).
  assert (Hone : ∀ g : Z → bool, count g a (a + 1) = if g a then 1 else 0).
  { intros g. destruct (g a) eqn:Hg; [rewrite count_all; [lia|lia|]|apply count_none]; intros y Hy; by replace y with a by lia. }
  rewrite !Hone. specialize (Hpq a ltac:(lia)). specialize (Hr a ltac:(lia)). destruct (p a), (q a), (r a); naive_solver lia.
Qed.
Lemma install_flattened_spec f s sequence : file_wf heap f → sequence = last_sequence (active f) + 1 → sparse_wf heap s →
  stamped (λ q, q = sequence) s →
  mutates heap f (install_flattened_active f s sequence) {| pf_size := logical_size s; pf_at := data_at heap s |} sequence.
Proof.
  intros Hf Hq Hs Hst. unfold install_flattened_active. destruct (complement_holes_spec s Hs) as (m&->&Hm&Hp). rewrite Ok_bind. cbv zeta.
  pose proof (fw_active _ _ Hf) as He. pose proof (ep_base _ _ He). pose proof (ep_first _ _ He) as Hfst.
  set (e := {| base_size := _; result_size := _; base_sequence := _; last_sequence := _; first_sequence := _; data := _; holes := _;
     append_metadata_covered_end := _; clone_metadata_coverage := _ |}).
  assert (Hwf : epoch_wf heap e).
  { split; cbn [e data result_size holes base_sequence last_sequence first_sequence]; [done|done|done| | |done| |].
    - apply within_present; [done|]. intros x Hx. by apply Hp in Hx as [? _].
    - intros x Hx. by apply Hp in Hx as [_ ?].
    - destruct (first_sequence (active f)); cbn [from_option id]; unfold id; lia.
    - eapply stamped_mono; [|exact Hst]. cbn beta. intros q ->. destruct (first_sequence (active f)); lia. }
  rewrite (epoch_valid_ok heap), Ok_bind by done.
  assert (Hview : ∀ below x, epoch_at heap e below x = data_at heap s x).
  { intros below x. unfold epoch_at. cbn [e result_size holes data]. destruct (decide (0 ≤ x < logical_size s)) as [Hx|Hx]; [|by rewrite data_at_outside].
    destruct (present m x) eqn:Hpx; [by apply Hp in Hpx as [_ ->]|]. destruct (data_at heap s x) eqn:Hdx; [done|]. by rewrite (proj2 (Hp x)) in Hpx. }
  set (f' := set_active f e (allocated_bytes s)).
  assert (Hfv : ∀ x, file_view heap f' x = data_at heap s x) by (intros x; rewrite file_view_active; apply Hview).
  assert (Hcount : allocated_bytes s = count (allocated_at (data_at heap s)) 0 (logical_size s)).
  { rewrite (sw_allocated _ _ Hs), (extent_bytes_count (extents s) 0 (logical_size s)), (extent_bytes_count (external_extents s) 0 (logical_size s)) by apply Hs.
    apply count_union; [apply (sw_size _ _ Hs)|..]; intros x Hx; unfold present, allocated_at, data_at; rewrite !bool_decide_eq_true.
    - intros Ha. apply bool_decide_false. rewrite (sw_apart _ _ Hs x Ha). by intros [? ?].
    - destruct (at_ (extents s) x) as [?|]; [split; [by left|by eexists]|]. destruct (at_ (external_extents s) x) as [[? ?]|]; [split; [by right|by eexists]|].
      split; [by left|by intros [?|?]]. }
  exists f'. split_and!; [done| |split; [done|exact Hfv]|done|by eexists|done|done|done].
  split; cbn [f' set_active committed active inflight live_allocated_bytes committed_sequence]; [apply Hf|done|apply Hf|].
  rewrite Hcount. unfold posix_allocated, live_size. cbn [f' set_active active e result_size abstract pf_at]. apply count_ext. intros x _. unfold allocated_at. by rewrite Hfv.
Qed.
Lemma mutates_ext f r p q sequence : mutates heap f r p sequence → p ≡ q → mutates heap f r q sequence.
Proof. intros (f'&?&?&Heq&?&?&?&?&?) Hpq. exists f'. split_and!; try done. by etrans. Qed.
Lemma collapse_range_spec f offset end_ sequence : file_wf heap f → sequence = last_sequence (active f) + 1 →
  0 ≤ offset ≤ end_ → end_ ≤ live_size f →
  mutates heap f (collapse_range f offset end_ sequence) (posix_collapse (abstract heap f) offset end_) sequence.
Proof.
  intros Hf Hq Hoe Hes. pose proof (live_size_bound heap f Hf). unfold collapse_range. cbv zeta.
  destruct (flatten_live_spec f sequence Hf) as (s&->&Hs&Hsz&Hd&Hst). rewrite Ok_bind. unfold checked_sub.
  rewrite (proj2 (Z.leb_le offset end_)) by lia. cbn [expect]. rewrite Ok_bind, (proj2 (Z.leb_le (end_ - offset) (live_size f))) by lia. cbn [expect]. rewrite Ok_bind.
  set (size := live_size f - (end_ - offset)). pose proof (sparse_default_wf heap size ltac:(lia)) as Hs0.
  destruct (copy_sparse_window_spec s 0 offset 0 sequence (sparse_default size) Hs Hs0) as (t1&->&[Ht1 Hz1 Hd1 Hst1]); [lia|lia|cbn [sparse_default logical_size]; lia|].
  rewrite Ok_bind. cbn [sparse_default logical_size] in Hz1.
  destruct (copy_sparse_window_spec s end_ (live_size f) offset sequence t1 Hs Ht1) as (t2&->&[Ht2 Hz2 Hd2 Hst2]); [lia|lia|lia|]. rewrite Ok_bind.
  eapply mutates_ext; [apply install_flattened_spec; [done|done|done|]|].
  - apply Hst2; [|done]. apply Hst1; [apply stamped_default|done].
  - split; cbn [pf_size pf_at posix_collapse abstract]; [lia|]. intros x. rewrite Hd2, Hd1, data_at_default, !Hd.
    destruct (decide (x < offset)).
    + rewrite decide_False by lia. destruct (decide (0 ≤ x < 0 + (offset - 0))); [replace (x - 0 + 0) with x by lia; by destruct (file_view heap f x)|].
      symmetry. apply view_outside. lia.
    + rewrite (decide_False (P := 0 ≤ x < 0 + (offset - 0))) by lia. replace (x - offset + end_) with (x + (end_ - offset)) by lia.
      case_decide; [by destruct (file_view heap f _)|]. symmetry. apply view_outside. lia.
Qed.
Lemma insert_range_spec f offset length sequence : file_wf heap f → sequence = last_sequence (active f) + 1 →
  0 ≤ offset ≤ live_size f → 0 ≤ length → live_size f + length ≤ u64_max →
  mutates heap f (insert_range f offset length sequence) (posix_insert (abstract heap f) offset length) sequence.
Proof.
  intros Hf Hq Hos Hl Hmax. pose proof (live_size_bound heap f Hf). unfold insert_range. cbv zeta. rewrite (checked_add_ok u64_max (live_size f)) by lia. cbn [ok_or]. rewrite Ok_bind.
  destruct (flatten_live_spec f sequence Hf) as (s&->&Hs&Hsz&Hd&Hst). rewrite Ok_bind.
  set (size := live_size f + length). pose proof (sparse_default_wf heap size ltac:(lia)) as Hs0.
  destruct (copy_sparse_window_spec s 0 offset 0 sequence (sparse_default size) Hs Hs0) as (t1&->&[Ht1 Hz1 Hd1 Hst1]); [lia|lia|cbn [sparse_default logical_size]; lia|].
  rewrite Ok_bind. cbn [sparse_default logical_size] in Hz1. rewrite checked_add_ok by lia. cbn [expect]. rewrite Ok_bind.
  destruct (copy_sparse_window_spec s offset (live_size f) (offset + length) sequence t1 Hs Ht1) as (t2&->&[Ht2 Hz2 Hd2 Hst2]); [lia|lia|lia|]. rewrite Ok_bind.
  eapply mutates_ext; [apply install_flattened_spec; [done|done|done|]|].
  - apply Hst2; [|done]. apply Hst1; [apply stamped_default|done].
  - split; cbn [pf_size pf_at posix_insert abstract]; [lia|]. intros x. rewrite Hd2, Hd1, data_at_default, !Hd.
    destruct (decide (x < offset)).
    + rewrite decide_False by lia. destruct (decide (0 ≤ x < 0 + (offset - 0))); [replace (x - 0 + 0) with x by lia; by destruct (file_view heap f x)|].
      symmetry. apply view_outside. lia.
    + rewrite (decide_False (P := 0 ≤ x < 0 + (offset - 0))) by lia. replace (x - (offset + length) + offset) with (x - length) by lia.
      destruct (decide (x < offset + length)); [by rewrite decide_False by lia|].
      case_decide; [by destruct (file_view heap f _)|]. symmetry. apply view_outside. lia.
Qed.
End Flat.
End Flatten.
