(* ===== verification/FileCommit.v ===== *)
(** * Commits of a versioned file

    Freezing the active epoch, the frozen version as a file, and installing the
    committed version ([fastdup-posix/src/versioned_file.rs]). *)
From S2P Require Export Flatten.

Module FileCommit.
Import SparseData SparseDataOps RangeSet DirtyEpoch DirtyEpochOps ReadPlan ReadPlanCover ReadPlanExact ReadPlanRun Allocation VersionedFile VersionedFileOps EpochAudit.

(** [FrozenCommit] as a [CommittedFile]; the identity is the one of the new
    allocation *)
Definition FrozenCommit (id : Z) (base : CommittedFile) (frozen : FrozenEpoch) (allocated : Z) : CommittedFile :=
  let size := result_size (dirty frozen) in
  {| file_id := id; file_logical_size := size; file_allocated_bytes := allocated;
     allocated_bytes_in_range offset n :=
       end_ ← ok_or (checked_add u64_max offset n) Io;
       allocated_bytes_through base [dirty frozen] offset (Z.min end_ size);
     read_segments_at offset n :=
       spans ← plan_new base [dirty frozen] size offset n;
       execute_segments spans;
     shared_read_source := None |}.
(** [VersionedFile::freeze_active] *)
Definition freeze_active (f : VersionedFile) (tok id : Z) : presult (VersionedFile * option CommittedFile) :=
  assert_true (bool_decide (inflight f = None));;
  match first_sequence (active f) with
  | None => Ok (f, None)
  | Some _ =>
      epoch_audit_valid (active f);;
      let frozen := {| token := tok; dirty := active f |} in
      Ok ({| committed := committed f; committed_sequence := committed_sequence f; inflight := Some frozen;
             active := new (result_size (active f)) (last_sequence (active f)); live_allocated_bytes := live_allocated_bytes f |},
          Some (FrozenCommit id (committed f) frozen (live_allocated_bytes f)))
  end.
(** [VersionedFile::freeze_for_commit] *)
Definition freeze_for_commit (f : VersionedFile) (tok id : Z) : presult (VersionedFile * CommittedFile * option FrozenEpoch) :=
  r ← freeze_active f tok id;
  Ok (r.1, default (committed f) r.2, match r.2 with Some _ => inflight r.1 | None => None end).
(** [VersionedFile::stable_clone_source] *)
Definition stable_clone_source (f : VersionedFile) (id : Z) : presult CommittedFile :=
  reject_if (bool_decide (is_Some (first_sequence (active f)))) Unsupported;;
  Ok (match inflight f with
      | Some frozen => FrozenCommit id (committed f) frozen (live_allocated_bytes f)
      | None => committed f
      end).
(** [VersionedFile::install_commit_view], the first match of it apart *)
Definition install_assertions (f : VersionedFile) (tok : Z) (file : CommittedFile) (sequence : Z) (had_frozen_epoch : bool) : presult () :=
  if had_frozen_epoch then
    frozen ← expect (inflight f);
    assert_true (token frozen =? tok);;
    assert_true (result_size (dirty frozen) =? file_logical_size file);;
    assert_true (last_sequence (dirty frozen) =? sequence)
  else
    assert_true (bool_decide (inflight f = None));;
    assert_true (committed_sequence f =? sequence);;
    assert_true (file_logical_size (committed f) =? file_logical_size file).
Definition install_commit_view (f : VersionedFile) (tok : Z) (file : CommittedFile) (sequence : Z) (had_frozen_epoch : bool)
    : presult VersionedFile :=
  install_assertions f tok file sequence had_frozen_epoch;;
  assert_true (base_size (active f) =? file_logical_size file);;
  assert_true (base_sequence (active f) =? sequence);;
  match first_sequence (active f) with Some first => assert_true (sequence <? first) | None => Ok () end;;
  Ok {| committed := file; committed_sequence := sequence; inflight := None; active := active f;
        live_allocated_bytes := live_allocated_bytes f |}.
(** [VersionedFile::advance_mutation_sequence] *)
Definition advance_mutation_sequence (f : VersionedFile) (sequence : Z) : presult VersionedFile :=
  assert_next_sequence (active f) sequence;;
  let e := record_sequence (active f) sequence in
  assert_epoch_valid e;;
  Ok (set_active f e (live_allocated_bytes f)).

Section Commit.
Context (heap : Z → option (CommittedFile * (Z → option byte))).

(** ** The frozen version is a file *)
Definition frozen_view (base : CommittedFile) (frozen : FrozenEpoch) : Z → option byte := layers_at heap base [dirty frozen].
Lemma frozen_file_ok id base frozen allocated : file_ok heap base → epoch_wf heap (dirty frozen) →
  let size := result_size (dirty frozen) in
  size + size ≤ u64_max → reach (dirty frozen) size → allocated = count (allocated_at (frozen_view base frozen)) 0 size →
  heap id = Some (FrozenCommit id base frozen allocated, frozen_view base frozen) →
  file_ok heap (FrozenCommit id base frozen allocated).
Proof.
  intros Hb He size Hsz Hreach Hal Hid. pose proof (sw_size _ _ (ep_data _ _ He)) as Hs0. rewrite (ep_size _ _ He) in Hs0. fold size in Hs0.
  assert (Hat : ∀ x, file_at heap (FrozenCommit id base frozen allocated) x = frozen_view base frozen x).
  { intros x. unfold file_at. cbn [FrozenCommit file_id]. by rewrite Hid. }
  split; cbn [FrozenCommit file_logical_size file_allocated_bytes allocated_bytes_in_range shared_read_source]; fold size.
  - by eexists.
  - done.
  - intros x Hx. rewrite Hat. unfold frozen_view. cbn [layers_at]. unfold epoch_at. by rewrite decide_False by (fold size; lia).
  - etrans; [exact Hal|]. apply count_ext. intros x _. unfold allocated_at, file_present. by rewrite Hat.
  - intros o n Ho Hn Hon. rewrite checked_add_ok by lia. cbn [ok_or]. rewrite Ok_bind, Z.min_l by lia. unfold allocated_bytes_through.
    rewrite (allocated_through_spec heap base [dirty frozen]) by (done || by apply Forall_singleton). f_equal. apply count_ext. intros x _. unfold allocated_at, file_present. by rewrite Hat.
  - intros o n Ho Hn Hon. cbn [FrozenCommit file_logical_size] in Hon. fold size in Hon. cbn [FrozenCommit read_segments_at]. fold size.
    destruct (plan_read_spec heap base [dirty frozen] size o n Hb) as (spans&->&(Hnp&Hok&_)&_); [|lia|lia|done|].
    { apply Forall_singleton. split; [done|]. intros k d Hk. specialize (Hreach k d Hk). lia. }
    rewrite Ok_bind. split; [done|]. intros segments Hseg _. rewrite (Hok segments Hseg), Z.min_l by lia. unfold bytes_of. replace (o + n - o) with n by lia.
    apply list_fmap_ext. intros i x _. unfold view_byte, byte_at. by rewrite Hat.
  - done.
Qed.

(** ** Freezing *)
Lemma frozen_abstract f frozen : inflight f = None → active f = dirty frozen → file_view heap f = frozen_view (committed f) frozen.
Proof. intros Hi Ha. rewrite file_view_active. unfold below_active. by rewrite Hi, Ha. Qed.
Lemma clean_view f x : file_wf heap f → active f = new (base_size (active f)) (base_sequence (active f)) →
  file_view heap f x = if decide (0 ≤ x < base_size (active f)) then below_active heap f x else None.
Proof. intros Hf Hc. rewrite file_view_active, Hc. cbn [new base_size]. apply new_view. Qed.
Lemma freeze_active_spec f tok id : file_wf heap f → inflight f = None → is_Some (first_sequence (active f)) →
  ∃ f' frozen, freeze_active f tok id = Ok (f', Some (FrozenCommit id (committed f) frozen (live_allocated_bytes f))) ∧
    file_wf heap f' ∧ abstract heap f' ≡ abstract heap f ∧ inflight f' = Some frozen ∧ first_sequence (active f') = None ∧
    committed f' = committed f ∧ token frozen = tok ∧ dirty frozen = active f ∧
    live_allocated_bytes f = count (allocated_at (frozen_view (committed f) frozen)) 0 (result_size (dirty frozen)).
Proof.
  intros Hf Hi [q Hq]. unfold freeze_active. rewrite bool_decide_true by done. cbn [assert_true]. rewrite Ok_bind, Hq.
  rewrite (epoch_audit_ok heap), Ok_bind by apply Hf. cbv zeta. pose proof (fw_active _ _ Hf) as He. pose proof (live_size_bound heap f Hf) as Hsz.
  set (frozen := {| token := tok; dirty := active f |}). set (f' := {| committed := _ |}). pose proof (fw_base _ _ Hf) as Hb. rewrite Hi in Hb.
  assert (Hlast : 0 ≤ last_sequence (active f)) by (pose proof (ep_base _ _ He); pose proof (ep_first _ _ He) as H1; rewrite Hq in H1; lia).
  assert (Hview : ∀ x, file_view heap f' x = file_view heap f x).
  { intros x. rewrite (file_view_active heap f'). unfold below_active. cbn [f' inflight committed active layers_at dirty frozen].
    rewrite new_view. rewrite (file_view_active heap f). unfold below_active. rewrite Hi. cbn [layers_at]. case_decide as Hx; [done|].
    unfold epoch_at. by rewrite decide_False. }
  assert (Hcount : live_allocated_bytes f = count (allocated_at (frozen_view (committed f) frozen)) 0 (result_size (dirty frozen))).
  { rewrite (fw_allocated _ _ Hf). unfold posix_allocated. cbn [abstract pf_at]. by rewrite (frozen_abstract f frozen). }
  exists f', frozen. split_and!; try done.
  - split; cbn [f' committed active inflight committed_sequence live_allocated_bytes]; [apply Hf|by apply new_wf| |].
    + split_and!; [done|by destruct Hb|done|done].
    + rewrite (fw_allocated _ _ Hf). unfold posix_allocated, live_size. cbn [f' active new result_size abstract pf_at].
      apply count_ext. intros x _. unfold allocated_at. by rewrite Hview.
Qed.

(** ** Installing *)

(** The new version has the contents under the active epoch. *)
Record installs (f : VersionedFile) (tok : Z) (file : CommittedFile) (sequence : Z) (had_frozen_epoch : bool) : Prop := {
  in_file : file_ok heap file;
  in_size : file_logical_size file = base_size (active f);
  in_sequence : sequence = base_sequence (active f);
  in_frozen : match inflight f with Some frozen => had_frozen_epoch = true ∧ token frozen = tok | None => had_frozen_epoch = false end;
  in_contents x : 0 ≤ x → file_at heap file x = below_active heap f x;
}.
Lemma asserted_eq {A} a b (k : presult A) : a = b → (assert_true (a =? b);; k) = k.
Proof. intros ->. by rewrite Z.eqb_refl. Qed.
Lemma install_frozen_ok f tok file sequence had : file_wf heap f → installs f tok file sequence had →
  install_assertions f tok file sequence had = Ok ().
Proof.
  intros Hf [_ Hsz Hq Hfr _]. unfold install_assertions. pose proof (fw_base _ _ Hf) as Hb. destruct (inflight f) as [z|].
  - destruct Hfr as [-> Ht], Hb as (_&_&Hb1&Hb2). cbn [expect]. rewrite Ok_bind, !asserted_eq by congruence.
    by rewrite (proj2 (Z.eqb_eq (last_sequence (dirty z)) sequence)) by congruence.
  - subst had. destruct Hb as [Hb1 Hb2]. rewrite bool_decide_true by done. cbn [assert_true]. rewrite Ok_bind, asserted_eq by congruence.
    by rewrite (proj2 (Z.eqb_eq (file_logical_size (committed f)) _)) by congruence.
Qed.
Lemma install_commit_spec f tok file sequence had : file_wf heap f → installs f tok file sequence had →
  ∃ f', install_commit_view f tok file sequence had = Ok f' ∧ file_wf heap f' ∧ abstract heap f' ≡ abstract heap f ∧
    committed f' = file ∧ inflight f' = None.
Proof.
  intros Hf Hin. unfold install_commit_view. rewrite (install_frozen_ok f tok file sequence had Hf Hin), Ok_bind. destruct Hin as [Hfile Hsz -> _ Hat].
  rewrite !asserted_eq by congruence. pose proof (ep_first _ _ (fw_active _ _ Hf)) as Hfst.
  assert (match first_sequence (active f) with Some first => assert_true (base_sequence (active f) <? first) | None => Ok () end = Ok (E := PosixError) ()) as ->.
  { destruct (first_sequence (active f)); [|done]. by rewrite (proj2 (Z.ltb_lt _ _)) by lia. }
  rewrite Ok_bind. set (f' := {| committed := file |}).
  assert (Hview : ∀ x, file_view heap f' x = file_view heap f x).
  { intros x. rewrite !file_view_active. cbn [f' active]. unfold epoch_at. destruct (decide (0 ≤ x < result_size (active f))); [|done].
    unfold below_active at 1. cbn [f' inflight committed layers_at]. by rewrite (Hat x) by lia. }
  exists f'. split_and!; [done| |split; [done|exact Hview]|done|done].
  split; cbn [f' committed active inflight committed_sequence live_allocated_bytes]; [done|apply Hf|done|].
  rewrite (fw_allocated _ _ Hf). unfold posix_allocated, live_size. cbn [f' active abstract pf_at]. apply count_ext. intros x _. unfold allocated_at. by rewrite Hview.
Qed.
End Commit.
End FileCommit.
