(* ===== verification/Fallocate.v ===== *)
(** * [fallocate]

    The data path of [Namespace::fallocate] ([fastdup-posix/src/lib.rs]): the
    new size and allocation, the admission of the change by the quotas, the
    operation, and the assertion that the allocation is the admitted one. *)
From S2P Require Export FileCommit.

Module Fallocate.
Import SparseData SparseDataOps RangeSet DirtyEpoch DirtyEpochOps ReadPlan ReadPlanCover ReadPlanExact ReadPlanRun Allocation VersionedFile VersionedFileOps VersionedFileRuns Flatten.

Inductive FallocateMode := Allocate (keep_size : bool) | PunchHole | ZeroRange (keep_size : bool) | CollapseRange | InsertRange.
(** The size after the operation *)
Definition fallocate_size (mode : FallocateMode) (current_size offset end_ length : Z) : presult Z :=
  match mode with
  | Allocate true | ZeroRange true | PunchHole => Ok current_size
  | Allocate false | ZeroRange false => Ok (Z.max current_size end_)
  | CollapseRange => reject_if (current_size <=? end_) InvalidArgument;; Ok (current_size - length)
  | InsertRange => reject_if (current_size <=? offset) InvalidArgument;; ok_or (checked_add u64_max current_size length) FileTooLarge
  end.
(** The allocation after the operation *)
Definition fallocate_after (f : VersionedFile) (mode : FallocateMode) (offset end_ effective_end : Z) : presult Z :=
  match mode with
  | Allocate _ | ZeroRange _ =>
      allocated ← (if offset <? effective_end then allocated_in_range f offset effective_end else Ok 0);
      ok_or (checked_add u64_max (live_allocated_bytes f) (saturating_sub (saturating_sub effective_end offset) allocated)) NoSpace
  | PunchHole | CollapseRange =>
      n ← allocated_in_range f (Z.min offset (live_size f)) (Z.min end_ (live_size f));
      ok_or (checked_sub (live_allocated_bytes f) n) Io
  | InsertRange => Ok (live_allocated_bytes f)
  end.
Definition fallocate_apply (f : VersionedFile) (mode : FallocateMode) (offset end_ length effective_end size : Z) (fresh : Z → Z) (sequence : Z)
    : presult VersionedFile :=
  match mode with
  | Allocate _ => allocate_zero f (Z.min offset effective_end) effective_end size fresh sequence
  | PunchHole => punch_hole f offset end_ sequence
  | ZeroRange _ =>
      if offset <? effective_end then zero_range f offset effective_end size fresh sequence
      else allocate_zero f effective_end effective_end size fresh sequence
  | CollapseRange => collapse_range f offset end_ sequence
  | InsertRange => insert_range f offset length sequence
  end.
(** From the current size to the assertion; [reserve_change] admits the change
    of the allocation of the inode *)
Definition fallocate_data (f : VersionedFile) (reserve_change : Z → Z → presult ()) (maximum_file_bytes mutation_sequence offset length end_ : Z)
    (mode : FallocateMode) (fresh : Z → Z) : presult VersionedFile :=
  size ← fallocate_size mode (live_size f) offset end_ length;
  reject_if (maximum_file_bytes <? size) FileTooLarge;;
  let effective_end := Z.min end_ size in
  logical_after ← fallocate_after f mode offset end_ effective_end;
  reserve_change (live_allocated_bytes f) logical_after;;
  next_sequence ← ok_or (checked_add u64_max mutation_sequence 1) NoSpace;
  f ← fallocate_apply f mode offset end_ length effective_end size fresh next_sequence;
  assert_true (live_allocated_bytes f =? logical_after);;
  Ok f.

(** ** What POSIX asks

    Stated from the manual page fallocate(2), without the code's own
    computations. *)

(** The size after the operation, or the error: allocating and zeroing extend
    the file to the end of the range when it ends past the file, unless the size
    is to be kept; punching keeps the size; a collapsed range must end before
    the end of the file ([EINVAL]) and leaves the file shorter by its length; a
    range is inserted before the end of the file ([EINVAL]) and must leave a
    representable size ([EFBIG]). *)
Definition posix_size (mode : FallocateMode) (current offset length : Z) : presult Z :=
  match mode with
  | PunchHole => Ok current
  | Allocate keep_size | ZeroRange keep_size =>
      if negb keep_size && (current <? offset + length) then Ok (offset + length) else Ok current
  | CollapseRange => if offset + length <? current then Ok (current - length) else Err InvalidArgument
  | InsertRange =>
      if offset <? current then
        if current + length <=? u64_max then Ok (current + length) else Err FileTooLarge
      else Err InvalidArgument
  end.
Definition posix_mode (p : posix_file) (mode : FallocateMode) (offset length end_ size : Z) : posix_file :=
  let effective_end := Z.min end_ size in
  match mode with
  | Allocate _ => posix_allocate p (Z.min offset effective_end) effective_end size
  | PunchHole => posix_punch p offset end_
  | ZeroRange _ => posix_zero p (Z.min offset effective_end) effective_end size
  | CollapseRange => posix_collapse p offset end_
  | InsertRange => posix_insert p offset length
  end.
Definition posix_fallocate (p : posix_file) (maximum_file_bytes offset length end_ : Z) (mode : FallocateMode) : presult posix_file :=
  match posix_size mode (pf_size p) offset length with
  | Ok size => if size <=? maximum_file_bytes then Ok (posix_mode p mode offset length end_ size) else Err FileTooLarge
  | Err e => Err e
  | Panic => Panic
  end.

(** The code computes that size, and returns that error. *)
Lemma fallocate_size_posix mode current offset length :
  fallocate_size mode current offset (offset + length) length = posix_size mode current offset length.
Proof.
  destruct mode as [[]| |[]| |]; cbn [fallocate_size posix_size negb andb]; rewrite ?reject_Err; try done.
  - destruct (Z.ltb_spec current (offset + length)); f_equal; lia.
  - destruct (Z.ltb_spec current (offset + length)); f_equal; lia.
  - by destruct (Z.ltb_spec (offset + length) current), (Z.leb_spec current (offset + length)); try lia.
  - destruct (Z.ltb_spec offset current), (Z.leb_spec current offset); try lia; [|done].
    unfold checked_add. by destruct (current + length <=? u64_max).
Qed.

Section Accounting.
Context (heap : Z → option (CommittedFile * (Z → option byte))).
Implicit Types (f : VersionedFile).

Lemma count_shift p d a b : count (λ x, p (x + d)) a b = count p (a + d) (b + d).
Proof.
  destruct (Z.le_gt_cases a b) as [Hab|]; [|by rewrite !count_empty by lia]. remember (Z.to_nat (b - a)) as n eqn:Hn. revert a Hab Hn.
  induction n as [|n IH]; intros a Hab Hn; [by rewrite !count_empty by lia|].
  rewrite (count_split _ a (a + 1) b), (count_split p (a + d) (a + 1 + d) (b + d)), IH by lia. f_equal.
  destruct (p (a + d)) eqn:Hp.
  - rewrite !count_all; [lia|lia|intros y Hy; by replace y with (a + d) by lia|lia|intros y Hy; by replace y with a by lia].
  - rewrite !count_none; [done|intros y Hy; by replace y with (a + d) by lia|intros y Hy; by replace y with a by lia].
Qed.
Lemma filled_allocated f p a b : file_wf heap f → live_size f ≤ pf_size p → 0 ≤ a ≤ b → b ≤ pf_size p →
  (∀ x, ¬ a ≤ x < b → pf_at p x = file_view heap f x) → (∀ x, a ≤ x < b → is_Some (pf_at p x)) →
  posix_allocated p 0 (pf_size p) = live_allocated_bytes f - posix_allocated (abstract heap f) a b + (b - a).
Proof.
  intros Hf Hsz Hab Hb Hout Hin. rewrite (allocated_update heap f p a b) by (done || intros; by apply Hout). by rewrite (posix_allocated_all p) by (done || lia).
Qed.
Lemma collapse_allocated f a b : file_wf heap f → 0 ≤ a ≤ b → b ≤ live_size f →
  posix_allocated (posix_collapse (abstract heap f) a b) 0 (live_size f - (b - a)) = live_allocated_bytes f - posix_allocated (abstract heap f) a b.
Proof.
  intros Hf Hab Hb. rewrite (fw_allocated _ _ Hf). unfold posix_allocated. cbn [posix_collapse pf_at abstract].
  set (p := allocated_at (file_view heap f)). rewrite (count_split p 0 a (live_size f)), (count_split p a b (live_size f)) by lia.
  rewrite (count_split _ 0 a (live_size f - (b - a))) by lia. replace (count p b (live_size f)) with (count (λ x, p (x + (b - a))) a (live_size f - (b - a))).
  2: { rewrite count_shift. f_equal; lia. }
  rewrite (count_ext _ p 0 a), (count_ext _ (λ x, p (x + (b - a))) a (live_size f - (b - a))); [lia|..]; intros x Hx; unfold p, allocated_at;
    [by rewrite decide_False by lia|by rewrite decide_True by lia].
Qed.
Lemma insert_allocated f a n : file_wf heap f → 0 ≤ a ≤ live_size f → 0 ≤ n →
  posix_allocated (posix_insert (abstract heap f) a n) 0 (live_size f + n) = live_allocated_bytes f.
Proof.
  intros Hf Ha Hn. rewrite (fw_allocated _ _ Hf). unfold posix_allocated. cbn [posix_insert pf_at abstract].
  set (p := allocated_at (file_view heap f)). rewrite (count_split p 0 a (live_size f)) by lia.
  rewrite (count_split _ 0 a (live_size f + n)), (count_split _ a (a + n) (live_size f + n)) by lia.
  replace (count p a (live_size f)) with (count (λ x, p (x + - n)) (a + n) (live_size f + n)).
  2: { rewrite count_shift. f_equal; lia. }
  rewrite (count_ext _ p 0 a), (count_none _ a (a + n)), (count_ext _ (λ x, p (x + - n)) (a + n)); [lia|..]; intros x Hx; unfold p, allocated_at.
  - rewrite decide_False, decide_False by lia. by replace (x - n) with (x + - n) by lia.
  - rewrite decide_False, decide_True by lia. by apply bool_decide_false; intros [? ?].
  - by rewrite decide_True by lia.
Qed.
Lemma punch_allocated f a b : file_wf heap f → 0 ≤ a ≤ b →
  posix_allocated (posix_punch (abstract heap f) a b) 0 (live_size f) =
  live_allocated_bytes f - posix_allocated (abstract heap f) (Z.min a (live_size f)) (Z.min b (live_size f)).
Proof.
  intros Hf Hab. pose proof (live_size_bound heap f Hf). set (q := posix_punch (abstract heap f) a b).
  pose proof (allocated_update heap f q (Z.min a (live_size f)) (Z.min b (live_size f)) Hf ltac:(done) ltac:(lia)) as Hu. cbn [q posix_punch pf_size abstract] in Hu.
  fold q in Hu. rewrite Hu; [|lia|].
  - rewrite (posix_allocated_none q); [lia|]. intros x Hx. cbn [q posix_punch pf_at]. by rewrite decide_True by lia.
  - intros x Hx Hout. cbn [q posix_punch pf_at abstract]. by rewrite decide_False by lia.
Qed.
(** Once the operation is the POSIX one, the assertion holds. *)
Lemma asserted_spec f r p sequence n : mutates heap f r p sequence → n = posix_allocated p 0 (pf_size p) →
  mutates heap f (f ← r; assert_true (live_allocated_bytes f =? n);; Ok f) p sequence.
Proof.
  intros (f'&->&Hwf&Hv&Hrest) ->. rewrite Ok_bind, (proj2 (Z.eqb_eq _ _) (wf_allocated heap f' p Hwf Hv)). cbn [assert_true]. rewrite Ok_bind.
  exists f'. split_and!; try done; apply Hrest.
Qed.
(** The files of zeros that the operation allocates. *)
Definition fresh_for (f : VersionedFile) (mode : FallocateMode) (offset effective_end : Z) (fresh : Z → Z) : Prop :=
  match mode with
  | Allocate _ => ∀ l, unallocated_ranges f (Z.min offset effective_end) effective_end = Ok l → fresh_zeros heap fresh l
  | ZeroRange _ => fresh_zeros heap fresh [(offset, effective_end)]
  | _ => True
  end.
(** The size the operation has, by its mode. *)
Definition mode_size (mode : FallocateMode) (current offset length size : Z) : Prop :=
  0 ≤ size ≤ u64_max ∧
  match mode with
  | Allocate _ | ZeroRange _ => current ≤ size
  | PunchHole => size = current
  | CollapseRange => offset + length < current ∧ size = current - length
  | InsertRange => offset < current ∧ size = current + length
  end.
Lemma posix_size_spec mode current offset length : 0 ≤ offset → 0 < length → offset + length ≤ u64_max → 0 ≤ current ≤ u64_max →
  match posix_size mode current offset length with
  | Ok size => mode_size mode current offset length size
  | Err _ => True
  | Panic => False
  end.
Proof.
  intros Ho Hl Hm Hc. destruct mode as [[]| |[]| |]; cbn [posix_size negb andb]; try (split; lia).
  - destruct (Z.ltb_spec current (offset + length)); split; lia.
  - destruct (Z.ltb_spec current (offset + length)); split; lia.
  - destruct (Z.ltb_spec (offset + length) current); [split; lia|done].
  - destruct (Z.ltb_spec offset current); [|done]. destruct (Z.leb_spec (current + length) u64_max); [split; lia|done].
Qed.
Lemma filled_after f q offset eff : file_wf heap f → 0 ≤ offset → live_size f ≤ pf_size q ≤ u64_max → eff ≤ pf_size q → 0 ≤ eff →
  (∀ x, ¬ Z.min offset eff ≤ x < eff → pf_at q x = file_view heap f x) → (∀ x, Z.min offset eff ≤ x < eff → is_Some (pf_at q x)) →
  (allocated ← (if offset <? eff then allocated_in_range f offset eff else Ok 0);
   ok_or (checked_add u64_max (live_allocated_bytes f) (saturating_sub (saturating_sub eff offset) allocated)) NoSpace)
  = Ok (posix_allocated q 0 (pf_size q)).
Proof.
  intros Hf Ho Hsz Heff He0 Hout Hin. pose proof (filled_allocated f q (Z.min offset eff) eff Hf ltac:(lia) ltac:(lia) Heff Hout Hin) as Hq.
  pose proof (live_size_bound heap f Hf). pose proof (posix_allocated_le q 0 (pf_size q) ltac:(lia)). unfold saturating_sub.
  destruct (Z.ltb_spec offset eff).
  - rewrite (allocated_in_range_spec heap), Ok_bind by (done || lia). rewrite Z.min_l in Hq by lia.
    pose proof (posix_allocated_le (abstract heap f) offset eff ltac:(lia)). rewrite checked_add_ok by lia. cbn [ok_or]. f_equal. lia.
  - rewrite Ok_bind. rewrite Z.min_r in Hq by lia. unfold posix_allocated at 2 in Hq. rewrite count_empty in Hq by lia. rewrite checked_add_ok by lia. cbn [ok_or]. f_equal. lia.
Qed.
Lemma fallocate_after_spec f mode offset length size : file_wf heap f → 0 ≤ offset → 0 < length → offset + length ≤ u64_max →
  mode_size mode (live_size f) offset length size →
  let q := posix_mode (abstract heap f) mode offset length (offset + length) size in
  fallocate_after f mode offset (offset + length) (Z.min (offset + length) size) = Ok (posix_allocated q 0 (pf_size q)).
Proof.
  intros Hf Ho Hl Hmax [Hs Hm] q. pose proof (live_size_bound heap f Hf) as Hcur. unfold q. clear q.
  destruct mode as [keep| |keep| |]; cbn [fallocate_after posix_mode].
  - set (q := posix_allocate _ _ _ _). apply (filled_after f q);
      (done || cbn [q posix_allocate pf_size pf_at abstract]; (lia || intros x Hx; (rewrite decide_False by lia; done) || by rewrite decide_True by lia)).
  - subst size. rewrite (allocated_in_range_spec heap), Ok_bind by (done || lia).
    pose proof (allocated_le heap f (Z.min offset (live_size f)) (Z.min (offset + length) (live_size f)) ltac:(lia) Hf) as Hle.
    unfold checked_sub. rewrite (proj2 (Z.leb_le _ _)) by lia. cbn [ok_or]. f_equal. symmetry. apply (punch_allocated f offset (offset + length)); (done || lia).
  - set (q := posix_zero _ _ _ _). apply (filled_after f q);
      (done || cbn [q posix_zero pf_size pf_at abstract]; (lia || intros x Hx; (rewrite decide_False by lia; done) || by rewrite decide_True by lia)).
  - destruct Hm as [Hin ->]. rewrite (allocated_in_range_spec heap), Ok_bind by (done || lia). rewrite !(Z.min_l _ (live_size f)) by lia.
    pose proof (allocated_le heap f offset (offset + length) ltac:(lia) Hf) as Hle. unfold checked_sub. rewrite (proj2 (Z.leb_le _ _)) by lia. cbn [ok_or]. f_equal.
    rewrite <-(collapse_allocated f offset (offset + length)) by (done || lia). done.
  - destruct Hm as [Hin ->]. f_equal. symmetry. apply insert_allocated; (done || lia).
Qed.
Lemma fallocate_apply_spec f mode offset length size fresh sequence : file_wf heap f → sequence = last_sequence (active f) + 1 → sequence ≤ u64_max →
  0 ≤ offset → 0 < length → offset + length ≤ u64_max → mode_size mode (live_size f) offset length size →
  fresh_for f mode offset (Z.min (offset + length) size) fresh →
  mutates heap f (fallocate_apply f mode offset (offset + length) length (Z.min (offset + length) size) size fresh sequence)
    (posix_mode (abstract heap f) mode offset length (offset + length) size) sequence.
Proof.
  intros Hf Hq Hm Ho Hl Hmax [Hs Hmode] Hfresh. pose proof (live_size_bound heap f Hf) as Hcur.
  destruct mode as [keep| |keep| |]; cbn [fallocate_apply posix_mode fresh_for] in *.
  - apply allocate_zero_spec; (done || lia).
  - apply punch_hole_spec; (done || lia).
  - set (eff := Z.min (offset + length) size) in *. destruct (Z.ltb_spec offset eff).
    + rewrite Z.min_l by lia. apply zero_range_spec; (done || lia).
    + eapply mutates_ext; [apply allocate_zero_spec; try done; try lia|].
      * intros l. unfold unallocated_ranges. rewrite Z.sub_diag. change (Z.to_nat 0) with O. cbn [unallocated_loop]. rewrite (proj2 (Z.ltb_ge eff eff)) by lia.
        intros [= <-] r ?%not_elem_of_nil. done.
      * split; [done|]. intros x. cbn [posix_zero posix_allocate pf_at]. by rewrite !decide_False by lia.
  - apply collapse_range_spec; (done || lia).
  - apply insert_range_spec; (done || lia).
Qed.
Lemma fallocate_spec f reserve maximum offset length mode fresh : file_wf heap f → last_sequence (active f) < u64_max →
  0 ≤ offset → 0 < length → offset + length ≤ u64_max →
  (∀ size, posix_size mode (live_size f) offset length = Ok size →
    fresh_for f mode offset (Z.min (offset + length) size) fresh) →
  let r := fallocate_data f reserve maximum (last_sequence (active f)) offset length (offset + length) mode fresh in
  match posix_fallocate (abstract heap f) maximum offset length (offset + length) mode with
  | Ok q =>
      match reserve (live_allocated_bytes f) (posix_allocated q 0 (pf_size q)) with
      | Ok _ => mutates heap f r q (last_sequence (active f) + 1)
      | Err e => r = Err e
      | Panic => r = Panic
      end
  | Err e => r = Err e
  | Panic => False
  end.
Proof.
  intros Hf Hseq Ho Hl Hmax Hfresh r. pose proof (live_size_bound heap f Hf) as Hcur. unfold r, posix_fallocate, fallocate_data. clear r.
  cbn [abstract pf_size]. pose proof (posix_size_spec mode (live_size f) offset length Ho Hl Hmax Hcur) as Hsize.
  rewrite fallocate_size_posix. destruct (posix_size mode (live_size f) offset length) as [size| |]; [|done|done].
  rewrite !Ok_bind, !reject_Err. destruct (Z.ltb_spec maximum size), (Z.leb_spec size maximum); try lia; [done|]. cbv zeta. specialize (Hfresh size eq_refl). rewrite (fallocate_after_spec f mode offset length size) by done. rewrite Ok_bind.
  set (q := posix_mode (abstract heap f) mode offset length (offset + length) size). destruct (reserve _ _) as [[]| |]; [|done|done].
  rewrite Ok_bind, checked_add_ok by lia. cbn [ok_or]. rewrite Ok_bind. apply asserted_spec; [|done]. apply fallocate_apply_spec; (done || lia).
Qed.
End Accounting.
End Fallocate.
