(* ===== verification/FileRefinement.v ===== *)
(** * Histories of versioned files

    Any history of mutations of a versioned file is the same history of the
    POSIX file it stands for; reads return that file's bytes; seeks find its
    data and its holes; a commit that runs beside the mutations does not show. *)
From S2P Require Export Fallocate.

Module FileRefinement.
Import SparseData SparseDataOps RangeSet DirtyEpoch DirtyEpochOps ReadPlan ReadPlanCover ReadPlanExact ReadPlanRun Allocation VersionedFile VersionedFileOps VersionedFileRuns EpochAudit Flatten FileCommit Fallocate.

(** ** Mutations as data *)
Inductive file_op :=
  | Write (offset : Z) (p : MutationPayload)
  | Clone (offset : Z) (file : CommittedFile) (file_offset length : Z)
  | Truncate (length : Z)
  | Fallocated (maximum offset length : Z) (mode : FallocateMode) (fresh : Z → Z)
  | Advance.
Definition apply_op (f : VersionedFile) (op : file_op) : presult VersionedFile :=
  let next := last_sequence (active f) + 1 in
  match op with
  | Write offset p => write_payload f offset p next
  | Clone offset file file_offset length => clone_range f offset file file_offset length next
  | Truncate length => file_truncate f length next
  | Fallocated maximum offset length mode fresh =>
      fallocate_data f (λ _ _, Ok ()) maximum (last_sequence (active f)) offset length (offset + length) mode fresh
  | Advance => advance_mutation_sequence f next
  end.
Fixpoint run_ops (f : VersionedFile) (ops : list file_op) : presult VersionedFile :=
  match ops with [] => Ok f | op :: ops => f ← apply_op f op; run_ops f ops end.

Section Histories.
Context (heap : Z → option (CommittedFile * (Z → option byte))).

(** The same mutation of a POSIX file *)
Definition posix_op (p : posix_file) (op : file_op) : posix_file :=
  match op with
  | Write offset payload => posix_write p offset (payload_bytes payload)
  | Clone offset file file_offset length => posix_clone p offset (file_at heap file) file_offset length
  | Truncate length => posix_truncate p length
  | Fallocated maximum offset length mode _ =>
      match posix_fallocate p maximum offset length (offset + length) mode with Ok q => q | _ => p end
  | Advance => p
  end.
(** What the callers ensure: the arguments are 64-bit, sources are files with
    data in the range, and new zero files are fresh allocations. *)
Definition op_ok (f : VersionedFile) (op : file_op) : Prop :=
  last_sequence (active f) < u64_max ∧
  match op with
  | Write offset p => 0 ≤ offset ∧ 0 < blen (payload_bytes p) ∧ offset + blen (payload_bytes p) ≤ u64_max
  | Clone offset file file_offset length => file_ok heap file ∧ 0 ≤ offset ∧ 0 ≤ file_offset ∧ 0 < length ∧ offset + length ≤ u64_max ∧
      file_offset + length ≤ file_logical_size file ∧ (∀ x, file_offset ≤ x < file_offset + length → is_Some (file_at heap file x))
  | Truncate length => 0 ≤ length ≤ u64_max
  | Fallocated maximum offset length mode fresh => 0 ≤ offset ∧ 0 < length ∧ offset + length ≤ u64_max ∧
      (∃ q, posix_fallocate (abstract heap f) maximum offset length (offset + length) mode = Ok q) ∧
      (∀ size, posix_size mode (live_size f) offset length = Ok size →
        fresh_for heap f mode offset (Z.min (offset + length) size) fresh)
  | Advance => True
  end.
Fixpoint ops_ok (f : VersionedFile) (ops : list file_op) : Prop :=
  match ops with
  | [] => True
  | op :: ops => op_ok f op ∧ ∀ f', apply_op f op = Ok f' → ops_ok f' ops
  end.

(** ** POSIX mutations respect the equivalence of files *)
#[export] Instance posix_op_proper : Proper ((≡) ==> (=) ==> (≡)) posix_op.
Proof.
  intros p q [Hsz Hat] op _ <-.
  destruct op as [offset b|offset file from length|length|maximum offset length mode fresh|]; cbn [posix_op]; [| | | |done].
  1-3: split; cbn [posix_write posix_clone posix_truncate pf_size pf_at]; [by rewrite ?Hsz|intros x; case_decide; by rewrite ?Hat].
  unfold posix_fallocate. rewrite Hsz. destruct (posix_size mode (pf_size q) offset length) as [size| |]; [|done|done].
  destruct (size <=? maximum); [|done]. destruct mode; split;
    cbn [posix_mode posix_allocate posix_punch posix_zero posix_collapse posix_insert pf_size pf_at]; rewrite ?Hsz; try done; intros x; repeat case_decide; by rewrite ?Hat.
Qed.
#[export] Instance posix_history_proper : Proper ((≡) ==> (=) ==> (≡)) (foldl posix_op).
Proof. intros p q Hpq ops _ <-. revert p q Hpq. induction ops as [|op ops IH]; intros p q Hpq; [done|]. cbn [foldl]. apply IH. by rewrite Hpq. Qed.
Lemma advance_spec f : file_wf heap f → last_sequence (active f) < u64_max →
  mutates heap f (advance_mutation_sequence f (last_sequence (active f) + 1)) (abstract heap f) (last_sequence (active f) + 1).
Proof.
  intros Hf Hm. unfold advance_mutation_sequence. rewrite assert_next_ok, Ok_bind by (done || lia). cbv zeta.
  set (e := record_sequence (active f) (last_sequence (active f) + 1)). assert (He : epoch_wf heap e) by (by apply record_wf; [apply Hf|]).
  rewrite (epoch_valid_ok heap), Ok_bind by done.
  apply (mutates_intro heap f e _ (λ below, below) (abstract heap f) _ Hf); [|done|apply Hf]. split; [done|done|done|done|by eexists|done].
Qed.
Lemma apply_op_spec f op : file_wf heap f → op_ok f op →
  mutates heap f (apply_op f op) (posix_op (abstract heap f) op) (last_sequence (active f) + 1).
Proof.
  intros Hf [Hq Hop]. destruct op as [offset b|offset file from length|length|maximum offset length mode fresh|]; cbn [apply_op posix_op].
  - apply write_payload_spec; (done || lia).
  - destruct Hop as (?&?&?&?&?&?&?). apply clone_range_spec; (done || lia).
  - apply truncate_file_spec; (done || lia).
  - destruct Hop as (Ho&Hl&Hm&[q Hp]&Hfresh). pose proof (fallocate_spec heap f (λ _ _, Ok ()) maximum offset length mode fresh Hf Hq Ho Hl Hm Hfresh) as Hs. by rewrite Hp in Hs |- *.
  - by apply advance_spec.
Qed.
Lemma run_ops_spec f ops : file_wf heap f → ops_ok f ops →
  ∃ f', run_ops f ops = Ok f' ∧ file_wf heap f' ∧ abstract heap f' ≡ foldl posix_op (abstract heap f) ops ∧
    committed f' = committed f ∧ committed_sequence f' = committed_sequence f ∧ inflight f' = inflight f.
Proof.
  revert f. induction ops as [|op ops IH]; intros f Hf Hops; [by exists f|]. destruct Hops as [Hop Hops].
  destruct (apply_op_spec f op Hf Hop) as (f1&H1&Hf1&Hv1&_&_&Hc1&Hs1&Hi1). cbn [run_ops foldl]. rewrite H1, Ok_bind.
  destruct (IH f1 Hf1 (Hops f1 H1)) as (f'&H'&Hf'&Hv'&Hc'&Hs'&Hi'). exists f'. split_and!; [done|done| |congruence..].
  by rewrite Hv', Hv1.
Qed.

(** ** New files *)
Lemma from_committed_wf file sequence : file_ok heap file → 0 ≤ sequence → file_wf heap (from_committed file sequence).
Proof.
  intros Hfile Hq. pose proof (fo_size _ _ Hfile).
  split; cbn [from_committed committed active inflight committed_sequence live_allocated_bytes]; [done|by apply new_wf|done|].
  rewrite (fo_allocated _ _ Hfile). apply count_ext. intros x Hx. unfold allocated_at, file_present. cbn [abstract pf_at].
  rewrite file_view_active. cbn [from_committed active]. rewrite new_view. by rewrite decide_True by done.
Qed.
Lemma empty_file_ok id : heap id = Some (EmptyCommittedFile id, λ _, None) → file_ok heap (EmptyCommittedFile id).
Proof.
  intros Hid. assert (Hat : ∀ x, file_at heap (EmptyCommittedFile id) x = None).
  { intros x. unfold file_at. cbn [EmptyCommittedFile file_id]. by rewrite Hid. }
  split; cbn [EmptyCommittedFile file_logical_size file_allocated_bytes shared_read_source allocated_bytes_in_range]; try done.
  - by eexists.
  - intros o n Ho Hn Hon. by rewrite count_empty by lia.
  - intros o n Ho Hn Hon. cbn [EmptyCommittedFile file_logical_size] in Hon. lia.
Qed.
Lemma new_empty_wf id : heap id = Some (EmptyCommittedFile id, λ _, None) → file_wf heap (new_empty id).
Proof. intros Hid. by apply from_committed_wf, Z.le_refl; apply empty_file_ok. Qed.
End Histories.

(** ** Files for the examples *)

(** An empty file, a file of zeros of more than half of the 64-bit range, and
    the files that [more] adds. *)
Definition example_heap (more : Z → option (CommittedFile * (Z → option byte))) (id : Z) : option (CommittedFile * (Z → option byte)) :=
  if id =? 1 then Some (EmptyCommittedFile 1, λ _, None)
  else if id =? 2 then Some (ZeroCommittedFile 2 (2 ^ 63 + 10), zero_contents (2 ^ 63 + 10))
  else more id.
Definition example_write : file_op := Write 1 {| payload_bytes := [x61; x62]; backing_bytes := 2 |}.
Definition example_history : list file_op := [example_write; Truncate 5; Fallocated u64_max 1 1 PunchHole id; Advance].
Definition outcome_or {A} (a : A) (r : presult A) : A := match r with Ok a => a | _ => a end.
Definition written : VersionedFile := outcome_or (new_empty 1) (run_ops (new_empty 1) [example_write]).
Lemma example_new more : file_wf (example_heap more) (new_empty 1).
Proof. by apply new_empty_wf. Qed.
Lemma example_write_ok more : ops_ok (example_heap more) (new_empty 1) [example_write].
Proof. split; [|done]. by split_and!. Qed.
Lemma written_wf more : file_wf (example_heap more) written.
Proof.
  destruct (run_ops_spec _ (new_empty 1) [example_write] (example_new more) (example_write_ok more)) as (f'&Hr&Hf'&_). unfold written. by rewrite Hr.
Qed.
Lemma history_ok more : ops_ok (example_heap more) (new_empty 1) example_history.
Proof.
  split; [by split_and!|]. intros f' Hf'. vm_compute in Hf'. injection Hf' as <-. split; [by split_and!|].
  intros f' Hf'. vm_compute in Hf'. injection Hf' as <-. split; [split; [done|]; split_and!; [done|done|done|by eexists|done]|].
  intros f' Hf'. vm_compute in Hf'. injection Hf' as <-. split; [by split|]. done.
Qed.
(** A clone of one byte far into the file of zeros, to a far position. *)
Definition far_clone : file_op := Clone (2 ^ 63) (ZeroCommittedFile 2 (2 ^ 63 + 10)) (2 ^ 63 + 5) 1.
Lemma far_clone_ok more : ops_ok (example_heap more) (new_empty 1) [far_clone].
Proof.
  split; [|done]. split; [done|]. split; [apply zero_file_ok; [unfold u64_max; lia|reflexivity]|].
  cbn [ZeroCommittedFile file_logical_size]. unfold u64_max. split_and!; [lia..|].
  intros x Hx. change (is_Some (zero_contents (2 ^ 63 + 10) x)). unfold zero_contents. rewrite decide_True by lia. by eexists.
Qed.
(** The commit of [written], as the third file of the heap. *)
Definition written_frozen : VersionedFile * option CommittedFile := outcome_or (written, None) (freeze_active written 7 3).
Definition commit_heap : Z → option (CommittedFile * (Z → option byte)) :=
  example_heap (λ id, if id =? 3 then (λ file, (file, pf_at (abstract (example_heap (λ _, None)) written))) <$> written_frozen.2 else None).

(** ** The properties *)

(** C3: any history of writes, clones, truncations, [fallocate] calls and
    sequence advances of a well-formed file that meets [ops_ok] (there is room
    for a sequence number; ranges are not empty and end in 64 bits; a clone's
    source is a file with data in the whole range; each [fallocate] is one that
    POSIX carries out, by [posix_size]; the files of zeros it allocates are
    fresh) succeeds without an error or a failed assertion, and leaves a
    well-formed file that is the POSIX file after the same history, with its
    allocated bytes counted exactly. *)
Theorem file_history_refines heap f ops : file_wf heap f → ops_ok heap f ops →
  ∃ f', run_ops f ops = Ok f' ∧ file_wf heap f' ∧ abstract heap f' ≡ foldl (posix_op heap) (abstract heap f) ops ∧
    live_allocated_bytes f' = posix_allocated (abstract heap f') 0 (live_size f').
Proof.
  intros Hf Hops. destruct (run_ops_spec heap f ops Hf Hops) as (f'&Hr&Hf'&Hv&_). exists f'. split_and!; [done|done|done|apply Hf'].
Qed.
Lemma file_history_refines_witness : let heap := example_heap (λ _, None) in
  ∃ f', run_ops (new_empty 1) example_history = Ok f' ∧ file_wf heap f' ∧
    abstract heap f' ≡ foldl (posix_op heap) (abstract heap (new_empty 1)) example_history ∧
    live_allocated_bytes f' = posix_allocated (abstract heap f') 0 (live_size f').
Proof. exact (file_history_refines _ (new_empty 1) example_history (example_new _) (history_ok _)). Defined.

(** C7: a read of a well-formed file whose size is at most half of the 64-bit
    range, and whose external extents have source offsets that stay in 64 bits
    when the end of the range read is added ([reach]), does not panic; what it
    returns is the bytes of the POSIX file in the range, up to its size and with
    zeros in the holes; and it does return them when the files under it serve
    their reads.  Without the second condition the sum overflows and the read
    panics ([read_plan_overflows]). *)
Theorem file_read_exact heap f offset n : file_wf heap f → live_size f + live_size f ≤ u64_max → 0 ≤ offset → 0 ≤ n ≤ u32_max →
  Forall (λ e, reach e (Z.min (offset + n) (live_size f))) (layers f) →
  ∃ spans, plan_read f offset n = Ok spans ∧ execute_shared spans ≠ Panic ∧
    (∀ b, execute_shared spans = Ok b → b = posix_read (abstract heap f) offset n) ∧
    ((∀ file, live heap file → serves file) → execute_shared spans = Ok (posix_read (abstract heap f) offset n)).
Proof.
  intros Hf Hsz Ho Hn Hreach. destruct (plan_read_spec heap (committed f) (layers f) (live_size f) offset n) as (spans&Hp&_&Hnp&Hout&Hserve); [apply Hf| |done..|].
  { apply Forall_and. split; [by apply layers_wf|done]. }
  exists spans. split_and!; [done|done|exact Hout|]. intros Hall. destruct (Hserve Hall) as [b Hb]. rewrite Hb. f_equal. by apply Hout.
Qed.
Lemma file_read_exact_witness : let heap := example_heap (λ _, None) in
  ∃ spans, plan_read written 0 9 = Ok spans ∧ execute_shared spans ≠ Panic ∧
    (∀ b, execute_shared spans = Ok b → b = posix_read (abstract heap written) 0 9) ∧
    ((∀ file, live heap file → serves file) → execute_shared spans = Ok (posix_read (abstract heap written) 0 9)).
Proof.
  apply (file_read_exact _ written 0 9 (written_wf _)); [by vm_compute|done|done|]. apply Forall_singleton. intros k d Hk. by vm_compute in Hk.
Defined.

(** C34: [seek_data] finds the first allocated position at or after the offset,
    or tells that there is none; [seek_hole] finds the first position that is
    not allocated, the end of the file being one, and fails past the end. *)
Theorem file_seek_exact heap f offset : file_wf heap f → 0 ≤ offset →
  (∃ r, seek_data f offset = Ok r ∧ first_from heap f true offset r) ∧
  (if decide (offset < live_size f)
   then ∃ x, seek_hole f offset = Ok (Some x) ∧ x ≤ live_size f ∧ first_from heap f false offset (Some x)
   else seek_hole f offset = Ok None).
Proof.
  intros Hf Ho. split; [by apply seek_data_spec|]. destruct (seek_hole_spec heap f offset Hf Ho) as [Hout Hin]. case_decide; [by apply Hin|apply Hout; lia].
Qed.
Lemma file_seek_exact_witness : let heap := example_heap (λ _, None) in
  (∃ r, seek_data written 0 = Ok r ∧ first_from heap written true 0 r) ∧
  ∃ x, seek_hole written 0 = Ok (Some x) ∧ x ≤ live_size written ∧ first_from heap written false 0 (Some x).
Proof. exact (file_seek_exact (example_heap (λ _, None)) written 0 (written_wf _) ltac:(lia)). Defined.

(** C20: on a well-formed file with room for a sequence number, a [fallocate]
    of a range that is not empty and ends in 64 bits, with fresh files of zeros,
    returns the error of [posix_fallocate], exactly when that has one: EINVAL
    for a collapse that reaches the end of the file and an insertion at or past
    it, EFBIG for a size that is not representable or above the limit.
    Otherwise it asks the quotas to admit exactly the new allocation of the
    file, returns their error, and when they admit it performs the POSIX
    operation of its mode, with the size of [posix_size]; the assertion on the
    admitted allocation does not fail. *)
Theorem fallocate_exact heap f reserve_change maximum offset length mode fresh : file_wf heap f → last_sequence (active f) < u64_max →
  0 ≤ offset → 0 < length → offset + length ≤ u64_max →
  (∀ size, posix_size mode (live_size f) offset length = Ok size →
    fresh_for heap f mode offset (Z.min (offset + length) size) fresh) →
  let r := fallocate_data f reserve_change maximum (last_sequence (active f)) offset length (offset + length) mode fresh in
  match posix_fallocate (abstract heap f) maximum offset length (offset + length) mode with
  | Ok q =>
      match reserve_change (live_allocated_bytes f) (posix_allocated q 0 (pf_size q)) with
      | Ok _ => mutates heap f r q (last_sequence (active f) + 1)
      | Err e => r = Err e
      | Panic => r = Panic
      end
  | Err e => r = Err e
  | Panic => False
  end.
Proof. apply fallocate_spec. Qed.
Lemma fallocate_exact_witness : let heap := example_heap (λ _, None) in
  mutates heap written (fallocate_data written (λ _ _, Ok ()) u64_max 1 1 1 2 CollapseRange id) (posix_collapse (abstract heap written) 1 2) 2.
Proof.
  exact (fallocate_exact (example_heap (λ _, None)) written (λ _ _, Ok ()) u64_max 1 1 CollapseRange id (written_wf _) ltac:(by vm_compute) ltac:(lia) ltac:(lia)
    ltac:(unfold u64_max; lia) (λ _ _, I)).
Defined.

(** C6: a commit beside mutations, for a well-formed file without a commit in
    flight, whose size is at most half of the 64-bit range and whose active
    external extents have source offsets that stay in 64 bits when that size is
    added ([reach]): the frozen version is a file with the contents at the
    freeze; after any history of mutations that meets [ops_ok] it installs, no
    assertion fails, and the file is the POSIX file after that history. *)
Theorem commit_transparent heap f tok id ops f1 snapshot : file_wf heap f → inflight f = None →
  live_size f + live_size f ≤ u64_max → reach (active f) (live_size f) →
  freeze_active f tok id = Ok (f1, Some snapshot) → heap id = Some (snapshot, pf_at (abstract heap f)) → ops_ok heap f1 ops →
  ∃ f2 f3, run_ops f1 ops = Ok f2 ∧ install_commit_view f2 tok snapshot (last_sequence (active f)) true = Ok f3 ∧
    file_wf heap f3 ∧ abstract heap f3 ≡ foldl (posix_op heap) (abstract heap f) ops ∧ committed f3 = snapshot ∧ inflight f3 = None.
Proof.
  intros Hf Hi Hsz Hreach Hfr Hid Hops. destruct (first_sequence (active f)) as [q|] eqn:Hq.
  2: { unfold freeze_active in Hfr. rewrite Hi, Hq, bool_decide_true in Hfr by done. cbn [assert_true] in Hfr. by rewrite Ok_bind in Hfr. }
  destruct (freeze_active_spec heap f tok id Hf Hi) as (f1'&frozen&Hfr'&Hf1&Hv1&Hi1&_&Hc1&Ht&Hd&Hcount); [by rewrite Hq|].
  rewrite Hfr in Hfr'. injection Hfr' as <- ->. pose proof (frozen_abstract heap f frozen Hi (eq_sym Hd)) as Hview. cbn [abstract pf_at] in Hid. rewrite Hview in Hid.
  assert (Hok : file_ok heap (FrozenCommit id (committed f) frozen (live_allocated_bytes f))).
  { apply frozen_file_ok; try done; rewrite ?Hd; try done; apply Hf. }
  destruct (run_ops_spec heap f1 ops Hf1 Hops) as (f2&Hr&Hf2&Hv2&Hc2&_&Hi2). pose proof (fw_base _ _ Hf2) as Hb. rewrite Hi2, Hi1 in Hb. destruct Hb as (_&_&Hb1&Hb2).
  destruct (install_commit_spec heap f2 tok (FrozenCommit id (committed f) frozen (live_allocated_bytes f)) (last_sequence (active f)) true Hf2) as (f3&H3&Hf3&Hv3&Hc3&Hi3).
  { split; [done|by rewrite Hb1|by rewrite Hb2, Hd|by rewrite Hi2, Hi1|]. intros x _. unfold file_at. cbn [FrozenCommit file_id]. rewrite Hid.
    unfold below_active, frozen_view. by rewrite Hi2, Hi1, Hc2, Hc1. }
  exists f2, f3. split_and!; try done. by rewrite Hv3, Hv2, Hv1.
Qed.
Lemma commit_transparent_witness : ∃ snapshot f2 f3, written_frozen.2 = Some snapshot ∧ run_ops written_frozen.1 [Truncate 2] = Ok f2 ∧
  install_commit_view f2 7 snapshot 1 true = Ok f3 ∧ file_wf commit_heap f3 ∧
  abstract commit_heap f3 ≡ foldl (posix_op commit_heap) (abstract commit_heap written) [Truncate 2] ∧ committed f3 = snapshot ∧ inflight f3 = None.
Proof.
  destruct (commit_transparent commit_heap written 7 3 [Truncate 2] written_frozen.1 (default (EmptyCommittedFile 1) written_frozen.2)) as (f2&f3&Hr&Hi&Hrest).
  - apply written_wf.
  - done.
  - by vm_compute.
  - intros k d Hk. by vm_compute in Hk.
  - done.
  - done.
  - split; [by split_and!|done].
  - eexists _, f2, f3. split; [done|]. exact (conj Hr (conj Hi Hrest)).
Defined.

(** Covering many intervals at once, the path for plans with more than 16
    uncovered intervals, is covering them one by one. *)
Theorem cover_paths_agree lo hi uncovered start end_ source : ordered lo uncovered hi →
  cover_many uncovered start end_ source = cover_each uncovered start end_ source.
Proof. apply cover_many_each. Qed.
Lemma cover_paths_agree_witness : cover_many [(0, 4); (6, 9)] 2 8 (λ _, Ok Zero) = cover_each [(0, 4); (6, 9)] 2 8 (λ _, Ok Zero).
Proof. apply (cover_paths_agree 0 9). cbn [ordered]. lia. Defined.

(** A plan can fail on a file in range: the offset of a read in the source of
    an external extent is computed as source offset plus position minus start, and
    the sum overflows when the two are past half of the 64-bit range. *)
Theorem read_plan_overflows : ∃ f, run_ops (new_empty 1) [far_clone] = Ok f ∧ file_wf (example_heap (λ _, None)) f ∧
  live_size f = 2 ^ 63 + 1 ∧ plan_read f (2 ^ 63) 1 = Panic.
Proof.
  destruct (run_ops_spec _ (new_empty 1) [far_clone] (example_new (λ _, None)) (far_clone_ok _)) as (f&Hr&Hf&_).
  assert (Hc : match run_ops (new_empty 1) [far_clone] with Ok f => Some (live_size f, plan_read f (2 ^ 63) 1) | _ => None end = Some (2 ^ 63 + 1, Panic)) by (vm_compute; reflexivity).
  rewrite Hr in Hc. injection Hc as Hs Hp. exists f. exact (conj Hr (conj Hf (conj Hs Hp))).
Qed.
End FileRefinement.
