(* ===== verification/InodeMetadata.v ===== *)
(** * Metadata of an inode ([fastdup-posix/src/inode_metadata.rs])

    File flags, extended attributes with their accounting, and POSIX ACLs in
    their wire form. *)
From S2P Require Export Bytes BTreeMap SparseData.

#[global] Instance byte_countable : Countable byte.
Proof. apply (inj_countable' Byte.to_N (λ n, default x00 (Byte.of_N n))). intros b. by rewrite Byte.of_to_N. Defined.

Module InodeMetadata.
Import SparseData.

Inductive FileKind := Directory | Regular | Symlink.
#[global] Instance kind_eq_dec : EqDecision FileKind.
Proof. solve_decision. Defined.
Inductive XattrSetMode := Upsert | Create | Replace.
Definition FS_IMMUTABLE_FL : Z := 0x10.
Definition SUPPORTED_FILE_FLAGS : Z := FS_IMMUTABLE_FL.
Definition MAXIMUM_XATTR_NAME_BYTES : Z := 255.
Definition MAXIMUM_XATTR_VALUE_BYTES : Z := 65536.
Definition MAXIMUM_XATTRS_PER_INODE : Z := 1024.
Definition MAXIMUM_XATTR_BYTES_PER_INODE : Z := 1048576.
(** system.posix_acl_access and system.posix_acl_default *)
Definition POSIX_ACL_PREFIX : bytes := [x73; x79; x73; x74; x65; x6d; x2e; x70; x6f; x73; x69; x78; x5f; x61; x63; x6c; x5f].
Definition POSIX_ACL_ACCESS_XATTR : bytes := POSIX_ACL_PREFIX ++ [x61; x63; x63; x65; x73; x73].
Definition POSIX_ACL_DEFAULT_XATTR : bytes := POSIX_ACL_PREFIX ++ [x64; x65; x66; x61; x75; x6c; x74].
(** user., trusted. and security. *)
Definition user_prefix : bytes := [x75; x73; x65; x72; x2e].
Definition trusted_prefix : bytes := [x74; x72; x75; x73; x74; x65; x64; x2e].
Definition security_prefix : bytes := [x73; x65; x63; x75; x72; x69; x74; x79; x2e].
Definition POSIX_ACL_XATTR_VERSION : Z := 2.
Definition ACL_USER_OBJ : Z := 0x01.
Definition ACL_USER : Z := 0x02.
Definition ACL_GROUP_OBJ : Z := 0x04.
Definition ACL_GROUP : Z := 0x08.
Definition ACL_MASK : Z := 0x10.
Definition ACL_OTHER : Z := 0x20.
Definition ACL_UNDEFINED_ID : Z := u32_max.

(** ** Access control lists *)
Record AclEntry := { tag : Z; permissions : Z; entry_id : Z }.
(** [value[4..].chunks_exact(8)] as entries *)
Fixpoint acl_entries (body : bytes) : list AclEntry :=
  match body with
  | b0 :: b1 :: b2 :: b3 :: b4 :: b5 :: b6 :: b7 :: rest =>
      {| tag := le_val [b0; b1]; permissions := le_val [b2; b3]; entry_id := le_val [b4; b5; b6; b7] |} :: acl_entries rest
  | _ => []
  end.
(** The entries with their permissions rewritten in place *)
Fixpoint rewrite_entries (new : AclEntry → option Z) (body : bytes) : bytes :=
  match body with
  | b0 :: b1 :: b2 :: b3 :: b4 :: b5 :: b6 :: b7 :: rest =>
      let entry := {| tag := le_val [b0; b1]; permissions := le_val [b2; b3]; entry_id := le_val [b4; b5; b6; b7] |} in
      [b0; b1] ++ match new entry with Some p => le_bytes 2 p | None => [b2; b3] end ++ [b4; b5; b6; b7] ++ rewrite_entries new rest
  | rest => rest
  end.
(** What the loop of [validate_acl] keeps *)
Record AclScan := { user_obj : option Z; group_obj : option Z; mask : option Z; other : option Z;
                    named_users : gmap Z Z; named_groups : gmap Z Z; previous_order : option (Z * Z) }.
Definition scan_start : AclScan :=
  {| user_obj := None; group_obj := None; mask := None; other := None; named_users := ∅; named_groups := ∅; previous_order := None |}.
Definition scan_next (s : AclScan) (order : Z * Z) (duplicate : bool) (s' : AclScan) : presult AclScan :=
  reject_if (duplicate || match previous_order s with Some previous => negb (bool_decide (previous <o order)) | None => false end) InvalidArgument;;
  Ok {| user_obj := user_obj s'; group_obj := group_obj s'; mask := mask s'; other := other s';
        named_users := named_users s'; named_groups := named_groups s'; previous_order := Some order |}.
Definition scan_entry (s : AclScan) (e : AclEntry) : presult AclScan :=
  let '{| tag := t; permissions := p; entry_id := i |} := e in
  reject_if (negb (Z.land p (Z.lnot 7) =? 0)) InvalidArgument;;
  if (t =? ACL_USER_OBJ) && (i =? ACL_UNDEFINED_ID) then
    scan_next s (0, 0) (bool_decide (is_Some (user_obj s)))
      {| user_obj := Some p; group_obj := group_obj s; mask := mask s; other := other s;
         named_users := named_users s; named_groups := named_groups s; previous_order := previous_order s |}
  else if (t =? ACL_USER) && negb (i =? ACL_UNDEFINED_ID) then
    scan_next s (1, i) (bool_decide (is_Some (named_users s !! i)))
      {| user_obj := user_obj s; group_obj := group_obj s; mask := mask s; other := other s;
         named_users := <[i := p]> (named_users s); named_groups := named_groups s; previous_order := previous_order s |}
  else if (t =? ACL_GROUP_OBJ) && (i =? ACL_UNDEFINED_ID) then
    scan_next s (2, 0) (bool_decide (is_Some (group_obj s)))
      {| user_obj := user_obj s; group_obj := Some p; mask := mask s; other := other s;
         named_users := named_users s; named_groups := named_groups s; previous_order := previous_order s |}
  else if (t =? ACL_GROUP) && negb (i =? ACL_UNDEFINED_ID) then
    scan_next s (3, i) (bool_decide (is_Some (named_groups s !! i)))
      {| user_obj := user_obj s; group_obj := group_obj s; mask := mask s; other := other s;
         named_users := named_users s; named_groups := <[i := p]> (named_groups s); previous_order := previous_order s |}
  else if (t =? ACL_MASK) && (i =? ACL_UNDEFINED_ID) then
    scan_next s (4, 0) (bool_decide (is_Some (mask s)))
      {| user_obj := user_obj s; group_obj := group_obj s; mask := Some p; other := other s;
         named_users := named_users s; named_groups := named_groups s; previous_order := previous_order s |}
  else if (t =? ACL_OTHER) && (i =? ACL_UNDEFINED_ID) then
    scan_next s (5, 0) (bool_decide (is_Some (other s)))
      {| user_obj := user_obj s; group_obj := group_obj s; mask := mask s; other := Some p;
         named_users := named_users s; named_groups := named_groups s; previous_order := previous_order s |}
  else Err InvalidArgument.
Fixpoint scan_entries (s : AclScan) (l : list AclEntry) : presult AclScan :=
  match l with [] => Ok s | e :: l => s ← scan_entry s e; scan_entries s l end.
Definition scan_complete (s : AclScan) : presult () :=
  reject_if (bool_decide (user_obj s = None) || bool_decide (group_obj s = None) || bool_decide (other s = None)) InvalidArgument;;
  reject_if ((negb (bool_decide (named_users s = ∅)) || negb (bool_decide (named_groups s = ∅))) && bool_decide (mask s = None)) InvalidArgument.
Definition validate_acl (value : bytes) : presult () :=
  reject_if ((blen value <? 4) || negb ((blen value - 4) mod 8 =? 0)) InvalidArgument;;
  reject_if (negb (le_val (take 4 value) =? POSIX_ACL_XATTR_VERSION)) InvalidArgument;;
  s ← scan_entries scan_start (acl_entries (drop 4 value));
  scan_complete s.
(** The loop of [access_acl_mode] *)
Record AclMode := { mode_owner : option Z; mode_group : option Z; mode_mask : option Z; mode_other : option Z }.
Definition mode_entry (m : AclMode) (e : AclEntry) : AclMode :=
  if tag e =? ACL_USER_OBJ then {| mode_owner := Some (permissions e); mode_group := mode_group m; mode_mask := mode_mask m; mode_other := mode_other m |}
  else if tag e =? ACL_GROUP_OBJ then {| mode_owner := mode_owner m; mode_group := Some (permissions e); mode_mask := mode_mask m; mode_other := mode_other m |}
  else if tag e =? ACL_MASK then {| mode_owner := mode_owner m; mode_group := mode_group m; mode_mask := Some (permissions e); mode_other := mode_other m |}
  else if tag e =? ACL_OTHER then {| mode_owner := mode_owner m; mode_group := mode_group m; mode_mask := mode_mask m; mode_other := Some (permissions e) |}
  else m.
Definition access_acl_mode (value : bytes) : presult Z :=
  validate_acl value;;
  let m := foldl mode_entry {| mode_owner := None; mode_group := None; mode_mask := None; mode_other := None |} (acl_entries (drop 4 value)) in
  o ← expect (mode_owner m);
  g ← expect (match mode_mask m with Some x => Some x | None => mode_group m end);
  t ← expect (mode_other m);
  Ok (Z.lor (Z.lor (Z.land (Z.shiftl o 6) u16_max) (Z.land (Z.shiftl g 3) u16_max)) t).
Definition has_mask (value : bytes) : bool := existsb (λ e, tag e =? ACL_MASK) (acl_entries (drop 4 value)).
(** The permissions a mode gives to an entry *)
Definition mode_class (with_mask : bool) (mode : Z) (e : AclEntry) : option Z :=
  if tag e =? ACL_USER_OBJ then Some (Z.land (Z.shiftr mode 6) 7)
  else if tag e =? ACL_MASK then Some (Z.land (Z.shiftr mode 3) 7)
  else if (tag e =? ACL_GROUP_OBJ) && negb with_mask then Some (Z.land (Z.shiftr mode 3) 7)
  else if tag e =? ACL_OTHER then Some (Z.land mode 7)
  else None.
Definition masked_acl (value : bytes) (mode : Z) : presult bytes :=
  validate_acl value;;
  let with_mask := has_mask value in
  Ok (take 4 value ++ rewrite_entries (λ e, (λ requested, Z.land (permissions e) requested) <$> mode_class with_mask mode e) (drop 4 value)).
Definition rewrite_acl_mode (value : bytes) (mode : Z) : presult bytes :=
  validate_acl value;;
  Ok (take 4 value ++ rewrite_entries (mode_class (has_mask value) mode) (drop 4 value)).

(** ** Extended attributes *)
Record InodeMetadata := { file_flags : Z; xattrs : gmap bytes bytes; xattr_bytes : Z }.
Definition default_metadata : InodeMetadata := {| file_flags := 0; xattrs := ∅; xattr_bytes := 0 |}.
Definition validate_file_flags (flags : Z) : presult () := reject_if (negb (Z.land flags (Z.lnot SUPPORTED_FILE_FLAGS) =? 0)) Unsupported.
Definition starts_with (prefix name : bytes) : bool := bool_decide (take (length prefix) name = prefix).
Definition validate_name (name : bytes) : presult () :=
  reject_if (bool_decide (name = []) || bool_decide (x00 ∈ name)) InvalidArgument;;
  reject_if (MAXIMUM_XATTR_NAME_BYTES <? blen name) NameTooLong;;
  reject_if (negb (starts_with user_prefix name || starts_with trusted_prefix name || starts_with security_prefix name
                   || bool_decide (name = POSIX_ACL_ACCESS_XATTR) || bool_decide (name = POSIX_ACL_DEFAULT_XATTR))) Unsupported.
Definition validate_value (kind : FileKind) (name value : bytes) : presult () :=
  reject_if (MAXIMUM_XATTR_VALUE_BYTES <? blen value) TooBig;;
  reject_if (bool_decide (name = POSIX_ACL_DEFAULT_XATTR) && bool_decide (kind ≠ Directory)) PermissionDenied;;
  if bool_decide (name = POSIX_ACL_ACCESS_XATTR) || bool_decide (name = POSIX_ACL_DEFAULT_XATTR) then validate_acl value else Ok ().
(** The loop of [InodeMetadata::new] over attributes with checked names *)
Fixpoint add_xattrs (kind : FileKind) (m : InodeMetadata) (l : list (bytes * bytes)) : presult InodeMetadata :=
  match l with
  | [] => Ok m
  | (name, value) :: l =>
      validate_value kind name value;;
      added ← ok_or (checked_add usize_max (blen name) (blen value)) TooBig;
      total ← ok_or (checked_add usize_max (xattr_bytes m) added) TooBig;
      reject_if ((MAXIMUM_XATTR_BYTES_PER_INODE <? total) || bool_decide (is_Some (xattrs m !! name))) InvalidArgument;;
      add_xattrs kind {| file_flags := file_flags m; xattrs := <[name := value]> (xattrs m); xattr_bytes := total |} l
  end.
Definition metadata_new (kind : FileKind) (flags : Z) (l : list (bytes * bytes)) : presult InodeMetadata :=
  validate_file_flags flags;;
  m ← add_xattrs kind {| file_flags := flags; xattrs := ∅; xattr_bytes := 0 |} l;
  reject_if (MAXIMUM_XATTRS_PER_INODE <? Z.of_nat (size (xattrs m))) TooBig;;
  Ok m.
(** [ExtendedAttribute::new] *)
Definition attribute_new (kind : FileKind) (name value : bytes) : presult (bytes * bytes) :=
  validate_name name;;
  validate_value kind name value;;
  Ok (name, value).
Definition is_immutable (m : InodeMetadata) : bool := negb (Z.land (file_flags m) FS_IMMUTABLE_FL =? 0).
Definition get_xattr (m : InodeMetadata) (name : bytes) : presult bytes :=
  validate_name name;;
  ok_or (xattrs m !! name) NoData.
(** [BTreeMap::keys] *)
Definition xattr_names (m : InodeMetadata) : list bytes := sort_by_key (λ x, x) ((map_to_list (xattrs m)).*1).
Fixpoint names_length (total : Z) (l : list bytes) : presult Z :=
  match l with
  | [] => Ok total
  | name :: l =>
      total ← ok_or (checked_add usize_max total (blen name)) TooBig;
      total ← ok_or (checked_add usize_max total 1) TooBig;
      names_length total l
  end.
Definition list_xattrs (m : InodeMetadata) : presult bytes :=
  _ ← names_length 0 (xattr_names m);
  Ok (concat ((λ name, name ++ [x00]) <$> xattr_names m)).
Definition set_xattr (m : InodeMetadata) (kind : FileKind) (name value : bytes) (mode : XattrSetMode) : presult (InodeMetadata * option Z) :=
  validate_name name;;
  validate_value kind name value;;
  let present := bool_decide (is_Some (xattrs m !! name)) in
  match mode, present with
  | Create, true => Err Exists
  | Replace, false => Err NoData
  | _, _ => Ok ()
  end;;
  reject_if (negb present && (Z.of_nat (size (xattrs m)) =? MAXIMUM_XATTRS_PER_INODE)) TooBig;;
  previous ← match xattrs m !! name with Some stored => expect (checked_add usize_max (blen name) (blen stored)) | None => Ok 0 end;
  replacement ← ok_or (checked_add usize_max (blen name) (blen value)) TooBig;
  remaining ← ok_or (checked_sub (xattr_bytes m) previous) TooBig;
  next_bytes ← ok_or (checked_add usize_max remaining replacement) TooBig;
  reject_if (MAXIMUM_XATTR_BYTES_PER_INODE <? next_bytes) TooBig;;
  let m := {| file_flags := file_flags m; xattrs := <[name := value]> (xattrs m); xattr_bytes := next_bytes |} in
  if bool_decide (name = POSIX_ACL_ACCESS_XATTR) then mode ← access_acl_mode value; Ok (m, Some mode) else Ok (m, None).
Definition remove_xattr (m : InodeMetadata) (name : bytes) : presult InodeMetadata :=
  validate_name name;;
  value ← ok_or (xattrs m !! name) NoData;
  removed ← expect (checked_add usize_max (blen name) (blen value));
  total ← expect (checked_sub (xattr_bytes m) removed);
  Ok {| file_flags := file_flags m; xattrs := delete name (xattrs m); xattr_bytes := total |}.
Definition set_file_flags (m : InodeMetadata) (flags : Z) : presult InodeMetadata :=
  validate_file_flags flags;;
  Ok {| file_flags := flags; xattrs := xattrs m; xattr_bytes := xattr_bytes m |}.
Definition chmod (m : InodeMetadata) (requested_mode : Z) : presult (InodeMetadata * Z) :=
  match xattrs m !! POSIX_ACL_ACCESS_XATTR with
  | None => Ok (m, Z.land requested_mode 0xFFF)
  | Some access_acl =>
      acl ← rewrite_acl_mode access_acl requested_mode;
      Ok ({| file_flags := file_flags m; xattrs := <[POSIX_ACL_ACCESS_XATTR := acl]> (xattrs m); xattr_bytes := xattr_bytes m |}, Z.land requested_mode 0xFFF)
  end.
Definition for_child (m : InodeMetadata) (kind : FileKind) (requested_mode umask : Z) : presult (Z * InodeMetadata) :=
  match xattrs m !! POSIX_ACL_DEFAULT_XATTR with
  | None => Ok (Z.land (Z.land requested_mode (Z.lnot umask)) 0xFFF, default_metadata)
  | Some default_acl =>
      access_acl ← masked_acl default_acl requested_mode;
      access_mode ← access_acl_mode access_acl;
      let mode := Z.lor (Z.land requested_mode (Z.lnot 0x1FF)) access_mode in
      r ← set_xattr default_metadata kind POSIX_ACL_ACCESS_XATTR access_acl Create;
      let metadata := r.1 in
      metadata ← (if decide (kind = Directory) then r ← set_xattr metadata kind POSIX_ACL_DEFAULT_XATTR default_acl Create; Ok r.1 else Ok metadata);
      Ok (Z.land mode 0xFFF, metadata)
  end.
End InodeMetadata.
