(* ===== verification/InodeAttributes.v ===== *)
(** * Attributes of an inode

    Two modules: lemmas on access control lists and extended attributes, and the
    theorems on accounting, inheritance and modes. *)
From S2P Require Export InodeMetadata.

(** ** Lemmas on access control lists and extended attributes *)
Module InodeMetadataOps.
Import SparseData InodeMetadata.
Implicit Types (e : AclEntry) (l : list AclEntry).

(** ** Entries of a value *)
Lemma chunk8_ind (P : bytes → Prop) : (∀ b, length b < 8 → P b)%nat →
  (∀ b0 b1 b2 b3 b4 b5 b6 b7 rest, P rest → P (b0 :: b1 :: b2 :: b3 :: b4 :: b5 :: b6 :: b7 :: rest)) → ∀ b, P b.
Proof.
  intros Hshort Hcons b. remember (length b) as n eqn:Hn. revert b Hn. induction n as [n IH] using lt_wf_ind. intros b Hn.
  do 8 (destruct b as [|? b]; [apply Hshort; cbn; lia|]). apply Hcons. eapply IH; [|done]. cbn in Hn. lia.
Qed.
Lemma short_entries b : (length b < 8)%nat → acl_entries b = [].
Proof. intros Hb. do 8 (destruct b as [|? b]; [done|]). cbn in Hb. lia. Qed.
Lemma short_rewrite new b : (length b < 8)%nat → rewrite_entries new b = b.
Proof. intros Hb. do 8 (destruct b as [|? b]; [done|]). cbn in Hb. lia. Qed.
Definition set_permissions (new : AclEntry → option Z) e : AclEntry :=
  {| tag := tag e; permissions := default (permissions e) (new e); entry_id := entry_id e |}.
Lemma rewrite_length new b : length (rewrite_entries new b) = length b.
Proof.
  induction b as [b Hb|b0 b1 b2 b3 b4 b5 b6 b7 rest IH] using chunk8_ind; [by rewrite short_rewrite|]. cbn [rewrite_entries].
  set (e := {| tag := _ |}). rewrite !length_app, IH. destruct (new e); rewrite ?length_le_bytes; cbn; lia.
Qed.
Lemma rewrite_spec new b : (∀ e p, new e = Some p → 0 ≤ p < 65536) →
  acl_entries (rewrite_entries new b) = set_permissions new <$> acl_entries b.
Proof.
  intros Hnew. induction b as [b Hb|b0 b1 b2 b3 b4 b5 b6 b7 rest IH] using chunk8_ind; [by rewrite short_rewrite, short_entries|].
  cbn [rewrite_entries acl_entries]. set (e := {| tag := _ |}). rewrite fmap_cons, <-IH. unfold set_permissions. destruct (new e) as [p|] eqn:Hp.
  - destruct (le_bytes 2 p) as [|c0 [|c1 [|]]] eqn:Hc; [by apply (f_equal length) in Hc; rewrite length_le_bytes in Hc..| |by apply (f_equal length) in Hc; rewrite length_le_bytes in Hc].
    cbn [app acl_entries default]. f_equal. unfold e. cbn [tag entry_id]. f_equal. rewrite <-Hc. apply le_val_bytes. specialize (Hnew e p Hp). cbn. lia.
  - cbn [app acl_entries default]. done.
Qed.
(** ** The order of the entries *)
Definition acl_order e : option (Z * Z) :=
  if (tag e =? ACL_USER_OBJ) && (entry_id e =? ACL_UNDEFINED_ID) then Some (0, 0)
  else if (tag e =? ACL_USER) && negb (entry_id e =? ACL_UNDEFINED_ID) then Some (1, entry_id e)
  else if (tag e =? ACL_GROUP_OBJ) && (entry_id e =? ACL_UNDEFINED_ID) then Some (2, 0)
  else if (tag e =? ACL_GROUP) && negb (entry_id e =? ACL_UNDEFINED_ID) then Some (3, entry_id e)
  else if (tag e =? ACL_MASK) && (entry_id e =? ACL_UNDEFINED_ID) then Some (4, 0)
  else if (tag e =? ACL_OTHER) && (entry_id e =? ACL_UNDEFINED_ID) then Some (5, 0)
  else None.
Definition seen (s : AclScan) (k : Z * Z) : Prop :=
  k = (0, 0) ∧ is_Some (user_obj s) ∨ k.1 = 1 ∧ is_Some (named_users s !! k.2) ∨ k = (2, 0) ∧ is_Some (group_obj s) ∨
  k.1 = 3 ∧ is_Some (named_groups s !! k.2) ∨ k = (4, 0) ∧ is_Some (mask s) ∨ k = (5, 0) ∧ is_Some (other s).
Definition bounded (s : AclScan) : Prop := ∀ k, seen s k → match previous_order s with Some p => k ≤o p | None => False end.
Definition follows (s : AclScan) (k : Z * Z) : Prop := match previous_order s with Some p => p <o k | None => True end.
Lemma scan_next_spec s k (dup : bool) s' : bounded s → (dup = true ↔ seen s k) →
  (follows s k → ∃ s1, scan_next s k dup s' = Ok s1 ∧ previous_order s1 = Some k ∧ (∀ k', seen s1 k' ↔ seen s' k')) ∧
  (¬ follows s k → scan_next s k dup s' = Err InvalidArgument).
Proof.
  intros Hb Hd. unfold scan_next, follows. rewrite reject_Err. split.
  - intros Hf. assert (dup = false) as ->.
    { destruct dup; [|done]. assert (Hs : seen s k) by by apply Hd. specialize (Hb k Hs). destruct (previous_order s) as [p|]; [|done].
      exfalso. apply (olt_irrefl k). eapply ole_olt_trans; done. }
    cbn [orb]. destruct (previous_order s) as [p|]; [rewrite bool_decide_true by done|]; cbn [negb]; eexists; done.
  - intros Hf. destruct (previous_order s) as [p|]; [|by destruct Hf]. rewrite bool_decide_false by done. cbn [negb]. by rewrite orb_true_r.
Qed.
Lemma scan_entry_spec s e : bounded s →
  match acl_order e with
  | Some k =>
      (Z.land (permissions e) (Z.lnot 7) = 0 → follows s k →
        ∃ s', scan_entry s e = Ok s' ∧ previous_order s' = Some k ∧ (∀ k', seen s' k' ↔ seen s k' ∨ k' = k)) ∧
      (¬ (Z.land (permissions e) (Z.lnot 7) = 0 ∧ follows s k) → scan_entry s e = Err InvalidArgument)
  | None => scan_entry s e = Err InvalidArgument
  end.
Proof.
  intros Hb. destruct e as [t p i]. unfold acl_order, scan_entry. cbn [tag entry_id permissions]. rewrite reject_Err.
  destruct (Z.eqb_spec (Z.land p (Z.lnot 7)) 0) as [Hp|Hp]; cbn [negb]; [|by repeat (destruct (_ && _); [split; naive_solver|])].
  repeat (destruct (_ && _); [
    match goal with |- context [scan_next s ?k ?dup ?s'] => 
      destruct (scan_next_spec s k dup s' Hb) as [Hok Hno]; [rewrite bool_decide_eq_true; unfold seen; cbn [fst snd]; naive_solver|] end;
    split; [intros _ (s1&?&?&Hseen)%Hok; exists s1; split_and!; [done|done|]; intros [k1 k2]; rewrite Hseen; unfold seen; 
        cbn [user_obj group_obj mask other named_users named_groups fst snd]; rewrite ?lookup_insert_is_Some'; naive_solver
      |intros Hn; apply Hno; naive_solver]|]).
  done.
Qed.
Fixpoint chain (previous : option (Z * Z)) l : Prop :=
  match l with
  | [] => True
  | e :: l => ∃ k, acl_order e = Some k ∧ Z.land (permissions e) (Z.lnot 7) = 0 ∧ match previous with Some p => p <o k | None => True end ∧ chain (Some k) l
  end.
Definition has (k : Z * Z) l : Prop := ∃ e, e ∈ l ∧ acl_order e = Some k.
Lemma has_cons k e l : has k (e :: l) ↔ acl_order e = Some k ∨ has k l.
Proof. unfold has. setoid_rewrite elem_of_cons. naive_solver. Qed.
Lemma scan_entries_spec s l : bounded s →
  (∃ s', scan_entries s l = Ok s' ∧ chain (previous_order s) l ∧ ∀ k, seen s' k ↔ seen s k ∨ has k l) ∨
  (scan_entries s l = Err InvalidArgument ∧ ¬ chain (previous_order s) l).
Proof.
  revert s. induction l as [|e l IH]; intros s Hb; cbn [scan_entries chain].
  { left. exists s. split_and!; [done|done|]. intros k. unfold has. setoid_rewrite elem_of_nil. naive_solver. }
  pose proof (scan_entry_spec s e Hb) as He. destruct (acl_order e) as [k|] eqn:Hk; [|right; rewrite He; naive_solver]. destruct He as [Hok Hno].
  destruct (decide (Z.land (permissions e) (Z.lnot 7) = 0)) as [Hp|Hp]; [|right; rewrite Hno; naive_solver].
  assert (Hf : follows s k ∨ ¬ follows s k) by (unfold follows; destruct (previous_order s) as [p|]; [destruct (decide (p <o k)); auto|by left]).
  destruct Hf as [Hf|Hf]; [|right; rewrite Hno by naive_solver; split; [done|]; unfold follows in Hf; naive_solver].
  destruct (Hok Hp Hf) as (s1&->&Hprev&Hseen). rewrite Ok_bind. destruct (IH s1) as [(s'&Hs'&Hc&Hall)|[Hs' Hc]].
  - intros k' [Hs1| ->]%Hseen; rewrite Hprev; [|apply ole_iff; by right]. specialize (Hb k' Hs1). unfold follows in Hf. destruct (previous_order s); [|done].
    apply ole_iff. left. by eapply ole_olt_trans.
  - left. exists s'. rewrite Hprev in Hc. split_and!; [done|by exists k|]. intros k'. rewrite Hall, Hseen, has_cons. naive_solver.
  - right. rewrite Hprev in Hc. split; [done|]. naive_solver.
Qed.
(** What a valid value holds *)
Record acl_valid (value : bytes) : Prop := {
  av_length : 4 ≤ blen value ∧ (blen value - 4) mod 8 = 0;
  av_version : le_val (take 4 value) = POSIX_ACL_XATTR_VERSION;
  av_chain : chain None (acl_entries (drop 4 value));
  av_required : has (0, 0) (acl_entries (drop 4 value)) ∧ has (2, 0) (acl_entries (drop 4 value)) ∧ has (5, 0) (acl_entries (drop 4 value));
  av_named i : has (1, i) (acl_entries (drop 4 value)) ∨ has (3, i) (acl_entries (drop 4 value)) → has (4, 0) (acl_entries (drop 4 value));
}.
Lemma scan_complete_spec s : scan_complete s = Ok () ∧ (seen s (0, 0) ∧ seen s (2, 0) ∧ seen s (5, 0)) ∧ (∀ i, seen s (1, i) ∨ seen s (3, i) → seen s (4, 0)) ∨
  scan_complete s = Err InvalidArgument ∧ ¬ ((seen s (0, 0) ∧ seen s (2, 0) ∧ seen s (5, 0)) ∧ (∀ i, seen s (1, i) ∨ seen s (3, i) → seen s (4, 0))).
Proof.
  assert (H0 : seen s (0, 0) ↔ user_obj s ≠ None) by (rewrite not_eq_None_Some; unfold seen; naive_solver).
  assert (H2 : seen s (2, 0) ↔ group_obj s ≠ None) by (rewrite not_eq_None_Some; unfold seen; naive_solver).
  assert (H5 : seen s (5, 0) ↔ other s ≠ None) by (rewrite not_eq_None_Some; unfold seen; naive_solver).
  assert (H4 : seen s (4, 0) ↔ mask s ≠ None) by (rewrite not_eq_None_Some; unfold seen; naive_solver).
  assert (Hn : ∀ i, seen s (1, i) ∨ seen s (3, i) ↔ is_Some (named_users s !! i) ∨ is_Some (named_groups s !! i)) by (intros i; unfold seen; cbn [fst snd]; naive_solver).
  unfold scan_complete. rewrite H0, H2, H5. setoid_rewrite H4. setoid_rewrite Hn. rewrite reject_Err.
  destruct (bool_decide_reflect (user_obj s = None)); [right; naive_solver|]. destruct (bool_decide_reflect (group_obj s = None)); [right; naive_solver|].
  destruct (bool_decide_reflect (other s = None)); [right; naive_solver|]. cbn [orb].
  destruct (bool_decide_reflect (mask s = None)) as [Hm|Hm]; [|left; rewrite andb_false_r; naive_solver]. rewrite andb_true_r.
  destruct (bool_decide_reflect (named_users s = ∅)) as [Hu|Hu]; cbn [negb orb reject_if].
  - destruct (bool_decide_reflect (named_groups s = ∅)) as [Hg|Hg]; cbn [negb reject_if].
    + left. rewrite Hu, Hg. split_and!; try done. intros i. rewrite !lookup_empty. by intros [[]|[]].
    + right. apply map_choose in Hg as (i&x&Hg). split; [done|]. intros [_ Hall]. apply (Hall i); eauto.
  - right. apply map_choose in Hu as (i&x&Hu). split; [done|]. intros [_ Hall]. apply (Hall i); eauto.
Qed.
(** The validation accepts exactly the lists in canonical order with the
    required entries. *)
Lemma validate_acl_iff value : validate_acl value = Ok () ∧ acl_valid value ∨ validate_acl value = Err InvalidArgument ∧ ¬ acl_valid value.
Proof.
  unfold validate_acl. rewrite !reject_Err. destruct (Z.ltb_spec (blen value) 4); cbn [orb]; [right; split; [done|]; intros []; lia|].
  destruct (Z.eqb_spec ((blen value - 4) mod 8) 0) as [Hm|]; cbn [negb]; [|right; split; [done|]; intros []; lia].
  destruct (Z.eqb_spec (le_val (take 4 value)) POSIX_ACL_XATTR_VERSION); cbn [negb]; [|right; split; [done|]; by intros []].
  assert (Hnone : ∀ k, ¬ seen scan_start k) by (intros k; unfold seen; cbn [scan_start user_obj group_obj mask other named_users named_groups]; rewrite !lookup_empty, !is_Some_alt; naive_solver).
  destruct (scan_entries_spec scan_start (acl_entries (drop 4 value))) as [(s&->&Hc&Hs)|[-> Hc]]; [by intros k ?%Hnone| |right; split; [done|]; by intros []].
  rewrite Ok_bind. assert (Hs' : ∀ k, seen s k ↔ has k (acl_entries (drop 4 value))) by (intros k; rewrite Hs; specialize (Hnone k); naive_solver).
  pose proof (scan_complete_spec s) as Hfin. rewrite !Hs' in Hfin. setoid_rewrite Hs' in Hfin.
  destruct Hfin as [(->&Hreq&Hnamed)|[-> Hno]]; [left|right]; (split; [done|]); [by split|]. intros []. apply Hno. by split.
Qed.

(** ** Rewritten values *)
Lemma low_bits p : Z.land p (Z.lnot 7) = 0 → 0 ≤ p < 8.
Proof. intros Hp. rewrite <-Z.ldiff_land in Hp. apply Z.ldiff_le in Hp; [|lia]. lia. Qed.
Lemma low_bits_ok p : 0 ≤ p < 8 → Z.land p (Z.lnot 7) = 0.
Proof. intros Hp. rewrite <-Z.ldiff_land. change 7 with (Z.ones 3). apply Z.ldiff_ones_r_low; [lia|]. destruct (decide (p = 0)) as [->|]; [done|]. apply Z.log2_lt_pow2; lia. Qed.
Lemma order_set new e : acl_order (set_permissions new e) = acl_order e.
Proof. done. Qed.
Lemma has_set new k l : has k (set_permissions new <$> l) ↔ has k l.
Proof.
  unfold has. split.
  - intros (?&(e&->&He)%list_elem_of_fmap&Hk). by exists e.
  - intros (e&He&Hk). exists (set_permissions new e). split; [by apply list_elem_of_fmap_2|done].
Qed.
Lemma chain_set new prev l : (∀ e, e ∈ l → Z.land (permissions e) (Z.lnot 7) = 0 → 0 ≤ default (permissions e) (new e) < 8) →
  chain prev l → chain prev (set_permissions new <$> l).
Proof.
  revert prev. induction l as [|e l IH]; intros prev Hnew; [done|]. cbn [chain fmap list_fmap]. intros (k&Hk&Hp&Hprev&Hc). exists k.
  split_and!; [done|apply low_bits_ok, Hnew; [by left|done]|done|]. apply IH; [|done]. intros e' He'. apply Hnew. by right.
Qed.
Definition rewritten (value : bytes) (new : AclEntry → option Z) : bytes := take 4 value ++ rewrite_entries new (drop 4 value).
Lemma rewritten_parts value new : acl_valid value → (∀ e p, new e = Some p → 0 ≤ p < 8) →
  blen (rewritten value new) = blen value ∧ take 4 (rewritten value new) = take 4 value ∧
  acl_entries (drop 4 (rewritten value new)) = set_permissions new <$> acl_entries (drop 4 value).
Proof.
  intros [[Hlen _] _ _ _ _] Hnew. change (blen value) with (Z.of_nat (length value)) in Hlen.
  change (blen ?x) with (Z.of_nat (length x)). unfold rewritten. assert (Ht : length (take 4 value) = 4%nat) by (rewrite length_take; lia). split_and!.
  - rewrite length_app, rewrite_length, length_drop, Ht. lia.
  - rewrite <-Ht at 1. by rewrite take_app_length.
  - rewrite <-Ht at 1. rewrite drop_app_length. apply rewrite_spec. intros e p Hp%Hnew. lia.
Qed.
Lemma rewritten_valid value new : acl_valid value → (∀ e p, new e = Some p → 0 ≤ p < 8) → acl_valid (rewritten value new).
Proof.
  intros Hv Hnew. destruct (rewritten_parts value new Hv Hnew) as (Hl&Ht&He). destruct Hv as [H1 H2 H3 H4 H5].
  split; rewrite ?Hl, ?Ht, ?He; [done|done| |by rewrite !has_set|intros i; by rewrite !has_set; apply H5].
  apply chain_set; [|done]. intros e _ Hp%low_bits. destruct (new e) as [p|] eqn:Hn; cbn [default]; [by apply (Hnew e)|done].
Qed.

(** ** The mode of a list *)
Fixpoint pick (t : Z) l : option Z :=
  match l with [] => None | e :: l => match pick t l with Some p => Some p | None => if tag e =? t then Some (permissions e) else None end end.
Definition or_else (a b : option Z) : option Z := match a with Some x => Some x | None => b end.
Lemma mode_fold m l : foldl mode_entry m l =
  {| mode_owner := or_else (pick ACL_USER_OBJ l) (mode_owner m); mode_group := or_else (pick ACL_GROUP_OBJ l) (mode_group m);
     mode_mask := or_else (pick ACL_MASK l) (mode_mask m); mode_other := or_else (pick ACL_OTHER l) (mode_other m) |}.
Proof.
  revert m. induction l as [|e l IH]; intros m; [by destruct m|]. cbn [foldl pick]. rewrite IH. unfold mode_entry.
  destruct (Z.eqb_spec (tag e) ACL_USER_OBJ) as [Ht|]; [rewrite !Ht; cbn; by repeat case_match|].
  destruct (Z.eqb_spec (tag e) ACL_GROUP_OBJ) as [Ht|]; [rewrite !Ht; cbn; by repeat case_match|].
  destruct (Z.eqb_spec (tag e) ACL_MASK) as [Ht|]; [rewrite !Ht; cbn; by repeat case_match|].
  destruct (Z.eqb_spec (tag e) ACL_OTHER) as [Ht|]; cbn; by repeat case_match.
Qed.
Lemma pick_set new t l f : (∀ e, tag e = t → default (permissions e) (new e) = f (permissions e)) → pick t (set_permissions new <$> l) = f <$> pick t l.
Proof.
  intros Hf. induction l as [|e l IH]; [done|]. cbn [fmap list_fmap pick]. rewrite IH. destruct (pick t l); [done|]. cbn [fmap option_fmap option_map set_permissions tag].
  destruct (Z.eqb_spec (tag e) t); [|done]. change (Some (default (permissions e) (new e)) = Some (f (permissions e))). by rewrite Hf.
Qed.
Lemma pick_low t l prev p : chain prev l → pick t l = Some p → 0 ≤ p < 8.
Proof.
  revert prev. induction l as [|e l IH]; intros prev; [done|]. cbn [chain pick]. intros (k&_&Hp%low_bits&_&Hc). destruct (pick t l) as [q|]; [intros [= ->]; by eapply IH|].
  destruct (tag e =? t); [|done]. by intros [= <-].
Qed.
Lemma pick_has t k l : (∀ e, acl_order e = Some k → tag e = t) → has k l → is_Some (pick t l).
Proof.
  intros Ht (e&He&Hk). induction l as [|e' l IH]; [by apply not_elem_of_nil in He|]. cbn [pick]. apply elem_of_cons in He as [<-|He].
  - destruct (pick t l); [by eexists|]. rewrite (Ht e Hk), Z.eqb_refl. by eexists.
  - destruct (IH He) as [p ->]. by eexists.
Qed.
Lemma order_tag e k : acl_order e = Some k →
  tag e = match k.1 with 0 => ACL_USER_OBJ | 1 => ACL_USER | 2 => ACL_GROUP_OBJ | 3 => ACL_GROUP | 4 => ACL_MASK | _ => ACL_OTHER end.
Proof. unfold acl_order. repeat (destruct (andb _ _) eqn:Hb; [apply andb_true_iff in Hb as [Hb _]; apply Z.eqb_eq in Hb; intros [= <-]; exact Hb|clear Hb]). done. Qed.
Definition classes (o g t : Z) : Z := Z.lor (Z.lor (Z.shiftl o 6) (Z.shiftl g 3)) t.
Definition class_mode l : Z :=
  classes (default 0 (pick ACL_USER_OBJ l)) (default 0 (or_else (pick ACL_MASK l) (pick ACL_GROUP_OBJ l))) (default 0 (pick ACL_OTHER l)).
Lemma low_testbit p n : 0 ≤ p < 8 → 3 ≤ n → Z.testbit p n = false.
Proof. intros Hp Hn. rewrite <-(Z.mod_small p (2 ^ 3)) by lia. apply Z.mod_pow2_bits_high. lia. Qed.
Lemma seven_testbit n : 0 ≤ n → Z.testbit 7 n = (n <? 3).
Proof. intros Hn. change 7 with (Z.ones 3). apply Z.testbit_ones_nonneg; lia. Qed.
Lemma classes_mode mode : classes (Z.land (Z.shiftr mode 6) 7) (Z.land (Z.shiftr mode 3) 7) (Z.land mode 7) = Z.land mode 0x1FF.
Proof.
  apply Z.bits_inj'. intros n Hn. unfold classes. rewrite !Z.lor_spec, !Z.shiftl_spec, !Z.land_spec by done. change 0x1FF with (Z.ones 9).
  rewrite (Z.testbit_ones_nonneg 9 n), (seven_testbit n) by lia.
  destruct (Z.lt_ge_cases n 3); [rewrite !(Z.testbit_neg_r _ (n - 6)), !(Z.testbit_neg_r _ (n - 3)) by lia; rewrite (proj2 (Z.ltb_lt n 3)), (proj2 (Z.ltb_lt n 9)) by lia; done|].
  destruct (Z.lt_ge_cases n 6).
  - rewrite !(Z.testbit_neg_r _ (n - 6)), (Z.shiftr_spec _ 3), (seven_testbit (n - 3)) by lia. replace (n - 3 + 3) with n by lia.
    rewrite (proj2 (Z.ltb_lt (n - 3) 3)), (proj2 (Z.ltb_ge n 3)), (proj2 (Z.ltb_lt n 9)) by lia. cbn [orb andb]. by rewrite ?andb_true_r, ?andb_false_r, ?orb_false_r.
  - rewrite !Z.shiftr_spec, (seven_testbit (n - 3)), (seven_testbit (n - 6)) by lia. replace (n - 3 + 3) with n by lia. replace (n - 6 + 6) with n by lia.
    rewrite (proj2 (Z.ltb_ge (n - 3) 3)), (proj2 (Z.ltb_ge n 3)) by lia. rewrite ?andb_false_r, ?orb_false_r. f_equal. destruct (Z.ltb_spec (n - 6) 3), (Z.ltb_spec n 9); (done || lia).
Qed.
Lemma classes_masked o g t mode : 0 ≤ o < 8 → 0 ≤ g < 8 → 0 ≤ t < 8 →
  classes (Z.land o (Z.land (Z.shiftr mode 6) 7)) (Z.land g (Z.land (Z.shiftr mode 3) 7)) (Z.land t (Z.land mode 7)) = Z.land (classes o g t) mode.
Proof.
  intros Ho Hg Ht. apply Z.bits_inj'. intros n Hn. unfold classes. rewrite !Z.land_spec, !Z.lor_spec, !Z.shiftl_spec, !Z.land_spec, (seven_testbit n) by done.
  destruct (Z.lt_ge_cases n 3); [rewrite !(Z.testbit_neg_r _ (n - 6)), !(Z.testbit_neg_r _ (n - 3)) by lia; rewrite (proj2 (Z.ltb_lt n 3)) by lia; by rewrite andb_true_r|].
  rewrite (low_testbit t n), (proj2 (Z.ltb_ge n 3)) by lia. destruct (Z.lt_ge_cases n 6).
  - rewrite !(Z.testbit_neg_r _ (n - 6)), (Z.shiftr_spec _ 3), (seven_testbit (n - 3)) by lia. replace (n - 3 + 3) with n by lia.
    rewrite (proj2 (Z.ltb_lt (n - 3) 3)) by lia. cbn [orb andb]. by rewrite ?andb_true_r, ?andb_false_r, ?orb_false_r.
  - rewrite (low_testbit g (n - 3)), (Z.shiftr_spec _ 6), (seven_testbit (n - 6)) by lia. replace (n - 6 + 6) with n by lia. cbn [andb]. rewrite !orb_false_r.
    destruct (Z.ltb_spec (n - 6) 3); [by rewrite andb_true_r|]. by rewrite (low_testbit o (n - 6)) by lia.
Qed.
Lemma valid_picks value : acl_valid value → let l := acl_entries (drop 4 value) in
  is_Some (pick ACL_USER_OBJ l) ∧ is_Some (pick ACL_GROUP_OBJ l) ∧ is_Some (pick ACL_OTHER l).
Proof.
  intros Hv l. destruct (av_required _ Hv) as (H0&H2&H5).
  split_and!; [eapply pick_has, H0|eapply pick_has, H2|eapply pick_has, H5]; intros e Hk; apply (order_tag _ _ Hk).
Qed.
Lemma access_mode_spec value : acl_valid value → access_acl_mode value = Ok (class_mode (acl_entries (drop 4 value))).
Proof.
  intros Hv. unfold access_acl_mode. destruct (validate_acl_iff value) as [[-> _]|[_ []]]; [|done]. rewrite Ok_bind, mode_fold. cbn [mode_owner mode_group mode_mask mode_other].
  destruct (valid_picks value Hv) as ([o Ho]&[g Hg]&[t Ht]). set (l := acl_entries (drop 4 value)) in *. pose proof (pick_low ACL_USER_OBJ l None o (av_chain _ Hv) Ho).
  unfold class_mode. rewrite Ho, Hg, Ht. cbn [or_else expect default]. rewrite Ok_bind.
  assert (Hc : ∃ c, or_else (pick ACL_MASK l) (Some g) = Some c ∧ 0 ≤ c < 8).
  { destruct (pick ACL_MASK l) as [c|] eqn:Hm; eexists; (split; [done|]); [by apply (pick_low ACL_MASK l None c (av_chain _ Hv))|by apply (pick_low ACL_GROUP_OBJ l None g (av_chain _ Hv))]. }
  destruct Hc as (c&Hc&Hcl). replace (match or_else (pick ACL_MASK l) None with Some x => Some x | None => Some g end) with (Some c) by (rewrite <-Hc; by destruct (pick ACL_MASK l)).
  rewrite Hc. cbn [expect default]. rewrite !Ok_bind. change u16_max with (Z.ones 16). rewrite !Z.land_ones, !Z.shiftl_mul_pow2 by lia.
  rewrite !Z.mod_small by lia. unfold classes. by rewrite !Z.shiftl_mul_pow2 by lia.
Qed.
Lemma has_mask_pick value : has_mask value = bool_decide (is_Some (pick ACL_MASK (acl_entries (drop 4 value)))).
Proof.
  unfold has_mask. induction (acl_entries (drop 4 value)) as [|e l IH]; [done|]. cbn [existsb pick]. rewrite IH. destruct (pick ACL_MASK l); cbn.
  - by rewrite orb_true_r.
  - rewrite orb_false_r. by destruct (tag e =? ACL_MASK).
Qed.
Lemma land7 x : 0 ≤ Z.land x 7 < 8.
Proof. change 7 with (Z.ones 3). rewrite Z.land_ones by lia. apply Z.mod_pos_bound. lia. Qed.
Lemma mode_class_low with_mask mode e p : mode_class with_mask mode e = Some p → 0 ≤ p < 8.
Proof. unfold mode_class. repeat case_match; intros [= <-]; apply land7. Qed.
(** Picking an entry after a rewrite that depends on the class *)
Lemma picks_set value mode (f : Z → Z → Z) : acl_valid value → let l := acl_entries (drop 4 value) in
  let new e := f (permissions e) <$> mode_class (has_mask value) mode e in
  class_mode (set_permissions new <$> l) =
    classes (f (default 0 (pick ACL_USER_OBJ l)) (Z.land (Z.shiftr mode 6) 7))
      (f (default 0 (or_else (pick ACL_MASK l) (pick ACL_GROUP_OBJ l))) (Z.land (Z.shiftr mode 3) 7)) (f (default 0 (pick ACL_OTHER l)) (Z.land mode 7)).
Proof.
  intros Hv l new. destruct (valid_picks value Hv) as ([o Ho]&[g Hg]&[t Ht]). fold l in Ho, Hg, Ht. unfold class_mode.
  rewrite (pick_set new ACL_USER_OBJ l (λ p, f p (Z.land (Z.shiftr mode 6) 7))) by (intros e He; unfold new, mode_class; by rewrite He).
  rewrite (pick_set new ACL_OTHER l (λ p, f p (Z.land mode 7))) by (intros e He; unfold new, mode_class; by rewrite He).
  rewrite (pick_set new ACL_MASK l (λ p, f p (Z.land (Z.shiftr mode 3) 7))) by (intros e He; unfold new, mode_class; by rewrite He).
  rewrite Ho, Ht. destruct (pick ACL_MASK l) as [m|] eqn:Hm; cbn [or_else fmap option_fmap option_map default]; [done|].
  rewrite (pick_set new ACL_GROUP_OBJ l (λ p, f p (Z.land (Z.shiftr mode 3) 7))), Hg; [done|].
  intros e He. unfold new, mode_class. rewrite He, has_mask_pick. fold l. by rewrite Hm.
Qed.
Lemma rewrite_mode_spec value mode : acl_valid value → ∃ acl, rewrite_acl_mode value mode = Ok acl ∧ acl_valid acl ∧ blen acl = blen value ∧
  access_acl_mode acl = Ok (Z.land mode 0x1FF).
Proof.
  intros Hv. unfold rewrite_acl_mode. destruct (validate_acl_iff value) as [[-> _]|[_ []]]; [|done]. rewrite Ok_bind. eexists. split; [done|].
  set (new := mode_class (has_mask value) mode). fold (rewritten value new). assert (Hlow : ∀ e p, new e = Some p → 0 ≤ p < 8) by apply mode_class_low.
  pose proof (rewritten_valid value new Hv Hlow) as Hv'. destruct (rewritten_parts value new Hv Hlow) as (Hl&_&He). split_and!; [done|done|].
  rewrite access_mode_spec, He by done. f_equal. rewrite <-(classes_mode mode). pose proof (picks_set value mode (λ _ x, x) Hv) as Hp. cbv zeta beta in Hp.
  rewrite <-Hp. f_equal. apply list_fmap_ext. intros _ e _. unfold set_permissions. f_equal. unfold new. by destruct (mode_class _ _ _).
Qed.
Lemma masked_acl_spec value mode : acl_valid value → ∃ acl m, masked_acl value mode = Ok acl ∧ acl_valid acl ∧ blen acl = blen value ∧
  access_acl_mode value = Ok m ∧ access_acl_mode acl = Ok (Z.land m mode).
Proof.
  intros Hv. unfold masked_acl. destruct (validate_acl_iff value) as [[-> _]|[_ []]]; [|done]. rewrite Ok_bind. eexists _, _. split; [done|].
  set (new := λ e, _). fold (rewritten value new). assert (Hlow : ∀ e p, new e = Some p → 0 ≤ p < 8).
  { intros e p. unfold new. destruct (mode_class (has_mask value) mode e) as [q|] eqn:Hq; [|done]. intros [= <-]. apply mode_class_low in Hq.
    apply low_bits. rewrite <-Z.land_assoc, (low_bits_ok q Hq). apply Z.land_0_r. }
  pose proof (rewritten_valid value new Hv Hlow) as Hv'. destruct (rewritten_parts value new Hv Hlow) as (Hl&_&He). split; [done|]. split; [done|].
  split; [by apply access_mode_spec|]. rewrite access_mode_spec, He by done. f_equal. set (l := acl_entries (drop 4 value)).
  etrans; [apply (picks_set value mode Z.land Hv)|]. fold l. unfold class_mode. destruct (valid_picks value Hv) as ([o Ho]&[g Hg]&[t Ht]). fold l in Ho, Hg, Ht.
  rewrite Ho, Hg, Ht. pose proof (λ t p, pick_low t l None p (av_chain _ Hv)) as Hpl. apply classes_masked; cbn [default]; [by eapply Hpl| |by eapply Hpl].
  destruct (pick ACL_MASK l) eqn:Hm; cbn [or_else default]; by eapply Hpl.
Qed.
End InodeMetadataOps.

(** ** Extended attributes of an inode

    The accounting of the attributes, inheritance of access control lists and
    changes of the mode. *)
Module InodeAttributes.
Import SparseData InodeMetadata InodeMetadataOps.
Implicit Types (m : InodeMetadata).

Definition attribute_bytes (name value : bytes) : Z := blen name + blen value.
Record metadata_wf (kind : FileKind) m : Prop := {
  mw_flags : Z.land (file_flags m) (Z.lnot SUPPORTED_FILE_FLAGS) = 0;
  mw_valid name value : xattrs m !! name = Some value → validate_name name = Ok () ∧ validate_value kind name value = Ok ();
  mw_bytes : xattr_bytes m = msum attribute_bytes (xattrs m);
  mw_max : xattr_bytes m ≤ MAXIMUM_XATTR_BYTES_PER_INODE;
  mw_count : Z.of_nat (size (xattrs m)) ≤ MAXIMUM_XATTRS_PER_INODE;
}.
(** Attributes one by one *)
Lemma attribute_bytes_nonneg name value : 0 ≤ attribute_bytes name value.
Proof. unfold attribute_bytes. pose proof (blen_nonneg name). pose proof (blen_nonneg value). lia. Qed.
Lemma validate_name_bound name : validate_name name = Ok () → blen name ≤ MAXIMUM_XATTR_NAME_BYTES.
Proof. unfold validate_name. rewrite !reject_Err. destruct (_ || _); [done|]. destruct (Z.ltb_spec MAXIMUM_XATTR_NAME_BYTES (blen name)); [done|]. intros _. lia. Qed.
Lemma validate_value_bound kind name value : validate_value kind name value = Ok () → blen value ≤ MAXIMUM_XATTR_VALUE_BYTES.
Proof. unfold validate_value. rewrite !reject_Err. destruct (Z.ltb_spec MAXIMUM_XATTR_VALUE_BYTES (blen value)); [done|]. intros _. lia. Qed.
Lemma validate_answers_name name : validate_name name ≠ Panic.
Proof. unfold validate_name. rewrite !reject_Err. destruct (bool_decide (name = []) || _); [done|]. destruct (_ <? _); [done|]. by destruct (negb _). Qed.
Lemma validate_answers_value kind name value : validate_value kind name value ≠ Panic.
Proof.
  unfold validate_value. rewrite !reject_Err. destruct (_ <? _); [done|]. destruct (_ && _); [done|]. destruct (_ || _); [|done].
  by destruct (validate_acl_iff value) as [[-> _]|[-> _]].
Qed.
Lemma stored_le kind m name value : metadata_wf kind m → xattrs m !! name = Some value → attribute_bytes name value ≤ xattr_bytes m.
Proof. intros Hm Hn. rewrite (mw_bytes _ _ Hm). apply (msum_lookup_le attribute_bytes _ name value); [|done]. intros. apply attribute_bytes_nonneg. Qed.
Lemma acl_value_valid kind name value : name = POSIX_ACL_ACCESS_XATTR ∨ name = POSIX_ACL_DEFAULT_XATTR → validate_value kind name value = Ok () → acl_valid value.
Proof.
  intros Hn. unfold validate_value. rewrite !reject_Err. destruct (_ <? _); [done|]. destruct (_ && _); [done|].
  assert (bool_decide (name = POSIX_ACL_ACCESS_XATTR) || bool_decide (name = POSIX_ACL_DEFAULT_XATTR) = true) as ->.
  { apply orb_true_iff. rewrite !bool_decide_eq_true. done. }
  destruct (validate_acl_iff value) as [[_ ?]|[-> _]]; done.
Qed.
Lemma valid_acl_value kind name value : acl_valid value → blen value ≤ MAXIMUM_XATTR_VALUE_BYTES → (name = POSIX_ACL_DEFAULT_XATTR → kind = Directory) →
  validate_value kind name value = Ok ().
Proof.
  intros Hv Hl Hk. unfold validate_value. rewrite !reject_Err, (proj2 (Z.ltb_ge _ _) Hl).
  assert (bool_decide (name = POSIX_ACL_DEFAULT_XATTR) && bool_decide (kind ≠ Directory) = false) as ->.
  { apply andb_false_iff. rewrite !bool_decide_eq_false. destruct (decide (name = POSIX_ACL_DEFAULT_XATTR)); [right|by left]. intros []. auto. }
  destruct (_ || _); [|done]. by destruct (validate_acl_iff value) as [[-> _]|[_ []]].
Qed.
(** ** Setting *)
Definition stored_bytes m name : Z := from_option (attribute_bytes name) 0 (xattrs m !! name).
Definition with_attribute m name value : InodeMetadata :=
  {| file_flags := file_flags m; xattrs := <[name := value]> (xattrs m); xattr_bytes := xattr_bytes m - stored_bytes m name + attribute_bytes name value |}.
Definition set_mode_ok (mode : XattrSetMode) (present : bool) : presult () :=
  match mode, present with Create, true => Err Exists | Replace, false => Err NoData | _, _ => Ok () end.
Definition set_full m name value : bool :=
  bool_decide (xattrs m !! name = None) && (Z.of_nat (size (xattrs m)) =? MAXIMUM_XATTRS_PER_INODE)
  || (MAXIMUM_XATTR_BYTES_PER_INODE <? xattr_bytes m - stored_bytes m name + attribute_bytes name value).
Lemma with_attribute_wf kind m name value : metadata_wf kind m → validate_name name = Ok () → validate_value kind name value = Ok () → set_full m name value = false →
  metadata_wf kind (with_attribute m name value).
Proof.
  intros Hm Hn Hv Hfull. apply orb_false_iff in Hfull as [Hc Hb%Z.ltb_ge]. split; cbn [with_attribute file_flags xattrs xattr_bytes].
  - apply Hm.
  - intros n v [[<- <-]|[_ Hl]]%lookup_insert_Some; [done|by apply Hm].
  - rewrite msum_insert, (mw_bytes _ _ Hm). unfold stored_bytes. lia.
  - done.
  - pose proof (mw_count _ _ Hm). destruct (xattrs m !! name) as [old|] eqn:Hold.
    + rewrite map_size_insert_Some by done. done.
    + rewrite map_size_insert_None by done. rewrite bool_decide_true in Hc by done. cbn [andb] in Hc. zbool. lia.
Qed.
Lemma set_xattr_spec kind m name value mode : metadata_wf kind m → validate_name name = Ok () → validate_value kind name value = Ok () →
  set_xattr m kind name value mode =
    (set_mode_ok mode (bool_decide (is_Some (xattrs m !! name)));;
     reject_if (set_full m name value) TooBig;;
     if bool_decide (name = POSIX_ACL_ACCESS_XATTR)
     then Ok (with_attribute m name value, Some (class_mode (acl_entries (drop 4 value)))) else Ok (with_attribute m name value, None)).
Proof.
  intros Hm Hn Hv. unfold set_xattr. rewrite Hn, Hv, !Ok_bind. cbv zeta. fold (set_mode_ok mode (bool_decide (is_Some (xattrs m !! name)))).
  pose proof (validate_name_bound _ Hn) as Hnb. pose proof (validate_value_bound _ _ _ Hv) as Hvb. pose proof (blen_nonneg name). pose proof (blen_nonneg value).
  unfold MAXIMUM_XATTR_NAME_BYTES, MAXIMUM_XATTR_VALUE_BYTES in *. assert (Hu : usize_max = 2 ^ 64 - 1) by done.
  pose proof (mw_max _ _ Hm) as Hmax. unfold MAXIMUM_XATTR_BYTES_PER_INODE in Hmax.
  destruct (set_mode_ok mode _) as [[]| |]; [rewrite !Ok_bind|done|done]. rewrite !reject_Err.
  assert (Hst : stored_bytes m name ≤ xattr_bytes m ∧ 0 ≤ stored_bytes m name).
  { unfold stored_bytes. destruct (xattrs m !! name) as [old|] eqn:Hold; cbn [from_option].
    - split; [by apply (stored_le kind)|apply attribute_bytes_nonneg].
    - split; [|lia]. rewrite (mw_bytes _ _ Hm). apply msum_nonneg. intros. apply attribute_bytes_nonneg. }
  unfold set_full. replace (negb (bool_decide (is_Some (xattrs m !! name)))) with (bool_decide (xattrs m !! name = None)) by (by destruct (xattrs m !! name)).
  destruct (bool_decide _ && _); cbn [orb]; [done|].
  assert (Hprev : match xattrs m !! name with Some stored => expect (checked_add usize_max (blen name) (blen stored)) | None => Ok 0 end
    = (Ok (stored_bytes m name) : presult Z)).
  { unfold stored_bytes in *. destruct (xattrs m !! name) as [old|] eqn:Hold; [|done]. cbn [from_option] in *. unfold attribute_bytes in *. by rewrite checked_add_ok by lia. }
  rewrite Hprev, Ok_bind, checked_add_ok by lia. cbn [ok_or]. rewrite Ok_bind. unfold checked_sub. rewrite (proj2 (Z.leb_le _ _)) by lia. cbn [ok_or].
  rewrite Ok_bind, checked_add_ok by lia. cbn [ok_or]. rewrite Ok_bind, reject_Err. fold (attribute_bytes name value).
  destruct (_ <? _); [done|]. destruct (bool_decide_reflect (name = POSIX_ACL_ACCESS_XATTR)) as [Ha|]; [|done].
  rewrite access_mode_spec by (apply (acl_value_valid kind name); [by left|done]). done.
Qed.
(** ** The other operations *)
Lemma remove_xattr_spec kind m name : metadata_wf kind m →
  match validate_name name with
  | Ok _ => match xattrs m !! name with
            | Some value => ∃ m', remove_xattr m name = Ok m' ∧ xattrs m' = delete name (xattrs m) ∧ file_flags m' = file_flags m ∧ metadata_wf kind m'
            | None => remove_xattr m name = Err NoData
            end
  | r => remove_xattr m name = Err (match r with Err e => e | _ => NoData end)
  end.
Proof.
  intros Hm. unfold remove_xattr. pose proof (validate_answers_name name) as Hp. destruct (validate_name name) as [[]| |] eqn:Hn; [|done|done]. rewrite Ok_bind.
  destruct (xattrs m !! name) as [value|] eqn:Hv; cbn [ok_or]; [|done]. rewrite Ok_bind. destruct (mw_valid _ _ Hm _ _ Hv) as [_ Hval].
  pose proof (validate_name_bound _ Hn). pose proof (validate_value_bound _ _ _ Hval). unfold MAXIMUM_XATTR_NAME_BYTES, MAXIMUM_XATTR_VALUE_BYTES in *.
  assert (Hu : usize_max = 2 ^ 64 - 1) by done. rewrite checked_add_ok by lia. cbn [expect]. rewrite Ok_bind. pose proof (stored_le kind m name value Hm Hv) as Hle.
  unfold attribute_bytes in Hle. unfold checked_sub. rewrite (proj2 (Z.leb_le _ _)) by lia. cbn [expect]. rewrite Ok_bind. eexists. split_and!; [done..|].
  split; cbn [file_flags xattrs xattr_bytes].
  - apply Hm.
  - intros n v [_ Hl]%lookup_delete_Some. by apply Hm.
  - rewrite msum_delete, Hv, (mw_bytes _ _ Hm). done.
  - pose proof (mw_max _ _ Hm). pose proof (blen_nonneg name). pose proof (blen_nonneg value). lia.
  - pose proof (mw_count _ _ Hm). rewrite map_size_delete, Hv. cbn. lia.
Qed.
Lemma set_flags_spec kind m flags : metadata_wf kind m →
  (Z.land flags (Z.lnot SUPPORTED_FILE_FLAGS) = 0 ∧ ∃ m', set_file_flags m flags = Ok m' ∧ xattrs m' = xattrs m ∧ file_flags m' = flags ∧ metadata_wf kind m') ∨
  (Z.land flags (Z.lnot SUPPORTED_FILE_FLAGS) ≠ 0 ∧ set_file_flags m flags = Err Unsupported).
Proof.
  intros Hm. unfold set_file_flags, validate_file_flags. destruct (Z.eqb_spec (Z.land flags (Z.lnot SUPPORTED_FILE_FLAGS)) 0) as [Hf|Hf]; [left|by right].
  split; [done|]. eexists. split_and!; [done..|]. destruct Hm. by split.
Qed.
Lemma replaced_wf kind m name old value : metadata_wf kind m → xattrs m !! name = Some old → validate_value kind name value = Ok () → blen value = blen old →
  metadata_wf kind {| file_flags := file_flags m; xattrs := <[name := value]> (xattrs m); xattr_bytes := xattr_bytes m |}.
Proof.
  intros Hm Ho Hv Hl. split; cbn [file_flags xattrs xattr_bytes]; [apply Hm| | |apply Hm|rewrite map_size_insert_Some by done; apply Hm].
  - intros n v [[<- <-]|[_ Hn]]%lookup_insert_Some; [|by apply Hm]. split; [by apply (mw_valid _ _ Hm name old)|done].
  - rewrite msum_insert, Ho, (mw_bytes _ _ Hm). cbn [from_option]. unfold attribute_bytes. lia.
Qed.
Lemma chmod_spec kind m mode : metadata_wf kind m → ∃ m', chmod m mode = Ok (m', Z.land mode 0xFFF) ∧ metadata_wf kind m' ∧ file_flags m' = file_flags m ∧
  (∀ name, name ≠ POSIX_ACL_ACCESS_XATTR → xattrs m' !! name = xattrs m !! name) ∧
  match xattrs m' !! POSIX_ACL_ACCESS_XATTR with Some acl => access_acl_mode acl = Ok (Z.land mode 0x1FF) | None => xattrs m !! POSIX_ACL_ACCESS_XATTR = None end.
Proof.
  intros Hm. unfold chmod. destruct (xattrs m !! POSIX_ACL_ACCESS_XATTR) as [old|] eqn:Ho; [|exists m; rewrite Ho; by split_and!].
  destruct (mw_valid _ _ Hm _ _ Ho) as [_ Hval]. pose proof (acl_value_valid kind _ _ (or_introl eq_refl) Hval) as Hacl.
  destruct (rewrite_mode_spec old mode Hacl) as (acl&->&Hacl'&Hl&Hmode). rewrite Ok_bind. eexists. split; [done|]. split; [|split; [done|]].
  - apply (replaced_wf kind m _ old); [done|done| |done]. apply valid_acl_value; [done| |done]. rewrite Hl. by apply (validate_value_bound kind POSIX_ACL_ACCESS_XATTR).
  - cbn [xattrs]. rewrite lookup_insert_eq. split; [|done]. intros name Hn. by rewrite lookup_insert_ne.
Qed.
Lemma default_wf kind : metadata_wf kind default_metadata.
Proof. split; cbn [default_metadata file_flags xattrs xattr_bytes]; [done|by intros ?? ?%lookup_empty_Some|by rewrite msum_empty|done|by rewrite map_size_empty]. Qed.
Lemma acl_names_ok : validate_name POSIX_ACL_ACCESS_XATTR = Ok () ∧ validate_name POSIX_ACL_DEFAULT_XATTR = Ok ().
Proof. by vm_compute. Qed.
(** Adding an access control list where there is room for it *)
Lemma add_acl_spec kind m name acl : metadata_wf kind m → (name = POSIX_ACL_ACCESS_XATTR ∨ name = POSIX_ACL_DEFAULT_XATTR ∧ kind = Directory) →
  acl_valid acl → blen acl ≤ MAXIMUM_XATTR_VALUE_BYTES → xattrs m !! name = None → (size (xattrs m) ≤ 1)%nat → xattr_bytes m ≤ 66000 →
  ∃ r, set_xattr m kind name acl Create = Ok (with_attribute m name acl, r) ∧ metadata_wf kind (with_attribute m name acl).
Proof.
  intros Hm Hname Hacl Hl Hnone Hsz Hb. destruct acl_names_ok as [Hna Hnd]. assert (Hn : validate_name name = Ok ()) by naive_solver.
  assert (Hv : validate_value kind name acl = Ok ()) by (apply valid_acl_value; [done|done|naive_solver]).
  assert (Hfull : set_full m name acl = false).
  { unfold set_full, stored_bytes, attribute_bytes. rewrite Hnone. cbn [from_option]. pose proof (validate_name_bound _ Hn).
    unfold MAXIMUM_XATTR_NAME_BYTES, MAXIMUM_XATTR_VALUE_BYTES, MAXIMUM_XATTRS_PER_INODE, MAXIMUM_XATTR_BYTES_PER_INODE in *.
    rewrite bool_decide_true by done. cbn [andb]. apply orb_false_iff. split; zbool; lia. }
  rewrite set_xattr_spec, Hnone by done. rewrite (bool_decide_false (is_Some None)) by (by intros []). cbn [set_mode_ok]. rewrite Ok_bind, Hfull. cbn [reject_if]. rewrite Ok_bind.
  destruct (bool_decide _); eexists; (split; [done|by apply with_attribute_wf]).
Qed.
Lemma for_child_spec m kind mode umask : metadata_wf Directory m →
  ∃ child_mode m', for_child m kind mode umask = Ok (child_mode, m') ∧ metadata_wf kind m' ∧ file_flags m' = 0 ∧
    match xattrs m !! POSIX_ACL_DEFAULT_XATTR with
    | None => child_mode = Z.land (Z.land mode (Z.lnot umask)) 0xFFF ∧ xattrs m' = ∅
    | Some acl => ∃ limit access, access_acl_mode acl = Ok limit ∧ access_acl_mode access = Ok (Z.land limit mode) ∧
        child_mode = Z.land (Z.lor (Z.land mode (Z.lnot 0x1FF)) (Z.land limit mode)) 0xFFF ∧
        xattrs m' !! POSIX_ACL_ACCESS_XATTR = Some access ∧ xattrs m' !! POSIX_ACL_DEFAULT_XATTR = if decide (kind = Directory) then Some acl else None
    end.
Proof.
  intros Hm. unfold for_child. destruct (xattrs m !! POSIX_ACL_DEFAULT_XATTR) as [acl|] eqn:Hd; [|eexists _, _; split_and!; [done|apply default_wf|done..]].
  destruct (mw_valid _ _ Hm _ _ Hd) as [_ Hval]. pose proof (acl_value_valid _ _ _ (or_intror eq_refl) Hval) as Hacl. pose proof (validate_value_bound _ _ _ Hval) as Hlen.
  destruct (masked_acl_spec acl mode Hacl) as (access&limit&->&Hacc&Hl&Hlim&Hmode). rewrite Ok_bind, Hmode, Ok_bind. cbv zeta.
  destruct (add_acl_spec kind default_metadata POSIX_ACL_ACCESS_XATTR access (default_wf kind)) as (r&->&Hm1);
    [by left|done|by rewrite Hl|done|cbn [default_metadata xattrs]; rewrite map_size_empty; lia|done|]. rewrite Ok_bind. cbn [fst]. set (m1 := with_attribute _ _ _) in *.
  assert (Hne : POSIX_ACL_ACCESS_XATTR ≠ POSIX_ACL_DEFAULT_XATTR) by done. destruct (decide (kind = Directory)) as [Hk|Hk].
  - destruct (add_acl_spec kind m1 POSIX_ACL_DEFAULT_XATTR acl Hm1) as (r2&->&Hm2); [by right|done|done|by cbn [m1 with_attribute xattrs]; rewrite lookup_insert_ne| | |].
    + cbn [m1 with_attribute xattrs default_metadata]. rewrite map_size_insert_None, map_size_empty by done. lia.
    + cbn [m1 with_attribute xattr_bytes default_metadata]. unfold stored_bytes, attribute_bytes. cbn [default_metadata xattrs xattr_bytes]. rewrite lookup_empty. cbn [from_option].
      unfold MAXIMUM_XATTR_VALUE_BYTES in Hlen. change (blen POSIX_ACL_ACCESS_XATTR) with 23. lia.
    + rewrite !Ok_bind. cbn [fst]. eexists _, _. split_and!; [done|done|done|]. exists limit, access. split_and!; [done|done|done| |];
        cbn [m1 with_attribute xattrs]; [by rewrite lookup_insert_ne, lookup_insert_eq by done|by rewrite lookup_insert_eq].
  - rewrite Ok_bind. eexists _, _. split_and!; [done|done|done|]. exists limit, access. split_and!; [done|done|done| |];
      cbn [m1 with_attribute xattrs]; [by rewrite lookup_insert_eq|by rewrite lookup_insert_ne by done].
Qed.
(** ** Reconstruction *)
Definition list_bytes (l : list (bytes * bytes)) : Z := foldr (λ kv, Z.add (attribute_bytes kv.1 kv.2)) 0 l.
Lemma list_bytes_nonneg l : 0 ≤ list_bytes l.
Proof. induction l as [|[n v] l IH]; [done|]. cbn. pose proof (attribute_bytes_nonneg n v). unfold list_bytes in IH. lia. Qed.
Lemma add_xattrs_spec kind m l : NoDup l.*1 → (∀ kv, kv ∈ l → xattrs m !! kv.1 = None ∧ validate_name kv.1 = Ok () ∧ validate_value kind kv.1 kv.2 = Ok ()) →
  0 ≤ xattr_bytes m → xattr_bytes m + list_bytes l ≤ MAXIMUM_XATTR_BYTES_PER_INODE →
  add_xattrs kind m l = Ok {| file_flags := file_flags m; xattrs := list_to_map l ∪ xattrs m; xattr_bytes := xattr_bytes m + list_bytes l |}.
Proof.
  revert m. induction l as [|[n v] l IH]; intros m Hnd Hl H0 Hb; cbn [add_xattrs].
  { cbn [list_to_map foldr list_bytes]. rewrite (left_id_L ∅ _), Z.add_0_r. by destruct m. }
  cbn [fmap list_fmap fst] in Hnd. apply NoDup_cons in Hnd as [Hn Hnd]. destruct (Hl (n, v)) as (Hnone&Hname&Hval); [by left|]. cbn [fst snd] in *.
  rewrite Hval, Ok_bind. change (list_bytes ((n, v) :: l)) with (attribute_bytes n v + list_bytes l) in Hb |- *. pose proof (list_bytes_nonneg l). pose proof (attribute_bytes_nonneg n v).
  unfold MAXIMUM_XATTR_BYTES_PER_INODE in Hb. assert (Hu : usize_max = 2 ^ 64 - 1) by done. unfold attribute_bytes in *. rewrite checked_add_ok by lia. cbn [ok_or]. rewrite Ok_bind, checked_add_ok by lia. cbn [ok_or].
  rewrite Ok_bind, reject_Err, Hnone, (bool_decide_false (is_Some None)) by (by intros []). unfold MAXIMUM_XATTR_BYTES_PER_INODE at 1.
  rewrite (proj2 (Z.ltb_ge _ _)) by lia. cbn [orb]. rewrite IH; cbn [file_flags xattrs xattr_bytes]; [|done| |lia|unfold MAXIMUM_XATTR_BYTES_PER_INODE; lia].
  - f_equal. f_equal; [|lia]. cbn [list_to_map foldr fst snd]. fold (list_to_map (M:=gmap bytes bytes) l). rewrite <-insert_union_l. symmetry. apply insert_union_r.
    by apply not_elem_of_list_to_map_1.
  - intros [n' v'] Hin. cbn [fst snd]. destruct (Hl (n', v')) as (?&?&?); [by right|]. cbn [fst snd] in *. split; [|done]. rewrite lookup_insert_ne; [done|].
    intros <-. apply Hn. apply (list_elem_of_fmap_2 fst l (n, v')). done.
Qed.
Lemma list_bytes_sum m : list_bytes (map_to_list (xattrs m)) = msum attribute_bytes (xattrs m).
Proof. unfold msum. rewrite map_fold_foldr. unfold list_bytes. induction (map_to_list (xattrs m)) as [|[n v] l IH]; [done|]. cbn. by rewrite IH. Qed.
Lemma metadata_new_spec kind m : metadata_wf kind m → metadata_new kind (file_flags m) (map_to_list (xattrs m)) = Ok m.
Proof.
  intros Hm. unfold metadata_new, validate_file_flags. rewrite (mw_flags _ _ Hm). cbn [Z.eqb negb reject_if]. rewrite Ok_bind.
  rewrite add_xattrs_spec; cbn [file_flags xattrs xattr_bytes].
  - rewrite Ok_bind, reject_Err. cbn [xattrs]. rewrite (right_id_L ∅ _), list_to_map_to_list, (proj2 (Z.ltb_ge _ _) (mw_count _ _ Hm)).
    rewrite Z.add_0_l, list_bytes_sum, <-(mw_bytes _ _ Hm). by destruct m.
  - apply NoDup_fst_map_to_list.
  - intros [n v] Hn%elem_of_map_to_list. split; [done|]. by apply (mw_valid _ _ Hm).
  - done.
  - rewrite Z.add_0_l, list_bytes_sum, <-(mw_bytes _ _ Hm). apply Hm.
Qed.

(** ** Histories *)
Inductive attribute_op := SetXattr (name value : bytes) (mode : XattrSetMode) | RemoveXattr (name : bytes) | SetFlags (flags : Z) | Chmod (mode : Z).
Definition attribute_apply (kind : FileKind) m (op : attribute_op) : presult InodeMetadata :=
  match op with
  | SetXattr name value mode => r ← set_xattr m kind name value mode; Ok r.1
  | RemoveXattr name => remove_xattr m name
  | SetFlags flags => set_file_flags m flags
  | Chmod mode => r ← chmod m mode; Ok r.1
  end.
(** A request that fails leaves the metadata *)
Definition attribute_step (kind : FileKind) m (op : attribute_op) : presult InodeMetadata :=
  match attribute_apply kind m op with Err _ => Ok m | r => r end.
Fixpoint attribute_run (kind : FileKind) m (ops : list attribute_op) : presult InodeMetadata :=
  match ops with [] => Ok m | op :: ops => m ← attribute_step kind m op; attribute_run kind m ops end.
Lemma attribute_step_spec kind m op : metadata_wf kind m → ∃ m', attribute_step kind m op = Ok m' ∧ metadata_wf kind m'.
Proof.
  intros Hm. unfold attribute_step. destruct op as [name value mode|name|flags|mode]; cbn [attribute_apply].
  - pose proof (validate_answers_name name). pose proof (validate_answers_value kind name value).
    destruct (validate_name name) as [[]| |] eqn:Hn; [|unfold set_xattr; rewrite Hn; by exists m|done].
    destruct (validate_value kind name value) as [[]| |] eqn:Hv; [|unfold set_xattr; rewrite Hn, Ok_bind, Hv; by exists m|done].
    rewrite set_xattr_spec by done. destruct (set_mode_ok mode _) as [[]| |] eqn:Hmode; [|by exists m|by destruct mode, (bool_decide _)].
    rewrite Ok_bind, reject_Err. destruct (set_full m name value) eqn:Hfull; [by exists m|].
    destruct (bool_decide (name = POSIX_ACL_ACCESS_XATTR)); rewrite Ok_bind; (eexists; split; [done|by apply with_attribute_wf]).
  - pose proof (remove_xattr_spec kind m name Hm) as Hr. pose proof (validate_answers_name name). destruct (validate_name name) as [[]| |]; [|rewrite Hr; by exists m|done].
    destruct (xattrs m !! name); [destruct Hr as (m'&->&_&_&?); by exists m'|rewrite Hr; by exists m].
  - destruct (set_flags_spec kind m flags Hm) as [(_&m'&->&_&_&?)|[_ ->]]; [by exists m'|by exists m].
  - destruct (chmod_spec kind m mode Hm) as (m'&->&?&_). rewrite Ok_bind. by exists m'.
Qed.
Lemma attribute_run_spec kind m ops : metadata_wf kind m → ∃ m', attribute_run kind m ops = Ok m' ∧ metadata_wf kind m'.
Proof.
  revert m. induction ops as [|op ops IH]; intros m Hm; cbn [attribute_run]; [by exists m|].
  destruct (attribute_step_spec kind m op Hm) as (m1&->&Hm1). rewrite Ok_bind. by apply IH.
Qed.

(** C14: whatever sequence of attribute, flag and mode requests an inode gets,
    failed ones included, no assertion fails, the byte count is the sum of the
    names and values, both limits hold, every stored attribute is valid (access
    control lists in canonical order, a default one only on a directory), and
    reloading the flags and attributes gives the same metadata. *)
Theorem attributes_accounted kind ops : ∃ m, attribute_run kind default_metadata ops = Ok m ∧
  xattr_bytes m = msum attribute_bytes (xattrs m) ∧ xattr_bytes m ≤ MAXIMUM_XATTR_BYTES_PER_INODE ∧ Z.of_nat (size (xattrs m)) ≤ MAXIMUM_XATTRS_PER_INODE ∧
  (∀ name value, xattrs m !! name = Some value → validate_name name = Ok () ∧ validate_value kind name value = Ok ()) ∧
  metadata_new kind (file_flags m) (map_to_list (xattrs m)) = Ok m.
Proof.
  destruct (attribute_run_spec kind default_metadata ops (default_wf kind)) as (m&Hr&Hm). exists m.
  split_and!; [done|apply Hm|apply Hm|apply Hm|apply Hm|by apply metadata_new_spec].
Qed.

(** C15: setting the mode of an inode whose access control list has any valid
    form makes the mode the list grants the requested permission bits, keeps the
    list valid and touches no other attribute. *)
Theorem chmod_acl_roundtrip kind m mode acl : metadata_wf kind m → xattrs m !! POSIX_ACL_ACCESS_XATTR = Some acl →
  ∃ m' acl', chmod m mode = Ok (m', Z.land mode 0xFFF) ∧ xattrs m' !! POSIX_ACL_ACCESS_XATTR = Some acl' ∧
    access_acl_mode acl' = Ok (Z.land mode 0x1FF) ∧ metadata_wf kind m' ∧ (∀ name, name ≠ POSIX_ACL_ACCESS_XATTR → xattrs m' !! name = xattrs m !! name).
Proof.
  intros Hm Ha. destruct (chmod_spec kind m mode Hm) as (m'&Hc&Hm'&_&Hother&Hacl). exists m'. destruct (xattrs m' !! POSIX_ACL_ACCESS_XATTR) as [acl'|]; [|congruence].
  exists acl'. by split_and!.
Qed.
(** A list with owner, one named user, group, mask and other entries *)
Definition example_entry (t p i : Z) : bytes := le_bytes 2 t ++ le_bytes 2 p ++ le_bytes 4 i.
Definition example_acl : bytes := le_bytes 4 2 ++ example_entry ACL_USER_OBJ 7 u32_max ++ example_entry ACL_USER 6 1000 ++ example_entry ACL_GROUP_OBJ 5 u32_max ++
  example_entry ACL_MASK 6 u32_max ++ example_entry ACL_OTHER 4 u32_max.
Definition example_metadata : InodeMetadata := {| file_flags := 0; xattrs := {[ POSIX_ACL_ACCESS_XATTR := example_acl; POSIX_ACL_DEFAULT_XATTR := example_acl ]}; xattr_bytes := 135 |}.
Lemma example_metadata_run : attribute_run Directory default_metadata [SetXattr POSIX_ACL_ACCESS_XATTR example_acl Create; SetXattr POSIX_ACL_DEFAULT_XATTR example_acl Upsert] = Ok example_metadata.
Proof. by vm_compute. Qed.
Lemma example_metadata_wf : metadata_wf Directory example_metadata.
Proof.
  pose proof example_metadata_run as He. edestruct (attribute_run_spec Directory default_metadata) as (m&Hr&Hm); [apply default_wf|]. rewrite He in Hr. by injection Hr as <-.
Qed.
Lemma chmod_acl_roundtrip_witness : ∃ m' acl', chmod example_metadata 0x1E8 = Ok (m', 0x1E8) ∧ xattrs m' !! POSIX_ACL_ACCESS_XATTR = Some acl' ∧
    access_acl_mode acl' = Ok 0x1E8 ∧ metadata_wf Directory m' ∧ (∀ name, name ≠ POSIX_ACL_ACCESS_XATTR → xattrs m' !! name = xattrs example_metadata !! name).
Proof. exact (chmod_acl_roundtrip Directory example_metadata 0x1E8 example_acl example_metadata_wf ltac:(by vm_compute)). Defined.

(** C16: a new inode in a directory always gets its mode and attributes: without a
    default list the requested mode less the umask; with one, an access list
    that grants the intersection of the default list and the requested mode, the
    mode to match, and on a directory the default list again. *)
Theorem inheritance_exact m kind mode umask : metadata_wf Directory m →
  ∃ child_mode m', for_child m kind mode umask = Ok (child_mode, m') ∧ metadata_wf kind m' ∧ file_flags m' = 0 ∧
    match xattrs m !! POSIX_ACL_DEFAULT_XATTR with
    | None => child_mode = Z.land (Z.land mode (Z.lnot umask)) 0xFFF ∧ xattrs m' = ∅
    | Some acl => ∃ limit access, access_acl_mode acl = Ok limit ∧ access_acl_mode access = Ok (Z.land limit mode) ∧
        child_mode = Z.land (Z.lor (Z.land mode (Z.lnot 0x1FF)) (Z.land limit mode)) 0xFFF ∧
        xattrs m' !! POSIX_ACL_ACCESS_XATTR = Some access ∧ xattrs m' !! POSIX_ACL_DEFAULT_XATTR = if decide (kind = Directory) then Some acl else None
    end.
Proof. apply for_child_spec. Qed.
Lemma inheritance_exact_witness : ∃ child_mode m', for_child example_metadata Regular 0x1B6 0x12 = Ok (child_mode, m') ∧ metadata_wf Regular m' ∧ file_flags m' = 0 ∧
    match xattrs example_metadata !! POSIX_ACL_DEFAULT_XATTR with
    | None => child_mode = Z.land (Z.land 0x1B6 (Z.lnot 0x12)) 0xFFF ∧ xattrs m' = ∅
    | Some acl => ∃ limit access, access_acl_mode acl = Ok limit ∧ access_acl_mode access = Ok (Z.land limit 0x1B6) ∧
        child_mode = Z.land (Z.lor (Z.land 0x1B6 (Z.lnot 0x1FF)) (Z.land limit 0x1B6)) 0xFFF ∧
        xattrs m' !! POSIX_ACL_ACCESS_XATTR = Some access ∧ xattrs m' !! POSIX_ACL_DEFAULT_XATTR = if decide (Regular = Directory) then Some acl else None
    end.
Proof. exact (inheritance_exact example_metadata Regular 0x1B6 0x12 example_metadata_wf). Defined.
End InodeAttributes.
