(* ===== verification/FileCatalog.v ===== *)
(** * The catalog of open files ([fastdup-posix/src/lib.rs])

    Inodes with their state, and the handles that name them. *)
From S2P Require Export FileCommit InodeMetadata.

Module FileCatalog.
Import SparseData VersionedFile InodeMetadata.

Inductive AccessMode := AccessReadOnly | WriteOnly | ReadWrite.
Record OpenOptions := { access : AccessMode; append_mode : bool }.
Record OpenHandle := { handle_inode : Z; options : OpenOptions }.
Record PosixTimestamp := { seconds : Z; nanoseconds : Z }.
Record PosixTimes := { atime : PosixTimestamp; mtime : PosixTimestamp; ctime : PosixTimestamp }.
(** [InodeState], with [policy_name_matches], which [Inode] keeps beside it *)
Record InodeState := {
  kind : FileKind;
  mode : Z;
  uid : Z;
  gid : Z;
  link_count : Z;
  inode_sequence : Z;
  metadata : InodeMetadata;
  times : PosixTimes;
  symlink_target : option bytes;
  file : VersionedFile;
  policy_name_matches : Z;
}.
Definition immutable (st : InodeState) : bool := is_immutable (metadata st).
Record Catalog := { inodes : gmap Z InodeState; handles : gmap Z OpenHandle }.
#[global] Instance access_eq_dec : EqDecision AccessMode.
Proof. solve_decision. Defined.

Definition resolve_inode (c : Catalog) (inode : Z) : presult InodeState := ok_or (inodes c !! inode) NoEntry.
Definition resolve_open_file (c : Catalog) (inode handle : Z) : presult (InodeState * OpenHandle) :=
  open ← ok_or (handles c !! handle) BadHandle;
  reject_if (negb (handle_inode open =? inode)) BadHandle;;
  object ← expect (inodes c !! inode);
  Ok (object, open).
(** A handle pins its inode. *)
Definition pins (c : Catalog) : Prop := ∀ h open, handles c !! h = Some open → is_Some (inodes c !! handle_inode open).
End FileCatalog.
