(* ===== verification/RecordLocks.v ===== *)
(** * Record locks ([fastdup-posix/src/lib.rs])

    The byte-range locks of files: requests, conflicts, the replacement of an
    owner's range, the canonical list of an inode and the table of all inodes. *)
From S2P Require Export FileCatalog.

Module RecordLocks.
Import SparseData InodeMetadata FileCatalog.

(** ** Data *)
Inductive LockKind := ReadLock | WriteLock | Unlock.
Record FileLock := { req_start : Z; req_end : Z; req_kind : LockKind; req_pid : Z }.
Record RecordLock := { owner : Z; start : Z; end_ : Z; lock_kind : LockKind; pid : Z }.
Record LockTable := { by_inode : gmap Z (list RecordLock); record_count : Z }.
(** The table and the sequence number that waiters watch *)
Record LockState := { locks : LockTable; lock_change_sequence : Z }.
Definition MAXIMUM_RECORD_LOCKS : Z := 65536.
#[global] Instance lock_kind_eq_dec : EqDecision LockKind.
Proof. solve_decision. Defined.
#[global] Instance record_lock_eq_dec : EqDecision RecordLock.
Proof. solve_decision. Defined.

Definition from_request (o : Z) (lock : FileLock) : RecordLock :=
  {| owner := o; start := req_start lock; end_ := req_end lock; lock_kind := req_kind lock; pid := req_pid lock |}.
Definition as_reply (r : RecordLock) : FileLock :=
  {| req_start := start r; req_end := end_ r; req_kind := lock_kind r; req_pid := pid r |}.

(** ** Lists of one inode *)
Definition validate_lock_request (lock : FileLock) (allow_unlock : bool) : presult () :=
  reject_if ((req_end lock <? req_start lock) || (negb allow_unlock && bool_decide (req_kind lock = Unlock))) InvalidArgument.
Definition overlaps (a b : RecordLock) : bool := (start a <=? end_ b) && (start b <=? end_ a).
Definition conflicts (candidate requested : RecordLock) : bool :=
  negb (owner candidate =? owner requested) && (start candidate <=? end_ requested) && (start requested <=? end_ candidate)
  && (bool_decide (lock_kind candidate = WriteLock) || bool_decide (lock_kind requested = WriteLock)).
Definition first_lock_conflict (held : list RecordLock) (requested : RecordLock) : option RecordLock :=
  head (filter (λ candidate, conflicts candidate requested = true) held).
(** The loop of [replace_owner_lock_range]: what is left of each lock *)
Definition set_start (r : RecordLock) (x : Z) : RecordLock :=
  {| owner := owner r; start := x; end_ := end_ r; lock_kind := lock_kind r; pid := pid r |}.
Definition set_end (r : RecordLock) (x : Z) : RecordLock :=
  {| owner := owner r; start := start r; end_ := x; lock_kind := lock_kind r; pid := pid r |}.
Definition cut_lock (requested current : RecordLock) : list RecordLock :=
  if negb (owner current =? owner requested) || negb (overlaps current requested) then [current]
  else
    (if start current <? start requested then [set_end current (start requested - 1)] else []) ++
    (if end_ requested <? end_ current then [set_start current (end_ requested + 1)] else []).
Definition lock_kind_order (k : LockKind) : Z := match k with ReadLock => 0 | WriteLock => 1 | Unlock => 2 end.
Definition joins (previous current : RecordLock) : bool :=
  (owner previous =? owner current) && bool_decide (lock_kind previous = lock_kind current) && (pid previous =? pid current)
  && (start current <=? saturating_add u64_max (end_ previous) 1).
(** The loop of [canonicalize_record_locks]; the locks written so far, the
    last one first *)
Fixpoint join_locks (written l : list RecordLock) : list RecordLock :=
  match l with
  | [] => reverse written
  | current :: l =>
      match written with
      | previous :: rest =>
          if joins previous current then join_locks (set_end previous (Z.max (end_ previous) (end_ current)) :: rest) l
          else join_locks (current :: written) l
      | [] => join_locks [current] l
      end
  end.
Definition join_key (r : RecordLock) : Z * (Z * (Z * (Z * Z))) := (owner r, (lock_kind_order (lock_kind r), (pid r, (start r, end_ r)))).
Definition list_key (r : RecordLock) : Z * (Z * Z) := (start r, (end_ r, owner r)).
Definition canonicalize_record_locks (l : list RecordLock) : list RecordLock :=
  sort_by_key list_key (join_locks [] (sort_by_key join_key l)).
Definition replace_owner_lock_range (held : list RecordLock) (requested : RecordLock) : presult (list RecordLock) :=
  _ ← ok_or (checked_add u64_max (Z.of_nat (length held)) 3) NoLocks;
  Ok (canonicalize_record_locks
        ((held ≫= cut_lock requested) ++ (if decide (lock_kind requested = Unlock) then [] else [requested]))).

(** ** Requests *)
Definition validate_lock_handle (c : Catalog) (inode handle : Z) : presult OpenHandle :=
  r ← resolve_open_file c inode handle;
  reject_if (bool_decide (kind r.1 ≠ Regular)) IsDirectory;;
  Ok r.2.
Definition announce_lock_change (s : LockState) (t : LockTable) : presult LockState :=
  next ← expect (checked_add u64_max (lock_change_sequence s) 1);
  Ok {| locks := t; lock_change_sequence := next |}.
Definition get_lock (c : Catalog) (s : LockState) (inode handle o : Z) (requested : FileLock) : presult FileLock :=
  validate_lock_handle c inode handle;;
  validate_lock_request requested false;;
  let requested := from_request o requested in
  Ok (match by_inode (locks s) !! inode ≫= λ held, first_lock_conflict held requested with
      | Some conflict => as_reply conflict
      | None => {| req_start := start requested; req_end := end_ requested; req_kind := Unlock; req_pid := 0 |}
      end).
(** The table after a lock list of an inode is replaced *)
Definition install_locks (t : LockTable) (inode : Z) (updated : list RecordLock) (count : Z) : LockTable :=
  {| by_inode := match updated with [] => delete inode (by_inode t) | _ :: _ => <[inode := updated]> (by_inode t) end;
     record_count := count |}.
(** A lock needs the access it locks *)
Definition lock_denied (k : LockKind) (a : AccessMode) : bool :=
  match k, a with ReadLock, WriteOnly | WriteLock, AccessReadOnly => true | _, _ => false end.
Definition set_lock (c : Catalog) (s : LockState) (inode handle o : Z) (requested : FileLock) : presult LockState :=
  open ← validate_lock_handle c inode handle;
  validate_lock_request requested true;;
  reject_if (lock_denied (req_kind requested) (access (options open))) BadHandle;;
  let requested := from_request o requested in
  let held := default [] (by_inode (locks s) !! inode) in
  reject_if (bool_decide (lock_kind requested ≠ Unlock) && bool_decide (is_Some (first_lock_conflict held requested))) Again;;
  updated ← replace_owner_lock_range held requested;
  if decide (updated = held) then Ok s
  else
    count ← ok_or (checked_sub (record_count (locks s)) (Z.of_nat (length held))) NoLocks;
    count ← ok_or (checked_add u64_max count (Z.of_nat (length updated))) NoLocks;
    reject_if (MAXIMUM_RECORD_LOCKS <? count) NoLocks;;
    announce_lock_change s (install_locks (locks s) inode updated count).
Definition unlock_owner (c : Catalog) (s : LockState) (inode handle o : Z) : presult LockState :=
  validate_lock_handle c inode handle;;
  match by_inode (locks s) !! inode with
  | None => Ok s
  | Some held =>
      let kept := filter (λ lock, owner lock ≠ o) held in
      let removed := (length held - length kept)%nat in
      if (removed =? 0)%nat then Ok s
      else
        count ← expect (checked_sub (record_count (locks s)) (Z.of_nat removed));
        announce_lock_change s (install_locks (locks s) inode kept count)
  end.
End RecordLocks.
