(* ===== verification/RecordLocksOps.v ===== *)
(** * Record locks, byte by byte

    What a list of locks means at each position, what a request makes of it, and
    that the canonical list is a normal form of that meaning. *)
From S2P Require Export RecordLocks.

Module RecordLocksOps.
Import SparseData InodeMetadata FileCatalog RecordLocks.

(** ** Pairs of a list *)
Fixpoint pairwise {A} (R : A → A → Prop) (l : list A) : Prop :=
  match l with [] => True | x :: l => Forall (R x) l ∧ pairwise R l end.
Lemma pairwise_app {A} (R : A → A → Prop) l1 l2 :
  pairwise R (l1 ++ l2) ↔ pairwise R l1 ∧ pairwise R l2 ∧ Forall (λ x, Forall (R x) l2) l1.
Proof.
  induction l1 as [|x l1 IH]; cbn [app pairwise]; [rewrite Forall_nil; tauto|]. rewrite Forall_app, IH, Forall_cons. tauto.
Qed.
#[global] Instance pairwise_perm {A} (R : A → A → Prop) `{!Symmetric R} : Proper ((≡ₚ) ==> iff) (pairwise R).
Proof.
  intros l1 l2 Hp. induction Hp as [|x l1 l2 Hp IH|x y l|l1 l2 l3 _ IH1 _ IH2]; cbn [pairwise]; [done|by rewrite IH, (Forall_Permutation (R x) (R x) ltac:(done) l1 l2 Hp)| |by rewrite IH1].
  rewrite !Forall_cons. assert (R x y ↔ R y x) by (split; apply symmetry). tauto.
Qed.
Lemma pairwise_lookup {A} (R : A → A → Prop) `{!Symmetric R} l i j x y :
  pairwise R l → l !! i = Some x → l !! j = Some y → i ≠ j → R x y.
Proof.
  revert i j. induction l as [|z l IH]; intros i j Hp Hi Hj Hij; [done|]. destruct Hp as [Hf Hp], i as [|i], j as [|j]; cbn in Hi, Hj; simplify_eq; try done.
  - rewrite list.Forall_forall in Hf. by eapply Hf, list_elem_of_lookup_2.
  - symmetry. rewrite list.Forall_forall in Hf. by eapply Hf, list_elem_of_lookup_2.
  - eapply (IH i j); [done..|congruence].
Qed.
Lemma pairwise_elem {A} (R : A → A → Prop) `{!Symmetric R} l x y : pairwise R l → x ∈ l → y ∈ l → x ≠ y → R x y.
Proof.
  intros Hp [i Hi]%list_elem_of_lookup [j Hj]%list_elem_of_lookup Hne. eapply pairwise_lookup; [done..|]. intros ->. congruence.
Qed.

(** ** Meaning *)
Implicit Types (r s : RecordLock) (l : list RecordLock).
Definition covers r (x : Z) : Prop := start r ≤ x ≤ end_ r.
Definition holds l (o x : Z) (k : LockKind) (p : Z) : Prop := ∃ r, r ∈ l ∧ owner r = o ∧ covers r x ∧ lock_kind r = k ∧ pid r = p.
Definition valid r : Prop := 0 ≤ start r ≤ end_ r ∧ end_ r ≤ u64_max ∧ lock_kind r ≠ Unlock.
(** An owner holds one lock at a position; what two owners hold there is for
    reading. *)
Definition single l : Prop := ∀ o x k k' p p', holds l o x k p → holds l o x k' p' → k = k' ∧ p = p'.
Definition shared l : Prop := ∀ o o' x k k' p p', o ≠ o' → holds l o x k p → holds l o' x k' p' → k = ReadLock ∧ k' = ReadLock.
(** Locks that could be one are not next to each other. *)
Definition separate r s : Prop :=
  owner r = owner s → lock_kind r = lock_kind s → pid r = pid s → end_ r + 1 < start s ∨ end_ s + 1 < start r.
#[global] Instance separate_sym : Symmetric separate.
Proof. intros r s H Ho Hk Hp. destruct (H ltac:(done) ltac:(done) ltac:(done)); [by right|by left]. Qed.
Record locks_wf l : Prop := {
  lw_valid : Forall valid l;
  lw_single : single l;
  lw_separate : pairwise separate l;
  lw_sorted : StronglySorted (λ r s, list_key r <o list_key s) l;
}.
Lemma holds_app l1 l2 o x k p : holds (l1 ++ l2) o x k p ↔ holds l1 o x k p ∨ holds l2 o x k p.
Proof.
  unfold holds. split.
  - intros (r&[Hr|Hr]%elem_of_app&?); [left|right]; eauto.
  - intros [(r&?&?)|(r&?&?)]; exists r; rewrite elem_of_app; tauto.
Qed.
Lemma holds_one r o x k p : holds [r] o x k p ↔ owner r = o ∧ covers r x ∧ lock_kind r = k ∧ pid r = p.
Proof. unfold holds. setoid_rewrite list_elem_of_singleton. naive_solver. Qed.
Lemma holds_cons r l o x k p : holds (r :: l) o x k p ↔ holds [r] o x k p ∨ holds l o x k p.
Proof. apply (holds_app [r] l). Qed.
#[global] Instance holds_perm : Proper ((≡ₚ) ==> eq ==> eq ==> eq ==> eq ==> iff) holds.
Proof. intros l1 l2 Hp o _ <- x _ <- k _ <- p _ <-. unfold holds. by setoid_rewrite Hp. Qed.

(** ** Joining *)
Lemma joins_spec previous current : joins previous current = true ↔
  owner previous = owner current ∧ lock_kind previous = lock_kind current ∧ pid previous = pid current ∧
  start current ≤ saturating_add u64_max (end_ previous) 1.
Proof. unfold joins. rewrite !andb_true_iff, !Z.eqb_eq, Z.leb_le, bool_decide_eq_true. tauto. Qed.
Definition join_lock previous current : RecordLock := set_end previous (Z.max (end_ previous) (end_ current)).
Lemma join_valid previous current : valid previous → valid current → valid (join_lock previous current).
Proof. intros (?&?&?) (?&?&?). unfold valid, join_lock. cbn [set_end start end_ lock_kind]. split_and!; (done || lia). Qed.
Lemma join_holds previous current o x k p : valid previous → valid current → joins previous current = true → start previous ≤ start current →
  holds [join_lock previous current] o x k p ↔ holds [previous] o x k p ∨ holds [current] o x k p.
Proof.
  intros (Hp&Hpm&_) (Hc&Hcm&_) (Ho&Hk&Hd&Hj)%joins_spec Hs. rewrite !holds_one, <-Ho, <-Hk, <-Hd. unfold covers, join_lock, saturating_add in *.
  cbn [set_end owner lock_kind pid start end_]. assert (start previous ≤ x ≤ Z.max (end_ previous) (end_ current) ↔
    start previous ≤ x ≤ end_ previous ∨ start current ≤ x ≤ end_ current) as -> by lia. tauto.
Qed.
(** The group of a lock; the sort puts groups together. *)
Definition group r : Z * (Z * Z) := (owner r, (lock_kind_order (lock_kind r), pid r)).
Lemma group_eq r s : group r = group s ↔ owner r = owner s ∧ lock_kind r = lock_kind s ∧ pid r = pid s.
Proof.
  unfold group. split; [|by intros (->&->&->)]. intros [= Ho Hk Hp]. split_and!; [done| |done]. by destruct (lock_kind r), (lock_kind s).
Qed.
Definition follows r s : Prop := group r <o group s ∨ group r = group s ∧ start r ≤ start s.
Lemma join_key_follows r s : join_key r ≤o join_key s → follows r s.
Proof.
  unfold follows, group, join_key. rewrite ole_iff, !olt_pair, !olt_Z. intros [H|[= Ho Hk Hp Hs He]]; [|right; split; [congruence|lia]].
  destruct H as [?|[Ho [?|[Hk [?|[Hp [?|[Hs ?]]]]]]]]; [tauto|tauto|tauto|right; rewrite Ho, Hk, Hp; split; [done|lia]..].
Qed.
Definition before r s : Prop := group r <o group s ∨ group r = group s ∧ end_ r + 1 < start s.
Lemma before_trans r s t : valid s → before r s → before s t → before r t.
Proof.
  intros (Hv&_) [Hrs|[Hrs ?]] [Hst|[Hst ?]]; [left; by etrans|left; by rewrite <-Hst|left; by rewrite Hrs|right; split; [congruence|lia]].
Qed.
Lemma before_separate r s : before r s → separate r s.
Proof.
  intros [Hg|[_ ?]] Ho Hk Hp; [|by left].
  assert (Hrs : group r = group s) by (apply group_eq; done). rewrite Hrs in Hg. by apply olt_irrefl in Hg.
Qed.
Lemma not_joins_before r s : valid r → valid s → follows r s → joins r s = false → before r s.
Proof.
  intros (_&?&_) (?&?&_) [?|[Hg ?]] Hj; [by left|]. right. split; [done|]. apply group_eq in Hg as (?&?&?).
  destruct (Z.lt_ge_cases (end_ r + 1) (start s)) as [|Hle]; [done|]. rewrite (proj2 (joins_spec r s)) in Hj; [done|].
  split_and!; try done. unfold saturating_add. lia.
Qed.
Lemma join_locks_spec written l : Forall valid written → Forall valid l → pairwise (λ s r, before r s) written →
  StronglySorted (λ r s, join_key r ≤o join_key s) l → Forall (λ r, Forall (follows r) l) (take 1 written) →
  let l' := join_locks written l in
  Forall valid l' ∧ pairwise before l' ∧ (length l' ≤ length written + length l)%nat ∧
  ∀ o x k p, holds l' o x k p ↔ holds (written ++ l) o x k p.
Proof.
  revert written. induction l as [|c l IH]; intros written Hw Hl Hb Hs Hf; cbn [join_locks].
  { cbv zeta. rewrite length_reverse. split_and!; [by apply Forall_reverse| |lia|].
    - clear -Hb. induction written as [|r w IHw]; [done|]. destruct Hb as [Hr Hb]. rewrite reverse_cons, pairwise_app.
      split_and!; [by apply IHw|by split|]. apply Forall_reverse. eapply list.Forall_impl; [exact Hr|]. intros s ?. by apply Forall_singleton.
    - intros o x k p. by rewrite app_nil_r, reverse_Permutation. }
  apply Forall_cons in Hl as [Hc Hl]. apply StronglySorted_inv in Hs as [Hs Hcl].
  assert (Hcf : Forall (follows c) l) by (eapply list.Forall_impl; [exact Hcl|]; intros; by apply join_key_follows).
  destruct written as [|previous rest]; [apply (IH [c]); [by apply Forall_singleton|done|by split|done|by apply Forall_singleton]|].
  change (take 1 (previous :: rest)) with (previous :: take 0 rest) in Hf. rewrite take_0, Forall_singleton in Hf. apply Forall_cons in Hf as [Hpc Hpl]. apply Forall_cons in Hw as [Hp Hw]. destruct Hb as [Hpr Hb].
  destruct (joins previous c) eqn:Hj.
  - pose proof (join_valid _ _ Hp Hc) as Hjv. assert (Hst : start previous ≤ start c).
    { destruct Hpc as [Hg|[_ ?]]; [|done]. apply joins_spec in Hj as (?&?&?&_). assert (Hg' : group previous = group c) by (by apply group_eq).
      rewrite Hg' in Hg. by apply olt_irrefl in Hg. }
    destruct (IH (join_lock previous c :: rest)) as (Hv&Hsep&Hlen&Hh); [by constructor|done|by split|done|by apply Forall_singleton|].
    unfold join_lock in *. cbv zeta. split_and!; [done|done|cbn [length] in *; lia|]. intros o x k p. rewrite Hh. fold (join_lock previous c).
    cbn [app]. rewrite (holds_cons _ (rest ++ l)), (holds_cons previous (rest ++ c :: l)), !holds_app, (holds_cons c l), join_holds by done. tauto.
  - pose proof (not_joins_before _ _ Hp Hc Hpc Hj) as Hbc.
    destruct (IH (c :: previous :: rest)) as (Hv&Hsep&Hlen&Hh); [apply Forall_cons; split; [done|by constructor]|done| |done|by apply Forall_singleton|].
    { split; [|by split]. constructor; [done|]. eapply list.Forall_impl; [exact Hpr|]. intros s ?. by apply (before_trans _ previous). }
    split_and!; [done|done|cbn [length] in *; lia|]. intros o x k p. rewrite Hh. cbn [app]. rewrite (holds_cons c (previous :: rest ++ l)), (holds_cons previous (rest ++ l)), (holds_cons previous (rest ++ c :: l)), !holds_app, (holds_cons c l). tauto.
Qed.

(** ** The canonical list *)
Lemma single_separate_key l : Forall valid l → single l → pairwise separate l → pairwise (λ r s, list_key r ≠ list_key s) l.
Proof.
  induction l as [|r l IH]; [done|]. intros [Hr Hl]%Forall_cons Hs [Hsep Hp]. split.
  - rewrite list.Forall_forall in Hsep |- *. intros s Hin [= Hst Hen Ho]. destruct Hr as (Hv&_).
    assert (holds (r :: l) (owner r) (start r) (lock_kind r) (pid r)) by (exists r; split_and!; [by left|done|unfold covers; lia|done|done]).
    assert (holds (r :: l) (owner r) (start r) (lock_kind s) (pid s)) by (exists s; split_and!; [by right|done|unfold covers; lia|done|done]).
    destruct (Hs (owner r) (start r) (lock_kind r) (lock_kind s) (pid r) (pid s)) as [Hk Hd]; [done..|]. destruct (Hsep s Hin Ho Hk Hd); lia.
  - apply IH; [done| |done]. intros o x k k' p p' H1 H2. apply (Hs o x k k' p p'); rewrite holds_cons; by right.
Qed.
Lemma distinct_sorted l :
  pairwise (λ r s, list_key r ≠ list_key s) l → StronglySorted (λ r s, list_key r ≤o list_key s) l → StronglySorted (λ r s, list_key r <o list_key s) l.
Proof.
  induction l as [|r l IH]; intros Hp Hs; [constructor|]. destruct Hp as [Hr Hp]. apply StronglySorted_inv in Hs as [Hs Hle].
  constructor; [by apply IH|]. rewrite list.Forall_forall in Hr, Hle |- *. intros s Hin. destruct (proj1 (ole_iff _ _) (Hle s Hin)); [done|]. by destruct (Hr s Hin).
Qed.
Lemma canonicalize_spec l : Forall valid l → single l →
  let l' := canonicalize_record_locks l in
  locks_wf l' ∧ (length l' ≤ length l)%nat ∧ ∀ o x k p, holds l' o x k p ↔ holds l o x k p.
Proof.
  intros Hv Hs. unfold canonicalize_record_locks. set (l0 := sort_by_key join_key l). assert (Hp0 : l0 ≡ₚ l) by apply sort_by_key_perm.
  destruct (join_locks_spec [] l0) as (Hv1&Hb1&Hlen1&Hh1); [done|by rewrite Hp0|done|apply sort_by_key_sorted|done|].
  set (l1 := join_locks [] l0) in *. set (l2 := sort_by_key list_key l1). assert (Hp2 : l2 ≡ₚ l1) by apply sort_by_key_perm.
  assert (Hh : ∀ o x k p, holds l2 o x k p ↔ holds l o x k p) by (intros o x k p; by rewrite Hp2, Hh1, app_nil_l, Hp0).
  assert (Hv2 : Forall valid l2) by (by rewrite Hp2). assert (Hs2 : single l2) by (intros o x k k' p p'; rewrite !Hh; apply Hs).
  assert (Hsep : pairwise separate l2).
  { rewrite Hp2. clear -Hb1. revert Hb1. generalize l1. intros m. induction m as [|r m IH]; [done|]. intros [Hr Hl]. split; [|by apply IH].
    eapply list.Forall_impl; [exact Hr|]. intros. by apply before_separate. }
  cbv zeta. split_and!; [split; [done..|]|rewrite Hp2; cbn [length] in Hlen1; by rewrite <-Hp0|done].
  apply distinct_sorted; [by apply single_separate_key|apply sort_by_key_sorted].
Qed.
(** The list is determined by what is held. *)
Lemma wf_touching l r s : locks_wf l → r ∈ l → s ∈ l → owner r = owner s → lock_kind r = lock_kind s → pid r = pid s →
  start s ≤ end_ r + 1 → start r ≤ end_ s + 1 → r = s.
Proof.
  intros Hl Hr Hs Ho Hk Hp H1 H2. destruct (decide (r = s)) as [|Hne]; [done|].
  destruct (pairwise_elem separate l r s (lw_separate _ Hl) Hr Hs Hne Ho Hk Hp); lia.
Qed.
Lemma wf_included l1 l2 r : locks_wf l1 → locks_wf l2 → (∀ o x k p, holds l1 o x k p ↔ holds l2 o x k p) → r ∈ l1 → r ∈ l2.
Proof.
  intros H1 H2 Hh Hr. pose proof (proj1 (list.Forall_forall _ _) (lw_valid _ H1) r Hr) as (Hv&_).
  assert (Hin : ∀ x, covers r x → ∃ s, s ∈ l2 ∧ owner s = owner r ∧ covers s x ∧ lock_kind s = lock_kind r ∧ pid s = pid r).
  { intros x Hx. apply Hh. exists r. done. }
  assert (Hback : ∀ s x, s ∈ l2 → owner s = owner r → lock_kind s = lock_kind r → pid s = pid r → covers s x → start r - 1 ≤ x ≤ end_ r + 1 → covers r x).
  { intros s x Hs Ho Hk Hp Hx Hxr. destruct (proj2 (Hh (owner r) x (lock_kind r) (pid r))) as (r'&Hr'&Ho'&Hx'&Hk'&Hp'); [by exists s|].
    rewrite (wf_touching l1 r r'); try done; unfold covers in *; lia. }
  destruct (Hin (start r)) as (s&Hs&Ho&Hx&Hk&Hp); [unfold covers; lia|].
  assert (start s = start r).
  { destruct (Z.lt_ge_cases (start s) (start r)); [|unfold covers in *; lia]. pose proof (Hback s (start r - 1) Hs Ho Hk Hp) as Hb. unfold covers in *. lia. }
  assert (Hle : end_ s ≤ end_ r).
  { destruct (Z.lt_ge_cases (end_ r) (end_ s)); [|done]. pose proof (Hback s (end_ r + 1) Hs Ho Hk Hp) as Hb. unfold covers in *. lia. }
  assert (end_ s = end_ r).
  { destruct (Z.lt_ge_cases (end_ s) (end_ r)) as [Hlt|]; [|lia]. destruct (Hin (end_ s + 1)) as (t&Ht&Ho'&Hx'&Hk'&Hp'); [unfold covers in *; lia|].
    assert (s = t) as <-; [|unfold covers in *; lia]. apply (wf_touching l2); try congruence; try done; unfold covers in *; [lia|].
    pose proof (proj1 (list.Forall_forall _ _) (lw_valid _ H2) s Hs) as (?&_). pose proof (proj1 (list.Forall_forall _ _) (lw_valid _ H2) t Ht) as (?&_). lia. }
  replace r with s; [done|]. destruct r, s. cbn in *. congruence.
Qed.
Lemma wf_unique l1 l2 : locks_wf l1 → locks_wf l2 → (∀ o x k p, holds l1 o x k p ↔ holds l2 o x k p) → l1 = l2.
Proof.
  intros H1 H2 Hh. assert (Hs : ∀ l, locks_wf l → Sorted (λ r s, list_key r <o list_key s) l) by (intros; by apply StronglySorted_Sorted, lw_sorted).
  assert (Hnd : ∀ l, locks_wf l → NoDup l).
  { intros l Hl. pose proof (lw_sorted _ Hl) as Hsl. clear -Hsl. induction Hsl as [|r l _ IH Hr]; constructor; [|done]. intros Hin.
    rewrite list.Forall_forall in Hr. by apply (olt_irrefl (list_key r)), Hr. }
  rewrite <-(sort_by_key_idemp list_key l1), <-(sort_by_key_idemp list_key l2) by auto. symmetry. apply sort_by_key_strict; [|rewrite sort_by_key_idemp; auto].
  apply NoDup_Permutation; [auto..|]. intros r. by split; apply wf_included.
Qed.

(** ** Replacing a range of an owner *)
Lemma holds_if (b : bool) r o x k p : holds (if b then [r] else []) o x k p ↔ b = true ∧ holds [r] o x k p.
Proof. destruct b; [tauto|]. split; [by intros (?&[]%not_elem_of_nil&_)|by intros [? _]]. Qed.
Lemma cut_holds requested r o x k p : valid r → 0 ≤ start requested ≤ end_ requested →
  holds (cut_lock requested r) o x k p ↔ holds [r] o x k p ∧ ¬ (o = owner requested ∧ covers requested x).
Proof.
  intros (Hv&_&_) Hr. unfold cut_lock, overlaps. rewrite holds_one. destruct (Z.eqb_spec (owner r) (owner requested)) as [Ho|Ho]; cbn [negb orb].
  2: { rewrite holds_one. split; [|tauto]. intros (<-&?&?&?). split; [done|]. intros [? _]. done. }
  destruct ((start r <=? end_ requested) && (start requested <=? end_ r)) eqn:Hov; cbn [negb].
  - rewrite holds_app, !holds_if, !holds_one, !Z.ltb_lt. apply andb_true_iff in Hov as [?%Z.leb_le ?%Z.leb_le].
    unfold covers; cbn [set_start set_end owner start end_ lock_kind pid].
    assert (start r ≤ x ≤ end_ r ∧ ¬ start requested ≤ x ≤ end_ requested ↔
      start r < start requested ∧ start r ≤ x ≤ start requested - 1 ∨ end_ requested < end_ r ∧ end_ requested + 1 ≤ x ≤ end_ r) by lia.
    rewrite <-Ho. destruct (decide (owner r = o)) as [->|]; [|tauto]. tauto.
  - rewrite holds_one. apply andb_false_iff in Hov. rewrite !Z.leb_gt in Hov. split; [|tauto]. intros (Ho'&Hx&Hk). split; [done|]. unfold covers in *. lia.
Qed.
Lemma cuts_holds requested held o x k p : Forall valid held → 0 ≤ start requested ≤ end_ requested →
  holds (held ≫= cut_lock requested) o x k p ↔ holds held o x k p ∧ ¬ (o = owner requested ∧ covers requested x).
Proof.
  intros Hv Hr. induction Hv as [|r held Hv _ IH]; [split; [by intros (?&[]%not_elem_of_nil&_)|by intros [(?&[]%not_elem_of_nil&_) _]]|].
  cbn [mbind list_bind]. rewrite holds_app, (holds_cons r held), cut_holds, IH by done. tauto.
Qed.
Lemma Forall_if (P : RecordLock → Prop) (b : bool) r : (b = true → P r) → Forall P (if b then [r] else []).
Proof. destruct b; intros Hr; [apply Forall_singleton; auto|done]. Qed.
Lemma cut_valid requested r : valid r → 0 ≤ start requested ≤ end_ requested → Forall valid (cut_lock requested r).
Proof.
  intros Hv Hr. pose proof Hv as (?&?&?). unfold cut_lock. destruct (_ || _) eqn:Hb; [by apply Forall_singleton|].
  apply orb_false_iff in Hb as [_ [?%Z.leb_le ?%Z.leb_le]%negb_false_iff%andb_true_iff]. apply Forall_app.
  split; apply Forall_if; intros ?%Z.ltb_lt; unfold valid; cbn [set_start set_end start end_ lock_kind]; split_and!; (lia || done).
Qed.
(** What an owner holds after its request *)
Definition requested_at (requested : RecordLock) (o x : Z) (k : LockKind) (p : Z) (before : Prop) : Prop :=
  if decide (o = owner requested ∧ start requested ≤ x ≤ end_ requested)
  then lock_kind requested ≠ Unlock ∧ k = lock_kind requested ∧ p = pid requested
  else before.
Lemma replace_spec held requested : locks_wf held → 0 ≤ start requested ≤ end_ requested → end_ requested ≤ u64_max →
  Z.of_nat (length held) + 3 ≤ u64_max →
  ∃ updated, replace_owner_lock_range held requested = Ok updated ∧ locks_wf updated ∧
    ∀ o x k p, holds updated o x k p ↔ requested_at requested o x k p (holds held o x k p).
Proof.
  intros Hw Hr Hm Hlen. unfold replace_owner_lock_range. rewrite checked_add_ok by lia. cbn [ok_or]. rewrite Ok_bind.
  set (l := _ ++ _). assert (Hh : ∀ o x k p, holds l o x k p ↔ requested_at requested o x k p (holds held o x k p)).
  { intros o x k p. unfold l, requested_at. rewrite holds_app, cuts_holds by (done || apply Hw). destruct (decide (lock_kind requested = Unlock)) as [Hu|Hu].
    - assert (holds [] o x k p ↔ False) as -> by (split; [by intros (?&[]%not_elem_of_nil&_)|done]). unfold covers. case_decide; tauto.
    - rewrite holds_one. unfold covers. case_decide; [|naive_solver]. naive_solver. }
  destruct (canonicalize_spec l) as (Hwf&_&Hc).
  - unfold l. apply Forall_app. split; [|by case_decide; [|apply Forall_singleton]].
    pose proof (lw_valid _ Hw) as Hv. clear -Hv Hr. induction Hv; cbn [mbind list_bind]; [done|]. apply Forall_app. split; [by apply cut_valid|done].
  - intros o x k k' p p'. rewrite !Hh. unfold requested_at. case_decide; [naive_solver|]. apply (lw_single _ Hw).
  - eexists. split_and!; [done|done|]. intros o x k p. by rewrite Hc, Hh.
Qed.

(** ** Conflicts *)
Definition conflict_at held requested : Prop :=
  ∃ o x k p, o ≠ owner requested ∧ covers requested x ∧ holds held o x k p ∧ (k = WriteLock ∨ lock_kind requested = WriteLock).
Lemma conflicts_spec r requested : valid r → 0 ≤ start requested ≤ end_ requested →
  conflicts r requested = true ↔ owner r ≠ owner requested ∧ (∃ x, covers r x ∧ covers requested x) ∧ (lock_kind r = WriteLock ∨ lock_kind requested = WriteLock).
Proof.
  intros (Hv&_) Hr. unfold conflicts. rewrite !andb_true_iff, orb_true_iff, !bool_decide_eq_true, negb_true_iff, Z.eqb_neq, !Z.leb_le. unfold covers.
  assert ((∃ x, start r ≤ x ≤ end_ r ∧ start requested ≤ x ≤ end_ requested) ↔ start r ≤ end_ requested ∧ start requested ≤ end_ r); [|tauto].
  split; [intros (x&?&?); lia|]. intros [? ?]. exists (Z.max (start r) (start requested)). lia.
Qed.
Lemma first_conflict_some held requested r : first_lock_conflict held requested = Some r → r ∈ held ∧ conflicts r requested = true.
Proof.
  unfold first_lock_conflict. intros Hh. assert (Hin : r ∈ filter (λ c, conflicts c requested = true) held).
  { destruct (filter _ held) as [|y ys]; [done|]. injection Hh as ->. by left. }
  apply list_elem_of_filter in Hin. tauto.
Qed.
Lemma first_conflict_none held requested : first_lock_conflict held requested = None → ∀ r, r ∈ held → conflicts r requested = false.
Proof.
  unfold first_lock_conflict. intros Hh r Hr. destruct (conflicts r requested) eqn:Hc; [|done].
  assert (Hin : r ∈ filter (λ c, conflicts c requested = true) held) by (by apply list_elem_of_filter).
  destruct (filter _ held); [by apply not_elem_of_nil in Hin|done].
Qed.
Lemma first_conflict_iff held requested : Forall valid held → 0 ≤ start requested ≤ end_ requested →
  is_Some (first_lock_conflict held requested) ↔ conflict_at held requested.
Proof.
  intros Hv Hr. rewrite list.Forall_forall in Hv. split.
  - intros [r [Hin Hc]%first_conflict_some]. apply conflicts_spec in Hc as (Ho&(x&Hx&Hx')&Hk); [|by apply Hv|done].
    exists (owner r), x, (lock_kind r), (pid r). split_and!; [done|done|by exists r|done].
  - intros (o&x&k&p&Ho&Hx&(r&Hin&<-&Hx'&<-&_)&Hk). destruct (first_lock_conflict held requested) eqn:Hf; [by eexists|].
    pose proof (first_conflict_none _ _ Hf r Hin) as Hn. rewrite (proj2 (conflicts_spec r requested (Hv r Hin) Hr)) in Hn; [done|]. split_and!; [done|by exists x|done].
Qed.
(** Without a conflict the list stays free of conflicts. *)
Lemma replace_shared held updated requested : shared held → (lock_kind requested = Unlock ∨ ¬ conflict_at held requested) →
  (∀ o x k p, holds updated o x k p ↔ requested_at requested o x k p (holds held o x k p)) → (∀ o x k p, holds held o x k p → k ≠ Unlock) → shared updated.
Proof.
  intros Hs Hn Hu Hk o o' x k k' p p' Hne H1 H2. rewrite Hu in H1, H2. unfold requested_at in *.
  assert (Hone : ∀ o x k p, o ≠ owner requested → start requested ≤ x ≤ end_ requested → lock_kind requested ≠ Unlock → holds held o x k p →
    k = ReadLock ∧ lock_kind requested = ReadLock).
  { intros o1 x1 k1 p1 Ho1 Hx1 Hun Hh. pose proof (Hk _ _ _ _ Hh). destruct Hn as [|Hn]; [done|].
    assert (¬ (k1 = WriteLock ∨ lock_kind requested = WriteLock)) by (intros ?; apply Hn; exists o1, x1, k1, p1; done).
    destruct k1, (lock_kind requested); naive_solver. }
  destruct (decide (o = owner requested ∧ start requested ≤ x ≤ end_ requested)) as [Hd|Hd], (decide (o' = owner requested ∧ start requested ≤ x ≤ end_ requested)) as [Hd'|Hd'];
    [naive_solver|..|by eapply Hs].
  - destruct H1 as (Hun&->&_). destruct (Hone o' x k' p'); [naive_solver..|]. done.
  - destruct H2 as (Hun&->&_). destruct (Hone o x k p); [naive_solver..|]. done.
Qed.
End RecordLocksOps.
