(* ===== verification/LockHistory.v ===== *)
(** * The lock table over histories of requests *)
From S2P Require Export RecordLocksOps MapSum.

Module LockHistory.
Import SparseData InodeMetadata FileCatalog RecordLocks RecordLocksOps.

(** ** Invariant *)
Definition list_length (_ : Z) (l : list RecordLock) : Z := Z.of_nat (length l).
Record table_wf (t : LockTable) : Prop := {
  tw_lists inode l : by_inode t !! inode = Some l → locks_wf l ∧ shared l ∧ l ≠ [];
  tw_count : record_count t = msum list_length (by_inode t);
  tw_bound : record_count t ≤ MAXIMUM_RECORD_LOCKS;
}.
Definition held_in (t : LockTable) (inode : Z) : list RecordLock := default [] (by_inode t !! inode).
(** What an owner holds at a position of a file *)
Definition lock_at (t : LockTable) (inode o x : Z) (k : LockKind) (p : Z) : Prop := holds (held_in t inode) o x k p.
Lemma nil_wf : locks_wf [] ∧ shared [].
Proof.
  assert (Hn : ∀ o x k p, ¬ holds [] o x k p) by (intros o x k p (?&[]%not_elem_of_nil&_)).
  split; [split; [done|intros o x k k' p p' H; by apply Hn in H|done|apply SSorted_nil]|]. intros o o' x k k' p p' _ H. by apply Hn in H.
Qed.
Lemma held_wf t inode : table_wf t → locks_wf (held_in t inode) ∧ shared (held_in t inode).
Proof.
  intros Ht. unfold held_in. destruct (by_inode t !! inode) as [l|] eqn:Hl; [|apply nil_wf]. destruct (tw_lists _ Ht _ _ Hl) as (?&?&_). done.
Qed.
Lemma record_count_nonneg t : table_wf t → 0 ≤ record_count t.
Proof. intros Ht. rewrite (tw_count _ Ht). apply msum_nonneg. intros. unfold list_length. lia. Qed.
Lemma held_length t inode : table_wf t → Z.of_nat (length (held_in t inode)) ≤ record_count t ∧ record_count t ≤ MAXIMUM_RECORD_LOCKS.
Proof.
  intros Ht. split; [|apply Ht]. unfold held_in. destruct (by_inode t !! inode) as [l|] eqn:Hl; cbn [default length]; [|by apply record_count_nonneg].
  rewrite (tw_count _ Ht). apply (msum_lookup_le list_length _ inode l); [|done]. intros. unfold list_length. lia.
Qed.
Lemma held_install t inode l n j : held_in (install_locks t inode l n) j = if decide (j = inode) then l else held_in t j.
Proof.
  unfold held_in, install_locks. cbn [by_inode]. destruct l as [|r l].
  - case_decide; [subst; by rewrite lookup_delete_eq|by rewrite lookup_delete_ne].
  - case_decide; [subst; by rewrite lookup_insert_eq|by rewrite lookup_insert_ne].
Qed.
Lemma install_wf t inode l n : table_wf t → locks_wf l → shared l → n ≤ MAXIMUM_RECORD_LOCKS →
  n = record_count t - Z.of_nat (length (held_in t inode)) + Z.of_nat (length l) → table_wf (install_locks t inode l n).
Proof.
  intros Ht Hl Hs Hn Hc. assert (Hold : from_option (list_length inode) 0 (by_inode t !! inode) = Z.of_nat (length (held_in t inode))).
  { unfold held_in. by destruct (by_inode t !! inode). }
  split; cbn [install_locks by_inode record_count]; [|rewrite Hc, (tw_count _ Ht), <-Hold|done].
  - intros j l'. destruct l as [|r l].
    + intros [Hj Hl']%lookup_delete_Some. by apply (tw_lists _ Ht j).
    + intros [[<- <-]|[Hj Hl']]%lookup_insert_Some; [done|by apply (tw_lists _ Ht j)].
  - destruct l; [rewrite msum_delete|rewrite msum_insert]; unfold list_length; cbn [length]; lia.
Qed.

(** ** Requests *)
Lemma validate_handle_ok c inode handle : pins c → validate_lock_handle c inode handle ≠ Panic.
Proof.
  intros Hp. unfold validate_lock_handle, resolve_open_file. destruct (handles c !! handle) as [open|] eqn:Hh; cbn [ok_or]; [|done]. rewrite !Ok_bind.
  destruct (Z.eqb_spec (handle_inode open) inode) as [<-|]; cbn [negb reject_if]; [|done]. rewrite !Ok_bind.
  destruct (Hp _ _ Hh) as [object ->]. cbn [expect]. rewrite !Ok_bind. by destruct (bool_decide _).
Qed.
(** The checks that come before the table is read *)
Definition set_lock_checks (c : Catalog) (inode handle : Z) (requested : FileLock) : presult () :=
  open ← validate_lock_handle c inode handle;
  validate_lock_request requested true;;
  reject_if (lock_denied (req_kind requested) (access (options open))) BadHandle.
Definition in_range (lock : FileLock) : Prop := 0 ≤ req_start lock ∧ req_end lock ≤ u64_max.
(** What a request does: its error exactly when it has one, and otherwise the
    new holdings. *)
Definition set_lock_result (s : LockState) (inode o : Z) (requested : FileLock) (r : presult LockState) : Prop :=
  match r with
  | Ok s' => (req_kind requested = Unlock ∨ ¬ conflict_at (held_in (locks s) inode) (from_request o requested)) ∧ table_wf (locks s') ∧
      (∀ i o' x k p, lock_at (locks s') i o' x k p ↔
        if decide (i = inode) then requested_at (from_request o requested) o' x k p (lock_at (locks s) i o' x k p) else lock_at (locks s) i o' x k p) ∧
      (s' = s ∨ lock_change_sequence s' = lock_change_sequence s + 1 ∧ held_in (locks s') inode ≠ held_in (locks s) inode)
  | Err Again => req_kind requested ≠ Unlock ∧ conflict_at (held_in (locks s) inode) (from_request o requested)
  | Err NoLocks => ∃ updated, replace_owner_lock_range (held_in (locks s) inode) (from_request o requested) = Ok updated ∧
      MAXIMUM_RECORD_LOCKS < record_count (locks s) - Z.of_nat (length (held_in (locks s) inode)) + Z.of_nat (length updated)
  | _ => False
  end.
Lemma announce_ok s t : 0 ≤ lock_change_sequence s < u64_max →
  announce_lock_change s t = Ok {| locks := t; lock_change_sequence := lock_change_sequence s + 1 |}.
Proof. intros Hs. unfold announce_lock_change. by rewrite checked_add_ok by lia. Qed.
Lemma unlock_never l o x k p : Forall valid l → holds l o x k p → k ≠ Unlock.
Proof. intros Hv (r&Hr&_&_&<-&_). rewrite list.Forall_forall in Hv. by destruct (Hv r Hr) as (_&_&?). Qed.
Lemma set_lock_spec c s inode handle o requested : table_wf (locks s) → 0 ≤ lock_change_sequence s < u64_max → in_range requested →
  match set_lock_checks c inode handle requested with
  | Ok _ => set_lock_result s inode o requested (set_lock c s inode handle o requested)
  | Err e => set_lock c s inode handle o requested = Err e
  | Panic => set_lock c s inode handle o requested = Panic
  end.
Proof.
  intros Ht Hseq [Hr0 Hr1]. unfold set_lock_checks, set_lock. destruct (validate_lock_handle c inode handle) as [open| |]; [|done|done]. rewrite !Ok_bind.
  unfold validate_lock_request. rewrite !reject_Err. destruct ((req_end requested <? req_start requested) || _) eqn:Hv; [done|].
  apply orb_false_iff in Hv as [Hle%Z.ltb_ge _]. destruct (lock_denied _ _); [done|].
  cbn [reject_if]. cbv zeta. set (q := from_request o requested). fold (held_in (locks s) inode). set (held := held_in (locks s) inode).
  destruct (held_wf (locks s) inode Ht) as [Hw Hs]. fold held in Hw, Hs. destruct (held_length (locks s) inode Ht) as [Hlen Hmax]. fold held in Hlen.
  assert (Hq : 0 ≤ start q ≤ end_ q) by (cbn [q from_request start end_]; lia). pose proof (first_conflict_iff held q (lw_valid _ Hw) Hq) as Hconf.
  change (lock_kind q) with (req_kind requested). destruct (bool_decide (req_kind requested ≠ Unlock) && _) eqn:Hc.
  { apply andb_true_iff in Hc as [Hk%bool_decide_eq_true Hc%bool_decide_eq_true]. split; [done|]. by apply Hconf. }
  assert (Hok : req_kind requested = Unlock ∨ ¬ conflict_at held q).
  { apply andb_false_iff in Hc as [Hk%bool_decide_eq_false|Hc%bool_decide_eq_false]; [left; by apply dec_stable|right; by rewrite <-Hconf]. }
  destruct (replace_spec held q Hw Hq Hr1) as (updated&Hup&Hwf&Hh); [unfold u64_max, MAXIMUM_RECORD_LOCKS in *; lia|]. rewrite Hup, Ok_bind.
  assert (Hat : ∀ t, held_in t inode = updated → (∀ i, i ≠ inode → held_in t i = held_in (locks s) i) → ∀ i o' x k p, lock_at t i o' x k p ↔
    if decide (i = inode) then requested_at q o' x k p (lock_at (locks s) i o' x k p) else lock_at (locks s) i o' x k p).
  { intros t Hin Hout i o' x k p. unfold lock_at. destruct (decide (i = inode)) as [->|Hi]; [rewrite Hin; apply Hh|by rewrite Hout]. }
  destruct (decide (updated = held)) as [Heq|Hne].
  { split_and!; [done|done| |by left]. apply Hat; [by rewrite Heq|done]. }
  unfold checked_sub. rewrite (proj2 (Z.leb_le _ _)) by lia. cbn [ok_or]. rewrite Ok_bind. unfold checked_add.
  destruct (Z.leb_spec (record_count (locks s) - Z.of_nat (length held) + Z.of_nat (length updated)) u64_max) as [Hu|Hu]; cbn [ok_or].
  2: { exists updated. split; [done|]. unfold held in *. unfold MAXIMUM_RECORD_LOCKS, u64_max in *. lia. }
  rewrite Ok_bind, reject_Err. destruct (Z.ltb_spec MAXIMUM_RECORD_LOCKS (record_count (locks s) - Z.of_nat (length held) + Z.of_nat (length updated))).
  { by exists updated. }
  rewrite announce_ok by done. cbn [set_lock_result locks lock_change_sequence]. split_and!; [done| | |].
  - apply install_wf; try done. apply (replace_shared held updated q); try done. intros o' x k p. by apply unlock_never, Hw.
  - apply Hat; [by rewrite held_install, decide_True|]. intros i Hi. by rewrite held_install, decide_False.
  - right. split; [done|]. by rewrite held_install, decide_True.
Qed.
Lemma filter_holds l o o' x k p : holds (filter (λ r, owner r ≠ o) l) o' x k p ↔ o' ≠ o ∧ holds l o' x k p.
Proof. unfold holds. setoid_rewrite list_elem_of_filter. naive_solver. Qed.
Lemma pairwise_filter {A} (R : A → A → Prop) (P : A → Prop) `{∀ x, Decision (P x)} l : pairwise R l → pairwise R (filter P l).
Proof.
  induction l as [|x l IH]; [done|]. intros [Hx Hl]. rewrite filter_cons. case_decide; [|by apply IH]. split; [|by apply IH].
  rewrite list.Forall_forall in Hx |- *. intros y [_ Hy]%list_elem_of_filter. by apply Hx.
Qed.
Lemma filter_wf l o : locks_wf l → shared l → locks_wf (filter (λ r, owner r ≠ o) l) ∧ shared (filter (λ r, owner r ≠ o) l).
Proof.
  intros Hl Hs. split; [split|].
  - pose proof (lw_valid _ Hl) as Hv. rewrite list.Forall_forall in Hv |- *. intros r [_ Hr]%list_elem_of_filter. by apply Hv.
  - intros o' x k k' p p'. rewrite !filter_holds. intros [_ H1] [_ H2]. by apply (lw_single _ Hl o' x).
  - by apply pairwise_filter, Hl.
  - pose proof (lw_sorted _ Hl) as Hso. clear -Hso. induction Hso as [|r l _ IH Hr]; [apply SSorted_nil|]. rewrite filter_cons. case_decide; [|done].
    apply SSorted_cons; [done|]. rewrite list.Forall_forall in Hr |- *. intros s [_ Hs]%list_elem_of_filter. by apply Hr.
  - intros o1 o2 x k k' p p' Hne. rewrite !filter_holds. intros [_ H1] [_ H2]. by apply (Hs o1 o2 x k k' p p').
Qed.
Lemma filter_full {A} (P : A → Prop) `{∀ x, Decision (P x)} l : (length l ≤ length (filter P l))%nat → filter P l = l.
Proof.
  induction l as [|x l IH]; [done|]. rewrite filter_cons. pose proof (length_filter P l). case_decide; cbn [length]; intros; [|lia]. f_equal. apply IH. lia.
Qed.
Definition unlock_result (s : LockState) (inode o : Z) (s' : LockState) : Prop :=
  table_wf (locks s') ∧
  (∀ i o' x k p, lock_at (locks s') i o' x k p ↔ ¬ (i = inode ∧ o' = o) ∧ lock_at (locks s) i o' x k p) ∧
  (s' = s ∨ lock_change_sequence s' = lock_change_sequence s + 1 ∧ held_in (locks s') inode ≠ held_in (locks s) inode).
Lemma unlock_owner_spec c s inode handle o : table_wf (locks s) → 0 ≤ lock_change_sequence s < u64_max →
  match validate_lock_handle c inode handle with
  | Ok _ => ∃ s', unlock_owner c s inode handle o = Ok s' ∧ unlock_result s inode o s'
  | Err e => unlock_owner c s inode handle o = Err e
  | Panic => unlock_owner c s inode handle o = Panic
  end.
Proof.
  intros Ht Hseq. unfold unlock_owner. destruct (validate_lock_handle c inode handle); [|done|done]. rewrite Ok_bind.
  destruct (by_inode (locks s) !! inode) as [held|] eqn:Hl.
  2: { exists s. split; [done|]. split; [done|split; [|by left]]. intros i o' x k p. split; [|tauto]. intros Hh. split; [|done]. intros [-> ->].
       unfold lock_at, held_in in Hh. rewrite Hl in Hh. by destruct Hh as (?&[]%not_elem_of_nil&_). }
  assert (Hheld : held_in (locks s) inode = held) by (unfold held_in; by rewrite Hl). destruct (tw_lists _ Ht _ _ Hl) as (Hw&Hs&_).
  destruct (held_length (locks s) inode Ht) as [Hlen Hmax]. rewrite Hheld in Hlen. set (kept := filter _ held). destruct (filter_wf held o Hw Hs) as [Hkw Hks].
  assert (Hle : (length kept ≤ length held)%nat) by apply length_filter.
  assert (Hat : ∀ t, (∀ i, held_in t i = if decide (i = inode) then kept else held_in (locks s) i) →
    ∀ i o' x k p, lock_at t i o' x k p ↔ ¬ (i = inode ∧ o' = o) ∧ lock_at (locks s) i o' x k p).
  { intros t Hi i o' x k p. unfold lock_at. rewrite Hi. destruct (decide (i = inode)) as [->|]; [|tauto]. rewrite Hheld. unfold kept. rewrite filter_holds. tauto. }
  cbv zeta. destruct (Nat.eqb_spec (length held - length kept) 0) as [He|He].
  { exists s. split; [done|]. split; [done|split; [|by left]]. apply Hat. intros i. destruct (decide (i = inode)) as [->|]; [|done]. rewrite Hheld.
    symmetry. apply filter_full. fold kept. lia. }
  unfold checked_sub. rewrite (proj2 (Z.leb_le _ _)) by lia. cbn [expect]. rewrite Ok_bind, announce_ok by done. eexists. split; [done|].
  unfold unlock_result. cbn [locks lock_change_sequence]. split_and!.
  - apply install_wf; try done; [unfold kept in *; lia|]. rewrite Hheld. lia.
  - apply Hat. intros i. apply held_install.
  - right. split; [done|]. rewrite held_install, decide_True, Hheld by done. intros Heq. rewrite Heq in He. lia.
Qed.

(** ** Histories *)

(** Requests of any handles, against whatever the catalog is at the time; a
    request with an error leaves the table as it was. *)
Inductive lock_op :=
  | SetLock (c : Catalog) (inode handle o : Z) (requested : FileLock)
  | UnlockOwner (c : Catalog) (inode handle o : Z).
Definition lock_op_ok (op : lock_op) : Prop :=
  match op with SetLock c _ _ _ requested => pins c ∧ in_range requested | UnlockOwner c _ _ _ => pins c end.
Definition lock_step (s : LockState) (op : lock_op) : presult LockState :=
  let r := match op with
           | SetLock c inode handle o requested => set_lock c s inode handle o requested
           | UnlockOwner c inode handle o => unlock_owner c s inode handle o
           end in
  match r with Ok s' => Ok s' | Err _ => Ok s | Panic => Panic end.
Fixpoint lock_run (s : LockState) (ops : list lock_op) : presult LockState :=
  match ops with [] => Ok s | op :: ops => s ← lock_step s op; lock_run s ops end.
Definition empty_locks : LockState := {| locks := {| by_inode := ∅; record_count := 0 |}; lock_change_sequence := 0 |}.
Lemma empty_locks_wf : table_wf (locks empty_locks).
Proof. split; [intros inode l Hl; cbn [empty_locks locks by_inode] in Hl; by rewrite lookup_empty in Hl|done|done]. Qed.
Lemma checks_ok c inode handle requested : pins c → set_lock_checks c inode handle requested ≠ Panic.
Proof.
  intros Hp. unfold set_lock_checks. pose proof (validate_handle_ok c inode handle Hp). destruct (validate_lock_handle c inode handle); [|done|done].
  rewrite Ok_bind. unfold validate_lock_request. rewrite reject_Err. destruct (_ || _); [done|]. by destruct (lock_denied _ _).
Qed.
Lemma lock_step_spec s op : table_wf (locks s) → 0 ≤ lock_change_sequence s < u64_max → lock_op_ok op →
  ∃ s', lock_step s op = Ok s' ∧ table_wf (locks s') ∧ lock_change_sequence s ≤ lock_change_sequence s' ≤ lock_change_sequence s + 1.
Proof.
  intros Ht Hseq Hop. destruct op as [c inode handle o requested|c inode handle o]; unfold lock_step; cbv zeta; cbn [lock_op_ok] in Hop.
  - destruct Hop as [Hp Hr]. pose proof (set_lock_spec c s inode handle o requested Ht Hseq Hr) as Hs. pose proof (checks_ok c inode handle requested Hp).
    destruct (set_lock_checks c inode handle requested); [|rewrite Hs; exists s; split_and!; (done || lia)|done].
    destruct (set_lock c s inode handle o requested) as [s'|e|]; [|exists s; split_and!; (done || lia)|done].
    destruct Hs as (_&?&_&[->|[? _]]); eexists; split_and!; (done || lia).
  - pose proof (unlock_owner_spec c s inode handle o Ht Hseq) as Hs. pose proof (validate_handle_ok c inode handle Hop).
    destruct (validate_lock_handle c inode handle); [|rewrite Hs; exists s; split_and!; (done || lia)|done].
    destruct Hs as (s'&->&?&_&[->|[? _]]); eexists; split_and!; (done || lia).
Qed.
Lemma lock_run_spec s ops : table_wf (locks s) → 0 ≤ lock_change_sequence s → lock_change_sequence s + Z.of_nat (length ops) ≤ u64_max → Forall lock_op_ok ops →
  ∃ s', lock_run s ops = Ok s' ∧ table_wf (locks s').
Proof.
  intros Ht H0 Hlen Hops. revert s Ht H0 Hlen. induction Hops as [|op ops Hop _ IH]; intros s Ht H0 Hlen; cbn [lock_run length] in *; [by exists s|].
  destruct (lock_step_spec s op Ht ltac:(lia) Hop) as (s1&->&Ht1&Hs1). rewrite Ok_bind. apply IH; [done|lia|lia].
Qed.

(** ** The properties *)

(** An open file for reading and writing. *)
Definition example_catalog : Catalog := {|
  inodes := {[ 5 := {| kind := Regular; mode := 0; uid := 0; gid := 0; link_count := 1; inode_sequence := 0; metadata := default_metadata;
                       times := let t := {| seconds := 0; nanoseconds := 0 |} in {| atime := t; mtime := t; ctime := t |};
                       symlink_target := None; file := VersionedFile.new_empty 1; policy_name_matches := 0 |} ]};
  handles := {[ 9 := {| handle_inode := 5; options := {| access := ReadWrite; append_mode := false |} |} ]} |}.
Definition lock_request (a b : Z) (k : LockKind) : FileLock := {| req_start := a; req_end := b; req_kind := k; req_pid := 1 |}.
Lemma example_pins : pins example_catalog.
Proof. intros h open Hh. cbn [example_catalog handles] in Hh. apply lookup_singleton_Some in Hh as [<- <-]. by eexists. Qed.

(** C17: after any history of lock and unlock requests the table holds no two
    owners at one position of a file unless both read, the record count is the
    number of records and within its maximum, no assertion failed, and each
    inode's list is the canonical one. *)
Theorem record_locks_safe ops : Forall lock_op_ok ops → Z.of_nat (length ops) ≤ u64_max →
  ∃ s, lock_run empty_locks ops = Ok s ∧
    (∀ inode o o' x k k' p p', o ≠ o' → lock_at (locks s) inode o x k p → lock_at (locks s) inode o' x k' p' → k = ReadLock ∧ k' = ReadLock) ∧
    record_count (locks s) = msum list_length (by_inode (locks s)) ∧ record_count (locks s) ≤ MAXIMUM_RECORD_LOCKS ∧
    ∀ inode l, by_inode (locks s) !! inode = Some l → locks_wf l ∧ l ≠ [].
Proof.
  intros Hops Hlen. destruct (lock_run_spec empty_locks ops empty_locks_wf) as (s&Hr&Ht); [done|done|done|]. exists s. split_and!; [done| |apply Ht|apply Ht|].
  - intros inode. by destruct (held_wf (locks s) inode Ht) as [_ ?].
  - intros inode l Hl. destruct (tw_lists _ Ht _ _ Hl) as (?&_&?). done.
Qed.
Lemma record_locks_safe_witness : let ops := [SetLock example_catalog 5 9 1 (lock_request 0 9 WriteLock); SetLock example_catalog 5 9 2 (lock_request 5 7 ReadLock);
    SetLock example_catalog 5 9 1 (lock_request 4 9 Unlock); SetLock example_catalog 5 9 2 (lock_request 5 7 ReadLock)] in
  ∃ s, lock_run empty_locks ops = Ok s ∧
    (∀ inode o o' x k k' p p', o ≠ o' → lock_at (locks s) inode o x k p → lock_at (locks s) inode o' x k' p' → k = ReadLock ∧ k' = ReadLock) ∧
    record_count (locks s) = msum list_length (by_inode (locks s)) ∧ record_count (locks s) ≤ MAXIMUM_RECORD_LOCKS ∧
    ∀ inode l, by_inode (locks s) !! inode = Some l → locks_wf l ∧ l ≠ [].
Proof. apply record_locks_safe; [|done]. repeat (apply List.Forall_cons; [split; [apply example_pins|by split]|]). apply List.Forall_nil. Defined.

(** C18: a lock request whose handle and range are accepted returns EAGAIN exactly
    when another owner holds a conflicting lock on some byte of the range, ENOLCK
    exactly when the canonical lists would exceed the maximum, and otherwise
    gives its owner the range, or takes it away, and changes nothing else; the
    change sequence moves exactly when the list changes. *)
Theorem set_lock_exact c s inode handle o requested : table_wf (locks s) → 0 ≤ lock_change_sequence s < u64_max → in_range requested →
  match set_lock_checks c inode handle requested with
  | Ok _ => set_lock_result s inode o requested (set_lock c s inode handle o requested)
  | Err e => set_lock c s inode handle o requested = Err e
  | Panic => set_lock c s inode handle o requested = Panic
  end.
Proof. apply set_lock_spec. Qed.
Lemma set_lock_exact_witness :
  set_lock_result empty_locks 5 1 (lock_request 0 9 WriteLock) (set_lock example_catalog empty_locks 5 9 1 (lock_request 0 9 WriteLock)).
Proof. exact (set_lock_exact example_catalog empty_locks 5 9 1 (lock_request 0 9 WriteLock) empty_locks_wf ltac:(done) ltac:(done)). Defined.

(** The list of an inode is a normal form: two well-formed lists in which
    every owner holds the same at every position are the same list, so a request
    that changes nothing for any byte is recognised and not announced. *)
Theorem lock_list_canonical l1 l2 : locks_wf l1 → locks_wf l2 → (∀ o x k p, holds l1 o x k p ↔ holds l2 o x k p) → l1 = l2.
Proof. apply wf_unique. Qed.
Lemma lock_list_canonical_witness : canonicalize_record_locks [from_request 1 (lock_request 5 9 ReadLock); from_request 1 (lock_request 0 4 ReadLock)]
  = [from_request 1 (lock_request 0 9 ReadLock)].
Proof.
  assert (Hs : ∀ a b, single [from_request 1 (lock_request a b ReadLock)]).
  { intros a b o x k k' p p'. rewrite !holds_one. intros (_&_&<-&<-) (_&_&<-&<-). done. }
  apply lock_list_canonical.
  - apply canonicalize_spec; [repeat (apply List.Forall_cons; [by split_and!|]); apply List.Forall_nil|].
    intros o x k k' p p'. rewrite !(holds_cons _ [_]), !holds_one. naive_solver.
  - split; [apply Forall_singleton; by split_and!|apply Hs|by split|by repeat constructor].
  - intros o x k p. destruct (canonicalize_spec [from_request 1 (lock_request 5 9 ReadLock); from_request 1 (lock_request 0 4 ReadLock)]) as (_&_&->).
    + repeat (apply List.Forall_cons; [by split_and!|]); apply List.Forall_nil.
    + intros o' x' k1 k' p1 p'. rewrite !(holds_cons _ [_]), !holds_one. naive_solver.
    + rewrite (holds_cons _ [_]), !holds_one. unfold covers. cbn. split; [intros [?|?]; naive_solver lia|]. intros (?&?&?&?). destruct (Z.lt_ge_cases x 5); [right|left]; split_and!; (done || lia).
Defined.
End LockHistory.
