(* ===== verification/FileHandlers.v ===== *)
(** * File requests of the namespace ([Namespace] of [fastdup-posix/src/lib.rs])

    The handlers that write, resize and preallocate files and seek in them, with
    their checks, the admission of the change and the accounting of dirty
    payload.  Observers of mutations and the wake-up of waiters are left out. *)
From S2P Require Export Fallocate FileCatalog FileCapacity.

Module FileHandlers.
Import SparseData SparseDataOps RangeSet DirtyEpoch DirtyEpochOps VersionedFile VersionedFileOps VersionedFileRuns FileCommit Fallocate InodeMetadata FileCatalog FileCapacity.

(** ** Admission *)
Record CommitCapacityClaim := { metadata_bytes : Z; data_bytes : Z; small_file_bytes : Z }.
Definition claim_new (metadata data : Z) : CommitCapacityClaim := {| metadata_bytes := metadata; data_bytes := data; small_file_bytes := 0 |}.
Definition with_small_file_bytes (metadata small : Z) : CommitCapacityClaim :=
  {| metadata_bytes := metadata; data_bytes := 0; small_file_bytes := small |}.
Definition claim_is_empty (c : CommitCapacityClaim) : bool := (metadata_bytes c =? 0) && (data_bytes c =? 0) && (small_file_bytes c =? 0).
(** What the namespace asks of the quotas and of the appliance's physical
    admission, when there is one *)
Class Admission := {
  reserve_change : Z → Z → Z → presult ();
  try_reserve : option (CommitCapacityClaim → presult ());
}.
Definition reserve_commit_capacity `{Admission} (claim : CommitCapacityClaim) : presult () :=
  if claim_is_empty claim then Ok () else match try_reserve with Some reserve => reserve claim | None => Ok () end.
Definition DATA_RECORD_SAFETY_BYTES_V1 : Z := 4 * 1024.
Definition DATA_RECHUNK_MINIMUM_BYTES_V1 : Z := 256 * 1024.
Definition SMALL_FILE_SPILL_BYTES_V1 : Z := 8 * 1024 * 1024.
Definition write_capacity_claim (payload_bytes metadata : Z) (small_file : bool) : presult CommitCapacityClaim :=
  if payload_bytes =? 0 then Ok (claim_new 0 0)
  else
    doubled ← ok_or (checked_mul u64_max (Z.max payload_bytes DATA_RECHUNK_MINIMUM_BYTES_V1) 2) NoSpace;
    physical_bytes ← ok_or (checked_add u64_max doubled DATA_RECORD_SAFETY_BYTES_V1) NoSpace;
    if small_file then total ← ok_or (checked_add u64_max metadata physical_bytes) NoSpace; Ok (with_small_file_bytes total physical_bytes)
    else Ok (claim_new metadata physical_bytes).
(** user.fastdup.placement and its values metadata and data *)
Definition SMALL_FILE_PLACEMENT_XATTR : bytes :=
  [x75; x73; x65; x72; x2e; x66; x61; x73; x74; x64; x75; x70; x2e; x70; x6c; x61; x63; x65; x6d; x65; x6e; x74].
Definition placement_metadata : bytes := [x6d; x65; x74; x61; x64; x61; x74; x61].
Definition placement_data : bytes := [x64; x61; x74; x61].
Definition small_file_policy_with_name_match (size : Z) (m : InodeMetadata) (policy_name_matches : bool) : bool :=
  if SMALL_FILE_SPILL_BYTES_V1 <? size then false
  else match get_xattr m SMALL_FILE_PLACEMENT_XATTR with
       | Ok value => if decide (value = placement_metadata) then true else if decide (value = placement_data) then false else policy_name_matches
       | Err NoData => policy_name_matches
       | _ => false
       end.

(** ** State *)
Record Namespace := { catalog : Catalog; dirty_payload : Z }.
Definition resident_payload_bytes (f : VersionedFile) : Z := resident_bytes (data (active f)).
(** [DirtyPayloadTracker::replace], without the notification *)
Definition dirty_replace (current before after : Z) : presult Z :=
  match Z.compare after before with
  | Gt => expect (checked_add u64_max current (after - before))
  | Lt => expect (checked_sub current (before - after))
  | Eq => Ok current
  end.
Definition touched (st : InodeState) (f : VersionedFile) (sequence : Z) (now : PosixTimestamp) : InodeState :=
  {| kind := kind st; mode := mode st; uid := uid st; gid := gid st; link_count := link_count st; inode_sequence := sequence; metadata := metadata st;
     times := {| atime := atime (times st); mtime := now; ctime := now |}; symlink_target := symlink_target st; file := f;
     policy_name_matches := policy_name_matches st |}.
(** What every mutation of a file does after it *)
Definition finish_mutation (ns : Namespace) (inode : Z) (st : InodeState) (f : VersionedFile) (sequence : Z) (now : PosixTimestamp)
    : presult Namespace :=
  dirty ← (if 0 <? link_count st then dirty_replace (dirty_payload ns) (resident_payload_bytes (file st)) (resident_payload_bytes f)
           else Ok (dirty_payload ns));
  Ok {| catalog := {| inodes := <[inode := touched st f sequence now]> (inodes (catalog ns)); handles := handles (catalog ns) |};
        dirty_payload := dirty |}.

(** ** Handlers *)
Section Handlers.
Context `{Admission} (maximum_file_bytes : Z).

(** [Namespace::write_payload]; the reply is the bytes written, the sequence
    number and the offset *)
Definition write_payload (ns : Namespace) (now : PosixTimestamp) (inode handle requested_offset : Z) (payload : MutationPayload)
    : presult (Namespace * (Z * Z * Z)) :=
  written ← ok_or (try_from_u u32_max (blen (payload_bytes payload))) FileTooLarge;
  r ← resolve_open_file (catalog ns) inode handle;
  let st := r.1 in
  let f := file st in
  let matches := 0 <? policy_name_matches st in
  reject_if (bool_decide (access (options r.2) = AccessReadOnly)) BadHandle;;
  assert_true (bool_decide (kind st = Regular));;
  let offset := if append_mode (options r.2) then live_size f else requested_offset in
  let data_length := blen (payload_bytes payload) in
  if data_length =? 0 then Ok (ns, (0, inode_sequence st, offset))
  else
    reject_if (immutable st) PermissionDenied;;
    end_ ← ok_or (checked_add u64_max offset data_length) FileTooLarge;
    reject_if (maximum_file_bytes <? end_) FileTooLarge;;
    capacity ← plan_write_capacity (active f) offset data_length;
    let small_file := small_file_policy_with_name_match (Z.max (live_size f) end_) (metadata st) matches in
    claim ← write_capacity_claim data_length (write_metadata_bytes capacity) small_file;
    reserve_commit_capacity claim;;
    write_plan ← plan_write f offset data_length;
    remaining ← ok_or (checked_sub (live_allocated_bytes f) (overwritten write_plan)) NoSpace;
    logical_after ← ok_or (checked_add u64_max remaining data_length) NoSpace;
    reserve_change inode (live_allocated_bytes f) logical_after;;
    next_sequence ← ok_or (checked_add u64_max (inode_sequence st) 1) NoSpace;
    f' ← write_payload_planned f offset payload next_sequence write_plan;
    assert_true (live_allocated_bytes f' =? logical_after);;
    let f' := set_active f' (accept_write_capacity (active f') capacity) (live_allocated_bytes f') in
    ns ← finish_mutation ns inode st f' next_sequence now;
    Ok (ns, (written, next_sequence, offset)).
(** [Namespace::set_length] *)
Definition set_length (ns : Namespace) (now : PosixTimestamp) (inode : Z) (handle : option Z) (length : Z) : presult Namespace :=
  reject_if (maximum_file_bytes <? length) FileTooLarge;;
  st ← match handle with
       | Some handle =>
           r ← resolve_open_file (catalog ns) inode handle;
           reject_if (bool_decide (access (options r.2) = AccessReadOnly)) BadHandle;;
           Ok r.1
       | None => resolve_inode (catalog ns) inode
       end;
  reject_if (bool_decide (kind st = Directory)) IsDirectory;;
  reject_if (bool_decide (kind st ≠ Regular)) InvalidArgument;;
  reject_if (immutable st) PermissionDenied;;
  let f := file st in
  let current_size := live_size f in
  if length =? current_size then Ok ns
  else
    reserve_commit_capacity (if current_size <? length then claim_new MUTATION_METADATA_INCREMENT_BYTES_V1 0 else claim_new 0 0);;
    logical_after ← (if length <? current_size
                     then n ← allocated_in_range f length current_size; ok_or (checked_sub (live_allocated_bytes f) n) Io
                     else Ok (live_allocated_bytes f));
    reserve_change inode (live_allocated_bytes f) logical_after;;
    next_sequence ← ok_or (checked_add u64_max (inode_sequence st) 1) NoSpace;
    f' ← file_truncate f length next_sequence;
    assert_true (live_allocated_bytes f' =? logical_after);;
    finish_mutation ns inode st f' next_sequence now.
(** [Namespace::fallocate] *)
Definition fallocate (ns : Namespace) (now : PosixTimestamp) (inode handle offset length : Z) (mode : FallocateMode) (fresh : Z → Z)
    : presult Namespace :=
  reject_if (length =? 0) InvalidArgument;;
  end_ ← ok_or (checked_add u64_max offset length) FileTooLarge;
  r ← resolve_open_file (catalog ns) inode handle;
  let st := r.1 in
  reject_if (bool_decide (access (options r.2) = AccessReadOnly)) BadHandle;;
  reject_if (bool_decide (kind st ≠ Regular)) IsDirectory;;
  reject_if (immutable st) PermissionDenied;;
  f' ← fallocate_data (file st) (reserve_change inode) maximum_file_bytes (inode_sequence st) offset length end_ mode fresh;
  finish_mutation ns inode st f' (inode_sequence st + 1) now.
(** [Namespace::seek] *)
Definition seek (ns : Namespace) (inode handle offset : Z) (data : bool) : presult Z :=
  r ← resolve_open_file (catalog ns) inode handle;
  reject_if (bool_decide (kind r.1 ≠ Regular)) IsDirectory;;
  found ← (if data then seek_data (file r.1) offset else seek_hole (file r.1) offset);
  ok_or found NoSuchAddress.
End Handlers.
End FileHandlers.
