(* ===== verification/FileClone.v ===== *)
(** * Cloning ranges between files ([Namespace::clone_range] of
    [fastdup-posix/src/lib.rs])

    The recipes a committed file exports for a range, the check that they
    partition it, and the handler. *)
From S2P Require Export FileHandlers.

Module FileClone.
Import SparseData SparseDataOps DirtyEpoch DirtyEpochOps VersionedFile VersionedFileOps FileCommit InodeMetadata FileCatalog FileCapacity FileHandlers.

(** ** Recipes *)
Inductive PreparedDataRecipe :=
  | Chunk (chunk_id : bytes)
  | ChunkSlice (chunk_id : bytes) (chunk_length chunk_offset : Z)
  | Fill (value : byte).
Record PreparedCommitExtent := { prepared_offset : Z; prepared_length : Z; recipe : PreparedDataRecipe }.
Definition extent_new (offset length : Z) (recipe : PreparedDataRecipe) : presult PreparedCommitExtent :=
  assert_true (0 <? length);;
  assert_true (bool_decide (is_Some (checked_add u64_max offset length)));;
  Ok {| prepared_offset := offset; prepared_length := length; recipe := recipe |}.
(** [CommittedFile::prepared_clone_extents], the default *)
Definition default_clone_extents (prepared_data_recipe : option PreparedDataRecipe) (file : CommittedFile) (offset length : Z)
    : presult (option (list PreparedCommitExtent)) :=
  end_ ← ok_or (checked_add u64_max offset length) FileTooLarge;
  reject_if ((length =? 0) || (file_logical_size file <? end_)) InvalidArgument;;
  n ← allocated_bytes_in_range file offset length;
  if negb (n =? length) then Ok None
  else match prepared_data_recipe with
  | None => Ok None
  | Some recipe =>
      recipe ← match recipe with
               | Chunk chunk_id =>
                   chunk_length ← ok_or (try_from_u u32_max (file_logical_size file)) FileTooLarge;
                   if (offset =? 0) && (length =? file_logical_size file) then Ok (Chunk chunk_id)
                   else chunk_offset ← ok_or (try_from_u u32_max offset) FileTooLarge; Ok (ChunkSlice chunk_id chunk_length chunk_offset)
               | ChunkSlice chunk_id chunk_length chunk_offset =>
                   offset ← ok_or (try_from_u u32_max offset) FileTooLarge;
                   chunk_offset ← ok_or (checked_add u32_max chunk_offset offset) FileTooLarge;
                   Ok (ChunkSlice chunk_id chunk_length chunk_offset)
               | Fill value => Ok (Fill value)
               end;
      extent ← extent_new offset length recipe;
      Ok (Some [extent])
  end.
(** The method of the committed files, which implementations replace *)
Class CloneRecipes := prepared_clone_extents : CommittedFile → Z → Z → presult (option (list PreparedCommitExtent)).
Fixpoint verify_partition_from (extents : list PreparedCommitExtent) (cursor expected_end : Z) : presult Z :=
  match extents with
  | [] => Ok cursor
  | extent :: extents =>
      reject_if (negb (prepared_offset extent =? cursor) || (prepared_length extent =? 0)) Io;;
      cursor ← ok_or (checked_add u64_max cursor (prepared_length extent)) Io;
      reject_if (expected_end <? cursor) Io;;
      verify_partition_from extents cursor expected_end
  end.
Definition verify_prepared_clone_partition (extents : list PreparedCommitExtent) (offset length : Z) : presult () :=
  expected_end ← ok_or (checked_add u64_max offset length) FileTooLarge;
  cursor ← verify_partition_from extents offset expected_end;
  reject_if (negb (cursor =? expected_end)) Unsupported.

(** ** The handler *)
Section Handler.
Context `{Admission} `{CloneRecipes} (maximum_file_bytes : Z).

(** What the source of a clone exports: a frozen version keeps the default
    method and has no recipe *)
Definition source_extents (f : VersionedFile) (source : CommittedFile) (offset length : Z) : presult (option (list PreparedCommitExtent)) :=
  match inflight f with
  | Some _ => default_clone_extents None source offset length
  | None => prepared_clone_extents source offset length
  end.
(** The stable source and the number of its extents *)
Definition clone_source (st : InodeState) (id source_offset source_end length : Z) : presult (CommittedFile * Z) :=
  reject_if (bool_decide (kind st ≠ Regular) || (live_size (file st) <? source_end)) InvalidArgument;;
  source ← stable_clone_source (file st) id;
  prepared ← source_extents (file st) source source_offset length;
  prepared ← ok_or prepared Unsupported;
  verify_prepared_clone_partition prepared source_offset length;;
  Ok (source, Z.of_nat (List.length prepared)).
(** [Namespace::clone_range]; [id] is the identity of a new frozen source.  The
    reply is the bytes cloned and the sequence number *)
Definition clone_range (ns : Namespace) (now : PosixTimestamp) (source_inode source_handle source_offset target_inode target_handle target_offset length id : Z)
    : presult (Namespace * (Z * Z)) :=
  s ← resolve_open_file (catalog ns) source_inode source_handle;
  t ← resolve_open_file (catalog ns) target_inode target_handle;
  reject_if (bool_decide (access (options s.2) = WriteOnly) || bool_decide (access (options t.2) = AccessReadOnly)) BadHandle;;
  source_end ← ok_or (checked_add u64_max source_offset length) FileTooLarge;
  target_end ← ok_or (checked_add u64_max target_offset length) FileTooLarge;
  reject_if (maximum_file_bytes <? target_end) FileTooLarge;;
  reject_if ((source_inode =? target_inode) && (source_offset <? target_end) && (target_offset <? source_end) && negb (length =? 0)) Unsupported;;
  let target := t.1 in
  if length =? 0 then Ok (ns, (0, inode_sequence target))
  else
    r ← clone_source s.1 id source_offset source_end length;
    assert_true (bool_decide (kind target = Regular));;
    reject_if (immutable target) PermissionDenied;;
    let f := file target in
    overwritten ← overwritten_bytes f target_offset target_end;
    remaining ← ok_or (checked_sub (live_allocated_bytes f) overwritten) NoSpace;
    logical_after ← ok_or (checked_add u64_max remaining length) NoSpace;
    capacity ← plan_clone_capacity (active f) target_offset length r.2;
    reserve_commit_capacity (claim_new (clone_metadata_bytes capacity) 0);;
    reserve_change target_inode (live_allocated_bytes f) logical_after;;
    next_sequence ← ok_or (checked_add u64_max (inode_sequence target) 1) NoSpace;
    f' ← VersionedFile.clone_range f target_offset r.1 source_offset length next_sequence;
    let f' := set_active f' (accept_clone_capacity (active f') capacity) (live_allocated_bytes f') in
    assert_true (live_allocated_bytes f' =? logical_after);;
    assert_true (resident_payload_bytes f' <=? resident_payload_bytes f);;
    ns ← finish_mutation ns target_inode target f' next_sequence now;
    Ok (ns, (length, next_sequence)).
End Handler.
End FileClone.
