(* ===== verification/FileHandlersOps.v ===== *)
(** * Requests on the data of files

    Two modules: the handlers of [FileHandlers] refine POSIX files with exact
    accounting, and so does the clone of [FileClone]. *)
From S2P Require Export FileClone MapSum.

(** ** File requests refine POSIX files, with exact accounting *)
Module FileHandlersOps.
Import SparseData SparseDataOps RangeSet DirtyEpoch DirtyEpochOps ReadPlan Allocation VersionedFile VersionedFileOps VersionedFileRuns Flatten FileCommit Fallocate InodeMetadata FileCatalog FileCapacity FileHandlers FileClone.

Section Requests.
Context (heap : Z → option (CommittedFile * (Z → option byte))).

(** ** Invariant *)

(** The dirty payload an inode is charged: none once it has no links *)
Definition inode_dirty (_ : Z) (st : InodeState) : Z := if 0 <? link_count st then resident_payload_bytes (file st) else 0.
(** Without dirty data the file is its committed version. *)
Definition clean_ok (f : VersionedFile) : Prop := first_sequence (active f) = None → inflight f = None →
  live_size f = file_logical_size (committed f) ∧ ∀ x, file_view heap f x = file_at heap (committed f) x.
Record ns_wf (ns : Namespace) : Prop := {
  nw_handles h open : handles (catalog ns) !! h = Some open → ∃ st, inodes (catalog ns) !! handle_inode open = Some st ∧ kind st = Regular;
  nw_files i st : inodes (catalog ns) !! i = Some st → file_wf heap (file st) ∧ clean_ok (file st) ∧ (kind st = Regular → inode_sequence st = last_sequence (active (file st)));
  nw_dirty : dirty_payload ns = msum inode_dirty (inodes (catalog ns));
}.
Lemma resident_bound f : file_wf heap f → 0 ≤ resident_payload_bytes f ≤ live_size f.
Proof.
  intros Hf. pose proof (fw_active _ _ Hf) as He. pose proof (ep_data _ _ He) as Hs. unfold resident_payload_bytes, live_size.
  rewrite (sw_resident_bytes _ _ Hs), <-(ep_size _ _ He). pose proof (sparse_bytes_le heap _ Hs). lia.
Qed.
Lemma inode_dirty_bound i st : file_wf heap (file st) → 0 ≤ inode_dirty i st ≤ live_size (file st).
Proof. intros Hf. pose proof (resident_bound _ Hf). unfold inode_dirty. destruct (0 <? link_count st); lia. Qed.
Lemma inode_dirty_le ns i st : ns_wf ns → inodes (catalog ns) !! i = Some st → 0 ≤ inode_dirty i st ≤ dirty_payload ns.
Proof.
  intros Hn Hi. destruct (nw_files _ Hn i st Hi) as (Hf&_). pose proof (inode_dirty_bound i st Hf). split; [lia|]. rewrite (nw_dirty _ Hn).
  apply (msum_lookup_le inode_dirty _ i st); [|done]. intros k x Hk. destruct (nw_files _ Hn k x Hk) as (Hx&_). by apply inode_dirty_bound.
Qed.
Lemma dirty_replace_ok current before after : 0 ≤ before ≤ current → 0 ≤ after → current - before + after ≤ u64_max → dirty_replace current before after = Ok (current - before + after).
Proof.
  intros Hb Ha Hm. unfold dirty_replace. destruct (Z.compare_spec after before) as [->|Hlt|Hgt]; [f_equal; lia|..].
  - unfold checked_sub. rewrite (proj2 (Z.leb_le _ _)) by lia. cbn [expect]. f_equal. lia.
  - rewrite checked_add_ok by lia. cbn [expect]. f_equal. lia.
Qed.
(** ** After a mutation *)

(** A regular file has the contents of the operation, a new sequence and times, and the rest is as it was. *)
Definition updated (ns : Namespace) (inode : Z) (st : InodeState) (q : posix_file) (now : PosixTimestamp) (ns' : Namespace) : Prop :=
  ns_wf ns' ∧ handles (catalog ns') = handles (catalog ns) ∧ kind st = Regular ∧
  ∃ f, inodes (catalog ns') = <[inode := touched st f (inode_sequence st + 1) now]> (inodes (catalog ns)) ∧ abstract heap f ≡ q.
Lemma finish_mutation_spec ns inode st f q now : ns_wf ns → inodes (catalog ns) !! inode = Some st → kind st = Regular → file_wf heap f → is_Some (first_sequence (active f)) →
  last_sequence (active f) = inode_sequence st + 1 → abstract heap f ≡ q → dirty_payload ns + pf_size q ≤ u64_max →
  ∃ ns', finish_mutation ns inode st f (inode_sequence st + 1) now = Ok ns' ∧ updated ns inode st q now ns'.
Proof.
  intros Hn Hi Hk Hf Hdirt Hq Hv Hm. pose proof (inode_dirty_le ns inode st Hn Hi) as Hd. pose proof (resident_bound f Hf) as Hr.
  assert (Hsz : live_size f = pf_size q) by apply Hv. unfold finish_mutation. set (st' := touched st f (inode_sequence st + 1) now).
  assert (Hdirty : (if 0 <? link_count st then dirty_replace (dirty_payload ns) (resident_payload_bytes (file st)) (resident_payload_bytes f) else Ok (dirty_payload ns))
    = Ok (dirty_payload ns - inode_dirty inode st + inode_dirty inode st')).
  { unfold inode_dirty in *. cbn [st' touched link_count file]. destruct (0 <? link_count st); [|f_equal; lia]. apply dirty_replace_ok; lia. }
  rewrite Hdirty, Ok_bind. eexists. split; [done|]. split; [|split; [done|split; [done|by exists f]]].
  split; cbn [catalog inodes handles dirty_payload].
  - intros h open Hh. destruct (nw_handles _ Hn h open Hh) as (st0&H0&Hk0). destruct (decide (handle_inode open = inode)) as [->|Hne].
    + exists st'. by rewrite lookup_insert_eq.
    + exists st0. by rewrite lookup_insert_ne.
  - intros i x [[<- <-]|[Hne Hx]]%lookup_insert_Some; [|by apply (nw_files _ Hn i)]. split; [done|]. split; [|by intros _; symmetry]. intros Hc. change (first_sequence (active f) = None) in Hc. rewrite Hc in Hdirt. by destruct Hdirt.
  - rewrite msum_insert, Hi. cbn [from_option]. rewrite <-(nw_dirty _ Hn). done.
Qed.

(** ** Opening *)
Lemma resolve_spec ns inode handle : ns_wf ns →
  match resolve_open_file (catalog ns) inode handle with
  | Ok (st, open) => handles (catalog ns) !! handle = Some open ∧ inodes (catalog ns) !! inode = Some st ∧ kind st = Regular
  | Err _ => True
  | Panic => False
  end.
Proof.
  intros Hn. unfold resolve_open_file. destruct (handles (catalog ns) !! handle) as [open|] eqn:Hh; cbn [ok_or]; [|done]. rewrite Ok_bind.
  destruct (Z.eqb_spec (handle_inode open) inode) as [<-|]; cbn [negb reject_if]; [|done]. rewrite Ok_bind.
  destruct (nw_handles _ Hn _ _ Hh) as (st&Hst&Hk). rewrite Hst. done.
Qed.
(** The coverage of the capacity plans is not part of the file. *)
Definition with_coverage (e : DirtyEpoch) (append : option Z) (clone : option CloneCoverage) : DirtyEpoch :=
  {| base_size := base_size e; result_size := result_size e; base_sequence := base_sequence e; last_sequence := last_sequence e;
     first_sequence := first_sequence e; data := data e; holes := holes e; append_metadata_covered_end := append; clone_metadata_coverage := clone |}.
Lemma coverage_wf f append clone : file_wf heap f →
  let f' := set_active f (with_coverage (active f) append clone) (live_allocated_bytes f) in file_wf heap f' ∧ abstract heap f' ≡ abstract heap f.
Proof.
  intros Hf f'. assert (Hv : ∀ x, file_view heap f' x = file_view heap f x) by (intros x; by rewrite !file_view_active).
  split; [|split; [done|exact Hv]]. destruct Hf as [H1 H2 H3 H4]. split; [exact H1| |exact H3|].
  - destruct H2 as [Ha Hb Hc Hd He Hg Hh Hj]. split; assumption.
  - etrans; [exact H4|]. apply count_ext. intros x _. unfold allocated_at. cbn [abstract pf_at]. by rewrite Hv.
Qed.
Lemma with_coverage_id e : with_coverage e (append_metadata_covered_end e) (clone_metadata_coverage e) = e.
Proof. by destruct e. Qed.
Lemma accept_write_coverage e plan : ∃ append, accept_write_capacity e plan = with_coverage e append (clone_metadata_coverage e).
Proof. unfold accept_write_capacity. destruct (write_covered_end plan); [by eexists|]. eexists. by rewrite with_coverage_id. Qed.
Lemma accept_clone_coverage e plan : ∃ clone, accept_clone_capacity e plan = with_coverage e (append_metadata_covered_end e) clone.
Proof. unfold accept_clone_capacity. destruct (clone_coverage plan); [by eexists|]. eexists. by rewrite with_coverage_id. Qed.

(** ** Handlers *)
Context `{Admission} `{CloneRecipes} (maximum : Z).
(** A handler does not panic, is the operation when it succeeds, and fails only
    when the request is not admitted. *)
Definition refines {A} (admitted : Prop) (r : presult A) (P : A → Prop) : Prop := match r with Ok a => P a | Err _ => ¬ admitted | Panic => False end.
Lemma refines_bind {A B} D (r : presult A) (k : A → presult B) P : refines D r (λ a, refines D (k a) P) → refines D (r ≫= k) P.
Proof. by destruct r. Qed.
Lemma refines_mono {A} D (r : presult A) (P Q : A → Prop) : refines D r P → (∀ a, P a → Q a) → refines D r Q.
Proof. destruct r; cbn [refines]; auto. Qed.
Lemma refines_reject {A} D b e (k : presult A) P : (D → b = false) → (b = false → refines D k P) → refines D (reject_if b e;; k) P.
Proof. destruct b; [intros Hd _ Hx; by specialize (Hd Hx)|intros _ Hk; by apply Hk]. Qed.
Lemma refines_ok_or {A B} D (o : option A) e (k : A → presult B) P : (D → is_Some o) → (∀ a, o = Some a → refines D (k a) P) → refines D (ok_or o e ≫= k) P.
Proof. destruct o as [a|]; [intros _ Hk; by apply Hk|]. intros Hd _ Hx. by destruct (Hd Hx). Qed.
Lemma refines_admit {A} D (r : presult ()) (k : presult A) P : r ≠ Panic → (D → r = Ok ()) → refines D k P → refines D (r;; k) P.
Proof. destruct r as [[]| |]; [done| |done]. intros _ Hd _ Hx. by specialize (Hd Hx). Qed.
(** The parties that admit a change answer; they do not panic. *)
Class AdmissionLaws : Prop := {
  change_answers i a b : reserve_change i a b ≠ Panic;
  reserve_answers reserve claim : try_reserve = Some reserve → reserve claim ≠ Panic;
}.
Context `{!AdmissionLaws}.
Lemma capacity_answers claim : reserve_commit_capacity claim ≠ Panic.
Proof.
  unfold reserve_commit_capacity. destruct (claim_is_empty claim); [done|]. destruct try_reserve as [reserve|] eqn:Hr; [|done]. by apply reserve_answers.
Qed.
Ltac answer := repeat (match goal with |- context [ok_or ?o _] => destruct o; cbn [ok_or]; rewrite ?Ok_bind; [|done] end).
Lemma plan_write_answers e offset length : plan_write_capacity e offset length ≠ Panic.
Proof.
  unfold plan_write_capacity. destruct (negb _); [done|]. answer. destruct (_ && _); [done|]. cbv zeta. destruct (_ <=? _); [done|].
  destruct (if _ =? _ then _ else _) as [c m]. unfold claim_windows, window_claims. cbv zeta. by answer.
Qed.
Lemma plan_write_admitted e offset length : 0 ≤ offset → 0 ≤ length → offset + length ≤ 2 ^ 63 →
  ∃ plan, plan_write_capacity e offset length = Ok plan ∧ 0 ≤ write_metadata_bytes plan ≤ offset + length + 2 * window.
Proof.
  intros Ho Hl Hm. unfold plan_write_capacity. destruct (negb _). { eexists. split; [done|]. cbn [write_metadata_bytes]. sizes. lia. }
  rewrite checked_add_ok by (sizes; lia). cbn [ok_or]. rewrite Ok_bind. destruct (_ && _). { eexists. split; [done|]. cbn [write_metadata_bytes]. sizes. lia. }
  cbv zeta. set (covered := match append_metadata_covered_end e with Some c => if offset <=? c then c else offset | None => offset end).
  assert (Hc : offset ≤ covered). { unfold covered. destruct (append_metadata_covered_end e) as [c|]; [|lia]. destruct (Z.leb_spec offset c); lia. }
  clearbody covered. destruct (Z.leb_spec (offset + length) covered). { eexists. split; [done|]. cbn [write_metadata_bytes]. sizes. lia. }
  destruct (Z.eqb_spec covered SINGLE_LEAF_APPEND_COVERAGE_END_BYTES_V1) as [->|].
  - edestruct (open_windows window (offset + length)) as (Hw1&Hw2&Hw3&Hp); [| | | |fold window; rewrite Hp; eexists; split; [done|]; cbn [write_metadata_bytes]];
      [sizes; lia..|]. set (w := div_ceil _ _) in *. sizes. lia.
  - edestruct (open_windows covered (offset + length)) as (Hw1&Hw2&Hw3&Hp); [| | | |rewrite Hp; eexists; split; [done|]; cbn [write_metadata_bytes]];
      [sizes; lia..|]. set (w := div_ceil _ _) in *. sizes. lia.
Qed.
Lemma write_claim_answers n m small : write_capacity_claim n m small ≠ Panic.
Proof.
  unfold write_capacity_claim. destruct (n =? 0); [done|]. answer. destruct small; by answer.
Qed.
Lemma write_claim_admitted n m small : 0 ≤ n ≤ u32_max → 0 ≤ m ≤ 2 ^ 63 + 2 * window → ∃ claim, write_capacity_claim n m small = Ok claim.
Proof.
  intros Hn Hm. assert (Hb : u32_max = 2 ^ 32 - 1) by done. unfold write_capacity_claim, DATA_RECHUNK_MINIMUM_BYTES_V1, DATA_RECORD_SAFETY_BYTES_V1.
  destruct (n =? 0); [by eexists|]. rewrite checked_mul_ok by (sizes; lia). cbn [ok_or]. rewrite Ok_bind, checked_add_ok by (sizes; lia). cbn [ok_or]. rewrite Ok_bind.
  destruct small; [|by eexists]. rewrite checked_add_ok by (sizes; lia). cbn [ok_or]. rewrite Ok_bind. by eexists.
Qed.

(** ** Requests *)
Inductive request :=
  | WriteRequest (now : PosixTimestamp) (inode handle offset : Z) (payload : MutationPayload)
  | LengthRequest (now : PosixTimestamp) (inode : Z) (handle : option Z) (length : Z)
  | FallocateRequest (now : PosixTimestamp) (inode handle offset length : Z) (mode : FallocateMode) (fresh : Z → Z)
  | CloneRequest (now : PosixTimestamp) (source_inode source_handle source_offset inode handle offset length id : Z).
Definition request_inode (req : request) : Z :=
  match req with WriteRequest _ i _ _ _ | LengthRequest _ i _ _ | FallocateRequest _ i _ _ _ _ _ | CloneRequest _ _ _ _ i _ _ _ _ => i end.
Definition request_now (req : request) : PosixTimestamp :=
  match req with WriteRequest now _ _ _ _ | LengthRequest now _ _ _ | FallocateRequest now _ _ _ _ _ _ | CloneRequest now _ _ _ _ _ _ _ _ => now end.
Definition handle_request (ns : Namespace) (req : request) : presult Namespace :=
  match req with
  | WriteRequest now inode handle offset payload => r ← write_payload maximum ns now inode handle offset payload; Ok r.1
  | LengthRequest now inode handle length => set_length maximum ns now inode handle length
  | FallocateRequest now inode handle offset length mode fresh => fallocate maximum ns now inode handle offset length mode fresh
  | CloneRequest now source_inode source_handle source_offset inode handle offset length id =>
      r ← clone_range maximum ns now source_inode source_handle source_offset inode handle offset length id; Ok r.1
  end.
(** The offset of a write, which a handle in append mode moves to the end *)
Definition write_offset (ns : Namespace) (handle offset : Z) (p : posix_file) : Z :=
  match handles (catalog ns) !! handle with Some open => if append_mode (options open) then pf_size p else offset | None => offset end.
Definition request_effect (ns : Namespace) (req : request) (p : posix_file) : posix_file :=
  match req with
  | WriteRequest _ _ handle offset payload =>
      if blen (payload_bytes payload) =? 0 then p else posix_write p (write_offset ns handle offset p) (payload_bytes payload)
  | LengthRequest _ _ _ length => posix_truncate p length
  | FallocateRequest _ _ _ offset length mode _ =>
      match posix_size mode (pf_size p) offset length with Ok size => posix_mode p mode offset length (offset + length) size | _ => p end
  | CloneRequest _ source_inode _ source_offset _ _ offset length _ =>
      if length =? 0 then p
      else match inodes (catalog ns) !! source_inode with Some source => posix_clone p offset (file_view heap (file source)) source_offset length | None => p end
  end.
(** The arguments are 64-bit, new zero files are fresh, and the counters have
    room. *)
Definition request_ok (ns : Namespace) (req : request) : Prop :=
  match req with
  | WriteRequest _ _ _ offset _ => 0 ≤ offset
  | LengthRequest _ _ _ length => 0 ≤ length ≤ u64_max
  | FallocateRequest _ _ _ offset length _ _ => 0 ≤ offset ∧ 0 ≤ length
  | CloneRequest _ _ _ source_offset _ _ offset length _ => 0 ≤ source_offset ∧ 0 ≤ offset ∧ 0 ≤ length
  end ∧
  ∀ st, inodes (catalog ns) !! request_inode req = Some st →
    inode_sequence st < u64_max ∧ dirty_payload ns + pf_size (request_effect ns req (abstract heap (file st))) ≤ u64_max ∧
    match req with
    | FallocateRequest _ _ _ offset length mode fresh =>
        ∀ size, posix_size mode (live_size (file st)) offset length = Ok size →
          fresh_for heap (file st) mode offset (Z.min (offset + length) size) fresh
    | CloneRequest _ _ _ _ _ _ _ _ _ => match clone_metadata_coverage (active (file st)) with Some c => 0 ≤ extents_left c | None => True end
    | _ => True
    end.
Definition request_done (ns : Namespace) (req : request) (ns' : Namespace) : Prop :=
  ∃ st, inodes (catalog ns) !! request_inode req = Some st ∧
    (ns' = ns ∧ abstract heap (file st) ≡ request_effect ns req (abstract heap (file st)) ∨
     updated ns (request_inode req) st (request_effect ns req (abstract heap (file st))) (request_now req) ns').
(** Quotas and physical admission grant every change *)
Definition grants : Prop := (∀ i a b, reserve_change i a b = Ok ()) ∧ (∀ claim, reserve_commit_capacity claim = Ok ()).
Definition writable (ns : Namespace) (inode handle : Z) : Prop :=
  ∃ open, handles (catalog ns) !! handle = Some open ∧ handle_inode open = inode ∧ access (options open) ≠ AccessReadOnly.
Definition readable (ns : Namespace) (inode handle : Z) : Prop :=
  ∃ open, handles (catalog ns) !! handle = Some open ∧ handle_inode open = inode ∧ access (options open) ≠ WriteOnly.
(** The committed version of a file without dirty data exports a recipe for
    every byte of the range, in not too many extents *)
Definition clone_ready (source : InodeState) (offset length : Z) : Prop :=
  length = 0 ∨
  first_sequence (active (file source)) = None ∧ inflight (file source) = None ∧
  (∀ x, offset ≤ x < offset + length → is_Some (file_view heap (file source) x)) ∧
  ∃ prepared, prepared_clone_extents (committed (file source)) offset length = Ok (Some prepared) ∧
    verify_prepared_clone_partition prepared offset length = Ok () ∧ Z.of_nat (List.length prepared) ≤ 2 ^ 32.
(** What a request has to satisfy so that it is carried out *)
Definition admitted (ns : Namespace) (req : request) : Prop :=
  grants ∧ ∃ st, inodes (catalog ns) !! request_inode req = Some st ∧ kind st = Regular ∧ immutable st = false ∧
    match req with
    | WriteRequest _ inode handle offset payload =>
        writable ns inode handle ∧ blen (payload_bytes payload) ≤ u32_max ∧
        write_offset ns handle offset (abstract heap (file st)) + blen (payload_bytes payload) ≤ Z.min maximum (2 ^ 63)
    | LengthRequest _ inode handle length => match handle with Some handle => writable ns inode handle | None => True end ∧ length ≤ maximum
    | FallocateRequest _ inode handle offset length mode _ =>
        writable ns inode handle ∧ 0 < length ∧ offset + length ≤ u64_max ∧
        ∃ size, posix_size mode (live_size (file st)) offset length = Ok size ∧ size ≤ maximum
    | CloneRequest _ source_inode source_handle source_offset inode handle offset length _ =>
        writable ns inode handle ∧ readable ns source_inode source_handle ∧ offset + length ≤ maximum ∧ offset + length ≤ u64_max ∧
        (source_inode = inode → source_offset + length ≤ offset ∨ offset + length ≤ source_offset) ∧
        ∃ source, inodes (catalog ns) !! source_inode = Some source ∧ source_offset + length ≤ live_size (file source) ∧ clone_ready source source_offset length
    end.
Lemma writable_resolves ns inode handle : ns_wf ns → writable ns inode handle →
  ∃ st open, resolve_open_file (catalog ns) inode handle = Ok (st, open) ∧ access (options open) ≠ AccessReadOnly.
Proof.
  intros Hn (open&Hh&<-&Ha). destruct (nw_handles _ Hn _ _ Hh) as (st&Hst&_). exists st, open. unfold resolve_open_file. rewrite Hh. cbn [ok_or].
  by rewrite Ok_bind, Z.eqb_refl, Hst.
Qed.
(** Opening the file of a request, where the handle may write *)
Lemma refines_open {A} D ns inode handle (k : InodeState * OpenHandle → presult A) P : ns_wf ns → (D → writable ns inode handle) →
  (∀ st open, handles (catalog ns) !! handle = Some open → inodes (catalog ns) !! inode = Some st → kind st = Regular →
    (D → access (options open) ≠ AccessReadOnly) → refines D (k (st, open)) P) →
  refines D (resolve_open_file (catalog ns) inode handle ≫= k) P.
Proof.
  intros Hn Hd Hk. pose proof (resolve_spec ns inode handle Hn) as Hres. pose proof (writable_resolves ns inode handle Hn) as Hw.
  destruct (resolve_open_file (catalog ns) inode handle) as [[st open]| |]; [|intros Hx; by destruct (Hw (Hd Hx)) as (?&?&?&_)|done].
  destruct Hres as (Hh&Hi&Hr). apply Hk; [done..|]. intros Hx. by destruct (Hw (Hd Hx)) as (?&?&[= -> ->]&?).
Qed.
(** The plan of a write and what it leaves allocated *)
Lemma write_planned_spec f o payload : file_wf heap f → last_sequence (active f) < u64_max → 0 ≤ o → 0 < blen (payload_bytes payload) →
  o + blen (payload_bytes payload) ≤ u64_max →
  let len := blen (payload_bytes payload) in
  let q := posix_write (abstract heap f) o (payload_bytes payload) in
  ∃ plan, plan_write f o len = Ok plan ∧ overwritten plan ≤ live_allocated_bytes f ∧
    posix_allocated q 0 (pf_size q) = live_allocated_bytes f - overwritten plan + len ∧ posix_allocated q 0 (pf_size q) ≤ u64_max ∧
    mutates heap f (write_payload_planned f o payload (last_sequence (active f) + 1) plan) q (last_sequence (active f) + 1).
Proof.
  intros Hf Hmax Ho Hlen He len q. pose proof (live_size_bound heap f Hf) as Hcur.
  pose proof (write_payload_spec heap f o payload (last_sequence (active f) + 1) Hf eq_refl ltac:(lia) Ho Hlen He) as Hw.
  unfold VersionedFile.write_payload in Hw. fold len q in Hw, Hlen, He. assert (Hplan : plan_write f o len =
    Ok {| plan_offset := o; plan_end := o + len; overwritten := posix_allocated (abstract heap f) o (o + len) |}).
  { unfold plan_write. rewrite checked_add_ok by done. cbn [ok_or]. by rewrite Ok_bind, (overwritten_spec heap), Ok_bind by (done || lia). }
  rewrite Hplan in Hw. rewrite Ok_bind in Hw. eexists. split; [exact Hplan|]. cbn [overwritten].
  assert (Hsz : 0 ≤ pf_size q ≤ u64_max) by (cbn [q posix_write pf_size abstract]; fold len; lia).
  pose proof (posix_allocated_le q 0 (pf_size q) ltac:(lia)). split_and!; [apply allocated_le; [lia|done]| |lia|done].
  apply place_allocated; try done; try lia; cbn [q posix_write pf_at]; fold len; intros x Hx; [|by rewrite decide_False].
  rewrite decide_True by done. apply lookup_lt_is_Some. change len with (Z.of_nat (length (payload_bytes payload))) in Hx. lia.
Qed.
Lemma write_request_spec ns now inode handle offset payload : ns_wf ns → request_ok ns (WriteRequest now inode handle offset payload) →
  refines (admitted ns (WriteRequest now inode handle offset payload)) (handle_request ns (WriteRequest now inode handle offset payload)) (request_done ns (WriteRequest now inode handle offset payload)).
Proof.
  set (D := admitted _ _). intros Hn [Ho Hst]. cbn [handle_request request_inode] in *. unfold write_payload. set (len := blen (payload_bytes payload)) in *.
  assert (Hlen : 0 ≤ len) by apply blen_nonneg. apply refines_bind. apply refines_ok_or.
  { intros (_&st&_&_&_&_&?&_). rewrite try_from_u_ok by done. by eexists. }
  intros written Hwritten. eapply refines_open; [done|by intros (_&st&_&_&_&?&_)|]. intros st open Hh Hi Hk Hacc. cbn [fst snd]. cbv zeta.
  destruct (nw_files _ Hn _ _ Hi) as (Hf&_&Hseq). specialize (Hseq Hk). destruct (Hst st Hi) as (Hmax&Hroom&_). clear Hst. set (f := file st) in *.
  pose proof (live_size_bound heap f Hf). set (o := if append_mode (options open) then live_size f else offset).
  assert (Hoff : write_offset ns handle offset (abstract heap f) = o) by (unfold write_offset; by rewrite Hh).
  assert (HD : D → grants ∧ immutable st = false ∧ len ≤ u32_max ∧ o + len ≤ Z.min maximum (2 ^ 63)).
  { intros (?&st0&Hi0&_&?&_&?&?). cbn [request_inode] in Hi0. assert (st0 = st) as -> by congruence. by rewrite <-Hoff. }
  apply refines_reject; [intros Hd%Hacc; by apply bool_decide_false|]. intros _. rewrite bool_decide_true by done. cbn [assert_true]. rewrite Ok_bind.
  cbn [request_effect] in Hroom. fold len in Hroom. rewrite Hoff in Hroom. assert (Ho0 : 0 ≤ o) by (unfold o; destruct (append_mode _); lia).
  destruct (Z.eqb_spec len 0) as [Hz|Hz].
  { cbn [refines fst]. exists st. split; [done|]. left. split; [done|]. cbn [request_effect]. fold len. by rewrite Hz. }
  apply refines_reject; [apply HD|]. intros _. apply refines_ok_or.
  { intros (_&_&_&Hd)%HD. rewrite checked_add_ok by (sizes; lia). by eexists. }
  intros e He%checked_add_Some. destruct He as [-> He]. apply refines_reject; [intros (_&_&_&Hd)%HD; apply Z.ltb_ge; lia|]. intros _. apply refines_bind.
  pose proof (plan_write_answers (active f) o len). pose proof (plan_write_admitted (active f) o len Ho0 Hlen) as Hpa.
  destruct (plan_write_capacity (active f) o len) as [capacity| |]; [|intros (_&_&_&Hd)%HD; by destruct Hpa as (?&?&_); [lia|]|done]. cbn [refines].
  apply refines_bind. set (small := small_file_policy_with_name_match _ _ _). pose proof (write_claim_answers len (write_metadata_bytes capacity) small).
  pose proof (write_claim_admitted len (write_metadata_bytes capacity) small) as Hca.
  destruct (write_capacity_claim len (write_metadata_bytes capacity) small) as [claim| |];
    [|intros (_&_&?&Hd)%HD; destruct Hpa as (?&[= <-]&?); [lia|]; by destruct Hca as (?&?); [lia|lia|]|done].
  cbn [refines]. apply refines_admit; [apply capacity_answers|intros [Hg _]%HD; apply Hg|].
  destruct (write_planned_spec f o payload Hf ltac:(lia) Ho0 ltac:(fold len; lia) He) as (plan&Hplan&Hover&Hafter&Hfit&f'&Hw&Hf'&Hv'&Hl'&Hd'&_).
  fold len in Hplan, Hafter. set (q := posix_write (abstract heap f) o (payload_bytes payload)) in *. rewrite Hplan, Ok_bind.
  unfold checked_sub. rewrite (proj2 (Z.leb_le _ _)) by lia. cbn [ok_or]. rewrite Ok_bind, (checked_add_ok _ _ len) by lia. cbn [ok_or].
  rewrite Ok_bind. apply refines_admit; [apply change_answers|intros [Hg _]%HD; apply Hg|].
  rewrite checked_add_ok by lia. cbn [ok_or]. rewrite Ok_bind, Hseq, Hw, Ok_bind.
  rewrite (wf_allocated heap f' q Hf' Hv'), Hafter, Z.eqb_refl. cbn [assert_true]. rewrite Ok_bind.
  destruct (accept_write_coverage (active f') capacity) as [append ->]. destruct (coverage_wf f' append (clone_metadata_coverage (active f')) Hf') as [Hfa Hva]. rewrite <-Hseq. rewrite <-Hafter, <-(wf_allocated heap f' q Hf' Hv').
  destruct (finish_mutation_spec ns inode st (set_active f' (with_coverage (active f') append (clone_metadata_coverage (active f'))) (live_allocated_bytes f')) q now Hn Hi Hk Hfa Hd')
    as (ns'&->&Hup).
  - cbn [set_active active with_coverage last_sequence]. lia.
  - by rewrite Hva.
  - done.
  - rewrite Ok_bind. cbn [refines fst]. exists st. split; [done|]. right. cbn [request_effect request_inode]. fold len f. rewrite (proj2 (Z.eqb_neq len 0) Hz), Hoff. done.
Qed.
Lemma truncate_same f : file_wf heap f → abstract heap f ≡ posix_truncate (abstract heap f) (live_size f).
Proof.
  intros Hf. split; [done|]. intros x. cbn [posix_truncate pf_at abstract pf_size]. destruct (decide (x < live_size f)) as [|Hx]; [done|]. by rewrite view_outside by lia.
Qed.
Lemma length_request_spec ns now inode handle length : ns_wf ns → request_ok ns (LengthRequest now inode handle length) →
  refines (admitted ns (LengthRequest now inode handle length)) (handle_request ns (LengthRequest now inode handle length)) (request_done ns (LengthRequest now inode handle length)).
Proof.
  set (D := admitted _ _). intros Hn [Ho Hst]. cbn [handle_request request_inode] in *. unfold set_length.
  apply refines_reject; [intros (_&st&_&_&_&_&?); apply Z.ltb_ge; lia|]. intros _.
  assert (Hopen : refines D (match handle with
    | Some handle => r ← resolve_open_file (catalog ns) inode handle; reject_if (bool_decide (access (options r.2) = AccessReadOnly)) BadHandle;; Ok r.1
    | None => resolve_inode (catalog ns) inode end) (λ st, inodes (catalog ns) !! inode = Some st)).
  { destruct handle as [handle|].
    - eapply refines_open; [done|by intros (_&st&_&_&_&?&_)|]. intros st open _ Hi _ Hacc. cbn [snd].
      apply refines_reject; [intros Hd%Hacc; by apply bool_decide_false|done].
    - unfold resolve_inode. destruct (inodes (catalog ns) !! inode) eqn:Hi; [done|]. intros (_&st&Hi0&_). cbn [request_inode] in Hi0. congruence. }
  apply refines_bind. revert Hopen. destruct (match handle with Some _ => _ | None => _ end) as [st| |]; [|done|done]. cbn [refines]. intros Hi.
  assert (HD : D → grants ∧ kind st = Regular ∧ immutable st = false) by (intros (?&st0&Hi0&?&?&_); cbn [request_inode] in Hi0; by simplify_eq).
  apply refines_reject; [intros (_&->&_)%HD; done|]. intros _. apply refines_reject; [intros (_&->&_)%HD; apply bool_decide_false; by intros []|].
  intros Hk. apply bool_decide_eq_false, dec_stable in Hk. apply refines_reject; [apply HD|]. intros _. cbv zeta.
  destruct (nw_files _ Hn _ _ Hi) as (Hf&_&Hseq). specialize (Hseq Hk). destruct (Hst st Hi) as (Hmax&Hroom&_). clear Hst. set (f := file st) in *.
  pose proof (live_size_bound heap f Hf) as Hcur. cbn [request_effect] in Hroom. destruct (Z.eqb_spec length (live_size f)) as [->|Hne].
  { exists st. split; [done|]. left. split; [done|]. by apply truncate_same. }
  apply refines_admit; [apply capacity_answers|intros [Hg _]%HD; apply Hg|]. set (after := posix_allocated (posix_truncate (abstract heap f) length) 0 length).
  pose proof (truncate_allocated heap f length Hf ltac:(lia)) as Hafter. fold after in Hafter.
  assert (Hplan : (if length <? live_size f then n ← allocated_in_range f length (live_size f); ok_or (checked_sub (live_allocated_bytes f) n) Io
    else Ok (live_allocated_bytes f)) = Ok after).
  { destruct (Z.ltb_spec length (live_size f)).
    - rewrite (allocated_in_range_spec heap), Ok_bind by (done || lia). pose proof (posix_allocated_le (posix_truncate (abstract heap f) length) 0 length ltac:(lia)).
      unfold checked_sub. rewrite (proj2 (Z.leb_le _ _)) by lia. cbn [ok_or]. f_equal. lia.
    - f_equal. unfold posix_allocated in Hafter. rewrite (count_empty _ length) in Hafter by lia. lia. }
  rewrite Hplan, Ok_bind. apply refines_admit; [apply change_answers|intros [Hg _]%HD; apply Hg|]. rewrite checked_add_ok by lia. cbn [ok_or]. rewrite Ok_bind.
  destruct (truncate_file_spec heap f length (inode_sequence st + 1) Hf ltac:(lia) ltac:(lia) ltac:(lia)) as (f'&->&Hf'&Hv'&Hl'&Hd'&_). rewrite Ok_bind.
  rewrite (wf_allocated heap f' _ Hf' Hv'). fold after. rewrite Z.eqb_refl. cbn [assert_true]. rewrite Ok_bind.
  destruct (finish_mutation_spec ns inode st f' (posix_truncate (abstract heap f) length) now Hn Hi Hk Hf' Hd') as (ns'&->&Hup); [lia|done|done|].
  exists st. split; [done|]. by right.
Qed.
Lemma fallocate_request_spec ns now inode handle offset length mode fresh : ns_wf ns →
  request_ok ns (FallocateRequest now inode handle offset length mode fresh) →
  refines (admitted ns (FallocateRequest now inode handle offset length mode fresh)) (handle_request ns (FallocateRequest now inode handle offset length mode fresh)) (request_done ns (FallocateRequest now inode handle offset length mode fresh)).
Proof.
  set (D := admitted _ _). intros Hn [[Ho Hl] Hst]. cbn [handle_request request_inode] in *. unfold fallocate.
  apply refines_reject; [intros (_&st&_&_&_&_&?&_); apply Z.eqb_neq; lia|]. intros Hz%Z.eqb_neq.
  apply refines_ok_or; [intros (_&st&_&_&_&_&_&?&_); rewrite checked_add_ok by lia; by eexists|]. intros e [-> He]%checked_add_Some.
  eapply refines_open; [done|by intros (_&st&_&_&_&?&_)|]. intros st open Hh Hi Hk Hacc. cbn [fst snd]. cbv zeta.
  assert (HD : D → grants ∧ immutable st = false ∧ ∃ size, posix_size mode (live_size (file st)) offset length = Ok size ∧ size ≤ maximum).
  { intros (?&st0&Hi0&_&?&_&_&_&?). cbn [request_inode] in Hi0. by simplify_eq. }
  apply refines_reject; [intros Hd%Hacc; by apply bool_decide_false|]. intros _. apply refines_reject; [intros _; apply bool_decide_false; by intros []|].
  intros _. apply refines_reject; [apply HD|]. intros _.
  destruct (nw_files _ Hn _ _ Hi) as (Hf&_&Hseq). specialize (Hseq Hk). destruct (Hst st Hi) as (Hmax&Hroom&Hfresh). clear Hst. set (f := file st) in *.
  cbn [request_effect] in Hroom. rewrite Hseq in Hmax. apply refines_bind.
  pose proof (fallocate_spec heap f (reserve_change inode) maximum offset length mode fresh Hf Hmax Ho ltac:(lia) He Hfresh) as Hdata. cbv zeta in Hdata.
  rewrite <-Hseq in Hdata. unfold posix_fallocate in Hdata. cbn [abstract pf_size] in Hroom, Hdata.
  destruct (posix_size mode (live_size f) offset length) as [size| |] eqn:Hsize;
    [|rewrite Hdata; by intros (_&_&?&?&_)%HD|done].
  destruct (Z.leb_spec size maximum); [|rewrite Hdata; intros (_&_&?&[= <-]&?)%HD; lia]. set (q := posix_mode (abstract heap f) mode offset length (offset + length) size) in *.
  pose proof (change_answers inode (live_allocated_bytes f) (posix_allocated q 0 (pf_size q))).
  destruct (reserve_change inode (live_allocated_bytes f) (posix_allocated q 0 (pf_size q))) eqn:Hres;
    [|rewrite Hdata; intros [[Hg _] _]%HD; by rewrite Hg in Hres|done].
  destruct Hdata as (f'&->&Hf'&Hv'&Hl'&Hd'&_). cbn [refines].
  destruct (finish_mutation_spec ns inode st f' q now Hn Hi Hk Hf' Hd' Hl' Hv' Hroom) as (ns'&->&Hup). exists st. split; [done|]. right.
  cbn [request_inode request_effect]. fold f. cbn [abstract pf_size]. by rewrite Hsize.
Qed.
End Requests.
End FileHandlersOps.

(** ** Clone requests refine POSIX files *)
Module FileCloneOps.
Import SparseData SparseDataOps RangeSet DirtyEpoch DirtyEpochOps ReadPlan Allocation VersionedFile VersionedFileOps FileCommit InodeMetadata FileCatalog FileCapacity FileHandlers FileClone FileHandlersOps.

Section Clones.
Context (heap : Z → option (CommittedFile * (Z → option byte))).

(** ** A clone adds no resident payload *)
Lemma count_mono (p q : Z → bool) a b : (∀ x, p x = true → q x = true) → count p a b ≤ count q a b.
Proof.
  intros Hpq. unfold count. apply Nat2Z.inj_le. induction (seqZ a (b - a)) as [|x l IH]; [done|]. rewrite !filter_cons.
  destruct (decide (p x = true)) as [Hp|], (decide (q x = true)); cbn [length]; [lia|by apply Hpq in Hp|lia|lia].
Qed.
Lemma carved_bytes_le s a b m' : sparse_wf heap s → a < b → carved (extents s) a b m' → extent_bytes m' ≤ extent_bytes (extents s).
Proof.
  intros Hs Hab Hc. rewrite (extent_bytes_count m' 0 (logical_size s)), (extent_bytes_count (extents s) 0 (logical_size s));
    [|apply Hs|apply Hs|apply (carved_wf (extents s) a b); [apply Hs|done..]|apply (carved_within (extents s) a b); [apply Hs|done|done|apply Hs]].
  apply count_mono. intros x. unfold present. rewrite (carved_at (extents s) a b) by (done || apply Hs). case_decide; [by rewrite bool_decide_false by (by intros [])|done].
Qed.
Lemma write_external_resident s offset file file_offset length sequence s' : sparse_wf heap s → write_external s offset file file_offset length sequence = Ok s' →
  resident_bytes s' ≤ resident_bytes s.
Proof.
  intros Hs Hw. unfold write_external in Hw. destruct (Z.ltb_spec 0 length) as [Hl|]; [|done]. cbn [assert_true] in Hw. rewrite Ok_bind in Hw.
  apply bind_Ok in Hw as (e&He&Hw). destruct (checked_add u64_max offset length) eqn:Hc; [|done]. apply (f_equal (λ r, match r with Ok x => Some x | _ => None end)) in He.
  injection He as <-. apply checked_add_Some in Hc as [-> Hm]. apply bind_Ok in Hw as (?&_&Hw). apply bind_Ok in Hw as (?&_&Hw). apply bind_Ok in Hw as (?&_&Hw).
  destruct (remove_resident_overlaps_spec heap s offset (offset + length) Hs ltac:(lia)) as (m'&Hr&Hcar). rewrite Hr, Ok_bind in Hw.
  pose proof (carve_resident_wf heap s offset (offset + length) m' Hs ltac:(lia) Hcar) as Hs1. destruct (remove_external_overlaps_spec heap _ offset (offset + length) Hs1 ltac:(lia)) as (m2&Hr2&_).
  rewrite Hr2, Ok_bind in Hw. apply bind_Ok in Hw as (?&_&Hw). apply bind_Ok in Hw as (?&_&Hw). cbv zeta in Hw. apply bind_Ok in Hw as (?&_&Hw). apply bind_Ok in Hw as (?&_&Hw).
  injection Hw as <-. cbn [resident_bytes with_externals with_extents]. rewrite (sw_resident_bytes _ _ Hs). apply (carved_bytes_le s offset (offset + length)); [done|lia|done].
Qed.
Lemma clone_resident f offset file file_offset length sequence f' : file_wf heap f → VersionedFile.clone_range f offset file file_offset length sequence = Ok f' →
  resident_payload_bytes f' ≤ resident_payload_bytes f.
Proof.
  intros Hf Hc. unfold VersionedFile.clone_range in Hc. apply bind_Ok in Hc as (?&_&Hc). apply bind_Ok in Hc as (?&_&Hc). apply bind_Ok in Hc as (e&He&Hc).
  apply bind_Ok in Hc as (?&_&Hc). apply bind_Ok in Hc as (?&_&Hc). cbv zeta in Hc. apply bind_Ok in Hc as (?&_&Hc). injection Hc as <-.
  unfold epoch_clone_range in He. apply bind_Ok in He as (?&_&He). apply bind_Ok in He as (?&_&He). apply bind_Ok in He as (?&_&He). apply bind_Ok in He as (s'&Hs&He).
  apply bind_Ok in He as (?&_&He). apply bind_Ok in He as (?&_&He). cbv zeta in He. apply bind_Ok in He as (?&_&He). injection He as <-.
  apply (write_external_resident (data (active f)) offset file file_offset length sequence s'); [apply Hf|done].
Qed.
(** A source that is not all there is refused. *)
Lemma clone_unsupported f offset file file_offset length sequence : file_wf heap f → sequence = last_sequence (active f) + 1 → sequence ≤ u64_max →
  file_ok heap file → 0 ≤ offset → 0 ≤ file_offset → 0 < length → offset + length ≤ u64_max → file_offset + length ≤ file_logical_size file →
  count (file_present heap file) file_offset (file_offset + length) ≠ length →
  VersionedFile.clone_range f offset file file_offset length sequence = Err Unsupported.
Proof.
  intros Hf Hq Hm Hfile Ho Hfo Hl Hmax Hfit Hcount. pose proof (fo_size _ _ Hfile). unfold VersionedFile.clone_range. rewrite checked_add_ok by lia. cbn [ok_or].
  rewrite Ok_bind, (overwritten_spec heap), Ok_bind by done. unfold epoch_clone_range. rewrite (proj2 (Z.ltb_lt 0 length)) by lia. cbn [assert_true].
  rewrite Ok_bind, assert_next_ok, Ok_bind, checked_add_ok by (done || lia || apply Hf). cbn [ok_or]. rewrite Ok_bind. unfold write_external.
  rewrite (proj2 (Z.ltb_lt 0 length)) by lia. cbn [assert_true]. rewrite Ok_bind, !checked_add_ok by lia. cbn [ok_or]. rewrite !Ok_bind.
  rewrite (proj2 (Z.ltb_ge (file_logical_size file) (file_offset + length))) by lia. rewrite or_else_Ok_false, (fo_range _ _ Hfile) by lia. rewrite Ok_bind.
  by rewrite (proj2 (Z.eqb_neq _ _)).
Qed.

(** ** The stable source *)
Context `{Admission} `{!AdmissionLaws} `{CloneRecipes} (maximum : Z).
Class RecipeLaws : Prop := recipes_answer file offset length : prepared_clone_extents file offset length ≠ Panic.
Context `{!RecipeLaws}.
Lemma partition_answers l cursor e : verify_partition_from l cursor e ≠ Panic.
Proof.
  revert cursor. induction l as [|x l IH]; intros cursor; cbn [verify_partition_from]; [done|]. rewrite reject_Err. destruct (_ || _); [done|].
  destruct (checked_add _ _ _); cbn [ok_or]; [|done]. rewrite Ok_bind, reject_Err. destruct (_ <? _); [done|]. apply IH.
Qed.
Lemma verify_answers l offset length : verify_prepared_clone_partition l offset length ≠ Panic.
Proof.
  unfold verify_prepared_clone_partition. destruct (checked_add _ _ _) as [e|]; cbn [ok_or]; [|done]. rewrite Ok_bind. pose proof (partition_answers l offset e).
  destruct (verify_partition_from l offset e); [rewrite Ok_bind; by destruct (negb _)|done|done].
Qed.
Lemma refines_answer {A B} D (r : presult A) (k : A → presult B) P : r ≠ Panic → (D → ∃ a, r = Ok a) → (∀ a, r = Ok a → refines D (k a) P) → refines D (r ≫= k) P.
Proof. destruct r as [a| |]; [intros _ _ Hk; by apply Hk| |done]. intros _ Hd _ Hx. by destruct (Hd Hx). Qed.
(** Only a clean committed version is a source; a frozen one has no recipe. *)
Lemma clone_source_spec D st id offset length : file_wf heap (file st) → kind st = Regular → 0 ≤ offset → 0 < length → offset + length ≤ u64_max →
  (D → offset + length ≤ live_size (file st) ∧ clone_ready heap st offset length) →
  refines D (clone_source st id offset (offset + length) length) (λ r, r.1 = committed (file st) ∧ 0 ≤ r.2 ∧ offset + length ≤ live_size (file st) ∧
    first_sequence (active (file st)) = None ∧ inflight (file st) = None ∧ (D → r.2 ≤ 2 ^ 32)).
Proof.
  intros Hf Hk Ho Hl Hm HD. set (f := file st) in *. assert (HR : D → offset + length ≤ live_size f ∧ first_sequence (active f) = None ∧ inflight f = None ∧
    ∃ prepared, prepared_clone_extents (committed f) offset length = Ok (Some prepared) ∧
      verify_prepared_clone_partition prepared offset length = Ok () ∧ Z.of_nat (List.length prepared) ≤ 2 ^ 32).
  { intros Hd. destruct (HD Hd) as (?&[->|(?&?&_&?)]); [lia|done]. }
  unfold clone_source. fold f. apply refines_reject.
  { intros (Hs&_)%HR. rewrite bool_decide_false by (by intros []). cbn [orb]. apply Z.ltb_ge. lia. }
  intros Hs. apply orb_false_iff in Hs as [_ Hs%Z.ltb_ge]. unfold stable_clone_source. rewrite reject_Err.
  destruct (bool_decide_reflect (is_Some (first_sequence (active f)))) as [Hfirst|Hfirst]; [intros (_&Hc&_)%HR; rewrite Hc in Hfirst; by destruct Hfirst|].
  apply eq_None_not_Some in Hfirst. rewrite Ok_bind. unfold source_extents. destruct (inflight f) as [z|] eqn:Hfl.
  - unfold default_clone_extents. rewrite checked_add_ok by lia. cbn [ok_or]. rewrite Ok_bind, reject_Err. destruct (_ || _); [by intros (_&_&?&_)%HR|].
    cbn [FrozenCommit allocated_bytes_in_range]. rewrite checked_add_ok by lia. cbn [ok_or]. rewrite Ok_bind. unfold allocated_bytes_through.
    pose proof (fw_base _ _ Hf) as Hb. rewrite Hfl in Hb. rewrite (allocated_through_spec heap); [|apply Hf|apply Forall_reverse, Forall_singleton, Hb|done].
    rewrite Ok_bind. destruct (negb _); cbn [ok_or]; by intros (_&_&?&_)%HR.
  - apply refines_answer; [apply recipes_answer|intros (_&_&_&?&?&_)%HR; by eexists|]. intros prepared Hp.
    apply refines_ok_or; [intros (_&_&_&l&Hl'&_)%HR; exists l; congruence|]. intros l ->.
    apply refines_answer; [apply verify_answers|intros (_&_&_&l'&Hl'&?&_)%HR; assert (l' = l) as -> by congruence; by eexists|]. intros [] Hv. cbn [refines fst snd].
    split_and!; [done|lia|lia|done|done|]. intros (_&_&_&l'&Hl'&_&?)%HR. by assert (l' = l) as -> by congruence.
Qed.
(** ** Capacity *)
Lemma plan_clone_answers e offset length n : plan_clone_capacity e offset length n ≠ Panic.
Proof.
  unfold plan_clone_capacity. destruct (negb _); [done|]. destruct (checked_add _ _ _); cbn [ok_or]; [|done]. rewrite Ok_bind.
  destruct (clone_budget e offset) as [m budget]. unfold saturating_sub. destruct (Z.ltb_spec 0 (Z.max 0 (n - budget))) as [Hr|Hr].
  - pose proof (div_ceil_spec (Z.max 0 (n - budget)) SEQUENTIAL_CLONE_COVERAGE_EXTENTS_V1 ltac:(done)) as Hw. set (w := div_ceil _ _) in *. cbv zeta.
    unfold window_claims. destruct (checked_mul u64_max w SEQUENTIAL_APPEND_PATH_CLAIMS_V1); cbn [ok_or]; rewrite ?Ok_bind; [|discriminate]. destruct (checked_mul _ _ MUTATION_METADATA_INCREMENT_BYTES_V1); cbn [ok_or]; rewrite ?Ok_bind; [|discriminate].
    destruct (checked_add u64_max m _); cbn [ok_or]; rewrite ?Ok_bind; [|discriminate].
    destruct (checked_mul u64_max w _) as [added|] eqn:Ha; cbn [ok_or]; rewrite ?Ok_bind; [|discriminate]. apply checked_mul_Some in Ha as [-> _].
    destruct (checked_add u64_max budget _) as [b|] eqn:Hb; cbn [ok_or]; rewrite ?Ok_bind; [|discriminate]. apply checked_add_Some in Hb as [-> _].
    cbn [snd]. unfold checked_sub. rewrite (proj2 (Z.leb_le _ _)) by lia. done.
  - rewrite Ok_bind. cbn [snd]. unfold checked_sub. rewrite (proj2 (Z.leb_le _ _)) by lia. done.
Qed.
Lemma clone_budget_bounds e offset : match clone_metadata_coverage e with Some c => 0 ≤ extents_left c | None => True end →
  ∃ m budget, clone_budget e offset = (m, budget) ∧ 0 ≤ m ≤ SINGLE_LEAF_METADATA_BYTES_V1 ∧ 0 ≤ budget.
Proof.
  intros Hc. unfold clone_budget. destruct (clone_metadata_coverage e) as [c|]; [destruct (_ =? _)|destruct (_ && _)]; eexists _, _; (split; [done|]);
    unfold SINGLE_LEAF_METADATA_BYTES_V1, SINGLE_LEAF_CLONE_COVERAGE_EXTENTS_V1; lia.
Qed.
Lemma plan_clone_admitted e offset length n : offset + length ≤ u64_max → 0 ≤ n ≤ 2 ^ 32 →
  match clone_metadata_coverage e with Some c => 0 ≤ extents_left c | None => True end → ∃ plan, plan_clone_capacity e offset length n = Ok plan.
Proof.
  intros Hm Hn Hc. unfold plan_clone_capacity. destruct (negb _); [by eexists|]. rewrite checked_add_ok by done. cbn [ok_or]. rewrite Ok_bind.
  destruct (clone_budget_bounds e offset Hc) as (m&budget&->&Hb&Hb0). unfold saturating_sub. destruct (Z.ltb_spec 0 (Z.max 0 (n - budget))) as [Hr|Hr].
  - pose proof (div_ceil_spec (Z.max 0 (n - budget)) SEQUENTIAL_CLONE_COVERAGE_EXTENTS_V1 ltac:(done)) as Hw. set (w := div_ceil _ _) in *. cbv zeta.
    assert (Hw2 : 0 ≤ w ≤ 2 ^ 23) by (unfold SEQUENTIAL_CLONE_COVERAGE_EXTENTS_V1 in Hw; lia). unfold SEQUENTIAL_CLONE_COVERAGE_EXTENTS_V1 in *.
    rewrite window_claims_ok, Ok_bind, checked_add_ok by (sizes; lia). cbn [ok_or]. rewrite Ok_bind, checked_mul_ok by (sizes; lia). cbn [ok_or].
    rewrite Ok_bind, checked_add_ok by (sizes; lia). cbn [ok_or]. rewrite !Ok_bind. cbn [snd]. unfold checked_sub. rewrite (proj2 (Z.leb_le _ _)) by lia.
    cbn [expect]. rewrite Ok_bind. by eexists.
  - rewrite Ok_bind. cbn [snd]. unfold checked_sub. rewrite (proj2 (Z.leb_le _ _)) by lia. cbn [expect]. rewrite Ok_bind. by eexists.
Qed.

(** ** The request *)
Lemma readable_resolves ns inode handle : ns_wf heap ns → readable ns inode handle →
  ∃ st open, resolve_open_file (catalog ns) inode handle = Ok (st, open) ∧ access (options open) ≠ WriteOnly.
Proof.
  intros Hn (open&Hh&<-&Ha). destruct (nw_handles _ _ Hn _ _ Hh) as (st&Hst&_). exists st, open. unfold resolve_open_file. rewrite Hh. cbn [ok_or].
  by rewrite Ok_bind, Z.eqb_refl, Hst.
Qed.
(** The clone itself, once it is planned: the POSIX clone or a refusal *)
Lemma clone_outcome f g offset file_offset length : file_wf heap f → file_wf heap g → clean_ok heap g → first_sequence (active g) = None → inflight g = None →
  last_sequence (active f) < u64_max → 0 ≤ offset → 0 ≤ file_offset → 0 < length → offset + length ≤ u64_max → file_offset + length ≤ live_size g →
  let q := posix_clone (abstract heap f) offset (file_view heap g) file_offset length in
  let r := VersionedFile.clone_range f offset (committed g) file_offset length (last_sequence (active f) + 1) in
  (r = Err Unsupported ∧ ¬ ∀ x, file_offset ≤ x < file_offset + length → is_Some (file_view heap g x)) ∨
  (mutates heap f r q (last_sequence (active f) + 1) ∧ posix_allocated q 0 (pf_size q) = live_allocated_bytes f - posix_allocated (abstract heap f) offset (offset + length) + length).
Proof.
  intros Hf Hg Hclean Hfirst Hfl Hm Ho Hfo Hl Hmax Hfit q r. destruct (Hclean Hfirst Hfl) as [Hsz Hview]. pose proof (fw_committed _ _ Hg) as Hfile.
  destruct (decide (count (file_present heap (committed g)) file_offset (file_offset + length) = length)) as [Hcount|Hcount].
  - assert (Hpres : ∀ x, file_offset ≤ x < file_offset + length → is_Some (file_at heap (committed g) x)).
    { intros x Hx. apply (bool_decide_eq_true (is_Some _)). apply (count_full (file_present heap (committed g)) file_offset (file_offset + length)); [lia|done]. }
    right. split.
    + destruct (clone_range_spec heap f offset (committed g) file_offset length (last_sequence (active f) + 1) Hf eq_refl ltac:(lia) Hfile Ho Hfo Hl Hmax ltac:(lia) Hpres)
        as (f'&Hr&Hf'&Hv'&Hrest). exists f'. split; [done|]. split; [done|]. split; [|done]. etrans; [exact Hv'|]. split; [done|]. intros x.
      cbn [q posix_clone pf_at]. case_decide; [|done]. by rewrite Hview.
    + apply place_allocated; try done; try lia; cbn [q posix_clone pf_at]; intros x Hx; [|by rewrite decide_False]. rewrite decide_True by done.
      rewrite Hview. apply Hpres. lia.
  - left. split; [apply clone_unsupported; (done || lia)|]. intros Hall. apply Hcount. rewrite count_all; [lia|lia|]. intros x Hx. apply bool_decide_true.
    rewrite <-Hview. by apply Hall.
Qed.
(** What an admitted clone gives once both files are open *)
Definition clone_admitted (source target : InodeState) (same : Prop) (source_offset offset length : Z) : Prop :=
  grants ∧ immutable target = false ∧ offset + length ≤ maximum ∧ offset + length ≤ u64_max ∧
  (same → source_offset + length ≤ offset ∨ offset + length ≤ source_offset) ∧
  source_offset + length ≤ live_size (file source) ∧ clone_ready heap source source_offset length.
Lemma refines_clone_open {A} ns now si sh so inode handle offset length id (k : InodeState * OpenHandle → InodeState * OpenHandle → presult A) P :
  let D := admitted heap maximum ns (CloneRequest now si sh so inode handle offset length id) in ns_wf heap ns →
  (∀ s t so' to', inodes (catalog ns) !! si = Some s → kind s = Regular → inodes (catalog ns) !! inode = Some t → kind t = Regular →
    (D → clone_admitted s t (si = inode) so offset length ∧ access (options so') ≠ WriteOnly ∧ access (options to') ≠ AccessReadOnly) →
    refines D (k (s, so') (t, to')) P) →
  refines D (s ← resolve_open_file (catalog ns) si sh; t ← resolve_open_file (catalog ns) inode handle; k s t) P.
Proof.
  intros D Hn Hk. pose proof (resolve_spec heap ns si sh Hn) as Hs. pose proof (readable_resolves ns si sh Hn) as Hw.
  destruct (resolve_open_file (catalog ns) si sh) as [[s so']| |]; [|intros (_&t&_&_&_&_&Hx&_); by destruct (Hw Hx) as (?&?&?&_)|done].
  destruct Hs as (_&His&Hks). rewrite Ok_bind. apply (refines_open heap); [done|by intros (_&t&_&_&_&?&_)|]. intros t to' _ Hit Hkt Hacc.
  apply Hk; [done..|]. intros Hd. split; [|split; [|by apply Hacc]].
  - destruct Hd as (Hg&t'&Hit'&_&Him&_&_&?&?&?&s'&His'&?&?). cbn [request_inode] in Hit'. assert (t' = t) as -> by congruence. assert (s' = s) as -> by congruence. done.
  - destruct Hd as (_&_&_&_&_&_&Hx&_). by destruct (Hw Hx) as (?&?&[= -> ->]&?).
Qed.
Lemma clone_request_spec ns now si sh so inode handle offset length id : let req := CloneRequest now si sh so inode handle offset length id in
  ns_wf heap ns → request_ok heap ns req → refines (admitted heap maximum ns req) (handle_request maximum ns req) (request_done heap ns req).
Proof.
  intros req Hn [(Hso&Ho&Hl) Hst]. cbn [handle_request req request_inode] in *. apply refines_bind. unfold clone_range.
  apply (refines_clone_open ns now si sh so inode handle offset length id); [done|]. fold req. set (D := admitted _ _ _ _).
  intros s t so' to' His Hks Hit Hkt HD. cbn [fst snd]. destruct (nw_files _ _ Hn _ _ His) as (Hg&Hclean&_). destruct (nw_files _ _ Hn _ _ Hit) as (Hf&_&Hseq).
  specialize (Hseq Hkt). destruct (Hst t Hit) as (Hmax&Hroom&Hcov). clear Hst. cbn [request_effect req] in Hroom. rewrite His in Hroom.
  pose proof (live_size_bound heap (file s) Hg) as Hgs. pose proof (live_size_bound heap (file t) Hf) as Hfs.
  apply refines_reject; [intros (_&?&?)%HD; by rewrite !bool_decide_false|]. intros _.
  apply refines_ok_or; [intros ((_&_&_&_&_&?&_)&_)%HD; rewrite checked_add_ok by lia; by eexists|]. intros e1 [-> He1]%checked_add_Some.
  apply refines_ok_or; [intros ((_&_&_&?&_)&_)%HD; rewrite checked_add_ok by lia; by eexists|]. intros e2 [-> He2]%checked_add_Some.
  apply refines_reject; [intros ((_&_&?&_)&_)%HD; apply Z.ltb_ge; lia|]. intros _.
  apply refines_reject; [intros ((_&_&_&_&Hdis&_)&_)%HD; destruct (Z.eqb_spec si inode); [|done]; zbool; lia|]. intros _. cbv zeta.
  destruct (Z.eqb_spec length 0) as [Hz|Hz].
  { cbn [refines fst]. exists t. split; [done|]. left. split; [done|]. cbn [request_effect req]. by rewrite Hz. }
  apply refines_bind. eapply refines_mono; [apply (clone_source_spec D s id so length Hg Hks Hso ltac:(lia) He1); by intros ((_&_&_&_&_&?&?)&_)%HD|].
  intros [source n] (->&Hn0&Hfit&Hfirst&Hfl&Hsmall). cbn [fst snd] in *. rewrite bool_decide_true by done. cbn [assert_true]. rewrite Ok_bind.
  apply refines_reject; [intros ((_&?&_)&_)%HD; done|]. intros _. set (f := file t) in *. rewrite (overwritten_spec heap), Ok_bind by done.
  pose proof (clone_outcome f (file s) offset so length Hf Hg Hclean Hfirst Hfl ltac:(lia) Ho Hso ltac:(lia) He2 Hfit) as Hout. cbv zeta in Hout.
  set (q := posix_clone (abstract heap f) offset (file_view heap (file s)) so length) in *. rewrite <-Hseq in Hout.
  assert (Hall : D → ∀ x, so ≤ x < so + length → is_Some (file_view heap (file s) x)) by (by intros ((_&_&_&_&_&_&[?|(_&_&?&_)])&_)%HD).
  pose proof (allocated_le heap f offset (offset + length) ltac:(lia) Hf). unfold checked_sub. rewrite (proj2 (Z.leb_le _ _)) by lia. cbn [ok_or]. rewrite Ok_bind.
  apply refines_ok_or.
  { intros Hd. destruct Hout as [[_ Hno]|[_ Hafter]]; [by destruct (Hno (Hall Hd))|]. pose proof (posix_allocated_le q 0 (pf_size q)) as Hle.
    cbn [q posix_clone pf_size abstract] in Hle, Hafter. rewrite checked_add_ok by lia. by eexists. }
  intros after [-> Hfits]%checked_add_Some.
  apply refines_answer; [apply plan_clone_answers|intros Hd; apply plan_clone_admitted; [done|split; [done|by apply Hsmall]|done]|]. intros capacity _.
  apply refines_admit; [apply capacity_answers|intros ((Hgr&_)&_)%HD; apply Hgr|]. apply refines_admit; [apply change_answers|intros ((Hgr&_)&_)%HD; apply Hgr|].
  rewrite checked_add_ok by lia. cbn [ok_or]. rewrite Ok_bind. destruct Hout as [[-> Hno]|[(f'&Hr&Hf'&Hv'&Hl'&Hd'&_) Hafter]]; [intros Hd; by destruct (Hno (Hall Hd))|].
  pose proof (clone_resident f _ _ _ _ _ f' Hf Hr) as Hres. rewrite Hr, Ok_bind. destruct (accept_clone_coverage (active f') capacity) as [clone ->].
  destruct (coverage_wf heap f' (append_metadata_covered_end (active f')) clone Hf') as [Hfa Hva]. set (fa := set_active f' _ _) in *.
  rewrite (wf_allocated heap fa q Hfa) by (by rewrite Hva). rewrite Hafter, Z.eqb_refl. cbn [assert_true]. rewrite Ok_bind.
  rewrite (proj2 (Z.leb_le (resident_payload_bytes fa) _) Hres). cbn [assert_true]. rewrite Ok_bind.
  destruct (finish_mutation_spec heap ns inode t fa q now Hn Hit Hkt Hfa Hd') as (ns'&->&Hup); [done|by rewrite Hva|done|].
  rewrite Ok_bind. cbn [refines fst]. exists t. split; [done|]. right. cbn [request_effect req request_inode]. by rewrite (proj2 (Z.eqb_neq _ _) Hz), His.
Qed.
End Clones.
End FileCloneOps.
