(* ===== verification/FileRequests.v ===== *)
(** * Histories of file requests

    What the write, length, preallocation and clone requests of a namespace promise to
    their callers, for single requests and for histories of them. *)
From S2P Require Export FileHandlersOps FileRefinement.

Module FileRequests.
Import SparseData SparseDataOps DirtyEpoch DirtyEpochOps VersionedFile VersionedFileOps VersionedFileRuns FileCommit Fallocate InodeMetadata FileCatalog FileHandlers FileClone FileHandlersOps FileCloneOps FileRefinement.

Section Histories.
Context (heap : Z → option (CommittedFile * (Z → option byte))) `{Adm : Admission} `{!AdmissionLaws} `{Rec : CloneRecipes} `{!RecipeLaws} (maximum : Z).

Lemma request_spec ns req : ns_wf heap ns → request_ok heap ns req →
  refines (admitted heap maximum ns req) (handle_request maximum ns req) (request_done heap ns req).
Proof.
  intros Hn Hr. destruct req; [by apply write_request_spec|by apply length_request_spec|by apply fallocate_request_spec|by apply clone_request_spec].
Qed.
Lemma request_done_wf ns req ns' : ns_wf heap ns → request_done heap ns req ns' → ns_wf heap ns'.
Proof. by intros Hn (st&_&[[-> _]|[? _]]). Qed.
(** A caller goes on after a request that fails, which leaves the state. *)
Definition request_step (ns : Namespace) (req : request) : presult Namespace :=
  match handle_request maximum ns req with Err _ => Ok ns | r => r end.
Fixpoint request_run (ns : Namespace) (reqs : list request) : presult Namespace :=
  match reqs with [] => Ok ns | req :: reqs => ns ← request_step ns req; request_run ns reqs end.
Fixpoint requests_ok (ns : Namespace) (reqs : list request) : Prop :=
  match reqs with [] => True | req :: reqs => request_ok heap ns req ∧ ∀ ns', request_step ns req = Ok ns' → requests_ok ns' reqs end.
Lemma request_run_spec ns reqs : ns_wf heap ns → requests_ok ns reqs → ∃ ns', request_run ns reqs = Ok ns' ∧ ns_wf heap ns'.
Proof.
  revert ns. induction reqs as [|req reqs IH]; intros ns Hn; cbn [request_run requests_ok]; [by eexists|]. intros [Hr Hrest].
  pose proof (request_spec ns req Hn Hr) as Hs. unfold request_step in *.
  destruct (handle_request maximum ns req) as [ns'| |]; [|rewrite Ok_bind; by apply IH, Hrest|done].
  rewrite Ok_bind. apply IH, Hrest; [|done]. by eapply request_done_wf.
Qed.


(** After any history of file requests, failed ones included, no assertion
    has failed and the count of dirty payload is the resident payload of the
    linked inodes, each at most the size of its file. *)
Theorem dirty_payload_exact ns reqs : ns_wf heap ns → requests_ok ns reqs →
  ∃ ns', request_run ns reqs = Ok ns' ∧ dirty_payload ns' = msum inode_dirty (inodes (catalog ns')) ∧
    ∀ i st, inodes (catalog ns') !! i = Some st → 0 ≤ inode_dirty i st ≤ live_size (file st).
Proof.
  intros Hn Hr. destruct (request_run_spec ns reqs Hn Hr) as (ns'&Hrun&Hn'). exists ns'. split; [done|]. split; [apply Hn'|].
  intros i st Hi. apply (inode_dirty_bound heap). by destruct (nw_files _ _ Hn' i st Hi).
Qed.
End Histories.

(** ** Example: a new file in a namespace that grants everything *)
#[local] Instance granting : Admission := {| reserve_change _ _ _ := Ok (); try_reserve := None |}.
#[local] Instance granting_laws : AdmissionLaws.
Proof. by split. Qed.
(** The committed files of the example export no recipe *)
#[local] Instance no_recipes : CloneRecipes := λ _ _ _, Ok None.
#[local] Instance no_recipes_laws : RecipeLaws.
Proof. done. Qed.
Definition example_time : PosixTimestamp := {| seconds := 0; nanoseconds := 0 |}.
Definition example_inode : InodeState :=
  {| kind := Regular; mode := 0; uid := 0; gid := 0; link_count := 1; inode_sequence := 0; metadata := default_metadata;
     times := {| atime := example_time; mtime := example_time; ctime := example_time |}; symlink_target := None; file := new_empty 1; policy_name_matches := 0 |}.
Definition example_open : OpenHandle := {| handle_inode := 2; options := {| access := ReadWrite; append_mode := true |} |}.
Definition example_namespace : Namespace :=
  {| catalog := {| inodes := {[ 2 := example_inode ]}; handles := {[ 9 := example_open ]} |}; dirty_payload := 0 |}.
Definition example_append (payload : MutationPayload) : request := WriteRequest example_time 2 9 0 payload.
Lemma example_ns_wf more : ns_wf (example_heap more) example_namespace.
Proof.
  split; cbn [example_namespace catalog inodes handles dirty_payload].
  - intros h open [<- <-]%lookup_singleton_Some. exists example_inode. done.
  - intros i st [<- <-]%lookup_singleton_Some. split; [apply example_new|]. split; [|done]. intros _ _. split; [done|]. intros x. rewrite file_view_active. change (active _) with (new 0 0). rewrite new_view. by case_decide.
  - vm_compute. done.
Qed.
Lemma example_request_ok more payload : blen (payload_bytes payload) ≤ u32_max → request_ok (example_heap more) example_namespace (example_append payload).
Proof.
  intros Hl. split; [done|]. intros st Hst. change (({[ 2 := example_inode ]} : gmap Z InodeState) !! 2 = Some st) in Hst. apply lookup_singleton_Some in Hst as [_ <-]. cbn [example_inode inode_sequence file].
  split; [done|]. split; [|done]. cbn [request_effect example_append]. pose proof (blen_nonneg (payload_bytes payload)).
  set (p := abstract _ _). assert (Hp : pf_size p = 0) by done. assert (u32_max ≤ u64_max) by done.
  assert (Ho : write_offset example_namespace 9 0 p = 0) by (unfold write_offset; by rewrite Hp).
  change (dirty_payload example_namespace) with 0. destruct (_ =? 0); [rewrite Hp; lia|]. rewrite Ho. cbn [posix_write pf_size]. rewrite Hp. lia.
Qed.
Lemma example_missing_ok more : request_ok (example_heap more) example_namespace (LengthRequest example_time 7 None 3).
Proof. split; [done|]. intros st Hst. by change (({[ 2 := example_inode ]} : gmap Z InodeState) !! 7 = Some st) in Hst. Qed.
Definition example_payload : MutationPayload := {| payload_bytes := [x61; x62]; backing_bytes := 2 |}.
Lemma dirty_payload_exact_witness : ∃ ns', request_run u64_max example_namespace [LengthRequest example_time 7 None 3; example_append example_payload] = Ok ns' ∧
  dirty_payload ns' = msum inode_dirty (inodes (catalog ns')) ∧
  ∀ i st, inodes (catalog ns') !! i = Some st → 0 ≤ inode_dirty i st ≤ live_size (file st).
Proof.
  apply (dirty_payload_exact (example_heap (λ _, None)) u64_max); [apply example_ns_wf|]. split; [apply example_missing_ok|].
  intros ns' Hs. change ((Ok example_namespace : presult Namespace) = Ok ns') in Hs. injection Hs as <-. split; [by apply example_request_ok|done].
Defined.
End FileRequests.
