(* ===== verification/NamespaceTree.v ===== *)
(** * The tree of the namespace ([Namespace] of [fastdup-posix/src/lib.rs])

    Directory entries, link and lookup counts, handles and the allocation of
    inode and handle numbers, with the requests that change them.  Observers,
    wake-ups and the membership tables of quotas, reduction shares and authority
    domains are left out; what a request reads of those tables is a parameter. *)
From S2P Require Export FileHandlers.

Module NamespaceTree.
Import SparseData DirtyEpoch VersionedFile FileCommit InodeMetadata FileCatalog FileCapacity FileHandlers.

Definition ROOT_INODE : Z := 1.
Definition MAXIMUM_SYMLINK_BYTES : Z := 4096.
(** The catalog, with the part the file requests use in [space] *)
Record Tree := {
  space : Namespace;
  entries : gmap (Z * bytes) Z;
  lookup_counts : gmap Z Z;
  next_inode : Z;
  inode_reservation_end : Z;
  next_handle : Z;
  active_create_metadata_bytes : gmap Z Z;
}.
Record FileAttr := {
  attr_inode : Z; attr_size : Z; attr_allocated_bytes : Z; attr_kind : FileKind; attr_mode : Z; attr_uid : Z; attr_gid : Z;
  attr_link_count : Z; attr_mutation_sequence : Z; attr_times : PosixTimes;
}.
Record RequestContext := { context_uid : Z; context_gid : Z }.
(** What other tables say of two inodes *)
Class Domains := {
  same_domain : Z → Z → bool;
  same_reduction_share : Z → Z → bool;
  same_immutability_domain : Z → Z → bool;
}.
(** Whether the active small-file policy matches a name *)
Class NamePolicy := name_matches : bytes → bool.

(** ** Fields *)
Definition inodes_of (t : Tree) : gmap Z InodeState := inodes (catalog (space t)).
Definition handles_of (t : Tree) : gmap Z OpenHandle := handles (catalog (space t)).
Definition set_space (t : Tree) (s : Namespace) : Tree :=
  {| space := s; entries := entries t; lookup_counts := lookup_counts t; next_inode := next_inode t;
     inode_reservation_end := inode_reservation_end t; next_handle := next_handle t; active_create_metadata_bytes := active_create_metadata_bytes t |}.
Definition set_inodes (t : Tree) (m : gmap Z InodeState) : Tree :=
  set_space t {| catalog := {| inodes := m; handles := handles_of t |}; dirty_payload := dirty_payload (space t) |}.
Definition set_inode (t : Tree) (i : Z) (st : InodeState) : Tree := set_inodes t (<[i := st]> (inodes_of t)).
Definition set_handles (t : Tree) (m : gmap Z OpenHandle) : Tree :=
  set_space t {| catalog := {| inodes := inodes_of t; handles := m |}; dirty_payload := dirty_payload (space t) |}.
Definition set_dirty (t : Tree) (d : Z) : Tree := set_space t {| catalog := catalog (space t); dirty_payload := d |}.
Definition set_entries (t : Tree) (m : gmap (Z * bytes) Z) : Tree :=
  {| space := space t; entries := m; lookup_counts := lookup_counts t; next_inode := next_inode t;
     inode_reservation_end := inode_reservation_end t; next_handle := next_handle t; active_create_metadata_bytes := active_create_metadata_bytes t |}.
Definition set_lookups (t : Tree) (m : gmap Z Z) : Tree :=
  {| space := space t; entries := entries t; lookup_counts := m; next_inode := next_inode t;
     inode_reservation_end := inode_reservation_end t; next_handle := next_handle t; active_create_metadata_bytes := active_create_metadata_bytes t |}.
Definition set_next_inode (t : Tree) (n : Z) : Tree :=
  {| space := space t; entries := entries t; lookup_counts := lookup_counts t; next_inode := n;
     inode_reservation_end := inode_reservation_end t; next_handle := next_handle t; active_create_metadata_bytes := active_create_metadata_bytes t |}.
Definition set_next_handle (t : Tree) (n : Z) : Tree :=
  {| space := space t; entries := entries t; lookup_counts := lookup_counts t; next_inode := next_inode t;
     inode_reservation_end := inode_reservation_end t; next_handle := n; active_create_metadata_bytes := active_create_metadata_bytes t |}.
Definition set_creates (t : Tree) (m : gmap Z Z) : Tree :=
  {| space := space t; entries := entries t; lookup_counts := lookup_counts t; next_inode := next_inode t;
     inode_reservation_end := inode_reservation_end t; next_handle := next_handle t; active_create_metadata_bytes := m |}.
Definition set_links (st : InodeState) (links sequence : Z) : InodeState :=
  {| kind := kind st; mode := mode st; uid := uid st; gid := gid st; link_count := links; inode_sequence := sequence; metadata := metadata st;
     times := times st; symlink_target := symlink_target st; file := file st; policy_name_matches := policy_name_matches st |}.
Definition set_file (st : InodeState) (f : VersionedFile) : InodeState :=
  {| kind := kind st; mode := mode st; uid := uid st; gid := gid st; link_count := link_count st; inode_sequence := inode_sequence st; metadata := metadata st;
     times := times st; symlink_target := symlink_target st; file := f; policy_name_matches := policy_name_matches st |}.
Definition set_times (st : InodeState) (ts : PosixTimes) : InodeState :=
  {| kind := kind st; mode := mode st; uid := uid st; gid := gid st; link_count := link_count st; inode_sequence := inode_sequence st; metadata := metadata st;
     times := ts; symlink_target := symlink_target st; file := file st; policy_name_matches := policy_name_matches st |}.
Definition set_matches (st : InodeState) (n : Z) : InodeState :=
  {| kind := kind st; mode := mode st; uid := uid st; gid := gid st; link_count := link_count st; inode_sequence := inode_sequence st; metadata := metadata st;
     times := times st; symlink_target := symlink_target st; file := file st; policy_name_matches := n |}.
Definition set_ctime (st : InodeState) (now : PosixTimestamp) : InodeState :=
  set_times st {| atime := atime (times st); mtime := mtime (times st); ctime := now |}.
(** [InodeState::attributes] *)
Definition attributes (st : InodeState) (inode : Z) : FileAttr :=
  let '(size, allocated) := match symlink_target st with
                            | Some target => (blen target, 0)
                            | None => (live_size (file st), live_allocated_bytes (file st))
                            end in
  {| attr_inode := inode; attr_size := size; attr_allocated_bytes := allocated; attr_kind := kind st; attr_mode := mode st; attr_uid := uid st;
     attr_gid := gid st; attr_link_count := link_count st; attr_mutation_sequence := inode_sequence st; attr_times := times st |}.

(** ** Checks *)
Definition slash : byte := x2f.
Definition dot : byte := x2e.
Definition validate_component (maximum_name_bytes : Z) (name : bytes) : presult () :=
  reject_if (maximum_name_bytes <? blen name) NameTooLong;;
  reject_if (bool_decide (name = []) || bool_decide (name = [dot]) || bool_decide (name = [dot; dot]) || bool_decide (slash ∈ name) || bool_decide (x00 ∈ name)) InvalidName.
Definition validate_directory (t : Tree) (inode : Z) : presult () :=
  st ← ok_or (inodes_of t !! inode) NoEntry;
  reject_if (bool_decide (kind st ≠ Directory)) NotDirectory.
Definition validate_mutable_directory (t : Tree) (inode : Z) : presult () :=
  st ← ok_or (inodes_of t !! inode) NoEntry;
  reject_if (bool_decide (kind st ≠ Directory)) NotDirectory;;
  reject_if (immutable st) PermissionDenied.
Definition root_mutation_sequence (t : Tree) : presult Z := st ← expect (inodes_of t !! ROOT_INODE); Ok (inode_sequence st).
Definition next_root_mutation_sequence (t : Tree) : presult Z := n ← root_mutation_sequence t; ok_or (checked_add u64_max n 1) NoSpace.
Definition install_root_mutation_sequence (t : Tree) (sequence : Z) : presult Tree :=
  root ← expect (inodes_of t !! ROOT_INODE);
  n ← expect (checked_add u64_max (inode_sequence root) 1);
  assert_true (n =? sequence);;
  Ok (set_inode t ROOT_INODE (set_links root (link_count root) sequence)).

(** ** Allocation and references *)
Definition allocate_inode (t : Tree) : presult (Tree * Z) :=
  reject_if (inode_reservation_end t <=? next_inode t) NoSpace;;
  reject_if (next_inode t =? 0) NoSpace;;
  n ← ok_or (checked_add u64_max (next_inode t) 1) NoSpace;
  Ok (set_next_inode t n, next_inode t).
Definition allocate_handle (t : Tree) : presult (Tree * Z) :=
  reject_if (next_handle t =? 0) NoSpace;;
  n ← ok_or (checked_add u64_max (next_handle t) 1) NoSpace;
  Ok (set_next_handle t n, next_handle t).
Definition lookups (t : Tree) (inode : Z) : Z := default 0 (lookup_counts t !! inode).
Definition acquire_lookup (t : Tree) (inode count : Z) : presult Tree :=
  assert_true (0 <? count);;
  assert_true (bool_decide (is_Some (inodes_of t !! inode)));;
  next ← ok_or (checked_add u64_max (lookups t inode) count) NoSpace;
  Ok (set_lookups t (<[inode := next]> (lookup_counts t))).
Definition has_handle (t : Tree) (inode : Z) : bool := existsb (λ kv, handle_inode kv.2 =? inode) (map_to_list (handles_of t)).
Definition insert_handle (t : Tree) (handle inode : Z) (opts : OpenOptions) : presult Tree :=
  assert_true (bool_decide (handles_of t !! handle = None));;
  Ok (set_handles t (<[handle := {| handle_inode := inode; options := opts |}]> (handles_of t))).
(** [catalog.entries.insert] and [remove] with the assertions around them *)
Definition insert_entry (t : Tree) (key : Z * bytes) (inode : Z) (previous : option Z) : presult Tree :=
  assert_true (bool_decide (entries t !! key = previous));;
  Ok (set_entries t (<[key := inode]> (entries t))).
Definition remove_entry (t : Tree) (key : Z * bytes) (inode : Z) : presult Tree :=
  assert_true (bool_decide (entries t !! key = Some inode));;
  Ok (set_entries t (delete key (entries t))).
Definition remove_inode (t : Tree) (inode : Z) : presult Tree :=
  assert_true (bool_decide (is_Some (inodes_of t !! inode)));;
  Ok (set_inodes t (delete inode (inodes_of t))).
(** [adjust_policy_name_matches]: the count is added without overflow checks *)
Definition adjust_policy_name_matches (t : Tree) (target : Z) (matching added : bool) : presult Tree :=
  if negb matching then Ok t
  else
    st ← expect (inodes_of t !! target);
    if added then Ok (set_inode t target (set_matches st ((policy_name_matches st + 1) mod 2 ^ 32)))
    else n ← expect (checked_sub (policy_name_matches st) 1); Ok (set_inode t target (set_matches st n)).
Definition advance_data (st : InodeState) (sequence : Z) : presult InodeState :=
  if decide (kind st = Regular) then f ← advance_mutation_sequence (file st) sequence; Ok (set_file st f) else Ok st.
(** An inode without names, lookups and handles goes *)
Definition drop_orphan (t : Tree) (inode : Z) (orphan : bool) : presult Tree :=
  if orphan && (lookups t inode =? 0) && negb (has_handle t inode) then remove_inode t inode else Ok t.
End NamespaceTree.
