(* ===== verification/TreeRequests.v ===== *)
(** * Requests on the tree of the namespace ([Namespace] of
    [fastdup-posix/src/lib.rs])

    lookup, link, symlink, create, mkdir, open, release, unlink, rmdir, rename,
    readdir and forget, each with its checks, its assertions and the order of its
    changes. *)
From S2P Require Export NamespaceTree.

Module TreeRequests.
Import SparseData DirtyEpoch VersionedFile FileCommit InodeMetadata FileCatalog FileCapacity FileHandlers NamespaceTree.

Record CreateRequest := {
  create_context : RequestContext; create_parent : Z; create_name : bytes; create_mode : Z; create_umask : Z;
  create_options : OpenOptions; exclusive : bool; truncate : bool;
}.

Section Requests.
Context `{Admission} `{Domains} `{NamePolicy} (maximum_name_bytes empty_id : Z).

Definition lookup_name (t : Tree) (parent : Z) (name : bytes) : presult (Tree * FileAttr) :=
  validate_component maximum_name_bytes name;;
  validate_directory t parent;;
  inode ← ok_or (entries t !! (parent, name)) NoEntry;
  st ← expect (inodes_of t !! inode);
  assert_true (0 <? link_count st);;
  t ← acquire_lookup t inode 1;
  Ok (t, attributes st inode).
(** A step that may fail after the state has changed *)
Definition answer {A} (r : presult Tree) (t : Tree) (a : A) : presult (Tree * presult A) :=
  match r with Ok t => Ok (t, Ok a) | Err e => Ok (t, Err e) | Panic => Panic end.
(** The name stays when the count of lookups has no room *)
Definition link (t : Tree) (now : PosixTimestamp) (context : RequestContext) (inode new_parent : Z) (new_name : bytes) : presult (Tree * presult FileAttr) :=
  validate_component maximum_name_bytes new_name;;
  validate_directory t new_parent;;
  validate_mutable_directory t new_parent;;
  reject_if (bool_decide (is_Some (entries t !! (new_parent, new_name)))) Exists;;
  st ← ok_or (inodes_of t !! inode) NoEntry;
  reject_if (bool_decide (kind st = Directory)) PermissionDenied;;
  reject_if (negb (same_domain inode new_parent) || negb (same_reduction_share inode new_parent) || negb (same_immutability_domain inode new_parent)) CrossDevice;;
  reject_if (negb (context_uid context =? 0) && negb (context_uid context =? uid st)) PermissionDenied;;
  reject_if (immutable st) PermissionDenied;;
  next_namespace_sequence ← next_root_mutation_sequence t;
  next_inode_sequence ← ok_or (checked_add u64_max (inode_sequence st) 1) NoSpace;
  links ← ok_or (checked_add u32_max (link_count st) 1) NoSpace;
  st ← advance_data (set_ctime (set_links st links next_inode_sequence) now) next_inode_sequence;
  let attr := attributes st inode in
  t ← insert_entry (set_inode t inode st) (new_parent, new_name) inode None;
  t ← adjust_policy_name_matches t inode (name_matches new_name) true;
  t ← install_root_mutation_sequence t next_namespace_sequence;
  answer (acquire_lookup t inode 1) t attr.
(** A claim for a new inode that the next commit pays *)
Definition record_create (t : Tree) (inode : Z) : presult Tree :=
  match try_reserve with
  | Some _ =>
      assert_true (bool_decide (active_create_metadata_bytes t !! inode = None));;
      Ok (set_creates t (<[inode := MUTATION_METADATA_INCREMENT_BYTES_V1]> (active_create_metadata_bytes t)))
  | None => Ok t
  end.
(** A new inode, its lookup reference and its name *)
Definition insert_inode (t : Tree) (inode : Z) (st : InodeState) : presult Tree :=
  assert_true (bool_decide (inodes_of t !! inode = None));;
  assert_true (bool_decide (lookup_counts t !! inode = None));;
  Ok (set_lookups (set_inode t inode st) (<[inode := 1]> (lookup_counts t))).
Definition new_times (now : PosixTimestamp) : PosixTimes := {| atime := now; mtime := now; ctime := now |}.
Definition new_inode (k : FileKind) (context : RequestContext) (m links : Z) (md : InodeMetadata) (target : option bytes) (now : PosixTimestamp) : InodeState :=
  {| kind := k; mode := m; uid := context_uid context; gid := context_gid context; link_count := links; inode_sequence := 0; metadata := md;
     times := new_times now; symlink_target := target; file := new_empty empty_id; policy_name_matches := 0 |}.
Definition symlink (t : Tree) (now : PosixTimestamp) (context : RequestContext) (parent : Z) (name target : bytes) : presult (Tree * FileAttr) :=
  validate_component maximum_name_bytes name;;
  reject_if (bool_decide (target = []) || (MAXIMUM_SYMLINK_BYTES <? blen target)) InvalidArgument;;
  validate_directory t parent;;
  validate_mutable_directory t parent;;
  reject_if (bool_decide (is_Some (entries t !! (parent, name)))) Exists;;
  next_namespace_sequence ← next_root_mutation_sequence t;
  reserve_commit_capacity (claim_new MUTATION_METADATA_INCREMENT_BYTES_V1 0);;
  r ← allocate_inode t;
  let st := new_inode Symlink context 0x1FF 1 default_metadata (Some target) now in
  t ← insert_inode r.1 r.2 st;
  t ← insert_entry t (parent, name) r.2 None;
  t ← adjust_policy_name_matches t r.2 (name_matches name) true;
  t ← install_root_mutation_sequence t next_namespace_sequence;
  t ← record_create t r.2;
  Ok (t, attributes st r.2).
Definition mkdir (t : Tree) (now : PosixTimestamp) (context : RequestContext) (parent : Z) (name : bytes) (requested_mode umask : Z) : presult (Tree * FileAttr) :=
  validate_component maximum_name_bytes name;;
  validate_directory t parent;;
  reject_if (bool_decide (is_Some (entries t !! (parent, name)))) Exists;;
  validate_mutable_directory t parent;;
  next_namespace_sequence ← next_root_mutation_sequence t;
  parent_state ← expect (inodes_of t !! parent);
  next_parent_links ← ok_or (checked_add u32_max (link_count parent_state) 1) NoSpace;
  next_parent_sequence ← (if decide (parent = ROOT_INODE) then Ok next_namespace_sequence else ok_or (checked_add u64_max (inode_sequence parent_state) 1) NoSpace);
  child ← for_child (metadata parent_state) Directory requested_mode umask;
  reserve_commit_capacity (claim_new MUTATION_METADATA_INCREMENT_BYTES_V1 0);;
  r ← allocate_inode t;
  let st := new_inode Directory context child.1 2 child.2 None now in
  t ← insert_inode r.1 r.2 st;
  t ← insert_entry t (parent, name) r.2 None;
  t ← adjust_policy_name_matches t r.2 (name_matches name) true;
  let t := set_inode t parent (set_links parent_state next_parent_links next_parent_sequence) in
  t ← (if decide (parent = ROOT_INODE) then Ok t else install_root_mutation_sequence t next_namespace_sequence);
  t ← record_create t r.2;
  Ok (t, attributes st r.2).
(** The truncation that opening a file for writing may ask for *)
Definition open_truncate (t : Tree) (now : PosixTimestamp) (inode : Z) (st : InodeState) (next_sequence : option Z) : presult (Tree * InodeState) :=
  match next_sequence with
  | None => Ok (t, st)
  | Some sequence =>
      f ← file_truncate (file st) 0 sequence;
      dirty ← (if 0 <? link_count st then dirty_replace (dirty_payload (space t)) (resident_payload_bytes (file st)) (resident_payload_bytes f)
               else Ok (dirty_payload (space t)));
      let st := set_times (set_links (set_file st f) (link_count st) sequence) {| atime := atime (times st); mtime := now; ctime := now |} in
      Ok (set_dirty (set_inode t inode st) dirty, st)
  end.
Definition open_checks (st : InodeState) (opts : OpenOptions) (truncate : bool) : presult () :=
  reject_if (bool_decide (kind st = Directory)) IsDirectory;;
  reject_if (bool_decide (kind st ≠ Regular)) InvalidArgument;;
  reject_if ((bool_decide (access opts ≠ AccessReadOnly) || truncate) && immutable st) PermissionDenied;;
  reject_if (truncate && bool_decide (access opts = AccessReadOnly)) BadHandle.
Definition truncate_sequence (st : InodeState) (truncate : bool) : presult (option Z) :=
  if truncate && negb (live_size (file st) =? 0) then n ← ok_or (checked_add u64_max (inode_sequence st) 1) NoSpace; Ok (Some n) else Ok None.
Definition truncate_quota (inode : Z) (st : InodeState) (next_sequence : option Z) : presult () :=
  match next_sequence with Some _ => reserve_change inode (live_allocated_bytes (file st)) 0 | None => Ok () end.
Definition open (t : Tree) (now : PosixTimestamp) (inode : Z) (opts : OpenOptions) (truncate : bool) : presult (Tree * Z) :=
  st ← ok_or (inodes_of t !! inode) NoEntry;
  open_checks st opts truncate;;
  next_sequence ← truncate_sequence st truncate;
  truncate_quota inode st next_sequence;;
  r ← allocate_handle t;
  o ← open_truncate r.1 now inode st next_sequence;
  t ← insert_handle o.1 r.2 inode opts;
  Ok (t, r.2).
Definition open_existing_for_create (t : Tree) (now : PosixTimestamp) (inode : Z) (request : CreateRequest) : presult (Tree * (FileAttr * Z)) :=
  st ← expect (inodes_of t !! inode);
  open_checks st (create_options request) (truncate request);;
  next_sequence ← truncate_sequence st (truncate request);
  truncate_quota inode st next_sequence;;
  next_lookup ← ok_or (checked_add u64_max (lookups t inode) 1) NoSpace;
  r ← allocate_handle t;
  match next_sequence with Some _ => assert_true (0 <? link_count st) | None => Ok () end;;
  o ← open_truncate r.1 now inode st next_sequence;
  t ← insert_handle o.1 r.2 inode (create_options request);
  Ok (set_lookups t (<[inode := next_lookup]> (lookup_counts t)), (attributes o.2 inode, r.2)).
(** The number of the inode stays allocated when there is none for the handle *)
Definition create_new_file (t : Tree) (now : PosixTimestamp) (request : CreateRequest) : presult (Tree * presult (FileAttr * Z)) :=
  next_namespace_sequence ← next_root_mutation_sequence t;
  parent ← expect (inodes_of t !! create_parent request);
  child ← for_child (metadata parent) Regular (create_mode request) (create_umask request);
  r ← allocate_inode t;
  match allocate_handle r.1 with
  | Ok h =>
      let st := new_inode Regular (create_context request) child.1 1 child.2 None now in
      t ← insert_inode h.1 r.2 st;
      t ← insert_entry t (create_parent request, create_name request) r.2 None;
      t ← insert_handle t h.2 r.2 (create_options request);
      t ← install_root_mutation_sequence t next_namespace_sequence;
      t ← adjust_policy_name_matches t r.2 (name_matches (create_name request)) true;
      Ok (t, Ok (attributes st r.2, h.2))
  | Err e => Ok (r.1, Err e)
  | Panic => Panic
  end.
Definition create (t : Tree) (now : PosixTimestamp) (request : CreateRequest) : presult (Tree * presult (FileAttr * Z)) :=
  validate_component maximum_name_bytes (create_name request);;
  validate_directory t (create_parent request);;
  match entries t !! (create_parent request, create_name request) with
  | Some inode =>
      reject_if (exclusive request) Exists;;
      r ← open_existing_for_create t now inode request;
      Ok (r.1, Ok r.2)
  | None =>
      validate_mutable_directory t (create_parent request);;
      reserve_commit_capacity (claim_new MUTATION_METADATA_INCREMENT_BYTES_V1 0);;
      r ← create_new_file t now request;
      match r.2 with
      | Ok created => t ← record_create r.1 (attr_inode created.1); Ok (t, Ok created)
      | reply => Ok (r.1, reply)
      end
  end.
Definition release (t : Tree) (inode handle : Z) : presult Tree :=
  _ ← resolve_open_file (catalog (space t)) inode handle;
  o ← ok_or (handles_of t !! handle) BadHandle;
  reject_if (negb (handle_inode o =? inode)) BadHandle;;
  let t := set_handles t (delete handle (handles_of t)) in
  st ← expect (inodes_of t !! inode);
  drop_orphan t inode (link_count st =? 0).
(** One name fewer for an inode that is not a directory *)
Definition drop_name (t : Tree) (now : PosixTimestamp) (inode : Z) (st : InodeState) : presult (Tree * bool) :=
  next_sequence ← ok_or (checked_add u64_max (inode_sequence st) 1) NoSpace;
  let final_link := link_count st =? 1 in
  let dirty_before := resident_payload_bytes (file st) in
  st' ← advance_data st next_sequence;
  links ← expect (checked_sub (link_count st) 1);
  let st' := set_ctime (set_links st' links next_sequence) now in
  dirty ← (if final_link && bool_decide (kind st = Regular) then dirty_replace (dirty_payload (space t)) dirty_before 0 else Ok (dirty_payload (space t)));
  Ok (set_dirty (set_inode t inode st') dirty, final_link).
Definition unlink (t : Tree) (now : PosixTimestamp) (parent : Z) (name : bytes) : presult Tree :=
  validate_component maximum_name_bytes name;;
  validate_directory t parent;;
  validate_mutable_directory t parent;;
  next_namespace_sequence ← next_root_mutation_sequence t;
  inode ← ok_or (entries t !! (parent, name)) NoEntry;
  st ← expect (inodes_of t !! inode);
  reject_if (bool_decide (kind st = Directory)) IsDirectory;;
  reject_if (immutable st) PermissionDenied;;
  r ← drop_name t now inode st;
  t ← remove_entry r.1 (parent, name) inode;
  t ← adjust_policy_name_matches t inode (name_matches name) false;
  t ← install_root_mutation_sequence t next_namespace_sequence;
  let t := if (r.2 : bool) then set_creates t (delete inode (active_create_metadata_bytes t)) else t in
  drop_orphan t inode r.2.
(** [range((inode, Vec::new())..).next()] has the inode as parent exactly when
    some entry has, the empty name being the least *)
Definition directory_is_empty (t : Tree) (inode : Z) : bool := negb (existsb (λ kv, kv.1.1 =? inode) (map_to_list (entries t))).
Definition rmdir (t : Tree) (parent : Z) (name : bytes) : presult Tree :=
  validate_component maximum_name_bytes name;;
  validate_directory t parent;;
  validate_mutable_directory t parent;;
  inode ← ok_or (entries t !! (parent, name)) NoEntry;
  st ← expect (inodes_of t !! inode);
  reject_if (bool_decide (kind st ≠ Directory)) NotDirectory;;
  reject_if (immutable st) PermissionDenied;;
  reject_if (negb (directory_is_empty t inode)) NotEmpty;;
  assert_true (link_count st =? 2);;
  next_sequence ← ok_or (checked_add u64_max (inode_sequence st) 1) NoSpace;
  next_namespace_sequence ← next_root_mutation_sequence t;
  parent_state ← expect (inodes_of t !! parent);
  next_parent_links ← expect (checked_sub (link_count parent_state) 1);
  next_parent_sequence ← (if decide (parent = ROOT_INODE) then Ok next_namespace_sequence else ok_or (checked_add u64_max (inode_sequence parent_state) 1) NoSpace);
  let t := set_inode t inode (set_links st 0 next_sequence) in
  let t := set_inode t parent (set_links parent_state next_parent_links next_parent_sequence) in
  t ← remove_entry t (parent, name) inode;
  t ← adjust_policy_name_matches t inode (name_matches name) false;
  t ← (if decide (parent = ROOT_INODE) then Ok t else install_root_mutation_sequence t next_namespace_sequence);
  t ← (if lookups t inode =? 0 then remove_inode t inode else Ok t);
  Ok (set_creates t (delete inode (active_create_metadata_bytes t))).

(** ** Renaming *)

(** [entries.iter()], and the first parent it gives an inode *)
Definition entry_list (t : Tree) : list ((Z * bytes) * Z) := sort_by_key fst (map_to_list (entries t)).
Definition parent_of (t : Tree) (inode : Z) : option Z := (λ kv, kv.1.1) <$> head (filter (λ kv, kv.2 = inode) (entry_list t)).
(** The loop ends at the root; an infinite one is a panic *)
Fixpoint ancestor_loop (fuel : nat) (t : Tree) (ancestor candidate : Z) : presult bool :=
  if decide (candidate = ancestor) then Ok true
  else if decide (candidate = ROOT_INODE) then Ok false
  else match fuel with
       | O => Panic
       | S fuel => parent ← ok_or (parent_of t candidate) Io; ancestor_loop fuel t ancestor parent
       end.
Definition directory_is_ancestor_or_self (t : Tree) (ancestor candidate : Z) : presult bool := ancestor_loop (S (size (entries t))) t ancestor candidate.
Definition link_delta (old_parent new_parent : Z) (replaces : bool) (parent : Z) : Z :=
  (if decide (old_parent = new_parent) then 0 else (if decide (parent = old_parent) then -1 else 0) + (if decide (parent = new_parent) then 1 else 0)) +
  (if replaces && bool_decide (parent = new_parent) then -1 else 0).
Definition checked_add_signed (a b : Z) : option Z := if (0 <=? a + b) && (a + b <=? u32_max) then Some (a + b) else None.
(** The touched parents in order *)
Definition touched_parents (old_parent new_parent : Z) : list Z := sort_by_key (λ x, x) (elements ({[ old_parent; new_parent; ROOT_INODE ]} : gset Z)).
Fixpoint plan_parents (t : Tree) (delta : Z → Z) (next_namespace_sequence : Z) (l : list Z) : presult (list (Z * Z * Z)) :=
  match l with
  | [] => Ok []
  | parent :: l =>
      st ← expect (inodes_of t !! parent);
      links ← ok_or (checked_add_signed (link_count st) (delta parent)) NoSpace;
      sequence ← (if decide (parent = ROOT_INODE) then Ok next_namespace_sequence else ok_or (checked_add u64_max (inode_sequence st) 1) NoSpace);
      rest ← plan_parents t delta next_namespace_sequence l;
      Ok ((parent, links, sequence) :: rest)
  end.
Fixpoint apply_parents (t : Tree) (updates : list (Z * Z * Z)) : presult Tree :=
  match updates with
  | [] => Ok t
  | (parent, links, sequence) :: updates =>
      st ← expect (inodes_of t !! parent);
      apply_parents (set_inode t parent (set_links st links sequence)) updates
  end.
(** The name moves from one key to the other *)
Definition move_entry (t : Tree) (old_key new_key : Z * bytes) (source : Z) (replaced : option Z) : presult Tree :=
  t ← remove_entry t old_key source;
  insert_entry t new_key source replaced.
Definition move_matches (t : Tree) (old_name new_name : bytes) (source : Z) (replaced : option Z) : presult Tree :=
  t ← adjust_policy_name_matches t source (name_matches old_name) false;
  t ← adjust_policy_name_matches t source (name_matches new_name) true;
  match replaced with Some target => adjust_policy_name_matches t target (name_matches new_name) false | None => Ok t end.
(** The checks of a directory that is replaced *)
Definition replaced_directory (t : Tree) (replaced : option Z) : presult () :=
  match replaced with
  | Some target =>
      st ← expect (inodes_of t !! target);
      reject_if (bool_decide (kind st ≠ Directory)) NotDirectory;;
      reject_if (negb (directory_is_empty t target)) NotEmpty;;
      assert_true (link_count st =? 2)
  | None => Ok ()
  end.
Definition retire_directory (t : Tree) (target sequence : Z) : presult Tree :=
  st ← expect (inodes_of t !! target);
  let t := set_inode t target (set_links st 0 sequence) in
  if lookups t target =? 0 then remove_inode t target else Ok t.
Definition rename_directory (t : Tree) (old_key new_key : Z * bytes) (source : Z) (replaced : option Z) : presult Tree :=
  inside ← directory_is_ancestor_or_self t source new_key.1;
  reject_if inside InvalidArgument;;
  replaced_directory t replaced;;
  next_namespace_sequence ← next_root_mutation_sequence t;
  updates ← plan_parents t (link_delta old_key.1 new_key.1 (bool_decide (is_Some replaced))) next_namespace_sequence (touched_parents old_key.1 new_key.1);
  target_sequence ← match replaced with
                    | Some target => st ← expect (inodes_of t !! target); n ← ok_or (checked_add u64_max (inode_sequence st) 1) NoSpace; Ok n
                    | None => Ok 0
                    end;
  t ← move_entry t old_key new_key source replaced;
  t ← move_matches t old_key.2 new_key.2 source replaced;
  t ← apply_parents t updates;
  match replaced with Some target => retire_directory t target target_sequence | None => Ok t end.
(** The inode that a file replaces loses a name *)
Definition replace_file (t : Tree) (now : PosixTimestamp) (replaced : option Z) : presult Tree :=
  match replaced with
  | Some target =>
      st ← expect (inodes_of t !! target);
      reject_if (bool_decide (kind st = Directory)) IsDirectory;;
      r ← drop_name t now target st;
      Ok r.1
  | None => Ok t
  end.
Definition retire_file (t : Tree) (replaced : option Z) : presult Tree :=
  match replaced with
  | Some target =>
      st ← expect (inodes_of t !! target);
      let orphan := link_count st =? 0 in
      let t := if orphan then set_creates t (delete target (active_create_metadata_bytes t)) else t in
      drop_orphan t target orphan
  | None => Ok t
  end.
Definition rename_file (t : Tree) (now : PosixTimestamp) (old_key new_key : Z * bytes) (source : Z) (replaced : option Z) : presult Tree :=
  next_namespace_sequence ← next_root_mutation_sequence t;
  t ← replace_file t now replaced;
  st ← expect (inodes_of t !! source);
  let t := set_inode t source (set_ctime st now) in
  t ← move_entry t old_key new_key source replaced;
  t ← move_matches t old_key.2 new_key.2 source replaced;
  t ← install_root_mutation_sequence t next_namespace_sequence;
  retire_file t replaced.
(** The checks of [rename] that come before the claim; [None] when there is
    nothing to do *)
Definition rename_checks (t : Tree) (old_key new_key : Z * bytes) (no_replace : bool) : presult (option (Z * option Z)) :=
  validate_component maximum_name_bytes old_key.2;;
  validate_component maximum_name_bytes new_key.2;;
  validate_directory t old_key.1;;
  validate_directory t new_key.1;;
  validate_mutable_directory t old_key.1;;
  (if decide (old_key.1 = new_key.1) then Ok () else validate_mutable_directory t new_key.1);;
  source ← ok_or (entries t !! old_key) NoEntry;
  if decide (old_key = new_key) then Ok None
  else
    let replaced := entries t !! new_key in
    reject_if (no_replace && bool_decide (is_Some replaced)) Exists;;
    if decide (replaced = Some source) then Ok None
    else
      reject_if (negb (same_domain source new_key.1) || negb (same_reduction_share source new_key.1) || negb (same_immutability_domain source new_key.1)) CrossDevice;;
      st ← expect (inodes_of t !! source);
      reject_if (immutable st) PermissionDenied;;
      match replaced with
      | Some target => st ← expect (inodes_of t !! target); reject_if (immutable st) PermissionDenied
      | None => Ok ()
      end;;
      Ok (Some (source, replaced)).
Definition rename (t : Tree) (now : PosixTimestamp) (parent : Z) (name : bytes) (new_parent : Z) (new_name : bytes) (no_replace : bool) : presult Tree :=
  plan ← rename_checks t (parent, name) (new_parent, new_name) no_replace;
  match plan with
  | None => Ok t
  | Some (source, replaced) =>
      reserve_commit_capacity (claim_new MUTATION_METADATA_INCREMENT_BYTES_V1 0);;
      st ← expect (inodes_of t !! source);
      if decide (kind st = Directory) then
        t ← rename_directory t (parent, name) (new_parent, new_name) source replaced;
        Ok match replaced with Some target => set_creates t (delete target (active_create_metadata_bytes t)) | None => t end
      else rename_file t now (parent, name) (new_parent, new_name) source replaced
  end.
Definition forget (t : Tree) (inode lookup_count : Z) : presult Tree :=
  if lookup_count =? 0 then Ok t
  else match lookup_counts t !! inode with
  | None => Ok t
  | Some current =>
      let t := set_lookups t (if current <=? lookup_count then delete inode (lookup_counts t) else <[inode := current - lookup_count]> (lookup_counts t)) in
      match inodes_of t !! inode with
      | None => Ok t
      | Some st => drop_orphan t inode (link_count st =? 0)
      end
  end.
End Requests.
End TreeRequests.
