(* ===== verification/AttributeRequests.v ===== *)
(** * Requests on attributes and on directories ([Namespace] of
    [fastdup-posix/src/lib.rs])

    Extended attributes, file flags, modes, owners and times of an inode, the
    access time that reading a symbolic link may change, and directory reads.
    The table of the authorities that may change flags is a parameter. *)
From S2P Require Export TreeRequests.

Module AttributeRequests.
Import SparseData DirtyEpoch VersionedFile FileCommit InodeMetadata FileCatalog FileCapacity FileHandlers NamespaceTree TreeRequests.

Record ImmutabilityAuthority := {
  authority_root : Z; authority_uid : Z; authority_gid : Z; writer_uid : Z; writer_gid : Z; repository_uid : Z; repository_gid : Z;
}.
Class Authorities := authority_of : Z → option ImmutabilityAuthority.
Record InodeAttributesUpdate := { update_mode : option Z; update_uid : option Z; update_gid : option Z; update_atime : option PosixTimestamp; update_mtime : option PosixTimestamp }.
Record DirectoryEntry := { entry_inode : Z; entry_kind : FileKind; entry_attr : FileAttr; entry_name : bytes; next_offset : Z }.
(** [user.immutable.until] *)
Definition VEEAM_RETENTION_XATTR : bytes := [x75; x73; x65; x72; x2e; x69; x6d; x6d; x75; x74; x61; x62; x6c; x65; x2e; x75; x6e; x74; x69; x6c].
Definition MAX_DIRECTORY_ENTRIES_PER_REPLY : nat := 256.
Definition i64_max : Z := 2 ^ 63 - 1.
Definition RELATIME_INTERVAL_SECONDS : Z := 24 * 60 * 60.

Section Attributes.
Context `{Admission} `{Authorities}.

(** ** Permission *)
Definition may_change_file_flags (uid inode : Z) : bool :=
  (uid =? 0) || match authority_of inode with Some rule => authority_uid rule =? uid | None => false end.
Definition may_handoff_authority_owned_inode (uid inode current_uid current_gid : Z) (requested_uid requested_gid : option Z) : bool :=
  match authority_of inode with
  | Some rule =>
      (uid =? authority_uid rule) &&
      (((current_uid =? writer_uid rule) && (current_gid =? writer_gid rule)) || ((current_uid =? authority_uid rule) && (current_gid =? authority_gid rule)) ||
       ((current_uid =? repository_uid rule) && (current_gid =? repository_gid rule)) || ((current_uid =? repository_uid rule) && (current_gid =? writer_gid rule)) ||
       ((current_uid =? writer_uid rule) && (current_gid =? repository_gid rule)) || ((current_uid =? repository_uid rule) && (current_gid =? authority_gid rule)) ||
       ((current_uid =? authority_uid rule) && (current_gid =? repository_gid rule))) &&
      match requested_uid with Some requested => requested =? repository_uid rule | None => true end &&
      match requested_gid with Some requested => requested =? repository_gid rule | None => true end &&
      (bool_decide (is_Some requested_uid) || bool_decide (is_Some requested_gid))
  | None => false
  end.
Definition authorize_xattr_mutation (context : RequestContext) (st : InodeState) (name : bytes) : presult () :=
  reject_if ((starts_with trusted_prefix name || starts_with security_prefix name) && negb (context_uid context =? 0)) PermissionDenied;;
  reject_if (negb (context_uid context =? 0) && negb (context_uid context =? uid st)) PermissionDenied.

(** ** Changing attributes *)
Definition next_namespace_and_inode_mutation_sequences (t : Tree) (inode sequence : Z) : presult (Z * Z) :=
  next ← ok_or (checked_add u64_max sequence 1) NoSpace;
  if decide (inode = ROOT_INODE) then Ok (next, next) else root ← next_root_mutation_sequence t; Ok (root, next).
Definition set_metadata (st : InodeState) (m : Z) (md : InodeMetadata) : InodeState :=
  {| kind := kind st; mode := m; uid := uid st; gid := gid st; link_count := link_count st; inode_sequence := inode_sequence st; metadata := md;
     times := times st; symlink_target := symlink_target st; file := file st; policy_name_matches := policy_name_matches st |}.
Definition set_owner (st : InodeState) (m u g : Z) : InodeState :=
  {| kind := kind st; mode := m; uid := u; gid := g; link_count := link_count st; inode_sequence := inode_sequence st; metadata := metadata st;
     times := times st; symlink_target := symlink_target st; file := file st; policy_name_matches := policy_name_matches st |}.
(** The end of every change: the data advances with the inode, and the root
    counts the change *)
Definition settle (t : Tree) (inode : Z) (st : InodeState) (sequences : Z * Z) : presult Tree :=
  st ← advance_data st sequences.2;
  let t := set_inode t inode (set_links st (link_count st) sequences.2) in
  if decide (inode = ROOT_INODE) then Ok t else install_root_mutation_sequence t sequences.1.
Definition mutate_metadata (t : Tree) (now : PosixTimestamp) (context : RequestContext) (inode : Z) (name : bytes) (mutation : InodeState → presult InodeState) : presult Tree :=
  st ← ok_or (inodes_of t !! inode) NoEntry;
  (if bool_decide (name = VEEAM_RETENTION_XATTR) && may_change_file_flags (context_uid context) inode then Ok () else authorize_xattr_mutation context st name);;
  reject_if (immutable st) PermissionDenied;;
  sequences ← next_namespace_and_inode_mutation_sequences t inode (inode_sequence st);
  st ← mutation st;
  settle t inode (set_ctime st now) sequences.
Definition set_xattr_request (t : Tree) (now : PosixTimestamp) (context : RequestContext) (inode : Z) (name value : bytes) (mode_ : XattrSetMode) : presult Tree :=
  mutate_metadata t now context inode name (λ st,
    r ← set_xattr (metadata st) (kind st) name value mode_;
    Ok (set_metadata st (match r.2 with Some access_mode => Z.lor (Z.land (mode st) (Z.lnot 0x1FF)) access_mode | None => mode st end) r.1)).
Definition remove_xattr_request (t : Tree) (now : PosixTimestamp) (context : RequestContext) (inode : Z) (name : bytes) : presult Tree :=
  mutate_metadata t now context inode name (λ st, md ← remove_xattr (metadata st) name; Ok (set_metadata st (mode st) md)).
(** The flags are set before the sequences are known to have room *)
Definition set_file_flags_request (t : Tree) (now : PosixTimestamp) (context : RequestContext) (inode flags : Z) : presult (Tree * presult (option Z)) :=
  reject_if (negb (may_change_file_flags (context_uid context) inode)) PermissionDenied;;
  st ← ok_or (inodes_of t !! inode) NoEntry;
  if file_flags (metadata st) =? flags then Ok (t, Ok None)
  else
    reserve_commit_capacity (claim_new MUTATION_METADATA_INCREMENT_BYTES_V1 0);;
    md ← set_file_flags (metadata st) flags;
    let st := set_ctime (set_metadata st (mode st) md) now in
    match next_namespace_and_inode_mutation_sequences t inode (inode_sequence st) with
    | Ok sequences => t ← settle t inode st sequences; Ok (t, Ok (Some sequences.1))
    | Err e => Ok (set_inode t inode st, Err e)
    | Panic => Panic
    end.
Definition set_mode_request (t : Tree) (now : PosixTimestamp) (context : RequestContext) (inode mode_ : Z) : presult Tree :=
  st ← ok_or (inodes_of t !! inode) NoEntry;
  reject_if (negb (context_uid context =? 0) && negb (context_uid context =? uid st)) PermissionDenied;;
  reject_if (immutable st) PermissionDenied;;
  sequences ← next_namespace_and_inode_mutation_sequences t inode (inode_sequence st);
  r ← chmod (metadata st) mode_;
  settle t inode (set_ctime (set_metadata st r.2 r.1) now) sequences.
Definition late_nanoseconds (time : option PosixTimestamp) : bool := match time with Some time => 1000000000 <=? nanoseconds time | None => false end.
(** The fields an update gives *)
Definition update_state (st : InodeState) (update : InodeAttributesUpdate) (now : PosixTimestamp) : presult InodeState :=
  st ← match update_mode update with Some m => r ← chmod (metadata st) m; Ok (set_metadata st r.2 r.1) | None => Ok st end;
  let m := if bool_decide (is_Some (update_uid update)) || bool_decide (is_Some (update_gid update)) then Z.land (mode st) (Z.lnot 0xC00) else mode st in
  let st := set_owner st m (default (uid st) (update_uid update)) (default (gid st) (update_gid update)) in
  Ok (set_times st {| atime := default (atime (times st)) (update_atime update); mtime := default (mtime (times st)) (update_mtime update); ctime := now |}).
Definition set_attributes (t : Tree) (now : PosixTimestamp) (context : RequestContext) (inode : Z) (update : InodeAttributesUpdate) : presult Tree :=
  if bool_decide (update_mode update = None) && bool_decide (update_uid update = None) && bool_decide (update_gid update = None) &&
     bool_decide (update_atime update = None ∧ update_mtime update = None)
  then _ ← resolve_inode (catalog (space t)) inode; Ok t
  else
    reject_if (late_nanoseconds (update_atime update) || late_nanoseconds (update_mtime update)) InvalidArgument;;
    st ← ok_or (inodes_of t !! inode) NoEntry;
    let authority_handoff := bool_decide (update_mode update = None) && bool_decide (update_atime update = None ∧ update_mtime update = None) &&
      may_handoff_authority_owned_inode (context_uid context) inode (uid st) (gid st) (update_uid update) (update_gid update) in
    reject_if (immutable st && negb authority_handoff) PermissionDenied;;
    reject_if (negb (context_uid context =? 0) && (negb (context_uid context =? uid st) || bool_decide (is_Some (update_uid update))) && negb authority_handoff) PermissionDenied;;
    reject_if (negb (context_uid context =? 0) && match update_gid update with Some g => negb (g =? context_gid context) | None => false end && negb authority_handoff) PermissionDenied;;
    reserve_commit_capacity (claim_new MUTATION_METADATA_INCREMENT_BYTES_V1 0);;
    sequences ← next_namespace_and_inode_mutation_sequences t inode (inode_sequence st);
    st ← update_state st update now;
    settle t inode st sequences.

(** ** Access times *)
Definition timestamp_leb (a b : PosixTimestamp) : bool := (seconds a <? seconds b) || (seconds a =? seconds b) && (nanoseconds a <=? nanoseconds b).
Definition relatime_due (ts : PosixTimes) (now : PosixTimestamp) : bool :=
  timestamp_leb (atime ts) (mtime ts) || timestamp_leb (atime ts) (ctime ts) ||
  (- 2 ^ 63 <=? seconds now - RELATIME_INTERVAL_SECONDS) && (seconds (atime ts) <=? seconds now - RELATIME_INTERVAL_SECONDS).
(** Mutations are admitted; a failure leaves the time as it was *)
Definition update_relatime (t : Tree) (now : PosixTimestamp) (inode : Z) (st : InodeState) : presult Tree :=
  if negb (relatime_due (times st) now) then Ok t
  else match next_namespace_and_inode_mutation_sequences t inode (inode_sequence st) with
       | Ok sequences =>
           match reserve_commit_capacity (claim_new MUTATION_METADATA_INCREMENT_BYTES_V1 0) with
           | Ok _ => settle t inode (set_times st {| atime := now; mtime := mtime (times st); ctime := ctime (times st) |}) sequences
           | Err _ => Ok t
           | Panic => Panic
           end
       | Err _ => Ok t
       | Panic => Panic
       end.
Definition readlink (t : Tree) (now : PosixTimestamp) (inode : Z) : presult (Tree * bytes) :=
  st ← resolve_inode (catalog (space t)) inode;
  target ← ok_or (symlink_target st) InvalidArgument;
  t ← update_relatime t now inode st;
  Ok (t, target).

(** ** Directories *)
Definition dot_row (t : Tree) (inode : Z) (name : bytes) (offset : Z) : presult DirectoryEntry :=
  st ← expect (inodes_of t !! inode);
  Ok {| entry_inode := inode; entry_kind := Directory; entry_attr := attributes st inode; entry_name := name; next_offset := offset |}.
(** The children in order with their index *)
Fixpoint child_rows (t : Tree) (index : Z) (l : list ((Z * bytes) * Z)) : presult (list DirectoryEntry) :=
  match l with
  | [] => Ok []
  | ((_, name), child) :: l =>
      st ← expect (inodes_of t !! child);
      offset ← ok_or (checked_add usize_max index 3) NoSpace;
      reject_if (i64_max <? offset) NoSpace;;
      rows ← child_rows t (index + 1) l;
      Ok ({| entry_inode := child; entry_kind := kind st; entry_attr := attributes st child; entry_name := name; next_offset := offset |} :: rows)
  end.
Fixpoint count_additions (rows : list DirectoryEntry) (additions : gmap Z Z) : presult (gmap Z Z) :=
  match rows with
  | [] => Ok additions
  | row :: rows =>
      n ← ok_or (checked_add u64_max (default 0 (additions !! entry_inode row)) 1) NoSpace;
      count_additions rows (<[entry_inode row := n]> additions)
  end.
Fixpoint check_additions (t : Tree) (l : list (Z * Z)) : presult () :=
  match l with [] => Ok () | (inode, count) :: l => _ ← ok_or (checked_add u64_max (lookups t inode) count) NoSpace; check_additions t l end.
Fixpoint acquire_additions (t : Tree) (l : list (Z * Z)) : presult Tree :=
  match l with [] => Ok t | (inode, count) :: l => t ← acquire_lookup t inode count; acquire_additions t l end.
Definition children_of (t : Tree) (inode : Z) : list ((Z * bytes) * Z) := filter (λ kv, kv.1.1 = inode) (entry_list t).
Definition dot_rows (t : Tree) (inode start : Z) : presult (list DirectoryEntry) :=
  this ← (if start =? 0 then row ← dot_row t inode [dot] 1; Ok [row] else Ok []);
  above ← (if start <=? 1 then
             parent ← (if decide (inode = ROOT_INODE) then Ok ROOT_INODE else expect (parent_of t inode));
             row ← dot_row t parent [dot; dot] 2; Ok [row]
           else Ok []);
  Ok (this ++ above).
Definition read_directory (t : Tree) (inode offset : Z) (acquire_lookup_references : bool) : presult (Tree * list DirectoryEntry) :=
  reject_if (offset <? 0) InvalidArgument;;
  validate_directory t inode;;
  _ ← expect (inodes_of t !! inode);
  dots ← dot_rows t inode offset;
  let child_skip := Z.max 0 (offset - 2) in
  let remaining := (MAX_DIRECTORY_ENTRIES_PER_REPLY - length dots)%nat in
  children ← child_rows t child_skip (take remaining (drop (Z.to_nat child_skip) (children_of t inode)));
  let rows := dots ++ children in
  t ← (if acquire_lookup_references then
         additions ← count_additions rows ∅;
         let l := sort_by_key fst (map_to_list additions) in
         check_additions t l;;
         acquire_additions t l
       else Ok t);
  Ok (t, rows).
End Attributes.
End AttributeRequests.
