(* ===== verification/TreeInvariant.v ===== *)
(** * Invariant of the namespace tree

    The structure of the directories, the counts that inodes keep of their names
    and subdirectories, and how they follow a change of the entries. *)
From S2P Require Export TreeRequests FileHandlersOps InodeAttributes.

Module TreeInvariant.
Import SparseData SparseDataOps DirtyEpoch DirtyEpochOps VersionedFile VersionedFileOps FileCommit InodeMetadata InodeAttributes FileCatalog FileHandlers FileHandlersOps NamespaceTree TreeRequests.
Abbreviation Entries := (gmap (Z * bytes) Z).
Abbreviation Inodes := (gmap Z InodeState).
Implicit Types (E : Entries) (I : Inodes) (i j p : Z) (n : bytes).

(** ** Structure *)
Definition is_dir I i : bool := match I !! i with Some st => bool_decide (kind st = Directory) | None => false end.
Inductive reach E : Z → Prop :=
  | reach_root : reach E ROOT_INODE
  | reach_child p n i : reach E p → E !! (p, n) = Some i → reach E i.
Record tree_ok E I : Prop := {
  to_root : is_dir I ROOT_INODE = true;
  to_parent p n i : E !! (p, n) = Some i → is_dir I p = true;
  to_child k i : E !! k = Some i → is_Some (I !! i) ∧ i ≠ ROOT_INODE;
  to_unique k1 k2 i : is_dir I i = true → E !! k1 = Some i → E !! k2 = Some i → k1 = k2;
  to_reach p n i : E !! (p, n) = Some i → reach E p;
}.
Lemma is_dir_Some I i : is_dir I i = true → ∃ st, I !! i = Some st ∧ kind st = Directory.
Proof. unfold is_dir. destruct (I !! i) as [st|]; [|done]. rewrite bool_decide_eq_true. by exists st. Qed.
Lemma tree_ok_ext E I I' : tree_ok E I → (∀ i, is_dir I' i = is_dir I i) → (∀ k i, E !! k = Some i → is_Some (I' !! i)) → tree_ok E I'.
Proof.
  intros Ht Hd Hs. split; [by rewrite Hd; apply Ht| | | |apply Ht].
  - intros p n i Hi. rewrite Hd. by eapply to_parent.
  - intros k i Hi. split; [by eapply Hs|]. by eapply to_child.
  - intros k1 k2 i. rewrite Hd. by apply Ht.
Qed.
Lemma reach_mono E E' i : E ⊆ E' → reach E i → reach E' i.
Proof. intros Hs. induction 1 as [|p n i _ IH Hi]; [constructor|]. econstructor; [done|]. by eapply lookup_weaken. Qed.
Lemma reach_delete E k i : (∀ n, E !! (i, n) = None) → E !! k = Some i → ∀ j, j ≠ i → reach E j → reach (delete k E) j.
Proof.
  intros Hempty Hk j Hj Hr. induction Hr as [|p n j Hp IH Hjn]; [constructor|]. assert (p ≠ i) by (intros ->; by rewrite Hempty in Hjn).
  econstructor; [by apply IH|]. rewrite lookup_delete_ne; [done|]. intros ->. congruence.
Qed.
(** Adding a name for an inode that has no children *)
Lemma tree_ok_insert E I p n i : tree_ok E I → is_dir I p = true → reach E p → E !! (p, n) = None → is_Some (I !! i) → i ≠ ROOT_INODE →
  (is_dir I i = true → ∀ k, E !! k ≠ Some i) → tree_ok (<[(p, n) := i]> E) I.
Proof.
  intros Ht Hp Hr Hn Hi Hroot Huniq. assert (Hsub : E ⊆ <[(p, n) := i]> E) by (by apply insert_subseteq). split.
  - apply Ht.
  - intros p' n' i' [[[= <- <-] _]|[_ ?]]%lookup_insert_Some; [done|by eapply to_parent].
  - intros k j [[<- <-]|[_ ?]]%lookup_insert_Some; [done|by eapply to_child].
  - intros k1 k2 j Hj [[<- <-]|[H1 H1']]%lookup_insert_Some [[<- ?]|[H2 H2']]%lookup_insert_Some; [done|by destruct (Huniq Hj _ H2')|subst; by destruct (Huniq Hj _ H1')|].
    by eapply to_unique.
  - intros p' n' i' [[[= <- <-] _]|[_ ?]]%lookup_insert_Some; [by eapply reach_mono|]. eapply reach_mono; [done|]. by eapply to_reach.
Qed.
(** Removing the name of an inode that has no children *)
Lemma tree_ok_delete E I k i : tree_ok E I → E !! k = Some i → (∀ n, E !! (i, n) = None) → tree_ok (delete k E) I.
Proof.
  intros Ht Hk Hempty. split; [apply Ht| | | |].
  - intros p n j [_ ?]%lookup_delete_Some. by eapply to_parent.
  - intros k' j [_ ?]%lookup_delete_Some. by eapply to_child.
  - intros k1 k2 j Hj [_ ?]%lookup_delete_Some [_ ?]%lookup_delete_Some. by eapply to_unique.
  - intros p n j [Hne Hj]%lookup_delete_Some. eapply reach_delete; [done|done| |by eapply to_reach]. intros ->. by rewrite Hempty in Hj.
Qed.
Lemma file_childless E I i : tree_ok E I → is_dir I i = false → ∀ n, E !! (i, n) = None.
Proof. intros Ht Hf n. destruct (E !! (i, n)) as [j|] eqn:Hj; [|done]. pose proof (to_parent _ _ Ht _ _ _ Hj). congruence. Qed.

(** ** Moving a directory *)
Inductive below E (a : Z) : Z → Prop :=
  | below_self : below E a a
  | below_child p n i : below E a p → E !! (p, n) = Some i → below E a i.
Lemma reach_aside E I k src : tree_ok E I → is_dir I src = true → E !! k = Some src → ∀ j, reach E j → ¬ below E src j → reach (delete k E) j.
Proof.
  intros Ht Hd Hk j Hr. induction Hr as [|p n j Hp IH Hjn]; intros Hb; [constructor|]. econstructor.
  - apply IH. intros Hb'. apply Hb. by econstructor.
  - rewrite lookup_delete_ne; [done|]. intros ->. assert (j = src) as -> by congruence. apply Hb. constructor.
Qed.
Lemma tree_ok_move E I old p n src : tree_ok E I → is_dir I src = true → E !! old = Some src → E !! (p, n) = None → is_dir I p = true → reach E p → ¬ below E src p →
  tree_ok (<[(p, n) := src]> (delete old E)) I.
Proof.
  intros Ht Hd Hold Hnew Hp Hr Hb. set (D := delete old E). set (E' := <[(p, n) := src]> D). assert (HD : D !! (p, n) = None) by (by apply lookup_delete_None; right).
  assert (Hsub : D ⊆ E') by (by apply insert_subseteq). assert (Hp' : reach E' p) by (eapply reach_mono; [done|]; by apply (reach_aside E I old src)).
  assert (Hsrc : reach E' src) by (eapply (reach_child _ p n); [done|apply lookup_insert_eq]).
  assert (Hall : ∀ j, reach E j → reach E' j).
  { induction 1 as [|q m j _ IH Hj]; [constructor|]. destruct (decide ((q, m) = old)) as [<-|Hne]; [by assert (j = src) as -> by congruence|].
    eapply (reach_child _ q m); [done|]. apply (lookup_weaken D); [|done]. unfold D. by rewrite lookup_delete_ne. }
  split; [apply Ht| | | |].
  - intros q m j [[[= <- <-] _]|[_ [_ ?]%lookup_delete_Some]]%lookup_insert_Some; [done|by eapply to_parent].
  - intros k j [[<- <-]|[_ [_ ?]%lookup_delete_Some]]%lookup_insert_Some; [by apply (to_child _ _ Ht old)|by eapply to_child].
  - intros k1 k2 j Hj [[<- <-]|[_ [Hn1 H1]%lookup_delete_Some]]%lookup_insert_Some [[<- ?]|[_ [Hn2 H2]%lookup_delete_Some]]%lookup_insert_Some; subst; [done| | |by eapply to_unique].
    + destruct Hn2. by eapply to_unique.
    + destruct Hn1. by eapply to_unique.
  - intros q m j [[[= <- <-] _]|[_ [_ ?]%lookup_delete_Some]]%lookup_insert_Some; [done|]. apply Hall. by eapply to_reach.
Qed.

(** ** The ancestors of a directory *)
Fixpoint path E (c : Z) (l : list (Z * bytes)) : Prop := match l with [] => c = ROOT_INODE | k :: l => E !! k = Some c ∧ path E k.1 l end.
Lemma reach_path E c : reach E c → ∃ l, path E c l.
Proof. induction 1 as [|p n i _ [l Hl] Hi]; [by exists []|]. by exists ((p, n) :: l). Qed.
Lemma path_unique E I c l1 l2 : tree_ok E I → is_dir I c = true → path E c l1 → path E c l2 → l1 = l2.
Proof.
  intros Ht. revert c l2. induction l1 as [|k1 l1 IH]; intros c [|k2 l2] Hc; cbn [path]; [done| | |].
  - intros -> [Hk _]. by destruct (to_child _ _ Ht _ _ Hk).
  - intros [Hk _] ->. by destruct (to_child _ _ Ht _ _ Hk).
  - intros [Hk1 H1] [Hk2 H2]. assert (k2 = k1) as -> by (by eapply to_unique). f_equal. destruct k1 as [p n]. eapply IH; [by eapply to_parent|done|done].
Qed.
Lemma path_app E c l1 k l2 : path E c (l1 ++ k :: l2) → ∃ c', E !! k = Some c' ∧ path E c' (k :: l2).
Proof. revert c. induction l1 as [|x l1 IH]; intros c; [intros [Hk Hl]; by exists c|]. intros [_ Hl]. by eapply IH. Qed.
Lemma path_NoDup E I c l : tree_ok E I → is_dir I c = true → path E c l → NoDup l.
Proof.
  intros Ht. revert c. induction l as [|k l IH]; intros c Hc Hp; [constructor|]. destruct Hp as [Hk Hl]. constructor.
  - intros (l1&l2&->)%list_elem_of_split. destruct (path_app E k.1 l1 k l2 Hl) as (c'&Hk'&Hp'). assert (c' = c) as -> by congruence.
    assert (Heq : k :: l2 = k :: l1 ++ k :: l2) by (eapply (path_unique E I c); [done|done|exact Hp'|by split]). apply (f_equal length) in Heq. cbn in Heq. rewrite length_app in Heq. cbn in Heq. lia.
  - destruct k as [p n]. apply (IH p); [by eapply to_parent|done].
Qed.
Lemma path_length E I c l : tree_ok E I → is_dir I c = true → path E c l → (length l ≤ size E)%nat.
Proof.
  intros Ht Hc Hp. pose proof (path_NoDup E I c l Ht Hc Hp) as Hnd. rewrite <-size_dom, <-(size_list_to_set (C := gset (Z * bytes)) l Hnd). apply subseteq_size.
  intros k Hk%elem_of_list_to_set. apply list_elem_of_split in Hk as (l1&l2&->). destruct (path_app E c l1 k l2 Hp) as (c'&Hk&_). apply elem_of_dom. by exists c'.
Qed.
Lemma parent_of_spec (t : Tree) i : match parent_of t i with Some p => ∃ n, entries t !! (p, n) = Some i | None => ∀ k, entries t !! k ≠ Some i end.
Proof.
  unfold parent_of, entry_list. set (l := sort_by_key fst (map_to_list (entries t))).
  assert (Hl : ∀ k j, (k, j) ∈ l ↔ entries t !! k = Some j) by (intros k j; unfold l; by rewrite (sort_by_key_perm fst (map_to_list (entries t))), elem_of_map_to_list).
  destruct (filter (λ kv, kv.2 = i) l) as [|[[p n] j] rest] eqn:Hf; cbn [head fmap option_fmap option_map].
  - intros k Hk%Hl. assert (Hin : (k, i) ∈ filter (λ kv, kv.2 = i) l) by (by apply list_elem_of_filter). rewrite Hf in Hin. by apply not_elem_of_nil in Hin.
  - assert (Hin : ((p, n), j) ∈ filter (λ kv, kv.2 = i) l) by (rewrite Hf; by left). apply list_elem_of_filter in Hin as [Hj Hin%Hl]. cbn [fst snd] in *. subst j. by exists n.
Qed.
Lemma ancestor_loop_spec (t : Tree) I a : tree_ok (entries t) I → ∀ fuel c l, is_dir I c = true → path (entries t) c l → (length l ≤ fuel)%nat →
  ∃ b, ancestor_loop fuel t a c = Ok b ∧ (b = true ↔ below (entries t) a c).
Proof.
  intros Ht fuel. induction fuel as [|fuel IH]; intros c l Hc Hp Hl; cbn [ancestor_loop]; (destruct (decide (c = a)) as [->|Hne]; [exists true; split; [done|]; split; [constructor|done]|]);
    (destruct (decide (c = ROOT_INODE)) as [->|Hroot]; [exists false; split; [done|]; split; [done|]; intros Hb; inversion Hb as [|p n i _ Hi]; subst; [done|]; by destruct (to_child _ _ Ht _ _ Hi)|]).
  - destruct l; [done|]. cbn in Hl. lia.
  - destruct l as [|k l]; [done|]. destruct Hp as [Hk Hp]. cbn in Hl. pose proof (parent_of_spec t c) as Hpar. destruct (parent_of t c) as [p|]; [|by destruct (Hpar k)].
    destruct Hpar as [n Hn]. assert (k = (p, n)) as -> by (by eapply to_unique). cbn [ok_or]. rewrite Ok_bind. cbn [fst] in Hp.
    destruct (IH p l) as (b&->&Hb); [by eapply to_parent|done|lia|]. exists b. split; [done|]. rewrite Hb. split; [intros Hbp; by econstructor|].
    intros Hbc. inversion Hbc as [|p' n' i' Hp' Hi']; subst; [done|]. by assert ((p', n') = (p, n)) as [= -> ->] by (by eapply to_unique).
Qed.
Lemma ancestor_spec (t : Tree) I a c : tree_ok (entries t) I → is_dir I c = true → reach (entries t) c →
  ∃ b, directory_is_ancestor_or_self t a c = Ok b ∧ (b = true ↔ below (entries t) a c).
Proof.
  intros Ht Hc [l Hl]%reach_path. apply (ancestor_loop_spec t I a Ht _ c l Hc Hl). pose proof (path_length _ I c l Ht Hc Hl). lia.
Qed.

(** ** Counts *)
Definition one (b : bool) : Z := if b then 1 else 0.
Definition names E i : Z := msum (λ _ j, one (j =? i)) E.
Definition subdirs E I i : Z := msum (λ k j, one ((k.1 =? i) && is_dir I j)) E.
Definition matching `{NamePolicy} E i : Z := msum (λ k j, one ((j =? i) && name_matches k.2)) E.
(** The links an inode should have: a linked directory one for its name, one for
    itself and one for each subdirectory, anything else one for each name *)
Definition expected E I i : Z :=
  if is_dir I i then if (i =? ROOT_INODE) || (0 <? names E i) then 2 + subdirs E I i else 0 else names E i.
Lemma one_range b : 0 ≤ one b ≤ 1.
Proof. destruct b; cbn; lia. Qed.
Lemma names_nonneg E i : 0 ≤ names E i.
Proof. apply msum_nonneg. intros. apply one_range. Qed.
Lemma subdirs_nonneg E I i : 0 ≤ subdirs E I i.
Proof. apply msum_nonneg. intros. apply one_range. Qed.
Lemma expected_nonneg E I i : 0 ≤ expected E I i.
Proof. unfold expected. pose proof (names_nonneg E i). pose proof (subdirs_nonneg E I i). destruct (is_dir I i); [destruct (_ || _)|]; lia. Qed.
Lemma names_pos E i : 0 < names E i ↔ ∃ k, E !! k = Some i.
Proof.
  split.
  - intros (k&j&Hk&Hj)%msum_pos. exists k. unfold one in Hj. destruct (Z.eqb_spec j i) as [->|]; [done|lia].
  - intros [k Hk]. pose proof (msum_lookup_le (λ _ j, one (j =? i)) E k i ltac:(intros; apply one_range) Hk) as Hle. cbv beta in Hle. rewrite Z.eqb_refl in Hle. cbn [one] in Hle. unfold names. lia.
Qed.
Lemma names_zero E i : names E i = 0 ↔ ∀ k, E !! k ≠ Some i.
Proof.
  pose proof (names_nonneg E i). pose proof (names_pos E i) as Hp. split; [intros Hz k Hk; assert (0 < names E i) by (apply Hp; by exists k); lia|].
  intros Hn. destruct (decide (0 < names E i)) as [[k Hk]%Hp|]; [by destruct (Hn k)|lia].
Qed.
Lemma subdirs_zero E I i : (∀ n, E !! (i, n) = None) → subdirs E I i = 0.
Proof.
  intros Hn. unfold subdirs. rewrite (msum_ext _ (λ _ _, 0) E).
  - induction E as [|k x E Hk IH] using map_ind; [by rewrite msum_empty|]. rewrite msum_insert_new by done. rewrite IH; [done|]. intros n.
    destruct (E !! (i, n)) eqn:He; [|done]. specialize (Hn n). rewrite lookup_insert_ne in Hn by (intros ->; congruence). congruence.
  - intros [p n] j Hk. cbn [fst]. destruct (Z.eqb_spec p i) as [->|]; [by rewrite Hn in Hk|done].
Qed.
Section Deltas.
Context `{NamePolicy}.
Lemma names_insert E k j i : E !! k = None → names (<[k := j]> E) i = names E i + one (j =? i).
Proof. intros Hk. unfold names. rewrite msum_insert, Hk. cbn [from_option]. lia. Qed.
Lemma names_delete E k j i : E !! k = Some j → names (delete k E) i = names E i - one (j =? i).
Proof. intros Hk. unfold names. by rewrite msum_delete, Hk. Qed.
Lemma subdirs_insert E I k j i : E !! k = None → subdirs (<[k := j]> E) I i = subdirs E I i + one ((k.1 =? i) && is_dir I j).
Proof. intros Hk. unfold subdirs. rewrite msum_insert, Hk. cbn [from_option]. lia. Qed.
Lemma subdirs_delete E I k j i : E !! k = Some j → subdirs (delete k E) I i = subdirs E I i - one ((k.1 =? i) && is_dir I j).
Proof. intros Hk. unfold subdirs. by rewrite msum_delete, Hk. Qed.
Lemma matching_insert E k j i : E !! k = None → matching (<[k := j]> E) i = matching E i + one ((j =? i) && name_matches k.2).
Proof. intros Hk. unfold matching. rewrite msum_insert, Hk. cbn [from_option]. lia. Qed.
Lemma matching_delete E k j i : E !! k = Some j → matching (delete k E) i = matching E i - one ((j =? i) && name_matches k.2).
Proof. intros Hk. unfold matching. by rewrite msum_delete, Hk. Qed.
Lemma matching_bound E i : 0 ≤ matching E i ≤ names E i.
Proof.
  unfold matching, names. induction E as [|k x E Hk IH] using map_ind; [by rewrite !msum_empty|]. rewrite !msum_insert_new by done.
  destruct (x =? i), (name_matches k.2); cbn [one andb]; lia.
Qed.
(** A matching name is counted *)
Lemma matching_pos E k i : E !! k = Some i → name_matches k.2 = true → 1 ≤ matching E i.
Proof.
  intros Hk Hm. pose proof (msum_lookup_le (λ k j, one ((j =? i) && name_matches k.2)) E k i ltac:(intros; apply one_range) Hk) as Hle.
  cbv beta in Hle. rewrite Z.eqb_refl, Hm in Hle. exact Hle.
Qed.
End Deltas.
(** A directory has at most one name *)
Lemma dir_names E I i : tree_ok E I → is_dir I i = true → names E i ≤ 1.
Proof.
  intros Ht Hd. destruct (decide (0 < names E i)) as [[k Hk]%names_pos|]; [|lia]. enough (names (delete k E) i = 0) as Hz.
  { rewrite (names_delete E k i i Hk), Z.eqb_refl in Hz. cbn [one] in Hz. lia. }
  apply names_zero. intros k' [Hne Hk']%lookup_delete_Some. by destruct Hne, (to_unique _ _ Ht k k' i Hd Hk Hk').
Qed.
Lemma subdirs_ext E I I' i : (∀ k j, E !! k = Some j → is_dir I' j = is_dir I j) → subdirs E I' i = subdirs E I i.
Proof. intros Hd. apply msum_ext. intros k j Hk. by rewrite (Hd k j Hk). Qed.
Lemma expected_ext E I I' i : (∀ k j, E !! k = Some j → is_dir I' j = is_dir I j) → is_dir I' i = is_dir I i → expected E I' i = expected E I i.
Proof. intros Hd Hi. unfold expected. by rewrite Hi, (subdirs_ext E I I') by done. Qed.
Lemma expected_unnamed E I i : (∀ k, E !! k ≠ Some i) → i ≠ ROOT_INODE → expected E I i = 0.
Proof. intros Hn Hr. apply names_zero in Hn. unfold expected. rewrite Hn, (proj2 (Z.eqb_neq _ _) Hr). by destruct (is_dir I i). Qed.
Lemma expected_zero E I i : is_dir I i = true → expected E I i = 0 → i ≠ ROOT_INODE ∧ ∀ k, E !! k ≠ Some i.
Proof.
  intros Hd. unfold expected. rewrite Hd. pose proof (subdirs_nonneg E I i). destruct (Z.eqb_spec i ROOT_INODE); cbn [orb]; [lia|].
  destruct (Z.ltb_spec 0 (names E i)); [lia|]. intros _. split; [done|]. apply names_zero. pose proof (names_nonneg E i). lia.
Qed.
(** The directory a reached parent is counts itself *)
Lemma reach_named E I p : tree_ok E I → is_dir I p = true → reach E p → expected E I p = 2 + subdirs E I p.
Proof.
  intros Ht Hd Hr. unfold expected. rewrite Hd. inversion Hr as [|q n i Hq Hi]; subst; [done|]. rewrite (proj2 (Z.ltb_lt 0 (names E p))), orb_true_r; [done|].
  apply names_pos. by exists (q, n).
Qed.
(** Names of files *)
Lemma expected_insert_file E I k j i : is_dir I j = false → E !! k = None → expected (<[k := j]> E) I i = expected E I i + one (j =? i).
Proof.
  intros Hd Hk. unfold expected. rewrite names_insert, subdirs_insert, Hd, andb_false_r by done. cbn [one]. rewrite Z.add_0_r. destruct (Z.eqb_spec j i) as [->|]; cbn [one]; [by rewrite Hd|].
  rewrite !Z.add_0_r. done.
Qed.
Lemma expected_delete_file E I k j i : is_dir I j = false → E !! k = Some j → expected (delete k E) I i = expected E I i - one (j =? i).
Proof.
  intros Hd Hk. unfold expected. rewrite (names_delete E k j), (subdirs_delete E I k j), Hd, andb_false_r by done. cbn [one]. rewrite Z.sub_0_r.
  destruct (Z.eqb_spec j i) as [->|]; cbn [one]; [by rewrite Hd|]. rewrite !Z.sub_0_r. done.
Qed.
(** Names of directories *)
Lemma expected_insert_dir E I p n j i : tree_ok E I → is_dir I j = true → (∀ k, E !! k ≠ Some j) → j ≠ ROOT_INODE → (∀ m, E !! (j, m) = None) →
  is_dir I p = true → reach E p → E !! (p, n) = None → p ≠ j →
  expected (<[(p, n) := j]> E) I i = if i =? j then 2 else expected E I i + one (p =? i).
Proof.
  intros Ht Hd Hun Hroot Hempty Hp Hr Hk Hne. destruct (Z.eqb_spec i j) as [->|Hij].
  - unfold expected. rewrite Hd, names_insert, (proj2 (names_zero E j) Hun), Z.eqb_refl, orb_true_r by done. rewrite subdirs_insert, subdirs_zero by done.
    cbn [fst]. by rewrite (proj2 (Z.eqb_neq _ _) Hne).
  - unfold expected at 1. rewrite names_insert, subdirs_insert, Hd, andb_true_r, (proj2 (Z.eqb_neq j i)) by done. cbn [fst one]. rewrite Z.add_0_r.
    destruct (Z.eqb_spec p i) as [->|]; cbn [one]; [|unfold expected; rewrite !Z.add_0_r; done].
    rewrite (reach_named E I i Ht Hp Hr). pose proof (reach_named E I i Ht Hp Hr) as He. unfold expected in He. rewrite Hp in *. pose proof (subdirs_nonneg E I i). destruct (_ || _); lia.
Qed.
Lemma expected_delete_dir E I p n j i : tree_ok E I → is_dir I j = true → E !! (p, n) = Some j → (∀ m, E !! (j, m) = None) →
  expected (delete (p, n) E) I i = if i =? j then 0 else expected E I i - one (p =? i).
Proof.
  intros Ht Hd Hk Hempty. pose proof (to_child _ _ Ht _ _ Hk) as [_ Hroot]. destruct (Z.eqb_spec i j) as [->|Hij].
  - apply expected_unnamed; [|done]. intros k [Hne Hk']%lookup_delete_Some. by destruct Hne, (to_unique _ _ Ht (p, n) k j Hd Hk Hk').
  - unfold expected at 1. rewrite (names_delete E (p, n) j), (subdirs_delete E I (p, n) j), Hd, andb_true_r, (proj2 (Z.eqb_neq j i)) by done. cbn [fst one]. rewrite Z.sub_0_r.
    destruct (Z.eqb_spec p i) as [->|]; cbn [one]; [|unfold expected; rewrite !Z.sub_0_r; done].
    pose proof (to_parent _ _ Ht _ _ _ Hk) as Hp. rewrite (reach_named E I i Ht Hp) by (by eapply to_reach). pose proof (reach_named E I i Ht Hp ltac:(by eapply to_reach)) as He.
    unfold expected in He. rewrite Hp in *. pose proof (subdirs_nonneg E I i). destruct (_ || _); lia.
Qed.
Lemma expected_move E I q m p n j i : tree_ok E I → is_dir I j = true → E !! (q, m) = Some j → E !! (p, n) = None → is_dir I p = true → reach E p → p ≠ j →
  expected (<[(p, n) := j]> (delete (q, m) E)) I i = expected E I i - one (q =? i) + one (p =? i).
Proof.
  intros Ht Hd Hk Hnew Hp Hr Hpj. set (D := delete (q, m) E). assert (HD : D !! (p, n) = None) by (by apply lookup_delete_None; right).
  assert (Hnames : ∀ x, names (<[(p, n) := j]> D) x = names E x) by (intros x; rewrite names_insert by done; unfold D; rewrite (names_delete E (q, m) j) by done; lia).
  assert (Hsub : subdirs (<[(p, n) := j]> D) I i = subdirs E I i - one (q =? i) + one (p =? i)).
  { rewrite subdirs_insert by done. unfold D. rewrite (subdirs_delete E I (q, m) j) by done. rewrite Hd, !andb_true_r. done. }
  pose proof (to_parent _ _ Ht _ _ _ Hk) as Hq. pose proof (to_reach _ _ Ht _ _ _ Hk) as Hqr.
  assert (Hnot : is_dir I i = true → ¬ ((i =? ROOT_INODE) || (0 <? names E i) = true) → one (q =? i) = 0 ∧ one (p =? i) = 0).
  { intros Hi Hno. assert (Hx : ∀ x, is_dir I x = true → reach E x → x ≠ i).
    { intros x Hxd Hxr ->. apply Hno. pose proof (reach_named E I i Ht Hxd Hxr) as He. unfold expected in He. rewrite Hxd in He. pose proof (subdirs_nonneg E I i). destruct (_ || _); [done|lia]. }
    rewrite !(proj2 (Z.eqb_neq _ _)) by (by apply Hx). done. }
  unfold expected. rewrite Hnames, Hsub. destruct (is_dir I i) eqn:Hi.
  - destruct ((i =? ROOT_INODE) || (0 <? names E i)) eqn:Hb; [lia|]. destruct (Hnot eq_refl ltac:(done)). lia.
  - rewrite !(proj2 (Z.eqb_neq _ i)) by (intros <-; congruence). cbn [one]. lia.
Qed.
End TreeInvariant.
