(* ===== verification/TreeSteps.v ===== *)
(** * The invariant of the catalog and its steps

    Two modules: the invariant with the updates that keep it, and the references
    (lookups, handles, numbers) that hold inodes. *)
From stdpp Require Export functions.
From S2P Require Export TreeInvariant.
From S2P Require Export FileRefinement.

(** ** Steps of the tree requests

    The invariant with the counts of the inodes given by functions, so that it
    holds between the steps of a request, and what each step does to it. *)
Module TreeSteps.
Import SparseData SparseDataOps DirtyEpoch DirtyEpochOps VersionedFile VersionedFileOps FileCommit InodeMetadata InodeAttributes FileCatalog FileHandlers FileHandlersOps NamespaceTree TreeRequests TreeInvariant.
Implicit Types (t : Tree) (st : InodeState) (i : Z).

Section Steps.
Context (heap : Z → option (CommittedFile * (Z → option byte))) `{NamePolicy}.

Record inode_ok (links matches : Z) st : Prop := {
  io_links : link_count st = links;
  io_matches : policy_name_matches st = matches;
  io_u32 : 0 ≤ link_count st ≤ u32_max;
  io_plain : kind st ≠ Regular → resident_payload_bytes (file st) = 0;
  io_metadata : metadata_wf (kind st) (metadata st);
}.
Record loose (lc pm : Z → Z) t : Prop := {
  lo_space : ns_wf heap (space t);
  lo_tree : tree_ok (entries t) (inodes_of t);
  lo_inode i st : inodes_of t !! i = Some st → inode_ok (lc i) (pm i) st;
  lo_lookup i n : lookup_counts t !! i = Some n → 0 < n ≤ u64_max ∧ is_Some (inodes_of t !! i);
  lo_number i : is_Some (inodes_of t !! i) ∨ is_Some (active_create_metadata_bytes t !! i) → 0 < i < next_inode t;
  lo_handle h : is_Some (handles_of t !! h) → 0 < h < next_handle t;
  lo_next : 0 < next_inode t ≤ u64_max ∧ 0 < next_handle t ≤ u64_max;
}.
Definition pinned t i : Prop := is_Some (lookup_counts t !! i) ∨ has_handle t i = true.
Record tree_wf t : Prop := {
  tw_loose : loose (expected (entries t) (inodes_of t)) (matching (entries t)) t;
  tw_pinned i st : inodes_of t !! i = Some st → link_count st = 0 → pinned t i;
}.
Lemma loose_ext lc pm lc' pm' t : loose lc pm t → (∀ i, is_Some (inodes_of t !! i) → lc i = lc' i ∧ pm i = pm' i) → loose lc' pm' t.
Proof.
  intros Hl Hext. destruct Hl as [H1 H2 H3 H4 H5 H6 H7]. split; try done. intros i st Hi. destruct (Hext i) as [<- <-]; [by eexists|]. by apply H3.
Qed.
Lemma has_handle_spec t i : has_handle t i = true ↔ ∃ h o, handles_of t !! h = Some o ∧ handle_inode o = i.
Proof.
  unfold has_handle. rewrite existsb_exists. setoid_rewrite <-list_elem_of_In. split.
  - intros ([h o]&Hin%elem_of_map_to_list&Hi%Z.eqb_eq). by exists h, o.
  - intros (h&o&Hh&<-). exists (h, o). split; [by apply elem_of_map_to_list|]. apply Z.eqb_refl.
Qed.
Lemma is_dir_insert I i st st' j : I !! i = Some st → kind st' = kind st → is_dir (<[i := st']> I) j = is_dir I j.
Proof. intros Hi Hk. unfold is_dir. destruct (decide (i = j)) as [<-|]; [by rewrite lookup_insert_eq, Hi, Hk|by rewrite lookup_insert_ne]. Qed.

(** ** Changing one inode *)
Record data_ok st : Prop := {
  do_file : file_wf heap (file st);
  do_clean : clean_ok heap (file st);
  do_sequence : kind st = Regular → inode_sequence st = last_sequence (active (file st));
}.
Lemma loose_data lc pm t i st : loose lc pm t → inodes_of t !! i = Some st → data_ok st.
Proof. intros Hl Hi. destruct (nw_files _ _ (lo_space _ _ _ Hl) i st Hi) as (?&?&?). by split. Qed.
Lemma loose_update lc pm t i st st' d links matches : loose lc pm t → inodes_of t !! i = Some st → kind st' = kind st → data_ok st' → inode_ok links matches st' →
  d = dirty_payload (space t) - inode_dirty i st + inode_dirty i st' →
  loose (<[i := links]> lc) (<[i := matches]> pm) (set_dirty (set_inode t i st') d).
Proof.
  intros Hl Hi Hk [Hf Hc Hs] Hok Hd. destruct Hl as [[Hh Hfiles Hdirty] Htree Hin Hlook Hnum Hhan Hnext].
  split; cbn [set_dirty set_inode set_inodes set_space space entries lookup_counts next_inode next_handle active_create_metadata_bytes]; try done.
  - split; cbn [catalog inodes handles dirty_payload].
    + intros h o Ho. destruct (Hh h o Ho) as (x&Hx&Hxk). destruct (decide (handle_inode o = i)) as [Heq|].
      * exists st'. rewrite Heq in *. rewrite lookup_insert_eq. split; [done|]. rewrite Hk. assert (x = st) as <- by (unfold inodes_of in Hi; congruence). done.
      * exists x. by rewrite lookup_insert_ne.
    + intros j x [[<- <-]|[_ Hx]]%lookup_insert_Some; [done|by eapply Hfiles].
    + unfold inodes_of in *. rewrite msum_insert, Hi. cbn [from_option]. lia.
  - apply (tree_ok_ext _ (inodes_of t)); [done|intros j; by apply (is_dir_insert _ i st)|]. intros k j Hk'. destruct (to_child _ _ Htree k j Hk') as [Hs' _].
    apply lookup_insert_is_Some'. by right.
  - intros j x. change (inodes_of _) with (<[i := st']> (inodes_of t)). intros [[<- <-]|[Hne Hx]]%lookup_insert_Some; [by rewrite !fn_lookup_insert|]. rewrite !fn_lookup_insert_ne by done. by apply Hin.
  - intros j n Hj. destruct (Hlook j n Hj) as [? ?]. split; [done|]. apply lookup_insert_is_Some'. by right.
  - intros j. change (inodes_of _) with (<[i := st']> (inodes_of t)). intros [[<-|Hj]%lookup_insert_is_Some'|Hj]; apply Hnum; [left; by eexists|by left|by right].
Qed.
(** The dirty payload does not change unless data or the first link does *)
Lemma loose_touch lc pm t i st st' links matches : loose lc pm t → inodes_of t !! i = Some st → kind st' = kind st → data_ok st' → inode_ok links matches st' →
  inode_dirty i st' = inode_dirty i st → loose (<[i := links]> lc) (<[i := matches]> pm) (set_inode t i st').
Proof. intros Hl Hi Hk Hd Hok Hdirty. apply (loose_update lc pm t i st st' (dirty_payload (space t)) links matches Hl Hi Hk Hd Hok). rewrite Hdirty. lia. Qed.
Lemma insert_self (f : Z → Z) i x : f i = x → ∀ j, <[i := x]> f j = f j.
Proof. intros <- j. destruct (decide (j = i)) as [->|]; [by rewrite fn_lookup_insert|by rewrite fn_lookup_insert_ne]. Qed.
(** ** The other fields *)
Lemma loose_entries lc pm t E : loose lc pm t → tree_ok E (inodes_of t) → loose lc pm (set_entries t E).
Proof. intros [H1 H2 H3 H4 H5 H6 H7] Hok. by split. Qed.
Lemma loose_lookups lc pm t L : loose lc pm t → (∀ i n, L !! i = Some n → 0 < n ≤ u64_max ∧ is_Some (inodes_of t !! i)) → loose lc pm (set_lookups t L).
Proof. intros [H1 H2 H3 H4 H5 H6 H7] Hok. by split. Qed.
Lemma loose_creates lc pm t C : loose lc pm t → (∀ i, is_Some (C !! i) → 0 < i < next_inode t) → loose lc pm (set_creates t C).
Proof. intros [H1 H2 H3 H4 H5 H6 H7] Hok. split; try done. intros i [Hi|Hi]; [by apply H5; left|by apply Hok]. Qed.
Lemma loose_handles lc pm t Hs : loose lc pm t →
  (∀ h o, Hs !! h = Some o → 0 < h < next_handle t ∧ ∃ st, inodes_of t !! handle_inode o = Some st ∧ kind st = Regular) → loose lc pm (set_handles t Hs).
Proof.
  intros [[Hh Hf Hd] H2 H3 H4 H5 H6 H7] Hok. split; try done.
  - split; cbn [set_handles set_space space catalog inodes handles dirty_payload]; [|done|done]. intros h o Ho. by apply (Hok h o).
  - intros h [o Ho]. by destruct (Hok h o Ho).
Qed.
Lemma loose_insert lc pm t i st : loose lc pm t → inodes_of t !! i = None → i ≠ ROOT_INODE → 0 < i < next_inode t → data_ok st → inode_ok (link_count st) (policy_name_matches st) st →
  inode_dirty i st = 0 → loose (<[i := link_count st]> lc) (<[i := policy_name_matches st]> pm) (set_inode t i st).
Proof.
  intros [[Hh Hfiles Hdirty] Htree Hin Hlook Hnum Hhan Hnext] Hi Hroot Hrange [Hf Hc Hs] Hok Hd0.
  assert (Hnone : ∀ k, entries t !! k ≠ Some i) by (intros k Hk; destruct (to_child _ _ Htree _ _ Hk) as [[x Hx] _]; congruence).
  assert (Hdir : ∀ j, j ≠ i → is_dir (<[i := st]> (inodes_of t)) j = is_dir (inodes_of t) j) by (intros j Hj; unfold is_dir; by rewrite lookup_insert_ne).
  split; cbn [set_inode set_inodes set_space space entries lookup_counts next_inode next_handle active_create_metadata_bytes]; try done.
  - split; cbn [catalog inodes handles dirty_payload].
    + intros h o Ho. destruct (Hh h o Ho) as (x&Hx&Hxk). exists x. rewrite lookup_insert_ne; [done|]. intros ->. unfold inodes_of in Hi. congruence.
    + intros j x [[<- <-]|[_ Hx]]%lookup_insert_Some; [done|by eapply Hfiles].
    + unfold inodes_of in *. rewrite msum_insert, Hi. cbn [from_option]. lia.
  - destruct Htree as [T1 T2 T3 T4 T5]. split; [by rewrite Hdir| | | |done].
    + intros p n j Hj. rewrite Hdir; [by eapply T2|]. intros ->. specialize (T2 _ _ _ Hj). unfold is_dir in T2. by rewrite Hi in T2.
    + intros k j Hj. destruct (T3 k j Hj) as [? ?]. split; [apply lookup_insert_is_Some'; by right|done].
    + intros k1 k2 j Hj H1 H2. apply (T4 k1 k2 j); [|done|done]. rewrite Hdir in Hj; [done|]. intros ->. by destruct (Hnone k1).
  - intros j x. change (inodes_of _) with (<[i := st]> (inodes_of t)). intros [[<- <-]|[Hne Hx]]%lookup_insert_Some; [by rewrite !fn_lookup_insert|]. rewrite !fn_lookup_insert_ne by done. by apply Hin.
  - intros j n Hj. destruct (Hlook j n Hj) as [? ?]. split; [done|]. apply lookup_insert_is_Some'. by right.
  - intros j. change (inodes_of _) with (<[i := st]> (inodes_of t)). intros [[<-|Hj]%lookup_insert_is_Some'|Hj]; [done|apply Hnum; by left|apply Hnum; by right].
Qed.
(** Dropping an inode without names *)
Lemma loose_remove lc pm t i st : loose lc pm t → inodes_of t !! i = Some st → i ≠ ROOT_INODE → (∀ k, entries t !! k ≠ Some i) → link_count st = 0 →
  lookup_counts t !! i = None → has_handle t i = false → loose lc pm (set_inodes t (delete i (inodes_of t))).
Proof.
  intros [[Hh Hfiles Hdirty] Htree Hin Hlook Hnum Hhan Hnext] Hi Hroot Hnone Hlinks Hnl Hnh.
  assert (Hdir : ∀ j, j ≠ i → is_dir (delete i (inodes_of t)) j = is_dir (inodes_of t) j) by (intros j Hj; unfold is_dir; by rewrite lookup_delete_ne).
  assert (Hpar : ∀ p n j, entries t !! (p, n) = Some j → p ≠ i).
  { intros p n j Hj ->. pose proof (to_reach _ _ Htree _ _ _ Hj) as Hr. inversion Hr as [|q m x _ Hq]; subst; [done|]. by destruct (Hnone (q, m)). }
  split; cbn [set_inodes set_space space entries lookup_counts next_inode next_handle active_create_metadata_bytes]; try done.
  - split; cbn [catalog inodes handles dirty_payload].
    + intros h o Ho. destruct (Hh h o Ho) as (x&Hx&Hxk). exists x. rewrite lookup_delete_ne; [done|]. intros Heq. assert (Ht : has_handle t i = true); [|congruence].
      apply has_handle_spec. by exists h, o.
    + intros j x [_ Hx]%lookup_delete_Some. by eapply Hfiles.
    + unfold inodes_of in *. rewrite msum_delete, Hi. cbn [from_option]. unfold inode_dirty at 2. rewrite Hlinks. cbn [Z.ltb Z.compare]. lia.
  - destruct Htree as [T1 T2 T3 T4 T5]. split; [by rewrite Hdir| | | |done].
    + intros p n j Hj. rewrite Hdir; [by eapply T2|by eapply Hpar].
    + intros k j Hj. destruct (T3 k j Hj) as [[x Hx] ?]. split; [|done]. exists x. change (inodes_of _) with (delete i (inodes_of t)). rewrite lookup_delete_ne; [done|]. intros ->. by destruct (Hnone k).
    + intros k1 k2 j Hj H1 H2. apply (T4 k1 k2 j); [|done|done]. rewrite Hdir in Hj; [done|]. intros ->. by destruct (Hnone k1).
  - intros j x. change (inodes_of _) with (delete i (inodes_of t)). intros [_ Hx]%lookup_delete_Some. by apply Hin.
  - intros j n Hj. destruct (Hlook j n Hj) as [? [x Hx]]. split; [done|]. exists x. change (inodes_of _) with (delete i (inodes_of t)). rewrite lookup_delete_ne; [done|]. intros ->. congruence.
  - intros j. change (inodes_of _) with (delete i (inodes_of t)). intros [[x [_ Hx]%lookup_delete_Some]|Hj]; apply Hnum; [left; by exists x|by right].
Qed.

(** ** Steps that only update inodes *)

(** What a tree request does not change of an inode *)
Record same_content st st' : Prop := {
  sc_kind : kind st' = kind st;
  sc_mode : mode st' = mode st;
  sc_owner : uid st' = uid st ∧ gid st' = gid st;
  sc_metadata : metadata st' = metadata st;
  sc_target : symlink_target st' = symlink_target st;
  sc_file : abstract heap (file st') ≡ abstract heap (file st);
}.
#[global] Instance same_content_pre : PreOrder same_content.
Proof.
  split; [by intros st; split|]. intros a b c [? ? [? ?] ? ? ?] [? ? [? ?] ? ? ?]. split; try congruence; [split; congruence|by etrans].
Qed.
Record quiet t t' : Prop := {
  qu_entries : entries t' = entries t;
  qu_lookups : lookup_counts t' = lookup_counts t;
  qu_handles : handles_of t' = handles_of t;
  qu_creates : active_create_metadata_bytes t' = active_create_metadata_bytes t;
  qu_next : next_inode t' = next_inode t ∧ next_handle t' = next_handle t ∧ inode_reservation_end t' = inode_reservation_end t;
  qu_inodes i : option_Forall2 same_content (inodes_of t !! i) (inodes_of t' !! i);
}.
#[global] Instance quiet_pre : PreOrder quiet.
Proof.
  split.
  - intros t. by split.
  - intros a b c [A1 A2 A3 A4 (A5&A6&A7) A8] [B1 B2 B3 B4 (B5&B6&B7) B8]. split; try congruence; [split_and!; congruence|]. intros i. specialize (A8 i). specialize (B8 i).
    destruct A8; inversion B8; subst; constructor. by etrans.
Qed.
Lemma quiet_update t i st st' d : inodes_of t !! i = Some st → same_content st st' → quiet t (set_dirty (set_inode t i st') d).
Proof.
  intros Hi Hs. split; try done. intros j. change (inodes_of (set_dirty _ _)) with (<[i := st']> (inodes_of t)). destruct (decide (i = j)) as [<-|].
  - rewrite Hi, lookup_insert_eq. by constructor.
  - rewrite lookup_insert_ne by done. by destruct (inodes_of t !! j); constructor.
Qed.
Lemma quiet_is_dir t t' i : quiet t t' → is_dir (inodes_of t') i = is_dir (inodes_of t) i.
Proof. intros Hq. unfold is_dir. destruct (qu_inodes _ _ Hq i) as [a b Hab|]; [|done]. by rewrite (sc_kind _ _ Hab). Qed.
Lemma quiet_is_Some t t' i : quiet t t' → is_Some (inodes_of t' !! i) ↔ is_Some (inodes_of t !! i).
Proof. intros Hq. destruct (qu_inodes _ _ Hq i) as [a b _|]; split; intros []; by eexists. Qed.
Lemma quiet_expected t t' E i : quiet t t' → expected E (inodes_of t') i = expected E (inodes_of t) i.
Proof. intros Hq. apply expected_ext; [intros k j _|]; by apply quiet_is_dir. Qed.
Lemma quiet_lookup t t' i st : quiet t t' → inodes_of t !! i = Some st → ∃ st', inodes_of t' !! i = Some st' ∧ same_content st st'.
Proof. intros Hq Hi. pose proof (qu_inodes _ _ Hq i) as Hr. rewrite Hi in Hr. inversion Hr; subst. eauto. Qed.
Lemma quiet_has_handle t t' i : quiet t t' → has_handle t' i = has_handle t i.
Proof. intros Hq. unfold has_handle. by rewrite (qu_handles _ _ Hq). Qed.
Lemma quiet_tree_ok t t' E : quiet t t' → tree_ok E (inodes_of t) → tree_ok E (inodes_of t').
Proof. intros Hq Ht. apply (tree_ok_ext _ (inodes_of t)); [done|intros i; by apply quiet_is_dir|]. intros k i Hk. apply (quiet_is_Some t); [done|]. by apply (to_child _ _ Ht k). Qed.
Definition seq_of t i : option Z := inode_sequence <$> inodes_of t !! i.
Lemma seq_of_set t i st j : seq_of (set_inode t i st) j = if decide (i = j) then Some (inode_sequence st) else seq_of t j.
Proof. unfold seq_of. change (inodes_of (set_inode t i st)) with (<[i := st]> (inodes_of t)). case_decide; [subst; by rewrite lookup_insert_eq|by rewrite lookup_insert_ne]. Qed.
(** [install_root_mutation_sequence] *)
Lemma loose_root lc pm t : loose lc pm t → ∃ st, inodes_of t !! ROOT_INODE = Some st ∧ kind st = Directory.
Proof. intros Hl. apply is_dir_Some, (lo_tree _ _ _ Hl). Qed.
Lemma same_links_ok links matches st st' : inode_ok links matches st → same_content st st' → link_count st' = link_count st → policy_name_matches st' = policy_name_matches st →
  file st' = file st → inode_ok links matches st'.
Proof.
  intros [H1 H2 H3 H4 H5] [Hk _ _ Hmd _ _] Hl Hm Hf. split; [congruence|congruence|lia|intros Hr; rewrite Hf; apply H4; congruence|by rewrite Hk, Hmd].
Qed.
Lemma install_root_spec lc pm t n : loose lc pm t → seq_of t ROOT_INODE = Some n → n < u64_max →
  ∃ t', install_root_mutation_sequence t (n + 1) = Ok t' ∧ loose lc pm t' ∧ quiet t t' ∧ ∀ j, j ≠ ROOT_INODE → inodes_of t' !! j = inodes_of t !! j.
Proof.
  intros Hl Hseq Hn. destruct (loose_root _ _ _ Hl) as (st&Hst&Hk). unfold seq_of in Hseq. rewrite Hst in Hseq. cbn [fmap option_fmap option_map] in Hseq.
  injection Hseq as Hseq. unfold install_root_mutation_sequence. rewrite Hst. cbn [expect]. rewrite Ok_bind, Hseq, checked_add_ok by lia. cbn [expect].
  rewrite Ok_bind, Z.eqb_refl. cbn [assert_true]. rewrite Ok_bind. eexists. split; [done|]. set (st' := set_links st (link_count st) (n + 1)).
  assert (Hsame : same_content st st') by by split. pose proof (lo_inode _ _ _ Hl _ _ Hst) as Hok. split; [|split].
  - apply (loose_ext (<[ROOT_INODE := lc ROOT_INODE]> lc) (<[ROOT_INODE := pm ROOT_INODE]> pm)); [|intros j _; by rewrite !insert_self].
    apply (loose_touch lc pm t ROOT_INODE st st' _ _ Hl Hst); [done| |by apply (same_links_ok _ _ st)|done].
    destruct (loose_data _ _ _ _ _ Hl Hst) as [Hf Hc _]. split; [done|done|]. cbn [st' set_links kind]. by rewrite Hk.
  - apply (quiet_update t ROOT_INODE st st' (dirty_payload (space t)) Hst Hsame).
  - intros j Hj. change (inodes_of (set_inode t ROOT_INODE st')) with (<[ROOT_INODE := st']> (inodes_of t)). by rewrite lookup_insert_ne.
Qed.
(** [adjust_policy_name_matches] *)
Lemma adjust_spec lc pm t i b (added : bool) : loose lc pm t → is_Some (inodes_of t !! i) → (added = true → pm i < u32_max ∧ 0 ≤ pm i) → (added = false → one b ≤ pm i) →
  ∃ t', adjust_policy_name_matches t i b added = Ok t' ∧ loose lc (<[i := if added then pm i + one b else pm i - one b]> pm) t' ∧ quiet t t' ∧ (∀ j, seq_of t' j = seq_of t j) ∧
    ∀ j, j ≠ i → inodes_of t' !! j = inodes_of t !! j.
Proof.
  intros Hl [st Hst] Hadd Hsub. unfold adjust_policy_name_matches. destruct b; cbn [negb one].
  2: { exists t. split; [done|]. split; [|done]. apply (loose_ext lc pm); [done|]. intros j _. split; [done|]. rewrite insert_self; [done|]. destruct added; lia. }
  pose proof (lo_inode _ _ _ Hl _ _ Hst) as Hok. rewrite Hst. cbn [expect one] in *. rewrite Ok_bind, (io_matches _ _ _ Hok).
  assert (Hgen : ∀ x, let t' := set_inode t i (set_matches st x) in
    loose lc (<[i := x]> pm) t' ∧ quiet t t' ∧ (∀ j, seq_of t' j = seq_of t j) ∧ ∀ j, j ≠ i → inodes_of t' !! j = inodes_of t !! j).
  { intros x t'. split_and!.
    - apply (loose_ext (<[i := lc i]> lc) (<[i := x]> pm)); [|intros j _; by rewrite (insert_self lc)].
      apply (loose_touch lc pm t i st (set_matches st x) _ _ Hl Hst); [done| |by destruct Hok; split|done]. destruct (loose_data _ _ _ _ _ Hl Hst). by split.
    - apply (quiet_update t i st (set_matches st x) (dirty_payload (space t)) Hst). by split.
    - intros j. unfold t'. rewrite seq_of_set. case_decide; [|done]. subst j. unfold seq_of. by rewrite Hst.
    - intros j Hj. unfold t'. change (inodes_of (set_inode t i (set_matches st x))) with (<[i := set_matches st x]> (inodes_of t)). by rewrite lookup_insert_ne. }
  destruct added.
  - destruct (Hadd eq_refl) as [Hlt H0]. rewrite Z.mod_small by (change u32_max with (2 ^ 32 - 1) in Hlt; lia). eexists. split; [done|]. apply Hgen.
  - unfold checked_sub. specialize (Hsub eq_refl). rewrite (proj2 (Z.leb_le _ _)) by lia. cbn [expect]. rewrite Ok_bind. eexists. split; [done|]. apply Hgen.
Qed.
End Steps.
End TreeSteps.

(** ** Allocation, references and names in the tree

    The steps that add an inode, a handle or a lookup, advance the data of an
    inode that gains or loses a name, and drop an inode that nothing holds. *)
Module TreeRefs.
Import SparseData SparseDataOps DirtyEpoch DirtyEpochOps VersionedFile VersionedFileOps FileCommit FileRefinement InodeMetadata InodeAttributes FileCatalog FileHandlers FileHandlersOps NamespaceTree TreeRequests TreeInvariant TreeSteps.
Implicit Types (t : Tree) (st : InodeState) (i : Z).

(** ** A computation that does not panic *)
Definition safe {A} (r : presult A) (P : A → Prop) : Prop := match r with Ok a => P a | Err _ => True | Panic => False end.
Lemma safe_bind {A B} (r : presult A) (k : A → presult B) P : safe r (λ a, safe (k a) P) → safe (r ≫= k) P.
Proof. by destruct r. Qed.
Lemma safe_mono {A} (r : presult A) (P Q : A → Prop) : safe r P → (∀ a, P a → Q a) → safe r Q.
Proof. destruct r; cbn [safe]; auto. Qed.
Lemma safe_reject {A} b e (k : presult A) P : (b = false → safe k P) → safe (reject_if b e;; k) P.
Proof. destruct b; [done|]. intros Hk. by apply Hk. Qed.
Lemma safe_ok_or {A B} (o : option A) e (k : A → presult B) P : (∀ a, o = Some a → safe (k a) P) → safe (ok_or o e ≫= k) P.
Proof. destruct o as [a|]; [|done]. intros Hk. by apply Hk. Qed.
Lemma safe_expect {A B} (o : option A) a (k : A → presult B) P : o = Some a → safe (k a) P → safe (expect o ≫= k) P.
Proof. by intros ->. Qed.
Lemma safe_assert {A} b (k : presult A) P : b = true → safe k P → safe (assert_true b;; k) P.
Proof. by intros ->. Qed.
Lemma safe_admit {A} (r : presult ()) (k : presult A) P : r ≠ Panic → safe k P → safe (r;; k) P.
Proof. by destruct r as [[]| |]. Qed.
Lemma safe_step {A B} (r : presult A) a (k : A → presult B) P : r = Ok a → safe (k a) P → safe (r ≫= k) P.
Proof. by intros ->. Qed.
Lemma safe_add {B} maximum x (k : Z → presult B) P : (x + 1 ≤ maximum → safe (k (x + 1)) P) → safe (ok_or (checked_add maximum x 1) NoSpace ≫= k) P.
Proof. intros Hk. apply safe_ok_or. intros n [-> ?]%checked_add_Some. by apply Hk. Qed.

Section Refs.
Context (heap : Z → option (CommittedFile * (Z → option byte))) `{NamePolicy}.
Abbreviation loose := (loose heap).
Abbreviation data_ok := (data_ok heap).
Abbreviation same_content := (same_content heap).
Abbreviation quiet := (quiet heap).
Abbreviation tree_wf := (tree_wf heap).

(** ** Inodes that stay keep what a tree request does not change *)
Record kept t t' : Prop := {
  ke_next : next_inode t ≤ next_inode t';
  ke_inodes i st' : inodes_of t' !! i = Some st' → i < next_inode t → ∃ st, inodes_of t !! i = Some st ∧ same_content st st';
}.
#[global] Instance kept_pre : PreOrder kept.
Proof.
  split; [intros t; split; [lia|]; intros i st Hi _; by exists st|]. intros a b c [Na Ha] [Nb Hb]. split; [lia|]. intros i x Hx Hi.
  destruct (Hb i x Hx ltac:(lia)) as (y&Hy&Hyx). destruct (Ha i y Hy Hi) as (z&Hz&Hzy). exists z. split; [done|]. by etrans.
Qed.
Lemma quiet_kept t t' : quiet t t' → kept t t'.
Proof.
  intros Hq. split; [destruct (qu_next _ _ _ Hq); lia|]. intros i st' Hi' _. pose proof (qu_inodes _ _ _ Hq i) as Hr. rewrite Hi' in Hr. inversion Hr; subst. eauto.
Qed.
Lemma kept_inodes t t' : next_inode t ≤ next_inode t' → inodes_of t' = inodes_of t → kept t t'.
Proof. intros Hn Hi. split; [done|]. rewrite Hi. intros i st Hst _. by exists st. Qed.

(** ** Allocation *)
Lemma loose_next_inode lc pm t n : loose lc pm t → next_inode t ≤ n ≤ u64_max → loose lc pm (set_next_inode t n).
Proof. intros [H1 H2 H3 H4 H5 H6 H7] Hn. split; try done; cbn [set_next_inode next_inode next_handle]; [|lia]. intros i Hi. specialize (H5 i Hi). lia. Qed.
Lemma loose_next_handle lc pm t n : loose lc pm t → next_handle t ≤ n ≤ u64_max → loose lc pm (set_next_handle t n).
Proof. intros [H1 H2 H3 H4 H5 H6 H7] Hn. split; try done; cbn [set_next_handle next_inode next_handle]; [|lia]. intros i Hi. specialize (H6 i Hi). lia. Qed.
Lemma allocate_inode_spec {B} t (k : Tree * Z → presult B) P :
  (next_inode t + 1 ≤ u64_max → safe (k (set_next_inode t (next_inode t + 1), next_inode t)) P) → safe (allocate_inode t ≫= k) P.
Proof. intros Hk. unfold allocate_inode. destruct (_ <=? _); [done|]. destruct (_ =? 0); [done|]. unfold checked_add. destruct (Z.leb_spec (next_inode t + 1) u64_max); [|done]. by apply Hk. Qed.
Lemma allocate_handle_spec {B} t (k : Tree * Z → presult B) P :
  (next_handle t + 1 ≤ u64_max → safe (k (set_next_handle t (next_handle t + 1), next_handle t)) P) → safe (allocate_handle t ≫= k) P.
Proof. intros Hk. unfold allocate_handle. destruct (_ =? 0); [done|]. unfold checked_add. destruct (Z.leb_spec (next_handle t + 1) u64_max); [|done]. by apply Hk. Qed.
Lemma fresh_inode lc pm t i : loose lc pm t → next_inode t ≤ i → inodes_of t !! i = None ∧ lookup_counts t !! i = None ∧ active_create_metadata_bytes t !! i = None.
Proof.
  intros Hl Hi. assert (Hno : ¬ 0 < i < next_inode t) by lia. pose proof (lo_number _ _ _ _ Hl i) as Hn.
  destruct (inodes_of t !! i) eqn:Hx; [destruct Hno; apply Hn; left; by eexists|]. split; [done|].
  destruct (active_create_metadata_bytes t !! i); [destruct Hno; apply Hn; right; by eexists|].
  split; [|done]. destruct (lookup_counts t !! i) as [n|] eqn:Hc; [|done]. destruct (lo_lookup _ _ _ _ Hl i n Hc) as [_ [x Hs]]. congruence.
Qed.
Lemma fresh_handle lc pm t h : loose lc pm t → next_handle t ≤ h → handles_of t !! h = None.
Proof. intros Hl Hh. destruct (handles_of t !! h) eqn:Hx; [|done]. pose proof (lo_handle _ _ _ _ Hl h ltac:(by eexists)). lia. Qed.
(** ** Lookups *)
Lemma lookups_zero lc pm t i : loose lc pm t → lookups t i = 0 ↔ lookup_counts t !! i = None.
Proof.
  intros Hl. unfold lookups. destruct (lookup_counts t !! i) as [n|] eqn:Hi; simpl; [|done]. destruct (lo_lookup _ _ _ _ Hl i n Hi) as [? _]. split; [lia|done].
Qed.
Lemma loose_lookup_set lc pm t i n : loose lc pm t → 0 < n ≤ u64_max → is_Some (inodes_of t !! i) → loose lc pm (set_lookups t (<[i := n]> (lookup_counts t))).
Proof. intros Hl Hn Hi. apply loose_lookups; [done|]. intros j m [[<- <-]|[_ Hj]]%lookup_insert_Some; [done|by eapply lo_lookup]. Qed.
Lemma lookups_nonneg lc pm t i : loose lc pm t → 0 ≤ lookups t i.
Proof. intros Hl. unfold lookups. destruct (lookup_counts t !! i) as [n|] eqn:Hi; simpl; [|done]. destruct (lo_lookup _ _ _ _ Hl i n Hi). lia. Qed.
Lemma acquire_spec {B} lc pm t i (k : Tree → presult B) P : loose lc pm t → is_Some (inodes_of t !! i) →
  (∀ n, 0 < n ≤ u64_max → safe (k (set_lookups t (<[i := n]> (lookup_counts t)))) P) → safe (acquire_lookup t i 1 ≫= k) P.
Proof.
  intros Hl Hi Hk. unfold acquire_lookup. rewrite bool_decide_true by done. cbn [assert_true Z.ltb Z.compare]. rewrite !Ok_bind. unfold checked_add.
  pose proof (lookups_nonneg lc pm t i Hl). destruct (Z.leb_spec (lookups t i + 1) u64_max); [|done]. cbn [ok_or]. rewrite Ok_bind. apply Hk. lia.
Qed.
(** ** A step that only adds references closes the invariant *)
Lemma pinned_lookup t i n : pinned (set_lookups t (<[i := n]> (lookup_counts t))) i.
Proof. left. cbn [set_lookups lookup_counts]. rewrite lookup_insert_eq. by eexists. Qed.
(** ** Advancing the data of an inode with its attributes *)
Lemma advance_data_spec st n : file_wf heap (file st) → clean_ok heap (file st) → (kind st = Regular → last_sequence (active (file st)) = n) → n + 1 ≤ u64_max →
  ∃ f, advance_data st (n + 1) = Ok (set_file st f) ∧ abstract heap f ≡ abstract heap (file st) ∧ resident_payload_bytes f = resident_payload_bytes (file st) ∧
    file_wf heap f ∧ clean_ok heap f ∧ (kind st = Regular → last_sequence (active f) = n + 1).
Proof.
  intros Hf Hc Hs Hn. unfold advance_data. destruct (decide (kind st = Regular)) as [Hk|Hk].
  - specialize (Hs Hk). destruct (advance_spec heap (file st) Hf ltac:(lia)) as (f&Hadv&Hf'&Hv&Hl&Hfirst&_). rewrite Hs in Hadv. exists f. rewrite Hadv, Ok_bind.
    split_and!; [done|done| |done|intros Hnone; rewrite Hnone in Hfirst; by destruct Hfirst|intros _; lia].
    revert Hadv. unfold advance_mutation_sequence. destruct (assert_next_sequence _ _) as [[]| |]; [|done|done]. rewrite Ok_bind. cbv zeta.
    destruct (assert_epoch_valid _) as [[]| |]; [|done|done]. rewrite Ok_bind. by intros [= <-].
  - exists (file st). split; [by destruct st|]. by split_and!.
Qed.
(** ** Dropping what nothing holds *)
Abbreviation exact t := (loose (expected (entries t) (inodes_of t)) (matching (entries t)) t).
Lemma unlinked_unnamed t i st : exact t → inodes_of t !! i = Some st → link_count st = 0 → i ≠ ROOT_INODE ∧ ∀ k, entries t !! k ≠ Some i.
Proof.
  intros Hl Hi Hz. pose proof (io_links _ _ _ (lo_inode _ _ _ _ Hl i st Hi)) as Hx. rewrite Hz in Hx. destruct (is_dir (inodes_of t) i) eqn:Hd.
  - by apply (expected_zero _ (inodes_of t)).
  - split; [intros ->; by rewrite (to_root _ _ (lo_tree _ _ _ _ Hl)) in Hd|]. apply names_zero. unfold expected in Hx. by rewrite Hd in Hx.
Qed.
Lemma expected_forget t i j : tree_ok (entries t) (inodes_of t) → (∀ k, entries t !! k ≠ Some i) → j ≠ i →
  expected (entries t) (delete i (inodes_of t)) j = expected (entries t) (inodes_of t) j.
Proof.
  intros Ht Hn Hj. apply expected_ext; [intros k x Hk|]; unfold is_dir; rewrite lookup_delete_ne; [done| |done|done]. intros ->. by destruct (Hn k).
Qed.
Lemma drop_orphan_spec t i st : exact t → inodes_of t !! i = Some st → (∀ j x, j ≠ i → inodes_of t !! j = Some x → link_count x = 0 → pinned t j) →
  ∃ t', drop_orphan t i (link_count st =? 0) = Ok t' ∧ tree_wf t' ∧ entries t' = entries t ∧ kept t t'.
Proof.
  intros Hl Hi Hp. unfold drop_orphan. destruct ((link_count st =? 0) && (lookups t i =? 0) && negb (has_handle t i)) eqn:Hgo.
  - apply andb_prop in Hgo as [[Hz%Z.eqb_eq Hlk%Z.eqb_eq]%andb_prop Hh%negb_true_iff]. apply (lookups_zero _ _ _ _ Hl) in Hlk.
    destruct (unlinked_unnamed t i st Hl Hi Hz) as [Hroot Hun]. unfold remove_inode. rewrite bool_decide_true by (by eexists). cbn [assert_true]. rewrite Ok_bind.
    eexists. split; [done|]. set (t' := set_inodes t _). assert (Hi' : inodes_of t' = delete i (inodes_of t)) by done. split; [|split; [done|]].
    + split.
      * apply (loose_ext heap (expected (entries t) (inodes_of t)) (matching (entries t))); [by apply (loose_remove heap _ _ t i st)|]. rewrite Hi'. intros j [x [Hne _]%lookup_delete_Some].
        split; [|done]. symmetry. apply (expected_forget t i j); [apply Hl|done|done].
      * rewrite Hi'. intros j x [Hne Hx]%lookup_delete_Some Hz'. by apply (Hp j x).
    + split; [done|]. rewrite Hi'. intros j x [_ Hx]%lookup_delete_Some _. by exists x.
  - exists t. split; [done|]. split; [|done]. split; [done|]. intros j x Hx Hz. destruct (decide (j = i)) as [->|]; [|by apply (Hp j x)].
    assert (x = st) as -> by congruence. rewrite Hz in Hgo. cbn [Z.eqb andb] in Hgo. destruct (has_handle t i) eqn:Hh; [by right|]. left. rewrite andb_true_r in Hgo.
    apply Z.eqb_neq in Hgo. rewrite (lookups_zero _ _ _ _ Hl) in Hgo. by destruct (lookup_counts t !! i).
Qed.
(** ** What has to hold at the end of a request *)
Lemma expected_zero_iff E I j : tree_ok E I → expected E I j = 0 ↔ j ≠ ROOT_INODE ∧ ∀ k, E !! k ≠ Some j.
Proof.
  intros Ht. split; [|intros [? ?]; by apply expected_unnamed]. intros Hz. destruct (is_dir I j) eqn:Hd; [by apply (expected_zero E I)|].
  split; [intros ->; by rewrite (to_root _ _ Ht) in Hd|]. apply names_zero. unfold expected in Hz. by rewrite Hd in Hz.
Qed.
(** Every name that is in use after the request was in use before or is of [i] *)
Lemma pinned_others t t' i : tree_wf t → exact t' → (∀ k j, j ≠ i → entries t !! k = Some j → ∃ k', entries t' !! k' = Some j) → (∀ j, j ≠ i → pinned t j → pinned t' j) →
  (∀ j, j ≠ i → is_Some (inodes_of t' !! j) → is_Some (inodes_of t !! j)) → ∀ j x, j ≠ i → inodes_of t' !! j = Some x → link_count x = 0 → pinned t' j.
Proof.
  intros Hw Hl He Hp Hi j x Hj Hx Hz. rewrite (io_links _ _ _ (lo_inode _ _ _ _ Hl j x Hx)) in Hz. apply (expected_zero_iff _ _ _ (lo_tree _ _ _ _ Hl)) in Hz as [Hr Hz].
  destruct (Hi j Hj ltac:(by eexists)) as [y Hy]. apply Hp; [done|]. apply (tw_pinned _ _ Hw j y Hy). rewrite (io_links _ _ _ (lo_inode _ _ _ _ (tw_loose _ _ Hw) j y Hy)).
  apply expected_unnamed; [|done]. intros k Hk. destruct (He k j Hj Hk) as [k' Hk']. by destruct (Hz k').
Qed.
(** Names and references are only added *)
Lemma wf_grow t t' i : tree_wf t → exact t' → entries t ⊆ entries t' → (∀ j, pinned t j → pinned t' j) →
  (∀ j, j ≠ i → is_Some (inodes_of t' !! j) → is_Some (inodes_of t !! j)) → is_Some (inodes_of t !! i) ∨ pinned t' i → tree_wf t'.
Proof.
  intros Hw Hl He Hp Hi Hnew. split; [done|]. intros j x Hx Hz. destruct Hnew as [Hold|Hnew].
  - apply (pinned_others t t' (-1) Hw Hl) with x; [|by intros ? _ ?; apply Hp| | |done|done].
    + intros k y _ Hk. exists k. by eapply lookup_weaken.
    + intros y _ Hy. destruct (decide (y = i)) as [->|]; [done|by apply Hi].
    + intros ->. pose proof (lo_number _ _ _ _ Hl (-1) (or_introl (ex_intro _ x Hx))). lia.
  - destruct (decide (j = i)) as [->|Hj]; [done|]. apply (pinned_others t t' i Hw Hl) with x; [|by intros ? _ ?; apply Hp|done|done|done|done].
    intros k y _ Hk. exists k. by eapply lookup_weaken.
Qed.
(** ** A new inode *)
Lemma expected_fresh E I i st j : tree_ok E I → I !! i = None → j ≠ i → expected E (<[i := st]> I) j = expected E I j.
Proof.
  intros Ht Hi Hj. apply expected_ext; [intros k x Hk|]; unfold is_dir; rewrite lookup_insert_ne; [done| |done|done]. intros <-. destruct (to_child _ _ Ht k i Hk) as [[y Hy] _]. congruence.
Qed.
Lemma insert_inode_spec {B} lc pm t i st (k : Tree → presult B) P : loose lc pm t → inodes_of t !! i = None → i ≠ ROOT_INODE → 0 < i < next_inode t → data_ok st →
  inode_ok (link_count st) (policy_name_matches st) st → inode_dirty i st = 0 →
  (∀ t', loose (<[i := link_count st]> lc) (<[i := policy_name_matches st]> pm) t' → t' = set_lookups (set_inode t i st) (<[i := 1]> (lookup_counts t)) → safe (k t') P) →
  safe (insert_inode t i st ≫= k) P.
Proof.
  intros Hl Hi Hroot Hr Hd Hok Hz Hk. unfold insert_inode. rewrite (bool_decide_true (inodes_of t !! i = None)) by done. cbn [assert_true]. rewrite Ok_bind, bool_decide_true.
  2: { destruct (lookup_counts t !! i) as [n|] eqn:Hn; [|done]. destruct (lo_lookup _ _ _ _ Hl i n Hn) as [_ [x Hx]]. congruence. }
  cbn [assert_true]. rewrite Ok_bind. eapply Hk; [|done]. apply (loose_lookup_set _ _ (set_inode t i st)); [by apply loose_insert|by split; [lia|apply Z.leb_le]|].
  change (is_Some (<[i := st]> (inodes_of t) !! i)). rewrite lookup_insert_eq. by eexists.
Qed.
Lemma new_inode_ok empty_id k context m links md target now : heap empty_id = Some (EmptyCommittedFile empty_id, λ _, None) → metadata_wf k md → 0 ≤ links ≤ u32_max →
  let st := new_inode empty_id k context m links md target now in data_ok st ∧ inode_ok links 0 st ∧ ∀ i, inode_dirty i st = 0.
Proof.
  intros Hid Hm Hl st. split_and!.
  - split; [by apply new_empty_wf| |done]. intros _ _. split; [done|]. intros x. cbn [st new_inode file]. rewrite file_view_active. cbn [new_empty from_committed active committed].
    rewrite new_view. cbn [EmptyCommittedFile file_logical_size]. rewrite decide_False by lia. unfold file_at. cbn [EmptyCommittedFile file_id]. by rewrite Hid.
  - by split.
  - intros i. unfold inode_dirty. by destruct (0 <? _).
Qed.
End Refs.
End TreeRefs.
