(* ===== verification/TreeNames.v ===== *)
(** * Requests that add names and references

    lookup, link, symlink, mkdir, create, open, release and forget keep the
    invariant of the tree and do not panic. *)
From S2P Require Export TreeSteps.

Module TreeNames.
Import SparseData SparseDataOps DirtyEpoch DirtyEpochOps VersionedFile VersionedFileOps FileCommit FileRefinement InodeMetadata InodeAttributes FileCatalog FileCapacity FileHandlers FileHandlersOps NamespaceTree TreeRequests TreeInvariant TreeSteps TreeRefs.
Implicit Types (t : Tree) (st : InodeState) (i : Z).

Section Names.
Context (heap : Z → option (CommittedFile * (Z → option byte))) `{Adm : Admission} `{!AdmissionLaws} `{Dom : Domains} `{Pol : NamePolicy} (maximum_name_bytes empty_id : Z).
Hypothesis empty_file : heap empty_id = Some (EmptyCommittedFile empty_id, λ _, None).
Abbreviation loose := (loose heap).
Abbreviation data_ok := (data_ok heap).
Abbreviation same_content := (same_content heap).
Abbreviation quiet := (quiet heap).
Abbreviation tree_wf := (tree_wf heap).
Abbreviation kept := (kept heap).
Abbreviation exact t := (loose (expected (entries t) (inodes_of t)) (matching (entries t)) t).

(** The entries become [E] and the invariant holds *)
Definition becomes t (E : Entries) t' : Prop := tree_wf t' ∧ entries t' = E ∧ kept t t'.
(** A directory that a request names is linked *)
Definition linked t (p : Z) : Prop := is_dir (inodes_of t) p = true → reach (entries t) p.

(** ** Checks *)
Lemma safe_component {A} name (k : presult A) P : safe k P → safe (validate_component maximum_name_bytes name;; k) P.
Proof. intros Hk. unfold validate_component. destruct (_ <? _); [done|]. cbn [reject_if]. rewrite Ok_bind. by destruct (_ || _). Qed.
Lemma safe_directory {A} t p (k : presult A) P : (is_dir (inodes_of t) p = true → safe k P) → safe (validate_directory t p;; k) P.
Proof.
  intros Hk. unfold validate_directory, is_dir in *. destruct (inodes_of t !! p) as [st|]; [|done]. cbn [ok_or]. rewrite Ok_bind. destruct (decide (kind st = Directory)) as [Hd|Hd].
  - rewrite (bool_decide_false (kind st ≠ Directory)) by (by intros []). apply Hk. by apply bool_decide_true.
  - by rewrite (bool_decide_true (kind st ≠ Directory)).
Qed.
Lemma safe_mutable {A} t p (k : presult A) P : (is_dir (inodes_of t) p = true → safe k P) → safe (validate_mutable_directory t p;; k) P.
Proof.
  intros Hk. unfold validate_mutable_directory, is_dir in *. destruct (inodes_of t !! p) as [st|]; [|done]. cbn [ok_or]. rewrite Ok_bind. destruct (decide (kind st = Directory)) as [Hd|Hd].
  - rewrite (bool_decide_false (kind st ≠ Directory)) by (by intros []). cbn [reject_if]. rewrite Ok_bind. destruct (immutable st); [done|]. apply Hk. by apply bool_decide_true.
  - by rewrite (bool_decide_true (kind st ≠ Directory)).
Qed.
Lemma safe_root {B} lc pm t (k : Z → presult B) P : loose lc pm t → (∀ n, seq_of t ROOT_INODE = Some n → n + 1 ≤ u64_max → safe (k (n + 1)) P) →
  safe (next_root_mutation_sequence t ≫= k) P.
Proof.
  intros Hl Hk. destruct (loose_root _ _ _ _ Hl) as (st&Hst&_). unfold next_root_mutation_sequence, root_mutation_sequence. rewrite Hst. cbn [expect]. rewrite !Ok_bind.
  apply safe_add. intros Hn. apply Hk; [|done]. unfold seq_of. by rewrite Hst.
Qed.
Lemma safe_absent {A} t key (k : presult A) P : (entries t !! key = None → safe k P) → safe (reject_if (bool_decide (is_Some (entries t !! key))) Exists;; k) P.
Proof. intros Hk. apply safe_reject. intros Hb%bool_decide_eq_false. apply Hk. by apply eq_None_not_Some. Qed.
Lemma safe_insert_entry {B} t key i previous (k : Tree → presult B) P : entries t !! key = previous → safe (k (set_entries t (<[key := i]> (entries t)))) P →
  safe (insert_entry t key i previous ≫= k) P.
Proof. intros He Hk. unfold insert_entry. by rewrite bool_decide_true. Qed.
Lemma entry_state t key i : exact t → entries t !! key = Some i → ∃ st, inodes_of t !! i = Some st ∧ 0 < link_count st ∧ i ≠ ROOT_INODE.
Proof.
  intros Hl He. destruct (to_child _ _ (lo_tree _ _ _ _ Hl) key i He) as [[st Hst] Hr]. exists st. split; [done|]. split; [|done].
  pose proof (lo_inode _ _ _ _ Hl i st Hst) as Hok. destruct (decide (link_count st = 0)) as [Hz|Hz]; [|pose proof (io_u32 _ _ _ Hok); lia].
  by destruct (unlinked_unnamed heap t i st Hl Hst Hz) as [_ Hn], (Hn key).
Qed.
(** ** References *)
Lemma lookup_becomes t E t1 i n : becomes t E t1 → 0 < n ≤ u64_max → is_Some (inodes_of t1 !! i) → becomes t E (set_lookups t1 (<[i := n]> (lookup_counts t1))).
Proof.
  intros (Hw&He&Hk) Hn Hi. split; [|split; [done|transitivity t1; [done|by apply kept_inodes]]].
  apply (wf_grow heap t1 _ i); [done|apply loose_lookup_set; [apply (tw_loose _ _ Hw)|done|done]|done| |done|by left].
  intros j [Hj|Hj]; [left|by right]. cbn [set_lookups lookup_counts]. apply lookup_insert_is_Some'. by right.
Qed.
Lemma becomes_refl t : tree_wf t → becomes t (entries t) t.
Proof. by split. Qed.
Lemma lookup_spec t p name : tree_wf t → safe (lookup_name maximum_name_bytes t p name) (λ r, becomes t (entries t) r.1).
Proof.
  intros Hw. pose proof (tw_loose _ _ Hw) as Hl. unfold lookup_name. apply safe_component, safe_directory. intros _. apply safe_ok_or. intros i Hi.
  destruct (entry_state t _ i Hl Hi) as (st&Hst&Hpos&_). apply (safe_expect _ st); [done|]. apply safe_assert; [by apply Z.ltb_lt|]. eapply acquire_spec; [done|by eexists|].
  intros n Hn. apply lookup_becomes; [by apply becomes_refl|done|by eexists].
Qed.
(** The state is the same but for the lookups when they are counted last *)
Lemma answer_spec {A} t E t1 i (a : A) : becomes t E t1 → is_Some (inodes_of t1 !! i) → safe (answer (acquire_lookup t1 i 1) t1 a) (λ r, becomes t E r.1).
Proof.
  intros Hb Hi. pose proof (tw_loose _ _ (proj1 Hb)) as Hl. pose proof (acquire_spec heap _ _ t1 i (λ x, Ok x) (λ x, becomes t E x) Hl Hi) as Hacq. cbn [safe] in Hacq.
  specialize (Hacq ltac:(intros n Hn; by apply lookup_becomes)). unfold answer. by destruct (acquire_lookup t1 i 1).
Qed.
(** An inode may go when a reference to it does *)
Lemma unreference_spec t t1 i st : tree_wf t → exact t1 → entries t1 = entries t → inodes_of t1 = inodes_of t → next_inode t1 = next_inode t →
  (∀ j, j ≠ i → pinned t j → pinned t1 j) → inodes_of t !! i = Some st → ∃ t', drop_orphan t1 i (link_count st =? 0) = Ok t' ∧ becomes t (entries t) t'.
Proof.
  intros Hw Hl He Hi Hn Hp Hst. destruct (drop_orphan_spec heap t1 i st Hl) as (t'&->&Hw'&He'&Hk).
  - by rewrite Hi.
  - rewrite Hi. intros j x Hj Hx Hz. apply Hp; [done|]. by apply (tw_pinned _ _ Hw j x).
  - exists t'. split; [done|]. split; [done|]. split; [congruence|]. transitivity t1; [apply kept_inodes; [lia|done]|done].
Qed.
Lemma release_spec t i h : tree_wf t → safe (release t i h) (becomes t (entries t)).
Proof.
  intros Hw. pose proof (tw_loose _ _ Hw) as Hl. unfold release. unfold resolve_open_file. change (handles (catalog (space t))) with (handles_of t).
  destruct (handles_of t !! h) as [o|] eqn:Ho; [|done]. cbn [ok_or]. rewrite !Ok_bind. destruct (Z.eqb_spec (handle_inode o) i) as [Hoi|]; [|done]. cbn [negb reject_if].
  destruct (nw_handles _ _ (lo_space _ _ _ _ Hl) h o Ho) as (st&Hst&Hreg). rewrite Hoi in Hst. rewrite Hst. cbn [expect]. rewrite !Ok_bind. cbv zeta.
  set (t1 := set_handles t (delete h (handles_of t))). assert (Hl1 : exact t1).
  { apply loose_handles; [done|]. intros h' o' [_ Ho']%lookup_delete_Some. split; [apply (lo_handle _ _ _ _ Hl); by eexists|]. by apply (nw_handles _ _ (lo_space _ _ _ _ Hl) h'). }
  change (inodes_of t1) with (inodes_of t). unfold inodes_of at 1. rewrite Hst. cbn [expect]. rewrite Ok_bind.
  destruct (unreference_spec t t1 i st) as (t'&->&?); [done|done|done|done|done| |done|done]. intros j Hj [Hp|Hp]; [by left|right].
  apply has_handle_spec in Hp as (h'&o'&Ho'&Hj'). apply has_handle_spec. exists h', o'. split; [|done]. change (handles_of t1) with (delete h (handles_of t)).
  rewrite lookup_delete_ne; [done|]. intros <-. congruence.
Qed.
Lemma forget_spec t i n : tree_wf t → 0 ≤ n → safe (forget t i n) (becomes t (entries t)).
Proof.
  intros Hw Hn. pose proof (tw_loose _ _ Hw) as Hl. unfold forget. destruct (Z.eqb_spec n 0) as [|Hnz]; [by split|].
  destruct (lookup_counts t !! i) as [current|] eqn:Hc; [|by split]. cbv zeta. destruct (lo_lookup _ _ _ _ Hl i current Hc) as [Hcur [st Hst]].
  set (L := if current <=? n then _ else _). assert (HL : ∀ j, j ≠ i → L !! j = lookup_counts t !! j).
  { intros j Hj. unfold L. destruct (_ <=? _); [by rewrite lookup_delete_ne|by rewrite lookup_insert_ne]. }
  assert (Hl1 : exact (set_lookups t L)).
  { apply loose_lookups; [done|]. intros j m Hj. destruct (decide (j = i)) as [->|Hne]; [|rewrite HL in Hj by done; by apply (lo_lookup _ _ _ _ Hl)].
    unfold L in Hj. destruct (Z.leb_spec current n); [by rewrite lookup_delete_eq in Hj|]. rewrite lookup_insert_eq in Hj. injection Hj as <-. split; [lia|by eexists]. }
  change (inodes_of (set_lookups t L)) with (inodes_of t). rewrite Hst.
  destruct (unreference_spec t (set_lookups t L) i st) as (t'&->&?); [done|done|done|done|done| |done|done].
  intros j Hj [Hp|Hp]; [left|by right]. cbn [set_lookups lookup_counts]. by rewrite HL.
Qed.
(** ** Opening *)
Definition cut (truncate : bool) (p : posix_file) : posix_file := if truncate then posix_truncate p 0 else p.
(** The opened inode keeps all but its data and times *)
Record opened t i st (truncate : bool) t' : Prop := {
  op_wf : tree_wf t';
  op_entries : entries t' = entries t;
  op_next : next_inode t' = next_inode t;
  op_state : ∃ f q ts, inodes_of t' = <[i := set_times (set_links (set_file st f) (link_count st) q) ts]> (inodes_of t) ∧ abstract heap f ≡ cut truncate (abstract heap (file st));
}.
Lemma truncate_empty f : file_wf heap f → live_size f = 0 → abstract heap f ≡ posix_truncate (abstract heap f) 0.
Proof. intros Hf Hz. pose proof (truncate_same heap f Hf) as Hs. by rewrite Hz in Hs. Qed.
Lemma dirty_shrink current before after : 0 ≤ after ≤ before → before ≤ current → dirty_replace current before after = (Ok (current - before + after) : presult Z).
Proof.
  intros Ha Hb. unfold dirty_replace. destruct (Z.compare_spec after before) as [->|Hlt|Hgt]; [f_equal; lia| |lia].
  unfold checked_sub. rewrite (proj2 (Z.leb_le _ _)) by lia. cbn [expect]. f_equal. lia.
Qed.
Lemma open_truncate_spec {B} t now i st truncate d (k : Tree * InodeState → presult B) P : exact t → inodes_of t !! i = Some st → kind st = Regular →
  (∀ t' st', exact t' → entries t' = entries t → next_inode t' = next_inode t → next_handle t' = next_handle t → handles_of t' = handles_of t → lookup_counts t' = lookup_counts t →
     (∃ f q ts, st' = set_times (set_links (set_file st f) (link_count st) q) ts ∧ abstract heap f ≡ cut truncate (abstract heap (file st))) →
     inodes_of t' = <[i := st']> (inodes_of t) → safe (k (t', st')) P) →
  d = (if truncate && negb (live_size (file st) =? 0) then Some (inode_sequence st + 1) else None) → inode_sequence st + 1 ≤ u64_max ∨ d = None →
  safe (open_truncate t now i st d ≫= k) P.
Proof.
  intros Hl Hi Hreg Hk Hd Hmax. pose proof (loose_data _ _ _ _ _ _ Hl Hi) as Hdata. destruct Hdata as [Hf Hc Hs]. specialize (Hs Hreg). unfold open_truncate.
  destruct (truncate && negb (live_size (file st) =? 0)) eqn:Hcut; subst d.
  - apply andb_prop in Hcut as [-> Hz]. assert (Hm : inode_sequence st + 1 ≤ u64_max) by (by destruct Hmax).
    destruct (truncate_file_spec heap (file st) 0 (inode_sequence st + 1) Hf ltac:(lia) Hm ltac:(done)) as (f&->&Hf'&Hv&Hlast&Hfirst&_). rewrite Ok_bind.
    assert (Hsz : live_size f = 0) by apply Hv. pose proof (resident_bound heap f Hf') as Hr. pose proof (inode_dirty_le heap (space t) i st (lo_space _ _ _ _ Hl) Hi) as Hdl.
    set (st' := set_times _ _). assert (Hdirty : (if 0 <? link_count st then dirty_replace (dirty_payload (space t)) (resident_payload_bytes (file st)) (resident_payload_bytes f) else Ok (dirty_payload (space t)))
      = (Ok (dirty_payload (space t) - inode_dirty i st + inode_dirty i st') : presult Z)).
    { unfold inode_dirty in *. change (link_count st') with (link_count st). change (file st') with f. destruct (0 <? link_count st); [|f_equal; lia]. pose proof (resident_bound heap (file st) Hf). apply dirty_shrink; lia. }
    rewrite Hdirty, Ok_bind. pose proof (lo_inode _ _ _ _ Hl i st Hi) as [O1 O2 O3 O4 O5].
    assert (Hl' : loose (<[i := expected (entries t) (inodes_of t) i]> (expected (entries t) (inodes_of t))) (<[i := matching (entries t) i]> (matching (entries t)))
      (set_dirty (set_inode t i st') (dirty_payload (space t) - inode_dirty i st + inode_dirty i st'))).
    { apply (loose_update heap _ _ t i st); [done|done|done| |split; [done|done|done|by intros []|done]|done]. split; [done| |done].
      intros Hn. change (file st') with f in Hn. rewrite Hn in Hfirst. by destruct Hfirst. }
    apply Hk; [|done|done|done|done|done|by exists f, (inode_sequence st + 1), {| atime := atime (times st); mtime := now; ctime := now |}|done].
    eapply loose_ext; [exact Hl'|]. intros j _. change (inodes_of (set_dirty _ _)) with (<[i := st']> (inodes_of t)).
    rewrite !insert_self by done. split; [|done]. symmetry. apply expected_ext; [intros k' j' _|]; by apply (is_dir_insert _ i st).
  - apply Hk; [done|done|done|done|done|done| |by rewrite insert_id]. exists (file st), (inode_sequence st), (times st). split; [by destruct st|].
    destruct truncate; [|done]. apply truncate_empty; [done|]. cbn [andb] in Hcut. by apply negb_false_iff, Z.eqb_eq in Hcut.
Qed.
Lemma open_checks_safe {A} st opts truncate (k : presult A) P : (kind st = Regular → safe k P) → safe (open_checks st opts truncate;; k) P.
Proof.
  intros Hk. unfold open_checks. destruct (bool_decide (kind st = Directory)); [done|]. destruct (bool_decide_reflect (kind st ≠ Regular)) as [|Hr]; [done|].
  cbn [reject_if]. rewrite !Ok_bind. destruct (_ && immutable st); [done|]. destruct (_ && _); [done|]. apply Hk. by apply dec_stable.
Qed.
Lemma truncate_sequence_safe {B} st truncate (k : option Z → presult B) P :
  (∀ d, d = (if truncate && negb (live_size (file st) =? 0) then Some (inode_sequence st + 1) else None) → inode_sequence st + 1 ≤ u64_max ∨ d = None → safe (k d) P) →
  safe (truncate_sequence st truncate ≫= k) P.
Proof.
  intros Hk. unfold truncate_sequence. destruct (_ && _); [|apply Hk; [done|by right]]. unfold checked_add. destruct (Z.leb_spec (inode_sequence st + 1) u64_max); [|done].
  apply Hk; [done|by left].
Qed.
Lemma truncate_quota_safe {A} i st d (k : presult A) P : safe k P → safe (truncate_quota i st d;; k) P.
Proof. intros Hk. apply safe_admit; [|done]. destruct d; [apply change_answers|done]. Qed.
Lemma safe_insert_handle {B} t h i st opts (k : Tree → presult B) P lc pm : loose lc pm t → handles_of t !! h = None → 0 < h < next_handle t → inodes_of t !! i = Some st → kind st = Regular →
  (∀ t', loose lc pm t' → t' = set_handles t (<[h := {| handle_inode := i; options := opts |}]> (handles_of t)) → (∀ j, pinned t j → pinned t' j) → safe (k t') P) →
  safe (insert_handle t h i opts ≫= k) P.
Proof.
  intros Hl Hn Hh Hi Hreg Hk. unfold insert_handle. rewrite bool_decide_true by done. cbn [assert_true]. rewrite Ok_bind. eapply Hk; [|done|].
  - apply loose_handles; [done|]. intros h' o [[<- <-]|[_ Ho]]%lookup_insert_Some; [split; [done|by exists st]|]. split; [apply (lo_handle _ _ _ _ Hl); by eexists|].
    by apply (nw_handles _ _ (lo_space _ _ _ _ Hl) h').
  - intros j [Hj|Hj]; [by left|right]. apply has_handle_spec in Hj as (h'&o&Ho&Hj). apply has_handle_spec. exists h', o. split; [|done].
    change (handles_of (set_handles t _)) with (<[h := {| handle_inode := i; options := opts |}]> (handles_of t)). rewrite lookup_insert_ne; [done|]. intros <-. congruence.
Qed.
(** The references added after the truncation *)
Lemma opened_wf t t1 t2 i st st' truncate : tree_wf t → exact t1 → entries t1 = entries t → next_inode t1 = next_inode t → (∀ j, pinned t j → pinned t2 j) →
  (∃ f q ts, st' = set_times (set_links (set_file st f) (link_count st) q) ts ∧ abstract heap f ≡ cut truncate (abstract heap (file st))) →
  inodes_of t !! i = Some st → inodes_of t1 = <[i := st']> (inodes_of t) → entries t2 = entries t1 → inodes_of t2 = inodes_of t1 → next_inode t2 = next_inode t1 → exact t2 → opened t i st truncate t2.
Proof.
  intros Hw Hl1 He1 Hn1 Hp Hst' Hi Hi1 He2 Hi2 Hn2 Hl2. destruct Hst' as (f&q&ts&Heq&Hv). split; [|congruence|congruence|exists f, q, ts; split; [congruence|done]].
  apply (wf_grow heap t t2 i); [done|done|by rewrite He2, He1|done| |left; by eexists]. intros j Hj. rewrite Hi2, Hi1. by rewrite lookup_insert_ne.
Qed.
Lemma open_spec t now i opts truncate : tree_wf t →
  safe (open t now i opts truncate) (λ r, ∃ st, inodes_of t !! i = Some st ∧ opened t i st truncate r.1).
Proof.
  intros Hw. pose proof (tw_loose _ _ Hw) as Hl. unfold open. apply safe_ok_or. intros st Hst. apply open_checks_safe. intros Hreg. apply truncate_sequence_safe. intros d Hd Hmax.
  apply truncate_quota_safe, allocate_handle_spec. intros Hroom. cbn [fst snd]. set (t0 := set_next_handle t (next_handle t + 1)).
  destruct (lo_next _ _ _ _ Hl) as [_ Hnh]. assert (Hl0 : exact t0) by (by apply loose_next_handle; [|lia]).
  eapply (open_truncate_spec t0); [done|done|done| |done|done]. intros t1 st' Hl1 He1 Hn1 Hnh1 Hh1 Hlk1 Hst' Hi1. cbn [fst snd].
  assert (Hkind : kind st' = Regular) by (by destruct Hst' as (?&?&?&->&_)).
  eapply (safe_insert_handle t1 _ i st'); [done| | |by rewrite Hi1, lookup_insert_eq|done|].
  - rewrite Hh1. by apply (fresh_handle heap _ _ t (next_handle t) Hl).
  - rewrite Hnh1. cbn [t0 set_next_handle next_handle]. lia.
  - intros t2 Hl2 Heq Hp. cbn [safe fst]. exists st. split; [done|]. apply (opened_wf t t1 t2 i st st'); try done; try by rewrite Heq.
    + intros j [Hj|Hj]; apply Hp; [left; by rewrite Hlk1|right]. unfold has_handle in *. by rewrite Hh1.
    + rewrite Heq. by rewrite Heq in Hl2.
Qed.
Lemma open_existing_spec t now i key request : tree_wf t → entries t !! key = Some i →
  safe (open_existing_for_create t now i request) (λ r, ∃ st, inodes_of t !! i = Some st ∧ opened t i st (truncate request) r.1).
Proof.
  intros Hw He. pose proof (tw_loose _ _ Hw) as Hl. destruct (entry_state t key i Hl He) as (st&Hst&Hpos&_). unfold open_existing_for_create. eapply safe_expect; [done|].
  apply open_checks_safe. intros Hreg. apply truncate_sequence_safe. intros d Hd Hmax. apply truncate_quota_safe, safe_add. intros Hlook. apply allocate_handle_spec. intros Hroom.
  apply safe_admit; [destruct d; [by rewrite (proj2 (Z.ltb_lt _ _) Hpos)|done]|]. cbn [fst snd]. set (t0 := set_next_handle t (next_handle t + 1)).
  destruct (lo_next _ _ _ _ Hl) as [_ Hnh]. assert (Hl0 : exact t0) by (by apply loose_next_handle; [|lia]).
  eapply (open_truncate_spec t0); [done|done|done| |done|done]. intros t1 st' Hl1 He1 Hn1 Hnh1 Hh1 Hlk1 Hst' Hi1. cbn [fst snd].
  assert (Hkind : kind st' = Regular) by (by destruct Hst' as (?&?&?&->&_)).
  eapply (safe_insert_handle t1 _ i st'); [done| | |by rewrite Hi1, lookup_insert_eq|done|].
  - rewrite Hh1. by apply (fresh_handle heap _ _ t (next_handle t) Hl).
  - rewrite Hnh1. cbn [t0 set_next_handle next_handle]. lia.
  - intros t2 Hl2 Heq Hp. cbn [safe fst]. exists st. split; [done|]. pose proof (lookups_nonneg heap _ _ t i Hl).
    apply (opened_wf t t1 _ i st st'); try done; try by rewrite Heq.
    + intros j Hj. assert (Hj2 : pinned t2 j).
      { apply Hp. destruct Hj as [Hj|Hj]; [left; by rewrite Hlk1|right]. unfold has_handle in *. by rewrite Hh1. }
      destruct Hj2 as [Hj2|Hj2]; [left|by right]. cbn [set_lookups lookup_counts]. apply lookup_insert_is_Some'. by right.
    + apply loose_lookup_set; [by rewrite Heq in Hl2 |- *|lia|]. rewrite Heq. change (inodes_of (set_handles t1 _)) with (inodes_of t1). rewrite Hi1, lookup_insert_eq. by eexists.
Qed.
(** ** New names *)

(** The counts of an inode that gains a name, and the sequence of the root *)
Lemma named_spec {B} lc pm t i b n (k : Tree → presult B) P : loose lc pm t → is_Some (inodes_of t !! i) → 0 ≤ pm i < u32_max → seq_of t ROOT_INODE = Some n → n + 1 ≤ u64_max →
  (∀ t', loose lc (<[i := pm i + one b]> pm) t' → quiet t t' → safe (k t') P) →
  safe (t1 ← adjust_policy_name_matches t i b true; t2 ← install_root_mutation_sequence t1 (n + 1); k t2) P.
Proof.
  intros Hl Hi Hpm Hseq Hn Hk. destruct (adjust_spec heap lc pm t i b true Hl Hi) as (t1&->&Hl1&Hq1&Hs1&_); [intros _; lia|done|]. rewrite Ok_bind.
  destruct (install_root_spec heap _ _ t1 n Hl1) as (t2&->&Hl2&Hq2&_); [by rewrite Hs1|lia|]. rewrite Ok_bind. apply Hk; [done|by etrans].
Qed.
Lemma quiet_pinned t t' j : quiet t t' → pinned t j → pinned t' j.
Proof. intros Hq [Hj|Hj]; [left; by rewrite (qu_lookups _ _ _ Hq)|right; by rewrite (quiet_has_handle _ _ _ _ Hq)]. Qed.
(** The states of a request that adds a name for an inode that is no directory *)
Lemma add_name_exact t t' E i key lc pm : loose lc pm t → tree_ok E (inodes_of t) → entries t = <[key := i]> E → E !! key = None → is_dir (inodes_of t) i = false → quiet t t' →
  (∀ j, is_Some (inodes_of t !! j) → lc j = expected E (inodes_of t) j + one (i =? j) ∧ pm j = matching E j) → loose lc (<[i := pm i + one (name_matches key.2)]> pm) t' → exact t'.
Proof.
  intros Hl Ht He Hk Hd Hq Hc Hl'. eapply loose_ext; [done|]. intros j Hj%(quiet_is_Some heap t); [|done]. rewrite (qu_entries _ _ _ Hq), (quiet_expected heap t t'), He by done.
  destruct (Hc j Hj) as [-> Hpm]. rewrite expected_insert_file, matching_insert by done. split; [done|]. destruct (decide (j = i)) as [->|Hne].
  - rewrite fn_lookup_insert, Hpm, Z.eqb_refl. done.
  - rewrite fn_lookup_insert_ne, (proj2 (Z.eqb_neq i j)), Hpm by done. cbn [andb one]. lia.
Qed.
Lemma link_spec t now context i p name : tree_wf t → linked t p → (∀ st, inodes_of t !! i = Some st → 0 < link_count st) →
  safe (link maximum_name_bytes t now context i p name) (λ r, becomes t (<[(p, name) := i]> (entries t)) r.1).
Proof.
  intros Hw Hlink Hpos. pose proof (tw_loose _ _ Hw) as Hl. unfold link. apply safe_component, safe_directory. intros Hp. specialize (Hlink Hp). apply safe_mutable. intros _.
  apply safe_absent. intros Hnone. apply safe_ok_or. intros st Hst. apply safe_reject. intros Hd%bool_decide_eq_false. do 3 (apply safe_reject; intros _).
  eapply safe_root; [done|]. intros n Hseq Hn. apply safe_add. intros Hq. apply safe_add. intros Hlinks.
  pose proof (loose_data _ _ _ _ _ _ Hl Hst) as [Hf Hc Hs]. specialize (Hpos st Hst). set (x := set_ctime _ now).
  destruct (advance_data_spec heap x (inode_sequence st)) as (f&->&Hv&Hr&Hf'&Hc'&Hs'); [done|done|intros Hk; by rewrite Hs|done|]. rewrite Ok_bind. cbv zeta.
  set (st' := set_file x f). assert (Hid : is_dir (inodes_of t) i = false) by (unfold is_dir; rewrite Hst; by apply bool_decide_false).
  pose proof (lo_inode _ _ _ _ Hl i st Hst) as [O1 O2 O3 O4 O5]. pose proof (lo_tree _ _ _ _ Hl) as Ht.
  assert (Hroot : i ≠ ROOT_INODE) by (intros ->; by rewrite (to_root _ _ Ht) in Hid).
  assert (Hl1 : loose (<[i := link_count st + 1]> (expected (entries t) (inodes_of t))) (<[i := matching (entries t) i]> (matching (entries t))) (set_inode t i st')).
  { apply (loose_touch heap _ _ t i st); [done|done|done| | |]; [split; [done|done|intros Hk; symmetry; by apply Hs']|split; [done|done|cbn; lia|intros Hk; change (file st') with f; rewrite Hr; by apply O4|done]|].
    unfold inode_dirty. change (link_count st') with (link_count st + 1). by rewrite !(proj2 (Z.ltb_lt _ _)) by lia. }
  apply safe_insert_entry; [done|]. set (t1 := set_entries _ _). assert (Hdir : ∀ j, is_dir (inodes_of t1) j = is_dir (inodes_of t) j) by (intros j; by apply (is_dir_insert _ i st)).
  assert (Hi1 : inodes_of t1 = <[i := st']> (inodes_of t)) by done. assert (Ht1 : tree_ok (entries t) (inodes_of t1)) by apply (lo_tree _ _ _ _ Hl1).
  assert (Hx1 : ∀ j, expected (entries t) (inodes_of t1) j = expected (entries t) (inodes_of t) j) by (intros j; apply expected_ext; [intros ? ? _|]; apply Hdir).
  assert (Hl2 : loose (<[i := link_count st + 1]> (expected (entries t) (inodes_of t))) (<[i := matching (entries t) i]> (matching (entries t))) t1).
  { apply loose_entries; [done|]. change (inodes_of (set_inode t i st')) with (inodes_of t1). apply tree_ok_insert; [done|by rewrite Hdir|done|done|rewrite Hi1, lookup_insert_eq; by eexists|done|]. by rewrite Hdir, Hid. }
  pose proof (matching_bound (entries t) i). assert (Hex : expected (entries t) (inodes_of t) i = names (entries t) i) by (unfold expected; by rewrite Hid).
  eapply named_spec; [exact Hl2|rewrite Hi1, lookup_insert_eq; by eexists| | |done|].
  - rewrite insert_self by done. lia.
  - unfold seq_of in *. by rewrite Hi1, lookup_insert_ne.
  - intros t2 Hl3 Hqt. assert (He2 : exact t2).
    { apply (add_name_exact t1 t2 (entries t) i (p, name) _ _ Hl2); try done; [by rewrite Hdir|]. intros j _. rewrite (insert_self (matching (entries t))), Hx1 by done. split; [|done].
      destruct (decide (j = i)) as [->|]; [rewrite fn_lookup_insert, Z.eqb_refl; cbn [one]; lia|]. rewrite fn_lookup_insert_ne, (proj2 (Z.eqb_neq i j)) by done. cbn [one]. lia. }
    apply answer_spec; [|apply (quiet_is_Some heap t1); [done|]; rewrite Hi1, lookup_insert_eq; by eexists]. split; [|split; [by apply (qu_entries _ _ _ Hqt)|]].
    + apply (wf_grow heap t t2 i); [done|done|rewrite (qu_entries _ _ _ Hqt); by apply insert_subseteq|by intros j Hj; apply (quiet_pinned t1 t2 j Hqt)| |left; by eexists].
      intros j Hj Hs2. apply (quiet_is_Some heap t1 t2 j Hqt) in Hs2. by rewrite Hi1, lookup_insert_ne in Hs2.
    + transitivity t1; [|by apply quiet_kept]. split; [done|]. rewrite Hi1. intros j y [[<- <-]|[_ Hy]]%lookup_insert_Some _; [|by exists y].
      exists st. split; [done|]. by split.
Qed.
End Names.
End TreeNames.
