(* ===== verification/TreeCreates.v ===== *)
(** * Requests that create inodes

    symlink, mkdir and create keep the invariant of the tree and do not panic;
    the new inode has the number, the name and the attributes it should. *)
From S2P Require Export TreeNames.

Module TreeCreates.
Import SparseData SparseDataOps DirtyEpoch DirtyEpochOps VersionedFile VersionedFileOps FileCommit FileRefinement InodeMetadata InodeAttributes FileCatalog FileCapacity FileHandlers FileHandlersOps NamespaceTree TreeRequests TreeInvariant TreeSteps TreeRefs TreeNames.
Implicit Types (t : Tree) (st : InodeState) (i : Z).

Section Creates.
Context (heap : Z → option (CommittedFile * (Z → option byte))) `{Adm : Admission} `{!AdmissionLaws} `{Dom : Domains} `{Pol : NamePolicy} (maximum_name_bytes empty_id : Z).
Hypothesis empty_file : heap empty_id = Some (EmptyCommittedFile empty_id, λ _, None).
Abbreviation loose := (loose heap).
Abbreviation data_ok := (data_ok heap).
Abbreviation same_content := (same_content heap).
Abbreviation quiet := (quiet heap).
Abbreviation tree_wf := (tree_wf heap).
Abbreviation kept := (kept heap).
Abbreviation exact t := (loose (expected (entries t) (inodes_of t)) (matching (entries t)) t).
Abbreviation becomes := (becomes heap).

Lemma safe_record {B} lc pm t i (k : Tree → presult B) P : loose lc pm t → active_create_metadata_bytes t !! i = None → 0 < i < next_inode t →
  (∀ C, loose lc pm (set_creates t C) → safe (k (set_creates t C)) P) → safe (record_create t i ≫= k) P.
Proof.
  intros Hl Hc Hi Hk. unfold record_create. destruct try_reserve.
  - rewrite bool_decide_true by done. cbn [assert_true]. rewrite !Ok_bind. apply Hk. apply loose_creates; [done|]. intros j [<-|Hj]%lookup_insert_is_Some'; [done|].
    apply (lo_number _ _ _ _ Hl). by right.
  - rewrite Ok_bind. assert (Heq : t = set_creates t (active_create_metadata_bytes t)) by (by destruct t). rewrite Heq. apply Hk. by rewrite <-Heq.
Qed.
(** A tree [t1] that is [t] with the new inode [i], and a name and a lookup for it *)
Record planted t i (key : Z * bytes) st t1 : Prop := {
  pl_inodes : inodes_of t1 = <[i := st]> (inodes_of t);
  pl_entries : entries t1 = <[key := i]> (entries t);
  pl_lookups : lookup_counts t1 = <[i := 1]> (lookup_counts t);
  pl_pinned j : pinned t j → pinned t1 j;
  pl_next : next_inode t1 = next_inode t + 1;
}.
(** Where a name may be added *)
Record room t (key : Z * bytes) : Prop := {
  ro_dir : is_dir (inodes_of t) key.1 = true;
  ro_reach : reach (entries t) key.1;
  ro_free : entries t !! key = None;
}.
Lemma fresh_unnamed lc pm t i : loose lc pm t → next_inode t ≤ i → (∀ k, entries t !! k ≠ Some i) ∧ i ≠ ROOT_INODE.
Proof.
  intros Hl Hi. destruct (fresh_inode heap lc pm t i Hl Hi) as (Hn&_). pose proof (lo_tree _ _ _ _ Hl) as Ht. split.
  - intros k Hk. destruct (to_child _ _ Ht k i Hk) as [[x Hx] _]. congruence.
  - intros ->. pose proof (to_root _ _ Ht) as Hr. unfold is_dir in Hr. by rewrite Hn in Hr.
Qed.
Lemma fresh_counts t i st j : exact t → next_inode t ≤ i →
  expected (entries t) (<[i := st]> (inodes_of t)) j = (if decide (j = i) then 0 else expected (entries t) (inodes_of t) j) ∧ matching (entries t) i = 0 ∧ tree_ok (entries t) (<[i := st]> (inodes_of t)).
Proof.
  intros Hl Hi. destruct (fresh_inode heap _ _ t i Hl Hi) as (Hn&_). destruct (fresh_unnamed _ _ t i Hl Hi) as [Hun Hroot]. pose proof (lo_tree _ _ _ _ Hl) as Ht. split_and!.
  - case_decide as Hj; [subst; by apply expected_unnamed|by apply expected_fresh].
  - pose proof (matching_bound (entries t) i). rewrite (proj2 (names_zero (entries t) i) Hun) in *. lia.
  - assert (Hdir : ∀ x, x ≠ i → is_dir (<[i := st]> (inodes_of t)) x = is_dir (inodes_of t) x) by (intros x Hx; unfold is_dir; by rewrite lookup_insert_ne).
    assert (Hold : ∀ x, is_dir (inodes_of t) x = true → x ≠ i) by (intros x Hx ->; unfold is_dir in Hx; by rewrite Hn in Hx).
    destruct Ht as [T1 T2 T3 T4 T5]. split; [by rewrite Hdir| | | |done].
    + intros p n x Hx. rewrite Hdir; [by eapply T2|]. by eapply Hold, T2.
    + intros k x Hx. destruct (T3 k x Hx). split; [apply lookup_insert_is_Some'; by right|done].
    + intros k1 k2 x Hx H1 H2. apply (T4 k1 k2 x); [|done|done]. rewrite Hdir in Hx; [done|]. intros ->. by destruct (Hun k1).
Qed.
(** The name of the new inode *)
Lemma plant_spec {B} t t0 i key st (k : Tree → presult B) P : exact t → i = next_inode t → room t key → data_ok st → inode_ok (link_count st) 0 st → inode_dirty i st = 0 →
  loose (expected (entries t) (inodes_of t)) (matching (entries t)) t0 → inodes_of t0 = inodes_of t → entries t0 = entries t → lookup_counts t0 = lookup_counts t → handles_of t0 = handles_of t →
  next_inode t0 = next_inode t + 1 →
  (∀ t1, loose (<[i := link_count st]> (expected (entries t) (inodes_of t))) (<[i := 0]> (matching (entries t))) t1 → planted t i key st t1 → handles_of t1 = handles_of t →
     next_handle t1 = next_handle t0 → active_create_metadata_bytes t1 = active_create_metadata_bytes t0 → seq_of t1 ROOT_INODE = seq_of t ROOT_INODE → safe (k t1) P) →
  safe (x ← insert_inode t0 i st; y ← insert_entry x key i None; k y) P.
Proof.
  intros Hl Hi Hroom Hd Hok Hz Hl0 I0 E0 L0 H0 N0 Hk. destruct (fresh_inode heap _ _ t i Hl ltac:(lia)) as (Hn&Hnl&_). destruct (fresh_unnamed _ _ t i Hl ltac:(lia)) as [Hun Hroot].
  destruct (lo_next _ _ _ _ Hl) as [Hni _]. destruct (fresh_counts t i st i Hl ltac:(lia)) as (_&Hm&Ht). pose proof (io_matches _ _ _ Hok) as Hpm.
  destruct Hroom as [Hdir Hreach Hfree]. eapply insert_inode_spec; [exact Hl0|by rewrite I0|done|lia|done|by rewrite Hpm|done|]. intros x Hlx ->. apply safe_insert_entry; [by cbn; rewrite E0|].
  set (t1 := set_entries _ _). assert (Hi1 : inodes_of t1 = <[i := st]> (inodes_of t)) by (by rewrite <-I0). assert (He1 : entries t1 = <[key := i]> (entries t)) by (by rewrite <-E0).
  apply Hk; [|split; [done|done|by rewrite <-L0| |done]|done|done|done|unfold seq_of; by rewrite Hi1, lookup_insert_ne].
  - rewrite Hpm in Hlx. apply loose_entries; [done|]. change (inodes_of (set_lookups (set_inode t0 i st) _)) with (<[i := st]> (inodes_of t0)). cbn [set_lookups entries set_inode set_inodes set_space].
    rewrite I0, E0. destruct key as [p n]. cbn [fst] in *. apply tree_ok_insert; [done| |done|done|rewrite lookup_insert_eq; by eexists|done|done].
    unfold is_dir. rewrite lookup_insert_ne; [done|]. intros ->. unfold is_dir in Hdir. by rewrite Hn in Hdir.
  - intros j [Hj|Hj]; [left|right; unfold has_handle in *; by rewrite <-H0 in Hj]. cbn [t1 set_entries set_lookups lookup_counts]. rewrite L0. apply lookup_insert_is_Some'. by right.
Qed.
(** The end of a request that planted an inode *)
Lemma planted_becomes t t1 t2 i key st : tree_wf t → i = next_inode t → entries t !! key = None → planted t i key st t1 → quiet t1 t2 → exact t2 → becomes t (<[key := i]> (entries t)) t2.
Proof.
  intros Hw Hi Hfree Hpl Hq Hl. split; [|split; [by rewrite (qu_entries _ _ _ Hq), (pl_entries _ _ _ _ _ Hpl)|]].
  - apply (wf_grow heap t t2 i); [done|done| | | |right].
    + rewrite (qu_entries _ _ _ Hq), (pl_entries _ _ _ _ _ Hpl). by apply insert_subseteq.
    + intros j Hj. eapply quiet_pinned; [done|]. by apply Hpl.
    + intros j Hj Hs%(quiet_is_Some heap t1 t2 j Hq). by rewrite (pl_inodes _ _ _ _ _ Hpl), lookup_insert_ne in Hs.
    + eapply quiet_pinned; [done|]. left. rewrite (pl_lookups _ _ _ _ _ Hpl), lookup_insert_eq. by eexists.
  - transitivity t1; [|by apply quiet_kept]. split; [rewrite (pl_next _ _ _ _ _ Hpl); lia|]. intros j x. rewrite (pl_inodes _ _ _ _ _ Hpl). intros [[<- <-]|[_ Hx]]%lookup_insert_Some Hj; [lia|].
    by exists x.
Qed.
(** The claim of a new inode *)
Lemma record_spec {B} t t2 E i (k : Tree → presult B) P : tree_wf t → becomes t E t2 → active_create_metadata_bytes t2 = active_create_metadata_bytes t → next_inode t2 = next_inode t + 1 →
  i = next_inode t → (∀ x, becomes t E x → safe (k x) P) → safe (record_create t2 i ≫= k) P.
Proof.
  intros Hw (Hw2&He&Hk) Hc Hn Hi Hcont. pose proof (tw_loose _ _ Hw) as Hl. destruct (fresh_inode heap _ _ t i Hl ltac:(lia)) as (_&_&Hcn). destruct (lo_next _ _ _ _ Hl).
  eapply safe_record; [apply (tw_loose _ _ Hw2)|by rewrite Hc|lia|]. intros C HC. apply Hcont. split; [|split; [done|]].
  - split; [done|]. apply (tw_pinned _ _ Hw2).
  - transitivity t2; [done|by apply kept_inodes].
Qed.
(** ** Files *)
Lemma planted_file t t1 t2 i key st : exact t → i = next_inode t → entries t !! key = None → planted t i key st t1 → kind st ≠ Directory →
  loose (<[i := 1]> (expected (entries t) (inodes_of t))) (<[i := 0]> (matching (entries t))) t1 → quiet t1 t2 →
  loose (<[i := 1]> (expected (entries t) (inodes_of t))) (<[i := 0 + one (name_matches key.2)]> (<[i := 0]> (matching (entries t)))) t2 → exact t2.
Proof.
  intros Hl Hi Hfree [I1 E1 _ _ _] Hk Hl1 Hq Hl2. assert (Hc : ∀ j, _) by exact (λ j, fresh_counts t i st j Hl ltac:(lia)). destruct (Hc i) as (_&Hm&Ht).
  apply (add_name_exact heap t1 t2 (entries t) i key _ _ Hl1); [by rewrite I1|done|done|rewrite I1; unfold is_dir; by rewrite lookup_insert_eq, bool_decide_false|done| |by rewrite fn_lookup_insert].
  intros j _. rewrite I1. destruct (Hc j) as (->&_). case_decide as Hj.
  - subst j. by rewrite !fn_lookup_insert, Z.eqb_refl, Hm.
  - rewrite !fn_lookup_insert_ne, (proj2 (Z.eqb_neq i j)) by congruence. cbn [one]. split; [lia|done].
Qed.
Lemma symlink_spec t now context p name target : tree_wf t → linked t p →
  safe (symlink maximum_name_bytes empty_id t now context p name target) (λ r, becomes t (<[(p, name) := next_inode t]> (entries t)) r.1).
Proof.
  intros Hw Hlink. pose proof (tw_loose _ _ Hw) as Hl. unfold symlink. apply safe_component, safe_reject. intros _. apply safe_directory. intros Hp. apply safe_mutable. intros _.
  apply safe_absent. intros Hfree. eapply safe_root; [done|]. intros n Hseq Hn. apply safe_admit; [apply capacity_answers|]. apply allocate_inode_spec. intros Hmax. cbn [fst snd]. cbv zeta.
  destruct (new_inode_ok heap empty_id Symlink context 0x1FF 1 default_metadata (Some target) now empty_file (default_wf _) ltac:(done)) as (Hd&Hok&Hz).
  destruct (lo_next _ _ _ _ Hl) as [Hni _]. eapply (plant_spec t); [done|done|split; [done|by apply Hlink|done]|done|done|apply Hz|apply loose_next_inode; [done|lia]|done..|].
  intros t1 Hl1 Hpl _ _ Hc1 Hs1. eapply named_spec; [exact Hl1|rewrite (pl_inodes _ _ _ _ _ Hpl), lookup_insert_eq; by eexists|by rewrite fn_lookup_insert|by rewrite Hs1|done|].
  intros t2 Hl2 Hq. rewrite fn_lookup_insert in Hl2. assert (Hx : exact t2) by (by eapply (planted_file t t1 t2)).
  eapply record_spec; [done|by eapply (planted_becomes t t1 t2)|by rewrite (qu_creates _ _ _ Hq), Hc1|by rewrite (proj1 (qu_next _ _ _ Hq)), (pl_next _ _ _ _ _ Hpl)|done|done].
Qed.
Lemma create_new_spec t now request : tree_wf t → room t (create_parent request, create_name request) →
  safe (create_new_file empty_id t now request) (λ r, match r.2 with
    | Ok created => becomes t (<[(create_parent request, create_name request) := next_inode t]> (entries t)) r.1 ∧ attr_inode created.1 = next_inode t ∧
        active_create_metadata_bytes r.1 = active_create_metadata_bytes t ∧ next_inode r.1 = next_inode t + 1
    | _ => becomes t (entries t) r.1
    end).
Proof.
  intros Hw Hroom. pose proof (tw_loose _ _ Hw) as Hl. unfold create_new_file. eapply safe_root; [done|]. intros n Hseq Hn.
  destruct (is_dir_Some _ _ (ro_dir _ _ Hroom)) as (parent&Hpar&Hpk). eapply safe_expect; [done|]. pose proof (io_metadata _ _ _ (lo_inode _ _ _ _ Hl _ _ Hpar)) as Hmd. rewrite Hpk in Hmd.
  destruct (for_child_spec (metadata parent) Regular (create_mode request) (create_umask request) Hmd) as (m&md&->&Hmd'&_). rewrite Ok_bind. apply allocate_inode_spec. intros Hmax.
  cbn [fst snd]. destruct (lo_next _ _ _ _ Hl) as [Hni Hnh]. set (t0 := set_next_inode t (next_inode t + 1)).
  assert (Hl0 : loose (expected (entries t) (inodes_of t)) (matching (entries t)) t0) by (apply loose_next_inode; [done|lia]). unfold allocate_handle.
  destruct (next_handle t0 =? 0); [|destruct (Z.leb_spec (next_handle t0 + 1) u64_max) as [Hhmax|Hhmax]; [|unfold checked_add; rewrite (proj2 (Z.leb_gt _ _)) by done]].
  1,3: by (split; [split; [done|apply (tw_pinned _ _ Hw)]|split; [done|apply kept_inodes; [cbn; lia|done]]]).
  cbn [reject_if]. rewrite Ok_bind, checked_add_ok by done. cbn [ok_or fst snd]. rewrite Ok_bind. cbn [fst snd]. cbv zeta. destruct (new_inode_ok heap empty_id Regular (create_context request) m 1 md None now empty_file Hmd' ltac:(done)) as (Hd&Hok&Hz).
  eapply (plant_spec t); [done|done|done|done|done|apply Hz|apply loose_next_handle; [exact Hl0|cbn [t0 set_next_inode next_handle] in *; lia]|done..|]. intros t1 Hl1 Hpl Hh1 Hnh1 Hc1 Hs1.
  pose proof (ro_free _ _ Hroom) as Hfree. pose proof (pl_inodes _ _ _ _ _ Hpl) as Hi1.
  eapply safe_insert_handle; [exact Hl1|rewrite Hh1; by apply (fresh_handle heap _ _ t (next_handle t) Hl)|rewrite Hnh1; cbn [t0 set_next_handle set_next_inode next_handle]; lia|by rewrite Hi1, lookup_insert_eq|done|]. intros th Hlh Heqh Hph.
  assert (Hplh : planted t (next_inode t) (create_parent request, create_name request) (new_inode empty_id Regular (create_context request) m 1 md None now) th).
  { destruct Hpl as [P1 P2 P3 P4 P5]. rewrite Heqh in *. split; [done|done|done| |done]. intros j Hj. by apply Hph, P4. }
  destruct (install_root_spec heap _ _ th n Hlh) as (t2&->&Hl2&Hq2&_); [rewrite Heqh; by rewrite <-Hseq, <-Hs1|lia|]. rewrite Ok_bind.
  destruct (adjust_spec heap _ _ t2 (next_inode t) (name_matches (create_name request)) true Hl2) as (t3&->&Hl3&Hq3&_);
    [apply (quiet_is_Some heap th); [done|]; rewrite (pl_inodes _ _ _ _ _ Hplh), lookup_insert_eq; by eexists|rewrite fn_lookup_insert; by split|done|].
  rewrite Ok_bind, fn_lookup_insert in *. cbn [safe fst snd attributes attr_inode]. assert (Hq : quiet th t3) by (by etrans). assert (Hx : exact t3) by (by eapply (planted_file t th t3)).
  split; [by eapply (planted_becomes t th t3)|]. split; [done|]. rewrite (qu_creates _ _ _ Hq), (proj1 (qu_next _ _ _ Hq)), (pl_next _ _ _ _ _ Hplh). rewrite Heqh. split; [exact Hc1|done].
Qed.
Lemma create_spec t now request : tree_wf t → linked t (create_parent request) → let key := (create_parent request, create_name request) in
  safe (create maximum_name_bytes empty_id t now request) (λ r, match entries t !! key, r.2 with
    | Some i, _ => ∃ st, inodes_of t !! i = Some st ∧ opened heap t i st (truncate request) r.1
    | None, Ok _ => becomes t (<[key := next_inode t]> (entries t)) r.1
    | None, _ => becomes t (entries t) r.1
    end).
Proof.
  intros Hw Hlink key. unfold create. apply safe_component, safe_directory. intros Hp. fold key. destruct (entries t !! key) as [i|] eqn:He.
  - apply safe_reject. intros _. apply safe_bind. eapply safe_mono; [by eapply open_existing_spec|done].
  - apply safe_mutable. intros _. apply safe_admit; [apply capacity_answers|]. apply safe_bind. eapply safe_mono; [apply create_new_spec; [done|]; split; [done|by apply Hlink|done]|].
    intros [x [created|e|]] Hr; [|done|done]. destruct Hr as (Hb&Hi&Hc&Hn). cbn [fst snd] in *. eapply record_spec; [done|done|done|done|by rewrite Hi|done].
Qed.
(** ** Directories *)

(** A parent whose links and sequence change *)
Lemma parent_spec lc pm t p st links q : loose lc pm t → inodes_of t !! p = Some st → kind st = Directory → 0 ≤ links ≤ u32_max →
  let t' := set_inode t p (set_links st links q) in
  loose (<[p := links]> lc) pm t' ∧ quiet t t' ∧ (∀ j, seq_of t' j = if decide (p = j) then Some q else seq_of t j) ∧ ∀ j, j ≠ p → inodes_of t' !! j = inodes_of t !! j.
Proof.
  intros Hl Hst Hk Hlinks t'. pose proof (lo_inode _ _ _ _ Hl p st Hst) as [O1 O2 O3 O4 O5]. split_and!.
  - apply (loose_ext heap (<[p := links]> lc) (<[p := pm p]> pm)); [|intros j _; by rewrite (insert_self pm)].
    apply (loose_touch heap lc pm t p st); [done|done|done| |by split|].
    + destruct (loose_data _ _ _ _ _ _ Hl Hst). split; [done|done|]. cbn [set_links kind]. by rewrite Hk.
    + unfold inode_dirty. cbn [set_links link_count file]. rewrite O4 by (by rewrite Hk). by destruct (0 <? links), (0 <? link_count st).
  - apply (quiet_update heap t p st _ (dirty_payload (space t)) Hst). by split.
  - intros j. apply seq_of_set.
  - intros j Hj. change (inodes_of t') with (<[p := set_links st links q]> (inodes_of t)). by rewrite lookup_insert_ne.
Qed.
(** The root counts every change; it may be the parent itself *)
Lemma announce_spec lc pm t p st links q n : loose lc pm t → inodes_of t !! p = Some st → kind st = Directory → 0 ≤ links ≤ u32_max → seq_of t ROOT_INODE = Some n → n + 1 ≤ u64_max →
  (p = ROOT_INODE → q = n + 1) → let t1 := set_inode t p (set_links st links q) in
  ∃ t2, (if decide (p = ROOT_INODE) then Ok t1 else install_root_mutation_sequence t1 (n + 1)) = Ok t2 ∧ loose (<[p := links]> lc) pm t2 ∧ quiet t t2 ∧
    ∀ j, j ≠ p → j ≠ ROOT_INODE → inodes_of t2 !! j = inodes_of t !! j.
Proof.
  intros Hl Hst Hk Hlinks Hs Hn Hq t1. destruct (parent_spec lc pm t p st links q Hl Hst Hk Hlinks) as (Hl1&Hq1&Hs1&Ho1). fold t1 in Hl1, Hq1, Hs1, Ho1. case_decide as Hr.
  - exists t1. split_and!; [done|done|done|]. intros j Hj _. by apply Ho1.
  - destruct (install_root_spec heap _ _ t1 n Hl1) as (t2&->&Hl2&Hq2&Ho2); [rewrite Hs1; by rewrite decide_False|lia|]. exists t2. split_and!; [done|done|by etrans|].
    intros j Hj Hjr. rewrite Ho2 by done. by apply Ho1.
Qed.
Lemma planted_dir t t1 i key st j : exact t → i = next_inode t → room t key → planted t i key st t1 → kind st = Directory →
  expected (entries t1) (inodes_of t1) j = (if decide (j = i) then 2 else expected (entries t) (inodes_of t) j + one (key.1 =? j)) ∧
  matching (entries t1) j = (if decide (j = i) then one (name_matches key.2) else matching (entries t) j).
Proof.
  intros Hl Hi [Hd Hr Hf] [I1 E1 _ _ _] Hk. destruct (fresh_counts t i st j Hl ltac:(lia)) as (Hx&Hm&Ht). destruct (fresh_unnamed _ _ t i Hl ltac:(lia)) as [Hun Hroot].
  destruct (fresh_inode heap _ _ t i Hl ltac:(lia)) as (Hn&_). destruct key as [p n]. cbn [fst snd] in *. assert (Hpi : p ≠ i) by (intros ->; unfold is_dir in Hd; by rewrite Hn in Hd).
  rewrite I1, E1, matching_insert by done. cbn [snd]. split.
  - rewrite expected_insert_dir, Hx; [| |unfold is_dir; rewrite lookup_insert_eq; by apply bool_decide_true|done|done| |unfold is_dir; by rewrite lookup_insert_ne|done|done|done].
    + destruct (Z.eqb_spec j i) as [->|]; [by rewrite decide_True|by rewrite !decide_False].
    + done.
    + apply (file_childless _ (inodes_of t) i (lo_tree _ _ _ _ Hl)). unfold is_dir. by rewrite Hn.
  - case_decide as Hj; [subst j; by rewrite Hm, Z.eqb_refl|]. rewrite (proj2 (Z.eqb_neq i j)) by congruence. cbn [andb one]. lia.
Qed.
Lemma mkdir_spec t now context p name m umask : tree_wf t → linked t p →
  safe (mkdir maximum_name_bytes empty_id t now context p name m umask) (λ r, becomes t (<[(p, name) := next_inode t]> (entries t)) r.1).
Proof.
  intros Hw Hlink. pose proof (tw_loose _ _ Hw) as Hl. unfold mkdir. apply safe_component, safe_directory. intros Hp. apply safe_absent. intros Hfree. apply safe_mutable. intros _.
  eapply safe_root; [done|]. intros n Hseq Hn. assert (Hroom : room t (p, name)) by (split; [done|by apply Hlink|done]).
  destruct (is_dir_Some _ _ Hp) as (parent&Hpar&Hpk). eapply safe_expect; [done|]. pose proof (lo_inode _ _ _ _ Hl _ _ Hpar) as Hpok. pose proof (io_u32 _ _ _ Hpok) as Hu.
  apply safe_add. intros Hlinks. apply safe_bind. eapply (safe_mono _ (λ q, p = ROOT_INODE → q = n + 1)).
  { case_decide; [by cbn [safe]|]. unfold checked_add. destruct (_ <=? _); [|done]. by intros ?. }
  intros q Hq. pose proof (io_metadata _ _ _ Hpok) as Hmd. rewrite Hpk in Hmd. destruct (for_child_spec (metadata parent) Directory m umask Hmd) as (cm&md&->&Hmd'&_). rewrite Ok_bind.
  apply safe_admit; [apply capacity_answers|]. apply allocate_inode_spec. intros Hmax. cbn [fst snd]. cbv zeta.
  destruct (new_inode_ok heap empty_id Directory context cm 2 md None now empty_file Hmd' ltac:(done)) as (Hd&Hok&Hz). destruct (lo_next _ _ _ _ Hl) as [Hni _].
  eapply (plant_spec t); [done|done|done|done|done|apply Hz|apply loose_next_inode; [done|lia]|done..|]. intros t1 Hl1 Hpl _ _ Hc1 Hs1. pose proof (pl_inodes _ _ _ _ _ Hpl) as Hi1.
  destruct (adjust_spec heap _ _ t1 (next_inode t) (name_matches name) true Hl1) as (t2&->&Hl2&Hq2&Hs2&Ho2); [rewrite Hi1, lookup_insert_eq; by eexists|rewrite fn_lookup_insert; by split|done|].
  rewrite Ok_bind, fn_lookup_insert in *. destruct (fresh_inode heap _ _ t (next_inode t) Hl ltac:(lia)) as (Hnone&_&_). assert (Hpi : p ≠ next_inode t) by congruence.
  assert (Hpar2 : inodes_of t2 !! p = Some parent) by (by rewrite Ho2, Hi1, lookup_insert_ne).
  destruct (announce_spec _ _ t2 p parent (link_count parent + 1) q n Hl2 Hpar2 Hpk ltac:(lia) ltac:(by rewrite Hs2, Hs1) Hn Hq) as (t3&->&Hl3&Hq3&_). rewrite Ok_bind.
  assert (Hq13 : quiet t1 t3) by (by etrans). assert (Hx : exact t3).
  { eapply loose_ext; [exact Hl3|]. intros j _. rewrite (qu_entries _ _ _ Hq13), (quiet_expected heap t1 t3) by done.
    destruct (planted_dir t t1 _ (p, name) _ j Hl eq_refl Hroom Hpl eq_refl) as [-> ->]. cbn [fst snd]. case_decide as Hj.
    - subst j. rewrite fn_lookup_insert_ne, !fn_lookup_insert by done. done.
    - split; [|by rewrite !fn_lookup_insert_ne by congruence]. destruct (Z.eqb_spec p j) as [<-|Hpj]; cbn [one].
      + by rewrite fn_lookup_insert, (io_links _ _ _ Hpok).
      + rewrite fn_lookup_insert_ne, fn_lookup_insert_ne by congruence. lia. }
  eapply record_spec; [done|by eapply (planted_becomes t t1 t3)|by rewrite (qu_creates _ _ _ Hq13), Hc1|by rewrite (proj1 (qu_next _ _ _ Hq13)), (pl_next _ _ _ _ _ Hpl)|done|done].
Qed.
End Creates.
End TreeCreates.
