(* ===== verification/TreeRename.v ===== *)
(** * Removing and moving names

    Two modules: [unlink] and [rmdir], and [rename] of files and of directories. *)
From S2P Require Export TreeCreates.

(** ** Requests that remove names

    unlink and rmdir keep the invariant of the tree and do not panic; an inode
    that loses its last name stays while a lookup or a handle holds it. *)
Module TreeRemovals.
Import SparseData SparseDataOps DirtyEpoch DirtyEpochOps VersionedFile VersionedFileOps FileCommit FileRefinement InodeMetadata InodeAttributes FileCatalog FileCapacity FileHandlers FileHandlersOps NamespaceTree TreeRequests TreeInvariant TreeSteps TreeRefs TreeNames TreeCreates.
Implicit Types (t : Tree) (st : InodeState) (i : Z).

Section Removals.
Context (heap : Z → option (CommittedFile * (Z → option byte))) `{Adm : Admission} `{!AdmissionLaws} `{Dom : Domains} `{Pol : NamePolicy} (maximum_name_bytes : Z).
Abbreviation loose := (loose heap).
Abbreviation same_content := (same_content heap).
Abbreviation quiet := (quiet heap).
Abbreviation tree_wf := (tree_wf heap).
Abbreviation kept := (kept heap).
Abbreviation exact t := (loose (expected (entries t) (inodes_of t)) (matching (entries t)) t).
Abbreviation becomes := (becomes heap).

Lemma drop_name_spec {B} lc pm t now i st (k : Tree * bool → presult B) P : loose lc pm t → inodes_of t !! i = Some st → kind st ≠ Directory → 0 < link_count st →
  (∀ t', loose (<[i := link_count st - 1]> lc) pm t' → quiet t t' → (∀ j, j ≠ i → inodes_of t' !! j = inodes_of t !! j) → safe (k (t', link_count st =? 1)) P) →
  safe (drop_name t now i st ≫= k) P.
Proof.
  intros Hl Hst Hk Hpos Hcont. pose proof (loose_data _ _ _ _ _ _ Hl Hst) as [Hf Hc Hs]. pose proof (lo_inode _ _ _ _ Hl i st Hst) as [O1 O2 O3 O4 O5]. unfold drop_name.
  apply safe_bind, safe_add. intros Hq. cbv zeta. destruct (advance_data_spec heap st (inode_sequence st) Hf Hc) as (f&->&Hv&Hr&Hf'&Hc'&Hs'); [intros Hreg; by rewrite Hs|done|].
  rewrite Ok_bind. unfold checked_sub. rewrite (proj2 (Z.leb_le _ _)) by lia. cbn [expect]. rewrite Ok_bind. set (st' := set_ctime _ now).
  pose proof (inode_dirty_le heap (space t) i st (lo_space _ _ _ _ Hl) Hst) as Hdl. unfold inode_dirty in Hdl. rewrite (proj2 (Z.ltb_lt _ _) Hpos) in Hdl.
  assert (Hd : (if (link_count st =? 1) && bool_decide (kind st = Regular) then dirty_replace (dirty_payload (space t)) (resident_payload_bytes (file st)) 0 else Ok (dirty_payload (space t)))
    = (Ok (dirty_payload (space t) - inode_dirty i st + inode_dirty i st') : presult Z)).
  { unfold inode_dirty. change (link_count st') with (link_count st - 1). change (file st') with f. rewrite Hr, (proj2 (Z.ltb_lt _ _) Hpos).
    destruct (Z.eqb_spec (link_count st) 1) as [H1|H1]; cbn [andb]; [|rewrite (proj2 (Z.ltb_lt _ _)) by lia; f_equal; lia]. rewrite H1. change (0 <? 1 - 1) with false. cbv iota.
    destruct (bool_decide_reflect (kind st = Regular)) as [Hreg|Hreg]; [apply dirty_shrink; lia|]. rewrite O4 by done. f_equal. lia. }
  rewrite Hd, Ok_bind. cbn [safe]. apply Hcont.
  - apply (loose_ext heap (<[i := link_count st - 1]> lc) (<[i := pm i]> pm)); [|intros j _; by rewrite (insert_self pm)].
    apply (loose_update heap lc pm t i st); [done|done|done| | |done].
    + split; [done|done|]. intros Hreg. symmetry. by apply Hs'.
    + split; [done|done|cbn; lia|intros Hreg; change (file st') with f; rewrite Hr; by apply O4|done].
  - apply (quiet_update heap t i st st' _ Hst). by split.
  - intros j Hj. change (inodes_of (set_dirty _ _)) with (<[i := st']> (inodes_of t)). by rewrite lookup_insert_ne.
Qed.
Lemma dir_no_handle lc pm t i : loose lc pm t → is_dir (inodes_of t) i = true → has_handle t i = false.
Proof.
  intros Hl (st&Hst&Hk)%is_dir_Some. apply not_true_iff_false. intros (h&o&Ho&Hi)%has_handle_spec. destruct (nw_handles _ _ (lo_space _ _ _ _ Hl) h o Ho) as (x&Hx&Hreg).
  unfold inodes_of in Hst. rewrite Hi in Hx. congruence.
Qed.
Lemma safe_remove_entry {B} t key i (k : Tree → presult B) P : entries t !! key = Some i → safe (k (set_entries t (delete key (entries t)))) P → safe (remove_entry t key i ≫= k) P.
Proof. intros He Hk. unfold remove_entry. by rewrite bool_decide_true. Qed.
(** The end of a request that removed a name of [i] *)
Lemma retire_spec t t1 i st E : tree_wf t → exact t1 → entries t1 = E → kept t t1 → (∀ k j, j ≠ i → entries t !! k = Some j → ∃ k', E !! k' = Some j) → (∀ j, j ≠ i → pinned t j → pinned t1 j) →
  (∀ j, j ≠ i → is_Some (inodes_of t1 !! j) → is_Some (inodes_of t !! j)) → inodes_of t1 !! i = Some st → ∃ t2, drop_orphan t1 i (link_count st =? 0) = Ok t2 ∧ becomes t E t2.
Proof.
  intros Hw Hl He Hk Hnames Hp Hi Hst. destruct (drop_orphan_spec heap t1 i st Hl Hst) as (t2&->&Hw2&He2&Hk2).
  - apply (pinned_others heap t t1 i Hw Hl); [by rewrite He|done|done].
  - exists t2. split; [done|]. split; [done|]. split; [congruence|]. by etrans.
Qed.
Lemma unlink_spec t now p name : tree_wf t → safe (unlink maximum_name_bytes t now p name) (becomes t (delete (p, name) (entries t))).
Proof.
  intros Hw. pose proof (tw_loose _ _ Hw) as Hl. unfold unlink. apply safe_component, safe_directory. intros _. apply safe_mutable. intros _. eapply safe_root; [done|]. intros n Hseq Hn.
  apply safe_ok_or. intros i Hi. destruct (entry_state heap t _ i Hl Hi) as (st&Hst&Hpos&Hroot). eapply safe_expect; [done|]. apply safe_reject. intros Hd%bool_decide_eq_false.
  apply safe_reject. intros _. eapply drop_name_spec; [done|done|done|done|]. intros t1 Hl1 Hq1 Ho1. cbn [fst snd]. pose proof (lo_tree _ _ _ _ Hl) as Ht.
  assert (Hid : is_dir (inodes_of t) i = false) by (unfold is_dir; rewrite Hst; by apply bool_decide_false).
  apply safe_remove_entry; [by rewrite (qu_entries _ _ _ Hq1)|]. rewrite (qu_entries _ _ _ Hq1). set (E := delete (p, name) (entries t)). set (t2 := set_entries t1 E).
  assert (Ht2 : tree_ok E (inodes_of t2)) by (apply (quiet_tree_ok heap t t1); [done|]; apply (tree_ok_delete _ _ _ i Ht Hi); by apply (file_childless _ (inodes_of t))).
  assert (Hl2 := loose_entries heap _ _ t1 E Hl1 Ht2). fold t2 in Hl2. assert (Hi1 : is_Some (inodes_of t2 !! i)) by (apply (quiet_is_Some heap t t1); [done|by eexists]).
  destruct (adjust_spec heap _ _ t2 i (name_matches name) false Hl2 Hi1) as (t3&->&Hl3&Hq3&Hs3&_); [done| |].
  { intros _. destruct (name_matches name) eqn:Hm; cbn [one]; [by eapply matching_pos|]. apply matching_bound. }
  rewrite Ok_bind. destruct (install_root_spec heap _ _ t3 n Hl3) as (t4&->&Hl4&Hq4&_); [|lia|].
  { rewrite Hs3. unfold seq_of in *. change (inodes_of t2) with (inodes_of t1). by rewrite Ho1. }
  rewrite Ok_bind. assert (Hq24 : quiet t2 t4) by (by etrans). cbv zeta. set (t5 := if _ : bool then _ else t4).
  assert (H5 : inodes_of t5 = inodes_of t4 ∧ entries t5 = entries t4 ∧ lookup_counts t5 = lookup_counts t4 ∧ handles_of t5 = handles_of t4 ∧ next_inode t5 = next_inode t4) by (unfold t5; by destruct (_ =? 1)).
  destruct H5 as (I5&E5&L5&H5&N5). assert (He5 : entries t5 = E) by (by rewrite E5, (qu_entries _ _ _ Hq24)).
  assert (Hx : exact t5).
  { apply (loose_ext heap (<[i := link_count st - 1]> (expected (entries t) (inodes_of t))) (<[i := matching (entries t) i - one (name_matches name)]> (matching (entries t)))).
    - unfold t5. destruct (_ =? 1); [|done]. apply loose_creates; [done|]. intros j [x [_ Hx]%lookup_delete_Some]. apply (lo_number _ _ _ _ Hl4). right. by eexists.
    - intros j _. rewrite He5, I5, (quiet_expected heap t2 t4) by done. change (inodes_of t2) with (inodes_of t1). rewrite (quiet_expected heap t t1) by done. unfold E.
      rewrite (expected_delete_file _ _ _ i), (matching_delete _ _ i) by done. pose proof (io_links _ _ _ (lo_inode _ _ _ _ Hl i st Hst)).
      destruct (Z.eqb_spec i j) as [<-|]; [rewrite !fn_lookup_insert; cbn [one andb snd]; lia|]. rewrite !fn_lookup_insert_ne by congruence. cbn [one andb]. lia. }
  assert (Hst4 : is_Some (inodes_of t5 !! i)) by (rewrite I5; by apply (quiet_is_Some heap t2)). destruct Hst4 as [st5 Hst5].
  assert (Hfin : (link_count st =? 1) = (link_count st5 =? 0)).
  { pose proof (io_links _ _ _ (lo_inode _ _ _ _ Hl4 i st5 ltac:(by rewrite <-I5))) as H5'. rewrite fn_lookup_insert in H5'. destruct (Z.eqb_spec (link_count st) 1), (Z.eqb_spec (link_count st5) 0); lia. }
  rewrite Hfin. destruct (retire_spec t t5 i st5 E) as (t6&->&?); [done|done|done| | | | |done|done].
  - transitivity t1; [by apply quiet_kept|]. transitivity t2; [by apply kept_inodes|]. transitivity t4; [by apply quiet_kept|]. apply kept_inodes; [lia|done].
  - intros k' j Hj Hk'. exists k'. unfold E. rewrite lookup_delete_ne; [done|]. intros <-. congruence.
  - intros j _ Hj. assert (Hp4 : pinned t4 j) by (apply (quiet_pinned heap t2 t4); [done|]; by apply (quiet_pinned heap t t1) in Hj).
    destruct Hp4 as [Hp4|Hp4]; [left; by rewrite L5|right]. unfold has_handle in *. by rewrite H5.
  - intros j _ Hj. rewrite I5 in Hj. apply (quiet_is_Some heap t2 t4 j Hq24) in Hj. by apply (quiet_is_Some heap t t1 j Hq1) in Hj.
Qed.
(** ** Directories *)
Lemma empty_spec t i : directory_is_empty t i = true → ∀ n, entries t !! (i, n) = None.
Proof.
  unfold directory_is_empty. rewrite negb_true_iff. intros Hn n. destruct (entries t !! (i, n)) as [j|] eqn:He; [|done]. apply not_true_iff_false in Hn. destruct Hn.
  apply existsb_exists. exists ((i, n), j). split; [by apply list_elem_of_In, elem_of_map_to_list|]. apply Z.eqb_refl.
Qed.
Lemma drop_directory lc pm t i : loose lc pm t → is_dir (inodes_of t) i = true → (if lookups t i =? 0 then remove_inode t i else Ok t) = drop_orphan t i true.
Proof. intros Hl Hd. unfold drop_orphan. rewrite (dir_no_handle lc pm t i Hl Hd). cbn [negb andb]. by rewrite andb_true_r. Qed.
Lemma becomes_creates t E t2 i : becomes t E t2 → becomes t E (set_creates t2 (delete i (active_create_metadata_bytes t2))).
Proof.
  intros ([Hl Hp]&He&Hk). split; [|split; [done|]].
  - split; [|done]. apply loose_creates; [done|]. intros j [x [_ Hx]%lookup_delete_Some]. apply (lo_number _ _ _ _ Hl). right. by eexists.
  - transitivity t2; [done|by apply kept_inodes].
Qed.
Lemma linked_links t p st n i : exact t → inodes_of t !! p = Some st → entries t !! (p, n) = Some i → is_dir (inodes_of t) p = true ∧ link_count st = 2 + subdirs (entries t) (inodes_of t) p.
Proof.
  intros Hl Hst He. pose proof (lo_tree _ _ _ _ Hl) as Ht. pose proof (to_parent _ _ Ht _ _ _ He) as Hd. split; [done|]. rewrite (io_links _ _ _ (lo_inode _ _ _ _ Hl p st Hst)).
  apply reach_named; [done|done|by eapply to_reach].
Qed.
Lemma named_links t i st k : exact t → inodes_of t !! i = Some st → kind st = Directory → entries t !! k = Some i → (∀ n, entries t !! (i, n) = None) → link_count st = 2.
Proof.
  intros Hl Hst Hk He Hn. pose proof (lo_tree _ _ _ _ Hl) as Ht. rewrite (io_links _ _ _ (lo_inode _ _ _ _ Hl i st Hst)), (reach_named _ (inodes_of t)), subdirs_zero; [done|done|done| |].
  - unfold is_dir. rewrite Hst. by apply bool_decide_true.
  - destruct k as [p n]. econstructor; [by eapply to_reach|done].
Qed.
(** The names of other inodes are still there *)
Lemma names_left (E : Entries) k i : E !! k = Some i → ∀ k' j, j ≠ i → E !! k' = Some j → ∃ k'', delete k E !! k'' = Some j.
Proof. intros Hk k' j Hj Hk'. exists k'. rewrite lookup_delete_ne; [done|]. intros <-. congruence. Qed.
Lemma removed_dir_exact t t2 t5 p name i parent : exact t → inodes_of t !! p = Some parent → entries t !! (p, name) = Some i → is_dir (inodes_of t) i = true → (∀ n, entries t !! (i, n) = None) →
  p ≠ i → quiet t t2 → quiet (set_entries t2 (delete (p, name) (entries t))) t5 →
  loose (<[p := link_count parent - 1]> (<[i := 0]> (expected (entries t) (inodes_of t)))) (<[i := matching (entries t) i - one (name_matches name)]> (matching (entries t))) t5 → exact t5.
Proof.
  intros Hl Hpar Hi Hid Hnc Hpi Hq02 Hq35 Hl5. pose proof (lo_tree _ _ _ _ Hl) as Ht. pose proof (io_links _ _ _ (lo_inode _ _ _ _ Hl _ _ Hpar)).
  eapply loose_ext; [exact Hl5|]. intros j _. rewrite (qu_entries _ _ _ Hq35), (quiet_expected heap _ t5 _ _ Hq35). change (inodes_of (set_entries t2 _)) with (inodes_of t2). cbn [set_entries entries].
  rewrite (quiet_expected heap t t2), (expected_delete_dir _ _ p name i), (matching_delete _ _ i) by done. destruct (Z.eqb_spec j i) as [->|Hj].
  - rewrite fn_lookup_insert_ne, !fn_lookup_insert, Z.eqb_refl by done. done.
  - rewrite (fn_lookup_insert_ne (matching _)), (proj2 (Z.eqb_neq i j)) by congruence. cbn [andb one]. split; [|lia]. destruct (Z.eqb_spec p j) as [<-|]; [rewrite fn_lookup_insert; cbn [one]; lia|].
    rewrite !fn_lookup_insert_ne by congruence. cbn [one]. lia.
Qed.
Lemma rmdir_spec t p name : tree_wf t → safe (rmdir maximum_name_bytes t p name) (becomes t (delete (p, name) (entries t))).
Proof.
  intros Hw. pose proof (tw_loose _ _ Hw) as Hl. pose proof (lo_tree _ _ _ _ Hl) as Ht. unfold rmdir. apply safe_component, safe_directory. intros _. apply safe_mutable. intros _.
  apply safe_ok_or. intros i Hi. destruct (entry_state heap t _ i Hl Hi) as (st&Hst&Hpos&Hroot). eapply safe_expect; [done|]. apply safe_reject. intros Hk%bool_decide_eq_false%dec_stable.
  apply safe_reject. intros _. apply safe_reject. intros Hempty%negb_false_iff. pose proof (empty_spec t i Hempty) as Hnc. apply safe_assert; [by rewrite (named_links t i st _ Hl Hst Hk Hi Hnc)|].
  apply safe_add. intros Hq. eapply safe_root; [done|]. intros n Hseq Hn. assert (Hid : is_dir (inodes_of t) i = true) by (unfold is_dir; rewrite Hst; by apply bool_decide_true).
  destruct (is_dir_Some _ _ (to_parent _ _ Ht _ _ _ Hi)) as (parent&Hpar&Hpk). eapply safe_expect; [done|]. destruct (linked_links t p parent name i Hl Hpar Hi) as [Hpd Hpl].
  pose proof (subdirs_nonneg (entries t) (inodes_of t) p). pose proof (lo_inode _ _ _ _ Hl _ _ Hpar) as Hpok. pose proof (io_u32 _ _ _ Hpok).
  unfold checked_sub. rewrite (proj2 (Z.leb_le _ _)) by lia. cbn [expect]. rewrite Ok_bind. apply safe_bind. eapply (safe_mono _ (λ q, p = ROOT_INODE → q = n + 1)).
  { case_decide; [by cbn [safe]|]. unfold checked_add. destruct (_ <=? _); [|done]. by intros ?. }
  intros q Hpq. cbv zeta. assert (Hpi : p ≠ i) by (intros ->; by rewrite Hnc in Hi).
  destruct (parent_spec heap _ _ t i st 0 (inode_sequence st + 1) Hl Hst Hk ltac:(done)) as (Hl1&Hq1&Hs1&Ho1). set (t1 := set_inode t i _) in *.
  destruct (parent_spec heap _ _ t1 p parent (link_count parent - 1) q Hl1 ltac:(by rewrite Ho1) Hpk ltac:(lia)) as (Hl2&Hq2&Hs2&Ho2). set (t2 := set_inode t1 p _) in *.
  assert (Hq02 : quiet t t2) by (by etrans). apply safe_remove_entry; [by rewrite (qu_entries _ _ _ Hq02)|]. rewrite (qu_entries _ _ _ Hq02). set (E := delete (p, name) (entries t)).
  assert (Ht3 : tree_ok E (inodes_of t2)) by (apply (quiet_tree_ok heap t t2); [done|]; by apply (tree_ok_delete _ _ _ i Ht Hi)). assert (Hl3 := loose_entries heap _ _ t2 E Hl2 Ht3).
  set (t3 := set_entries t2 E) in *. destruct (adjust_spec heap _ _ t3 i (name_matches name) false Hl3) as (t4&->&Hl4&Hq4&Hs4&_); [apply (quiet_is_Some heap t t2); [done|by eexists]|done| |].
  { intros _. destruct (name_matches name) eqn:Hm; cbn [one]; [by eapply matching_pos|]. apply matching_bound. }
  rewrite Ok_bind. assert (Hend : ∃ t5, (if decide (p = ROOT_INODE) then Ok t4 else install_root_mutation_sequence t4 (n + 1)) = Ok t5 ∧ quiet t4 t5 ∧
    loose (<[p := link_count parent - 1]> (<[i := 0]> (expected (entries t) (inodes_of t)))) (<[i := matching (entries t) i - one (name_matches name)]> (matching (entries t))) t5).
  { case_decide as Hr; [by exists t4|]. destruct (install_root_spec heap _ _ t4 n Hl4) as (t5&->&?&?&_); [|lia|by exists t5]. rewrite Hs4. change (seq_of t3 ROOT_INODE) with (seq_of t2 ROOT_INODE).
    rewrite Hs2, Hs1. by rewrite !decide_False. }
  destruct Hend as (t5&->&Hq5&Hl5). rewrite Ok_bind. assert (Hq35 : quiet t3 t5) by (by etrans). assert (He5 : entries t5 = E) by (by rewrite (qu_entries _ _ _ Hq35)).
  assert (Hx : exact t5) by (by eapply (removed_dir_exact t t2 t5 p name i parent)).
  destruct (quiet_lookup heap t t2 i st Hq02 Hst) as (st2&Hst2&_). destruct (quiet_lookup heap t3 t5 i st2 Hq35 Hst2) as (st5&Hst5&_).
  assert (Hz : link_count st5 = 0) by (rewrite (io_links _ _ _ (lo_inode _ _ _ _ Hl5 i st5 Hst5)), fn_lookup_insert_ne by done; apply fn_lookup_insert).
  rewrite (drop_directory _ _ t5 i Hl5). 2: { rewrite (quiet_is_dir heap t3 t5) by done. change (inodes_of t3) with (inodes_of t2). by rewrite (quiet_is_dir heap t t2). }
  destruct (retire_spec t t5 i st5 E) as (t6&Hd6&Hb6); [done|done|done| |by apply names_left| | |done|].
  - transitivity t2; [by apply quiet_kept|]. transitivity t3; [by apply kept_inodes|by apply quiet_kept].
  - intros j _ Hj. apply (quiet_pinned heap t3 t5); [done|]. by apply (quiet_pinned heap t t2) in Hj.
  - intros j _ Hj. apply (quiet_is_Some heap t3 t5 j Hq35) in Hj. by apply (quiet_is_Some heap t t2 j Hq02) in Hj.
  - rewrite Hz in Hd6. cbn [Z.eqb] in Hd6. rewrite Hd6, Ok_bind. by apply becomes_creates.
Qed.
End Removals.
End TreeRemovals.

(** ** Renaming

    The request moves a name, and takes the place of another inode if it may; it
    keeps the invariant of the tree, makes no cycle and does not panic. *)
Module TreeRename.
Import SparseData SparseDataOps DirtyEpoch DirtyEpochOps VersionedFile VersionedFileOps FileCommit FileRefinement InodeMetadata InodeAttributes FileCatalog FileCapacity FileHandlers FileHandlersOps NamespaceTree TreeRequests TreeInvariant TreeSteps TreeRefs TreeNames TreeCreates TreeRemovals.
Implicit Types (t : Tree) (st : InodeState) (i j : Z) (E : Entries) (I : Inodes) (old new : Z * bytes).

(** ** Entries *)
Definition moved E old new (src : Z) : Entries := <[new := src]> (delete old E).
Definition gone (rep : option Z) j : Z := match rep with Some target => one (target =? j) | None => 0 end.
Section Moves.
Context `{Pol : NamePolicy}.
Lemma moved_names E old new src k j : E !! old = Some src → E !! new ≠ Some j → E !! k = Some j → ∃ k', moved E old new src !! k' = Some j.
Proof.
  intros Hold Hnew Hk. unfold moved. destruct (decide (k = old)) as [->|Hne].
  - exists new. rewrite lookup_insert_eq. congruence.
  - exists k. rewrite lookup_insert_ne by congruence. by rewrite lookup_delete_ne.
Qed.
Lemma moved_free E old new src : moved E old new src = <[new := src]> (delete old (delete new E)).
Proof. unfold moved. rewrite (delete_delete E). by rewrite insert_delete_eq. Qed.
Lemma moved_matching E old new src j : old ≠ new → E !! old = Some src →
  matching (moved E old new src) j = matching E j - one ((src =? j) && name_matches old.2) + one ((src =? j) && name_matches new.2) -
    from_option (λ target, one ((target =? j) && name_matches new.2)) 0 (E !! new).
Proof.
  intros Hne Hold. unfold moved, matching. rewrite msum_insert, lookup_delete_ne, msum_delete, Hold by done. cbn [from_option]. destruct (E !! new); cbn [from_option]; lia.
Qed.
Lemma moved_file_expected E I old new src j : old ≠ new → E !! old = Some src → is_dir I src = false → (∀ target, E !! new = Some target → is_dir I target = false) →
  expected (moved E old new src) I j = expected E I j - gone (E !! new) j.
Proof.
  intros Hne Hold Hs Ht. assert (Hn : names (moved E old new src) j = names E j - gone (E !! new) j).
  { unfold moved, names. rewrite msum_insert, lookup_delete_ne, msum_delete, Hold by done. unfold gone. destruct (E !! new); cbn [from_option]; lia. }
  assert (Hd : subdirs (moved E old new src) I j = subdirs E I j).
  { unfold moved, subdirs. rewrite msum_insert, lookup_delete_ne, msum_delete, Hold by done. cbn [from_option]. rewrite Hs, !andb_false_r. destruct (E !! new) as [x|] eqn:Hx; cbn [from_option one]; [|lia].
    rewrite (Ht x eq_refl), andb_false_r. cbn [one]. lia. }
  unfold expected. rewrite Hn, Hd. destruct (is_dir I j) eqn:Hj; [|done]. replace (gone (E !! new) j) with 0; [by rewrite !Z.sub_0_r|].
  unfold gone. destruct (E !! new) as [x|] eqn:Hx; [|done]. rewrite (proj2 (Z.eqb_neq x j)); [done|]. intros ->. specialize (Ht j eq_refl). congruence.
Qed.
Lemma moved_file_ok E I old p n src : tree_ok E I → old ≠ (p, n) → E !! old = Some src → is_dir I src = false → (∀ target, E !! (p, n) = Some target → is_dir I target = false) →
  is_dir I p = true → reach E p → tree_ok (moved E old (p, n) src) I.
Proof.
  intros Ht Hne Hold Hs Htarget Hp Hr. rewrite moved_free. assert (Hd : ∀ x, is_dir I x = false → p ≠ x) by (intros x Hx ->; congruence).
  assert (H1 : tree_ok (delete (p, n) E) I ∧ reach (delete (p, n) E) p).
  { destruct (E !! (p, n)) as [x|] eqn:Hx; [|by rewrite delete_id]. specialize (Htarget x eq_refl). pose proof (file_childless E I x Ht Htarget) as Hc.
    split; [by apply (tree_ok_delete E I (p, n) x)|]. apply (reach_delete E (p, n) x); [done|done|by apply Hd|done]. }
  destruct H1 as [Ht1 Hr1]. assert (Hold1 : delete (p, n) E !! old = Some src) by (by rewrite lookup_delete_ne). pose proof (file_childless _ I src Ht1 Hs) as Hc.
  apply tree_ok_insert; [by apply (tree_ok_delete _ I old src)|done| | |by apply (to_child _ _ Ht old)|by apply (to_child _ _ Ht old)|by rewrite Hs].
  - apply (reach_delete _ old src); [done|done|by apply Hd|done].
  - rewrite lookup_delete_ne by done. by rewrite lookup_delete_eq.
Qed.
Lemma below_weaken E E' a j : E ⊆ E' → below E a j → below E' a j.
Proof. intros Hs. induction 1 as [|p n i _ IH Hi]; [constructor|]. econstructor; [done|]. by eapply lookup_weaken. Qed.
Lemma link_delta_eq q p r j : link_delta q p r j = - one (q =? j) + one (p =? j) - (if r then one (p =? j) else 0).
Proof.
  unfold link_delta. destruct (Z.eqb_spec q j) as [->|], (Z.eqb_spec p j) as [->|], r; cbn [one andb]; repeat case_decide; subst; try done; rewrite ?bool_decide_true, ?bool_decide_false by done; lia.
Qed.
Lemma moved_dir E I q m p n src : tree_ok E I → is_dir I src = true → E !! (q, m) = Some src → (q, m) ≠ (p, n) → is_dir I p = true → reach E p → ¬ below E src p →
  (∀ target, E !! (p, n) = Some target → is_dir I target = true ∧ ∀ x, E !! (target, x) = None) →
  tree_ok (moved E (q, m) (p, n) src) I ∧
  ∀ j, expected (moved E (q, m) (p, n) src) I j = if decide (E !! (p, n) = Some j) then 0 else expected E I j + link_delta q p (bool_decide (is_Some (E !! (p, n)))) j.
Proof.
  intros Ht Hs Hold Hne Hp Hr Hb Htarget. rewrite moved_free. assert (Hps : p ≠ src) by (intros ->; apply Hb; constructor).
  set (D := delete (p, n) E). assert (Hold1 : D !! (q, m) = Some src) by (unfold D; by rewrite lookup_delete_ne). assert (Hfree : D !! (p, n) = None) by apply lookup_delete_eq.
  destruct (E !! (p, n)) as [x|] eqn:Hx.
  - destruct (Htarget x eq_refl) as [Hxd Hxe]. assert (Hpx : p ≠ x) by (intros ->; by rewrite Hxe in Hx). assert (Hqx : q ≠ x) by (intros ->; by rewrite Hxe in Hold).
    assert (Ht1 : tree_ok D I) by (by apply (tree_ok_delete E I (p, n) x)). assert (Hr1 : reach D p) by (by apply (reach_delete E (p, n) x)).
    split; [apply tree_ok_move; try done; intros Hb1; apply Hb; by apply (below_weaken D); [apply delete_subseteq|]|]. intros j.
    rewrite (expected_move D I q m p n src j Ht1 Hs Hold1 Hfree Hp Hr1 Hps), link_delta_eq, bool_decide_true by (by eexists). unfold D.
    rewrite (expected_delete_dir E I p n x j Ht Hxd Hx Hxe). destruct (Z.eqb_spec j x) as [->|Hj].
    + rewrite decide_True by done. rewrite !(proj2 (Z.eqb_neq _ _)) by congruence. done.
    + rewrite decide_False by congruence. lia.
  - assert (HD : D = E) by (by apply delete_id). rewrite HD in *. split; [by apply tree_ok_move|]. intros j. rewrite decide_False by done.
    rewrite (expected_move E I q m p n src j Ht Hs Hold Hx Hp Hr Hps), link_delta_eq, bool_decide_false by (by intros []). lia.
Qed.
End Moves.

Section Rename.
Context (heap : Z → option (CommittedFile * (Z → option byte))) `{Adm : Admission} `{!AdmissionLaws} `{Dom : Domains} `{Pol : NamePolicy} (maximum_name_bytes : Z).
Abbreviation loose := (loose heap).
Abbreviation same_content := (same_content heap).
Abbreviation quiet := (quiet heap).
Abbreviation tree_wf := (tree_wf heap).
Abbreviation kept := (kept heap).
Abbreviation exact t := (loose (expected (entries t) (inodes_of t)) (matching (entries t)) t).
Abbreviation becomes := (becomes heap).

(** What the checks of a rename establish *)
Record plan t old new (src : Z) (rep : option Z) : Prop := {
  rp_old : entries t !! old = Some src;
  rp_new : entries t !! new = rep;
  rp_ne : old ≠ new;
  rp_other : rep ≠ Some src;
  rp_dir : is_dir (inodes_of t) new.1 = true;
  rp_reach : reach (entries t) new.1;
}.
(** ** The steps *)
Lemma move_entry_spec {B} t old new src rep (k : Tree → presult B) P : entries t !! old = Some src → entries t !! new = rep → old ≠ new →
  safe (k (set_entries t (moved (entries t) old new src))) P → safe (move_entry t old new src rep ≫= k) P.
Proof.
  intros Hold Hnew Hne Hk. unfold move_entry. apply safe_bind, safe_remove_entry; [done|]. unfold insert_entry. rewrite bool_decide_true; [done|]. cbn [set_entries entries].
  by rewrite lookup_delete_ne.
Qed.
(** The matching names of the moved inode and of the replaced one *)
Lemma move_matches_spec E lc t old new src rep : plan t old new src rep → E = entries t → ∀ t1, loose lc (matching E) t1 → (∀ j, is_Some (inodes_of t1 !! j) ↔ is_Some (inodes_of t !! j)) → exact t →
  ∃ t2, move_matches t1 old.2 new.2 src rep = Ok t2 ∧ loose lc (matching (moved E old new src)) t2 ∧ quiet t1 t2 ∧ ∀ j, seq_of t2 j = seq_of t1 j.
Proof.
  intros [Hold Hnew Hne Hother _ _] -> t1 Hl1 Hsome Hl. set (E := entries t) in *. pose proof (lo_tree _ _ _ _ Hl) as Ht. destruct (to_child _ _ Ht old src Hold) as [Hsrc _].
  assert (Hm : ∀ x k, E !! k = Some x → one (name_matches k.2) ≤ matching E x).
  { intros x k Hk. destruct (name_matches k.2) eqn:Hb; cbn [one]; [by eapply matching_pos|]. apply matching_bound. }
  unfold move_matches. destruct (adjust_spec heap lc _ t1 src (name_matches old.2) false Hl1) as (a&->&Hla&Hqa&Hsa&_); [by apply Hsome|done|intros _; by apply Hm|]. rewrite Ok_bind.
  assert (Hroom : 0 ≤ matching E src - one (name_matches old.2) < u32_max).
  { pose proof (matching_bound (delete old E) src) as Hb. rewrite (matching_delete E old src), (names_delete E old src), Z.eqb_refl in Hb by done. cbn [one andb] in Hb. split; [lia|].
    assert (names E src ≤ u32_max); [|lia]. destruct Hsrc as [x Hx]. pose proof (lo_inode _ _ _ _ Hl src x Hx) as [O1 _ O3 _ _]. destruct (is_dir (inodes_of t) src) eqn:Hd.
    - pose proof (dir_names E _ src Ht Hd). unfold u32_max. lia.
    - unfold expected in O1. rewrite Hd in O1. rewrite <-O1. lia. }
  destruct (adjust_spec heap lc _ a src (name_matches new.2) true Hla) as (b&->&Hlb&Hqb&Hsb&_); [apply (quiet_is_Some heap t1); [done|by apply Hsome]|intros _; rewrite fn_lookup_insert; lia|done|].
  rewrite Ok_bind. rewrite fn_lookup_insert in Hlb. set (pm := <[src := _]> (<[src := _]> (matching E))) in Hlb. assert (Hqab : quiet t1 b) by (by etrans).
  assert (Hpm : ∀ j, pm j = matching E j - one ((src =? j) && name_matches old.2) + one ((src =? j) && name_matches new.2)).
  { intros j. unfold pm. destruct (Z.eqb_spec src j) as [<-|]; [rewrite fn_lookup_insert; cbn [andb]; lia|]. rewrite !fn_lookup_insert_ne by congruence. cbn [andb one]. lia. }
  destruct rep as [x|].
  - assert (Hxs : src ≠ x) by congruence. destruct (to_child _ _ Ht new x Hnew) as [Hx _].
    destruct (adjust_spec heap lc _ b x (name_matches new.2) false Hlb) as (c&->&Hlc&Hqc&Hsc&_); [apply (quiet_is_Some heap t1); [done|by apply Hsome]|done| |].
    { intros _. rewrite Hpm, (proj2 (Z.eqb_neq src x)) by done. cbn [andb one]. pose proof (Hm x new Hnew). lia. }
    exists c. split; [done|]. split; [|split; [by etrans|intros j; by rewrite Hsc, Hsb, Hsa]]. eapply loose_ext; [exact Hlc|]. intros j _. split; [done|].
    rewrite (moved_matching E old new src j), Hnew by done. cbn [from_option]. destruct (Z.eqb_spec x j) as [<-|]; [rewrite fn_lookup_insert, Hpm; cbn [andb]; lia|].
    rewrite fn_lookup_insert_ne, Hpm by congruence. cbn [andb one]. lia.
  - exists b. split; [done|]. split; [|split; [done|intros j; by rewrite Hsb, Hsa]]. eapply loose_ext; [exact Hlb|]. intros j _. split; [done|].
    rewrite (moved_matching E old new src j), Hnew, Hpm by done. cbn [from_option]. lia.
Qed.
(** The end, when the replaced inode may go *)
Lemma rename_end t t1 old new src rep : tree_wf t → plan t old new src rep → exact t1 → entries t1 = moved (entries t) old new src → kept t t1 → (∀ j, pinned t j → pinned t1 j) →
  (∀ j, is_Some (inodes_of t1 !! j) ↔ is_Some (inodes_of t !! j)) →
  match rep with
  | Some x => ∀ st, inodes_of t1 !! x = Some st → ∃ t2, drop_orphan t1 x (link_count st =? 0) = Ok t2 ∧ becomes t (moved (entries t) old new src) t2
  | None => becomes t (moved (entries t) old new src) t1
  end.
Proof.
  intros Hw [Hold Hnew Hne Hother _ _] Hl He Hk Hp Hi. destruct rep as [x|].
  - intros st Hst. apply (retire_spec heap t t1 x st); [done|done|done|done| |by intros j _; apply Hp|by intros j _; apply Hi|done]. intros k j Hj. apply moved_names; [done|congruence].
  - split; [|done]. split; [done|]. intros j y Hy Hz. apply (pinned_others heap t t1 (-1) Hw Hl) with y; [|by intros ? _; apply Hp|by intros ? _; apply Hi| |done|done].
    + intros k z _. rewrite He. apply moved_names; [done|congruence].
    + intros ->. pose proof (lo_number _ _ _ _ Hl (-1) (or_introl (ex_intro _ y Hy))). lia.
Qed.
(** ** Files *)
Lemma replace_file_spec {B} t now old new src rep (k : Tree → presult B) P : exact t → plan t old new src rep →
  (∀ t1, loose (λ j, expected (entries t) (inodes_of t) j - gone rep j) (matching (entries t)) t1 → quiet t t1 → (∀ j, rep ≠ Some j → inodes_of t1 !! j = inodes_of t !! j) →
     (∀ x, rep = Some x → is_dir (inodes_of t) x = false) → safe (k t1) P) →
  safe (replace_file t now rep ≫= k) P.
Proof.
  intros Hl Hplan Hk. unfold replace_file. destruct rep as [x|].
  - destruct (entry_state heap t new x Hl (rp_new _ _ _ _ _ Hplan)) as (st&Hst&Hpos&_). apply safe_bind. eapply safe_expect; [done|]. apply safe_reject. intros Hd%bool_decide_eq_false.
    eapply drop_name_spec; [done|done|done|done|]. intros t1 Hl1 Hq Ho. cbn [safe fst]. apply Hk; [|done|intros j Hj; apply Ho; congruence|].
    + eapply loose_ext; [exact Hl1|]. intros j _. split; [|done]. cbn [gone]. pose proof (io_links _ _ _ (lo_inode _ _ _ _ Hl x st Hst)).
      destruct (Z.eqb_spec x j) as [<-|]; [rewrite fn_lookup_insert; cbn [one]; lia|]. rewrite fn_lookup_insert_ne by congruence. cbn [one]. lia.
    + intros y [= <-]. unfold is_dir. rewrite Hst. by apply bool_decide_false.
  - rewrite Ok_bind. apply Hk; [|done|done|done]. eapply loose_ext; [exact Hl|]. intros j _. cbn [gone]. split; [lia|done].
Qed.
Lemma ctime_spec lc pm t i st now : loose lc pm t → inodes_of t !! i = Some st → let t' := set_inode t i (set_ctime st now) in loose lc pm t' ∧ quiet t t' ∧ ∀ j, seq_of t' j = seq_of t j.
Proof.
  intros Hl Hst t'. split_and!.
  - apply (loose_ext heap (<[i := lc i]> lc) (<[i := pm i]> pm)); [|intros j _; by rewrite !insert_self].
    destruct (loose_data _ _ _ _ _ _ Hl Hst). destruct (lo_inode _ _ _ _ Hl i st Hst). by apply (loose_touch heap lc pm t i st).
  - apply (quiet_update heap t i st _ (dirty_payload (space t)) Hst). by split.
  - intros j. unfold t'. rewrite seq_of_set. case_decide; [|done]. subst j. unfold seq_of. by rewrite Hst.
Qed.
Lemma retire_file_spec t t1 old new src rep : tree_wf t → plan t old new src rep → exact t1 → entries t1 = moved (entries t) old new src → kept t t1 → (∀ j, pinned t j → pinned t1 j) →
  (∀ j, is_Some (inodes_of t1 !! j) ↔ is_Some (inodes_of t !! j)) → safe (retire_file t1 rep) (becomes t (moved (entries t) old new src)).
Proof.
  intros Hw Hplan Hl He Hk Hp Hi. unfold retire_file. destruct rep as [x|]; [|by apply (rename_end t t1 old new src None)].
  destruct (to_child _ _ (lo_tree _ _ _ _ (tw_loose _ _ Hw)) new x (rp_new _ _ _ _ _ Hplan)) as [Hx _]. apply Hi in Hx as [st Hst]. eapply safe_expect; [done|]. cbv zeta.
  set (t2 := if _ : bool then _ else t1).
  assert (H2 : t2 = set_creates t1 (active_create_metadata_bytes t2)) by (unfold t2; destruct (_ =? 0); [done|by destruct t1]). assert (Hl2 : exact t2).
  { unfold t2. destruct (_ =? 0); [|done]. apply loose_creates; [done|]. intros j [y [_ Hy]%lookup_delete_Some]. apply (lo_number _ _ _ _ Hl). right. by eexists. }
  pose proof (rename_end t t2 old new src (Some x) Hw Hplan Hl2) as Hend. cbn beta iota in Hend. destruct (Hend ltac:(by rewrite H2)) with st as (t3&->&Hb); [..|done].
  - rewrite H2. transitivity t1; [done|by apply kept_inodes].
  - intros j Hj. apply Hp in Hj. by rewrite H2.
  - rewrite H2. apply Hi.
  - by rewrite H2.
Qed.
Lemma rename_file_spec t now old new src rep : tree_wf t → plan t old new src rep → is_dir (inodes_of t) src = false →
  safe (rename_file t now old new src rep) (becomes t (moved (entries t) old new src)).
Proof.
  intros Hw Hplan Hs. pose proof (tw_loose _ _ Hw) as Hl. pose proof (lo_tree _ _ _ _ Hl) as Ht. pose proof Hplan as [Hold Hnew Hne Hother Hp Hr]. unfold rename_file.
  eapply safe_root; [done|]. intros n Hseq Hn. eapply replace_file_spec; [done|done|]. intros t1 Hl1 Hq1 Ho1 Hrep. destruct (entry_state heap t old src Hl Hold) as (st&Hst&_).
  assert (Hst1 : inodes_of t1 !! src = Some st) by (by rewrite Ho1). eapply safe_expect; [done|]. cbv zeta. destruct (ctime_spec _ _ t1 src st now Hl1 Hst1) as (Hl2&Hq2&Hs2).
  set (t2 := set_inode t1 src _) in *. assert (Hq02 : quiet t t2) by (by etrans). apply move_entry_spec; [by rewrite (qu_entries _ _ _ Hq02)|by rewrite (qu_entries _ _ _ Hq02)|done|].
  rewrite (qu_entries _ _ _ Hq02). set (E := moved (entries t) old new src). assert (Ht3 : tree_ok E (inodes_of t2)).
  { apply (quiet_tree_ok heap t t2); [done|]. unfold E. destruct new as [p m]. apply moved_file_ok; try done. intros x Hx. apply Hrep. congruence. }
  assert (Hl3 := loose_entries heap _ _ t2 E Hl2 Ht3). set (t3 := set_entries t2 E) in *. assert (Hi3 : ∀ j, is_Some (inodes_of t3 !! j) ↔ is_Some (inodes_of t !! j)) by (intros j; by apply (quiet_is_Some heap t t2)).
  destruct (move_matches_spec (entries t) _ t old new src rep Hplan eq_refl t3 Hl3 Hi3 Hl) as (t4&->&Hl4&Hq4&Hs4). rewrite Ok_bind. destruct (install_root_spec heap _ _ t4 n Hl4) as (t5&->&Hl5&Hq5&_); [|lia|].
  { rewrite Hs4. change (seq_of t3 ROOT_INODE) with (seq_of t2 ROOT_INODE). rewrite Hs2. unfold seq_of in *. rewrite Ho1; [done|]. intros Hx. specialize (Hrep _ Hx). by rewrite (to_root _ _ Ht) in Hrep. }
  rewrite Ok_bind. assert (Hq35 : quiet t3 t5) by (by etrans). assert (He5 : entries t5 = E) by (by rewrite (qu_entries _ _ _ Hq35)). eapply retire_file_spec; [done|done| |done| | |].
  - eapply loose_ext; [exact Hl5|]. intros j _. rewrite He5, (quiet_expected heap t3 t5) by done. change (inodes_of t3) with (inodes_of t2). rewrite (quiet_expected heap t t2) by done.
    split; [|done]. unfold E. rewrite moved_file_expected, Hnew; [done|done|done|done|]. intros x Hx. apply Hrep. congruence.
  - transitivity t2; [by apply quiet_kept|]. transitivity t3; [by apply kept_inodes|by apply quiet_kept].
  - intros j Hj. apply (quiet_pinned heap t3 t5); [done|]. by apply (quiet_pinned heap t t2) in Hj.
  - intros j. rewrite (quiet_is_Some heap t3 t5) by done. apply Hi3.
Qed.
(** ** Directories *)
Lemma touched_spec q p x : x ∈ touched_parents q p ↔ x = q ∨ x = p ∨ x = ROOT_INODE.
Proof. unfold touched_parents. rewrite (sort_by_key_perm (λ x, x)), elem_of_elements. set_solver. Qed.
Definition parent_at (u : Z * Z * Z) : Z := u.1.1.
Definition links_at (u : Z * Z * Z) : Z := u.1.2.
Lemma plan_parents_spec t delta n l : (∀ p, p ∈ l → is_dir (inodes_of t) p = true) →
  safe (plan_parents t delta n l) (λ us, map parent_at us = l ∧ ∀ u, u ∈ us → ∃ st, inodes_of t !! parent_at u = Some st ∧ links_at u = link_count st + delta (parent_at u) ∧ 0 ≤ links_at u ≤ u32_max).
Proof.
  induction l as [|p l IH]; intros Hd; cbn [plan_parents]; [split; [done|]; by intros u ?%not_elem_of_nil|]. destruct (is_dir_Some _ _ (Hd p ltac:(by left))) as (st&Hst&Hk).
  eapply safe_expect; [done|]. apply safe_ok_or. unfold checked_add_signed. intros links Hlinks. destruct ((0 <=? _) && _) eqn:Hb in Hlinks; [|done]. injection Hlinks as <-.
  apply andb_prop in Hb as [?%Z.leb_le ?%Z.leb_le]. apply safe_bind. apply (safe_mono _ (λ _, True)); [case_decide; [done|]; unfold checked_add; by destruct (_ <=? _)|]. intros q _.
  apply safe_bind. eapply safe_mono; [apply IH; intros x Hx; apply Hd; by right|]. intros us [<- Hus]. cbn [safe]. split; [done|]. intros u [->|Hu]%elem_of_cons; [|by apply Hus].
  exists st. split; [done|]. by split.
Qed.
Definition updated_links (us : list (Z * Z * Z)) (lc : Z → Z) : Z → Z := foldl (λ lc u, <[parent_at u := links_at u]> lc) lc us.
Lemma apply_parents_spec pm us : ∀ lc t, loose lc pm t → (∀ u, u ∈ us → is_dir (inodes_of t) (parent_at u) = true ∧ 0 ≤ links_at u ≤ u32_max) →
  ∃ t', apply_parents t us = Ok t' ∧ loose (updated_links us lc) pm t' ∧ quiet t t'.
Proof.
  induction us as [|[[p links] q] us IH]; intros lc t Hl Hu; [by exists t|]. destruct (Hu (p, links, q) ltac:(by left)) as [Hd Hr]. cbn [parent_at links_at fst snd] in *.
  destruct (is_dir_Some _ _ Hd) as (st&Hst&Hk). cbn [apply_parents]. rewrite Hst. cbn [expect]. rewrite Ok_bind. destruct (parent_spec heap lc pm t p st links q Hl Hst Hk Hr) as (Hl1&Hq1&_).
  destruct (IH _ _ Hl1) as (t'&->&Hl'&Hq'); [|exists t'; split_and!; [done|done|by etrans]]. intros u Hu'. rewrite (quiet_is_dir heap t) by done. apply Hu. by right.
Qed.
Lemma updated_links_at us lc g j : (∀ u, u ∈ us → links_at u = g (parent_at u)) → updated_links us lc j = if decide (j ∈ map parent_at us) then g j else lc j.
Proof.
  unfold updated_links. revert lc. induction us as [|u us IH]; intros lc Hu; cbn [foldl map]; [by rewrite decide_False by (by apply not_elem_of_nil)|].
  rewrite IH by (intros u' Hu'; apply Hu; by right). destruct (decide (j = parent_at u)) as [->|Hj].
  - rewrite fn_lookup_insert, (Hu u) by (by left). rewrite (decide_True _ (lc _)) by (by left). by destruct (decide _).
  - rewrite fn_lookup_insert_ne by done. destruct (decide (j ∈ map parent_at us)); [rewrite decide_True by (by right); done|]. rewrite decide_False; [done|]. by intros [?|?]%elem_of_cons.
Qed.
Lemma replaced_directory_spec {A} t old new src rep (k : presult A) P : exact t → plan t old new src rep →
  ((∀ x, rep = Some x → is_dir (inodes_of t) x = true ∧ ∀ n, entries t !! (x, n) = None) → safe k P) → safe (replaced_directory t rep;; k) P.
Proof.
  intros Hl Hplan Hk. unfold replaced_directory. destruct rep as [x|]; [|by apply Hk]. pose proof (rp_new _ _ _ _ _ Hplan) as Hx. destruct (entry_state heap t new x Hl Hx) as (st&Hst&_).
  apply safe_bind. eapply safe_expect; [done|]. apply safe_reject. intros Hd%bool_decide_eq_false%dec_stable. apply safe_reject. intros Hempty%negb_false_iff.
  pose proof (empty_spec t x Hempty) as Hn. rewrite (named_links heap t x st new Hl Hst Hd Hx Hn). cbn [Z.eqb Pos.eqb assert_true safe]. apply Hk. intros y [= <-]. split; [|done].
  unfold is_dir. rewrite Hst. by apply bool_decide_true.
Qed.
Lemma retire_directory_spec t t1 old new src rep q lc : tree_wf t → plan t old new src rep → (∀ x, rep = Some x → is_dir (inodes_of t1) x = true) → loose lc (matching (entries t1)) t1 →
  (∀ j, expected (entries t1) (inodes_of t1) j = if decide (rep = Some j) then 0 else lc j) →
  entries t1 = moved (entries t) old new src → kept t t1 → (∀ j, pinned t j → pinned t1 j) → (∀ j, is_Some (inodes_of t1 !! j) ↔ is_Some (inodes_of t !! j)) →
  safe (match rep with Some x => retire_directory t1 x q | None => Ok t1 end) (becomes t (moved (entries t) old new src)).
Proof.
  intros Hw Hplan Hd Hl Hc He Hk Hp Hi. destruct rep as [x|].
  2: { apply (rename_end t t1 old new src None); try done. eapply loose_ext; [exact Hl|]. intros j _. rewrite Hc. by rewrite decide_False. }
  destruct (is_dir_Some _ _ (Hd x eq_refl)) as (st&Hst&Hdir). unfold retire_directory. eapply safe_expect; [done|]. cbv zeta.
  destruct (parent_spec heap lc _ t1 x st 0 q Hl Hst Hdir ltac:(done)) as (Hl2&Hq2&_&_). set (st2 := set_links st 0 q). change (set_inode t1 x (set_links st 0 q)) with (set_inode t1 x st2) in *.
  set (t2 := set_inode t1 x st2) in *. rewrite (drop_directory heap _ _ t2 x Hl2) by (rewrite (quiet_is_dir heap t1 t2) by done; by apply Hd).
  assert (Hx : exact t2).
  { eapply loose_ext; [exact Hl2|]. intros j _. rewrite (qu_entries _ _ _ Hq2), (quiet_expected heap t1 t2), Hc by done. split; [|done].
    destruct (decide (Some x = Some j)) as [[= <-]|Hne]; [apply fn_lookup_insert|apply fn_lookup_insert_ne; congruence]. }
  pose proof (rename_end t t2 old new src (Some x) Hw Hplan Hx) as Hend. cbn beta iota in Hend.
  destruct (Hend ltac:(by rewrite (qu_entries _ _ _ Hq2))) with st2 as (t3&Hd3&Hb); [| | | |cbn [st2 set_links link_count Z.eqb] in Hd3; by rewrite Hd3].
  - transitivity t1; [done|by apply quiet_kept].
  - intros j Hj. by apply (quiet_pinned heap t1 t2), Hp.
  - intros j. rewrite (quiet_is_Some heap t1 t2) by done. apply Hi.
  - apply lookup_insert_eq.
Qed.
Lemma rename_directory_spec t old new src rep : tree_wf t → plan t old new src rep → is_dir (inodes_of t) src = true →
  safe (rename_directory t old new src rep) (becomes t (moved (entries t) old new src)).
Proof.
  intros Hw Hplan Hs. pose proof (tw_loose _ _ Hw) as Hl. pose proof (lo_tree _ _ _ _ Hl) as Ht. pose proof Hplan as [Hold Hnew Hne Hother Hp Hr]. unfold rename_directory.
  destruct (ancestor_spec t (inodes_of t) src new.1 Ht Hp Hr) as (inside&->&Hinside). rewrite Ok_bind. apply safe_reject. intros ->. assert (Hb : ¬ below (entries t) src new.1) by (by intros ?%Hinside).
  eapply replaced_directory_spec; [done|done|]. intros Hrep. eapply safe_root; [done|]. intros n _ _. destruct old as [q m], new as [p nm]. cbn [fst snd] in *.
  assert (Hpar : ∀ x, x ∈ touched_parents q p → is_dir (inodes_of t) x = true) by (intros x [->|[->| ->]]%touched_spec; [by eapply to_parent|done|apply Ht]).
  apply safe_bind. eapply safe_mono; [by apply plan_parents_spec|]. intros us [Hus Hlinks]. apply safe_bind. apply (safe_mono _ (λ _, True)).
  { destruct rep as [x|]; [|done]. destruct (to_child _ _ Ht _ _ Hnew) as [[st Hst] _]. eapply safe_expect; [done|]. by apply safe_add. }
  intros tq _. apply move_entry_spec; [done|done|done|]. set (E := moved (entries t) (q, m) (p, nm) src). assert (Hmoved := moved_dir (entries t) (inodes_of t) q m p nm src Ht Hs Hold Hne Hp Hr Hb).
  destruct Hmoved as [HtE HxE]; [intros x Hx; apply Hrep; congruence|]. fold E in HtE, HxE. assert (Hl1 := loose_entries heap _ _ t E Hl HtE). set (t1 := set_entries t E) in *.
  destruct (move_matches_spec (entries t) _ t (q, m) (p, nm) src rep Hplan eq_refl t1 Hl1 ltac:(done) Hl) as (t2&Hm2&Hl2&Hq2&_). cbn [snd] in Hm2. rewrite Hm2, Ok_bind. fold E in Hl2.
  assert (Hdir2 : ∀ x, is_dir (inodes_of t2) x = is_dir (inodes_of t) x) by (intros x; by rewrite (quiet_is_dir heap t1 t2)).
  destruct (apply_parents_spec _ us _ t2 Hl2) as (t3&->&Hl3&Hq3).
  { intros u Hu. destruct (Hlinks u Hu) as (st&_&_&Hrange). split; [|done]. rewrite Hdir2. apply Hpar. rewrite <-Hus. by apply list_elem_of_fmap_2. }
  rewrite Ok_bind. assert (Hq13 : quiet t1 t3) by (by etrans). set (delta := link_delta q p (bool_decide (is_Some rep))) in *.
  assert (Hlc : ∀ j, updated_links us (expected (entries t) (inodes_of t)) j = expected (entries t) (inodes_of t) j + delta j).
  { intros j. rewrite (updated_links_at us _ (λ j, expected (entries t) (inodes_of t) j + delta j)).
    - case_decide as Hj; [done|]. rewrite Hus, touched_spec in Hj. unfold delta. rewrite link_delta_eq, !(proj2 (Z.eqb_neq _ _)) by (intros ->; tauto). cbn [one]. destruct (bool_decide _); lia.
    - intros u Hu. destruct (Hlinks u Hu) as (st&Hst&->&_). by rewrite (io_links _ _ _ (lo_inode _ _ _ _ Hl _ _ Hst)). }
  assert (He3 : entries t3 = E) by (by rewrite (qu_entries _ _ _ Hq13)). eapply (retire_directory_spec t t3); [done|done| | | |done| | |].
  - intros x Hx. rewrite (quiet_is_dir heap t1 t3) by done. by apply Hrep.
  - rewrite He3. exact Hl3.
  - intros j. rewrite He3, (quiet_expected heap t1 t3) by done. change (inodes_of t1) with (inodes_of t). rewrite HxE, Hlc, Hnew. done.
  - transitivity t1; [by apply kept_inodes|by apply quiet_kept].
  - intros j Hj. by apply (quiet_pinned heap t1 t3).
  - intros j. by rewrite (quiet_is_Some heap t1 t3).
Qed.
(** ** The request *)
Lemma rename_checks_spec {B} t old new no_replace (k : option (Z * option Z) → presult B) P : exact t → linked t new.1 →
  (∀ src, entries t !! old = Some src → old = new ∨ entries t !! new = Some src → safe (k None) P) →
  (∀ src rep, plan t old new src rep → safe (k (Some (src, rep))) P) → safe (rename_checks maximum_name_bytes t old new no_replace ≫= k) P.
Proof.
  intros Hl Hlink Hnop Hgo. unfold rename_checks. apply safe_bind, safe_component, safe_component, safe_directory. intros _. apply safe_directory. intros Hp. apply safe_mutable. intros _.
  assert (Hstep : ∀ r : presult (option (Z * option Z)), safe r (λ a, safe (k a) P) → safe ((if decide (old.1 = new.1) then Ok () else validate_mutable_directory t new.1);; r) (λ a, safe (k a) P)).
  { intros r Hr. case_decide; [done|]. by apply safe_mutable. }
  apply Hstep, safe_ok_or. clear Hstep. intros src Hsrc. case_decide as Heq; [apply (Hnop src Hsrc); by left|]. cbv zeta. apply safe_reject. intros _.
  case_decide as Hsame; [apply (Hnop src Hsrc); by right|]. apply safe_reject. intros _. destruct (entry_state heap t old src Hl Hsrc) as (st&Hst&_). eapply safe_expect; [done|].
  apply safe_reject. intros _. assert (Hplan : plan t old new src (entries t !! new)) by (split; try done; by apply Hlink). apply safe_admit; [|by apply Hgo].
  destruct (entries t !! new) as [x|] eqn:Hx; [|done]. destruct (entry_state heap t new x Hl Hx) as (sx&->&_). cbn [expect]. rewrite Ok_bind. by destruct (immutable sx).
Qed.
(** The entries after a rename *)
Definition renamed E old new : Entries :=
  match E !! old with Some src => if decide (old = new ∨ E !! new = Some src) then E else moved E old new src | None => E end.
Lemma rename_spec t now p name p' name' no_replace : tree_wf t → linked t p' →
  safe (rename maximum_name_bytes t now p name p' name' no_replace) (becomes t (renamed (entries t) (p, name) (p', name'))).
Proof.
  intros Hw Hlink. pose proof (tw_loose _ _ Hw) as Hl. unfold rename. apply rename_checks_spec; [done|done| |].
  - intros src Hsrc Hnop. unfold renamed. rewrite Hsrc, decide_True by done. by split.
  - intros src rep Hplan. unfold renamed. pose proof Hplan as [Hold Hnew Hne Hother _ _]. rewrite Hold, decide_False by (intros [?|?]; congruence).
    apply safe_admit; [apply capacity_answers|]. destruct (entry_state heap t _ src Hl Hold) as (st&Hst&_). eapply safe_expect; [done|]. case_decide as Hd.
    + apply safe_bind. eapply safe_mono; [apply rename_directory_spec; [done|done|]; unfold is_dir; rewrite Hst; by apply bool_decide_true|]. intros t' Hb. destruct rep; [by apply becomes_creates|done].
    + apply rename_file_spec; [done|done|]. unfold is_dir. rewrite Hst. by apply bool_decide_false.
Qed.
End Rename.
End TreeRename.
