(* ===== verification/AttributeOps.v ===== *)
(** * Attribute requests and directory reads keep the tree

    They do not panic, change no name and no contents, and leave the attributes
    of other inodes; a directory read returns a page of the listing. *)
From S2P Require Export AttributeRequests TreeNames.

Module AttributeOps.
Import SparseData SparseDataOps DirtyEpoch DirtyEpochOps VersionedFile VersionedFileOps FileCommit FileRefinement InodeMetadata InodeAttributes FileCatalog FileCapacity FileHandlers FileHandlersOps NamespaceTree TreeRequests AttributeRequests TreeInvariant TreeSteps TreeRefs TreeNames.
Implicit Types (t : Tree) (st : InodeState) (i : Z).

Section Attributes.
Context (heap : Z → option (CommittedFile * (Z → option byte))) `{Adm : Admission} `{!AdmissionLaws} `{Auth : Authorities} `{Pol : NamePolicy}.
Abbreviation loose := (loose heap).
Abbreviation data_ok := (data_ok heap).
Abbreviation same_content := (same_content heap).
Abbreviation quiet := (quiet heap).
Abbreviation tree_wf := (tree_wf heap).
Abbreviation exact t := (loose (expected (entries t) (inodes_of t)) (matching (entries t)) t).
Abbreviation becomes := (becomes heap).

(** An inode that may have other attributes *)
Record restated st st' : Prop := {
  rs_kind : kind st' = kind st;
  rs_links : link_count st' = link_count st;
  rs_matches : policy_name_matches st' = policy_name_matches st;
  rs_target : symlink_target st' = symlink_target st;
  rs_metadata : metadata_wf (kind st') (metadata st');
}.
Definition attrs st : Z * Z * Z * InodeMetadata := (mode st, uid st, gid st, metadata st).
(** Only the attributes of [i] may change, and they are [a] *)
Record reattributed t i (a : Z * Z * Z * InodeMetadata) t' : Prop := {
  ra_wf : tree_wf t';
  ra_entries : entries t' = entries t;
  ra_next : next_inode t' = next_inode t;
  ra_inodes j st' : inodes_of t' !! j = Some st' →
    ∃ st, inodes_of t !! j = Some st ∧ kind st' = kind st ∧ symlink_target st' = symlink_target st ∧ abstract heap (file st') ≡ abstract heap (file st) ∧ (j ≠ i → same_content st st') ∧
      (j = i → attrs st' = a);
}.
Lemma reattributed_refl t i st : tree_wf t → inodes_of t !! i = Some st → reattributed t i (attrs st) t.
Proof. intros Hw Hi. split; [done|done|done|]. intros j x Hj. exists x. split_and!; try done. intros ->. congruence. Qed.
Lemma restate_spec t i st st' : tree_wf t → inodes_of t !! i = Some st → restated st st' → data_ok st' → resident_payload_bytes (file st') = resident_payload_bytes (file st) →
  abstract heap (file st') ≡ abstract heap (file st) → reattributed t i (attrs st') (set_inode t i st').
Proof.
  intros Hw Hi [Hk Hl Hm Htg Hmd] Hd Hr Hv. pose proof (tw_loose _ _ Hw) as Hx. destruct (lo_inode _ _ _ _ Hx i st Hi) as [O1 O2 O3 O4 O5].
  assert (Hl1 : loose (<[i := expected (entries t) (inodes_of t) i]> (expected (entries t) (inodes_of t))) (<[i := matching (entries t) i]> (matching (entries t))) (set_inode t i st')).
  { apply (loose_touch heap _ _ t i st); [done|done|done|done| |unfold inode_dirty; by rewrite Hl, Hr]. split; [congruence|congruence|lia|intros Hreg; rewrite Hr; apply O4; congruence|done]. }
  assert (Hi' : inodes_of (set_inode t i st') = <[i := st']> (inodes_of t)) by done. split; [|done|done|].
  - apply (wf_grow heap t _ i); [done| |done|done| |left; by eexists].
    + eapply loose_ext; [exact Hl1|]. intros j _. rewrite !insert_self by done. split; [|done]. symmetry. apply expected_ext; [intros ? ? _|]; by apply (is_dir_insert _ i st).
    + intros j Hj. rewrite Hi'. by rewrite lookup_insert_ne.
  - rewrite Hi'. intros j x [[<- <-]|[Hne Hj]]%lookup_insert_Some; [exists st; split_and!; done|]. exists x. split_and!; try done.
Qed.
Lemma reattributed_quiet t i a t1 t2 : reattributed t i a t1 → quiet t1 t2 → exact t2 → reattributed t i a t2.
Proof.
  intros [Hw He Hn Hi] Hq Hl. split; [|by rewrite (qu_entries _ _ _ Hq)|by rewrite (proj1 (qu_next _ _ _ Hq))|].
  - apply (wf_grow heap t1 t2 ROOT_INODE); [done|done|by rewrite (qu_entries _ _ _ Hq)|intros j; by apply (quiet_pinned heap t1 t2)|by intros j _ ?%(quiet_is_Some heap t1)|].
    left. destruct (loose_root _ _ _ _ (tw_loose _ _ Hw)) as (st&Hst&_). by eexists.
  - intros j x Hx. pose proof (qu_inodes _ _ _ Hq j) as Hr. rewrite Hx in Hr. inversion Hr as [y z Hyz Hy|]; subst. destruct (Hi j y ltac:(done)) as (st&Hst&Hk&Htg&Hv&Hs&Ha). pose proof Hyz as [Y1 Y2 [Y3 Y3'] Y4 Y5 Y6].
    exists st. split_and!; [done|congruence|congruence|by etrans| |].
    + intros Hj. etrans; [by apply Hs|done].
    + intros Hj. rewrite <-(Ha Hj). unfold attrs. congruence.
Qed.
(** ** Sequences and the end of a change *)
Record sequences_ok t i st (s : Z * Z) : Prop := {
  sq_inode : s.2 = inode_sequence st + 1 ∧ s.2 ≤ u64_max;
  sq_root : i ≠ ROOT_INODE → ∃ n, seq_of t ROOT_INODE = Some n ∧ s.1 = n + 1 ∧ s.1 ≤ u64_max;
}.
Lemma sequences_spec t i st : exact t → safe (next_namespace_and_inode_mutation_sequences t i (inode_sequence st)) (sequences_ok t i st).
Proof.
  intros Hl. unfold next_namespace_and_inode_mutation_sequences. apply safe_add. intros Hq. case_decide as Hr; [by split|]. eapply safe_root; [done|]. intros n Hs Hn. split; [done|]. by exists n.
Qed.
Lemma settle_spec t i st st' s : tree_wf t → inodes_of t !! i = Some st → restated st st' → file st' = file st → sequences_ok t i st s → ∃ t', settle t i st' s = Ok t' ∧ reattributed t i (attrs st') t'.
Proof.
  intros Hw Hi Hre Hfile [[Hq Hqm] Hroot]. pose proof (tw_loose _ _ Hw) as Hl. destruct (loose_data _ _ _ _ _ _ Hl Hi) as [Hf Hc Hs]. unfold settle.
  destruct (advance_data_spec heap st' (inode_sequence st)) as (f&Hadv&Hv&Hr&Hf'&Hc'&Hs'); [by rewrite Hfile|by rewrite Hfile|rewrite (rs_kind _ _ Hre), Hfile; intros Hk; by rewrite Hs|lia|].
  rewrite Hq, Hadv, Ok_bind. cbv zeta. set (x := set_links _ _ _). assert (Hre1 : restated st x) by (destruct Hre; by split).
  assert (H1 : reattributed t i (attrs st') (set_inode t i x)).
  { change (attrs st') with (attrs x). apply (restate_spec t i st x); [done|done|done| |by rewrite <-Hfile|by rewrite <-Hfile]. split; [done|done|]. intros Hk. symmetry. by apply Hs'. }
  set (t1 := set_inode t i x) in *. case_decide as Hroot'; [by exists t1|]. destruct (Hroot Hroot') as (n&Hseq&->&Hn).
  destruct (install_root_spec heap _ _ t1 n (tw_loose _ _ (ra_wf _ _ _ _ H1))) as (t2&->&Hl2&Hq2&_); [unfold t1; rewrite seq_of_set; by rewrite decide_False|lia|].
  exists t2. split; [done|]. apply (reattributed_quiet t i _ t1); [done|done|]. eapply loose_ext; [exact Hl2|]. intros j _. by rewrite (qu_entries _ _ _ Hq2), (quiet_expected heap t1 t2).
Qed.
(** ** The requests *)
Lemma attribute_safe k m op : metadata_wf k m → safe (attribute_apply k m op) (metadata_wf k).
Proof. intros Hm. destruct (attribute_step_spec k m op Hm) as (m'&Hstep&Hm'). unfold attribute_step in Hstep. by destruct (attribute_apply k m op); [injection Hstep as <-| |]. Qed.
Lemma set_xattr_safe k m name value mode : metadata_wf k m → safe (set_xattr m k name value mode) (λ r, metadata_wf k r.1).
Proof. intros Hm. pose proof (attribute_safe k m (SetXattr name value mode) Hm) as Hs. cbn [attribute_apply] in Hs. destruct (set_xattr m k name value mode); [exact Hs|done|exact Hs]. Qed.
Lemma chmod_safe k m mode : metadata_wf k m → safe (chmod m mode) (λ r, metadata_wf k r.1).
Proof. intros Hm. pose proof (attribute_safe k m (Chmod mode) Hm) as Hs. cbn [attribute_apply] in Hs. destruct (chmod m mode); [exact Hs|done|exact Hs]. Qed.
Lemma inode_metadata t i st : exact t → inodes_of t !! i = Some st → metadata_wf (kind st) (metadata st).
Proof. intros Hl Hi. apply (lo_inode _ _ _ _ Hl i st Hi). Qed.
Lemma settle_safe t i st st' s : tree_wf t → inodes_of t !! i = Some st → restated st st' → file st' = file st → sequences_ok t i st s → safe (settle t i st' s) (reattributed t i (attrs st')).
Proof. intros Hw Hi Hre Hf Hs. by destruct (settle_spec t i st st' s Hw Hi Hre Hf Hs) as (t'&->&?). Qed.
Lemma mutate_metadata_spec t now context i name mutation : tree_wf t →
  (∀ st, inodes_of t !! i = Some st → safe (mutation st) (λ st', restated st st' ∧ file st' = file st)) →
  safe (mutate_metadata t now context i name mutation) (λ t', ∃ st st', inodes_of t !! i = Some st ∧ mutation st = Ok st' ∧ reattributed t i (attrs st') t').
Proof.
  intros Hw Hmut. unfold mutate_metadata. apply safe_ok_or. intros st Hst. apply safe_admit.
  { destruct (_ && may_change_file_flags _ _); [done|]. unfold authorize_xattr_mutation. destruct ((_ || _) && negb _); [done|]. cbn [reject_if]. rewrite Ok_bind. by destruct (_ && _). }
  apply safe_reject. intros _. apply safe_bind. eapply safe_mono; [apply sequences_spec, Hw|]. intros s Hs. apply safe_bind. specialize (Hmut st Hst). destruct (mutation st) as [st'| |] eqn:Hm; [|done|done].
  destruct Hmut as [[R1 R2 R3 R4 R5] Hf]. cbn [safe]. eapply safe_mono; [by apply (settle_safe t i st)|]. intros t' Ht'. by exists st, st'.
Qed.
(** The attributes that a request gives *)
Inductive attribute_change :=
  | XattrChange (name value : bytes) (mode_ : XattrSetMode)
  | RemoveChange (name : bytes)
  | FlagsChange (flags : Z)
  | ModeChange (mode_ : Z)
  | UpdateChange (update : InodeAttributesUpdate).
Definition changed_attrs st (c : attribute_change) : Z * Z * Z * InodeMetadata :=
  match c with
  | XattrChange name value m =>
      match set_xattr (metadata st) (kind st) name value m with
      | Ok (md, access) => (match access with Some a => Z.lor (Z.land (mode st) (Z.lnot 0x1FF)) a | None => mode st end, uid st, gid st, md)
      | _ => attrs st
      end
  | RemoveChange name => match remove_xattr (metadata st) name with Ok md => (mode st, uid st, gid st, md) | _ => attrs st end
  | FlagsChange flags => (mode st, uid st, gid st, {| file_flags := flags; xattrs := xattrs (metadata st); xattr_bytes := xattr_bytes (metadata st) |})
  | ModeChange m => match chmod (metadata st) m with Ok (md, m) => (m, uid st, gid st, md) | _ => attrs st end
  | UpdateChange u =>
      let '(m, md) := match update_mode u with Some m => match chmod (metadata st) m with Ok (md, m) => (m, md) | _ => (mode st, metadata st) end | None => (mode st, metadata st) end in
      (match update_uid u, update_gid u with None, None => m | _, _ => Z.land m (Z.lnot 0xC00) end, default (uid st) (update_uid u), default (gid st) (update_gid u), md)
  end.
Definition change_request t (now : PosixTimestamp) (context : RequestContext) i (c : attribute_change) : presult (Tree * bool) :=
  match c with
  | XattrChange name value m => t ← set_xattr_request t now context i name value m; Ok (t, true)
  | RemoveChange name => t ← remove_xattr_request t now context i name; Ok (t, true)
  | FlagsChange flags => r ← set_file_flags_request t now context i flags; Ok (r.1, match r.2 with Ok _ => true | _ => false end)
  | ModeChange m => t ← set_mode_request t now context i m; Ok (t, true)
  | UpdateChange u => t ← set_attributes t now context i u; Ok (t, true)
  end.
Definition changed t i (c : attribute_change) t' : Prop := ∃ st, inodes_of t !! i = Some st ∧ reattributed t i (changed_attrs st c) t'.
Lemma xattr_changed t now context i name value m : tree_wf t → safe (set_xattr_request t now context i name value m) (changed t i (XattrChange name value m)).
Proof.
  intros Hw. eapply safe_mono; [apply mutate_metadata_spec; [done|]|].
  - intros st Hst. apply safe_bind. eapply safe_mono; [apply set_xattr_safe, (inode_metadata t i st); [apply Hw|done]|]. intros r Hr. cbn [safe]. split; [by split|done].
  - intros t' (st&st'&Hst&Hm&Hr). exists st. split; [done|]. cbn [changed_attrs]. destruct (set_xattr _ _ _ _ _) as [[md access]| |]; [|done|done]. rewrite Ok_bind in Hm. injection Hm as <-. done.
Qed.
Lemma remove_changed t now context i name : tree_wf t → safe (remove_xattr_request t now context i name) (changed t i (RemoveChange name)).
Proof.
  intros Hw. eapply safe_mono; [apply mutate_metadata_spec; [done|]|].
  - intros st Hst. apply safe_bind. eapply safe_mono; [apply (attribute_safe (kind st) _ (RemoveXattr name)), (inode_metadata t i st); [apply Hw|done]|]. intros r Hr. cbn [safe]. split; [by split|done].
  - intros t' (st&st'&Hst&Hm&Hr). exists st. split; [done|]. cbn [changed_attrs]. destruct (remove_xattr _ _) as [md| |]; [|done|done]. rewrite Ok_bind in Hm. injection Hm as <-. done.
Qed.
Lemma flags_changed t now context i flags : tree_wf t → safe (set_file_flags_request t now context i flags) (λ r, changed t i (FlagsChange flags) r.1).
Proof.
  intros Hw. unfold set_file_flags_request. apply safe_reject. intros _. apply safe_ok_or. intros st Hst. destruct (Z.eqb_spec (file_flags (metadata st)) flags) as [<-|_].
  { exists st. split; [done|]. replace (changed_attrs st _) with (attrs st); [by apply reattributed_refl|]. cbn [changed_attrs]. unfold attrs. do 3 f_equal. by destruct (metadata st). }
  apply safe_admit; [apply capacity_answers|]. pose proof (tw_loose _ _ Hw) as Hl. pose proof (attribute_safe (kind st) (metadata st) (SetFlags flags) (inode_metadata t i st Hl Hst)) as Hset.
  cbn [attribute_apply] in Hset. unfold set_file_flags in *. destruct (validate_file_flags flags) as [[]| |]; [|done|done]. rewrite Ok_bind in Hset. rewrite !Ok_bind. cbn [safe] in Hset. cbv zeta.
  set (x := set_ctime _ now). assert (Hre : restated st x) by (by split). pose proof (sequences_spec t i st Hl) as Hseq. change (inode_sequence x) with (inode_sequence st).
  destruct (next_namespace_and_inode_mutation_sequences t i (inode_sequence st)) as [s|e|]; [|cbn [safe fst]|done].
  - apply safe_bind. eapply safe_mono; [by apply (settle_safe t i st)|]. intros t' Ht'. by exists st.
  - exists st. split; [done|]. destruct (loose_data _ _ _ _ _ _ Hl Hst). by apply (restate_spec t i st x).
Qed.
Lemma mode_changed t now context i m : tree_wf t → safe (set_mode_request t now context i m) (changed t i (ModeChange m)).
Proof.
  intros Hw. unfold set_mode_request. apply safe_ok_or. intros st Hst. do 2 (apply safe_reject; intros _). apply safe_bind. eapply safe_mono; [apply sequences_spec, Hw|]. intros s Hs.
  pose proof (chmod_safe (kind st) (metadata st) m (inode_metadata t i st (tw_loose _ _ Hw) Hst)) as Hc. destruct (chmod (metadata st) m) as [[md m']| |] eqn:Hch; [|done|done]. rewrite Ok_bind.
  eapply safe_mono; [by apply (settle_safe t i st)|]. intros t' Ht'. exists st. split; [done|]. cbn [changed_attrs]. by rewrite Hch.
Qed.
Lemma update_state_spec st u now : metadata_wf (kind st) (metadata st) → safe (update_state st u now) (λ st', restated st st' ∧ file st' = file st ∧ attrs st' = changed_attrs st (UpdateChange u)).
Proof.
  intros Hm. unfold update_state. apply safe_bind. eapply (safe_mono _ (λ x, restated st x ∧ file x = file st ∧ uid x = uid st ∧ gid x = gid st ∧
    (mode x, metadata x) = match update_mode u with Some m => match chmod (metadata st) m with Ok (md, m) => (m, md) | _ => (mode st, metadata st) end | None => (mode st, metadata st) end)).
  - destruct (update_mode u) as [m|]; [|cbn [safe]; split_and!; done]. pose proof (chmod_safe (kind st) (metadata st) m Hm) as Hc. destruct (chmod (metadata st) m) as [[md m']| |]; [|done|done].
    rewrite Ok_bind. cbn [safe]. split_and!; done.
  - intros x ([R1 R2 R3 R4 R5]&Hf&Hu&Hg&Hmd). cbn [safe]. split; [by split|]. split; [done|]. cbn [changed_attrs]. destruct (match update_mode u with Some _ => _ | None => _ end) as [m md]. injection Hmd as <- <-.
    unfold attrs. cbn [set_times set_owner mode uid gid metadata]. rewrite Hu, Hg. destruct (update_uid u), (update_gid u); done.
Qed.
Lemma update_changed t now context i u : tree_wf t → safe (set_attributes t now context i u) (changed t i (UpdateChange u)).
Proof.
  intros Hw. unfold set_attributes. destruct (_ && bool_decide (_ ∧ _)) eqn:Hnone.
  - apply andb_prop in Hnone as [[[H1%bool_decide_eq_true H2%bool_decide_eq_true]%andb_prop H3%bool_decide_eq_true]%andb_prop _]. apply safe_ok_or. intros st Hst. exists st. split; [done|].
    cbn [changed_attrs]. rewrite H1, H2, H3. by apply reattributed_refl.
  - clear Hnone. apply safe_reject. intros _. apply safe_ok_or. intros st Hst. cbv zeta. do 3 (apply safe_reject; intros _). apply safe_admit; [apply capacity_answers|]. apply safe_bind.
    eapply safe_mono; [apply sequences_spec, Hw|]. intros s Hs. apply safe_bind. eapply safe_mono; [apply update_state_spec, (inode_metadata t i st); [apply Hw|done]|]. intros x (Hre&Hf&Ha).
    eapply safe_mono; [by apply (settle_safe t i st)|]. intros t' Ht'. exists st. split; [done|]. by rewrite <-Ha.
Qed.
Lemma change_request_spec t now context i c : tree_wf t → safe (change_request t now context i c) (λ r, changed t i c r.1).
Proof.
  intros Hw. destruct c; cbn [change_request]; apply safe_bind.
  - eapply safe_mono; [by apply xattr_changed|done].
  - eapply safe_mono; [by apply remove_changed|done].
  - eapply safe_mono; [by apply flags_changed|done].
  - eapply safe_mono; [by apply mode_changed|done].
  - eapply safe_mono; [by apply update_changed|done].
Qed.
Lemma readlink_spec t now i : tree_wf t → safe (readlink t now i) (λ r, ∃ st, inodes_of t !! i = Some st ∧ symlink_target st = Some r.2 ∧ reattributed t i (attrs st) r.1).
Proof.
  intros Hw. unfold readlink. apply safe_ok_or. intros st Hst. change (inodes_of t !! i = Some st) in Hst. apply safe_ok_or. intros target Htarget. apply safe_bind.
  eapply (safe_mono _ (reattributed t i (attrs st))); [|intros t' Ht'; by exists st]. unfold update_relatime. destruct (negb _); [by apply reattributed_refl|].
  pose proof (sequences_spec t i st (tw_loose _ _ Hw)) as Hs. destruct (next_namespace_and_inode_mutation_sequences t i (inode_sequence st)) as [s|e|]; [|by apply reattributed_refl|done].
  pose proof (capacity_answers (claim_new MUTATION_METADATA_INCREMENT_BYTES_V1 0)). destruct (reserve_commit_capacity _) as [[]| |]; [|by apply reattributed_refl|done].
  set (x := set_times st _). change (attrs st) with (attrs x). apply (settle_safe t i st x); [done|done| |done|done]. pose proof (inode_metadata t i st (tw_loose _ _ Hw) Hst). by split.
Qed.
(** ** Directory reads *)
Definition summary (row : DirectoryEntry) : Z * bytes * Z := (entry_inode row, entry_name row, next_offset row).
Definition row_ok t (row : DirectoryEntry) : Prop := ∃ st, inodes_of t !! entry_inode row = Some st ∧ entry_kind row = kind st ∧ entry_attr row = attributes st (entry_inode row).
Definition parent_directory t i : Z := if decide (i = ROOT_INODE) then ROOT_INODE else default i (parent_of t i).
(** Everything that the reads of a directory return, each with the offset after it *)
Definition listing t i : list (Z * bytes * Z) :=
  (i, [dot], 1) :: (parent_directory t i, [dot; dot], 2) :: imap (λ n kv, (kv.2, kv.1.2, Z.of_nat n + 3)) (children_of t i).
Lemma children_spec t i k x : (k, x) ∈ children_of t i ↔ k.1 = i ∧ entries t !! k = Some x.
Proof. unfold children_of. rewrite list_elem_of_filter. unfold entry_list. by rewrite (sort_by_key_perm fst (map_to_list (entries t))), elem_of_map_to_list. Qed.
Lemma children_length t i : (length (children_of t i) ≤ size (entries t))%nat.
Proof. unfold children_of. etrans; [apply length_filter|]. unfold entry_list. rewrite (Permutation_length (sort_by_key_perm fst (map_to_list (entries t)))). by rewrite length_map_to_list. Qed.
Lemma child_rows_spec t l : ∀ index, (∀ kv, kv ∈ l → is_Some (inodes_of t !! kv.2)) → 0 ≤ index → index + Z.of_nat (length l) + 3 ≤ i64_max →
  ∃ rows, child_rows t index l = Ok rows ∧ summary <$> rows = imap (λ n kv, (kv.2, kv.1.2, index + Z.of_nat n + 3)) l ∧ Forall (row_ok t) rows.
Proof.
  induction l as [|[[p n] x] l IH]; intros index Hl Hi Hm; [by exists []|]. cbn [length] in Hm. destruct (Hl ((p, n), x) ltac:(by left)) as [st Hst]. cbn [snd] in Hst. cbn [child_rows]. rewrite Hst.
  cbn [expect]. rewrite Ok_bind, checked_add_ok by (change usize_max with (2 ^ 64 - 1); change i64_max with (2 ^ 63 - 1) in Hm; lia). cbn [ok_or]. rewrite Ok_bind, (proj2 (Z.ltb_ge _ _)) by lia.
  cbn [reject_if]. rewrite Ok_bind. destruct (IH (index + 1)) as (rows&->&Hrows&Hok); [intros kv Hkv; apply Hl; by right|lia|lia|]. rewrite Ok_bind. eexists. split; [done|]. split.
  - cbn [fmap list_fmap imap]. f_equal; [unfold summary; cbn; do 2 f_equal; lia|]. rewrite Hrows. apply imap_ext. intros j kv _. cbn. f_equal. lia.
  - constructor; [by exists st|done].
Qed.
Lemma dot_rows_spec t i start : tree_wf t → is_dir (inodes_of t) i = true → reach (entries t) i → 0 ≤ start →
  ∃ rows, dot_rows t i start = Ok rows ∧ summary <$> rows = drop (Z.to_nat start) [(i, [dot], 1); (parent_directory t i, [dot; dot], 2)] ∧ Forall (row_ok t) rows.
Proof.
  intros Hw Hd Hr Hs. pose proof (lo_tree _ _ _ _ (tw_loose _ _ Hw)) as Ht. assert (Hp : is_dir (inodes_of t) (parent_directory t i) = true ∧
    (if decide (i = ROOT_INODE) then Ok ROOT_INODE else expect (parent_of t i)) = (Ok (parent_directory t i) : presult Z)).
  { unfold parent_directory. case_decide as Hroot; [by split; [apply Ht|]|]. pose proof (parent_of_spec t i) as Hpar. destruct (parent_of t i) as [p|].
    - destruct Hpar as [n Hn]. split; [by apply (to_parent _ _ Ht p n i)|done].
    - exfalso. inversion Hr as [|p n j _ Hj]; subst; [done|]. by apply (Hpar (p, n)). }
  destruct Hp as [Hpd Hpe]. destruct (is_dir_Some _ _ Hd) as (st&Hst&Hk), (is_dir_Some _ _ Hpd) as (sp&Hsp&Hpk). unfold dot_rows, dot_row. rewrite Hpe, Hst. cbn [expect]. rewrite !Ok_bind, Hsp. cbn [expect]. rewrite !Ok_bind.
  destruct (Z.eqb_spec start 0) as [->|H0]; [|destruct (Z.leb_spec start 1)].
  - eexists. split; [done|]. split; [done|]. repeat constructor; by eexists.
  - assert (start = 1) as -> by lia. eexists. split; [done|]. split; [done|]. repeat constructor; by eexists.
  - eexists. split; [done|]. split; [|constructor]. replace (Z.to_nat start) with (2 + (Z.to_nat start - 2))%nat by lia. by destruct (Z.to_nat start - 2)%nat.
Qed.
Lemma listing_split {A} (a b : A) l (off : nat) m : (2 ≤ m)%nat → take m (drop off (a :: b :: l)) = drop off [a; b] ++ take (m - length (drop off [a; b])) (drop (off - 2) l).
Proof.
  intros Hm. destruct m as [|[|m]]; [lia|lia|]. destruct off as [|[|off]]; simpl; rewrite ?drop_nil, ?Nat.sub_0_r; done.
Qed.
Lemma imap_page {A B} (f : Z → A → B) l skip m : imap (λ n x, f (Z.of_nat skip + Z.of_nat n) x) (take m (drop skip l)) = take m (drop skip (imap (λ n x, f (Z.of_nat n) x) l)).
Proof.
  apply list_eq. intros n. rewrite list_lookup_imap. destruct (decide (n < m)%nat) as [Hn|Hn].
  - rewrite !lookup_take_lt by done. rewrite !lookup_drop, list_lookup_imap. destruct (l !! (skip + n)%nat); [|done]. cbn. by rewrite Nat2Z.inj_add.
  - by rewrite !lookup_take_ge by lia.
Qed.
(** The lookups that a read counts *)
Definition additions_ok t (l : list (Z * Z)) : Prop := NoDup l.*1 ∧ ∀ i n, (i, n) ∈ l → 0 < n ∧ is_Some (inodes_of t !! i).
Lemma count_additions_spec t rows : Forall (row_ok t) rows → ∀ m, (∀ i n, m !! i = Some n → 0 < n ∧ is_Some (inodes_of t !! i)) →
  safe (count_additions rows m) (λ m', ∀ i n, m' !! i = Some n → 0 < n ∧ is_Some (inodes_of t !! i)).
Proof.
  induction 1 as [|row rows Hrow Hrows IH]; intros m Hm; cbn [count_additions]; [done|]. apply safe_add. intros _. apply IH. intros i n [[<- <-]|[_ Hi]]%lookup_insert_Some; [|by apply Hm].
  destruct Hrow as (st&Hst&_). split; [|by eexists]. destruct (m !! entry_inode row) as [k|] eqn:Hk; cbn; [|lia]. destruct (Hm _ _ Hk). lia.
Qed.
Lemma sorted_additions t (m : gmap Z Z) : (∀ i n, m !! i = Some n → 0 < n ∧ is_Some (inodes_of t !! i)) → additions_ok t (sort_by_key fst (map_to_list m)).
Proof.
  intros Hm. split; [rewrite (sort_by_key_perm fst (map_to_list m)); apply NoDup_fst_map_to_list|]. intros i n. rewrite (sort_by_key_perm fst (map_to_list m)), elem_of_map_to_list. apply Hm.
Qed.
Lemma acquire_additions_spec l : ∀ t t1, becomes t (entries t) t1 → additions_ok t1 l → check_additions t1 l = Ok () → ∃ t2, acquire_additions t1 l = Ok t2 ∧ becomes t (entries t) t2.
Proof.
  induction l as [|[i n] l IH]; intros t t1 Hb [Hnd Hl] Hc; [by exists t1|]. cbn [check_additions acquire_additions] in *. destruct (Hl i n ltac:(by left)) as [Hn Hi]. apply NoDup_cons in Hnd as [Hni Hnd].
  unfold acquire_lookup. rewrite (proj2 (Z.ltb_lt _ _) Hn), bool_decide_true by done. cbn [assert_true]. rewrite !Ok_bind.
  destruct (checked_add u64_max (lookups t1 i) n) as [next|] eqn:Hadd; [|done]. cbn [ok_or] in *. rewrite Ok_bind in Hc. rewrite Ok_bind.
  apply checked_add_Some in Hadd as [-> Hm]. pose proof (lookups_nonneg heap _ _ t1 i (tw_loose _ _ (proj1 Hb))).
  apply IH; [by apply lookup_becomes; [|lia|]|split; [done|intros j k Hj; apply Hl; by right]|]. clear -Hc Hni. revert Hc. induction l as [|[j k] l IHl]; [done|]. cbn [check_additions fmap list_fmap] in *.
  apply not_elem_of_cons in Hni as [Hne Hni]. assert (Hlook : ∀ v, lookups (set_lookups t1 (<[i := v]> (lookup_counts t1))) j = lookups t1 j) by (intros v; unfold lookups; cbn [set_lookups lookup_counts]; by rewrite lookup_insert_ne).
  rewrite Hlook. destruct (checked_add u64_max (lookups t1 j) k); [|done]. cbn [ok_or]. rewrite !Ok_bind. by apply IHl.
Qed.
(** How often the rows name an inode *)
Definition listed (page : list (Z * bytes * Z)) (j : Z) : Z := Z.of_nat (length (filter (λ row, row.1.1 = j) page)).
Lemma listed_cons row page j : listed (row :: page) j = (if decide (row.1.1 = j) then 1 else 0) + listed page j.
Proof. unfold listed. rewrite filter_cons. case_decide; cbn [length]; lia. Qed.
Lemma listed_le page j : 0 ≤ listed page j ≤ Z.of_nat (length page).
Proof. unfold listed. pose proof (length_filter (λ row : Z * bytes * Z, row.1.1 = j) page). lia. Qed.
Lemma count_additions_exact rows : ∀ m, (∀ j, 0 ≤ default 0 (m !! j) ∧ default 0 (m !! j) + Z.of_nat (length rows) ≤ u64_max) →
  ∃ m', count_additions rows m = Ok m' ∧ ∀ j, default 0 (m' !! j) = default 0 (m !! j) + listed (summary <$> rows) j.
Proof.
  induction rows as [|row rows IH]; intros m Hm; cbn [count_additions]; [exists m; split; [done|intros j; unfold listed; cbn; lia]|].
  pose proof (Hm (entry_inode row)) as [H0 H1]. cbn [length] in *. rewrite checked_add_ok by lia. cbn [ok_or]. rewrite Ok_bind.
  set (m1 := <[entry_inode row := _]> m).
  assert (Hm1 : ∀ j, default 0 (m1 !! j) = default 0 (m !! j) + (if decide (entry_inode row = j) then 1 else 0)).
  { intros j. unfold m1. case_decide as Hj; [subst j; by rewrite lookup_insert_eq|]. rewrite lookup_insert_ne by done. lia. }
  destruct (IH m1) as (m'&->&Hm').
  { intros j. rewrite Hm1. specialize (Hm j). case_decide; lia. }
  exists m'. split; [done|]. intros j. rewrite Hm', Hm1, fmap_cons, listed_cons. cbn [summary fst]. lia.
Qed.
Lemma check_additions_exact t l :
  match check_additions t l with
  | Ok _ => ∀ j n, (j, n) ∈ l → lookups t j + n ≤ u64_max
  | Err e => e = NoSpace ∧ ∃ j n, (j, n) ∈ l ∧ u64_max < lookups t j + n
  | Panic => False
  end.
Proof.
  induction l as [|[i n] l IH]; cbn [check_additions]; [by intros j n ?%not_elem_of_nil|].
  unfold checked_add. destruct (Z.leb_spec (lookups t i + n) u64_max); cbn [ok_or]; [rewrite Ok_bind|].
  - destruct (check_additions t l) as [[]|e|]; [|destruct IH as (->&j&k&?&?); split; [done|]; exists j, k; split; [by right|done]|done].
    intros j k [[= -> ->]|?]%elem_of_cons; [done|by apply IH].
  - split; [done|]. exists i, n. split; [by left|done].
Qed.
Lemma acquire_additions_exact l : ∀ t t2, NoDup l.*1 → acquire_additions t l = Ok t2 →
  t2 = set_lookups t (lookup_counts t2) ∧ (∀ j n, (j, n) ∈ l → lookups t2 j = lookups t j + n) ∧ (∀ j, j ∉ l.*1 → lookups t2 j = lookups t j).
Proof.
  induction l as [|[i n] l IH]; intros t t2 Hnd; cbn [acquire_additions].
  { intros [= <-]. split_and!; [by destruct t|by intros ?? ?%not_elem_of_nil|done]. }
  apply NoDup_cons in Hnd as [Hni Hnd]. unfold acquire_lookup.
  destruct (assert_true (0 <? n)) as [[]| |]; [rewrite Ok_bind|done..]. destruct (assert_true (bool_decide _)) as [[]| |]; [rewrite Ok_bind|done..].
  unfold checked_add. destruct (lookups t i + n <=? u64_max); cbn [ok_or]; [rewrite !Ok_bind|done]. set (t1 := set_lookups t _). intros Ha.
  destruct (IH t1 t2 Hnd Ha) as (Heq&Hin&Hout).
  assert (Hl1 : ∀ j, lookups t1 j = if decide (j = i) then lookups t i + n else lookups t j).
  { intros j. unfold t1, lookups. cbn [set_lookups lookup_counts]. case_decide as Hj; [subst j; by rewrite lookup_insert_eq|by rewrite lookup_insert_ne]. }
  split_and!; [done|..].
  - intros j k [[= -> ->]|Hj]%elem_of_cons; [rewrite Hout, Hl1, decide_True by done; done|].
    rewrite (Hin j k Hj), Hl1, decide_False; [done|]. intros ->. apply Hni. by apply (list_elem_of_fmap_2 fst _ (i, k)).
  - intros j [? Hj]%not_elem_of_cons. by rewrite Hout, Hl1, decide_False.
Qed.
(** Counting the lookups of a page: all of them, or none when one has no room *)
Lemma count_lookups_exact t rows : Z.of_nat (length rows) ≤ u64_max → ∃ additions, count_additions rows ∅ = Ok additions ∧
  let l := sort_by_key fst (map_to_list additions) in
  match check_additions t l with
  | Ok _ => ∀ t2, acquire_additions t l = Ok t2 → t2 = set_lookups t (lookup_counts t2) ∧
      ∀ j, lookups t2 j = lookups t j + listed (summary <$> rows) j ∧ (0 < listed (summary <$> rows) j → lookups t j + listed (summary <$> rows) j ≤ u64_max)
  | Err e => e = NoSpace ∧ ∃ j, u64_max < lookups t j + listed (summary <$> rows) j
  | Panic => False
  end.
Proof.
  intros Hlen. destruct (count_additions_exact rows ∅) as (m&Hm&Hl); [intros j; rewrite lookup_empty; cbn; lia|]. exists m. split; [done|]. cbv zeta.
  setoid_rewrite lookup_empty in Hl. cbn [default] in Hl.
  assert (Hin : ∀ j n, (j, n) ∈ sort_by_key fst (map_to_list m) ↔ m !! j = Some n) by (intros j n; by rewrite (sort_by_key_perm fst (map_to_list m)), elem_of_map_to_list).
  assert (Hval : ∀ j n, m !! j = Some n → n = listed (summary <$> rows) j) by (intros j n Hj; specialize (Hl j); rewrite Hj in Hl; cbn in Hl; lia).
  pose proof (check_additions_exact t (sort_by_key fst (map_to_list m))) as Hc. destruct (check_additions t _) as [[]|e|]; [| |done].
  - intros t2 Ha. apply acquire_additions_exact in Ha as (Heq&Hadd&Hrest); [|rewrite (sort_by_key_perm fst (map_to_list m)); apply NoDup_fst_map_to_list].
    split; [done|]. intros j. destruct (m !! j) as [n|] eqn:Hj.
    + pose proof (Hval j n Hj) as <-. split; [by apply Hadd, Hin|]. intros _. by apply Hc, Hin.
    + specialize (Hl j). rewrite Hj in Hl. cbn in Hl. split; [|lia]. rewrite Hrest; [lia|]. intros ([j' n]&->&?%Hin)%list_elem_of_fmap. cbn in Hj. congruence.
  - destruct Hc as (->&j&n&Hj%Hin&Hn). split; [done|]. exists j. by rewrite <-(Hval j n Hj).
Qed.
Lemma directory_page t i offset (counted : bool) : tree_wf t → is_dir (inodes_of t) i = true → reach (entries t) i → 0 ≤ offset → offset + Z.of_nat (size (entries t)) ≤ 2 ^ 62 →
  let page := take 256 (drop (Z.to_nat offset) (listing t i)) in
  match read_directory t i offset counted with
  | Ok (t', rows) => summary <$> rows = page ∧ Forall (row_ok t) rows ∧ becomes t (entries t) t' ∧ t' = set_lookups t (lookup_counts t') ∧
      (counted = false → t' = t) ∧
      (counted = true → ∀ j, lookups t' j = lookups t j + listed page j ∧ (0 < listed page j → lookups t j + listed page j ≤ u64_max))
  | Err e => counted = true ∧ e = NoSpace ∧ ∃ j, u64_max < lookups t j + listed page j
  | Panic => False
  end.
Proof.
  intros Hw Hd Hr Ho Hsz page. pose proof (lo_tree _ _ _ _ (tw_loose _ _ Hw)) as Ht. destruct (is_dir_Some _ _ Hd) as (st&Hst&Hk). unfold read_directory. rewrite (proj2 (Z.ltb_ge _ _)) by lia. cbn [reject_if].
  rewrite Ok_bind. unfold validate_directory. rewrite Hst. cbn [ok_or]. rewrite Ok_bind, (bool_decide_false (kind st ≠ Directory)) by (by intros []). cbn [reject_if expect]. rewrite !Ok_bind.
  destruct (dot_rows_spec t i offset Hw Hd Hr Ho) as (dots&->&Hdots&Hdok). rewrite Ok_bind. cbv zeta. set (skip := Z.max 0 (offset - 2)). set (m := (MAX_DIRECTORY_ENTRIES_PER_REPLY - length dots)%nat).
  pose proof (children_length t i) as Hcl. destruct (child_rows_spec t (take m (drop (Z.to_nat skip) (children_of t i))) skip) as (children&->&Hch&Hcok); [|lia| |].
  { intros [k x] [j Hkv]%list_elem_of_lookup. apply lookup_take_Some in Hkv as [Hkv _]. rewrite lookup_drop in Hkv. apply list_elem_of_lookup_2, children_spec in Hkv as [_ Hkv].
    by apply (to_child _ _ Ht k x). }
  { rewrite length_take, length_drop. change i64_max with (2 ^ 63 - 1). lia. }
  rewrite Ok_bind. assert (Hrows : summary <$> dots ++ children = take 256 (drop (Z.to_nat offset) (listing t i)) ∧ Forall (row_ok t) (dots ++ children)).
  { split; [|by apply Forall_app]. rewrite fmap_app, Hdots, Hch. unfold listing. rewrite listing_split by lia. f_equal. rewrite <-Hdots, length_fmap. change 256%nat with MAX_DIRECTORY_ENTRIES_PER_REPLY. fold m.
    replace (Z.to_nat offset - 2)%nat with (Z.to_nat skip) by lia. pose proof (imap_page (λ z kv, (kv.2, kv.1.2, z + 3)) (children_of t i) (Z.to_nat skip) m) as Hi. cbv beta in Hi. rewrite <-Hi. rewrite Z2Nat.id by lia. done. }
  fold page in Hrows. destruct Hrows as [Hsum Hrok].
  destruct counted; [|rewrite Ok_bind; split_and!; [done|done|by apply becomes_refl|by destruct t|done|done]].
  destruct (count_lookups_exact t (dots ++ children)) as (additions&Hcnt&Hexact).
  { rewrite <-(length_fmap summary), Hsum. unfold page. rewrite length_take. change u64_max with (2 ^ 64 - 1). lia. }
  pose proof (count_additions_spec t (dots ++ children) Hrok ∅ ltac:(by intros ?? ?%lookup_empty_Some)) as Hcount.
  rewrite Hcnt in Hcount |- *. rewrite Ok_bind. pose proof (sorted_additions t additions Hcount) as Hadd. cbv zeta in Hexact. rewrite Hsum in Hexact. set (l := sort_by_key fst (map_to_list additions)) in *.
  destruct (check_additions t l) as [[]| |] eqn:Hc; [|by split|done]. rewrite Ok_bind.
  destruct (acquire_additions_spec l t t (becomes_refl heap t Hw) Hadd Hc) as (t2&Ha&Hb). rewrite Ha, Ok_bind. destruct (Hexact t2 Ha) as [Heq Hl].
  split_and!; done.
Qed.
Lemma read_directory_safe t i offset counted : tree_wf t → linked t i → offset + Z.of_nat (size (entries t)) ≤ 2 ^ 62 → safe (read_directory t i offset counted) (λ r, becomes t (entries t) r.1).
Proof.
  intros Hw Hlink Hsz. destruct (Z.ltb_spec offset 0) as [Ho|Ho]; [unfold read_directory; by rewrite (proj2 (Z.ltb_lt _ _) Ho)|].
  destruct (is_dir (inodes_of t) i) eqn:Hd.
  - pose proof (directory_page t i offset counted Hw Hd (Hlink Hd) Ho Hsz) as Hp. destruct (read_directory t i offset counted) as [[]| |]; [|done|done]. cbn [safe fst]. apply Hp.
  - unfold read_directory. rewrite (proj2 (Z.ltb_ge _ _)) by lia. cbn [reject_if]. rewrite Ok_bind. apply safe_directory. by rewrite Hd.
Qed.
End Attributes.
End AttributeOps.
