(* ===== verification/TreeReferences.v ===== *)
(** * References and times after a request

    What every request on the tree leaves of the lookup counts, the open handles
    and the inodes: which one gets a lookup or a handle, which times change, and
    what a new inode is. *)
From S2P Require Export AttributeOps.

Module TreeReferences.
Import SparseData DirtyEpoch VersionedFile FileCommit InodeMetadata FileCatalog FileCapacity FileHandlers NamespaceTree TreeRequests AttributeRequests TreeInvariant AttributeOps.
Implicit Types (t : Tree) (st : InodeState) (i : Z).

(** What is in an inode besides its counters *)
Definition card st : InodeState := set_matches (set_links st 0 0) 0.
Definition cards t i : option InodeState := card <$> inodes_of t !! i.
(** The references of a tree, and the inodes it may have *)
Record state_is t (counts : gmap Z Z) (opened : gmap Z OpenHandle) (f : Z → option InodeState) : Prop := {
  si_counts : lookup_counts t = counts;
  si_handles : handles_of t = opened;
  si_cards i st : inodes_of t !! i = Some st → f i = Some (card st);
}.
Definition becoming (f : Z → option InodeState) i st : Z → option InodeState := λ j, if decide (j = i) then Some st else f j.
(** Steps that leave references and inodes, but for counters and inodes that go *)
Record same_refs t t' : Prop := {
  sr_counts : lookup_counts t' = lookup_counts t;
  sr_handles : handles_of t' = handles_of t;
  sr_cards i st' : inodes_of t' !! i = Some st' → ∃ st, inodes_of t !! i = Some st ∧ card st' = card st;
}.
#[global] Instance same_refs_pre : PreOrder same_refs.
Proof.
  split; [intros t; split; [done|done|]; intros i st Hi; by exists st|]. intros a b c [A1 A2 A3] [B1 B2 B3]. split; [congruence|congruence|].
  intros i z (y&(x&Hx&Exy)%A3&Eyz)%B3. exists x. split; [done|congruence].
Qed.
Lemma state_refl t : state_is t (lookup_counts t) (handles_of t) (cards t).
Proof. split; [done|done|]. intros i st Hi. unfold cards. by rewrite Hi. Qed.
Lemma state_step t t' L H f : same_refs t t' → state_is t L H f → state_is t' L H f.
Proof. intros [S1 S2 S3] [I1 I2 I3]. split; [congruence|congruence|]. intros i st' (st&Hst&->)%S3. by apply I3. Qed.
Lemma state_alike t t' L H f : state_is t L H f → lookup_counts t' = lookup_counts t → handles_of t' = handles_of t → inodes_of t' = inodes_of t → state_is t' L H f.
Proof. intros [I1 I2 I3] E1 E2 E3. split; [congruence|congruence|]. rewrite E3. exact I3. Qed.
Lemma state_set t i st L H f : state_is t L H f → state_is (set_inode t i st) L H (becoming f i (card st)).
Proof. intros [I1 I2 I3]. split; [done|done|]. unfold becoming. change (inodes_of (set_inode t i st)) with (<[i := st]> (inodes_of t)). intros j x [[<- <-]|[Hne Hx]]%lookup_insert_Some; [by rewrite decide_True|]. rewrite decide_False by congruence. by apply I3. Qed.
Lemma state_ext t L H f g : state_is t L H f → (∀ i, f i = g i) → state_is t L H g.
Proof. intros [I1 I2 I3] He. split; [done|done|]. intros i st Hi. rewrite <-He. by apply I3. Qed.
(** A state with other counters *)
Lemma state_keep t i st L H f : f i = Some (card st) → state_is t L H f → state_is (set_inode t i st) L H f.
Proof. intros Hf Hs. eapply state_set, state_ext in Hs; [exact Hs|]. intros j. unfold becoming. by case_decide; subst. Qed.
Lemma same_set t i st st' : inodes_of t !! i = Some st → card st' = card st → same_refs t (set_inode t i st').
Proof. intros Hi Hc. split; [done|done|]. change (inodes_of (set_inode t i st')) with (<[i := st']> (inodes_of t)). intros j x [[<- <-]|[_ Hx]]%lookup_insert_Some; [by exists st|by exists x]. Qed.

(** ** Partial results *)
Definition yields {A} (r : presult A) (P : A → Prop) : Prop := ∀ a, r = Ok a → P a.
Lemma yields_bind {A B} (r : presult A) (k : A → presult B) P : (∀ a, r = Ok a → yields (k a) P) → yields (r ≫= k) P.
Proof. intros Hk b. destruct r as [a| |]; [|done|done]. by apply Hk. Qed.
Lemma yields_ok {A} (a : A) (P : A → Prop) : P a → yields (Ok a) P.
Proof. by intros Ha b [= <-]. Qed.
Lemma yields_mono {A} (r : presult A) (P Q : A → Prop) : yields r P → (∀ a, P a → Q a) → yields r Q.
Proof. intros Hr Hq a Ha. by apply Hq, Hr. Qed.
Lemma yields_reject {A} b e (k : presult A) P : (b = false → yields k P) → yields (reject_if b e;; k) P.
Proof. destruct b; [done|]. intros Hk. by apply Hk. Qed.
Lemma yields_ok_or {A B} (o : option A) e (k : A → presult B) P : (∀ a, o = Some a → yields (k a) P) → yields (ok_or o e ≫= k) P.
Proof. destruct o; [|done]. intros Hk. by apply Hk. Qed.
Lemma yields_expect {A B} (o : option A) (k : A → presult B) P : (∀ a, o = Some a → yields (k a) P) → yields (expect o ≫= k) P.
Proof. destruct o; [|done]. intros Hk. by apply Hk. Qed.
Lemma yields_assert {A} b (k : presult A) P : (b = true → yields k P) → yields (assert_true b;; k) P.
Proof. destruct b; [|done]. intros Hk. by apply Hk. Qed.
(** A step that leaves the references, and the rest from there *)
Lemma yields_same {A} t (r : presult Tree) (k : Tree → presult A) L H f P : yields r (same_refs t) → state_is t L H f → (∀ t', state_is t' L H f → yields (k t') P) → yields (r ≫= k) P.
Proof. intros Hr Hs Hk. apply yields_bind. intros t' Ht'. apply Hk. eapply state_step; [by apply Hr|done]. Qed.
Lemma yields_last t (r : presult Tree) L H f : yields r (same_refs t) → state_is t L H f → yields r (λ t', state_is t' L H f).
Proof. intros Hr Hs t' Ht'. eapply state_step; [by apply Hr|done]. Qed.

Section References.
Context `{Adm : Admission} `{Dom : Domains} `{Auth : Authorities} `{Pol : NamePolicy} (maximum_name_bytes empty_id : Z).

(** ** Steps *)
Lemma insert_entry_same t key i previous : yields (insert_entry t key i previous) (same_refs t).
Proof. apply yields_assert. intros _. apply yields_ok. split; [done|done|]. intros j st Hj. by exists st. Qed.
Lemma remove_entry_same t key i : yields (remove_entry t key i) (same_refs t).
Proof. apply yields_assert. intros _. apply yields_ok. split; [done|done|]. intros j st Hj. by exists st. Qed.
Lemma remove_inode_same t i : yields (remove_inode t i) (same_refs t).
Proof.
  apply yields_assert. intros _. apply yields_ok. split; [done|done|]. change (inodes_of (set_inodes t (delete i (inodes_of t)))) with (delete i (inodes_of t)).
  intros j st [_ Hj]%lookup_delete_Some. by exists st.
Qed.
Lemma drop_orphan_same t i orphan : yields (drop_orphan t i orphan) (same_refs t).
Proof. unfold drop_orphan. destruct (_ && _); [apply remove_inode_same|by apply yields_ok]. Qed.
Lemma adjust_same t i b added : yields (adjust_policy_name_matches t i b added) (same_refs t).
Proof.
  unfold adjust_policy_name_matches. destruct (negb b); [by apply yields_ok|]. apply yields_expect. intros st Hst.
  destruct added; [|apply yields_expect; intros n _]; apply yields_ok; by apply (same_set t i st).
Qed.
Lemma install_same t n : yields (install_root_mutation_sequence t n) (same_refs t).
Proof. apply yields_expect. intros st Hst. apply yields_expect. intros m _. apply yields_assert. intros _. apply yields_ok. by apply (same_set t ROOT_INODE st). Qed.
Lemma record_same t i : yields (record_create t i) (same_refs t).
Proof. unfold record_create. destruct try_reserve; [|by apply yields_ok]. apply yields_assert. intros _. apply yields_ok. split; [done|done|]. intros j st Hj. by exists st. Qed.
Lemma creates_same t m : same_refs t (set_creates t m).
Proof. split; [done|done|]. intros j st Hj. by exists st. Qed.
Lemma apply_parents_same us : ∀ t, yields (apply_parents t us) (same_refs t).
Proof.
  induction us as [|[[p links] q] us IH]; intros t; cbn [apply_parents]; [by apply yields_ok|]. apply yields_expect. intros st Hst.
  eapply yields_mono; [apply IH|]. intros t' Ht'. etrans; [|exact Ht']. by apply (same_set t p st).
Qed.
Lemma same_bind t (r : presult Tree) (k : Tree → presult Tree) : yields r (same_refs t) → (∀ t', yields (k t') (same_refs t')) → yields (r ≫= k) (same_refs t).
Proof. intros Hr Hk. apply yields_bind. intros t' Ht'. eapply yields_mono; [apply Hk|]. intros t2 Ht2. etrans; [by apply Hr|done]. Qed.
Lemma move_entry_same t old new src rep : yields (move_entry t old new src rep) (same_refs t).
Proof. apply same_bind; [apply remove_entry_same|]. intros t'. apply insert_entry_same. Qed.
Lemma move_matches_same t old new src rep : yields (move_matches t old new src rep) (same_refs t).
Proof. apply same_bind; [apply adjust_same|]. intros t1. apply same_bind; [apply adjust_same|]. intros t2. destruct rep; [apply adjust_same|by apply yields_ok]. Qed.
Lemma retire_directory_same t i n : yields (retire_directory t i n) (same_refs t).
Proof.
  apply yields_expect. intros st Hst. cbv zeta. assert (Hs : same_refs t (set_inode t i (set_links st 0 n))) by (by apply (same_set t i st)).
  destruct (_ =? 0); [|by apply yields_ok]. eapply yields_mono; [apply remove_inode_same|]. intros t' Ht'. by etrans.
Qed.
Lemma advance_card st n : yields (advance_data st n) (λ st', ∃ f, st' = set_file st f).
Proof. unfold advance_data. case_decide; [apply yields_bind; intros f _|]; apply yields_ok; [by exists f|]. exists (file st). by destruct st. Qed.

(** ** Checks and counts *)
Definition plus_one (L : gmap Z Z) i : gmap Z Z := <[i := default 0 (L !! i) + 1]> L.
Lemma acquire_state t i L H f : state_is t L H f → yields (acquire_lookup t i 1) (λ t', state_is t' (plus_one L i) H f).
Proof.
  intros Hs. apply yields_assert. intros _. apply yields_assert. intros _. apply yields_ok_or. unfold checked_add. destruct (_ <=? _); [|done]. intros n [= <-]. apply yields_ok.
  pose proof Hs as [I1 I2 I3]. split; [|done|done]. cbn [set_lookups lookup_counts]. unfold plus_one, lookups. by rewrite I1.
Qed.
Lemma lookup_state t p name : yields (lookup_name maximum_name_bytes t p name) (λ r, ∃ i, entries t !! (p, name) = Some i ∧ state_is r.1 (plus_one (lookup_counts t) i) (handles_of t) (cards t)).
Proof.
  do 2 (apply yields_bind; intros _ _). apply yields_ok_or. intros i Hi. apply yields_expect. intros st _. apply yields_assert. intros _. apply yields_bind. intros t' Ht'. apply yields_ok.
  exists i. split; [done|]. by apply (acquire_state t i _ _ _ (state_refl t)).
Qed.
Lemma link_state t now context i p name : yields (link maximum_name_bytes t now context i p name) (λ r, ∃ st file', inodes_of t !! i = Some st ∧
  state_is r.1 (match r.2 with Ok _ => plus_one (lookup_counts t) i | _ => lookup_counts t end) (handles_of t) (becoming (cards t) i (card (set_ctime (set_file st file') now)))).
Proof.
  do 3 (apply yields_bind; intros _ _). apply yields_reject. intros _. apply yields_ok_or. intros st Hst. do 4 (apply yields_reject; intros _). apply yields_bind. intros n _. apply yields_ok_or. intros q _. apply yields_ok_or. intros links _.
  apply yields_bind. intros st' (f&->)%advance_card. cbv zeta. eapply yields_same; [apply insert_entry_same|apply state_set, state_refl|]. intros t1 H1. eapply yields_same; [apply adjust_same|exact H1|]. intros t2 H2.
  eapply yields_same; [apply install_same|exact H2|]. intros t3 H3. unfold answer. pose proof (acquire_state t3 i _ _ _ H3) as H4. destruct (acquire_lookup t3 i 1) as [t4|e|]; [| |done]; apply yields_ok; exists st, f; (split; [done|]).
  - by apply H4.
  - exact H3.
Qed.
(** A new inode *)
Definition gains t i st (opened : gmap Z OpenHandle) t' : Prop :=
  inodes_of t !! i = None ∧ lookup_counts t !! i = None ∧ state_is t' (<[i := 1]> (lookup_counts t)) opened (becoming (cards t) i (card st)).
Lemma insert_inode_state t i st L H f : state_is t L H f → yields (insert_inode t i st) (λ t', inodes_of t !! i = None ∧ L !! i = None ∧ state_is t' (<[i := 1]> L) H (becoming f i (card st))).
Proof.
  intros Hs. apply yields_assert. intros Hi%bool_decide_eq_true. apply yields_assert. intros Hc%bool_decide_eq_true. apply yields_ok. pose proof Hs as [I1 _ _]. split; [done|]. split; [congruence|].
  destruct (state_set t i st _ _ _ Hs) as [S1 S2 S3]. split; [cbn [set_lookups lookup_counts]; congruence|done|done].
Qed.
Lemma allocate_state t : yields (allocate_inode t) (λ r, r.2 = next_inode t ∧ inodes_of r.1 = inodes_of t ∧ next_handle r.1 = next_handle t ∧ state_is r.1 (lookup_counts t) (handles_of t) (cards t)).
Proof. do 2 (apply yields_reject; intros _). apply yields_ok_or. intros n _. apply yields_ok. split_and!; [done|done|done|]. by apply (state_alike t); [apply state_refl|..]. Qed.
Lemma symlink_state t now context p name target : yields (symlink maximum_name_bytes empty_id t now context p name target)
  (λ r, gains t (next_inode t) (new_inode empty_id Symlink context 0x1FF 1 default_metadata (Some target) now) (handles_of t) r.1).
Proof.
  apply yields_bind; intros _ _. apply yields_reject. intros _. do 2 (apply yields_bind; intros _ _). apply yields_reject. intros _. apply yields_bind. intros n _. apply yields_bind. intros _ _.
  apply yields_bind. intros [t0 i] (->&Hi&_&H0)%allocate_state. cbn [fst snd] in *. cbv zeta. apply yields_bind. intros t1 (Hn&Hc&H1)%(insert_inode_state _ _ _ _ _ _ H0).
  eapply yields_same; [apply insert_entry_same|exact H1|]. intros t2 H2. eapply yields_same; [apply adjust_same|exact H2|]. intros t3 H3. eapply yields_same; [apply install_same|exact H3|]. intros t4 H4.
  eapply yields_same; [apply record_same|exact H4|]. intros t5 H5. apply yields_ok. split_and!; [by rewrite <-Hi|done|exact H5].
Qed.
Lemma mkdir_state t now context p name m umask : yields (mkdir maximum_name_bytes empty_id t now context p name m umask)
  (λ r, ∃ parent child, inodes_of t !! p = Some parent ∧ for_child (metadata parent) Directory m umask = Ok child ∧
    gains t (next_inode t) (new_inode empty_id Directory context child.1 2 child.2 None now) (handles_of t) r.1).
Proof.
  do 2 (apply yields_bind; intros _ _). apply yields_reject. intros _. apply yields_bind; intros _ _. apply yields_bind. intros n _. apply yields_expect. intros parent Hpar. apply yields_ok_or. intros links _.
  apply yields_bind. intros q _. apply yields_bind. intros child Hchild. apply yields_bind. intros _ _. apply yields_bind. intros [t0 i] (->&Hi&_&H0)%allocate_state. cbn [fst snd] in *. cbv zeta.
  apply yields_bind. intros t1 (Hn&Hc&H1)%(insert_inode_state _ _ _ _ _ _ H0). eapply yields_same; [apply insert_entry_same|exact H1|]. intros t2 H2. eapply yields_same; [apply adjust_same|exact H2|]. intros t3 H3.
  rewrite Hi in Hn. apply (state_keep _ p (set_links parent links q)) in H3; [|unfold becoming, cards; rewrite decide_False by congruence; by rewrite Hpar].
  eapply yields_same; [|exact H3|]; [case_decide; [by apply yields_ok|apply install_same]|]. intros t4 H4. eapply yields_same; [apply record_same|exact H4|]. intros t5 H5. apply yields_ok. by exists parent, child.
Qed.
(** ** Opening *)
Definition modified (now : PosixTimestamp) (ts : PosixTimes) : PosixTimes := {| atime := atime ts; mtime := now; ctime := now |}.
(** The times of a file that an open may empty *)
Definition opened_times (now : PosixTimestamp) (truncate : bool) st : PosixTimes := if truncate && negb (live_size (file st) =? 0) then modified now (times st) else times st.
Lemma truncate_state t now i st truncate d L H f : state_is t L H f → f i = Some (card st) → truncate_sequence st truncate = Ok d →
  yields (open_truncate t now i st d) (λ o, ∃ st', times st' = opened_times now truncate st ∧ state_is o.1 L H (becoming f i (card st'))).
Proof.
  intros Hs Hf. unfold truncate_sequence, opened_times. destruct (truncate && negb _).
  - destruct (ok_or _ _); [|done|done]. rewrite Ok_bind. intros [= <-]. apply yields_bind. intros f' _. apply yields_bind. intros dirty _. cbv zeta. apply yields_ok. cbn [fst].
    set (x := set_times _ _). exists x. split; [done|]. by apply (state_alike (set_inode t i x)); [apply state_set|..].
  - intros [= <-]. apply yields_ok. exists st. split; [done|]. eapply state_ext; [exact Hs|]. intros j. unfold becoming. by case_decide; subst.
Qed.
Lemma handle_state t h i opts L H f : state_is t L H f → yields (insert_handle t h i opts) (λ t', state_is t' L (<[h := {| handle_inode := i; options := opts |}]> H) f).
Proof. intros Hs. apply yields_assert. intros _. apply yields_ok. pose proof Hs as [I1 I2 I3]. split; [done| |done]. unfold handles_of at 1. cbn. by rewrite <-I2. Qed.
Lemma allocate_handle_state t L H f : state_is t L H f → yields (allocate_handle t) (λ r, r.2 = next_handle t ∧ inodes_of r.1 = inodes_of t ∧ state_is r.1 L H f).
Proof. intros Hs. apply yields_reject. intros _. apply yields_ok_or. intros n _. apply yields_ok. split_and!; [done|done|]. by apply (state_alike t). Qed.
Lemma cards_at t i st : inodes_of t !! i = Some st → cards t i = Some (card st).
Proof. unfold cards. by intros ->. Qed.
Lemma open_state t now i opts truncate : yields (open t now i opts truncate) (λ r, ∃ st st', inodes_of t !! i = Some st ∧ times st' = opened_times now truncate st ∧
  state_is r.1 (lookup_counts t) (<[next_handle t := {| handle_inode := i; options := opts |}]> (handles_of t)) (becoming (cards t) i (card st'))).
Proof.
  apply yields_ok_or. intros st Hst. apply yields_bind. intros _ _. apply yields_bind. intros d Hd. apply yields_bind. intros _ _. apply yields_bind.
  intros [t0 h] (->&_&H0)%(allocate_handle_state _ _ _ _ (state_refl t)). cbn [fst snd] in *. apply yields_bind. intros o (st'&Hts&H1)%(truncate_state _ _ _ _ _ _ _ _ _ H0 (cards_at t i st Hst) Hd).
  apply yields_bind. intros t2 H2%(handle_state _ _ _ _ _ _ _ H1). apply yields_ok. by exists st, st'.
Qed.
Lemma open_existing_state t now i request : yields (open_existing_for_create t now i request) (λ r, ∃ st st', inodes_of t !! i = Some st ∧ times st' = opened_times now (truncate request) st ∧
  state_is r.1 (plus_one (lookup_counts t) i) (<[next_handle t := {| handle_inode := i; options := create_options request |}]> (handles_of t)) (becoming (cards t) i (card st'))).
Proof.
  apply yields_expect. intros st Hst. apply yields_bind. intros _ _. apply yields_bind. intros d Hd. apply yields_bind. intros _ _. apply yields_ok_or. unfold checked_add. destruct (_ <=? _); [|done]. intros next [= <-].
  apply yields_bind. intros [t0 h] (->&_&H0)%(allocate_handle_state _ _ _ _ (state_refl t)). cbn [fst snd] in *. apply yields_bind. intros _ _.
  apply yields_bind. intros o (st'&Hts&H1)%(truncate_state _ _ _ _ _ _ _ _ _ H0 (cards_at t i st Hst) Hd). apply yields_bind. intros t2 H2%(handle_state _ _ _ _ _ _ _ H1). apply yields_ok.
  exists st, st'. split_and!; [done|done|]. destruct H2 as [C1 C2 C3]. split; [|done|done]. cbn [fst set_lookups lookup_counts]. unfold plus_one, lookups. by rewrite C1.
Qed.
Lemma create_new_state t now request : yields (create_new_file empty_id t now request) (λ r, match r.2 with
  | Ok _ => ∃ parent child, inodes_of t !! create_parent request = Some parent ∧ for_child (metadata parent) Regular (create_mode request) (create_umask request) = Ok child ∧
      gains t (next_inode t) (new_inode empty_id Regular (create_context request) child.1 1 child.2 None now) (<[next_handle t := {| handle_inode := next_inode t; options := create_options request |}]> (handles_of t)) r.1
  | _ => state_is r.1 (lookup_counts t) (handles_of t) (cards t)
  end).
Proof.
  apply yields_bind. intros n _. apply yields_expect. intros parent Hpar. apply yields_bind. intros child Hchild. apply yields_bind. intros [t0 i] (->&Hi&Hh&H0)%allocate_state. cbn [fst snd] in *.
  pose proof (allocate_handle_state t0 _ _ _ H0) as Hah. destruct (allocate_handle t0) as [[t1 h]|e|]; [|by apply yields_ok|done]. destruct (Hah _ eq_refl) as (->&Hi1&H1). cbn [fst snd] in *. cbv zeta.
  apply yields_bind. intros t2 (Hn&Hc&H2)%(insert_inode_state _ _ _ _ _ _ H1). eapply yields_same; [apply insert_entry_same|exact H2|]. intros t3 H3. apply yields_bind. intros t4 H4%(handle_state _ _ _ _ _ _ _ H3).
  eapply yields_same; [apply install_same|exact H4|]. intros t5 H5. eapply yields_same; [apply adjust_same|exact H5|]. intros t6 H6. apply yields_ok. cbn [snd]. exists parent, child. rewrite Hh in H6.
  split_and!; [done|done|]. split_and!; [congruence|done|exact H6].
Qed.
Lemma create_state t now request : yields (create maximum_name_bytes empty_id t now request) (λ r, match entries t !! (create_parent request, create_name request), r.2 with
  | Some i, Ok _ => ∃ st st', inodes_of t !! i = Some st ∧ times st' = opened_times now (truncate request) st ∧
      state_is r.1 (plus_one (lookup_counts t) i) (<[next_handle t := {| handle_inode := i; options := create_options request |}]> (handles_of t)) (becoming (cards t) i (card st'))
  | None, Ok _ => ∃ parent child, inodes_of t !! create_parent request = Some parent ∧ for_child (metadata parent) Regular (create_mode request) (create_umask request) = Ok child ∧
      gains t (next_inode t) (new_inode empty_id Regular (create_context request) child.1 1 child.2 None now) (<[next_handle t := {| handle_inode := next_inode t; options := create_options request |}]> (handles_of t)) r.1
  | None, _ => state_is r.1 (lookup_counts t) (handles_of t) (cards t)
  | Some _, _ => False
  end).
Proof.
  do 2 (apply yields_bind; intros _ _). destruct (entries t !! _) as [i|].
  - apply yields_reject. intros _. apply yields_bind. intros r Hr%open_existing_state. by apply yields_ok.
  - do 2 (apply yields_bind; intros _ _). apply yields_bind. intros [t1 reply] Hr%create_new_state. cbn [fst snd] in *. destruct reply as [created|e|]; [|by apply yields_ok|by apply yields_ok].
    destruct Hr as (parent&child&Hpar&Hchild&Hn&Hc&H1). eapply yields_same; [apply record_same|exact H1|]. intros t2 H2. apply yields_ok. by exists parent, child.
Qed.
Lemma release_state t i h : yields (release t i h) (λ t', state_is t' (lookup_counts t) (delete h (handles_of t)) (cards t)).
Proof.
  apply yields_bind. intros _ _. apply yields_ok_or. intros o _. apply yields_reject. intros _. cbv zeta. apply yields_expect. intros st _. eapply yields_last; [apply drop_orphan_same|].
  destruct (state_refl t) as [S1 S2 S3]. by split.
Qed.
(** ** Removing names *)
Lemma drop_name_state t now i st L H f : state_is t L H f → yields (drop_name t now i st) (λ r, ∃ file', state_is r.1 L H (becoming f i (card (set_ctime (set_file st file') now)))).
Proof.
  intros Hs. apply yields_ok_or. intros q _. cbv zeta. apply yields_bind. intros st' (f'&->)%advance_card. apply yields_expect. intros links _. cbv zeta. apply yields_bind. intros dirty _. apply yields_ok. exists f'. cbn [fst].
  set (x := set_ctime _ _). by apply (state_alike (set_inode t i x)); [apply (state_set t i x)|..].
Qed.
Lemma unlink_state t now p name : yields (unlink maximum_name_bytes t now p name) (λ t', ∃ i st file', entries t !! (p, name) = Some i ∧ inodes_of t !! i = Some st ∧
  state_is t' (lookup_counts t) (handles_of t) (becoming (cards t) i (card (set_ctime (set_file st file') now)))).
Proof.
  do 3 (apply yields_bind; intros _ _). apply yields_bind. intros n _. apply yields_ok_or. intros i Hi. apply yields_expect. intros st Hst. do 2 (apply yields_reject; intros _).
  apply yields_bind. intros [t1 last] (f'&H1)%(drop_name_state _ _ _ _ _ _ _ (state_refl t)). cbn [fst snd] in *. eapply yields_same; [apply remove_entry_same|exact H1|]. intros t2 H2.
  eapply yields_same; [apply adjust_same|exact H2|]. intros t3 H3. eapply yields_same; [apply install_same|exact H3|]. intros t4 H4. cbv zeta.
  eapply yields_mono; [eapply yields_last; [apply drop_orphan_same|]|intros t5 H5; exists i, st, f'; split_and!; [done|done|exact H5]].
  destruct last; [eapply state_step; [apply creates_same|exact H4]|exact H4].
Qed.
Lemma rmdir_state t p name : yields (rmdir maximum_name_bytes t p name) (λ t', state_is t' (lookup_counts t) (handles_of t) (cards t)).
Proof.
  do 3 (apply yields_bind; intros _ _). apply yields_ok_or. intros i Hi. apply yields_expect. intros st Hst. do 3 (apply yields_reject; intros _). apply yields_assert. intros _. apply yields_ok_or. intros q _.
  apply yields_bind. intros n _. apply yields_expect. intros parent Hpar. apply yields_expect. intros links _. apply yields_bind. intros q' _. cbv zeta.
  pose proof (state_keep t i (set_links st 0 q) _ _ _ (cards_at t i st Hst) (state_refl t)) as H1. pose proof (state_keep _ p (set_links parent links q') _ _ _ (cards_at t p parent Hpar) H1) as H2.
  eapply yields_same; [apply remove_entry_same|exact H2|]. intros t3 H3. eapply yields_same; [apply adjust_same|exact H3|]. intros t4 H4.
  eapply yields_same; [|exact H4|]; [case_decide; [by apply yields_ok|apply install_same]|]. intros t5 H5. eapply yields_same; [|exact H5|]; [destruct (_ =? 0); [apply remove_inode_same|by apply yields_ok]|].
  intros t6 H6. apply yields_ok. eapply state_step; [apply creates_same|exact H6].
Qed.
(** ** Renaming *)
Definition stamped (now : PosixTimestamp) (ts : PosixTimes) : PosixTimes := {| atime := atime ts; mtime := mtime ts; ctime := now |}.
(** The references stay and the times of an inode are those of [w] *)
Record timed t t' (w : Z → InodeState → PosixTimes) : Prop := {
  ti_counts : lookup_counts t' = lookup_counts t;
  ti_handles : handles_of t' = handles_of t;
  ti_times i st' : inodes_of t' !! i = Some st' → ∃ st, inodes_of t !! i = Some st ∧ times st' = w i st;
}.
Lemma state_timed t t' w g : state_is t' (lookup_counts t) (handles_of t) g → (∀ i c, g i = Some c → ∃ st, inodes_of t !! i = Some st ∧ times c = w i st) → timed t t' w.
Proof. intros [S1 S2 S3] Hg. split; [done|done|]. intros i st' (st&Hst&Ht)%S3%Hg. by exists st. Qed.
Lemma cards_times t w : (∀ i st, w i st = times st) → ∀ i c, cards t i = Some c → ∃ st, inodes_of t !! i = Some st ∧ times c = w i st.
Proof. intros Hw i c. unfold cards. intros (st&Hst&->)%fmap_Some. exists st. rewrite Hw. by split. Qed.
Lemma rename_directory_state t old new src rep : yields (rename_directory t old new src rep) (λ t', state_is t' (lookup_counts t) (handles_of t) (cards t)).
Proof.
  apply yields_bind. intros b _. apply yields_reject. intros _. apply yields_bind. intros _ _. apply yields_bind. intros n _. apply yields_bind. intros us _. apply yields_bind. intros q _.
  eapply yields_same; [apply move_entry_same|apply state_refl|]. intros t1 H1. eapply yields_same; [apply move_matches_same|exact H1|]. intros t2 H2. eapply yields_same; [apply apply_parents_same|exact H2|]. intros t3 H3.
  eapply yields_last; [|exact H3]. destruct rep; [apply retire_directory_same|by apply yields_ok].
Qed.
Lemma retire_file_same t rep : yields (retire_file t rep) (same_refs t).
Proof.
  destruct rep as [x|]; [|by apply yields_ok]. apply yields_expect. intros st _. cbv zeta. eapply yields_mono; [apply drop_orphan_same|]. intros t' Ht'. etrans; [|exact Ht']. destruct (_ =? _); [apply creates_same|done].
Qed.
Lemma replace_file_state t now rep : yields (replace_file t now rep) (λ t', match rep with
  | Some x => ∃ st file', inodes_of t !! x = Some st ∧ state_is t' (lookup_counts t) (handles_of t) (becoming (cards t) x (card (set_ctime (set_file st file') now)))
  | None => t' = t
  end).
Proof.
  destruct rep as [x|]; [|by apply yields_ok]. apply yields_expect. intros st Hst. apply yields_reject. intros _. apply yields_bind. intros r (f'&H1)%(drop_name_state _ _ _ _ _ _ _ (state_refl t)). apply yields_ok. by exists st, f'.
Qed.
Lemma rename_file_state t now old new src rep : rep ≠ Some src →
  yields (rename_file t now old new src rep) (λ t', timed t t' (λ j st, if bool_decide (j = src ∨ rep = Some j) then stamped now (times st) else times st)).
Proof.
  intros Hne. apply yields_bind. intros n _. apply yields_bind. intros t1 H1%replace_file_state. apply yields_expect. intros st Hst. cbv zeta.
  assert (Hg : ∃ g, state_is t1 (lookup_counts t) (handles_of t) g ∧ ∀ j c, g j = Some c → ∃ st, inodes_of t !! j = Some st ∧ times c = if bool_decide (rep = Some j) then stamped now (times st) else times st).
  { destruct rep as [x|]; [|subst t1; exists (cards t); split; [apply state_refl|apply cards_times; intros; by rewrite bool_decide_false]]. destruct H1 as (sx&f'&Hsx&H1). eexists. split; [exact H1|]. unfold becoming. intros j c.
    case_decide as Hj; [intros [= <-]; subst j; exists sx; by rewrite bool_decide_true|]. intros Hc. destruct (cards_times t (λ _ st, times st) ltac:(done) j c Hc) as (y&?&?). exists y. by rewrite bool_decide_false by congruence. }
  destruct Hg as (g&H2&Hg). assert (Hsrc : ∃ s0, inodes_of t !! src = Some s0 ∧ times st = times s0).
  { destruct (Hg src (card st) (si_cards _ _ _ _ H2 src st Hst)) as (s0&Hs0&Ht). exists s0. by rewrite bool_decide_false in Ht. }
  destruct Hsrc as (s0&Hs0&Hts). eapply yields_same; [apply move_entry_same|apply state_set, H2|]. intros t3 H3. eapply yields_same; [apply move_matches_same|exact H3|]. intros t4 H4.
  eapply yields_same; [apply install_same|exact H4|]. intros t5 H5. eapply yields_mono; [eapply yields_last; [apply retire_file_same|exact H5]|]. intros t6 H6. apply (state_timed _ _ _ _ H6). unfold becoming. intros j c.
  case_decide as Hj; [intros [= <-]; subst j; exists s0; rewrite bool_decide_true by tauto; split; [done|]; cbn; unfold stamped; by rewrite Hts|]. intros (y&Hy&->)%Hg. exists y. split; [done|].
  case_bool_decide; [by rewrite bool_decide_true by tauto|]. by rewrite bool_decide_false by tauto.
Qed.
(** A rename of a file changes the times of the file and of the one it replaces *)
Definition renamed_times t (now : PosixTimestamp) (old new : Z * bytes) j st : PosixTimes :=
  match entries t !! old with
  | Some src =>
      if bool_decide (old ≠ new ∧ entries t !! new ≠ Some src ∧ is_dir (inodes_of t) src = false ∧ (j = src ∨ entries t !! new = Some j)) then stamped now (times st) else times st
  | None => times st
  end.
Lemma timed_refl t w : (∀ i st, inodes_of t !! i = Some st → w i st = times st) → timed t t w.
Proof. intros Hw. split; [done|done|]. intros i st Hi. exists st. by rewrite Hw. Qed.
Lemma rename_checks_state t old new no_replace : yields (rename_checks maximum_name_bytes t old new no_replace) (λ plan, ∃ src, entries t !! old = Some src ∧
  match plan with None => old = new ∨ entries t !! new = Some src | Some (x, rep) => x = src ∧ rep = entries t !! new ∧ old ≠ new ∧ rep ≠ Some src end).
Proof.
  unfold rename_checks. do 6 (apply yields_bind; intros _ _). apply yields_ok_or. intros src Hsrc. case_decide as Heq; [apply yields_ok; exists src; tauto|]. cbv zeta. apply yields_reject. intros _.
  case_decide as Hsame; [apply yields_ok; exists src; tauto|]. apply yields_reject. intros _. apply yields_expect. intros st _. apply yields_reject. intros _. apply yields_bind. intros _ _. apply yields_ok. by exists src.
Qed.
Lemma rename_timed t now p name p' name' no_replace : yields (rename maximum_name_bytes t now p name p' name' no_replace) (λ t', timed t t' (renamed_times t now (p, name) (p', name'))).
Proof.
  apply yields_bind. intros plan (src&Hsrc&Hplan)%rename_checks_state. unfold renamed_times. destruct plan as [[x rep]|].
  2: { apply yields_ok, timed_refl. intros j st Hj. rewrite Hsrc, bool_decide_false; [done|]. tauto. }
  destruct Hplan as (->&->&Hne&Hother). apply yields_bind. intros _ _. apply yields_expect. intros st Hst. case_decide as Hd.
  - apply yields_bind. intros t1 H1%rename_directory_state. apply yields_ok. assert (Hdir : is_dir (inodes_of t) src = true) by (unfold is_dir; rewrite Hst; by apply bool_decide_true).
    assert (H2 : state_is (match entries t !! (p', name') with Some target => set_creates t1 (delete target (active_create_metadata_bytes t1)) | None => t1 end) (lookup_counts t) (handles_of t) (cards t)).
    { destruct (entries t !! (p', name')); [eapply state_step; [apply creates_same|exact H1]|exact H1]. }
    apply (state_timed _ _ _ _ H2), cards_times. intros j y. rewrite Hsrc, bool_decide_false; [done|]. rewrite Hdir. by intros (_&_&?&_).
  - assert (Hdir : is_dir (inodes_of t) src = false) by (unfold is_dir; rewrite Hst; by apply bool_decide_false).
    eapply yields_mono; [by apply rename_file_state|]. intros t' [T1 T2 T3]. split; [done|done|]. intros j y (z&Hz&->)%T3. exists z. split; [done|]. rewrite Hsrc, Hdir.
    case_bool_decide; [by rewrite bool_decide_true by tauto|]. rewrite bool_decide_false; [done|tauto].
Qed.
(** ** Forgetting *)
Lemma forget_state t i n : 0 ≤ n → 0 ≤ lookups t i → yields (forget t i n) (λ t', state_is t' (lookup_counts t') (handles_of t) (cards t) ∧
  ∀ j, lookups t' j = if j =? i then Z.max 0 (lookups t j - n) else lookups t j).
Proof.
  intros Hn Hl. unfold forget. destruct (Z.eqb_spec n 0) as [->|Hn0].
  { apply yields_ok. split; [apply state_refl|]. intros j. destruct (Z.eqb_spec j i) as [->|]; lia. }
  destruct (lookup_counts t !! i) as [current|] eqn:Hc.
  2: { apply yields_ok. split; [apply state_refl|]. intros j. destruct (Z.eqb_spec j i) as [->|]; [|done]. unfold lookups. rewrite Hc. cbn. lia. }
  cbv zeta. set (t1 := set_lookups t _). assert (Hj : ∀ j, lookups t1 j = if j =? i then Z.max 0 (lookups t j - n) else lookups t j).
  { intros j. unfold lookups in *. rewrite Hc in Hl. cbn [default] in Hl. unfold t1. cbn [set_lookups lookup_counts]. destruct (Z.eqb_spec j i) as [->|Hne], (Z.leb_spec current n).
    - rewrite lookup_delete_eq, Hc. cbn. lia.
    - rewrite lookup_insert_eq, Hc. cbn. lia.
    - by rewrite lookup_delete_ne.
    - by rewrite lookup_insert_ne. }
  assert (H1 : state_is t1 (lookup_counts t1) (handles_of t) (cards t)) by (destruct (state_refl t) as [S1 S2 S3]; by split).
  assert (Hend : yields (Ok t1) (λ t', state_is t' (lookup_counts t') (handles_of t) (cards t) ∧ ∀ j, lookups t' j = if j =? i then Z.max 0 (lookups t j - n) else lookups t j)) by (by apply yields_ok).
  change (inodes_of t1) with (inodes_of t). destruct (inodes_of t !! i) as [st|]; [|exact Hend]. eapply yields_mono; [apply drop_orphan_same|]. intros t2 H2. pose proof (state_step _ _ _ _ _ H2 H1) as [S1 S2 S3].
  split; [by split|]. intros j. unfold lookups at 1. rewrite S1. apply Hj.
Qed.
(** ** Attributes *)
Lemma settle_state t i st s L H f : state_is t L H f → yields (settle t i st s) (λ t', ∃ file', state_is t' L H (becoming f i (card (set_file st file')))).
Proof.
  intros Hs. apply yields_bind. intros st' (f'&->)%advance_card. cbv zeta. set (x := set_links _ _ _). pose proof (state_set t i x _ _ _ Hs) as H1. case_decide; [apply yields_ok; by exists f'|].
  eapply yields_mono; [eapply yields_last; [apply install_same|exact H1]|]. intros t2 H2. by exists f'.
Qed.
(** The times of [i] are [ts], those of the others stay *)
Definition retimed t i (now : InodeState → PosixTimes) t' : Prop := ∃ st x, inodes_of t !! i = Some st ∧ times x = now st ∧ state_is t' (lookup_counts t) (handles_of t) (becoming (cards t) i (card x)).
Lemma retimed_refl t i st now : inodes_of t !! i = Some st → now st = times st → retimed t i now t.
Proof. intros Hst Hn. exists st, st. split_and!; [done|done|]. eapply state_ext; [apply state_refl|]. intros j. unfold becoming. case_decide; [subst j; by apply cards_at|done]. Qed.
Lemma settle_retimed t i st x s now : inodes_of t !! i = Some st → times x = now st → yields (settle t i x s) (retimed t i now).
Proof. intros Hst Hx. eapply yields_mono; [apply settle_state, state_refl|]. intros t' (f'&H'). by exists st, (set_file x f'). Qed.
Lemma mutate_state t now context i name mutation : (∀ st, yields (mutation st) (λ st', times st' = times st)) → yields (mutate_metadata t now context i name mutation) (retimed t i (λ st, stamped now (times st))).
Proof.
  intros Hm. apply yields_ok_or. intros st Hst. apply yields_bind. intros _ _. apply yields_reject. intros _. apply yields_bind. intros s _. apply yields_bind. intros st' Hst'%Hm. apply (settle_retimed t i st); [done|].
  cbn. unfold stamped. by rewrite Hst'.
Qed.
Definition given_times (u : InodeAttributesUpdate) (now : PosixTimestamp) (ts : PosixTimes) : PosixTimes :=
  match u with
  | {| update_mode := None; update_uid := None; update_gid := None; update_atime := None; update_mtime := None |} => ts
  | _ => {| atime := default (atime ts) (update_atime u); mtime := default (mtime ts) (update_mtime u); ctime := now |}
  end.
Definition changed_times (now : PosixTimestamp) (c : attribute_change) st : PosixTimes :=
  match c with
  | FlagsChange flags => if file_flags (metadata st) =? flags then times st else stamped now (times st)
  | UpdateChange u => given_times u now (times st)
  | XattrChange _ _ _ | RemoveChange _ | ModeChange _ => stamped now (times st)
  end.
Lemma flags_state t now context i flags : yields (set_file_flags_request t now context i flags) (λ r, retimed t i (changed_times now (FlagsChange flags)) r.1).
Proof.
  apply yields_reject. intros _. apply yields_ok_or. intros st Hst. destruct (file_flags (metadata st) =? flags) eqn:Hf; [apply yields_ok, (retimed_refl t i st); [done|]; cbn [changed_times]; by rewrite Hf|].
  apply yields_bind. intros _ _. apply yields_bind. intros md _. cbv zeta. set (x := set_ctime _ now). assert (Hx : times x = changed_times now (FlagsChange flags) st) by (cbn [changed_times]; by rewrite Hf).
  destruct (next_namespace_and_inode_mutation_sequences _ _ _) as [s|e|]; [| |done].
  - apply yields_bind. intros t' Ht'. apply yields_ok. by apply (settle_retimed t i st x s).
  - apply yields_ok. exists st, x. split_and!; [done|done|]. apply state_set, state_refl.
Qed.
Lemma update_times st u now : yields (update_state st u now) (λ st', times st' = {| atime := default (atime (times st)) (update_atime u); mtime := default (mtime (times st)) (update_mtime u); ctime := now |}).
Proof. apply yields_bind. intros st1 H1. cbv zeta. apply yields_ok. cbn. destruct (update_mode u); [|by injection H1 as <-]. destruct (chmod _ _) as [r| |]; [|done|done]. by injection H1 as <-. Qed.
Lemma update_retimed t now context i u : yields (set_attributes t now context i u) (retimed t i (changed_times now (UpdateChange u))).
Proof.
  unfold set_attributes. case_match eqn:Hnone.
  - apply yields_ok_or. intros st Hst. apply yields_ok, (retimed_refl t i st); [done|]. rewrite !andb_true_iff, !bool_decide_eq_true in Hnone. cbn [changed_times given_times]. destruct u. cbn in Hnone. destruct Hnone as [[[-> ->] ->] [-> ->]]. done.
  - apply yields_reject. intros _. apply yields_ok_or. intros st Hst. do 3 (apply yields_reject; intros _). apply yields_bind. intros _ _. apply yields_bind. intros s _. apply yields_bind. intros st' Hst'%update_times.
    apply (settle_retimed t i st); [done|]. rewrite Hst'. cbn [changed_times given_times]. destruct u as [[] [] [] [] []]; done.
Qed.
Lemma change_state t now context i c : yields (change_request t now context i c) (λ r, retimed t i (changed_times now c) r.1).
Proof.
  destruct c as [name value m|name|flags|m|u]; cbn [change_request].
  - apply yields_bind. intros t' Ht'. apply yields_ok. revert t' Ht'. apply mutate_state. intros st. apply yields_bind. intros r _. by apply yields_ok.
  - apply yields_bind. intros t' Ht'. apply yields_ok. revert t' Ht'. apply mutate_state. intros st. apply yields_bind. intros r _. by apply yields_ok.
  - apply yields_bind. intros r Hr%flags_state. by apply yields_ok.
  - apply yields_bind. intros t' Ht'. apply yields_ok. revert t' Ht'. apply yields_ok_or. intros st Hst. do 2 (apply yields_reject; intros _). apply yields_bind. intros s _. apply yields_bind. intros r _. by apply (settle_retimed t i st).
  - apply yields_bind. intros t' Ht'%update_retimed. by apply yields_ok.
Qed.
Definition accessed (now : PosixTimestamp) (ts : PosixTimes) : PosixTimes := {| atime := now; mtime := mtime ts; ctime := ctime ts |}.
Lemma readlink_state t now i : yields (readlink t now i) (λ r, r.1 = t ∨ (∃ st, inodes_of t !! i = Some st ∧ relatime_due (times st) now = true) ∧ retimed t i (λ st, accessed now (times st)) r.1).
Proof.
  apply yields_ok_or. intros st Hst. apply yields_ok_or. intros target _. apply yields_bind. intros t' Ht'. apply yields_ok. cbn [fst]. unfold update_relatime in Ht'.
  destruct (relatime_due (times st) now) eqn:Hdue; cbn [negb] in Ht'; [|left; congruence]. destruct (next_namespace_and_inode_mutation_sequences _ _ _) as [s|e|]; [|left; congruence|done].
  destruct (reserve_commit_capacity _); [|left; congruence|done]. right. split; [by exists st|]. by apply (settle_retimed t i st (set_times st (accessed now (times st))) s).
Qed.
End References.
End TreeReferences.
