(* ===== verification/TreeHistory.v ===== *)
(** * Histories of the namespace

    Requests on the tree and on the files in it, one after the other, with what
    each does to the names, to the contents and attributes of the files, to
    lookup counts, handles and times. *)
From S2P Require Export TreeRename TreeReferences FileRequests.

Module TreeHistory.
Import SparseData SparseDataOps DirtyEpoch DirtyEpochOps VersionedFile VersionedFileOps FileCommit FileRefinement InodeMetadata InodeAttributes FileCatalog FileCapacity FileHandlers FileClone FileHandlersOps FileCloneOps FileRequests NamespaceTree TreeRequests AttributeRequests TreeInvariant TreeSteps TreeRefs TreeNames TreeCreates TreeRemovals TreeRename AttributeOps TreeReferences.
Implicit Types (t : Tree) (st : InodeState) (i : Z).

Inductive tree_request :=
  | LookupRequest (parent : Z) (name : bytes)
  | LinkRequest (now : PosixTimestamp) (context : RequestContext) (inode new_parent : Z) (new_name : bytes)
  | SymlinkRequest (now : PosixTimestamp) (context : RequestContext) (parent : Z) (name target : bytes)
  | MkdirRequest (now : PosixTimestamp) (context : RequestContext) (parent : Z) (name : bytes) (mode umask : Z)
  | CreateFile (now : PosixTimestamp) (request : CreateRequest)
  | OpenRequest (now : PosixTimestamp) (inode : Z) (opts : OpenOptions) (truncate : bool)
  | ReleaseRequest (inode handle : Z)
  | UnlinkRequest (now : PosixTimestamp) (parent : Z) (name : bytes)
  | RmdirRequest (parent : Z) (name : bytes)
  | RenameRequest (now : PosixTimestamp) (parent : Z) (name : bytes) (new_parent : Z) (new_name : bytes) (no_replace : bool)
  | ForgetRequest (inode lookup_count : Z)
  | ChangeRequest (now : PosixTimestamp) (context : RequestContext) (inode : Z) (change : attribute_change)
  | ReadlinkRequest (now : PosixTimestamp) (inode : Z)
  | ReadDirectoryRequest (inode offset : Z) (counted : bool)
  | FileRequest (req : request).

Section Histories.
Context (heap : Z → option (CommittedFile * (Z → option byte))) `{Adm : Admission} `{!AdmissionLaws} `{Rec : CloneRecipes} `{!RecipeLaws} `{Dom : Domains} `{Auth : Authorities} `{Pol : NamePolicy}
  (maximum maximum_name_bytes empty_id : Z).
Hypothesis empty_file : heap empty_id = Some (EmptyCommittedFile empty_id, λ _, None).

(** The state after a request and whether it was answered with success *)
Definition replied {A} (r : Tree * presult A) : Tree * bool := (r.1, match r.2 with Ok _ => true | _ => false end).
Definition handle_tree t (req : tree_request) : presult (Tree * bool) :=
  match req with
  | LookupRequest parent name => r ← lookup_name maximum_name_bytes t parent name; Ok (r.1, true)
  | LinkRequest now context inode new_parent new_name => r ← link maximum_name_bytes t now context inode new_parent new_name; Ok (replied r)
  | SymlinkRequest now context parent name target => r ← symlink maximum_name_bytes empty_id t now context parent name target; Ok (r.1, true)
  | MkdirRequest now context parent name mode umask => r ← mkdir maximum_name_bytes empty_id t now context parent name mode umask; Ok (r.1, true)
  | CreateFile now request => r ← create maximum_name_bytes empty_id t now request; Ok (replied r)
  | OpenRequest now inode opts truncate => r ← open t now inode opts truncate; Ok (r.1, true)
  | ReleaseRequest inode handle => t ← release t inode handle; Ok (t, true)
  | UnlinkRequest now parent name => t ← unlink maximum_name_bytes t now parent name; Ok (t, true)
  | RmdirRequest parent name => t ← rmdir maximum_name_bytes t parent name; Ok (t, true)
  | RenameRequest now parent name new_parent new_name no_replace => t ← rename maximum_name_bytes t now parent name new_parent new_name no_replace; Ok (t, true)
  | ForgetRequest inode lookup_count => t ← forget t inode lookup_count; Ok (t, true)
  | ChangeRequest now context inode change => change_request t now context inode change
  | ReadlinkRequest now inode => r ← readlink t now inode; Ok (r.1, true)
  | ReadDirectoryRequest inode offset counted => r ← read_directory t inode offset counted; Ok (r.1, true)
  | FileRequest req => ns ← handle_request maximum (space t) req; Ok (set_space t ns, true)
  end.
(** ** What a request does *)
Definition entries_after t (req : tree_request) (success : bool) : Entries :=
  match req with
  | LinkRequest _ _ inode parent name => <[(parent, name) := inode]> (entries t)
  | SymlinkRequest _ _ parent name _ | MkdirRequest _ _ parent name _ _ => <[(parent, name) := next_inode t]> (entries t)
  | CreateFile _ request =>
      let key := (create_parent request, create_name request) in
      match entries t !! key with None => if success then <[key := next_inode t]> (entries t) else entries t | Some _ => entries t end
  | UnlinkRequest _ parent name | RmdirRequest parent name => delete (parent, name) (entries t)
  | RenameRequest _ parent name new_parent new_name _ => renamed (entries t) (parent, name) (new_parent, new_name)
  | _ => entries t
  end.
Definition content_after t (req : tree_request) i (p : posix_file) : posix_file :=
  match req with
  | OpenRequest _ inode _ truncate => if i =? inode then cut truncate p else p
  | CreateFile _ request => match entries t !! (create_parent request, create_name request) with Some inode => if i =? inode then cut (truncate request) p else p | None => p end
  | FileRequest req => if i =? request_inode req then request_effect heap (space t) req p else p
  | _ => p
  end.
Definition attributes_after (req : tree_request) i st : Z * Z * Z * InodeMetadata :=
  match req with ChangeRequest _ _ inode change => if i =? inode then changed_attrs st change else attrs st | _ => attrs st end.
Record tree_done t (req : tree_request) t' (success : bool) : Prop := {
  td_wf : tree_wf heap t';
  td_entries : entries t' = entries_after t req success;
  td_next : next_inode t ≤ next_inode t';
  td_content i st' : inodes_of t' !! i = Some st' → i < next_inode t →
    ∃ st, inodes_of t !! i = Some st ∧ kind st' = kind st ∧ symlink_target st' = symlink_target st ∧ attrs st' = attributes_after req i st ∧
      abstract heap (file st') ≡ content_after t req i (abstract heap (file st));
}.
(** ** References, times and new inodes *)

(** A directory that gets a name is linked, and so is the inode of a hard link;
    counts are not negative, and file requests as they have to be; a directory
    that is read is linked *)
Definition tree_request_ok t (req : tree_request) : Prop :=
  match req with
  | LinkRequest _ _ inode parent _ => linked t parent ∧ ∀ st, inodes_of t !! inode = Some st → 0 < link_count st
  | SymlinkRequest _ _ parent _ _ | MkdirRequest _ _ parent _ _ _ | RenameRequest _ _ _ parent _ _ => linked t parent
  | CreateFile _ request => linked t (create_parent request)
  | ForgetRequest _ n => 0 ≤ n
  | ReadDirectoryRequest inode offset _ => linked t inode ∧ offset + Z.of_nat (size (entries t)) ≤ 2 ^ 62
  | FileRequest req => request_ok heap (space t) req
  | _ => True
  end.

(** ** Each request *)
Lemma becomes_done t req t' success : becomes heap t (entries_after t req success) t' → (∀ i p, content_after t req i p = p) → (∀ i st, attributes_after req i st = attrs st) → tree_done t req t' success.
Proof.
  intros (Hw&He&[Hn Hk]) Hc Ha. split; [done|done|done|]. intros i st' Hi Hlt. destruct (Hk i st' Hi Hlt) as (st&Hst&[S1 S2 [S3 S3'] S4 S5 S6]). exists st. rewrite Hc, Ha.
  split_and!; [done|done|done| |done]. unfold attrs. congruence.
Qed.
Lemma opened_done t req i st truncate t' success : inodes_of t !! i = Some st → opened heap t i st truncate t' → entries_after t req success = entries t →
  (∀ j p, content_after t req j p = if j =? i then cut truncate p else p) → (∀ j x, attributes_after req j x = attrs x) → tree_done t req t' success.
Proof.
  intros Hst [Hw He Hn (f&q&ts&Hi&Hv)] Hea Hc Ha. split; [done|by rewrite Hea|lia|]. intros j x. rewrite Hi. intros [[<- <-]|[Hne Hx]]%lookup_insert_Some _.
  - exists st. rewrite Hc, Ha, Z.eqb_refl. by split_and!.
  - exists x. rewrite Hc, Ha, (proj2 (Z.eqb_neq j i)) by congruence. by split_and!.
Qed.
Lemma reattributed_done t req i a t' success : reattributed heap t i a t' → entries_after t req success = entries t → (∀ j p, content_after t req j p = p) →
  (∀ j x, inodes_of t !! j = Some x → attributes_after req j x = if j =? i then a else attrs x) → tree_done t req t' success.
Proof.
  intros [Hw He Hn Hi] Hea Hc Ha. split; [done|by rewrite Hea|lia|]. intros j x Hj _. destruct (Hi j x Hj) as (st&Hst&Hk&Htg&Hv&Hsame&Hself). exists st. rewrite Hc. split_and!; [done|done|done| |done].
  rewrite (Ha j st Hst). destruct (Z.eqb_spec j i) as [->|Hne]; [by apply Hself|]. destruct (Hsame Hne) as [_ S2 [S3 S3'] S4 _ _]. unfold attrs. congruence.
Qed.
Lemma file_request_done t req : tree_wf heap t → request_ok heap (space t) req → safe (handle_tree t (FileRequest req)) (λ r, tree_done t (FileRequest req) r.1 r.2).
Proof.
  intros Hw Hok. pose proof (tw_loose _ _ Hw) as Hl. cbn [handle_tree]. pose proof (request_spec heap maximum (space t) req (lo_space _ _ _ _ Hl) Hok) as Hs.
  destruct (handle_request maximum (space t) req) as [ns| |]; [|done|done]. rewrite Ok_bind. cbn [safe fst snd refines] in *. destruct Hs as (st&Hst&Hcase).
  assert (Hself : ∀ i x, inodes_of t !! i = Some x → i = request_inode req → x = st) by (intros i x Hx ->; unfold inodes_of in Hx; congruence).
  destruct Hcase as [[-> Hv]|(Hns&Hh&Hreg&f&Hi&Hv)].
  - assert (Heq : set_space t (space t) = t) by (by destruct t). rewrite Heq. split; [done|done|done|]. intros i x Hx _. exists x. split_and!; try done. cbn [content_after].
    destruct (Z.eqb_spec i (request_inode req)) as [Hir|]; [|done]. by rewrite (Hself i x Hx Hir).
  - set (st' := touched _ _ _ _) in Hi. set (t' := set_space t ns). assert (Hi' : inodes_of t' = <[request_inode req := st']> (inodes_of t)) by done.
    assert (Hdir : ∀ j, is_dir (inodes_of t') j = is_dir (inodes_of t) j) by (intros j; rewrite Hi'; by apply (is_dir_insert _ _ st)).
    assert (Hsome : ∀ j, is_Some (inodes_of t !! j) → is_Some (inodes_of t' !! j)) by (intros j Hj; rewrite Hi'; apply lookup_insert_is_Some'; by right).
    destruct Hl as [L1 L2 L3 L4 L5 L6 L7]. split; [|done|done|].
    + split.
      * apply (loose_ext heap (expected (entries t) (inodes_of t)) (matching (entries t))); [|intros j _; split; [symmetry; apply expected_ext; [intros ? ? _|]; apply Hdir|done]]. split; [done| | | | | |done].
        -- apply (tree_ok_ext _ (inodes_of t)); [done|done|]. intros k j Hk. by apply Hsome, (to_child _ _ L2 k).
        -- rewrite Hi'. intros j x [[<- <-]|[_ Hx]]%lookup_insert_Some; [|by apply L3]. destruct (L3 _ st Hst) as [O1 O2 O3 O4 O5]. split; try done.
        -- intros j n Hj. destruct (L4 j n Hj). split; [done|by apply Hsome].
        -- intros j [Hj|Hj]; apply L5; [left|by right]. rewrite Hi' in Hj. apply lookup_insert_is_Some' in Hj as [<-|Hj]; [by exists st|done].
        -- intros h Hh'. apply L6. unfold handles_of. change (space t') with ns in Hh'. unfold handles_of in Hh'. cbn [t' set_space space] in Hh'. by rewrite <-Hh.
      * assert (Hhan : ∀ j, has_handle t' j = has_handle t j) by (intros j; unfold has_handle, handles_of; cbn [t' set_space space]; by rewrite Hh).
        rewrite Hi'. intros j x [[<- <-]|[_ Hx]]%lookup_insert_Some Hz; unfold pinned; rewrite Hhan; [by apply (tw_pinned _ _ Hw _ st)|by apply (tw_pinned _ _ Hw _ x)].
    + rewrite Hi'. cbn [content_after]. intros j x [[<- <-]|[Hne Hx]]%lookup_insert_Some _.
      * exists st. rewrite Z.eqb_refl. by split_and!.
      * exists x. rewrite (proj2 (Z.eqb_neq j (request_inode req))) by congruence. by split_and!.
Qed.
Lemma safe_reply {A B} (r : presult A) (f : A → B) P : safe r (λ a, P (f a)) → safe (a ← r; Ok (f a)) P.
Proof. by destruct r. Qed.
Lemma tree_request_spec t req : tree_wf heap t → tree_request_ok t req → safe (handle_tree t req) (λ r, tree_done t req r.1 r.2).
Proof.
  intros Hw Hok. destruct req as [parent name|now context inode parent name|now context parent name target|now context parent name mode umask|now request|now inode opts truncate|inode handle|
    now parent name|parent name|now parent name parent' name' no_replace|inode n|now context inode change|now inode|inode offset counted|req]; cbn [handle_tree tree_request_ok] in *; [..|by apply file_request_done].
  - apply safe_reply. eapply safe_mono; [by apply lookup_spec|]. intros r Hb. by apply becomes_done.
  - apply safe_reply. destruct Hok. eapply safe_mono; [by apply link_spec|]. intros r Hb. by apply becomes_done.
  - apply safe_reply. eapply safe_mono; [by apply symlink_spec|]. intros r Hb. by apply becomes_done.
  - apply safe_reply. eapply safe_mono; [by apply mkdir_spec|]. intros r Hb. by apply becomes_done.
  - apply safe_reply. eapply safe_mono; [by apply create_spec|]. cbv zeta. intros [t' reply] Hr. cbn [replied fst snd] in *. destruct (entries t !! (create_parent request, create_name request)) as [i|] eqn:He.
    + destruct Hr as (st&Hst&Hr). apply (opened_done t _ i st (truncate request)); [done|done| | |done]; intros; cbn [entries_after content_after]; cbv zeta; by rewrite He.
    + apply becomes_done; [|intros; cbn [content_after]; by rewrite He|done]. cbn [entries_after]. cbv zeta. rewrite He. by destruct reply.
  - apply safe_reply. eapply safe_mono; [by apply open_spec|]. intros r (st&Hst&Hr). by apply (opened_done t _ inode st truncate).
  - apply safe_reply. eapply safe_mono; [by apply release_spec|]. intros r Hb. by apply becomes_done.
  - apply safe_reply. eapply safe_mono; [by apply unlink_spec|]. intros r Hb. by apply becomes_done.
  - apply safe_reply. eapply safe_mono; [by apply rmdir_spec|]. intros r Hb. by apply becomes_done.
  - apply safe_reply. eapply safe_mono; [by apply rename_spec|]. intros r Hb. by apply becomes_done.
  - apply safe_reply. eapply safe_mono; [by apply forget_spec|]. intros r Hb. by apply becomes_done.
  - eapply safe_mono; [by apply change_request_spec|]. intros r (st&Hst&Hr). eapply reattributed_done; [exact Hr|done|done|]. intros j x Hj. cbn [attributes_after].
    destruct (Z.eqb_spec j inode) as [->|]; [|done]. by assert (x = st) as -> by congruence.
  - apply safe_reply. eapply safe_mono; [by apply readlink_spec|]. intros r (st&Hst&_&Hr). eapply reattributed_done; [exact Hr|done|done|]. intros j x Hj. cbn [attributes_after].
    destruct (Z.eqb_spec j inode) as [->|]; [|done]. by assert (x = st) as -> by congruence.
  - apply safe_reply. destruct Hok. eapply safe_mono; [by apply read_directory_safe|]. intros r Hb. by apply becomes_done.
Qed.
(** ** Histories *)
Definition tree_step t req : presult Tree := match handle_tree t req with Ok r => Ok r.1 | Err _ => Ok t | Panic => Panic end.
Fixpoint tree_run t (reqs : list tree_request) : presult Tree := match reqs with [] => Ok t | req :: reqs => t ← tree_step t req; tree_run t reqs end.
Fixpoint tree_requests_ok t (reqs : list tree_request) : Prop :=
  match reqs with [] => True | req :: reqs => tree_request_ok t req ∧ ∀ t', tree_step t req = Ok t' → tree_requests_ok t' reqs end.
Lemma tree_run_spec t reqs : tree_wf heap t → tree_requests_ok t reqs → ∃ t', tree_run t reqs = Ok t' ∧ tree_wf heap t'.
Proof.
  revert t. induction reqs as [|req reqs IH]; intros t Hw Hok; [by exists t|]. destruct Hok as [Hr Hok]. cbn [tree_run]. pose proof (tree_request_spec t req Hw Hr) as Hs. unfold tree_step in *.
  destruct (handle_tree t req) as [[t' b]| |]; [|rewrite Ok_bind; by apply IH; [|apply Hok]|done]. rewrite Ok_bind. apply IH; [|by apply Hok]. apply Hs.
Qed.
(** C10: after a history of requests, failed ones included, that starts in a
    well-formed tree and whose requests each meet [tree_request_ok] in the state
    they find (parents and directories that are read are reachable from the root,
    hard links are made to inodes with links, file requests meet [request_ok]), no
    assertion has failed; the links
    of every inode are its names, or for a directory in the tree two and its
    subdirectories; every name is in a directory that the root reaches, a directory
    has at most one; an inode without links is held by a lookup or an open handle;
    and the count of dirty payload is that of the linked inodes.  A history outside
    of [tree_request_ok] can stop the server: mkdir, rmdir and a read of the removed
    directory do. *)
Theorem tree_history_exact t reqs : tree_wf heap t → tree_requests_ok t reqs →
  ∃ t', tree_run t reqs = Ok t' ∧ dirty_payload (space t') = msum inode_dirty (inodes_of t') ∧
    (∀ p n i, entries t' !! (p, n) = Some i → is_dir (inodes_of t') p = true ∧ reach (entries t') p ∧ is_Some (inodes_of t' !! i)) ∧
    ∀ i st, inodes_of t' !! i = Some st → link_count st = expected (entries t') (inodes_of t') i ∧ (kind st = Directory → names (entries t') i ≤ 1) ∧ (link_count st = 0 → pinned t' i).
Proof.
  intros Hw Hok. destruct (tree_run_spec t reqs Hw Hok) as (t'&Hrun&[Hl Hp]). exists t'. split; [done|]. pose proof (lo_tree _ _ _ _ Hl) as Ht. split; [apply Hl|]. split.
  - intros p n i Hi. split; [by eapply to_parent|]. split; [by eapply to_reach|]. by apply (to_child _ _ Ht (p, n)).
  - intros i st Hi. split; [apply (lo_inode _ _ _ _ Hl i st Hi)|]. split; [|by apply Hp]. intros Hd. apply (dir_names _ (inodes_of t') i Ht). unfold is_dir. rewrite Hi. by apply bool_decide_true.
Qed.
End Histories.
End TreeHistory.
