(* ===== verification/TreeErrors.v ===== *)
(** * When requests on names fail

    For every request on the names of the namespace, the conditions that refuse
    it and their errors, in the order they are reported; a request that none of
    them refuses succeeds. *)
From S2P Require Export TreeHistory.

Module TreeErrors.
Import SparseData SparseDataOps DirtyEpoch DirtyEpochOps VersionedFile VersionedFileOps FileCommit FileRefinement InodeMetadata InodeAttributes FileCatalog FileCapacity FileHandlers FileClone FileHandlersOps FileCloneOps FileRequests NamespaceTree TreeRequests AttributeRequests TreeInvariant TreeSteps TreeRefs TreeNames TreeCreates TreeRemovals TreeRename AttributeOps TreeHistory.
Implicit Types (t : Tree) (st : InodeState) (i : Z).

(** ** Lists of refusals *)
Abbreviation refusals := (list (option PosixError)).
Definition refuse (b : bool) (e : PosixError) : option PosixError := if b then Some e else None.
Fixpoint first_error (l : refusals) : option PosixError := match l with [] => None | Some e :: _ => Some e | None :: l => first_error l end.
Definition error_of {A} (r : presult A) : option PosixError := match r with Err e => Some e | _ => None end.
Lemma first_error_app l l' : first_error (l ++ l') = match first_error l with Some e => Some e | None => first_error l' end.
Proof. induction l as [|[]]; done. Qed.
(** A step reports the first refusal of a list, and else ends with [Q] *)
Definition agrees {A} (r : presult A) (l : refusals) (Q : A → Prop) : Prop :=
  match r with Ok a => first_error l = None ∧ Q a | Err e => first_error l = Some e | Panic => True end.
Lemma agrees_bind {A B} (r : presult A) (k : A → presult B) l l' P Q : agrees r l P → (∀ a, P a → agrees (k a) l' Q) → agrees (r ≫= k) (l ++ l') Q.
Proof.
  unfold agrees. destruct r as [a|e|]; [|intros He _; cbn; by rewrite first_error_app, He|done]. intros [Hl Ha] Hk. specialize (Hk a Ha).
  rewrite Ok_bind. destruct (k a); [|by rewrite first_error_app, Hl|done]. by rewrite first_error_app, Hl.
Qed.
Lemma agrees_reject {A} b e (k : presult A) l Q : (b = false → agrees k l Q) → agrees (reject_if b e;; k) (refuse b e :: l) Q.
Proof. destruct b; [done|]. intros Hk. by apply Hk. Qed.
Lemma agrees_ok_or {A B} (o : option A) e (k : A → presult B) b l Q : (b = true ↔ o = None) → (∀ a, o = Some a → agrees (k a) l Q) → agrees (ok_or o e ≫= k) (refuse b e :: l) Q.
Proof.
  destruct o as [a|]; intros Hb Hk.
  - destruct b; [by destruct Hb as [Hb _]; specialize (Hb eq_refl)|]. by apply Hk.
  - destruct b; [done|]. destruct Hb as [_ Hb]. by specialize (Hb eq_refl).
Qed.
Lemma agrees_expect {A B} (o : option A) (k : A → presult B) l Q : (∀ a, o = Some a → agrees (k a) l Q) → agrees (expect o ≫= k) l Q.
Proof. destruct o as [a|]; [|done]. intros Hk. by apply Hk. Qed.
Lemma agrees_assert {A} b (k : presult A) l Q : (b = true → agrees k l Q) → agrees (assert_true b;; k) l Q.
Proof. destruct b; [|done]. intros Hk. by apply Hk. Qed.
Lemma agrees_error {A B} (r : presult A) (k : A → presult B) l Q : (∀ a, r = Ok a → agrees (k a) l Q) → agrees (r ≫= k) (error_of r :: l) Q.
Proof. destruct r as [a|e|]; [|done|done]. intros Hk. by apply Hk. Qed.
Lemma agrees_ok {A} (a : A) (Q : A → Prop) : Q a → agrees (Ok a) [] Q.
Proof. done. Qed.
Lemma agrees_mono {A} (r : presult A) l (P Q : A → Prop) : agrees r l P → (∀ a, r = Ok a → P a → Q a) → agrees r l Q.
Proof. destruct r; [|done|done]. intros [Hl Ha] Hk. split; [done|]. by apply Hk. Qed.

(** ** Steps that do not fail *)
Definition no_err {A} (r : presult A) : Prop := ∀ e, r ≠ Err e.
Lemma no_err_bind {A B} (r : presult A) (k : A → presult B) : no_err r → (∀ a, no_err (k a)) → no_err (r ≫= k).
Proof. intros Hr Hk. destruct r as [a|e|]; [apply Hk|by destruct (Hr e)|done]. Qed.
Lemma no_err_expect {A} (o : option A) : no_err (expect o).
Proof. by destruct o. Qed.
Lemma no_err_assert b : no_err (assert_true b).
Proof. by destruct b. Qed.
Lemma no_err_ok {A} (a : A) : no_err (Ok a).
Proof. done. Qed.
Lemma agrees_step {A B} (r : presult A) (k : A → presult B) l Q : no_err r → (∀ a, r = Ok a → agrees (k a) l Q) → agrees (r ≫= k) l Q.
Proof. destruct r as [a|e|]; [|intros He; by destruct (He e)|done]. intros _ Hk. by apply Hk. Qed.
Lemma agrees_last {A} (r : presult A) (Q : A → Prop) : no_err r → (∀ a, r = Ok a → Q a) → agrees r [] Q.
Proof. destruct r as [a|e|]; [|intros He; by destruct (He e)|done]. intros _ HQ. split; [done|]. by apply HQ. Qed.
Ltac no_err := repeat first [assumption | apply no_err_expect | apply no_err_assert | apply no_err_ok | (apply no_err_bind; [|intros ?]) | progress cbv zeta |
  match goal with |- no_err (match ?x with _ => _ end) => destruct x end].
Lemma no_err_insert_entry t key i previous : no_err (insert_entry t key i previous).
Proof. unfold insert_entry. no_err. Qed.
Lemma no_err_remove_entry t key i : no_err (remove_entry t key i).
Proof. unfold remove_entry. no_err. Qed.
Lemma no_err_remove_inode t i : no_err (remove_inode t i).
Proof. unfold remove_inode. no_err. Qed.
Lemma no_err_drop_orphan t i b : no_err (drop_orphan t i b).
Proof. unfold drop_orphan. destruct (_ && _); [apply no_err_remove_inode|done]. Qed.
Lemma no_err_insert_inode t i st : no_err (insert_inode t i st).
Proof. unfold insert_inode. no_err. Qed.
Lemma no_err_insert_handle t h i opts : no_err (insert_handle t h i opts).
Proof. unfold insert_handle. no_err. Qed.
Lemma no_err_adjust t i b added : no_err (adjust_policy_name_matches t i b added).
Proof. unfold adjust_policy_name_matches. no_err. Qed.
Lemma no_err_install t n : no_err (install_root_mutation_sequence t n).
Proof. unfold install_root_mutation_sequence. no_err. Qed.
Lemma no_err_dirty current before after : no_err (dirty_replace current before after).
Proof. unfold dirty_replace. no_err. Qed.
Lemma no_err_advance st n : no_err (advance_data st n).
Proof.
  unfold advance_data, advance_mutation_sequence, assert_next_sequence, assert_epoch_valid. no_err.
Qed.
Lemma no_err_move_entry t old new src rep : no_err (move_entry t old new src rep).
Proof. unfold move_entry. apply no_err_bind; [apply no_err_remove_entry|intros; apply no_err_insert_entry]. Qed.
Lemma no_err_apply_parents us t : no_err (apply_parents t us).
Proof. revert t. induction us as [|[[p links] q] us IH]; intros t; cbn [apply_parents]; [done|]. apply no_err_bind; [apply no_err_expect|]. intros st. apply IH. Qed.
Create HintDb no_err.
Hint Resolve no_err_insert_entry no_err_remove_entry no_err_remove_inode no_err_drop_orphan no_err_insert_inode no_err_insert_handle no_err_adjust no_err_install no_err_dirty
  no_err_advance no_err_move_entry no_err_apply_parents : no_err.

Section Errors.
Context (heap : Z → option (CommittedFile * (Z → option byte))) `{Adm : Admission} `{!AdmissionLaws} `{Rec : CloneRecipes} `{!RecipeLaws} `{Dom : Domains} `{Auth : Authorities} `{Pol : NamePolicy}
  (maximum maximum_name_bytes empty_id : Z).
Hypothesis empty_file : heap empty_id = Some (EmptyCommittedFile empty_id, λ _, None).

(** ** Conditions *)
Definition holds (P : InodeState → bool) t i : bool := match inodes_of t !! i with Some st => P st | None => false end.
(** of the inode a key names *)
Definition named (P : InodeState → bool) t (key : Z * bytes) : bool := match entries t !! key with Some i => holds P t i | None => false end.
Definition present t (key : Z * bytes) : bool := bool_decide (is_Some (entries t !! key)).
Definition directory st : bool := bool_decide (kind st = Directory).
(** Some entry is in the directory *)
Definition occupied t i : bool := bool_decide (map_Exists (λ k _, k.1 = i) (entries t)).
(** Counters without room *)
Definition worn st : bool := u64_max <=? inode_sequence st.
Definition crowded st : bool := u32_max <=? link_count st.
Definition inodes_exhausted t : bool := (inode_reservation_end t <=? next_inode t) || (u64_max <=? next_inode t).
Definition handles_exhausted t : bool := u64_max <=? next_handle t.
Definition lookups_full t i : bool := u64_max <=? lookups t i.
Definition foreign i p : bool := negb (same_domain i p) || negb (same_reduction_share i p) || negb (same_immutability_domain i p).
Definition not_owner (context : RequestContext) st : bool := negb (context_uid context =? 0) && negb (context_uid context =? uid st).
(** ** What refuses a name, a directory, a change of it, a new inode *)
Definition bad_name (name : bytes) : bool := bool_decide (name = []) || bool_decide (name = [dot]) || bool_decide (name = [dot; dot]) || bool_decide (slash ∈ name) || bool_decide (x00 ∈ name).
Definition name_errors (name : bytes) : refusals := [refuse (maximum_name_bytes <? blen name) NameTooLong; refuse (bad_name name) InvalidName].
Definition directory_errors t p : refusals := [refuse (bool_decide (inodes_of t !! p = None)) NoEntry; refuse (negb (is_dir (inodes_of t) p)) NotDirectory].
Definition frozen_error t p : option PosixError := refuse (holds immutable t p) PermissionDenied.
Definition root_error t : option PosixError := refuse (holds worn t ROOT_INODE) NoSpace.
Definition parent_error t p : option PosixError := refuse (negb (p =? ROOT_INODE) && holds worn t p) NoSpace.
Definition claim_error : option PosixError := error_of (reserve_commit_capacity (claim_new MUTATION_METADATA_INCREMENT_BYTES_V1 0)).

Lemma occupied_spec t i : negb (directory_is_empty t i) = occupied t i.
Proof.
  unfold directory_is_empty, occupied. rewrite negb_involutive. apply eq_true_iff_eq. rewrite existsb_exists, bool_decide_eq_true. split.
  - intros ([k x]&Hk%list_elem_of_In%elem_of_map_to_list&Hi%Z.eqb_eq). by exists k, x.
  - intros (k&x&Hk&Hi). exists (k, x). split; [by apply list_elem_of_In, elem_of_map_to_list|by apply Z.eqb_eq].
Qed.
Lemma holds_Some P t i st : inodes_of t !! i = Some st → holds P t i = P st.
Proof. unfold holds. by intros ->. Qed.
Lemma named_Some P t key i st : entries t !! key = Some i → inodes_of t !! i = Some st → named P t key = P st.
Proof. unfold named. intros -> Hi. by apply holds_Some. Qed.
Lemma is_dir_at t i st : inodes_of t !! i = Some st → is_dir (inodes_of t) i = directory st.
Proof. unfold is_dir, directory. by intros ->. Qed.
Lemma component_agrees name : agrees (validate_component maximum_name_bytes name) (name_errors name) (λ _, True).
Proof. unfold validate_component, name_errors. apply agrees_reject. intros _. fold (bad_name name). by destruct (bad_name name). Qed.
Lemma directory_agrees t p : agrees (validate_directory t p) (directory_errors t p) (λ _, is_dir (inodes_of t) p = true).
Proof.
  unfold validate_directory, directory_errors. apply agrees_ok_or; [apply bool_decide_eq_true|]. intros st Hst. rewrite (is_dir_at t p st Hst). unfold directory.
  destruct (decide (kind st = Directory)) as [Hd|Hd]; [rewrite (bool_decide_true (kind st = Directory)), (bool_decide_false (kind st ≠ Directory)) by (done || tauto)|rewrite (bool_decide_false (kind st = Directory)), (bool_decide_true (kind st ≠ Directory)) by done]; done.
Qed.
Lemma mutable_agrees t p : is_dir (inodes_of t) p = true → agrees (validate_mutable_directory t p) [frozen_error t p] (λ _, True).
Proof.
  intros (st&Hst&Hd)%is_dir_Some. unfold validate_mutable_directory, frozen_error. rewrite (holds_Some _ t p st Hst), Hst. cbn [ok_or]. rewrite Ok_bind, (bool_decide_false (kind st ≠ Directory)) by tauto.
  cbn [reject_if]. rewrite Ok_bind. by destruct (immutable st).
Qed.
Lemma next_agrees {B} x (k : Z → presult B) b l Q : b = (u64_max <=? x) → agrees (k (x + 1)) l Q → agrees (ok_or (checked_add u64_max x 1) NoSpace ≫= k) (refuse b NoSpace :: l) Q.
Proof.
  intros -> Hk. apply agrees_ok_or; unfold checked_add; destruct (Z.leb_spec (x + 1) u64_max), (Z.leb_spec u64_max x); try lia; try done. by intros ? [= <-].
Qed.
Lemma root_agrees {B} t (k : Z → presult B) l Q : (∀ n, agrees (k n) l Q) → agrees (next_root_mutation_sequence t ≫= k) (root_error t :: l) Q.
Proof.
  intros Hk. unfold next_root_mutation_sequence, root_mutation_sequence, root_error. destruct (inodes_of t !! ROOT_INODE) as [st|] eqn:Hst; [|done]. cbn [expect]. rewrite !Ok_bind.
  rewrite (holds_Some _ _ _ _ Hst). unfold worn, checked_add. destruct (Z.leb_spec (inode_sequence st + 1) u64_max), (Z.leb_spec u64_max (inode_sequence st)); try lia; [|done]. apply Hk.
Qed.
Lemma parent_agrees {B} t p st n (k : Z → presult B) l Q : inodes_of t !! p = Some st → (∀ n, agrees (k n) l Q) →
  agrees ((if decide (p = ROOT_INODE) then Ok n else ok_or (checked_add u64_max (inode_sequence st) 1) NoSpace) ≫= k) (parent_error t p :: l) Q.
Proof.
  intros Hst Hk. unfold parent_error. rewrite (holds_Some _ _ _ _ Hst). case_decide as Hp; [rewrite (proj2 (Z.eqb_eq _ _) Hp); apply Hk|]. rewrite (proj2 (Z.eqb_neq _ _) Hp). cbn [negb andb]. by apply next_agrees.
Qed.
Lemma inode_agrees {B} lc pm t (k : Tree * Z → presult B) l Q : loose heap lc pm t → agrees (k (set_next_inode t (next_inode t + 1), next_inode t)) l Q →
  agrees (allocate_inode t ≫= k) (refuse (inodes_exhausted t) NoSpace :: l) Q.
Proof.
  intros Hl Hk. pose proof (proj1 (lo_next _ _ _ _ Hl)) as Hn. unfold allocate_inode, inodes_exhausted. destruct (inode_reservation_end t <=? next_inode t); [done|]. cbn [reject_if orb].
  rewrite Ok_bind, (proj2 (Z.eqb_neq _ _)) by lia. cbn [reject_if]. rewrite Ok_bind. unfold checked_add.
  destruct (Z.leb_spec (next_inode t + 1) u64_max), (Z.leb_spec u64_max (next_inode t)); try lia; [|done]. cbn [ok_or]. by rewrite Ok_bind.
Qed.
Lemma handle_agrees {B} t (k : Tree * Z → presult B) l Q : 0 < next_handle t → agrees (k (set_next_handle t (next_handle t + 1), next_handle t)) l Q →
  agrees (allocate_handle t ≫= k) (refuse (handles_exhausted t) NoSpace :: l) Q.
Proof.
  intros Hn Hk. unfold allocate_handle, handles_exhausted. rewrite (proj2 (Z.eqb_neq _ _)) by lia. cbn [reject_if]. rewrite Ok_bind. unfold checked_add.
  destruct (Z.leb_spec (next_handle t + 1) u64_max), (Z.leb_spec u64_max (next_handle t)); try lia; [|done]. cbn [ok_or]. by rewrite Ok_bind.
Qed.

Lemma name_step {A} name (k : presult A) l Q : agrees k l Q → agrees (validate_component maximum_name_bytes name;; k) (name_errors name ++ l) Q.
Proof. intros Hk. eapply agrees_bind; [apply component_agrees|done]. Qed.
Lemma directory_step {A} t p (k : presult A) l Q : (is_dir (inodes_of t) p = true → agrees k l Q) → agrees (validate_directory t p;; k) (directory_errors t p ++ l) Q.
Proof. intros Hk. eapply agrees_bind; [apply directory_agrees|]. intros ? Hp. by apply Hk. Qed.
Lemma mutable_step {A} t p (k : presult A) l Q : is_dir (inodes_of t) p = true → agrees k l Q → agrees (validate_mutable_directory t p;; k) (frozen_error t p :: l) Q.
Proof. intros Hp Hk. apply (agrees_bind _ _ [frozen_error t p] l (λ _, True)); [by apply mutable_agrees|done]. Qed.
Lemma entry_step {B} t key (k : Z → presult B) l Q : (∀ i, entries t !! key = Some i → agrees (k i) l Q) → agrees (ok_or (entries t !! key) NoEntry ≫= k) (refuse (negb (present t key)) NoEntry :: l) Q.
Proof. intros Hk. apply agrees_ok_or; [|done]. unfold present. rewrite negb_true_iff, bool_decide_eq_false, eq_None_not_Some. done. Qed.
Lemma inode_step {B} t i (k : InodeState → presult B) l Q : (∀ st, inodes_of t !! i = Some st → agrees (k st) l Q) →
  agrees (ok_or (inodes_of t !! i) NoEntry ≫= k) (refuse (bool_decide (inodes_of t !! i = None)) NoEntry :: l) Q.
Proof. intros Hk. apply agrees_ok_or; [apply bool_decide_eq_true|done]. Qed.
Lemma kind_step {A} st e (k : presult A) b l Q : b = negb (directory st) → agrees k l Q → agrees (reject_if (bool_decide (kind st ≠ Directory)) e;; k) (refuse b e :: l) Q.
Proof.
  intros -> Hk. unfold directory. destruct (decide (kind st = Directory)) as [Hd|Hd].
  - rewrite (bool_decide_true (kind st = Directory)), (bool_decide_false (kind st ≠ Directory)) by tauto. done.
  - by rewrite (bool_decide_false (kind st = Directory)), (bool_decide_true (kind st ≠ Directory)) by done.
Qed.

(** ** The errors of each request *)
Definition lookup_errors t p name : refusals :=
  name_errors name ++ directory_errors t p ++
  [refuse (negb (present t (p, name))) NoEntry; refuse match entries t !! (p, name) with Some i => lookups_full t i | None => false end NoSpace].
Definition link_errors t (context : RequestContext) i p name : refusals :=
  name_errors name ++ directory_errors t p ++
  [frozen_error t p; refuse (present t (p, name)) Exists; refuse (bool_decide (inodes_of t !! i = None)) NoEntry; refuse (is_dir (inodes_of t) i) PermissionDenied;
   refuse (foreign i p) CrossDevice; refuse (holds (not_owner context) t i) PermissionDenied; frozen_error t i; root_error t; refuse (holds worn t i) NoSpace; refuse (holds crowded t i) NoSpace].
Definition symlink_errors t p name (target : bytes) : refusals :=
  name_errors name ++ refuse (bool_decide (target = []) || (MAXIMUM_SYMLINK_BYTES <? blen target)) InvalidArgument :: directory_errors t p ++
  [frozen_error t p; refuse (present t (p, name)) Exists; root_error t; claim_error; refuse (inodes_exhausted t) NoSpace].
Definition mkdir_errors t p name : refusals :=
  name_errors name ++ directory_errors t p ++
  [refuse (present t (p, name)) Exists; frozen_error t p; root_error t; refuse (holds crowded t p) NoSpace; parent_error t p; claim_error; refuse (inodes_exhausted t) NoSpace].
Definition unlink_errors t p name : refusals :=
  name_errors name ++ directory_errors t p ++
  [frozen_error t p; root_error t; refuse (negb (present t (p, name))) NoEntry; refuse (named directory t (p, name)) IsDirectory; refuse (named immutable t (p, name)) PermissionDenied;
   refuse (named worn t (p, name)) NoSpace].
Definition rmdir_errors t p name : refusals :=
  name_errors name ++ directory_errors t p ++
  [frozen_error t p; refuse (negb (present t (p, name))) NoEntry; refuse (named (λ st, negb (directory st)) t (p, name)) NotDirectory; refuse (named immutable t (p, name)) PermissionDenied;
   refuse match entries t !! (p, name) with Some i => occupied t i | None => false end NotEmpty;
   refuse (named worn t (p, name)) NoSpace; root_error t; parent_error t p].
Definition release_errors t i h : refusals :=
  [refuse match handles_of t !! h with Some o => negb (handle_inode o =? i) | None => true end BadHandle].

Lemma acquire_agrees t i : agrees (acquire_lookup t i 1) [refuse (lookups_full t i) NoSpace] (λ _, True).
Proof.
  unfold acquire_lookup, lookups_full. cbn [Z.ltb Z.compare assert_true]. rewrite Ok_bind. apply agrees_assert. intros _. apply next_agrees; [done|]. by apply agrees_ok.
Qed.
Lemma lookup_agrees t p name : agrees (lookup_name maximum_name_bytes t p name) (lookup_errors t p name) (λ _, True).
Proof.
  apply name_step, directory_step. intros _. apply entry_step. intros i ->. apply agrees_expect. intros st Hst. apply agrees_assert. intros _.
  apply (agrees_bind _ _ [refuse (lookups_full t i) NoSpace] [] (λ _, True)); [apply acquire_agrees|]. intros t' _. by apply agrees_ok.
Qed.
Lemma release_agrees t i h : agrees (release t i h) (release_errors t i h) (λ _, True).
Proof.
  unfold release, resolve_open_file, release_errors, handles_of, inodes_of. destruct (handles (catalog (space t)) !! h) as [o|]; [|done]. cbn [ok_or]. rewrite !Ok_bind.
  destruct (handle_inode o =? i); [|done]. cbn [negb reject_if]. rewrite !Ok_bind. destruct (inodes (catalog (space t)) !! i) as [st|] eqn:Hst; [|done]. cbn [expect]. rewrite !Ok_bind. cbv zeta.
  unfold set_handles, set_space, inodes_of. cbn [space catalog inodes]. rewrite Hst. cbn [expect]. rewrite Ok_bind. by apply agrees_last; [auto with no_err|].
Qed.
Ltac calm := repeat (apply agrees_step; [solve [auto with no_err]|intros ? _]; cbv zeta).
Lemma drop_name_step {B} t now i st (k : Tree * bool → presult B) b l Q : b = worn st → (∀ r, agrees (k r) l Q) → agrees (drop_name t now i st ≫= k) (refuse b NoSpace :: l) Q.
Proof.
  intros -> Hk. unfold drop_name. apply (agrees_bind _ k [_] l (λ _, True)); [|intros r _; apply Hk]. apply next_agrees; [done|]. cbv zeta. calm. apply agrees_expect. intros links _. cbv zeta.
  apply agrees_step; [destruct (_ && _); auto with no_err; apply no_err_ok|]. intros d _. by apply agrees_ok.
Qed.
Lemma unlink_agrees t now p name : agrees (unlink maximum_name_bytes t now p name) (unlink_errors t p name) (λ _, True).
Proof.
  apply name_step, directory_step. intros Hp. apply mutable_step; [done|]. apply root_agrees. intros n. apply entry_step. intros i Hi. apply agrees_expect. intros st Hst. rewrite !(named_Some _ t _ i st Hi Hst).
  apply agrees_reject. intros _. apply agrees_reject. intros _. apply drop_name_step; [done|]. intros r. calm. by apply agrees_last; [auto with no_err|].
Qed.
Lemma rmdir_agrees t p name : agrees (rmdir maximum_name_bytes t p name) (rmdir_errors t p name) (λ _, True).
Proof.
  apply name_step, directory_step. intros Hp. apply mutable_step; [done|]. apply entry_step. intros i Hi. apply agrees_expect. intros st Hst. rewrite !(named_Some _ t _ i st Hi Hst), Hi.
  apply kind_step; [done|]. apply agrees_reject. intros _. rewrite occupied_spec. apply agrees_reject. intros _. apply agrees_assert. intros _. apply next_agrees; [done|]. apply root_agrees. intros n.
  apply agrees_expect. intros parent Hpar. apply agrees_expect. intros links _. apply parent_agrees; [done|]. intros q. cbv zeta. calm.
  apply agrees_step; [destruct (decide _); [apply no_err_ok|auto with no_err]|]. intros t1 _. apply agrees_step; [destruct (_ =? _); [auto with no_err|apply no_err_ok]|]. intros t2 _. by apply agrees_ok.
Qed.

(** ** New names *)
Lemma insert_entry_lookups t key i previous t' : insert_entry t key i previous = Ok t' → lookup_counts t' = lookup_counts t.
Proof. unfold insert_entry. destruct (bool_decide _); [|done]. by intros [= <-]. Qed.
Lemma adjust_lookups t i b added t' : adjust_policy_name_matches t i b added = Ok t' → lookup_counts t' = lookup_counts t.
Proof.
  unfold adjust_policy_name_matches. destruct b; [|by intros [= <-]]. cbn [negb]. destruct (inodes_of t !! i) as [st|]; [|done]. cbn [expect]. rewrite Ok_bind. destruct added; [by intros [= <-]|].
  destruct (checked_sub _ 1); [|done]. by intros [= <-].
Qed.
Lemma install_lookups t n t' : install_root_mutation_sequence t n = Ok t' → lookup_counts t' = lookup_counts t.
Proof.
  unfold install_root_mutation_sequence. destruct (inodes_of t !! ROOT_INODE) as [st|]; [|done]. cbn [expect]. rewrite Ok_bind. destruct (checked_add _ _ 1) as [m|]; [|done]. cbn [expect]. rewrite Ok_bind.
  destruct (m =? n); [|done]. by intros [= <-].
Qed.
Lemma link_agrees t now context i p name : agrees (link maximum_name_bytes t now context i p name) (link_errors t context i p name) (λ r, (replied r).2 = negb (lookups_full t i)).
Proof.
  apply name_step, directory_step. intros Hp. apply mutable_step; [done|]. apply agrees_reject. intros _. apply inode_step. intros st Hst. rewrite (is_dir_at t i st Hst).
  apply agrees_reject. intros _. apply agrees_reject. intros _. rewrite (holds_Some (not_owner context) t i st Hst). apply agrees_reject. intros _. unfold frozen_error at 1. rewrite (holds_Some immutable t i st Hst).
  apply agrees_reject. intros _. apply root_agrees. intros n. rewrite !(holds_Some _ t i st Hst). apply next_agrees; [done|].
  apply agrees_ok_or; [unfold checked_add, crowded; destruct (Z.leb_spec (link_count st + 1) u32_max), (Z.leb_spec u32_max (link_count st)); (lia || done)|]. intros links _.
  apply agrees_step; [auto with no_err|]. intros st' _. cbv zeta. apply agrees_step; [auto with no_err|]. intros t1 H1%insert_entry_lookups. apply agrees_step; [auto with no_err|]. intros t2 H2%adjust_lookups.
  apply agrees_step; [auto with no_err|]. intros t3 H3%install_lookups. assert (Hfull : lookups_full t3 i = lookups_full t i) by (unfold lookups_full, lookups; by rewrite H3, H2, H1).
  pose proof (acquire_agrees t3 i) as Ha. rewrite Hfull in Ha. unfold answer. destruct (acquire_lookup t3 i 1) as [t4|e|]; cbn [agrees] in *; [|split; [done|]|done].
  - destruct Ha as [Ha _]. split; [done|]. cbn [replied snd]. by destruct (lookups_full t i).
  - cbn [replied snd]. by destruct (lookups_full t i).
Qed.
Lemma record_no_err t i : no_err (record_create t i).
Proof. unfold record_create. no_err. Qed.
Lemma symlink_agrees t now context p name target : tree_wf heap t → agrees (symlink maximum_name_bytes empty_id t now context p name target) (symlink_errors t p name target) (λ _, True).
Proof.
  intros Hw. apply name_step, agrees_reject. intros _. apply directory_step. intros Hp. apply mutable_step; [done|]. apply agrees_reject. intros _. apply root_agrees. intros n. apply agrees_error. intros _ _.
  eapply inode_agrees; [apply Hw|]. cbv zeta. calm. apply agrees_step; [apply record_no_err|]. intros t' _. by apply agrees_ok.
Qed.
Lemma mkdir_agrees t now context p name mode umask : tree_wf heap t → agrees (mkdir maximum_name_bytes empty_id t now context p name mode umask) (mkdir_errors t p name) (λ _, True).
Proof.
  intros Hw. pose proof (tw_loose _ _ Hw) as Hl. apply name_step, directory_step. intros Hp. apply agrees_reject. intros _. apply mutable_step; [done|]. apply root_agrees. intros n. apply agrees_expect. intros parent Hpar.
  rewrite (holds_Some crowded t p parent Hpar).
  apply agrees_ok_or; [unfold checked_add, crowded; destruct (Z.leb_spec (link_count parent + 1) u32_max), (Z.leb_spec u32_max (link_count parent)); (lia || done)|]. intros links _.
  apply parent_agrees; [done|]. intros q. pose proof (io_metadata _ _ _ (lo_inode _ _ _ _ Hl _ _ Hpar)) as Hmd. destruct (is_dir_Some _ _ Hp) as (x&Hx&Hk). replace x with parent in Hk by congruence. rewrite Hk in Hmd.
  destruct (for_child_spec (metadata parent) Directory mode umask Hmd) as (m&md&->&_). rewrite Ok_bind. apply agrees_error. intros _ _. eapply inode_agrees; [exact Hl|]. cbv zeta. calm.
  apply agrees_step; [destruct (decide _); [apply no_err_ok|auto with no_err]|]. intros t1 _. apply agrees_step; [apply record_no_err|]. intros t' _. by apply agrees_ok.
Qed.
(** ** Opening *)
Definition open_errors t i (opts : OpenOptions) (truncate : bool) (counted : bool) : refusals :=
  let shrinks st := truncate && negb (live_size (file st) =? 0) in
  [refuse (holds directory t i) IsDirectory; refuse (holds (λ st, bool_decide (kind st ≠ Regular)) t i) InvalidArgument;
   refuse ((bool_decide (access opts ≠ AccessReadOnly) || truncate) && holds immutable t i) PermissionDenied; refuse (truncate && bool_decide (access opts = AccessReadOnly)) BadHandle;
   refuse (holds (λ st, shrinks st && worn st) t i) NoSpace;
   match inodes_of t !! i with Some st => if shrinks st then error_of (reserve_change i (live_allocated_bytes (file st)) 0) else None | None => None end;
   refuse (counted && lookups_full t i) NoSpace; refuse (handles_exhausted t) NoSpace].
Lemma truncate_no_err t t0 now i st d : tree_wf heap t → inodes_of t !! i = Some st → kind st = Regular → (∀ n, d = Some n → n = inode_sequence st + 1 ∧ n ≤ u64_max) → no_err (open_truncate t0 now i st d).
Proof.
  intros Hw Hst Hreg Hd. destruct (loose_data _ _ _ _ _ _ (tw_loose _ _ Hw) Hst) as [Hf Hc Hs]. specialize (Hs Hreg). unfold open_truncate. destruct d as [n|]; [|done]. destruct (Hd n eq_refl) as [-> Hn].
  destruct (truncate_file_spec heap (file st) 0 (inode_sequence st + 1) Hf ltac:(lia) Hn ltac:(done)) as (f&->&_). rewrite Ok_bind. apply no_err_bind; [destruct (_ <? _); [apply no_err_dirty|apply no_err_ok]|]. done.
Qed.
Lemma open_steps {B} t i st opts truncate (counted : bool) (k : option Z → presult B) Q : inodes_of t !! i = Some st →
  (∀ d, kind st = Regular → (∀ n, d = Some n → n = inode_sequence st + 1 ∧ n ≤ u64_max) → agrees (k d) [refuse (counted && lookups_full t i) NoSpace; refuse (handles_exhausted t) NoSpace] Q) →
  agrees (open_checks st opts truncate;; next_sequence ← truncate_sequence st truncate; truncate_quota i st next_sequence;; k next_sequence) (open_errors t i opts truncate counted) Q.
Proof.
  intros Hst Hk. unfold open_errors. cbv zeta. rewrite !(holds_Some _ t i st Hst), Hst.
  apply (agrees_bind _ _ [_; _; _; _] [_; _; _; _] (λ _, kind st = Regular)).
  { unfold open_checks. apply agrees_reject. intros _. apply agrees_reject. intros Hreg%bool_decide_eq_false%dec_stable. apply agrees_reject. intros _. by destruct (truncate && _). }
  intros _ Hreg. unfold truncate_sequence. destruct (truncate && negb (live_size (file st) =? 0)); cbn [andb refuse].
  - unfold worn, checked_add. destruct (Z.leb_spec (inode_sequence st + 1) u64_max), (Z.leb_spec u64_max (inode_sequence st)); try lia; [|done]. cbn [ok_or refuse]. rewrite !Ok_bind. cbn [truncate_quota].
    change (agrees (reserve_change i (live_allocated_bytes (file st)) 0;; k (Some (inode_sequence st + 1))) (error_of (reserve_change i (live_allocated_bytes (file st)) 0) :: [refuse (counted && lookups_full t i) NoSpace; refuse (handles_exhausted t) NoSpace]) Q).
    apply agrees_error. intros _ _. apply Hk; [done|]. by intros n [= <-].
  - rewrite Ok_bind. cbn [truncate_quota]. rewrite Ok_bind. by apply Hk.
Qed.
Lemma open_agrees t now i opts truncate : tree_wf heap t →
  agrees (open t now i opts truncate) (refuse (bool_decide (inodes_of t !! i = None)) NoEntry :: open_errors t i opts truncate false) (λ _, True).
Proof.
  intros Hw. apply inode_step. intros st Hst. apply open_steps; [done|]. intros d Hreg Hd. pose proof (proj2 (lo_next _ _ _ _ (tw_loose _ _ Hw))) as Hh.
  change (agrees (r ← allocate_handle t; o ← open_truncate r.1 now i st d; t ← insert_handle o.1 r.2 i opts; Ok (t, r.2)) [refuse (handles_exhausted t) NoSpace] (λ _, True)).
  apply handle_agrees; [lia|]. apply agrees_step; [by eapply truncate_no_err|]. intros o _. apply agrees_step; [auto with no_err|]. intros t' _. by apply agrees_ok.
Qed.
(** ** Creating *)
Definition create_errors t (request : CreateRequest) : refusals :=
  name_errors (create_name request) ++ directory_errors t (create_parent request) ++
  match entries t !! (create_parent request, create_name request) with
  | Some i => refuse (exclusive request) Exists :: open_errors t i (create_options request) (truncate request) true
  | None => [frozen_error t (create_parent request); claim_error; root_error t; refuse (inodes_exhausted t) NoSpace]
  end.
Definition create_answered t (request : CreateRequest) : bool := present t (create_parent request, create_name request) || negb (handles_exhausted t).
Lemma open_existing_agrees t now i st request : tree_wf heap t → inodes_of t !! i = Some st →
  agrees (open_existing_for_create t now i request) (open_errors t i (create_options request) (truncate request) true) (λ _, True).
Proof.
  intros Hw Hst. unfold open_existing_for_create. rewrite Hst. cbn [expect]. rewrite Ok_bind. apply open_steps; [done|]. intros d Hreg Hd. pose proof (proj2 (lo_next _ _ _ _ (tw_loose _ _ Hw))) as Hh.
  apply next_agrees; [done|]. apply handle_agrees; [lia|]. apply agrees_step; [destruct d; [apply no_err_assert|apply no_err_ok]|]. intros _ _.
  apply agrees_step; [by eapply truncate_no_err|]. intros o _. apply agrees_step; [auto with no_err|]. intros t' _. by apply agrees_ok.
Qed.
Lemma create_new_agrees t now request : tree_wf heap t → is_dir (inodes_of t) (create_parent request) = true →
  agrees (create_new_file empty_id t now request) [root_error t; refuse (inodes_exhausted t) NoSpace] (λ r, (replied r).2 = negb (handles_exhausted t)).
Proof.
  intros Hw Hp. pose proof (tw_loose _ _ Hw) as Hl. pose proof (proj2 (lo_next _ _ _ _ Hl)) as Hh. apply root_agrees. intros n. apply agrees_expect. intros parent Hpar. destruct (is_dir_Some _ _ Hp) as (x&Hx&Hk).
  replace x with parent in Hk by congruence. pose proof (io_metadata _ _ _ (lo_inode _ _ _ _ Hl _ _ Hpar)) as Hmd. rewrite Hk in Hmd.
  destruct (for_child_spec (metadata parent) Regular (create_mode request) (create_umask request) Hmd) as (m&md&->&_). rewrite Ok_bind. eapply inode_agrees; [exact Hl|]. cbn [fst snd].
  unfold allocate_handle, handles_exhausted. cbn [set_next_inode next_handle]. rewrite (proj2 (Z.eqb_neq _ _)) by lia. cbn [reject_if]. rewrite Ok_bind. unfold checked_add.
  destruct (Z.leb_spec (next_handle t + 1) u64_max), (Z.leb_spec u64_max (next_handle t)); try lia; cbn [ok_or]; rewrite ?Ok_bind; [|by split]. cbv zeta. calm. by apply agrees_ok.
Qed.
Lemma create_agrees t now request : tree_wf heap t → agrees (create maximum_name_bytes empty_id t now request) (create_errors t request) (λ r, (replied r).2 = create_answered t request).
Proof.
  intros Hw. apply name_step, directory_step. intros Hp. unfold create_answered, present. destruct (entries t !! (create_parent request, create_name request)) as [i|] eqn:He.
  - rewrite bool_decide_true by (by exists i). apply agrees_reject. intros _. destruct (entry_state heap t _ i (tw_loose _ _ Hw) He) as (st&Hst&_).
    rewrite <-(app_nil_r (open_errors _ _ _ _ _)). eapply agrees_bind; [by eapply open_existing_agrees|]. intros r _. by apply agrees_ok.
  - rewrite bool_decide_false by (by intros []). cbn [orb]. apply mutable_step; [done|]. apply agrees_error. intros _ _.
    apply (agrees_bind _ _ [_; _] [] (λ r, (replied r).2 = negb (handles_exhausted t))); [by apply create_new_agrees|]. intros [t' reply] Hr. cbn [replied fst snd] in *.
    destruct reply as [created|e|]; [|by apply agrees_ok|by apply agrees_ok]. apply agrees_step; [apply record_no_err|]. intros t2 _. by apply agrees_ok.
Qed.
(** ** Renaming *)
(** Whether the new parent is the renamed directory or below it *)
Definition moves_into_itself t (old : Z * bytes) p : Prop := ∃ src, entries t !! old = Some src ∧ is_dir (inodes_of t) p = true ∧ below (entries t) src p.
(** A parent that gets one more subdirectory has to have room for its link *)
Definition directory_rename_errors (loop : bool) t (old new : Z * bytes) : refusals :=
  [refuse loop InvalidArgument; refuse (named (λ st, negb (directory st)) t new) NotDirectory;
   refuse match entries t !! new with Some x => occupied t x | None => false end NotEmpty; root_error t;
   refuse (negb (old.1 =? new.1) && negb (present t new) && holds crowded t new.1) NoSpace; parent_error t old.1; parent_error t new.1; refuse (named worn t new) NoSpace].
Definition file_rename_errors t new : refusals := [root_error t; refuse (named directory t new) IsDirectory; refuse (named worn t new) NoSpace].
Definition move_errors (loop : bool) t (old new : Z * bytes) (no_replace : bool) : refusals :=
  if decide (old = new) then []
  else
    refuse (no_replace && present t new) Exists ::
    match entries t !! old with
    | Some src =>
        if decide (entries t !! new = Some src) then []
        else [refuse (foreign src new.1) CrossDevice; frozen_error t src; refuse (named immutable t new) PermissionDenied; claim_error] ++
          (if is_dir (inodes_of t) src then directory_rename_errors loop t old new else file_rename_errors t new)
    | None => []
    end.
Definition rename_errors (loop : bool) t (old new : Z * bytes) (no_replace : bool) : refusals :=
  name_errors old.2 ++ name_errors new.2 ++ directory_errors t old.1 ++ directory_errors t new.1 ++
  frozen_error t old.1 :: (if decide (old.1 = new.1) then None else frozen_error t new.1) :: refuse (negb (present t old)) NoEntry :: move_errors loop t old new no_replace.
Lemma loop_decided t old p : tree_wf heap t → linked t p → ∃ loop : bool, loop = true ↔ moves_into_itself t old p.
Proof.
  intros Hw Hlink. unfold moves_into_itself. destruct (entries t !! old) as [src|]; [|exists false; split; [done|by intros (?&?&_)]].
  destruct (is_dir (inodes_of t) p) eqn:Hp; [|exists false; split; [done|by intros (?&_&?&_)]].
  destruct (ancestor_spec t (inodes_of t) src p (lo_tree _ _ _ _ (tw_loose _ _ Hw)) Hp (Hlink Hp)) as (b&_&Hb). exists b. rewrite Hb. split; [intros ?; by exists src|]. by intros (?&[= <-]&_&?).
Qed.
Lemma ancestor_loop_eq t old src p loop : tree_wf heap t → entries t !! old = Some src → is_dir (inodes_of t) p = true → reach (entries t) p → (loop = true ↔ moves_into_itself t old p) →
  directory_is_ancestor_or_self t src p = Ok loop.
Proof.
  intros Hw Hold Hp Hr Hloop. destruct (ancestor_spec t (inodes_of t) src p (lo_tree _ _ _ _ (tw_loose _ _ Hw)) Hp Hr) as (b&->&Hb). f_equal. apply eq_true_iff_eq. rewrite Hb, Hloop. split.
  - intros ?. by exists src.
  - intros (x&Hx&_&?). by replace src with x by congruence.
Qed.
(** A parent whose counters have no room for the change *)
Definition strained t (delta : Z → Z) p : bool :=
  holds (λ st, bool_decide (checked_add_signed (link_count st) (delta p) = None)) t p || (negb (p =? ROOT_INODE) && holds worn t p).
Lemma plan_agrees t delta n l : agrees (plan_parents t delta n l) [refuse (existsb (strained t delta) l) NoSpace] (λ _, True).
Proof.
  induction l as [|p l IH]; cbn [plan_parents existsb]; [by apply agrees_ok|]. apply agrees_expect. intros st Hst. unfold strained at 1. rewrite !(holds_Some _ t p st Hst).
  destruct (checked_add_signed (link_count st) (delta p)) as [links|]; [|by rewrite bool_decide_true]. rewrite bool_decide_false by done. cbn [ok_or orb]. rewrite Ok_bind.
  assert (Hrest : ∀ q, agrees (rest ← plan_parents t delta n l; Ok ((p, links, q) :: rest)) [refuse (existsb (strained t delta) l) NoSpace] (λ _, True)) by (intros q; by destruct (plan_parents t delta n l)).
  case_decide as Hp; [rewrite (proj2 (Z.eqb_eq _ _) Hp); apply Hrest|]. rewrite (proj2 (Z.eqb_neq _ _) Hp). cbn [negb andb]. unfold worn, checked_add.
  destruct (Z.leb_spec (inode_sequence st + 1) u64_max), (Z.leb_spec u64_max (inode_sequence st)); try lia; [|done]. cbn [ok_or orb]. rewrite Ok_bind. apply Hrest.
Qed.
Lemma agrees_same {A} (r : presult A) l l' (Q : A → Prop) : first_error l = first_error l' → agrees r l Q → agrees r l' Q.
Proof. intros Hl. unfold agrees. by rewrite Hl. Qed.
Lemma reached_links t p st : tree_wf heap t → inodes_of t !! p = Some st → is_dir (inodes_of t) p = true → reach (entries t) p → 2 ≤ link_count st ≤ u32_max.
Proof.
  intros Hw Hst Hd Hr. pose proof (tw_loose _ _ Hw) as Hl. destruct (lo_inode _ _ _ _ Hl p st Hst) as [Hlinks ? ? ? ?]. rewrite (reach_named _ _ p (lo_tree _ _ _ _ Hl) Hd Hr) in Hlinks.
  pose proof (subdirs_nonneg (entries t) (inodes_of t) p). lia.
Qed.
Lemma strained_eq t q p r x st : tree_wf heap t → inodes_of t !! x = Some st → is_dir (inodes_of t) x = true → reach (entries t) x →
  strained t (link_delta q p r) x = (negb (q =? p) && negb r && (x =? p) && crowded st) || (negb (x =? ROOT_INODE) && worn st).
Proof.
  intros Hw Hst Hd Hr. pose proof (reached_links t x st Hw Hst Hd Hr). unfold strained. rewrite !(holds_Some _ t x st Hst). f_equal. unfold checked_add_signed. rewrite link_delta_eq. unfold crowded.
  destruct (Z.eqb_spec q p), (Z.eqb_spec q x), (Z.eqb_spec p x), (Z.eqb_spec x p), r; try lia; subst; cbn [one negb andb];
    match goal with |- context [0 <=? ?a] => destruct (Z.leb_spec 0 a), (Z.leb_spec a u32_max), (Z.leb_spec u32_max (link_count st)) end; try lia; first [by rewrite bool_decide_true by done|by rewrite bool_decide_false by done].
Qed.
Lemma strained_parents t q p r : tree_wf heap t → is_dir (inodes_of t) q = true → reach (entries t) q → is_dir (inodes_of t) p = true → reach (entries t) p →
  first_error [refuse (existsb (strained t (link_delta q p r)) (touched_parents q p)) NoSpace] =
  first_error [refuse (negb (q =? p) && negb r && holds crowded t p) NoSpace; parent_error t q; parent_error t p].
Proof.
  intros Hw Hq Hrq Hp Hrp. destruct (is_dir_Some _ _ Hq) as (sq&Hsq&_), (is_dir_Some _ _ Hp) as (sp&Hsp&_), (is_dir_Some _ _ (to_root _ _ (lo_tree _ _ _ _ (tw_loose _ _ Hw)))) as (sr&Hsr&_).
  unfold parent_error. rewrite !(holds_Some _ t q sq Hsq), !(holds_Some _ t p sp Hsp). set (b := _ && crowded sp). set (c := _ && worn sq). set (d := _ && worn sp).
  assert (Heq : existsb (strained t (link_delta q p r)) (touched_parents q p) = b || c || d); [|rewrite Heq; by destruct b, c, d].
  pose proof (strained_eq t q p r q sq Hw Hsq Hq Hrq) as Eq. pose proof (strained_eq t q p r p sp Hw Hsp Hp Hrp) as Ep.
  pose proof (strained_eq t q p r ROOT_INODE sr Hw Hsr ltac:(by eapply to_root; apply Hw) ltac:(constructor)) as Er. fold c in Eq. fold d in Ep. rewrite Z.eqb_refl, andb_true_r in Ep. fold b in Ep.
  apply eq_true_iff_eq. rewrite existsb_exists. split.
  - intros (x&Hx%list_elem_of_In%(touched_spec heap)&Hs). destruct Hx as [->|[->| ->]].
    + rewrite Eq in Hs. destruct (Z.eqb_spec q p) as [->|]; [|rewrite andb_false_r in Hs; cbn [andb orb] in Hs; rewrite Hs; by destruct b]. cbn [negb andb orb] in Hs. rewrite Hs. by destruct b.
    + rewrite Ep in Hs. destruct b, c, d; done.
    + rewrite Er, Z.eqb_refl in Hs. cbn [negb andb] in Hs. rewrite orb_false_r in Hs. destruct (Z.eqb_spec ROOT_INODE p) as [<-|]; [|by rewrite andb_false_r in Hs].
      replace sr with sp in Hs by congruence. rewrite andb_true_r in Hs. fold b in Hs. by rewrite Hs.
  - intros [[Hb|Hc]%orb_true_iff|Hd]%orb_true_iff; [exists p|exists q|exists p]; (split; [apply list_elem_of_In, (touched_spec heap); tauto|]); [rewrite Ep, Hb|rewrite Eq, Hc|rewrite Ep, Hd]; by rewrite ?orb_true_r.
Qed.
Lemma matches_no_err t old_name new_name src rep : no_err (move_matches t old_name new_name src rep).
Proof. unfold move_matches. do 2 (apply no_err_bind; [apply no_err_adjust|intros ?]). destruct rep; [apply no_err_adjust|apply no_err_ok]. Qed.
Lemma retire_no_err t x n : no_err (retire_directory t x n).
Proof. unfold retire_directory. apply no_err_bind; [apply no_err_expect|]. intros st. cbv zeta. destruct (_ =? _); [apply no_err_remove_inode|apply no_err_ok]. Qed.
Lemma retire_file_no_err t rep : no_err (retire_file t rep).
Proof. unfold retire_file. destruct rep; [|apply no_err_ok]. apply no_err_bind; [apply no_err_expect|]. intros st. apply no_err_drop_orphan. Qed.
Lemma replaced_agrees t new : agrees (replaced_directory t (entries t !! new))
  [refuse (named (λ st, negb (directory st)) t new) NotDirectory; refuse match entries t !! new with Some x => occupied t x | None => false end NotEmpty] (λ _, True).
Proof.
  unfold replaced_directory. destruct (entries t !! new) as [x|] eqn:Hx; [|unfold named; rewrite Hx; by apply agrees_ok]. apply agrees_expect. intros st Hst. rewrite (named_Some _ t new x st Hx Hst).
  apply kind_step; [done|]. rewrite occupied_spec. apply agrees_reject. intros _. by destruct (link_count st =? 2).
Qed.
Lemma rename_directory_agrees t old new src loop : tree_wf heap t → entries t !! old = Some src → is_dir (inodes_of t) new.1 = true → reach (entries t) new.1 → (loop = true ↔ moves_into_itself t old new.1) →
  agrees (rename_directory t old new src (entries t !! new)) (directory_rename_errors loop t old new) (λ _, True).
Proof.
  intros Hw Hold Hp Hr Hloop. pose proof (lo_tree _ _ _ _ (tw_loose _ _ Hw)) as Ht. unfold rename_directory, directory_rename_errors. rewrite (ancestor_loop_eq t old src new.1 loop), Ok_bind by done.
  apply agrees_reject. intros _. apply (agrees_bind _ _ [_; _] [_; _; _; _; _] (λ _, True)); [apply replaced_agrees|]. intros _ _. apply root_agrees. intros n.
  apply (agrees_bind _ _ [_; _; _] [_] (λ _, True)).
  { eapply agrees_same; [|apply plan_agrees]. destruct old as [q name]. by apply strained_parents; [..|by eapply to_parent|by eapply to_reach| |]. }
  intros us _. apply (agrees_bind _ _ [_] [] (λ _, True)).
  { destruct (entries t !! new) as [x|] eqn:Hx; [|unfold named; rewrite Hx; by apply agrees_ok]. apply agrees_expect. intros st Hst. rewrite (named_Some _ t new x st Hx Hst). apply next_agrees; [done|]. by apply agrees_ok. }
  intros q _. apply agrees_step; [auto with no_err|]. intros t1 _. apply agrees_step; [apply matches_no_err|]. intros t2 _. apply agrees_step; [auto with no_err|]. intros t3 _.
  apply agrees_last; [|done]. destruct (entries t !! new); [apply retire_no_err|apply no_err_ok].
Qed.
Lemma rename_file_agrees t now old new src : agrees (rename_file t now old new src (entries t !! new)) (file_rename_errors t new) (λ _, True).
Proof.
  unfold rename_file. apply root_agrees. intros n. apply (agrees_bind _ _ [_; _] [] (λ _, True)).
  { unfold replace_file. destruct (entries t !! new) as [x|] eqn:Hx; [|unfold named; rewrite Hx; by apply agrees_ok]. apply agrees_expect. intros st Hst. rewrite !(named_Some _ t new x st Hx Hst).
    apply agrees_reject. intros _. apply drop_name_step; [done|]. intros r. by apply agrees_ok. }
  intros t1 _. apply agrees_expect. intros st _. cbv zeta. apply agrees_step; [auto with no_err|]. intros t2 _. apply agrees_step; [apply matches_no_err|]. intros t3 _.
  apply agrees_step; [auto with no_err|]. intros t4 _. apply agrees_last; [apply retire_file_no_err|done].
Qed.
Lemma rename_agrees t now p name p' name' no_replace loop : tree_wf heap t → linked t p' → (loop = true ↔ moves_into_itself t (p, name) p') →
  agrees (rename maximum_name_bytes t now p name p' name' no_replace) (rename_errors loop t (p, name) (p', name') no_replace) (λ _, True).
Proof.
  intros Hw Hlink Hloop. unfold rename, rename_errors. set (old := (p, name)). set (new := (p', name')).
  assert (Hstep : ∀ k l, agrees k l (λ _ : Tree, True) → is_dir (inodes_of t) p' = true →
    agrees ((if decide (old.1 = new.1) then Ok () else validate_mutable_directory t new.1);; k) ((if decide (old.1 = new.1) then None else frozen_error t new.1) :: l) (λ _, True)).
  { intros k l Hk Hp'. case_decide; [done|]. by apply mutable_step. }
  assert (Hassoc : ∀ {A B C} (r : presult A) (f : A → presult B) (g : B → presult C), (r ≫= f) ≫= g = r ≫= (λ a, f a ≫= g)) by (intros A B C []; done).
  unfold rename_checks. rewrite ?Hassoc. apply name_step. rewrite ?Hassoc. apply name_step. rewrite ?Hassoc. apply directory_step. intros Hp. rewrite ?Hassoc. apply directory_step. intros Hp'. rewrite ?Hassoc.
  apply mutable_step; [done|]. rewrite ?Hassoc. apply Hstep; [|done]. rewrite ?Hassoc. apply entry_step. intros src Hsrc. unfold move_errors. clear Hstep. case_decide as Heq; [by split|]. cbv zeta.
  rewrite ?Hassoc. apply agrees_reject. intros _. rewrite Hsrc. case_decide as Hsame; [by split|]. rewrite ?Hassoc. cbn [app]. apply agrees_reject. intros _. rewrite ?Hassoc. apply agrees_expect. intros st Hst.
  rewrite ?Hassoc. unfold frozen_error. rewrite (holds_Some _ t src st Hst). apply agrees_reject. intros _. rewrite ?Hassoc. apply (agrees_bind _ _ [_] (claim_error :: _) (λ _, True)).
  { destruct (entries t !! new) as [x|] eqn:Hx; [|unfold named; rewrite Hx; by apply agrees_ok]. apply agrees_expect. intros sx Hsx. rewrite (named_Some _ t new x sx Hx Hsx). by destruct (immutable sx). }
  intros _ _. rewrite Ok_bind. apply agrees_error. intros _ _. rewrite Hst. cbn [expect]. rewrite Ok_bind, (is_dir_at t src st Hst). unfold directory.
  destruct (decide (kind st = Directory)) as [Hd|Hd]; [rewrite bool_decide_true by done|rewrite bool_decide_false by done; apply rename_file_agrees].
  rewrite <-(app_nil_r (directory_rename_errors _ _ _ _)). eapply agrees_bind; [apply rename_directory_agrees; [done|done|done|by apply Hlink|done]|]. intros t' _. by apply agrees_ok.
Qed.
(** ** Forgetting and reading links *)
Lemma forget_agrees t i n : agrees (forget t i n) [] (λ _, True).
Proof. apply agrees_last; [|done]. unfold forget. destruct (n =? 0); [done|]. destruct (lookup_counts t !! i); [|done]. cbv zeta. destruct (inodes_of _ !! i); [apply no_err_drop_orphan|done]. Qed.
Definition readlink_errors t i : refusals := [refuse (bool_decide (inodes_of t !! i = None)) NoEntry; refuse (holds (λ st, bool_decide (symlink_target st = None)) t i) InvalidArgument].
Lemma settle_no_err t i st sequences : no_err (settle t i st sequences).
Proof. unfold settle. apply no_err_bind; [apply no_err_advance|]. intros st'. cbv zeta. destruct (decide _); [apply no_err_ok|apply no_err_install]. Qed.
Lemma relatime_no_err t now i st : no_err (update_relatime t now i st).
Proof.
  unfold update_relatime. destruct (negb _); [done|]. destruct (next_namespace_and_inode_mutation_sequences _ _ _); [|done|done]. destruct (reserve_commit_capacity _); [apply settle_no_err|done|done].
Qed.
Lemma readlink_agrees t now i : agrees (readlink t now i) (readlink_errors t i) (λ _, True).
Proof.
  apply inode_step. intros st Hst. rewrite (holds_Some _ t i st Hst). apply agrees_ok_or; [apply bool_decide_eq_true|]. intros target _. apply agrees_step; [apply relatime_no_err|]. intros t' _. by apply agrees_ok.
Qed.
(** ** Every request on names *)
Definition names_request (req : tree_request) : bool := match req with ChangeRequest _ _ _ _ | ReadDirectoryRequest _ _ _ | FileRequest _ => false | _ => true end.
(** A rename of a directory to a name in itself or below it *)
Definition into_itself t (req : tree_request) : Prop := match req with RenameRequest _ p name p' _ _ => moves_into_itself t (p, name) p' | _ => False end.
Definition tree_errors (loop : bool) t (req : tree_request) : refusals :=
  match req with
  | LookupRequest p name => lookup_errors t p name
  | LinkRequest _ context i p name => link_errors t context i p name
  | SymlinkRequest _ _ p name target => symlink_errors t p name target
  | MkdirRequest _ _ p name _ _ => mkdir_errors t p name
  | CreateFile _ request => create_errors t request
  | OpenRequest _ i opts truncate => refuse (bool_decide (inodes_of t !! i = None)) NoEntry :: open_errors t i opts truncate false
  | ReleaseRequest i h => release_errors t i h
  | UnlinkRequest _ p name => unlink_errors t p name
  | RmdirRequest p name => rmdir_errors t p name
  | RenameRequest _ p name p' name' no_replace => rename_errors loop t (p, name) (p', name') no_replace
  | ReadlinkRequest _ i => readlink_errors t i
  | _ => []
  end.
(** Two requests report an error after their change *)
Definition answered t (req : tree_request) : bool :=
  match req with LinkRequest _ _ i _ _ => negb (lookups_full t i) | CreateFile _ request => create_answered t request | _ => true end.
Lemma agrees_reply {A B} (r : presult A) (f : A → B) l (P : A → Prop) (Q : B → Prop) : agrees r l P → (∀ a, P a → Q (f a)) → agrees (a ← r; Ok (f a)) l Q.
Proof. destruct r; [|done|done]. intros [Hl Ha] Hf. split; [done|]. by apply Hf. Qed.
Lemma tree_agrees t req loop : tree_wf heap t → tree_request_ok heap t req → names_request req = true → (loop = true ↔ into_itself t req) →
  agrees (handle_tree maximum maximum_name_bytes empty_id t req) (tree_errors loop t req) (λ r, r.2 = answered t req).
Proof.
  intros Hw Hok Hreq Hloop. destruct req; try done; cbn [handle_tree tree_request_ok into_itself] in *.
  - eapply agrees_reply; [apply lookup_agrees|done].
  - eapply agrees_reply; [apply link_agrees|done].
  - eapply agrees_reply; [by apply symlink_agrees|done].
  - eapply agrees_reply; [by apply mkdir_agrees|done].
  - eapply agrees_reply; [by apply create_agrees|done].
  - eapply agrees_reply; [by apply open_agrees|done].
  - eapply agrees_reply; [apply release_agrees|done].
  - eapply agrees_reply; [apply unlink_agrees|done].
  - eapply agrees_reply; [apply rmdir_agrees|done].
  - eapply agrees_reply; [by apply rename_agrees|done].
  - eapply agrees_reply; [apply forget_agrees|done].
  - eapply agrees_reply; [apply readlink_agrees|done].
Qed.
Lemma into_itself_decided t req : tree_wf heap t → tree_request_ok heap t req → ∃ loop : bool, loop = true ↔ into_itself t req.
Proof. intros Hw Hok. destruct req; cbn [into_itself tree_request_ok] in *; try (exists false; by split). by apply loop_decided. Qed.
(** C11: a request on the names of the namespace (lookup, link, symlink, readlink,
    mkdir, create, open, release, unlink, rmdir, rename, forget) that meets
    [tree_request_ok] fails exactly when one of the conditions listed for it holds,
    with the error of the first one that does, and then returns no new state; a
    request that no condition refuses succeeds.  A directory is refused a new name
    at or below it in the tree of the entries ([into_itself]), a removed or
    replaced directory has to have no entry ([occupied]), and a parent that gets a
    subdirectory has to have room for its link.  Only a link whose lookup count is
    full and a create without a free handle number report an error after a change.
    [tree_request_ok] excludes a new name in a directory that has itself been
    removed (a directory renamed into one is answered with Io), a hard link to an
    inode without links, and a negative forget. *)
Theorem tree_request_errors t req : tree_wf heap t → tree_request_ok heap t req → names_request req = true →
  ∃ loop : bool, (loop = true ↔ into_itself t req) ∧
  match first_error (tree_errors loop t req) with
  | Some e => handle_tree maximum maximum_name_bytes empty_id t req = Err e
  | None => ∃ t', handle_tree maximum maximum_name_bytes empty_id t req = Ok (t', answered t req)
  end.
Proof.
  intros Hw Hok Hreq. destruct (into_itself_decided t req Hw Hok) as [loop Hloop]. exists loop. split; [done|].
  pose proof (tree_agrees t req loop Hw Hok Hreq Hloop) as Ha. pose proof (tree_request_spec heap maximum maximum_name_bytes empty_id empty_file t req Hw Hok) as Hs.
  destruct (handle_tree maximum maximum_name_bytes empty_id t req) as [[t' b]|e|]; cbn [agrees safe snd] in *; [destruct Ha as [-> ->]; by exists t'|by rewrite Ha|done].
Qed.
End Errors.
End TreeErrors.
