(* ===== verification/NamespaceMount.v ===== *)
(** * Mounting a namespace ([Namespace] of [fastdup-posix/src/lib.rs])

    The committed snapshot of a namespace, the checks of its parts, and the
    construction of the catalog from it. *)
From S2P Require Export TreeRequests.

Module NamespaceMount.
Import SparseData DirtyEpoch VersionedFile FileCommit InodeMetadata FileCatalog FileCapacity FileHandlers NamespaceTree TreeRequests.

Record CommittedInode := {
  ci_inode : Z; ci_mode : Z; ci_uid : Z; ci_gid : Z; ci_link_count : Z; ci_mutation_sequence : Z; ci_metadata : InodeMetadata; ci_times : PosixTimes; ci_file : CommittedFile;
}.
Record CommittedDirectory := {
  cd_inode : Z; cd_mode : Z; cd_uid : Z; cd_gid : Z; cd_link_count : Z; cd_mutation_sequence : Z; cd_metadata : InodeMetadata; cd_times : PosixTimes;
}.
Record CommittedSymlink := { cs_inode : Z; cs_uid : Z; cs_gid : Z; cs_link_count : Z; cs_mutation_sequence : Z; cs_times : PosixTimes; cs_target : bytes }.
Record CommittedEntry := { ce_parent : Z; ce_target : Z; ce_name : bytes }.
Record CommittedNamespaceSnapshot := {
  snapshot_next_inode : Z;
  snapshot_reservation_end : Z;
  namespace_mutation_sequence : Z;
  root_mode : Z;
  root_uid : Z;
  root_gid : Z;
  root_metadata : InodeMetadata;
  root_times : PosixTimes;
  committed_inodes : list CommittedInode;
  committed_directories : list CommittedDirectory;
  committed_symlinks : list CommittedSymlink;
  committed_entries : list CommittedEntry;
}.

(** ** The parts of a snapshot *)
Definition default_times : PosixTimes := let zero := {| seconds := 0; nanoseconds := 0 |} in {| atime := zero; mtime := zero; ctime := zero |}.
Definition inode_id (raw : Z) : presult Z := reject_if (raw =? 0) InvalidArgument;; Ok raw.
Definition committed_directory_new (inode mode uid gid link_count mutation_sequence : Z) (md : InodeMetadata) : presult CommittedDirectory :=
  inode ← inode_id inode;
  reject_if ((inode <=? ROOT_INODE) || (link_count <? 2)) InvalidArgument;;
  Ok {| cd_inode := inode; cd_mode := mode; cd_uid := uid; cd_gid := gid; cd_link_count := link_count; cd_mutation_sequence := mutation_sequence; cd_metadata := md; cd_times := default_times |}.
Definition committed_inode_new (inode mode uid gid link_count mutation_sequence : Z) (md : InodeMetadata) (file : CommittedFile) : presult CommittedInode :=
  inode ← inode_id inode;
  reject_if ((inode <=? ROOT_INODE) || (link_count =? 0) || (file_logical_size file <? file_allocated_bytes file)) InvalidArgument;;
  Ok {| ci_inode := inode; ci_mode := mode; ci_uid := uid; ci_gid := gid; ci_link_count := link_count; ci_mutation_sequence := mutation_sequence; ci_metadata := md; ci_times := default_times;
        ci_file := file |}.
Definition committed_symlink_new (inode uid gid link_count mutation_sequence : Z) (times : PosixTimes) (target : bytes) : presult CommittedSymlink :=
  inode ← inode_id inode;
  reject_if ((inode <=? ROOT_INODE) || (link_count =? 0) || bool_decide (target = []) || (MAXIMUM_SYMLINK_BYTES <? blen target)) InvalidArgument;;
  Ok {| cs_inode := inode; cs_uid := uid; cs_gid := gid; cs_link_count := link_count; cs_mutation_sequence := mutation_sequence; cs_times := times; cs_target := target |}.
Definition committed_entry_new (parent target : Z) (name : bytes) : presult CommittedEntry :=
  parent ← inode_id parent;
  target ← inode_id target;
  Ok {| ce_parent := parent; ce_target := target; ce_name := name |}.
Definition snapshot_new (next reservation_end sequence : Z) (inodes : list CommittedInode) (directories : list CommittedDirectory) (entries : list CommittedEntry)
    : presult CommittedNamespaceSnapshot :=
  reject_if ((next <=? ROOT_INODE) || (reservation_end <? next)) InvalidArgument;;
  Ok {| snapshot_next_inode := next; snapshot_reservation_end := reservation_end; namespace_mutation_sequence := sequence; root_mode := 0x1ED; root_uid := 0; root_gid := 0;
        root_metadata := default_metadata; root_times := default_times; committed_inodes := inodes; committed_directories := directories; committed_symlinks := []; committed_entries := entries |}.
Definition with_root_metadata (s : CommittedNamespaceSnapshot) (mode uid gid : Z) (md : InodeMetadata) : CommittedNamespaceSnapshot :=
  {| snapshot_next_inode := snapshot_next_inode s; snapshot_reservation_end := snapshot_reservation_end s; namespace_mutation_sequence := namespace_mutation_sequence s;
     root_mode := Z.land mode 0xFFF; root_uid := uid; root_gid := gid; root_metadata := md; root_times := root_times s; committed_inodes := committed_inodes s;
     committed_directories := committed_directories s; committed_symlinks := committed_symlinks s; committed_entries := committed_entries s |}.
Definition with_posix_state (s : CommittedNamespaceSnapshot) (times : PosixTimes) (symlinks : list CommittedSymlink) : CommittedNamespaceSnapshot :=
  {| snapshot_next_inode := snapshot_next_inode s; snapshot_reservation_end := snapshot_reservation_end s; namespace_mutation_sequence := namespace_mutation_sequence s;
     root_mode := root_mode s; root_uid := root_uid s; root_gid := root_gid s; root_metadata := root_metadata s; root_times := times; committed_inodes := committed_inodes s;
     committed_directories := committed_directories s; committed_symlinks := symlinks; committed_entries := committed_entries s |}.

Section Mount.
Context `{NamePolicy} (maximum_name_bytes empty_id : Z).

(** ** Inodes *)
Definition mounted (k : FileKind) (mode uid gid links sequence : Z) (md : InodeMetadata) (ts : PosixTimes) (target : option bytes) (f : VersionedFile) : InodeState :=
  {| kind := k; mode := mode; uid := uid; gid := gid; link_count := links; inode_sequence := sequence; metadata := md; times := ts; symlink_target := target; file := f;
     policy_name_matches := 0 |}.
Definition root_state (s : CommittedNamespaceSnapshot) : InodeState :=
  mounted Directory (root_mode s) (root_uid s) (root_gid s) 2 (namespace_mutation_sequence s) (root_metadata s) (root_times s) None (new_empty empty_id).
Definition inode_state (c : CommittedInode) : InodeState :=
  mounted Regular (ci_mode c) (ci_uid c) (ci_gid c) (ci_link_count c) (ci_mutation_sequence c) (ci_metadata c) (ci_times c) None (from_committed (ci_file c) (ci_mutation_sequence c)).
Definition directory_state (c : CommittedDirectory) : InodeState :=
  mounted Directory (cd_mode c) (cd_uid c) (cd_gid c) (cd_link_count c) (cd_mutation_sequence c) (cd_metadata c) (cd_times c) None (new_empty empty_id).
Definition symlink_state (c : CommittedSymlink) : InodeState :=
  mounted Symlink 0x1FF (cs_uid c) (cs_gid c) (cs_link_count c) (cs_mutation_sequence c) default_metadata (cs_times c) (Some (cs_target c)) (new_empty empty_id).
Fixpoint insert_committed (next : Z) (l : list (Z * InodeState)) (m : gmap Z InodeState) : presult (gmap Z InodeState) :=
  match l with
  | [] => Ok m
  | (i, st) :: l =>
      reject_if (next <=? i) InvalidArgument;;
      reject_if (bool_decide (is_Some (m !! i))) InvalidArgument;;
      insert_committed next l (<[i := st]> m)
  end.
(** ** Entries *)
Record MountState := { ms_inodes : gmap Z InodeState; ms_entries : gmap (Z * bytes) Z; observed_links : gmap Z Z; directory_children : gmap Z Z }.
Definition is_directory (m : gmap Z InodeState) (i : Z) : bool := match m !! i with Some st => bool_decide (kind st = Directory) | None => false end.
Definition count_up (m : gmap Z Z) (i : Z) : presult (gmap Z Z) := n ← ok_or (checked_add u32_max (default 0 (m !! i)) 1) NoSpace; Ok (<[i := n]> m).
Definition insert_committed_entry (s : MountState) (e : CommittedEntry) : presult MountState :=
  validate_component maximum_name_bytes (ce_name e);;
  reject_if (negb (is_directory (ms_inodes s) (ce_parent e)) || (ce_target e =? ROOT_INODE) || bool_decide (ms_inodes s !! ce_target e = None)) InvalidArgument;;
  reject_if (bool_decide (is_Some (ms_entries s !! (ce_parent e, ce_name e)))) InvalidArgument;;
  target ← expect (ms_inodes s !! ce_target e);
  let inodes := if name_matches (ce_name e) then <[ce_target e := set_matches target ((policy_name_matches target + 1) mod 2 ^ 32)]> (ms_inodes s) else ms_inodes s in
  links ← count_up (observed_links s) (ce_target e);
  children ← (if is_directory inodes (ce_target e) then count_up (directory_children s) (ce_parent e) else Ok (directory_children s));
  Ok {| ms_inodes := inodes; ms_entries := <[(ce_parent e, ce_name e) := ce_target e]> (ms_entries s); observed_links := links; directory_children := children |}.
Fixpoint insert_committed_entries (l : list CommittedEntry) (s : MountState) : presult MountState :=
  match l with [] => Ok s | e :: l => s ← insert_committed_entry s e; insert_committed_entries l s end.
Definition check_inode_links (s : MountState) (i : Z) (st : InodeState) : presult () :=
  if decide (i = ROOT_INODE) then Ok ()
  else match kind st with
       | Directory =>
           expected ← ok_or (checked_add u32_max 2 (default 0 (directory_children s !! i))) NoSpace;
           reject_if (negb (bool_decide (observed_links s !! i = Some 1)) || negb (link_count st =? expected)) InvalidArgument
       | _ => reject_if (negb (bool_decide (observed_links s !! i = Some (link_count st)))) InvalidArgument
       end.
Fixpoint check_links (s : MountState) (l : list (Z * InodeState)) : presult () :=
  match l with [] => Ok () | (i, st) :: l => check_inode_links s i st;; check_links s l end.
(** ** Reachability: the stack of directories to visit has its top first *)
Fixpoint visit_entries (m : gmap Z InodeState) (l : list ((Z * bytes) * Z)) (parent : Z) (reachable : gset Z) (pending : list Z) : presult (gset Z * list Z) :=
  match l with
  | [] => Ok (reachable, pending)
  | ((entry_parent, _), target) :: l =>
      if negb (entry_parent =? parent) then visit_entries m l parent reachable pending
      else
        object ← ok_or (m !! target) InvalidArgument;
        let directory := bool_decide (kind object = Directory) in
        reject_if (bool_decide (target ∈ reachable) && directory) InvalidArgument;;
        visit_entries m l parent ({[ target ]} ∪ reachable) (if directory then target :: pending else pending)
  end.
(** An unending walk would be a panic *)
Fixpoint reach_loop (fuel : nat) (m : gmap Z InodeState) (l : list ((Z * bytes) * Z)) (reachable : gset Z) (pending : list Z) : presult (gset Z) :=
  match pending with
  | [] => Ok reachable
  | parent :: pending =>
      match fuel with
      | O => Panic
      | S fuel => r ← visit_entries m l parent reachable pending; reach_loop fuel m l r.1 r.2
      end
  end.
Definition reachable_inodes (E : gmap (Z * bytes) Z) (m : gmap Z InodeState) : presult (gset Z) :=
  reach_loop (S (size m)) m (sort_by_key fst (map_to_list E)) ∅ [ROOT_INODE].
(** ** The namespace *)
Definition committed_states (s : CommittedNamespaceSnapshot) : list (Z * InodeState) :=
  map (λ c, (ci_inode c, inode_state c)) (committed_inodes s) ++ map (λ c, (cd_inode c, directory_state c)) (committed_directories s) ++
  map (λ c, (cs_inode c, symlink_state c)) (committed_symlinks s).
Definition from_committed_mode (s : CommittedNamespaceSnapshot) : presult Tree :=
  assert_true (0 <? maximum_name_bytes);;
  inodes ← insert_committed (snapshot_next_inode s) (committed_states s) {[ ROOT_INODE := root_state s ]};
  state ← insert_committed_entries (committed_entries s) {| ms_inodes := inodes; ms_entries := ∅; observed_links := ∅; directory_children := ∅ |};
  check_links state (sort_by_key fst (map_to_list (ms_inodes state)));;
  root_links ← ok_or (checked_add u32_max 2 (default 0 (directory_children state !! ROOT_INODE))) NoSpace;
  root ← expect (ms_inodes state !! ROOT_INODE);
  let inodes := <[ROOT_INODE := set_links root root_links (inode_sequence root)]> (ms_inodes state) in
  reachable ← reachable_inodes (ms_entries state) inodes;
  reject_if (negb (Z.of_nat (size reachable) =? Z.max 0 (Z.of_nat (size inodes) - 1))) InvalidArgument;;
  Ok {| space := {| catalog := {| inodes := inodes; handles := ∅ |}; dirty_payload := 0 |}; entries := ms_entries state; lookup_counts := ∅;
        next_inode := snapshot_next_inode s; inode_reservation_end := snapshot_reservation_end s; next_handle := 1; active_create_metadata_bytes := ∅ |}.
(** [new_volatile] *)
Definition new_volatile (now : PosixTimestamp) : presult Tree :=
  assert_true (0 <? maximum_name_bytes);;
  Ok {| space := {| catalog := {| inodes := {[ ROOT_INODE := mounted Directory 0x1ED 0 0 2 0 default_metadata (new_times now) None (new_empty empty_id) ]}; handles := ∅ |}; dirty_payload := 0 |};
        entries := ∅; lookup_counts := ∅; next_inode := ROOT_INODE + 1; inode_reservation_end := u64_max; next_handle := 1; active_create_metadata_bytes := ∅ |}.
End Mount.
End NamespaceMount.
