(* ===== verification/NamespaceMountOps.v ===== *)
(** * A mounted namespace is a tree

    The checks of a mount establish the invariant of the tree. *)
From S2P Require Export NamespaceMount TreeHistory.

Module NamespaceMountOps.
Import SparseData SparseDataOps DirtyEpoch DirtyEpochOps VersionedFile VersionedFileOps FileCommit FileRefinement InodeMetadata InodeAttributes FileCatalog FileCapacity FileHandlers FileClone FileHandlersOps FileCloneOps FileRequests NamespaceTree TreeRequests TreeInvariant TreeSteps TreeRefs TreeNames TreeHistory NamespaceMount.
Implicit Types (i : Z) (E : Entries) (I : Inodes).

(** ** Reachability *)
Section Reach.
Context (E : Entries) (m : Inodes).
Record walk_ok (reachable : gset Z) (pending : list Z) : Prop := {
  wo_reached x : x ∈ reachable → reach E x ∧ is_Some (m !! x) ∧ ∃ k, E !! k = Some x;
  wo_pending x : x ∈ pending → reach E x;
}.
Definition work (reachable : gset Z) (pending : list Z) : nat := length pending + size (dom m ∖ reachable).
Lemma visit_spec l parent : (∀ k x, (k, x) ∈ l → E !! k = Some x) → reach E parent → ∀ reachable pending, walk_ok reachable pending →
  safe (visit_entries m l parent reachable pending) (λ r, walk_ok r.1 r.2 ∧ (work r.1 r.2 ≤ work reachable pending)%nat).
Proof.
  intros Hl Hp. induction l as [|[[q n] x] l IH]; intros reachable pending Hw; cbn [visit_entries]; [done|].
  assert (Hl' : ∀ k x, (k, x) ∈ l → E !! k = Some x) by (intros k y Hk; apply Hl; by right). specialize (IH Hl'). destruct (Z.eqb_spec q parent) as [->|]; cbn [negb]; [|by apply IH].
  apply safe_ok_or. intros object Hx. cbv zeta. apply safe_reject. intros Hdup. assert (Hreach : reach E x) by (eapply reach_child; [done|apply (Hl (parent, n)); by left]).
  assert (Hin : x ∈ dom m) by (by apply elem_of_dom; eexists). eapply safe_mono; [apply IH|].
  - destruct Hw as [W1 W2]. split; [intros y [->%elem_of_singleton|Hy]%elem_of_union; [split_and!; [done|by eexists|exists (parent, n); apply Hl; by left]|by apply W1]|]. intros y. destruct (bool_decide (kind object = Directory)); [|by apply W2].
    intros [->|Hy]%elem_of_cons; [done|by apply W2].
  - intros r [Hr Hwork]. split; [done|]. etrans; [exact Hwork|]. unfold work.
    assert (Hle : (size (dom m ∖ ({[x]} ∪ reachable)) ≤ size (dom m ∖ reachable))%nat) by (apply subseteq_size; set_solver). destruct (bool_decide (kind object = Directory)); [|lia].
    rewrite andb_true_r in Hdup. apply bool_decide_eq_false in Hdup. assert (Heq : dom m ∖ reachable = {[x]} ∪ dom m ∖ ({[x]} ∪ reachable)).
    { apply set_eq. intros y. destruct (decide (y = x)) as [->|]; set_solver. }
    rewrite Heq. pose proof (size_union ({[x]} : gset Z) (dom m ∖ ({[x]} ∪ reachable)) ltac:(set_solver)) as Hs. rewrite size_singleton in Hs. cbn [length]. lia.
Qed.
Lemma reach_loop_spec l : (∀ k x, (k, x) ∈ l → E !! k = Some x) → ∀ fuel reachable pending, walk_ok reachable pending → (work reachable pending ≤ fuel)%nat →
  safe (reach_loop fuel m l reachable pending) (λ S, ∀ x, x ∈ S → reach E x ∧ is_Some (m !! x) ∧ ∃ k, E !! k = Some x).
Proof.
  intros Hl fuel. induction fuel as [|fuel IH]; intros reachable [|p pending] Hw Hf; cbn [reach_loop]; try exact (wo_reached _ _ Hw); [unfold work in Hf; cbn in Hf; lia|].
  apply safe_bind. eapply safe_mono; [apply (visit_spec l p Hl)|].
  - apply (wo_pending _ _ Hw). by left.
  - split; [apply Hw|]. intros x Hx. apply (wo_pending _ _ Hw). by right.
  - intros r [Hr Hwork]. apply IH; [done|]. unfold work in *. cbn [length] in Hf. lia.
Qed.
Lemma reachable_spec : safe (reachable_inodes E m) (λ S, ∀ x, x ∈ S → reach E x ∧ is_Some (m !! x) ∧ ∃ k, E !! k = Some x).
Proof.
  apply reach_loop_spec.
  - intros k x. by rewrite (sort_by_key_perm fst (map_to_list E)), elem_of_map_to_list.
  - split; [by intros x ?%elem_of_empty|]. intros x [->|?%not_elem_of_nil]%elem_of_cons; [constructor|done].
  - unfold work. cbn [length]. rewrite difference_empty_L, size_dom. lia.
Qed.
(** The root aside, every inode is reached when the numbers agree *)
Lemma all_reached (S : gset Z) : (∀ x, x ∈ S → reach E x ∧ is_Some (m !! x) ∧ ∃ k, E !! k = Some x) → ROOT_INODE ∉ S → is_Some (m !! ROOT_INODE) → Z.of_nat (size S) = Z.max 0 (Z.of_nat (size m) - 1) →
  ∀ x, is_Some (m !! x) → reach E x.
Proof.
  intros HS Hr Hroot Hsz x Hx. destruct (decide (x = ROOT_INODE)) as [->|Hne]; [constructor|]. assert (Hrd : ROOT_INODE ∈ dom m) by (by apply elem_of_dom).
  assert (Hsub : S ⊆ dom m ∖ {[ROOT_INODE]}).
  { intros y Hy. apply elem_of_difference. split; [apply elem_of_dom; by apply HS|]. intros ->%elem_of_singleton. done. }
  assert (Hcard : size (dom m ∖ {[ROOT_INODE]}) = (size m - 1)%nat) by (rewrite size_difference, size_singleton, size_dom by set_solver; done).
  assert (Hpos : (1 ≤ size m)%nat) by (rewrite <-size_dom, <-(size_singleton ROOT_INODE (C := gset Z)); apply subseteq_size; set_solver).
  assert (Heq : S = dom m ∖ {[ROOT_INODE]}) by (apply set_subseteq_size_eq; [done|lia]). apply HS. rewrite Heq. apply elem_of_difference. split; [by apply elem_of_dom|]. by rewrite elem_of_singleton.
Qed.
End Reach.
Lemma safe_if (b : bool) e (P : () → Prop) : (b = false → P ()) → safe (reject_if b e) P.
Proof. destruct b; [done|]. intros Hp. by apply Hp. Qed.
Section Mounting.
Context (heap : Z → option (CommittedFile * (Z → option byte))) `{Pol : NamePolicy} (maximum_name_bytes empty_id : Z).
Hypothesis empty_file : heap empty_id = Some (EmptyCommittedFile empty_id, λ _, None).

(** What the constructors of the parts check, and the documented ranges *)
Record snapshot_ok (s : CommittedNamespaceSnapshot) : Prop := {
  so_next : ROOT_INODE < snapshot_next_inode s ≤ u64_max;
  so_root : metadata_wf Directory (root_metadata s);
  so_inodes c : c ∈ committed_inodes s → ROOT_INODE < ci_inode c ∧ 0 < ci_link_count c ≤ u32_max ∧ 0 ≤ ci_mutation_sequence c ≤ u64_max ∧ file_ok heap (ci_file c) ∧
    (∀ x, x < 0 → file_at heap (ci_file c) x = None) ∧ metadata_wf Regular (ci_metadata c);
  so_directories c : c ∈ committed_directories s → ROOT_INODE < cd_inode c ∧ 2 ≤ cd_link_count c ≤ u32_max ∧ metadata_wf Directory (cd_metadata c);
  so_symlinks c : c ∈ committed_symlinks s → ROOT_INODE < cs_inode c ∧ 0 < cs_link_count c ≤ u32_max;
}.
(** ** Inodes *)
Record fresh_state (st : InodeState) : Prop := {
  fs_data : data_ok heap st;
  fs_ok : inode_ok (link_count st) 0 st;
  fs_clean : resident_payload_bytes (file st) = 0;
}.
Lemma empty_fresh k mode uid gid links sequence md ts target : k ≠ Regular → 0 ≤ links ≤ u32_max → metadata_wf k md →
  fresh_state (mounted k mode uid gid links sequence md ts target (new_empty empty_id)).
Proof.
  intros Hk Hl Hm. destruct (new_inode_ok heap empty_id k {| context_uid := uid; context_gid := gid |} mode links md target (atime ts) empty_file Hm Hl) as ([D1 D2 _]&_&_).
  split; [split; [done|done|by intros ?]|by split|done].
Qed.
Lemma committed_clean f q : clean_ok heap (from_committed f q) ↔ ∀ x, file_view heap (from_committed f q) x = file_at heap f x.
Proof. unfold clean_ok. cbn [from_committed active inflight committed]. split; [intros Hc x; by apply Hc|]. intros Hv _ _. by split. Qed.
Lemma committed_fresh c : 0 < ci_link_count c ≤ u32_max → 0 ≤ ci_mutation_sequence c ≤ u64_max → file_ok heap (ci_file c) → (∀ x, x < 0 → file_at heap (ci_file c) x = None) →
  metadata_wf Regular (ci_metadata c) → fresh_state (inode_state c).
Proof.
  intros Hl Hq Hf Hneg Hm. split; [|split; try done; cbn; lia|done]. split; [by apply from_committed_wf; [|lia]| |done]. apply committed_clean. intros x. rewrite file_view_active. cbn [from_committed active committed].
  rewrite new_view. case_decide; [done|]. symmetry. destruct (decide (x < 0)); [by apply Hneg|]. apply (fo_beyond _ _ Hf). lia.
Qed.
Lemma states_fresh s i st : snapshot_ok s → (i, st) ∈ committed_states empty_id s → ROOT_INODE < i ∧ 0 < link_count st ∧ fresh_state st.
Proof.
  intros [_ _ H1 H2 H3]. unfold committed_states. rewrite !elem_of_app, !list_elem_of_fmap. intros [(c&[= -> ->]&Hc)|[(c&[= -> ->]&Hc)|(c&[= -> ->]&Hc)]].
  - destruct (H1 c Hc) as (?&?&?&?&?&?). split_and!; [done|cbn; lia|by apply committed_fresh].
  - destruct (H2 c Hc) as (?&?&?). split_and!; [done|cbn; lia|apply empty_fresh; [done|lia|done]].
  - destruct (H3 c Hc) as (?&?). split_and!; [done|cbn; lia|apply empty_fresh; [done|lia|apply default_wf]].
Qed.
Lemma insert_committed_spec next l : ∀ m, safe (insert_committed next l m) (λ m', m ⊆ m' ∧ (∀ i st, (i, st) ∈ l → m' !! i = Some st ∧ i < next) ∧ ∀ i st, m' !! i = Some st → m !! i = Some st ∨ (i, st) ∈ l).
Proof.
  induction l as [|[i st] l IH]; intros m; cbn [insert_committed]; [split_and!; [done|by intros ?? ?%not_elem_of_nil|by left]|]. apply safe_reject. intros Hi%Z.leb_gt. apply safe_reject.
  intros Hn%bool_decide_eq_false%eq_None_not_Some. eapply safe_mono; [apply IH|]. intros m' (Hsub&Hin&Hout). split_and!.
  - etrans; [|exact Hsub]. by apply insert_subseteq.
  - intros j x [[= -> ->]|Hj]%elem_of_cons; [|by apply Hin]. split; [|done]. eapply lookup_weaken; [apply lookup_insert_eq|done].
  - intros j x Hj. destruct (Hout j x Hj) as [[[<- <-]|[_ ?]]%lookup_insert_Some|?]; [right; by left|by left|right; by right].
Qed.
(** ** Entries *)
Record mount_inv I (l : list CommittedEntry) (s : MountState) : Prop := {
  mi_inodes i : ms_inodes s !! i = (λ st, set_matches st (matching (ms_entries s) i)) <$> I !! i;
  mi_parent p n i : ms_entries s !! (p, n) = Some i → is_dir I p = true;
  mi_child k i : ms_entries s !! k = Some i → is_Some (I !! i) ∧ i ≠ ROOT_INODE;
  mi_links i : observed_links s !! i = (if decide (names (ms_entries s) i = 0) then None else Some (names (ms_entries s) i));
  mi_room i : names (ms_entries s) i ≤ u32_max;
  mi_children i : default 0 (directory_children s !! i) = subdirs (ms_entries s) I i;
  mi_exact p n i : ms_entries s !! (p, n) = Some i ↔ {| ce_parent := p; ce_target := i; ce_name := n |} ∈ l;
}.
Lemma count_up_spec {B} m i (k : gmap Z Z → presult B) P : (default 0 (m !! i) + 1 ≤ u32_max → safe (k (<[i := default 0 (m !! i) + 1]> m)) P) → safe (count_up m i ≫= k) P.
Proof. intros Hk. unfold count_up, checked_add. destruct (Z.leb_spec (default 0 (m !! i) + 1) u32_max); [|done]. by apply Hk. Qed.
Lemma mi_observed I l s i : mount_inv I l s → default 0 (observed_links s !! i) = names (ms_entries s) i.
Proof. intros Hm. rewrite (mi_links _ _ _ Hm). by case_decide as Hz; cbn. Qed.
Lemma mi_is_dir I l s i : mount_inv I l s → is_dir (ms_inodes s) i = is_dir I i.
Proof. intros Hm. unfold is_dir. rewrite (mi_inodes _ _ _ Hm). by destruct (I !! i). Qed.
(** The counts of names after one more *)
Lemma counted_names E (m : gmap Z Z) k x i : E !! k = None → (∀ i, m !! i = (if decide (names E i = 0) then None else Some (names E i))) →
  (<[x := default 0 (m !! x) + 1]> m : gmap Z Z) !! i = (if decide (names (<[k := x]> E) i = 0) then None else Some (names (<[k := x]> E) i)).
Proof.
  intros Hk Hm. rewrite names_insert by done. pose proof (names_nonneg E i). destruct (Z.eqb_spec x i) as [<-|Hne]; cbn [one].
  - rewrite lookup_insert_eq, Hm. destruct (decide (names E x = 0)) as [Hz|Hz]; rewrite decide_False by lia; cbn; [by rewrite Hz|done].
  - rewrite lookup_insert_ne, Hm, Z.add_0_r by done. done.
Qed.
Lemma counted_children E I (m : gmap Z Z) p n x i : E !! (p, n) = None → (∀ i, default 0 (m !! i) = subdirs E I i) → is_dir I x = true →
  default 0 ((<[p := default 0 (m !! p) + 1]> m : gmap Z Z) !! i) = subdirs (<[(p, n) := x]> E) I i.
Proof.
  intros Hk Hm Hd. rewrite subdirs_insert, Hd, andb_true_r by done. cbn [fst]. destruct (Z.eqb_spec p i) as [<-|Hne]; cbn [one].
  - rewrite lookup_insert_eq. cbn [default]. by rewrite <-Hm.
  - rewrite lookup_insert_ne by done. rewrite Hm. lia.
Qed.
Lemma insert_entry_mount I l s e : mount_inv I l s → safe (insert_committed_entry maximum_name_bytes s e) (mount_inv I (l ++ [e])).
Proof.
  intros Hm. destruct e as [p x n]. unfold insert_committed_entry. cbn [ce_parent ce_target ce_name]. apply safe_component, safe_reject. intros Hok.
  apply orb_false_iff in Hok as [[Hp%negb_false_iff Hroot%Z.eqb_neq]%orb_false_iff Hx%bool_decide_eq_false]. change (is_directory (ms_inodes s) p) with (is_dir (ms_inodes s) p) in Hp.
  rewrite (mi_is_dir _ _ _ p Hm) in Hp. apply safe_reject. intros Hfree%bool_decide_eq_false%eq_None_not_Some.
  destruct (ms_inodes s !! x) as [target|] eqn:Htarget; [|done]. eapply safe_expect; [done|]. rewrite (mi_inodes _ _ _ Hm) in Htarget. destruct (I !! x) as [st|] eqn:Hst; [|done].
  cbn [fmap option_fmap option_map] in Htarget. injection Htarget as <-. cbv zeta. set (inodes := if name_matches n then _ else _). set (E := ms_entries s) in *.
  apply count_up_spec. rewrite (mi_observed _ _ _ _ Hm) at 1. intros Hroom. pose proof (matching_bound E x) as Hmb. pose proof (mi_room _ _ _ Hm x) as Hr.
  assert (Hin : ∀ i, inodes !! i = (λ st, set_matches st (matching (<[(p, n) := x]> E) i)) <$> I !! i).
  { intros i. rewrite matching_insert by done. cbn [snd]. unfold inodes. destruct (name_matches n); [|rewrite andb_false_r; cbn [one]; rewrite Z.add_0_r; apply Hm]. rewrite andb_true_r.
    destruct (Z.eqb_spec x i) as [<-|Hne]; cbn [one].
    - rewrite lookup_insert_eq, Hst. cbn [fmap option_fmap option_map policy_name_matches set_matches]. rewrite Z.mod_small by (change u32_max with (2 ^ 32 - 1) in Hroom; fold E in Hroom; lia). done.
    - rewrite lookup_insert_ne, Z.add_0_r by done. apply Hm. }
  assert (Hdx : is_dir inodes x = is_dir I x) by (unfold is_dir; rewrite Hin; by destruct (I !! x)). change (is_directory inodes x) with (is_dir inodes x). rewrite Hdx.
  assert (Hfin : ∀ children, (∀ i, default 0 (children !! i) = subdirs (<[(p, n) := x]> E) I i) →
    mount_inv I (l ++ [{| ce_parent := p; ce_target := x; ce_name := n |}])
      {| ms_inodes := inodes; ms_entries := <[(p, n) := x]> E; observed_links := <[x := default 0 (observed_links s !! x) + 1]> (observed_links s); directory_children := children |}).
  { intros children Hc. split; cbn [ms_inodes ms_entries observed_links directory_children]; [done| | | | |done|].
    - intros q m i [[[= <- <-] _]|[_ Hi]]%lookup_insert_Some; [done|by apply (mi_parent _ _ _ Hm q m i)].
    - intros k i [[<- <-]|[_ Hi]]%lookup_insert_Some; [split; [by eexists|done]|by apply (mi_child _ _ _ Hm k)].
    - intros i. apply (counted_names E); [done|apply Hm].
    - intros i. rewrite names_insert by done. destruct (Z.eqb_spec x i) as [<-|]; cbn [one]; [done|]. rewrite Z.add_0_r. apply Hm.
    - intros q m i. rewrite elem_of_app, list_elem_of_singleton. rewrite <-(mi_exact _ _ _ Hm). fold E. split.
      + intros [[[= <- <-] <-]|[_ Hi]]%lookup_insert_Some; [by right|by left].
      + intros [Hi|[= -> -> ->]]; [|apply lookup_insert_eq]. rewrite lookup_insert_ne; [done|]. intros [= -> ->]. congruence. }
  destruct (is_dir I x) eqn:Hd.
  - apply count_up_spec. intros _. apply Hfin. intros i. apply counted_children; [done|apply Hm|done].
  - rewrite Ok_bind. apply Hfin. intros i. rewrite subdirs_insert, Hd, andb_false_r by done. cbn [one]. rewrite Z.add_0_r. apply Hm.
Qed.
Lemma insert_entries_mount I l : ∀ done_ s, mount_inv I done_ s → safe (insert_committed_entries maximum_name_bytes l s) (mount_inv I (done_ ++ l)).
Proof.
  induction l as [|e l IH]; intros d s Hm; cbn [insert_committed_entries]; [by rewrite app_nil_r|]. apply safe_bind. eapply safe_mono; [by apply insert_entry_mount|].
  intros s' Hm'. eapply safe_mono; [by apply IH|]. intros a. by rewrite <-app_assoc.
Qed.
(** ** Links *)
Definition links_checked I E i (st : InodeState) : Prop :=
  if decide (kind st = Directory) then names E i = 1 ∧ link_count st = 2 + subdirs E I i else link_count st = names E i ∧ 0 < names E i.
Lemma mount_links_spec I l s us : mount_inv I l s → safe (check_links s us) (λ _, ∀ i st, (i, st) ∈ us → i ≠ ROOT_INODE → links_checked I (ms_entries s) i st).
Proof.
  intros Hm. induction us as [|[i st] us IH]; cbn [check_links]; [by intros i st ?%not_elem_of_nil|]. apply safe_bind. apply (safe_mono _ (λ _, i ≠ ROOT_INODE → links_checked I (ms_entries s) i st)).
  - unfold check_inode_links, links_checked. destruct (decide (i = ROOT_INODE)) as [|Hne]; [cbn [safe]; by intros []|]. assert (Hobs : ∀ n, bool_decide (observed_links s !! i = Some n) = true → n = names (ms_entries s) i ∧ 0 < names (ms_entries s) i).
    { intros n Hn%bool_decide_eq_true. rewrite (mi_links _ _ _ Hm) in Hn. pose proof (names_nonneg (ms_entries s) i). case_decide; [done|]. injection Hn as <-. lia. }
    destruct (kind st) eqn:Hk.
    + destruct (decide (Directory = Directory)) as [_|[]]; [|done]. unfold checked_add. destruct (_ <=? _); [|done]. cbn [ok_or]. rewrite Ok_bind, (mi_children _ _ _ Hm). apply safe_if. intros [H1%negb_false_iff H2%negb_false_iff]%orb_false_iff _.
      apply Hobs in H1 as [<- _]. apply Z.eqb_eq in H2. split; [done|lia].
    + destruct (decide (Regular = Directory)); [done|]. apply safe_if. intros H1%negb_false_iff _. apply Hobs in H1 as [? ?]. done.
    + destruct (decide (Symlink = Directory)); [done|]. apply safe_if. intros H1%negb_false_iff _. apply Hobs in H1 as [? ?]. done.
  - intros _ Hi. eapply safe_mono; [exact IH|]. intros a Hus j x [[= -> ->]|Hj]%elem_of_cons; [done|by apply Hus].
Qed.
(** ** The mounted tree *)
Lemma unique_name E i k1 k2 : names E i ≤ 1 → E !! k1 = Some i → E !! k2 = Some i → k1 = k2.
Proof.
  intros Hn H1 H2. destruct (decide (k1 = k2)) as [|Hne]; [done|]. exfalso. assert (Hpos : 0 < names (delete k1 E) i) by (apply names_pos; exists k2; by rewrite lookup_delete_ne).
  rewrite (names_delete E k1 i) in Hpos by done. rewrite Z.eqb_refl in Hpos. cbn [one] in Hpos. lia.
Qed.
Lemma msum_zero {K A} `{Countable K} (f : K → A → Z) (m : gmap K A) : (∀ k x, m !! k = Some x → f k x = 0) → msum f m = 0.
Proof.
  induction m as [|k x m Hk IH] using map_ind; intros Hz; [apply msum_empty|]. rewrite msum_insert_new, (Hz k x) by (done || apply lookup_insert_eq). rewrite IH; [done|].
  intros j y Hj. apply Hz. rewrite lookup_insert_ne; [done|]. intros <-. congruence.
Qed.
(** What the checks have established of the inodes and the entries *)
Record mount_done (s : CommittedNamespaceSnapshot) I E I' : Prop := {
  md_state i st : I !! i = Some st → fresh_state st ∧ 0 < link_count st ∧ ROOT_INODE ≤ i < snapshot_next_inode s;
  md_root : is_dir I ROOT_INODE = true;
  md_inodes i : I' !! i = (λ st, set_links (set_matches st (matching E i)) (if decide (i = ROOT_INODE) then 2 + subdirs E I i else link_count st) (inode_sequence st)) <$> I !! i;
  md_parent p n i : E !! (p, n) = Some i → is_dir I p = true;
  md_child k i : E !! k = Some i → is_Some (I !! i) ∧ i ≠ ROOT_INODE;
  md_links i st : I !! i = Some st → i ≠ ROOT_INODE → links_checked I E i st;
  md_room : 2 + subdirs E I ROOT_INODE ≤ u32_max;
  md_reach i : is_Some (I !! i) → reach E i;
}.
Lemma mounted_dir s I E I' i : mount_done s I E I' → is_dir I' i = is_dir I i.
Proof. intros Hd. unfold is_dir. rewrite (md_inodes _ _ _ _ Hd). by destruct (I !! i). Qed.
Lemma mounted_expected s I E I' i st : mount_done s I E I' → I !! i = Some st → (if decide (i = ROOT_INODE) then 2 + subdirs E I i else link_count st) = expected E I' i.
Proof.
  intros Hd Hi. rewrite (expected_ext E I I') by (intros; by apply (mounted_dir s I E I')). unfold expected. case_decide as Hr.
  - subst i. by rewrite (md_root _ _ _ _ Hd).
  - pose proof (md_links _ _ _ _ Hd i st Hi Hr) as Hl. unfold links_checked in Hl. unfold is_dir. rewrite Hi. case_decide as Hk.
    + destruct Hl as [Hn Hl]. rewrite bool_decide_true by done. rewrite Hn, orb_true_r. done.
    + rewrite bool_decide_false by done. by destruct Hl.
Qed.
Lemma mounted_tree s I E I' : mount_done s I E I' → tree_ok E I'.
Proof.
  intros Hd. assert (Hdir : ∀ i, is_dir I' i = is_dir I i) by (intros i; by apply (mounted_dir s I E I')). split.
  - rewrite Hdir. apply Hd.
  - intros p n i Hi. rewrite Hdir. by apply (md_parent _ _ _ _ Hd p n i).
  - intros k i Hi. destruct (md_child _ _ _ _ Hd k i Hi) as [[st Hst] Hr]. split; [|done]. rewrite (md_inodes _ _ _ _ Hd), Hst. by eexists.
  - intros k1 k2 i Hi H1 H2. rewrite Hdir in Hi. apply is_dir_Some in Hi as (st&Hst&Hk). destruct (md_child _ _ _ _ Hd k1 i H1) as [_ Hr].
    pose proof (md_links _ _ _ _ Hd i st Hst Hr) as Hl. unfold links_checked in Hl. rewrite decide_True in Hl by done. apply (unique_name E i); [lia|done|done].
  - intros p n i Hi. apply (md_reach _ _ _ _ Hd). destruct (is_dir_Some _ _ (md_parent _ _ _ _ Hd p n i Hi)) as (st&Hst&_). by eexists.
Qed.
Lemma mounted_wf s I E I' : snapshot_ok s → mount_done s I E I' →
  tree_wf heap {| space := {| catalog := {| inodes := I'; handles := ∅ |}; dirty_payload := 0 |}; entries := E; lookup_counts := ∅;
    next_inode := snapshot_next_inode s; inode_reservation_end := snapshot_reservation_end s; next_handle := 1; active_create_metadata_bytes := ∅ |}.
Proof.
  intros Hs Hd. assert (Hst : ∀ i x, I' !! i = Some x → ∃ st, I !! i = Some st ∧ fresh_state st ∧ 0 < link_count x ≤ u32_max ∧ link_count x = expected E I' i ∧ ROOT_INODE ≤ i < snapshot_next_inode s ∧
    x = set_links (set_matches st (matching E i)) (link_count x) (inode_sequence st)).
  { intros i x Hx. rewrite (md_inodes _ _ _ _ Hd) in Hx. destruct (I !! i) as [st|] eqn:Hi; [|done]. cbn [fmap option_fmap option_map] in Hx. injection Hx as <-. exists st. split; [done|].
    destruct (md_state _ _ _ _ Hd i st Hi) as (Hf&Hp&Hr). pose proof (mounted_expected s I E I' i st Hd Hi) as He. cbn [set_links link_count]. pose proof (md_room _ _ _ _ Hd).
    pose proof (subdirs_nonneg E I ROOT_INODE). pose proof (io_u32 _ _ _ (fs_ok _ Hf)). split_and!; try done; case_decide; subst; lia. }
  split; [split; cbn [inodes_of space catalog inodes entries lookup_counts next_inode next_handle active_create_metadata_bytes handles_of handles]|].
  - split; cbn [catalog inodes handles dirty_payload]; [by intros h o ?%lookup_empty_Some| |].
    + intros i x Hx. destruct (Hst i x Hx) as (st&_&[[D1 D2 D3] _ _]&_&_&_&->). done.
    + symmetry. apply msum_zero. intros i x Hx. destruct (Hst i x Hx) as (st&_&[_ _ Hc]&_&_&_&->). unfold inode_dirty. cbn [set_links file set_matches]. rewrite Hc. by destruct (0 <? _).
  - by apply (mounted_tree s I).
  - intros i x Hx. destruct (Hst i x Hx) as (st&_&[_ [O1 O2 O3 O4 O5] _]&Hl&He&_&Heq). split; [done|by rewrite Heq|lia| |]; rewrite Heq; done.
  - by intros i n ?%lookup_empty_Some.
  - intros i [[x Hx]|[x ?%lookup_empty_Some]]; [|done]. destruct (Hst i x Hx) as (st&_&_&_&_&Hr&_). unfold ROOT_INODE in Hr. lia.
  - by intros h [x ?%lookup_empty_Some].
  - split; [|done]. destruct (so_next _ Hs). unfold ROOT_INODE in *. lia.
  - intros i x Hx Hz. destruct (Hst i x Hx) as (st&_&_&Hl&_). lia.
Qed.
Lemma empty_inv I : (∀ i st, I !! i = Some st → fresh_state st) → mount_inv I [] {| ms_inodes := I; ms_entries := ∅; observed_links := ∅; directory_children := ∅ |}.
Proof.
  intros Hf. assert (Hz : ∀ i, names ∅ i = 0) by (intros i; apply msum_empty). split; cbn [ms_inodes ms_entries observed_links directory_children].
  - intros i. destruct (I !! i) as [st|] eqn:Hi; [|done]. cbn [fmap option_fmap option_map]. f_equal. unfold matching. rewrite msum_empty. rewrite <-(io_matches _ _ _ (fs_ok _ (Hf i st Hi))). by destruct st.
  - by intros ??? ?%lookup_empty_Some.
  - by intros ?? ?%lookup_empty_Some.
  - intros i. by rewrite Hz, lookup_empty.
  - intros i. by rewrite Hz.
  - intros i. rewrite lookup_empty. symmetry. apply msum_empty.
  - intros p n i. split; [by intros ?%lookup_empty_Some|by intros ?%not_elem_of_nil].
Qed.
Lemma mounted_states s I : snapshot_ok s → {[ ROOT_INODE := root_state empty_id s ]} ⊆ I → (∀ i st, (i, st) ∈ committed_states empty_id s → I !! i = Some st ∧ i < snapshot_next_inode s) →
  (∀ i st, I !! i = Some st → ({[ ROOT_INODE := root_state empty_id s ]} : Inodes) !! i = Some st ∨ (i, st) ∈ committed_states empty_id s) →
  ∀ i st, I !! i = Some st → fresh_state st ∧ 0 < link_count st ∧ ROOT_INODE ≤ i < snapshot_next_inode s.
Proof.
  intros Hs Hsub Hin Hout i st Hi. destruct (so_next _ Hs). destruct (Hout i st Hi) as [[<- <-]%lookup_singleton_Some|Hc].
  - split_and!; [apply empty_fresh; [done|done|apply Hs]|done|lia|lia].
  - destruct (states_fresh s i st Hs Hc) as (?&?&?). destruct (Hin i st Hc). split_and!; [done|done|lia|lia].
Qed.
Lemma from_committed_spec s : snapshot_ok s → 0 < maximum_name_bytes →
  safe (from_committed_mode maximum_name_bytes empty_id s) (λ t, tree_wf heap t ∧ next_inode t = snapshot_next_inode s ∧
    (∀ p n i, entries t !! (p, n) = Some i ↔ {| ce_parent := p; ce_target := i; ce_name := n |} ∈ committed_entries s) ∧
    ∀ i st, (i, st) ∈ committed_states empty_id s → inodes_of t !! i = Some (set_matches st (matching (entries t) i))).
Proof.
  intros Hs Hmax. unfold from_committed_mode. apply safe_assert; [by apply Z.ltb_lt|]. apply safe_bind. eapply safe_mono; [apply insert_committed_spec|]. intros I (Hsub&Hin&Hout).
  pose proof (mounted_states s I Hs Hsub Hin Hout) as Hst. assert (Hroot : I !! ROOT_INODE = Some (root_state empty_id s)) by (eapply lookup_weaken; [apply lookup_singleton_eq|done]).
  apply safe_bind. eapply safe_mono; [apply (insert_entries_mount I _ [])|].
  { apply empty_inv. intros i st Hi. by destruct (Hst i st Hi). }
  rewrite app_nil_l. intros ms Hm. set (E := ms_entries ms) in *. apply safe_bind. eapply safe_mono; [by eapply mount_links_spec|]. intros u Hlinks. apply safe_ok_or. rewrite (mi_children _ _ _ Hm).
  intros rl [-> Hroom]%checked_add_Some. eapply safe_expect; [rewrite (mi_inodes _ _ _ Hm), Hroot; done|]. cbv zeta. set (I' := <[ROOT_INODE := _]> (ms_inodes ms)). apply safe_bind.
  eapply safe_mono; [apply reachable_spec|]. intros R HR. apply safe_reject. intros Hsz%negb_false_iff%Z.eqb_eq. cbn [safe].
  assert (HI' : ∀ i, I' !! i = (λ st, set_links (set_matches st (matching E i)) (if decide (i = ROOT_INODE) then 2 + subdirs E I i else link_count st) (inode_sequence st)) <$> I !! i).
  { intros i. unfold I'. case_decide as Hi; [subst i; by rewrite lookup_insert_eq, Hroot|]. rewrite lookup_insert_ne, (mi_inodes _ _ _ Hm) by done. destruct (I !! i) as [st|]; [|done].
    cbn [fmap option_fmap option_map]. by destruct st. }
  assert (Hsome : ∀ i, is_Some (I' !! i) ↔ is_Some (I !! i)) by (intros i; rewrite HI'; apply fmap_is_Some).
  assert (Hdone : mount_done s I E I').
  { split; [done|unfold is_dir; by rewrite Hroot|done|apply Hm|apply Hm| |done|].
    - intros i st Hi Hne. specialize (Hlinks i (set_matches st (matching E i))). apply Hlinks; [|done]. rewrite (sort_by_key_perm fst (map_to_list _)). apply elem_of_map_to_list. by rewrite (mi_inodes _ _ _ Hm), Hi.
    - intros i Hi%Hsome. apply (all_reached E I' R); [done| |apply Hsome; by eexists|done|done]. intros (_&_&k&Hk)%HR. by destruct (mi_child _ _ _ Hm k _ Hk). }
  split; [by apply (mounted_wf s I)|]. split; [done|]. split; [apply Hm|]. intros i st Hi. destruct (Hin i st Hi) as [HIi _]. cbn [inodes_of space catalog inodes entries]. rewrite HI', HIi.
  cbn [fmap option_fmap option_map]. f_equal. destruct (states_fresh s i st Hs Hi) as (Hne&_). rewrite decide_False by lia. by destruct st.
Qed.
Lemma new_volatile_wf now : 0 < maximum_name_bytes → ∃ t, new_volatile maximum_name_bytes empty_id now = Ok t ∧ tree_wf heap t.
Proof.
  intros Hmax. unfold new_volatile. rewrite (proj2 (Z.ltb_lt _ _) Hmax). cbn [assert_true]. rewrite Ok_bind. eexists. split; [done|]. set (root := mounted _ _ _ _ _ _ _ _ _ _).
  assert (Hf : fresh_state root) by (apply empty_fresh; [done|done|apply default_wf]). set (s := {| snapshot_next_inode := 2; snapshot_reservation_end := u64_max; namespace_mutation_sequence := 0;
    root_mode := 0; root_uid := 0; root_gid := 0; root_metadata := default_metadata; root_times := default_times; committed_inodes := []; committed_directories := []; committed_symlinks := []; committed_entries := [] |}).
  apply (mounted_wf s {[ROOT_INODE := root]}).
  - split; [done|apply default_wf|by intros c ?%not_elem_of_nil..].
  - split; [| | |by intros ??? ?%lookup_empty_Some|by intros ?? ?%lookup_empty_Some| | |].
    + by intros i st [<- <-]%lookup_singleton_Some.
    + unfold is_dir. by rewrite lookup_singleton_eq.
    + intros i. destruct (decide (i = ROOT_INODE)) as [->|]; [by rewrite lookup_singleton_eq|by rewrite lookup_singleton_ne].
    + by intros i st [<- <-]%lookup_singleton_Some.
    + unfold subdirs. by rewrite msum_empty.
    + intros i [st [<- <-]%lookup_singleton_Some]. constructor.
Qed.
(** C12: mounting a committed snapshot never fails an assertion and ends; when it
    accepts the snapshot the namespace satisfies the invariant of the tree, so
    every inode is reached from the root, without cycles, and has the links its
    names ask for; the entries are exactly those of the snapshot and every
    committed inode has its state. *)
Theorem mount_establishes_tree s : snapshot_ok s → 0 < maximum_name_bytes →
  match from_committed_mode maximum_name_bytes empty_id s with
  | Ok t => tree_wf heap t ∧ next_inode t = snapshot_next_inode s ∧
      (∀ p n i, entries t !! (p, n) = Some i ↔ {| ce_parent := p; ce_target := i; ce_name := n |} ∈ committed_entries s) ∧
      ∀ i st, (i, st) ∈ committed_states empty_id s → inodes_of t !! i = Some (set_matches st (matching (entries t) i))
  | Err _ => True
  | Panic => False
  end.
Proof. intros Hs Hmax. pose proof (from_committed_spec s Hs Hmax) as Hm. by destruct (from_committed_mode _ _ _). Qed.
End Mounting.
End NamespaceMountOps.
