(* ===== verification/NamespaceExamples.v ===== *)
(** * A volatile and a mounted namespace

    Histories of requests on a new namespace, and a snapshot with a directory, a
    file with two names and a symbolic link. *)
From S2P Require Export NamespaceMountOps TreeErrors.

Module NamespaceExamples.
Import SparseData SparseDataOps DirtyEpoch VersionedFile FileCommit FileRefinement InodeMetadata InodeAttributes FileCatalog FileCapacity FileHandlers FileClone FileHandlersOps FileCloneOps FileRequests NamespaceTree TreeRequests AttributeRequests TreeInvariant TreeSteps TreeRefs TreeNames AttributeOps TreeHistory TreeErrors NamespaceMount NamespaceMountOps.

#[local] Instance granting : Admission := {| reserve_change _ _ _ := Ok (); try_reserve := Some (λ _, Ok ()) |}.
#[local] Instance granting_laws : AdmissionLaws.
Proof. split; [done|]. by intros r claim [= <-]. Qed.
#[local] Instance no_recipes : CloneRecipes := λ _ _ _, Ok None.
#[local] Instance no_recipes_laws : RecipeLaws.
Proof. done. Qed.
#[local] Instance one_domain : Domains := {| same_domain _ _ := true; same_reduction_share _ _ := true; same_immutability_domain _ _ := true |}.
#[local] Instance no_authorities : Authorities := λ _, None.
#[local] Instance short_names : NamePolicy := λ name, blen name =? 1.
Abbreviation example_files := (example_heap (λ _, None)).
Definition d_name : bytes := [x64].
Definition f_name : bytes := [x66].
Definition gg_name : bytes := [x67; x67].
Definition user : RequestContext := {| context_uid := 7; context_gid := 7 |}.

(** ** A new namespace *)
Definition volatile : Tree :=
  {| space := {| catalog := {| inodes := {[ ROOT_INODE := mounted Directory 0x1ED 0 0 2 0 default_metadata (new_times example_time) None (new_empty 1) ]}; handles := ∅ |}; dirty_payload := 0 |};
     entries := ∅; lookup_counts := ∅; next_inode := 2; inode_reservation_end := u64_max; next_handle := 1; active_create_metadata_bytes := ∅ |}.
Lemma volatile_wf : tree_wf example_files volatile.
Proof. destruct (new_volatile_wf example_files 255 1 ltac:(done) example_time) as (t&[= <-]&Hw); [done|done]. Qed.
Lemma root_linked t : linked t ROOT_INODE.
Proof. intros _. constructor. Qed.
Definition mkdir_d : tree_request := MkdirRequest example_time user ROOT_INODE d_name 0x1ED 0x12.
Definition create_f : tree_request := CreateFile example_time
  {| create_context := user; create_parent := ROOT_INODE; create_name := f_name; create_mode := 0x1A4; create_umask := 0; create_options := {| access := ReadWrite; append_mode := false |};
     exclusive := true; truncate := false |}.
(** A file is made and renamed, unlinked while it is open, then closed and
    forgotten; a name in a missing directory is refused *)
Definition story : list tree_request :=
  [mkdir_d; create_f; RenameRequest example_time ROOT_INODE f_name ROOT_INODE gg_name true; MkdirRequest example_time user ROOT_INODE gg_name 0 0;
   ChangeRequest example_time user 3 (ModeChange 0x180); UnlinkRequest example_time ROOT_INODE gg_name; RmdirRequest ROOT_INODE d_name; ReleaseRequest 3 1; ForgetRequest 3 1; ForgetRequest 2 5].
Lemma tree_history_exact_witness :
  ∃ t', tree_run u64_max 255 1 volatile story = Ok t' ∧ dirty_payload (space t') = msum inode_dirty (inodes_of t') ∧
    (∀ p n i, entries t' !! (p, n) = Some i → is_dir (inodes_of t') p = true ∧ reach (entries t') p ∧ is_Some (inodes_of t' !! i)) ∧
    ∀ i st, inodes_of t' !! i = Some st → link_count st = expected (entries t') (inodes_of t') i ∧ (kind st = Directory → names (entries t') i ≤ 1) ∧ (link_count st = 0 → pinned t' i).
Proof.
  apply (tree_history_exact example_files u64_max 255 1); [done|apply volatile_wf|]. repeat (split; [try apply root_linked; try done|intros ? _]). done.
Defined.
(** Nothing is left of the file and the directory *)
Example story_ends : match tree_run u64_max 255 1 volatile story with Ok t' => (map_to_list (entries t'), (λ kv, (kv.1, link_count kv.2)) <$> map_to_list (inodes_of t')) = ([], [(ROOT_INODE, 2)]) | _ => False end.
Proof. by vm_compute. Qed.
(** A new directory is made; a name that does not exist is not moved *)
Definition rename_f : tree_request := RenameRequest example_time ROOT_INODE f_name ROOT_INODE gg_name false.
Lemma tree_request_errors_witness : (∃ t', handle_tree u64_max 255 1 volatile mkdir_d = Ok (t', true)) ∧ handle_tree u64_max 255 1 volatile rename_f = Err NoEntry.
Proof.
  split.
  - destruct (tree_request_errors example_files u64_max 255 1 ltac:(done) volatile mkdir_d volatile_wf (root_linked _) eq_refl) as (loop&Hloop&Hr). destruct loop; [by destruct (proj1 Hloop eq_refl)|].
    assert (Hn : first_error (tree_errors 255 false volatile mkdir_d) = None) by (by vm_compute). by rewrite Hn in Hr.
  - destruct (tree_request_errors example_files u64_max 255 1 ltac:(done) volatile rename_f volatile_wf (root_linked _) eq_refl) as (loop&_&Hr).
    assert (Hn : first_error (tree_errors 255 loop volatile rename_f) = Some NoEntry) by (by destruct loop; vm_compute). by rewrite Hn in Hr.
Defined.
(** ** A link that fails after it has been made *)
Definition full : Tree := match tree_run u64_max 255 1 volatile [mkdir_d; create_f] with Ok t => set_lookups t (<[3 := u64_max]> (lookup_counts t)) | _ => volatile end.
Lemma full_wf : tree_wf example_files full.
Proof.
  destruct (tree_run_spec example_files u64_max 255 1 ltac:(done) volatile [mkdir_d; create_f]) as (t&Hrun&Hw); [apply volatile_wf|split; [apply root_linked|intros ? _]; split; [apply root_linked|done]|].
  unfold full. rewrite Hrun. apply (lookup_becomes example_files t (entries t)); [by apply becomes_refl|done|]. revert Hrun. vm_compute. intros [= <-]. by eexists.
Qed.
(** A link whose inode has as many lookups as the counter holds is answered with
    an error although the new name has been made. *)
Theorem link_error_keeps_name : tree_wf example_files full ∧
  ∃ t', link 255 full example_time user 3 ROOT_INODE gg_name = Ok (t', Err NoSpace) ∧ entries full !! (ROOT_INODE, gg_name) = None ∧ entries t' !! (ROOT_INODE, gg_name) = Some 3.
Proof. split; [apply full_wf|]. eexists. split_and!; [by vm_compute|by vm_compute|]. by vm_compute. Qed.
(** ** Removed directories *)
(** Reading a directory that has been removed while a lookup holds it stops the
    server: it has no parent entry. *)
Theorem removed_directory_read_panics : ∃ t, tree_run u64_max 255 1 volatile [mkdir_d; RmdirRequest ROOT_INODE d_name] = Ok t ∧ tree_wf example_files t ∧ read_directory t 2 0 false = Panic.
Proof.
  destruct (tree_run_spec example_files u64_max 255 1 ltac:(done) volatile [mkdir_d; RmdirRequest ROOT_INODE d_name]) as (t&Hrun&Hw); [apply volatile_wf|split; [apply root_linked|intros ? _]; by split|].
  exists t. split; [done|]. split; [done|].
  assert (Hc : match tree_run u64_max 255 1 volatile [mkdir_d; RmdirRequest ROOT_INODE d_name] with Ok t => read_directory t 2 0 false | _ => Err Io end = Panic) by (by vm_compute).
  by rewrite Hrun in Hc.
Qed.
(** A read that counts lookups counts them for the rows of the directory itself
    and of its parent too, so that a directory listed once stays after it has been
    removed and its own lookup forgotten. *)
Theorem listed_directory_stays :
  let after reqs := match tree_run u64_max 255 1 volatile reqs with Ok t => Some (link_count <$> inodes_of t !! 2, lookup_counts t !! 2, lookup_counts t !! ROOT_INODE) | _ => None end in
  after [mkdir_d; RmdirRequest ROOT_INODE d_name; ForgetRequest 2 1] = Some (None, None, None) ∧
  after [mkdir_d; ReadDirectoryRequest 2 0 true; RmdirRequest ROOT_INODE d_name; ForgetRequest 2 1] = Some (Some 0, Some 1, Some 1).
Proof. by vm_compute. Qed.
(** ** A snapshot *)
Definition example_snapshot : CommittedNamespaceSnapshot :=
  {| snapshot_next_inode := 9; snapshot_reservation_end := 100; namespace_mutation_sequence := 5; root_mode := 0x1ED; root_uid := 0; root_gid := 0; root_metadata := default_metadata;
     root_times := default_times;
     committed_inodes := [{| ci_inode := 3; ci_mode := 0x1A4; ci_uid := 7; ci_gid := 7; ci_link_count := 2; ci_mutation_sequence := 4; ci_metadata := default_metadata; ci_times := default_times;
                             ci_file := EmptyCommittedFile 1 |}];
     committed_directories := [{| cd_inode := 2; cd_mode := 0x1ED; cd_uid := 7; cd_gid := 7; cd_link_count := 2; cd_mutation_sequence := 1; cd_metadata := default_metadata; cd_times := default_times |}];
     committed_symlinks := [{| cs_inode := 4; cs_uid := 7; cs_gid := 7; cs_link_count := 1; cs_mutation_sequence := 2; cs_times := default_times; cs_target := f_name |}];
     committed_entries := [{| ce_parent := 1; ce_target := 2; ce_name := d_name |}; {| ce_parent := 2; ce_target := 3; ce_name := f_name |}; {| ce_parent := 1; ce_target := 3; ce_name := gg_name |};
                           {| ce_parent := 2; ce_target := 4; ce_name := gg_name |}] |}.
Lemma example_snapshot_ok : snapshot_ok example_files example_snapshot.
Proof.
  split; cbn [example_snapshot snapshot_next_inode root_metadata committed_inodes committed_directories committed_symlinks]; [done|apply default_wf| | |].
  - intros c ->%list_elem_of_singleton. cbn [ci_inode ci_link_count ci_mutation_sequence ci_file ci_metadata]. split_and!; [done|done|done|done|done|by apply empty_file_ok|done|apply default_wf].
  - intros c ->%list_elem_of_singleton. split_and!; [done|done|done|apply default_wf].
  - intros c ->%list_elem_of_singleton. by split_and!.
Qed.
Lemma mount_establishes_tree_witness :
  match from_committed_mode 255 1 example_snapshot with
  | Ok t => tree_wf example_files t ∧ next_inode t = snapshot_next_inode example_snapshot ∧
      (∀ p n i, entries t !! (p, n) = Some i ↔ {| ce_parent := p; ce_target := i; ce_name := n |} ∈ committed_entries example_snapshot) ∧
      ∀ i st, (i, st) ∈ committed_states 1 example_snapshot → inodes_of t !! i = Some (set_matches st (matching (entries t) i))
  | Err _ => True
  | Panic => False
  end ∧ match from_committed_mode 255 1 example_snapshot with Ok t => link_count <$> inodes_of t !! ROOT_INODE = Some 3 | _ => False end.
Proof. split; [apply (mount_establishes_tree example_files 255 1); [done|apply example_snapshot_ok|done]|by vm_compute]. Defined.
(** A snapshot in which two directories hold each other is refused *)
Example cycle_refused : from_committed_mode 255 1
  {| snapshot_next_inode := 9; snapshot_reservation_end := 100; namespace_mutation_sequence := 5; root_mode := 0x1ED; root_uid := 0; root_gid := 0; root_metadata := default_metadata;
     root_times := default_times; committed_inodes := [];
     committed_directories := [{| cd_inode := 2; cd_mode := 0; cd_uid := 7; cd_gid := 7; cd_link_count := 3; cd_mutation_sequence := 1; cd_metadata := default_metadata; cd_times := default_times |};
                               {| cd_inode := 3; cd_mode := 0; cd_uid := 7; cd_gid := 7; cd_link_count := 3; cd_mutation_sequence := 1; cd_metadata := default_metadata; cd_times := default_times |}];
     committed_symlinks := [];
     committed_entries := [{| ce_parent := 2; ce_target := 3; ce_name := d_name |}; {| ce_parent := 3; ce_target := 2; ce_name := d_name |}] |} = Err InvalidArgument.
Proof. by vm_compute. Qed.
End NamespaceExamples.
